(* ===== verification/_CoqProject ===== *)
-Q . S2P
Prelude.v
Varint.v
ZeroCopyStream.v
CodedInput.v
CodedInputSpec.v
CopyingStream.v
StreamsSpec.v
RepeatedField.v
WireFormatLite.v
WireRead.v
UnknownFields.v
UnknownFieldsSpec.v
UnknownFieldsCodec.v
UnknownFieldsTheorems.v
ZeroCopyOutput.v
EpsCopyOutput.v
EpsCopyOutputSpec.v
CodedOutputSpec.v
ArrayOutputSpec.v
TimeUtil.v
TimeUtilSpec.v
TimeUtilStrings.v
FieldMask.v
FieldMaskSpec.v
FieldMaskTrees.v
FieldMaskTheorems.v
Tokenizer.v
TokenValues.v
TokenizerFlat.v
TokenizerRefine.v
TokenShapes.v
TokenizerSpec.v
TokenValuesSpec.v
TokensForward.v
TokensRoundTrip.v
PointerDecoders.v
EpsCopyInput.v
EpsCopyInputSpec.v
ParseContext.v
ParseContextSpec.v
ParseContextTheorems.v
Utf8.v
PackedReaders.v
PackedReadersSpec.v
PackedReadersTheorems.v
JsonStream.v
JsonStreamSpec.v
JsonLexer.v
JsonFlat.v
JsonLexerSpec.v
ByteSink.v
JsonWriter.v
JsonText.v
JsonGrammar.v
JsonWriterSpec.v
JsonValues.v
JsonTheorems.v
JsonBase64.v
