(* ===== verification/Prelude.v ===== *)
(** * Verification of the protocol-buffer runtime of pandaparty

    The repository is a game backend written in Go around a copy of the C++
    protocol-buffer library, [src/infra/google/protobuf]. The C++ library is the
    part with a specification of its own (the wire format, the stream contracts,
    the utilities' documentation), and this development models the parts of it
    that do not need a message type: the wire format, the streams below it, the
    scalar container, unknown fields, times, field masks, the lexer of
    [.proto] files and text messages, and the lexer and writer of JSON. Paths below are relative to [src/infra/google/protobuf].

    ** How the parts fit

    - Bytes come from a [ZeroCopyInputStream] (ZeroCopyStream.v,
      CopyingStream.v: arrays, limits, copying readers, concatenations), through
      a [CodedInputStream] (CodedInput.v), to readers of fields: scalars,
      repeated and packed fields into a [RepeatedField] (WireRead.v,
      RepeatedField.v), and fields nobody knows, which are skipped or kept in an
      [UnknownFieldSet] (UnknownFields.v).
    - Bytes go the other way from the array writers (Varint.v, WireFormatLite.v)
      and from [UnknownFieldSet]'s serializer through an [EpsCopyOutputStream]
      and [CodedOutputStream] (EpsCopyOutput.v) into a [ZeroCopyOutputStream]
      (ZeroCopyOutput.v: array, string, copying sink).
    - Generated code reads messages with a second parser, whose cursor is a pointer
      into the current buffer of an [EpsCopyInputStream] (EpsCopyInput.v,
      PointerDecoders.v). The part of it that needs no message type, the parsers of
      unknown fields and the entry points, is ParseContext.v.
    - Text goes from a [ZeroCopyInputStream] through a [Tokenizer] (Tokenizer.v),
      whose integer and string tokens have values (TokenValues.v).
    - JSON goes from a [ZeroCopyInputStream] through a [ZeroCopyBufferedStream]
      (JsonStream.v), which keeps what is still referred to, into a [JsonLexer]
      (JsonLexer.v), and from a [JsonWriter] (JsonWriter.v) through a
      [ZeroCopyStreamByteSink] (ByteSink.v) into a [ZeroCopyOutputStream].
    - TimeUtil.v and FieldMask.v are utilities on top of generated messages whose
      fields are plain data.

    Two classes are the interfaces: [ZeroCopyInputStream] with its laws
    [ZeroCopyInputStreamOk], and [ZeroCopyOutputStream] with
    [ZeroCopyOutputStreamOk]. Everything above a stream is proved against the
    laws, and each stream of the library is an instance. The copying streams are
    likewise proved for any [CopyingInputStream] or [CopyingOutputStream].

    ** Conventions

    A machine integer is a [Z], and each operation that wraps says so ([u32],
    [u64], [s32], [s64]). Signed overflow, a read or store outside of the memory
    it may touch, and a failed [ABSL_DCHECK] or [ABSL_CHECK] are undefined
    behaviour and have no result: [None], of [option] in the pure functions and
    of the state monad [M] in the stateful ones. An error that the code reports
    is a value ([false], a negative limit, [had_error_]). So a theorem that gives
    a result also says that nothing undefined happens and that the code returns.
    Statements about stateful code are weakest preconditions over [M] ([wp] of
    Prelude.v, with its rules in the hint database and its tactics).

    Loops that the code bounds are structural. The others take fuel, computed in
    the model from the state (the bytes left in the stream, the declared size),
    and running out has no result; since the theorems state results, they show
    that the fuel is enough. The recursion of groups is bounded by the
    [CodedInputStream]'s recursion budget. The host is little-endian and 64-bit
    where a choice has to be made; where the code has both compilations (varint
    sizes by leading zeros or by division, vectorized sums or loops, packed
    readers), both are modelled.

    ** The files

    - Prelude.v (this file): bytes, machine integers, lists indexed by [Z], the
      monad, its rules, automation.
    - Varint.v: [io/coded_stream.h] and [.cc], the array level. Loop writers,
      unrolled readers, sizes, zig-zag, little-endian. Theorems: the decoders
      agree with a reference ([unrolled_decoders_correct]), values survive
      ([varint_roundtrip]).
    - ZeroCopyStream.v, CopyingStream.v, StreamsSpec.v: [io/zero_copy_stream.h],
      [io/zero_copy_stream_impl_lite.h] and [.cc], [io/zero_copy_stream_impl.cc].
      Theorems: each stream keeps the contract, so that a reader over it reads
      the bytes it stands for ([concatenated_arrays], [copying_adaptor_session],
      [limiting_stream_is_prefix]).
    - CodedInput.v, CodedInputSpec.v: [CodedInputStream] as a record with the
      class's fields, each method a computation in [M]. [spec] is the flat
      reader of a byte list; [session_refines_spec] is the refinement for any
      script of reads over any stream, read before or not;
      [push_pop_limit_scoped] is the scoping of limits.
    - RepeatedField.v: [repeated_field.h], with the tagged-pointer word of the
      small-object layout. [repeated_field_refines_list]: a script of mutations is
      the script on lists; [reserve_size_policy]: the growth policy. The allocator
      is a parameter that may give more than was asked.
    - WireFormatLite.v: [wire_format_lite.h] and [.cc]. Tags, tables, writers and
      sizes; sizes are exact and the vectorized sums equal the loops.
    - WireRead.v: the readers of the same files. What is written is read back; the
      specialised paths agree with the reading of one element at a time.
    - UnknownFields.v, UnknownFieldsSpec.v, UnknownFieldsCodec.v,
      UnknownFieldsTheorems.v: [unknown_field_set.h] and [.cc], [wire_format.cc],
      and the skippers of [wire_format_lite.cc]. One parser of byte lists is the
      specification of all three skippers ([skippers_agree]); it and the
      serializer are inverse ([set_roundtrip], [canonical_copy]); the operations
      on sets.
    - PointerDecoders.v: the decoders of [parse_context.h] and [.cc], which read
      ahead of what they have checked; all of them, the ones for ARM included, agree
      ([pointer_decoders_agree]).
    - EpsCopyInput.v: [EpsCopyInputStream], with its buffer flips through the patch
      buffer, limits and bulk readers; ParseContext.v: [ParseContext], the parser of
      unknown fields with its two clients, [MergeFromImpl] of [message_lite.cc].
      EpsCopyInputSpec.v: what a context holds is a list of bytes, on which each
      operation moves, for any stream. ParseContextSpec.v: [read] is the parser of
      lists with this parser's limits, and the code does what it says, for any
      callbacks with the right effect. ParseContextTheorems.v: the two clients, the
      constructors and the entry points ([parse_context_any_stream]), the bytes a
      bounded parse leaves in the stream ([bounded_parse_gives_back]), and the
      agreement with the skippers over a [CodedInputStream] ([parsers_agree]).
      PackedReaders.v, PackedReadersSpec.v, PackedReadersTheorems.v: its readers of
      packed and repeated fields, which agree with those of WireRead.v
      ([packed_parsers_agree]), and the check of UTF-8 across buffers
      ([utf8_any_buffers]; Utf8.v has the well-formed sequences).
    - ZeroCopyOutput.v, EpsCopyOutput.v, EpsCopyOutputSpec.v, CodedOutputSpec.v,
      ArrayOutputSpec.v: output. A store goes through a pointer that is an offset
      into the stream's buffer, an array or the patch buffer, and each is checked
      against the bytes it may touch. [coded_output_appends]: a script of writes
      appends its encodings, for any buffer sizes; the same composed with the
      string, copying and array destinations.
    - TimeUtil.v, TimeUtilSpec.v, TimeUtilStrings.v: [util/time_util.h] and
      [.cc]. A valid value is a number of nanoseconds, and the operators, the
      normalization, the conversions and the string form are those of that number.
    - FieldMask.v, FieldMaskSpec.v, FieldMaskTrees.v, FieldMaskTheorems.v:
      [util/field_mask_util.h] and [.cc]. A mask covers the set of paths one of its
      paths is a prefix of; tree operations are operations on that set, and the
      canonical form is a normal form for it.

    - Tokenizer.v, TokenValues.v: [io/tokenizer.h] and [.cc]. TokenizerFlat.v is the
      same lexer on a list of bytes, without buffers and recording; TokenizerRefine.v
      proves that each operation computes it over any stream. TokenShapes.v: what
      is between two tokens and the forms of their texts; TokensForward.v: what has
      such a form is read without an error. Theorems: the stream below is
      invisible, in Next and NextWithComments ([tokenizer_any_stream]); the tokens
      and the gaps tile the input, with their positions ([tokens_tile_input]);
      written tokens are read back ([tokens_roundtrip], TokensRoundTrip.v);
      ParseInteger and ParseString are exact ([integer_values], [string_values],
      TokenValuesSpec.v). The input has to be short enough for an [int] column
      number, a tab counting eight.

    - JsonStream.v, JsonStreamSpec.v: [json/internal/zero_copy_buffered_stream.h]
      and [.cc]. A view into the stream lives as long as a counted guard; the
      specification says which bytes are kept for the guards, and that an operation
      changes the bytes ahead by what it takes and no string that is held.
    - JsonLexer.v: [json/internal/lexer.h] and [.cc]. JsonFlat.v is the same lexer
      on a list of bytes, without buffers and guards; JsonLexerSpec.v proves by
      simulation that each operation computes it over any stream
      ([skip_value_any_stream]). The recursion of [SkipValue] is bounded by the bytes
      that are left plus one, since a nested value comes behind at least a bracket;
      loops by bytes left plus two.
    - ByteSink.v: [io/zero_copy_sink.h] and [.cc], model and specification: what is
      appended to the sink is in the output stream when the sink goes. Its loop
      has fuel for the bytes and for the empty buffers the stream may hand out.
    - JsonWriter.v, JsonWriterSpec.v: [json/internal/writer.h] and [.cc].
    - JsonText.v, JsonGrammar.v, JsonValues.v: the bits of UTF-8, surrogates and
      hexadecimal escapes; the grammar of strings, numbers and values of RFC 8259.
    - JsonTheorems.v: what the grammar admits is taken ([skip_value_takes_values])
      and what the writer prints for a string is read back ([string_roundtrip]); the
      runs behind the remarks on blanks, places and surrogates. JsonBase64.v:
      [DecodeBase64InPlace] of [json/internal/parser.cc], on the array that it reads
      and overwrites, and its inverse in the writer ([base64_roundtrip]).

    A theorem about code is called a claim and its comment starts with its number;
    a claim with hypotheses is followed by a witness at a concrete input. The
    examples that are not claims record behaviour that may surprise, such as
    [packed_past_the_end_accepted] and [adaptor_next_recovers].

    ** Parameters

    Code outside of the repository is a parameter with laws: the allocator
    (RepeatedField.v), the growth of [std::string] (ZeroCopyOutput.v), integer
    formatting by [absl::StrFormat] (TimeUtilStrings.v, TokenValues.v), the validator
    of [utf8_validity.h] (Utf8.v), message descriptors and string splitting
    (FieldMask.v), [absl::SimpleAtod] (JsonLexer.v), the digits of a number that the
    JSON writer prints (JsonWriter.v). Witnesses give concrete ones.

    ** Not modelled

    - [absl::Cord] and its streams, the gzip, file and iostream streams: wrappers
      of code outside of the repository.
    - The table-driven parser ([generated_message_tctable_lite.cc]), which runs on
      the tables that protoc generates: it is an argument of [MergeFromImpl]. Of
      [parse_context.h]: cords, arena and micro strings, map entries and the packed
      parser that validates enums. [ParseEndsInSlopRegion] and the tracking of groups
      are definitions; the theorems are for a context that does not track them.
    - Descriptors, reflection and what is built on them (text format, JSON to
      messages, map fields, the differencer, the message operations of field
      masks): they walk objects of generated types.
    - Arenas: allocation is a parameter of the container.
    - protoc and its generators, and generated code; the parser of [.proto] files,
      which is above the tokenizer.
    - JSON: the parser and printer of messages (they use reflection or a type
      resolver), the texts of the errors (an error is a reason and a place), the
      message path that errors mention, and [scratch_buf_] of the writer. The callback
      of [VisitObject] gets the key as a value and not as an object it might move.
    - [Tokenizer::ParseFloat] and [TryParseFloat]: calls of [strtod].
    - The Go programs.
    - Aliased output: [WriteAliasedRaw] and its callers are definitions, but no
      stream of the model allows aliasing, so no theorem is about that branch. *)

From Stdlib Require Export ZArith Lia.
From Stdlib Require Import Strings.Byte.
From stdpp Require Export base tactics numbers option list.

#[global] Open Scope Z_scope.

(** ** Bytes

    A [uint8_t] is a [byte]; [b2z] reads its value and [z2b] is the cast
    [static_cast<uint8_t>], which keeps the eight low bits. *)

Notation byte := Byte.byte.

#[global] Instance byte_eq_dec : EqDecision byte := Byte.byte_eq_dec.

Definition b2z (b : byte) : Z := Z.of_N (Byte.to_N b).

Definition z2b (z : Z) : byte :=
  match Byte.of_N (Z.to_N (z mod 256)) with
  | Some b => b
  | None => Byte.x00
  end.

Lemma b2z_range b : 0 <= b2z b < 256.
Proof.
  unfold b2z. pose proof (Byte.to_N_bounded b). lia.
Qed.

Lemma b2z_z2b z : b2z (z2b z) = z mod 256.
Proof.
  unfold b2z, z2b. pose proof (Z.mod_pos_bound z 256 ltac:(lia)) as Hz.
  destruct (Byte.of_N _) as [b|] eqn:E.
  - apply Byte.to_of_N in E. rewrite E. lia.
  - apply Byte.of_N_None_iff in E. lia.
Qed.

Lemma z2b_b2z b : z2b (b2z b) = b.
Proof.
  unfold z2b. rewrite Z.mod_small by apply b2z_range.
  unfold b2z. rewrite N2Z.id, Byte.of_to_N. reflexivity.
Qed.

Lemma b2z_inj b c : b2z b = b2z c -> b = c.
Proof. intros H. rewrite <- (z2b_b2z b), <- (z2b_b2z c). by rewrite H. Qed.

Lemma b2z_z2b_small z : 0 <= z < 256 -> b2z (z2b z) = z.
Proof. intros. rewrite b2z_z2b. by apply Z.mod_small. Qed.

Lemma z2b_mod z : z2b (z mod 256) = z2b z.
Proof. unfold z2b. by rewrite Z.mod_mod by lia. Qed.

(** ** Machine integers

    Every C++ integer is a [Z]; [u8], [u32], [u64] are the unsigned casts,
    [s32], [s64] the two's-complement ones. *)

Definition u8 (z : Z) : Z := z mod 2 ^ 8.
Definition u32 (z : Z) : Z := z mod 2 ^ 32.
Definition u64 (z : Z) : Z := z mod 2 ^ 64.
Definition s32 (z : Z) : Z := (z + 2 ^ 31) mod 2 ^ 32 - 2 ^ 31.
Definition s64 (z : Z) : Z := (z + 2 ^ 63) mod 2 ^ 64 - 2 ^ 63.

Definition INT_MAX : Z := 2 ^ 31 - 1.
Definition INT_MIN : Z := - 2 ^ 31.

Definition is_u32 (z : Z) : Prop := 0 <= z < 2 ^ 32.
Definition is_u64 (z : Z) : Prop := 0 <= z < 2 ^ 64.
Definition is_s32 (z : Z) : Prop := - 2 ^ 31 <= z < 2 ^ 31.
Definition is_s64 (z : Z) : Prop := - 2 ^ 63 <= z < 2 ^ 63.

(** [zify_pow] evaluates the powers of two so that [lia] sees literals. *)
Ltac zify_pow :=
  change (2 ^ 3) with 8 in *;
  change (2 ^ 7) with 128 in *;
  change (2 ^ 8) with 256 in *;
  change (2 ^ 31) with 2147483648 in *;
  change (2 ^ 32) with 4294967296 in *;
  change (2 ^ 63) with 9223372036854775808 in *;
  change (2 ^ 64) with 18446744073709551616 in *.

Ltac unfold_ints :=
  unfold u8, u32, u64, s32, s64, is_u32, is_u64, is_s32, is_s64, INT_MAX,
    INT_MIN in *; zify_pow.

(** [ilia] is [lia] after unfolding the integer types. *)
Ltac ilia := unfold_ints; Z.div_mod_to_equations; lia.

Lemma u32_range z : is_u32 (u32 z).
Proof. unfold is_u32, u32. apply Z.mod_pos_bound. lia. Qed.
Lemma u64_range z : is_u64 (u64 z).
Proof. unfold is_u64, u64. apply Z.mod_pos_bound. lia. Qed.
Lemma s32_range z : is_s32 (s32 z).
Proof. ilia. Qed.
Lemma s64_range z : is_s64 (s64 z).
Proof. ilia. Qed.
Lemma u32_id z : is_u32 z -> u32 z = z.
Proof. intros. unfold u32. by apply Z.mod_small. Qed.
Lemma u64_id z : is_u64 z -> u64 z = z.
Proof. intros. unfold u64. by apply Z.mod_small. Qed.
Lemma s32_u32 z : is_s32 z -> s32 (u32 z) = z.
Proof. intros. ilia. Qed.
Lemma s64_u64 z : is_s64 z -> s64 (u64 z) = z.
Proof. intros. ilia. Qed.
Lemma s32_id z : is_s32 z -> s32 z = z.
Proof. intros. ilia. Qed.
Lemma s64_id z : is_s64 z -> s64 z = z.
Proof. intros. ilia. Qed.
Lemma u32_u64 z : u32 (u64 z) = u32 z.
Proof. ilia. Qed.

Create HintDb ints.
#[export] Hint Resolve u32_range u64_range s32_range s64_range b2z_range : ints.
#[export] Hint Rewrite b2z_z2b z2b_b2z : ints.
#[export] Hint Rewrite u32_id u64_id s32_id s64_id s32_u32 s64_u64
  using (solve [auto with ints | ilia]) : ints.

(** ** Partial state monad

    C++ member functions that mutate their object are functions from the
    object's state to its result and new state. [None] is an execution the
    language or the code's own checks rule out: an out-of-bounds read, a null
    dereference, a failed [ABSL_CHECK]. Theorems about an operation state the
    weakest precondition [wp], so they always include that no such execution
    occurs. *)

Definition M (S A : Type) : Type := S -> option (A * S).

Definition mret_ {S A} (a : A) : M S A := fun s => Some (a, s).
Definition mbind_ {S A B} (m : M S A) (f : A -> M S B) : M S B :=
  fun s => match m s with Some (a, s') => f a s' | None => None end.
Definition getS {S} : M S S := fun s => Some (s, s).
Definition putS {S} (s : S) : M S unit := fun _ => Some (tt, s).
Definition gets {S A} (f : S -> A) : M S A := fun s => Some (f s, s).
Definition modS {S} (f : S -> S) : M S unit := fun s => Some (tt, f s).
Definition undef {S A} : M S A := fun _ => None.
Definition lift {S A} (o : option A) : M S A :=
  fun s => match o with Some a => Some (a, s) | None => None end.

Declare Scope cpp_scope.
Delimit Scope cpp_scope with cpp.
Notation "'let*' p ':=' m 'in' k" := (mbind_ m (fun p => k))
  (at level 200, p pattern, m at level 100, k at level 200,
   right associativity) : cpp_scope.
Notation "m ;;; k" := (mbind_ m (fun _ => k))
  (at level 100, right associativity) : cpp_scope.
Notation "'ret' a" := (mret_ a) (at level 10, a at level 9) : cpp_scope.
Open Scope cpp_scope.

(** A debug check or an assertion that stops the program. *)
Definition dcheck {S} (b : bool) : M S unit := if b then ret tt else undef.

Definition wp {S A} (m : M S A) (s : S) (Q : A -> S -> Prop) : Prop :=
  match m s with Some (a, s') => Q a s' | None => False end.

Section wp.
Context {S : Type}.

Lemma wp_ret {A} (a : A) (s : S) Q : Q a s -> wp (mret_ a) s Q.
Proof. done. Qed.
Lemma wp_gets {A} (f : S -> A) s Q : Q (f s) s -> wp (gets f) s Q.
Proof. done. Qed.
Lemma wp_modS (f : S -> S) s Q : Q tt (f s) -> wp (modS f) s Q.
Proof. done. Qed.
Lemma wp_getS (s : S) Q : Q s s -> wp getS s Q.
Proof. done. Qed.
Lemma wp_lift {A} (a : A) o (s : S) Q : o = Some a -> Q a s -> wp (lift o) s Q.
Proof. intros ->. done. Qed.
Lemma wp_bind {A B} (m : M S A) (f : A -> M S B) s Q :
  wp m s (fun a s' => wp (f a) s' Q) -> wp (mbind_ m f) s Q.
Proof. unfold wp, mbind_. destruct (m s) as [[a s']|]; done. Qed.
Lemma wp_mono {A} (m : M S A) s (P Q : A -> S -> Prop) :
  wp m s P -> (forall a s', P a s' -> Q a s') -> wp m s Q.
Proof. unfold wp. destruct (m s) as [[a s']|]; auto. Qed.
Lemma wp_and {A} (m : M S A) s (P Q : A -> S -> Prop) :
  wp m s P -> wp m s Q -> wp m s (fun a s' => P a s' /\ Q a s').
Proof. unfold wp. destruct (m s) as [[a s']|]; auto. Qed.
Lemma wp_inv {A} (m : M S A) s Q :
  wp m s Q -> exists a s', m s = Some (a, s') /\ Q a s'.
Proof. unfold wp. destruct (m s) as [[a s']|]; eauto. done. Qed.
Lemma wp_bind_inv {A B} (m : M S A) (k : A -> M S B) s Q : wp (mbind_ m k) s Q -> wp m s (fun a s' => wp (k a) s' Q).
Proof. unfold wp, mbind_. by destruct (m s) as [[a s']|]. Qed.
Lemma wp_run {A} (m : M S A) s a s' Q : m s = Some (a, s') -> wp m s Q -> Q a s'.
Proof. unfold wp. by intros ->. Qed.
End wp.

(** A call on one of two objects. *)
Definition on_fst {S T A} (m : M S A) : M (S * T) A := fun s =>
  match m s.1 with Some (a, x) => Some (a, (x, s.2)) | None => None end.
Definition on_snd {S T A} (m : M T A) : M (S * T) A := fun s =>
  match m s.2 with Some (a, x) => Some (a, (s.1, x)) | None => None end.

Lemma on_fst_wp {S T A} (m : M S A) s (t : T) Q :
  wp m s (fun a s' => Q a (s', t)) -> wp (on_fst m) (s, t) Q.
Proof. unfold wp, on_fst. simpl. by destruct (m s) as [[a s']|]. Qed.

Lemma on_snd_wp {S T A} (m : M T A) (s : S) t Q :
  wp m t (fun a t' => Q a (s, t')) -> wp (on_snd m) (s, t) Q.
Proof. unfold wp, on_snd. simpl. by destruct (m t) as [[a t']|]. Qed.

(** One step of symbolic execution. *)
Ltac wp_step :=
  match goal with
  | |- wp (mbind_ _ _) _ _ => apply wp_bind
  | |- wp (mret_ _) _ _ => apply wp_ret
  | |- wp (gets _) _ _ => apply wp_gets
  | |- wp (modS _) _ _ => apply wp_modS
  | |- wp getS _ _ => apply wp_getS
  end.
Ltac wp_steps := repeat (wp_step; cbv beta).

(** [wp_use H] executes the next call by its specification [H]. *)
Ltac wp_use H := eapply wp_mono; [eapply H | cbv beta].

(** ** Arithmetic lemmas shared by the codecs *)

Lemma u32_add_l a b : u32 (u32 a + b) = u32 (a + b).
Proof. unfold u32. by rewrite Z.add_mod_idemp_l by lia. Qed.
Lemma u32_add_r a b : u32 (a + u32 b) = u32 (a + b).
Proof. unfold u32. by rewrite Z.add_mod_idemp_r by lia. Qed.
Lemma u32_sub_l a b : u32 (u32 a - b) = u32 (a - b).
Proof. unfold u32. by rewrite Zminus_mod_idemp_l. Qed.
Lemma u64_add_l a b : u64 (u64 a + b) = u64 (a + b).
Proof. unfold u64. by rewrite Z.add_mod_idemp_l by lia. Qed.
Lemma u64_add_r a b : u64 (a + u64 b) = u64 (a + b).
Proof. unfold u64. by rewrite Z.add_mod_idemp_r by lia. Qed.
Lemma u64_mul_l a b : u64 (u64 a * b) = u64 (a * b).
Proof. unfold u64. by rewrite Z.mul_mod_idemp_l by lia. Qed.

#[export] Hint Rewrite u32_add_l u32_add_r u32_sub_l u64_add_l u64_add_r : wrap.

(** A boolean fact about the 256 byte values, by enumeration. *)
Lemma byte_forall (P : Z -> bool) :
  forallb P (map Z.of_nat (seq 0 256)) = true ->
  forall x, 0 <= x < 256 -> P x = true.
Proof.
  intros H x Hx. rewrite forallb_forall in H. apply H.
  rewrite in_map_iff. exists (Z.to_nat x). split; [lia|].
  apply in_seq. lia.
Qed.

Lemma land_80 b : (Z.land (b2z b) 0x80 =? 0) = (b2z b <? 128).
Proof.
  pose proof (byte_forall
    (fun x => eqb (Z.land x 0x80 =? 0) (x <? 128)) eq_refl _ (b2z_range b)) as H.
  by apply eqb_prop in H.
Qed.

Lemma land_7f b : Z.land (b2z b) 0x7F = b2z b mod 128.
Proof. change 0x7F with (Z.ones 7). by rewrite Z.land_ones. Qed.

Lemma lor_128_mod v : 0 <= v -> Z.lor v 128 mod 256 = v mod 128 + 128.
Proof.
  intros Hv. change 256 with (2 ^ 8). rewrite <- Z.land_ones by lia.
  rewrite Z.land_lor_distr_l, Z.land_ones by lia.
  change (2 ^ 8) with 256. change (Z.land 128 (Z.ones 8)) with 128.
  pose proof (byte_forall
    (fun x => Z.lor x 128 =? x mod 128 + 128) eq_refl
    (v mod 256) ltac:(apply Z.mod_pos_bound; lia)) as H.
  apply Z.eqb_eq in H. rewrite H. f_equal.
  Z.div_mod_to_equations; lia.
Qed.

(** An aligned address or a shifted field number, and the three bits below it. *)
Lemma lor_8 n t : 0 <= t < 8 -> Z.lor (8 * n) t = 8 * n + t.
Proof.
  intros Ht. symmetry. replace (8 * n) with (n * 2 ^ 3) by lia.
  rewrite <- Z.lxor_lor, <- Z.add_nocarry_lxor; [done|..];
    (apply Z.bits_inj'; intros i Hi; rewrite Z.land_spec, Z.bits_0;
     destruct (decide (i < 3)); [by rewrite Z.mul_pow2_bits_low|];
     rewrite (Z.bits_above_log2 t i), andb_false_r; [done|lia|];
     destruct (decide (t = 0)) as [->|]; [simpl; lia|];
     apply Z.log2_lt_pow2; [lia|];
     apply Z.lt_le_trans with (2 ^ 3); [simpl; lia|apply Z.pow_le_mono_r; lia]).
Qed.

(** Case split on the boolean comparisons of the goal. *)
Ltac case_cmp :=
  repeat match goal with
  | |- context [?a <? ?b] => destruct (Z.ltb_spec a b)
  | |- context [?a <=? ?b] => destruct (Z.leb_spec a b)
  | |- context [?a =? ?b] => destruct (Z.eqb_spec a b)
  end.

(** [wrap_congr] proves [u32 a = u32 b] (or [u64]) when [a] and [b] agree up to
    inner casts: each inner cast is replaced by its argument plus a multiple of
    the modulus. *)
Lemma u32_eq x : exists k, u32 x = x + 2 ^ 32 * k.
Proof. exists (- (x / 2 ^ 32)). ilia. Qed.
Lemma u64_eq x : exists k, u64 x = x + 2 ^ 64 * k.
Proof. exists (- (x / 2 ^ 64)). ilia. Qed.
Lemma u32_congr a b : (a - b) mod 2 ^ 32 = 0 -> u32 a = u32 b.
Proof. ilia. Qed.
Lemma u64_congr a b : (a - b) mod 2 ^ 64 = 0 -> u64 a = u64 b.
Proof. ilia. Qed.

Ltac wrap_inner :=
  repeat match goal with
  | |- context [u32 ?x] =>
      lazymatch x with
      | context [u32 _] => fail
      | context [u64 _] => fail
      | _ => let k := fresh "k" in destruct (u32_eq x) as [k ->]
      end
  | |- context [u64 ?x] =>
      lazymatch x with
      | context [u32 _] => fail
      | context [u64 _] => fail
      | _ => let k := fresh "k" in destruct (u64_eq x) as [k ->]
      end
  end.

Ltac wrap_congr :=
  first [apply u32_congr | apply u64_congr]; wrap_inner;
  rewrite ?Z.shiftl_mul_pow2 by lia; Z.div_mod_to_equations; lia.

(** ** Lists indexed by C++ integers *)

Definition zlen {A} (l : list A) : Z := Z.of_nat (length l).
Definition ztake {A} (n : Z) (l : list A) : list A := take (Z.to_nat n) l.
Definition zdrop {A} (n : Z) (l : list A) : list A := drop (Z.to_nat n) l.

Section zlist.
Context {A : Type}.
Implicit Types (l k : list A) (n m : Z).

Lemma zlen_nonneg l : 0 <= zlen l.
Proof. unfold zlen. lia. Qed.
Lemma zlen_nil : zlen (@nil A) = 0.
Proof. done. Qed.
Lemma zlen_cons x l : zlen (x :: l) = 1 + zlen l.
Proof. unfold zlen. cbn [length]. lia. Qed.
Lemma zlen_app l k : zlen (l ++ k) = zlen l + zlen k.
Proof. unfold zlen. rewrite length_app. lia. Qed.
Lemma zlen_ztake n l : zlen (ztake n l) = Z.max 0 (Z.min n (zlen l)).
Proof. unfold zlen, ztake. rewrite length_take. lia. Qed.
Lemma zlen_zdrop n l : zlen (zdrop n l) = Z.max 0 (zlen l - Z.max 0 n).
Proof. unfold zlen, zdrop. rewrite length_drop. lia. Qed.
Lemma zlen_0 l : zlen l <= 0 -> l = [].
Proof. destruct l; [done|]. rewrite zlen_cons. pose proof (zlen_nonneg l). lia. Qed.
Lemma ztake_zdrop n l : ztake n l ++ zdrop n l = l.
Proof. apply take_drop. Qed.
Lemma zdrop_zdrop n m l : 0 <= n -> 0 <= m -> zdrop n (zdrop m l) = zdrop (m + n) l.
Proof. intros. unfold zdrop. rewrite drop_drop. f_equal. lia. Qed.
Lemma ztake_all n l : zlen l <= n -> ztake n l = l.
Proof. unfold zlen, ztake. intros. apply take_ge. lia. Qed.
Lemma zdrop_all n l : zlen l <= n -> zdrop n l = [].
Proof. unfold zlen, zdrop. intros. apply drop_ge. lia. Qed.
Lemma ztake_0 n l : n <= 0 -> ztake n l = [].
Proof. unfold ztake. intros. replace (Z.to_nat n) with O by lia. done. Qed.
Lemma zdrop_0 n l : n <= 0 -> zdrop n l = l.
Proof. unfold zdrop. intros. replace (Z.to_nat n) with O by lia. done. Qed.
Lemma ztake_app n l k : ztake n (l ++ k) = ztake n l ++ ztake (n - zlen l) k.
Proof.
  unfold ztake, zlen. rewrite take_app. do 2 f_equal. lia.
Qed.
Lemma zdrop_app n l k : zdrop n (l ++ k) = zdrop n l ++ zdrop (n - zlen l) k.
Proof.
  unfold zdrop, zlen. rewrite drop_app. do 2 f_equal. lia.
Qed.
Lemma ztake_ztake n m l : ztake n (ztake m l) = ztake (Z.min n m) l.
Proof. unfold ztake. rewrite take_take. f_equal. lia. Qed.
Lemma zdrop_ztake n m l : 0 <= n -> zdrop n (ztake m l) = ztake (m - n) (zdrop n l).
Proof.
  intros. unfold zdrop, ztake. rewrite skipn_firstn_comm. f_equal. lia.
Qed.
Lemma ztake_app_exact n l k : zlen l = n -> ztake n (l ++ k) = l.
Proof.
  intros <-. rewrite ztake_app, ztake_all, ztake_0, app_nil_r by lia. done.
Qed.
Lemma zdrop_app_exact n l k : zlen l = n -> zdrop n (l ++ k) = k.
Proof. intros <-. rewrite zdrop_app, zdrop_all, zdrop_0 by lia. done. Qed.
Lemma zdrop_cons n x l : 0 < n -> zdrop n (x :: l) = zdrop (n - 1) l.
Proof.
  intros. unfold zdrop. replace (Z.to_nat n) with (S (Z.to_nat (n - 1))) by lia.
  done.
Qed.
Lemma ztake_cons n x l : 0 < n -> ztake n (x :: l) = x :: ztake (n - 1) l.
Proof.
  intros. unfold ztake. replace (Z.to_nat n) with (S (Z.to_nat (n - 1))) by lia.
  done.
Qed.

Lemma ztake_add n m l : 0 <= n -> 0 <= m -> ztake (n + m) l = ztake n l ++ ztake m (zdrop n l).
Proof.
  intros Hn Hm. rewrite <- (ztake_zdrop n l) at 1. rewrite ztake_app, ztake_ztake, Z.min_r by lia. f_equal.
  rewrite zlen_ztake. pose proof (zlen_nonneg l). destruct (Z.leb_spec n (zlen l)); [f_equal; lia|].
  rewrite !zdrop_all, !ztake_all by (try lia; rewrite zlen_nil; lia). done.
Qed.

(** Bytes stored into memory. *)
Definition splice n k l : list A := ztake n l ++ k ++ zdrop (n + zlen k) l.

Lemma zlen_splice n k l : 0 <= n -> n + zlen k <= zlen l -> zlen (splice n k l) = zlen l.
Proof.
  intros. unfold splice. rewrite !zlen_app, zlen_ztake, zlen_zdrop. pose proof (zlen_nonneg k). lia.
Qed.
Lemma ztake_splice n k l : 0 <= n <= zlen l -> ztake (n + zlen k) (splice n k l) = ztake n l ++ k.
Proof.
  intros. unfold splice. rewrite app_assoc. apply ztake_app_exact.
  rewrite zlen_app, zlen_ztake. lia.
Qed.
Lemma ztake_splice_before m n k l : m <= n <= zlen l -> ztake m (splice n k l) = ztake m l.
Proof.
  intros. unfold splice. rewrite ztake_app, ztake_ztake, zlen_ztake.
  rewrite (ztake_0 (m - _)) by lia. rewrite app_nil_r. f_equal. lia.
Qed.
Lemma zdrop_splice m n k l : 0 <= n -> n + zlen k <= m -> n + zlen k <= zlen l -> zdrop m (splice n k l) = zdrop m l.
Proof.
  intros Hn Hm Hl. unfold splice. pose proof (zlen_nonneg k). rewrite !zdrop_app.
  rewrite (zdrop_all m (ztake n l)), (zdrop_all _ k) by (rewrite ?zlen_ztake; lia). cbn [app].
  rewrite zdrop_zdrop, zlen_ztake by (rewrite ?zlen_ztake; lia). f_equal. lia.
Qed.
Lemma splice_nil n l : splice n [] l = l.
Proof. unfold splice. rewrite zlen_nil, Z.add_0_r. apply ztake_zdrop. Qed.
End zlist.

#[export] Hint Rewrite @zlen_nil @zlen_cons @zlen_app @zlen_ztake @zlen_zdrop : zlen.

(** [zl] is [lia] after computing the lengths of lists. *)
Ltac zl :=
  autorewrite with zlen in *;
  repeat match goal with
  | |- context [zlen ?l] =>
      lazymatch goal with
      | _ : 0 <= zlen l |- _ => fail
      | _ => pose proof (zlen_nonneg l)
      end
  | _ : context [zlen ?l] |- _ =>
      lazymatch goal with
      | _ : 0 <= zlen l |- _ => fail
      | _ => pose proof (zlen_nonneg l)
      end
  end; unfold INT_MAX, INT_MIN in *; zify_pow; lia.
