(* ===== verification/Varint.v ===== *)
(** * Varints, zig-zag and little-endian integers

    The array-level codecs of [io/coded_stream.h], [io/coded_stream.cc] and
    [wire_format_lite.h]: [UnsafeVarint] and its callers, the two unrolled
    decoders used on a buffer known to hold a whole varint, the size formulas,
    the zig-zag maps and the fixed-width integers. A [uint8_t*] that is read is
    the list of bytes from it to the end of its array, and a read past the end
    gives [None]; a [uint8_t*] that is written is the list of bytes stored
    through it. *)

From S2P Require Import Prelude.

Definition kMaxVarintBytes : nat := 10.
Definition kMaxVarint32Bytes : nat := 5.

(** ** Reference codec

    The base-128 format on unbounded integers, least significant group first;
    [vdecode n] gives up after [n] bytes, as the format's reader must. *)

Fixpoint vdecode (n : nat) (l : list byte) : option (Z * list byte) :=
  match n, l with
  | S n, b :: l =>
      if b2z b <? 128 then Some (b2z b, l)
      else match vdecode n l with
           | Some (v, r) => Some (b2z b - 128 + 128 * v, r)
           | None => None
           end
  | _, _ => None
  end.

(** ** Writing *)

(** The loop of [EpsCopyOutputStream::UnsafeVarint]; [n] bounds its
    iterations, and ten are enough for a 64-bit value
    ([UnsafeVarint_unfold]). *)
Fixpoint unsafe_varint_loop (n : nat) (value : Z) : list byte :=
  match n with
  | O => []
  | S n =>
      if 128 <=? value
      then z2b (Z.lor value 128) :: unsafe_varint_loop n (Z.shiftr value 7)
      else [z2b value]
  end.

Definition UnsafeVarint (value : Z) : list byte :=
  unsafe_varint_loop kMaxVarintBytes value.

(** [UnsafeWriteSize] is the same loop at [uint32_t]. *)
Definition UnsafeWriteSize (value : Z) : list byte :=
  unsafe_varint_loop kMaxVarint32Bytes value.

Definition WriteVarint32ToArray (value : Z) : list byte := UnsafeVarint value.
Definition WriteVarint64ToArray (value : Z) : list byte := UnsafeVarint value.
Definition WriteVarint32SignExtendedToArray (value : Z) : list byte :=
  WriteVarint64ToArray (u64 value).
Definition WriteTagToArray (value : Z) : list byte := WriteVarint32ToArray value.

(** ** Reading from an array *)

(** [buffer[i]] *)
Definition at_ (buffer : list byte) (i : nat) : option Z := b2z <$> buffer !! i.

(** The loop of [DecodeVarint64KnownSize]: groups [i .. i + n - 1]. *)
Fixpoint known_size_loop (buffer : list byte) (n i : nat) (result : Z) : option Z :=
  match n with
  | O => Some result
  | S n =>
      b ← at_ buffer i;
      known_size_loop buffer n (S i)
        (u64 (result + u64 (Z.shiftl (u64 (b - 0x80)) (7 * Z.of_nat i))))
  end.

Definition DecodeVarint64KnownSize (N : nat) (buffer : list byte)
    : option (Z * list byte) :=
  b ← at_ buffer (N - 1);
  result ← known_size_loop buffer (N - 1) 0
             (u64 (Z.shiftl b (7 * Z.of_nat (N - 1))));
  Some (result, drop N buffer).

(** The outcome of an array reader: the value and the rest of the array, or a
    varint longer than ten bytes. *)
Inductive array_read :=
  | read_ok (value : Z) (rest : list byte)
  | read_overrun.

Definition known_size (N : nat) (buffer : list byte) : option array_read :=
  '(v, r) ← DecodeVarint64KnownSize N buffer; Some (read_ok v r).

(** The chain of tests [buffer[i] < 128] for [i = 1 .. 9], each testing one
    byte further than the previous one. *)
Fixpoint read64_chain (n i : nat) (buffer : list byte) : option array_read :=
  match n with
  | O => Some read_overrun
  | S n =>
      b ← at_ buffer i;
      if b <? 128 then known_size (S i) buffer else read64_chain n (S i) buffer
  end.

(** The debug check on [buffer[0]] comes first. *)
Definition ReadVarint64FromArray (buffer : list byte) : option array_read :=
  b ← at_ buffer 0;
  if b <? 128 then None else read64_chain 9 1 buffer.

(** The last loop of [ReadVarint32FromArray], which skips the groups above
    bit 32. *)
Fixpoint read32_discard (n : nat) (ptr : list byte) (result : Z) : option array_read :=
  match n with
  | O => Some read_overrun
  | S n =>
      match ptr with
      | [] => None
      | b :: ptr =>
          if Z.land (b2z b) 0x80 =? 0 then Some (read_ok result ptr)
          else read32_discard n ptr result
      end
  end.

Definition ReadVarint32FromArray (first_byte : Z) (buffer : list byte)
    : option array_read :=
  match buffer with
  | b0 :: b1 :: ptr =>
    if negb (b2z b0 =? first_byte) || negb (Z.land first_byte 0x80 =? 0x80)
    then None else
    let result := u32 (first_byte - 0x80) in
    let result := u32 (result + u32 (Z.shiftl (b2z b1) 7)) in
    if Z.land (b2z b1) 0x80 =? 0 then Some (read_ok result ptr) else
    let result := u32 (result - Z.shiftl 0x80 7) in
    match ptr with [] => None | b2 :: ptr =>
    let result := u32 (result + u32 (Z.shiftl (b2z b2) 14)) in
    if Z.land (b2z b2) 0x80 =? 0 then Some (read_ok result ptr) else
    let result := u32 (result - Z.shiftl 0x80 14) in
    match ptr with [] => None | b3 :: ptr =>
    let result := u32 (result + u32 (Z.shiftl (b2z b3) 21)) in
    if Z.land (b2z b3) 0x80 =? 0 then Some (read_ok result ptr) else
    let result := u32 (result - Z.shiftl 0x80 21) in
    match ptr with [] => None | b4 :: ptr =>
    let result := u32 (result + u32 (Z.shiftl (b2z b4) 28)) in
    if Z.land (b2z b4) 0x80 =? 0 then Some (read_ok result ptr) else
    read32_discard (kMaxVarintBytes - kMaxVarint32Bytes) ptr result
    end end end
  | _ => None
  end.

(** ** Sizes *)

(** [absl::countl_zero] of a [w]-bit value. *)
Definition countl_zero (w value : Z) : Z :=
  if value =? 0 then w else w - 1 - Z.log2 value.

(** The two bodies of [VarintSize32] and [VarintSize64], chosen by
    [PROTOBUF_CODED_STREAM_H_PREFER_BSR]. *)
Definition varint_size (prefer_bsr : bool) (digits value : Z) : Z :=
  if prefer_bsr then
    let log2value := digits - 1 - countl_zero digits (Z.lor value 1) in
    (log2value * 9 + (64 + 9)) / 64
  else
    let clz := countl_zero digits value in
    ((digits * 9 + 64) - (clz * 9)) / 64.

Definition VarintSize32 (prefer_bsr : bool) (value : Z) : Z :=
  varint_size prefer_bsr 32 value.
Definition VarintSize64 (prefer_bsr : bool) (value : Z) : Z :=
  varint_size prefer_bsr 64 value.

Definition varint_size_plus_one (prefer_bsr : bool) (digits value : Z) : Z :=
  if prefer_bsr then
    let log2value := digits - 1 - countl_zero digits (Z.lor value 1) in
    (log2value * 9 + (64 + 9) + 64) / 64
  else
    let clz := countl_zero digits value in
    ((digits * 9 + 64 + 64) - (clz * 9)) / 64.

Definition VarintSize32PlusOne (prefer_bsr : bool) (value : Z) : Z :=
  varint_size_plus_one prefer_bsr 32 value.
Definition VarintSize64PlusOne (prefer_bsr : bool) (value : Z) : Z :=
  varint_size_plus_one prefer_bsr 64 value.
Definition VarintSize32SignExtended (prefer_bsr : bool) (value : Z) : Z :=
  VarintSize64 prefer_bsr (u64 value).
Definition VarintSize32SignExtendedPlusOne (prefer_bsr : bool) (value : Z) : Z :=
  VarintSize64PlusOne prefer_bsr (u64 value).

(** [EpsCopyOutputStream::TagSize] *)
Definition TagSize (tag : Z) : Z :=
  if tag <? Z.shiftl 1 7 then 1
  else if tag <? Z.shiftl 1 14 then 2
  else if tag <? Z.shiftl 1 21 then 3
  else if tag <? Z.shiftl 1 28 then 4
  else 5.

(** ** Zig-zag *)

Definition ZigZagEncode32 (n : Z) : Z :=
  Z.lxor (u32 (Z.shiftl (u32 n) 1)) (u32 (Z.shiftr n 31)).
Definition ZigZagDecode32 (n : Z) : Z :=
  s32 (Z.lxor (Z.shiftr n 1) (u32 (u32 (Z.lnot (Z.land n 1)) + 1))).
Definition ZigZagEncode64 (n : Z) : Z :=
  Z.lxor (u64 (Z.shiftl (u64 n) 1)) (u64 (Z.shiftr n 63)).
Definition ZigZagDecode64 (n : Z) : Z :=
  s64 (Z.lxor (Z.shiftr n 1) (u64 (u64 (Z.lnot (Z.land n 1)) + 1))).

(** ** Little-endian integers *)

Definition WriteLittleEndian32ToArray (value : Z) : list byte :=
  [z2b value; z2b (Z.shiftr value 8); z2b (Z.shiftr value 16);
   z2b (Z.shiftr value 24)].

Definition WriteLittleEndian64ToArray (value : Z) : list byte :=
  let part0 := u32 value in
  let part1 := u32 (Z.shiftr value 32) in
  [z2b part0; z2b (Z.shiftr part0 8); z2b (Z.shiftr part0 16);
   z2b (Z.shiftr part0 24);
   z2b part1; z2b (Z.shiftr part1 8); z2b (Z.shiftr part1 16);
   z2b (Z.shiftr part1 24)].

(** [memcpy] into an integer followed by [little_endian::ToHost]. *)
Fixpoint le_value (l : list byte) : Z :=
  match l with [] => 0 | b :: l => b2z b + 256 * le_value l end.

Definition ReadLittleEndian32FromArray (buffer : list byte)
    : option (Z * list byte) :=
  if (4 <=? length buffer)%nat
  then Some (le_value (take 4 buffer), drop 4 buffer) else None.
Definition ReadLittleEndian64FromArray (buffer : list byte)
    : option (Z * list byte) :=
  if (8 <=? length buffer)%nat
  then Some (le_value (take 8 buffer), drop 8 buffer) else None.

Example UnsafeVarint_300 : UnsafeVarint 300 = [Byte.xac; Byte.x02].
Proof. reflexivity. Qed.
Example ReadVarint64_300 :
  ReadVarint64FromArray [Byte.xac; Byte.x02; Byte.x07] = Some (read_ok 300 [Byte.x07]).
Proof. vm_compute. reflexivity. Qed.
Example ZigZag_example : map ZigZagEncode32 [0; -1; 1; -2; - 2 ^ 31] = [0; 1; 2; 3; 2 ^ 32 - 1].
Proof. reflexivity. Qed.

(** ** Lemmas *)

Lemma b2z_lor_128 v : 0 <= v -> b2z (z2b (Z.lor v 128)) = v mod 128 + 128.
Proof. intros. rewrite b2z_z2b. by apply lor_128_mod. Qed.

Lemma shiftr_7 v : Z.shiftr v 7 = v / 128.
Proof. by rewrite Z.shiftr_div_pow2. Qed.

Lemma vdecode_unsafe_varint_loop n v rest :
  (0 < n)%nat -> 0 <= v < 2 ^ (7 * Z.of_nat n) ->
  vdecode n (unsafe_varint_loop n v ++ rest) = Some (v, rest).
Proof.
  revert v. induction n as [|n IH]; intros v Hn Hv; [lia|]. simpl.
  destruct (Z.leb_spec 128 v).
  - assert (Hn' : n <> O) by (intros ->; simpl in Hv; lia).
    simpl. rewrite b2z_lor_128 by lia.
    pose proof (Z.mod_pos_bound v 128 ltac:(lia)).
    destruct (Z.ltb_spec (v mod 128 + 128) 128); [lia|].
    rewrite shiftr_7, IH; [|lia|].
    + f_equal. f_equal. pose proof (Z.div_mod v 128). lia.
    + split; [apply Z.div_pos; lia|]. apply Z.div_lt_upper_bound; [lia|].
      replace (7 * Z.of_nat (S n)) with (7 + 7 * Z.of_nat n) in Hv by lia.
      rewrite Z.pow_add_r in Hv by lia. lia.
  - simpl. rewrite b2z_z2b_small by lia.
    destruct (Z.ltb_spec v 128); [done|lia].
Qed.

(** The loop bound is never what stops the loop. *)
Lemma unsafe_varint_loop_unfold n m v :
  (0 < n)%nat -> (n <= m)%nat -> 0 <= v < 2 ^ (7 * Z.of_nat n) ->
  unsafe_varint_loop n v = unsafe_varint_loop m v.
Proof.
  revert m v. induction n as [|n IH]; intros m v Hn Hm Hv; [lia|].
  destruct m as [|m]; [lia|]. simpl.
  destruct (Z.leb_spec 128 v); [|done]. f_equal.
  assert (n <> O) by (intros ->; simpl in Hv; lia).
  rewrite shiftr_7. apply IH; try lia.
  split; [apply Z.div_pos; lia|]. apply Z.div_lt_upper_bound; [lia|].
  replace (7 * Z.of_nat (S n)) with (7 + 7 * Z.of_nat n) in Hv by lia.
  rewrite Z.pow_add_r in Hv by lia. lia.
Qed.

Lemma UnsafeVarint_unfold v :
  is_u64 v ->
  UnsafeVarint v = if 128 <=? v
                   then z2b (Z.lor v 128) :: UnsafeVarint (Z.shiftr v 7)
                   else [z2b v].
Proof.
  intros Hv. unfold UnsafeVarint.
  rewrite (unsafe_varint_loop_unfold kMaxVarintBytes 11)
    by (unfold kMaxVarintBytes; simpl Z.of_nat; ilia).
  reflexivity.
Qed.

Lemma u32_is_u64 v : is_u32 v -> is_u64 v.
Proof. ilia. Qed.

Lemma UnsafeWriteSize_eq v : is_u32 v -> UnsafeWriteSize v = UnsafeVarint v.
Proof.
  intros. apply unsafe_varint_loop_unfold;
    unfold kMaxVarint32Bytes, kMaxVarintBytes; simpl Z.of_nat; ilia.
Qed.

Lemma vdecode_UnsafeVarint v rest :
  is_u64 v -> vdecode kMaxVarintBytes (UnsafeVarint v ++ rest) = Some (v, rest).
Proof.
  intros. apply vdecode_unsafe_varint_loop;
    unfold kMaxVarintBytes; simpl Z.of_nat; ilia.
Qed.

Lemma vdecode_UnsafeVarint_nil v :
  is_u64 v -> vdecode kMaxVarintBytes (UnsafeVarint v) = Some (v, []).
Proof.
  intros H. pose proof (vdecode_UnsafeVarint v [] H) as E.
  by rewrite app_nil_r in E.
Qed.

Lemma vdecode_app n l v r k :
  vdecode n l = Some (v, r) -> vdecode n (l ++ k) = Some (v, r ++ k).
Proof.
  revert l v r. induction n as [|n IH]; intros [|b l] v r H; try done.
  simpl in *. destruct (b2z b <? 128); [by simplify_eq|].
  destruct (vdecode n l) as [[v' r']|] eqn:E; [|done]. simplify_eq.
  by rewrite (IH _ _ _ E).
Qed.

Lemma vdecode_nonneg n l v r : vdecode n l = Some (v, r) -> 0 <= v.
Proof.
  revert l v r. induction n as [|n IH]; intros [|b l] v r H; try done.
  simpl in *. pose proof (b2z_range b).
  destruct (Z.ltb_spec (b2z b) 128); [simplify_eq; lia|].
  destruct (vdecode n l) as [[v' r']|] eqn:E; [|done]. simplify_eq.
  specialize (IH _ _ _ E). lia.
Qed.

Lemma vdecode_suffix n l v r :
  vdecode n l = Some (v, r) ->
  exists c, l = c ++ r /\ (0 < length c <= n)%nat.
Proof.
  revert l v r. induction n as [|n IH]; intros [|b l] v r H; try done.
  simpl in *. destruct (b2z b <? 128).
  - simplify_eq. exists [b]. simpl. split; [done|lia].
  - destruct (vdecode n l) as [[v' r']|] eqn:E; [|done]. simplify_eq.
    destruct (IH _ _ _ E) as (c & -> & ?). exists (b :: c). simpl. split; [done|lia].
Qed.

(** [k] bytes of a varint hold less than [2 ^ (7 * k)], and such a value takes
    at most [k] bytes when it is written. *)
Lemma vdecode_bound n l v r :
  vdecode n l = Some (v, r) -> 0 <= v < 2 ^ (7 * (zlen l - zlen r)).
Proof.
  revert l v r. induction n as [|n IH]; intros [|b l] v r Hd; try done.
  simpl in Hd. pose proof (b2z_range b).
  destruct (Z.ltb_spec (b2z b) 128).
  - simplify_eq. rewrite zlen_cons. replace (7 * _) with 7 by lia. change (2 ^ 7) with 128. lia.
  - destruct (vdecode n l) as [[w r']|] eqn:E; [|done]. simplify_eq.
    pose proof E as (c & -> & Hc)%vdecode_suffix. apply IH in E. rewrite zlen_cons, zlen_app in *.
    replace (7 * (zlen c + zlen r - zlen r)) with (7 * zlen c) in E by lia.
    replace (7 * _) with (7 + 7 * zlen c) by lia.
    pose proof (zlen_nonneg c). rewrite Z.pow_add_r by lia. change (2 ^ 7) with 128. lia.
Qed.

Lemma UnsafeVarint_short k v :
  is_u64 v -> v < 2 ^ (7 * Z.of_nat k) -> (0 < k)%nat -> zlen (UnsafeVarint v) <= Z.of_nat k.
Proof.
  revert v. induction k as [|k IH]; intros v Hv Hk Hp; [lia|].
  rewrite UnsafeVarint_unfold by done. destruct (Z.leb_spec 128 v); [|simpl; zl].
  assert (Z.shiftr v 7 = v / 128) as E by (by rewrite Z.shiftr_div_pow2).
  rewrite zlen_cons, E. destruct k as [|k]; [change (2 ^ _) with 128 in Hk; lia|].
  replace (7 * Z.of_nat (S (S k))) with (7 + 7 * Z.of_nat (S k)) in Hk by lia.
  rewrite Z.pow_add_r in Hk by lia. change (2 ^ 7) with 128 in Hk.
  assert (zlen (UnsafeVarint (v / 128)) <= Z.of_nat (S k)); [|lia].
  apply IH; [ilia| |lia]. apply Z.div_lt_upper_bound; lia.
Qed.

Lemma vdecode_shortest n l v r w :
  vdecode n l = Some (v, r) -> is_u64 w -> w <= v -> zlen (UnsafeVarint w) + zlen r <= zlen l.
Proof.
  intros Hd Hw Hle. pose proof (vdecode_bound _ _ _ _ Hd) as Hb.
  apply vdecode_suffix in Hd as (c & -> & Hc). rewrite zlen_app in *.
  assert (zlen (UnsafeVarint w) <= Z.of_nat (length c)); [|unfold zlen in *; lia].
  apply UnsafeVarint_short; [done| |lia].
  replace (7 * _) with (7 * zlen c) in Hb by lia. unfold zlen in Hb. lia.
Qed.

(** *** Splitting a buffer at its first terminating byte *)

Definition cont (b : byte) : Prop := 128 <= b2z b.

Lemma varint_split (l : list byte) :
  (exists cs b rest, l = cs ++ b :: rest /\ Forall cont cs /\ b2z b < 128)
  \/ Forall cont l.
Proof.
  induction l as [|c l IH]; [by right|].
  destruct (Z.lt_ge_cases (b2z c) 128).
  - left. by exists [], c, l.
  - destruct IH as [(cs & b & rest & -> & Hcs & Hb)|IH].
    + left. exists (c :: cs), b, rest. repeat split; auto.
    + right. by constructor.
Qed.

(** Value of a run of continuation bytes. *)
Fixpoint vsum (l : list byte) : Z :=
  match l with [] => 0 | b :: l => b2z b - 128 + 128 * vsum l end.

Lemma vdecode_split n cs b rest :
  Forall cont cs -> b2z b < 128 -> (length cs < n)%nat ->
  vdecode n (cs ++ b :: rest)
  = Some (vsum cs + 2 ^ (7 * Z.of_nat (length cs)) * b2z b, rest).
Proof.
  revert cs. induction n as [|n IH]; intros cs Hcs Hb Hn; [lia|].
  destruct cs as [|c cs]; cbn [vdecode vsum length app].
  - destruct (Z.ltb_spec (b2z b) 128); [|lia]. do 2 f_equal.
    change (2 ^ (7 * Z.of_nat 0)) with 1. lia.
  - inversion Hcs as [|?? Hc Hcs']; subst. unfold cont in Hc. simpl in Hn.
    destruct (Z.ltb_spec (b2z c) 128); [lia|].
    rewrite IH by (try done; lia). do 2 f_equal.
    replace (7 * Z.of_nat (S (length cs)))
      with (7 + 7 * Z.of_nat (length cs)) by lia.
    rewrite Z.pow_add_r by lia. lia.
Qed.

Lemma vdecode_all_cont n l : Forall cont l -> vdecode n l = None.
Proof.
  revert l. induction n as [|n IH]; intros [|b l] H; try done.
  inversion H as [|?? Hb Hl]; subst. unfold cont in Hb. simpl.
  destruct (Z.ltb_spec (b2z b) 128); [lia|]. by rewrite IH.
Qed.

Lemma vdecode_long_prefix n cs rest :
  Forall cont cs -> (n <= length cs)%nat -> vdecode n (cs ++ rest) = None.
Proof.
  revert cs. induction n as [|n IH]; intros cs H Hn; [done|].
  destruct cs as [|b cs]; simpl in *; [lia|].
  inversion H as [|?? Hb Hl]; subst. unfold cont in Hb.
  destruct (Z.ltb_spec (b2z b) 128); [lia|]. rewrite IH; auto. lia.
Qed.

(** *** The unrolled 64-bit decoder *)

Lemma at_app_l l k i : (i < length l)%nat -> at_ (l ++ k) i = at_ l i.
Proof. intros. unfold at_. by rewrite lookup_app_l. Qed.

Lemma at_middle cs b rest : at_ (cs ++ b :: rest) (length cs) = Some (b2z b).
Proof. unfold at_. by rewrite list_lookup_middle. Qed.

Lemma at_cont cs rest i :
  Forall cont cs -> (i < length cs)%nat ->
  exists x, at_ (cs ++ rest) i = Some x /\ 128 <= x < 256.
Proof.
  intros Hcs Hi. rewrite at_app_l by done.
  destruct (lookup_lt_is_Some_2 cs i Hi) as [c Hc].
  unfold at_. rewrite Hc. exists (b2z c). split; [done|].
  pose proof (b2z_range c). rewrite Forall_forall in Hcs.
  specialize (Hcs c (list_elem_of_lookup_2 _ _ _ Hc)). unfold cont in Hcs. lia.
Qed.

Lemma known_size_loop_value done cs rest i r :
  Forall cont cs -> i = length done ->
  known_size_loop (done ++ cs ++ rest) (length cs) i (u64 r)
  = Some (u64 (r + 2 ^ (7 * Z.of_nat i) * vsum cs)).
Proof.
  revert done i r. induction cs as [|c cs IH]; intros dn i r Hcs Hi;
    cbn [known_size_loop length vsum app].
  - do 2 f_equal. lia.
  - inversion Hcs as [|?? Hc Hcs']; subst. unfold cont in Hc.
    rewrite at_middle. cbn [mbind option_bind].
    pose proof (b2z_range c).
    rewrite u64_add_l, u64_add_r.
    replace (dn ++ c :: cs ++ rest) with ((dn ++ [c]) ++ cs ++ rest)
      by (by rewrite <- app_assoc).
    rewrite IH; [|done|rewrite length_app; simpl; lia].
    do 2 f_equal. rewrite Z.shiftl_mul_pow2 by lia.
    rewrite (u64_id (b2z c - 128)) by ilia.
    replace (7 * Z.of_nat (S (length dn)))
      with (7 * Z.of_nat (length dn) + 7) by lia.
    rewrite Z.pow_add_r by lia. lia.
Qed.

Lemma known_size_split cs b rest :
  Forall cont cs -> b2z b < 128 ->
  known_size (S (length cs)) (cs ++ b :: rest)
  = Some (read_ok (u64 (vsum cs + 2 ^ (7 * Z.of_nat (length cs)) * b2z b)) rest).
Proof.
  intros Hcs Hb. unfold known_size, DecodeVarint64KnownSize.
  replace (S (length cs) - 1)%nat with (length cs) by lia.
  rewrite at_middle. cbn [mbind option_bind].
  rewrite (known_size_loop_value [] cs (b :: rest) 0) by done.
  cbn [mbind option_bind].
  change (cs ++ b :: rest) with (cs ++ [b] ++ rest).
  rewrite app_assoc, drop_app_length' by (rewrite length_app; simpl; lia).
  do 3 f_equal. rewrite Z.shiftl_mul_pow2 by lia.
  change (2 ^ (7 * Z.of_nat 0)) with 1. lia.
Qed.

Lemma read64_chain_found n i cs b rest :
  Forall cont cs -> b2z b < 128 -> (i <= length cs < i + n)%nat ->
  read64_chain n i (cs ++ b :: rest) = known_size (S (length cs)) (cs ++ b :: rest).
Proof.
  revert i. induction n as [|n IH]; intros i Hcs Hb Hi; [lia|]. simpl.
  destruct (decide (i = length cs)) as [->|Hne].
  - rewrite at_middle. cbn [mbind option_bind].
    by destruct (Z.ltb_spec (b2z b) 128); [|lia].
  - destruct (at_cont cs (b :: rest) i) as (x & -> & ?); [done|lia|].
    cbn [mbind option_bind]. destruct (Z.ltb_spec x 128); [lia|].
    apply IH; try done. lia.
Qed.

Lemma read64_chain_overrun n i cs rest :
  Forall cont cs -> (i + n <= length cs)%nat ->
  read64_chain n i (cs ++ rest) = Some read_overrun.
Proof.
  revert i. induction n as [|n IH]; intros i Hcs Hi; [done|]. simpl.
  destruct (at_cont cs rest i) as (x & -> & ?); [done|lia|].
  cbn [mbind option_bind]. destruct (Z.ltb_spec x 128); [lia|].
  apply IH; try done. lia.
Qed.

(** The condition under which [CodedInputStream] uses the array decoders: the
    buffer holds [kMaxVarintBytes] bytes, or its last byte ends a varint. *)
Definition whole (l : list byte) : Prop :=
  (kMaxVarintBytes <= length l)%nat \/ exists b, last l = Some b /\ b2z b < 128.

Lemma whole_cases l :
  whole l ->
  (exists cs b rest, l = cs ++ b :: rest /\ Forall cont cs /\ b2z b < 128 /\
     (length cs < kMaxVarintBytes)%nat)
  \/ (exists cs rest, l = cs ++ rest /\ Forall cont cs /\ length cs = kMaxVarintBytes).
Proof.
  intros Hw.
  destruct (varint_split l) as [(cs & b & rest & -> & Hcs & Hb)|Hl].
  - destruct (decide (length cs < kMaxVarintBytes)%nat).
    + left. by exists cs, b, rest.
    + right. exists (take kMaxVarintBytes cs), (drop kMaxVarintBytes cs ++ b :: rest).
      split_and!; [by rewrite app_assoc, take_drop|by apply Forall_take|].
      rewrite length_take. lia.
  - destruct Hw as [Hw|(b & Hb & Hlt)].
    + right. exists (take kMaxVarintBytes l), (drop kMaxVarintBytes l).
      split_and!; [by rewrite take_drop|by apply Forall_take|].
      rewrite length_take. lia.
    + exfalso. rewrite Forall_forall in Hl. apply last_Some_elem_of in Hb.
      specialize (Hl b Hb). unfold cont in Hl. lia.
Qed.

Definition array_read_spec (wrap : Z -> Z) (l : list byte) : array_read :=
  match vdecode kMaxVarintBytes l with
  | Some (v, r) => read_ok (wrap v) r
  | None => read_overrun
  end.

Lemma whole_vdecode l k :
  whole l ->
  vdecode kMaxVarintBytes (l ++ k)
  = match vdecode kMaxVarintBytes l with
    | Some (v, r) => Some (v, r ++ k)
    | None => None
    end.
Proof.
  intros Hw. destruct (vdecode kMaxVarintBytes l) as [[v r]|] eqn:E.
  - by apply vdecode_app.
  - destruct (whole_cases _ Hw) as [(cs & b & rest & -> & Hcs & Hb & Hlen)
                                   |(cs & rest & -> & Hcs & Hlen)].
    + by rewrite vdecode_split in E.
    + rewrite <- app_assoc. apply vdecode_long_prefix; [done|lia].
Qed.

(** [k] is the memory past the end of the buffer. *)
Lemma ReadVarint64FromArray_correct b0 l k :
  whole (b0 :: l) -> cont b0 ->
  ReadVarint64FromArray ((b0 :: l) ++ k) = Some (array_read_spec u64 ((b0 :: l) ++ k)).
Proof.
  intros Hw Hb0. unfold array_read_spec, ReadVarint64FromArray.
  change (at_ ((b0 :: l) ++ k) 0) with (Some (b2z b0)). cbn [mbind option_bind].
  rewrite (proj2 (Z.ltb_ge (b2z b0) 128) Hb0).
  destruct (whole_cases _ Hw) as [(cs & b & rest & E & Hcs & Hb & Hlen)
                                 |(cs & rest & E & Hcs & Hlen)]; rewrite E.
  - rewrite <- app_assoc, <- app_comm_cons, vdecode_split by done.
    destruct cs as [|c cs]; [simplify_eq/=; unfold cont in Hb0; lia|].
    rewrite read64_chain_found; [|done|done|unfold kMaxVarintBytes in *; simpl in *; lia].
    by apply known_size_split.
  - rewrite <- app_assoc, vdecode_long_prefix by (try done; lia).
    apply read64_chain_overrun; [done|]. unfold kMaxVarintBytes in *. lia.
Qed.

(** *** The unrolled 32-bit decoder *)

Lemma read32_discard_eq n ptr r :
  read32_discard n ptr r
  = match vdecode n ptr with
    | Some (_, rest) => Some (read_ok r rest)
    | None => if (n <=? length ptr)%nat then Some read_overrun else None
    end.
Proof.
  revert ptr. induction n as [|n IH]; intros ptr; [done|].
  destruct ptr as [|b ptr]; simpl; [done|].
  rewrite land_80. destruct (b2z b <? 128); [done|].
  rewrite IH. by destruct (vdecode n ptr) as [[v r']|].
Qed.

Lemma first_byte_check b :
  cont b -> negb (b2z b =? b2z b) || negb (Z.land (b2z b) 0x80 =? 0x80) = false.
Proof.
  unfold cont. intros Hb. rewrite Z.eqb_refl.
  pose proof (byte_forall
    (fun x => (x <? 128) || (Z.land x 0x80 =? 0x80)) eq_refl _ (b2z_range b)) as Hx.
  cbn beta in Hx. rewrite (proj2 (Z.ltb_ge (b2z b) 128) Hb) in Hx.
  simpl in Hx. by rewrite Hx.
Qed.

Lemma ReadVarint32FromArray_some b0 l :
  cont b0 -> (exists v r, vdecode kMaxVarintBytes (b0 :: l) = Some (v, r)) ->
  ReadVarint32FromArray (b2z b0) (b0 :: l) = Some (array_read_spec u32 (b0 :: l)).
Proof.
  intros Hb0 (v & r & Hv). unfold array_read_spec. rewrite Hv.
  unfold cont in Hb0. unfold kMaxVarintBytes in Hv. unfold ReadVarint32FromArray.
  cbn [vdecode] in Hv. destruct (Z.ltb_spec (b2z b0) 128); [lia|].
  destruct l as [|b1 l]; [done|]. rewrite land_80, first_byte_check by done.
  destruct (b2z b1 <? 128); [simplify_eq; do 2 f_equal; wrap_congr|].
  destruct l as [|b2 l]; [done|]. rewrite land_80.
  destruct (b2z b2 <? 128); [simplify_eq; do 2 f_equal; wrap_congr|].
  destruct l as [|b3 l]; [done|]. rewrite land_80.
  destruct (b2z b3 <? 128); [simplify_eq; do 2 f_equal; wrap_congr|].
  destruct l as [|b4 l]; [done|]. rewrite land_80.
  destruct (b2z b4 <? 128); [simplify_eq; do 2 f_equal; wrap_congr|].
  rewrite read32_discard_eq. unfold kMaxVarintBytes, kMaxVarint32Bytes.
  change (10 - 5)%nat with 5%nat.
  destruct (vdecode 5 l) as [[v' r']|] eqn:E; [|by cbn [vdecode] in E; rewrite E in Hv].
  cbn [vdecode] in E. rewrite E in Hv. simplify_eq. do 2 f_equal.
  wrap_congr.
Qed.

Lemma ReadVarint32FromArray_none cs rest c :
  Forall cont (c :: cs) -> length (c :: cs) = kMaxVarintBytes ->
  ReadVarint32FromArray (b2z c) ((c :: cs) ++ rest) = Some read_overrun.
Proof.
  intros Hcs Hlen. unfold kMaxVarintBytes in Hlen.
  do 9 (destruct cs as [|? cs]; [discriminate Hlen|]). destruct cs; [|discriminate Hlen].
  repeat match goal with H : Forall cont (_ :: _) |- _ => inversion H; clear H; subst end.
  unfold ReadVarint32FromArray. cbn [app].
  rewrite first_byte_check by done. unfold cont in *. cbn [app read32_discard Nat.sub
    kMaxVarintBytes kMaxVarint32Bytes]. rewrite !land_80.
  repeat match goal with
  | H : 128 <= b2z ?b |- _ => rewrite (proj2 (Z.ltb_ge (b2z b) 128) H); clear H
  end. reflexivity.
Qed.

Lemma ReadVarint32FromArray_correct b0 l k :
  whole (b0 :: l) -> cont b0 ->
  ReadVarint32FromArray (b2z b0) ((b0 :: l) ++ k)
  = Some (array_read_spec u32 ((b0 :: l) ++ k)).
Proof.
  intros Hw Hb0. destruct (whole_cases _ Hw) as [(cs & b & rest & E & Hcs & Hb & Hlen)
                                 |(cs & rest & E & Hcs & Hlen)].
  - apply ReadVarint32FromArray_some; [done|]. rewrite app_comm_cons, E.
    rewrite <- app_assoc, <- app_comm_cons, vdecode_split by done. eauto.
  - unfold array_read_spec. rewrite E.
    rewrite <- app_assoc, vdecode_long_prefix by (try done; lia).
    destruct cs as [|c cs]; [done|]. simplify_eq/=.
    by apply ReadVarint32FromArray_none.
Qed.

(** *** Sizes *)

Lemma length_unsafe_varint_loop n v :
  (0 < n)%nat -> 0 <= v < 2 ^ (7 * Z.of_nat n) ->
  Z.of_nat (length (unsafe_varint_loop n v)) = Z.log2 v / 7 + 1.
Proof.
  revert v. induction n as [|n IH]; intros v Hn Hv; [lia|]. simpl.
  destruct (Z.leb_spec 128 v) as [Hge|Hlt].
  - assert (Hn' : n <> O) by (intros ->; simpl in Hv; lia).
    cbn [length]. rewrite Nat2Z.inj_succ, IH; [|lia|].
    + rewrite Z.log2_shiftr by lia.
      assert (7 <= Z.log2 v) by (apply Z.log2_le_pow2; lia).
      rewrite Z.max_r by lia. Z.div_mod_to_equations; lia.
    + rewrite shiftr_7. split; [apply Z.div_pos; lia|].
      apply Z.div_lt_upper_bound; [lia|].
      replace (7 * Z.of_nat (S n)) with (7 + 7 * Z.of_nat n) in Hv by lia.
      rewrite Z.pow_add_r in Hv by lia. lia.
  - cbn [length]. assert (0 <= Z.log2 v < 7).
    { split; [apply Z.log2_nonneg|]. destruct (decide (v = 0)) as [->|].
      - simpl. lia.
      - apply Z.log2_lt_pow2; lia. }
    Z.div_mod_to_equations; lia.
Qed.

Lemma length_UnsafeVarint v :
  is_u64 v -> Z.of_nat (length (UnsafeVarint v)) = Z.log2 v / 7 + 1.
Proof.
  intros. apply length_unsafe_varint_loop;
    unfold kMaxVarintBytes; simpl Z.of_nat; ilia.
Qed.

Lemma log2_bounds v w : 0 < w -> 0 <= v < 2 ^ w -> 0 <= Z.log2 v < w.
Proof.
  intros Hw Hv. split; [apply Z.log2_nonneg|].
  destruct (decide (v = 0)) as [->|]; [done|]. apply Z.log2_lt_pow2; lia.
Qed.

Lemma varint_size_log2 bsr w v :
  0 < w <= 64 -> 0 <= v < 2 ^ w -> varint_size bsr w v = Z.log2 v / 7 + 1.
Proof.
  intros Hw Hv. pose proof (log2_bounds v w ltac:(lia) Hv) as Hl.
  assert (Hf : (Z.log2 v * 9 + (64 + 9)) / 64 = Z.log2 v / 7 + 1).
  { pose proof (byte_forall
      (fun l => negb (l <? 64) || ((l * 9 + (64 + 9)) / 64 =? l / 7 + 1)) eq_refl
      (Z.log2 v) ltac:(lia)) as H.
    destruct (Z.ltb_spec (Z.log2 v) 64); [|lia]. simpl in H. lia. }
  unfold varint_size, countl_zero. destruct bsr.
  - assert (Z.log2 (Z.lor v 1) = Z.log2 v) as El.
    { rewrite Z.log2_lor by lia. change (Z.log2 1) with 0. lia. }
    assert (Z.lor v 1 <> 0) by (intros [_ ?]%Z.lor_eq_0_iff; done).
    destruct (Z.eqb_spec (Z.lor v 1) 0); [done|]. rewrite El, <- Hf. f_equal. lia.
  - destruct (Z.eqb_spec v 0) as [->|].
    + rewrite <- Hf. change (Z.log2 0) with 0.
      replace (w * 9 + 64 - w * 9) with 64 by lia. done.
    + rewrite <- Hf. f_equal. lia.
Qed.

Lemma varint_size_plus_one_eq bsr w v :
  varint_size_plus_one bsr w v = varint_size bsr w v + 1.
Proof.
  unfold varint_size_plus_one, varint_size. destruct bsr.
  - rewrite <- Z.div_add by lia. f_equal.
  - rewrite <- Z.div_add by lia. f_equal. lia.
Qed.

Lemma length_UnsafeVarint_size64 bsr v :
  is_u64 v -> Z.of_nat (length (UnsafeVarint v)) = VarintSize64 bsr v.
Proof.
  intros. unfold VarintSize64. rewrite varint_size_log2 by ilia.
  by apply length_UnsafeVarint.
Qed.

Lemma length_UnsafeVarint_size32 bsr v :
  is_u32 v -> Z.of_nat (length (UnsafeVarint v)) = VarintSize32 bsr v.
Proof.
  intros. unfold VarintSize32. rewrite varint_size_log2 by ilia.
  apply length_UnsafeVarint. by apply u32_is_u64.
Qed.

Lemma VarintSize64_bounds bsr v : is_u64 v -> 1 <= VarintSize64 bsr v <= 10.
Proof.
  intros H. unfold VarintSize64. rewrite varint_size_log2 by ilia.
  pose proof (log2_bounds v 64 ltac:(lia) ltac:(ilia)).
  Z.div_mod_to_equations; lia.
Qed.

Lemma VarintSize32_bounds bsr v : is_u32 v -> 1 <= VarintSize32 bsr v <= 5.
Proof.
  intros H. unfold VarintSize32. rewrite varint_size_log2 by ilia.
  pose proof (log2_bounds v 32 ltac:(lia) ltac:(ilia)).
  Z.div_mod_to_equations; lia.
Qed.

Lemma TagSize_correct bsr v : is_u32 v -> TagSize v = VarintSize32 bsr v.
Proof.
  intros H. unfold VarintSize32. rewrite varint_size_log2 by ilia. unfold TagSize.
  change (Z.shiftl 1 7) with (2 ^ 7). change (Z.shiftl 1 14) with (2 ^ 14).
  change (Z.shiftl 1 21) with (2 ^ 21). change (Z.shiftl 1 28) with (2 ^ 28).
  pose proof (log2_bounds v 32 ltac:(lia) ltac:(ilia)) as [Hl0 Hl].
  assert (Hlt : forall k, 0 < k -> v < 2 ^ k <-> Z.log2 v < k).
  { intros k Hk. destruct (decide (v = 0)) as [->|].
    - change (Z.log2 0) with 0. pose proof (Z.pow_pos_nonneg 2 k). lia.
    - apply Z.log2_lt_pow2. unfold is_u32 in H. lia. }
  pose proof (Hlt 7 ltac:(lia)). pose proof (Hlt 14 ltac:(lia)).
  pose proof (Hlt 21 ltac:(lia)). pose proof (Hlt 28 ltac:(lia)).
  case_cmp; Z.div_mod_to_equations; lia.
Qed.

(** *** Zig-zag *)

Lemma lxor_ones w x : 0 <= w -> 0 <= x < 2 ^ w -> Z.lxor x (Z.ones w) = Z.ones w - x.
Proof.
  intros Hw Hx. rewrite Z.sub_nocarry_ldiff.
  - apply Z.bits_inj'. intros i Hi. rewrite Z.lxor_spec, Z.ldiff_spec.
    destruct (Z.lt_ge_cases i w).
    + rewrite Z.ones_spec_low by lia. by destruct (Z.testbit x i).
    + rewrite Z.ones_spec_high by lia. rewrite xorb_false_r.
      rewrite <- (Z.mod_small x (2 ^ w)) by lia. by rewrite Z.mod_pow2_bits_high by lia.
  - apply Z.bits_inj'. intros i Hi. rewrite Z.ldiff_spec, Z.bits_0.
    destruct (Z.lt_ge_cases i w).
    + rewrite Z.ones_spec_low by lia. apply andb_false_r.
    + rewrite <- (Z.mod_small x (2 ^ w)) by lia. by rewrite Z.mod_pow2_bits_high by lia.
Qed.

Lemma shiftr_sign n w : 0 <= w -> - 2 ^ w <= n < 2 ^ w ->
  Z.shiftr n w = if n <? 0 then -1 else 0.
Proof.
  intros Hw Hn. rewrite Z.shiftr_div_pow2 by done.
  destruct (Z.ltb_spec n 0).
  - symmetry. apply Z.div_unique with (n + 2 ^ w); lia.
  - apply Z.div_small. lia.
Qed.

Lemma ZigZagEncode32_eq n :
  is_s32 n -> ZigZagEncode32 n = if n <? 0 then -2 * n - 1 else 2 * n.
Proof.
  intros H. unfold ZigZagEncode32. rewrite shiftr_sign by (unfold is_s32 in H; lia).
  rewrite Z.shiftl_mul_pow2 by lia. change (2 ^ 1) with 2.
  destruct (Z.ltb_spec n 0).
  - change (u32 (-1)) with (Z.ones 32). rewrite lxor_ones by (try lia; apply u32_range).
    change (Z.ones 32) with (2 ^ 32 - 1). ilia.
  - change (u32 0) with 0. rewrite Z.lxor_0_r. ilia.
Qed.

Lemma ZigZagEncode64_eq n :
  is_s64 n -> ZigZagEncode64 n = if n <? 0 then -2 * n - 1 else 2 * n.
Proof.
  intros H. unfold ZigZagEncode64. rewrite shiftr_sign by (unfold is_s64 in H; lia).
  rewrite Z.shiftl_mul_pow2 by lia. change (2 ^ 1) with 2.
  destruct (Z.ltb_spec n 0).
  - change (u64 (-1)) with (Z.ones 64). rewrite lxor_ones by (try lia; apply u64_range).
    change (Z.ones 64) with (2 ^ 64 - 1). ilia.
  - change (u64 0) with 0. rewrite Z.lxor_0_r. ilia.
Qed.

Lemma land_1 n : Z.land n 1 = n mod 2.
Proof. change 1 with (Z.ones 1). by rewrite Z.land_ones. Qed.

Lemma ZigZagDecode32_eq n :
  is_u32 n ->
  ZigZagDecode32 n = if n mod 2 =? 0 then n / 2 else - (n / 2) - 1.
Proof.
  intros H. unfold ZigZagDecode32. rewrite land_1, Z.shiftr_div_pow2 by lia.
  change (2 ^ 1) with 2. destruct (Z.eqb_spec (n mod 2) 0) as [->|].
  - change (u32 (u32 (Z.lnot 0) + 1)) with 0. rewrite Z.lxor_0_r. ilia.
  - assert (n mod 2 = 1) as -> by (Z.div_mod_to_equations; lia).
    change (u32 (u32 (Z.lnot 1) + 1)) with (Z.ones 32).
    rewrite lxor_ones by ilia. change (Z.ones 32) with (2 ^ 32 - 1). ilia.
Qed.

Lemma ZigZagDecode64_eq n :
  is_u64 n ->
  ZigZagDecode64 n = if n mod 2 =? 0 then n / 2 else - (n / 2) - 1.
Proof.
  intros H. unfold ZigZagDecode64. rewrite land_1, Z.shiftr_div_pow2 by lia.
  change (2 ^ 1) with 2. destruct (Z.eqb_spec (n mod 2) 0) as [->|].
  - change (u64 (u64 (Z.lnot 0) + 1)) with 0. rewrite Z.lxor_0_r. ilia.
  - assert (n mod 2 = 1) as -> by (Z.div_mod_to_equations; lia).
    change (u64 (u64 (Z.lnot 1) + 1)) with (Z.ones 64).
    rewrite lxor_ones by ilia. change (Z.ones 64) with (2 ^ 64 - 1). ilia.
Qed.

Lemma ZigZag32_decode_encode n : is_s32 n -> ZigZagDecode32 (ZigZagEncode32 n) = n.
Proof.
  intros H. rewrite ZigZagEncode32_eq by done.
  rewrite ZigZagDecode32_eq by (destruct (Z.ltb_spec n 0); ilia).
  destruct (Z.ltb_spec n 0); case_cmp; Z.div_mod_to_equations; lia.
Qed.

Lemma ZigZag64_decode_encode n : is_s64 n -> ZigZagDecode64 (ZigZagEncode64 n) = n.
Proof.
  intros H. rewrite ZigZagEncode64_eq by done.
  rewrite ZigZagDecode64_eq by (destruct (Z.ltb_spec n 0); ilia).
  destruct (Z.ltb_spec n 0); case_cmp; Z.div_mod_to_equations; lia.
Qed.

Lemma ZigZagEncode32_range n : is_s32 n -> is_u32 (ZigZagEncode32 n).
Proof. intros. rewrite ZigZagEncode32_eq by done. case_cmp; ilia. Qed.
Lemma ZigZagEncode64_range n : is_s64 n -> is_u64 (ZigZagEncode64 n).
Proof. intros. rewrite ZigZagEncode64_eq by done. case_cmp; ilia. Qed.

(** *** Little-endian *)

Lemma le_value_range l : 0 <= le_value l < 256 ^ Z.of_nat (length l).
Proof.
  induction l as [|b l IH]; cbn [le_value length]; [lia|].
  rewrite Nat2Z.inj_succ, Z.pow_succ_r by lia. pose proof (b2z_range b). lia.
Qed.

Lemma le_value_write32 v : is_u32 v -> le_value (WriteLittleEndian32ToArray v) = v.
Proof.
  intros. unfold WriteLittleEndian32ToArray. cbn [le_value].
  rewrite !b2z_z2b, !Z.shiftr_div_pow2 by lia.
  change (2 ^ 16) with 65536. change (2 ^ 24) with 16777216. ilia.
Qed.

Lemma le_value_app l k :
  le_value (l ++ k) = le_value l + 256 ^ Z.of_nat (length l) * le_value k.
Proof.
  induction l as [|b l IH]; cbn [app le_value length]; [lia|].
  rewrite IH, Nat2Z.inj_succ, Z.pow_succ_r by lia. lia.
Qed.

Lemma le_value_write64 v : is_u64 v -> le_value (WriteLittleEndian64ToArray v) = v.
Proof.
  intros H. change (WriteLittleEndian64ToArray v)
    with (WriteLittleEndian32ToArray (u32 v)
          ++ WriteLittleEndian32ToArray (u32 (Z.shiftr v 32))).
  rewrite le_value_app, !le_value_write32 by apply u32_range.
  cbn [length WriteLittleEndian32ToArray]. rewrite Z.shiftr_div_pow2 by lia.
  change (256 ^ Z.of_nat 4) with (2 ^ 32). ilia.
Qed.

Lemma vdecode_last n l v :
  vdecode n l = Some (v, []) -> exists b, last l = Some b /\ b2z b < 128.
Proof.
  revert l v. induction n as [|n IH]; intros [|b l] v H; try done. simpl in H.
  destruct (Z.ltb_spec (b2z b) 128).
  - simplify_eq. by exists b.
  - destruct (vdecode n l) as [[w r]|] eqn:E; [|done]. simplify_eq.
    destruct (IH _ _ E) as (c & Hc & ?). exists c. split; [|done].
    destruct l; [done|]. by rewrite last_cons_cons.
Qed.

(** ** The properties *)

(** C17: The two unrolled decoders agree with the reference decoder on every
    buffer the fast path hands them: one whose first byte has a continuation
    bit and which holds ten bytes or ends in the last byte of a varint, in
    front of any other memory. They find the same value (cut to 64 or 32 bits),
    the same rest, and report a varint longer than ten bytes as an overrun; they
    never read past the buffer. *)
Theorem unrolled_decoders_correct b0 l k :
  whole (b0 :: l) -> cont b0 ->
  ReadVarint64FromArray ((b0 :: l) ++ k) = Some (array_read_spec u64 ((b0 :: l) ++ k)) /\
  ReadVarint32FromArray (b2z b0) ((b0 :: l) ++ k)
    = Some (array_read_spec u32 ((b0 :: l) ++ k)) /\
  (array_read_spec u64 ((b0 :: l) ++ k) = read_overrun \/
   exists v r, array_read_spec u64 ((b0 :: l) ++ k) = read_ok (u64 v) (r ++ k) /\
               (length r < length (b0 :: l))%nat).
Proof.
  intros Hw Hc. split_and!;
    [by apply ReadVarint64FromArray_correct|by apply ReadVarint32FromArray_correct|].
  unfold array_read_spec. rewrite whole_vdecode by done.
  destruct (vdecode _ (b0 :: l)) as [[v r]|] eqn:E; [right|by left].
  exists v, r. split; [done|]. apply vdecode_suffix in E as (c & -> & ?).
  rewrite length_app. lia.
Qed.

(** Writing a 64-bit value and reading it back, whatever follows, gives the
    value and what follows; an [int32] written sign-extended comes back through
    the 32-bit cast; and the number of bytes written is the number the size
    functions announce, in both of their compilations. *)
Theorem varint_roundtrip bsr v k :
  is_u64 v ->
  vdecode kMaxVarintBytes (WriteVarint64ToArray v ++ k) = Some (v, k) /\
  (128 <= v -> ReadVarint64FromArray (WriteVarint64ToArray v ++ k) = Some (read_ok v k)) /\
  Z.of_nat (length (WriteVarint64ToArray v)) = VarintSize64 bsr v /\
  1 <= VarintSize64 bsr v <= Z.of_nat kMaxVarintBytes /\
  VarintSize64PlusOne bsr v = VarintSize64 bsr v + 1 /\
  (is_u32 v -> VarintSize32 bsr v = VarintSize64 bsr v /\ TagSize v = VarintSize32 bsr v /\
     UnsafeWriteSize v = WriteVarint64ToArray v) /\
  (forall n, is_s32 n -> v = u64 n ->
     s32 v = n /\
     Z.of_nat (length (WriteVarint32SignExtendedToArray n))
       = VarintSize32SignExtended bsr n).
Proof.
  intros Hv. unfold WriteVarint64ToArray, WriteVarint32SignExtendedToArray.
  pose proof (VarintSize64_bounds bsr v Hv). split_and!.
  - by apply vdecode_UnsafeVarint.
  - intros Hge. pose proof (vdecode_UnsafeVarint v k Hv) as Hd.
    pose proof (vdecode_UnsafeVarint_nil v Hv) as Hd0.
    rewrite UnsafeVarint_unfold in * by done.
    destruct (Z.leb_spec 128 v); [|lia].
    rewrite <- app_comm_cons in Hd |- *.
    set (l := UnsafeVarint (Z.shiftr v 7)) in *.
    rewrite app_comm_cons, ReadVarint64FromArray_correct.
    + unfold array_read_spec. rewrite <- app_comm_cons, Hd. by rewrite u64_id.
    + right. apply vdecode_last with (n := kMaxVarintBytes) (v := v). by rewrite Hd0.
    + unfold cont. rewrite b2z_lor_128 by ilia. pose proof (Z.mod_pos_bound v 128). lia.
  - by apply length_UnsafeVarint_size64.
  - lia.
  - unfold kMaxVarintBytes; lia.
  - apply varint_size_plus_one_eq.
  - intros H32. split_and!.
    + rewrite <- !length_UnsafeVarint_size64, <- length_UnsafeVarint_size32 by done. done.
    + by apply TagSize_correct.
    + by apply UnsafeWriteSize_eq.
  - intros n Hn ->. split; [ilia|]. unfold VarintSize32SignExtended, WriteVarint64ToArray.
    by apply length_UnsafeVarint_size64.
Qed.

(** Zig-zag is a bijection between the signed and the unsigned integers of
    each width that sends 0, -1, 1, -2, ... to 0, 1, 2, 3, ...: both
    compositions are the identity, and the code of [n] is [2n] or [-2n-1]. *)
Theorem zigzag_bijection n m :
  (is_s32 n -> ZigZagDecode32 (ZigZagEncode32 n) = n /\ is_u32 (ZigZagEncode32 n) /\
     ZigZagEncode32 n = if n <? 0 then -2 * n - 1 else 2 * n) /\
  (is_s64 n -> ZigZagDecode64 (ZigZagEncode64 n) = n /\ is_u64 (ZigZagEncode64 n) /\
     ZigZagEncode64 n = if n <? 0 then -2 * n - 1 else 2 * n) /\
  (is_u32 m -> ZigZagEncode32 (ZigZagDecode32 m) = m /\ is_s32 (ZigZagDecode32 m)) /\
  (is_u64 m -> ZigZagEncode64 (ZigZagDecode64 m) = m /\ is_s64 (ZigZagDecode64 m)).
Proof.
  split_and!; intros H.
  - auto using ZigZag32_decode_encode, ZigZagEncode32_range, ZigZagEncode32_eq.
  - auto using ZigZag64_decode_encode, ZigZagEncode64_range, ZigZagEncode64_eq.
  - assert (is_s32 (ZigZagDecode32 m)) as Hs by (unfold ZigZagDecode32; apply s32_range).
    split; [|done]. rewrite ZigZagEncode32_eq, ZigZagDecode32_eq in * by done.
    case_cmp; ilia.
  - assert (is_s64 (ZigZagDecode64 m)) as Hs by (unfold ZigZagDecode64; apply s64_range).
    split; [|done]. rewrite ZigZagEncode64_eq, ZigZagDecode64_eq in * by done.
    case_cmp; ilia.
Qed.

Definition sample_value : Z := 300.

Lemma unrolled_decoders_correct_witness :
  ReadVarint64FromArray [z2b 0xac; z2b 2; z2b 7] = Some (read_ok 300 [z2b 7]).
Proof.
  destruct (unrolled_decoders_correct (z2b 0xac) [z2b 2] [z2b 7]) as [E _].
  - right. by exists (z2b 2).
  - by unfold cont.
  - etransitivity; [exact E|]. by vm_compute.
Defined.

Lemma varint_roundtrip_witness :
  vdecode kMaxVarintBytes (WriteVarint64ToArray sample_value ++ [z2b 7]) = Some (300, [z2b 7]).
Proof. apply (varint_roundtrip true sample_value [z2b 7]). unfold sample_value. ilia. Defined.

Lemma zigzag_bijection_witness :
  ZigZagDecode32 (ZigZagEncode32 (-5)) = -5 /\ is_u32 (ZigZagEncode32 (-5)) /\
  ZigZagEncode32 (-5) = 9.
Proof. apply (proj1 (zigzag_bijection (-5) 0)). ilia. Defined.
