(* ===== verification/ZeroCopyStream.v ===== *)
(** * Zero-copy input streams

    The [ZeroCopyInputStream] interface of [io/zero_copy_stream.h] and the
    implementations of [io/zero_copy_stream_impl_lite.cc]: a stream over an
    array, a stream that limits another one, and the adaptor over a
    [CopyingInputStream]. *)

From S2P Require Import Prelude.

(** ** The interface

    [Next] returns [None] when it returns false; a returned buffer is the list
    of the bytes it holds. *)
Class ZeroCopyInputStream (S : Type) := {
  Next : M S (option (list byte));
  BackUp : Z -> M S unit;
  Skip : Z -> M S bool;
  ByteCount : S -> Z;
}.

(** What the clients of a stream rely on (the contract in the comments of
    [io/zero_copy_stream.h]): [content] is the bytes still to be read,
    [backable] the bytes of the last [Next] that may be given back, [bound] an
    upper bound on the number of times [Next] can still return a buffer. *)
Class ZeroCopyInputStreamOk (S : Type) `{ZeroCopyInputStream S} := {
  stream_ok : S -> Prop;
  content : S -> list byte;
  backable : S -> list byte;
  bound : S -> nat;
  next_ok s :
    stream_ok s ->
    wp Next s (fun r s' =>
      stream_ok s' /\
      match r with
      | Some c =>
          content s = c ++ content s' /\ c `suffix_of` backable s' /\
          ByteCount s' = ByteCount s + zlen c /\ (bound s' < bound s)%nat
      | None =>
          content s = [] /\ content s' = [] /\ ByteCount s' = ByteCount s
      end);
  backup_ok s n :
    stream_ok s -> 0 < n <= zlen (backable s) ->
    wp (BackUp n) s (fun _ s' =>
      stream_ok s' /\
      content s' = zdrop (zlen (backable s) - n) (backable s) ++ content s /\
      ByteCount s' = ByteCount s - n);
  skip_ok s n :
    stream_ok s -> 0 <= n ->
    wp (Skip n) s (fun r s' =>
      stream_ok s' /\
      (0 < n -> r = (n <=? zlen (content s))) /\
      content s' = zdrop n (content s) /\
      ByteCount s' = ByteCount s + Z.min n (zlen (content s)));
}.

(** The same stream with its bytes counted from another origin. A stream that has
    been read before is, counted from where it stands, one that has not. *)
Definition counted_from {S} (I : ZeroCopyInputStream S) (origin : Z) : ZeroCopyInputStream S :=
  {| Next := Next; BackUp := BackUp; Skip := Skip; ByteCount s := ByteCount s - origin |}.

Definition counted_from_ok {S} {I : ZeroCopyInputStream S} (O : ZeroCopyInputStreamOk S) origin :
  @ZeroCopyInputStreamOk S (counted_from I origin).
Proof.
  refine (@Build_ZeroCopyInputStreamOk S (counted_from I origin) stream_ok content backable bound _ _ _).
  - intros s Hs. wp_use next_ok; [done|]. intros [c|] s' [? Hr]; (split; [done|]); cbn [ByteCount counted_from].
    + destruct Hr as (? & ? & -> & ?). split_and!; [done..|lia|done].
    + destruct Hr as (? & ? & ->). split_and!; done || lia.
  - intros s n Hs Hn. wp_use backup_ok; [done|done|]. intros _ s' (? & ? & HB). cbn [ByteCount counted_from].
    rewrite HB. split_and!; done || lia.
  - intros s n Hs Hn. wp_use skip_ok; [done|done|]. intros r s' (? & ? & ? & HB). cbn [ByteCount counted_from].
    rewrite HB. split_and!; done || lia.
Defined.

(** ** ArrayInputStream *)
Module ArrayInputStream.

Record t := mk {
  data_ : list byte;
  size_ : Z;
  block_size_ : Z;
  position_ : Z;
  last_returned_size_ : Z;
}.

Definition make (data : list byte) (size block_size : Z) : t :=
  mk data size (if 0 <? block_size then block_size else size) 0 0.

Definition with_pos (s : t) (position last : Z) : t :=
  mk (data_ s) (size_ s) (block_size_ s) position last.

Definition Next : M t (option (list byte)) :=
  let* s := getS in
  if position_ s <? size_ s then
    let last := Z.min (block_size_ s) (size_ s - position_ s) in
    putS (with_pos s (position_ s + last) last) ;;;
    ret (Some (ztake last (zdrop (position_ s) (data_ s))))
  else
    putS (with_pos s (position_ s) 0) ;;; ret None.

(** The three [ABSL_CHECK]s come first; a [count] larger than the last buffer,
    negative, or after anything but [Next] stops the program. *)
Definition BackUp (count : Z) : M t unit :=
  let* s := getS in
  if (0 <? last_returned_size_ s) && (count <=? last_returned_size_ s)
     && (0 <=? count)
  then putS (with_pos s (position_ s - count) 0)
  else undef.

Definition Skip (count : Z) : M t bool :=
  let* s := getS in
  if 0 <=? count then
    if size_ s - position_ s <? count
    then putS (with_pos s (size_ s) 0) ;;; ret false
    else putS (with_pos s (position_ s + count) 0) ;;; ret true
  else undef.

Definition ByteCount (s : t) : Z := position_ s.

#[global] Instance stream : ZeroCopyInputStream t :=
  {| ZeroCopyStream.Next := Next; ZeroCopyStream.BackUp := BackUp;
     ZeroCopyStream.Skip := Skip; ZeroCopyStream.ByteCount := ByteCount |}.

(** *** Invariant and contract *)

Definition wf (s : t) : Prop :=
  size_ s = zlen (data_ s) /\ 0 <= position_ s <= size_ s /\
  (0 < block_size_ s \/ size_ s = 0) /\
  0 <= last_returned_size_ s <= position_ s.

Definition rest (s : t) : list byte := zdrop (position_ s) (data_ s).
Definition unread (s : t) : nat := Z.to_nat (size_ s - position_ s).
Definition last_buffer (s : t) : list byte :=
  ztake (last_returned_size_ s) (zdrop (position_ s - last_returned_size_ s) (data_ s)).

Lemma ByteCount_nonneg s : wf s -> 0 <= ByteCount s.
Proof. unfold wf, ByteCount. lia. Qed.

Lemma array_make_wf data block_size : wf (make data (zlen data) block_size).
Proof.
  unfold wf, make; simpl. pose proof (zlen_nonneg data).
  destruct (Z.ltb_spec 0 block_size); lia.
Qed.

Lemma array_Next_wp s :
  wf s ->
  wp Next s (fun r s' =>
    wf s' /\
    match r with
    | Some c =>
        rest s = c ++ rest s' /\ c `suffix_of` last_buffer s' /\
        ByteCount s' = ByteCount s + zlen c /\ (unread s' < unread s)%nat
    | None => rest s = [] /\ rest s' = [] /\ ByteCount s' = ByteCount s
    end).
Proof.
  intros (Hsz & Hpos & Hblk & Hlast). unfold wp, Next, mbind_, getS, putS, mret_.
  unfold wf, rest, last_buffer, unread, ByteCount.
  destruct (Z.ltb_spec (position_ s) (size_ s)); simpl.
  - set (n := Z.min _ _). assert (0 < n <= size_ s - position_ s) by lia.
    split_and!; try lia.
    + by rewrite <- zdrop_zdrop, ztake_zdrop by lia.
    + exists []. simpl. do 2 f_equal. lia.
    + zl.
  - split_and!; try lia; apply zdrop_all; lia.
Qed.

Lemma array_BackUp_wp s n :
  wf s -> 0 < n <= zlen (last_buffer s) ->
  wp (BackUp n) s (fun _ s' =>
    wf s' /\ rest s' = zdrop (zlen (last_buffer s) - n) (last_buffer s) ++ rest s /\
    ByteCount s' = ByteCount s - n).
Proof.
  intros (Hsz & Hpos & Hblk & Hlast) Hn.
  assert (zlen (last_buffer s) = last_returned_size_ s) as El.
  { unfold last_buffer. zl. }
  rewrite El in *. unfold wp, BackUp, mbind_, getS, putS.
  destruct (Z.ltb_spec 0 (last_returned_size_ s)); [|lia].
  destruct (Z.leb_spec n (last_returned_size_ s)); [|lia].
  destruct (Z.leb_spec 0 n); [|lia]. simpl.
  unfold wf, rest, last_buffer, ByteCount; simpl. split_and!; try lia.
  rewrite zdrop_ztake, zdrop_zdrop by lia.
  replace (zdrop (position_ s) (data_ s))
    with (zdrop n (zdrop (position_ s - n) (data_ s)))
    by (rewrite zdrop_zdrop by lia; f_equal; lia).
  replace (position_ s - last_returned_size_ s + (last_returned_size_ s - n))
    with (position_ s - n) by lia.
  replace (last_returned_size_ s - (last_returned_size_ s - n)) with n by lia.
  by rewrite ztake_zdrop.
Qed.

Lemma array_Skip_wp s n :
  wf s -> 0 <= n ->
  wp (Skip n) s (fun r s' =>
    wf s' /\ (0 < n -> r = (n <=? zlen (rest s))) /\ rest s' = zdrop n (rest s) /\
    ByteCount s' = ByteCount s + Z.min n (zlen (rest s))).
Proof.
  intros (Hsz & Hpos & Hblk & Hlast) Hn.
  assert (zlen (rest s) = size_ s - position_ s) as El by (unfold rest; zl).
  rewrite El. unfold wp, Skip, mbind_, getS, putS, mret_.
  destruct (Z.leb_spec 0 n); [|lia].
  unfold wf, rest, ByteCount. rewrite zdrop_zdrop by lia.
  destruct (Z.ltb_spec (size_ s - position_ s) n),
    (Z.leb_spec n (size_ s - position_ s)); try lia; simpl; split_and!; try lia; try done.
  rewrite !zdrop_all by lia. done.
Qed.

#[global] Instance stream_ok : ZeroCopyInputStreamOk t :=
  {| ZeroCopyStream.stream_ok := wf; content := rest; backable := last_buffer;
     bound := unread; next_ok := array_Next_wp; backup_ok := array_BackUp_wp;
     skip_ok := array_Skip_wp |}.

End ArrayInputStream.

(** ** LimitingInputStream

    A view of at most [limit] bytes of another stream. The underlying stream is
    part of the state: [input_] is only reached through this object while it
    lives. A buffer that crosses the limit is cut, [limit_] then holds minus the
    number of bytes hidden. *)
Module LimitingInputStream.

Record t (S : Type) := mk {
  input_ : S;
  limit_ : Z;
  prior_bytes_read_ : Z;
}.
Arguments mk {S} _ _ _.
Arguments input_ {S} _.
Arguments limit_ {S} _.
Arguments prior_bytes_read_ {S} _.

Section stream.
Context {S : Type} `{ZeroCopyInputStream S}.

Definition make (input : S) (limit : Z) : t S :=
  mk input limit (ZeroCopyStream.ByteCount input).

(** A call on [input_]. *)
Definition on_input {A} (m : M S A) : M (t S) A := fun s =>
  match m (input_ s) with
  | Some (a, i) => Some (a, mk i (limit_ s) (prior_bytes_read_ s))
  | None => None
  end.

Definition set_limit (limit : Z) : M (t S) unit :=
  modS (fun s => mk (input_ s) limit (prior_bytes_read_ s)).

Definition Next : M (t S) (option (list byte)) :=
  let* limit := gets limit_ in
  if limit <=? 0 then ret None else
  let* r := on_input ZeroCopyStream.Next in
  match r with
  | None => ret None
  | Some c =>
      let limit := limit - zlen c in
      set_limit limit ;;;
      ret (Some (if limit <? 0 then ztake (zlen c + limit) c else c))
  end.

Definition BackUp (count : Z) : M (t S) unit :=
  let* limit := gets limit_ in
  if limit <? 0 then
    on_input (ZeroCopyStream.BackUp (count - limit)) ;;; set_limit count
  else
    on_input (ZeroCopyStream.BackUp count) ;;; set_limit (limit + count).

Definition Skip (count : Z) : M (t S) bool :=
  let* limit := gets limit_ in
  if limit <? count then
    if limit <? 0 then ret false else
    on_input (ZeroCopyStream.Skip limit) ;;; set_limit 0 ;;; ret false
  else
    let* ok := on_input (ZeroCopyStream.Skip count) in
    if ok : bool then set_limit (limit - count) ;;; ret true else ret false.

Definition ByteCount (s : t S) : Z :=
  if limit_ s <? 0
  then ZeroCopyStream.ByteCount (input_ s) + limit_ s - prior_bytes_read_ s
  else ZeroCopyStream.ByteCount (input_ s) - prior_bytes_read_ s.

(** The destructor, which gives back what was hidden. *)
Definition destroy : M (t S) unit :=
  let* limit := gets limit_ in
  if limit <? 0 then on_input (ZeroCopyStream.BackUp (- limit)) else ret tt.

#[global] Instance stream : ZeroCopyInputStream (t S) :=
  {| ZeroCopyStream.Next := Next; ZeroCopyStream.BackUp := BackUp;
     ZeroCopyStream.Skip := Skip; ZeroCopyStream.ByteCount := ByteCount |}.
End stream.

(** *** Contract, from the contract of the underlying stream *)
Section contract.
Context {S : Type} `{ZeroCopyInputStreamOk S}.
Implicit Type s : t S.

Definition wf s : Prop :=
  stream_ok (input_ s) /\ 0 <= zlen (backable (input_ s)) + Z.min 0 (limit_ s).
Definition rest s : list byte := ztake (limit_ s) (content (input_ s)).
Definition last_buffer s : list byte :=
  ztake (zlen (backable (input_ s)) + Z.min 0 (limit_ s)) (backable (input_ s)).

Lemma limiting_on_input_wp {A} (m : M S A) s (Q : A -> t S -> Prop) :
  wp m (input_ s) (fun a i => Q a (mk i (limit_ s) (prior_bytes_read_ s))) ->
  wp (on_input m) s Q.
Proof. unfold wp, on_input. destruct (m (input_ s)) as [[a i]|]; done. Qed.

Lemma limiting_Next_wp s :
  wf s ->
  wp Next s (fun r s' =>
    wf s' /\
    match r with
    | Some c =>
        rest s = c ++ rest s' /\ c `suffix_of` last_buffer s' /\
        ByteCount s' = ByteCount s + zlen c /\
        (bound (input_ s') < bound (input_ s))%nat
    | None => rest s = [] /\ rest s' = [] /\ ByteCount s' = ByteCount s
    end).
Proof.
  intros [Hok Hl]. unfold Next. wp_steps. destruct (Z.leb_spec (limit_ s) 0).
  { wp_steps. split_and!; try done; unfold rest; apply ztake_0; lia. }
  wp_steps. apply limiting_on_input_wp. wp_use next_ok; [done|].
  intros [c|] i; simpl; cycle 1.
  { intros (? & E & E' & HB). wp_steps. unfold wf, rest, ByteCount; simpl.
    rewrite E, E', HB. unfold ztake. rewrite !take_nil. split_and!; try done. zl. }
  intros (Hi & E & [p Eb] & HB & Hn). unfold set_limit. wp_steps.
  unfold wf, rest, last_buffer, ByteCount; simpl. rewrite E, Eb, HB.
  pose proof (zlen_nonneg c).
  destruct (Z.ltb_spec (limit_ s - zlen c) 0); destruct (Z.ltb_spec (limit_ s) 0); try lia.
  - split_and!; try done; try zl.
    + rewrite ztake_app, !(ztake_0 (_ - _)) by lia. rewrite !app_nil_r. f_equal. lia.
    + exists p. rewrite ztake_app, ztake_all by zl. f_equal. f_equal. zl.
  - split_and!; try done; try zl.
    + rewrite ztake_app, (ztake_all (limit_ s) c) by lia. done.
    + exists p. apply ztake_all. zl.
Qed.

Lemma limiting_BackUp_wp s n :
  wf s -> 0 < n <= zlen (last_buffer s) ->
  wp (BackUp n) s (fun _ s' =>
    wf s' /\ rest s' = zdrop (zlen (last_buffer s) - n) (last_buffer s) ++ rest s /\
    ByteCount s' = ByteCount s - n).
Proof.
  intros [Hok Hl] Hn. unfold last_buffer in *.
  unfold rest, ByteCount, BackUp, wf. set (b := backable (input_ s)) in *.
  autorewrite with zlen in *. wp_steps.
  destruct (Z.ltb_spec (limit_ s) 0); wp_steps; apply limiting_on_input_wp.
  - wp_use backup_ok; [done|fold b; lia|]. intros [] i (Hi & E & HB).
    unfold set_limit. wp_steps. unfold wf, rest, ByteCount; simpl. rewrite E, HB.
    fold b. pose proof (zlen_nonneg (backable i)).
    destruct (Z.ltb_spec n 0); [lia|]. split_and!; try lia; [done|].
    rewrite (ztake_0 (limit_ s)) by lia. rewrite app_nil_r, ztake_app, (ztake_0 (_ - _)) by zl.
    rewrite app_nil_r, zdrop_ztake by lia. f_equal; [lia|]. f_equal. lia.
  - wp_use backup_ok; [done|fold b; lia|]. intros [] i (Hi & E & HB).
    unfold set_limit. wp_steps. unfold wf, rest, ByteCount; simpl. rewrite E, HB.
    fold b. pose proof (zlen_nonneg (backable i)).
    destruct (Z.ltb_spec (limit_ s + n) 0); [lia|]. split_and!; try lia; [done|].
    rewrite (ztake_all _ b) by lia. rewrite ztake_app, ztake_all by zl.
    f_equal; f_equal; zl.
Qed.

Lemma limiting_Skip_wp s n :
  wf s -> 0 <= n ->
  wp (Skip n) s (fun r s' =>
    wf s' /\ (0 < n -> r = (n <=? zlen (rest s))) /\ rest s' = zdrop n (rest s) /\
    ByteCount s' = ByteCount s + Z.min n (zlen (rest s))).
Proof.
  intros [Hok Hl] Hn. unfold Skip, rest, wf, ByteCount, set_limit. wp_steps.
  pose proof (zlen_nonneg (content (input_ s))).
  destruct (Z.ltb_spec (limit_ s) n).
  - destruct (Z.ltb_spec (limit_ s) 0); wp_steps.
    + rewrite (ztake_0 (limit_ s)) by lia. split_and!; try done.
      * intros. change (zlen (@nil byte)) with 0. case_cmp; [lia|done].
      * unfold zdrop. by rewrite drop_nil.
      * change (zlen (@nil byte)) with 0. case_cmp; lia.
    + apply limiting_on_input_wp. wp_use skip_ok; [done..|]. intros b i (Hi & _ & E & HB).
      wp_steps. unfold wf, rest, ByteCount; simpl. rewrite E, HB.
      pose proof (zlen_nonneg (backable i)).
      rewrite (ztake_0 0) by lia. rewrite (zdrop_all n) by zl.
      split_and!; try done; [lia| |zl]. intros.
      destruct (Z.leb_spec n (zlen (ztake (limit_ s) (content (input_ s))))); [zl|done].
  - destruct (Z.ltb_spec (limit_ s) 0); [lia|]. wp_steps. apply limiting_on_input_wp.
    wp_use skip_ok; [done..|]. intros b i (Hi & Hb & E & HB).
    pose proof (zlen_nonneg (backable i)). destruct (decide (n = 0)) as [Hz|].
    + subst n. rewrite Z.sub_0_r in *. rewrite (zdrop_0 0) in * by lia.
      destruct b; wp_steps; unfold wf, rest, ByteCount; simpl; rewrite E, HB;
        case_cmp; split_and!; try done; try zl.
    + rewrite Hb by lia.
      destruct (Z.leb_spec n (zlen (content (input_ s)))); wp_steps;
        unfold wf, rest, ByteCount; simpl; rewrite E, HB; case_cmp;
        split_and!; try done; try zl.
      * by rewrite zdrop_ztake by lia.
      * rewrite !zdrop_all by zl. unfold ztake. by rewrite take_nil.
Qed.

#[global] Instance stream_ok : ZeroCopyInputStreamOk (t S) :=
  {| ZeroCopyStream.stream_ok := wf; content := rest; backable := last_buffer;
     bound := fun s => bound (input_ s); next_ok := limiting_Next_wp;
     backup_ok := limiting_BackUp_wp; skip_ok := limiting_Skip_wp |}.

(** Destruction gives the hidden part of the last buffer back. *)
Lemma limiting_destroy_wp s :
  wf s ->
  wp destroy s (fun _ s' =>
    ZeroCopyStream.stream_ok (input_ s') /\
    content (input_ s') = (if limit_ s <? 0
      then zdrop (zlen (backable (input_ s)) + limit_ s) (backable (input_ s))
      else []) ++ content (input_ s) /\
    ZeroCopyStream.ByteCount (input_ s') = ByteCount s + prior_bytes_read_ s).
Proof.
  intros [Hok Hl]. unfold destroy, ByteCount. wp_steps.
  destruct (Z.ltb_spec (limit_ s) 0); wp_steps.
  - apply limiting_on_input_wp. wp_use backup_ok; [done|lia|]. intros [] i (Hi & E & HB); simpl.
    split_and!; [done| |lia]. rewrite E. f_equal. f_equal. lia.
  - split_and!; try done. lia.
Qed.
End contract.
End LimitingInputStream.
