(* ===== verification/CodedInput.v ===== *)
(** * CodedInputStream

    [io/coded_stream.h] and [io/coded_stream.cc]: the reader of varints,
    fixed-width integers, strings and tags from a [ZeroCopyInputStream] or a
    flat array, with nested byte limits, a total limit and a recursion budget.

    The state keeps the program's fields. [buffer_] and [buffer_end_] are the
    bytes from [buffer_] to the end of the memory the last [Next] returned
    ([chunk]) and the distance [BufferSize() = buffer_end_ - buffer_] ([bsize]):
    a limit inside the chunk moves [buffer_end_] back, and lifting it moves
    [buffer_end_] forth again over the same memory. Debug checks
    ([ABSL_DCHECK]) count as checks: their failure is undefined behaviour. *)

From S2P Require Import Prelude Varint ZeroCopyStream.

Definition kDefaultTotalBytesLimit : Z := INT_MAX.
Definition default_recursion_limit_ : Z := 100.

Record t (S : Type) := mk {
  chunk : list byte;
  bsize : Z;
  input_ : option S;
  total_bytes_read_ : Z;
  overflow_bytes_ : Z;
  last_tag_ : Z;
  legitimate_message_end_ : bool;
  current_limit_ : Z;
  buffer_size_after_limit_ : Z;
  total_bytes_limit_ : Z;
  recursion_budget_ : Z;
  recursion_limit_ : Z;
}.
Arguments mk {S} _ _ _ _ _ _ _ _ _ _ _ _.
Arguments chunk {S} _.
Arguments bsize {S} _.
Arguments input_ {S} _.
Arguments total_bytes_read_ {S} _.
Arguments overflow_bytes_ {S} _.
Arguments last_tag_ {S} _.
Arguments legitimate_message_end_ {S} _.
Arguments current_limit_ {S} _.
Arguments buffer_size_after_limit_ {S} _.
Arguments total_bytes_limit_ {S} _.
Arguments recursion_budget_ {S} _.
Arguments recursion_limit_ {S} _.

Section coded_input_stream.
Context {S : Type} `{ZeroCopyInputStreamOk S}.

Notation CIS := (M (t S)).

(** *** Field updates *)

Definition set_buffer (c : list byte) (n : Z) (s : t S) : t S :=
  mk c n (input_ s) (total_bytes_read_ s) (overflow_bytes_ s) (last_tag_ s)
    (legitimate_message_end_ s) (current_limit_ s) (buffer_size_after_limit_ s)
    (total_bytes_limit_ s) (recursion_budget_ s) (recursion_limit_ s).
Definition set_total (total overflow : Z) (s : t S) : t S :=
  mk (chunk s) (bsize s) (input_ s) total overflow (last_tag_ s)
    (legitimate_message_end_ s) (current_limit_ s) (buffer_size_after_limit_ s)
    (total_bytes_limit_ s) (recursion_budget_ s) (recursion_limit_ s).
Definition set_after (after : Z) (s : t S) : t S :=
  mk (chunk s) (bsize s) (input_ s) (total_bytes_read_ s) (overflow_bytes_ s)
    (last_tag_ s) (legitimate_message_end_ s) (current_limit_ s) after
    (total_bytes_limit_ s) (recursion_budget_ s) (recursion_limit_ s).
Definition set_limits (current total : Z) (s : t S) : t S :=
  mk (chunk s) (bsize s) (input_ s) (total_bytes_read_ s) (overflow_bytes_ s)
    (last_tag_ s) (legitimate_message_end_ s) current
    (buffer_size_after_limit_ s) total (recursion_budget_ s) (recursion_limit_ s).
Definition set_tag (tag : Z) (s : t S) : t S :=
  mk (chunk s) (bsize s) (input_ s) (total_bytes_read_ s) (overflow_bytes_ s)
    tag (legitimate_message_end_ s) (current_limit_ s) (buffer_size_after_limit_ s)
    (total_bytes_limit_ s) (recursion_budget_ s) (recursion_limit_ s).
Definition set_legit (b : bool) (s : t S) : t S :=
  mk (chunk s) (bsize s) (input_ s) (total_bytes_read_ s) (overflow_bytes_ s)
    (last_tag_ s) b (current_limit_ s) (buffer_size_after_limit_ s)
    (total_bytes_limit_ s) (recursion_budget_ s) (recursion_limit_ s).
Definition set_recursion (budget limit : Z) (s : t S) : t S :=
  mk (chunk s) (bsize s) (input_ s) (total_bytes_read_ s) (overflow_bytes_ s)
    (last_tag_ s) (legitimate_message_end_ s) (current_limit_ s)
    (buffer_size_after_limit_ s) (total_bytes_limit_ s) budget limit.
Definition set_input (i : option S) (s : t S) : t S :=
  mk (chunk s) (bsize s) i (total_bytes_read_ s) (overflow_bytes_ s)
    (last_tag_ s) (legitimate_message_end_ s) (current_limit_ s)
    (buffer_size_after_limit_ s) (total_bytes_limit_ s) (recursion_budget_ s)
    (recursion_limit_ s).

(** A call through [input_]; a null [input_] is undefined behaviour. *)
Definition on_input {A} (m : M S A) : CIS A := fun s =>
  match input_ s with
  | Some i =>
      match m i with
      | Some (a, i') => Some (a, set_input (Some i') s)
      | None => None
      end
  | None => None
  end.

(** *** Positions *)

Definition BufferSize (s : t S) : Z := bsize s.

Definition CurrentPosition (s : t S) : Z :=
  total_bytes_read_ s - (BufferSize s + buffer_size_after_limit_ s).

Definition Advance (amount : Z) : CIS unit :=
  modS (fun s => set_buffer (zdrop amount (chunk s)) (bsize s - amount) s).

(** *** Limits *)

Definition RecomputeBufferLimits_ (s : t S) : t S :=
  let size := bsize s + buffer_size_after_limit_ s in
  let closest_limit := Z.min (current_limit_ s) (total_bytes_limit_ s) in
  if closest_limit <? total_bytes_read_ s then
    let after := total_bytes_read_ s - closest_limit in
    set_after after (set_buffer (chunk s) (size - after) s)
  else set_after 0 (set_buffer (chunk s) size s).

Definition RecomputeBufferLimits : CIS unit := modS RecomputeBufferLimits_.

Definition PushLimit (byte_limit : Z) : CIS Z :=
  let* current_position := gets CurrentPosition in
  let* old_limit := gets current_limit_ in
  (if (0 <=? byte_limit) && (byte_limit <=? INT_MAX - current_position)
      && (byte_limit <? old_limit - current_position)
   then modS (fun s => set_limits (current_position + byte_limit)
                         (total_bytes_limit_ s) s) ;;;
        RecomputeBufferLimits
   else ret tt) ;;;
  ret old_limit.

Definition PopLimit (limit : Z) : CIS unit :=
  modS (fun s => set_limits limit (total_bytes_limit_ s) s) ;;;
  RecomputeBufferLimits ;;;
  modS (set_legit false).

Definition BytesUntilLimit (s : t S) : Z :=
  if current_limit_ s =? INT_MAX then -1
  else current_limit_ s - CurrentPosition s.

Definition SetTotalBytesLimit (total_bytes_limit : Z) : CIS unit :=
  modS (fun s => set_limits (current_limit_ s)
                   (Z.max (CurrentPosition s) total_bytes_limit) s) ;;;
  RecomputeBufferLimits.

Definition BytesUntilTotalBytesLimit (s : t S) : Z :=
  if total_bytes_limit_ s =? INT_MAX then -1
  else total_bytes_limit_ s - CurrentPosition s.

(** *** Recursion budget and end of message *)

Definition SetRecursionLimit (limit : Z) : CIS unit :=
  modS (fun s => set_recursion (recursion_budget_ s + (limit - recursion_limit_ s))
                   limit s).

Definition IncrementRecursionDepth : CIS bool :=
  modS (fun s => set_recursion (recursion_budget_ s - 1) (recursion_limit_ s) s) ;;;
  gets (fun s => 0 <=? recursion_budget_ s).

Definition DecrementRecursionDepth : CIS unit :=
  modS (fun s => if recursion_budget_ s <? recursion_limit_ s
                 then set_recursion (recursion_budget_ s + 1) (recursion_limit_ s) s
                 else s).

Definition UnsafeDecrementRecursionDepth : CIS unit :=
  let* s := getS in
  dcheck (recursion_budget_ s <? recursion_limit_ s) ;;;
  modS (set_recursion (recursion_budget_ s + 1) (recursion_limit_ s)).

Definition ConsumedEntireMessage (s : t S) : bool := legitimate_message_end_ s.
Definition LastTagWas (expected : Z) (s : t S) : bool := last_tag_ s =? expected.

Definition IncrementRecursionDepthAndPushLimit (byte_limit : Z) : CIS (Z * Z) :=
  let* limit := PushLimit byte_limit in
  modS (fun s => set_recursion (recursion_budget_ s - 1) (recursion_limit_ s) s) ;;;
  let* budget := gets recursion_budget_ in
  ret (limit, budget).

Definition DecrementRecursionDepthAndPopLimit (limit : Z) : CIS bool :=
  let* result := gets ConsumedEntireMessage in
  PopLimit limit ;;;
  UnsafeDecrementRecursionDepth ;;;
  ret result.

Definition CheckEntireMessageConsumedAndPopLimit (limit : Z) : CIS bool :=
  let* result := gets ConsumedEntireMessage in
  PopLimit limit ;;;
  ret result.

(** *** Refilling the buffer *)

Definition BackUpInputToCurrentPosition : CIS unit :=
  let* s := getS in
  let backup_bytes :=
    BufferSize s + buffer_size_after_limit_ s + overflow_bytes_ s in
  if 0 <? backup_bytes then
    on_input (BackUp backup_bytes) ;;;
    modS (fun s => set_after 0 (set_buffer [] 0
            (set_total (total_bytes_read_ s -
                        (BufferSize s + buffer_size_after_limit_ s)) 0 s)))
  else ret tt.

(** [NextNonEmpty]; the stream returns at most [n] buffers. *)
Fixpoint NextNonEmpty_loop (n : nat) : M S (option (list byte)) :=
  let* r := Next in
  match r with
  | None => ret None
  | Some c =>
      if zlen c =? 0
      then match n with O => undef | Datatypes.S n => NextNonEmpty_loop n end
      else ret (Some c)
  end.

Definition NextNonEmpty : M S (option (list byte)) := fun i =>
  NextNonEmpty_loop (bound i) i.

Definition Refresh : CIS bool :=
  let* s := getS in
  dcheck (BufferSize s =? 0) ;;;
  if (0 <? buffer_size_after_limit_ s) || (0 <? overflow_bytes_ s)
     || (total_bytes_read_ s =? current_limit_ s)
  then ret false
  else
    let* r := on_input NextNonEmpty in
    match r with
    | Some c =>
        let buffer_size := zlen c in
        (if total_bytes_read_ s <=? INT_MAX - buffer_size then
           modS (fun s => set_total (total_bytes_read_ s + buffer_size)
                            (overflow_bytes_ s) (set_buffer c buffer_size s))
         else
           let overflow := total_bytes_read_ s - (INT_MAX - buffer_size) in
           modS (fun s => set_total INT_MAX overflow
                            (set_buffer c (buffer_size - overflow) s))) ;;;
        RecomputeBufferLimits ;;;
        ret true
    | None =>
        modS (set_buffer [] 0) ;;; ret false
    end.

(** How often [Refresh] can succeed from here. *)
Definition refills (s : t S) : nat :=
  match input_ s with Some i => bound i | None => O end.

(** *** Raw bytes and strings *)

Definition SkipFallback (count original_buffer_size : Z) : CIS bool :=
  let* s := getS in
  if 0 <? buffer_size_after_limit_ s then
    Advance original_buffer_size ;;; ret false
  else
    let count := count - original_buffer_size in
    modS (set_buffer [] 0) ;;;
    let closest_limit := Z.min (current_limit_ s) (total_bytes_limit_ s) in
    let bytes_until_limit := closest_limit - total_bytes_read_ s in
    if bytes_until_limit <? count then
      (if 0 <? bytes_until_limit then
         modS (fun s => set_total closest_limit (overflow_bytes_ s) s) ;;;
         on_input (Skip bytes_until_limit) ;;; ret tt
       else ret tt) ;;;
      ret false
    else
      let* ok := on_input (Skip count) in
      if ok : bool then
        modS (fun s => set_total (total_bytes_read_ s + count) (overflow_bytes_ s) s) ;;;
        ret true
      else
        let* n := on_input (gets ByteCount) in
        modS (fun s => set_total (s32 n) (overflow_bytes_ s) s) ;;;
        ret false.

Definition Skip (count : Z) : CIS bool :=
  if count <? 0 then ret false else
  let* original_buffer_size := gets BufferSize in
  if count <=? original_buffer_size then Advance count ;;; ret true
  else SkipFallback count original_buffer_size.

Definition GetDirectBufferPointer : CIS (option (list byte)) :=
  let* n := gets BufferSize in
  let* ok := (if n =? 0 then Refresh else ret true) in
  if ok : bool then
    let* s := getS in
    ret (Some (ztake (BufferSize s) (chunk s)))
  else ret None.

(** The loop of [ReadRaw]; the result also holds the bytes stored through
    [buffer]. *)
Fixpoint ReadRaw_loop (n : nat) (size : Z) (buffer : list byte) : CIS (bool * list byte) :=
  let* s := getS in
  let current_buffer_size := BufferSize s in
  if current_buffer_size <? size then
    let buffer := buffer ++ ztake current_buffer_size (chunk s) in
    Advance current_buffer_size ;;;
    let* ok := Refresh in
    if ok : bool then
      match n with
      | O => undef
      | Datatypes.S n => ReadRaw_loop n (size - current_buffer_size) buffer
      end
    else ret (false, buffer)
  else if size <? 0 then undef
  else
    Advance size ;;; ret (true, buffer ++ ztake size (chunk s)).

Definition ReadRaw (size : Z) : CIS (bool * list byte) := fun s =>
  ReadRaw_loop (refills s) size [] s.

(** [ReadStringFallback] clears the string, then is the loop of [ReadRaw]
    appending to it; [reserve] only allocates. *)
Definition ReadStringFallback (size : Z) : CIS (bool * list byte) := ReadRaw size.

(** The result holds the new value of [*buffer]. *)
Definition ReadString (buffer : list byte) (size : Z) : CIS (bool * list byte) :=
  if size <? 0 then ret (false, buffer) else
  let* s := getS in
  if size <=? BufferSize s then
    Advance size ;;; ret (true, ztake size (chunk s))
  else ReadStringFallback size.

(** *** Fixed-width integers *)

Definition ReadLittleEndianFallback (kSize : Z) : CIS (bool * Z) :=
  let* s := getS in
  if kSize <=? BufferSize s then
    Advance kSize ;;; ret (true, le_value (ztake kSize (chunk s)))
  else
    let* (ok, bytes) := ReadRaw kSize in
    if ok : bool then ret (true, le_value bytes) else ret (false, 0).

Definition ReadLittleEndian (kSize : Z) : CIS (bool * Z) :=
  let* s := getS in
  if kSize <=? BufferSize s then
    modS (fun s => set_buffer (zdrop kSize (chunk s)) (bsize s - kSize) s) ;;;
    ret (true, le_value (ztake kSize (chunk s)))
  else ReadLittleEndianFallback kSize.

Definition ReadLittleEndian16 : CIS (bool * Z) := ReadLittleEndian 2.
Definition ReadLittleEndian32 : CIS (bool * Z) := ReadLittleEndian 4.
Definition ReadLittleEndian64 : CIS (bool * Z) := ReadLittleEndian 8.

(** *** Varints *)

(** [BufferSize() >= kMaxVarintBytes ||
     (buffer_end_ > buffer_ && !(buffer_end_[-1] & 0x80))] *)
Definition varint_in_buffer (s : t S) : option bool :=
  if Z.of_nat kMaxVarintBytes <=? BufferSize s then Some true
  else if 0 <? BufferSize s then
    b ← at_ (chunk s) (Z.to_nat (BufferSize s - 1));
    Some (Z.land b 0x80 =? 0)
  else Some false.

(** [buffer_ = p.second] *)
Definition move_buffer (rest : list byte) : CIS unit :=
  modS (fun s => set_buffer rest (bsize s - (zlen (chunk s) - zlen rest)) s).

(** [*buffer_] *)
Definition first_byte : CIS Z := fun s => lift (at_ (chunk s) 0) s.

(** [while (buffer_ == buffer_end_) { if (!Refresh()) ... return false; }];
    a refill can leave the buffer empty once, at the total limit. *)
Fixpoint refill_loop (n : nat) : CIS bool :=
  let* size := gets BufferSize in
  if size =? 0 then
    let* ok := Refresh in
    if ok : bool then
      match n with O => undef | Datatypes.S n => refill_loop n end
    else ret false
  else ret true.

(** The loop of [ReadVarint64Slow]; [n] is [kMaxVarintBytes - count]. *)
Fixpoint ReadVarint64Slow_loop (n : nat) (count result : Z) : CIS (Z * bool) :=
  match n with
  | O => ret (0, false)
  | Datatypes.S n =>
      let* fuel := gets refills in
      let* ok := refill_loop fuel in
      if ok : bool then
        let* b := first_byte in
        let result :=
          Z.lor result (u64 (Z.shiftl (Z.land b 0x7F) (7 * count))) in
        Advance 1 ;;;
        if Z.land b 0x80 =? 0 then ret (result, true)
        else ReadVarint64Slow_loop n (count + 1) result
      else ret (0, false)
  end.

Definition ReadVarint64Slow : CIS (Z * bool) :=
  ReadVarint64Slow_loop kMaxVarintBytes 0 0.

Definition ReadVarint64Fallback : CIS (Z * bool) :=
  let* fast := (fun s => lift (varint_in_buffer s) s) in
  if fast : bool then
    let* p := (fun s => lift (ReadVarint64FromArray (chunk s)) s) in
    match p with
    | read_overrun => ret (0, false)
    | read_ok temp rest => move_buffer rest ;;; ret (temp, true)
    end
  else ReadVarint64Slow.

Definition ReadVarint32Slow : CIS (Z * bool) :=
  let* (v, ok) := ReadVarint64Fallback in
  ret (u32 v, ok).

Definition ReadVarint32Fallback (first_byte_or_zero : Z) : CIS Z :=
  let* fast := (fun s => lift (varint_in_buffer s) s) in
  if fast : bool then
    dcheck (negb (first_byte_or_zero =? 0)) ;;;
    let* p := (fun s => lift (ReadVarint32FromArray first_byte_or_zero (chunk s)) s) in
    match p with
    | read_overrun => ret (-1)
    | read_ok temp rest => move_buffer rest ;;; ret temp
    end
  else
    let* (temp, ok) := ReadVarint32Slow in
    ret (if ok : bool then temp else -1).

(** [v < 0x80] on the first byte, when there is one; [v] is zero when the
    buffer is empty. *)
Definition peek_small : CIS (Z * bool) :=
  let* s := getS in
  if 0 <? BufferSize s then
    let* v := first_byte in ret (v, v <? 0x80)
  else ret (0, false).

Definition ReadVarint64 : CIS (Z * bool) :=
  let* (v, small) := peek_small in
  if small : bool then Advance 1 ;;; ret (v, true) else ReadVarint64Fallback.

Definition ReadVarint32 : CIS (Z * bool) :=
  let* (v, small) := peek_small in
  if small : bool then Advance 1 ;;; ret (v, true)
  else
    let* result := ReadVarint32Fallback v in
    ret (u32 result, 0 <=? result).

Definition ReadVarintSizeAsIntSlow : CIS Z :=
  let* (v, ok) := ReadVarint64Fallback in
  ret (if negb ok || (INT_MAX <? v) then -1 else v).

Definition ReadVarintSizeAsIntFallback : CIS Z :=
  let* fast := (fun s => lift (varint_in_buffer s) s) in
  if fast : bool then
    let* p := (fun s => lift (ReadVarint64FromArray (chunk s)) s) in
    match p with
    | read_overrun => ret (-1)
    | read_ok temp rest =>
        if INT_MAX <? temp then ret (-1) else move_buffer rest ;;; ret temp
    end
  else ReadVarintSizeAsIntSlow.

Definition ReadVarintSizeAsInt : CIS (Z * bool) :=
  let* (v, small) := peek_small in
  if small : bool then Advance 1 ;;; ret (v, true)
  else
    let* value := ReadVarintSizeAsIntFallback in
    ret (value, 0 <=? value).

Definition ReadLengthAndPushLimit : CIS Z :=
  let* (length, ok) := ReadVarint32 in
  PushLimit (if ok : bool then s32 length else 0).

(** *** Tags *)

Definition ReadTagSlow : CIS Z :=
  let* s := getS in
  let* ok := (if BufferSize s =? 0 then Refresh else ret true) in
  if ok : bool then
    let* (result, ok) := ReadVarint64 in
    ret (if ok : bool then u32 result else 0)
  else
    modS (fun s =>
      let current_position := total_bytes_read_ s - buffer_size_after_limit_ s in
      if total_bytes_limit_ s <=? current_position
      then set_legit (current_limit_ s =? total_bytes_limit_ s) s
      else set_legit true s) ;;;
    ret 0.

Definition ReadTagFallback (first_byte_or_zero : Z) : CIS Z :=
  let* s := getS in
  let* fast := (fun s => lift (varint_in_buffer s) s) in
  if fast : bool then
    let* b := first_byte in
    dcheck (first_byte_or_zero =? b) ;;;
    if first_byte_or_zero =? 0 then Advance 1 ;;; ret 0 else
    let* p := (fun s => lift (ReadVarint32FromArray first_byte_or_zero (chunk s)) s) in
    match p with
    | read_overrun => ret 0
    | read_ok tag rest => move_buffer rest ;;; ret tag
    end
  else if (BufferSize s =? 0)
          && ((0 <? buffer_size_after_limit_ s)
              || (total_bytes_read_ s =? current_limit_ s))
          && (total_bytes_read_ s - buffer_size_after_limit_ s
              <? total_bytes_limit_ s)
  then modS (set_legit true) ;;; ret 0
  else ReadTagSlow.

Definition ReadTagNoLastTag : CIS Z :=
  let* (v, small) := peek_small in
  if small : bool then Advance 1 ;;; ret v else ReadTagFallback v.

Definition ReadTag : CIS Z :=
  let* tag := ReadTagNoLastTag in
  modS (set_tag tag) ;;; ret tag.

Definition ReadTagWithCutoffNoLastTag (cutoff : Z) : CIS (Z * bool) :=
  let slow first_byte_or_zero :=
    let* tag := ReadTagFallback first_byte_or_zero in
    ret (tag, u32 (tag - 1) <? cutoff) in
  let* s := getS in
  if 0 <? BufferSize s then
    let* b0 := first_byte in
    if (0 <? b0) && (b0 <? 0x80) then
      Advance 1 ;;; ret (b0, (0x7f <=? cutoff) || (b0 <=? cutoff))
    else if (0x80 <=? cutoff) && (1 <? BufferSize s) then
      let* b1 := (fun s => lift (at_ (chunk s) 1) s) in
      if 0x80 <=? Z.land b0 (Z.lnot b1) then
        let tag := u32 (Z.shiftl 1 7 * b1 + (b0 - 0x80)) in
        Advance 2 ;;;
        ret (tag, (Z.shiftl 0x7f 7 + 0x7f <=? cutoff) || (tag <=? cutoff))
      else slow b0
    else slow b0
  else slow 0.

Definition ReadTagWithCutoff (cutoff : Z) : CIS (Z * bool) :=
  let* (tag, below) := ReadTagWithCutoffNoLastTag cutoff in
  modS (set_tag tag) ;;; ret (tag, below).

Definition ExpectTag (expected : Z) : CIS bool :=
  let* s := getS in
  if expected <? Z.shiftl 1 7 then
    if 0 <? BufferSize s then
      let* b0 := first_byte in
      if b0 =? expected then Advance 1 ;;; ret true else ret false
    else ret false
  else if expected <? Z.shiftl 1 14 then
    if 2 <=? BufferSize s then
      let* b0 := first_byte in
      let* b1 := (fun s => lift (at_ (chunk s) 1) s) in
      if (b0 =? u8 (Z.lor expected 0x80)) && (b1 =? u8 (Z.shiftr expected 7))
      then Advance 2 ;;; ret true else ret false
    else ret false
  else ret false.

Definition ExpectAtEnd : CIS bool :=
  let* s := getS in
  if (BufferSize s =? 0)
     && (negb (buffer_size_after_limit_ s =? 0)
         || (total_bytes_read_ s =? current_limit_ s))
  then modS (fun s => set_legit true (set_tag 0 s)) ;;; ret true
  else ret false.

(** *** Construction and destruction *)

Definition from_array (buffer : list byte) : t S :=
  mk buffer (zlen buffer) None (zlen buffer) 0 0 false (zlen buffer) 0
    kDefaultTotalBytesLimit default_recursion_limit_ default_recursion_limit_.

(** The constructor over a stream reads the first buffer. *)
Definition from_stream (input : S) : option (t S) :=
  snd <$> Refresh (mk [] 0 (Some input) 0 0 0 false INT_MAX 0
    kDefaultTotalBytesLimit default_recursion_limit_ default_recursion_limit_).

Definition destroy : CIS unit :=
  let* s := getS in
  match input_ s with
  | Some _ => BackUpInputToCurrentPosition
  | None => ret tt
  end.

(** ** Invariant and abstract view *)

Definition rest (s : t S) : list byte :=
  match input_ s with Some i => content i | None => [] end.

Definition closest (s : t S) : Z := Z.min (current_limit_ s) (total_bytes_limit_ s).

(** All bytes from the current position on, up to position [INT_MAX], which
    no limit exceeds. *)
Definition stream (s : t S) : list byte :=
  ztake (INT_MAX - CurrentPosition s) (chunk s ++ rest s).

(** The bytes that may be read before a limit is hit: what every operation's
    specification is about. *)
Definition avail (s : t S) : list byte :=
  ztake (closest s - CurrentPosition s) (stream s).

Definition buffer (s : t S) : list byte := ztake (bsize s) (chunk s).

Definition input_inv (s : t S) : Prop :=
  match input_ s with
  | None => current_limit_ s <= total_bytes_read_ s /\ overflow_bytes_ s = 0
  | Some i =>
      stream_ok i /\
      0 <= ByteCount i <= total_bytes_read_ s + overflow_bytes_ s /\
      (content i = [] \/ ByteCount i = total_bytes_read_ s + overflow_bytes_ s) /\
      exists used c,
        backable i = used ++ c /\
        zlen c = bsize s + buffer_size_after_limit_ s + overflow_bytes_ s /\
        (chunk s = c \/ chunk s = [])
  end.

(** What holds before [RecomputeBufferLimits] places [buffer_end_]. *)
Record Core (s : t S) : Prop := {
  core_size : 0 <= bsize s + buffer_size_after_limit_ s;
  core_over : 0 <= overflow_bytes_ s;
  core_total : bsize s + buffer_size_after_limit_ s <= total_bytes_read_ s <= INT_MAX;
  core_overmax : 0 < overflow_bytes_ s -> total_bytes_read_ s = INT_MAX;
  core_limits : current_limit_ s <= INT_MAX /\ total_bytes_limit_ s <= INT_MAX;
  core_pos : CurrentPosition s <= closest s;
  core_chunk :
    zlen (chunk s) = bsize s + buffer_size_after_limit_ s + overflow_bytes_ s \/
    (chunk s = [] /\ bsize s = 0 /\ buffer_size_after_limit_ s = 0 /\
     0 < overflow_bytes_ s);
  core_input : input_inv s;
}.

Record Inv (s : t S) : Prop := {
  inv_core : Core s;
  inv_bsize : 0 <= bsize s;
  inv_after : buffer_size_after_limit_ s
              = Z.max 0 (total_bytes_read_ s - closest s);
}.

(** The configuration no read changes, and the two flags of [ReadTag]. *)
Definition flat_size (s : t S) : option Z :=
  match input_ s with None => Some (total_bytes_read_ s) | Some _ => None end.
Definition cfg (s : t S) : Z * Z * Z * Z * option Z :=
  (current_limit_ s, total_bytes_limit_ s, recursion_budget_ s, recursion_limit_ s,
   flat_size s).
Definition flags (s : t S) : Z * bool := (last_tag_ s, legitimate_message_end_ s).

(** [moved n s s'] : the position advanced by [n] bytes, nothing else
    changed but the flags. *)
Definition moved (n : Z) (s s' : t S) : Prop :=
  Inv s' /\ cfg s' = cfg s /\ CurrentPosition s' = CurrentPosition s + n /\
  stream s' = zdrop n (stream s).

(** After a failed read some bytes are gone. *)
Definition failed (s s' : t S) : Prop :=
  Inv s' /\ cfg s' = cfg s /\ exists k, 0 <= k /\ stream s' = zdrop k (stream s).

Ltac inv_destruct HI :=
  let Hc := fresh "Hcore" in
  pose proof HI as Hc; destruct Hc as [[? ? ? ? [? ?] ? Hchunk Hin] ? ?].

Ltac unfold_state := unfold moved, failed, flags, cfg, avail, stream, rest, closest,
  CurrentPosition, BufferSize in *.

Lemma zlen_chunk s : Inv s -> bsize s <= zlen (chunk s).
Proof. intros HI. inv_destruct HI. destruct Hchunk as [?|(-> & ? & ? & ?)]; zl. Qed.

Lemma zlen_buffer s : Inv s -> zlen (buffer s) = bsize s.
Proof.
  intros HI. pose proof (zlen_chunk s HI). inv_destruct HI. unfold buffer. zl.
Qed.

Lemma moved_refl s : Inv s -> moved 0 s s.
Proof. intros. unfold moved. rewrite zdrop_0, Z.add_0_r by lia. done. Qed.

Lemma moved_trans n m s1 s2 s3 :
  0 <= n -> 0 <= m -> moved n s1 s2 -> moved m s2 s3 -> moved (n + m) s1 s3.
Proof.
  intros ? ? (? & ? & ? & E2) (? & ? & ? & E3). split_and!; [done|congruence|lia|].
  rewrite E3, E2. rewrite zdrop_zdrop by lia. done.
Qed.

Lemma moved_failed n s s' : 0 <= n -> moved n s s' -> failed s s'.
Proof. intros ? (? & ? & ? & ?). split_and!; [done..|]. by exists n. Qed.

Lemma moved_failed_trans n s1 s2 s3 :
  0 <= n -> moved n s1 s2 -> failed s2 s3 -> failed s1 s3.
Proof.
  intros ? (? & ? & ? & E2) (? & ? & k & ? & E3). split_and!; [done|congruence|].
  exists (n + k). split; [lia|]. rewrite E3, E2. by rewrite zdrop_zdrop by lia.
Qed.

Lemma moved_avail n s s' : 0 <= n -> moved n s s' -> avail s' = zdrop n (avail s).
Proof.
  intros Hn (_ & Hcfg & Hpos & Hs). unfold avail. rewrite Hs, Hpos.
  rewrite zdrop_ztake by lia. unfold cfg in Hcfg. simplify_eq. f_equal.
  unfold closest. lia.
Qed.

(** The available bytes are the buffer, then what the stream holds before the
    limit. *)
Lemma avail_buffer s :
  Inv s -> avail s = buffer s ++ ztake (closest s - total_bytes_read_ s) (rest s).
Proof.
  intros HI. pose proof (zlen_chunk s HI). inv_destruct HI.
  unfold avail, stream, buffer. rewrite ztake_ztake, ztake_app.
  unfold_state. set (cl := Z.min (current_limit_ s) (total_bytes_limit_ s)) in *.
  destruct (decide (total_bytes_read_ s < cl)).
  - assert (overflow_bytes_ s = 0) by lia.
    destruct Hchunk as [?|(? & ? & ? & ?)]; [|lia].
    rewrite !(ztake_all _ (chunk s)) by lia. f_equal. f_equal. lia.
  - rewrite (ztake_0 (cl - total_bytes_read_ s)) by lia. rewrite app_nil_r.
    rewrite (ztake_0 (_ - zlen _)), app_nil_r.
    + f_equal. lia.
    + destruct Hchunk as [?|(E & ? & ? & ?)]; [|rewrite E]; zl.
Qed.

(** *** The elementary steps *)

Lemma advance_moved n s :
  Inv s -> 0 <= n <= bsize s ->
  moved n s (set_buffer (zdrop n (chunk s)) (bsize s - n) s).
Proof.
  intros HI Hn. pose proof (zlen_chunk s HI). inv_destruct HI.
  assert (Hz : zlen (zdrop n (chunk s)) = zlen (chunk s) - n) by zl.
  split_and!; [|done|unfold CurrentPosition, BufferSize; simpl; lia|].
  - split; [split|..]; unfold_state; simpl in *; try lia; try done.
    + destruct Hchunk as [?|(E & ? & ? & ?)]; [left; lia|].
      right. rewrite E, zdrop_all by zl. split_and!; [done|lia..].
    + unfold input_inv in *. simpl in *. destruct (input_ s) as [i|]; [|done].
      destruct Hin as (? & ? & ? & used & c & Hb & Hc & Hcc).
      split_and!; try done; try lia. exists (used ++ ztake n c), (zdrop n c).
      rewrite <- app_assoc, ztake_zdrop. split_and!; [done|zl|].
      destruct Hcc as [->|E]; [by left|right]. rewrite E. by rewrite zdrop_all by zl.
  - unfold_state. simpl. rewrite zdrop_ztake, zdrop_app by lia.
    rewrite (zdrop_0 (n - _)) by lia. f_equal. lia.
Qed.

Lemma Advance_wp n s :
  Inv s -> 0 <= n <= bsize s ->
  wp (Advance n) s (fun _ s' => moved n s s' /\ flags s' = flags s /\
    refills s' = refills s /\ bsize s' = bsize s - n).
Proof.
  intros. unfold Advance. wp_steps. split_and!; [by apply advance_moved|done..].
Qed.

Lemma recompute_inv s :
  Core s ->
  let s' := RecomputeBufferLimits_ s in
  Inv s' /\ cfg s' = cfg s /\ CurrentPosition s' = CurrentPosition s /\
  stream s' = stream s /\ flags s' = flags s /\ refills s' = refills s.
Proof.
  intros [? ? ? ? [? ?] ? Hchunk Hin]. unfold RecomputeBufferLimits_.
  destruct (Z.ltb_spec (Z.min (current_limit_ s) (total_bytes_limit_ s))
              (total_bytes_read_ s)); simpl.
  all: split_and!; [|done|unfold CurrentPosition, BufferSize; simpl; lia| |done|done].
  all: try (unfold_state; simpl; do 2 f_equal; lia).
  all: split; [split|..]; unfold_state; simpl in *; try lia; try done.
  all: try (destruct Hchunk as [?|(? & ? & ? & ?)]; [left; lia|right; split_and!; [done|lia..]]).
  all: unfold input_inv in *; simpl in *; destruct (input_ s) as [i|]; [|done].
  all: destruct Hin as (? & ? & ? & used & c & ? & ? & ?); split_and!; try done; try lia.
  all: exists used, c; split_and!; [done|lia|done].
Qed.

Lemma NextNonEmpty_loop_wp n i :
  (bound i <= n)%nat -> stream_ok i ->
  wp (NextNonEmpty_loop n) i (fun r i' =>
    stream_ok i' /\
    match r with
    | Some c =>
        content i = c ++ content i' /\ c `suffix_of` backable i' /\ 0 < zlen c /\
        ByteCount i' = ByteCount i + zlen c /\ (bound i' < bound i)%nat
    | None => content i = [] /\ content i' = [] /\ ByteCount i' = ByteCount i
    end).
Proof.
  revert i. induction n as [|n IH]; intros i Hn Hi; simpl; wp_steps;
    (wp_use next_ok; [done|]); intros [c|] i'; [|intros (?&?&?&?); by wp_steps| |
    intros (?&?&?&?); by wp_steps]; intros (Hi' & E & Eb & HB & Hlt).
  - lia.
  - destruct (Z.eqb_spec (zlen c) 0); [|wp_steps; split_and!; try done; zl].
    assert (c = []) as -> by (apply zlen_0; lia).
    wp_use IH; [lia|done|]. intros r i'' (Hi'' & Hr). split; [done|].
    simpl in E. rewrite E. change (zlen []) with 0 in HB. rewrite Z.add_0_r in HB.
    destruct r as [c|].
    + destruct Hr as (? & ? & ? & ? & ?). split_and!; try done; lia.
    + by rewrite <- HB.
Qed.

(** What [Refresh] promises. *)
Definition refreshed (s : t S) (ok : bool) (s' : t S) : Prop :=
  moved 0 s s' /\ flags s' = flags s /\
  if ok then
    (refills s' < refills s)%nat /\
    (avail s = [] -> total_bytes_limit_ s <= CurrentPosition s /\
                     current_limit_ s <> total_bytes_limit_ s)
  else avail s = [] /\ bsize s' = 0 /\
       total_bytes_read_ s' = total_bytes_read_ s /\
       buffer_size_after_limit_ s' = buffer_size_after_limit_ s.

(** The buffer [c] has been fetched from [i], which is now [i']; the last
    [overflow] bytes are hidden. *)
Lemma refill_wp s i i' c total overflow :
  Inv s -> bsize s = 0 -> chunk s = [] -> buffer_size_after_limit_ s = 0 ->
  input_ s = Some i -> content i = c ++ content i' -> c `suffix_of` backable i' ->
  stream_ok i' -> (bound i' < bound i)%nat ->
  ByteCount i' = total_bytes_read_ s + zlen c -> 0 <= total_bytes_read_ s ->
  0 < zlen c -> total_bytes_read_ s <> current_limit_ s ->
  0 <= overflow <= zlen c -> (0 < overflow -> total = INT_MAX) -> total <= INT_MAX ->
  total + overflow = total_bytes_read_ s + zlen c ->
  wp (RecomputeBufferLimits ;;; ret true)
    (set_total total overflow
       (set_buffer c (zlen c - overflow) (set_input (Some i') s)))
    (refreshed s).
Proof.
  intros HI Hb Hch Ha Ei Ec [used' Eback] Hi' Hbound HB ? Hcpos Hne ? ? ? ?.
  pose proof (avail_buffer s HI) as Hav. inv_destruct HI. set (s1 := set_total _ _ _).
  assert (Hcore : Core s1).
  { split; unfold s1, input_inv; unfold_state; simpl; try lia.
    split_and!; try done; try lia. exists used', c. split_and!; [done|lia|by left]. }
  destruct (recompute_inv _ Hcore) as (? & ? & Hp & Hs & ? & Hr).
  unfold RecomputeBufferLimits. wp_steps. unfold refreshed, moved.
  rewrite Hp, Hs, Hr. unfold refills. rewrite Ei. split_and!; try done.
  - transitivity (cfg s1); [done|]. unfold cfg, flat_size; simpl. by rewrite Ei.
  - unfold s1; unfold_state; simpl; lia.
  - rewrite zdrop_0 by lia. unfold s1; unfold_state; simpl.
    rewrite Ei, Hch, Ec. simpl. f_equal. lia.
  - intros E. rewrite E in Hav. unfold rest in Hav. rewrite Ei, Ec in Hav.
    apply (f_equal zlen) in Hav. unfold_state. zl.
Qed.

Lemma Refresh_wp s : Inv s -> bsize s = 0 -> wp Refresh s (refreshed s).
Proof.
  intros HI Hb. pose proof (avail_buffer s HI) as Hav. inv_destruct HI.
  assert (buffer s = []) as Ebuf by (unfold buffer; apply ztake_0; lia).
  rewrite Ebuf in Hav. simpl in Hav.
  unfold Refresh, dcheck, BufferSize. wp_steps. rewrite Hb. simpl. wp_steps.
  destruct (_ || _) eqn:Estop.
  { wp_steps. split_and!; try done; [by apply moved_refl|].
    rewrite Hav. apply ztake_0. unfold closest in *.
    destruct (Z.ltb_spec 0 (buffer_size_after_limit_ s)); [lia|].
    destruct (Z.ltb_spec 0 (overflow_bytes_ s)); [lia|].
    simpl in Estop. apply Z.eqb_eq in Estop. lia. }
  apply orb_false_iff in Estop as [[Ha%Z.ltb_ge Ho%Z.ltb_ge]%orb_false_iff He%Z.eqb_neq].
  assert (chunk s = []) as Echunk by (destruct Hchunk; [apply zlen_0; lia|naive_solver]).
  wp_steps. unfold wp at 1. unfold on_input, input_inv in *. unfold rest in Hav.
  destruct (input_ s) as [i|] eqn:Ei; [|unfold closest in *; lia].
  destruct Hin as (Hi & HB & HBeq & used & c0 & Hback & Hc0 & Hcc).
  pose proof (NextNonEmpty_loop_wp (bound i) i ltac:(lia) Hi) as Hnext.
  unfold wp in Hnext. unfold NextNonEmpty.
  destruct (NextNonEmpty_loop (bound i) i) as [[[c|] i']|]; [| |done].
  - destruct Hnext as (Hi' & Ec & Eback & Hpos & HB' & Hbound).
    assert (HBi : ByteCount i = total_bytes_read_ s).
    { destruct HBeq as [E|]; [|lia]. rewrite E in Ec. destruct c; [zl|done]. }
    simpl. destruct (Z.leb_spec (total_bytes_read_ s) (INT_MAX - zlen c));
      apply wp_bind, wp_modS; simpl.
    + replace (overflow_bytes_ s) with 0 by lia.
      replace (set_buffer c (zlen c)) with (set_buffer c (zlen c - 0)) by (f_equal; lia).
      eapply refill_wp; try done; lia.
    + eapply refill_wp; try done; lia.
  - destruct Hnext as (Hi' & E & E' & HB'). apply wp_bind, wp_modS, wp_ret.
    split_and!; try done.
    + split_and!; [|by unfold cfg, flat_size; simpl; rewrite Ei|unfold_state; simpl; lia|].
      * split; [split|..]; unfold_state; simpl; try lia; try done.
        { left. change (zlen []) with 0. lia. }
        unfold input_inv; simpl. split_and!; try done; try lia; [by left|].
        exists (backable i'), []. rewrite app_nil_r. split_and!; [done| |by left].
        change (zlen []) with 0. lia.
      * unfold_state; simpl. rewrite Ei, Echunk, E, E'. simpl.
        unfold ztake, zdrop. by rewrite !take_nil.
    + rewrite Hav, E. unfold ztake. by rewrite take_nil.
Qed.

(** *** Raw reads *)

Lemma avail_split s : Inv s -> avail s = buffer s ++ zdrop (bsize s) (avail s).
Proof.
  intros HI. rewrite (avail_buffer s HI).
  by rewrite zdrop_app_exact by (by apply zlen_buffer).
Qed.

Lemma ReadRaw_loop_eq n size out :
  ReadRaw_loop n size out =
  (let* s := getS in
   let current_buffer_size := BufferSize s in
   if current_buffer_size <? size then
     let out := out ++ ztake current_buffer_size (chunk s) in
     Advance current_buffer_size ;;;
     let* ok := Refresh in
     if ok : bool then
       match n with
       | O => undef
       | Datatypes.S n => ReadRaw_loop n (size - current_buffer_size) out
       end
     else ret (false, out)
   else if size <? 0 then undef
   else Advance size ;;; ret (true, out ++ ztake size (chunk s))).
Proof. by destruct n. Qed.

Lemma ReadRaw_loop_wp n size out s :
  Inv s -> (refills s <= n)%nat -> 0 <= size ->
  wp (ReadRaw_loop n size out) s (fun '(ok, out') s' =>
    moved (Z.min size (zlen (avail s))) s s' /\ flags s' = flags s /\
    ok = (size <=? zlen (avail s)) /\ out' = out ++ ztake size (avail s)).
Proof.
  revert n size out s. induction n as [n IH] using lt_wf_ind.
  intros size out s HI Hn Hsize. rewrite ReadRaw_loop_eq. wp_steps. unfold BufferSize.
  pose proof (avail_split s HI) as Hav. set (T := zdrop (bsize s) (avail s)) in *.
  pose proof (zlen_buffer s HI) as Hbuf. pose proof (inv_bsize s HI).
  destruct (Z.ltb_spec (bsize s) size).
  - wp_steps. wp_use (Advance_wp (bsize s)); [done|lia|].
    intros _ s1 (Hm1 & Hf1 & Hr1 & Hb1). wp_steps.
    wp_use Refresh_wp; [apply Hm1|lia|]. intros ok s2 (Hm2 & Hf2 & Hok).
    pose proof (moved_avail (bsize s) s s1 ltac:(lia) Hm1) as Ha1. fold T in Ha1.
    pose proof (moved_avail 0 s1 s2 ltac:(lia) Hm2) as Ha2.
    rewrite zdrop_0, Ha1 in Ha2 by lia. rewrite Hav, zlen_app, Hbuf.
    destruct ok.
    + destruct Hok as [Hlt _]. destruct n as [|n]; [lia|].
      wp_use IH; [lia|apply Hm2|lia|lia|]. intros [ok out'] s3 (Hm3 & Hf3 & -> & ->).
      rewrite Ha2 in *. split_and!; [|congruence| |].
      * replace (Z.min size (bsize s + zlen T))
          with (bsize s + (0 + Z.min (size - bsize s) (zlen T))) by lia.
        eapply moved_trans; [lia|zl|done|]. eapply moved_trans; [lia|zl|done|done].
      * case_cmp; lia.
      * rewrite <- app_assoc. f_equal. rewrite ztake_app, Hbuf.
        by rewrite (ztake_all size) by lia.
    + rewrite Ha1 in Hok. destruct Hok as (-> & _). wp_steps.
      rewrite zlen_nil, app_nil_r. split_and!; [|congruence| |].
      * rewrite Z.min_r by lia. eapply moved_trans; done || lia.
      * symmetry. apply Z.leb_gt. lia.
      * by rewrite (ztake_all size) by lia.
  - destruct (Z.ltb_spec size 0); [lia|]. wp_steps. wp_use Advance_wp; [done|lia|].
    intros _ s' (? & ? & _). wp_steps. rewrite Hav, zlen_app, Hbuf.
    rewrite Z.min_l by zl. split_and!; try done; [symmetry; apply Z.leb_le; zl|].
    rewrite ztake_app, (ztake_0 (size - _)), app_nil_r by lia.
    unfold buffer. rewrite ztake_ztake. do 2 f_equal. lia.
Qed.

Lemma ReadRaw_wp size s :
  Inv s -> 0 <= size ->
  wp (ReadRaw size) s (fun '(ok, out) s' =>
    moved (Z.min size (zlen (avail s))) s s' /\ flags s' = flags s /\
    ok = (size <=? zlen (avail s)) /\ out = ztake size (avail s)).
Proof. intros. by apply (ReadRaw_loop_wp (refills s) size []). Qed.

Lemma ztake_chunk n s :
  Inv s -> n <= bsize s -> ztake n (chunk s) = ztake n (avail s).
Proof.
  intros HI Hn. rewrite avail_split by done. rewrite ztake_app, zlen_buffer by done.
  rewrite (ztake_0 (n - _)), app_nil_r by lia. unfold buffer. rewrite ztake_ztake.
  f_equal. lia.
Qed.

Lemma bsize_avail s : Inv s -> bsize s <= zlen (avail s).
Proof.
  intros HI. rewrite avail_split by done. rewrite zlen_app, zlen_buffer by done.
  pose proof (zlen_nonneg (zdrop (bsize s) (avail s))). lia.
Qed.

Lemma ReadString_wp buf size s :
  Inv s ->
  wp (ReadString buf size) s (fun '(ok, out) s' =>
    flags s' = flags s /\
    if size <? 0 then ok = false /\ out = buf /\ s' = s
    else moved (Z.min size (zlen (avail s))) s s' /\
         ok = (size <=? zlen (avail s)) /\ out = ztake size (avail s)).
Proof.
  intros HI. unfold ReadString, ReadStringFallback, BufferSize.
  destruct (Z.ltb_spec size 0); [by wp_steps|]. wp_steps.
  destruct (Z.leb_spec size (bsize s)).
  - pose proof (bsize_avail s HI). wp_steps. wp_use Advance_wp; [done|lia|].
    intros _ s' (? & ? & _). wp_steps. split_and!; try done.
    + by rewrite Z.min_l by lia.
    + symmetry. apply Z.leb_le. lia.
    + by apply ztake_chunk.
  - wp_use ReadRaw_wp; [done|lia|]. intros [ok out] s' (? & ? & ? & ?). done.
Qed.

(** A null buffer, as [SkipFallback] leaves it. *)
Lemma drop_buffer_moved s :
  Inv s -> buffer_size_after_limit_ s = 0 ->
  moved (bsize s) s (set_buffer [] 0 s).
Proof.
  intros HI Ha. pose proof (zlen_chunk s HI). inv_destruct HI.
  split_and!; [|done|unfold_state; simpl; lia|].
  - split; [split|..]; unfold_state; simpl; try lia; try done.
    + change (zlen []) with 0. destruct (decide (overflow_bytes_ s = 0)); [left; lia|].
      right. split_and!; [done..|lia].
    + unfold input_inv in *. simpl. destruct (input_ s); [|done].
      destruct Hin as (? & ? & ? & used & c & Hb & Hc & Hcc). split_and!; try done; try lia.
      exists (used ++ ztake (bsize s) c), (zdrop (bsize s) c).
      rewrite <- app_assoc, ztake_zdrop. split_and!; [done|zl|by right].
  - unfold_state; simpl. rewrite zdrop_ztake, zdrop_app by lia.
    destruct Hchunk as [Hl|(E & ? & ? & ?)].
    + destruct (decide (overflow_bytes_ s = 0)).
      * rewrite zdrop_all, zdrop_0 by lia. f_equal. lia.
      * rewrite !ztake_0 by lia. done.
    + rewrite E, zdrop_all, zdrop_0 by zl. f_equal. lia.
Qed.

(** Skipping in the underlying stream, from a null buffer. *)
Lemma input_skip_moved s i i' n total :
  Inv s -> bsize s = 0 -> chunk s = [] -> buffer_size_after_limit_ s = 0 ->
  overflow_bytes_ s = 0 -> input_ s = Some i -> stream_ok i' ->
  content i' = zdrop n (content i) -> 0 <= n ->
  ByteCount i' = ByteCount i + Z.min n (zlen (content i)) ->
  (total = total_bytes_read_ s + n \/ (zlen (content i) < n /\ total = ByteCount i')) ->
  total <= closest s ->
  let s' := set_total total (overflow_bytes_ s) (set_input (Some i') s) in
  failed s s' /\ (total = total_bytes_read_ s + n -> moved n s s').
Proof.
  intros HI Hb Hch Ha Ho Ei Hi' Hc Hn HB Htot Hcl. inv_destruct HI.
  unfold input_inv in Hin. rewrite Ei in Hin.
  destruct Hin as (Hi & HBi & HBeq & _). pose proof (zlen_nonneg (content i)).
  intros s'. assert (Inv s') as HI'.
  { split; [split|..]; unfold s', input_inv; unfold_state; simpl; try lia;
      rewrite ?Hch; try by left.
    split_and!; [done|lia| | |].
      + destruct HBeq as [E|]; [rewrite E in *; change (zlen []) with 0 in *|]; lia.
      + rewrite Hc. destruct (decide (zlen (content i) <= n)).
        * left. by apply zdrop_all.
        * destruct HBeq as [E|]; [rewrite E; left; unfold zdrop; by rewrite drop_nil|].
          right. lia.
      + exists (backable i'), []. rewrite app_nil_r. split_and!; [done|zl|by left]. }
  assert (Hst : stream s' = ztake (INT_MAX - total) (zdrop n (content i))).
  { unfold s'; unfold_state; simpl. rewrite Hch, Hc. simpl. f_equal. lia. }
  assert (Hst0 : stream s = ztake (INT_MAX - total_bytes_read_ s) (content i)).
  { unfold_state. rewrite Hch, Ei. simpl. f_equal. lia. }
  assert (cfg s' = cfg s) as Hcfg by (unfold cfg, flat_size; simpl; by rewrite Ei).
  split.
  - split_and!; try done. exists n. split; [done|]. rewrite Hst, Hst0.
    rewrite zdrop_ztake by done. destruct Htot as [->|[Hlt ->]]; [f_equal; lia|].
    rewrite zdrop_all by lia. unfold ztake. by rewrite !take_nil.
  - intros ->. split_and!; try done; [unfold s'; unfold_state; simpl; lia|].
    rewrite Hst, Hst0, zdrop_ztake by done. f_equal. lia.
Qed.

Lemma coded_on_input_wp {A} (m : M S A) s i Q :
  input_ s = Some i ->
  wp m i (fun a i' => Q a (set_input (Some i') s)) -> wp (on_input m) s Q.
Proof. unfold wp, on_input. intros ->. by destruct (m i) as [[a i']|]. Qed.

(** The part of [SkipFallback] past the buffer. *)
Lemma skip_input_wp s n :
  Inv s -> 0 < n -> bsize s = 0 -> chunk s = [] -> buffer_size_after_limit_ s = 0 ->
  wp (let bytes_until_limit := closest s - total_bytes_read_ s in
      if bytes_until_limit <? n then
        (if 0 <? bytes_until_limit then
           modS (fun s' => set_total (closest s) (overflow_bytes_ s') s') ;;;
           on_input (ZeroCopyStream.Skip bytes_until_limit) ;;; ret tt
         else ret tt) ;;;
        ret false
      else
        let* ok := on_input (ZeroCopyStream.Skip n) in
        if ok : bool then
          modS (fun s => set_total (total_bytes_read_ s + n) (overflow_bytes_ s) s) ;;;
          ret true
        else
          let* n := on_input (gets ByteCount) in
          modS (fun s => set_total (s32 n) (overflow_bytes_ s) s) ;;;
          ret false) s
    (fun ok s' => flags s' = flags s /\ ok = (n <=? zlen (avail s)) /\
       if ok then moved n s s' else failed s s').
Proof.
  intros HI Hn Hb Hch Ha. pose proof (avail_buffer s HI) as Hav.
  assert (buffer s = []) as Ebuf by (unfold buffer; apply ztake_0; lia).
  rewrite Ebuf in Hav. simpl in Hav. pose proof HI as HI'. inv_destruct HI.
  assert (Hlen : zlen (avail s) <= Z.max 0 (closest s - total_bytes_read_ s)) by (rewrite Hav; zl).
  cbv zeta. destruct (Z.ltb_spec (closest s - total_bytes_read_ s) n).
  - destruct (Z.leb_spec n (zlen (avail s))); [lia|].
    destruct (Z.ltb_spec 0 (closest s - total_bytes_read_ s)); wp_steps;
      [|split_and!; try done; by eapply moved_failed, moved_refl].
    assert (overflow_bytes_ s = 0) by (unfold closest in *; lia).
    unfold input_inv in Hin. destruct (input_ s) as [i|] eqn:Ei; [|unfold closest in *; lia].
    destruct Hin as (Hi & ? & ? & _). eapply coded_on_input_wp; [done|].
    wp_use skip_ok; [done|lia|]. intros b i' (Hi' & _ & Hc & HB). wp_steps.
    split_and!; try done.
    pose proof (input_skip_moved s i i' (closest s - total_bytes_read_ s) (closest s)
      HI' Hb Hch Ha) as Hm.
    apply Hm; try done; lia.
  - assert (overflow_bytes_ s = 0) by (unfold closest in *; lia).
    unfold input_inv in Hin. unfold rest in Hav.
    destruct (input_ s) as [i|] eqn:Ei; [|unfold closest in *; lia].
    destruct Hin as (Hi & ? & ? & _). wp_steps. eapply coded_on_input_wp; [done|].
    wp_use skip_ok; [done|lia|]. intros b i' (Hi' & Hok & Hc & HB).
    assert (b = (n <=? zlen (avail s))) as ->.
    { rewrite Hok, Hav by lia. case_cmp; zl. }
    pose proof (fun total => input_skip_moved s i i' n total HI' Hb Hch Ha) as Hm.
    destruct (Z.leb_spec n (zlen (avail s))) as [Hle|Hgt]; wp_steps; simpl.
    + split_and!; try done. apply Hm; try done; lia.
    + eapply coded_on_input_wp; [done|]. wp_steps. split_and!; try done.
      assert (Hlt : zlen (content i) < n).
      { rewrite Hav in Hgt. zl. }
      rewrite s32_id by (unfold is_s32, closest in *; pose proof (zlen_nonneg (content i)); zl).
      apply Hm; try done; lia.
Qed.

Lemma coded_Skip_wp n s :
  Inv s ->
  wp (Skip n) s (fun ok s' =>
    flags s' = flags s /\
    ok = ((0 <=? n) && (n <=? zlen (avail s))) /\
    if ok then moved n s s' else failed s s').
Proof.
  intros HI. unfold Skip, BufferSize. pose proof (bsize_avail s HI) as Hba.
  pose proof (inv_bsize s HI).
  destruct (Z.ltb_spec n 0) as [Hneg|Hpos].
  { wp_steps. destruct (Z.leb_spec 0 n); [lia|]. split_and!; try done.
    by eapply moved_failed, moved_refl. }
  destruct (Z.leb_spec 0 n); [|lia]. simpl. wp_steps.
  destruct (Z.leb_spec n (bsize s)).
  { wp_steps. wp_use Advance_wp; [done|lia|]. intros _ s' (? & ? & _). wp_steps.
    destruct (Z.leb_spec n (zlen (avail s))); [done|lia]. }
  unfold SkipFallback. wp_steps.
  destruct (Z.ltb_spec 0 (buffer_size_after_limit_ s)) as [Hafter|Hafter].
  - wp_steps. wp_use Advance_wp; [done|lia|]. intros _ s' (Hm & ? & _). wp_steps.
    assert (avail s = buffer s) as ->.
    { rewrite avail_buffer by done. pose proof (inv_after s HI).
      by rewrite ztake_0, app_nil_r by lia. }
    rewrite zlen_buffer by done. destruct (Z.leb_spec n (bsize s)); [lia|].
    split_and!; try done. by apply (moved_failed (bsize s)).
  - assert (buffer_size_after_limit_ s = 0) as Ha by (pose proof (inv_after s HI); lia).
    pose proof (drop_buffer_moved s HI Ha) as Hm.
    pose proof (moved_avail (bsize s) s _ ltac:(lia) Hm) as Hav.
    wp_steps. change (Z.min (current_limit_ s) (total_bytes_limit_ s)) with (closest s).
    wp_use (skip_input_wp (set_buffer [] 0 s) (n - bsize s)); [apply Hm|lia|done..|].
    intros ok s' (Hf & -> & Hok). rewrite Hav in *. rewrite zlen_zdrop in *.
    assert (Heq : (n - bsize s <=? Z.max 0 (zlen (avail s) - Z.max 0 (bsize s)))
                  = (n <=? zlen (avail s))) by (case_cmp; lia).
    rewrite Heq in *. split_and!; try done. destruct (n <=? zlen (avail s)).
    + replace n with (bsize s + (n - bsize s)) by lia. eapply moved_trans; done || lia.
    + by apply (moved_failed_trans (bsize s) _ (set_buffer [] 0 s)).
Qed.

(** *** Fixed-width integers *)

Lemma ReadLittleEndian_wp k s :
  Inv s -> 0 <= k ->
  wp (ReadLittleEndian k) s (fun '(ok, v) s' =>
    flags s' = flags s /\
    moved (Z.min k (zlen (avail s))) s s' /\
    (ok, v) = if k <=? zlen (avail s) then (true, le_value (ztake k (avail s)))
              else (false, 0)).
Proof.
  intros HI Hk. unfold ReadLittleEndian, ReadLittleEndianFallback, BufferSize.
  pose proof (bsize_avail s HI). wp_steps. destruct (Z.leb_spec k (bsize s)).
  - wp_steps. rewrite ztake_chunk by done. destruct (Z.leb_spec k (zlen (avail s))); [|lia].
    split_and!; try done. rewrite Z.min_l by lia. by apply advance_moved.
  - wp_steps. destruct (Z.leb_spec k (bsize s)); [lia|]. wp_steps.
    wp_use ReadRaw_wp; [done|lia|]. intros [ok out] s' (? & ? & -> & ->).
    destruct (Z.leb_spec k (zlen (avail s))); wp_steps; done.
Qed.

(** *** Varints *)

Lemma buffer_cons s :
  Inv s -> 0 < bsize s ->
  exists b l, buffer s = b :: l /\ chunk s = (b :: l) ++ zdrop (bsize s) (chunk s) /\
    at_ (chunk s) 0 = Some (b2z b) /\
    avail s = (b :: l) ++ zdrop (bsize s) (avail s).
Proof.
  intros HI Hb. pose proof (zlen_buffer s HI) as Hl.
  destruct (buffer s) as [|b l] eqn:E; [rewrite zlen_nil in Hl; lia|].
  assert (chunk s = (b :: l) ++ zdrop (bsize s) (chunk s)) as Hc.
  { rewrite <- E. unfold buffer. by rewrite ztake_zdrop. }
  exists b, l. split_and!; try done.
  - by rewrite Hc.
  - rewrite <- E. by apply avail_split.
Qed.

Lemma varint_in_buffer_whole s :
  Inv s -> exists fast, varint_in_buffer s = Some fast /\
    (fast = true -> 0 < bsize s /\ whole (buffer s)).
Proof.
  intros HI. unfold varint_in_buffer, BufferSize. pose proof (zlen_buffer s HI) as Hl.
  destruct (Z.leb_spec (Z.of_nat kMaxVarintBytes) (bsize s)) as [Hge|Hlt].
  - exists true. split; [done|]. intros _. unfold whole.
    unfold kMaxVarintBytes in *. split; [lia|]. left. unfold zlen in Hl. lia.
  - destruct (Z.ltb_spec 0 (bsize s)) as [Hpos|]; [|by exists false].
    pose proof (zlen_chunk s HI). unfold zlen in *.
    destruct (lookup_lt_is_Some_2 (chunk s) (Z.to_nat (bsize s - 1))) as [b Hb]; [lia|].
    unfold at_. rewrite Hb. cbn [fmap option_fmap option_map mbind option_bind].
    eexists. split; [done|]. rewrite land_80. intros Hlast%Z.ltb_lt. split; [done|].
    right. exists b. split; [|done]. rewrite last_lookup.
    unfold buffer, ztake in *. rewrite lookup_take_lt by lia. rewrite <- Hb. f_equal. lia.
Qed.

(** The varint at the current position was read, or there is none. *)
Definition decoded (s s' : t S) (r : option Z) : Prop :=
  flags s' = flags s /\
  match vdecode kMaxVarintBytes (avail s) with
  | Some (x, l) => r = Some x /\ moved (zlen (avail s) - zlen l) s s'
  | None => r = None /\ failed s s'
  end.

Lemma decoded_fast s fast b l k :
  Inv s -> buffer s = b :: l -> whole (buffer s) -> chunk s = (b :: l) ++ k ->
  array_read_spec fast (chunk s) = read_overrun /\ decoded s s None
  \/ exists x r, array_read_spec fast (chunk s) = read_ok (fast x) r /\
       decoded s (set_buffer r (bsize s - (zlen (chunk s) - zlen r)) s) (Some x).
Proof.
  intros HI Hbuf Hw Hch. unfold array_read_spec, decoded. rewrite <- Hbuf in Hch.
  pose proof (whole_vdecode (buffer s) k Hw) as E1. rewrite <- Hch in E1.
  pose proof (whole_vdecode (buffer s) (zdrop (bsize s) (avail s)) Hw) as E2.
  rewrite <- avail_split in E2 by done. rewrite E1, E2.
  destruct (vdecode kMaxVarintBytes (buffer s)) as [[x r]|] eqn:E.
  - right. exists x, (r ++ k). split_and!; try done.
    destruct (vdecode_suffix _ _ _ _ E) as (c & Hc & _).
    pose proof (zlen_buffer s HI) as Hl. rewrite Hc in Hl. rewrite zlen_app in Hl.
    assert (zlen (chunk s) - zlen (r ++ k) = zlen c) as ->.
    { rewrite Hch, Hc. zl. }
    assert (r ++ k = zdrop (zlen c) (chunk s)) as ->.
    { rewrite Hch, Hc, <- app_assoc. by rewrite zdrop_app_exact. }
    rewrite (avail_split s) at 1 by done. rewrite Hc, !zlen_app.
    replace (zlen c + zlen r + _ - _) with (zlen c) by lia.
    apply advance_moved; [done|]. pose proof (zlen_nonneg c). pose proof (zlen_nonneg r). lia.
  - left. split_and!; try done. by eapply moved_failed, moved_refl.
Qed.

Lemma refill_loop_wp n s :
  Inv s -> (refills s <= n)%nat ->
  wp (refill_loop n) s (fun ok s' =>
    moved 0 s s' /\ flags s' = flags s /\
    if ok then 0 < bsize s' else avail s = []).
Proof.
  revert s. induction n as [|n IH]; intros s HI Hn; simpl; wp_steps; unfold BufferSize;
    pose proof (inv_bsize s HI);
    (destruct (Z.eqb_spec (bsize s) 0);
     [|wp_steps; split_and!; [by apply moved_refl|done|lia]]);
    wp_steps; (wp_use Refresh_wp; [done..|]); intros ok s1 (Hm & Hf & Hok);
    (destruct ok; [destruct Hok as [Hlt _]|wp_steps; split_and!; try done; apply Hok]).
  - lia.
  - wp_use IH; [apply Hm|lia|]. intros ok s2 (Hm2 & Hf2 & Hok2).
    split_and!; [by apply (moved_trans 0 0 s s1)|congruence|].
    destruct ok; [done|]. pose proof (moved_avail 0 s s1 ltac:(lia) Hm) as E.
    rewrite zdrop_0 in E by lia. congruence.
Qed.

Lemma first_byte_wp s Q :
  Inv s -> 0 < bsize s ->
  (forall b l, avail s = b :: l -> Q (b2z b) s) -> wp first_byte s Q.
Proof.
  intros HI Hb HQ. destruct (buffer_cons s HI Hb) as (b & l & _ & _ & Hat & Hav).
  unfold first_byte, lift, wp. rewrite Hat. eapply HQ. by rewrite Hav.
Qed.

(** One group is added below [2 ^ 64]. *)
Lemma lor_group result x c :
  0 <= c <= 9 -> 0 <= result < 2 ^ (7 * c) -> 0 <= x < 128 ->
  let result' := Z.lor result (u64 (Z.shiftl x (7 * c))) in
  u64 result' = u64 (result + 2 ^ (7 * c) * x) /\
  result' = result + u64 (2 ^ (7 * c) * x) /\
  0 <= result' < 2 ^ (7 * (c + 1)) /\ result' < 2 ^ 64.
Proof.
  intros Hc Hr Hx. cbv zeta. rewrite Z.shiftl_mul_pow2 by lia. rewrite (Z.mul_comm x).
  set (p := 2 ^ (7 * c)) in *. assert (Hp : 0 < p) by (apply Z.pow_pos_nonneg; lia).
  assert (Hdiv : exists q, 2 ^ 64 = p * q /\ 0 < q).
  { exists (2 ^ (64 - 7 * c)). unfold p. rewrite <- Z.pow_add_r by lia.
    split; [f_equal; lia|apply Z.pow_pos_nonneg; lia]. }
  destruct Hdiv as (q & Hq & Hq0).
  assert (Hu : u64 (p * x) = p * (x mod q)).
  { unfold u64. rewrite Hq. apply Zmult_mod_distr_l. }
  pose proof (Z.mod_pos_bound x q Hq0).
  assert (Hxq : x mod q <= x) by (apply Z.mod_le; lia).
  assert (Hlor : Z.lor result (u64 (p * x)) = result + u64 (p * x)).
  { rewrite Hu. assert (Hland : Z.land result (p * (x mod q)) = 0).
    { apply Z.bits_inj'. intros i Hi. rewrite Z.land_spec, Z.bits_0.
      destruct (Z.lt_ge_cases i (7 * c)).
      - rewrite (Z.mul_comm p). unfold p. rewrite Z.mul_pow2_bits_low by lia.
        apply andb_false_r.
      - rewrite <- (Z.mod_small result p) by lia. unfold p.
        by rewrite Z.mod_pow2_bits_high by lia. }
    pose proof (Z.add_lor_land result (p * (x mod q))). lia. }
  rewrite Hlor. split_and!; [by rewrite u64_add_r|done|rewrite Hu; nia| |].
  - replace (7 * (c + 1)) with (7 * c + 7) by lia. rewrite Z.pow_add_r by lia.
    fold p. rewrite Hu. change (2 ^ 7) with 128. nia.
  - rewrite Hu, Hq. nia.
Qed.

Lemma ReadVarint64Slow_loop_wp n count result s :
  Inv s -> count = 10 - Z.of_nat n -> 0 <= count -> 0 <= result < 2 ^ (7 * count) ->
  result < 2 ^ 64 ->
  wp (ReadVarint64Slow_loop n count result) s (fun '(v, ok) s' =>
    flags s' = flags s /\
    match vdecode n (avail s) with
    | Some (x, l) =>
        ok = true /\ v = u64 (result + 2 ^ (7 * count) * x) /\
        moved (zlen (avail s) - zlen l) s s'
    | None => ok = false /\ v = 0 /\ failed s s'
    end).
Proof.
  revert count result s.
  induction n as [|n IH]; intros count result s HI Hc Hc0 Hr Hr64; simpl; wp_steps.
  { split_and!; try done. by eapply moved_failed, moved_refl. }
  wp_use refill_loop_wp; [done|lia|]. intros ok s1 (Hm1 & Hf1 & Hok).
  pose proof (moved_avail 0 s s1 ltac:(lia) Hm1) as Ha1. rewrite zdrop_0 in Ha1 by lia.
  destruct ok; wp_steps; cycle 1.
  { rewrite Hok. split_and!; try done. by apply (moved_failed 0). }
  apply first_byte_wp; [apply Hm1|done|]. intros b l Hav.
  rewrite Ha1 in Hav. rewrite Hav. cbv beta. wp_steps.
  wp_use Advance_wp; [apply Hm1|lia|]. intros _ s2 (Hm2 & Hf2 & _ & _).
  pose proof (moved_avail 1 s1 s2 ltac:(lia) Hm2) as Ha2.
  rewrite Ha1, Hav in Ha2. change (zdrop 1 (b :: l)) with l in Ha2.
  pose proof (moved_trans 0 1 s s1 s2 ltac:(lia) ltac:(lia) Hm1 Hm2) as Hm12.
  rewrite land_80, land_7f. pose proof (b2z_range b).
  pose proof (lor_group result (b2z b mod 128) count ltac:(lia) ltac:(lia)
    ltac:(Z.div_mod_to_equations; lia)) as (Hl1 & Hl2 & Hl3 & Hl4).
  set (result' := Z.lor _ _) in *. rewrite zlen_cons.
  destruct (Z.ltb_spec (b2z b) 128).
  - wp_steps. split_and!; [congruence|done| |].
    + rewrite Z.mod_small in Hl1 by lia. rewrite <- Hl1. symmetry. apply u64_id. unfold is_u64. lia.
    + replace (1 + zlen l - zlen l) with (0 + 1) by lia. done.
  - wp_use IH; [apply Hm2|lia|lia|lia|lia|]. intros [v ok] s3 (Hf3 & Hv).
    split; [congruence|]. rewrite Ha2 in Hv.
    destruct (vdecode n l) as [[x r]|] eqn:E.
    + destruct Hv as (-> & -> & Hm3). split_and!; [done| |].
      * rewrite Hl2. replace (7 * (count + 1)) with (7 * count + 7) by lia.
        rewrite Z.pow_add_r by lia. change (2 ^ 7) with 128.
        replace (b2z b mod 128) with (b2z b - 128) by (Z.div_mod_to_equations; lia).
        generalize (2 ^ (7 * count)). intros p. wrap_congr.
      * replace (1 + zlen l - zlen r) with (0 + 1 + (zlen l - zlen r)) by lia.
        destruct (vdecode_suffix _ _ _ _ E) as (c & -> & _).
        eapply moved_trans; [lia|zl|done|done].
    + destruct Hv as (-> & -> & Hv). split_and!; try done.
      by apply (moved_failed_trans (0 + 1) _ s2).
Qed.

(** The caller has seen that the first byte, if the buffer has one, does not
    end the varint. *)
Definition first_cont (s : t S) : Prop :=
  forall b l, buffer s = b :: l -> cont b.

Definition result64 (r : option Z) : Z * bool :=
  match r with Some x => (u64 x, true) | None => (0, false) end.

Lemma move_buffer_run r s :
  move_buffer r s = Some (tt, set_buffer r (bsize s - (zlen (chunk s) - zlen r)) s).
Proof. done. Qed.

Lemma ReadVarint64Fallback_wp s :
  Inv s -> first_cont s ->
  wp ReadVarint64Fallback s (fun v s' =>
    exists r, decoded s s' r /\ v = result64 r).
Proof.
  intros HI Hfirst. unfold ReadVarint64Fallback. wp_steps.
  destruct (varint_in_buffer_whole s HI) as (fast & Hfast & Hw).
  unfold wp at 1, lift. rewrite Hfast. cbv beta iota. destruct fast.
  - destruct (Hw eq_refl) as [Hb Hwhole].
    destruct (buffer_cons s HI Hb) as (b & l & Hbuf & Hch & _ & _).
    assert (ReadVarint64FromArray (chunk s) = Some (array_read_spec u64 (chunk s))) as E.
    { rewrite Hch. rewrite Hbuf in Hwhole. apply ReadVarint64FromArray_correct; eauto. }
    apply wp_bind. unfold wp at 1. rewrite E. cbv beta iota.
    destruct (decoded_fast s u64 b l _ HI Hbuf Hwhole Hch)
      as [(-> & Hd)|(x & r & -> & Hd)]; wp_steps.
    + by exists None.
    + unfold wp. rewrite move_buffer_run. by exists (Some x).
  - unfold ReadVarint64Slow.
    wp_use ReadVarint64Slow_loop_wp; [done|done|lia|simpl; lia|lia|].
    intros [v ok] s' (Hf & Hv). unfold decoded, kMaxVarintBytes in *.
    destruct (vdecode 10 (avail s)) as [[x l]|].
    + destruct Hv as (-> & -> & ?). exists (Some x). split_and!; try done.
      simpl. do 2 f_equal. lia.
    + destruct Hv as (-> & -> & ?). by exists None.
Qed.

Lemma peek_small_wp s Q :
  Inv s ->
  (forall b l, buffer s = b :: l -> b2z b < 128 ->
     vdecode kMaxVarintBytes (avail s) = Some (b2z b, zdrop 1 (avail s)) ->
     0 < bsize s -> Q (b2z b, true) s) ->
  (first_cont s ->
   forall v, (0 < bsize s -> exists b l, buffer s = b :: l /\ v = b2z b) ->
     (bsize s = 0 -> v = 0) -> Q (v, false) s) ->
  wp peek_small s Q.
Proof.
  intros HI Hsmall Hlarge. unfold peek_small, BufferSize. wp_steps.
  pose proof (zlen_buffer s HI) as Hl. pose proof (inv_bsize s HI).
  destruct (Z.ltb_spec 0 (bsize s)) as [Hb|Hb]; wp_steps.
  - destruct (buffer_cons s HI Hb) as (b & l & Hbuf & _ & Hat & Hav).
    unfold wp, first_byte, lift. rewrite Hat. cbv beta iota. unfold mret_.
    destruct (Z.ltb_spec (b2z b) 128).
    + eapply Hsmall; try done. rewrite Hav. simpl.
      destruct (Z.ltb_spec (b2z b) 128); [done|lia].
    + apply Hlarge; [|by exists b, l|lia]. intros b' l' E. rewrite Hbuf in E. by simplify_eq.
  - apply Hlarge; [|lia|done]. intros b l E. rewrite E in Hl. zl.
Qed.

Lemma decoded_small s b l s' :
  Inv s -> buffer s = b :: l -> b2z b < 128 ->
  vdecode kMaxVarintBytes (avail s) = Some (b2z b, zdrop 1 (avail s)) ->
  moved 1 s s' -> flags s' = flags s -> decoded s s' (Some (b2z b)).
Proof.
  intros HI Hbuf Hb Hd Hm Hf. split; [done|]. rewrite Hd. split; [done|].
  pose proof (bsize_avail s HI). pose proof (zlen_buffer s HI) as Hl.
  rewrite Hbuf in Hl.
  replace (zlen (avail s) - zlen (zdrop 1 (avail s))) with 1 by zl. done.
Qed.

Lemma ReadVarint64_wp s :
  Inv s ->
  wp ReadVarint64 s (fun v s' => exists r, decoded s s' r /\ v = result64 r).
Proof.
  intros HI. unfold ReadVarint64. wp_steps. apply peek_small_wp; [done| |].
  - intros b l Hbuf Hb Hd Hbs. cbv beta iota. wp_steps.
    wp_use Advance_wp; [done|lia|]. intros _ s' (Hm & Hf & _). wp_steps.
    exists (Some (b2z b)). split; [by eapply decoded_small|].
    simpl. pose proof (b2z_range b). rewrite u64_id by ilia. done.
  - intros Hfc v _ _. by apply ReadVarint64Fallback_wp.
Qed.

Definition result32 (r : option Z) : Z * bool :=
  match r with Some x => (u32 x, true) | None => (u32 (-1), false) end.

Lemma ReadVarint32FromArray_chunk s b l :
  whole (buffer s) -> buffer s = b :: l -> first_cont s ->
  chunk s = (b :: l) ++ zdrop (bsize s) (chunk s) ->
  ReadVarint32FromArray (b2z b) (chunk s) = Some (array_read_spec u32 (chunk s)).
Proof.
  intros Hw Hbuf Hfc ->. rewrite Hbuf in Hw.
  apply ReadVarint32FromArray_correct; eauto.
Qed.

Lemma ReadVarint32Fallback_wp v s :
  Inv s -> first_cont s -> (0 < bsize s -> exists b l, buffer s = b :: l /\ v = b2z b) ->
  wp (ReadVarint32Fallback v) s (fun v s' =>
    exists r, decoded s s' r /\ v = match r with Some x => u32 x | None => -1 end).
Proof.
  intros HI Hfc Hv. unfold ReadVarint32Fallback. wp_steps.
  destruct (varint_in_buffer_whole s HI) as (fast & Hfast & Hw).
  unfold wp at 1, lift. rewrite Hfast. cbv beta iota. destruct fast.
  - destruct (Hw eq_refl) as [Hb Hwhole]. destruct (Hv Hb) as (b & l & Hbuf & ->).
    destruct (buffer_cons s HI Hb) as (b' & l' & Hbuf' & Hch & _ & _).
    rewrite Hbuf in Hbuf'. simplify_eq.
    pose proof (Hfc _ _ Hbuf) as Hcont. unfold cont in Hcont.
    unfold dcheck. destruct (Z.eqb_spec (b2z b') 0); [lia|]. simpl. wp_steps.
    unfold wp at 1. rewrite (ReadVarint32FromArray_chunk s b' l') by done. cbv beta iota.
    destruct (decoded_fast s u32 b' l' _ HI Hbuf Hwhole Hch)
      as [(-> & Hd)|(x & r & -> & Hd)]; wp_steps.
    + by exists None.
    + unfold wp. rewrite move_buffer_run. by exists (Some x).
  - unfold ReadVarint32Slow. wp_steps. wp_use ReadVarint64Fallback_wp; [done..|].
    intros [v' ok] s' (r & Hd & E). wp_steps. exists r. split; [done|].
    destruct r; simplify_eq/=; [by rewrite u32_u64|done].
Qed.

Lemma ReadVarint32_wp s :
  Inv s ->
  wp ReadVarint32 s (fun v s' => exists r, decoded s s' r /\ v = result32 r).
Proof.
  intros HI. unfold ReadVarint32. wp_steps. apply peek_small_wp; [done| |].
  - intros b l Hbuf Hb Hd Hbs. cbv beta iota. wp_steps.
    wp_use Advance_wp; [done|lia|]. intros _ s' (Hm & Hf & _). wp_steps.
    exists (Some (b2z b)). split; [by eapply decoded_small|].
    simpl. pose proof (b2z_range b). rewrite u32_id by ilia. done.
  - intros Hfc v Hv _. cbv beta iota. wp_steps.
    wp_use ReadVarint32Fallback_wp; [done..|]. intros v' s' (r & Hd & ->). wp_steps.
    exists r. split; [done|]. destruct r as [x|]; [|done]. simpl.
    rewrite (u32_id (u32 x)) by apply u32_range.
    destruct (Z.leb_spec 0 (u32 x)); [done|]. pose proof (u32_range x). unfold is_u32 in *. lia.
Qed.

(** [ReadVarintSizeAsInt] also fails on a size above [INT_MAX]. *)
Definition size_read (s s' : t S) (v : Z * bool) : Prop :=
  flags s' = flags s /\
  match vdecode kMaxVarintBytes (avail s) with
  | Some (x, l) =>
      if u64 x <=? INT_MAX
      then v = (u64 x, true) /\ moved (zlen (avail s) - zlen l) s s'
      else v = (-1, false) /\ failed s s'
  | None => v = (-1, false) /\ failed s s'
  end.

Lemma vdecode_moved_failed s s' x l :
  vdecode kMaxVarintBytes (avail s) = Some (x, l) ->
  moved (zlen (avail s) - zlen l) s s' -> failed s s'.
Proof.
  intros Hd Hm. eapply moved_failed; [|done].
  destruct (vdecode_suffix _ _ _ _ Hd) as (c & -> & _). zl.
Qed.

Lemma ReadVarintSizeAsInt_wp s :
  Inv s -> wp ReadVarintSizeAsInt s (fun v s' => size_read s s' v).
Proof.
  intros HI. unfold ReadVarintSizeAsInt. wp_steps. apply peek_small_wp; [done| |].
  - intros b l Hbuf Hb Hd Hbs. cbv beta iota. wp_steps.
    wp_use Advance_wp; [done|lia|]. intros _ s' (Hm & Hf & _). wp_steps.
    destruct (decoded_small s b l s') as [_ Hs']; try done.
    split; [done|]. rewrite Hd in *. pose proof (b2z_range b).
    rewrite u64_id by ilia. destruct (Z.leb_spec (b2z b) INT_MAX); [by destruct Hs'|ilia].
  - intros Hfc v Hv _. cbv beta iota. unfold ReadVarintSizeAsIntFallback. wp_steps.
    destruct (varint_in_buffer_whole s HI) as (fast & Hfast & Hw).
    unfold wp at 1, lift. rewrite Hfast. cbv beta iota. unfold size_read. destruct fast.
    + destruct (Hw eq_refl) as [Hb Hwhole].
      destruct (buffer_cons s HI Hb) as (b & l & Hbuf & Hch & _ & _).
      assert (ReadVarint64FromArray (chunk s) = Some (array_read_spec u64 (chunk s))) as E.
      { rewrite Hch. rewrite Hbuf in Hwhole. apply ReadVarint64FromArray_correct; eauto. }
      apply wp_bind. unfold wp at 1. rewrite E. cbv beta iota.
      destruct (decoded_fast s u64 b l _ HI Hbuf Hwhole Hch)
        as [(-> & Hf & Hd)|(x & r & -> & Hf & Hd)]; wp_steps.
      * destruct (vdecode _ (avail s)) as [[x r]|]; naive_solver.
      * pose proof (u64_range x) as Hu. unfold is_u64 in Hu.
        destruct (vdecode _ (avail s)) as [[x' r']|] eqn:Ed; [|naive_solver].
        destruct Hd as [Ex Hm]. simplify_eq.
        destruct (Z.ltb_spec INT_MAX (u64 x')), (Z.leb_spec (u64 x') INT_MAX); try lia; wp_steps.
        { split_and!; try done. by eapply moved_failed, moved_refl. }
        unfold wp, mret_. rewrite move_buffer_run. cbv beta iota.
        destruct (Z.leb_spec 0 (u64 x')); [done|lia].
    + unfold ReadVarintSizeAsIntSlow. wp_steps. wp_use ReadVarint64Fallback_wp; [done..|].
      intros [v' ok] s' (r & [Hf Hd] & E). wp_steps. split; [done|].
      destruct (vdecode _ (avail s)) as [[x l]|] eqn:Ed; destruct Hd as [-> Hm];
        simplify_eq/=; [|done].
      pose proof (u64_range x) as Hu. unfold is_u64 in Hu.
      destruct (Z.ltb_spec INT_MAX (u64 x)), (Z.leb_spec (u64 x) INT_MAX); try lia; simpl.
      * split; [done|]. by eapply vdecode_moved_failed.
      * destruct (Z.leb_spec 0 (u64 x)); [done|lia].
Qed.

(** *** Tags *)

(** Whether a message may end at the current position, when it is a limit or
    the end of the stream: not at the total limit alone. *)
Definition may_end (s : t S) : bool :=
  (CurrentPosition s <? total_bytes_limit_ s)
  || (current_limit_ s =? total_bytes_limit_ s).

(** A tag was read, or there is none. *)
Definition tag_read (s s' : t S) (tag : Z) : Prop :=
  last_tag_ s' = last_tag_ s /\
  match avail s with
  | [] =>
      tag = 0 /\
      if may_end s then moved 0 s s' /\ legitimate_message_end_ s' = true
      else failed s s' /\
           (legitimate_message_end_ s = false -> legitimate_message_end_ s' = false)
  | _ =>
      legitimate_message_end_ s' = legitimate_message_end_ s /\
      match vdecode kMaxVarintBytes (avail s) with
      | Some (x, l) => tag = u32 x /\ moved (zlen (avail s) - zlen l) s s'
      | None => tag = 0 /\ failed s s'
      end
  end.

Lemma tag_read_decoded s s' r :
  avail s <> [] -> decoded s s' r ->
  tag_read s s' (match r with Some x => u32 x | None => 0 end).
Proof.
  intros Hne [Hf Hd]. unfold flags in Hf. simplify_eq. split; [done|].
  destruct (avail s) as [|b a] eqn:E; [done|]. split; [done|].
  destruct (vdecode _ (b :: a)) as [[x l]|]; destruct Hd as [-> ?]; done.
Qed.

Lemma set_legit_moved b s : Inv s -> moved 0 s (set_legit b s).
Proof.
  intros HI. unfold moved. rewrite zdrop_0 by lia. inv_destruct HI.
  split_and!; [|done|unfold_state; simpl; lia|done]. by split; [split|..].
Qed.

Lemma set_tag_moved tag s : Inv s -> moved 0 s (set_tag tag s).
Proof.
  intros HI. unfold moved. rewrite zdrop_0 by lia. inv_destruct HI.
  split_and!; [|done|unfold_state; simpl; lia|done]. by split; [split|..].
Qed.

Lemma tag_read_moved0 s s1 s' tag :
  moved 0 s s1 -> flags s1 = flags s -> avail s <> [] ->
  tag_read s1 s' tag -> tag_read s s' tag.
Proof.
  intros Hm Hf Hne [Hl Ht]. unfold flags in Hf. simplify_eq.
  pose proof (moved_avail 0 s s1 ltac:(lia) Hm) as Ha. rewrite zdrop_0 in Ha by lia.
  rewrite Ha in Ht. split; [congruence|].
  destruct (avail s) as [|b a] eqn:E; [done|]. destruct Ht as [Hleg Ht].
  split; [congruence|].
  destruct (vdecode _ (b :: a)) as [[x l]|] eqn:Ed; destruct Ht as [-> Hm2].
  - split; [done|]. replace (zlen (b :: a) - zlen l) with (0 + (zlen (b :: a) - zlen l)) by lia.
    destruct (vdecode_suffix _ _ _ _ Ed) as (c & Hc & _).
    eapply moved_trans; [lia| |done|done]. rewrite Hc. zl.
  - split; [done|]. by apply (moved_failed_trans 0 _ s1).
Qed.

Lemma tag_end s s1 s' :
  Inv s -> avail s = [] -> bsize s = 0 -> moved 0 s s1 -> flags s1 = flags s ->
  s' = set_legit (may_end s) s1 -> tag_read s s' 0.
Proof.
  intros HI Ha Hb Hm Hf ->. unfold flags in Hf. simplify_eq. split; [done|].
  rewrite Ha. split; [done|].
  assert (moved 0 s (set_legit (may_end s) s1)) as Hm'.
  { apply (moved_trans 0 0 s s1); try done. apply set_legit_moved, Hm. }
  destruct (may_end s); [done|]. split; [by apply (moved_failed 0)|done].
Qed.

Lemma bsize_pos_avail s : Inv s -> 0 < bsize s -> avail s <> [].
Proof.
  intros HI Hb E. pose proof (bsize_avail s HI) as Hl. rewrite E in Hl. zl.
Qed.

Lemma ReadTagSlow_wp s : Inv s -> wp ReadTagSlow s (fun tag s' => tag_read s s' tag).
Proof.
  intros HI. unfold ReadTagSlow, BufferSize. wp_steps. pose proof (inv_bsize s HI).
  assert (Hread : forall s1, Inv s1 -> moved 0 s s1 -> flags s1 = flags s ->
    (avail s = [] -> may_end s = false) ->
    wp (let* (result, ok) := ReadVarint64 in ret (if ok : bool then u32 result else 0)) s1
      (fun tag s' => tag_read s s' tag)).
  { intros s1 HI1 Hm1 Hf1 Hend. wp_steps. wp_use ReadVarint64_wp; [done|].
    intros [v ok] s' (r & Hd & E). wp_steps.
    pose proof (moved_avail 0 s s1 ltac:(lia) Hm1) as Ha. rewrite zdrop_0 in Ha by lia.
    destruct (decide (avail s = [])) as [Enil|Hne].
    - destruct Hd as [Hf Hd]. rewrite Ha, Enil in Hd. simpl in Hd.
      destruct Hd as [-> Hfail]. simplify_eq/=. unfold flags in *. simplify_eq.
      split; [congruence|]. rewrite Enil, Hend by done. split; [done|].
      split; [by apply (moved_failed_trans 0 _ s1)|congruence].
    - apply (tag_read_moved0 s s1); try done.
      pose proof (tag_read_decoded s1 s' r ltac:(congruence) Hd) as Ht.
      destruct r; simplify_eq/=; [by rewrite u32_u64|done]. }
  destruct (Z.eqb_spec (bsize s) 0) as [Hb|Hb].
  - wp_use Refresh_wp; [done..|]. intros ok s1 (Hm1 & Hf1 & Hok). destruct ok.
    + apply Hread; try done; [apply Hm1|]. intros E. destruct Hok as [_ Hok].
      destruct (Hok E) as [? ?]. unfold may_end. case_cmp; done || lia.
    + destruct Hok as (Ha & Hb1 & Ht1 & Haf1). wp_steps.
      apply (tag_end s s1); try done.
      destruct Hm1 as (_ & Hcfg & _). unfold cfg in Hcfg. simplify_eq.
      unfold may_end, CurrentPosition, BufferSize. rewrite Hb, Ht1, Haf1.
      replace (total_bytes_limit_ s1) with (total_bytes_limit_ s) by congruence.
      replace (current_limit_ s1) with (current_limit_ s) by congruence.
      rewrite Z.add_0_l.
      case_cmp; done || lia.
  - apply wp_ret. apply Hread; try done; [by apply moved_refl|].
    intros E. destruct (bsize_pos_avail s); done || lia.
Qed.

Lemma ReadTagFallback_wp v s :
  Inv s -> first_cont s \/ (0 < bsize s /\ v = 0) ->
  (0 < bsize s -> exists b l, buffer s = b :: l /\ v = b2z b) ->
  wp (ReadTagFallback v) s (fun tag s' => tag_read s s' tag).
Proof.
  intros HI Hfc Hv. unfold ReadTagFallback, BufferSize. wp_steps.
  destruct (varint_in_buffer_whole s HI) as (fast & Hfast & Hw).
  unfold wp at 1, lift. rewrite Hfast. cbv beta iota. destruct fast.
  - destruct (Hw eq_refl) as [Hb Hwhole]. destruct (Hv Hb) as (b & l & Hbuf & ->).
    destruct (buffer_cons s HI Hb) as (b' & l' & Hbuf' & Hch & Hat & _).
    rewrite Hbuf in Hbuf'. simplify_eq.
    wp_steps. unfold wp at 1, first_byte, lift. rewrite Hat. cbv beta iota.
    unfold dcheck. rewrite Z.eqb_refl. wp_steps.
    destruct (Z.eqb_spec (b2z b') 0) as [E0|E0].
    { wp_steps. wp_use Advance_wp; [done|lia|]. intros _ s' (Hm & Hf & _). wp_steps.
      change 0 with (u32 0). rewrite <- E0.
      apply (tag_read_decoded s s' (Some (b2z b'))); [by apply bsize_pos_avail|].
      eapply decoded_small; try done; [lia|].
      destruct (buffer_cons s HI Hb) as (b2 & l2 & Hb2 & _ & _ & ->).
      rewrite Hbuf in Hb2. simplify_eq. simpl.
      by destruct (Z.ltb_spec (b2z b2) 128); [|lia]. }
    destruct Hfc as [Hfc|[_ ?]]; [|lia]. wp_steps.
    unfold wp at 1. rewrite (ReadVarint32FromArray_chunk s b' l') by done. cbv beta iota.
    pose proof (bsize_pos_avail s HI Hb) as Hne.
    destruct (decoded_fast s u32 b' l' _ HI Hbuf Hwhole Hch)
      as [(-> & Hd)|(x & r & -> & Hd)]; wp_steps.
    + by apply (tag_read_decoded s s None).
    + unfold wp. rewrite move_buffer_run. by apply (tag_read_decoded s _ (Some x)).
  - destruct (_ && _) eqn:E; [|by apply ReadTagSlow_wp]. wp_steps.
    apply andb_true_iff in E as [[Hb%Z.eqb_eq Hlim]%andb_true_iff Htl%Z.ltb_lt].
    assert (Hme : may_end s = true).
    { unfold may_end, CurrentPosition, BufferSize. case_cmp; lia || done. }
    apply (tag_end s s); try done; [|by apply moved_refl|by rewrite Hme].
    rewrite avail_buffer by done. unfold buffer. rewrite Hb, (ztake_0 0) by lia. simpl.
    apply ztake_0. pose proof (inv_after s HI). unfold closest in *.
    apply orb_true_iff in Hlim as [?%Z.ltb_lt|?%Z.eqb_eq]; lia.
Qed.

Lemma ReadTagNoLastTag_wp s :
  Inv s -> wp ReadTagNoLastTag s (fun tag s' => tag_read s s' tag).
Proof.
  intros HI. unfold ReadTagNoLastTag. wp_steps. apply peek_small_wp; [done| |].
  - intros b l Hbuf Hb Hd Hbs. cbv beta iota. wp_steps.
    wp_use Advance_wp; [done|lia|]. intros _ s' (Hm & Hf & _). wp_steps.
    pose proof (tag_read_decoded s s' (Some (b2z b)) (bsize_pos_avail s HI Hbs)
      (decoded_small s b l s' HI Hbuf Hb Hd Hm Hf)) as Ht.
    simpl in Ht. pose proof (b2z_range b). by rewrite u32_id in Ht by ilia.
  - intros Hfc v Hv _. apply ReadTagFallback_wp; auto.
Qed.

(** [tag_read] up to the recorded tag. *)
Definition tag_recorded (s s' : t S) (tag : Z) : Prop :=
  exists s1, tag_read s s1 tag /\ s' = set_tag tag s1.

Lemma ReadTag_wp s : Inv s -> wp ReadTag s (fun tag s' => tag_recorded s s' tag).
Proof.
  intros HI. unfold ReadTag. wp_steps. wp_use ReadTagNoLastTag_wp; [done|].
  intros tag s1 Ht. wp_steps. by exists s1.
Qed.

Lemma moved_set_tag n s s' tag : 0 <= n -> moved n s s' -> moved n s (set_tag tag s').
Proof.
  intros Hn Hm. replace n with (n + 0) by lia.
  eapply moved_trans; [done|lia|done|]. apply set_tag_moved, Hm.
Qed.

Lemma failed_set_tag s s' tag : failed s s' -> failed s (set_tag tag s').
Proof.
  intros (HI & Hcfg & k & Hk & Hst). destruct (set_tag_moved tag s' HI) as (? & ? & ? & E).
  rewrite zdrop_0 in E by lia. split_and!; [done|congruence|]. exists k. by rewrite E.
Qed.

(** A tag is the varint in front of the available bytes; 0 when there is none. *)
Lemma tag_recorded_decoded s s' tag :
  tag_recorded s s' tag ->
  last_tag_ s' = tag /\
  match vdecode kMaxVarintBytes (avail s) with
  | Some (x, l) => tag = u32 x /\ moved (zlen (avail s) - zlen l) s s'
  | None => tag = 0 /\ failed s s'
  end.
Proof.
  intros (s1 & [_ Ht] & ->). split; [done|]. destruct (avail s) as [|b0 l0] eqn:Ea.
  { destruct Ht as [-> Ht]. split; [done|]. apply failed_set_tag.
    destruct (may_end s); [|by destruct Ht]. destruct Ht as [Hm _].
    by apply (moved_failed 0). }
  destruct Ht as [_ Ht]. destruct (vdecode _ _) as [[x l]|] eqn:E; destruct Ht as [-> Hm].
  - split; [done|]. apply moved_set_tag; [|done].
    apply vdecode_suffix in E as (c & -> & _). zl.
  - split; [done|]. by apply failed_set_tag.
Qed.

(** *** Tags with a cutoff, expected tags *)

Lemma second_byte s b0 l0 :
  Inv s -> buffer s = b0 :: l0 -> 1 < bsize s ->
  exists b1 l1, l0 = b1 :: l1 /\ at_ (chunk s) 1 = Some (b2z b1) /\
    avail s = b0 :: b1 :: l1 ++ zdrop (bsize s) (avail s).
Proof.
  intros HI Hbuf Hb. pose proof (zlen_buffer s HI) as Hl.
  destruct (buffer_cons s HI ltac:(lia)) as (b & l & Hbuf' & Hch & _ & Hav).
  rewrite Hbuf in *. simplify_eq. destruct l as [|b1 l1]; [zl|].
  exists b1, l1. split_and!; try done. by rewrite Hch.
Qed.

(** The two-byte test [(b0 & ~b1) >= 0x80]. *)
Lemma two_byte_test b0 b1 :
  (0x80 <=? Z.land (b2z b0) (Z.lnot (b2z b1))) = (128 <=? b2z b0) && (b2z b1 <? 128).
Proof.
  pose proof (byte_forall (fun x => forallb (fun y =>
    eqb (0x80 <=? Z.land x (Z.lnot y)) ((128 <=? x) && (y <? 128)))
    (map Z.of_nat (seq 0 256))) ltac:(by vm_compute) _ (b2z_range b0)) as H1.
  cbn beta in H1. pose proof (byte_forall _ H1 _ (b2z_range b1)) as H2.
  by apply eqb_prop in H2.
Qed.

Lemma ReadTagWithCutoffNoLastTag_wp cutoff s :
  Inv s -> is_u32 cutoff ->
  wp (ReadTagWithCutoffNoLastTag cutoff) s (fun '(tag, below) s' =>
    tag_read s s' tag /\
    if below : bool then 0 <= tag <= cutoff else tag = 0 \/ cutoff < tag).
Proof.
  intros HI Hcut. unfold ReadTagWithCutoffNoLastTag, BufferSize. cbv zeta.
  pose proof (inv_bsize s HI). pose proof (zlen_buffer s HI) as Hl.
  assert (Hslow : forall v, first_cont s \/ (0 < bsize s /\ v = 0) ->
    (0 < bsize s -> exists b l, buffer s = b :: l /\ v = b2z b) ->
    wp (let* tag := ReadTagFallback v in ret (tag, u32 (tag - 1) <? cutoff)) s
      (fun '(tag, below) s' => tag_read s s' tag /\
         if below : bool then 0 <= tag <= cutoff else tag = 0 \/ cutoff < tag)).
  { intros v Hfc Hv. wp_steps. wp_use ReadTagFallback_wp; [done..|].
    intros tag s' Ht. wp_steps. split; [done|]. assert (is_u32 tag) as Hu.
    { destruct Ht as [_ Ht]. destruct (avail s); [destruct Ht as [-> _]; ilia|].
      destruct Ht as [_ Ht].
      destruct (vdecode _ _) as [[x r]|]; destruct Ht as [-> _]; [apply u32_range|ilia]. }
    destruct (Z.ltb_spec (u32 (tag - 1)) cutoff); ilia. }
  wp_steps. destruct (Z.ltb_spec 0 (bsize s)) as [Hb|Hb]; cycle 1.
  { apply Hslow; [|lia]. left. intros b l E. rewrite E in Hl. zl. }
  destruct (buffer_cons s HI Hb) as (b0 & l0 & Hbuf & Hch & Hat & Hav).
  wp_steps. unfold wp at 1, first_byte, lift. rewrite Hat. cbv beta iota.
  pose proof (b2z_range b0). pose proof (bsize_pos_avail s HI Hb) as Hne.
  assert (Hv : 0 < bsize s -> exists b l, buffer s = b :: l /\ b2z b0 = b2z b) by eauto.
  destruct (Z.ltb_spec 0 (b2z b0)) as [Hpos|Hzero]; cycle 1.
  { assert (wp (let* tag := ReadTagFallback (b2z b0) in ret (tag, u32 (tag - 1) <? cutoff))
      s (fun '(tag, below) s' => tag_read s s' tag /\
           if below : bool then 0 <= tag <= cutoff else tag = 0 \/ cutoff < tag))
      as Hs by (apply Hslow; [right; lia|done]).
    simpl. destruct ((128 <=? cutoff) && (1 <? bsize s)) eqn:E2; [|done].
    apply andb_true_iff in E2 as [_ Hb1%Z.ltb_lt].
    destruct (second_byte s b0 l0 HI Hbuf Hb1) as (b1 & l1 & -> & Hat1 & _).
    wp_step. unfold wp at 1, lift. rewrite Hat1. cbv beta iota. rewrite two_byte_test.
    by rewrite (proj2 (Z.leb_gt 128 (b2z b0))) by lia. }
  destruct (Z.ltb_spec (b2z b0) 128) as [Hlt0|Hcont]; simpl.
  { wp_steps.
    wp_use Advance_wp; [done|lia|]. intros _ s' (Hm & Hf & _). wp_steps. split.
    - pose proof (tag_read_decoded s s' (Some (b2z b0)) Hne) as Ht. simpl in Ht.
      rewrite u32_id in Ht by ilia. apply Ht. eapply decoded_small; try done.
      rewrite Hav. simpl. by destruct (Z.ltb_spec (b2z b0) 128); [|lia].
    - case_cmp; simpl; lia. }
  assert (Hfc : first_cont s) by (intros b l E; rewrite Hbuf in E; by simplify_eq).
  destruct ((0x80 <=? cutoff) && (1 <? bsize s)) eqn:E2; [|apply Hslow; auto].
  apply andb_true_iff in E2 as [_ Hb1%Z.ltb_lt].
  destruct (second_byte s b0 l0 HI Hbuf Hb1) as (b1 & l1 & -> & Hat1 & Hav1).
  wp_steps. unfold wp at 1, lift. rewrite Hat1. cbv beta iota. rewrite two_byte_test.
  destruct (Z.ltb_spec (b2z b1) 128) as [Hlt|]; cycle 1.
  { rewrite andb_false_r. apply Hslow; auto. }
  rewrite (proj2 (Z.leb_le 128 (b2z b0)) Hcont). simpl. pose proof (b2z_range b1).
  wp_steps. wp_use Advance_wp; [done|lia|]. intros _ s' (Hm & Hf & _). wp_steps.
  change (Z.shiftl 1 7) with 128. change (Z.shiftl 127 7 + 127) with 16383.
  rewrite u32_id by ilia. split; [|case_cmp; simpl; lia].
  assert (vdecode kMaxVarintBytes (avail s)
    = Some (b2z b0 - 128 + 128 * b2z b1, l1 ++ zdrop (bsize s) (avail s))) as Hd.
  { rewrite Hav1 at 1. set (tail := l1 ++ _).
    change (b0 :: b1 :: tail) with ([b0] ++ b1 :: tail).
    rewrite vdecode_split; [|by constructor|done|unfold kMaxVarintBytes; simpl; lia].
    do 2 f_equal. cbn [vsum length]. change (2 ^ (7 * Z.of_nat 1)) with 128. lia. }
  pose proof (tag_read_decoded s s' (Some (b2z b0 - 128 + 128 * b2z b1)) Hne) as Ht.
  simpl in Ht. rewrite u32_id in Ht by ilia.
  replace (128 * b2z b1 + (b2z b0 - 128)) with (b2z b0 - 128 + 128 * b2z b1) by lia.
  apply Ht. split; [done|]. rewrite Hd. split; [done|].
  rewrite Hav1 at 1. rewrite !zlen_cons.
  replace (1 + (1 + _) - _) with 2 by lia. done.
Qed.

(** [ExpectTag] consumes exactly the encoding of a one- or two-byte tag. *)
Lemma ExpectTag_wp expected s :
  Inv s -> is_u32 expected ->
  wp (ExpectTag expected) s (fun ok s' =>
    flags s' = flags s /\
    if ok : bool then
      exists r, avail s = UnsafeVarint expected ++ r /\
                moved (zlen (UnsafeVarint expected)) s s'
    else s' = s /\ (2 ^ 14 <= expected \/ forall r, buffer s <> UnsafeVarint expected ++ r)).
Proof.
  intros HI He. unfold ExpectTag, BufferSize. change (Z.shiftl 1 7) with 128.
  change (Z.shiftl 1 14) with 16384. change (2 ^ 14) with 16384. wp_steps. pose proof (zlen_buffer s HI) as Hlen.
  rewrite (UnsafeVarint_unfold expected) by (by apply u32_is_u64).
  destruct (Z.ltb_spec expected 128) as [H1|H1].
  - rewrite (proj2 (Z.leb_gt 128 expected)) by lia.
    destruct (Z.ltb_spec 0 (bsize s)) as [Hb|]; [|wp_steps; split_and!; try done; right; intros r Er; rewrite Er in Hlen; zl].
    wp_steps. destruct (buffer_cons s HI Hb) as (b & l & Hbuf & _ & Hat & Hav).
    unfold wp at 1, first_byte, lift. rewrite Hat. cbv beta iota.
    destruct (Z.eqb_spec (b2z b) expected) as [<-|Hne]; wp_steps.
    + wp_use Advance_wp; [done|lia|]. intros _ s' (Hm & Hf & _). wp_steps.
      rewrite z2b_b2z. split; [done|]. rewrite Hav. by eexists.
    + split_and!; try done. right. rewrite Hbuf. intros r [= -> _]. apply Hne, b2z_z2b_small. ilia.
  - destruct (Z.ltb_spec expected 16384) as [H2|H2]; [|wp_steps; split_and!; auto].
    rewrite (proj2 (Z.leb_le 128 expected)) by lia.
    rewrite UnsafeVarint_unfold by (rewrite shiftr_7; unfold_ints; Z.div_mod_to_equations; lia).
    rewrite (proj2 (Z.leb_gt 128 (Z.shiftr expected 7))) by (rewrite shiftr_7; Z.div_mod_to_equations; lia).
    destruct (Z.leb_spec 2 (bsize s)) as [Hb|]; [|wp_steps; split_and!; try done; right; intros r Er; rewrite Er in Hlen; zl].
    destruct (buffer_cons s HI ltac:(lia)) as (b0 & l0 & Hbuf & _ & Hat0 & _).
    destruct (second_byte s b0 l0 HI Hbuf ltac:(lia)) as (b1 & l1 & -> & Hat1 & Hav).
    wp_steps. unfold wp at 1, first_byte, lift. rewrite Hat0. cbv beta iota.
    wp_steps. unfold wp at 1. rewrite Hat1. cbv beta iota.
    destruct (_ && _) eqn:E; wp_steps.
    + apply andb_true_iff in E as [E0%Z.eqb_eq E1%Z.eqb_eq].
      wp_use Advance_wp; [done|lia|]. intros _ s' (Hm & Hf & _). wp_steps.
      assert (b0 = z2b (Z.lor expected 128)) as -> by (apply b2z_inj; by rewrite E0, b2z_z2b).
      assert (b1 = z2b (Z.shiftr expected 7)) as -> by (apply b2z_inj; by rewrite E1, b2z_z2b).
      split; [done|]. eexists. split; [exact Hav|exact Hm].
    + split_and!; try done. right. rewrite Hbuf. intros r [= -> -> _].
      by rewrite !b2z_z2b, !Z.eqb_refl in E.
Qed.

(** [ExpectAtEnd] is true only at a limit: nothing is available. *)
Lemma ExpectAtEnd_wp s :
  Inv s ->
  wp ExpectAtEnd s (fun ok s' =>
    if ok : bool then avail s = [] /\ moved 0 s s' /\ flags s' = (0, true) else s' = s).
Proof.
  intros HI. unfold ExpectAtEnd, BufferSize. wp_steps.
  destruct (_ && _) eqn:E; wp_steps; [|done].
  apply andb_true_iff in E as [Hb%Z.eqb_eq Hl]. split_and!; [|..|done].
  - rewrite avail_buffer by done. unfold buffer. rewrite Hb, (ztake_0 0) by lia. simpl.
    apply ztake_0. pose proof (inv_after s HI). pose proof (inv_bsize s HI).
    unfold closest in *.
    apply orb_true_iff in Hl as [?%negb_true_iff%Z.eqb_neq|?%Z.eqb_eq]; lia.
  - apply (moved_trans 0 0 _ (set_tag 0 s)); [lia..| |];
      [by apply set_tag_moved|]. apply set_legit_moved. by apply set_tag_moved.
Qed.

(** *** Limits *)

(** A limit that may be installed: not behind the position; a flat array has
    nothing past its end. *)
Definition limit_ok (limit : Z) (s : t S) : Prop :=
  CurrentPosition s <= limit <= INT_MAX /\
  (forall n, flat_size s = Some n -> limit <= n).

Lemma set_limits_core current total s :
  Inv s -> limit_ok current s -> CurrentPosition s <= total <= INT_MAX ->
  Core (set_limits current total s).
Proof.
  intros HI [Hc Hflat] Ht. inv_destruct HI. split; unfold_state; simpl; try done; try lia.
  unfold input_inv, flat_size in *; simpl. destruct (input_ s); [done|].
  split; [by apply Hflat|lia].
Qed.

Lemma current_limit_ok s : Inv s -> limit_ok (current_limit_ s) s.
Proof.
  intros HI. inv_destruct HI. unfold limit_ok, closest, flat_size, input_inv in *.
  split; [lia|]. intros n Hn. destruct (input_ s); [done|]. simplify_eq. by destruct Hin.
Qed.

(** The state differs from [s] in its current limit only. *)
Definition relimited (limit : Z) (s s' : t S) : Prop :=
  Inv s' /\ cfg s' = cfg (set_limits limit (total_bytes_limit_ s) s) /\
  CurrentPosition s' = CurrentPosition s /\ stream s' = stream s.

Lemma relimit limit s :
  Inv s -> limit_ok limit s ->
  let s' := RecomputeBufferLimits_ (set_limits limit (total_bytes_limit_ s) s) in
  relimited limit s s' /\ flags s' = flags s.
Proof.
  intros HI Hl. pose proof (core_pos _ (inv_core _ HI)). unfold closest in *.
  destruct (recompute_inv (set_limits limit (total_bytes_limit_ s) s))
    as (? & ? & ? & ? & ? & _); [|done].
  apply set_limits_core; [done..|]. pose proof (inv_core _ HI) as []. lia.
Qed.

(** [PushLimit] takes the innermost of the requested and the current limit,
    a negative or overflowing request counting as none. *)
Lemma PushLimit_wp n s :
  Inv s ->
  wp (PushLimit n) s (fun old s' =>
    old = current_limit_ s /\ flags s' = flags s /\
    relimited (if (0 <=? n) && (n <? current_limit_ s - CurrentPosition s)
               then CurrentPosition s + n else current_limit_ s) s s' /\
    (0 <= n -> avail s' = ztake n (avail s))).
Proof.
  intros HI. unfold PushLimit. wp_steps. pose proof (current_limit_ok s HI) as [Hc Hfl].
  assert (Hnone : forall n, current_limit_ s - CurrentPosition s <= n ->
    avail s = ztake n (avail s)).
  { intros m Hm. symmetry. apply ztake_all. unfold avail, closest. zl. }
  destruct (Z.leb_spec 0 n); simpl.
  2:{ wp_steps. split_and!; try done. lia. }
  destruct (Z.ltb_spec n (current_limit_ s - CurrentPosition s)); cycle 1.
  { rewrite andb_false_r. wp_steps. split_and!; try done. intros _. by apply Hnone. }
  destruct (Z.leb_spec n (INT_MAX - CurrentPosition s)); [|lia]. simpl.
  unfold RecomputeBufferLimits. wp_steps.
  destruct (relimit (CurrentPosition s + n) s HI) as [Hr Hf].
  { split; [lia|]. intros m Hm. specialize (Hfl m Hm). lia. }
  split_and!; try done. intros _. destruct Hr as (_ & Hcfg & Hp & Hst).
  unfold avail. rewrite Hst, Hp, ztake_ztake. unfold cfg in Hcfg. simplify_eq/=.
  f_equal. unfold closest in *. lia.
Qed.

Lemma PopLimit_wp limit s :
  Inv s -> limit_ok limit s ->
  wp (PopLimit limit) s (fun _ s' =>
    relimited limit s s' /\ last_tag_ s' = last_tag_ s /\
    legitimate_message_end_ s' = false).
Proof.
  intros HI Hl. unfold PopLimit, RecomputeBufferLimits. wp_steps.
  destruct (relimit limit s HI Hl) as [(HI' & Hcfg & Hp & Hst) Hf].
  destruct (set_legit_moved false _ HI') as (? & Hcfg' & Hp' & Hst').
  rewrite zdrop_0 in Hst' by lia. rewrite Z.add_0_r in Hp'.
  unfold flags in Hf. apply pair_equal_spec in Hf as [Hf _].
  unfold relimited. split_and!; try done; congruence.
Qed.

(** After a push the old limit may be installed again, whatever was read. *)
Lemma pop_limit_ok s s1 s2 limit :
  Inv s -> relimited limit s s1 -> limit <= current_limit_ s ->
  Inv s2 -> cfg s2 = cfg s1 -> limit_ok (current_limit_ s) s2.
Proof.
  intros HI (HI1 & Hcfg1 & Hp1 & Hst1) Hle HI2 Hcfg2.
  pose proof (core_pos _ (inv_core _ HI2)) as Hpos2.
  destruct (current_limit_ok s HI) as [? Hfl].
  unfold cfg in *. simplify_eq/=. unfold closest in *. split; [lia|].
  intros n Hn. apply Hfl. unfold flat_size in *. simpl in *. congruence.
Qed.

Lemma relimited_trans s s1 s2 s3 limit k :
  relimited limit s s1 -> moved k s1 s2 -> relimited (current_limit_ s) s2 s3 ->
  moved k s s3.
Proof.
  intros (_ & Hcfg1 & Hp1 & Hst1) (_ & Hcfg2 & Hp2 & Hst2) (HI3 & Hcfg3 & Hp3 & Hst3).
  split_and!; [done| |lia|congruence].
  unfold cfg in *. unfold flat_size in *. simplify_eq/=. congruence.
Qed.

Lemma relimited_failed s s1 s2 s3 limit :
  relimited limit s s1 -> failed s1 s2 -> relimited (current_limit_ s) s2 s3 ->
  failed s s3.
Proof.
  intros (_ & Hcfg1 & Hp1 & Hst1) (_ & Hcfg2 & k & Hk & Hst2) (HI3 & Hcfg3 & Hp3 & Hst3).
  split_and!; [done| |].
  - unfold cfg in *. unfold flat_size in *. simplify_eq/=. congruence.
  - exists k. split; [done|congruence].
Qed.

(** *** Recursion *)

Lemma set_recursion_inv b l s :
  Inv s ->
  let s' := set_recursion b l s in
  Inv s' /\ stream s' = stream s /\ CurrentPosition s' = CurrentPosition s /\
  avail s' = avail s /\ flags s' = flags s.
Proof. intros HI. inv_destruct HI. by split_and!. Qed.

(** *** Construction and destruction *)

Lemma from_array_inv l :
  zlen l <= INT_MAX ->
  Inv (from_array l) /\ avail (from_array l) = l /\
  CurrentPosition (from_array l) = 0 /\ may_end (from_array l) = (zlen l <=? INT_MAX).
Proof.
  intros Hl. pose proof (zlen_nonneg l).
  assert (Inv (from_array l)) as HI.
  { split; [split|..]; unfold from_array, input_inv, kDefaultTotalBytesLimit in *;
      unfold_state; simpl; try lia. }
  split_and!; [done| |unfold_state; simpl; lia|].
  - rewrite avail_buffer by done. unfold from_array, buffer, rest; simpl.
    unfold ztake at 2. rewrite take_nil, app_nil_r. by apply ztake_all.
  - unfold may_end, from_array, kDefaultTotalBytesLimit; unfold_state; simpl.
    case_cmp; simpl; lia || done.
Qed.

Lemma from_stream_inv i :
  stream_ok i -> ByteCount i = 0 ->
  exists s, from_stream i = Some s /\ Inv s /\ avail s = ztake INT_MAX (content i) /\
    CurrentPosition s = 0 /\ legitimate_message_end_ s = false /\ last_tag_ s = 0 /\
    recursion_budget_ s = default_recursion_limit_ /\
    recursion_limit_ s = default_recursion_limit_ /\
    current_limit_ s = INT_MAX /\ total_bytes_limit_ s = INT_MAX.
Proof.
  intros Hi HB. unfold from_stream.
  set (s0 := mk [] 0 (Some i) 0 0 0 false INT_MAX 0 _ _ _).
  assert (Inv s0) as HI0.
  { split; [split|..]; unfold s0, input_inv, kDefaultTotalBytesLimit; unfold_state;
      simpl; try (by unfold INT_MAX); [by left|].
    split_and!; [done|lia|lia|by right|].
    exists (backable i), []. rewrite app_nil_r. split_and!; [done..|by left]. }
  destruct (wp_inv _ _ _ (Refresh_wp s0 HI0 eq_refl)) as (ok & s & -> & Hm & Hf & _).
  exists s. simpl. pose proof (moved_avail 0 s0 s ltac:(lia) Hm) as Ha.
  destruct Hm as (? & Hcfg & Hp & _). unfold cfg, flags in *. simplify_eq/=.
  rewrite zdrop_0 in Ha by lia. split_and!; try done.
  rewrite Ha. unfold avail, stream, s0; unfold_state; simpl.
  by rewrite ztake_ztake.
Qed.

Lemma from_stream_input i s : from_stream i = Some s -> exists j, input_ s = Some j.
Proof.
  unfold from_stream. set (s0 := mk _ _ _ _ _ _ _ _ _ _ _ _).
  destruct (Refresh s0) as [[ok s1]|] eqn:E; [|done]. intros [= <-]. simpl. revert E.
  unfold Refresh, mbind_, dcheck, mret_, getS, on_input, s0; simpl.
  destruct (NextNonEmpty i) as [[[c|] j]|]; simpl; [|by intros [= _ <-]; eauto|done].
  unfold modS, RecomputeBufferLimits, RecomputeBufferLimits_.
  destruct (_ <=? _); simpl; intros [= _ <-]; repeat case_match; simpl; eauto.
Qed.

(** Destruction gives the unread part of the last buffer back: the stream
    continues right after the bytes that were read. *)
Lemma coded_destroy_wp s i :
  Inv s -> input_ s = Some i ->
  wp destroy s (fun _ s' => exists i',
    input_ s' = Some i' /\ stream_ok i' /\
    ztake (INT_MAX - CurrentPosition s) (content i') = stream s).
Proof.
  intros HI Ei. unfold destroy, BackUpInputToCurrentPosition, BufferSize. wp_steps.
  rewrite Ei. inv_destruct HI. unfold input_inv in Hin. rewrite Ei in Hin.
  destruct Hin as (Hi & ? & ? & used & c & Hb & Hc & Hcc).
  pose proof (zlen_nonneg (chunk s)). wp_steps. unfold stream, rest. rewrite Ei.
  destruct (Z.ltb_spec 0 (bsize s + buffer_size_after_limit_ s + overflow_bytes_ s)).
  - wp_steps. eapply coded_on_input_wp; [done|]. wp_use backup_ok; [done| |].
    { rewrite Hb. zl. }
    intros _ i' (Hi' & E & HB). wp_steps. exists i'. split_and!; [done..|].
    rewrite E, Hb. destruct Hchunk as [Hl|(Ec&E1&E2&?)].
    + do 2 f_equal. destruct Hcc as [->|Hn]; [|rewrite Hn in *; zl].
      rewrite zdrop_app_exact; [done|]. zl.
    + unfold CurrentPosition, BufferSize. rewrite !ztake_0 by lia. done.
  - wp_steps. destruct Hchunk as [Hl|?]; [|lia].
    assert (chunk s = []) as E by (apply zlen_0; lia). exists i. by rewrite E.
Qed.
End coded_input_stream.
