(* ===== verification/CodedInputSpec.v ===== *)
(** * CodedInputStream against a flat specification

    A client of [CodedInputStream] sees a sequence of bytes. [spec] reads a
    script of operations off a plain list; the theorems say that the buffered
    reader does the same whatever the stream underneath, however it cuts the
    bytes into buffers, and that nested limits and the destructor leave the
    reader and the stream where the specification says. *)

From S2P Require Import Prelude Varint ZeroCopyStream CodedInput.

#[local] Arguments vdecode : simpl never.

Inductive op :=
  | OpVarint32
  | OpVarint64
  | OpSizeAsInt
  | OpLittleEndian (k : Z)
  | OpRaw (n : Z)
  | OpString (n : Z)
  | OpSkip (n : Z)
  | OpTag.

Inductive value :=
  | VInt (v : Z)
  | VBytes (l : list byte)
  | VNone.

(** The arguments the callers pass: a width of a fixed integer, a size that is
    not negative. *)
Definition op_ok (o : op) : bool :=
  match o with
  | OpLittleEndian k => 0 <=? k
  | OpRaw n => 0 <=? n
  | _ => true
  end.

(** ** The specification *)

(** One operation on the bytes that may be read: its value and the bytes left,
    or [None] when it fails. A tag 0 is not a tag. *)
Definition spec_op (o : op) (l : list byte) : option (value * list byte) :=
  let varint (f : Z -> option Z) :=
    '(x, r) ← vdecode kMaxVarintBytes l; v ← f x; Some (VInt v, r) in
  let bytes (n : Z) (f : list byte -> value) :=
    if (0 <=? n) && (n <=? zlen l) then Some (f (ztake n l), zdrop n l) else None in
  match o with
  | OpVarint32 => varint (fun x => Some (u32 x))
  | OpVarint64 => varint (fun x => Some (u64 x))
  | OpSizeAsInt => varint (fun x => if u64 x <=? INT_MAX then Some (u64 x) else None)
  | OpTag => varint (fun x => if u32 x =? 0 then None else Some (u32 x))
  | OpLittleEndian k => bytes k (fun b => VInt (le_value b))
  | OpRaw n | OpString n => bytes n VBytes
  | OpSkip n => bytes n (fun _ => VNone)
  end.

Fixpoint spec (ops : list op) (l : list byte) : list value * option (list byte) :=
  match ops with
  | [] => ([], Some l)
  | o :: ops =>
      match spec_op o l with
      | Some (v, l') => let '(vs, r) := spec ops l' in (v :: vs, r)
      | None => ([], None)
      end
  end.

Lemma spec_op_suffix o l v r : spec_op o l = Some (v, r) -> exists c, l = c ++ r.
Proof.
  assert (forall f, ('(x, r) ← vdecode kMaxVarintBytes l; y ← f x; Some (VInt y, r))
            = Some (v, r) -> exists c, l = c ++ r) as Hv.
  { intros f E. destruct (vdecode _ _) as [[x k]|] eqn:Ed; [|done]. simpl in E.
    destruct (f x); [|done]. simplify_eq/=. apply vdecode_suffix in Ed as (c & -> & _). eauto. }
  assert (forall n (f : list byte -> value),
    (if (0 <=? n) && (n <=? zlen l) then Some (f (ztake n l), zdrop n l) else None)
      = Some (v, r) -> exists c, l = c ++ r) as Hb.
  { intros n f E. case_match; [|done]. simplify_eq. exists (ztake n l).
    by rewrite ztake_zdrop. }
  destruct o as [| | |k|n|n|n|]; cbn [spec_op]; intros E;
    [eapply Hv, E|eapply Hv, E|eapply Hv, E| | | | |eapply Hv, E].
  - by apply (Hb k (fun b => VInt (le_value b))).
  - by apply (Hb n VBytes).
  - by apply (Hb n VBytes).
  - by apply (Hb n (fun _ => VNone)).
Qed.

(** ** The implementation *)

Section run.
Context {S : Type} `{ZeroCopyInputStreamOk S}.
Notation CIS := (M (CodedInput.t S)).
Implicit Type s : CodedInput.t S.

Definition run_op (o : op) : CIS (option value) :=
  let int (m : CIS (Z * bool)) :=
    let* (v, ok) := m in ret (if ok : bool then Some (VInt v) else None) in
  match o with
  | OpVarint32 => int ReadVarint32
  | OpVarint64 => int ReadVarint64
  | OpSizeAsInt => int ReadVarintSizeAsInt
  | OpLittleEndian k =>
      let* (ok, v) := ReadLittleEndian k in ret (if ok : bool then Some (VInt v) else None)
  | OpRaw n =>
      let* (ok, v) := ReadRaw n in ret (if ok : bool then Some (VBytes v) else None)
  | OpString n =>
      let* (ok, v) := ReadString [] n in ret (if ok : bool then Some (VBytes v) else None)
  | OpSkip n =>
      let* ok := CodedInput.Skip n in ret (if ok : bool then Some VNone else None)
  | OpTag =>
      let* tag := ReadTag in ret (if tag =? 0 then None else Some (VInt tag))
  end.

Fixpoint run (ops : list op) : CIS (list value * bool) :=
  match ops with
  | [] => ret ([], true)
  | o :: ops =>
      let* r := run_op o in
      match r with
      | Some v => let* (vs, ok) := run ops in ret (v :: vs, ok)
      | None => ret ([], false)
      end
  end.

(** *** One operation *)

Definition op_spec (s s' : CodedInput.t S) (r : option (value * list byte))
    (v : option value) : Prop :=
  match r with
  | Some (x, l) => v = Some x /\ moved (zlen (avail s) - zlen l) s s' /\
                   zlen l <= zlen (avail s)
  | None => v = None /\ failed s s'
  end.

Lemma varint_op s s' (f : Z -> option Z) v :
  match vdecode kMaxVarintBytes (avail s) with
  | Some (x, l) =>
      match f x with
      | Some y => v = Some (VInt y) /\ moved (zlen (avail s) - zlen l) s s'
      | None => v = None /\ failed s s'
      end
  | None => v = None /\ failed s s'
  end ->
  op_spec s s' ('(x, l) ← vdecode kMaxVarintBytes (avail s); y ← f x; Some (VInt y, l)) v.
Proof.
  destruct (vdecode _ _) as [[x l]|] eqn:E; [|done]. simpl.
  destruct (f x) as [y|]; [|done]. intros [-> Hm]. simpl. split_and!; [done..|].
  apply vdecode_suffix in E as (c & -> & _). zl.
Qed.

Lemma bytes_op n s s' (f : list byte -> value) v (ok : bool) :
  ok = (0 <=? n) && (n <=? zlen (avail s)) ->
  (if ok then moved n s s' /\ v = Some (f (ztake n (avail s)))
   else failed s s' /\ v = None) ->
  op_spec s s'
    (if (0 <=? n) && (n <=? zlen (avail s))
     then Some (f (ztake n (avail s)), zdrop n (avail s)) else None) v.
Proof.
  intros E. rewrite <- E. destruct ok; intros [Hm ->]; [|done].
  symmetry in E. apply andb_true_iff in E as [?%Z.leb_le ?%Z.leb_le].
  assert (zlen (avail s) - zlen (zdrop n (avail s)) = n) as En by zl.
  unfold op_spec. rewrite En. split_and!; [done..|zl].
Qed.
Lemma run_op_wp o s :
  Inv s -> op_ok o = true ->
  wp (run_op o) s (fun v s' => op_spec s s' (spec_op o (avail s)) v).
Proof.
  intros HI Ho. destruct o as [| | |k|n|n|n|]; cbn [run_op spec_op op_ok] in *; wp_step.
  - wp_use ReadVarint32_wp; [done|]. intros v s' (r & [Hf Hd] & ->).
    destruct (result32 r) as [v ok] eqn:Er. wp_step.
    apply (varint_op _ _ (fun x => Some (u32 x))).
    destruct (vdecode _ _) as [[x l]|]; destruct Hd as [-> Hm]; by simplify_eq/=.
  - wp_use ReadVarint64_wp; [done|]. intros v s' (r & [Hf Hd] & ->).
    destruct (result64 r) as [v ok] eqn:Er. wp_step.
    apply (varint_op _ _ (fun x => Some (u64 x))).
    destruct (vdecode _ _) as [[x l]|]; destruct Hd as [-> Hm]; by simplify_eq/=.
  - wp_use ReadVarintSizeAsInt_wp; [done|]. intros [v ok] s' [Hf Hd]. wp_step.
    apply (varint_op _ _ (fun x => if u64 x <=? INT_MAX then Some (u64 x) else None)).
    destruct (vdecode _ _) as [[x l]|]; [destruct (u64 x <=? INT_MAX)|];
      destruct Hd as [Er Hm]; by simplify_eq/=.
  - apply Z.leb_le in Ho. wp_use ReadLittleEndian_wp; [done|done|].
    intros [ok v] s' (_ & Hm & E). wp_step.
    apply (bytes_op k s s' (fun b => VInt (le_value b))) with (ok := ok).
    + rewrite (proj2 (Z.leb_le 0 k) Ho). by destruct (k <=? _); simplify_eq.
    + destruct (Z.leb_spec k (zlen (avail s))); simplify_eq.
      * rewrite Z.min_l in Hm by done. done.
      * split; [|done]. eapply moved_failed; [|done]. zl.
  - apply Z.leb_le in Ho. wp_use ReadRaw_wp; [done|done|].
    intros [ok v] s' (Hm & _ & -> & ->). wp_step.
    apply (bytes_op n s s' VBytes) with (ok := n <=? zlen (avail s)).
    + by rewrite (proj2 (Z.leb_le 0 n) Ho).
    + destruct (Z.leb_spec n (zlen (avail s))).
      * rewrite Z.min_l in Hm by done. done.
      * split; [|done]. eapply moved_failed; [|done]. zl.
  - wp_use ReadString_wp; [done|]. intros [ok v] s' [_ Hr]. wp_step.
    apply (bytes_op n s s' VBytes) with (ok := ok).
    + destruct (Z.ltb_spec n 0), (Z.leb_spec 0 n); try lia; by destruct Hr as (? & ? & ?).
    + destruct (Z.ltb_spec n 0).
      * destruct Hr as (-> & -> & ->). split; [|done].
        by eapply moved_failed, moved_refl.
      * destruct Hr as (Hm & -> & ->).
        destruct (Z.leb_spec n (zlen (avail s))).
        -- rewrite Z.min_l in Hm by done. done.
        -- split; [|done]. eapply moved_failed; [|done]. zl.
  - wp_use coded_Skip_wp; [done|]. intros ok s' (_ & Hok & Hm). wp_steps.
    apply (bytes_op n s s' (fun _ => VNone)) with (ok := ok); [done|]. by destruct ok.
  - wp_use ReadTag_wp; [done|]. intros tag s' Ht. wp_steps.
    apply tag_recorded_decoded in Ht as [_ Ht].
    apply (varint_op _ _ (fun x => if u32 x =? 0 then None else Some (u32 x))).
    destruct (vdecode _ (avail s)) as [[x l]|] eqn:E; destruct Ht as [-> Hm]; [|done].
    destruct (u32 x =? 0); [|done]. split; [done|].
    eapply moved_failed; [|done]. apply vdecode_suffix in E as (c & -> & _). zl.
Qed.

(** *** Scripts *)

Definition run_spec s (r : list value * option (list byte)) (v : list value * bool)
    (s' : CodedInput.t S) : Prop :=
  v.1 = r.1 /\
  match r.2 with
  | Some l => v.2 = true /\ moved (zlen (avail s) - zlen l) s s' /\ avail s' = l /\
              zlen l <= zlen (avail s)
  | None => v.2 = false /\ failed s s'
  end.

Lemma run_wp ops s :
  Inv s -> forallb op_ok ops = true ->
  wp (run ops) s (run_spec s (spec ops (avail s))).
Proof.
  revert s. induction ops as [|o ops IH]; intros s HI Hops; simpl in *.
  { wp_steps. split; [done|]. cbn. rewrite Z.sub_diag.
    split_and!; [done|by apply moved_refl|done|lia]. }
  apply andb_true_iff in Hops as [Ho Hops]. wp_step. wp_use run_op_wp; [done..|].
  intros v s' Hop. unfold op_spec in Hop.
  destruct (spec_op o (avail s)) as [[x l]|] eqn:Eop.
  - destruct Hop as (-> & Hm & Hle). wp_step.
    assert (avail s' = l) as Ea.
    { rewrite (moved_avail (zlen (avail s) - zlen l) s s') by (lia || done).
      eapply spec_op_suffix in Eop as [c Hc]. rewrite Hc. apply zdrop_app_exact. zl. }
    wp_use IH; [apply Hm|done|]. intros [vs ok] s2 [Hvs Hr]. simpl in Hvs. wp_steps.
    rewrite Ea in *. destruct (spec ops l) as [vs' [l'|]]; simpl in *; subst vs.
    + destruct Hr as (-> & Hm2 & Ha2 & Hle2). split; [done|]. split_and!; try done; [|lia].
      simpl. replace (_ - _) with ((zlen (avail s) - zlen l) + (zlen l - zlen l')) by lia.
      eapply moved_trans; [lia..|done|done].
    + destruct Hr as [-> Hf]. split; [done|]. split; [done|].
      eapply moved_failed_trans; [|done..]. lia.
  - destruct Hop as [-> Hf]. by wp_steps.
Qed.
(** A length-delimited region: push the limit, read, pop it. *)
Definition within {A} (n : Z) (m : CIS A) : CIS A :=
  let* old := PushLimit n in
  let* r := m in
  PopLimit old ;;;
  ret r.

Lemma within_wp n ops s :
  Inv s -> 0 <= n -> forallb op_ok ops = true ->
  wp (within n (run ops)) s (fun v s' =>
    Inv s' /\ cfg s' = cfg s /\
    v.1 = (spec ops (ztake n (avail s))).1 /\
    match (spec ops (ztake n (avail s))).2 with
    | Some l =>
        v.2 = true /\
        avail s' = zdrop (zlen (ztake n (avail s)) - zlen l) (avail s)
    | None => v.2 = false
    end).
Proof.
  intros HI Hn Hops. unfold within. wp_step. wp_use PushLimit_wp; [done|].
  intros old s1 (-> & _ & Hr & Ha). specialize (Ha Hn).
  set (limit := if _ : bool then _ else _) in Hr.
  assert (limit <= current_limit_ s) as Hlim.
  { unfold limit. case_cmp; simpl; lia. }
  wp_step. wp_use run_wp; [apply Hr|done|]. intros [vs ok] s2 [Hvs H2].
  rewrite Ha in *. simpl in Hvs. subst vs.
  assert (HI2 : Inv s2 /\ cfg s2 = cfg s1).
  { destruct (spec _ _) as [? [?|]]; simpl in H2; [destruct H2 as (_ & H2 & _)|
      destruct H2 as (_ & H2)]; by destruct H2 as (? & ? & _). }
  destruct HI2 as [HI2 Hcfg2]. wp_step.
  wp_use PopLimit_wp; [done|by eapply pop_limit_ok|]. intros _ s3 (H3 & _ & _). wp_step.
  destruct (spec _ _) as [vs [l|]]; simpl in *.
  - destruct H2 as (-> & Hm & _ & Hle).
    assert (moved (zlen (ztake n (avail s)) - zlen l) s s3) as Hm3
      by (by eapply relimited_trans).
    split_and!; try done; [apply Hm3..|]. apply moved_avail; [lia|done].
  - destruct H2 as (-> & Hm).
    assert (failed s s3) as Hf3 by (by eapply relimited_failed).
    split_and!; try done; apply Hf3.
Qed.

(** A reader constructed over a stream, run, and destroyed. *)
Definition session (ops : list op) (i : S) : option (list value * bool * option S) :=
  s ← from_stream i;
  '(r, s) ← run ops s;
  '(_, s) ← destroy s;
  Some (r, input_ s).

Lemma fresh_session_spec ops i :
  stream_ok i -> ByteCount i = 0 -> forallb op_ok ops = true ->
  exists ok i',
    session ops i = Some ((spec ops (ztake INT_MAX (content i))).1, ok, Some i') /\
    stream_ok i' /\
    match (spec ops (ztake INT_MAX (content i))).2 with
    | Some l =>
        ok = true /\
        ztake (INT_MAX - (zlen (ztake INT_MAX (content i)) - zlen l)) (content i') = l
    | None => ok = false
    end.
Proof.
  intros Hi HB Hops.
  destruct (from_stream_inv i Hi HB) as (s & Es & HI & Ha & Hp & _ & _ & _ & _ & Hc & Ht).
  destruct (wp_inv _ _ _ (run_wp ops s HI Hops)) as ([vs ok] & s1 & Er & Hvs & Hr).
  rewrite Ha in Hvs, Hr. simpl in Hvs, Hr. subst vs. set (sp := spec _ _) in *.
  assert (Inv s1 /\ cfg s1 = cfg s) as [HI1 Hcfg].
  { destruct (sp.2); [destruct Hr as (_ & Hr & _)|destruct Hr as (_ & Hr)];
      by destruct Hr as (? & ? & _). }
  assert (exists i1, input_ s1 = Some i1) as [i1 Ei].
  { unfold cfg, flat_size in Hcfg. destruct (input_ s1); [by eauto|].
    destruct (from_stream_input _ _ Es) as [j Ej]. rewrite Ej in Hcfg. congruence. }
  destruct (wp_inv _ _ _ (coded_destroy_wp s1 i1 HI1 Ei)) as ([] & s2 & Ed & i' & Ei' & Hi' & Hst).
  exists ok, i'. unfold session. rewrite Es. simpl. rewrite Er. simpl. rewrite Ed. simpl.
  rewrite Ei'. split_and!; [done..|]. destruct (sp.2) as [l|]; [|by destruct Hr].
  destruct Hr as (-> & Hm & Ha1 & _). split; [done|].
  rewrite <- Ha1. destruct Hm as (_ & _ & Hp1 & _).
  simpl in *. rewrite Hp, <- Ha1 in Hp1. replace (INT_MAX - _) with (INT_MAX - CurrentPosition s1) by lia.
  rewrite Hst. unfold avail, stream, closest. unfold cfg in Hcfg. simplify_eq.
  rewrite ztake_ztake. f_equal. lia.
Qed.
End run.

(** *** A stream that has been read before

    The stream's count of bytes matters in one place, to a [Skip] past its end,
    which fails and leaves a position that depends on it; nothing a session does
    afterwards looks at that position. So a session over a stream is a session
    over the same stream counted from where it stands. *)

Section origin.
Context {S : Type} {I : ZeroCopyInputStream S} {O : ZeroCopyInputStreamOk S} (origin : Z).
Notation I' := (counted_from I origin).
Notation O' := (counted_from_ok O origin).

(** Two states that differ in their position only. *)
Definition but_total (a b : CodedInput.t S) : Prop :=
  exists total, b = set_total total (overflow_bytes_ a) a.

Lemma but_total_refl a : but_total a a.
Proof. exists (total_bytes_read_ a). by destruct a. Qed.

(** Both computations fail to return, or return the same, in the same state if
    it is no failure. *)
Definition counted {A} (good : A -> bool) (x y : option (A * CodedInput.t S)) : Prop :=
  match x, y with
  | Some (u, a), Some (v, b) => u = v /\ but_total a b /\ (good u = true -> a = b)
  | None, None => True
  | _, _ => False
  end.

Lemma counted_refl {A} (good : A -> bool) x : counted good x x.
Proof. destruct x as [[u a]|]; [|done]. split_and!; [done|apply but_total_refl|done]. Qed.

Lemma skip_counted n s : counted (fun b => b) (@CodedInput.Skip S I' n s) (@CodedInput.Skip S I n s).
Proof.
  unfold CodedInput.Skip. destruct (n <? 0); [apply counted_refl|]. unfold mbind_, gets.
  destruct (n <=? BufferSize s); [apply counted_refl|]. unfold SkipFallback, mbind_, getS, modS, mret_.
  destruct (0 <? buffer_size_after_limit_ s); [apply counted_refl|].
  destruct (_ <? _); [destruct (_ <? _); apply counted_refl|]. unfold on_input. cbn [input_ set_buffer].
  destruct (input_ s) as [i|]; [|done]. change (@ZeroCopyStream.Skip S I') with (@ZeroCopyStream.Skip S I).
  destruct (ZeroCopyStream.Skip _ i) as [[[|] i1]|]; cbn; [split_and!; [done|apply but_total_refl|done]| |done].
  split_and!; [done| |done]. by eexists.
Qed.

Lemma run_op_counted o s : counted (fun v => bool_decide (is_Some v)) (@run_op S I' O' o s) (@run_op S I O o s).
Proof.
  destruct o as [| | |k|n|n|n|]; try (exact (counted_refl _ _)).
  cbn [run_op]. pose proof (skip_counted n s) as Hs. unfold mbind_, mret_, counted in *.
  destruct (@CodedInput.Skip S I' n s) as [[u a]|], (@CodedInput.Skip S I n s) as [[v b]|]; [|done..].
  destruct Hs as (-> & Ht & He). split_and!; [done|done|]. by destruct v.
Qed.

Lemma run_counted ops s : counted snd (@run S I' O' ops s) (@run S I O ops s).
Proof.
  revert s. induction ops as [|o ops IH]; intros s; [apply counted_refl|]. cbn [run]. unfold mbind_.
  pose proof (run_op_counted o s) as Ho. unfold counted in Ho.
  destruct (@run_op S I' O' o s) as [[u a]|], (@run_op S I O o s) as [[v b]|]; [|done..].
  destruct Ho as (-> & Ht & He). destruct v as [v|]; [|split_and!; done]. rewrite <- (He eq_refl).
  specialize (IH a). unfold counted in IH.
  destruct (@run S I' O' ops a) as [[[vs ok] a1]|], (@run S I O ops a) as [[[vs' ok'] b1]|]; [|done..].
  destruct IH as ([= -> ->] & ? & ?). by split_and!.
Qed.

(** The destructor gives back the same bytes. *)
Lemma destroy_counted a b :
  but_total a b -> (input_ <$> (snd <$> destroy a)) = (input_ <$> (snd <$> destroy b)).
Proof.
  intros [total ->]. unfold destroy, BackUpInputToCurrentPosition, mbind_, getS. cbn.
  destruct (input_ a) as [i|]; [|done]. change (BufferSize (set_total _ _ a)) with (BufferSize a).
  destruct (0 <? _); [|done]. unfold on_input. cbn. by destruct (input_ a) as [j|]; [destruct (BackUp _ j) as [[[] ?]|]|].
Qed.

Lemma session_counted ops i : @session S I O ops i = @session S I' O' ops i.
Proof.
  unfold session. change (@from_stream S I' O' i) with (@from_stream S I O i).
  destruct (from_stream i) as [s|]; [|done]. cbn [mbind option_bind].
  pose proof (run_counted ops s) as Hr. unfold counted in Hr.
  destruct (@run S I' O' ops s) as [[u a]|], (@run S I O ops s) as [[v b]|]; [|done..].
  destruct Hr as (-> & Ht & _). cbn [mbind option_bind]. apply destroy_counted in Ht.
  change (@destroy S I') with (@destroy S I).
  destruct (destroy a) as [[[] a1]|], (destroy b) as [[[] b1]|]; simpl in *; congruence.
Qed.
End origin.

Lemma session_spec {S} `{ZeroCopyInputStreamOk S} ops (i : S) :
  stream_ok i -> forallb op_ok ops = true ->
  exists ok i',
    session ops i = Some ((spec ops (ztake INT_MAX (content i))).1, ok, Some i') /\
    stream_ok i' /\
    match (spec ops (ztake INT_MAX (content i))).2 with
    | Some l =>
        ok = true /\
        ztake (INT_MAX - (zlen (ztake INT_MAX (content i)) - zlen l)) (content i') = l
    | None => ok = false
    end.
Proof.
  intros Hi Hops. rewrite (session_counted (ByteCount i)).
  apply (@fresh_session_spec S _ (counted_from_ok _ (ByteCount i)) ops i Hi); [|done].
  cbn [ByteCount counted_from]. lia.
Qed.

(** ** The properties *)

Section properties.
Context {S : Type} `{ZeroCopyInputStreamOk S}.

(** C1: A [CodedInputStream] constructed over any stream that keeps the
    [ZeroCopyInputStream] contract, whether it has been read before or not,
    driven by any script of reads of sizes that are not negative ([op_ok]) and then
    destroyed, never reaches undefined behaviour; it returns exactly the
    values the flat specification reads off the stream's bytes (up to
    position [INT_MAX]), fails exactly where the specification fails, and when
    it does not fail the underlying stream is left right behind the last byte
    read: the destructor gives back what was buffered but not consumed. *)
Theorem session_refines_spec ops (i : S) :
  stream_ok i -> forallb op_ok ops = true ->
  exists ok i',
    session ops i = Some ((spec ops (ztake INT_MAX (content i))).1, ok, Some i') /\
    stream_ok i' /\
    match (spec ops (ztake INT_MAX (content i))).2 with
    | Some l =>
        ok = true /\
        ztake (INT_MAX - (zlen (ztake INT_MAX (content i)) - zlen l)) (content i') = l
    | None => ok = false
    end.
Proof. apply session_spec. Qed.

(** C27: A length-delimited region. Between [PushLimit(n)] and the matching
    [PopLimit] a script sees only the first [n] available bytes, whether or
    not they are in the buffer yet; afterwards all limits are as before and,
    when the script succeeded, reading continues right behind what it
    consumed. *)
Theorem push_pop_limit_scoped n ops (s : CodedInput.t S) :
  Inv s -> 0 <= n -> forallb op_ok ops = true ->
  wp (within n (run ops)) s (fun v s' =>
    Inv s' /\ cfg s' = cfg s /\
    v.1 = (spec ops (ztake n (avail s))).1 /\
    match (spec ops (ztake n (avail s))).2 with
    | Some l =>
        v.2 = true /\
        avail s' = zdrop (zlen (ztake n (avail s)) - zlen l) (avail s)
    | None => v.2 = false
    end).
Proof. apply within_wp. Qed.

(** [ReadTagWithCutoff] reads the same tag as [ReadTag] and leaves the
    stream in the same place; its second result is true only for a tag at most
    the cutoff (or 0) and false only for 0 or a tag above the cutoff, on the
    one-byte, two-byte and fallback paths alike. *)
Theorem ReadTagWithCutoff_spec cutoff (s : CodedInput.t S) :
  Inv s -> is_u32 cutoff ->
  wp (ReadTagWithCutoff cutoff) s (fun '(tag, below) s' =>
    last_tag_ s' = tag /\
    (match vdecode kMaxVarintBytes (avail s) with
     | Some (x, l) => tag = u32 x /\ moved (zlen (avail s) - zlen l) s s'
     | None => tag = 0 /\ failed s s'
     end) /\
    if below : bool then 0 <= tag <= cutoff else tag = 0 \/ cutoff < tag).
Proof.
  intros HI Hc. unfold ReadTagWithCutoff. wp_step.
  wp_use ReadTagWithCutoffNoLastTag_wp; [done..|]. intros [tag below] s1 [Ht Hb]. wp_steps.
  assert (tag_recorded s (set_tag tag s1) tag) as [Hl Hr]%tag_recorded_decoded by by exists s1.
  done.
Qed.

(** [ReadTag] at the end of the input: with no available byte it returns 0,
    and [ConsumedEntireMessage] then answers true unless the total byte limit
    (and not a pushed limit) was what stopped the reader. *)
Theorem ReadTag_at_end (s : CodedInput.t S) :
  Inv s -> avail s = [] -> legitimate_message_end_ s = false ->
  wp ReadTag s (fun tag s' => tag = 0 /\
    ConsumedEntireMessage s' =
      (CurrentPosition s <? total_bytes_limit_ s)
      || (current_limit_ s =? total_bytes_limit_ s)).
Proof.
  intros HI Ha Hl. wp_use ReadTag_wp; [done|]. intros tag s' (s1 & [_ Ht] & ->).
  rewrite Ha in Ht. destruct Ht as [-> Ht]. split; [done|].
  unfold ConsumedEntireMessage, set_tag; simpl. fold (may_end s).
  destruct (may_end s); [apply Ht|]. by apply Ht.
Qed.
End properties.

(** The size of the blocks in which an [ArrayInputStream] hands out its
    array cannot be observed: a session over it returns what a reader of the
    flat array returns. *)
Theorem block_size_unobservable ops data block_size :
  zlen data <= INT_MAX -> forallb op_ok ops = true ->
  exists ok i r s,
    session ops (ArrayInputStream.make data (zlen data) block_size)
      = Some (r, ok, Some i) /\
    run (S := ArrayInputStream.t) ops (from_array data) = Some ((r, ok), s).
Proof.
  intros Hl Hops. set (i0 := ArrayInputStream.make _ _ _).
  assert (stream_ok i0) as Hi0 by apply ArrayInputStream.array_make_wf.
  destruct (session_spec ops i0 Hi0 Hops)
    as (ok & i' & Es & _ & Hr).
  destruct (from_array_inv (S := ArrayInputStream.t) data Hl) as (HI & Ha & _).
  destruct (wp_inv _ _ _ (run_wp ops _ HI Hops)) as ([vs ok'] & s & Er & Hvs & Hr').
  assert (ztake INT_MAX (content i0) = data) as Ec by (apply (ztake_all INT_MAX data Hl)).
  rewrite Ec in *. rewrite Ha in Hvs, Hr'. simpl in Hvs. subst vs.
  exists ok, i', (spec ops data).1, s. split; [done|]. rewrite Er. do 3 f_equal.
  destruct (spec ops data).2; simpl in Hr'; [destruct Hr as [-> _]; by destruct Hr'|].
  rewrite Hr. by destruct Hr'.
Qed.

(** Two layers of the library composed: a session over a
    [LimitingInputStream] that shows [n] bytes of a longer stream is a session
    over those [n] bytes alone. *)
Theorem limiting_stream_is_prefix ops data n block_size :
  0 <= n <= INT_MAX -> forallb op_ok ops = true ->
  exists ok1 ok2 i1 i2 r,
    session ops (LimitingInputStream.make
      (ArrayInputStream.make data (zlen data) block_size) n) = Some (r, ok1, Some i1) /\
    session ops (ArrayInputStream.make (ztake n data) (zlen (ztake n data)) 0)
      = Some (r, ok2, Some i2) /\
    ok1 = ok2.
Proof.
  intros Hn Hops. set (a := ArrayInputStream.make data (zlen data) block_size).
  set (i0 := LimitingInputStream.make a n).
  assert (stream_ok i0) as Hi0.
  { split; [apply ArrayInputStream.array_make_wf|]. simpl. pose proof (zlen_nonneg data).
    replace (Z.min 0 n) with 0 by lia. zl. }
  destruct (session_spec ops i0 Hi0 Hops) as (ok1 & i1 & E1 & _ & H1).
  set (j0 := ArrayInputStream.make (ztake n data) (zlen (ztake n data)) 0).
  assert (stream_ok j0) as Hj0 by apply ArrayInputStream.array_make_wf.
  destruct (session_spec ops j0 Hj0 Hops) as (ok2 & i2 & E2 & _ & H2).
  exists ok1, ok2, i1, i2, (spec ops (ztake n data)).1.
  assert (content i0 = ztake n data) as Ec by done. rewrite Ec in *.
  assert (ztake INT_MAX (ztake n data) = ztake n data) as Et.
  { rewrite ztake_ztake. f_equal. lia. }
  change (content j0) with (zdrop 0 (ztake n data)) in *.
  rewrite zdrop_0, Et in * by lia. split_and!; [done..|].
  destruct (spec ops (ztake n data)).2; [by destruct H1, H2; subst|congruence].
Qed.

(** ** The properties at a concrete message

    The bytes of the message [{1: 150, 2: "foo"}]. *)
Definition sample : list byte :=
  map z2b [0x08; 0x96; 0x01; 0x12; 0x03; 0x66; 0x6f; 0x6f].

Definition sample_script : list op := [OpTag; OpVarint32; OpTag; OpSizeAsInt; OpString 3].

Lemma sample_array_inv : Inv (S := ArrayInputStream.t) (from_array sample).
Proof. apply from_array_inv. by vm_compute. Qed.

Lemma sample_array_avail : avail (S := ArrayInputStream.t) (from_array sample) = sample.
Proof. apply from_array_inv. by vm_compute. Qed.

Lemma sample_stream_ok : stream_ok (ArrayInputStream.make sample 8 3).
Proof. change 8 with (zlen sample). apply ArrayInputStream.array_make_wf. Qed.

Lemma session_refines_spec_witness :
  exists i, session sample_script (ArrayInputStream.make sample 8 3)
    = Some ([VInt 8; VInt 150; VInt 18; VInt 3; VBytes (map z2b [0x66; 0x6f; 0x6f])],
            true, Some i).
Proof.
  destruct (session_refines_spec sample_script (ArrayInputStream.make sample 8 3)
    sample_stream_ok eq_refl) as (ok & i & E & _ & Hr).
  assert (ztake INT_MAX (content (ArrayInputStream.make sample 8 3)) = sample) as Ec
    by (apply (ztake_all INT_MAX sample); by vm_compute).
  rewrite Ec in *. exists i. rewrite E. destruct Hr as [-> _]. by vm_compute.
Defined.

Lemma push_pop_limit_scoped_witness :
  exists v s, within 4 (run [OpTag; OpVarint32; OpTag; OpVarint32])
    (from_array (S := ArrayInputStream.t) sample) = Some (v, s) /\
    v = ([VInt 8; VInt 150; VInt 18], false).
Proof.
  destruct (wp_inv _ _ _ (push_pop_limit_scoped 4 [OpTag; OpVarint32; OpTag; OpVarint32]
    _ sample_array_inv ltac:(lia) eq_refl)) as ([vs ok] & s & E & _ & _ & Hv & Hr).
  rewrite sample_array_avail in *. exists (vs, ok), s. split; [done|].
  vm_compute in Hv, Hr. by subst.
Defined.

Lemma ReadTagWithCutoff_spec_witness :
  exists s, ReadTagWithCutoff 127 (from_array (S := ArrayInputStream.t) sample)
    = Some ((8, true), s) /\ last_tag_ s = 8.
Proof.
  destruct (wp_inv _ _ _ (ReadTagWithCutoff_spec 127 _ sample_array_inv ltac:(ilia)))
    as ([tag below] & s & E & Hl & Hm & Hb).
  rewrite sample_array_avail in *.
  change (vdecode _ sample) with (Some (8, zdrop 1 sample)) in Hm. destruct Hm as [-> _].
  exists s. destruct below; [by split|]. exfalso. destruct Hb as [Hb|Hb]; by vm_compute in Hb.
Defined.

Lemma ReadTag_at_end_witness :
  exists s, ReadTag (from_array (S := ArrayInputStream.t) []) = Some (0, s) /\
    ConsumedEntireMessage s = true.
Proof.
  destruct (wp_inv _ _ _ (ReadTag_at_end (from_array (S := ArrayInputStream.t) [])
    (proj1 (from_array_inv [] ltac:(by vm_compute))) eq_refl eq_refl)) as (tag & s & E & -> & Hc).
  exists s. split; [done|]. rewrite Hc. by vm_compute.
Defined.

Lemma block_size_unobservable_witness :
  exists ok i r s,
    session sample_script (ArrayInputStream.make sample 8 1) = Some (r, ok, Some i) /\
    run (S := ArrayInputStream.t) sample_script (from_array sample) = Some ((r, ok), s).
Proof. by apply (block_size_unobservable sample_script sample 1). Defined.

Lemma limiting_stream_is_prefix_witness :
  exists ok1 ok2 i1 i2 r,
    session sample_script
      (LimitingInputStream.make (ArrayInputStream.make sample 8 3) 4) = Some (r, ok1, Some i1) /\
    session sample_script (ArrayInputStream.make (ztake 4 sample) 4 0)
      = Some (r, ok2, Some i2) /\
    ok1 = ok2.
Proof. by apply (limiting_stream_is_prefix sample_script sample 4 3). Defined.

(** The position after a failed [Skip] over a stream that was read before the
    [CodedInputStream] was made: [SkipFallback] takes the stream's own byte
    count, so the position is 8 although at most 6 bytes were skipped. *)
Example SkipFallback_counts_from_the_stream :
  exists s, (s ← from_stream (ArrayInputStream.with_pos (ArrayInputStream.make sample 8 3) 2 0);
             CodedInput.Skip 100 s) = Some (false, s) /\ CurrentPosition s = 8.
Proof. eexists. split; vm_compute; reflexivity. Qed.
