(* ===== verification/CopyingStream.v ===== *)
(** * Streams over copying readers, and concatenated streams

    [CopyingInputStream::Skip], [CopyingInputStreamAdaptor]
    ([io/zero_copy_stream_impl_lite.cc]) and [ConcatenatingInputStream]
    ([io/zero_copy_stream_impl.cc]). Both adaptors are shown to keep the
    [ZeroCopyInputStream] contract when what they adapt keeps its own. *)

From S2P Require Import Prelude ZeroCopyStream.

(** ** The copying interface

    [Read size] returns [None] for the result -1 and otherwise the bytes stored
    in the buffer, none at the end of the file. *)
Class CopyingInputStream (T : Type) := {
  Read : Z -> M T (option (list byte));
  CopyingSkip : Z -> M T Z;
}.

(** The contract in the comments of [io/zero_copy_stream_impl_lite.h];
    [pending] is what will be read before the end of the file or an error. *)
Class CopyingInputStreamOk (T : Type) `{CopyingInputStream T} := {
  copying_ok : T -> Prop;
  pending : T -> list byte;
  read_ok t size :
    copying_ok t -> 0 < size ->
    wp (Read size) t (fun r t' =>
      copying_ok t' /\
      match r with
      | Some c => pending t = c ++ pending t' /\ zlen c <= size /\
                  (c = [] -> pending t = [])
      | None => pending t = [] /\ pending t' = []
      end);
  copying_skip_ok t count :
    copying_ok t -> 0 <= count ->
    wp (CopyingSkip count) t (fun n t' =>
      copying_ok t' /\ n = Z.min count (zlen (pending t)) /\
      pending t' = zdrop count (pending t));
}.

(** The default [CopyingInputStream::Skip] reads into a scratch buffer of 4096
    bytes; each round that does not stop skips a byte, so [count] rounds are
    enough. *)
Section default_skip.
Context {T : Type} (Read : Z -> M T (option (list byte))).

Fixpoint Skip_loop (n : nat) (count skipped : Z) : M T Z :=
  if skipped <? count then
    let* bytes := Read (Z.min (count - skipped) 4096) in
    match bytes with
    | None => ret skipped
    | Some c =>
        if zlen c <=? 0 then ret skipped
        else match n with
             | O => undef
             | S n => Skip_loop n count (skipped + zlen c)
             end
    end
  else ret skipped.

Definition default_Skip (count : Z) : M T Z := Skip_loop (Z.to_nat count) count 0.

Context (ok : T -> Prop) (pend : T -> list byte).
Context (Hread : forall t size, ok t -> 0 < size ->
  wp (Read size) t (fun r t' => ok t' /\
    match r with
    | Some c => pend t = c ++ pend t' /\ zlen c <= size /\ (c = [] -> pend t = [])
    | None => pend t = [] /\ pend t' = []
    end)).

Lemma Skip_loop_wp n count skipped t :
  ok t -> 0 <= skipped <= count -> count - skipped <= Z.of_nat n ->
  wp (Skip_loop n count skipped) t (fun k t' =>
    ok t' /\ k = skipped + Z.min (count - skipped) (zlen (pend t)) /\
    pend t' = zdrop (count - skipped) (pend t)).
Proof.
  revert skipped t. induction n as [|n IH]; intros skipped t Ht Hs Hn; simpl;
    destruct (Z.ltb_spec skipped count);
    try (wp_steps; rewrite zdrop_0 by lia; split_and!; [done|zl|done]); [lia|].
  wp_step. wp_use Hread; [done|lia|]. intros [c|] t' [Ht' Hr].
  - destruct Hr as (E & Hc & Hnil). destruct (Z.leb_spec (zlen c) 0).
    + assert (c = []) as -> by (by apply zlen_0). specialize (Hnil eq_refl).
      wp_steps. rewrite Hnil in *. simpl in E. rewrite <- E.
      unfold zdrop. rewrite drop_nil. split_and!; [done|zl|done].
    + wp_use IH; [done|lia|lia|]. intros k t'' (? & -> & ->). rewrite E.
      split_and!; [done|zl|]. rewrite zdrop_app, (zdrop_all _ c) by lia.
      simpl. f_equal. lia.
  - destruct Hr as [E1 E2]. wp_steps. rewrite E1, E2. unfold zdrop. rewrite drop_nil.
    split_and!; [done|zl|done].
Qed.

Lemma default_Skip_wp t count :
  ok t -> 0 <= count ->
  wp (default_Skip count) t (fun n t' =>
    ok t' /\ n = Z.min count (zlen (pend t)) /\ pend t' = zdrop count (pend t)).
Proof.
  intros. unfold default_Skip. wp_use Skip_loop_wp; [done|lia|lia|].
  intros k t' (? & -> & ->). split_and!; [done|lia|]. f_equal. lia.
Qed.
End default_skip.

(** ** CopyingInputStreamAdaptor *)
Module CopyingInputStreamAdaptor.

Definition kDefaultBlockSize : Z := 8192.

(** [buffer_] holds the bytes the last read stored; [None] is the null
    pointer. *)
Record t (T : Type) := mk {
  copying_stream_ : T;
  failed_ : bool;
  position_ : Z;
  buffer_ : option (list byte);
  buffer_size_ : Z;
  buffer_used_ : Z;
  backup_bytes_ : Z;
}.
Arguments mk {T} _ _ _ _ _ _ _.
Arguments copying_stream_ {T} _.
Arguments failed_ {T} _.
Arguments position_ {T} _.
Arguments buffer_ {T} _.
Arguments buffer_size_ {T} _.
Arguments buffer_used_ {T} _.
Arguments backup_bytes_ {T} _.

Section adaptor.
Context {T : Type} `{CopyingInputStream T}.

Definition make (stream : T) (block_size : Z) : t T :=
  mk stream false 0 None (if 0 <? block_size then block_size else kDefaultBlockSize) 0 0.

Definition set_stream (c : T) (s : t T) : t T :=
  mk c (failed_ s) (position_ s) (buffer_ s) (buffer_size_ s) (buffer_used_ s)
    (backup_bytes_ s).
Definition set_failed (s : t T) : t T :=
  mk (copying_stream_ s) true (position_ s) (buffer_ s) (buffer_size_ s)
    (buffer_used_ s) (backup_bytes_ s).
Definition set_position (p : Z) (s : t T) : t T :=
  mk (copying_stream_ s) (failed_ s) p (buffer_ s) (buffer_size_ s)
    (buffer_used_ s) (backup_bytes_ s).
Definition set_buffer (b : option (list byte)) (used : Z) (s : t T) : t T :=
  mk (copying_stream_ s) (failed_ s) (position_ s) b (buffer_size_ s) used
    (backup_bytes_ s).
Definition set_backup (n : Z) (s : t T) : t T :=
  mk (copying_stream_ s) (failed_ s) (position_ s) (buffer_ s) (buffer_size_ s)
    (buffer_used_ s) n.

Definition on_stream {A} (m : M T A) : M (t T) A := fun s =>
  match m (copying_stream_ s) with
  | Some (a, c) => Some (a, set_stream c s)
  | None => None
  end.

Definition allocated (s : t T) : t T :=
  match buffer_ s with
  | None => set_buffer (Some []) (buffer_used_ s) s
  | Some _ => s
  end.
Definition AllocateBufferIfNeeded : M (t T) unit := modS allocated.

Definition FreeBuffer : M (t T) unit :=
  let* s := getS in
  if backup_bytes_ s =? 0 then modS (set_buffer None 0) else undef.

Definition Next : M (t T) (option (list byte)) :=
  let* failed := gets failed_ in
  if failed : bool then ret None else
  AllocateBufferIfNeeded ;;;
  let* s := getS in
  if 0 <? backup_bytes_ s then
    match buffer_ s with
    | Some b =>
        modS (set_backup 0) ;;;
        ret (Some (ztake (backup_bytes_ s)
                         (zdrop (buffer_used_ s - backup_bytes_ s) b)))
    | None => undef
    end
  else
    let* r := on_stream (Read (buffer_size_ s)) in
    match r with
    | Some c =>
        if zlen c <=? 0 then
          modS (set_buffer (Some []) 0) ;;; FreeBuffer ;;; ret None
        else
          modS (set_buffer (Some c) (zlen c)) ;;;
          modS (fun s => set_position (position_ s + zlen c) s) ;;;
          ret (Some c)
    | None =>
        modS (set_buffer (Some []) (-1)) ;;;
        modS set_failed ;;; FreeBuffer ;;; ret None
    end.

Definition BackUp (count : Z) : M (t T) unit :=
  let* s := getS in
  if (backup_bytes_ s =? 0) && bool_decide (is_Some (buffer_ s))
     && (count <=? buffer_used_ s) && (0 <=? count)
  then modS (set_backup count) else undef.

Definition Skip (count : Z) : M (t T) bool :=
  if 0 <=? count then
    let* s := getS in
    if failed_ s then ret false
    else if count <=? backup_bytes_ s then
      modS (set_backup (backup_bytes_ s - count)) ;;; ret true
    else
      let count := count - backup_bytes_ s in
      modS (set_backup 0) ;;;
      let* skipped := on_stream (CopyingSkip count) in
      modS (fun s => set_position (position_ s + skipped) s) ;;;
      ret (skipped =? count)
  else undef.

Definition ByteCount (s : t T) : Z := position_ s - backup_bytes_ s.

#[global] Instance stream : ZeroCopyInputStream (t T) :=
  {| ZeroCopyStream.Next := Next; ZeroCopyStream.BackUp := BackUp;
     ZeroCopyStream.Skip := Skip; ZeroCopyStream.ByteCount := ByteCount |}.
End adaptor.

(** *** Contract *)
Section contract.
Context {T : Type} `{CopyingInputStreamOk T}.
Implicit Type s : t T.

Definition bytes s : list byte := match buffer_ s with Some b => b | None => [] end.

Definition wf s : Prop :=
  copying_ok (copying_stream_ s) /\ 0 < buffer_size_ s /\
  buffer_used_ s = zlen (bytes s) /\ 0 <= backup_bytes_ s <= buffer_used_ s /\
  (failed_ s = true -> pending (copying_stream_ s) = [] /\ bytes s = []).
Definition backed_up s : list byte :=
  zdrop (buffer_used_ s - backup_bytes_ s) (bytes s).
Definition content s : list byte := backed_up s ++ pending (copying_stream_ s).
Definition backable s : list byte := if backup_bytes_ s =? 0 then bytes s else [].
Definition bound s : nat := length (content s).

Lemma on_stream_wp {A} (m : M T A) s (Q : A -> t T -> Prop) :
  wp m (copying_stream_ s) (fun a c => Q a (set_stream c s)) -> wp (on_stream m) s Q.
Proof. unfold wp, on_stream. destruct (m _) as [[a c]|]; done. Qed.

Lemma adaptor_make_wf c block_size : copying_ok c -> wf (make c block_size).
Proof.
  intros Hc. unfold wf, make, bytes, kDefaultBlockSize; simpl.
  destruct (Z.ltb_spec 0 block_size); split_and!; (done || lia).
Qed.
Definition next_post s (r : option (list byte)) s' : Prop :=
  wf s' /\
  match r with
  | Some c =>
      content s = c ++ content s' /\ c `suffix_of` backable s' /\
      ByteCount s' = ByteCount s + zlen c /\ (bound s' < bound s)%nat
  | None => content s = [] /\ content s' = [] /\ ByteCount s' = ByteCount s
  end.

Lemma allocated_same s :
  let s1 := allocated s in
  (wf s -> wf s1) /\ content s1 = content s /\ ByteCount s1 = ByteCount s /\
  bytes s1 = bytes s /\ failed_ s1 = failed_ s /\ buffer_ s1 = Some (bytes s).
Proof.
  unfold allocated, wf, content, backed_up, ByteCount, bytes.
  destruct (buffer_ s) eqn:E; simpl; rewrite ?E; by split_and!.
Qed.

(** The two halves of [Next]: what was backed up, or a new block. *)
Lemma next_backed_up s :
  wf s -> 0 < backup_bytes_ s -> next_post s (Some (backed_up s)) (set_backup 0 s).
Proof.
  intros (Hc & Hsz & Hu & Hb & Hf) Hpos.
  assert (zlen (backed_up s) = backup_bytes_ s) as El by (unfold backed_up; zl).
  unfold next_post, wf, content, backable, ByteCount, bound, content; simpl.
  change (bytes (set_backup 0 s)) with (bytes s).
  assert (backed_up (set_backup 0 s) = []) as -> by (apply zdrop_all; change (bytes (set_backup 0 s)) with (bytes s); simpl; lia).
  rewrite El. split_and!; try done; try lia.
  - exists (ztake (buffer_used_ s - backup_bytes_ s) (bytes s)). unfold backed_up.
    by rewrite ztake_zdrop.
  - unfold zlen in El. simpl. rewrite length_app. lia.
Qed.

Lemma next_new_block s :
  wf s -> backup_bytes_ s = 0 -> failed_ s = false ->
  wp (let* r := on_stream (Read (buffer_size_ s)) in
      match r with
      | Some c =>
          if zlen c <=? 0 then
            modS (set_buffer (Some []) 0) ;;; FreeBuffer ;;; ret None
          else
            modS (set_buffer (Some c) (zlen c)) ;;;
            modS (fun s => set_position (position_ s + zlen c) s) ;;;
            ret (Some c)
      | None =>
          modS (set_buffer (Some []) (-1)) ;;;
          modS set_failed ;;; FreeBuffer ;;; ret None
      end) s (next_post s).
Proof.
  intros (Hc & Hsz & Hu & Hb & Hf) Hz Ef. wp_step. apply on_stream_wp.
  assert (content s = pending (copying_stream_ s)) as Ec.
  { unfold content, backed_up. rewrite zdrop_all by lia. done. }
  wp_use read_ok; [done..|]. intros [c|] c' [Hc' Hr].
  - destruct Hr as (E & Hlen & Hnil). destruct (Z.leb_spec (zlen c) 0).
    + assert (c = []) as -> by (by apply zlen_0). specialize (Hnil eq_refl).
      rewrite Hnil in E. simpl in E. unfold FreeBuffer. wp_steps. simpl. rewrite Hz. simpl.
      wp_steps. unfold next_post. rewrite Ec, Hnil.
      unfold wf, content, backed_up, ByteCount, bytes; simpl.
      rewrite <- E, Ef, Hz. by split_and!.
    + wp_steps. unfold next_post, bound. rewrite Ec, E.
      unfold wf, content, backable, ByteCount, backed_up, bytes; simpl.
      rewrite Hz, Ef. simpl.
      rewrite (zdrop_all (zlen c - 0)) by lia. simpl. rewrite length_app.
      split_and!; try done; try lia. unfold zlen in *. lia.
  - destruct Hr as [E1 E2]. unfold FreeBuffer. wp_steps. simpl. rewrite Hz. simpl.
    wp_steps. unfold next_post. rewrite Ec, E1.
    unfold wf, content, ByteCount, backed_up, bytes; simpl.
    rewrite E2, Hz. by split_and!.
Qed.

Lemma adaptor_Next_wp s : wf s -> wp Next s (next_post s).
Proof.
  intros Hwf. unfold Next, AllocateBufferIfNeeded. wp_step.
  apply wp_gets. destruct (failed_ s) eqn:Ef.
  { wp_steps. split; [done|]. destruct Hwf as (_ & _ & Hu & _ & Hf).
    destruct (Hf Ef) as [Hp Hb0]. unfold content, backed_up.
    rewrite Hp, Hb0. unfold zdrop. by rewrite drop_nil. }
  wp_step. apply wp_modS. destruct (allocated_same s) as (Hwf1 & E2 & E3 & E4 & E5 & E6).
  specialize (Hwf1 Hwf). rewrite Ef in E5.
  apply (wp_mono _ _ (next_post (allocated s))); cycle 1.
  { intros r s'. unfold next_post, bound. by rewrite E2, E3. }
  wp_steps. rewrite E6, <- E4. destruct (Z.ltb_spec 0 (backup_bytes_ (allocated s))).
  - wp_steps. rewrite ztake_all; [by apply next_backed_up|].
    destruct Hwf1 as (_ & _ & ? & ? & _). zl.
  - apply next_new_block; [done| |done]. destruct Hwf1 as (_ & _ & _ & ? & _). lia.
Qed.

Lemma adaptor_BackUp_wp s n :
  wf s -> 0 < n <= zlen (backable s) ->
  wp (BackUp n) s (fun _ s' =>
    wf s' /\ content s' = zdrop (zlen (backable s) - n) (backable s) ++ content s /\
    ByteCount s' = ByteCount s - n).
Proof.
  intros (Hc & Hsz & Hu & Hb & Hf) Hn. unfold BackUp. wp_steps.
  unfold backable in *. destruct (Z.eqb_spec (backup_bytes_ s) 0) as [E|]; [|zl].
  unfold bytes in *. destruct (buffer_ s) as [b|] eqn:Eb; [|zl].
  rewrite bool_decide_true by done.
  destruct (Z.leb_spec n (buffer_used_ s)), (Z.leb_spec 0 n); try lia. simpl. wp_steps.
  unfold wf, content, backed_up, ByteCount, bytes; simpl. rewrite Eb, E.
  rewrite (zdrop_all (buffer_used_ s - 0)) by lia. rewrite Hu. simpl.
  split_and!; try done; try lia.
Qed.

Lemma adaptor_Skip_wp s n :
  wf s -> 0 <= n ->
  wp (Skip n) s (fun r s' =>
    wf s' /\ (0 < n -> r = (n <=? zlen (content s))) /\
    content s' = zdrop n (content s) /\
    ByteCount s' = ByteCount s + Z.min n (zlen (content s))).
Proof.
  intros Hwf Hn. pose proof Hwf as (Hc & Hsz & Hu & Hb & Hf).
  unfold Skip. rewrite (proj2 (Z.leb_le 0 n) Hn). wp_steps.
  assert (zlen (backed_up s) = backup_bytes_ s) as El by (unfold backed_up; zl).
  destruct (failed_ s) eqn:Ef.
  { destruct (Hf eq_refl) as [Hp Hb0]. wp_steps.
    assert (content s = []) as ->.
    { unfold content, backed_up. rewrite Hp, Hb0. unfold zdrop. by rewrite drop_nil. }
    unfold zdrop. rewrite drop_nil. split_and!; try done; [|zl].
    intros. case_cmp; [zl|done]. }
  assert (zlen (content s) = backup_bytes_ s + zlen (pending (copying_stream_ s))) as Ec
    by (unfold content; zl).
  pose proof (zlen_nonneg (pending (copying_stream_ s))).
  destruct (Z.leb_spec n (backup_bytes_ s)); wp_steps.
  - rewrite Ec. unfold wf, ByteCount, content; simpl.
    change (bytes (set_backup _ s)) with (bytes s). rewrite Ef; split_and!; try done; try lia.
    + rewrite zdrop_app, (zdrop_0 (n - _)) by lia. f_equal.
      unfold backed_up; simpl. change (bytes (set_backup _ s)) with (bytes s).
      rewrite zdrop_zdrop by lia. f_equal. lia.
  - apply on_stream_wp. wp_use copying_skip_ok; [done|lia|].
    intros k c (Hc' & -> & Ep). wp_steps. rewrite Ec.
    unfold wf, ByteCount, content, backed_up; simpl.
    change (bytes (set_position _ _)) with (bytes s). rewrite Ep.
    rewrite (zdrop_all (buffer_used_ s - 0)) by lia. simpl.
    rewrite Ef. split_and!; try done; try lia.
    + rewrite zdrop_app, (zdrop_all n) by (fold (backed_up s); lia).
      fold (backed_up s). rewrite El. done.
Qed.

#[global] Instance stream_ok : ZeroCopyInputStreamOk (t T) :=
  {| ZeroCopyStream.stream_ok := wf; ZeroCopyStream.content := content;
     ZeroCopyStream.backable := backable; ZeroCopyStream.bound := bound;
     next_ok := adaptor_Next_wp; backup_ok := adaptor_BackUp_wp; skip_ok := adaptor_Skip_wp |}.
End contract.
End CopyingInputStreamAdaptor.

(** ** ConcatenatingInputStream

    [streams_] and [stream_count_] are the list of the streams not yet retired. *)
Module ConcatenatingInputStream.

Record t (S : Type) := mk {
  streams_ : list S;
  bytes_retired_ : Z;
}.
Arguments mk {S} _ _.
Arguments streams_ {S} _.
Arguments bytes_retired_ {S} _.

Section concatenating.
Context {S : Type} `{ZeroCopyInputStream S}.

Definition make (streams : list S) : t S := mk streams 0.

(** A call on [streams_[0]]. *)
Definition on_head {A} (m : M S A) (i : S) (rest : list S) (retired : Z)
    : option (A * t S) :=
  match m i with
  | Some (a, i) => Some (a, mk (i :: rest) retired)
  | None => None
  end.

Fixpoint Next_loop (streams : list S) (retired : Z)
    : option (option (list byte) * t S) :=
  match streams with
  | [] => Some (None, mk [] retired)
  | i :: rest =>
      match ZeroCopyStream.Next i with
      | Some (Some c, i) => Some (Some c, mk (i :: rest) retired)
      | Some (None, i) => Next_loop rest (retired + ZeroCopyStream.ByteCount i)
      | None => None
      end
  end.
Definition Next : M (t S) (option (list byte)) := fun s =>
  Next_loop (streams_ s) (bytes_retired_ s).

Definition BackUp (count : Z) : M (t S) unit := fun s =>
  match streams_ s with
  | i :: rest => on_head (ZeroCopyStream.BackUp count) i rest (bytes_retired_ s)
  | [] => None
  end.

Fixpoint Skip_loop (streams : list S) (count retired : Z) : option (bool * t S) :=
  match streams with
  | [] => Some (false, mk [] retired)
  | i :: rest =>
      let target_byte_count := ZeroCopyStream.ByteCount i + count in
      match ZeroCopyStream.Skip count i with
      | Some (true, i) => Some (true, mk (i :: rest) retired)
      | Some (false, i) =>
          let final_byte_count := ZeroCopyStream.ByteCount i in
          if final_byte_count <? target_byte_count then
            Skip_loop rest (target_byte_count - final_byte_count)
              (retired + final_byte_count)
          else None
      | None => None
      end
  end.
Definition Skip (count : Z) : M (t S) bool := fun s =>
  Skip_loop (streams_ s) count (bytes_retired_ s).

Definition ByteCount (s : t S) : Z :=
  match streams_ s with
  | [] => bytes_retired_ s
  | i :: _ => bytes_retired_ s + ZeroCopyStream.ByteCount i
  end.

#[global] Instance stream : ZeroCopyInputStream (t S) :=
  {| ZeroCopyStream.Next := Next; ZeroCopyStream.BackUp := BackUp;
     ZeroCopyStream.Skip := Skip; ZeroCopyStream.ByteCount := ByteCount |}.
End concatenating.

(** *** Contract

    [Skip(0)] must succeed on the streams: after a failed [Skip] the code
    checks that fewer bytes than asked were skipped. *)
Class SkipZeroOk (S : Type) `{ZeroCopyInputStreamOk S} :=
  skip_zero_ok s : stream_ok s -> wp (ZeroCopyStream.Skip 0) s (fun r _ => r = true).

Section contract.
Context {S : Type} `{SkipZeroOk S}.

(** The streams behind the first have not been read. *)
Definition fresh (l : list S) : Prop :=
  Forall (fun i => ZeroCopyStream.ByteCount i = 0) l.
Definition wf (s : t S) : Prop :=
  Forall stream_ok (streams_ s) /\ fresh (tail (streams_ s)).
Definition contents (l : list S) : list byte := concat (map ZeroCopyStream.content l).
Definition content (s : t S) : list byte := contents (streams_ s).
Definition backable (s : t S) : list byte :=
  match streams_ s with [] => [] | i :: _ => ZeroCopyStream.backable i end.
Definition bounds (l : list S) : nat := sum_list_with ZeroCopyStream.bound l.
Definition bound (s : t S) : nat := bounds (streams_ s).

Lemma fresh_head retired l : fresh l -> ByteCount (mk l retired) = retired.
Proof. destruct 1 as [|i l E]; unfold ByteCount; simpl; lia. Qed.

Lemma fresh_tail (l : list S) : fresh l -> fresh (tail l).
Proof. destruct 1; [constructor|done]. Qed.

Lemma concat_Next_wp s :
  wf s ->
  wp Next s (fun r s' =>
    wf s' /\
    match r with
    | Some c =>
        content s = c ++ content s' /\ c `suffix_of` backable s' /\
        ByteCount s' = ByteCount s + zlen c /\ (bound s' < bound s)%nat
    | None => content s = [] /\ content s' = [] /\ ByteCount s' = ByteCount s
    end).
Proof.
  destruct s as [l retired]. unfold wp, Next, content, bound. simpl. revert retired.
  induction l as [|i l IH]; intros retired [Hl Hf]; [done|]. simpl in *.
  apply Forall_cons in Hl as [Hi Hl].
  pose proof (next_ok i Hi) as Hn. unfold wp in Hn.
  destruct (ZeroCopyStream.Next i) as [[[c|] i']|]; [| |done].
  - destruct Hn as (Hi' & E & Hs & HB & Hb). unfold wf, backable, ByteCount; simpl.
    rewrite HB. unfold contents. simpl. rewrite E, <- app_assoc.
    split_and!; [by constructor|done|done|done|lia|unfold bounds; simpl; lia].
  - destruct Hn as (Hi' & E & E' & HB).
    assert (wf (mk l (retired + ZeroCopyStream.ByteCount i'))) as Hwf
      by (split; [done|by apply fresh_tail]).
    specialize (IH _ Hwf). rewrite HB in *. simpl in *.
    rewrite (fresh_head _ l) in IH by done.
    destruct (Next_loop l _) as [[r s']|]; [|done]. destruct IH as [Hwf' IH].
    split; [done|]. unfold contents in *. simpl. rewrite E. simpl.
    destruct r as [c|]; [|done]. destruct IH as (? & ? & ? & ?). split_and!; try done.
    unfold bounds in *. simpl. lia.
Qed.

Lemma concat_BackUp_wp s n :
  wf s -> 0 < n <= zlen (backable s) ->
  wp (BackUp n) s (fun _ s' =>
    wf s' /\ content s' = zdrop (zlen (backable s) - n) (backable s) ++ content s /\
    ByteCount s' = ByteCount s - n).
Proof.
  destruct s as [[|i l] retired]; intros [Hl Hf] Hn; unfold backable in *; simpl in *; [zl|].
  apply Forall_cons in Hl as [Hi Hl]. unfold BackUp, on_head, wp; simpl.
  pose proof (backup_ok i n Hi Hn) as Hb. unfold wp in Hb.
  destruct (ZeroCopyStream.BackUp n i) as [[[] i']|]; [|done].
  destruct Hb as (Hi' & E & HB). unfold wf, content, contents, ByteCount; simpl.
  rewrite E, HB, <- app_assoc. split_and!; [by constructor|done|done|lia].
Qed.

Lemma concat_Skip_wp s n :
  wf s -> 0 <= n ->
  wp (Skip n) s (fun r s' =>
    wf s' /\ (0 < n -> r = (n <=? zlen (content s))) /\
    content s' = zdrop n (content s) /\
    ByteCount s' = ByteCount s + Z.min n (zlen (content s))).
Proof.
  destruct s as [l retired]. unfold wp, Skip, content. simpl. revert retired n.
  induction l as [|i l IH]; intros retired n [Hl Hf] Hn; simpl in *.
  { unfold contents, zdrop; simpl. rewrite drop_nil. split_and!; try done.
    - intros. case_cmp; [zl|done].
    - unfold ByteCount; simpl. zl. }
  apply Forall_cons in Hl as [Hi Hl].
  pose proof (skip_ok i n Hi Hn) as Hs. unfold wp in Hs.
  assert (n = 0 -> wp (ZeroCopyStream.Skip n) i (fun r _ => r = true)) as H0'.
  { intros ->. by apply skip_zero_ok. }
  unfold wp in H0'.
  destruct (ZeroCopyStream.Skip n i) as [[ok i']|]; [|done].
  destruct Hs as (Hi' & Hr & E & HB). unfold contents in *; simpl.
  pose proof (zlen_nonneg (concat (map ZeroCopyStream.content l))).
  destruct ok.
  - assert (n <= zlen (ZeroCopyStream.content i)) as Hle.
    { destruct (decide (n = 0)) as [->|]; [zl|].
      apply Z.leb_le. by rewrite <- Hr by lia. }
    unfold wf, ByteCount; simpl. rewrite E, HB, zdrop_app, (zdrop_0 (n - _)) by lia.
    split_and!; [by constructor|done| |done|zl]. intros. case_cmp; [done|zl].
  - assert (0 < n) as Hpos.
    { destruct (decide (n = 0)) as [->|]; [by specialize (H0' eq_refl)|lia]. }
    specialize (Hr Hpos). symmetry in Hr. apply Z.leb_gt in Hr.
    rewrite HB. rewrite (proj2 (Z.ltb_lt _ _)) by lia.
    assert (wf (mk l (retired + (ZeroCopyStream.ByteCount i
              + Z.min n (zlen (ZeroCopyStream.content i)))))) as Hwf
      by (split; [done|by apply fresh_tail]).
    assert (0 <= n - zlen (ZeroCopyStream.content i)) as Hrest by lia.
    specialize (IH _ _ Hwf Hrest).
    rewrite (fresh_head _ l) in IH by done.
    replace (ZeroCopyStream.ByteCount i + n - (ZeroCopyStream.ByteCount i + _))
      with (n - zlen (ZeroCopyStream.content i)) by (pose proof (zlen_nonneg (ZeroCopyStream.content i)); lia).
    destruct (Skip_loop l _ _) as [[r s']|]; [|done].
    destruct IH as (Hwf' & Hr' & E' & HB'). split; [done|]. split_and!.
    + intros. rewrite Hr' by lia. rewrite zlen_app. case_cmp; (done || lia).
    + rewrite E', zdrop_app, (zdrop_all n) by lia. done.
    + rewrite HB'. unfold ByteCount; simpl. rewrite zlen_app. lia.
Qed.

#[global] Instance stream_ok : ZeroCopyInputStreamOk (t S) :=
  {| ZeroCopyStream.stream_ok := wf; ZeroCopyStream.content := content;
     ZeroCopyStream.backable := backable; ZeroCopyStream.bound := bound;
     next_ok := concat_Next_wp; backup_ok := concat_BackUp_wp; skip_ok := concat_Skip_wp |}.

Lemma concat_make_wf (l : list S) : Forall ZeroCopyStream.stream_ok l -> fresh l -> wf (make l).
Proof. intros. split; [done|by apply fresh_tail]. Qed.
End contract.

#[global] Instance array_skip_zero : SkipZeroOk ArrayInputStream.t.
Proof.
  intros s (Hsz & Hpos & _). unfold wp, ZeroCopyStream.Skip, ArrayInputStream.stream.
  unfold ArrayInputStream.Skip, mbind_, getS, putS, mret_. simpl.
  destruct (Z.ltb_spec (ArrayInputStream.size_ s - ArrayInputStream.position_ s) 0);
    [lia|done].
Qed.
End ConcatenatingInputStream.
