(* ===== verification/StreamsSpec.v ===== *)
(** * Readers over composed streams

    What a [CodedInputStream] returns does not depend on where its bytes come
    from: concatenated arrays and copying readers give the values of one array
    with the same bytes. *)

From S2P Require Import Prelude Varint ZeroCopyStream CodedInput CodedInputSpec.
From S2P Require Import CopyingStream.

(** The adaptors keep the [ZeroCopyInputStream] contract, so the session theorem
    applies to them. *)

Definition arrays (block_size : Z) (l : list (list byte)) : list ArrayInputStream.t :=
  map (fun d => ArrayInputStream.make d (zlen d) block_size) l.

Lemma arrays_ok b l : Forall stream_ok (arrays b l).
Proof.
  unfold arrays. apply Forall_map, Forall_true. intros d. apply ArrayInputStream.array_make_wf.
Qed.

Lemma arrays_fresh b l : ConcatenatingInputStream.fresh (arrays b l).
Proof.
  unfold arrays, ConcatenatingInputStream.fresh. by apply Forall_map, Forall_true.
Qed.

Lemma arrays_contents b l :
  ConcatenatingInputStream.contents (arrays b l) = concat l.
Proof.
  unfold ConcatenatingInputStream.contents. induction l as [|d l IH]; [done|].
  change (arrays b (d :: l)) with (ArrayInputStream.make d (zlen d) b :: arrays b l).
  cbn [map concat]. by rewrite IH.
Qed.

(** Cutting a message into several arrays and joining them with a
    [ConcatenatingInputStream], each array handed out in blocks of any size,
    gives every reader the values it reads off the message itself; so does
    cutting it at places the reader's varints, tags and strings straddle. *)
Theorem concatenated_arrays ops (l : list (list byte)) block_size :
  zlen (concat l) <= INT_MAX -> forallb op_ok ops = true ->
  exists ok i,
    session ops (ConcatenatingInputStream.make (arrays block_size l))
      = Some ((spec ops (concat l)).1, ok, Some i) /\
    ok = bool_decide (is_Some (spec ops (concat l)).2).
Proof.
  intros Hl Hops. set (i0 := ConcatenatingInputStream.make _).
  assert (stream_ok i0) as Hi0
    by (apply ConcatenatingInputStream.concat_make_wf; [apply arrays_ok|apply arrays_fresh]).
  destruct (session_spec ops i0 Hi0 Hops) as (ok & i' & Es & _ & Hr).
  assert (ztake INT_MAX (content i0) = concat l) as Ec.
  { change (content i0) with (ConcatenatingInputStream.contents (arrays block_size l)).
    rewrite arrays_contents. by apply ztake_all. }
  rewrite Ec in *. exists ok, i'. split; [done|].
  destruct (spec ops (concat l)).2; [by destruct Hr as [-> _]|by subst].
Qed.

(** C40: A [CopyingInputStreamAdaptor] over any reader that keeps the
    [CopyingInputStream] contract (reads may be short, may stop at an error)
    gives every reader the values of the reader's bytes, block after block of
    any size. *)
Theorem copying_adaptor_session {T} `{CopyingInputStreamOk T} ops (c : T) block_size :
  copying_ok c -> zlen (pending c) <= INT_MAX -> forallb op_ok ops = true ->
  exists ok i,
    session ops (CopyingInputStreamAdaptor.make c block_size)
      = Some ((spec ops (pending c)).1, ok, Some i) /\
    ok = bool_decide (is_Some (spec ops (pending c)).2).
Proof.
  intros Hc Hl Hops. set (i0 := CopyingInputStreamAdaptor.make _ _).
  assert (stream_ok i0) as Hi0 by (by apply CopyingInputStreamAdaptor.adaptor_make_wf).
  destruct (session_spec ops i0 Hi0 Hops) as (ok & i' & Es & _ & Hr).
  assert (ztake INT_MAX (content i0) = pending c) as Ec by (by apply ztake_all).
  rewrite Ec in *. exists ok, i'. split; [done|].
  destruct (spec ops (pending c)).2; [by destruct Hr as [-> _]|by subst].
Qed.

(** ** At a concrete input *)

Lemma concatenated_arrays_witness :
  exists ok i,
    session sample_script (ConcatenatingInputStream.make
      (arrays 2 [ztake 2 sample; []; zdrop 2 sample]))
      = Some ([VInt 8; VInt 150; VInt 18; VInt 3; VBytes (map z2b [0x66; 0x6f; 0x6f])],
              ok, Some i) /\
    ok = true.
Proof. apply (concatenated_arrays sample_script [ztake 2 sample; []; zdrop 2 sample] 2); done. Defined.

(** A reader over a list that returns at most three bytes at a time. *)
Module ShortReader.
Definition Read (size : Z) : M (list byte) (option (list byte)) := fun l =>
  let n := Z.min size 3 in Some (Some (ztake n l), zdrop n l).

#[global] Instance reader : CopyingInputStream (list byte) :=
  {| CopyingStream.Read := Read; CopyingSkip := default_Skip Read |}.

Lemma Read_wp (l : list byte) size :
  True -> 0 < size ->
  wp (Read size) l (fun r l' => True /\
    match r with
    | Some c => l = c ++ l' /\ zlen c <= size /\ (c = [] -> l = [])
    | None => l = [] /\ l' = []
    end).
Proof.
  intros _ Hs. unfold wp, Read. split_and!; [done|by rewrite ztake_zdrop|zl|].
  intros E. rewrite <- (ztake_zdrop (Z.min size 3) l), E. simpl.
  apply (f_equal zlen) in E. apply zdrop_all. zl.
Qed.

#[global] Program Instance reader_ok : CopyingInputStreamOk (list byte) :=
  {| copying_ok := fun _ => True; pending := id |}.
Next Obligation. apply Read_wp. Qed.
Next Obligation. intros. by apply (default_Skip_wp Read (fun _ => True) id Read_wp). Qed.
End ShortReader.

Lemma copying_adaptor_session_witness :
  exists ok i,
    session sample_script (CopyingInputStreamAdaptor.make sample 5)
      = Some ([VInt 8; VInt 150; VInt 18; VInt 3; VBytes (map z2b [0x66; 0x6f; 0x6f])],
              ok, Some i) /\
    ok = true.
Proof.
  destruct (copying_adaptor_session sample_script sample 5) as (ok & i & E & Hok);
    [done|by vm_compute|done|].
  exists ok, i. rewrite E, Hok. by split; vm_compute.
Defined.
