(* ===== verification/RepeatedField.v ===== *)
(** * RepeatedField

    [repeated_field.h]: the array of scalars behind a repeated field, on a
    64-bit machine. Small arrays live inside the object: the word that otherwise
    holds the pointer to the heap block holds the arena pointer with the size in
    its two low bits, and bit 2 tells the two layouts apart ([SooRep]). The
    elements are the list of the live ones; what lies between size and capacity
    is not modelled, only its length. *)

From S2P Require Import Prelude.

Definition kSooCapacityBytes : Z := 8.
Definition kSooPtrAlignment : Z := 8.
Definition kSooPtrMask : Z := u64 (Z.lnot (kSooPtrAlignment - 1)).
Definition kNotSooBit : Z := Z.shiftr kSooPtrAlignment 1.
Definition kSooSizeMask : Z := kNotSooBit - 1.

Definition SooCapacityElements (element_size : Z) : Z :=
  Z.min (kSooCapacityBytes / element_size) kSooSizeMask.

(** ** The representation word *)

Record SooRep := mk_soo {
  word : Z;
  long_size : Z;
  long_capacity : Z;
}.

Definition is_soo (r : SooRep) : bool := Z.land (word r) kNotSooBit =? 0.
Definition short_size (r : SooRep) : Z := Z.land (word r) kSooSizeMask.
Definition rep_size (r : SooRep) : Z := if is_soo r then short_size r else long_size r.
Definition soo_arena (r : SooRep) : option Z :=
  if is_soo r then Some (Z.land (word r) kSooPtrMask) else None.
Definition long_elements (r : SooRep) : Z := Z.land (word r) kSooPtrMask.

Definition set_size (r : SooRep) (size : Z) : option SooRep :=
  if is_soo r then
    if size <=? kSooSizeMask then
      Some (mk_soo (Z.lor (Z.land (word r) kSooPtrMask) size) (long_size r) (long_capacity r))
    else None
  else Some (mk_soo (word r) size (long_capacity r)).

Definition set_non_soo (r : SooRep) (capacity elements : Z) : option SooRep :=
  if (elements =? 0) || negb (elements mod kSooPtrAlignment =? 0) then None else
  Some (mk_soo (Z.lor elements kNotSooBit)
          (if is_soo r then short_size r else long_size r) capacity).

(** ** The container *)

Record t (A : Type) := mk {
  soo_rep_ : SooRep;
  elems : list A;
  heap_arena : Z;
}.
Arguments mk {A} _ _ _.
Arguments soo_rep_ {A} _.
Arguments elems {A} _.
Arguments heap_arena {A} _.

Section repeated_field.
(** The element type and its [sizeof]; [AllocateAtLeast] and the arena's
    allocator, which give an address and a number of bytes. *)
Context {A : Type} (esz : Z) (AllocateAtLeast : Z -> Z * Z) (ArenaAllocate : Z -> Z).
Notation RF := (M (t A)).
Implicit Type s : t A.

Definition kHeapRepHeaderSize : Z := Z.max esz 8.
Definition kSooCapacityElements : Z := SooCapacityElements esz.
Definition RepeatedFieldLowerClampLimit : Z := kHeapRepHeaderSize / esz.

Definition make (arena : Z) : t A := mk (mk_soo arena 0 0) [] 0.

Definition size s : Z := rep_size (soo_rep_ s).
Definition Capacity s : Z :=
  if is_soo (soo_rep_ s) then kSooCapacityElements else long_capacity (soo_rep_ s).
Definition GetArena s : Z :=
  if is_soo (soo_rep_ s) then Z.land (word (soo_rep_ s)) kSooPtrMask else heap_arena s.

(** [CalculateReserveSize]; [None] is the failed debug check. *)
Definition CalculateReserveSize (capacity new_size : Z) : option Z :=
  let lower_limit := RepeatedFieldLowerClampLimit in
  if new_size <? lower_limit then Some lower_limit else
  let kMaxSizeBeforeClamp := (INT_MAX - kHeapRepHeaderSize) / 2 in
  if kMaxSizeBeforeClamp <? capacity then Some INT_MAX else
  capacity ← (if (0 <? kSooCapacityElements) && (kSooCapacityElements <? lower_limit)
              then Some (if capacity <? lower_limit then 0 else capacity)
              else if (capacity =? 0) || (lower_limit <=? capacity)
                   then Some capacity else None);
  let doubled_size := 2 * capacity + kHeapRepHeaderSize / esz in
  Some (Z.max doubled_size new_size).

(** [GrowNoAnnotate]; copying or moving the elements keeps the list. *)
Definition Grow (new_size : Z) : RF unit := fun s =>
  let old_capacity := Capacity s in
  if new_size <=? old_capacity then None else
  let arena := GetArena s in
  new_size ← CalculateReserveSize old_capacity new_size;
  let bytes := kHeapRepHeaderSize + esz * new_size in
  '(new_size, elements) ←
    (if arena =? 0 then
       let '(p, n) := AllocateAtLeast bytes in
       Some (Z.min ((n - kHeapRepHeaderSize) / esz) INT_MAX, p + kHeapRepHeaderSize)
     else Some (new_size, ArenaAllocate bytes + kHeapRepHeaderSize));
  r ← set_non_soo (soo_rep_ s) new_size elements;
  Some (tt, mk r (elems s) arena).

Definition Reserve (new_size : Z) : RF unit := fun s =>
  if Capacity s <? new_size then Grow new_size s else Some (tt, s).

(** [ExchangeCurrentSize], and the elements the caller has put in place. *)
Definition ExchangeCurrentSize (new_size : Z) (l : list A) : RF unit := fun s =>
  if Capacity s <? new_size then None else
  r ← set_size (soo_rep_ s) new_size; Some (tt, mk r l (heap_arena s)).

Definition AddAlreadyReserved (value : A) : RF unit :=
  let* s := getS in
  if size s <? Capacity s then ExchangeCurrentSize (size s + 1) (elems s ++ [value])
  else undef.

Definition Add (value : A) : RF unit :=
  let* old_size := gets size in
  let* capacity := gets Capacity in
  (if old_size =? capacity then Grow (old_size + 1) else ret tt) ;;;
  let* s := getS in
  ExchangeCurrentSize (old_size + 1) (elems s ++ [value]).

(** [AddForwardIterator]; [AddInputIterator] sets the size once, at the end. *)
Definition AddForwardIterator (l : list A) : RF unit :=
  let* s := getS in
  let new_size := size s + zlen l in
  (if Capacity s <? new_size then Grow new_size else ret tt) ;;;
  ExchangeCurrentSize new_size (elems s ++ l).

(** The loop keeps [first - elem] in [n]; the size word is stale meanwhile,
    except that [GrowNoAnnotate] is told the real one. *)
Fixpoint AddInputIterator_loop (l : list A) (n : Z) : RF Z :=
  match l with
  | [] => ret n
  | v :: l =>
      let* capacity := gets Capacity in
      (if n =? capacity then Grow (n + 1) else ret tt) ;;;
      let* s := getS in
      putS (mk (soo_rep_ s) (elems s ++ [v]) (heap_arena s)) ;;;
      AddInputIterator_loop l (n + 1)
  end.
Definition AddInputIterator (l : list A) : RF unit :=
  let* n := gets size in
  let* new_size := AddInputIterator_loop l n in
  let* s := getS in
  ExchangeCurrentSize new_size (elems s).

Definition Truncate (new_size : Z) : RF unit :=
  let* s := getS in
  if size s <? new_size then undef
  else if new_size <? size s
  then ExchangeCurrentSize new_size (ztake new_size (elems s)) else ret tt.

Definition Resize (new_size : Z) (value : A) : RF unit :=
  if new_size <? 0 then undef else
  let* old_size := gets size in
  if old_size <? new_size then
    let* capacity := gets Capacity in
    (if capacity <? new_size then Grow new_size else ret tt) ;;;
    let* s := getS in
    ExchangeCurrentSize new_size
      (elems s ++ replicate (Z.to_nat (new_size - old_size)) value)
  else if new_size <? old_size then
    let* s := getS in
    ExchangeCurrentSize new_size (ztake new_size (elems s))
  else ret tt.

Definition Get (index : Z) : RF A := fun s =>
  if (0 <=? index) && (index <? size s)
  then v ← elems s !! Z.to_nat index; Some (v, s) else None.

Definition Set_ (index : Z) (value : A) : RF unit := fun s =>
  if (0 <=? index) && (index <? size s)
  then Some (tt, mk (soo_rep_ s) (<[Z.to_nat index := value]> (elems s)) (heap_arena s))
  else None.

Definition RemoveLast : RF unit :=
  let* s := getS in
  if 0 <? size s
  then ExchangeCurrentSize (size s - 1) (ztake (size s - 1) (elems s)) else undef.

Definition Clear : RF unit := ExchangeCurrentSize 0 [].

(** [for (int i = start + num; i < old_size; ++i) elem[i - num] = elem[i]],
    [n] rounds of it. *)
Fixpoint slide (n i num : nat) (l : list A) : option (list A) :=
  match n with
  | O => Some l
  | S n => v ← l !! i; slide n (S i) num (<[(i - num)%nat := v]> l)
  end.

(** The result is what is stored through [elements]. *)
Definition ExtractSubrange (start num : Z) : RF (list A) :=
  let* s := getS in
  if (start <? 0) || (num <? 0) || (size s <? start + num) then undef else
  let removed := ztake num (zdrop start (elems s)) in
  (if 0 <? num then
     let* l := (fun s => lift (slide (Z.to_nat (size s - (start + num)))
                                (Z.to_nat (start + num)) (Z.to_nat num) (elems s)) s) in
     putS (mk (soo_rep_ s) l (heap_arena s)) ;;;
     Truncate (size s - num)
   else ret tt) ;;;
  ret removed.

(** [erase(first, last)] by offsets: [std::copy] slides the tail down. *)
Definition erase (first last : Z) : RF unit :=
  if first =? last then ret tt else
  let* s := getS in
  let* l := (fun s => lift (slide (Z.to_nat (size s - last)) (Z.to_nat last)
                             (Z.to_nat (last - first)) (elems s)) s) in
  putS (mk (soo_rep_ s) l (heap_arena s)) ;;;
  Truncate (first + (size s - last)).

Definition SwapElements (index1 index2 : Z) : RF unit := fun s =>
  a ← elems s !! Z.to_nat index1; b ← elems s !! Z.to_nat index2;
  Some (tt, mk (soo_rep_ s)
    (<[Z.to_nat index2 := a]> (<[Z.to_nat index1 := b]> (elems s))) (heap_arena s)).

(** [other] is another object. *)
Definition MergeFrom (other : t A) : RF unit :=
  if size other =? 0 then ret tt else
  let* old_size := gets size in
  Reserve (old_size + size other) ;;;
  let* s := getS in
  ExchangeCurrentSize (old_size + size other) (elems s ++ elems other).

Definition CopyFrom (other : t A) : RF unit := Clear ;;; MergeFrom other.
Definition Assign (l : list A) : RF unit := Clear ;;; AddForwardIterator l.

(** [CanUseInternalSwap] of [arena.h]. *)
Definition CanUseInternalSwap (DebugHardenForceCopyInSwap : bool) (lhs rhs : Z) : bool :=
  if DebugHardenForceCopyInSwap then negb (lhs =? 0) && (lhs =? rhs) else lhs =? rhs.

(** The values of both objects after [a.Swap(&b)]. *)
Definition Swap (DebugHardenForceCopyInSwap : bool) (a b : t A) : option (t A * t A) :=
  if CanUseInternalSwap DebugHardenForceCopyInSwap (GetArena a) (GetArena b) then Some (b, a)
  else
    '(_, temp) ← MergeFrom a (make (GetArena b));
    '(_, a) ← CopyFrom b a;
    Some (a, temp).

Definition SpaceUsedExcludingSelfLong s : Z :=
  let capacity := Capacity s in
  if kSooCapacityElements <? capacity then capacity * esz + kHeapRepHeaderSize else 0.
End repeated_field.

(** ** Lemmas: the representation word *)

Lemma land_low_bits n k t : 0 <= k <= 3 -> 0 <= t < 2 ^ k -> Z.land (8 * n + t) (2 ^ k - 1) = t.
Proof.
  intros Hk Ht. replace (2 ^ k - 1) with (Z.ones k) by (rewrite Z.ones_equiv; lia).
  rewrite Z.land_ones by lia.
  replace (8 * n + t) with (t + (n * 2 ^ (3 - k)) * 2 ^ k); [rewrite Z.mod_add by lia; by apply Z.mod_small|].
  rewrite <- Z.mul_assoc, <- Z.pow_add_r by lia. replace (3 - k + k) with 3 by lia. lia.
Qed.

Lemma land_mask n t : 0 <= t < 8 -> 0 <= 8 * n + t < 2 ^ 64 -> Z.land (8 * n + t) kSooPtrMask = 8 * n.
Proof.
  intros Ht Hr. assert (Z.land (8 * n + t) kSooPtrMask = Z.land (8 * n + t) (Z.lnot (Z.ones 3))) as ->.
  { apply Z.bits_inj'. intros i Hi. rewrite !Z.land_spec. destruct (decide (i < 64)).
    - unfold kSooPtrMask, u64. rewrite Z.mod_pow2_bits_low by lia. done.
    - rewrite (Z.bits_above_log2 (8 * n + t)); [done|lia|].
      destruct (decide (8 * n + t = 0)) as [->|]; [simpl; lia|].
      apply Z.log2_lt_pow2; [lia|]. apply Z.lt_le_trans with (2 ^ 64); [lia|].
      apply Z.pow_le_mono_r; lia. }
  rewrite <- Z.ldiff_land, Z.ldiff_ones_r, Z.shiftl_mul_pow2, Z.shiftr_div_pow2 by lia.
  change (2 ^ 3) with 8. Z.div_mod_to_equations; lia.
Qed.

Lemma is_soo_short n t sz cap : 0 <= t <= 3 -> is_soo (mk_soo (8 * n + t) sz cap) = true.
Proof.
  intros Ht. unfold is_soo; simpl. apply Z.eqb_eq. change kNotSooBit with (2 ^ 2).
  apply Z.bits_inj'. intros i Hi. rewrite Z.land_spec, Z.bits_0, Z.pow2_bits_eqb by lia.
  destruct (Z.eqb_spec 2 i) as [<-|]; [|by rewrite andb_false_r].
  rewrite andb_true_r, Z.testbit_eqb by lia. apply Z.eqb_neq. change (2 ^ 2) with 4.
  Z.div_mod_to_equations; lia.
Qed.

Lemma is_soo_long n sz cap : is_soo (mk_soo (8 * n + 4) sz cap) = false.
Proof.
  unfold is_soo; simpl. apply Z.eqb_neq. change kNotSooBit with (2 ^ 2). intros E.
  apply (f_equal (fun z => Z.testbit z 2)) in E. cbv beta in E.
  rewrite Z.land_spec, Z.pow2_bits_eqb, Z.bits_0, Z.eqb_refl in E by lia.
  rewrite andb_true_r, Z.testbit_eqb in E by lia. apply Z.eqb_neq in E.
  change (2 ^ 2) with 4 in E. Z.div_mod_to_equations; lia.
Qed.

(** ** Invariant and operations *)

Section invariant.
Context {A : Type} (esz : Z) (AllocateAtLeast : Z -> Z * Z) (ArenaAllocate : Z -> Z).
Implicit Type s : t A.

Definition address (p : Z) : Prop := 0 < p < 2 ^ 63 /\ p mod 8 = 0.

Hypothesis esz_ok : esz = 1 \/ esz = 4 \/ esz = 8 \/ esz = 16.
Hypothesis alloc_ok : forall bytes,
  address (fst (AllocateAtLeast bytes)) /\ bytes <= snd (AllocateAtLeast bytes).
Hypothesis arena_ok : forall bytes, address (ArenaAllocate bytes).

Notation lower_limit := (RepeatedFieldLowerClampLimit esz).
Notation header := (kHeapRepHeaderSize esz).
Notation soo_capacity := (kSooCapacityElements esz).

Ltac esz_cases :=
  unfold RepeatedFieldLowerClampLimit, kSooCapacityElements, SooCapacityElements,
    kHeapRepHeaderSize in *;
  change kSooCapacityBytes with 8 in *; change kSooSizeMask with 3 in *;
  destruct esz_ok as [-> | [-> | [-> | ->]]].

Lemma soo_capacity_bounds : 0 <= soo_capacity <= 3.
Proof. esz_cases; cbv -[Z.le]; lia. Qed.
Lemma lower_limit_bounds : 1 <= lower_limit <= 8 /\ soo_capacity <= lower_limit.
Proof. esz_cases; cbv -[Z.le]; lia. Qed.

Definition arena_pointer (a : Z) : Prop := a mod 8 = 0 /\ 0 <= a < 2 ^ 63.

(** Inside the object, or on the heap. *)
Definition wf_short s : Prop :=
  exists a k, soo_rep_ s = mk_soo (8 * a + k) (long_size (soo_rep_ s))
                             (long_capacity (soo_rep_ s)) /\
    0 <= 8 * a < 2 ^ 63 /\ k = zlen (elems s) /\ k <= soo_capacity.
Definition wf_long s : Prop :=
  exists p cap, soo_rep_ s = mk_soo (8 * p + 4) (zlen (elems s)) cap /\
    0 <= 8 * p < 2 ^ 64 - 8 /\ zlen (elems s) <= cap <= INT_MAX /\ lower_limit <= cap /\
    arena_pointer (heap_arena s).
Definition wf s : Prop := wf_short s \/ wf_long s.

Lemma wf_size s : wf s -> size s = zlen (elems s).
Proof.
  intros [(a & k & E & Ha & Hk & Hc)|(p & cap & E & Hp & Hc & _)]; unfold size, rep_size;
    rewrite E; pose proof soo_capacity_bounds.
  - rewrite is_soo_short by zl. unfold short_size; simpl.
    change kSooSizeMask with (2 ^ 2 - 1). rewrite land_low_bits; [done|lia|]. subst. zl.
  - by rewrite is_soo_long.
Qed.

Lemma wf_capacity s : wf s -> size s <= Capacity esz s <= INT_MAX.
Proof.
  intros Hwf. rewrite (wf_size s Hwf). pose proof soo_capacity_bounds.
  destruct Hwf as [(a & k & E & Ha & Hk & Hc)|(p & cap & E & Hp & Hc & _)];
    unfold Capacity; rewrite E.
  - rewrite is_soo_short by zl. unfold INT_MAX. lia.
  - by rewrite is_soo_long.
Qed.

Lemma wf_arena s : wf s -> arena_pointer (GetArena s).
Proof.
  pose proof soo_capacity_bounds.
  intros [(a & k & E & Ha & Hk & Hc)|(p & cap & E & Hp & Hc & _ & Har)];
    unfold GetArena; rewrite E.
  - rewrite is_soo_short by zl. simpl. rewrite land_mask by zl. unfold arena_pointer.
    split; [|done]. Z.div_mod_to_equations; lia.
  - by rewrite is_soo_long.
Qed.

Lemma repeated_make_wf arena : arena_pointer arena -> wf (make arena).
Proof.
  intros [Hm Hr]. left. exists (arena / 8), 0. pose proof soo_capacity_bounds. simpl.
  split_and!; try lia; try done; Z.div_mod_to_equations; repeat f_equal; lia.
Qed.

Lemma GetArena_make (a : Z) : arena_pointer a -> GetArena (A := A) (make a) = a.
Proof.
  intros [Hm Hr]. assert (exists q, a = 8 * q) as [q ->].
  { exists (a / 8). Z.div_mod_to_equations; lia. }
  pose proof (is_soo_short q 0 0 0 ltac:(lia)) as H1.
  pose proof (land_mask q 0 ltac:(lia) ltac:(lia)) as H2. rewrite Z.add_0_r in *.
  unfold GetArena, make; simpl. by rewrite H1.
Qed.

(** What every operation keeps. *)
Definition step (l : list A) s s' : Prop :=
  wf s' /\ elems s' = l /\ GetArena s' = GetArena s /\ Capacity esz s <= Capacity esz s'.

Lemma exchange_wp n l s :
  wf s -> zlen l = n -> n <= Capacity esz s ->
  wp (ExchangeCurrentSize esz n l) s (fun _ s' =>
    step l s s' /\ Capacity esz s' = Capacity esz s).
Proof.
  intros Hwf Hl Hn. unfold wp, ExchangeCurrentSize. destruct (Z.ltb_spec (Capacity esz s) n); [lia|].
  pose proof soo_capacity_bounds. pose proof (zlen_nonneg l).
  pose proof Hwf as [(a & k & E & Ha & Hk & Hc)|(p & cap & E & Hp & Hc & Hlow & Har)];
    unfold set_size, step, wf in *; unfold Capacity, GetArena in *; rewrite E in *.
  - rewrite is_soo_short in * by zl. change kSooSizeMask with 3.
    destruct (Z.leb_spec n 3); [|lia]. simpl. pose proof (zlen_nonneg (elems s)).
    rewrite land_mask, lor_8 by lia. rewrite is_soo_short by lia. simpl.
    rewrite !land_mask by lia.
    split_and!; try done; try lia. left. exists a, n. simpl. split_and!; try done; lia.
  - rewrite is_soo_long in *. simpl in *. rewrite is_soo_long.
    split_and!; try done; try lia. right. exists p, cap. simpl. rewrite Hl. split_and!; done || lia.
Qed.

Lemma reserve_size_bounds capacity new_size r :
  CalculateReserveSize esz capacity new_size = Some r ->
  0 <= capacity < new_size -> new_size <= INT_MAX -> new_size <= r <= INT_MAX /\ lower_limit <= r.
Proof.
  intros E Hc Hn. unfold CalculateReserveSize in E. revert E.
  destruct (Z.ltb_spec new_size lower_limit).
  { intros [= <-]. pose proof lower_limit_bounds. unfold INT_MAX in *. lia. }
  destruct (Z.ltb_spec ((INT_MAX - header) / 2) capacity); [intros [= <-]; lia|].
  intros E. apply bind_Some in E as (c & Ec & [= <-]).
  assert (0 <= c <= capacity) as Hcc by (repeat case_match; simplify_eq; lia).
  assert (2 * c + header / esz <= INT_MAX); [|lia].
  unfold INT_MAX in *. clear Ec Hn. esz_cases; simpl in *; Z.div_mod_to_equations; lia.
Qed.

Lemma reserve_size_some s new_size :
  wf s -> Capacity esz s < new_size ->
  exists r, CalculateReserveSize esz (Capacity esz s) new_size = Some r.
Proof.
  intros Hwf Hn. unfold CalculateReserveSize. case_match; [by eauto|]. case_match; [by eauto|].
  destruct ((0 <? soo_capacity) && (soo_capacity <? lower_limit)) eqn:E; [by eauto|].
  assert ((Capacity esz s =? 0) || (lower_limit <=? Capacity esz s) = true) as ->; [|by eauto].
  destruct Hwf as [(a & k & Er & Ha & Hk & Hc)|(p & cap & Er & Hp & Hc & Hlow & _)];
    unfold Capacity; rewrite Er; pose proof soo_capacity_bounds.
  - rewrite is_soo_short by zl. esz_cases; simpl in *; done.
  - rewrite is_soo_long. simpl. apply orb_true_iff. right. by apply Z.leb_le.
Qed.

Lemma grow_wp n s :
  wf s -> Capacity esz s < n <= INT_MAX ->
  wp (Grow esz AllocateAtLeast ArenaAllocate n) s (fun _ s' =>
    step (elems s) s s' /\ n <= Capacity esz s' /\ size s' = size s).
Proof.
  intros Hwf [Hn Hmax]. unfold wp, Grow. destruct (Z.leb_spec n (Capacity esz s)); [lia|].
  destruct (reserve_size_some s n Hwf Hn) as [r Er]. rewrite Er. cbn [mbind option_bind].
  pose proof (wf_capacity s Hwf) as Hcap. pose proof (wf_size s Hwf) as Hsz.
  pose proof (zlen_nonneg (elems s)).
  destruct (reserve_size_bounds _ _ _ Er) as [Hr Hlow]; [lia|done|].
  pose proof (wf_arena s Hwf) as Harena. set (arena := GetArena s) in *.
  set (bytes := header + esz * r).
  assert (exists cap p, (if arena =? 0
    then let '(p, n) := AllocateAtLeast bytes in
         Some (Z.min ((n - header) / esz) INT_MAX, p + header)
    else Some (r, ArenaAllocate bytes + header)) = Some (cap, 8 * p)
    /\ r <= cap <= INT_MAX /\ 0 < 8 * p < 2 ^ 64 - 8) as (cap & p & E & Hc & Hp).
  { assert (forall q, address q -> exists p, q + header = 8 * p /\ 0 < 8 * p < 2 ^ 64 - 8) as Hal.
    { intros q [Hq Hm]. assert (header = 8 \/ header = 16) as Hh
        by (clear -esz_ok; esz_cases; cbv; auto).
      exists ((q + header) / 8). zify_pow.
      destruct Hh as [-> | ->]; Z.div_mod_to_equations; lia. }
    destruct (Z.eqb_spec arena 0).
    - destruct (alloc_ok bytes) as [Ha Hn2]. destruct (AllocateAtLeast bytes) as [q m].
      simpl in *. destruct (Hal q Ha) as (p & Ep & ?).
      exists (Z.min ((m - header) / esz) INT_MAX), p. rewrite Ep.
      assert (r <= (m - header) / esz).
      { apply Z.div_le_lower_bound; [clear -esz_ok; esz_cases; lia|]. unfold bytes in Hn2. lia. }
      split_and!; done || lia.
    - destruct (Hal _ (arena_ok bytes)) as (p & Ep & ?). exists r, p. rewrite Ep.
      split_and!; done || lia. }
  rewrite E. cbn [mbind option_bind]. unfold set_non_soo. change kSooPtrAlignment with 8.
  destruct (Z.eqb_spec (8 * p) 0); [lia|]. rewrite (Z.mul_comm 8 p), Z.mod_mul by lia. simpl.
  rewrite (Z.mul_comm p 8). change kNotSooBit with 4. rewrite lor_8 by lia.
  assert ((if is_soo (soo_rep_ s) then short_size (soo_rep_ s) else long_size (soo_rep_ s))
    = zlen (elems s)) as -> by (rewrite <- Hsz; done).
  unfold step, size, rep_size, GetArena, Capacity at 2 3; simpl. rewrite !is_soo_long. simpl.
  split_and!; try done; try lia. right. exists p, cap. split_and!; try done; simpl; lia.
Qed.

Ltac step_trans := unfold step in *; naive_solver lia.

Lemma reserve_wp n s :
  wf s -> n <= INT_MAX ->
  wp (Reserve esz AllocateAtLeast ArenaAllocate n) s (fun _ s' =>
    step (elems s) s s' /\ n <= Capacity esz s').
Proof.
  intros Hwf Hn. unfold wp, Reserve. destruct (Z.ltb_spec (Capacity esz s) n).
  - pose proof (grow_wp n s Hwf ltac:(lia)) as Hg. eapply wp_mono; [exact Hg|].
    intros [] s' (? & ? & _). done.
  - split_and!; done || lia.
Qed.

(** Make room for [n] elements if they do not fit, then set the size. *)
Lemma grow_exchange_wp n l s :
  wf s -> zlen (elems s ++ l) = n -> n <= INT_MAX ->
  wp ((if Capacity esz s <? n then Grow esz AllocateAtLeast ArenaAllocate n else ret tt) ;;;
      let* s := getS in ExchangeCurrentSize esz n (elems s ++ l)) s
    (fun _ s' => step (elems s ++ l) s s').
Proof.
  intros Hwf Hl Hn. wp_step.
  assert (wp (if Capacity esz s <? n then Grow esz AllocateAtLeast ArenaAllocate n
              else ret tt) s (fun _ s' => step (elems s) s s' /\ n <= Capacity esz s')) as Hg.
  { destruct (Z.ltb_spec (Capacity esz s) n).
    - wp_use grow_wp; [done|lia|]. intros [] s' (? & ? & _). done.
    - wp_steps. split_and!; done || lia. }
  wp_use Hg. intros [] s1 [(Hwf1 & E1 & Ha1 & Hc1) Hn1]. wp_steps. rewrite E1.
  wp_use exchange_wp; [done|done|done|]. intros [] s2 [(Hwf2 & E2 & Ha2 & Hc2) _].
  split_and!; [done..|congruence|lia].
Qed.

Lemma add_wp v s :
  wf s -> size s < INT_MAX ->
  wp (Add esz AllocateAtLeast ArenaAllocate v) s (fun _ s' => step (elems s ++ [v]) s s').
Proof.
  intros Hwf Hlt. pose proof (wf_size s Hwf) as Hsz. pose proof (wf_capacity s Hwf).
  pose proof (grow_exchange_wp (size s + 1) [v] s Hwf) as Hg.
  unfold Add. do 2 apply wp_bind, wp_gets.
  assert ((Capacity esz s <? size s + 1) = (size s =? Capacity esz s)) as E
    by (case_cmp; lia || done).
  rewrite E in Hg. apply Hg; [rewrite Hsz; zl|lia].
Qed.

Lemma forward_wp l s :
  wf s -> size s + zlen l <= INT_MAX ->
  wp (AddForwardIterator esz AllocateAtLeast ArenaAllocate l) s
    (fun _ s' => step (elems s ++ l) s s').
Proof.
  intros Hwf Hlt. pose proof (wf_size s Hwf) as Hsz.
  pose proof (grow_exchange_wp (size s + zlen l) l s Hwf ltac:(zl) ltac:(lia)) as Hg.
  unfold AddForwardIterator. wp_step. wp_step. revert Hg. unfold wp, mbind_, getS.
  destruct (Capacity esz s <? size s + zlen l).
  - destruct (Grow _ _ _ _ s) as [[[] s1]|] eqn:Eg; [|done].
    assert (elems s1 = elems s) as ->; [|done].
    unfold Grow in Eg. repeat (case_match; simplify_option_eq); done.
  - done.
Qed.

Lemma truncate_wp n s :
  wf s -> 0 <= n <= size s ->
  wp (Truncate esz n) s (fun _ s' => step (ztake n (elems s)) s s').
Proof.
  intros Hwf Hn. pose proof (wf_size s Hwf) as Hsz. pose proof (wf_capacity s Hwf).
  unfold Truncate. wp_steps. destruct (Z.ltb_spec (size s) n); [lia|].
  destruct (Z.ltb_spec n (size s)).
  - wp_use exchange_wp; [done|zl|lia|]. intros [] s' [? _]. done.
  - wp_steps. rewrite ztake_all by lia. split_and!; done || lia.
Qed.

Lemma resize_wp n v s :
  wf s -> 0 <= n <= INT_MAX ->
  wp (Resize esz AllocateAtLeast ArenaAllocate n v) s (fun _ s' =>
    step (ztake n (elems s) ++ replicate (Z.to_nat (n - size s)) v) s s').
Proof.
  intros Hwf Hn. pose proof (wf_size s Hwf) as Hsz. pose proof (wf_capacity s Hwf).
  unfold Resize. destruct (Z.ltb_spec n 0); [lia|]. wp_step. wp_step.
  destruct (Z.ltb_spec (size s) n).
  - wp_step. wp_step. rewrite ztake_all by lia.
    apply (grow_exchange_wp n (replicate (Z.to_nat (n - size s)) v)); [done| |lia].
    rewrite zlen_app. unfold zlen at 2. rewrite length_replicate. lia.
  - replace (Z.to_nat (n - size s)) with O by lia. simpl. rewrite app_nil_r.
    destruct (Z.ltb_spec n (size s)).
    + wp_steps. wp_use exchange_wp; [done|zl|lia|]. intros [] s' [? _]. done.
    + wp_steps. rewrite ztake_all by lia. split_and!; done || lia.
Qed.

Lemma remove_last_wp s :
  wf s -> elems s <> [] ->
  wp (RemoveLast esz) s (fun _ s' => step (ztake (size s - 1) (elems s)) s s').
Proof.
  intros Hwf Hne. pose proof (wf_size s Hwf) as Hsz. pose proof (wf_capacity s Hwf).
  unfold RemoveLast. wp_steps. destruct (Z.ltb_spec 0 (size s)).
  - wp_use exchange_wp; [done|zl|lia|]. intros [] s' [? _]. done.
  - destruct (elems s); [done|zl].
Qed.

Lemma clear_wp s : wf s -> wp (Clear esz) s (fun _ s' => step [] s s').
Proof.
  intros Hwf. pose proof (wf_size s Hwf). pose proof (wf_capacity s Hwf).
  pose proof (zlen_nonneg (elems s)).
  unfold Clear. wp_use exchange_wp; [done|done|lia|]. intros [] s' [? _]. done.
Qed.

(** *** Sliding elements down *)

Lemma slide_spec n i num (l : list A) :
  (1 <= num <= i)%nat -> (i + n = length l)%nat ->
  exists l', slide n i num l = Some l' /\ length l' = length l /\
             take (length l - num) l' = take (i - num) l ++ drop i l.
Proof.
  revert i l. induction n as [|n IH]; intros i l Hnum Hlen; simpl.
  { exists l. split_and!; [done..|]. rewrite drop_ge, app_nil_r by lia. f_equal. lia. }
  destruct (lookup_lt_is_Some_2 l i ltac:(lia)) as [v Hv]. rewrite Hv. simpl.
  destruct (IH (S i) (<[(i - num)%nat := v]> l)) as (l' & E & El & Et);
    [lia|rewrite length_insert; lia|].
  rewrite length_insert in *. exists l'. split_and!; [done..|]. rewrite Et.
  replace (S i - num)%nat with (S (i - num)) by lia.
  rewrite (take_S_r _ _ v) by (apply list_lookup_insert_eq; lia).
  rewrite take_insert_ge, drop_insert_lt by lia. rewrite <- app_assoc. simpl.
  f_equal. by rewrite <- drop_S.
Qed.

(** A state whose elements were moved in place keeps the invariant. *)
Lemma same_length_wf s l :
  wf s -> length l = length (elems s) -> wf (mk (soo_rep_ s) l (heap_arena s)).
Proof.
  intros Hwf Hl. assert (zlen l = zlen (elems s)) as El by (unfold zlen; lia).
  destruct Hwf as [(a & k & E & ?)|(p & cap & E & ?)].
  - left. exists a, k. simpl. by rewrite El.
  - right. exists p, cap. simpl. by rewrite El.
Qed.

Lemma slide_truncate_wp start num s :
  wf s -> 0 <= start -> 0 < num -> start + num <= size s ->
  wp (let* l := (fun s => lift (slide (Z.to_nat (size s - (start + num)))
                                (Z.to_nat (start + num)) (Z.to_nat num) (elems s)) s) in
      putS (mk (soo_rep_ s) l (heap_arena s)) ;;; Truncate esz (size s - num)) s
    (fun _ s' => step (ztake start (elems s) ++ zdrop (start + num) (elems s)) s s').
Proof.
  intros Hwf Hs Hn Hle. pose proof (wf_size s Hwf) as Hsz.
  destruct (slide_spec (Z.to_nat (size s - (start + num))) (Z.to_nat (start + num))
    (Z.to_nat num) (elems s)) as (l & E & El & Et); [lia|unfold zlen in *; lia|].
  wp_step. unfold wp at 1, lift. rewrite E. wp_step. unfold wp at 1, putS.
  pose proof (same_length_wf s l Hwf El) as Hwf'.
  wp_use truncate_wp; [done|unfold size in *; simpl in *; lia|].
  intros [] s' (H1 & H2 & H3 & H4). simpl in *. split_and!; [done| |done|done].
  rewrite H2. unfold ztake, zdrop. unfold zlen in *.
  replace (Z.to_nat (size s - num)) with (length (elems s) - Z.to_nat num)%nat by lia.
  rewrite Et. f_equal. f_equal. lia.
Qed.

Lemma extract_wp start num s :
  wf s -> 0 <= start -> 0 <= num -> start + num <= size s ->
  wp (ExtractSubrange esz start num) s (fun r s' =>
    r = ztake num (zdrop start (elems s)) /\
    step (ztake start (elems s) ++ zdrop (start + num) (elems s)) s s').
Proof.
  intros Hwf Hs Hn Hle. unfold ExtractSubrange. wp_step. wp_step.
  destruct (Z.ltb_spec start 0), (Z.ltb_spec num 0), (Z.ltb_spec (size s) (start + num));
    try lia. simpl. wp_step. destruct (Z.ltb_spec 0 num).
  - wp_use slide_truncate_wp; [done|done|done|done|]. intros [] s' ?. wp_steps. done.
  - wp_steps. split; [done|]. replace (start + num) with start by lia.
    rewrite ztake_zdrop. split_and!; done || lia.
Qed.

Lemma erase_wp first last s :
  wf s -> 0 <= first <= last -> last <= size s ->
  wp (erase esz first last) s (fun _ s' =>
    step (ztake first (elems s) ++ zdrop last (elems s)) s s').
Proof.
  intros Hwf Hs Hle. unfold erase. destruct (Z.eqb_spec first last) as [<-|].
  - wp_steps. rewrite ztake_zdrop. split_and!; done || lia.
  - pose proof (slide_truncate_wp first (last - first) s Hwf ltac:(lia) ltac:(lia) ltac:(lia))
      as H. replace (first + (last - first)) with last in H by lia.
    replace (size s - (last - first)) with (first + (size s - last)) in H by lia.
    wp_step. wp_step. exact H.
Qed.

Lemma set_wp i v s :
  wf s -> 0 <= i < size s ->
  wp (Set_ i v) s (fun _ s' => step (<[Z.to_nat i := v]> (elems s)) s s').
Proof.
  intros Hwf Hi. unfold wp, Set_. destruct (Z.leb_spec 0 i), (Z.ltb_spec i (size s)); try lia.
  simpl. split_and!; [|done|done|done]. apply same_length_wf; [done|].
  by rewrite length_insert.
Qed.

Lemma get_wp i s :
  wf s -> 0 <= i < size s ->
  wp (Get i) s (fun v s' => elems s !! Z.to_nat i = Some v /\ s' = s).
Proof.
  intros Hwf Hi. pose proof (wf_size s Hwf). unfold wp, Get.
  destruct (Z.leb_spec 0 i), (Z.ltb_spec i (size s)); try lia. simpl.
  destruct (lookup_lt_is_Some_2 (elems s) (Z.to_nat i)) as [v Hv]; [unfold zlen in *; lia|].
  rewrite Hv. done.
Qed.

Lemma swap_elements_wp i j s :
  wf s -> 0 <= i < size s -> 0 <= j < size s ->
  wp (SwapElements i j) s (fun _ s' => exists a b,
    elems s !! Z.to_nat i = Some a /\ elems s !! Z.to_nat j = Some b /\
    step (<[Z.to_nat j := a]> (<[Z.to_nat i := b]> (elems s))) s s').
Proof.
  intros Hwf Hi Hj. pose proof (wf_size s Hwf). unfold wp, SwapElements.
  destruct (lookup_lt_is_Some_2 (elems s) (Z.to_nat i)) as [a Ha]; [unfold zlen in *; lia|].
  destruct (lookup_lt_is_Some_2 (elems s) (Z.to_nat j)) as [b Hb]; [unfold zlen in *; lia|].
  rewrite Ha, Hb. simpl. exists a, b. split_and!; [done|done|]. split_and!; [|done..].
  apply same_length_wf; [done|]. by rewrite !length_insert.
Qed.

(** *** Two containers *)

Lemma merge_wp other s :
  wf s -> wf other -> size s + size other <= INT_MAX ->
  wp (MergeFrom esz AllocateAtLeast ArenaAllocate other) s (fun _ s' =>
    step (elems s ++ elems other) s s').
Proof.
  intros Hwf Ho Hle. pose proof (wf_size s Hwf) as Hs. pose proof (wf_size other Ho) as Hos.
  unfold MergeFrom. destruct (Z.eqb_spec (size other) 0).
  - wp_steps. rewrite (zlen_0 (elems other)), app_nil_r by lia. split_and!; done || lia.
  - wp_step. wp_step. wp_step. wp_use reserve_wp; [done|lia|].
    intros [] s1 [(Hwf1 & E1 & Ha1 & Hc1) Hn1]. wp_steps. rewrite E1.
    wp_use exchange_wp; [done|zl|done|]. intros [] s2 [(Hwf2 & E2 & Ha2 & Hc2) _].
    split_and!; [done..|congruence|lia].
Qed.

Lemma copy_from_wp other s :
  wf s -> wf other ->
  wp (CopyFrom esz AllocateAtLeast ArenaAllocate other) s (fun _ s' =>
    step (elems other) s s').
Proof.
  intros Hwf Ho. unfold CopyFrom. wp_step. wp_use clear_wp; [done|].
  intros [] s1 (Hwf1 & E1 & Ha1 & Hc1). pose proof (wf_size s1 Hwf1) as Hs1.
  rewrite E1 in Hs1. change (zlen []) with 0 in Hs1. pose proof (wf_capacity other Ho).
  wp_use merge_wp; [done|done|lia|]. intros [] s2 (Hwf2 & E2 & Ha2 & Hc2).
  rewrite E1 in E2. split_and!; [done|done|congruence|lia].
Qed.

(** *** Input iterators *)

(** The state inside [AddInputIterator]: the size word is stale. *)
Definition loose s : Prop :=
  zlen (elems s) <= Capacity esz s /\
  exists l, wf (mk (soo_rep_ s) l (heap_arena s)).

Lemma loose_grow n s :
  loose s -> Capacity esz s < n <= INT_MAX ->
  wp (Grow esz AllocateAtLeast ArenaAllocate n) s (fun _ s' =>
    loose s' /\ elems s' = elems s /\ GetArena s' = GetArena s /\ n <= Capacity esz s').
Proof.
  intros [Hl [l Hwf]] Hn. pose proof (grow_wp n _ Hwf Hn) as Hg. revert Hg.
  unfold wp, Grow, Capacity, GetArena; simpl.
  set (cap := if is_soo (soo_rep_ s) then _ else _) in *.
  assert (cap = Capacity esz s) as Ecap by done.
  destruct (n <=? cap); [done|]. destruct (CalculateReserveSize esz cap n) as [r|]; [|done].
  simpl. set (arena := if is_soo (soo_rep_ s) then _ else _).
  destruct (if arena =? 0 then _ else _) as [[c p]|]; [|done]. simpl.
  destruct (set_non_soo (soo_rep_ s) c p) as [rep|]; [|done]. simpl.
  intros ((Hwf' & _ & Ha & _) & Hcap & _). split_and!; [split|done|done|done].
  - unfold Capacity in *; simpl in *. lia.
  - by exists l.
Qed.

Lemma input_loop_wp l s n :
  loose s -> n = zlen (elems s) -> n + zlen l <= INT_MAX ->
  wp (AddInputIterator_loop esz AllocateAtLeast ArenaAllocate l n) s (fun m s' =>
    loose s' /\ elems s' = elems s ++ l /\ m = n + zlen l /\ GetArena s' = GetArena s /\
    Capacity esz s <= Capacity esz s').
Proof.
  revert s n. induction l as [|v l IH]; intros s n Hs Hn Hle; simpl.
  { wp_steps. rewrite app_nil_r. split_and!; try done. zl. }
  autorewrite with zlen in Hle. pose proof (zlen_nonneg l). pose proof Hs as [Hcap [l0 Hwf0]].
  do 2 wp_step. wp_step.
  assert (wp (if n =? Capacity esz s then Grow esz AllocateAtLeast ArenaAllocate (n + 1)
              else ret tt) s
    (fun _ s' => loose s' /\ elems s' = elems s /\ GetArena s' = GetArena s /\
       n + 1 <= Capacity esz s' /\ Capacity esz s <= Capacity esz s')) as Hg.
  { destruct (Z.eqb_spec n (Capacity esz s)) as [E|].
    - wp_use loose_grow; [done|lia|]. intros [] s' (? & ? & ? & ?). split_and!; done || lia.
    - wp_steps. split_and!; try done; lia. }
  wp_use Hg. intros [] s1 (Hs1 & E1 & Ha1 & Hc1 & Hc1'). wp_steps.
  unfold wp at 1, putS. destruct Hs1 as [Hl1 [l1 Hwf1]].
  wp_use IH; [|simpl; rewrite E1; zl|lia|].
  - split; [|by exists l1]. unfold Capacity in *; simpl in *. rewrite E1. zl.
  - simpl. intros m s2 (Hs2 & E2 & -> & Ha2 & Hc2). rewrite E2, E1, <- app_assoc.
    split_and!; try done; [zl|by transitivity (GetArena s1)|].
    unfold Capacity in *; simpl in *. lia.
Qed.

Lemma input_wp l s :
  wf s -> size s + zlen l <= INT_MAX ->
  wp (AddInputIterator esz AllocateAtLeast ArenaAllocate l) s
    (fun _ s' => step (elems s ++ l) s s').
Proof.
  intros Hwf Hle. pose proof (wf_size s Hwf) as Hsz. pose proof (wf_capacity s Hwf).
  unfold AddInputIterator. do 3 wp_step.
  wp_use input_loop_wp; [|done|done|].
  { split; [lia|]. exists (elems s). by destruct s. }
  intros m s1 ([Hl1 [l1 Hwf1]] & E1 & -> & Ha1 & Hc1). wp_steps.
  pose proof (exchange_wp (size s + zlen l) (elems s1) _ Hwf1) as He.
  unfold wp, ExchangeCurrentSize, Capacity in *; simpl in *.
  assert (zlen (elems s1) = size s + zlen l) as El by (rewrite E1; zl).
  specialize (He El ltac:(lia)).
  destruct (_ <? _); [done|]. destruct (set_size _ _) as [r|]; [|done]. simpl in *.
  destruct He as [(Hwf' & _ & Ha & Hc) Hcap]. unfold step, Capacity, GetArena in *; simpl in *.
  split_and!; [done|done|congruence|lia].
Qed.
End invariant.

(** ** Scripts of operations *)

Inductive rop (A : Type) :=
  | RAdd (v : A)
  | RAddForward (l : list A)
  | RAddInput (l : list A)
  | RReserve (n : Z)
  | RResize (n : Z) (v : A)
  | RTruncate (n : Z)
  | RRemoveLast
  | RExtractSubrange (start num : Z)
  | RErase (first last : Z)
  | RSet (i : Z) (v : A)
  | RSwapElements (i j : Z)
  | RMergeFrom (other : t A)
  | RCopyFrom (other : t A)
  | RClear.
Arguments RAdd {A} _.
Arguments RAddForward {A} _.
Arguments RAddInput {A} _.
Arguments RReserve {A} _.
Arguments RResize {A} _ _.
Arguments RTruncate {A} _.
Arguments RRemoveLast {A}.
Arguments RExtractSubrange {A} _ _.
Arguments RErase {A} _ _.
Arguments RSet {A} _ _.
Arguments RSwapElements {A} _ _.
Arguments RMergeFrom {A} _.
Arguments RCopyFrom {A} _.
Arguments RClear {A}.

(** What each does to a list; [None] where the caller breaks its contract or the
    list would get longer than [INT_MAX]. *)
Definition rspec {A} (o : rop A) (l : list A) : option (list A) :=
  let check (b : bool) (r : list A) := if b then Some r else None in
  let fits (r : list A) := check (zlen r <=? INT_MAX) r in
  match o with
  | RAdd v => fits (l ++ [v])
  | RAddForward k | RAddInput k => fits (l ++ k)
  | RReserve n => check (n <=? INT_MAX) l
  | RResize n v =>
      check ((0 <=? n) && (n <=? INT_MAX))
        (ztake n l ++ replicate (Z.to_nat (n - zlen l)) v)
  | RTruncate n => check ((0 <=? n) && (n <=? zlen l)) (ztake n l)
  | RRemoveLast => check (0 <? zlen l) (ztake (zlen l - 1) l)
  | RExtractSubrange start num =>
      check ((0 <=? start) && (0 <=? num) && (start + num <=? zlen l))
        (ztake start l ++ zdrop (start + num) l)
  | RErase first last =>
      check ((0 <=? first) && (first <=? last) && (last <=? zlen l))
        (ztake first l ++ zdrop last l)
  | RSet i v => check ((0 <=? i) && (i <? zlen l)) (<[Z.to_nat i := v]> l)
  | RSwapElements i j =>
      a ← l !! Z.to_nat i; b ← l !! Z.to_nat j;
      check ((0 <=? i) && (0 <=? j)) (<[Z.to_nat j := a]> (<[Z.to_nat i := b]> l))
  | RMergeFrom other => fits (l ++ elems other)
  | RCopyFrom other => Some (elems other)
  | RClear => Some []
  end.

Section scripts.
Context {A : Type} (esz : Z) (AllocateAtLeast : Z -> Z * Z) (ArenaAllocate : Z -> Z).

Definition rrun (o : rop A) : M (t A) unit :=
  match o with
  | RAdd v => Add esz AllocateAtLeast ArenaAllocate v
  | RAddForward l => AddForwardIterator esz AllocateAtLeast ArenaAllocate l
  | RAddInput l => AddInputIterator esz AllocateAtLeast ArenaAllocate l
  | RReserve n => Reserve esz AllocateAtLeast ArenaAllocate n
  | RResize n v => Resize esz AllocateAtLeast ArenaAllocate n v
  | RTruncate n => Truncate esz n
  | RRemoveLast => RemoveLast esz
  | RExtractSubrange start num => ExtractSubrange esz start num ;;; ret tt
  | RErase first last => erase esz first last
  | RSet i v => Set_ i v
  | RSwapElements i j => SwapElements i j
  | RMergeFrom other => MergeFrom esz AllocateAtLeast ArenaAllocate other
  | RCopyFrom other => CopyFrom esz AllocateAtLeast ArenaAllocate other
  | RClear => Clear esz
  end.

Fixpoint rruns (ops : list (rop A)) : M (t A) unit :=
  match ops with
  | [] => ret tt
  | o :: ops => rrun o ;;; rruns ops
  end.

Fixpoint rspecs (ops : list (rop A)) (l : list A) : option (list A) :=
  match ops with
  | [] => Some l
  | o :: ops => l ← rspec o l; rspecs ops l
  end.

(** The other containers of a script are well formed too. *)
Definition rop_ok (o : rop A) : Prop :=
  match o with RMergeFrom other | RCopyFrom other => wf esz other | _ => True end.

Hypothesis esz_ok : esz = 1 \/ esz = 4 \/ esz = 8 \/ esz = 16.
Hypothesis alloc_ok : forall bytes,
  address (fst (AllocateAtLeast bytes)) /\ bytes <= snd (AllocateAtLeast bytes).
Hypothesis arena_ok : forall bytes, address (ArenaAllocate bytes).

Lemma rrun_wp o s l :
  wf esz s -> rop_ok o -> rspec o (elems s) = Some l ->
  wp (rrun o) s (fun _ s' => step esz l s s').
Proof.
  intros Hwf Ho E. pose proof (wf_size esz esz_ok s Hwf) as Hsz.
  destruct o as [v|k|k|n|n v|n| |start num|first last|i v|i j|other|other|];
    simpl in *; repeat case_match; simplify_eq;
    repeat match goal with
    | H : _ && _ = true |- _ => apply andb_true_iff in H as [? ?]
    | H : (_ <=? _) = true |- _ => apply Z.leb_le in H
    | H : (_ <? _) = true |- _ => apply Z.ltb_lt in H
    end.
  - apply add_wp; [done..|]. zl.
  - apply forward_wp; [done..|]. zl.
  - apply input_wp; [done..|]. zl.
  - wp_use (@reserve_wp A); [done..|]. by intros [] s' [? _].
  - rewrite <- Hsz. by apply resize_wp.
  - apply truncate_wp; [done..|lia].
  - rewrite <- Hsz. apply remove_last_wp; [done..|]. destruct (elems s); [zl|done].
  - wp_step. wp_use (@extract_wp A); [done..|lia|]. intros r s' [_ Hs]. wp_steps. done.
  - apply erase_wp; [done..|lia].
  - apply set_wp; [done..|lia].
  - apply bind_Some in E as (a & Ha & E). apply bind_Some in E as (b & Hb & E).
    simplify_eq.
    pose proof (lookup_lt_Some _ _ _ Ha). pose proof (lookup_lt_Some _ _ _ Hb).
    wp_use (@swap_elements_wp A); [done..|unfold zlen in *; lia|unfold zlen in *; lia|].
    intros [] s' (a' & b' & Ha' & Hb' & Hs). by simplify_eq.
  - by destruct (elems s !! Z.to_nat i); [destruct (elems s !! Z.to_nat j)|].
  - apply merge_wp; [done..|]. rewrite Hsz, (wf_size esz esz_ok other Ho). zl.
  - by apply copy_from_wp.
  - by apply clear_wp.
Qed.

(** C15: [RepeatedField] refines a list: started from any well-formed state
    (inside the object or on the heap, with or without an arena), any script
    of operations that respects their preconditions and [INT_MAX] runs without
    undefined behaviour, leaves the elements the list operations give, with
    the recorded size, a capacity that holds them, and the same arena. The
    allocator may return more memory than asked. *)
Theorem repeated_field_refines_list ops s l :
  wf esz s -> Forall rop_ok ops -> rspecs ops (elems s) = Some l ->
  wp (rruns ops) s (fun _ s' =>
    wf esz s' /\ elems s' = l /\ size s' = zlen l /\ size s' <= Capacity esz s' <= INT_MAX /\
    GetArena s' = GetArena s).
Proof.
  revert s. induction ops as [|o ops IH]; intros s Hwf Hops E; simpl in *.
  { simplify_eq. wp_steps. pose proof (wf_size esz esz_ok s Hwf). pose proof (wf_capacity esz esz_ok s Hwf).
    split_and!; try done; lia. }
  apply Forall_cons in Hops as [Ho Hops]. apply bind_Some in E as (l1 & E1 & E2).
  wp_step. wp_use rrun_wp; [done..|]. intros [] s1 (Hwf1 & El & Ha & _). rewrite <- El in E2.
  wp_use IH; [done..|]. intros [] s2 (? & ? & ? & [? ?] & ?). split_and!; try done; congruence.
Qed.

(** [Swap] exchanges the elements of two containers and leaves each on its
    arena, whether the representations are exchanged or, across arenas (and
    in builds that force it), the elements are copied. *)
Theorem swap_exchanges force (a b : t A) :
  wf esz a -> wf esz b ->
  exists a' b', Swap esz AllocateAtLeast ArenaAllocate force a b = Some (a', b') /\
    wf esz a' /\ wf esz b' /\ elems a' = elems b /\ elems b' = elems a /\
    GetArena a' = GetArena a /\ GetArena b' = GetArena b.
Proof.
  intros Ha Hb. unfold Swap.
  destruct (CanUseInternalSwap force (GetArena a) (GetArena b)) eqn:E.
  { assert (GetArena a = GetArena b) as Eab.
    { unfold CanUseInternalSwap in E. destruct force;
        [apply andb_true_iff in E as [_ E]|]; by apply Z.eqb_eq in E. }
    exists b, a. by split_and!. }
  pose proof (repeated_make_wf esz esz_ok (A := A) (GetArena b) (wf_arena esz esz_ok b Hb)) as Hm.
  pose proof (wf_capacity esz esz_ok a Ha).
  assert (size (A := A) (make (GetArena b)) = 0) as Hm0
    by (by rewrite (wf_size esz esz_ok _ Hm)).
  assert (size (A := A) (make (GetArena b)) + size a <= INT_MAX) as Hfit.
  { rewrite Hm0. lia. }
  destruct (wp_inv _ _ _ (merge_wp esz _ _ esz_ok alloc_ok arena_ok a _ Hm Ha Hfit))
    as ([] & temp & -> & (Hwt & Et & Hat & _)). cbn [mbind option_bind].
  destruct (wp_inv _ _ _ (copy_from_wp esz _ _ esz_ok alloc_ok arena_ok b a Ha Hb))
    as ([] & a' & -> & (Hwa & Ea & Haa & _)). cbn [mbind option_bind].
  exists a', temp. split_and!; try done. rewrite Hat.
  apply GetArena_make, (wf_arena esz esz_ok), Hb.
Qed.
End scripts.

(** The growth policy. Whenever [Grow] is called (the capacity is the one of
    a small object or a heap block, and too small), [CalculateReserveSize] gives
    at least the requested size and never more than [INT_MAX], computes without
    overflow, doubles the bytes of a heap block unless more was asked or the
    limit is reached, and keeps power-of-two blocks: a block of [2^k] bytes
    grows to [2^(k+1)] bytes or to what was asked. *)
Theorem reserve_size_policy esz capacity new_size k :
  (esz = 1 \/ esz = 4 \/ esz = 8) ->
  capacity = kSooCapacityElements esz \/ RepeatedFieldLowerClampLimit esz <= capacity ->
  capacity < new_size <= INT_MAX ->
  exists r, CalculateReserveSize esz capacity new_size = Some r /\
    new_size <= r <= INT_MAX /\
    (RepeatedFieldLowerClampLimit esz <= capacity <= (INT_MAX - kHeapRepHeaderSize esz) / 2 ->
     2 * (kHeapRepHeaderSize esz + esz * capacity) <= kHeapRepHeaderSize esz + esz * r /\
     (kHeapRepHeaderSize esz + esz * capacity = 2 ^ k -> 0 <= k ->
      kHeapRepHeaderSize esz + esz * r = 2 ^ (k + 1) \/ r = new_size)).
Proof.
  intros Hesz Hc Hn. unfold CalculateReserveSize, INT_MAX in *.
  assert (kHeapRepHeaderSize esz = 8 /\
    (esz = 1 /\ RepeatedFieldLowerClampLimit esz = 8 /\ 8 / esz = 8 /\
       kSooCapacityElements esz = 3 \/
     esz = 4 /\ RepeatedFieldLowerClampLimit esz = 2 /\ 8 / esz = 2 /\
       kSooCapacityElements esz = 2 \/
     esz = 8 /\ RepeatedFieldLowerClampLimit esz = 1 /\ 8 / esz = 1 /\
       kSooCapacityElements esz = 1)) as [-> Hcase].
  { destruct Hesz as [-> | [-> | ->]]; (split; [done|]).
    - left. by split_and!.
    - right. left. by split_and!.
    - right. right. by split_and!. }
  clear Hesz. zify_pow. revert Hcase Hc. generalize (RepeatedFieldLowerClampLimit esz) as lower.
  generalize (8 / esz) as d. generalize (kSooCapacityElements esz) as soo.
  intros soo d lower Hcase Hc. destruct (Z.ltb_spec new_size lower).
  { exists lower. split; [done|]. lia. }
  destruct (Z.ltb_spec ((2147483648 - 1 - 8) / 2) capacity).
  { eexists. split; [done|]. Z.div_mod_to_equations; lia. }
  set (c := if _ : bool then _ else _).
  assert (exists c', c = Some c' /\ 0 <= c' <= capacity /\ (lower <= capacity -> c' = capacity))
    as (c' & -> & Hc' & Hbig).
  { unfold c. case_cmp; simpl; try lia; eexists; (split; [done|]); lia. }
  cbn [mbind option_bind]. eexists. split; [done|].
  split; [Z.div_mod_to_equations; lia|]. intros Hrange. rewrite Hbig by lia.
  split; [Z.div_mod_to_equations; lia|]. intros Hk Hk0. rewrite Z.pow_add_r by lia. rewrite <- Hk.
  change (2 ^ 1) with 2. lia.
Qed.

(** ** At concrete inputs *)

Definition sample_alloc (bytes : Z) : Z * Z := (4096, bytes + 5).
Definition sample_arena_alloc (bytes : Z) : Z := 8192.

Lemma sample_alloc_ok bytes :
  address (fst (sample_alloc bytes)) /\ bytes <= snd (sample_alloc bytes).
Proof. split; [by vm_compute|simpl; lia]. Qed.
Lemma sample_arena_ok bytes : address (sample_arena_alloc bytes).
Proof. by vm_compute. Qed.
Lemma sample_make_wf a : arena_pointer a -> wf 4 (make (A := Z) a).
Proof. intros Ha. apply repeated_make_wf; [auto|done]. Qed.

Lemma repeated_field_refines_list_witness :
  wp (rruns 4 sample_alloc sample_arena_alloc
        [RAdd 1; RAdd 2; RAdd 3; RExtractSubrange 1 1; RAddInput [7; 8]; RSwapElements 0 3])
    (make 0) (fun _ s => elems s = [8; 3; 7; 1] /\ size s = 4).
Proof.
  eapply wp_mono; [eapply (repeated_field_refines_list 4 sample_alloc sample_arena_alloc)|].
  - auto.
  - apply sample_alloc_ok.
  - apply sample_arena_ok.
  - apply sample_make_wf. split; [done|lia].
  - repeat constructor.
  - reflexivity.
  - intros [] s (_ & -> & -> & _). done.
Defined.

Lemma swap_exchanges_witness :
  exists a b, Swap 4 sample_alloc sample_arena_alloc true
    (mk (mk_soo 2 0 0) [5; 6] 0) (make 16) = Some (a, b) /\ elems a = [] /\ elems b = [5; 6].
Proof.
  destruct (swap_exchanges 4 sample_alloc sample_arena_alloc (or_intror (or_introl eq_refl))
    sample_alloc_ok sample_arena_ok true (mk (mk_soo 2 0 0) [5; 6] 0) (make 16))
    as (a & b & E & _ & _ & Ea & Eb & _).
  - left. exists 0, 2. split; [done|]. split; [lia|]. split; [done|]. by vm_compute.
  - apply sample_make_wf. split; [done|lia].
  - exists a, b. by split_and!.
Defined.

Lemma reserve_size_policy_witness :
  exists r, CalculateReserveSize 4 6 7 = Some r /\ 7 <= r <= INT_MAX /\
    (RepeatedFieldLowerClampLimit 4 <= 6 <= (INT_MAX - kHeapRepHeaderSize 4) / 2 ->
     2 * (kHeapRepHeaderSize 4 + 4 * 6) <= kHeapRepHeaderSize 4 + 4 * r /\
     (kHeapRepHeaderSize 4 + 4 * 6 = 2 ^ 5 -> 0 <= 5 ->
      kHeapRepHeaderSize 4 + 4 * r = 2 ^ (5 + 1) \/ r = 7)).
Proof.
  apply (reserve_size_policy 4 6 7 5); [auto|right; by vm_compute|split; by vm_compute].
Defined.
