(* ===== verification/WireFormatLite.v ===== *)
(** * The wire format without reflection: tags, scalar writers and sizes

    [wire_format_lite.h] and [wire_format_lite.cc]: wire types, field types and
    their tables, tags, the [Write..ToArray] functions (as the bytes they store),
    the size functions, the sums of varint sizes in both of their compilations
    (the plain loop and the one written for vectorization) and the sizes of
    packed fields. A [float] or [double] is its bit pattern. *)

From S2P Require Import Prelude Varint.

(** ** Wire types, field types, C++ types

    A wire type is any integer, since [GetTagWireType] casts three bits to the
    enum. *)

Definition WIRETYPE_VARINT : Z := 0.
Definition WIRETYPE_FIXED64 : Z := 1.
Definition WIRETYPE_LENGTH_DELIMITED : Z := 2.
Definition WIRETYPE_START_GROUP : Z := 3.
Definition WIRETYPE_END_GROUP : Z := 4.
Definition WIRETYPE_FIXED32 : Z := 5.

Inductive FieldType :=
  | TYPE_DOUBLE | TYPE_FLOAT | TYPE_INT64 | TYPE_UINT64 | TYPE_INT32
  | TYPE_FIXED64 | TYPE_FIXED32 | TYPE_BOOL | TYPE_STRING | TYPE_GROUP
  | TYPE_MESSAGE | TYPE_BYTES | TYPE_UINT32 | TYPE_ENUM | TYPE_SFIXED32
  | TYPE_SFIXED64 | TYPE_SINT32 | TYPE_SINT64.

#[global] Instance FieldType_eq_dec : EqDecision FieldType.
Proof. solve_decision. Defined.

Definition FieldType_number (t : FieldType) : Z :=
  match t with
  | TYPE_DOUBLE => 1 | TYPE_FLOAT => 2 | TYPE_INT64 => 3 | TYPE_UINT64 => 4
  | TYPE_INT32 => 5 | TYPE_FIXED64 => 6 | TYPE_FIXED32 => 7 | TYPE_BOOL => 8
  | TYPE_STRING => 9 | TYPE_GROUP => 10 | TYPE_MESSAGE => 11 | TYPE_BYTES => 12
  | TYPE_UINT32 => 13 | TYPE_ENUM => 14 | TYPE_SFIXED32 => 15
  | TYPE_SFIXED64 => 16 | TYPE_SINT32 => 17 | TYPE_SINT64 => 18
  end.

Inductive CppType :=
  | CPPTYPE_INT32 | CPPTYPE_INT64 | CPPTYPE_UINT32 | CPPTYPE_UINT64
  | CPPTYPE_DOUBLE | CPPTYPE_FLOAT | CPPTYPE_BOOL | CPPTYPE_ENUM
  | CPPTYPE_STRING | CPPTYPE_MESSAGE.

(** The tables, entry 0 of which is no type. *)
Definition kFieldTypeToCppTypeMap : list (option CppType) :=
  [ None;
    Some CPPTYPE_DOUBLE; Some CPPTYPE_FLOAT; Some CPPTYPE_INT64; Some CPPTYPE_UINT64;
    Some CPPTYPE_INT32; Some CPPTYPE_UINT64; Some CPPTYPE_UINT32; Some CPPTYPE_BOOL;
    Some CPPTYPE_STRING; Some CPPTYPE_MESSAGE; Some CPPTYPE_MESSAGE; Some CPPTYPE_STRING;
    Some CPPTYPE_UINT32; Some CPPTYPE_ENUM; Some CPPTYPE_INT32; Some CPPTYPE_INT64;
    Some CPPTYPE_INT32; Some CPPTYPE_INT64 ].

Definition kWireTypeForFieldType : list Z :=
  [ -1;
    WIRETYPE_FIXED64; WIRETYPE_FIXED32; WIRETYPE_VARINT; WIRETYPE_VARINT;
    WIRETYPE_VARINT; WIRETYPE_FIXED64; WIRETYPE_FIXED32; WIRETYPE_VARINT;
    WIRETYPE_LENGTH_DELIMITED; WIRETYPE_START_GROUP; WIRETYPE_LENGTH_DELIMITED;
    WIRETYPE_LENGTH_DELIMITED; WIRETYPE_VARINT; WIRETYPE_VARINT; WIRETYPE_FIXED32;
    WIRETYPE_FIXED64; WIRETYPE_VARINT; WIRETYPE_VARINT ].

Definition FieldTypeToCppType (t : FieldType) : option CppType :=
  mjoin (kFieldTypeToCppTypeMap !! Z.to_nat (FieldType_number t)).

Definition WireTypeForFieldType (t : FieldType) : Z :=
  default (-1) (kWireTypeForFieldType !! Z.to_nat (FieldType_number t)).

(** ** Tags *)

Definition kTagTypeBits : Z := 3.
Definition kTagTypeMask : Z := Z.shiftl 1 kTagTypeBits - 1.

(** [GOOGLE_PROTOBUF_WIRE_FORMAT_MAKE_TAG] *)
Definition MakeTag (field_number type : Z) : Z :=
  u32 (Z.lor (u32 (Z.shiftl (u32 field_number) 3)) (u32 type)).
Definition GetTagWireType (tag : Z) : Z := Z.land tag kTagTypeMask.
Definition GetTagFieldNumber (tag : Z) : Z := s32 (Z.shiftr tag kTagTypeBits).

Definition kMessageSetItemNumber : Z := 1.
Definition kMessageSetTypeIdNumber : Z := 2.
Definition kMessageSetMessageNumber : Z := 3.
Definition kMessageSetItemStartTag : Z := MakeTag kMessageSetItemNumber WIRETYPE_START_GROUP.
Definition kMessageSetItemEndTag : Z := MakeTag kMessageSetItemNumber WIRETYPE_END_GROUP.
Definition kMessageSetTypeIdTag : Z := MakeTag kMessageSetTypeIdNumber WIRETYPE_VARINT.
Definition kMessageSetMessageTag : Z :=
  MakeTag kMessageSetMessageNumber WIRETYPE_LENGTH_DELIMITED.

(** [io::CodedOutputStream::StaticVarintSize32] *)
Definition StaticVarintSize32 (Value : Z) : Z :=
  if Value <? Z.shiftl 1 7 then 1
  else if Value <? Z.shiftl 1 14 then 2
  else if Value <? Z.shiftl 1 21 then 3
  else if Value <? Z.shiftl 1 28 then 4
  else 5.

Definition kMessageSetItemTagsSize : Z :=
  StaticVarintSize32 kMessageSetItemStartTag + StaticVarintSize32 kMessageSetItemEndTag +
  StaticVarintSize32 kMessageSetTypeIdTag + StaticVarintSize32 kMessageSetMessageTag.

Definition kFixed32Size : Z := 4.
Definition kFixed64Size : Z := 8.
Definition kSFixed32Size : Z := 4.
Definition kSFixed64Size : Z := 8.
Definition kFloatSize : Z := 4.
Definition kDoubleSize : Z := 8.
Definition kBoolSize : Z := 1.

(** ** Writers *)

Definition WriteTagToArray (field_number type : Z) : list byte :=
  Varint.WriteTagToArray (MakeTag field_number type).

Definition WriteInt32NoTagToArray (value : Z) : list byte :=
  WriteVarint32SignExtendedToArray value.
Definition WriteInt64NoTagToArray (value : Z) : list byte :=
  WriteVarint64ToArray (u64 value).
Definition WriteUInt32NoTagToArray (value : Z) : list byte := WriteVarint32ToArray value.
Definition WriteUInt64NoTagToArray (value : Z) : list byte := WriteVarint64ToArray value.
Definition WriteSInt32NoTagToArray (value : Z) : list byte :=
  WriteVarint32ToArray (ZigZagEncode32 value).
Definition WriteSInt64NoTagToArray (value : Z) : list byte :=
  WriteVarint64ToArray (ZigZagEncode64 value).
Definition WriteFixed32NoTagToArray (value : Z) : list byte :=
  WriteLittleEndian32ToArray value.
Definition WriteFixed64NoTagToArray (value : Z) : list byte :=
  WriteLittleEndian64ToArray value.
Definition WriteSFixed32NoTagToArray (value : Z) : list byte :=
  WriteLittleEndian32ToArray (u32 value).
Definition WriteSFixed64NoTagToArray (value : Z) : list byte :=
  WriteLittleEndian64ToArray (u64 value).
Definition WriteFloatNoTagToArray (value : Z) : list byte :=
  WriteLittleEndian32ToArray value.
Definition WriteDoubleNoTagToArray (value : Z) : list byte :=
  WriteLittleEndian64ToArray value.
Definition WriteBoolNoTagToArray (value : Z) : list byte :=
  WriteVarint32ToArray (if value =? 0 then 0 else 1).
Definition WriteEnumNoTagToArray (value : Z) : list byte :=
  WriteVarint32SignExtendedToArray value.

(** The writer of each scalar type; a string, message or group has none. *)
Definition WriteNoTagToArray (t : FieldType) (value : Z) : list byte :=
  match t with
  | TYPE_INT32 => WriteInt32NoTagToArray value
  | TYPE_INT64 => WriteInt64NoTagToArray value
  | TYPE_UINT32 => WriteUInt32NoTagToArray value
  | TYPE_UINT64 => WriteUInt64NoTagToArray value
  | TYPE_SINT32 => WriteSInt32NoTagToArray value
  | TYPE_SINT64 => WriteSInt64NoTagToArray value
  | TYPE_FIXED32 => WriteFixed32NoTagToArray value
  | TYPE_FIXED64 => WriteFixed64NoTagToArray value
  | TYPE_SFIXED32 => WriteSFixed32NoTagToArray value
  | TYPE_SFIXED64 => WriteSFixed64NoTagToArray value
  | TYPE_FLOAT => WriteFloatNoTagToArray value
  | TYPE_DOUBLE => WriteDoubleNoTagToArray value
  | TYPE_BOOL => WriteBoolNoTagToArray value
  | TYPE_ENUM => WriteEnumNoTagToArray value
  | TYPE_STRING | TYPE_GROUP | TYPE_MESSAGE | TYPE_BYTES => []
  end.

(** [WriteInt32ToArray] and the other thirteen: the tag, then the value. *)
Definition WriteToArray (t : FieldType) (field_number value : Z) : list byte :=
  WriteTagToArray field_number (WireTypeForFieldType t) ++ WriteNoTagToArray t value.

(** [io::CodedOutputStream::WriteStringWithSizeToArray] *)
Definition WriteStringWithSizeToArray (str : list byte) : list byte :=
  WriteVarint32ToArray (u32 (zlen str)) ++ str.

Definition WriteStringToArray (field_number : Z) (value : list byte) : list byte :=
  WriteTagToArray field_number WIRETYPE_LENGTH_DELIMITED ++ WriteStringWithSizeToArray value.
Definition WriteBytesToArray (field_number : Z) (value : list byte) : list byte :=
  WriteTagToArray field_number WIRETYPE_LENGTH_DELIMITED ++ WriteStringWithSizeToArray value.

(** The loop over a repeated field; the debug check asks for a value. *)
Definition WritePrimitiveNoTagToArray (Writer : Z -> list byte) (value : list Z)
    : option (list byte) :=
  match value with [] => None | _ => Some (concat (map Writer value)) end.

(** The little-endian compilation copies the memory of the array: each value in
    [size] bytes, least significant first. *)
Fixpoint le_bytes (size : nat) (value : Z) : list byte :=
  match size with
  | O => []
  | S size => z2b value :: le_bytes size (Z.shiftr value 8)
  end.

Definition WriteFixedNoTagToArray (little_endian : bool) (size : nat)
    (Writer : Z -> list byte) (value : list Z) : option (list byte) :=
  if little_endian then
    match value with [] => None | _ => Some (concat (map (le_bytes size) value)) end
  else WritePrimitiveNoTagToArray Writer value.

Definition WritePrimitiveToArray (Writer : Z -> Z -> list byte) (field_number : Z)
    (value : list Z) : list byte :=
  concat (map (Writer field_number) value).

(** ** Sizes *)

Section sizes.
Context (prefer_bsr : bool).

(** [WireFormatLite::TagSize]; the shift is on [int]. *)
Definition TagSize (field_number : Z) (type : FieldType) : Z :=
  let result := VarintSize32 prefer_bsr (u32 (Z.shiftl field_number kTagTypeBits)) in
  if decide (type = TYPE_GROUP) then result * 2 else result.

Definition Int32Size (value : Z) : Z := VarintSize32SignExtended prefer_bsr value.
Definition Int64Size (value : Z) : Z := VarintSize64 prefer_bsr (u64 value).
Definition UInt32Size (value : Z) : Z := VarintSize32 prefer_bsr value.
Definition UInt64Size (value : Z) : Z := VarintSize64 prefer_bsr value.
Definition SInt32Size (value : Z) : Z := VarintSize32 prefer_bsr (ZigZagEncode32 value).
Definition SInt64Size (value : Z) : Z := VarintSize64 prefer_bsr (ZigZagEncode64 value).
Definition EnumSize (value : Z) : Z := VarintSize32SignExtended prefer_bsr value.
Definition Int32SizePlusOne (value : Z) : Z :=
  VarintSize32SignExtendedPlusOne prefer_bsr value.
Definition Int64SizePlusOne (value : Z) : Z := VarintSize64PlusOne prefer_bsr (u64 value).
Definition UInt32SizePlusOne (value : Z) : Z := VarintSize32PlusOne prefer_bsr value.
Definition UInt64SizePlusOne (value : Z) : Z := VarintSize64PlusOne prefer_bsr value.
Definition SInt32SizePlusOne (value : Z) : Z :=
  VarintSize32PlusOne prefer_bsr (ZigZagEncode32 value).
Definition SInt64SizePlusOne (value : Z) : Z :=
  VarintSize64PlusOne prefer_bsr (ZigZagEncode64 value).
Definition EnumSizePlusOne (value : Z) : Z :=
  VarintSize32SignExtendedPlusOne prefer_bsr value.

Definition LengthDelimitedSize (length : Z) : Z :=
  u64 (length + VarintSize32 prefer_bsr (u32 length)).
Definition StringSize (value : list byte) : Z := LengthDelimitedSize (zlen value).
Definition BytesSize (value : list byte) : Z := StringSize value.

(** The size of one scalar. *)
Definition ScalarSize (t : FieldType) (value : Z) : Z :=
  match t with
  | TYPE_INT32 => Int32Size value
  | TYPE_INT64 => Int64Size value
  | TYPE_UINT32 => UInt32Size value
  | TYPE_UINT64 => UInt64Size value
  | TYPE_SINT32 => SInt32Size value
  | TYPE_SINT64 => SInt64Size value
  | TYPE_ENUM => EnumSize value
  | TYPE_FIXED32 => kFixed32Size
  | TYPE_FIXED64 => kFixed64Size
  | TYPE_SFIXED32 => kSFixed32Size
  | TYPE_SFIXED64 => kSFixed64Size
  | TYPE_FLOAT => kFloatSize
  | TYPE_DOUBLE => kDoubleSize
  | TYPE_BOOL => kBoolSize
  | TYPE_STRING | TYPE_GROUP | TYPE_MESSAGE | TYPE_BYTES => 0
  end.

(** *** Repeated fields

    The plain loop, and [VarintSize]/[VarintSize64], compiled with clang for
    machines with vector registers. Their first loop runs over the largest
    multiple of 32 elements and counts thresholds; [sum] and [msb_sum] are
    [uint32_t]. *)
Definition RepeatedSize (Size : Z -> Z) (value : list Z) : Z :=
  fold_left (fun out v => u64 (out + Size v)) value 0.

Definition varint_thresholds (x : Z) : Z :=
  (if 0x7F <? x then 1 else 0) + (if 0x3FFF <? x then 1 else 0) +
  (if 0x1FFFFF <? x then 1 else 0) + (if 0xFFFFFFF <? x then 1 else 0).

Definition VarintSize (ZigZag SignExtended : bool) (data : list Z) : Z :=
  let n := zlen data in
  let vectorN := Z.land n (-32) in
  let step '(sum, msb_sum) v :=
    let x := u32 v in
    let x := if ZigZag then ZigZagEncode32 (s32 x) else x in
    let msb_sum := if negb ZigZag && SignExtended then u32 (msb_sum + Z.shiftr x 31)
                   else msb_sum in
    (u32 (sum + varint_thresholds x), msb_sum) in
  let '(sum, msb_sum) := fold_left step (ztake vectorN data) (u32 vectorN, 0) in
  let tail sum v :=
    let x := u32 v in
    u32 (sum + (if ZigZag then SInt32Size (s32 x)
                else if SignExtended then Int32Size (s32 x) else UInt32Size x)) in
  let sum := fold_left tail (zdrop vectorN data) sum in
  if SignExtended then u32 (sum + u32 (msb_sum * 5)) else sum.

Definition VarintSize64_ (ZigZag : bool) (data : list Z) : Z :=
  let n := zlen data in
  let vectorN := Z.land n (-32) in
  let step sum v :=
    let x := u64 v in
    let x := if ZigZag then ZigZagEncode64 (s64 x) else x in
    let tmp := if Z.shiftl 1 35 <=? x then u64 (-1) else 0 in
    let sum := u64 (sum + Z.land 5 tmp) in
    let x := Z.shiftr x (Z.land 35 tmp) in
    u64 (sum + varint_thresholds x) in
  let sum := fold_left step (ztake vectorN data) (u64 vectorN) in
  let tail sum v :=
    let x := u64 v in
    u64 (sum + (if ZigZag then SInt64Size (s64 x) else UInt64Size x)) in
  fold_left tail (zdrop vectorN data) sum.

(** [Int32SizeWithPackedTagSize] and the other six: the size and the value
    stored in [cached_size]; [SetNonZero] debug-checks that value. *)
Definition SizeWithPackedTagSize (Size : list Z -> Z) (value : list Z) (tag_size : Z)
    : option (Z * Z) :=
  match value with
  | [] => Some (0, 0)
  | _ =>
      let res := Size value in
      if s32 res =? 0 then None
      else Some (u64 (tag_size + res + Int32Size (s32 res)), s32 res)
  end.
End sizes.

(** ** Lemmas: tags *)

Definition is_field_number (n : Z) : Prop := 0 < n < 2 ^ 29.

Lemma MakeTag_eq n t : 0 <= n < 2 ^ 29 -> 0 <= t < 8 -> MakeTag n t = 8 * n + t.
Proof.
  intros Hn Ht. change (2 ^ 29) with 536870912 in *. unfold MakeTag.
  rewrite (u32_id n), (u32_id t), Z.shiftl_mul_pow2 by ilia. change (2 ^ 3) with 8.
  rewrite (u32_id (n * 8)) by ilia.
  replace (n * 8) with (8 * n) by lia. rewrite lor_8 by done. rewrite u32_id by ilia. lia.
Qed.

Lemma GetTagWireType_eq tag : GetTagWireType tag = tag mod 8.
Proof. unfold GetTagWireType. change kTagTypeMask with (Z.ones 3). by rewrite Z.land_ones. Qed.

Lemma GetTagFieldNumber_eq tag : is_u32 tag -> GetTagFieldNumber tag = tag / 8.
Proof.
  intros. unfold GetTagFieldNumber, kTagTypeBits. rewrite Z.shiftr_div_pow2 by lia.
  change (2 ^ 3) with 8. ilia.
Qed.

Lemma MakeTag_range n t : is_u32 (MakeTag n t).
Proof. apply u32_range. Qed.

Lemma tag_split tag :
  is_u32 tag -> tag = MakeTag (GetTagFieldNumber tag) (GetTagWireType tag).
Proof.
  intros. rewrite GetTagFieldNumber_eq, GetTagWireType_eq by done.
  rewrite MakeTag_eq; [|change (2 ^ 29) with 536870912; ilia|ilia]. ilia.
Qed.

Lemma MakeTag_fields n t :
  0 <= n < 2 ^ 29 -> 0 <= t < 8 ->
  GetTagFieldNumber (MakeTag n t) = n /\ GetTagWireType (MakeTag n t) = t.
Proof.
  intros Hn Ht. rewrite GetTagFieldNumber_eq, GetTagWireType_eq by apply MakeTag_range.
  rewrite MakeTag_eq by done. ilia.
Qed.

(** ** Lemmas: scalars *)

Definition is_scalar (t : FieldType) : bool :=
  match t with
  | TYPE_STRING | TYPE_GROUP | TYPE_MESSAGE | TYPE_BYTES => false
  | _ => true
  end.

(** The values of the C++ type of a scalar field. *)
Definition in_range (t : FieldType) (v : Z) : Prop :=
  match t with
  | TYPE_INT32 | TYPE_SINT32 | TYPE_SFIXED32 | TYPE_ENUM => is_s32 v
  | TYPE_INT64 | TYPE_SINT64 | TYPE_SFIXED64 => is_s64 v
  | TYPE_UINT32 | TYPE_FIXED32 | TYPE_FLOAT => is_u32 v
  | TYPE_UINT64 | TYPE_FIXED64 | TYPE_DOUBLE => is_u64 v
  | TYPE_BOOL => 0 <= v < 2
  | _ => False
  end.

(** The unsigned integer that is written for a value. *)
Definition raw_value (t : FieldType) (v : Z) : Z :=
  match t with
  | TYPE_SINT32 => ZigZagEncode32 v
  | TYPE_SINT64 => ZigZagEncode64 v
  | TYPE_SFIXED32 => u32 v
  | _ => u64 v
  end.

Lemma raw_value_u64 t v : in_range t v -> is_u64 (raw_value t v).
Proof.
  destruct t; simpl; intros Hv; try apply u64_range; try done.
  - apply u32_is_u64, u32_range.
  - by apply u32_is_u64, ZigZagEncode32_range.
  - by apply ZigZagEncode64_range.
Qed.

Lemma raw_value_u32 t v :
  in_range t v -> WireTypeForFieldType t = WIRETYPE_FIXED32 -> is_u32 (raw_value t v).
Proof.
  destruct t; simpl; intros Hv E; try done; try apply u32_range; rewrite u64_id; ilia.
Qed.

Lemma le_bytes_write32 v : le_bytes 4 v = WriteLittleEndian32ToArray v.
Proof. unfold WriteLittleEndian32ToArray. simpl. by rewrite !Z.shiftr_shiftr by lia. Qed.

(** A byte of a wrapped integer is the byte of the integer. *)
Lemma z2b_wrap_shiftr w v k :
  0 <= k <= w - 8 -> z2b (Z.shiftr (v mod 2 ^ w) k) = z2b (Z.shiftr v k).
Proof.
  intros Hk. rewrite <- (z2b_mod (Z.shiftr (v mod _) k)), <- (z2b_mod (Z.shiftr v k)). f_equal.
  apply Z.bits_inj'. intros i Hi. change 256 with (2 ^ 8).
  destruct (decide (i < 8)).
  - rewrite !Z.mod_pow2_bits_low, !Z.shiftr_spec by lia.
    by rewrite Z.mod_pow2_bits_low by lia.
  - by rewrite !Z.mod_pow2_bits_high by lia.
Qed.

Lemma z2b_u32_shiftr v k : 0 <= k <= 24 -> z2b (Z.shiftr (u32 v) k) = z2b (Z.shiftr v k).
Proof. intros. by apply (z2b_wrap_shiftr 32). Qed.

Lemma z2b_u32 v : z2b (u32 v) = z2b v.
Proof. apply (z2b_u32_shiftr v 0). lia. Qed.

Lemma z2b_u64_shiftr v k : 0 <= k <= 56 -> z2b (Z.shiftr (u64 v) k) = z2b (Z.shiftr v k).
Proof. intros. by apply (z2b_wrap_shiftr 64). Qed.

Lemma z2b_u64 v : z2b (u64 v) = z2b v.
Proof. apply (z2b_u64_shiftr v 0). lia. Qed.

Lemma le_bytes_write64 v : le_bytes 8 v = WriteLittleEndian64ToArray v.
Proof.
  unfold WriteLittleEndian64ToArray. rewrite !z2b_u32_shiftr, !z2b_u32 by lia.
  cbn [le_bytes]. by rewrite !Z.shiftr_shiftr by lia.
Qed.

(** What is on the wire for a scalar, by the wire type of its field type. *)
Lemma WriteNoTag_wire t v :
  in_range t v ->
  if WireTypeForFieldType t =? WIRETYPE_VARINT then
    WriteNoTagToArray t v = UnsafeVarint (raw_value t v)
  else if WireTypeForFieldType t =? WIRETYPE_FIXED32 then
    WriteNoTagToArray t v = WriteLittleEndian32ToArray (raw_value t v)
  else
    WireTypeForFieldType t = WIRETYPE_FIXED64 /\
    WriteNoTagToArray t v = WriteLittleEndian64ToArray (raw_value t v).
Proof.
  destruct t; simpl; intros Hv; try done; try (split; [done|]);
    rewrite ?u64_id by ilia; try done.
  destruct (Z.eqb_spec v 0) as [->|]; [done|]. by replace v with 1 by lia.
Qed.

Lemma zlen_varint bsr v : is_u64 v -> zlen (UnsafeVarint v) = VarintSize64 bsr v.
Proof. apply length_UnsafeVarint_size64. Qed.

Lemma VarintSize32_64 bsr v : is_u32 v -> VarintSize32 bsr v = VarintSize64 bsr v.
Proof.
  intros. rewrite <- length_UnsafeVarint_size32, <- length_UnsafeVarint_size64; auto using u32_is_u64.
Qed.

Lemma ScalarSize_eq bsr t v : in_range t v -> zlen (WriteNoTagToArray t v) = ScalarSize bsr t v.
Proof.
  intros Hv.
  assert (forall n, is_u32 n -> zlen (UnsafeVarint n) = VarintSize32 bsr n) as H32
    by (intros; by apply length_UnsafeVarint_size32).
  assert (forall n, is_u64 n -> zlen (UnsafeVarint n) = VarintSize64 bsr n) as H64
    by (intros; by apply length_UnsafeVarint_size64).
  destruct t; simpl in *; try done;
    first [apply H64, u64_range | apply H32; done | apply H64; done
          |apply H32, ZigZagEncode32_range; done|apply H64, ZigZagEncode64_range; done|idtac].
  unfold WriteBoolNoTagToArray. by destruct (v =? 0).
Qed.

(** ** Lemmas: sums of varint sizes *)

Definition varint_len (x : Z) : Z := Z.log2 x / 7 + 1.

Lemma log2_threshold x k : 0 <= x -> 0 < k -> (2 ^ k - 1 <? x) = (k <=? Z.log2 x).
Proof.
  intros Hx Hk. destruct (Z.leb_spec k (Z.log2 x)) as [H|H]; apply Z.ltb_lt || apply Z.ltb_ge.
  - assert (0 < x) by (destruct (decide (x = 0)) as [->|]; [simpl in H; lia|lia]).
    apply Z.log2_le_pow2 in H; lia.
  - destruct (decide (x = 0)) as [->|].
    + pose proof (Z.pow_pos_nonneg 2 k). lia.
    + apply Z.log2_lt_pow2 in H; lia.
Qed.

Lemma varint_thresholds_eq x :
  0 <= x -> varint_thresholds x = Z.min 4 (Z.log2 x / 7).
Proof.
  intros Hx. unfold varint_thresholds.
  pose proof (log2_threshold x 7 Hx eq_refl) as H1.
  pose proof (log2_threshold x 14 Hx eq_refl) as H2.
  pose proof (log2_threshold x 21 Hx eq_refl) as H3.
  pose proof (log2_threshold x 28 Hx eq_refl) as H4.
  change (2 ^ 7 - 1) with 0x7F in H1. change (2 ^ 14 - 1) with 0x3FFF in H2.
  change (2 ^ 21 - 1) with 0x1FFFFF in H3. change (2 ^ 28 - 1) with 0xFFFFFFF in H4.
  rewrite H1, H2, H3, H4. pose proof (Z.log2_nonneg x).
  case_cmp; Z.div_mod_to_equations; lia.
Qed.

Lemma thresholds32 bsr x : is_u32 x -> 1 + varint_thresholds x = VarintSize32 bsr x.
Proof.
  intros Hx. unfold VarintSize32. rewrite varint_size_log2 by (unfold is_u32 in Hx; lia).
  rewrite varint_thresholds_eq by (unfold is_u32 in Hx; lia).
  pose proof (log2_bounds x 32 ltac:(lia) Hx). Z.div_mod_to_equations; lia.
Qed.

(** The two-step search of [VarintSize64]. *)
Lemma thresholds64 bsr x :
  is_u64 x ->
  1 + (if Z.shiftl 1 35 <=? x then 5 + varint_thresholds (Z.shiftr x 35)
       else varint_thresholds x) = VarintSize64 bsr x.
Proof.
  intros Hx. pose proof Hx as Hx'. unfold is_u64 in Hx'. unfold VarintSize64.
  rewrite varint_size_log2 by lia. pose proof (log2_bounds x 64 ltac:(lia) Hx) as Hb.
  change (Z.shiftl 1 35) with (2 ^ 35). destruct (Z.leb_spec (2 ^ 35) x) as [H|H].
  - assert (0 < x) by lia. rewrite varint_thresholds_eq by (apply Z.shiftr_nonneg; lia).
    rewrite Z.log2_shiftr by lia. apply Z.log2_le_pow2 in H; [|lia].
    rewrite Z.max_r by lia. Z.div_mod_to_equations; lia.
  - rewrite varint_thresholds_eq by lia.
    assert (Z.log2 x < 35) by (destruct (decide (x = 0)) as [->|]; [done|]; apply Z.log2_lt_pow2; lia).
    pose proof (Z.log2_nonneg x). Z.div_mod_to_equations; lia.
Qed.

(** A loop that adds to a wrapped sum. *)
Lemma fold_sum (wrap : Z -> Z) (f : Z -> Z) data s :
  (forall a b, wrap (wrap a + b) = wrap (a + b)) ->
  fold_left (fun sum v => wrap (sum + f v)) data (wrap s)
  = wrap (s + foldr (fun v acc => f v + acc) 0 data).
Proof.
  intros Hw. revert s. induction data as [|v data IH]; intros s; simpl.
  - f_equal. lia.
  - rewrite Hw, IH. f_equal. lia.
Qed.

Definition sum_sizes (f : Z -> Z) (data : list Z) : Z := foldr (fun v acc => f v + acc) 0 data.

Lemma sum_sizes_app f l k : sum_sizes f (l ++ k) = sum_sizes f l + sum_sizes f k.
Proof. induction l as [|v l IH]; simpl in *; [done|]. rewrite IH. lia. Qed.

Lemma sum_sizes_ext f g l : Forall (fun v => f v = g v) l -> sum_sizes f l = sum_sizes g l.
Proof. induction 1 as [|v l E H IH]; simpl in *; lia. Qed.

Lemma sum_sizes_plus f g l :
  sum_sizes (fun v => f v + g v) l = sum_sizes f l + sum_sizes g l.
Proof. induction l; simpl in *; lia. Qed.

Lemma sum_sizes_const c l : sum_sizes (fun _ => c) l = c * zlen l.
Proof. induction l as [|v l IH]; simpl; [unfold zlen; simpl; lia|]. rewrite IH. zl. Qed.

Lemma sum_sizes_bound f c l :
  Forall (fun v => 0 <= f v <= c) l -> 0 <= sum_sizes f l <= c * zlen l.
Proof.
  induction 1 as [|v l E H IH]; simpl; [unfold zlen; simpl; lia|]. rewrite zlen_cons. lia.
Qed.

Lemma sum_sizes_scale f c l : sum_sizes f l * c = sum_sizes (fun v => f v * c) l.
Proof. induction l; simpl in *; lia. Qed.

Lemma RepeatedSize_sum f data : RepeatedSize f data = u64 (sum_sizes f data).
Proof.
  unfold RepeatedSize. change (fold_left ?g data 0) with (fold_left g data (u64 0)).
  by rewrite (fold_sum u64 f data 0) by (intros; apply u64_add_l).
Qed.

(** The largest multiple of 32 not above the length. *)
Lemma vector_length n : 0 <= n -> Z.land n (-32) = 32 * (n / 32).
Proof.
  intros Hn. change (-32) with (Z.lnot (Z.ones 5)).
  rewrite <- Z.ldiff_land, Z.ldiff_ones_r by lia.
  rewrite Z.shiftl_mul_pow2, Z.shiftr_div_pow2 by lia. change (2 ^ 5) with 32. lia.
Qed.

(** The size of one element of each instantiation of [VarintSize]. *)
Definition element_size (bsr ZigZag SignExtended : bool) (v : Z) : Z :=
  if ZigZag then SInt32Size bsr v
  else if SignExtended then Int32Size bsr v else UInt32Size bsr v.

(** The elements of the array: signed for the two signed instantiations. *)
Definition element_ok (signed : bool) (v : Z) : Prop := if signed then is_s32 v else is_u32 v.

Lemma s32_of_u32 v : is_s32 v -> s32 (u32 v) = v.
Proof. apply s32_u32. Qed.

(** The contribution of one element to [sum] and [msb_sum] in the first loop. *)
Definition vector_x (ZigZag : bool) (v : Z) : Z :=
  if ZigZag then ZigZagEncode32 (s32 (u32 v)) else u32 v.

Lemma vector_element bsr (ZigZag SignExtended : bool) v :
  negb (ZigZag && SignExtended) = true ->
  element_ok (ZigZag || SignExtended) v ->
  1 + varint_thresholds (vector_x ZigZag v)
  + (if SignExtended then Z.shiftr (u32 v) 31 else 0) * 5
  = element_size bsr ZigZag SignExtended v.
Proof.
  intros Hz Hv. unfold element_size, vector_x.
  destruct ZigZag, SignExtended; simpl in *; try done.
  - rewrite s32_of_u32 by done. rewrite (thresholds32 bsr) by (by apply ZigZagEncode32_range).
    unfold SInt32Size. lia.
  - rewrite (thresholds32 bsr) by apply u32_range. unfold Int32Size, VarintSize32SignExtended.
    rewrite VarintSize32_64 by apply u32_range.
    rewrite Z.shiftr_div_pow2 by lia. change (2 ^ 31) with 2147483648.
    destruct (Z.leb_spec 0 v) as [Hp|Hn].
    + rewrite u32_id, u64_id by ilia. rewrite Z.div_small by ilia. lia.
    + assert (u32 v = v + 2 ^ 32) as -> by ilia. assert (u64 v = v + 2 ^ 64) as -> by ilia.
      unfold is_s32 in Hv. unfold VarintSize64. rewrite !varint_size_log2 by lia.
      assert (Z.log2 (v + 2 ^ 32) = 31) as -> by (apply Z.log2_unique; lia).
      assert (Z.log2 (v + 2 ^ 64) = 63) as -> by (apply Z.log2_unique; lia).
      assert ((v + 2 ^ 32) / 2147483648 = 1) as -> by (change (2 ^ 32) with 4294967296;
        change (- 2 ^ 31) with (-2147483648) in Hv; Z.div_mod_to_equations; lia).
      done.
  - rewrite u32_id by done. rewrite (thresholds32 bsr) by done. unfold UInt32Size. lia.
Qed.

Lemma element_size_bound bsr ZigZag SignExtended v :
  negb (ZigZag && SignExtended) = true -> element_ok (ZigZag || SignExtended) v ->
  0 <= element_size bsr ZigZag SignExtended v <= 10.
Proof.
  intros Hz Hv. unfold element_size, SInt32Size, Int32Size, UInt32Size, VarintSize32SignExtended.
  destruct ZigZag, SignExtended; simpl in *; try done.
  - pose proof (VarintSize32_bounds bsr (ZigZagEncode32 v) (ZigZagEncode32_range v Hv)). lia.
  - pose proof (VarintSize64_bounds bsr (u64 v) (u64_range v)). lia.
  - pose proof (VarintSize32_bounds bsr v Hv). lia.
Qed.

(** The first loop: both sums, modulo [2^32]. *)
Lemma vector_loop (ZigZag SignExtended : bool) data sum msb :
  negb (ZigZag && SignExtended) = true ->
  fold_left (fun '(sum, msb_sum) v =>
      let x := u32 v in
      let x := if ZigZag then ZigZagEncode32 (s32 x) else x in
      let msb_sum := if negb ZigZag && SignExtended then u32 (msb_sum + Z.shiftr x 31)
                     else msb_sum in
      (u32 (sum + varint_thresholds x), msb_sum)) data (u32 sum, u32 msb)
  = (u32 (sum + sum_sizes (fun v => varint_thresholds (vector_x ZigZag v)) data),
     u32 (msb + if SignExtended then sum_sizes (fun v => Z.shiftr (u32 v) 31) data else 0)).
Proof.
  intros Hz. revert sum msb. induction data as [|v data IH]; intros sum msb; simpl.
  { do 2 f_equal; [lia|]. destruct SignExtended; lia. }
  rewrite u32_add_l. fold (vector_x ZigZag v).
  destruct ZigZag, SignExtended; simpl in *; try done; rewrite ?u32_add_l, IH;
    do 2 f_equal; lia.
Qed.

Lemma VarintSize_sum bsr (ZigZag SignExtended : bool) data :
  negb (ZigZag && SignExtended) = true ->
  Forall (element_ok (ZigZag || SignExtended)) data -> 10 * zlen data < 2 ^ 32 ->
  VarintSize bsr ZigZag SignExtended data
  = sum_sizes (element_size bsr ZigZag SignExtended) data.
Proof.
  intros Hz Hok Hlen. unfold VarintSize. pose proof (zlen_nonneg data).
  rewrite vector_length by done. set (m := 32 * (zlen data / 32)).
  assert (0 <= m <= zlen data) as Hm by (unfold m; Z.div_mod_to_equations; lia).
  change (u32 m, 0) with (u32 m, u32 0). rewrite vector_loop by done.
  rewrite (fold_sum u32) by (intros; apply u32_add_l).
  set (head := ztake m data). set (tl := zdrop m data).
  assert (data = head ++ tl) as Ed by (symmetry; apply ztake_zdrop).
  assert (zlen head = m) as Eh by (unfold head; zl).
  assert (Forall (element_ok (ZigZag || SignExtended)) head /\
          Forall (element_ok (ZigZag || SignExtended)) tl) as [Hh Ht].
  { rewrite Ed in Hok. by apply Forall_app in Hok. }
  assert (0 <= sum_sizes (element_size bsr ZigZag SignExtended) data <= 10 * zlen data) as Hb.
  { apply sum_sizes_bound. eapply Forall_impl; [done|]. intros v Hv.
    by apply element_size_bound. }
  assert (Hhead : m + sum_sizes (fun v => varint_thresholds (vector_x ZigZag v)) head
    + (if SignExtended then sum_sizes (fun v => Z.shiftr (u32 v) 31) head else 0) * 5
    = sum_sizes (element_size bsr ZigZag SignExtended) head).
  { rewrite <- Eh, <- (Z.mul_1_l (zlen head)), <- sum_sizes_const.
    assert ((if SignExtended then sum_sizes (fun v => Z.shiftr (u32 v) 31) head else 0) * 5
      = sum_sizes (fun v => (if SignExtended then Z.shiftr (u32 v) 31 else 0) * 5) head) as ->.
    { destruct SignExtended; [apply sum_sizes_scale|].
      rewrite (sum_sizes_const (0 * 5)). lia. }
    rewrite <- !sum_sizes_plus. apply sum_sizes_ext. eapply Forall_impl; [done|].
    intros v Hv. by apply vector_element. }
  assert (Htail : foldr (fun v acc => (if ZigZag then SInt32Size bsr (s32 (u32 v))
      else if SignExtended then Int32Size bsr (s32 (u32 v)) else UInt32Size bsr (u32 v)) + acc)
      0 tl = sum_sizes (element_size bsr ZigZag SignExtended) tl).
  { apply (sum_sizes_ext (fun v => _)). eapply Forall_impl; [done|]. intros v Hv.
    unfold element_size. destruct ZigZag, SignExtended; simpl in *; try done;
      rewrite ?s32_of_u32, ?u32_id by done; done. }
  rewrite Htail. rewrite Ed at 1. rewrite sum_sizes_app, <- Hhead.
  rewrite Ed, sum_sizes_app, <- Hhead in Hb.
  destruct SignExtended.
  - transitivity (u32 (m + sum_sizes (fun v => varint_thresholds (vector_x ZigZag v)) head
      + sum_sizes (fun v => Z.shiftr (u32 v) 31) head * 5
      + sum_sizes (element_size bsr ZigZag true) tl)).
    + generalize (sum_sizes (fun v => varint_thresholds (vector_x ZigZag v)) head) as a.
      generalize (sum_sizes (fun v => Z.shiftr (u32 v) 31) head) as b.
      generalize (sum_sizes (element_size bsr ZigZag true) tl) as c. intros. wrap_congr.
    + apply u32_id. unfold is_u32. rewrite <- Ed in Hb. lia.
  - rewrite u32_id; [lia|]. unfold is_u32. rewrite <- Ed in Hb. lia.
Qed.

Definition element_size64 (bsr ZigZag : bool) (v : Z) : Z :=
  if ZigZag then SInt64Size bsr v else UInt64Size bsr v.
Definition element_ok64 (ZigZag : bool) (v : Z) : Prop := if ZigZag then is_s64 v else is_u64 v.

Definition vector_size64 (ZigZag : bool) (v : Z) : Z :=
  let x := if ZigZag then ZigZagEncode64 (s64 (u64 v)) else u64 v in
  if Z.shiftl 1 35 <=? x then 5 + varint_thresholds (Z.shiftr x 35) else varint_thresholds x.

Lemma vector_element64 bsr (ZigZag : bool) v :
  element_ok64 ZigZag v -> 1 + vector_size64 ZigZag v = element_size64 bsr ZigZag v.
Proof.
  intros Hv. unfold vector_size64, element_size64. destruct ZigZag; simpl in *.
  - rewrite s64_u64 by done. rewrite (thresholds64 bsr) by (by apply ZigZagEncode64_range). done.
  - rewrite u64_id by done. by rewrite (thresholds64 bsr) by done.
Qed.

Lemma element_size64_bound bsr ZigZag v :
  element_ok64 ZigZag v -> 0 <= element_size64 bsr ZigZag v <= 10.
Proof.
  intros Hv. unfold element_size64, SInt64Size, UInt64Size. destruct ZigZag; simpl in *.
  - pose proof (VarintSize64_bounds bsr _ (ZigZagEncode64_range v Hv)). lia.
  - pose proof (VarintSize64_bounds bsr v Hv). lia.
Qed.

Lemma fold_left_ext {A B} (f g : A -> B -> A) l a :
  (forall a b, f a b = g a b) -> fold_left f l a = fold_left g l a.
Proof. intros E. revert a. induction l as [|b l IH]; intros a; simpl; [done|]. by rewrite E. Qed.

Lemma VarintSize64_sum bsr (ZigZag : bool) data :
  Forall (element_ok64 ZigZag) data -> 10 * zlen data < 2 ^ 64 ->
  VarintSize64_ bsr ZigZag data = sum_sizes (element_size64 bsr ZigZag) data.
Proof.
  intros Hok Hlen. unfold VarintSize64_. pose proof (zlen_nonneg data).
  rewrite vector_length by done. set (m := 32 * (zlen data / 32)).
  assert (0 <= m <= zlen data) as Hm by (unfold m; Z.div_mod_to_equations; lia).
  rewrite (fold_left_ext _ (fun sum v => u64 (sum + vector_size64 ZigZag v)) (ztake m data)).
  2:{ intros sum v. unfold vector_size64.
      set (x := if ZigZag then _ else _). destruct (Z.shiftl 1 35 <=? x).
      - change (Z.land 5 (u64 (-1))) with 5. change (Z.land 35 (u64 (-1))) with 35.
        rewrite u64_add_l. f_equal. lia.
      - rewrite !Z.land_0_r, Z.shiftr_0_r, u64_add_l. f_equal. lia. }
  rewrite !(fold_sum u64) by (intros; apply u64_add_l).
  set (head := ztake m data). set (tl := zdrop m data).
  assert (data = head ++ tl) as Ed by (symmetry; apply ztake_zdrop).
  assert (zlen head = m) as Eh by (unfold head; zl).
  assert (Forall (element_ok64 ZigZag) head /\ Forall (element_ok64 ZigZag) tl) as [Hh Ht].
  { rewrite Ed in Hok. by apply Forall_app in Hok. }
  assert (0 <= sum_sizes (element_size64 bsr ZigZag) data <= 10 * zlen data) as Hb.
  { apply sum_sizes_bound. eapply Forall_impl; [done|]. intros v. apply element_size64_bound. }
  assert (m + sum_sizes (vector_size64 ZigZag) head
    = sum_sizes (element_size64 bsr ZigZag) head) as Hhead.
  { rewrite <- Eh, <- (Z.mul_1_l (zlen head)), <- sum_sizes_const.
    rewrite <- sum_sizes_plus. apply sum_sizes_ext. eapply Forall_impl; [done|].
    intros v. apply vector_element64. }
  assert (foldr (fun v acc => (if ZigZag then SInt64Size bsr (s64 (u64 v))
      else UInt64Size bsr (u64 v)) + acc) 0 tl
    = sum_sizes (element_size64 bsr ZigZag) tl) as Htail.
  { apply (sum_sizes_ext (fun v => _)). eapply Forall_impl; [done|]. intros v Hv.
    unfold element_size64. destruct ZigZag; simpl in *; by rewrite ?s64_u64, ?u64_id by done. }
  rewrite Htail. rewrite Ed at 1. rewrite sum_sizes_app, <- Hhead. change (foldr _ 0 head) with
    (sum_sizes (vector_size64 ZigZag) head).
  rewrite Ed, sum_sizes_app, <- Hhead in Hb. rewrite <- Ed in Hb.
  apply u64_id. unfold is_u64. lia.
Qed.

(** ** The properties *)

(** A tag keeps both of its parts: the field number and the wire type read
    back from [MakeTag] are those that were put in, every 32-bit tag is made by
    [MakeTag] from its parts (no two pairs share a tag), and the size function
    of tags is the number of bytes written, twice that for a group. *)
Theorem tag_roundtrip bsr n t tag :
  is_field_number n -> 0 <= t < 8 -> is_u32 tag ->
  GetTagFieldNumber (MakeTag n t) = n /\ GetTagWireType (MakeTag n t) = t /\
  MakeTag (GetTagFieldNumber tag) (GetTagWireType tag) = tag /\
  forall ft, zlen (WriteTagToArray n t) * (if decide (ft = TYPE_GROUP) then 2 else 1)
             = TagSize bsr n ft.
Proof.
  intros Hn Ht Htag. assert (0 <= n < 2 ^ 29) as Hn' by (destruct Hn; lia).
  destruct (MakeTag_fields n t Hn' Ht) as [-> ->]. split_and!; [done..| |].
  - symmetry. by apply tag_split.
  - intros ft. unfold TagSize, WriteTagToArray, Varint.WriteTagToArray, WriteVarint32ToArray.
    unfold zlen. rewrite (length_UnsafeVarint_size32 bsr) by apply MakeTag_range.
    assert (VarintSize32 bsr (MakeTag n t)
      = VarintSize32 bsr (u32 (Z.shiftl n kTagTypeBits))) as ->.
    { rewrite MakeTag_eq by done. unfold kTagTypeBits. rewrite Z.shiftl_mul_pow2 by lia.
      change (2 ^ 29) with 536870912 in *. change (2 ^ 3) with 8.
      rewrite u32_id by ilia. unfold VarintSize32. rewrite !varint_size_log2 by lia.
      assert (Z.log2 (8 * n + t) = Z.log2 (n * 8)) as ->; [|done].
      destruct Hn as [Hn _]. replace (n * 8) with (n * 2 ^ 3) by lia.
      rewrite Z.log2_mul_pow2 by lia. pose proof (Z.log2_spec n Hn) as [Hlo Hhi].
      pose proof (Z.log2_nonneg n). apply Z.log2_unique; [lia|].
      replace (Z.succ (3 + Z.log2 n)) with (3 + Z.succ (Z.log2 n)) by lia.
      rewrite !Z.pow_add_r by lia. lia. }
    case_decide; lia.
Qed.

(** C32: The bytes of a scalar are what the tables and size functions announce,
    for each of the fourteen scalar types and every value of its C++ type: the
    wire type in [kWireTypeForFieldType] describes them, so a reader that only
    knows the wire type finds their end whatever follows, and the type's size
    function is their number. *)
Theorem scalar_wire_format bsr t v rest :
  is_scalar t = true -> in_range t v ->
  zlen (WriteNoTagToArray t v) = ScalarSize bsr t v /\
  match WireTypeForFieldType t with
  | 0 => vdecode kMaxVarintBytes (WriteNoTagToArray t v ++ rest) = Some (raw_value t v, rest)
  | 1 => zlen (WriteNoTagToArray t v) = 8 /\ le_value (WriteNoTagToArray t v) = raw_value t v
  | 5 => zlen (WriteNoTagToArray t v) = 4 /\ le_value (WriteNoTagToArray t v) = raw_value t v
  | _ => False
  end.
Proof.
  intros Hs Hv. split; [by apply ScalarSize_eq|].
  pose proof (WriteNoTag_wire t v Hv) as Hw. pose proof (raw_value_u64 t v Hv) as Hr.
  pose proof (raw_value_u32 t v Hv) as Hr32.
  destruct t; try done; cbn -[WriteNoTagToArray raw_value] in Hw |- *;
    first [rewrite Hw; by apply vdecode_UnsafeVarint
          |rewrite Hw; split; [done|]; apply le_value_write32, Hr32; done
          |destruct Hw as [_ ->]; split; [done|]; by apply le_value_write64].
Qed.

(** The sum of varint sizes written for vector registers equals the plain
    loop for each of its five instantiations (signed with sign extension,
    unsigned, zig-zag; 64-bit unsigned and zig-zag): for repeated fields of any
    length below the point where the 32-bit accumulator could wrap, negative
    values included, and whether or not the length is a multiple of 32. *)
Theorem vectorized_sizes_equal_loops bsr data :
  10 * zlen data < 2 ^ 32 ->
  (Forall is_s32 data -> VarintSize bsr false true data = RepeatedSize (Int32Size bsr) data) /\
  (Forall is_u32 data -> VarintSize bsr false false data = RepeatedSize (UInt32Size bsr) data) /\
  (Forall is_s32 data -> VarintSize bsr true false data = RepeatedSize (SInt32Size bsr) data) /\
  (Forall is_u64 data -> VarintSize64_ bsr false data = RepeatedSize (UInt64Size bsr) data) /\
  (Forall is_s64 data -> VarintSize64_ bsr true data = RepeatedSize (SInt64Size bsr) data).
Proof.
  intros Hlen. rewrite !RepeatedSize_sum. pose proof (zlen_nonneg data).
  assert (forall f, Forall (fun v => 0 <= f v <= 10) data ->
    u64 (sum_sizes f data) = sum_sizes f data) as Hu.
  { intros f Hf. apply sum_sizes_bound in Hf. apply u64_id. unfold is_u64. lia. }
  split_and!; intros Hok.
  - rewrite (VarintSize_sum bsr false true) by done. symmetry. apply Hu.
    eapply Forall_impl; [exact Hok|]. intros v. by apply (element_size_bound bsr false true).
  - rewrite (VarintSize_sum bsr false false) by done. symmetry. apply Hu.
    eapply Forall_impl; [exact Hok|]. intros v. by apply (element_size_bound bsr false false).
  - rewrite (VarintSize_sum bsr true false) by done. symmetry. apply Hu.
    eapply Forall_impl; [exact Hok|]. intros v. by apply (element_size_bound bsr true false).
  - rewrite (VarintSize64_sum bsr false) by (done || lia). symmetry. apply Hu.
    eapply Forall_impl; [exact Hok|]. intros v. by apply (element_size64_bound bsr false).
  - rewrite (VarintSize64_sum bsr true) by (done || lia). symmetry. apply Hu.
    eapply Forall_impl; [exact Hok|]. intros v. by apply (element_size64_bound bsr true).
Qed.

Lemma zlen_concat_sizes bsr t data :
  Forall (in_range t) data ->
  zlen (concat (map (WriteNoTagToArray t) data)) = sum_sizes (ScalarSize bsr t) data.
Proof.
  induction 1 as [|v l Hv H IH]; [done|]. cbn [map concat]. rewrite zlen_app, IH.
  by rewrite (ScalarSize_eq bsr) by done.
Qed.

Lemma ScalarSize_bounds bsr t v : is_scalar t = true -> in_range t v -> 1 <= ScalarSize bsr t v <= 10.
Proof.
  intros Hs Hv. assert (forall n, is_u64 n -> 1 <= VarintSize64 bsr n <= 10) as H64
    by (intros; by apply VarintSize64_bounds).
  assert (forall n, is_u32 n -> 1 <= VarintSize32 bsr n <= 10) as H32.
  { intros n Hn. pose proof (VarintSize32_bounds bsr n Hn). lia. }
  destruct t; try done; simpl in *;
    try (unfold kFixed32Size, kFixed64Size, kSFixed32Size, kSFixed64Size, kFloatSize,
           kDoubleSize, kBoolSize; lia);
    first [apply H64, u64_range | apply H64, ZigZagEncode64_range; done
          |apply H32, ZigZagEncode32_range; done|apply H64; done|apply H32; done].
Qed.

(** The size computed for a packed field, and the size cached for its
    contents, are the bytes that writing it takes: the values back to back,
    behind their length as a varint, behind the tag; for every scalar type and
    any number of values up to the 2 GiB limit of the format. *)
Theorem packed_field_size bsr t data tag_size :
  is_scalar t = true -> Forall (in_range t) data -> data <> [] ->
  10 * zlen data <= INT_MAX -> 0 <= tag_size <= 5 ->
  exists body,
    WritePrimitiveNoTagToArray (WriteNoTagToArray t) data = Some body /\
    SizeWithPackedTagSize bsr (RepeatedSize (ScalarSize bsr t)) data tag_size
      = Some (tag_size + zlen (WriteVarint32ToArray (zlen body)) + zlen body, zlen body).
Proof.
  intros Hs Hv Hne Hlen Htag. exists (concat (map (WriteNoTagToArray t) data)).
  split; [by destruct data|]. set (body := concat _).
  pose proof (zlen_concat_sizes bsr t data Hv) as Hb. fold body in Hb.
  assert (0 <= sum_sizes (ScalarSize bsr t) data <= 10 * zlen data) as Hsum.
  { apply sum_sizes_bound. eapply Forall_impl; [done|]. intros v Hv'.
    pose proof (ScalarSize_bounds bsr t v Hs Hv'). lia. }
  assert (0 < sum_sizes (ScalarSize bsr t) data) as Hpos.
  { destruct data as [|v data]; [done|]. apply Forall_cons in Hv as [Hv Hvs].
    pose proof (ScalarSize_bounds bsr t v Hs Hv).
    pose proof (sum_sizes_bound (ScalarSize bsr t) 10 data) as Hb'. simpl.
    unfold sum_sizes in *. destruct Hb'; [|lia]. eapply Forall_impl; [done|]. intros w Hw.
    pose proof (ScalarSize_bounds bsr t w Hs Hw). lia. }
  unfold SizeWithPackedTagSize. rewrite RepeatedSize_sum, <- Hb in *.
  rewrite u64_id by ilia. rewrite s32_id by ilia.
  destruct data as [|v data]; [done|]. destruct (Z.eqb_spec (zlen body) 0); [lia|].
  unfold WriteVarint32ToArray. rewrite (zlen_varint bsr) by ilia.
  unfold Int32Size, VarintSize32SignExtended. rewrite (u64_id (zlen body)) by ilia.
  pose proof (VarintSize64_bounds bsr (zlen body) ltac:(ilia)).
  do 2 f_equal. rewrite u64_id by ilia. lia.
Qed.

(** On a little-endian machine the values of a fixed-width packed field are
    copied from memory in one piece; the bytes are those of the portable loop
    that calls the type's writer on each value. *)
Theorem fixed_array_memcpy data :
  WriteFixedNoTagToArray true 4 WriteFixed32NoTagToArray data
    = WriteFixedNoTagToArray false 4 WriteFixed32NoTagToArray data /\
  WriteFixedNoTagToArray true 8 WriteFixed64NoTagToArray data
    = WriteFixedNoTagToArray false 8 WriteFixed64NoTagToArray data /\
  WriteFixedNoTagToArray true 4 WriteSFixed32NoTagToArray data
    = WriteFixedNoTagToArray false 4 WriteSFixed32NoTagToArray data /\
  WriteFixedNoTagToArray true 8 WriteSFixed64NoTagToArray data
    = WriteFixedNoTagToArray false 8 WriteSFixed64NoTagToArray data.
Proof.
  assert (forall n (W : Z -> list byte), (forall v, le_bytes n v = W v) ->
    WriteFixedNoTagToArray true n W data = WriteFixedNoTagToArray false n W data) as Hall.
  { intros n W HW. unfold WriteFixedNoTagToArray, WritePrimitiveNoTagToArray.
    destruct data as [|v l]; [done|]. do 2 f_equal. apply map_ext, HW. }
  split_and!; apply Hall; intros v.
  - apply le_bytes_write32.
  - apply le_bytes_write64.
  - rewrite le_bytes_write32. unfold WriteSFixed32NoTagToArray, WriteLittleEndian32ToArray.
    by rewrite z2b_u32, !z2b_u32_shiftr by lia.
  - unfold WriteSFixed64NoTagToArray. rewrite <- le_bytes_write64. cbn [le_bytes].
    rewrite !Z.shiftr_shiftr by lia. by rewrite z2b_u64, !z2b_u64_shiftr by lia.
Qed.

(** ** At concrete inputs *)

Lemma tag_roundtrip_witness :
  GetTagFieldNumber (MakeTag 5 2) = 5 /\ GetTagWireType (MakeTag 5 2) = 2 /\
  MakeTag (GetTagFieldNumber 300) (GetTagWireType 300) = 300.
Proof.
  destruct (tag_roundtrip true 5 2 300) as (? & ? & ? & _);
    [unfold is_field_number; change (2 ^ 29) with 536870912; lia|lia|ilia|done].
Defined.

Lemma scalar_wire_format_witness :
  vdecode kMaxVarintBytes (WriteNoTagToArray TYPE_SINT32 (-3) ++ [z2b 1]) = Some (5, [z2b 1]).
Proof. apply (scalar_wire_format true TYPE_SINT32 (-3) [z2b 1] eq_refl). simpl. ilia. Defined.

Lemma vectorized_sizes_equal_loops_witness :
  VarintSize true false true (replicate 33 (-1) ++ [5])
  = RepeatedSize (Int32Size true) (replicate 33 (-1) ++ [5]).
Proof.
  apply (vectorized_sizes_equal_loops true (replicate 33 (-1) ++ [5])); [by vm_compute|].
  apply Forall_app; split; [|constructor; [ilia|constructor]].
  apply Forall_replicate. ilia.
Defined.

Lemma packed_field_size_witness :
  exists body,
    WritePrimitiveNoTagToArray (WriteNoTagToArray TYPE_INT32) [1; -1; 300] = Some body /\
    SizeWithPackedTagSize true (RepeatedSize (ScalarSize true TYPE_INT32)) [1; -1; 300] 1
      = Some (1 + zlen (WriteVarint32ToArray (zlen body)) + zlen body, zlen body).
Proof.
  apply (packed_field_size true TYPE_INT32 [1; -1; 300] 1); [done| |done|by vm_compute|lia].
  repeat constructor; simpl; ilia.
Defined.
