(* ===== verification/WireRead.v ===== *)
(** * Reading fields

    The field readers of [wire_format_lite.h] over a [CodedInputStream] and a
    [RepeatedField]: one scalar, an unpacked run of a repeated field, a packed
    field, and the two fast paths for fixed-width types. A float or a double
    is its bit pattern, as in [WireFormatLite.v]. The theorems compare each
    reader with the plain element-by-element reading of the same bytes. *)

From S2P Require Import Prelude Varint ZeroCopyStream CodedInput RepeatedField WireFormatLite.

(** ** The readers *)

(** [sizeof(CType)] of the C++ type of a scalar. *)
Definition sizeof (t : FieldType) : Z :=
  match FieldTypeToCppType t with
  | Some (CPPTYPE_INT64 | CPPTYPE_UINT64 | CPPTYPE_DOUBLE) => 8
  | Some CPPTYPE_BOOL => 1
  | _ => 4
  end.

(** The types with a [READ_REPEATED_FIXED_SIZE_PRIMITIVE] specialisation. *)
Definition fixed_size (t : FieldType) : bool :=
  match t with
  | TYPE_FIXED32 | TYPE_FIXED64 | TYPE_SFIXED32 | TYPE_SFIXED64
  | TYPE_FLOAT | TYPE_DOUBLE => true
  | _ => false
  end.

(** [ReadPrimitiveFromArray]: the value and the rest of the array. *)
Definition ReadPrimitiveFromArray (t : FieldType) (buffer : list byte)
    : option (Z * list byte) :=
  match t with
  | TYPE_FIXED32 | TYPE_FLOAT => ReadLittleEndian32FromArray buffer
  | TYPE_FIXED64 | TYPE_DOUBLE => ReadLittleEndian64FromArray buffer
  | TYPE_SFIXED32 => '(temp, r) ← ReadLittleEndian32FromArray buffer; Some (s32 temp, r)
  | TYPE_SFIXED64 => '(temp, r) ← ReadLittleEndian64FromArray buffer; Some (s64 temp, r)
  | _ => None
  end.

(** [ExpectTagFromArray]: the array after the tag, or the null pointer. *)
Definition ExpectTagFromArray (buffer : list byte) (expected : Z)
    : option (option (list byte)) :=
  if expected <? Z.shiftl 1 7 then
    b0 ← at_ buffer 0;
    Some (if b0 =? expected then Some (drop 1 buffer) else None)
  else if expected <? Z.shiftl 1 14 then
    b0 ← at_ buffer 0;
    if b0 =? u8 (Z.lor expected 0x80) then
      b1 ← at_ buffer 1;
      Some (if b1 =? u8 (Z.shiftr expected 7) then Some (drop 2 buffer) else None)
    else Some None
  else Some None.

Section readers.
Context {S : Type} `{ZeroCopyInputStreamOk S}.
Notation CIS := (M (CodedInput.t S)).

(** The specialisations of [ReadPrimitive]; [None] is the result [false]. *)
Definition ReadPrimitive (t : FieldType) : CIS (option Z) :=
  let read (m : CIS (Z * bool)) (f : Z -> Z) :=
    let* (temp, ok) := m in ret (if ok : bool then Some (f temp) else None) in
  let fixed (m : CIS (bool * Z)) (f : Z -> Z) :=
    let* (ok, temp) := m in ret (if ok : bool then Some (f temp) else None) in
  match t with
  | TYPE_INT32 => read ReadVarint32 s32
  | TYPE_INT64 => read ReadVarint64 s64
  | TYPE_UINT32 => read ReadVarint32 (fun temp => temp)
  | TYPE_UINT64 => read ReadVarint64 (fun temp => temp)
  | TYPE_SINT32 => read ReadVarint32 ZigZagDecode32
  | TYPE_SINT64 => read ReadVarint64 ZigZagDecode64
  | TYPE_FIXED32 => fixed ReadLittleEndian32 (fun temp => temp)
  | TYPE_FIXED64 => fixed ReadLittleEndian64 (fun temp => temp)
  | TYPE_SFIXED32 => fixed ReadLittleEndian32 s32
  | TYPE_SFIXED64 => fixed ReadLittleEndian64 s64
  | TYPE_FLOAT => fixed ReadLittleEndian32 (fun temp => temp)
  | TYPE_DOUBLE => fixed ReadLittleEndian64 (fun temp => temp)
  | TYPE_BOOL => read ReadVarint64 (fun temp => if temp =? 0 then 0 else 1)
  | TYPE_ENUM => read ReadVarint32 s32
  | TYPE_STRING | TYPE_GROUP | TYPE_MESSAGE | TYPE_BYTES => undef
  end.

(** [ReadBytesToString]: the length is converted to [int] for [ReadString]. *)
Definition ReadBytes (value : list byte) : CIS (bool * list byte) :=
  let* (length, ok) := ReadVarint32 in
  if ok : bool then CodedInput.ReadString value (s32 length) else ret (false, value).

Definition ReadString (value : list byte) : CIS (bool * list byte) := ReadBytes value.

(** The two objects the repeated readers work on. *)
Notation RF := (RepeatedField.t Z).
Notation RM := (M (CodedInput.t S * RF)).

Context (t : FieldType) (AllocateAtLeast : Z -> Z * Z) (ArenaAllocate : Z -> Z).
Notation add v := (on_snd (RepeatedField.Add (sizeof t) AllocateAtLeast ArenaAllocate v)).
Notation add_reserved v := (on_snd (AddAlreadyReserved (sizeof t) v)).
Notation capacity s := (Capacity (sizeof t) (snd s)).

(** The loop of [ReadRepeatedPrimitive]; it runs at most
    [elements_already_reserved] times. *)
Fixpoint ReadRepeatedPrimitive_loop (elements_already_reserved : nat) (tag : Z) : RM bool :=
  match elements_already_reserved with
  | O => ret true
  | Datatypes.S n =>
      let* expected := on_fst (ExpectTag tag) in
      if expected : bool then
        let* value := on_fst (ReadPrimitive t) in
        match value with
        | None => ret false
        | Some value => add_reserved value ;;; ReadRepeatedPrimitive_loop n tag
        end
      else ret true
  end.

Definition ReadRepeatedPrimitive_generic (tag : Z) : RM bool :=
  let* value := on_fst (ReadPrimitive t) in
  match value with
  | None => ret false
  | Some value =>
      add value ;;;
      let* s := getS in
      ReadRepeatedPrimitive_loop (Z.to_nat (capacity s - size s.2)) tag
  end.

(** The loop of [ReadRepeatedFixedSizePrimitive]: [n] is
    [elements_available - num_read], the result [num_read]. *)
Fixpoint ReadRepeatedFixedSize_loop (n : nat) (tag num_read : Z) (buffer : list byte) : RM Z :=
  match n with
  | O => ret num_read
  | Datatypes.S n =>
      let* expected := lift (ExpectTagFromArray buffer tag) in
      match expected with
      | None => ret num_read
      | Some buffer =>
          let* (value, buffer) := lift (ReadPrimitiveFromArray t buffer) in
          add_reserved value ;;;
          ReadRepeatedFixedSize_loop n tag (num_read + 1) buffer
      end
  end.

(** The pointer that [GetDirectBufferPointerInline] returns is into the chunk;
    [size] is what it may be read for. *)
Definition ReadRepeatedFixedSizePrimitive (prefer_bsr : bool) (tag_size tag : Z) : RM bool :=
  if negb (UInt32Size prefer_bsr tag =? tag_size) then undef else
  let* value := on_fst (ReadPrimitive t) in
  match value with
  | None => ret false
  | Some value =>
      add value ;;;
      let* s := getS in
      let buffer := chunk s.1 in
      let size := BufferSize s.1 in
      if 0 <? size then
        let per_value_size := tag_size + sizeof t in
        let elements_available :=
          Z.min (capacity s - RepeatedField.size s.2) (size / per_value_size) in
        let* num_read := ReadRepeatedFixedSize_loop (Z.to_nat elements_available) tag 0 buffer in
        let read_bytes := num_read * per_value_size in
        (if 0 <? read_bytes
         then (let* _ := on_fst (CodedInput.Skip read_bytes) in ret tt) else ret tt) ;;;
        ret true
      else ret true
  end.

(** The template and its specialisations. *)
Definition ReadRepeatedPrimitive (prefer_bsr : bool) (tag_size tag : Z) : RM bool :=
  if fixed_size t then ReadRepeatedFixedSizePrimitive prefer_bsr tag_size tag
  else ReadRepeatedPrimitive_generic tag.

(** The loop of [ReadPackedPrimitive]; every round reads a byte or ends. *)
Fixpoint ReadPackedPrimitive_loop (n : nat) : RM bool :=
  let* s := getS in
  if 0 <? BytesUntilLimit s.1 then
    match n with
    | O => undef
    | Datatypes.S n =>
        let* value := on_fst (ReadPrimitive t) in
        match value with
        | None => ret false
        | Some value => add value ;;; ReadPackedPrimitive_loop n
        end
    end
  else ret true.

Definition ReadPackedPrimitive_generic : RM bool :=
  let* (length, ok) := on_fst ReadVarintSizeAsInt in
  if negb ok then ret false else
  let* limit := on_fst (PushLimit length) in
  let* s := getS in
  let* ok := ReadPackedPrimitive_loop (Z.to_nat (BytesUntilLimit s.1)) in
  if negb ok then ret false else
  on_fst (PopLimit limit) ;;; ret true.

(** [for (int i = 0; i < new_entries; ++i)], with the way a value is added. *)
Fixpoint ReadPacked_entries (add_value : Z -> RM unit) (n : nat) : RM bool :=
  match n with
  | O => ret true
  | Datatypes.S n =>
      let* value := on_fst (ReadPrimitive t) in
      match value with
      | None => ret false
      | Some value => add_value value ;;; ReadPacked_entries add_value n
      end
  end.

(** The little-endian bytes of [n] values seen as values. *)
Fixpoint raw_elements (n : nat) (l : list byte) : list Z :=
  match n with
  | O => []
  | Datatypes.S n =>
      let bits := le_value (ztake (sizeof t) l) in
      match t with TYPE_SFIXED32 => s32 bits | TYPE_SFIXED64 => s64 bits | _ => bits end
      :: raw_elements n (zdrop (sizeof t) l)
  end.

(** [memcpy] into [values] from entry [from] on: the bytes past those copied
    keep the zeros [Resize] put there. *)
Definition copy_into (from n : Z) (bytes : list byte) : RM unit :=
  on_snd (modS (fun v => RepeatedField.mk (soo_rep_ v)
    (ztake from (elems v) ++ raw_elements (Z.to_nat n) bytes) (heap_arena v))).

Definition ReadPackedFixedSizePrimitive (little_endian : bool) : RM bool :=
  let* (length, ok) := on_fst ReadVarintSizeAsInt in
  if negb ok then ret false else
  let* old_entries := on_snd (gets size) in
  let new_entries := length / sizeof t in
  let new_bytes := new_entries * sizeof t in
  if negb (new_bytes =? length) then ret false else
  let* s := getS in
  let bytes_limit :=
    if BytesUntilTotalBytesLimit s.1 =? -1 then BytesUntilLimit s.1
    else Z.min (BytesUntilTotalBytesLimit s.1) (BytesUntilLimit s.1) in
  if new_bytes <=? bytes_limit then
    if little_endian then
      on_snd (Resize (sizeof t) AllocateAtLeast ArenaAllocate (old_entries + new_entries) 0) ;;;
      let* (ok, bytes) := on_fst (ReadRaw new_bytes) in
      copy_into old_entries new_entries bytes ;;;
      if negb ok then on_snd (Truncate (sizeof t) old_entries) ;;; ret false
      else ret true
    else
      on_snd (Reserve (sizeof t) AllocateAtLeast ArenaAllocate (old_entries + new_entries)) ;;;
      ReadPacked_entries (fun value => add_reserved value) (Z.to_nat new_entries)
  else ReadPacked_entries (fun value => add value) (Z.to_nat new_entries).

Definition ReadPackedPrimitive (little_endian : bool) : RM bool :=
  if fixed_size t then ReadPackedFixedSizePrimitive little_endian
  else ReadPackedPrimitive_generic.
End readers.

(** ** Reading element by element *)

(** The value of a scalar from the varint or the bits on the wire. *)
Definition from_wire (t : FieldType) (x : Z) : Z :=
  match t with
  | TYPE_INT32 | TYPE_ENUM => s32 (u32 x)
  | TYPE_INT64 => s64 (u64 x)
  | TYPE_UINT32 => u32 x
  | TYPE_UINT64 => u64 x
  | TYPE_SINT32 => ZigZagDecode32 (u32 x)
  | TYPE_SINT64 => ZigZagDecode64 (u64 x)
  | TYPE_BOOL => if u64 x =? 0 then 0 else 1
  | TYPE_SFIXED32 => s32 x
  | TYPE_SFIXED64 => s64 x
  | _ => x
  end.

Definition bits_spec (k : Z) (l : list byte) : option (Z * list byte) :=
  if k <=? zlen l then Some (le_value (ztake k l), zdrop k l) else None.

(** One scalar off the front of a list. *)
Definition raw_spec (t : FieldType) (l : list byte) : option (Z * list byte) :=
  if fixed_size t then bits_spec (sizeof t) l else vdecode kMaxVarintBytes l.
Definition prim_spec (t : FieldType) (l : list byte) : option (Z * list byte) :=
  '(x, r) ← raw_spec t l; Some (from_wire t x, r).

(** Scalars to the end of the list, and whether all of it was read. *)
Fixpoint all_spec (t : FieldType) (n : nat) (l : list byte) : list Z * bool :=
  match l, n with
  | [], _ => ([], true)
  | _, O => ([], false)
  | _, S n =>
      match prim_spec t l with
      | Some (v, l) => let (vs, ok) := all_spec t n l in (v :: vs, ok)
      | None => ([], false)
      end
  end.

(** [n] scalars. *)
Fixpoint count_spec (t : FieldType) (n : nat) (l : list byte)
    : list Z * option (list byte) :=
  match n with
  | O => ([], Some l)
  | S n =>
      match prim_spec t l with
      | Some (v, l) => let (vs, r) := count_spec t n l in (v :: vs, r)
      | None => ([], None)
      end
  end.

(** The body of a packed field; a fixed-width body of the wrong length is
    refused before anything is read. *)
Definition packed_spec (t : FieldType) (body : list byte) : list Z * bool :=
  if fixed_size t && negb (zlen body mod sizeof t =? 0) then ([], false)
  else all_spec t (length body) body.

(** [n] more elements, each with its tag in front. *)
Fixpoint tagged_spec (t : FieldType) (tag : Z) (n : nat) (l : list byte)
    : list Z * option (list byte) :=
  match n with
  | O => ([], Some l)
  | S n =>
      let k := zlen (UnsafeVarint tag) in
      if negb (bool_decide (ztake k l = UnsafeVarint tag)) then ([], None) else
      match prim_spec t (zdrop k l) with
      | Some (v, l) => let (vs, r) := tagged_spec t tag n l in (v :: vs, r)
      | None => ([], None)
      end
  end.

#[local] Arguments vdecode : simpl never.
#[local] Arguments kMaxVarintBytes : simpl never.
#[local] Opaque kMaxVarintBytes.

Lemma fixed_wire t : fixed_size t = true ->
  WireTypeForFieldType t = (if sizeof t =? 8 then 1 else 5) /\ (sizeof t = 4 \/ sizeof t = 8) /\
  is_scalar t = true.
Proof. destruct t; simpl; intros; split_and!; auto; done. Qed.

Lemma sizeof_cases t : sizeof t = 1 \/ sizeof t = 4 \/ sizeof t = 8 \/ sizeof t = 16.
Proof. destruct t; cbv; auto. Qed.

Lemma bits_spec_suffix k l x r :
  0 < k -> bits_spec k l = Some (x, r) -> exists c, l = c ++ r /\ zlen c = k.
Proof.
  unfold bits_spec. intros Hk. destruct (Z.leb_spec k (zlen l)); [|done]. intros [= <- <-].
  exists (ztake k l). rewrite ztake_zdrop. split; [done|zl].
Qed.

Lemma raw_spec_suffix t l x r : raw_spec t l = Some (x, r) -> exists c, l = c ++ r /\ 0 < zlen c.
Proof.
  unfold raw_spec. destruct (fixed_size t) eqn:E.
  - pose proof (fixed_wire t E) as (_ & ? & _).
    intros (c & -> & Hc)%bits_spec_suffix; [|lia]. exists c. split; [done|lia].
  - intros (c & -> & Hc)%vdecode_suffix. exists c. split; [done|]. unfold zlen. lia.
Qed.

Lemma prim_spec_suffix t l v r :
  prim_spec t l = Some (v, r) -> exists c, l = c ++ r /\ 0 < zlen c.
Proof.
  unfold prim_spec. destruct (raw_spec t l) as [[x r']|] eqn:E; simpl; [|done].
  intros [= <- <-]. by eapply raw_spec_suffix.
Qed.

Lemma from_wire_raw t v : is_scalar t = true -> in_range t v -> from_wire t (raw_value t v) = v.
Proof.
  destruct t; simpl; intros; try done;
    rewrite ?u32_u64, ?(u64_id (u64 _)), ?(u64_id (ZigZagEncode64 _)), ?(u32_id (ZigZagEncode32 _))
      by (apply u64_range || by apply ZigZagEncode64_range || by apply ZigZagEncode32_range);
    rewrite ?s32_u32, ?s64_u64, ?ZigZag32_decode_encode, ?ZigZag64_decode_encode by done;
    try done; try (rewrite u64_id by ilia; done); try (rewrite u32_id by done; done).
  rewrite u64_id by ilia. destruct (Z.eqb_spec v 0); lia.
Qed.

Lemma prim_spec_write t v k :
  is_scalar t = true -> in_range t v ->
  prim_spec t (WriteNoTagToArray t v ++ k) = Some (v, k).
Proof.
  intros Hs Hv. unfold prim_spec.
  assert (raw_spec t (WriteNoTagToArray t v ++ k) = Some (raw_value t v, k)) as ->.
  2:{ simpl. by rewrite from_wire_raw. }
  pose proof (WriteNoTag_wire t v Hv) as Hw. pose proof (raw_value_u64 t v Hv) as Hr.
  pose proof (raw_value_u32 t v Hv) as Hr32. unfold raw_spec, bits_spec.
  destruct t; try done; cbn -[WriteNoTagToArray raw_value] in Hw |- *;
    try (rewrite Hw; by apply vdecode_UnsafeVarint);
    [destruct Hw as [_ Hw]| |destruct Hw as [_ Hw]| | |destruct Hw as [_ Hw]]; rewrite Hw;
    change (sizeof _) with 4 || change (sizeof _) with 8;
    rewrite ztake_app_exact, zdrop_app_exact by done;
    rewrite (proj2 (Z.leb_le _ _)) by (rewrite zlen_app; pose proof (zlen_nonneg k); 
      change (zlen (WriteLittleEndian64ToArray _)) with 8;
      change (zlen (WriteLittleEndian32ToArray _)) with 4; lia);
    do 2 f_equal; first [apply le_value_write32, Hr32; done | by apply le_value_write64].
Qed.

Section lemmas.
Context {S : Type} `{ZeroCopyInputStreamOk S}.
Implicit Type s : CodedInput.t S.

(** The reader has moved past [c]. *)
Lemma moved_to c k s s' :
  avail s = c ++ k -> moved (zlen (avail s) - zlen k) s s' -> avail s' = k.
Proof.
  intros Ea Hm. rewrite (moved_avail (zlen (avail s) - zlen k) s s') by (done || (rewrite Ea; zl)).
  rewrite Ea. apply zdrop_app_exact. zl.
Qed.

(** ** One scalar *)

Definition prim_read (s s' : CodedInput.t S) (r : option (Z * list byte)) (v : option Z) : Prop :=
  flags s' = flags s /\
  match r with
  | Some (x, l) => v = Some x /\ moved (zlen (avail s) - zlen l) s s'
  | None => v = None /\ failed s s'
  end.

Lemma bits_read k s s' (f : Z -> Z) (ok : bool) x :
  0 <= k ->
  flags s' = flags s /\ moved (Z.min k (zlen (avail s))) s s' /\
  (ok, x) = (if k <=? zlen (avail s) then (true, le_value (ztake k (avail s))) else (false, 0)) ->
  prim_read s s' ('(x, r) ← bits_spec k (avail s); Some (f x, r))
    (if ok then Some (f x) else None).
Proof.
  intros Hk (Hf & Hm & E). split; [done|]. unfold bits_spec.
  destruct (Z.leb_spec k (zlen (avail s))); simplify_eq/=.
  - split; [done|]. rewrite Z.min_l in Hm by lia.
    replace (_ - _) with k by zl. done.
  - split; [done|]. eapply moved_failed; [|done]. zl.
Qed.

Lemma varint_read s s' (result : option Z -> Z * bool) (f g : Z -> Z) r v :
  decoded s s' r -> v = result r ->
  (forall x, result (Some x) = (g x, true)) -> (result None).2 = false ->
  prim_read s s' ('(x, l) ← vdecode kMaxVarintBytes (avail s); Some (f (g x), l))
    (if v.2 then Some (f v.1) else None).
Proof.
  intros [Hf Hd] -> Hsome Hnone. split; [done|].
  destruct (vdecode _ _) as [[x l]|]; destruct Hd as [-> Hm]; simpl.
  - by rewrite Hsome.
  - by rewrite Hnone.
Qed.

Lemma ReadPrimitive_wp t s :
  is_scalar t = true -> Inv s ->
  wp (ReadPrimitive t) s (fun v s' => prim_read s s' (prim_spec t (avail s)) v).
Proof.
  intros Hs HI.
  assert (forall f, wp (let* (temp, ok) := ReadVarint32 in
      ret (if ok : bool then Some (f temp) else None)) s (fun v s' =>
      prim_read s s' ('(x, l) ← vdecode kMaxVarintBytes (avail s); Some (f (u32 x), l)) v)) as H32.
  { intros f. wp_step. wp_use ReadVarint32_wp; [done|]. intros v s' (r & Hd & Hv).
    eapply varint_read with (result := result32) (f := f) in Hd; [|done..].
    destruct v. by wp_step. }
  assert (forall f, wp (let* (temp, ok) := ReadVarint64 in
      ret (if ok : bool then Some (f temp) else None)) s (fun v s' =>
      prim_read s s' ('(x, l) ← vdecode kMaxVarintBytes (avail s); Some (f (u64 x), l)) v)) as H64.
  { intros f. wp_step. wp_use ReadVarint64_wp; [done|]. intros v s' (r & Hd & Hv).
    eapply varint_read with (result := result64) (f := f) in Hd; [|done..].
    destruct v. by wp_step. }
  assert (forall k f, 0 <= k -> wp (let* (ok, temp) := ReadLittleEndian k in
      ret (if ok : bool then Some (f temp) else None)) s (fun v s' =>
      prim_read s s' ('(x, l) ← bits_spec k (avail s); Some (f x, l)) v)) as Hk.
  { intros k f Hk. wp_step. wp_use ReadLittleEndian_wp; [done..|]. intros [ok v] s' Hr.
    wp_step. by apply bits_read. }
  destruct t; try done; unfold ReadPrimitive, prim_spec, raw_spec; cbn -[prim_read];
    first [apply (Hk 4); lia | apply (Hk 8); lia | apply H32 | apply H64].
Qed.

(** ** The repeated readers *)

Notation RF := (RepeatedField.t Z).
Implicit Type v : RF.

Context (t : FieldType) (AllocateAtLeast : Z -> Z * Z) (ArenaAllocate : Z -> Z).
Hypothesis scalar : is_scalar t = true.
Hypothesis alloc_ok : forall bytes,
  address (fst (AllocateAtLeast bytes)) /\ bytes <= snd (AllocateAtLeast bytes).
Hypothesis arena_ok : forall bytes, address (ArenaAllocate bytes).
Notation wf v := (wf (sizeof t) v).

(** [x] values were added to [v]. *)
Definition grown (vs : list Z) v v' : Prop := wf v' /\ elems v' = elems v ++ vs.

Lemma grown_trans l k v1 v2 v3 : grown l v1 v2 -> grown k v2 v3 -> grown (l ++ k) v1 v3.
Proof. intros [? E1] [? E2]. split; [done|]. by rewrite E2, E1, app_assoc. Qed.

Lemma grown_nil v : wf v -> grown [] v v.
Proof. intros. split; [done|]. by rewrite app_nil_r. Qed.

Lemma add_grown x v :
  wf v -> size v < INT_MAX ->
  wp (RepeatedField.Add (sizeof t) AllocateAtLeast ArenaAllocate x) v
    (fun _ v' => grown [x] v v' /\ size v' = size v + 1).
Proof.
  intros Hv Hn. wp_use (@add_wp Z); [by apply sizeof_cases|done..|].
  intros [] v' (Hv' & E & _). split; [done|].
  rewrite (wf_size _ (sizeof_cases t) v'), (wf_size _ (sizeof_cases t) v), E by done. zl.
Qed.

Lemma add_reserved_grown x v :
  wf v -> size v < Capacity (sizeof t) v ->
  wp (AddAlreadyReserved (sizeof t) x) v (fun _ v' =>
    grown [x] v v' /\ size v' = size v + 1 /\ Capacity (sizeof t) v' = Capacity (sizeof t) v).
Proof.
  intros Hv Hn. pose proof (wf_size _ (sizeof_cases t) v Hv) as Hsz.
  unfold AddAlreadyReserved. wp_step. wp_step. destruct (Z.ltb_spec (size v) (Capacity (sizeof t) v)); [|lia].
  wp_use (@exchange_wp Z); [by apply sizeof_cases|done|zl|lia|].
  intros [] v' [(Hv' & E & _) HC]. split; [done|].
  rewrite (wf_size _ (sizeof_cases t) v') by done. rewrite E. split; [zl|done].
Qed.

(** *** Packed, one by one *)

Lemma budget s :
  Inv s -> current_limit_ s = CurrentPosition s + zlen (avail s) -> current_limit_ s < INT_MAX ->
  BytesUntilLimit s = zlen (avail s).
Proof.
  intros HI El Hl. unfold BytesUntilLimit. destruct (Z.eqb_spec (current_limit_ s) INT_MAX); lia.
Qed.

Lemma moved_current k s s' :
  0 <= k <= zlen (avail s) -> moved k s s' ->
  current_limit_ s = CurrentPosition s + zlen (avail s) ->
  current_limit_ s' = CurrentPosition s' + zlen (avail s') /\ current_limit_ s' = current_limit_ s /\
  zlen (avail s') = zlen (avail s) - k.
Proof.
  intros Hk Hm El. pose proof (moved_avail k s s' ltac:(lia) Hm) as Ea.
  destruct Hm as (_ & Hcfg & Hp & _). unfold cfg in Hcfg. simplify_eq. rewrite Ea. zl.
Qed.

(** The state after reading values off [avail s]: [vs] were added, and [l] is
    left if all reads succeeded. *)
Definition elements_read (s : CodedInput.t S) v (vs : list Z) (l : option (list byte))
    (ok : bool) (sv : CodedInput.t S * RF) : Prop :=
  grown vs v sv.2 /\ size sv.2 = size v + zlen vs /\ flags sv.1 = flags s /\
  match l with
  | Some l => ok = true /\ moved (zlen (avail s) - zlen l) s sv.1
  | None => ok = false /\ failed s sv.1
  end.

Lemma elements_read_nil s v s' (ok : bool) l :
  wf v -> flags s' = flags s ->
  match l with
  | Some l => ok = true /\ moved (zlen (avail s) - zlen l) s s'
  | None => ok = false /\ failed s s'
  end -> elements_read s v [] l ok (s', v).
Proof. intros. split; [by apply grown_nil|]. split; [simpl; zl|done]. Qed.

Lemma elements_read_cons s v x l s1 v1 vs r ok sv :
  prim_spec t (avail s) = Some (x, l) ->
  moved (zlen (avail s) - zlen l) s s1 -> flags s1 = flags s ->
  grown [x] v v1 -> size v1 = size v + 1 ->
  (forall l', r = Some l' -> zlen l' <= zlen l) ->
  elements_read s1 v1 vs r ok sv -> elements_read s v (x :: vs) r ok sv.
Proof.
  intros (c & E & Hc)%prim_spec_suffix Hm Hf Hg Hs Hr (Hg' & Hs' & Hf' & Hl).
  split; [by eapply (grown_trans [x])|]. split; [zl|]. split; [congruence|].
  assert (zlen (avail s) - zlen l = zlen c) as En by (rewrite E; zl).
  rewrite En in Hm.
  assert (avail s1 = l) as Ea.
  { rewrite (moved_avail (zlen c) s s1) by (lia || done). rewrite E. by apply zdrop_app_exact. }
  destruct r as [l'|]; destruct Hl as [-> Hl].
  - split; [done|]. specialize (Hr l' eq_refl). rewrite Ea in Hl.
    replace (_ - _) with (zlen c + (zlen l - zlen l')) by lia.
    eapply moved_trans; [lia..|done|done].
  - split; [done|]. eapply moved_failed_trans; [|done|done]. lia.
Qed.

Lemma all_spec_nil n : all_spec t n [] = ([], true).
Proof. by destruct n. Qed.

Lemma packed_loop_wp n s v :
  Inv s -> wf v -> current_limit_ s = CurrentPosition s + zlen (avail s) ->
  current_limit_ s < INT_MAX -> (length (avail s) <= n)%nat ->
  size v + zlen (avail s) <= INT_MAX ->
  wp (ReadPackedPrimitive_loop t AllocateAtLeast ArenaAllocate n) (s, v) (fun ok sv =>
    let r := all_spec t n (avail s) in
    elements_read s v r.1 (if r.2 : bool then Some [] else None) ok sv).
Proof.
  revert s v. induction n as [|n IH]; intros s v HI Hv El Hl Hn Hmax.
  - assert (avail s = []) as Ea by (destruct (avail s); [done|simpl in Hn; lia]).
    simpl. apply wp_bind, wp_getS. simpl. rewrite budget by done. rewrite Ea. simpl.
    apply wp_ret. apply elements_read_nil; try done. rewrite Ea.
    split; [done|]. by apply moved_refl.
  - simpl. apply wp_bind, wp_getS. simpl. rewrite budget by done.
    destruct (avail s) as [|b l0] eqn:Ea.
    { simpl. apply wp_ret. apply elements_read_nil; try done. rewrite Ea.
      split; [done|]. by apply moved_refl. }
    rewrite (proj2 (Z.ltb_lt 0 _)) by zl. rewrite <- Ea in *.
    apply wp_bind, on_fst_wp. wp_use ReadPrimitive_wp; [done|done|].
    intros r s1 [Hf Hr]. destruct (prim_spec t (avail s)) as [[x l]|] eqn:Ep; destruct Hr as [-> Hr].
    2:{ apply wp_ret. by apply elements_read_nil. }
    pose proof Ep as (c & Ec & Hc)%prim_spec_suffix.
    assert (zlen (avail s) - zlen l = zlen c) as En by (rewrite Ec; zl).
    pose proof (zlen_nonneg l).
    assert (avail s1 = l) as Ea1.
    { rewrite (moved_avail (zlen c) s s1); [rewrite Ec; by apply zdrop_app_exact|lia|].
      by rewrite <- En. }
    destruct (moved_current (zlen c) s s1) as (El1 & El1' & Hz1); [rewrite Ec; zl| |done|].
    { by rewrite <- En. }
    apply wp_bind, on_snd_wp. wp_use add_grown; [done|lia|].
    intros [] v1 [Hg Hs]. wp_use IH; [apply Hr|apply Hg|done|lia| |lia|].
    { revert Hn Hz1 Hc. rewrite Ec. unfold zlen. rewrite length_app. lia. }
    intros ok sv Hrec. rewrite Ea1 in Hrec. destruct (all_spec t n l) as [vs b'] eqn:Eall.
    eapply elements_read_cons; [done..| |done].
    intros l' Hl'. destruct b'; [|done]. injection Hl' as <-. zl.
Qed.

(** *** Packed, fixed width *)

Lemma prim_spec_fixed l :
  fixed_size t = true -> sizeof t <= zlen l ->
  prim_spec t l = Some (from_wire t (le_value (ztake (sizeof t) l)), zdrop (sizeof t) l).
Proof.
  intros E Hl. unfold prim_spec, raw_spec, bits_spec. rewrite E.
  by rewrite (proj2 (Z.leb_le _ _) Hl).
Qed.

Lemma raw_elements_cons n l :
  fixed_size t = true ->
  raw_elements t (Datatypes.S n) l
    = from_wire t (le_value (ztake (sizeof t) l)) :: raw_elements t n (zdrop (sizeof t) l).
Proof. by destruct t. Qed.

Lemma length_raw_elements n l : length (raw_elements t n l) = n.
Proof. revert l. induction n as [|n IH]; intros l; simpl; [done|]. by rewrite IH. Qed.

Lemma count_spec_raw n body k :
  fixed_size t = true -> zlen body = Z.of_nat n * sizeof t ->
  count_spec t n (body ++ k) = (raw_elements t n body, Some k).
Proof.
  intros E. pose proof (fixed_wire t E) as (_ & Hs & _).
  revert body. induction n as [|n IH]; intros body Hb.
  - by rewrite (zlen_0 body) by lia.
  - cbn [count_spec]. rewrite prim_spec_fixed by (done || zl).
    rewrite raw_elements_cons, ztake_app, zdrop_app by done.
    rewrite (ztake_0 (_ - _) k), (zdrop_0 (_ - _) k), app_nil_r by lia.
    by rewrite IH by zl.
Qed.

Lemma all_spec_raw n m body :
  fixed_size t = true -> zlen body = Z.of_nat n * sizeof t -> (n <= m)%nat ->
  all_spec t m body = (raw_elements t n body, true).
Proof.
  intros E. pose proof (fixed_wire t E) as (_ & Hs & _).
  revert m body. induction n as [|n IH]; intros m body Hb Hm.
  - rewrite (zlen_0 body) by lia. apply all_spec_nil.
  - destruct m as [|m]; [lia|]. destruct body as [|b l]; [change (zlen []) with 0 in Hb; lia|].
    cbn [all_spec]. rewrite prim_spec_fixed by (done || lia).
    rewrite raw_elements_cons by done. rewrite IH; [done|zl|lia].
Qed.

Lemma count_spec_length n l vs l' : count_spec t n l = (vs, Some l') -> zlen l' <= zlen l.
Proof.
  revert l vs. induction n as [|n IH]; intros l vs; simpl; [intros [= _ ->]; lia|].
  destruct (prim_spec t l) as [[y l1]|] eqn:E1; [|done].
  destruct (count_spec t n l1) as [vs1 r1] eqn:E2. intros [= _ ->].
  apply IH in E2. apply prim_spec_suffix in E1 as (c & -> & _). zl.
Qed.

Lemma entries_wp (P : nat -> RF -> Prop) add_value n s v :
  (forall x n s v, wf v -> P (Datatypes.S n) v -> wp (add_value x) (s, v) (fun _ sv =>
     sv.1 = s /\ grown [x] v sv.2 /\ size sv.2 = size v + 1 /\ P n sv.2)) ->
  Inv s -> wf v -> P n v ->
  wp (ReadPacked_entries t add_value n) (s, v) (fun ok sv =>
    let r := count_spec t n (avail s) in elements_read s v r.1 r.2 ok sv).
Proof.
  intros Hadd. revert s v. induction n as [|n IH]; intros s v HI Hv HP; cbn [ReadPacked_entries].
  - apply wp_ret. simpl. apply elements_read_nil; try done. split; [done|].
    rewrite Z.sub_diag. by apply moved_refl.
  - apply wp_bind, on_fst_wp. wp_use ReadPrimitive_wp; [done|done|].
    intros r s1 [Hf Hr]. simpl.
    destruct (prim_spec t (avail s)) as [[x l]|] eqn:Ep; destruct Hr as [-> Hr].
    2:{ apply wp_ret. by apply elements_read_nil. }
    pose proof Ep as (c & Ec & Hc)%prim_spec_suffix.
    assert (avail s1 = l) as Ea1.
    { by apply (moved_to _ _ _ _ Ec Hr). }
    apply wp_bind. wp_use (Hadd x n s1 v); [done|done|].
    intros [] [s2 v1]. simpl. intros (-> & Hg & Hs & HP'). wp_use IH; [apply Hr|apply Hg|done|].
    intros ok sv Hrec. rewrite Ea1 in Hrec. destruct (count_spec t n l) as [vs r'] eqn:Eall.
    eapply elements_read_cons; [done..| |done].
    intros l' El. simpl in El. subst. by eapply count_spec_length.
Qed.

(** *** Packed fields *)

Lemma read_size_wp n l s :
  Inv s -> 0 <= n <= INT_MAX -> avail s = WriteVarint32ToArray n ++ l ->
  wp ReadVarintSizeAsInt s (fun r s1 =>
    r = (n, true) /\ flags s1 = flags s /\ moved (zlen (avail s) - zlen l) s s1 /\ avail s1 = l).
Proof.
  intros HI Hn Ea. wp_use ReadVarintSizeAsInt_wp; [done|]. intros r s1 [Hf Hv].
  assert (vdecode kMaxVarintBytes (avail s) = Some (n, l)) as Ed.
  { rewrite Ea. apply vdecode_UnsafeVarint. unfold INT_MAX in *. ilia. }
  rewrite Ed, (u64_id n), (proj2 (Z.leb_le n INT_MAX)) in Hv by (unfold INT_MAX in *; ilia).
  destruct Hv as [-> Hm]. split_and!; try done.
  by apply (moved_to _ _ _ _ Ea Hm).
Qed.

(** After a failure a pushed limit stays installed. *)
Definition packed_read s v (body k : list byte) (ok : bool) (sv : CodedInput.t S * RF) : Prop :=
  let r := packed_spec t body in
  grown r.1 v sv.2 /\ ok = r.2 /\
  if r.2 then moved (zlen (avail s) - zlen k) s sv.1 else Inv sv.1.

Lemma avail_fits s : Inv s -> zlen (avail s) <= current_limit_ s - CurrentPosition s.
Proof.
  intros HI. pose proof (core_pos _ (inv_core _ HI)). unfold avail, closest in *. zl.
Qed.

Lemma packed_generic_wp body k s v :
  fixed_size t = false -> Inv s -> wf v ->
  avail s = WriteVarint32ToArray (zlen body) ++ body ++ k -> zlen body <= INT_MAX ->
  CurrentPosition s + zlen (avail s) < INT_MAX -> size v + zlen body <= INT_MAX ->
  wp (ReadPackedPrimitive_generic t AllocateAtLeast ArenaAllocate) (s, v) (packed_read s v body k).
Proof.
  intros E HI Hv Ea Hb Hp Hmax. pose proof (zlen_nonneg body).
  unfold ReadPackedPrimitive_generic. apply wp_bind, on_fst_wp.
  wp_use (read_size_wp (zlen body) (body ++ k)); [done|lia|done|].
  intros r s1 (-> & Hf & Hm & Ea1). cbn. apply wp_bind, on_fst_wp.
  pose proof (avail_fits s1 ltac:(apply Hm)) as Hfit. rewrite Ea1, zlen_app in Hfit.
  assert (CurrentPosition s1 = CurrentPosition s + (zlen (avail s) - zlen (body ++ k))) as Ep1
    by apply Hm.
  wp_use PushLimit_wp; [apply Hm|]. intros old s2 (-> & Hf2 & Hr & Ha2).
  specialize (Ha2 ltac:(lia)). rewrite Ea1, ztake_app_exact in Ha2 by done.
  assert (current_limit_ s2 = CurrentPosition s1 + zlen body /\
          CurrentPosition s2 = CurrentPosition s1 /\ current_limit_ s2 <= current_limit_ s1)
    as (El2 & Ep2 & Hle).
  { destruct Hr as (_ & Hcfg & Hpos & _). unfold cfg in Hcfg. simplify_eq/=.
    pose proof (zlen_nonneg k). rewrite Hpos.
    match goal with HH : current_limit_ s2 = _ |- _ => rewrite HH end.
    case_cmp; simpl; lia. }
  apply wp_bind, wp_getS. apply wp_bind. cbv beta.
  assert (current_limit_ s2 < INT_MAX) by (pose proof (zlen_nonneg k); zl).
  assert (BytesUntilLimit s2 = zlen body) as Eb.
  { rewrite budget; [by rewrite Ha2|apply Hr|by rewrite Ha2, El2, Ep2|done]. }
  wp_use packed_loop_wp; try done; [apply Hr|by rewrite Ha2; lia| |rewrite Ha2; lia|].
  { cbn. rewrite Eb, Ha2. unfold zlen. lia. }
  cbn. rewrite Eb, Ha2. replace (Z.to_nat (zlen body)) with (length body) by (unfold zlen; lia).
  intros ok [s3 v3] (Hg & _ & Hf3 & Hl).
  assert (packed_spec t body = all_spec t (length body) body) as Espec
    by (unfold packed_spec; by rewrite E).
  unfold packed_read. rewrite Espec.
  destruct (all_spec t (length body) body) as [vs [|]]; simpl in *; destruct Hl as [-> Hl]; simpl.
  - apply wp_bind, on_fst_wp.
    assert (Hl' := Hl). destruct Hl' as (HI3 & Hcfg3 & _).
    wp_use PopLimit_wp; [done|eapply pop_limit_ok; [|exact Hr|..]; try done; [apply Hm|]|].
    { destruct Hr as (_ & Hcfg & _). unfold cfg in Hcfg. simplify_eq/=. congruence. }
    intros [] s4 (H4 & _ & _). apply wp_ret. split_and!; try done; simpl.
    replace (zlen (avail s) - zlen k)
      with ((zlen (avail s) - zlen (body ++ k)) + (zlen body - zlen (@nil byte))) by zl.
    eapply moved_trans; [rewrite Ea; zl|zl|done|].
    rewrite Ha2 in Hl. eapply relimited_trans; [exact Hr|exact Hl|exact H4].
  - apply wp_ret. split_and!; try done. apply Hl.
Qed.

Lemma raw_elements_app n body k :
  fixed_size t = true -> zlen body = Z.of_nat n * sizeof t ->
  raw_elements t n (ztake (zlen body) (body ++ k)) = raw_elements t n body.
Proof. intros. by rewrite ztake_app_exact. Qed.

(** The fast path: the bytes are copied over entries that [Resize] made. *)
Lemma packed_memcpy_wp n body k s v :
  fixed_size t = true -> Inv s -> wf v ->
  avail s = body ++ k -> zlen body = Z.of_nat n * sizeof t ->
  size v + zlen body <= INT_MAX ->
  wp (on_snd (Resize (sizeof t) AllocateAtLeast ArenaAllocate (size v + Z.of_nat n) 0) ;;;
      let* (ok, bytes) := on_fst (ReadRaw (zlen body)) in
      copy_into t (size v) (Z.of_nat n) bytes ;;;
      if negb ok then on_snd (Truncate (sizeof t) (size v)) ;;; ret false
      else ret true) (s, v) (fun ok sv =>
    grown (raw_elements t n body) v sv.2 /\ ok = true /\ moved (zlen body) s sv.1).
Proof.
  intros E HI Hv Ea Hb Hmax. pose proof (fixed_wire t E) as (_ & Hsz & _).
  pose proof (wf_size _ (sizeof_cases t) v Hv) as Hs. pose proof (zlen_nonneg (elems v)).
  assert (size v + Z.of_nat n <= INT_MAX) by lia.
  apply wp_bind, on_snd_wp.
  wp_use (@resize_wp Z); [by apply sizeof_cases|done..|lia|].
  intros [] v1 (Hv1 & E1 & _). apply wp_bind, on_fst_wp. wp_use ReadRaw_wp; [done|lia|].
  intros [ok out] s1 (Hm & _ & -> & ->). pose proof (zlen_nonneg k).
  rewrite Ea, zlen_app, Z.min_l in Hm by lia.
  rewrite (proj2 (Z.leb_le _ _)) by (rewrite Ea, zlen_app; lia).
  rewrite Ea, ztake_app_exact by done. unfold copy_into. apply wp_bind, on_snd_wp, wp_modS.
  apply wp_ret. simpl. rewrite Nat2Z.id.
  assert (ztake (size v) (elems v1) = elems v) as ->.
  { rewrite E1, (ztake_all (size v + _)) by lia. by apply ztake_app_exact. }
  split; [|done]. split; [|done].
  apply same_length_wf; [done|]. rewrite E1, !length_app, length_raw_elements, length_replicate.
  rewrite (ztake_all (size v + _)) by lia. lia.
Qed.

Lemma packed_fixed_wp little_endian body k s v :
  fixed_size t = true -> Inv s -> wf v ->
  avail s = WriteVarint32ToArray (zlen body) ++ body ++ k -> zlen body <= INT_MAX ->
  size v + zlen body <= INT_MAX ->
  wp (ReadPackedFixedSizePrimitive t AllocateAtLeast ArenaAllocate little_endian) (s, v)
    (packed_read s v body k).
Proof.
  intros E HI Hv Ea Hb Hmax. pose proof (fixed_wire t E) as (_ & Hsz & _).
  pose proof (zlen_nonneg body). unfold ReadPackedFixedSizePrimitive. apply wp_bind, on_fst_wp.
  wp_use (read_size_wp (zlen body) (body ++ k)); [done|lia|done|].
  intros r s1 (-> & Hf & Hm & Ea1). cbn -[Z.mul Z.div]. apply wp_bind, on_snd_wp, wp_gets.
  unfold packed_read, packed_spec. rewrite E. cbn [andb].
  destruct (Z.eqb_spec (zlen body / sizeof t * sizeof t) (zlen body)) as [Hdiv|Hdiv]; cycle 1.
  { apply wp_ret. destruct (Z.eqb_spec (zlen body mod sizeof t) 0);
      [Z.div_mod_to_equations; lia|]. split_and!; [by apply grown_nil|done|apply Hm]. }
  replace (zlen body mod sizeof t =? 0) with true
    by (symmetry; apply Z.eqb_eq; Z.div_mod_to_equations; lia).
  cbn [negb]. set (n := Z.to_nat (zlen body / sizeof t)).
  assert (zlen body / sizeof t = Z.of_nat n) as En by (unfold n; Z.div_mod_to_equations; lia).
  rewrite En in *. assert (Z.of_nat n <= zlen body) as Hn by nia.
  rewrite (all_spec_raw n) by (done || lia || (unfold zlen in Hn; lia)).
  assert (Hdone : forall s' v', grown (raw_elements t n body) v v' /\ moved (zlen body) s1 s' ->
    grown (raw_elements t n body, true).1 v v' /\ true = (raw_elements t n body, true).2 /\
    moved (zlen (avail s) - zlen k) s s').
  { intros s' v' [Hg Hm']. split_and!; try done.
    replace (zlen (avail s) - zlen k)
      with ((zlen (avail s) - zlen (body ++ k)) + zlen body) by zl.
    eapply moved_trans; [rewrite Ea; zl|zl|done..]. }
  assert (Hentries : forall ok sv,
    elements_read s1 v (count_spec t n (avail s1)).1 (count_spec t n (avail s1)).2 ok sv ->
    ok = true /\ grown (raw_elements t n body) v sv.2 /\ moved (zlen body) s1 sv.1).
  { intros ok sv. rewrite Ea1, count_spec_raw by (done || lia). intros (Hg & _ & _ & -> & Hm').
    rewrite Ea1 in Hm'. replace (_ - _) with (zlen body) in Hm' by zl. done. }
  assert (size v + Z.of_nat n <= INT_MAX) as Hfit by lia.
  apply wp_bind, wp_getS. cbv beta. rewrite Hdiv. destruct (zlen body <=? _); [destruct little_endian|].
  - wp_use packed_memcpy_wp; try done; [apply Hm|].
    intros ok [s2 v2] (Hg & -> & Hm2). by apply Hdone.
  - apply wp_bind, on_snd_wp. wp_use (@reserve_wp Z); [by apply sizeof_cases|done..|].
    intros [] v1 [(Hv1 & E1 & _) HC].
    assert (size v1 = size v) as Es by (by rewrite !(wf_size _ (sizeof_cases t)), E1).
    wp_use (entries_wp (fun n v => size v + Z.of_nat n <= Capacity (sizeof t) v)); [|apply Hm|done|lia|].
    { intros x m s2 v2 Hv2 HP. apply on_snd_wp. wp_use add_reserved_grown; [done|lia|].
      intros [] v3 (? & ? & ?). simpl. split_and!; try done. lia. }
    intros ok [s2 v2] Hr.
    assert (elements_read s1 v (count_spec t n (avail s1)).1 (count_spec t n (avail s1)).2 ok (s2, v2)) as Hr'.
    { destruct Hr as ([? Hg] & Hs & Hr). split; [split; [done|by rewrite Hg, E1]|].
      split; [by rewrite Hs, Es|done]. }
    apply Hentries in Hr' as (-> & ? & ?). by apply Hdone.
  - wp_use (entries_wp (fun n v => size v + Z.of_nat n <= INT_MAX)); [|apply Hm|done|lia|].
    { intros x m s2 v2 Hv2 HP. apply on_snd_wp. wp_use add_grown; [done|lia|].
      intros [] v3 (? & ?). simpl. split_and!; try done. lia. }
    intros ok [s2 v2] (-> & ? & ?)%Hentries. by apply Hdone.
Qed.

(** *** Unpacked runs *)

Lemma tagged_spec_step tag n l :
  tagged_spec t tag (Datatypes.S n) (UnsafeVarint tag ++ l) =
  match prim_spec t l with
  | Some (x, l) => let (vs, r) := tagged_spec t tag n l in (x :: vs, r)
  | None => ([], None)
  end.
Proof.
  cbn [tagged_spec]. rewrite ztake_app_exact, zdrop_app_exact by done.
  by rewrite bool_decide_true.
Qed.

Lemma tagged_spec_suffix tag n l vs l' :
  tagged_spec t tag n l = (vs, Some l') -> exists c, l = c ++ l'.
Proof.
  revert l vs. induction n as [|n IH]; intros l vs; simpl; [intros [= _ ->]; by exists []|].
  destruct (bool_decide_reflect (ztake (zlen (UnsafeVarint tag)) l = UnsafeVarint tag)); [|done].
  simpl. destruct (prim_spec t _) as [[y l1]|] eqn:E1; [|done].
  destruct (tagged_spec t tag n l1) as [vs1 r1] eqn:E2. intros [= _ ->].
  apply IH in E2 as [c2 ->]. apply prim_spec_suffix in E1 as (c & E & _).
  rewrite <- (ztake_zdrop (zlen (UnsafeVarint tag)) l), E. eexists. by rewrite !app_assoc.
Qed.

Lemma tagged_spec_length tag n l vs l' :
  tagged_spec t tag n l = (vs, Some l') -> zlen l' <= zlen l.
Proof. intros [c ->]%tagged_spec_suffix. zl. Qed.

(** Why a run of elements ends when none is malformed: the array is full, or the
    tag takes more than the two bytes that are tested, or what the buffer has
    left does not begin with the tag (and an element, in the fixed-width reader). *)
Definition run_ends (tag : Z) s v : Prop :=
  size v = Capacity (sizeof t) v \/ 2 ^ 14 <= tag \/
  ~ exists r, buffer s = UnsafeVarint tag ++ r /\ (fixed_size t = true -> sizeof t <= zlen r).

(** The elements behind the first one. *)
Definition run_read (tag : Z) s v (ok : bool) (sv : CodedInput.t S * RF) : Prop :=
  exists m vs l', tagged_spec t tag m (avail s) = (vs, Some l') /\
    grown vs v sv.2 /\ size sv.2 = size v + zlen vs /\ flags sv.1 = flags s /\
    if ok then moved (zlen (avail s) - zlen l') s sv.1 /\ run_ends tag sv.1 sv.2
    else failed s sv.1 /\ exists k, l' = UnsafeVarint tag ++ k /\ prim_spec t k = None.

Lemma run_read_nil tag s v : Inv s -> wf v -> run_ends tag s v -> run_read tag s v true (s, v).
Proof.
  intros HI Hv He. exists O, [], (avail s). split_and!; try done; [by apply grown_nil|simpl; zl|].
  rewrite Z.sub_diag. by apply moved_refl.
Qed.

Lemma repeated_loop_wp n tag s v :
  fixed_size t = false -> Inv s -> wf v -> is_u32 tag -> size v + Z.of_nat n = Capacity (sizeof t) v ->
  wp (ReadRepeatedPrimitive_loop t n tag) (s, v) (run_read tag s v).
Proof.
  intros E HI Hv Ht. revert s v HI Hv. induction n as [|n IH]; intros s v HI Hv HC;
    cbn [ReadRepeatedPrimitive_loop].
  { apply wp_ret, run_read_nil; [done..|]. left. lia. }
  apply wp_bind, on_fst_wp. wp_use ExpectTag_wp; [done|done|].
  intros [|] s1 [Hf1 Hr]; cycle 1.
  { destruct Hr as [-> Hr]. apply wp_ret, run_read_nil; [done..|]. right.
    destruct Hr as [?|Hr]; [by left|right]. intros (r & Er & _). by apply (Hr r). }
  destruct Hr as (r & Ea & Hm1).
  assert (avail s1 = r) as Ea1.
  { rewrite (moved_avail (zlen (UnsafeVarint tag)) s s1) by (zl || done).
    rewrite Ea. by apply zdrop_app_exact. }
  apply wp_bind, on_fst_wp. wp_use ReadPrimitive_wp; [done|apply Hm1|].
  intros o s2 [Hf2 Hr]. rewrite Ea1 in Hr.
  destruct (prim_spec t r) as [[x l]|] eqn:Ep; destruct Hr as [-> Hr].
  2:{ apply wp_ret. exists O, [], (avail s). split_and!; [done|by apply grown_nil|simpl; zl|simpl; congruence| |].
      - eapply moved_failed_trans; [|done|done]. zl.
      - by exists r. }
  pose proof Ep as (c & Ec & Hc)%prim_spec_suffix.
  assert (moved (zlen (avail s) - zlen l) s s2) as Hm2.
  { replace (_ - _) with (zlen (UnsafeVarint tag) + (zlen r - zlen l)) by (rewrite Ea; zl).
    eapply moved_trans; [zl|rewrite Ec; zl|done..]. }
  assert (avail s2 = l) as Ea2.
  { rewrite (moved_avail (zlen r - zlen l) s1 s2) by (done || (rewrite Ec; zl)).
    rewrite Ea1, Ec. apply zdrop_app_exact. zl. }
  apply wp_bind, on_snd_wp. wp_use add_reserved_grown; [done|lia|].
  intros [] v1 (Hg & Hs & HCap). wp_use IH; [apply Hm2|apply Hg|lia|].
  intros ok sv (m & vs & l' & Hts & Hg' & Hs' & Hf' & Hl). rewrite Ea2 in Hts, Hl.
  exists (Datatypes.S m), (x :: vs), l'. split; [by rewrite Ea, tagged_spec_step, Ep, Hts|].
  split; [by eapply (grown_trans [x])|]. split; [zl|]. split; [congruence|].
  destruct ok; destruct Hl as [Hl Hend]; (split; [|exact Hend]).
  - apply tagged_spec_length in Hts.
    replace (_ - _) with ((zlen (avail s) - zlen l) + (zlen l - zlen l')) by lia.
    eapply moved_trans; [rewrite Ea, Ec; zl|lia|done..].
  - eapply moved_failed_trans; [|exact Hm2|exact Hl]. rewrite Ea, Ec. zl.
Qed.

Lemma ReadPrimitiveFromArray_spec l :
  fixed_size t = true -> sizeof t <= zlen l ->
  ReadPrimitiveFromArray t l = prim_spec t l.
Proof.
  intros E Hl. rewrite prim_spec_fixed by done.
  assert (sizeof t = 4 -> ReadLittleEndian32FromArray l
    = Some (le_value (ztake 4 l), zdrop 4 l)) as H4.
  { intros Hs. unfold ReadLittleEndian32FromArray. rewrite (proj2 (Nat.leb_le _ _)); [done|].
    unfold zlen in Hl. lia. }
  assert (sizeof t = 8 -> ReadLittleEndian64FromArray l
    = Some (le_value (ztake 8 l), zdrop 8 l)) as H8.
  { intros Hs. unfold ReadLittleEndian64FromArray. rewrite (proj2 (Nat.leb_le _ _)); [done|].
    unfold zlen in Hl. lia. }
  clear - H4 H8 E. destruct t; try done; unfold ReadPrimitiveFromArray;
    first [by rewrite H4 | by rewrite H8].
Qed.

(** Room for the tag is enough for both bytes the test looks at. *)
Lemma ExpectTagFromArray_spec l tag :
  is_u32 tag -> zlen (UnsafeVarint tag) <= zlen l ->
  exists r, ExpectTagFromArray l tag = Some r /\
    match r with
    | Some l' => l = UnsafeVarint tag ++ l'
    | None => 2 ^ 14 <= tag \/ forall l', l <> UnsafeVarint tag ++ l'
    end.
Proof.
  intros Ht Hl. unfold ExpectTagFromArray. change (Z.shiftl 1 7) with 128.
  change (Z.shiftl 1 14) with 16384. change (2 ^ 14) with 16384.
  rewrite (UnsafeVarint_unfold tag) in * by (by apply u32_is_u64).
  destruct (Z.ltb_spec tag 128).
  - rewrite (proj2 (Z.leb_gt 128 tag)) in * by lia.
    destruct l as [|b l]; [done|]. simpl.
    destruct (Z.eqb_spec (b2z b) tag) as [<-|Hne]; (eexists; split; [done|]); [by rewrite z2b_b2z, drop_0|].
    right. intros l' [= -> _]. apply Hne, b2z_z2b_small. ilia.
  - rewrite (proj2 (Z.leb_le 128 tag)) in * by lia.
    destruct (Z.ltb_spec tag 16384); [|eexists; split; [done|by left]].
    rewrite UnsafeVarint_unfold in * by (rewrite shiftr_7; unfold_ints; Z.div_mod_to_equations; lia).
    rewrite (proj2 (Z.leb_gt 128 (Z.shiftr tag 7))) in *
      by (rewrite shiftr_7; Z.div_mod_to_equations; lia).
    destruct l as [|b0 [|b1 l]]; [done|done|]. simpl.
    destruct (Z.eqb_spec (b2z b0) (u8 (Z.lor tag 128))) as [E0|Hne];
      [|eexists; split; [done|]; right; intros l' [= -> _ _]; apply Hne, b2z_z2b].
    destruct (Z.eqb_spec (b2z b1) (u8 (Z.shiftr tag 7))) as [E1|Hne];
      [|eexists; split; [done|]; right; intros l' [= _ -> _]; apply Hne, b2z_z2b].
    eexists. split; [done|].
    assert (b0 = z2b (Z.lor tag 128)) as -> by (apply b2z_inj; by rewrite E0, b2z_z2b).
    assert (b1 = z2b (Z.shiftr tag 7)) as -> by (apply b2z_inj; by rewrite E1, b2z_z2b).
    done.
Qed.

(** The loop stays inside the first [n] rounds' worth of bytes [a], so what
    follows them does not matter. *)
Lemma fixed_loop_wp n tag num a b s v :
  fixed_size t = true -> wf v -> is_u32 tag ->
  Z.of_nat n * (zlen (UnsafeVarint tag) + sizeof t) <= zlen a ->
  size v + Z.of_nat n <= Capacity (sizeof t) v ->
  wp (ReadRepeatedFixedSize_loop t n tag num (a ++ b)) (s, v) (fun num' sv =>
    sv.1 = s /\ exists m vs a', num' = num + Z.of_nat m /\
      zlen a' = zlen a - Z.of_nat m * (zlen (UnsafeVarint tag) + sizeof t) /\
      (forall c, tagged_spec t tag m (a ++ c) = (vs, Some (a' ++ c))) /\
      zlen vs = Z.of_nat m /\ grown vs v sv.2 /\ size sv.2 = size v + Z.of_nat m /\
      Capacity (sizeof t) sv.2 = Capacity (sizeof t) v /\
      (m = n \/ 2 ^ 14 <= tag \/ forall l', a' ++ b <> UnsafeVarint tag ++ l')).
Proof.
  intros E Hv Ht. pose proof (fixed_wire t E) as (_ & Hsz & _).
  revert num a v Hv. induction n as [|n IH]; intros num a v Hv Ha HC;
    cbn [ReadRepeatedFixedSize_loop].
  { apply wp_ret. split; [done|]. exists O, [], a. split_and!; try done; try (simpl; lia);
      first [by apply grown_nil|by left]. }
  pose proof (zlen_nonneg (UnsafeVarint tag)) as Hk.
  assert (zlen (UnsafeVarint tag) + sizeof t <= zlen a) as Hone by nia.
  destruct (ExpectTagFromArray_spec (a ++ b) tag) as (r & Er & Hr); [done|zl|].
  apply wp_bind. eapply wp_lift; [done|]. destruct r as [l|]; cycle 1.
  { apply wp_ret. split; [done|]. exists O, [], a. split_and!; try done; try (simpl; lia);
      first [by apply grown_nil|by right]. }
  assert (exists a1, a = UnsafeVarint tag ++ a1 /\ l = a1 ++ b) as (a1 & -> & ->).
  { exists (zdrop (zlen (UnsafeVarint tag)) a). split.
    - rewrite <- (ztake_zdrop (zlen (UnsafeVarint tag)) a) at 1. f_equal.
      apply (f_equal (ztake (zlen (UnsafeVarint tag)))) in Hr.
      rewrite ztake_app, (ztake_0 (_ - _)), app_nil_r, ztake_app_exact in Hr by (done || lia). done.
    - apply (f_equal (zdrop (zlen (UnsafeVarint tag)))) in Hr.
      rewrite zdrop_app, (zdrop_0 (_ - _)), zdrop_app_exact in Hr by (done || lia). done. }
  rewrite zlen_app in Ha, Hone. assert (sizeof t <= zlen a1) as Ha1 by lia.
  rewrite ReadPrimitiveFromArray_spec by (done || zl).
  assert (forall c, prim_spec t (a1 ++ c) = Some (from_wire t (le_value (ztake (sizeof t) a1)),
    zdrop (sizeof t) a1 ++ c)) as Hp.
  { intros c. rewrite prim_spec_fixed by (done || zl). rewrite ztake_app, zdrop_app.
    by rewrite (ztake_0 (_ - _)), (zdrop_0 (_ - _)), app_nil_r by lia. }
  apply wp_bind. eapply wp_lift; [apply Hp|]. cbv beta iota.
  apply wp_bind, on_snd_wp. wp_use add_reserved_grown; [done|lia|].
  intros [] v1 (Hg & Hs & HCap). wp_use IH; [apply Hg|zl; nia|lia|].
  intros num' [s' v'] (Hs' & m & vs & a' & -> & Ha' & Hts & Hvs & Hg' & Hsz' & HCap' & Hend). split; [done|].
  exists (Datatypes.S m), (from_wire t (le_value (ztake (sizeof t) a1)) :: vs), a'.
  split_and!; [lia|zl; lia| |zl|by eapply (grown_trans [_])|lia|congruence|].
  - intros c. by rewrite <- app_assoc, tagged_spec_step, Hp, Hts.
  - destruct Hend as [->|Hend]; [by left|by right].
Qed.

(** What both unpacked readers do: one element, then a run of tagged ones. *)
Definition repeated_read (tag : Z) s v (ok : bool) (sv : CodedInput.t S * RF) : Prop :=
  match prim_spec t (avail s) with
  | None => ok = false /\ grown [] v sv.2 /\ failed s sv.1
  | Some (x, l) => exists m vs l', tagged_spec t tag m l = (vs, Some l') /\ grown (x :: vs) v sv.2 /\
      if ok then avail sv.1 = l' /\ moved (zlen (avail s) - zlen l') s sv.1 /\ run_ends tag sv.1 sv.2
      else failed s sv.1 /\ exists k, l' = UnsafeVarint tag ++ k /\ prim_spec t k = None
  end.

(** The first element, read the same way by both. *)
Lemma repeated_first_wp (f : M (CodedInput.t S * RF) bool) tag s v :
  Inv s -> wf v -> size v < INT_MAX ->
  (forall s1 v1, Inv s1 -> wf v1 ->
    wp f (s1, v1) (run_read tag s1 v1)) ->
  wp (let* value := on_fst (ReadPrimitive t) in
      match value with
      | None => ret false
      | Some value =>
          on_snd (RepeatedField.Add (sizeof t) AllocateAtLeast ArenaAllocate value) ;;; f
      end) (s, v) (repeated_read tag s v).
Proof.
  intros HI Hv Hmax Hf. apply wp_bind, on_fst_wp. wp_use ReadPrimitive_wp; [done|done|].
  intros o s1 [_ Hr]. unfold repeated_read.
  destruct (prim_spec t (avail s)) as [[x l]|] eqn:Ep; destruct Hr as [-> Hr].
  2:{ apply wp_ret. split_and!; [done|by apply grown_nil|done]. }
  pose proof Ep as (c & Ec & Hc)%prim_spec_suffix.
  assert (avail s1 = l) as Ea1.
  { by apply (moved_to _ _ _ _ Ec Hr). }
  apply wp_bind, on_snd_wp. wp_use add_grown; [done|done|]. intros [] v1 (Hg & Hs).
  wp_use Hf; [apply Hr|apply Hg|]. intros ok [s2 v2] (m & vs & l' & Et & Hg' & _ & _ & Hl).
  rewrite Ea1 in Et, Hl. exists m, vs, l'. split; [done|]. split; [by eapply (grown_trans [x])|]. simpl in *.
  destruct ok; destruct Hl as [Hl Hend].
  - apply tagged_spec_suffix in Et as [c' Ec'].
    assert (moved (zlen (avail s) - zlen l') s s2) as Hm.
    { replace (_ - _) with ((zlen (avail s) - zlen l) + (zlen l - zlen l')) by lia.
      eapply moved_trans; [rewrite Ec; zl|rewrite Ec'; zl|done..]. }
    split; [|done]. rewrite (moved_avail (zlen (avail s) - zlen l') s s2) by (done || (rewrite Ec, Ec'; zl)).
    rewrite Ec, Ec', app_assoc. apply zdrop_app_exact. zl.
  - split; [|exact Hend]. eapply moved_failed_trans; [|exact Hr|exact Hl]. rewrite Ec. zl.
Qed.

Lemma repeated_generic_wp tag s v :
  fixed_size t = false -> Inv s -> wf v -> size v < INT_MAX -> is_u32 tag ->
  wp (ReadRepeatedPrimitive_generic t AllocateAtLeast ArenaAllocate tag) (s, v)
    (repeated_read tag s v).
Proof.
  intros E HI Hv Hmax Ht. apply repeated_first_wp; [done..|]. intros s1 v1 HI1 Hv1.
  apply wp_bind, wp_getS. cbv beta. pose proof (wf_capacity _ (sizeof_cases t) v1 Hv1).
  apply repeated_loop_wp; [done..|simpl; lia].
Qed.

Lemma repeated_fixed_wp prefer_bsr tag s v :
  fixed_size t = true -> Inv s -> wf v -> size v < INT_MAX -> is_u32 tag ->
  wp (ReadRepeatedFixedSizePrimitive t AllocateAtLeast ArenaAllocate prefer_bsr
        (UInt32Size prefer_bsr tag) tag) (s, v) (repeated_read tag s v).
Proof.
  intros E HI Hv Hmax Ht. pose proof (fixed_wire t E) as (_ & Hsz & _).
  unfold ReadRepeatedFixedSizePrimitive. rewrite Z.eqb_refl. cbn [negb].
  assert (UInt32Size prefer_bsr tag = zlen (UnsafeVarint tag)) as ->
    by (symmetry; by apply length_UnsafeVarint_size32).
  apply repeated_first_wp; [done..|]. intros s1 v1 HI1 Hv1.
  apply wp_bind, wp_getS. cbv beta. simpl. unfold BufferSize.
  pose proof (wf_capacity _ (sizeof_cases t) v1 Hv1) as Hcap. pose proof (inv_bsize _ HI1).
  pose proof (zlen_buffer s1 HI1) as Hbuf.
  destruct (Z.ltb_spec 0 (bsize s1)); cycle 1.
  { apply wp_ret, run_read_nil; [done..|]. right. right. intros (r & Er & Hr). rewrite Er in Hbuf. specialize (Hr E). zl. }
  set (per := zlen (UnsafeVarint tag) + sizeof t).
  assert (0 < per) by (unfold per; pose proof (zlen_nonneg (UnsafeVarint tag)); lia).
  assert (bsize s1 / per * per <= bsize s1 /\ 0 <= bsize s1 / per) as [Hdiv Hd0]
    by (split; [|apply Z.div_pos]; Z.div_mod_to_equations; nia).
  set (n := Z.to_nat _).
  assert (chunk s1 = buffer s1 ++ zdrop (bsize s1) (chunk s1)) as Ech by (symmetry; apply ztake_zdrop).
  rewrite Ech at 1. apply wp_bind. wp_use fixed_loop_wp; [done..| |unfold n; lia|].
  { fold per. rewrite Hbuf. unfold n. nia. }
  intros num [s2 v2]. simpl. intros (-> & m & vs & a' & -> & Ha' & Hts & Hvs & Hg & Hs & HCap & Hend). fold per in Ha'.
  rewrite Z.add_0_l.
  assert (zdrop (Z.of_nat m * per) (buffer s1) = a') as Ea'.
  { destruct (tagged_spec_suffix _ _ _ _ _ (Hts [])) as [c Ec]. rewrite !app_nil_r in Ec. rewrite Ec.
    apply zdrop_app_exact. rewrite Ec, zlen_app in Ha'. lia. }
  specialize (Hts (zdrop (bsize s1) (avail s1))). rewrite <- avail_split in Hts by done.
  assert (Hfin : forall s3, moved (Z.of_nat m * per) s1 s3 -> flags s3 = flags s1 -> buffer s3 = a' ->
    run_read tag s1 v1 true (s3, v2)).
  { intros s3 Hm Hf Hb3. exists m, vs, (a' ++ zdrop (bsize s1) (avail s1)). split; [done|]. split; [done|].
    split; [simpl; lia|]. split; [done|]. cbn [fst snd]. split.
    - pose proof (bsize_avail s1 HI1). replace (zlen (avail s1) - _) with (Z.of_nat m * per); [done|].
      rewrite (avail_split s1 HI1) at 1. rewrite !zlen_app. lia.
    - unfold run_ends. rewrite Hb3, Hs, HCap. destruct Hend as [->|[?|Hend]]; [|by right; left|].
      + destruct (decide (Capacity (sizeof t) v1 - size v1 <= bsize s1 / per)); [left; unfold n; lia|].
        right. right. intros (r & -> & Hr). specialize (Hr E). rewrite zlen_app, Hbuf in Ha'. fold per in Hr.
        assert (Z.of_nat n = bsize s1 / per) as En by (unfold n; lia). rewrite En in Ha'.
        pose proof (Z.mod_pos_bound (bsize s1) per ltac:(lia)). pose proof (Z.div_mod (bsize s1) per ltac:(lia)).
        unfold per in *. lia.
      + right. right. intros (r & Er & _). rewrite Er, <- app_assoc in Hend. by eapply Hend. }
  apply wp_bind. destruct (Z.ltb_spec 0 (Z.of_nat m * per)).
  - apply wp_bind, on_fst_wp. pose proof (bsize_avail s1 HI1). pose proof (zlen_nonneg a').
    eapply (wp_mono _ _ (fun ok s3 => buffer s3 = a' /\ flags s3 = flags s1 /\ moved (Z.of_nat m * per) s1 s3)).
    + eapply wp_mono; [apply (wp_and _ _ (fun _ s3 => buffer s3 = a')); [|by apply coded_Skip_wp]|].
      2: { cbv beta. intros ok s3 (Hb3 & Hf & -> & Hok).
        rewrite (proj2 (Z.leb_le 0 _)), (proj2 (Z.leb_le _ (zlen (avail s1)))) in Hok by lia.
        split; [exact Hb3|]. by split. }
      unfold CodedInput.Skip. rewrite (proj2 (Z.ltb_ge _ 0)) by lia. apply wp_bind, wp_gets. unfold BufferSize.
      rewrite (proj2 (Z.leb_le _ (bsize s1))) by lia. unfold Advance. apply wp_bind, wp_modS, wp_ret.
      rewrite <- Ea'. unfold buffer. simpl. rewrite zdrop_ztake by lia. done.
    + intros ok s3 (Hb3 & Hf & Hm). apply wp_ret, wp_ret. by apply Hfin.
  - apply wp_ret, wp_ret. assert (Z.of_nat m * per = 0) as E0 by nia. rewrite E0 in *.
    apply Hfin; [by apply moved_refl|done|]. rewrite <- Ea'. by rewrite zdrop_0.
Qed.

Lemma all_spec_write vs n :
  Forall (in_range t) vs -> (length (concat (map (WriteNoTagToArray t) vs)) <= n)%nat ->
  all_spec t n (concat (map (WriteNoTagToArray t) vs)) = (vs, true).
Proof.
  intros Hvs. revert n. induction Hvs as [|x vs Hx Hvs IH]; intros n Hn; simpl; [apply all_spec_nil|].
  simpl in Hn. rewrite length_app in Hn.
  pose proof (ScalarSize_bounds false t x scalar Hx) as Hsz.
  rewrite <- ScalarSize_eq in Hsz by done. unfold zlen in Hsz.
  destruct n as [|n]; [lia|]. destruct (WriteNoTagToArray t x) as [|b l] eqn:Ew; [simpl in Hsz; lia|].
  cbn [app all_spec]. change (b :: l ++ ?k) with ((b :: l) ++ k). rewrite <- Ew.
  rewrite prim_spec_write by done. rewrite IH; [done|]. simpl in Hn. lia.
Qed.

Lemma packed_spec_write vs :
  Forall (in_range t) vs -> packed_spec t (concat (map (WriteNoTagToArray t) vs)) = (vs, true).
Proof.
  intros Hvs. unfold packed_spec. destruct (fixed_size t) eqn:E; [|by apply all_spec_write].
  pose proof (fixed_wire t E) as (_ & Hs & _).
  assert (zlen (concat (map (WriteNoTagToArray t) vs)) = zlen vs * sizeof t) as ->.
  { induction Hvs as [|x vs Hx Hvs IH]; [done|]. simpl. rewrite zlen_app, IH, zlen_cons.
    rewrite (ScalarSize_eq false) by done.
    assert (ScalarSize false t x = sizeof t) as -> by (clear - E; by destruct t). lia. }
  rewrite Z.mod_mul by lia. simpl. by apply all_spec_write.
Qed.
End lemmas.

(** ** The properties *)

Section properties.
Context {S : Type} `{ZeroCopyInputStreamOk S}.
Context (t : FieldType) (AllocateAtLeast : Z -> Z * Z) (ArenaAllocate : Z -> Z).
Implicit Types (s : CodedInput.t S) (v : RepeatedField.t Z).

(** What is written for a scalar is read back: for each of the fourteen
    scalar types and every value of its C++ type, over any stream and from any
    position in its buffers, [ReadPrimitive] returns the value and leaves the
    reader at the byte after it. *)
Theorem primitive_roundtrip x k s :
  is_scalar t = true -> in_range t x -> Inv s -> avail s = WriteNoTagToArray t x ++ k ->
  wp (ReadPrimitive t) s (fun r s' =>
    r = Some x /\ Inv s' /\ avail s' = k /\ flags s' = flags s).
Proof.
  intros Ht Hx HI Ea. wp_use ReadPrimitive_wp; [done|done|]. intros r s' [Hf Hr].
  rewrite Ea, prim_spec_write in Hr by done. destruct Hr as [-> Hm].
  split_and!; [done|apply Hm| |done].
  rewrite <- Ea in Hm. by apply (moved_to _ _ _ _ Ea Hm).
Qed.

(** A packed field is read element by element whatever path is taken. The
    type's specialisation is used ([memcpy] on a little-endian machine, reserved
    entries on a big-endian one, plain [Add] without a usable limit); in all of
    them the elements of the body are appended to the container, no more bytes
    than the body are consumed, and the result is true exactly when the body is
    a sequence of elements. *)
Theorem packed_reads_elements little_endian body k s v :
  is_scalar t = true ->
  (forall bytes, address (fst (AllocateAtLeast bytes)) /\ bytes <= snd (AllocateAtLeast bytes)) ->
  (forall bytes, address (ArenaAllocate bytes)) ->
  Inv s -> wf (sizeof t) v ->
  avail s = WriteVarint32ToArray (zlen body) ++ body ++ k -> zlen body <= INT_MAX ->
  CurrentPosition s + zlen (avail s) < INT_MAX -> size v + zlen body <= INT_MAX ->
  wp (ReadPackedPrimitive t AllocateAtLeast ArenaAllocate little_endian) (s, v)
    (fun ok sv =>
      let (vs, whole) := packed_spec t body in
      ok = whole /\ wf (sizeof t) sv.2 /\ elems sv.2 = elems v ++ vs /\
      if whole then moved (zlen (avail s) - zlen k) s sv.1 else Inv sv.1).
Proof.
  intros Ht Ha Har HI Hv Ea Hb Hp Hmax. unfold ReadPackedPrimitive.
  assert (forall ok sv, packed_read t s v body k ok sv ->
    let (vs, whole) := packed_spec t body in
      ok = whole /\ wf (sizeof t) sv.2 /\ elems sv.2 = elems v ++ vs /\
      if whole then moved (zlen (avail s) - zlen k) s sv.1 else Inv sv.1) as Hr.
  { intros ok sv ([Hw He] & -> & Hl). by destruct (packed_spec t body) as [vs [|]]. }
  destruct (fixed_size t) eqn:E.
  - by wp_use packed_fixed_wp.
  - by wp_use packed_generic_wp.
Qed.

(** C25: What is written for a packed field is read back, with any type, any
    values and any following bytes. *)
Theorem packed_roundtrip little_endian vs k s v :
  is_scalar t = true ->
  (forall bytes, address (fst (AllocateAtLeast bytes)) /\ bytes <= snd (AllocateAtLeast bytes)) ->
  (forall bytes, address (ArenaAllocate bytes)) ->
  Inv s -> wf (sizeof t) v -> Forall (in_range t) vs ->
  let body := concat (map (WriteNoTagToArray t) vs) in
  avail s = WriteVarint32ToArray (zlen body) ++ body ++ k -> zlen body <= INT_MAX ->
  CurrentPosition s + zlen (avail s) < INT_MAX -> size v + zlen body <= INT_MAX ->
  wp (ReadPackedPrimitive t AllocateAtLeast ArenaAllocate little_endian) (s, v)
    (fun ok sv => ok = true /\ elems sv.2 = elems v ++ vs /\ avail sv.1 = k).
Proof.
  intros Ht Ha Har HI Hv Hvs body Ea Hb Hp Hmax.
  assert (forall ok sv, packed_read t s v body k ok sv ->
    ok = true /\ elems sv.2 = elems v ++ vs /\ avail sv.1 = k) as Hr.
  { intros ok sv (Hg & -> & Hl). unfold body in *. rewrite packed_spec_write in * by done.
    simpl in *. split_and!; [done|apply Hg|]. rewrite app_assoc in Ea.
    by apply (moved_to _ _ _ _ Ea Hl). }
  unfold ReadPackedPrimitive. destruct (fixed_size t) eqn:E.
  - by wp_use packed_fixed_wp.
  - by wp_use packed_generic_wp.
Qed.

(** C37: The two unpacked readers of scalar types, the generic loop and the
    fixed-width one that reads tags and values straight from the buffer, both do
    the following, on an array of fewer than [INT_MAX] elements. They append one
    element and then the elements of a run, each preceded by exactly the bytes of
    the tag. The result is false only when the first element is
    malformed, or, with the elements before it appended, one that the tag
    announces. Otherwise the reader stands right behind the last element, and it
    stopped because the array has no reserved room left, or the tag takes more
    than two bytes, or the buffer, as far as it may be read, does not begin with
    the tag (followed by a whole element, in the fixed-width reader). *)
Theorem repeated_reads_elements prefer_bsr tag s v :
  is_scalar t = true ->
  (forall bytes, address (fst (AllocateAtLeast bytes)) /\ bytes <= snd (AllocateAtLeast bytes)) ->
  (forall bytes, address (ArenaAllocate bytes)) ->
  Inv s -> wf (sizeof t) v -> size v < INT_MAX -> is_u32 tag ->
  wp (ReadRepeatedPrimitive t AllocateAtLeast ArenaAllocate prefer_bsr
        (UInt32Size prefer_bsr tag) tag) (s, v) (fun ok sv => wf (sizeof t) sv.2 /\
    match prim_spec t (avail s) with
    | None => ok = false /\ elems sv.2 = elems v /\ failed s sv.1
    | Some (x, l) => exists m vs l', tagged_spec t tag m l = (vs, Some l') /\
        elems sv.2 = elems v ++ x :: vs /\
        if ok then
          avail sv.1 = l' /\ moved (zlen (avail s) - zlen l') s sv.1 /\
          (size sv.2 = Capacity (sizeof t) sv.2 \/ 2 ^ 14 <= tag \/
           ~ exists r, buffer sv.1 = UnsafeVarint tag ++ r /\ (fixed_size t = true -> sizeof t <= zlen r))
        else failed s sv.1 /\ exists k, l' = UnsafeVarint tag ++ k /\ prim_spec t k = None
    end).
Proof.
  intros Ht Ha Har HI Hv Hmax Htag.
  assert (wp (ReadRepeatedPrimitive t AllocateAtLeast ArenaAllocate prefer_bsr
        (UInt32Size prefer_bsr tag) tag) (s, v) (repeated_read t tag s v)) as Hr.
  { unfold ReadRepeatedPrimitive. destruct (fixed_size t) eqn:E.
    - by apply repeated_fixed_wp.
    - by apply repeated_generic_wp. }
  eapply wp_mono; [exact Hr|]. intros ok sv. unfold repeated_read.
  destruct (prim_spec t (avail s)) as [[x l]|].
  - intros (m & vs & l' & Et & [Hw He] & Hl). split; [done|]. by exists m, vs, l'.
  - intros (-> & [Hw He] & Hf). split; [done|]. by rewrite He, app_nil_r.
Qed.
End properties.

(** ** Witnesses *)

Definition sample_field : RepeatedField.t Z := RepeatedField.make 0.

Lemma sample_allocators :
  (forall bytes, address (fst (sample_alloc bytes)) /\ bytes <= snd (sample_alloc bytes)) /\
  (forall bytes, address (sample_arena_alloc bytes)).
Proof. split; [intros b; split; [|simpl; lia]|]; done. Qed.

Lemma sample_field_wf t : wf (sizeof t) sample_field.
Proof. apply repeated_make_wf; [apply sizeof_cases|]. split; done. Qed.

Notation stream := ArrayInputStream.t.

Lemma primitive_roundtrip_witness :
  wp (ReadPrimitive (S := stream) TYPE_SINT32)
    (from_array (WriteNoTagToArray TYPE_SINT32 (-3) ++ [Byte.x01]))
    (fun r s' => r = Some (-3) /\ Inv s' /\ avail s' = [Byte.x01] /\
       flags s' = flags (S := stream) (from_array (WriteNoTagToArray TYPE_SINT32 (-3) ++ [Byte.x01]))).
Proof.
  destruct (from_array_inv (S := stream) (WriteNoTagToArray TYPE_SINT32 (-3) ++ [Byte.x01]) ltac:(done))
    as (HI & Ha & _).
  apply (primitive_roundtrip TYPE_SINT32 (-3) [Byte.x01]); [done|split; done|done|done].
Defined.

Definition sample_packed : list byte :=
  WriteVarint32ToArray 8 ++
  concat (map (WriteNoTagToArray TYPE_FIXED32) [7; 300]) ++ [Byte.x05].

Lemma packed_roundtrip_witness :
  wp (ReadPackedPrimitive (S := stream) TYPE_FIXED32 sample_alloc sample_arena_alloc true)
    (from_array sample_packed, sample_field)
    (fun ok sv => ok = true /\ elems sv.2 = [] ++ [7; 300] /\ avail sv.1 = [Byte.x05]).
Proof.
  destruct (from_array_inv (S := stream) sample_packed ltac:(done)) as (HI & Ha & Hp & _).
  destruct sample_allocators as [H1 H2].
  apply (packed_roundtrip TYPE_FIXED32 _ _ true [7; 300] [Byte.x05]);
    [done|done|done|done|apply sample_field_wf|repeat constructor; done|done|done
    |rewrite Hp, Ha; done|done].
Defined.

Lemma packed_reads_elements_witness :
  wp (ReadPackedPrimitive (S := stream) TYPE_INT32 sample_alloc sample_arena_alloc true)
    (from_array [Byte.x03; Byte.x01; Byte.xac; Byte.x02; Byte.x05], sample_field)
    (fun ok sv => let (vs, whole) := ([1; 300], true) in
      ok = whole /\ wf 4 sv.2 /\ elems sv.2 = [] ++ vs /\
      if whole then moved (S := stream) 4 (from_array [Byte.x03; Byte.x01; Byte.xac; Byte.x02; Byte.x05]) sv.1
      else Inv sv.1).
Proof.
  destruct (from_array_inv (S := stream) [Byte.x03; Byte.x01; Byte.xac; Byte.x02; Byte.x05]
    ltac:(done)) as (HI & Ha & Hp & _).
  destruct sample_allocators as [H1 H2].
  pose proof (packed_reads_elements (S := stream) TYPE_INT32 sample_alloc sample_arena_alloc true
    [Byte.x01; Byte.xac; Byte.x02] [Byte.x05] _ sample_field eq_refl H1 H2 HI
    (sample_field_wf TYPE_INT32)) as Hr.
  rewrite Ha, Hp in Hr. apply Hr; done.
Defined.

(** The element 7, the tag and the element 8, and a byte of another tag. *)
Definition sample_repeated : list byte :=
  WriteNoTagToArray TYPE_FIXED32 7 ++ UnsafeVarint 13 ++ WriteNoTagToArray TYPE_FIXED32 8 ++ [Byte.x15].

Lemma repeated_reads_elements_witness :
  exists sv, ReadRepeatedPrimitive (S := stream) TYPE_FIXED32 sample_alloc sample_arena_alloc true
      (UInt32Size true 13) 13 (from_array sample_repeated, sample_field) = Some (true, sv) /\
    wf 4 sv.2 /\ elems sv.2 = [7; 8] /\ buffer sv.1 = [Byte.x15].
Proof.
  destruct (from_array_inv (S := stream) sample_repeated ltac:(done)) as (HI & Ha & _).
  destruct sample_allocators as [H1 H2].
  pose proof (repeated_reads_elements (S := stream) TYPE_FIXED32 sample_alloc sample_arena_alloc true 13
    _ sample_field eq_refl H1 H2 HI (sample_field_wf TYPE_FIXED32) ltac:(done) ltac:(split; done)) as Hr.
  destruct (wp_inv _ _ _ Hr) as (ok & sv & E & Hw & _).
  assert (option_map (fun r => (r.1, elems r.2.2, buffer r.2.1))
    (ReadRepeatedPrimitive (S := stream) TYPE_FIXED32 sample_alloc sample_arena_alloc true
      (UInt32Size true 13) 13 (from_array sample_repeated, sample_field)) = Some (true, [7; 8], [Byte.x15]))
    as Hc by (vm_compute; reflexivity).
  rewrite E in Hc. injection Hc as -> He Hl. exists sv. by split_and!.
Defined.

(** A packed field that claims more bytes than the enclosing limit leaves is
    read up to that limit, and the result is true: [PushLimit] keeps the
    closer limit and [BytesUntilLimit] then counts to it. *)
Example packed_past_the_end_accepted :
  option_map (fun r => (r.1, elems r.2.2))
    (ReadPackedPrimitive (S := stream) TYPE_INT32 sample_alloc sample_arena_alloc true
       (from_array [Byte.x09; Byte.x01; Byte.x02], sample_field)) = Some (true, [1; 2]).
Proof. vm_compute. reflexivity. Qed.
