(* ===== verification/UnknownFields.v ===== *)
(** * Unknown fields and skipping

    [UnknownFieldSet] ([unknown_field_set.h], [unknown_field_set.cc]), the two
    [WireFormatLite::SkipField]/[SkipMessage] pairs and the field skippers
    ([wire_format_lite.cc]), and [WireFormat]'s functions on unknown fields
    ([wire_format.cc]): skipping into a set, serializing a set, its size, and
    the message-set forms. A set owns its fields, so it is the list of them; the
    container below it is the [RepeatedField] of [RepeatedField.v]. The three
    skippers are proved against one parser of byte lists in
    [UnknownFieldsSpec.v]. *)

From S2P Require Import Prelude Varint ZeroCopyStream CodedInput WireFormatLite.

(** ** The data *)

(** [number_] is the [uint32_t] member; the constructor is [type_] with the
    member of the union that goes with it. *)
Inductive UnknownField :=
  | VARINT (number_ : Z) (varint : Z)
  | FIXED32 (number_ : Z) (fixed32 : Z)
  | FIXED64 (number_ : Z) (fixed64 : Z)
  | LENGTH_DELIMITED (number_ : Z) (string_value : list byte)
  | GROUP (number_ : Z) (group : list UnknownField).

Notation UnknownFieldSet := (list UnknownField).

Definition number_ (f : UnknownField) : Z :=
  match f with
  | VARINT n _ | FIXED32 n _ | FIXED64 n _ | LENGTH_DELIMITED n _ | GROUP n _ => n
  end.
Definition number (f : UnknownField) : Z := s32 (number_ f).

(** The accessors assert the type of the field. *)
Definition varint (f : UnknownField) : option Z :=
  match f with VARINT _ v => Some v | _ => None end.
Definition fixed32 (f : UnknownField) : option Z :=
  match f with FIXED32 _ v => Some v | _ => None end.
Definition fixed64 (f : UnknownField) : option Z :=
  match f with FIXED64 _ v => Some v | _ => None end.
Definition length_delimited (f : UnknownField) : option (list byte) :=
  match f with LENGTH_DELIMITED _ v => Some v | _ => None end.
Definition group (f : UnknownField) : option UnknownFieldSet :=
  match f with GROUP _ g => Some g | _ => None end.
Definition GetLengthDelimitedSize (f : UnknownField) : option Z :=
  zlen <$> length_delimited f.

Definition set_varint (value : Z) (f : UnknownField) : option UnknownField :=
  match f with VARINT n _ => Some (VARINT n value) | _ => None end.
Definition set_fixed32 (value : Z) (f : UnknownField) : option UnknownField :=
  match f with FIXED32 n _ => Some (FIXED32 n value) | _ => None end.
Definition set_fixed64 (value : Z) (f : UnknownField) : option UnknownField :=
  match f with FIXED64 n _ => Some (FIXED64 n value) | _ => None end.
Definition set_length_delimited (value : list byte) (f : UnknownField) : option UnknownField :=
  match f with LENGTH_DELIMITED n _ => Some (LENGTH_DELIMITED n value) | _ => None end.
(** What the caller leaves in the group [mutable_group] points to. *)
Definition mutable_group (group : UnknownFieldSet) (f : UnknownField) : option UnknownField :=
  match f with GROUP n _ => Some (GROUP n group) | _ => None end.

(** ** The set *)

(** What [ClearFallback] deletes is the memory of the fields. *)
Definition ClearFallback (s : UnknownFieldSet) : option UnknownFieldSet :=
  if zlen s =? 0 then None else Some [].
Definition Clear (s : UnknownFieldSet) : option UnknownFieldSet :=
  if zlen s =? 0 then Some s else ClearFallback s.

Definition field_count (s : UnknownFieldSet) : Z := s32 (zlen s).
Definition field (index : Z) (s : UnknownFieldSet) : option UnknownField :=
  if 0 <=? index then s !! Z.to_nat index else None.

Definition AddVarint (number value : Z) (s : UnknownFieldSet) : UnknownFieldSet :=
  s ++ [VARINT (u32 number) value].
Definition AddFixed32 (number value : Z) (s : UnknownFieldSet) : UnknownFieldSet :=
  s ++ [FIXED32 (u32 number) value].
Definition AddFixed64 (number value : Z) (s : UnknownFieldSet) : UnknownFieldSet :=
  s ++ [FIXED64 (u32 number) value].
(** The string and the group are those the caller leaves in the object the
    returned pointer points to. *)
Definition AddLengthDelimited (number : Z) (value : list byte) (s : UnknownFieldSet)
    : UnknownFieldSet :=
  s ++ [LENGTH_DELIMITED (u32 number) value].
Definition AddGroup (number : Z) (group : UnknownFieldSet) (s : UnknownFieldSet)
    : UnknownFieldSet :=
  s ++ [GROUP (u32 number) group].

(** [DeepCopy] makes new strings and groups, and a group by merging. *)
Fixpoint DeepCopy (f : UnknownField) : UnknownField :=
  match f with
  | LENGTH_DELIMITED n s => LENGTH_DELIMITED n s
  | GROUP n g => GROUP n ([] ++ map DeepCopy g)
  | _ => f
  end.

Definition AddField (f : UnknownField) (s : UnknownFieldSet) : UnknownFieldSet :=
  s ++ [DeepCopy f].

Definition MergeFrom (other s : UnknownFieldSet) : UnknownFieldSet :=
  if 0 <? zlen other then s ++ map DeepCopy other else s.

(** Both sets after the call. *)
Definition MergeFromAndDestroy (same_arena : bool) (other s : UnknownFieldSet)
    : UnknownFieldSet * UnknownFieldSet :=
  if negb same_arena then (MergeFrom other s, other)
  else match s with
       | [] => (other, s)
       | _ => (s ++ other, [])
       end.

Definition SwapSlow (s other : UnknownFieldSet) : UnknownFieldSet * UnknownFieldSet :=
  let tmp := MergeFrom s [] in
  (MergeFrom other [], MergeFrom tmp []).

Definition Swap (same_arena : bool) (s x : UnknownFieldSet)
    : UnknownFieldSet * UnknownFieldSet :=
  if same_arena then (x, s) else SwapSlow s x.

(** [ExtractSubrange] refuses a range that is not inside the container. *)
Definition DeleteSubrange (start num : Z) (s : UnknownFieldSet) : option UnknownFieldSet :=
  if (start <? 0) || (num <? 0) || (zlen s <? start + num) then None
  else Some (ztake start s ++ zdrop (start + num) s).

(** [n] more rounds of the loop of [DeleteByNumber]; [kept] is [left]. *)
Fixpoint DeleteByNumber_loop (n i kept : nat) (num : Z) (s : UnknownFieldSet)
    : option (nat * UnknownFieldSet) :=
  match n with
  | O => Some (kept, s)
  | S n =>
      field ← s !! i;
      if number field =? num then DeleteByNumber_loop n (S i) kept num s
      else DeleteByNumber_loop n (S i) (S kept) num
             (if (i =? kept)%nat then s else <[kept := field]> s)
  end.

Definition DeleteByNumber (num : Z) (s : UnknownFieldSet) : option UnknownFieldSet :=
  '(kept, s) ← DeleteByNumber_loop (length s) 0 0 num s;
  if (kept <=? length s)%nat then Some (take kept s) else None.

(** ** Writing *)

(** [EpsCopyOutputStream::WriteTag] and [WriteLengthDelim]. *)
Definition WriteTag (num wt : Z) : list byte :=
  UnsafeVarint (u32 (Z.lor (u32 (Z.shiftl num 3)) wt)).
Definition WriteLengthDelim (num size : Z) : list byte := WriteTag num 2 ++ UnsafeWriteSize size.

(** [EpsCopyOutputStream::WriteString]; [outline] is true when the rest of the
    buffer is too short for the inline copy. *)
Definition WriteString (outline : bool) (num : Z) (s : list byte) : list byte :=
  let size := zlen s in
  if (128 <=? size) || outline then WriteLengthDelim num (u32 size) ++ s
  else UnsafeVarint (u32 (Z.lor (u32 (Z.shiftl num 3)) 2)) ++ z2b size :: s.

Section write.
Context (outline : list byte -> bool).

Fixpoint SerializeField (f : UnknownField) : list byte :=
  match f with
  | VARINT _ v => WriteToArray TYPE_UINT64 (number f) v
  | FIXED32 _ v => WriteToArray TYPE_FIXED32 (number f) v
  | FIXED64 _ v => WriteToArray TYPE_FIXED64 (number f) v
  | LENGTH_DELIMITED _ s => WriteString (outline s) (u32 (number f)) s
  | GROUP _ g =>
      WriteTagToArray (number f) WIRETYPE_START_GROUP ++
      concat (map SerializeField g) ++
      WriteTagToArray (number f) WIRETYPE_END_GROUP
  end.

Definition InternalSerializeUnknownFieldsToArray (s : UnknownFieldSet) : list byte :=
  concat (map SerializeField s).
End write.

(** [InternalSerializeUnknownMessageSetItemsToArray] *)
Definition InternalSerializeUnknownMessageSetItemsToArray (s : UnknownFieldSet) : list byte :=
  concat (map (fun f =>
    match f with
    | LENGTH_DELIMITED _ data =>
        WriteVarint32ToArray kMessageSetItemStartTag ++
        WriteVarint32ToArray kMessageSetTypeIdTag ++
        WriteVarint32ToArray (u32 (number f)) ++
        WriteVarint32ToArray kMessageSetMessageTag ++
        WriteVarint32ToArray (u32 (zlen data)) ++ data ++
        WriteVarint32ToArray kMessageSetItemEndTag
    | _ => []
    end) s).

(** The sizes add up in a [size_t]. *)
Section size.
Context (prefer_bsr : bool).
Notation VarintSize32 := (VarintSize32 prefer_bsr).

Fixpoint FieldSize (f : UnknownField) : Z :=
  match f with
  | VARINT _ v =>
      VarintSize32 (MakeTag (number f) WIRETYPE_VARINT) + VarintSize64 prefer_bsr v
  | FIXED32 _ v => VarintSize32 (MakeTag (number f) WIRETYPE_FIXED32) + 4
  | FIXED64 _ v => VarintSize32 (MakeTag (number f) WIRETYPE_FIXED64) + 8
  | LENGTH_DELIMITED _ s =>
      VarintSize32 (MakeTag (number f) WIRETYPE_LENGTH_DELIMITED) +
      VarintSize32 (u32 (zlen s)) + zlen s
  | GROUP _ g =>
      VarintSize32 (MakeTag (number f) WIRETYPE_START_GROUP) +
      fold_left (fun size f => u64 (size + FieldSize f)) g 0 +
      VarintSize32 (MakeTag (number f) WIRETYPE_END_GROUP)
  end.

Definition ComputeUnknownFieldsSize (s : UnknownFieldSet) : Z :=
  fold_left (fun size f => u64 (size + FieldSize f)) s 0.

Definition ComputeUnknownMessageSetItemsSize (s : UnknownFieldSet) : Z :=
  fold_left (fun size f =>
    match f with
    | LENGTH_DELIMITED _ data =>
        let field_size := s32 (zlen data) in
        u64 (size + kMessageSetItemTagsSize + VarintSize32 (u32 (number f)) +
             VarintSize32 (u32 field_size) + u64 field_size)
    | _ => size
    end) s 0.
End size.

(** ** Skipping *)

Section skip.
Context {S : Type} `{ZeroCopyInputStreamOk S}.
Notation CIS := (CodedInput.t S).

(** The loop all versions of [SkipMessage] share: [end_group] is what is done
    with an end-group tag. [n] bounds the number of tags read, nested ones
    included; every tag is at least a byte. *)
Fixpoint SkipMessage_loop {X} (SkipField : M (CIS * X) bool -> Z -> M (CIS * X) bool)
    (end_group : Z -> X -> X) (n : nat) : M (CIS * X) bool :=
  match n with
  | O => undef
  | Datatypes.S n =>
      let* tag := on_fst ReadTag in
      if tag =? 0 then ret true else
      let wire_type := GetTagWireType tag in
      if wire_type =? WIRETYPE_END_GROUP then
        on_snd (modS (end_group tag)) ;;; ret true
      else
        let* ok := SkipField (SkipMessage_loop SkipField end_group n) tag in
        if ok : bool then SkipMessage_loop SkipField end_group n else ret false
  end.

(** Enough fuel: the bytes that are left, and one more round for their end. *)
Definition fuel (s : CIS) : nat := Datatypes.S (length (chunk s ++ rest s)).

(** The group case of the versions of [SkipField]. *)
Definition SkipGroup {X} (SkipMessage : M (CIS * X) bool) (tag : Z) : M (CIS * X) bool :=
  let* ok := on_fst IncrementRecursionDepth in
  if negb ok then ret false else
  let* ok := SkipMessage in
  if negb ok then ret false else
  on_fst DecrementRecursionDepth ;;;
  on_fst (gets (LastTagWas (MakeTag (GetTagFieldNumber tag) WIRETYPE_END_GROUP))).
End skip.

Module Lite.
Section skip.
Context {S : Type} `{ZeroCopyInputStreamOk S}.
Notation CIS := (CodedInput.t S).
(** [WireFormatLite::SkipField(input, tag)]; there is no second object. *)
Definition SkipField_ (SkipMessage : M (CIS * unit) bool) (tag : Z) : M (CIS * unit) bool :=
  if GetTagFieldNumber tag =? 0 then ret false else
  match GetTagWireType tag with
  | 0 => let* (_, ok) := on_fst ReadVarint64 in ret ok
  | 1 => let* (ok, _) := on_fst ReadLittleEndian64 in ret ok
  | 2 =>
      let* (length, ok) := on_fst ReadVarint32 in
      if negb ok then ret false else on_fst (CodedInput.Skip (s32 length))
  | 3 => SkipGroup SkipMessage tag
  | 4 => ret false
  | 5 => let* (ok, _) := on_fst ReadLittleEndian32 in ret ok
  | _ => ret false
  end.

Definition SkipMessage : M (CIS * unit) bool := fun s =>
  SkipMessage_loop SkipField_ (fun _ x => x) (fuel s.1) s.
Definition SkipField (tag : Z) : M (CIS * unit) bool := fun s =>
  SkipField_ (SkipMessage_loop SkipField_ (fun _ x => x) (fuel s.1)) tag s.
End skip.
End Lite.

(** [WireFormatLite::SkipField(input, tag, output)]: the second object is the
    bytes written to [output], which does not fail. *)
Module LiteOutput.
Section skip.
Context {S : Type} `{ZeroCopyInputStreamOk S}.
Notation CIS := (CodedInput.t S).
Notation OM := (M (CIS * list byte)).
Definition write (bytes : list byte) : OM unit := on_snd (modS (fun out => out ++ bytes)).

Definition SkipField_ (SkipMessage : OM bool) (tag : Z) : OM bool :=
  if GetTagFieldNumber tag =? 0 then ret false else
  match GetTagWireType tag with
  | 0 =>
      let* (value, ok) := on_fst ReadVarint64 in
      if negb ok then ret false else
      write (WriteVarint32ToArray tag) ;;; write (WriteVarint64ToArray value) ;;; ret true
  | 1 =>
      let* (ok, value) := on_fst ReadLittleEndian64 in
      if negb ok then ret false else
      write (WriteVarint32ToArray tag) ;;; write (WriteLittleEndian64ToArray value) ;;; ret true
  | 2 =>
      let* (length, ok) := on_fst ReadVarint32 in
      if negb ok then ret false else
      write (WriteVarint32ToArray tag) ;;; write (WriteVarint32ToArray length) ;;;
      let* (ok, temp) := on_fst (CodedInput.ReadString [] (s32 length)) in
      if negb ok then ret false else write temp ;;; ret true
  | 3 => write (WriteVarint32ToArray tag) ;;; SkipGroup SkipMessage tag
  | 4 => ret false
  | 5 =>
      let* (ok, value) := on_fst ReadLittleEndian32 in
      if negb ok then ret false else
      write (WriteVarint32ToArray tag) ;;; write (WriteLittleEndian32ToArray value) ;;; ret true
  | _ => ret false
  end.

Definition end_group (tag : Z) (out : list byte) : list byte := out ++ WriteVarint32ToArray tag.

Definition SkipMessage : OM bool := fun s =>
  SkipMessage_loop SkipField_ end_group (fuel s.1) s.
Definition SkipField (tag : Z) : OM bool := fun s =>
  SkipField_ (SkipMessage_loop SkipField_ end_group (fuel s.1)) tag s.

(** [CodedOutputStreamFieldSkipper::SkipUnknownEnum] *)
Definition SkipUnknownEnum (field_number value : Z) (unknown_fields : list byte) : list byte :=
  unknown_fields ++ WriteVarint32ToArray (u32 field_number) ++ WriteVarint64ToArray (u64 value).
End skip.
End LiteOutput.

(** [WireFormat::SkipField]: the second object is [unknown_fields], [None] the
    null pointer. *)
Module Full.
Section skip.
Context {S : Type} `{ZeroCopyInputStreamOk S}.
Notation CIS := (CodedInput.t S).
Notation UM := (M (CIS * option UnknownFieldSet)).
Definition add (f : UnknownFieldSet -> UnknownFieldSet) : UM unit :=
  on_snd (modS (option_map f)).

(** A call on the set that [AddGroup] has made, or on the null pointer. *)
Definition in_group (number : Z) (m : UM bool) : UM bool := fun s =>
  match m (s.1, option_map (fun _ => []) s.2) with
  | Some (ok, (i, group)) =>
      Some (ok, (i, match group with
                    | Some group => option_map (AddGroup number group) s.2
                    | None => s.2
                    end))
  | None => None
  end.

Definition SkipField_ (SkipMessage : UM bool) (tag : Z) : UM bool :=
  let number := GetTagFieldNumber tag in
  if number =? 0 then ret false else
  match GetTagWireType tag with
  | 0 =>
      let* (value, ok) := on_fst ReadVarint64 in
      if negb ok then ret false else add (AddVarint number value) ;;; ret true
  | 1 =>
      let* (ok, value) := on_fst ReadLittleEndian64 in
      if negb ok then ret false else add (AddFixed64 number value) ;;; ret true
  | 2 =>
      let* (length, ok) := on_fst ReadVarint32 in
      if negb ok then ret false else
      let* s := getS in
      match s.2 with
      | None => on_fst (CodedInput.Skip (s32 length))
      | Some _ =>
          let* (ok, value) := on_fst (CodedInput.ReadString [] (s32 length)) in
          add (AddLengthDelimited number value) ;;; ret ok
      end
  | 3 => SkipGroup (in_group number SkipMessage) tag
  | 4 => ret false
  | 5 =>
      let* (ok, value) := on_fst ReadLittleEndian32 in
      if negb ok then ret false else add (AddFixed32 number value) ;;; ret true
  | _ => ret false
  end.

Definition SkipMessage : UM bool := fun s =>
  SkipMessage_loop SkipField_ (fun _ x => x) (fuel s.1) s.
Definition SkipField (tag : Z) : UM bool := fun s =>
  SkipField_ (SkipMessage_loop SkipField_ (fun _ x => x) (fuel s.1)) tag s.

(** [UnknownFieldSetFieldSkipper::SkipUnknownEnum] *)
Definition SkipUnknownEnum (field_number value : Z) (unknown_fields : UnknownFieldSet)
    : UnknownFieldSet := AddVarint field_number (u64 value) unknown_fields.
End skip.
End Full.

(** ** Parsing a set *)

Section skip.
Context {S : Type} `{ZeroCopyInputStreamOk S}.
Notation CIS := (CodedInput.t S).

(** [MergeFromCodedStream]; [other] is a local set, never the null pointer, and
    its arena is the same when [this] is not on one. *)
Definition MergeFromCodedStream (same_arena : bool) : M (CIS * UnknownFieldSet) bool := fun s =>
  '(ok, (i, other)) ← Full.SkipMessage (s.1, Some []);
  if ok && ConsumedEntireMessage i
  then Some (true, (i, (MergeFromAndDestroy same_arena (default [] other) s.2).1))
  else Some (false, (i, s.2)).

Definition ParseFromCodedStream (same_arena : bool) : M (CIS * UnknownFieldSet) bool :=
  let* sx := getS in
  match Clear sx.2 with
  | Some empty => on_snd (putS empty) ;;; MergeFromCodedStream same_arena
  | None => undef
  end.
End skip.

(** [ParseFromZeroCopyStream] and [ParseFromArray], which ends with the
    destruction of the coded stream. *)
Definition ParseFromZeroCopyStream {S} `{ZeroCopyInputStreamOk S} (same_arena : bool)
    (input : S) : option (bool * UnknownFieldSet) :=
  i ← from_stream input;
  '(ok, (i, s)) ← ParseFromCodedStream same_arena (i, []);
  let result := ok && ConsumedEntireMessage i in
  '(_, _) ← destroy i;
  Some (result, s).

Definition ParseFromArray (same_arena : bool) (data : list byte)
    : option (bool * UnknownFieldSet) :=
  ParseFromZeroCopyStream same_arena (ArrayInputStream.make data (zlen data) (-1)).

(** [InternalMergeFromMessage] of a lite message, whose unknown fields are a
    string. *)
Definition MergeFromLiteMessage (same_arena : bool) (unknown_fields : list byte)
    (s : UnknownFieldSet) : option (bool * UnknownFieldSet) :=
  i ← from_stream (ArrayInputStream.make unknown_fields (zlen unknown_fields) (-1));
  '(ok, (i, s)) ← MergeFromCodedStream same_arena (i, s);
  '(_, _) ← destroy i;
  Some (ok, s).

(** [SerializeToString]: the string is sized first and then filled; [None] when
    the bytes written are not as many. *)
Definition SerializeToString (prefer_bsr : bool) (outline : list byte -> bool)
    (s : UnknownFieldSet) : option (list byte) :=
  let size := ComputeUnknownFieldsSize prefer_bsr s in
  let output := InternalSerializeUnknownFieldsToArray outline s in
  if zlen output =? size then Some output else None.
