(* ===== verification/UnknownFieldsSpec.v ===== *)
(** * Skipping and unknown fields against one parser

    [parse_message] reads fields off a list of bytes. The three skippers of
    [UnknownFields.v] do what it says: they stop where it stops, refuse what it
    refuses, and leave behind nothing, the canonical bytes, or the fields. The
    rest of the file relates the parser to the serializer and to the sizes. *)

From S2P Require Import Prelude Varint ZeroCopyStream CodedInput WireFormatLite UnknownFields.

#[local] Arguments vdecode : simpl never.
#[local] Opaque kMaxVarintBytes.

(** ** The parser *)

(** Where a message ends: at the end of the input, at a zero or unreadable tag,
    at an end-group tag, or not at all. *)
Inductive ending :=
  | at_end
  | at_zero
  | at_group (tag : Z) (rest : list byte)
  | broken.

Definition parse_bytes (k : Z) (l : list byte) : option (list byte * list byte) :=
  if (0 <=? k) && (k <=? zlen l) then Some (ztake k l, zdrop k l) else None.

Definition parse_field (parse_group : list byte -> list UnknownField * ending)
    (budget tag : Z) (l : list byte) : option (UnknownField * list byte) :=
  let number := GetTagFieldNumber tag in
  if number =? 0 then None else
  match GetTagWireType tag with
  | 0 => '(x, r) ← vdecode kMaxVarintBytes l; Some (VARINT number (u64 x), r)
  | 1 => '(b, r) ← parse_bytes 8 l; Some (FIXED64 number (le_value b), r)
  | 2 => '(x, r) ← vdecode kMaxVarintBytes l;
         '(b, r) ← parse_bytes (s32 (u32 x)) r; Some (LENGTH_DELIMITED number b, r)
  | 3 =>
      if budget - 1 <? 0 then None else
      match parse_group l with
      | (fs, at_group tag' r) =>
          if tag' =? MakeTag number WIRETYPE_END_GROUP then Some (GROUP number fs, r) else None
      | _ => None
      end
  | 5 => '(b, r) ← parse_bytes 4 l; Some (FIXED32 number (le_value b), r)
  | _ => None
  end.

Fixpoint parse_message (n : nat) (budget : Z) (l : list byte) : list UnknownField * ending :=
  match n with
  | O => ([], broken)
  | S n =>
      match l with
      | [] => ([], at_end)
      | _ =>
          match vdecode kMaxVarintBytes l with
          | None => ([], at_zero)
          | Some (x, r) =>
              let tag := u32 x in
              if tag =? 0 then ([], at_zero) else
              if GetTagWireType tag =? WIRETYPE_END_GROUP then ([], at_group tag r) else
              match parse_field (parse_message n (budget - 1)) budget tag r with
              | Some (f, r) => let (fs, e) := parse_message n budget r in (f :: fs, e)
              | None => ([], broken)
              end
          end
      end
  end.

(** With enough fuel for its bytes. *)
Definition parse (budget : Z) (l : list byte) : list UnknownField * ending :=
  parse_message (S (length l)) budget l.

(** *** Fuel and progress *)

Lemma parse_bytes_suffix k l b r : parse_bytes k l = Some (b, r) -> l = b ++ r /\ zlen b = k.
Proof.
  unfold parse_bytes. destruct (Z.leb_spec 0 k), (Z.leb_spec k (zlen l)); simpl; try done.
  intros [= <- <-]. rewrite ztake_zdrop. split; [done|zl].
Qed.

Lemma parse_field_suffix g budget tag l f r :
  (forall fs tag' r, g l = (fs, at_group tag' r) -> exists c, l = c ++ r) ->
  parse_field g budget tag l = Some (f, r) -> exists c, l = c ++ r.
Proof.
  intros Hg. unfold parse_field. destruct (_ =? 0); [done|].
  assert (forall k (F : list byte -> UnknownField),
    ('(b, r) ← parse_bytes k l; Some (F b, r)) = Some (f, r) -> exists c, l = c ++ r) as Hb.
  { intros k F. destruct (parse_bytes k l) as [[b r']|] eqn:E; simpl; [|done].
    intros [= _ <-]. apply parse_bytes_suffix in E as [-> _]. by exists b. }
  destruct (GetTagWireType tag) as [|[[[]|[]|]|[[]|[]|]|]|]; try done; try apply Hb.
  - destruct (vdecode _ l) as [[x r']|] eqn:E; simpl; [|done]. intros [= _ <-].
    apply vdecode_suffix in E as (c & -> & _). by exists c.
  - destruct (_ <? 0); [done|]. destruct (g l) as [fs [| |tag' r'|]] eqn:E; try done.
    destruct (_ =? _); [|done]. intros [= _ <-]. by eapply Hg.
  - destruct (vdecode _ l) as [[x r']|] eqn:E; simpl; [|done].
    apply vdecode_suffix in E as (c & -> & _).
    destruct (parse_bytes _ r') as [[b r'']|] eqn:E'; simpl; [|done]. intros [= _ <-].
    apply parse_bytes_suffix in E' as [-> _]. exists (c ++ b). by rewrite app_assoc.
Qed.

Lemma parse_message_suffix n budget l fs tag r :
  parse_message n budget l = (fs, at_group tag r) -> exists c, l = c ++ r.
Proof.
  revert budget l fs tag r. induction n as [|n IH]; intros budget l fs tag r; simpl; [done|].
  destruct l as [|b l]; [done|]. destruct (vdecode _ (b :: l)) as [[x r1]|] eqn:E; [|done].
  apply vdecode_suffix in E as (c & -> & _).
  destruct (u32 x =? 0); [done|]. destruct (_ =? WIRETYPE_END_GROUP).
  { intros [= _ _ ->]. by exists c. }
  destruct (parse_field _ _ _ r1) as [[f r2]|] eqn:Ef; [|done].
  apply parse_field_suffix in Ef as [c2 ->]; [|intros ? ? ?; apply IH].
  destruct (parse_message n budget r2) as [fs2 e] eqn:E2. intros [= _ ->].
  apply IH in E2 as [c3 ->]. exists (c ++ c2 ++ c3). by rewrite !app_assoc.
Qed.

Lemma parse_field_ext g h budget tag l :
  (budget - 1 <? 0 = false -> g l = h l) ->
  parse_field g budget tag l = parse_field h budget tag l.
Proof.
  intros E. unfold parse_field. destruct (_ =? 0); [done|].
  destruct (GetTagWireType tag) as [|[[[]|[]|]|[[]|[]|]|]|]; try done.
  destruct (_ <? 0); [done|]. by rewrite E.
Qed.

Lemma parse_fuel n m budget l :
  (length l < n)%nat -> (length l < m)%nat -> parse_message n budget l = parse_message m budget l.
Proof.
  revert m budget l. induction n as [|n IH]; intros m budget l Hn Hm; [lia|].
  destruct m as [|m]; [lia|]. simpl. destruct l as [|b l]; [done|].
  destruct (vdecode _ (b :: l)) as [[x r]|] eqn:E; [|done].
  apply vdecode_suffix in E as (c & Ec & Hc). rewrite Ec, length_app in Hn, Hm.
  destruct (u32 x =? 0); [done|]. destruct (_ =? WIRETYPE_END_GROUP); [done|].
  rewrite (parse_field_ext _ (parse_message m (budget - 1))) by (intros; apply IH; lia).
  destruct (parse_field _ budget _ r) as [[f r2]|] eqn:Ef; [|done].
  apply parse_field_suffix in Ef as [c2 Ec2]; [|intros ? ? ?; apply parse_message_suffix].
  rewrite Ec2, length_app in Hn, Hm. rewrite (IH m) by lia. done.
Qed.

Lemma parse_enough n budget l : (length l < n)%nat -> parse_message n budget l = parse budget l.
Proof. intros. apply parse_fuel; lia. Qed.

(** The parser's own equation, without fuel. *)
Lemma parse_cons budget l x r :
  vdecode kMaxVarintBytes l = Some (x, r) ->
  parse budget l =
    let tag := u32 x in
    if tag =? 0 then ([], at_zero) else
    if GetTagWireType tag =? WIRETYPE_END_GROUP then ([], at_group tag r) else
    match parse_field (parse (budget - 1)) budget tag r with
    | Some (f, r) => let (fs, e) := parse budget r in (f :: fs, e)
    | None => ([], broken)
    end.
Proof.
  intros E. unfold parse at 1. cbn [parse_message].
  destruct l as [|b l]; [by destruct (vdecode_suffix _ _ _ _ E) as ([] & ? & ?)|].
  rewrite E. cbn zeta. apply vdecode_suffix in E as (c & Ec & Hc).
  assert (length r < length (b :: l))%nat as Hr by (rewrite Ec, length_app; lia).
  destruct (u32 x =? 0); [done|]. destruct (_ =? WIRETYPE_END_GROUP); [done|].
  rewrite (parse_field_ext _ (parse (budget - 1)))
    by (intros; rewrite parse_enough; [done|lia]).
  destruct (parse_field _ budget _ r) as [[f r2]|] eqn:Ef; [|done].
  apply parse_field_suffix in Ef as [c2 Ec2]; [|intros ? ? ?; apply parse_message_suffix].
  rewrite Ec2, length_app in Hr. by rewrite parse_enough by lia.
Qed.

Lemma parse_nil budget : parse budget [] = ([], at_end).
Proof. done. Qed.

Lemma parse_none budget l :
  l <> [] -> vdecode kMaxVarintBytes l = None -> parse budget l = ([], at_zero).
Proof. unfold parse. simpl. by destruct l as [|b l]; [done|intros _ ->]. Qed.

(** ** The skippers do what the parser says *)

Section skip.
Context {S : Type} `{ZeroCopyInputStreamOk S}.
Notation CIS := (CodedInput.t S).
Implicit Type s : CIS.

(** What the reader must be like before a skip: in particular the recursion
    budget has not been raised above the limit. *)
Definition ready s : Prop :=
  Inv s /\ legitimate_message_end_ s = false /\ recursion_budget_ s <= recursion_limit_ s.

(** Whether the end of the available bytes may be the end of a message. *)
Definition ends s : bool :=
  (CurrentPosition s + zlen (avail s) <? total_bytes_limit_ s)
  || (current_limit_ s =? total_bytes_limit_ s).

Lemma moved_ready k s s' :
  ready s -> moved k s s' -> legitimate_message_end_ s' = false -> ready s'.
Proof.
  intros (_ & _ & Hb) (HI & Hcfg & _) Hl. unfold cfg in Hcfg. simplify_eq. split_and!; [done..|lia].
Qed.

Lemma moved_ends k s s' : 0 <= k <= zlen (avail s) -> moved k s s' -> ends s' = ends s.
Proof.
  intros Hk Hm. pose proof (moved_avail k s s' ltac:(lia) Hm) as Ea.
  destruct Hm as (_ & Hcfg & Hp & _). unfold ends, cfg in *. simplify_eq. rewrite Ea, Hp.
  replace (CurrentPosition s + k + zlen (zdrop k (avail s)))
    with (CurrentPosition s + zlen (avail s)) by zl. congruence.
Qed.

Lemma flags_legit s s' : flags s' = flags s -> legitimate_message_end_ s' = legitimate_message_end_ s.
Proof. unfold flags. by intros [= _ ->]. Qed.

Lemma moved_to_rest c k s s' :
  avail s = c ++ k -> moved (zlen (avail s) - zlen k) s s' -> avail s' = k.
Proof.
  intros Ea Hm. rewrite (moved_avail (zlen (avail s) - zlen k) s s') by (done || (rewrite Ea; zl)).
  rewrite Ea. apply zdrop_app_exact. zl.
Qed.

Section loop.
Context {X : Type}.

(** The outcome of a skip whose effect on the second object is [fin]. *)
Definition skipped (fin : list UnknownField -> option Z -> X -> X)
    (r : list UnknownField * ending) s (x : X) (ok : bool) (sx : CIS * X) : Prop :=
  match r.2 with
  | at_end =>
      ok = true /\ sx.2 = fin r.1 None x /\ failed s sx.1 /\
      last_tag_ sx.1 = 0 /\ legitimate_message_end_ sx.1 = ends s
  | at_zero =>
      ok = true /\ sx.2 = fin r.1 None x /\ failed s sx.1 /\
      last_tag_ sx.1 = 0 /\ legitimate_message_end_ sx.1 = false
  | at_group tag l =>
      ok = true /\ sx.2 = fin r.1 (Some tag) x /\
      moved (zlen (avail s) - zlen l) s sx.1 /\
      last_tag_ sx.1 = tag /\ legitimate_message_end_ sx.1 = false
  | broken => ok = false /\ Inv sx.1
  end.

(** [m] skips messages of fewer than [n] bytes. *)
Definition skips n fin (m : M (CIS * X) bool) : Prop :=
  forall s x, ready s -> (length (avail s) < n)%nat ->
  wp m (s, x) (skipped fin (parse (recursion_budget_ s) (avail s)) s x).

(** One field was skipped. *)
Definition field_skipped (emit : UnknownField -> X -> X)
    (r : option (UnknownField * list byte)) s (x : X) (ok : bool) (sx : CIS * X) : Prop :=
  match r with
  | Some (f, l) =>
      ok = true /\ sx.2 = emit f x /\ moved (zlen (avail s) - zlen l) s sx.1 /\
      legitimate_message_end_ sx.1 = false
  | None => ok = false /\ Inv sx.1
  end.

Definition emits (emit : UnknownField -> X -> X) (fs : list UnknownField) (x : X) : X :=
  fold_left (fun x f => emit f x) fs x.

Context (SkipField : M (CIS * X) bool -> Z -> M (CIS * X) bool) (end_group : Z -> X -> X).
Context (emit : UnknownField -> X -> X).
Definition fin (fs : list UnknownField) (e : option Z) (x : X) : X :=
  match e with Some tag => end_group tag (emits emit fs x) | None => emits emit fs x end.

Hypothesis field_ok : forall n m tag s x,
  skips n fin m -> ready s -> is_u32 tag -> (length (avail s) < n)%nat ->
  wp (SkipField m tag) (s, x)
    (field_skipped emit
       (parse_field (parse (recursion_budget_ s - 1)) (recursion_budget_ s) tag (avail s)) s x).

Lemma tag_step s :
  ready s ->
  wp ReadTag s (fun tag s1 =>
    last_tag_ s1 = tag /\
    match avail s with
    | [] => tag = 0 /\ failed s s1 /\ legitimate_message_end_ s1 = ends s
    | _ =>
        legitimate_message_end_ s1 = false /\
        match vdecode kMaxVarintBytes (avail s) with
        | Some (y, l) => tag = u32 y /\ moved (zlen (avail s) - zlen l) s s1
        | None => tag = 0 /\ failed s s1
        end
    end).
Proof.
  intros (HI & Hl & _). wp_use ReadTag_wp; [done|]. intros tag s1 Ht.
  pose proof (tag_recorded_decoded _ _ _ Ht) as [Hlast Hd]. split; [done|].
  destruct Ht as (s0 & [_ Ht] & ->). destruct (avail s) as [|b l] eqn:Ea.
  - destruct Ht as [-> Ht]. destruct Hd as [_ Hf]. split_and!; [done|done|]. simpl.
    unfold ends. rewrite Ea, zlen_nil, Z.add_0_r. fold (may_end s).
    destruct (may_end s); destruct Ht as [_ Ht]; auto.
  - destruct Ht as [Ht _]. simpl in *. by rewrite Ht.
Qed.

Lemma loop_skips n : skips n fin (SkipMessage_loop SkipField end_group n).
Proof.
  induction n as [|n IH]; intros s x Hr Hn; [lia|]. cbn [SkipMessage_loop].
  apply wp_bind, on_fst_wp. wp_use tag_step; [done|]. intros tag s1 [Hlast Ht].
  destruct (avail s) as [|b l0] eqn:Ea.
  { destruct Ht as (-> & Hf & Hl). rewrite parse_nil. by apply wp_ret. }
  rewrite <- Ea in *. destruct Ht as [Hl1 Ht].
  destruct (vdecode kMaxVarintBytes (avail s)) as [[y l]|] eqn:Ed; destruct Ht as [-> Hm]; cycle 1.
  { rewrite (parse_none _ (avail s)) by (done || by rewrite Ea). by apply wp_ret. }
  rewrite (parse_cons _ _ _ _ Ed). cbn zeta.
  pose proof Ed as (c & Ec & Hc)%vdecode_suffix.
  destruct (Z.eqb_spec (u32 y) 0) as [E0|E0].
  { apply wp_ret. split_and!; try done; [by eapply vdecode_moved_failed|by simpl; congruence]. }
  destruct (GetTagWireType (u32 y) =? WIRETYPE_END_GROUP).
  { apply wp_bind, on_snd_wp, wp_modS, wp_ret. by split_and!. }
  pose proof (moved_to_rest c l s s1 Ec Hm) as Ea1.
  assert (ready s1) as Hr1 by (by eapply moved_ready).
  assert (recursion_budget_ s1 = recursion_budget_ s) as Eb.
  { destruct Hm as (_ & Hcfg & _). unfold cfg in Hcfg. by simplify_eq. }
  apply wp_bind. rewrite Ec, length_app in Hn.
  wp_use field_ok; [exact IH|done|apply u32_range|rewrite Ea1; lia|].
  intros ok [s2 x2] Hf. rewrite Ea1, Eb in Hf.
  destruct (parse_field _ _ _ l) as [[f l2]|] eqn:Ef; cycle 1.
  { destruct Hf as [-> Hf]. by apply wp_ret. }
  destruct Hf as (-> & Hx & Hm2 & Hl2). simpl in Hx, Hm2, Hl2. subst x2.
  apply parse_field_suffix in Ef as [c2 Ec2]; [|intros ? ? ?; apply parse_message_suffix].
  rewrite <- Ea1 in Ec2. pose proof (moved_to_rest c2 l2 s1 s2 Ec2 Hm2) as Ea2.
  assert (length l2 < n)%nat as Hn2 by (rewrite <- Ea1, Ec2, length_app in Hn; lia).
  wp_use IH; [by eapply moved_ready|by rewrite Ea2|].
  intros ok [s3 x3] Hs.
  assert (recursion_budget_ s2 = recursion_budget_ s) as Eb2.
  { destruct Hm2 as (_ & Hcfg & _). unfold cfg in Hcfg. simplify_eq. congruence. }
  rewrite Ea2, Eb2 in Hs. rewrite Ea1 in Ec2.
  assert (moved (zlen (avail s) - zlen l2) s s2) as Hm3.
  { replace (_ - _) with ((zlen (avail s) - zlen l) + (zlen (avail s1) - zlen l2))
      by (rewrite Ea1; lia).
    eapply moved_trans; [rewrite Ec; zl|rewrite Ea1, Ec2; zl|done..]. }
  assert (ends s2 = ends s) as Ee.
  { eapply moved_ends; [|done]. rewrite Ec, Ec2. zl. }
  destruct (parse (recursion_budget_ s) l2) as [fs e] eqn:Ep. unfold skipped in *. simpl in *.
  assert (0 <= zlen (avail s) - zlen l2) by (rewrite Ec, Ec2; zl).
  destruct e as [| |tag r|]; simpl in *.
  - destruct Hs as (-> & -> & Hf3 & ? & ?). split_and!; try done; [|congruence].
    by eapply moved_failed_trans.
  - destruct Hs as (-> & -> & Hf3 & ? & ?). split_and!; try done. by eapply moved_failed_trans.
  - destruct Hs as (-> & -> & Hm4 & ? & ?). split_and!; try done.
    apply parse_message_suffix in Ep as [c3 Ec3]. rewrite Ea2 in Hm4.
    replace (_ - _) with ((zlen (avail s) - zlen l2) + (zlen l2 - zlen r)) by lia.
    eapply moved_trans; [lia|rewrite Ec3; zl|done..].
  - done.
Qed.
End loop.

(** *** One field *)

Lemma end_tag_nonzero tag : is_u32 tag -> MakeTag (GetTagFieldNumber tag) WIRETYPE_END_GROUP <> 0.
Proof.
  intros Ht. rewrite GetTagFieldNumber_eq by done. rewrite MakeTag_eq; [|change (2 ^ 29) with 536870912; ilia|].
  - unfold WIRETYPE_END_GROUP. ilia.
  - unfold WIRETYPE_END_GROUP. lia.
Qed.

(** A group, with the recursion budget one lower inside. *)
Definition group_skipped {X} (g : list UnknownField -> option Z -> X -> X) (tag : Z) s (x : X)
    (ok : bool) (sx : CIS * X) : Prop :=
  if recursion_budget_ s - 1 <? 0 then ok = false /\ Inv sx.1 else
  match parse (recursion_budget_ s - 1) (avail s) with
  | (fs, at_group tag' l) =>
      if tag' =? MakeTag (GetTagFieldNumber tag) WIRETYPE_END_GROUP
      then ok = true /\ sx.2 = g fs (Some tag') x /\
           moved (zlen (avail s) - zlen l) s sx.1 /\ legitimate_message_end_ sx.1 = false
      else ok = false /\ Inv sx.1
  | _ => ok = false /\ Inv sx.1
  end.

Lemma decrement_moved k s s2 :
  ready s ->
  moved k (set_recursion (recursion_budget_ s - 1) (recursion_limit_ s) s) s2 ->
  wp DecrementRecursionDepth s2 (fun _ s3 => moved k s s3 /\ flags s3 = flags s2).
Proof.
  intros (HI & _ & Hb) (HI2 & Hcfg & Hp & Hst). unfold DecrementRecursionDepth. apply wp_modS.
  unfold cfg in Hcfg. simplify_eq/=.
  destruct (Z.ltb_spec (recursion_budget_ s2) (recursion_limit_ s2)); [|lia].
  destruct (set_recursion_inv (recursion_budget_ s2 + 1) (recursion_limit_ s2) s2 HI2)
    as (HI3 & Hst3 & Hp3 & _ & Hf3).
  destruct (set_recursion_inv (recursion_budget_ s - 1) (recursion_limit_ s) s HI)
    as (_ & Hst1 & Hp1 & _).
  split; [|done]. split_and!; [done| |congruence|congruence].
  assert (recursion_budget_ s2 + 1 = recursion_budget_ s) as Eb by lia.
  unfold cfg, flat_size in *. simpl in *. rewrite Eb. congruence.
Qed.

Lemma SkipGroup_wp {X} n g (m : M (CIS * X) bool) tag s x :
  skips n g m -> ready s -> is_u32 tag -> (length (avail s) < n)%nat ->
  wp (SkipGroup m tag) (s, x) (group_skipped g tag s x).
Proof.
  intros Hm Hr Htag Hn. unfold SkipGroup, group_skipped, IncrementRecursionDepth.
  apply wp_bind, on_fst_wp, wp_bind, wp_modS, wp_gets. simpl.
  set (s1 := set_recursion (recursion_budget_ s - 1) (recursion_limit_ s) s).
  pose proof Hr as (HI & Hl & Hb).
  destruct (set_recursion_inv (recursion_budget_ s - 1) (recursion_limit_ s) s HI)
    as (HI1 & Hst1 & Hp1 & Ha1 & Hf1). fold s1 in HI1, Hst1, Hp1, Ha1, Hf1.
  destruct (Z.ltb_spec (recursion_budget_ s - 1) 0), (Z.leb_spec 0 (recursion_budget_ s - 1));
    try lia; simpl; [by apply wp_ret|].
  apply wp_bind. wp_use (Hm s1 x); [split_and!; [done|done|simpl; lia]|by rewrite Ha1|].
  intros ok [s2 x2] Hs. rewrite Ha1 in Hs.
  assert (recursion_budget_ s1 = recursion_budget_ s - 1) as Eb1 by done. rewrite Eb1 in Hs.
  pose proof (end_tag_nonzero tag Htag) as Hne.
  assert (Hfail : failed s1 s2 -> last_tag_ s2 = 0 ->
    wp (on_fst DecrementRecursionDepth ;;;
        on_fst (gets (LastTagWas (MakeTag (GetTagFieldNumber tag) WIRETYPE_END_GROUP)))) (s2, x2)
      (fun ok (sx : CIS * X) => ok = false /\ Inv sx.1)).
  { intros (HI2 & _) Hlast. apply wp_bind, on_fst_wp. unfold DecrementRecursionDepth. apply wp_modS.
    apply on_fst_wp, wp_gets. unfold LastTagWas.
    destruct (_ <? _); simpl; rewrite Hlast;
      (split; [apply Z.eqb_neq; congruence|]); [|done].
    by apply set_recursion_inv. }
  destruct (parse (recursion_budget_ s - 1) (avail s)) as [fs e]. unfold skipped in Hs. simpl in Hs.
  destruct e as [| |tag' l|].
  - destruct Hs as (-> & _ & Hf & Hlast & _). by apply Hfail.
  - destruct Hs as (-> & _ & Hf & Hlast & _). by apply Hfail.
  - destruct Hs as (-> & Hx & Hmv & Hlast & Hl2). simpl. apply wp_bind, on_fst_wp.
    rewrite Ha1 in Hmv. wp_use decrement_moved; [done|exact Hmv|].
    intros [] s3 [Hm3 Hf3]. apply on_fst_wp, wp_gets. unfold LastTagWas.
    assert (last_tag_ s3 = tag') as ->.
    { unfold flags in Hf3. by simplify_eq. }
    destruct (tag' =? _); (split; [done|]); [|apply Hm3].
    split_and!; [done|done|]. simpl. rewrite (flags_legit _ _ Hf3). done.
  - destruct Hs as [-> Hs]. by apply wp_ret.
Qed.

Lemma group_field {X} (emit : UnknownField -> X -> X) g tag s x ok sx :
  GetTagFieldNumber tag <> 0 -> GetTagWireType tag = 3 ->
  (forall fs, g fs (Some (MakeTag (GetTagFieldNumber tag) WIRETYPE_END_GROUP)) x
              = emit (GROUP (GetTagFieldNumber tag) fs) x) ->
  group_skipped g tag s x ok sx ->
  field_skipped emit
    (parse_field (parse (recursion_budget_ s - 1)) (recursion_budget_ s) tag (avail s)) s x ok sx.
Proof.
  intros Hn Ht Hg. unfold group_skipped, parse_field. rewrite (proj2 (Z.eqb_neq _ _) Hn), Ht.
  destruct (_ <? 0); [done|].
  destruct (parse (recursion_budget_ s - 1) (avail s)) as [fs [| |tag' l|]]; try done.
  destruct (Z.eqb_spec tag' (MakeTag (GetTagFieldNumber tag) WIRETYPE_END_GROUP)) as [->|]; [|done].
  intros (-> & Hx & Hm & Hl). rewrite Hg in Hx. by split_and!.
Qed.

(** *** The reads of one field *)

Definition read_to (l : option (list byte)) s (ok : bool) s' : Prop :=
  match l with
  | Some l => ok = true /\ moved (zlen (avail s) - zlen l) s s' /\
              legitimate_message_end_ s' = false /\ exists c, avail s = c ++ l
  | None => ok = false /\ Inv s'
  end.

#[local] Arguments read_to : simpl never.

Lemma read_to_trans l k s s1 s2 ok :
  read_to (Some l) s true s1 -> avail s1 = l -> read_to k s1 ok s2 -> read_to k s ok s2.
Proof.
  intros (_ & Hm & _ & c & Ec) Ea. destruct k as [k|]; [|done].
  intros (-> & Hm2 & Hl & c2 & Ec2). rewrite Ea in *. split; [done|]. split; [|split; [done|]].
  - replace (_ - _) with ((zlen (avail s) - zlen l) + (zlen l - zlen k)) by lia.
    eapply moved_trans; [rewrite Ec; zl|rewrite Ec2; zl|done..].
  - exists (c ++ c2). by rewrite <- app_assoc, <- Ec2.
Qed.

Lemma decoded_read s s1 (r : option Z) :
  ready s -> decoded s s1 r ->
  match vdecode kMaxVarintBytes (avail s) with
  | Some (x, l) => r = Some x /\ read_to (Some l) s true s1 /\ avail s1 = l
  | None => r = None /\ Inv s1
  end.
Proof.
  intros (HI & Hl & _) [Hf Hd]. destruct (vdecode _ (avail s)) as [[x l]|] eqn:E;
    destruct Hd as [-> Hm]; [|by destruct Hm].
  apply vdecode_suffix in E as (c & Ec & _). pose proof (moved_to_rest _ _ _ _ Ec Hm).
  split; [done|]. split; [|done]. split; [done|]. split; [done|].
  split; [by rewrite (flags_legit _ _ Hf)|by exists c].
Qed.

Lemma varint64_read s :
  ready s ->
  wp ReadVarint64 s (fun v s1 =>
    match vdecode kMaxVarintBytes (avail s) with
    | Some (x, l) => v = (u64 x, true) /\ read_to (Some l) s true s1 /\ avail s1 = l
    | None => v.2 = false /\ Inv s1
    end).
Proof.
  intros Hr. wp_use ReadVarint64_wp; [apply Hr|]. intros v s1 (r & Hd & ->).
  apply decoded_read in Hd; [|done]. destruct (vdecode _ _) as [[x l]|]; by destruct Hd as [-> ?].
Qed.

Lemma varint32_read s :
  ready s ->
  wp ReadVarint32 s (fun v s1 =>
    match vdecode kMaxVarintBytes (avail s) with
    | Some (x, l) => v = (u32 x, true) /\ read_to (Some l) s true s1 /\ avail s1 = l
    | None => v.2 = false /\ Inv s1
    end).
Proof.
  intros Hr. wp_use ReadVarint32_wp; [apply Hr|]. intros v s1 (r & Hd & ->).
  apply decoded_read in Hd; [|done]. destruct (vdecode _ _) as [[x l]|]; by destruct Hd as [-> ?].
Qed.

Lemma bytes_read k s s1 :
  ready s -> 0 <= k <= zlen (avail s) -> moved k s s1 -> flags s1 = flags s ->
  read_to (Some (zdrop k (avail s))) s true s1.
Proof.
  intros (HI & Hl & _) Hk Hm Hf. split; [done|].
  split; [by replace (_ - _) with k by zl|]. split; [by rewrite (flags_legit _ _ Hf)|].
  exists (ztake k (avail s)). by rewrite ztake_zdrop.
Qed.

Lemma fixed_read k s :
  ready s -> 0 <= k ->
  wp (ReadLittleEndian k) s (fun v s1 =>
    match parse_bytes k (avail s) with
    | Some (b, l) => v = (true, le_value b) /\ read_to (Some l) s true s1
    | None => v.1 = false /\ Inv s1
    end).
Proof.
  intros Hr Hk. wp_use ReadLittleEndian_wp; [apply Hr|done|]. intros [ok v] s1 (Hf & Hm & E).
  unfold parse_bytes. rewrite (proj2 (Z.leb_le 0 k)) by done. simpl.
  destruct (Z.leb_spec k (zlen (avail s))); injection E as -> ->; [|by destruct Hm].
  rewrite Z.min_l in Hm by done. split; [done|]. apply bytes_read; [done|lia|done..].
Qed.

Lemma string_read n s :
  ready s ->
  wp (CodedInput.ReadString [] n) s (fun v s1 =>
    match parse_bytes n (avail s) with
    | Some (b, l) => v = (true, b) /\ read_to (Some l) s true s1
    | None => v.1 = false /\ Inv s1
    end).
Proof.
  intros Hr. wp_use ReadString_wp; [apply Hr|]. intros [ok v] s1 [Hf Hn]. unfold parse_bytes.
  destruct (Z.ltb_spec n 0), (Z.leb_spec 0 n); try lia; simpl.
  - destruct Hn as (-> & _ & ->). split; [done|apply Hr].
  - destruct Hn as (Hm & -> & ->). destruct (Z.leb_spec n (zlen (avail s))); simpl.
    + rewrite Z.min_l in Hm by done. split; [done|]. apply bytes_read; [done|lia|done..].
    + split; [done|apply Hm].
Qed.

Lemma skip_read n s :
  ready s ->
  wp (CodedInput.Skip n) s (fun ok s1 =>
    match parse_bytes n (avail s) with
    | Some (b, l) => read_to (Some l) s ok s1
    | None => ok = false /\ Inv s1
    end).
Proof.
  intros Hr. wp_use coded_Skip_wp; [apply Hr|]. intros ok s1 (Hf & -> & Hm). unfold parse_bytes.
  destruct (Z.leb_spec 0 n), (Z.leb_spec n (zlen (avail s))); simpl in *;
    try (split; [done|apply Hm]). apply bytes_read; [done|lia|done..].
Qed.

Lemma read_to_ready l s s1 : ready s -> read_to (Some l) s true s1 -> ready s1.
Proof. intros Hr (_ & Hm & Hl & _). by eapply moved_ready. Qed.

Lemma read_to_field {X} (emit : UnknownField -> X -> X) f l s x s1 :
  read_to (Some l) s true s1 ->
  field_skipped emit (Some (f, l)) s x true (s1, emit f x).
Proof. intros (_ & ? & ? & _). by split_and!. Qed.

(** A read of one value, then what each skipper does with it. *)
Definition records {X} (emit : UnknownField -> X -> X) f s1 (x : X) (m : M (CIS * X) bool) : Prop :=
  wp m (s1, x) (fun ok sx => ok = true /\ sx = (s1, emit f x)).
Definition refuses {X} s1 (x : X) (m : M (CIS * X) bool) : Prop :=
  Inv s1 -> wp m (s1, x) (fun ok sx => ok = false /\ Inv sx.1).

Lemma varint64_field {X} (emit : UnknownField -> X -> X) (F : Z -> UnknownField) k s x :
  ready s ->
  (forall y s1, records emit (F y) s1 x (k (u64 y, true))) ->
  (forall v s1, refuses s1 x (k (v, false))) ->
  wp (mbind_ (on_fst ReadVarint64) k) (s, x)
    (field_skipped emit ('(y, r) ← vdecode kMaxVarintBytes (avail s); Some (F y, r)) s x).
Proof.
  intros Hr Hk Hf. apply wp_bind, on_fst_wp. wp_use varint64_read; [done|]. intros v s1 Hv.
  destruct (vdecode _ _) as [[y l]|]; simpl.
  - destruct Hv as (-> & Hl & _). wp_use Hk. intros ok sx [-> ->]. by apply read_to_field.
  - destruct v as [v b]. destruct Hv as [Eb HI]. simpl in Eb. subst b. by wp_use Hf.
Qed.

Lemma fixed_field {X} (emit : UnknownField -> X -> X) (F : Z -> UnknownField) n k s x :
  ready s -> 0 <= n ->
  (forall y s1, records emit (F y) s1 x (k (true, y))) ->
  (forall v s1, refuses s1 x (k (false, v))) ->
  wp (mbind_ (on_fst (ReadLittleEndian n)) k) (s, x)
    (field_skipped emit ('(b, r) ← parse_bytes n (avail s); Some (F (le_value b), r)) s x).
Proof.
  intros Hr Hn Hk Hf. apply wp_bind, on_fst_wp. wp_use fixed_read; [done|done|]. intros v s1 Hv.
  destruct (parse_bytes _ _) as [[b l]|]; simpl.
  - destruct Hv as (-> & Hl). wp_use Hk. intros ok sx [-> ->]. by apply read_to_field.
  - destruct v as [b v]. destruct Hv as [Eb HI]. simpl in Eb. subst b. by wp_use Hf.
Qed.

(** A length and then as many bytes. *)
Lemma length_field {X} (emit : UnknownField -> X -> X) num k s x :
  ready s ->
  (forall y s1, ready s1 ->
     wp (k (u32 y, true)) (s1, x) (fun ok sx =>
       match parse_bytes (s32 (u32 y)) (avail s1) with
       | Some (b, l) => sx.2 = emit (LENGTH_DELIMITED num b) x /\ read_to (Some l) s1 ok sx.1
       | None => ok = false /\ Inv sx.1
       end)) ->
  (forall v s1, refuses s1 x (k (v, false))) ->
  wp (mbind_ (on_fst ReadVarint32) k) (s, x)
    (field_skipped emit
       ('(y, r) ← vdecode kMaxVarintBytes (avail s);
        '(b, r) ← parse_bytes (s32 (u32 y)) r; Some (LENGTH_DELIMITED num b, r)) s x).
Proof.
  intros Hr Hk Hf. apply wp_bind, on_fst_wp. wp_use varint32_read; [done|]. intros v s1 Hv.
  destruct (vdecode _ _) as [[y l]|]; simpl.
  - destruct Hv as (-> & Hl & Ea). wp_use Hk; [by eapply read_to_ready|].
    intros ok [s2 x2]. rewrite Ea. destruct (parse_bytes _ l) as [[b l2]|]; simpl; [|done].
    intros [-> Hl2]. eapply read_to_trans in Hl2; [|done..]. destruct Hl2 as (-> & ? & ? & _).
    by split_and!.
  - destruct v as [v b]. destruct Hv as [Eb HI]. simpl in Eb. subst b. by wp_use Hf.
Qed.

(** Every version of [SkipField] starts with the same two tests. *)
Lemma field_cases {X} (emit : UnknownField -> X -> X) (m : M (CIS * X) bool) tag s x :
  ready s ->
  (GetTagFieldNumber tag = 0 -> m = mret_ false) ->
  (GetTagWireType tag = 4 \/ GetTagWireType tag = 6 \/ GetTagWireType tag = 7 -> m = mret_ false) ->
  (forall t, GetTagFieldNumber tag <> 0 -> GetTagWireType tag = t ->
    t = 0 \/ t = 1 \/ t = 2 \/ t = 3 \/ t = 5 ->
    wp m (s, x) (field_skipped emit
      (parse_field (parse (recursion_budget_ s - 1)) (recursion_budget_ s) tag (avail s)) s x)) ->
  wp m (s, x) (field_skipped emit
    (parse_field (parse (recursion_budget_ s - 1)) (recursion_budget_ s) tag (avail s)) s x).
Proof.
  intros Hr H0' H4 Hm.
  assert (wp (mret_ false) (s, x) (field_skipped emit None s x)) as Hret
    by (apply wp_ret; split; [done|apply Hr]).
  destruct (decide (GetTagFieldNumber tag = 0)) as [E|E].
  { rewrite H0' by done. unfold parse_field. by rewrite E. }
  assert (0 <= GetTagWireType tag < 8) as Ht by (rewrite GetTagWireType_eq; ilia).
  destruct (decide (GetTagWireType tag = 4 \/ GetTagWireType tag = 6 \/ GetTagWireType tag = 7)) as [E4|].
  { rewrite H4 by done. unfold parse_field. rewrite (proj2 (Z.eqb_neq _ _) E).
    by destruct E4 as [-> | [-> | ->]]. }
  eapply Hm; [done|done|lia].
Qed.

(** Unfold a version of [SkipField] and the parser at a given wire type. *)
Ltac at_wire_type E0 E := unfold parse_field; rewrite E, (proj2 (Z.eqb_neq _ _) E0).

Lemma lite_field_ok n m tag s (x : unit) :
  skips n (fin (fun _ x => x) (fun _ x => x)) m -> ready s -> is_u32 tag ->
  (length (avail s) < n)%nat ->
  wp (Lite.SkipField_ m tag) (s, x)
    (field_skipped (fun _ x => x)
       (parse_field (parse (recursion_budget_ s - 1)) (recursion_budget_ s) tag (avail s)) s x).
Proof.
  intros Hm Hr Ht Hn. unfold Lite.SkipField_. apply field_cases; [done|by intros ->| |].
  { intros E. destruct (_ =? 0); [done|]. by destruct E as [-> | [-> | ->]]. }
  intros t E0 E [-> | [-> | [-> | [-> | ->]]]]; rewrite (proj2 (Z.eqb_neq _ _) E0), E; cbv iota beta.
  - at_wire_type E0 E. apply (varint64_field _ (fun y => VARINT (GetTagFieldNumber tag) (u64 y)));
      [done|..]; intros; [by apply wp_ret|intros ?; by apply wp_ret].
  - at_wire_type E0 E. apply (fixed_field _ (fun y => FIXED64 (GetTagFieldNumber tag) y));
      [done|done|..]; intros; [by apply wp_ret|intros ?; by apply wp_ret].
  - at_wire_type E0 E. apply length_field; [done|..].
    + intros y s1 Hr1. apply on_fst_wp. simpl. wp_use skip_read; [done|]. intros ok s2 Hs.
      by destruct (parse_bytes _ _) as [[b l]|].
    + intros v s1 ?. by apply wp_ret.
  - wp_use (@SkipGroup_wp unit); [done..|]. intros ok sx Hg.
    eapply group_field; [done|done| |exact Hg]. intros fs.
    match goal with |- ?a = ?b => by destruct a, b end.
  - at_wire_type E0 E. apply (fixed_field _ (fun y => FIXED32 (GetTagFieldNumber tag) y));
      [done|done|..]; intros; [by apply wp_ret|intros ?; by apply wp_ret].
Qed.

(** *** The version that copies to an output *)

Definition serialize : list UnknownField -> list byte :=
  InternalSerializeUnknownFieldsToArray (fun _ => false).
Definition copy (f : UnknownField) (out : list byte) : list byte :=
  out ++ SerializeField (fun _ => false) f.

Lemma emits_copy fs out : emits copy fs out = out ++ serialize fs.
Proof.
  revert out. unfold serialize, InternalSerializeUnknownFieldsToArray.
  induction fs as [|f fs IH]; intros out; simpl; [by rewrite app_nil_r|].
  unfold emits in *. simpl. rewrite IH. unfold copy. by rewrite <- app_assoc.
Qed.

Lemma field_number_range tag :
  is_u32 tag -> GetTagFieldNumber tag <> 0 -> is_field_number (GetTagFieldNumber tag).
Proof.
  intros Ht. rewrite GetTagFieldNumber_eq by done. unfold is_field_number.
  change (2 ^ 29) with 536870912. intros. ilia.
Qed.

Lemma WriteTagToArray_tag tag t :
  is_u32 tag -> GetTagWireType tag = t ->
  WriteTagToArray (GetTagFieldNumber tag) t = WriteVarint32ToArray tag.
Proof. intros Ht <-. unfold WriteTagToArray. by rewrite <- tag_split. Qed.

Lemma number_id n : is_field_number n -> s32 n = n /\ u32 n = n.
Proof.
  unfold is_field_number. change (2 ^ 29) with 536870912. intros.
  split; [apply s32_id|apply u32_id]; ilia.
Qed.

Lemma WriteTag_eq n t :
  is_field_number n -> 0 <= t < 8 -> WriteTag n t = WriteTagToArray n t.
Proof.
  intros Hn Ht. unfold WriteTag, WriteTagToArray, MakeTag.
  destruct (number_id n Hn) as [_ ->]. by rewrite (u32_id t) by ilia.
Qed.

Lemma WriteString_eq outline n str :
  is_field_number n -> zlen str <= INT_MAX ->
  WriteString outline n str =
    WriteTagToArray n WIRETYPE_LENGTH_DELIMITED ++ WriteVarint32ToArray (zlen str) ++ str.
Proof.
  intros Hn Hs. pose proof (zlen_nonneg str). unfold WriteString, WriteLengthDelim.
  assert (is_u32 (zlen str)) by (unfold INT_MAX in *; ilia).
  rewrite u32_id, UnsafeWriteSize_eq by done. fold (WriteTag n 2).
  rewrite (WriteTag_eq n 2) by (done || lia).
  destruct (Z.leb_spec 128 (zlen str)); simpl; [by rewrite <- app_assoc|].
  destruct outline; [by rewrite <- app_assoc|]. f_equal.
  unfold WriteVarint32ToArray. rewrite UnsafeVarint_unfold by (by apply u32_is_u64).
  by rewrite (proj2 (Z.leb_gt 128 (zlen str))) by lia.
Qed.

Lemma output_field_ok n m tag s (x : list byte) :
  skips n (fin LiteOutput.end_group copy) m -> ready s -> is_u32 tag ->
  (length (avail s) < n)%nat ->
  wp (LiteOutput.SkipField_ m tag) (s, x)
    (field_skipped copy
       (parse_field (parse (recursion_budget_ s - 1)) (recursion_budget_ s) tag (avail s)) s x).
Proof.
  intros Hm Hr Ht Hn. unfold LiteOutput.SkipField_, LiteOutput.write.
  apply field_cases; [done|by intros ->| |].
  { intros E. destruct (_ =? 0); [done|]. by destruct E as [-> | [-> | ->]]. }
  intros t E0 E Hcases. pose proof (field_number_range tag Ht E0) as Hnum.
  pose proof (WriteTagToArray_tag tag t Ht E) as Etag. destruct (number_id _ Hnum) as [Es Eu].
  destruct Hcases as [-> | [-> | [-> | [-> | ->]]]];
    rewrite (proj2 (Z.eqb_neq _ _) E0), E; cbv iota beta.
  - at_wire_type E0 E. apply (varint64_field _ (fun y => VARINT (GetTagFieldNumber tag) (u64 y)));
      [done|..].
    + intros y s1. do 2 apply wp_bind, on_snd_wp, wp_modS. apply wp_ret. split; [done|].
      f_equal. unfold copy; cbn [SerializeField]; unfold number; cbn [number_]. rewrite Es, <- app_assoc.
      unfold WriteToArray. change (WireTypeForFieldType TYPE_UINT64) with 0. by rewrite Etag.
    + intros v s1 ?. by apply wp_ret.
  - at_wire_type E0 E. apply (fixed_field _ (fun y => FIXED64 (GetTagFieldNumber tag) y));
      [done|done|..].
    + intros y s1. do 2 apply wp_bind, on_snd_wp, wp_modS. apply wp_ret. split; [done|].
      f_equal. unfold copy; cbn [SerializeField]; unfold number; cbn [number_]. rewrite Es, <- app_assoc.
      unfold WriteToArray. change (WireTypeForFieldType TYPE_FIXED64) with 1. by rewrite Etag.
    + intros v s1 ?. by apply wp_ret.
  - at_wire_type E0 E. apply length_field; [done|..].
    + intros y s1 Hr1. cbn [negb]. do 2 apply wp_bind, on_snd_wp, wp_modS. apply wp_bind, on_fst_wp.
      wp_use string_read; [done|]. intros [ok v] s2 Hs.
      destruct (parse_bytes _ _) as [[b l]|] eqn:Eb; simpl in Hs.
      * destruct Hs as [[= -> ->] Hl]. apply wp_bind, on_snd_wp, wp_modS, wp_ret. split; [|done].
        apply parse_bytes_suffix in Eb as [_ Eb]. simpl. unfold copy; cbn [SerializeField]; unfold number; cbn [number_].
        rewrite Es, Eu, WriteString_eq; [|done|rewrite Eb; pose proof (s32_range (u32 y)); unfold INT_MAX; ilia].
        change WIRETYPE_LENGTH_DELIMITED with 2. rewrite Etag, Eb. rewrite <- !app_assoc. do 3 f_equal.
        unfold WriteVarint32ToArray. f_equal.
        pose proof (zlen_nonneg b). rewrite Eb in *. ilia.
      * destruct Hs as [-> HI]. by apply wp_ret.
    + intros v s1 ?. by apply wp_ret.
  - apply wp_bind, on_snd_wp, wp_modS.
    wp_use (@SkipGroup_wp (list byte)); [done..|]. intros ok sx Hg.
    apply (group_field copy (fun fs e out => fin LiteOutput.end_group copy fs e (out ++ WriteVarint32ToArray tag)));
      [done|done| |exact Hg].
    intros fs. unfold fin, LiteOutput.end_group. rewrite emits_copy. unfold copy; cbn [SerializeField]; unfold number; cbn [number_].
    rewrite Es. change WIRETYPE_START_GROUP with 3. rewrite Etag. rewrite <- !app_assoc. do 3 f_equal.
  - at_wire_type E0 E. apply (fixed_field _ (fun y => FIXED32 (GetTagFieldNumber tag) y));
      [done|done|..].
    + intros y s1. do 2 apply wp_bind, on_snd_wp, wp_modS. apply wp_ret. split; [done|].
      f_equal. unfold copy; cbn [SerializeField]; unfold number; cbn [number_]. rewrite Es, <- app_assoc.
      unfold WriteToArray. change (WireTypeForFieldType TYPE_FIXED32) with 5. by rewrite Etag.
    + intros v s1 ?. by apply wp_ret.
Qed.

(** *** The version that fills a set *)

Definition append (f : UnknownField) : option (list UnknownField) -> option (list UnknownField) :=
  option_map (fun l => l ++ [f]).

Lemma emits_append fs x : emits append fs x = option_map (fun l => l ++ fs) x.
Proof.
  revert x. induction fs as [|f fs IH]; intros x.
  { destruct x; simpl; [by rewrite app_nil_r|done]. }
  change (emits append (f :: fs) x) with (emits append fs (append f x)). rewrite IH.
  destruct x; simpl; [by rewrite <- app_assoc|done].
Qed.

Lemma in_group_skips n num m :
  skips n (fin (fun _ x => x) append) m ->
  skips n (fun fs _ => option_map (AddGroup num fs)) (Full.in_group num m).
Proof.
  intros Hm s x Hr Hn. specialize (Hm s (option_map (fun _ => []) x) Hr Hn).
  unfold wp, Full.in_group in *. simpl. destruct (m _) as [[ok [i g]]|]; [|done].
  unfold skipped in *. simpl in *. set (r := parse _ _) in *.
  destruct (r.2); try done; destruct Hm as (-> & Hx & Hm); split; try done; (split; [|done]);
    unfold fin in Hx; rewrite emits_append in Hx; subst g; by destruct x.
Qed.

Lemma full_field_ok n m tag s x :
  skips n (fin (fun _ x => x) append) m -> ready s -> is_u32 tag ->
  (length (avail s) < n)%nat ->
  wp (Full.SkipField_ m tag) (s, x)
    (field_skipped append
       (parse_field (parse (recursion_budget_ s - 1)) (recursion_budget_ s) tag (avail s)) s x).
Proof.
  intros Hm Hr Ht Hn. unfold Full.SkipField_, Full.add. apply field_cases; [done|by intros ->| |].
  { intros E. destruct (_ =? 0); [done|]. by destruct E as [-> | [-> | ->]]. }
  intros t E0 E Hcases. pose proof (field_number_range tag Ht E0) as Hnum.
  destruct (number_id _ Hnum) as [_ Eu].
  destruct Hcases as [-> | [-> | [-> | [-> | ->]]]];
    rewrite (proj2 (Z.eqb_neq _ _) E0), E; cbv iota beta.
  - at_wire_type E0 E. apply (varint64_field _ (fun y => VARINT (GetTagFieldNumber tag) (u64 y)));
      [done|..]; intros; [|intros ?; by apply wp_ret].
    apply wp_bind, on_snd_wp, wp_modS, wp_ret. by unfold AddVarint; rewrite Eu.
  - at_wire_type E0 E. apply (fixed_field _ (fun y => FIXED64 (GetTagFieldNumber tag) y));
      [done|done|..]; intros; [|intros ?; by apply wp_ret].
    apply wp_bind, on_snd_wp, wp_modS, wp_ret. by unfold AddFixed64; rewrite Eu.
  - at_wire_type E0 E. apply length_field; [done|..].
    + intros y s1 Hr1. cbn [negb]. apply wp_bind, wp_getS. cbn [snd].
      destruct x as [x|].
      * apply wp_bind, on_fst_wp. wp_use string_read; [done|]. intros [ok v] s2 Hs.
        apply wp_bind, on_snd_wp, wp_modS, wp_ret.
        destruct (parse_bytes _ _) as [[b l]|]; simpl in Hs; [|by destruct Hs].
        destruct Hs as [[= -> ->] Hl]. split; [|done]. by unfold AddLengthDelimited; rewrite Eu.
      * apply on_fst_wp. wp_use skip_read; [done|]. intros ok s2 Hs.
        by destruct (parse_bytes _ _) as [[b l]|].
    + intros v s1 ?. by apply wp_ret.
  - wp_use (@SkipGroup_wp (option (list UnknownField))); [by apply in_group_skips|done..|].
    intros ok sx Hg. eapply group_field; [done|done| |exact Hg].
    intros fs. by unfold AddGroup, append; rewrite Eu.
  - at_wire_type E0 E. apply (fixed_field _ (fun y => FIXED32 (GetTagFieldNumber tag) y));
      [done|done|..]; intros; [|intros ?; by apply wp_ret].
    apply wp_bind, on_snd_wp, wp_modS, wp_ret. by unfold AddFixed32; rewrite Eu.
Qed.
End skip.
