(* ===== verification/UnknownFieldsCodec.v ===== *)
(** * Unknown fields: round trips, sizes, and the public operations

    The parser of [UnknownFieldsSpec.v] and the serializer of
    [UnknownFields.v] are inverse to each other up to the canonical encoding,
    the announced sizes are the real ones, and [UnknownFieldSet]'s operations
    do what their comments say. *)

From S2P Require Import Prelude Varint ZeroCopyStream CodedInput WireFormatLite UnknownFields UnknownFieldsSpec.

#[local] Arguments vdecode : simpl never.
#[local] Opaque kMaxVarintBytes.

(** ** Well-formed fields *)

Lemma UnknownField_nested_ind (P : UnknownField -> Prop) :
  (forall n v, P (VARINT n v)) -> (forall n v, P (FIXED32 n v)) ->
  (forall n v, P (FIXED64 n v)) -> (forall n s, P (LENGTH_DELIMITED n s)) ->
  (forall n g, Forall P g -> P (GROUP n g)) -> forall f, P f.
Proof.
  intros Hv H32 H64 Hs Hg. fix IH 1. intros [n v|n v|n v|n s|n g];
    [apply Hv|apply H32|apply H64|apply Hs|].
  apply Hg. induction g; constructor; [apply IH|assumption].
Qed.

(** What the types of the members and the parser guarantee. *)
Fixpoint valid (f : UnknownField) : Prop :=
  match f with
  | VARINT n v | FIXED64 n v => is_field_number n /\ is_u64 v
  | FIXED32 n v => is_field_number n /\ is_u32 v
  | LENGTH_DELIMITED n s => is_field_number n /\ zlen s <= INT_MAX
  | GROUP n g => is_field_number n /\ foldr (fun f P => valid f /\ P) True g
  end.

Lemma valid_group n g : valid (GROUP n g) <-> is_field_number n /\ Forall valid g.
Proof.
  simpl. rewrite <- (Forall_fold_right valid g). done.
Qed.

Lemma valid_number f : valid f -> is_field_number (number_ f).
Proof. destruct f; by intros [? _]. Qed.

(** Levels of groups. *)
Fixpoint depth (f : UnknownField) : Z :=
  match f with
  | GROUP _ g => 1 + foldr (fun f d => Z.max (depth f) d) 0 g
  | _ => 0
  end.
Definition depths (fs : list UnknownField) : Z := foldr (fun f d => Z.max (depth f) d) 0 fs.

Lemma depths_nonneg fs : 0 <= depths fs.
Proof. induction fs; simpl; lia. Qed.
Lemma depth_group n g : depth (GROUP n g) = 1 + depths g.
Proof. done. Qed.
Lemma depth_nonneg f : 0 <= depth f.
Proof. destruct f as [| | | |n g]; simpl; try lia. pose proof (depths_nonneg g). unfold depths in *. lia. Qed.

(** ** Parsing what was written *)

Lemma MakeTag_u32 n t : is_u32 (MakeTag n t).
Proof. apply MakeTag_range. Qed.

Lemma vdecode_tag n t k :
  vdecode kMaxVarintBytes (WriteTagToArray n t ++ k) = Some (MakeTag n t, k).
Proof. apply vdecode_UnsafeVarint, u32_is_u64, MakeTag_u32. Qed.

Lemma parse_tag budget n t k :
  is_field_number n -> 0 <= t < 8 -> t <> 4 ->
  parse budget (WriteTagToArray n t ++ k) =
    match parse_field (parse (budget - 1)) budget (MakeTag n t) k with
    | Some (f, r) => let (fs, e) := parse budget r in (f :: fs, e)
    | None => ([], broken)
    end.
Proof.
  intros Hn Ht H4. rewrite (parse_cons _ _ _ _ (vdecode_tag n t k)). cbn zeta.
  rewrite (u32_id (MakeTag n t)) by apply MakeTag_u32. unfold is_field_number in *.
  destruct (MakeTag_fields n t) as [_ Et]; [lia|done|].
  rewrite Et. unfold WIRETYPE_END_GROUP. rewrite (proj2 (Z.eqb_neq t 4)) by done.
  rewrite MakeTag_eq by (done || lia). rewrite (proj2 (Z.eqb_neq (8 * n + t) 0)) by lia. done.
Qed.

Lemma parse_end_tag budget n k :
  is_field_number n ->
  parse budget (WriteTagToArray n WIRETYPE_END_GROUP ++ k) = ([], at_group (MakeTag n 4) k).
Proof.
  intros Hn. rewrite (parse_cons _ _ _ _ (vdecode_tag n WIRETYPE_END_GROUP k)). cbn zeta.
  unfold WIRETYPE_END_GROUP. rewrite (u32_id (MakeTag n 4)) by apply MakeTag_u32.
  unfold is_field_number in *. destruct (MakeTag_fields n 4) as [_ Et]; [lia|lia|].
  rewrite Et. rewrite MakeTag_eq by lia. rewrite (proj2 (Z.eqb_neq (8 * n + 4) 0)) by lia. done.
Qed.

Lemma parse_field_eq g budget n t l :
  is_field_number n -> 0 <= t < 8 ->
  parse_field g budget (MakeTag n t) l =
  match t with
  | 0 => '(x, r) ← vdecode kMaxVarintBytes l; Some (VARINT n (u64 x), r)
  | 1 => '(b, r) ← parse_bytes 8 l; Some (FIXED64 n (le_value b), r)
  | 2 => '(x, r) ← vdecode kMaxVarintBytes l;
         '(b, r) ← parse_bytes (s32 (u32 x)) r; Some (LENGTH_DELIMITED n b, r)
  | 3 =>
      if budget - 1 <? 0 then None else
      match g l with
      | (fs, at_group tag' r) =>
          if tag' =? MakeTag n WIRETYPE_END_GROUP then Some (GROUP n fs, r) else None
      | _ => None
      end
  | 5 => '(b, r) ← parse_bytes 4 l; Some (FIXED32 n (le_value b), r)
  | _ => None
  end.
Proof.
  intros Hn Ht. unfold parse_field. unfold is_field_number in *.
  destruct (MakeTag_fields n t) as [-> ->]; [lia|done|].
  by rewrite (proj2 (Z.eqb_neq n 0)) by lia.
Qed.

Lemma parse_bytes_app b k : parse_bytes (zlen b) (b ++ k) = Some (b, k).
Proof.
  unfold parse_bytes. pose proof (zlen_nonneg b). pose proof (zlen_nonneg k).
  rewrite (proj2 (Z.leb_le 0 _)), (proj2 (Z.leb_le _ _)) by (rewrite ?zlen_app; lia).
  simpl. by rewrite ztake_app_exact, zdrop_app_exact.
Qed.

Section outline.
Context (outline : list byte -> bool).
Notation serialize := (InternalSerializeUnknownFieldsToArray outline).

(** One field in front of anything: it is read back, or refused when it is
    nested too deeply. *)
Definition read_back (budget : Z) (f : UnknownField) (k : list byte) : Prop :=
  parse budget (SerializeField outline f ++ k) =
    if depth f <=? Z.max 0 budget
    then let (fs, e) := parse budget k in (f :: fs, e)
    else ([], broken).

Lemma read_back_all budget g k :
  Forall (fun f => valid f -> forall budget k, read_back budget f k) g -> Forall valid g ->
  if depths g <=? Z.max 0 budget
  then parse budget (serialize g ++ k) = let (fs, e) := parse budget k in (g ++ fs, e)
  else (parse budget (serialize g ++ k)).2 = broken.
Proof.
  intros Hg Hv. unfold serialize. induction Hg as [|f g Hf Hg IH]; simpl.
  { rewrite (proj2 (Z.leb_le _ _)) by lia. by destruct (parse budget k). }
  inversion Hv as [|? ? Hvf Hvg]; subst. specialize (IH Hvg).
  rewrite <- app_assoc, (Hf Hvf budget). pose proof (depths_nonneg g). pose proof (depth_nonneg f).
  fold (depths g).
  destruct (Z.leb_spec (depth f) (Z.max 0 budget)).
  - destruct (Z.leb_spec (depths g) (Z.max 0 budget)).
    + rewrite (proj2 (Z.leb_le _ _)) by lia. rewrite IH. by destruct (parse budget k).
    + rewrite (proj2 (Z.leb_gt _ _)) by lia. by destruct (parse budget (concat _ ++ k)).
  - by rewrite (proj2 (Z.leb_gt _ _)) by lia.
Qed.

Lemma read_back_field f : valid f -> forall budget k, read_back budget f k.
Proof.
  induction f as [n v|n v|n v|n s|n g IH] using UnknownField_nested_ind; intros Hv budget k;
    pose proof (valid_number _ Hv) as Hn; unfold number_ in Hn; destruct (number_id n Hn) as [Es Eu];
    unfold read_back; cbn [SerializeField]; unfold number; cbn [number_]; rewrite ?Es, ?Eu.
  1-4: rewrite (proj2 (Z.leb_le _ _)) by (simpl; lia).
  - destruct Hv as [_ Hv]. unfold WriteToArray. rewrite <- app_assoc.
    change (WireTypeForFieldType _) with 0. rewrite parse_tag, parse_field_eq by (done || lia).
    change (WriteNoTagToArray _ v) with (UnsafeVarint v). rewrite vdecode_UnsafeVarint by done.
    simpl. by rewrite u64_id.
  - destruct Hv as [_ Hv]. unfold WriteToArray. rewrite <- app_assoc.
    change (WireTypeForFieldType _) with 5. rewrite parse_tag, parse_field_eq by (done || lia).
    change (WriteNoTagToArray _ v) with (WriteLittleEndian32ToArray v).
    rewrite (parse_bytes_app (WriteLittleEndian32ToArray v)). cbn -[WriteLittleEndian32ToArray].
    by rewrite le_value_write32.
  - destruct Hv as [_ Hv]. unfold WriteToArray. rewrite <- app_assoc.
    change (WireTypeForFieldType _) with 1. rewrite parse_tag, parse_field_eq by (done || lia).
    change (WriteNoTagToArray _ v) with (WriteLittleEndian64ToArray v).
    rewrite (parse_bytes_app (WriteLittleEndian64ToArray v)). cbn -[WriteLittleEndian64ToArray].
    by rewrite le_value_write64.
  - destruct Hv as [_ Hv]. rewrite WriteString_eq, <- !app_assoc by done.
    pose proof (zlen_nonneg s). assert (is_u32 (zlen s)) by (unfold INT_MAX in *; ilia).
    change WIRETYPE_LENGTH_DELIMITED with 2. rewrite parse_tag, parse_field_eq by (done || lia).
    rewrite vdecode_UnsafeVarint by (by apply u32_is_u64). simpl.
    rewrite u32_id, s32_id by (done || (unfold INT_MAX in *; ilia)).
    by rewrite parse_bytes_app.
  - apply valid_group in Hv as [_ Hv]. rewrite <- !app_assoc. change WIRETYPE_START_GROUP with 3.
    rewrite parse_tag, parse_field_eq by (done || lia).
    pose proof (read_back_all (budget - 1) g (WriteTagToArray n WIRETYPE_END_GROUP ++ k) IH Hv) as Hg.
    unfold serialize in Hg. rewrite parse_end_tag in Hg by done.
    rewrite depth_group. pose proof (depths_nonneg g).
    destruct (Z.ltb_spec (budget - 1) 0).
    { by rewrite (proj2 (Z.leb_gt _ _)) by lia. }
    destruct (Z.leb_spec (depths g) (Z.max 0 (budget - 1))).
    + rewrite Hg, (proj2 (Z.leb_le (1 + _) _)) by lia. rewrite app_nil_r.
      unfold WIRETYPE_END_GROUP. by rewrite Z.eqb_refl.
    + rewrite (proj2 (Z.leb_gt (1 + _) _)) by lia.
      destruct (parse (budget - 1) _) as [fs e]. simpl in Hg. by subst e.
Qed.

Lemma read_back_set budget fs k :
  Forall valid fs ->
  if depths fs <=? Z.max 0 budget
  then parse budget (serialize fs ++ k) = let (gs, e) := parse budget k in (fs ++ gs, e)
  else (parse budget (serialize fs ++ k)).2 = broken.
Proof.
  intros Hv. apply read_back_all; [|done]. apply Forall_true. intros f ?. by apply read_back_field.
Qed.
End outline.

(** ** What the parser returns *)

Section returned.
Context (outline : list byte -> bool).
Notation serialize := (InternalSerializeUnknownFieldsToArray outline).

(** A parsed field is well formed, no deeper than the budget allows, and not
    longer in the canonical encoding than [n], the bytes it was read from. *)
Definition parsed (budget n : Z) (f : UnknownField) : Prop :=
  valid f /\ depth f <= Z.max 0 budget /\ zlen (SerializeField outline f) <= n.
Definition parsed_all (budget n : Z) (fs : list UnknownField) : Prop :=
  Forall valid fs /\ depths fs <= Z.max 0 budget /\ zlen (serialize fs) <= n.

Definition consumed (l : list byte) (e : ending) : Z :=
  match e with at_group tag r => zlen l - zlen r - zlen (WriteVarint32ToArray tag) | _ => zlen l end.

Lemma parsed_cons budget n m f fs :
  parsed budget n f -> parsed_all budget m fs -> parsed_all budget (n + m) (f :: fs).
Proof.
  intros (Hv & Hd & Hz) (Hvs & Hds & Hzs). split_and!; [by constructor|simpl; fold (depths fs); lia|].
  unfold InternalSerializeUnknownFieldsToArray in *. simpl. rewrite zlen_app. lia.
Qed.

Lemma vdecode_u32_length l0 x l :
  vdecode kMaxVarintBytes l0 = Some (x, l) ->
  zlen (WriteVarint32ToArray (u32 x)) + zlen l <= zlen l0.
Proof.
  intros Hd. eapply vdecode_shortest; [done|apply u32_is_u64, u32_range|].
  apply vdecode_nonneg in Hd. unfold u32. apply Z.mod_le; lia.
Qed.

(** A field of the parser from what it writes. *)
Lemma parsed_intro budget n f w :
  valid f -> depth f <= Z.max 0 budget -> SerializeField outline f = w -> zlen w <= n ->
  parsed budget n f.
Proof. intros ?? <- ?. by repeat split. Qed.

Lemma write_number f tag :
  is_u32 tag -> number_ f = GetTagFieldNumber tag -> GetTagFieldNumber tag <> 0 ->
  number f = GetTagFieldNumber tag.
Proof.
  intros Ht E Hn. unfold number. rewrite E.
  by apply (proj1 (number_id _ (field_number_range tag Ht Hn))).
Qed.

Lemma parse_field_parsed g budget tag l f r :
  is_u32 tag -> zlen l <= INT_MAX ->
  (forall fs tag' k, g l = (fs, at_group tag' k) ->
    parsed_all (budget - 1) (zlen l - zlen k - zlen (WriteVarint32ToArray tag')) fs) ->
  parse_field g budget tag l = Some (f, r) ->
  parsed budget (zlen (WriteVarint32ToArray tag) + (zlen l - zlen r)) f.
Proof.
  intros Ht Hl Hg. unfold parse_field.
  destruct (Z.eqb_spec (GetTagFieldNumber tag) 0) as [|Hn]; [done|].
  pose proof (field_number_range tag Ht Hn) as Hnum.
  pose proof (WriteTagToArray_tag tag _ Ht eq_refl) as Etag.
  destruct (GetTagWireType tag) as [|[[[]|[]|]|[[]|[]|]|]|] eqn:Ewt; try done.
  - destruct (vdecode _ l) as [[x k]|] eqn:E; simpl; [|done]. intros [= <- <-].
    pose proof (vdecode_nonneg _ _ _ _ E). apply (vdecode_shortest _ _ _ _ (u64 x)) in E;
      [|apply u64_range|unfold u64; apply Z.mod_le; lia].
    eapply parsed_intro; [by split; [|apply u64_range]|simpl; lia|cbn [SerializeField]|].
    + rewrite (write_number _ tag) by done. unfold WriteToArray.
      change (WireTypeForFieldType _) with 0. by rewrite Etag.
    + rewrite zlen_app. change (WriteNoTagToArray _ ?v) with (UnsafeVarint v). lia.
  - destruct (parse_bytes 4 l) as [[c k]|] eqn:E; simpl; [|done]. intros [= <- <-].
    apply parse_bytes_suffix in E as [-> E].
    eapply parsed_intro; [split; [done|]|simpl; lia|cbn [SerializeField]|].
    + change 4 with (Z.of_nat 4) in E. pose proof (le_value_range c) as Hr.
      unfold zlen in E. rewrite (Nat2Z.inj _ _ E) in Hr. exact Hr.
    + rewrite (write_number _ tag) by done. unfold WriteToArray.
      change (WireTypeForFieldType _) with 5. by rewrite Etag.
    + rewrite !zlen_app. change (zlen (WriteNoTagToArray _ ?v)) with 4. lia.
  - destruct (Z.ltb_spec (budget - 1) 0); [done|].
    destruct (g l) as [fs [| |tag' k|]]; try done.
    destruct (Z.eqb_spec tag' (MakeTag (GetTagFieldNumber tag) WIRETYPE_END_GROUP)) as [->|]; [|done].
    intros [= <- <-]. destruct (Hg _ _ _ eq_refl) as (Hv & Hd & Hz).
    eapply parsed_intro; [by apply valid_group|rewrite depth_group; lia|cbn [SerializeField]|].
    + rewrite (write_number _ tag) by done. change WIRETYPE_START_GROUP with 3. by rewrite Etag.
    + rewrite !zlen_app. unfold InternalSerializeUnknownFieldsToArray in Hz.
      unfold WriteTagToArray at 1, Varint.WriteTagToArray. unfold WriteVarint32ToArray in *. lia.
  - destruct (vdecode _ l) as [[x k]|] eqn:E; simpl; [|done].
    pose proof (vdecode_u32_length _ _ _ E) as Hx. apply vdecode_suffix in E as (c & -> & _).
    destruct (parse_bytes _ k) as [[b k2]|] eqn:E; simpl; [|done]. intros [= <- <-].
    apply parse_bytes_suffix in E as [-> Eb]. rewrite !zlen_app in *.
    pose proof (zlen_nonneg b). pose proof (zlen_nonneg c). pose proof (zlen_nonneg k2).
    assert (zlen b = u32 x) as Ex by (rewrite Eb in *; ilia).
    eapply parsed_intro; [split; [done|lia]|simpl; lia|cbn [SerializeField]|].
    + rewrite (write_number _ tag) by done. destruct (number_id _ Hnum) as [_ ->].
      rewrite WriteString_eq by (done || lia). change WIRETYPE_LENGTH_DELIMITED with 2.
      by rewrite Etag, Ex.
    + rewrite !zlen_app. lia.
  - destruct (parse_bytes 8 l) as [[c k]|] eqn:E; simpl; [|done]. intros [= <- <-].
    apply parse_bytes_suffix in E as [-> E].
    eapply parsed_intro; [split; [done|]|simpl; lia|cbn [SerializeField]|].
    + change 8 with (Z.of_nat 8) in E. pose proof (le_value_range c) as Hr.
      unfold zlen in E. rewrite (Nat2Z.inj _ _ E) in Hr. exact Hr.
    + rewrite (write_number _ tag) by done. unfold WriteToArray.
      change (WireTypeForFieldType _) with 1. by rewrite Etag.
    + rewrite !zlen_app. change (zlen (WriteNoTagToArray _ ?v)) with 8. lia.
Qed.

Lemma parse_message_parsed n budget l fs e :
  zlen l <= INT_MAX -> parse_message n budget l = (fs, e) ->
  parsed_all budget (consumed l e) fs.
Proof.
  revert budget l fs e. induction n as [|n IH]; intros budget l fs e Hl.
  { intros [= <- <-]. split_and!; [done|simpl; lia|apply zlen_nonneg]. }
  assert (forall e, 0 <= consumed l e -> parsed_all budget (consumed l e) []) as Hnil.
  { intros e' He. split_and!; [done|simpl; lia|exact He]. }
  pose proof (zlen_nonneg l). cbn [parse_message].
  destruct l as [|b l']; [intros [= <- <-]; by apply Hnil|]. set (l := b :: l') in *.
  destruct (vdecode _ l) as [[x r]|] eqn:E; [|intros [= <- <-]; by apply Hnil].
  pose proof (vdecode_u32_length _ _ _ E) as Ht. apply vdecode_suffix in E as (c & Ec & _).
  assert (zlen l = zlen c + zlen r) as Ezl by (by rewrite Ec, zlen_app).
  pose proof (zlen_nonneg c). pose proof (zlen_nonneg r).
  destruct (u32 x =? 0); [intros [= <- <-]; by apply Hnil|].
  destruct (_ =? WIRETYPE_END_GROUP).
  { intros [= <- <-]. apply Hnil. simpl. lia. }
  destruct (parse_field _ _ _ r) as [[f r2]|] eqn:Ef; [|intros [= <- <-]; by apply Hnil].
  pose proof Ef as [c2 Ec2]%parse_field_suffix; [|intros ? ? ?; apply parse_message_suffix].
  apply parse_field_parsed in Ef; [|apply u32_range|lia|].
  2:{ intros fs' tag' k Hp. by apply IH in Hp; [|lia]. }
  assert (zlen r = zlen c2 + zlen r2) as Er by (by rewrite Ec2, zlen_app).
  pose proof (zlen_nonneg c2). pose proof (zlen_nonneg r2).
  destruct (parse_message n budget r2) as [fs2 e2] eqn:E2. intros [= <- <-].
  apply IH in E2; [|lia]. pose proof (parsed_cons _ _ _ _ _ Ef E2) as (Hv & Hd & Hz).
  split_and!; [done..|]. etrans; [exact Hz|]. destruct e2; simpl; lia.
Qed.
End returned.

(** ** Sizes *)

Section size.
Context (prefer_bsr : bool) (outline : list byte -> bool).
Notation serialize := (InternalSerializeUnknownFieldsToArray outline).

(** A loop that adds up sizes in a [size_t]. *)
Lemma size_loop {A} (F : A -> Z) (w : A -> list byte) l a :
  Forall (fun x => u64 (F x) = u64 (zlen (w x))) l -> is_u64 a ->
  fold_left (fun size x => u64 (size + F x)) l a = u64 (a + zlen (concat (map w l))).
Proof.
  intros Hl. revert a. induction Hl as [|x l Hx Hl IH]; intros a Ha; simpl.
  { rewrite zlen_nil, Z.add_0_r. by rewrite u64_id. }
  rewrite IH by apply u64_range. rewrite zlen_app, u64_add_l. set (k := zlen (concat _)).
  replace (a + F x + k) with (a + k + F x) by lia.
  rewrite <- (u64_add_r (a + k)), Hx, u64_add_r. f_equal. lia.
Qed.

Lemma zlen_tag n t : zlen (WriteTagToArray n t) = VarintSize32 prefer_bsr (MakeTag n t).
Proof.
  rewrite (VarintSize32_64 prefer_bsr) by apply MakeTag_u32.
  apply zlen_varint, u32_is_u64, MakeTag_u32.
Qed.

Lemma zlen_varint32 v : is_u32 v -> zlen (WriteVarint32ToArray v) = VarintSize32 prefer_bsr v.
Proof.
  intros. rewrite (VarintSize32_64 prefer_bsr) by done. by apply zlen_varint, u32_is_u64.
Qed.

Lemma zlen_string (l : list byte) :
  zlen l <= INT_MAX -> is_u32 (zlen l) /\ s32 (zlen l) = zlen l.
Proof.
  pose proof (zlen_nonneg l). unfold INT_MAX. intros. split; [ilia|apply s32_id; ilia].
Qed.

Lemma FieldSize_correct f :
  valid f -> u64 (FieldSize prefer_bsr f) = u64 (zlen (SerializeField outline f)).
Proof.
  induction f as [n v|n v|n v|n s|n g IH] using UnknownField_nested_ind; intros Hv;
    pose proof (valid_number _ Hv) as Hn; unfold number_ in Hn; destruct (number_id n Hn) as [Es Eu];
    cbn [SerializeField FieldSize]; unfold number; cbn [number_]; rewrite ?Es, ?Eu.
  1-3: unfold WriteToArray; rewrite zlen_app, zlen_tag; f_equal.
  - change (WriteNoTagToArray _ v) with (UnsafeVarint v).
    rewrite (zlen_varint prefer_bsr); [done|apply Hv].
  - destruct Hv as [_ Hv]. rewrite WriteString_eq by done. destruct (zlen_string s Hv) as [Hs _].
    by rewrite !zlen_app, zlen_tag, zlen_varint32, u32_id, <- !Z.add_assoc by done.
  - apply valid_group in Hv as [_ Hv]. rewrite !zlen_app, !zlen_tag.
    rewrite (size_loop _ (SerializeField outline)); [|rewrite !Forall_forall in *; eauto|ilia].
    rewrite Z.add_0_l, <- Z.add_assoc, <- (u64_add_r _ (u64 _ + _)), u64_add_l, u64_add_r. done.
Qed.

Lemma unknown_size fs :
  Forall valid fs -> ComputeUnknownFieldsSize prefer_bsr fs = u64 (zlen (serialize fs)).
Proof.
  intros Hv. unfold ComputeUnknownFieldsSize. rewrite (size_loop _ (SerializeField outline)).
  - done.
  - eapply Forall_impl; [exact Hv|]. apply FieldSize_correct.
  - ilia.
Qed.

(** The announced size of the items of a message set. *)
Definition item_size (f : UnknownField) : Z :=
  match f with
  | LENGTH_DELIMITED _ data =>
      kMessageSetItemTagsSize + VarintSize32 prefer_bsr (u32 (number f)) +
      VarintSize32 prefer_bsr (u32 (s32 (zlen data))) + u64 (s32 (zlen data))
  | _ => 0
  end.

Lemma item_size_correct f :
  valid f -> zlen (InternalSerializeUnknownMessageSetItemsToArray [f]) = item_size f.
Proof.
  destruct f as [n v|n v|n v|n s|n g]; try done. intros [Hn Hs]. simpl in Hs.
  destruct (zlen_string s Hs) as [Hu Ei]. pose proof (zlen_nonneg s).
  unfold item_size, InternalSerializeUnknownMessageSetItemsToArray. cbn [map concat].
  unfold number; cbn [number_]. destruct (number_id n Hn) as [-> ->].
  rewrite app_nil_r, !zlen_app, Ei, (u32_id (zlen s)) by done.
  rewrite !zlen_varint32 by (done || by apply u32_is_u64 || (unfold is_field_number in Hn; ilia)).
  rewrite (u64_id (zlen s)) by (by apply u32_is_u64).
  assert (forall t, is_u32 t -> VarintSize32 prefer_bsr t = Varint.TagSize t) as Hsz
    by (intros t Ht; symmetry; exact (TagSize_correct prefer_bsr t Ht)).
  rewrite !(Hsz kMessageSetItemStartTag), !(Hsz kMessageSetTypeIdTag), !(Hsz kMessageSetMessageTag),
    !(Hsz kMessageSetItemEndTag) by (split; by vm_compute).
  change (Varint.TagSize _) with 1. change kMessageSetItemTagsSize with 4. lia.
Qed.

Lemma items_loop fs a :
  is_u64 a ->
  fold_left (fun size f => match f with
    | LENGTH_DELIMITED _ data => let field_size := s32 (zlen data) in
        u64 (size + kMessageSetItemTagsSize + VarintSize32 prefer_bsr (u32 (number f)) +
             VarintSize32 prefer_bsr (u32 field_size) + u64 field_size)
    | _ => size end) fs a
  = fold_left (fun size f => u64 (size + item_size f)) fs a.
Proof.
  revert a. induction fs as [|f fs IH]; intros a Ha; [done|]. simpl.
  destruct f; cbn [item_size]; rewrite ?Z.add_0_r; try (by rewrite u64_id, IH).
  rewrite IH by apply u64_range. f_equal. f_equal. lia.
Qed.

Lemma items_size fs :
  Forall valid fs ->
  ComputeUnknownMessageSetItemsSize prefer_bsr fs =
  u64 (zlen (InternalSerializeUnknownMessageSetItemsToArray fs)).
Proof.
  intros Hv. unfold ComputeUnknownMessageSetItemsSize. rewrite items_loop by ilia.
  rewrite (size_loop item_size (fun f => InternalSerializeUnknownMessageSetItemsToArray [f])).
  - rewrite Z.add_0_l. do 2 f_equal.
    unfold InternalSerializeUnknownMessageSetItemsToArray. cbn [map concat].
    f_equal. apply map_ext. intros f. by rewrite app_nil_r.
  - eapply Forall_impl; [exact Hv|]. intros f Hf. simpl. by rewrite item_size_correct.
  - ilia.
Qed.
End size.
