(* ===== verification/UnknownFieldsTheorems.v ===== *)
(** * Unknown fields: the properties

    What a caller of [UnknownFieldSet] and of the skippers can rely on, from
    the parser of [UnknownFieldsSpec.v] and the lemmas of
    [UnknownFieldsCodec.v]. *)

From S2P Require Import Prelude Varint ZeroCopyStream CodedInput WireFormatLite UnknownFields UnknownFieldsSpec UnknownFieldsCodec.

#[local] Arguments vdecode : simpl never.
#[local] Opaque kMaxVarintBytes.

(** ** Skipping *)

Section skip.
Context {S : Type} `{ZeroCopyInputStreamOk S}.
Implicit Type s : CodedInput.t S.

Lemma fuel_enough s : (length (avail s) < fuel s)%nat.
Proof.
  unfold fuel, avail, stream. rewrite ztake_ztake. unfold ztake. rewrite length_take. lia.
Qed.

Lemma lite_skips s :
  ready s ->
  wp Lite.SkipMessage (s, tt)
    (skipped (fun _ _ x => x) (parse (recursion_budget_ s) (avail s)) s tt).
Proof.
  intros Hr. wp_use (loop_skips Lite.SkipField_ (fun _ x => x) (fun _ x => x) lite_field_ok
    (fuel s) s tt Hr (fuel_enough s)).
  intros ok sx. unfold skipped, fin. destruct (parse _ _) as [fs []]; simpl; try done;
    intros (Hok & _ & Hs); (split; [exact Hok|split; [by destruct sx.2|exact Hs]]).
Qed.

Lemma full_skips s set :
  ready s ->
  wp Full.SkipMessage (s, set)
    (skipped (fun fs _ => option_map (fun l => l ++ fs)) (parse (recursion_budget_ s) (avail s)) s set).
Proof.
  intros Hr. wp_use (loop_skips Full.SkipField_ (fun _ x => x) append full_field_ok
    (fuel s) s set Hr (fuel_enough s)).
  intros ok sx. unfold skipped, fin.
  destruct (parse _ _) as [fs []]; simpl; try done; by rewrite emits_append.
Qed.

(** C2: The three [SkipMessage]s agree with one parser, whatever the stream and
    wherever it is cut into buffers, and always return. They accept and refuse
    the same inputs: they stop at the end of the input, at a zero or unreadable
    tag or at an end-group tag, which they record as the last tag, and refuse
    unknown wire types, field number 0, truncated values, unmatched group ends
    and groups nested deeper than the recursion budget. One keeps nothing, one
    has written the canonical encoding of the fields (and the end-group tag),
    one has appended them to the set, if there is one. *)
Theorem skippers_agree s out set :
  ready s ->
  let r := parse (recursion_budget_ s) (avail s) in
  wp Lite.SkipMessage (s, tt) (skipped (fun _ _ x => x) r s tt) /\
  wp LiteOutput.SkipMessage (s, out)
    (skipped (fun fs tag out =>
       out ++ serialize fs ++ from_option WriteVarint32ToArray [] tag) r s out) /\
  wp Full.SkipMessage (s, set) (skipped (fun fs _ => option_map (fun l => l ++ fs)) r s set).
Proof.
  intros Hr r. split; [by apply lite_skips|split; [|by apply full_skips]].
  wp_use (loop_skips LiteOutput.SkipField_ LiteOutput.end_group copy output_field_ok
    (fuel s) s out Hr (fuel_enough s)).
  intros ok sx. unfold skipped, fin, LiteOutput.end_group. fold r.
  destruct r as [fs []]; simpl; try done; rewrite emits_copy, ?app_nil_r, <- ?app_assoc; done.
Qed.
End skip.

(** ** The set's operations *)

Lemma DeepCopy_id f : DeepCopy f = f.
Proof.
  induction f as [| | | |n g IH] using UnknownField_nested_ind; try done. simpl. f_equal.
  induction IH as [|f g Hf _ IHg]; simpl; congruence.
Qed.

Lemma map_DeepCopy fs : map DeepCopy fs = fs.
Proof. rewrite (map_ext _ id DeepCopy_id). apply map_id. Qed.

Lemma MergeFrom_app other s : MergeFrom other s = s ++ other.
Proof.
  unfold MergeFrom. rewrite map_DeepCopy. destruct (Z.ltb_spec 0 (zlen other)); [done|].
  pose proof (zlen_nonneg other). rewrite (zlen_0 other) by lia. by rewrite app_nil_r.
Qed.

Lemma MergeFromAndDestroy_app same_arena other s :
  (MergeFromAndDestroy same_arena other s).1 = s ++ other.
Proof. destruct same_arena, s; simpl; rewrite ?MergeFrom_app; done. Qed.

(** The operations that move fields between sets lose and invent nothing,
    whether the two sets share an arena or not: a merge appends the fields of
    the other set in order; the destructive merge has the same result in the
    target and empties the source at most; a swap, with shared arena by
    exchanging the pointers and otherwise by three merges through a temporary,
    exchanges the contents; and adding a field appends a copy equal to it. *)
Theorem sets_combined same_arena other s f :
  MergeFrom other s = s ++ other /\
  (MergeFromAndDestroy same_arena other s).1 = s ++ other /\
  (same_arena = true -> Permutation ((MergeFromAndDestroy true other s).1 ++
     (MergeFromAndDestroy true other s).2) (s ++ other)) /\
  Swap same_arena s other = (other, s) /\
  AddField f s = s ++ [f].
Proof.
  split_and!.
  - apply MergeFrom_app.
  - apply MergeFromAndDestroy_app.
  - intros _. destruct s as [|g s]; simpl; rewrite app_nil_r; done.
  - destruct same_arena; [done|]. unfold Swap, SwapSlow. by rewrite !MergeFrom_app.
  - unfold AddField. by rewrite DeepCopy_id.
Qed.

Lemma sets_combined_witness :
  MergeFrom [VARINT 1 2] [FIXED32 3 4] = [FIXED32 3 4; VARINT 1 2] /\
  Permutation ((MergeFromAndDestroy true [VARINT 1 2] [FIXED32 3 4]).1 ++
     (MergeFromAndDestroy true [VARINT 1 2] [FIXED32 3 4]).2) [FIXED32 3 4; VARINT 1 2].
Proof.
  destruct (sets_combined true [VARINT 1 2] [FIXED32 3 4] (VARINT 1 2)) as (? & _ & Hp & _).
  split; [done|by apply Hp].
Defined.

(** The loop of [DeleteByNumber]: [kept] fields are in place, [k - kept] places
    are left to be overwritten, [todo] is still to be looked at. *)
Lemma DeleteByNumber_loop_spec num (kept gap todo : UnknownFieldSet) :
  exists gap',
    DeleteByNumber_loop (length todo) (length kept + length gap) (length kept) num
      (kept ++ gap ++ todo) =
    Some (length (kept ++ filter (fun f => number f <> num) todo),
          kept ++ filter (fun f => number f <> num) todo ++ gap').
Proof.
  revert kept gap. induction todo as [|f todo IH]; intros kept gap.
  { exists gap. by rewrite filter_nil, !app_nil_r. }
  cbn [length DeleteByNumber_loop].
  rewrite lookup_app_r, lookup_app_r by lia.
  replace (_ - _ - _)%nat with 0%nat by lia. cbn [lookup list_lookup mbind option_bind].
  rewrite filter_cons. destruct (Z.eqb_spec (number f) num) as [E|E].
  - rewrite decide_False by (intros Hn; by apply Hn). destruct (IH kept (gap ++ [f])) as [gap' Hg].
    exists gap'. rewrite length_app, <- !app_assoc in Hg. simpl in Hg. rewrite <- Hg.
    f_equal; lia.
  - rewrite decide_True by done.
    assert ((if (length kept + length gap =? length kept)%nat then kept ++ gap ++ f :: todo
             else <[length kept := f]> (kept ++ gap ++ f :: todo))
            = (kept ++ [f]) ++ drop 1 (gap ++ [f]) ++ todo) as ->.
    { destruct gap as [|g gap]; simpl; rewrite ?Nat.add_0_r.
      - rewrite Nat.eqb_refl. by rewrite <- app_assoc.
      - rewrite (proj2 (Nat.eqb_neq _ _)) by lia.
        rewrite insert_app_r_alt by lia. rewrite Nat.sub_diag. simpl.
        by rewrite drop_0, <- !app_assoc. }
    destruct (IH (kept ++ [f]) (drop 1 (gap ++ [f]))) as [gap' Hg]. exists gap'.
    replace (Datatypes.S (length kept + length gap))
      with (length (kept ++ [f]) + length (drop 1 (gap ++ [f])))%nat
      by (rewrite length_app, length_drop, length_app; simpl; lia).
    replace (Datatypes.S (length kept)) with (length (kept ++ [f])) by (rewrite length_app; simpl; lia).
    rewrite Hg. by rewrite <- !app_assoc.
Qed.

(** Deleting by number keeps exactly the fields with another number, in
    their order: the loop's in-place compaction and the truncation after it
    never go out of range. Deleting a subrange cuts it out, and is refused when
    it is not a range of the set. *)
Theorem fields_deleted num start n s :
  DeleteByNumber num s = Some (filter (fun f => number f <> num) s) /\
  DeleteSubrange start n s =
    (if decide (0 <= start /\ 0 <= n /\ start + n <= zlen s)
     then Some (ztake start s ++ zdrop (start + n) s) else None).
Proof.
  split.
  - unfold DeleteByNumber. destruct (DeleteByNumber_loop_spec num [] [] s) as [gap E].
    cbn [app length Nat.add] in E. rewrite E. cbn [mbind option_bind].
    rewrite length_app, (proj2 (Nat.leb_le _ _)) by lia. by rewrite take_app_length.
  - unfold DeleteSubrange. destruct (decide _) as [Hd|Hd]; case_cmp; simpl; try done; lia.
Qed.

(** ** Parsing a set *)

Section parsing.
Context {S : Type} `{ZeroCopyInputStreamOk S}.
Implicit Type s : CodedInput.t S.

Lemma destroy_total s : Inv s -> exists s', destroy s = Some (tt, s').
Proof.
  intros HI. destruct (input_ s) as [i|] eqn:Ei.
  - destruct (wp_inv _ _ _ (coded_destroy_wp s i HI Ei)) as ([] & s' & -> & _). by eexists.
  - exists s. unfold destroy, getS, mbind_. simpl. by rewrite Ei.
Qed.

(** What a merge from a stream leaves behind. *)
Definition merged s set (ok : bool) (sx : CodedInput.t S * UnknownFieldSet) : Prop :=
  match parse (recursion_budget_ s) (avail s) with
  | (fs, at_end) => ok = ends s /\ sx.2 = if ok then set ++ fs else set
  | _ => ok = false /\ sx.2 = set
  end.

Lemma merge_stream_wp same_arena s set :
  ready s ->
  wp (MergeFromCodedStream same_arena) (s, set) (fun ok sx =>
    Inv sx.1 /\ (ok = true -> legitimate_message_end_ sx.1 = true) /\ merged s set ok sx).
Proof.
  intros Hr. destruct (wp_inv _ _ _ (full_skips s (Some []) Hr)) as (ok & [i o] & E & Hs).
  unfold wp, MergeFromCodedStream, ConsumedEntireMessage, merged. simpl. rewrite E.
  unfold skipped in Hs. simpl in Hs.
  destruct (parse _ _) as [fs [| |tag l|]]; simpl in Hs.
  - destruct Hs as (-> & -> & [HI _] & _ & Hl). simpl. rewrite Hl.
    destruct (ends s); simpl; [|done]. rewrite MergeFromAndDestroy_app. by rewrite Hl.
  - destruct Hs as (-> & -> & [HI _] & _ & Hl). simpl. by rewrite Hl.
  - destruct Hs as (-> & -> & [HI _] & _ & Hl). simpl. by rewrite Hl.
  - by destruct Hs as [-> HI].
Qed.

(** C26: Merging from a coded stream is all or nothing, and always returns: when
    the message is well formed and ends at the end of the input, where it may
    end, its fields are appended in order and the call succeeds; for any other
    input (a truncated or malformed field, a stray end-group tag, a zero tag, a
    byte limit in the middle) the call fails and the set is untouched. *)
Theorem merge_from_coded_stream same_arena s set :
  ready s -> wp (MergeFromCodedStream same_arena) (s, set) (merged s set).
Proof. intros Hr. wp_use merge_stream_wp; [done|]. by intros ok sx (_ & _ & ?). Qed.

Lemma fresh_ParseFromZeroCopyStream_eq same_arena (input : S) :
  stream_ok input -> ByteCount input = 0 ->
  ParseFromZeroCopyStream same_arena input =
    Some (match parse default_recursion_limit_ (ztake INT_MAX (content input)) with
          | (fs, at_end) => (true, fs)
          | _ => (false, [])
          end).
Proof.
  intros Hi HB.
  destruct (from_stream_inv input Hi HB)
    as (s & Es & HI & Ha & Hp & Hl & _ & Hb & Hbl & Hc & Ht).
  assert (ready s) as Hr by (split_and!; [done..|lia]).
  assert (ends s = true) as He by (unfold ends; rewrite Hc, Ht; apply orb_true_r).
  destruct (wp_inv _ _ _ (merge_stream_wp same_arena s [] Hr)) as (ok & [i r] & E & HIi & Hok & Hm).
  destruct (destroy_total i HIi) as [s' Ed].
  unfold ParseFromZeroCopyStream. rewrite Es. cbn [mbind option_bind].
  change (ParseFromCodedStream same_arena (s, [])) with (MergeFromCodedStream same_arena (s, @nil UnknownField)).
  rewrite E. cbn [mbind option_bind]. rewrite Ed. cbn [mbind option_bind]. f_equal.
  unfold merged in Hm. rewrite Hb, Ha, He in Hm. unfold ConsumedEntireMessage.
  destruct (parse _ _) as [fs [| |tag l|]]; destruct Hm as [-> Hm]; simpl in *; subst; try done.
  by rewrite Hok.
Qed.
End parsing.

(** *** A stream that has been read before

    Parsing a set reads every byte and never skips, so that the stream's own count
    of bytes, which only a [Skip] past its end looks at, does not matter. *)

Section origin.
Context {S : Type} {I : ZeroCopyInputStream S} {O : ZeroCopyInputStreamOk S} (origin : Z).
Notation I' := (counted_from I origin).
Notation O' := (counted_from_ok O origin).
Notation UM := (M (CodedInput.t S * option UnknownFieldSet) bool).

(** The same on every set, and a set is left. *)
Definition agree (m m' : UM) : Prop :=
  forall i u, m (i, Some u) = m' (i, Some u) /\
    match m (i, Some u) with Some (_, (_, x)) => is_Some x | None => True end.

Lemma group_counted (m m' : UM) number tag :
  agree m m' -> agree (SkipGroup (Full.in_group number m) tag) (SkipGroup (Full.in_group number m') tag).
Proof.
  intros Hm i u. unfold SkipGroup, mbind_, on_fst. cbn. destruct (0 <=? _); cbn; [|eauto].
  unfold Full.in_group. cbn. set (i1 := set_recursion _ _ _). destruct (Hm i1 []) as [<- Hs].
  destruct (m (i1, Some [])) as [[ok [i2 x]]|]; [|done]. destruct Hs as [g ->].
  destruct ok; cbn; eauto.
Qed.

Lemma field_counted (m m' : UM) tag :
  agree m m' -> agree (@Full.SkipField_ S I O m tag) (@Full.SkipField_ S I' O' m' tag).
Proof.
  intros Hm i u. unfold Full.SkipField_. destruct (_ =? 0); [cbn; eauto|].
  destruct (GetTagWireType tag) as [|[[p|p|]|[p|[p|p|]|]|]|]; try (cbn; by eauto);
    [| destruct p; try (cbn; by eauto) | | |].
  1, 2, 5: (split; [reflexivity|]; unfold mbind_, on_fst; cbn [fst snd]).
  - destruct (ReadVarint64 i) as [[[value [|]] j]|]; cbn; eauto.
  - destruct (ReadLittleEndian32 i) as [[[[|] value] j]|]; cbn; eauto.
  - destruct (ReadLittleEndian64 i) as [[[[|] value] j]|]; cbn; eauto.
  - by apply group_counted.
  - unfold mbind_, on_fst. cbn [fst snd]. change (@ReadVarint32 S I' O') with (@ReadVarint32 S I O).
    destruct (ReadVarint32 i) as [[[n ok] j]|]; [|done]. destruct ok; cbn; [|eauto]. unfold getS. cbn.
    change (@CodedInput.ReadString S I' O') with (@CodedInput.ReadString S I O).
    destruct (CodedInput.ReadString [] (s32 n) j) as [[[ok v] k]|]; cbn; eauto.
Qed.

Lemma loop_counted n :
  agree (@SkipMessage_loop S I O _ (@Full.SkipField_ S I O) (fun _ x => x) n)
    (@SkipMessage_loop S I' O' _ (@Full.SkipField_ S I' O') (fun _ x => x) n).
Proof.
  induction n as [|n IH]; intros i u; [done|]. cbn [SkipMessage_loop]. unfold mbind_, on_fst. cbn [fst snd].
  change (@ReadTag S I' O') with (@ReadTag S I O). destruct (ReadTag i) as [[tag j]|]; [|done]. cbn.
  destruct (tag =? 0); [cbn; eauto|]. destruct (_ =? WIRETYPE_END_GROUP); [cbn; eauto|].
  destruct (field_counted _ _ tag IH j u) as [<- Hs].
  destruct (Full.SkipField_ _ tag (j, Some u)) as [[ok [k x]]|]; [|done]. destruct Hs as [v ->].
  destruct ok; [apply IH|cbn; eauto].
Qed.

Lemma ParseFromZeroCopyStream_counted same_arena input :
  @ParseFromZeroCopyStream S I O same_arena input = @ParseFromZeroCopyStream S I' O' same_arena input.
Proof.
  unfold ParseFromZeroCopyStream. change (@from_stream S I' O') with (@from_stream S I O).
  destruct (from_stream input) as [s|]; [|done]. cbn [mbind option_bind].
  change (@destroy S I') with (@destroy S I).
  assert (@ParseFromCodedStream S I O same_arena (s, []) = @ParseFromCodedStream S I' O' same_arena (s, [])) as ->; [|done].
  change (MergeFromCodedStream same_arena (s, []) = @MergeFromCodedStream S I' O' same_arena (s, [])).
  unfold MergeFromCodedStream, Full.SkipMessage. cbn [fst snd].
  change (@fuel S I' O' s) with (@fuel S I O s). by destruct (loop_counted (fuel s) s []) as [-> _].
Qed.
End origin.

Lemma ParseFromZeroCopyStream_eq {S} `{ZeroCopyInputStreamOk S} same_arena (input : S) :
  stream_ok input ->
  ParseFromZeroCopyStream same_arena input =
    Some (match parse default_recursion_limit_ (ztake INT_MAX (content input)) with
          | (fs, at_end) => (true, fs)
          | _ => (false, [])
          end).
Proof.
  intros Hi. rewrite (ParseFromZeroCopyStream_counted (ByteCount input)).
  apply (@fresh_ParseFromZeroCopyStream_eq S _ (counted_from_ok _ (ByteCount input)) same_arena input Hi).
  cbn [ByteCount counted_from]. lia.
Qed.


Lemma ParseFromArray_eq same_arena data :
  zlen data <= INT_MAX ->
  ParseFromArray same_arena data =
    Some (match parse default_recursion_limit_ data with
          | (fs, at_end) => (true, fs)
          | _ => (false, [])
          end).
Proof.
  intros Hd. unfold ParseFromArray. rewrite ParseFromZeroCopyStream_eq by apply ArrayInputStream.array_make_wf.
  change (content _) with data. by rewrite (ztake_all INT_MAX data).
Qed.

(** C38: Parsing a set from any stream that keeps the stream contract, read before or
    not, however it cuts its data into buffers, gives the set of the parser on the first
    [INT_MAX] bytes when these are a whole message, with the default recursion
    limit, and otherwise fails with an empty set: the outcome is the same as
    from an array of the same bytes. *)
Theorem parse_from_stream {S} `{ZeroCopyInputStreamOk S} same_arena (input : S) :
  stream_ok input ->
  ParseFromZeroCopyStream same_arena input =
    Some (match parse default_recursion_limit_ (ztake INT_MAX (content input)) with
          | (fs, at_end) => (true, fs)
          | _ => (false, [])
          end) /\
  (zlen (content input) <= INT_MAX ->
   ParseFromZeroCopyStream same_arena input = ParseFromArray same_arena (content input)).
Proof.
  intros Hi. rewrite ParseFromZeroCopyStream_eq by done. split; [done|].
  intros Hc. by rewrite ParseFromArray_eq, ztake_all.
Qed.

(** ** Round trips *)

Lemma SerializeToString_eq bsr outline fs :
  Forall valid fs -> zlen (InternalSerializeUnknownFieldsToArray outline fs) <= INT_MAX ->
  SerializeToString bsr outline fs = Some (InternalSerializeUnknownFieldsToArray outline fs).
Proof.
  intros Hv Hl. unfold SerializeToString. rewrite (unknown_size bsr outline) by done.
  pose proof (zlen_nonneg (InternalSerializeUnknownFieldsToArray outline fs)).
  rewrite u64_id by (unfold INT_MAX in *; ilia). by rewrite Z.eqb_refl.
Qed.

Lemma parse_serialized outline budget fs :
  Forall valid fs ->
  match parse budget (InternalSerializeUnknownFieldsToArray outline fs) with
  | (gs, at_end) => depths fs <= Z.max 0 budget /\ gs = fs
  | _ => Z.max 0 budget < depths fs
  end.
Proof.
  intros Hv. pose proof (read_back_set outline budget fs [] Hv) as Hr.
  rewrite app_nil_r, parse_nil in Hr. destruct (Z.leb_spec (depths fs) (Z.max 0 budget)).
  - rewrite Hr. by rewrite app_nil_r.
  - destruct (parse _ _) as [gs e]. simpl in Hr. by subst.
Qed.

(** C16: What is written is read back: a set of well-formed fields is written in
    as many bytes as [SerializeToString] has made room for, and parsing the
    string gives the same set, groups of any shape included, unless its groups
    are nested deeper than the default recursion limit of 100, in which case
    the parser refuses the string. *)
Theorem set_roundtrip same_arena bsr outline fs :
  Forall valid fs -> zlen (InternalSerializeUnknownFieldsToArray outline fs) <= INT_MAX ->
  exists bytes,
    SerializeToString bsr outline fs = Some bytes /\
    ParseFromArray same_arena bytes =
      Some (if depths fs <=? default_recursion_limit_ then (true, fs) else (false, [])).
Proof.
  intros Hv Hl. eexists. split; [by apply SerializeToString_eq|].
  rewrite ParseFromArray_eq by done. f_equal.
  pose proof (parse_serialized outline default_recursion_limit_ fs Hv) as Hp.
  change (Z.max 0 default_recursion_limit_) with default_recursion_limit_ in Hp.
  destruct (parse _ _) as [gs []]; destruct (Z.leb_spec (depths fs) default_recursion_limit_);
    try done; try lia; try (destruct Hp; subst; done).
Qed.

(** C28: Parsing is stable under copying: whatever bytes a set was parsed from,
    in any order of fields and with padded varints, the set's canonical string
    is no longer than they are, and parses to the same set. *)
Theorem canonical_copy same_arena bsr outline data fs :
  zlen data <= INT_MAX -> ParseFromArray same_arena data = Some (true, fs) ->
  exists bytes,
    SerializeToString bsr outline fs = Some bytes /\ zlen bytes <= zlen data /\
    ParseFromArray same_arena bytes = Some (true, fs).
Proof.
  intros Hd. rewrite ParseFromArray_eq by done.
  destruct (parse default_recursion_limit_ data) as [gs e] eqn:Ep.
  pose proof (parse_message_parsed outline _ _ _ _ _ Hd Ep) as (Hv & Hdep & Hz).
  destruct e; try done. intros [= <-]. simpl in Hz.
  eexists. split; [apply SerializeToString_eq; [done|lia]|]. split; [done|].
  rewrite ParseFromArray_eq by lia. f_equal.
  pose proof (parse_serialized outline default_recursion_limit_ gs Hv) as Hp.
  destruct (parse default_recursion_limit_ (InternalSerializeUnknownFieldsToArray _ _)) as [hs []];
    try lia. by destruct Hp as [_ ->].
Qed.

(** C39: The announced sizes are the real ones, modulo the width of [size_t]: of
    the fields of a set, with nested groups, and of the message-set items made
    of its length-delimited fields. *)
Theorem unknown_sizes_exact bsr outline fs :
  Forall valid fs ->
  ComputeUnknownFieldsSize bsr fs = u64 (zlen (InternalSerializeUnknownFieldsToArray outline fs)) /\
  ComputeUnknownMessageSetItemsSize bsr fs =
    u64 (zlen (InternalSerializeUnknownMessageSetItemsToArray fs)).
Proof. intros Hv. split; [by apply unknown_size|by apply items_size]. Qed.

(** ** Unknown enum values *)

Lemma parse_head_number budget tag k f fs e :
  is_u32 tag ->
  parse budget (WriteVarint32ToArray tag ++ k) = (f :: fs, e) -> number_ f = GetTagFieldNumber tag.
Proof.
  intros Ht. assert (vdecode kMaxVarintBytes (WriteVarint32ToArray tag ++ k) = Some (tag, k)) as Hd
    by (apply vdecode_UnsafeVarint, u32_is_u64, Ht).
  rewrite (parse_cons _ _ _ _ Hd). cbn zeta. rewrite (u32_id tag) by done.
  destruct (tag =? 0); [done|]. destruct (_ =? WIRETYPE_END_GROUP); [done|].
  destruct (parse_field _ _ _ k) as [[g r]|] eqn:Ef; [|done].
  destruct (parse budget r). intros [= <- _ _]. revert Ef. unfold parse_field.
  destruct (_ =? 0); [done|].
  destruct (GetTagWireType tag) as [|[[[]|[]|]|[[]|[]|]|]|]; try done.
  - destruct (vdecode _ k) as [[]|]; simpl; [|done]. by intros [= <- _].
  - destruct (parse_bytes _ k) as [[]|]; simpl; [|done]. by intros [= <- _].
  - destruct (_ <? 0); [done|]. destruct (parse (budget - 1) k) as [? []]; try done.
    destruct (_ =? _); [|done]. by intros [= <- _].
  - destruct (vdecode _ k) as [[]|]; simpl; [|done].
    destruct (parse_bytes _ _) as [[]|]; simpl; [|done]. by intros [= <- _].
  - destruct (parse_bytes _ k) as [[]|]; simpl; [|done]. by intros [= <- _].
Qed.

(** The two skippers do not agree on unknown enum values. The set keeps the
    value as a varint field with the field's number, which survives writing and
    parsing; the output-stream skipper writes the bare field number where the
    tag belongs, so that whatever is parsed from its bytes does not start with
    the field. *)
Theorem unknown_enum_kept_by_set_only outline budget field_number value :
  is_field_number field_number ->
  parse budget (InternalSerializeUnknownFieldsToArray outline
                  (Full.SkipUnknownEnum field_number value []))
    = ([VARINT field_number (u64 value)], at_end) /\
  forall f fs e,
    parse budget (LiteOutput.SkipUnknownEnum field_number value []) = (f :: fs, e) ->
    number_ f <> field_number.
Proof.
  intros Hn. destruct (number_id _ Hn) as [_ Eu]. split.
  - unfold Full.SkipUnknownEnum, AddVarint. rewrite Eu. simpl app.
    assert (Forall valid [VARINT field_number (u64 value)]) as Hv
      by (constructor; [split; [done|apply u64_range]|constructor]).
    pose proof (read_back_set outline budget [VARINT field_number (u64 value)] [] Hv) as Hr.
    rewrite app_nil_r, parse_nil in Hr. simpl depths in Hr.
    by rewrite (proj2 (Z.leb_le _ _)) in Hr by lia.
  - intros f fs e Hp. unfold LiteOutput.SkipUnknownEnum in Hp. rewrite Eu in Hp. simpl app in Hp.
    assert (is_u32 field_number) as Hu by (unfold is_field_number in Hn; ilia).
    apply parse_head_number in Hp; [|done]. rewrite Hp, GetTagFieldNumber_eq by done.
    unfold is_field_number in Hn. Z.div_mod_to_equations; lia.
Qed.

(** ** At concrete inputs *)

(** A message with every wire type, a group in a group, and a length-delimited
    field whose length is a padded varint. *)
Definition sample_message : list byte :=
  map z2b [0x08; 0x96; 0x01;  0x15; 1; 0; 0; 0;  0x19; 2; 0; 0; 0; 0; 0; 0; 0;
           0x22; 0x82; 0x00; 0x68; 0x69;  0x2b; 0x33; 0x08; 0x05; 0x34; 0x2c].
Definition sample_set : UnknownFieldSet :=
  [VARINT 1 150; FIXED32 2 1; FIXED64 3 2; LENGTH_DELIMITED 4 (map z2b [0x68; 0x69]);
   GROUP 5 [GROUP 6 [VARINT 1 5]]].

Lemma sample_set_valid : Forall valid sample_set.
Proof.
  repeat constructor; unfold is_field_number, is_u64, is_u32, INT_MAX; try lia; by vm_compute.
Qed.

Notation sample_input := (from_array (S := ArrayInputStream.t) sample_message).

Lemma sample_ready : ready sample_input.
Proof.
  destruct (from_array_inv (S := ArrayInputStream.t) sample_message ltac:(by vm_compute)) as [HI _].
  split_and!; [exact HI|done|done].
Qed.

Lemma sample_parsed : parse (recursion_budget_ sample_input) (avail sample_input) = (sample_set, at_end).
Proof.
  destruct (from_array_inv (S := ArrayInputStream.t) sample_message ltac:(by vm_compute)) as (_ & -> & _).
  by vm_compute.
Qed.

Lemma sample_ends : ends sample_input = true.
Proof.
  unfold ends.
  destruct (from_array_inv (S := ArrayInputStream.t) sample_message ltac:(by vm_compute)) as (_ & -> & _).
  by vm_compute.
Qed.

Lemma skippers_agree_witness :
  exists s, Full.SkipMessage (sample_input, Some []) = Some (true, (s, Some sample_set)).
Proof.
  destruct (skippers_agree sample_input [] (Some []) sample_ready) as (_ & _ & Hw).
  destruct (wp_inv _ _ _ Hw) as (ok & [s o] & E & Hs).
  rewrite sample_parsed in Hs. destruct Hs as (-> & Hs & _). simpl in Hs. subst. by exists s.
Defined.

Lemma merge_from_coded_stream_witness :
  exists s, MergeFromCodedStream false (sample_input, [VARINT 9 9])
    = Some (true, (s, VARINT 9 9 :: sample_set)).
Proof.
  destruct (wp_inv _ _ _ (merge_from_coded_stream false sample_input [VARINT 9 9] sample_ready))
    as (ok & [s o] & E & Hm).
  unfold merged in Hm. rewrite sample_parsed, sample_ends in Hm. destruct Hm as [-> Hm].
  exists s. rewrite E. simpl in Hm. by subst.
Defined.

Lemma parse_from_stream_witness :
  ParseFromZeroCopyStream false (ArrayInputStream.make sample_message 28 3) = Some (true, sample_set).
Proof.
  destruct (parse_from_stream false (ArrayInputStream.make sample_message 28 3)) as [_ Hp];
    [apply (ArrayInputStream.array_make_wf sample_message 3)|].
  rewrite Hp by (by vm_compute). by vm_compute.
Defined.

Lemma set_roundtrip_witness :
  exists bytes,
    SerializeToString false (fun _ => false) sample_set = Some bytes /\
    ParseFromArray false bytes = Some (true, sample_set).
Proof.
  destruct (set_roundtrip false false (fun _ => false) sample_set sample_set_valid)
    as (bytes & E & Hp); [by vm_compute|]. by exists bytes.
Defined.

Lemma canonical_copy_witness :
  exists bytes,
    SerializeToString true (fun _ => true) sample_set = Some bytes /\ zlen bytes <= 28 /\
    ParseFromArray true bytes = Some (true, sample_set).
Proof.
  apply (canonical_copy true true (fun _ => true) sample_message sample_set); [by vm_compute|].
  by vm_compute.
Defined.

Lemma unknown_sizes_exact_witness :
  ComputeUnknownFieldsSize false sample_set = 27 /\
  ComputeUnknownMessageSetItemsSize false sample_set = 8.
Proof.
  destruct (unknown_sizes_exact false (fun _ => false) sample_set sample_set_valid) as [-> ->].
  by split; vm_compute.
Defined.

Lemma unknown_enum_kept_by_set_only_witness :
  is_field_number 8 /\
  match (parse 100 (LiteOutput.SkipUnknownEnum 8 3 [])).1 with
  | f :: _ => number_ f <> 8
  | [] => False
  end.
Proof.
  assert (is_field_number 8) as Hn by (unfold is_field_number; lia). split; [done|].
  pose proof (proj2 (unknown_enum_kept_by_set_only (fun _ => false) 100 8 3 Hn)) as Hp.
  destruct (parse 100 (LiteOutput.SkipUnknownEnum 8 3 [])) as [[|f fs] e] eqn:E; simpl.
  - vm_compute in E. discriminate E.
  - by eapply Hp.
Defined.
