(* ===== verification/ZeroCopyOutput.v ===== *)
(** * Zero-copy output streams

    The [ZeroCopyOutputStream] interface of [io/zero_copy_stream.h] with its
    contract, and the streams of [io/zero_copy_stream_impl_lite.cc] that write to
    an array, to a string and to a [CopyingOutputStream]. *)

From S2P Require Import Prelude.

(** ** The interface

    [Next] returns the size of the buffer, or [None] when it returns false. The
    buffer stays memory of the stream: [block] is what it holds, and a client
    that stores through the pointer changes it with [set_block]. [idle] bounds
    how many times in a row [Next] may still return an empty buffer. *)
Class ZeroCopyOutputStream (S : Type) := {
  Next : M S (option Z);
  BackUp : Z -> M S unit;
  ByteCount : S -> Z;
  AllowsAliasing : bool;
  WriteAliasedRaw : list byte -> M S bool;
  block : S -> list byte;
  set_block : list byte -> S -> S;
  idle : S -> nat;
}.

(** What the clients of a stream rely on: [flushed] is what was written before
    the last buffer, [alive] is false once a write to the outside has failed.
    Whatever happens, the memory is safe; what was written is only promised
    while the stream is alive. *)
Class ZeroCopyOutputStreamOk (S : Type) `{ZeroCopyOutputStream S} := {
  ostream_ok : S -> Prop;
  flushed : S -> list byte;
  alive : S -> bool;
  next_block_ok s :
    ostream_ok s ->
    wp Next s (fun r s' =>
      ostream_ok s' /\
      match r with
      | Some n =>
          zlen (block s') = n /\ n <= INT_MAX /\ (n = 0 -> (idle s' < idle s)%nat) /\
          (alive s' = true ->
           alive s = true /\ flushed s' = flushed s ++ block s /\
           ByteCount s' = ByteCount s + n)
      | None =>
          alive s' = true ->
          alive s = true /\ flushed s' ++ block s' = flushed s ++ block s /\
          ByteCount s' = ByteCount s
      end);
  back_up_ok s n :
    ostream_ok s -> 0 <= n <= zlen (block s) ->
    wp (BackUp n) s (fun _ s' =>
      ostream_ok s' /\
      (alive s' = true ->
       alive s = true /\
       flushed s' ++ block s' = flushed s ++ ztake (zlen (block s) - n) (block s) /\
       ByteCount s' = ByteCount s - n));
  aliased_ok s d :
    ostream_ok s -> AllowsAliasing (S := S) = true ->
    wp (WriteAliasedRaw d) s (fun r s' =>
      ostream_ok s' /\
      (r = true -> alive s' = true ->
       alive s = true /\ flushed s' ++ block s' = flushed s ++ block s ++ d /\
       ByteCount s' = ByteCount s + zlen d));
  set_block_ok s b :
    ostream_ok s -> zlen b = zlen (block s) ->
    ostream_ok (set_block b s) /\ block (set_block b s) = b /\
    flushed (set_block b s) = flushed s /\ alive (set_block b s) = alive s /\
    ByteCount (set_block b s) = ByteCount s /\ idle (set_block b s) = idle s;
}.

(** The default [WriteAliasedRaw] stops the program. *)
Definition no_aliasing {S} (_ : list byte) : M S bool := undef.

(** Memory the standard library leaves uninitialised. *)
Definition uninitialized (junk : Z -> byte) (n : Z) : list byte := map junk (seqZ 0 n).

Lemma zlen_uninitialized junk n : zlen (uninitialized junk n) = Z.max 0 n.
Proof. unfold zlen, uninitialized. rewrite length_map, length_seqZ. lia. Qed.
#[export] Hint Rewrite zlen_uninitialized : zlen.

(** ** ArrayOutputStream *)
Module ArrayOutputStream.

Record t := mk {
  data_ : list byte;
  size_ : Z;
  block_size_ : Z;
  position_ : Z;
  last_returned_size_ : Z;
}.

Definition make (data : list byte) (size block_size : Z) : t :=
  mk data size (if 0 <? block_size then block_size else size) 0 0.

Definition with_pos (s : t) (position last : Z) : t :=
  mk (data_ s) (size_ s) (block_size_ s) position last.

Definition Next : M t (option Z) :=
  let* s := getS in
  if position_ s <? size_ s then
    let last := Z.min (block_size_ s) (size_ s - position_ s) in
    putS (with_pos s (position_ s + last) last) ;;; ret (Some last)
  else putS (with_pos s (position_ s) 0) ;;; ret None.

Definition BackUp (count : Z) : M t unit :=
  let* s := getS in
  if (count <=? last_returned_size_ s) && (0 <=? count)
  then putS (with_pos s (position_ s - count) (last_returned_size_ s - count))
  else undef.

Definition ByteCount (s : t) : Z := position_ s.

(** The last buffer is the part of the array in front of the position. *)
Definition start (s : t) : Z := position_ s - last_returned_size_ s.
Definition block (s : t) : list byte := ztake (last_returned_size_ s) (zdrop (start s) (data_ s)).
Definition set_block (b : list byte) (s : t) : t :=
  mk (ztake (start s) (data_ s) ++ b ++ zdrop (position_ s) (data_ s))
    (size_ s) (block_size_ s) (position_ s) (last_returned_size_ s).

#[global] Instance stream : ZeroCopyOutputStream t :=
  {| ZeroCopyOutput.Next := Next; ZeroCopyOutput.BackUp := BackUp;
     ZeroCopyOutput.ByteCount := ByteCount; ZeroCopyOutput.AllowsAliasing := false;
     ZeroCopyOutput.WriteAliasedRaw := no_aliasing; ZeroCopyOutput.block := block;
     ZeroCopyOutput.set_block := set_block; ZeroCopyOutput.idle := fun _ => O |}.

Definition wf (s : t) : Prop :=
  size_ s = zlen (data_ s) /\ size_ s <= INT_MAX /\ 0 <= position_ s <= size_ s /\
  (0 < block_size_ s \/ size_ s = 0) /\ 0 <= last_returned_size_ s <= position_ s.

Definition flushed (s : t) : list byte := ztake (start s) (data_ s).

Lemma array_output_make_wf data block_size :
  zlen data <= INT_MAX -> wf (make data (zlen data) block_size).
Proof.
  unfold wf, make; simpl. pose proof (zlen_nonneg data).
  destruct (Z.ltb_spec 0 block_size); lia.
Qed.

Lemma array_zlen_block s : wf s -> zlen (block s) = last_returned_size_ s.
Proof. unfold wf, block, start. zl. Qed.

Lemma array_flushed_block s : wf s -> flushed s ++ block s = ztake (position_ s) (data_ s).
Proof.
  intros (? & ? & ? & ? & ?). unfold flushed, block, start.
  rewrite <- (ztake_zdrop (position_ s - last_returned_size_ s) (ztake (position_ s) (data_ s))).
  rewrite ztake_ztake, zdrop_ztake by lia. do 2 f_equal; lia.
Qed.

#[global] Program Instance stream_contract : ZeroCopyOutputStreamOk t :=
  {| ostream_ok := wf; ZeroCopyOutput.flushed := flushed; alive := fun _ => true |}.
Next Obligation.
  intros s Hs. pose proof (array_flushed_block s Hs) as Hf. destruct Hs as (Hsz & Hmax & Hpos & Hblk & Hlast).
  unfold wp; simpl. unfold Next, mbind_, getS, putS, mret_.
  destruct (Z.ltb_spec (position_ s) (size_ s)); simpl.
  - set (n := Z.min _ _). assert (0 < n <= size_ s - position_ s) by lia.
    assert (wf (with_pos s (position_ s + n) n)) as Hw
      by (unfold wf, with_pos; simpl; split_and!; lia || done).
    split; [done|]. rewrite array_zlen_block by done. simpl. split_and!; try done; try lia.
    intros _. split; [done|]. split; [|unfold ByteCount, with_pos; simpl; lia].
    rewrite Hf. unfold flushed, start, with_pos; simpl. f_equal. lia.
  - assert (wf (with_pos s (position_ s) 0)) as Hw
      by (unfold wf, with_pos; simpl; split_and!; lia || done).
    split; [done|]. intros _. split; [done|]. split; [|done].
    by rewrite (array_flushed_block _ Hw), Hf.
Qed.
Next Obligation.
  intros s n Hs Hn. simpl in Hn. rewrite array_zlen_block in Hn by done.
  pose proof (array_zlen_block s Hs) as Hz. destruct Hs as (Hsz & Hmax & Hpos & Hblk & Hlast).
  unfold wp; simpl. unfold BackUp, mbind_, getS, putS, undef.
  rewrite (proj2 (Z.leb_le n _)), (proj2 (Z.leb_le 0 n)) by lia. simpl.
  assert (wf (with_pos s (position_ s - n) (last_returned_size_ s - n))) as Hw
    by (unfold wf, with_pos; simpl; split_and!; lia || done).
  split; [done|]. intros _. split; [done|]. split; [|unfold ByteCount, with_pos; simpl; lia].
  rewrite Hz. unfold flushed, block, start, with_pos; simpl.
  replace (position_ s - n - (last_returned_size_ s - n)) with (position_ s - last_returned_size_ s)
    by lia.
  rewrite ztake_ztake. do 2 f_equal. lia.
Qed.
Next Obligation. done. Qed.
Next Obligation.
  intros s b Hs Hb. simpl in *. rewrite array_zlen_block in Hb by done.
  destruct Hs as (Hsz & Hmax & Hpos & Hblk & Hlast).
  assert (zlen (ztake (start s) (data_ s)) = start s) as Hst by (unfold start; zl).
  split_and!; try done.
  - unfold wf, set_block; simpl. split_and!; try lia; try done.
    unfold start in *. zl.
  - unfold block, set_block, start; simpl. fold (start s).
    rewrite zdrop_app_exact, ztake_app_exact by done. done.
  - unfold flushed, set_block, start; simpl. fold (start s). by rewrite ztake_app_exact.
Qed.
End ArrayOutputStream.

(** ** StringOutputStream *)
Module StringOutputStream.

(** [capacity_], [grow_] (the new capacity for an old one and a size) and
    [junk_] are the standard library's; [given_] is the offset of the pointer
    last handed out. Sizes are unbounded: a string cannot reach the size where
    [old_size * 2] would wrap around. *)
Record t := mk {
  target_ : list byte;
  capacity_ : Z;
  grow_ : Z -> Z -> Z;
  junk_ : Z -> byte;
  given_ : Z;
}.

Definition make (target : list byte) (capacity : Z) (grow : Z -> Z -> Z) (junk : Z -> byte) : t :=
  mk target capacity grow junk (zlen target).

Definition kMinimumSize : Z := 16.

(** [std::string::resize] to at least the present size, without
    initialization. *)
Definition resize (n : Z) (s : t) : t :=
  mk (target_ s ++ uninitialized (junk_ s) (n - zlen (target_ s)))
    (if n <=? capacity_ s then capacity_ s else grow_ s (capacity_ s) n)
    (grow_ s) (junk_ s) (zlen (target_ s)).

Definition Next : M t (option Z) :=
  let* s := getS in
  let old_size := zlen (target_ s) in
  let new_size := if old_size <? capacity_ s then capacity_ s else old_size * 2 in
  let new_size := Z.min new_size (old_size + INT_MAX) in
  modS (resize (Z.max new_size kMinimumSize)) ;;;
  let* s := getS in
  ret (Some (s32 (zlen (target_ s) - old_size))).

Definition BackUp (count : Z) : M t unit :=
  let* s := getS in
  if (0 <=? count) && (count <=? zlen (target_ s))
  then putS (mk (ztake (zlen (target_ s) - count) (target_ s)) (capacity_ s) (grow_ s) (junk_ s)
               (Z.min (given_ s) (zlen (target_ s) - count)))
  else undef.

Definition ByteCount (s : t) : Z := zlen (target_ s).

Definition block (s : t) : list byte := zdrop (given_ s) (target_ s).
Definition set_block (b : list byte) (s : t) : t :=
  mk (ztake (given_ s) (target_ s) ++ b) (capacity_ s) (grow_ s) (junk_ s) (given_ s).

#[global] Instance stream : ZeroCopyOutputStream t :=
  {| ZeroCopyOutput.Next := Next; ZeroCopyOutput.BackUp := BackUp;
     ZeroCopyOutput.ByteCount := ByteCount; ZeroCopyOutput.AllowsAliasing := false;
     ZeroCopyOutput.WriteAliasedRaw := no_aliasing; ZeroCopyOutput.block := block;
     ZeroCopyOutput.set_block := set_block; ZeroCopyOutput.idle := fun _ => O |}.

Definition wf (s : t) : Prop :=
  zlen (target_ s) <= capacity_ s /\ 0 <= given_ s <= zlen (target_ s) /\
  forall c n, n <= grow_ s c n.

Definition flushed (s : t) : list byte := ztake (given_ s) (target_ s).

Lemma string_output_make_wf target capacity grow junk :
  zlen target <= capacity -> (forall c n, n <= grow c n) -> wf (make target capacity grow junk).
Proof. unfold wf, make; simpl. intros. pose proof (zlen_nonneg target). split_and!; lia || done. Qed.

#[global] Program Instance stream_contract : ZeroCopyOutputStreamOk t :=
  {| ostream_ok := wf; ZeroCopyOutput.flushed := flushed; alive := fun _ => true |}.
Next Obligation.
  intros s (Hc & Hg & Hgrow). unfold wp; cbn [ZeroCopyOutput.Next stream].
  unfold Next, mbind_, getS, modS, mret_. cbv beta iota zeta.
  pose proof (zlen_nonneg (target_ s)).
  set (n := Z.max _ _). assert (zlen (target_ s) < n <= zlen (target_ s) + INT_MAX) as Hn.
  { unfold n, kMinimumSize, INT_MAX. destruct (Z.ltb_spec (zlen (target_ s)) (capacity_ s)); lia. }
  assert (zlen (target_ (resize n s)) = n) as Hz by (unfold resize; simpl; zl).
  rewrite Hz, s32_id by (unfold INT_MAX in *; ilia).
  split.
  { unfold wf. rewrite Hz. unfold resize; simpl. pose proof (Hgrow (capacity_ s) n).
    split_and!; [destruct (Z.leb_spec n (capacity_ s)); lia|lia|lia|done]. }
  assert (block (resize n s) = uninitialized (junk_ s) (n - zlen (target_ s))) as Hb
    by (unfold block, resize; simpl; by rewrite zdrop_app_exact).
  cbn [ZeroCopyOutput.block ZeroCopyOutput.ByteCount stream]. rewrite Hb. split_and!; [zl|lia|lia|]. intros _. split; [done|]. split.
  - unfold flushed, block, resize; simpl. rewrite ztake_zdrop. by apply ztake_app_exact.
  - unfold ByteCount. rewrite Hz. lia.
Qed.
Next Obligation.
  intros s n (Hc & Hg & Hgrow) Hn. simpl in Hn. unfold block in Hn.
  pose proof (zlen_nonneg (target_ s)). rewrite zlen_zdrop in Hn.
  unfold wp; simpl. unfold BackUp, mbind_, getS, putS, undef.
  rewrite (proj2 (Z.leb_le 0 n)), (proj2 (Z.leb_le n _)) by lia. simpl.
  rewrite Z.min_l by lia. split.
  { unfold wf; simpl. rewrite zlen_ztake. split_and!; try lia. done. }
  intros _. split; [done|]. split; [|unfold ByteCount; simpl; zl].
  unfold flushed, block; simpl. rewrite ztake_zdrop.
  rewrite <- (ztake_zdrop (given_ s) (ztake (zlen (target_ s) - n) (target_ s))).
  rewrite ztake_ztake, zdrop_ztake by lia. do 2 f_equal; [lia|].
  rewrite zlen_zdrop. lia.
Qed.
Next Obligation. done. Qed.
Next Obligation.
  intros s b (Hc & Hg & Hgrow) Hb. simpl in *. unfold block in Hb. rewrite zlen_zdrop in Hb.
  assert (zlen (ztake (given_ s) (target_ s)) = given_ s) as Hst by zl.
  split_and!; try done.
  - unfold wf, set_block; simpl. rewrite zlen_app. split_and!; try lia. done.
  - unfold block, set_block; simpl. by apply zdrop_app_exact.
  - unfold flushed, set_block; simpl. by apply ztake_app_exact.
  - unfold ByteCount, set_block; simpl. rewrite zlen_app. lia.
Qed.
End StringOutputStream.

(** ** CopyingOutputStreamAdaptor *)

(** [Write] returns false on an error; [sink] is what was written. *)
Class CopyingOutputStream (T : Type) := { Write : list byte -> M T bool }.

Class CopyingOutputStreamOk (T : Type) `{CopyingOutputStream T} := {
  sink_ok : T -> Prop;
  sink : T -> list byte;
  write_ok t d :
    sink_ok t ->
    wp (Write d) t (fun r t' => sink_ok t' /\ (r = true -> sink t' = sink t ++ d));
}.

Module CopyingOutputStreamAdaptor.
Section adaptor.
Context {T : Type} `{CopyingOutputStreamOk T}.

Definition kDefaultBlockSize : Z := 8192.

(** [given_] is the offset of the pointer last handed out by [Next], the end of
    the used part when it may not be stored through any more; [junk_] is what
    fresh memory holds. *)
Record t := mk {
  copying_stream_ : T;
  failed_ : bool;
  position_ : Z;
  buffer_ : option (list byte);
  buffer_size_ : Z;
  buffer_used_ : Z;
  junk_ : Z -> byte;
  given_ : Z;
}.

Definition make (copying_stream : T) (block_size : Z) (junk : Z -> byte) : t :=
  mk copying_stream false 0 None (if 0 <? block_size then block_size else kDefaultBlockSize) 0
    junk 0.

Definition set_stream (c : T) (s : t) : t :=
  mk c (failed_ s) (position_ s) (buffer_ s) (buffer_size_ s) (buffer_used_ s) (junk_ s) (given_ s).
Definition set_used (used given : Z) (s : t) : t :=
  mk (copying_stream_ s) (failed_ s) (position_ s) (buffer_ s) (buffer_size_ s) used (junk_ s) given.
Definition set_position (position : Z) (s : t) : t :=
  mk (copying_stream_ s) (failed_ s) position (buffer_ s) (buffer_size_ s) (buffer_used_ s)
    (junk_ s) (given_ s).
Definition set_failed (s : t) : t :=
  mk (copying_stream_ s) true (position_ s) (buffer_ s) (buffer_size_ s) (buffer_used_ s)
    (junk_ s) (given_ s).
Definition set_buffer (b : option (list byte)) (s : t) : t :=
  mk (copying_stream_ s) (failed_ s) (position_ s) b (buffer_size_ s) (buffer_used_ s)
    (junk_ s) (given_ s).

Definition AllocateBufferIfNeeded : M t unit := modS (fun s =>
  match buffer_ s with
  | None => set_buffer (Some (uninitialized (junk_ s) (buffer_size_ s))) s
  | Some _ => s
  end).

Definition FreeBuffer : M t unit := modS (fun s => set_buffer None (set_used 0 0 s)).

Definition stream_Write (data : list byte) : M t bool := fun s =>
  match Write data (copying_stream_ s) with
  | Some (r, c) => Some (r, set_stream c s)
  | None => None
  end.

Definition WriteBuffer : M t bool :=
  let* s := getS in
  if failed_ s then ret false
  else if buffer_used_ s =? 0 then ret true
  else
    match buffer_ s with
    | None => undef
    | Some b =>
        let* ok := stream_Write (ztake (buffer_used_ s) b) in
        if ok : bool then
          modS (fun s => set_used 0 0 (set_position (position_ s + buffer_used_ s) s)) ;;; ret true
        else modS set_failed ;;; FreeBuffer ;;; ret false
    end.

Definition Flush : M t bool := WriteBuffer.

Definition Next : M t (option Z) :=
  let* s := getS in
  let* ok := (if buffer_used_ s =? buffer_size_ s then WriteBuffer else ret true) in
  if negb ok then ret None else
  AllocateBufferIfNeeded ;;;
  let* s := getS in
  modS (set_used (buffer_size_ s) (buffer_used_ s)) ;;;
  ret (Some (buffer_size_ s - buffer_used_ s)).

Definition BackUp (count : Z) : M t unit :=
  if count =? 0 then Flush ;;; ret tt else
  let* s := getS in
  if (0 <=? count) && (buffer_used_ s =? buffer_size_ s) && (count <=? buffer_used_ s)
  then modS (set_used (buffer_used_ s - count) (buffer_used_ s - count))
  else undef.

Definition ByteCount (s : t) : Z := position_ s + buffer_used_ s.

Definition block (s : t) : list byte :=
  match buffer_ s with
  | Some b => ztake (buffer_used_ s - given_ s) (zdrop (given_ s) b)
  | None => []
  end.
Definition set_block (l : list byte) (s : t) : t :=
  set_buffer (option_map (fun b => ztake (given_ s) b ++ l ++ zdrop (buffer_used_ s) b)
    (buffer_ s)) s.

(** [n] more buffers at most are filled by the loop of [WriteAliasedRaw]. *)
Fixpoint WriteAliasedRaw_loop (n : nat) (data : list byte) : M t bool :=
  match n with
  | O => undef
  | Datatypes.S n =>
      let* out := Next in
      match out with
      | None => ret false
      | Some out_size =>
          if zlen data <=? out_size then
            modS (fun s => set_block (data ++ zdrop (zlen data) (block s)) s) ;;;
            BackUp (out_size - zlen data) ;;; ret true
          else
            modS (set_block (ztake out_size data)) ;;;
            WriteAliasedRaw_loop n (zdrop out_size data)
      end
  end.

Definition WriteAliasedRaw (data : list byte) : M t bool :=
  let* s := getS in
  if buffer_size_ s <=? zlen data then
    let* ok := Flush in
    if negb ok then ret false else
    let* ok := stream_Write data in
    if negb ok then ret false else
    let* s := getS in
    if negb (buffer_used_ s =? 0) then undef else
    modS (fun s => set_position (position_ s + zlen data) s) ;;; ret true
  else WriteAliasedRaw_loop (Datatypes.S (length data)) data.

(** The destructor; the stream it owns is destroyed by the caller here. *)
Definition destroy : M t unit := WriteBuffer ;;; ret tt.

#[global] Instance stream : ZeroCopyOutputStream t :=
  {| ZeroCopyOutput.Next := Next; ZeroCopyOutput.BackUp := BackUp;
     ZeroCopyOutput.ByteCount := ByteCount; ZeroCopyOutput.AllowsAliasing := true;
     ZeroCopyOutput.WriteAliasedRaw := WriteAliasedRaw; ZeroCopyOutput.block := block;
     ZeroCopyOutput.set_block := set_block; ZeroCopyOutput.idle := fun _ => O |}.

(** *** Contract *)

Implicit Type s : t.

Definition alive s : bool := negb (failed_ s).
Definition flushed s : list byte :=
  sink (copying_stream_ s) ++ ztake (given_ s) (default [] (buffer_ s)).
Definition written s : list byte :=
  sink (copying_stream_ s) ++ ztake (buffer_used_ s) (default [] (buffer_ s)).

Definition wf s : Prop :=
  sink_ok (copying_stream_ s) /\ 0 < buffer_size_ s <= INT_MAX /\
  0 <= given_ s <= buffer_used_ s /\ buffer_used_ s <= buffer_size_ s /\
  (given_ s < buffer_used_ s -> buffer_used_ s = buffer_size_ s) /\
  match buffer_ s with Some b => zlen b = buffer_size_ s | None => buffer_used_ s = 0 end.

(** What an operation that reaches the sink promises. *)
Definition kept s s' : Prop :=
  alive s' = true -> alive s = true /\ written s' = written s /\ ByteCount s' = ByteCount s.

Lemma copying_output_make_wf c block_size junk :
  sink_ok c -> block_size <= INT_MAX -> wf (make c block_size junk).
Proof.
  intros Hc Hb. unfold wf, make, kDefaultBlockSize, INT_MAX in *; simpl.
  destruct (Z.ltb_spec 0 block_size); split_and!; done || lia.
Qed.

Lemma flushed_block s : wf s -> flushed s ++ block s = written s.
Proof.
  intros (_ & _ & Hg & Hu & _ & Hb). unfold flushed, block, written. rewrite <- app_assoc. f_equal.
  destruct (buffer_ s) as [b|]; simpl.
  - rewrite <- (ztake_zdrop (given_ s) (ztake (buffer_used_ s) b)).
    rewrite ztake_ztake, zdrop_ztake by lia. do 2 f_equal. lia.
  - unfold ztake. by rewrite !take_nil.
Qed.

Lemma zlen_block s : wf s -> zlen (block s) = buffer_used_ s - given_ s.
Proof.
  intros (_ & _ & Hg & Hu & _ & Hb). unfold block. destruct (buffer_ s); [zl|].
  rewrite zlen_nil. lia.
Qed.

Lemma WriteBuffer_wp s :
  wf s ->
  wp WriteBuffer s (fun ok s' =>
    wf s' /\ buffer_size_ s' = buffer_size_ s /\ kept s s' /\
    (ok = true -> buffer_used_ s' = 0 /\ given_ s' = 0) /\ (ok = false -> alive s' = false)).
Proof.
  intros Hs. pose proof Hs as (Hc & Hz & Hg & Hu & Hgu & Hb). unfold WriteBuffer. apply wp_bind, wp_getS.
  destruct (failed_ s) eqn:Ef.
  { apply wp_ret. split_and!; try done; unfold kept, alive; by rewrite Ef. }
  destruct (Z.eqb_spec (buffer_used_ s) 0) as [E0|E0].
  { apply wp_ret. split_and!; try done. intros _; lia. }
  destruct (buffer_ s) as [b|] eqn:Eb; [|done]. apply wp_bind.
  unfold wp at 1, stream_Write.
  destruct (wp_inv _ _ _ (write_ok (copying_stream_ s) (ztake (buffer_used_ s) b) Hc))
    as (r & c & -> & Hc' & Hr).
  destruct r.
  - apply wp_bind, wp_modS, wp_ret. split_and!; try done; try lia.
    + unfold wf, set_used, set_position, set_stream; simpl. rewrite Eb. split_and!; done || lia.
    + unfold kept, alive, written, ByteCount, set_used, set_position, set_stream; simpl.
      rewrite Ef, Eb. simpl. intros _. split; [done|]. split; [|lia].
      rewrite Hr, (ztake_0 0) by done. by rewrite app_nil_r.
  - apply wp_bind, wp_modS, wp_bind, wp_modS, wp_ret.
    split_and!; try done.
    unfold wf, set_used, set_failed, set_buffer, set_stream; simpl. split_and!; done || lia.
Qed.

Lemma Next_adaptor_wp s :
  wf s ->
  wp Next s (fun r s' =>
    wf s' /\ buffer_size_ s' = buffer_size_ s /\
    match r with
    | Some n =>
        zlen (block s') = n /\ 0 < n <= INT_MAX /\ buffer_used_ s' = buffer_size_ s' /\
        (alive s' = true -> alive s = true /\ flushed s' = written s /\
          ByteCount s' = ByteCount s + n)
    | None => alive s' = false
    end).
Proof.
  intros Hs. unfold Next. apply wp_bind, wp_getS, wp_bind.
  assert (wp (if buffer_used_ s =? buffer_size_ s then WriteBuffer else mret_ true) s
    (fun ok s' => wf s' /\ buffer_size_ s' = buffer_size_ s /\ kept s s' /\
       (ok = true -> buffer_used_ s' < buffer_size_ s') /\ (ok = false -> alive s' = false))) as Hw.
  { pose proof Hs as (Hc & Hz & Hg & Hu & Hgu & Hb).
    destruct (Z.eqb_spec (buffer_used_ s) (buffer_size_ s)).
    - wp_use WriteBuffer_wp; [done|]. intros ok s' (Hw & Ez & Hk & Ht & Hf). split_and!; try done.
      intros Hok. destruct (Ht Hok). lia.
    - apply wp_ret. split_and!; try done. by intros _; lia. }
  wp_use Hw. intros ok s1 (Hs1 & Ez & Hk & Hlt & Hf). destruct ok; simpl; [|by apply wp_ret; auto].
  specialize (Hlt eq_refl). pose proof Hs1 as (Hc & Hz & Hg & Hu & Hgu & Hb).
  apply wp_bind, wp_modS, wp_bind, wp_getS, wp_bind, wp_modS, wp_ret.
  set (s2 := match buffer_ s1 with None => _ | Some _ => s1 end).
  assert (exists b, buffer_ s2 = Some b /\ zlen b = buffer_size_ s1 /\
    ztake (buffer_used_ s1) b = ztake (buffer_used_ s1) (default [] (buffer_ s1)) /\
    s2 = set_buffer (Some b) s1) as (b & Eb & Hlb & Htk & E2).
  { unfold s2. destruct (buffer_ s1) as [b|] eqn:E; simpl.
    - exists b. split_and!; try done. rewrite <- E. by destruct s1.
    - eexists. split_and!; [done|zl|by rewrite Hb, !ztake_0 by lia|done]. }
  rewrite E2. clearbody s2. set (s3 := set_used _ _ _).
  assert (wf s3) as Hs3.
  { unfold wf, s3, set_used, set_buffer; simpl. split_and!; done || lia. }
  split; [done|]. split; [done|]. split; [by rewrite zlen_block by done|].
  split; [unfold set_buffer; simpl; lia|]. split; [done|].
  unfold alive, flushed, s3; simpl. intros Ha. destruct (Hk Ha) as (? & Hw' & Hbc).
  split; [done|]. split.
  - rewrite <- Hw'. unfold written. by rewrite Htk.
  - rewrite <- Hbc. unfold ByteCount; simpl. lia.
Qed.

Lemma BackUp_adaptor_wp s n :
  wf s -> 0 <= n <= zlen (block s) ->
  wp (BackUp n) s (fun _ s' =>
    wf s' /\ buffer_size_ s' = buffer_size_ s /\
    (alive s' = true ->
     alive s = true /\ written s' = flushed s ++ ztake (zlen (block s) - n) (block s) /\
     ByteCount s' = ByteCount s - n)).
Proof.
  intros Hs Hn. unfold BackUp. destruct (Z.eqb_spec n 0) as [->|].
  - apply wp_bind. unfold Flush. wp_use WriteBuffer_wp; [done|].
    intros ok s' (Hs' & Ez & Hk & _). apply wp_ret. split_and!; try done.
    intros Ha. destruct (Hk Ha) as (? & Hw & Hb). split_and!; [done| |lia].
    rewrite Hw, <- flushed_block by done. by rewrite ztake_all by lia.
  - rewrite zlen_block in * by done. pose proof Hs as (Hc & Hz & Hg & Hu & Hgu & Hb).
    apply wp_bind, wp_getS.
    rewrite (proj2 (Z.leb_le 0 n)), (proj2 (Z.eqb_eq _ _)), (proj2 (Z.leb_le n _)) by lia. simpl.
    apply wp_modS. split; [|split; [done|]].
    { unfold wf, set_used; simpl. split_and!; try done; try lia.
      destruct (buffer_ s); [done|lia]. }
    intros Ha. split; [done|]. split; [|unfold ByteCount, set_used; simpl; lia].
    unfold written, flushed, block, set_used; simpl. rewrite <- app_assoc. f_equal.
    destruct (buffer_ s) as [b|]; simpl; [|lia].
    rewrite <- (ztake_zdrop (given_ s) (ztake (buffer_used_ s - n) b)).
    rewrite ztake_ztake, zdrop_ztake, ztake_ztake by lia. do 2 f_equal; lia.
Qed.

Lemma set_block_adaptor s b :
  wf s -> zlen b = zlen (block s) ->
  wf (set_block b s) /\ block (set_block b s) = b /\ flushed (set_block b s) = flushed s /\
  alive (set_block b s) = alive s /\ ByteCount (set_block b s) = ByteCount s.
Proof.
  intros Hs Hb. rewrite zlen_block in Hb by done.
  destruct Hs as (Hc & Hz & Hg & Hu & Hgu & Hbuf).
  unfold set_block, set_buffer, wf, block, flushed, alive, ByteCount; simpl.
  destruct (buffer_ s) as [m|]; simpl.
  - assert (zlen (ztake (given_ s) m) = given_ s) as Hst by zl.
    split_and!; try done; try lia; [zl| |].
    + rewrite zdrop_app_exact, ztake_app_exact by (done || lia). done.
    + by rewrite ztake_app_exact.
  - split_and!; try done; try lia. symmetry. apply zlen_0. lia.
Qed.

Definition appended d s (r : bool) s' : Prop :=
  wf s' /\
  (r = true -> alive s' = true ->
   alive s = true /\ written s' = written s ++ d /\ ByteCount s' = ByteCount s + zlen d).

Lemma WriteAliasedRaw_loop_wp n d s :
  wf s -> (length d < n)%nat -> wp (WriteAliasedRaw_loop n d) s (appended d s).
Proof.
  revert d s. induction n as [|n IH]; intros d s Hs Hn; [lia|]. cbn [WriteAliasedRaw_loop].
  apply wp_bind. wp_use Next_adaptor_wp; [done|]. intros r s1 (Hs1 & _ & Hr).
  destruct r as [out|]; [|by apply wp_ret; split].
  destruct Hr as (Hlen & Hout & _ & Hal). pose proof (zlen_nonneg d).
  destruct (Z.leb_spec (zlen d) out).
  - set (b := d ++ zdrop (zlen d) (block s1)). assert (zlen b = zlen (block s1)) as Hb
      by (unfold b; zl).
    destruct (set_block_adaptor s1 b Hs1 Hb) as (Hs2 & Eb & Ef & Ea & Ec).
    apply wp_bind, wp_modS, wp_bind. fold b.
    wp_use BackUp_adaptor_wp; [done|rewrite Eb, Hb; lia|].
    intros _ s3 (Hs3 & _ & Hal3). apply wp_ret. split; [done|]. intros _ Ha3.
    destruct (Hal3 Ha3) as (Ha2 & Hw & Hc3). rewrite Ea in Ha2. destruct (Hal Ha2) as (Ha & Hf & Hc1).
    split; [done|]. split; [|lia]. rewrite Hw, Ef, Hf, Eb, Hb, Hlen. f_equal. unfold b.
    rewrite ztake_app_exact by lia. done.
  - assert (zlen (ztake out d) = zlen (block s1)) as Hb by zl.
    destruct (set_block_adaptor s1 (ztake out d) Hs1 Hb) as (Hs2 & Eb & Ef & Ea & Ec).
    apply wp_bind, wp_modS. wp_use IH; [done| |].
    { unfold zdrop, zlen in *. rewrite length_drop. lia. }
    intros r s3 [Hs3 Hw]. split; [done|]. intros Hr Ha3. destruct (Hw Hr Ha3) as (Ha2 & Hw3 & Hc3).
    rewrite Ea in Ha2. destruct (Hal Ha2) as (Ha & Hf & Hc1). split; [done|]. split.
    + rewrite Hw3, <- flushed_block, Ef, Hf, Eb by done. by rewrite <- app_assoc, ztake_zdrop.
    + rewrite Hc3, Ec, Hc1. zl.
Qed.

Lemma WriteAliasedRaw_wp d s : wf s -> wp (WriteAliasedRaw d) s (appended d s).
Proof.
  intros Hs. unfold WriteAliasedRaw. apply wp_bind, wp_getS.
  destruct (Z.leb_spec (buffer_size_ s) (zlen d)).
  2:{ apply WriteAliasedRaw_loop_wp; [done|lia]. }
  apply wp_bind. unfold Flush. wp_use WriteBuffer_wp; [done|]. intros ok s1 (Hs1 & _ & Hk & Ht & _).
  destruct ok; [|by apply wp_ret; split]. destruct (Ht eq_refl) as [Hu1 Hg1]. simpl.
  apply wp_bind. unfold wp at 1, stream_Write. pose proof Hs1 as (Hc & Hz & Hg & Hu & Hgu & Hb).
  destruct (wp_inv _ _ _ (write_ok (copying_stream_ s1) d Hc)) as (r & c & -> & Hc' & Hr).
  assert (wf (set_stream c s1)) as Hs2 by (unfold wf, set_stream; simpl; done).
  destruct r; simpl; [|by apply wp_ret; split].
  apply wp_bind, wp_getS. simpl. rewrite Hu1. simpl. apply wp_bind, wp_modS, wp_ret.
  split; [done|]. unfold alive, written, ByteCount; simpl. intros _ Ha.
  destruct (Hk Ha) as (? & Hw & Hbc). split; [done|].
  unfold written, ByteCount in Hw, Hbc. rewrite Hu1 in *. split; [|lia].
  rewrite <- Hw, Hr, !(ztake_0 0), !app_nil_r by done. done.
Qed.

#[global] Program Instance stream_contract : ZeroCopyOutputStreamOk t :=
  {| ostream_ok := wf; ZeroCopyOutput.flushed := flushed; ZeroCopyOutput.alive := alive |}.
Next Obligation.
  intros s Hs. wp_use Next_adaptor_wp; [done|]. intros r s' (Hs' & _ & Hr). split; [done|].
  destruct r as [n|]; [|by rewrite Hr]. destruct Hr as (Hb & Hn & _ & Ha). split_and!; [done|lia|lia|].
  by rewrite flushed_block.
Qed.
Next Obligation.
  intros s n Hs Hn. wp_use BackUp_adaptor_wp; [done|done|]. intros _ s' (Hs' & _ & Ha).
  split; [done|]. by rewrite flushed_block.
Qed.
Next Obligation.
  intros s d Hs _. wp_use WriteAliasedRaw_wp; [done|]. intros r s' [Hs' Ha]. split; [done|].
  rewrite flushed_block by done. by rewrite app_assoc, flushed_block.
Qed.
Next Obligation.
  intros s b Hs Hb. destruct (set_block_adaptor s b Hs Hb) as (? & ? & ? & ? & ?). by split_and!.
Qed.
End adaptor.
End CopyingOutputStreamAdaptor.
