(* ===== verification/EpsCopyOutput.v ===== *)
(** * Writing through a buffer with slop

    [EpsCopyOutputStream] and [CodedOutputStream] ([io/coded_stream.h],
    [io/coded_stream.cc]). The stream hands out pointers into the buffers of a
    [ZeroCopyOutputStream] through which sixteen bytes more than checked may be
    stored, and switches to a patch buffer of its own at the end of each buffer.
    Every store is checked here against the memory it goes to, so that an
    operation that would write outside of it has no result. *)

From S2P Require Import Prelude Varint ZeroCopyOutput.

Definition kSlopBytes : Z := 16.

(** Where the write pointer and [end_] point to: the patch buffer or the
    stream's buffer (or the array). *)
Inductive place := patch | direct.

Module EpsCopyOutputStream.
Section eps.
Context {S : Type} `{ZeroCopyOutputStream S}.

(** [end_] and the write pointers the operations take and return are offsets
    from the start of their [place_]; [buffer_end_] is an offset in the stream's
    last buffer, [None] the null pointer (just after construction or [Trim] it
    points to the patch buffer, and nothing is stored through it). [array_] is
    the memory of the constructor over an array. *)
Record t := mk {
  place_ : place;
  end_ : Z;
  buffer_end_ : option Z;
  buffer_ : list byte;
  stream_ : option S;
  array_ : list byte;
  had_error_ : bool;
  aliasing_enabled_ : bool;
  is_serialization_deterministic_ : bool;
}.
Notation EM := (M t).

(** *** Memory *)

Definition memory (s : t) : list byte :=
  match stream_ s with Some i => block i | None => array_ s end.
Definition set_memory (b : list byte) (s : t) : t :=
  mk (place_ s) (end_ s) (buffer_end_ s) (buffer_ s) (set_block b <$> stream_ s)
    (match stream_ s with Some _ => array_ s | None => b end)
    (had_error_ s) (aliasing_enabled_ s) (is_serialization_deterministic_ s).
Definition set_buffer (b : list byte) (s : t) : t :=
  mk (place_ s) (end_ s) (buffer_end_ s) b (stream_ s) (array_ s)
    (had_error_ s) (aliasing_enabled_ s) (is_serialization_deterministic_ s).
Definition set_stream (i : option S) (s : t) : t :=
  mk (place_ s) (end_ s) (buffer_end_ s) (buffer_ s) i (array_ s)
    (had_error_ s) (aliasing_enabled_ s) (is_serialization_deterministic_ s).
(** The members that say where to write. *)
Definition aim (p : place) (e : Z) (be : option Z) (s : t) : t :=
  mk p e be (buffer_ s) (stream_ s) (array_ s)
    (had_error_ s) (aliasing_enabled_ s) (is_serialization_deterministic_ s).
Definition set_error (s : t) : t :=
  mk (place_ s) (end_ s) (buffer_end_ s) (buffer_ s) (stream_ s) (array_ s)
    true (aliasing_enabled_ s) (is_serialization_deterministic_ s).
Definition set_aliasing (b : bool) (s : t) : t :=
  mk (place_ s) (end_ s) (buffer_end_ s) (buffer_ s) (stream_ s) (array_ s)
    (had_error_ s) b (is_serialization_deterministic_ s).
Definition SetSerializationDeterministic (value : bool) (s : t) : t :=
  mk (place_ s) (end_ s) (buffer_end_ s) (buffer_ s) (stream_ s) (array_ s)
    (had_error_ s) (aliasing_enabled_ s) value.

Definition inside (off len : Z) (m : list byte) : bool :=
  (0 <=? off) && (0 <=? len) && (off + len <=? zlen m).

(** [std::memcpy] to and from the two memories. *)
Definition store_memory (off : Z) (bytes : list byte) : EM unit :=
  let* s := getS in
  dcheck (inside off (zlen bytes) (memory s)) ;;;
  modS (set_memory (splice off bytes (memory s))).
Definition store_buffer (off : Z) (bytes : list byte) : EM unit :=
  let* s := getS in
  dcheck (inside off (zlen bytes) (buffer_ s)) ;;;
  modS (set_buffer (splice off bytes (buffer_ s))).
Definition load_memory (off len : Z) : EM (list byte) :=
  let* s := getS in
  dcheck (inside off len (memory s)) ;;; ret (ztake len (zdrop off (memory s))).
Definition load_buffer (off len : Z) : EM (list byte) :=
  let* s := getS in
  dcheck (inside off len (buffer_ s)) ;;; ret (ztake len (zdrop off (buffer_ s))).

(** Store bytes through the write pointer and move it behind them. *)
Definition put (bytes : list byte) (ptr : Z) : EM Z :=
  let* p := gets place_ in
  match p with
  | patch => store_buffer ptr bytes
  | direct => store_memory ptr bytes
  end ;;;
  ret (ptr + zlen bytes).

(** A call on the stream; there is none in the array mode. *)
Definition on_stream {A} (m : M S A) : EM A := fun s =>
  match stream_ s with
  | Some i =>
      match m i with
      | Some (a, i) => Some (a, set_stream (Some i) s)
      | None => None
      end
  | None => None
  end.

(** *** Construction *)

Definition from_stream (stream : S) (deterministic : bool) (uninit : list byte) : t :=
  mk patch 0 (Some 0) uninit (Some stream) [] false false deterministic.
Definition from_array (data : list byte) (deterministic : bool) (uninit : list byte) : t :=
  mk direct (zlen data) None uninit None data false false deterministic.

(** [SetInitialBuffer(data, size)] with [data] an offset in the last buffer. *)
Definition SetInitialBuffer (data size : Z) : EM Z :=
  if kSlopBytes <? size then
    modS (aim direct (data + size - kSlopBytes) None) ;;; ret data
  else modS (aim patch size (Some data)) ;;; ret 0.

(** *** Moving to the next buffer *)

Definition Error : EM Z :=
  modS set_error ;;; modS (fun s => aim patch kSlopBytes (buffer_end_ s) s) ;;; ret 0.

Definition GetSize (ptr : Z) : EM Z :=
  let* e := gets end_ in
  dcheck (ptr <=? e + kSlopBytes) ;;; ret (e + kSlopBytes - ptr).

(** The loop that calls the stream until its buffer is not empty. *)
Fixpoint next_nonempty (n : nat) : EM (option Z) :=
  match n with
  | O => undef
  | Datatypes.S n =>
      let* r := on_stream ZeroCopyOutput.Next in
      match r with
      | None => ret None
      | Some size => if size =? 0 then next_nonempty n else ret (Some size)
      end
  end.

Definition idle_rounds (s : t) : nat :=
  match stream_ s with Some i => Datatypes.S (idle i) | None => O end.

Definition Next : EM Z :=
  let* s := getS in
  dcheck (negb (had_error_ s)) ;;;
  match stream_ s, buffer_end_ s with
  | None, _ => Error
  | Some _, Some buffer_end =>
      let* filled := load_buffer 0 (end_ s) in
      store_memory buffer_end filled ;;;
      let* rounds := gets idle_rounds in
      let* r := next_nonempty rounds in
      match r with
      | None => Error
      | Some size =>
          let* slop := load_buffer (end_ s) kSlopBytes in
          if kSlopBytes <? size then
            store_memory 0 slop ;;;
            modS (aim direct (size - kSlopBytes) None) ;;; ret 0
          else
            dcheck (0 <? size) ;;;
            store_buffer 0 slop ;;;
            modS (aim patch size (Some 0)) ;;; ret 0
      end
  | Some _, None =>
      let* slop := load_memory (end_ s) kSlopBytes in
      store_buffer 0 slop ;;;
      modS (aim patch kSlopBytes (Some (end_ s))) ;;; ret 0
  end.

(** Each round of the loop in [EnsureSpaceFallback] is a call of [Next]; from
    an overrun of at most sixteen bytes twenty rounds are enough. *)
Fixpoint EnsureSpaceFallback_loop (n : nat) (ptr : Z) : EM Z :=
  match n with
  | O => undef
  | Datatypes.S n =>
      let* s := getS in
      if had_error_ s then ret 0 else
      let overrun := ptr - end_ s in
      dcheck ((0 <=? overrun) && (overrun <=? kSlopBytes)) ;;;
      let* next := Next in
      let ptr := next + overrun in
      let* e := gets end_ in
      if e <=? ptr then EnsureSpaceFallback_loop n ptr else ret ptr
  end.
Definition EnsureSpaceFallback : Z -> EM Z := EnsureSpaceFallback_loop 20.

Definition EnsureSpace (ptr : Z) : EM Z :=
  let* e := gets end_ in
  if e <=? ptr then EnsureSpaceFallback ptr else ret ptr.

Fixpoint Flush_loop (n : nat) (ptr : Z) : EM (option Z) :=
  let* s := getS in
  match buffer_end_ s with
  | Some _ =>
      if end_ s <? ptr then
        match n with
        | O => undef
        | Datatypes.S n =>
            let overrun := ptr - end_ s in
            dcheck (negb (had_error_ s)) ;;;
            dcheck (overrun <=? kSlopBytes) ;;;
            let* next := Next in
            let* err := gets had_error_ in
            if err : bool then ret None else Flush_loop n (next + overrun)
        end
      else ret (Some ptr)
  | None => ret (Some ptr)
  end.

Definition Flush (ptr : Z) : EM Z :=
  let* r := Flush_loop 20 ptr in
  match r with
  | None => ret 0
  | Some ptr =>
      let* s := getS in
      let* size :=
        match buffer_end_ s with
        | Some buffer_end =>
            let* filled := load_buffer 0 ptr in
            store_memory buffer_end filled ;;;
            modS (aim (place_ s) (end_ s) (Some (buffer_end + ptr))) ;;;
            ret (end_ s - ptr)
        | None =>
            modS (aim (place_ s) (end_ s) (Some ptr)) ;;;
            ret (end_ s + kSlopBytes - ptr)
        end in
      dcheck (0 <=? size) ;;; ret size
  end.

Definition Trim (ptr : Z) : EM Z :=
  let* err := gets had_error_ in
  if err : bool then ret ptr else
  let* s := Flush ptr in
  on_stream (ZeroCopyOutput.BackUp s) ;;;
  modS (aim patch 0 (Some 0)) ;;; ret 0.

(** [buffer_end_] as the pointer given to [SetInitialBuffer]. *)
Definition flushed_to : EM Z :=
  let* be := gets buffer_end_ in
  match be with Some b => ret b | None => undef end.

Definition FlushAndResetBuffer (ptr : Z) : EM Z :=
  let* err := gets had_error_ in
  if err : bool then ret 0 else
  let* s := Flush ptr in
  let* err := gets had_error_ in
  if err : bool then ret 0 else
  let* b := flushed_to in SetInitialBuffer b s.

(** The rest of the last buffer is skipped over, and whole buffers while
    [count] is larger; each takes at least a byte off [count] or is empty. *)
Fixpoint Skip_loop (n : nat) (count data size : Z) : EM (option (Z * Z * Z)) :=
  if size <? count then
    match n with
    | O => undef
    | Datatypes.S n =>
        let* r := on_stream ZeroCopyOutput.Next in
        match r with
        | None => ret None
        | Some size' => Skip_loop n (count - size) 0 size'
        end
    end
  else ret (Some (count, data, size)).

(** With the new write pointer. *)
Definition Skip (rounds : nat) (count : Z) (ptr : Z) : EM (bool * Z) :=
  if count <? 0 then ret (false, ptr) else
  let* err := gets had_error_ in
  if err : bool then ret (false, 0) else
  let* size := Flush ptr in
  let* err := gets had_error_ in
  if err : bool then ret (false, 0) else
  let* data := flushed_to in
  let* r := Skip_loop rounds count data size in
  match r with
  | None => let* ptr := Error in ret (false, ptr)
  | Some (count, data, size) =>
      let* ptr := SetInitialBuffer (data + count) (size - count) in ret (true, ptr)
  end.

(** With the offset and the size of the buffer and the new write pointer. *)
Definition GetDirectBufferPointer (ptr : Z) : EM (option (Z * Z) * Z) :=
  let* err := gets had_error_ in
  if err : bool then ret (None, 0) else
  let* size := Flush ptr in
  let* err := gets had_error_ in
  if err : bool then ret (None, 0) else
  let* data := flushed_to in
  if size =? 0 then
    let* rounds := gets idle_rounds in
    let* r := next_nonempty rounds in
    match r with
    | None => let* ptr := Error in ret (None, ptr)
    | Some size => let* ptr := SetInitialBuffer 0 size in ret (Some (0, size), ptr)
    end
  else let* ptr := SetInitialBuffer data size in ret (Some (data, size), ptr).

Definition GetDirectBufferForNBytesAndAdvance (size ptr : Z) : EM (option Z * Z) :=
  let* err := gets had_error_ in
  if err : bool then ret (None, 0) else
  let* s := Flush ptr in
  let* err := gets had_error_ in
  if err : bool then ret (None, 0) else
  let* res := flushed_to in
  if size <=? s then
    let* ptr := SetInitialBuffer (res + size) (s - size) in ret (Some res, ptr)
  else
    let* ptr := SetInitialBuffer res s in ret (None, ptr).

(** *** Raw bytes *)

(** Each round but the first copies at least one byte. *)
Fixpoint WriteRawFallback_loop (n : nat) (data : list byte) (ptr : Z) : EM Z :=
  let* s := GetSize ptr in
  if s <? zlen data then
    match n with
    | O => undef
    | Datatypes.S n =>
        let* ptr := put (ztake s data) ptr in
        let* ptr := EnsureSpaceFallback ptr in
        WriteRawFallback_loop n (zdrop s data) ptr
    end
  else put data ptr.
Definition WriteRawFallback (data : list byte) : Z -> EM Z :=
  WriteRawFallback_loop (Datatypes.S (length data)) data.

Definition WriteRaw (data : list byte) (ptr : Z) : EM Z :=
  let* e := gets end_ in
  if e - ptr <? zlen data then WriteRawFallback data ptr else put data ptr.

Definition WriteAliasedRaw (data : list byte) (ptr : Z) : EM Z :=
  let* s := GetSize ptr in
  if zlen data <? s then WriteRaw data ptr else
  let* ptr := Trim ptr in
  let* ok := on_stream (ZeroCopyOutput.WriteAliasedRaw data) in
  if ok : bool then ret ptr else Error.

Definition WriteRawMaybeAliased (data : list byte) (ptr : Z) : EM Z :=
  let* aliasing := gets aliasing_enabled_ in
  if aliasing : bool then WriteAliasedRaw data ptr else WriteRaw data ptr.

Definition EnableAliasing (enabled : bool) : EM unit :=
  let* allows := on_stream (ret (ZeroCopyOutput.AllowsAliasing (S := S))) in
  modS (set_aliasing (enabled && allows)).

(** Asked of the stream; [ptr] may be in front of or behind [end_]. *)
Definition ByteCount (ptr : Z) (s : t) : option Z :=
  let delta := (end_ s - ptr) + (if buffer_end_ s then 0 else kSlopBytes) in
  i ← stream_ s; Some (ZeroCopyOutput.ByteCount i - delta).

(** *** Fields *)

Definition WriteTag (num wt ptr : Z) : EM Z :=
  let* e := gets end_ in
  dcheck (ptr <? e) ;;; put (UnsafeVarint (u32 (Z.lor (u32 (Z.shiftl num 3)) wt))) ptr.

Definition WriteLengthDelim (num size ptr : Z) : EM Z :=
  let* ptr := WriteTag (u32 num) 2 ptr in put (UnsafeWriteSize size) ptr.

Definition WriteStringOutline (num : Z) (s : list byte) (ptr : Z) : EM Z :=
  let* ptr := EnsureSpace ptr in
  let* ptr := WriteLengthDelim (s32 num) (u32 (zlen s)) ptr in WriteRaw s ptr.
Definition WriteStringMaybeAliasedOutline (num : Z) (s : list byte) (ptr : Z) : EM Z :=
  let* ptr := EnsureSpace ptr in
  let* ptr := WriteLengthDelim (s32 num) (u32 (zlen s)) ptr in WriteRawMaybeAliased s ptr.

(** The inline copy when the string and its header fit in front of the end of
    the slop. *)
Definition WriteString_ (outline : Z -> list byte -> Z -> EM Z)
    (num : Z) (s : list byte) (ptr : Z) : EM Z :=
  let size := zlen s in
  let* e := gets end_ in
  if (128 <=? size) || (e - ptr + 16 - TagSize (u32 (Z.shiftl num 3)) - 1 <? size)
  then outline num s ptr
  else
    let* ptr := put (UnsafeVarint (u32 (Z.lor (u32 (Z.shiftl num 3)) 2))) ptr in
    let* ptr := put [z2b size] ptr in
    put s ptr.
Definition WriteString := WriteString_ WriteStringOutline.
Definition WriteStringMaybeAliased := WriteString_ WriteStringMaybeAliasedOutline.

(** The [do ... while] loop runs once even over no elements, which would read
    past them. *)
Fixpoint WriteVarintPacked_loop (encode : Z -> Z) (r : list Z) (ptr : Z) : EM Z :=
  match r with
  | [] => undef
  | x :: r =>
      let* ptr := EnsureSpace ptr in
      let* ptr := put (UnsafeVarint (encode x)) ptr in
      match r with [] => ret ptr | _ => WriteVarintPacked_loop encode r ptr end
  end.
Definition WriteVarintPacked (encode : Z -> Z) (num : Z) (r : list Z) (size ptr : Z) : EM Z :=
  let* ptr := EnsureSpace ptr in
  let* ptr := WriteLengthDelim num (u32 size) ptr in
  WriteVarintPacked_loop encode r ptr.

Definition Encode32 (v : Z) : Z := u32 v.
Definition Encode64 (v : Z) : Z := u64 v.
Definition WriteInt32Packed := WriteVarintPacked Encode64.
Definition WriteUInt32Packed := WriteVarintPacked Encode32.
Definition WriteSInt32Packed := WriteVarintPacked ZigZagEncode32.
Definition WriteInt64Packed := WriteVarintPacked Encode64.
Definition WriteUInt64Packed := WriteVarintPacked Encode64.
Definition WriteSInt64Packed := WriteVarintPacked ZigZagEncode64.
Definition WriteEnumPacked := WriteVarintPacked Encode64.

(** On a little-endian host the elements are written as they are in memory:
    [r] is their bytes. *)
Definition WriteFixedPacked (num : Z) (r : list byte) (ptr : Z) : EM Z :=
  let* ptr := EnsureSpace ptr in
  let* ptr := WriteLengthDelim num (u32 (zlen r)) ptr in WriteRaw r ptr.
End eps.
Arguments t : clear implicits.
End EpsCopyOutputStream.

(** ** CodedOutputStream *)
Module CodedOutputStream.
Section coded.
Context {S : Type} `{ZeroCopyOutputStream S}.
Import EpsCopyOutputStream.

Record t := mk { impl_ : EpsCopyOutputStream.t S; cur_ : Z; start_count_ : Z }.
Notation OM := (M t).

(** A call on [impl_] that moves [cur_]. *)
Definition on_impl (f : Z -> M (EpsCopyOutputStream.t S) Z) : OM unit := fun s =>
  match f (cur_ s) (impl_ s) with
  | Some (ptr, i) => Some (tt, mk i ptr (start_count_ s))
  | None => None
  end.
Definition on_impl_with {A} (f : Z -> M (EpsCopyOutputStream.t S) (A * Z)) : OM A := fun s =>
  match f (cur_ s) (impl_ s) with
  | Some ((a, ptr), i) => Some (a, mk i ptr (start_count_ s))
  | None => None
  end.

(** The constructors; [uninit] is what the patch buffer holds. *)
Definition InitEagerly (s : t) : option t :=
  match stream_ (impl_ s) with
  | None => None
  | Some stream =>
      '(r, stream) ← ZeroCopyOutput.Next stream;
      let i := set_stream (Some stream) (impl_ s) in
      match r with
      | Some size =>
          if 0 <? size then
            '(ptr, i) ← SetInitialBuffer 0 size i; Some (mk i ptr (start_count_ s))
          else Some (mk i (cur_ s) (start_count_ s))
      | None => Some (mk i (cur_ s) (start_count_ s))
      end
  end.
Definition make (stream : S) (eager_init deterministic : bool) (uninit : list byte) : option t :=
  let s := mk (from_stream stream deterministic uninit) 0 (ZeroCopyOutput.ByteCount stream) in
  if eager_init then InitEagerly s else Some s.

Definition HadError : OM bool :=
  on_impl FlushAndResetBuffer ;;; gets (fun s => had_error_ (impl_ s)).
Definition Trim : OM unit := on_impl EpsCopyOutputStream.Trim.
Definition Skip (rounds : nat) (count : Z) : OM bool :=
  on_impl_with (EpsCopyOutputStream.Skip rounds count).
Definition GetDirectBufferPointer : OM (option (Z * Z)) :=
  on_impl_with EpsCopyOutputStream.GetDirectBufferPointer.
Definition GetDirectBufferForNBytesAndAdvance (size : Z) : OM (option Z) :=
  on_impl_with (EpsCopyOutputStream.GetDirectBufferForNBytesAndAdvance size).

Definition WriteRaw (buffer : list byte) : OM unit := on_impl (EpsCopyOutputStream.WriteRaw buffer).
Definition WriteRawMaybeAliased (data : list byte) : OM unit :=
  on_impl (EpsCopyOutputStream.WriteRawMaybeAliased data).
Definition WriteString (str : list byte) : OM unit := WriteRaw str.

(** [EnsureSpace], then a write to the array at [Cur()]. *)
Definition write (bytes : list byte) : OM unit :=
  on_impl EnsureSpace ;;; on_impl (put bytes).
Definition WriteLittleEndian16 (value : Z) : OM unit :=
  write [z2b value; z2b (Z.shiftr value 8)].
Definition WriteLittleEndian32 (value : Z) : OM unit := write (WriteLittleEndian32ToArray value).
Definition WriteLittleEndian64 (value : Z) : OM unit := write (WriteLittleEndian64ToArray value).
Definition WriteVarint32 (value : Z) : OM unit := write (WriteVarint32ToArray value).
Definition WriteVarint64 (value : Z) : OM unit := write (WriteVarint64ToArray value).
Definition WriteVarint32SignExtended (value : Z) : OM unit := WriteVarint64 (u64 value).
Definition WriteTag (value : Z) : OM unit := WriteVarint32 value.

Definition ByteCount (s : t) : option Z :=
  c ← EpsCopyOutputStream.ByteCount (cur_ s) (impl_ s); Some (s32 (c - start_count_ s)).
Definition EnableAliasing (enabled : bool) : OM unit := fun s =>
  '(_, i) ← EpsCopyOutputStream.EnableAliasing enabled (impl_ s);
  Some (tt, mk i (cur_ s) (start_count_ s)).

(** The destructor. *)
Definition destroy : OM unit := Trim.
End coded.
Arguments t : clear implicits.
End CodedOutputStream.
