(* ===== verification/EpsCopyOutputSpec.v ===== *)
(** * The slop buffer is invisible

    Whatever the sizes of the stream's buffers, a write through
    [EpsCopyOutputStream] stays inside the memory it may touch and appends its
    bytes to what was written before. *)

From S2P Require Import Prelude Varint ZeroCopyOutput EpsCopyOutput.

Module Eps := EpsCopyOutputStream.

Section eps.
Import EpsCopyOutputStream.
Context {S : Type} `{ZeroCopyOutputStreamOk S}.
Notation eps := (EpsCopyOutputStream.t S).
Implicit Types (s : eps) (i : S).

(** ** The invariant and what was written *)

(** The write pointer may be up to sixteen bytes behind [end_]. *)
Definition Inv s (ptr : Z) : Prop :=
  zlen (buffer_ s) = 32 /\ 0 <= ptr <= end_ s + kSlopBytes /\
  exists i, stream_ s = Some i /\ ostream_ok i /\
  if had_error_ s then place_ s = patch /\ end_ s = kSlopBytes else
  match place_ s, buffer_end_ s with
  | direct, None => 0 < end_ s /\ end_ s + kSlopBytes = zlen (block i)
  | patch, Some b =>
      0 <= end_ s <= kSlopBytes /\ 0 <= b /\ b + end_ s <= zlen (block i) /\
      (end_ s = 0 \/ b + end_ s = zlen (block i))
  | _, _ => False
  end.

(** The bytes in front of the write pointer. *)
Definition out s (ptr : Z) : list byte :=
  match stream_ s with
  | None => []
  | Some i =>
      flushed i ++
      match place_ s with
      | direct => ztake ptr (block i)
      | patch => ztake (zlen (block i) - end_ s) (block i) ++ ztake ptr (buffer_ s)
      end
  end.

(** [EpsCopyOutputStream::ByteCount] *)
Definition count s (ptr : Z) : Z := default 0 (Eps.ByteCount ptr s).

(** No error yet, neither seen here nor in the stream. *)
Definition good s : Prop :=
  had_error_ s = false /\ exists i, stream_ s = Some i /\ alive i = true.

(** A stream that always has another buffer. *)
Definition infallible : Prop :=
  forall i, ostream_ok i -> wp ZeroCopyOutput.Next i (fun r _ => r <> None).

(** From [s] and its write pointer to [s'] and its own, [bytes] were written. *)
Definition wrote (bytes : list byte) s ptr s' ptr' : Prop :=
  Inv s' ptr' /\
  (infallible -> had_error_ s = false -> had_error_ s' = false) /\
  (good s' -> good s /\ out s' ptr' = out s ptr ++ bytes /\
              count s' ptr' = count s ptr + zlen bytes).

Lemma wrote_nil s ptr : Inv s ptr -> wrote [] s ptr s ptr.
Proof. intros. split; [done|]. split; [done|]. intros. rewrite app_nil_r, zlen_nil, Z.add_0_r. done. Qed.

Lemma wrote_trans b1 b2 s1 p1 s2 p2 s3 p3 :
  wrote b1 s1 p1 s2 p2 -> wrote b2 s2 p2 s3 p3 -> wrote (b1 ++ b2) s1 p1 s3 p3.
Proof.
  intros (_ & I1 & H1) (HI & I2 & H2). split; [done|]. split; [by auto|]. intros Hg.
  destruct (H2 Hg) as (Hg2 & E2 & C2). destruct (H1 Hg2) as (Hg1 & E1 & C1).
  split; [done|]. rewrite E2, E1, C2, C1, zlen_app, app_assoc. split; [done|lia].
Qed.

(** Once there is an error nothing is promised but safety. *)
Lemma wrote_error bytes s ptr s' ptr' :
  Inv s' ptr' -> had_error_ s' = true -> (infallible -> had_error_ s = true) ->
  wrote bytes s ptr s' ptr'.
Proof.
  intros HI He Hinf. split; [done|]. split; [intros Hi Hf; rewrite Hinf in Hf; done|].
  intros [Hf _]. congruence.
Qed.

(** ** Single steps *)

Lemma wp_dcheck (b : bool) (s : eps) Q : b = true -> Q tt s -> wp (dcheck b) s Q.
Proof. by intros ->. Qed.

Lemma inside_true off len m : 0 <= off -> 0 <= len -> off + len <= zlen m -> inside off len m = true.
Proof. intros. unfold inside. by rewrite !(proj2 (Z.leb_le _ _)) by lia. Qed.

Lemma store_buffer_wp off bytes s Q :
  0 <= off -> off + zlen bytes <= zlen (buffer_ s) ->
  Q tt (set_buffer (splice off bytes (buffer_ s)) s) -> wp (store_buffer off bytes) s Q.
Proof.
  intros. apply wp_bind, wp_getS, wp_bind, wp_dcheck; [apply inside_true; try done; zl|].
  by apply wp_modS.
Qed.

Lemma store_memory_wp off bytes s Q :
  0 <= off -> off + zlen bytes <= zlen (memory s) ->
  Q tt (set_memory (splice off bytes (memory s)) s) -> wp (store_memory off bytes) s Q.
Proof.
  intros. apply wp_bind, wp_getS, wp_bind, wp_dcheck; [apply inside_true; try done; zl|].
  by apply wp_modS.
Qed.

Lemma load_buffer_wp off len s Q :
  0 <= off -> 0 <= len -> off + len <= zlen (buffer_ s) ->
  Q (ztake len (zdrop off (buffer_ s))) s -> wp (load_buffer off len) s Q.
Proof.
  intros. apply wp_bind, wp_getS, wp_bind, wp_dcheck; [by apply inside_true|]. by apply wp_ret.
Qed.

Lemma load_memory_wp off len s Q :
  0 <= off -> 0 <= len -> off + len <= zlen (memory s) ->
  Q (ztake len (zdrop off (memory s))) s -> wp (load_memory off len) s Q.
Proof.
  intros. apply wp_bind, wp_getS, wp_bind, wp_dcheck; [by apply inside_true|]. by apply wp_ret.
Qed.

Lemma on_output_wp {A} (m : M S A) s i Q :
  stream_ s = Some i -> wp m i (fun a i' => Q a (set_stream (Some i') s)) -> wp (on_stream m) s Q.
Proof. unfold wp, on_stream. intros ->. by destruct (m i) as [[a i']|]. Qed.

(** Storing into the stream's buffer. *)
Lemma set_memory_stream s i b :
  stream_ s = Some i -> ostream_ok i -> zlen b = zlen (block i) ->
  exists i', stream_ (set_memory b s) = Some i' /\ ostream_ok i' /\ block i' = b /\
    flushed i' = flushed i /\ alive i' = alive i /\ ZeroCopyOutput.ByteCount i' = ZeroCopyOutput.ByteCount i /\ idle i' = idle i.
Proof.
  intros E Hi Hb. exists (set_block b i). unfold set_memory; simpl. rewrite E.
  destruct (set_block_ok i b Hi Hb) as (? & ? & ? & ? & ? & ?). by split_and!.
Qed.

Lemma put_wp bytes s ptr :
  Inv s ptr -> ptr + zlen bytes <= end_ s + kSlopBytes ->
  wp (put bytes ptr) s (fun ptr' s' =>
    ptr' = ptr + zlen bytes /\ wrote bytes s ptr s' ptr' /\ end_ s' = end_ s /\
    aliasing_enabled_ s' = aliasing_enabled_ s).
Proof.
  intros (H32 & Hp & i & Ei & Hi & Hs) Hle. pose proof (zlen_nonneg bytes).
  unfold put. apply wp_bind, wp_gets.
  assert (place_ s = patch \/
    place_ s = direct /\ had_error_ s = false /\ buffer_end_ s = None /\
    end_ s + kSlopBytes = zlen (block i)) as [Epl|(Epl & Ee & Eb & Ez)].
  { destruct (had_error_ s), (place_ s), (buffer_end_ s); naive_solver. }
  - rewrite Epl. apply wp_bind. assert (end_ s <= kSlopBytes) as He16.
    { destruct (had_error_ s); [lia|]. rewrite Epl in Hs. destruct (buffer_end_ s); [lia|done]. }
    apply store_buffer_wp; [lia|unfold kSlopBytes in *; lia|]. apply wp_ret.
    split; [done|]. split; [|done]. set (s' := set_buffer _ s). split.
    + split; [unfold s'; simpl; rewrite zlen_splice; unfold kSlopBytes in *; lia|].
      split; [simpl; lia|]. exists i. by split_and!.
    + split; [done|]. intros Hg. split; [exact Hg|]. split.
      * unfold out, s'; simpl. rewrite Ei, Epl, <- !app_assoc. do 2 f_equal.
        apply ztake_splice. unfold kSlopBytes in *. lia.
      * unfold count, Eps.ByteCount, s'; simpl. rewrite Ei. simpl. lia.
  - rewrite Epl. apply wp_bind. assert (memory s = block i) as Em by (unfold memory; by rewrite Ei).
    apply store_memory_wp; [lia|rewrite Em; lia|]. apply wp_ret.
    split; [done|]. split; [|done]. rewrite Em.
    destruct (set_memory_stream s i (splice ptr bytes (block i)) Ei Hi)
      as (i' & Ei' & Hi' & Eb' & Ef' & Ea' & Ec' & _); [apply zlen_splice; lia|].
    set (s' := set_memory _ s) in *. split.
    + split; [done|]. split; [simpl; lia|]. exists i'. split_and!; [done|done|].
      change (had_error_ s') with (had_error_ s). change (place_ s') with (place_ s).
      change (buffer_end_ s') with (buffer_end_ s). change (end_ s') with (end_ s).
      rewrite Ee, Epl, Eb in *. split; [by destruct Hs|]. rewrite Eb'. rewrite zlen_splice by lia. done.
    + split; [done|]. intros (_ & j & Ej & Ha). rewrite Ei' in Ej. injection Ej as <-. split.
      { split; [done|]. exists i. split; [done|]. congruence. }
      split.
      * unfold out. rewrite Ei', Ei. change (place_ s') with (place_ s). rewrite Epl, Ef', Eb'.
        rewrite <- app_assoc. f_equal. apply ztake_splice. lia.
      * unfold count, Eps.ByteCount. rewrite Ei', Ei. simpl. change (buffer_end_ s') with (buffer_end_ s).
        rewrite Ec'. lia.
Qed.

(** ** The next buffer *)

Lemma ztake_slop {A} o n k (l m : list A) :
  0 <= o <= n -> 0 <= k -> k + n <= zlen m -> ztake o (splice 0 (ztake n (zdrop k m)) l)
  = ztake o (zdrop k m).
Proof.
  intros. unfold splice. rewrite (ztake_0 0) by done. simpl. rewrite ztake_app, ztake_ztake.
  rewrite (ztake_0 (o - _)) by zl. rewrite app_nil_r. f_equal. lia.
Qed.

Lemma next_nonempty_wp n s i :
  stream_ s = Some i -> ostream_ok i -> (idle i < n)%nat ->
  wp (next_nonempty n) s (fun r s' => exists i', s' = set_stream (Some i') s /\ ostream_ok i' /\
    match r with
    | None => ~ infallible
    | Some z => 0 < z /\ zlen (block i') = z /\
        (alive i' = true -> alive i = true /\ flushed i' = flushed i ++ block i /\
         ZeroCopyOutput.ByteCount i' = ZeroCopyOutput.ByteCount i + z)
    end).
Proof.
  revert s i. induction n as [|n IH]; intros s i Ei Hi Hn; [lia|]. cbn [next_nonempty].
  apply wp_bind. eapply on_output_wp; [done|].
  destruct (wp_inv _ _ _ (next_block_ok i Hi)) as (r & i1 & E & Hi1 & Hr).
  unfold wp at 1. rewrite E. destruct r as [z|].
  2:{ apply wp_ret. exists i1. split_and!; [done|done|]. intros Hinf.
      specialize (Hinf i Hi). unfold wp in Hinf. by rewrite E in Hinf. }
  destruct Hr as (Hz & _ & Hid & Ha). pose proof (zlen_nonneg (block i1)).
  destruct (Z.eqb_spec z 0) as [Ez|Ez].
  - specialize (Hid Ez). wp_use (IH (set_stream (Some i1) s) i1); [done|done|lia|].
    intros r s' (i2 & -> & Hi2 & Hr). exists i2. split; [done|]. split; [done|].
    destruct r as [z2|]; [|done]. destruct Hr as (? & ? & Ha2). split_and!; [done..|].
    intros Hal. destruct (Ha2 Hal) as (Ha1 & -> & ->). destruct (Ha Ha1) as (? & -> & ->).
    rewrite (zlen_0 (block i1)), app_nil_r by lia. split_and!; [done..|lia].
  - apply wp_ret. exists i1. split_and!; [done|done|lia|done|done].
Qed.

(** Where [Next] leads: from the stream's buffer to the patch buffer, from
    there to a stream's buffer that is not empty. *)
Definition next_place s s' : Prop :=
  match place_ s with
  | direct => place_ s' = patch /\ end_ s' = kSlopBytes
  | patch => 0 < end_ s'
  end.

Lemma Next_patch_wp s o :
  Inv s (end_ s + o) -> 0 <= o <= kSlopBytes -> had_error_ s = false -> place_ s = patch ->
  wp Next s (fun n s' => n = 0 /\ wrote [] s (end_ s + o) s' o /\
    (had_error_ s' = false -> next_place s s') /\ aliasing_enabled_ s' = aliasing_enabled_ s).
Proof.
  intros (H32 & Hp & i & Ei & Hi & Hs) Ho He Epl. rewrite He, Epl in Hs.
  destruct (buffer_end_ s) as [b|] eqn:Eb; [|done]. destruct Hs as (Hend & Hb & Hbe & Hfull).
  unfold Next, next_place. rewrite Epl. apply wp_bind, wp_getS, wp_bind, wp_dcheck; [by rewrite He|].
  rewrite Ei, Eb. unfold kSlopBytes in *.
  apply wp_bind, load_buffer_wp; [lia|lia|lia|]. rewrite (zdrop_0 0) by done.
  set (filled := ztake (end_ s) (buffer_ s)). assert (zlen filled = end_ s) as Hfl by (unfold filled; zl).
  assert (memory s = block i) as Em by (unfold memory; by rewrite Ei).
  apply wp_bind, store_memory_wp; [lia|rewrite Em; lia|]. rewrite Em.
  destruct (set_memory_stream s i (splice b filled (block i)) Ei Hi)
    as (i1 & Ei1 & Hi1 & Eb1 & Ef1 & Ea1 & Ec1 & Eid1); [apply zlen_splice; lia|].
  set (s1 := set_memory _ s) in *.
  assert (block i1 = ztake (zlen (block i) - end_ s) (block i) ++ filled) as Hblk.
  { rewrite Eb1. destruct Hfull as [E0|Efull].
    - rewrite (zlen_0 filled) by lia. rewrite splice_nil, E0, app_nil_r. symmetry. apply ztake_all. lia.
    - unfold splice. rewrite Hfl, zdrop_all, app_nil_r by lia. do 2 f_equal. lia. }
  apply wp_bind, wp_gets, wp_bind. unfold idle_rounds. rewrite Ei1.
  wp_use (next_nonempty_wp (Datatypes.S (idle i1)) s1 i1); [done|done|lia|].
  intros r s2 (i2 & E2 & Hi2 & Hr). subst s2. destruct r as [z|]; cycle 1.
  { apply wp_bind, wp_modS, wp_bind, wp_modS, wp_ret. split; [done|].
    split; [apply wrote_error; [|done|by intros ?]|done].
    split; [done|]. split; [simpl; unfold kSlopBytes; lia|]. exists i2. by split_and!. }
  destruct Hr as (Hz & Ezb & Ha). apply wp_bind, load_buffer_wp; [simpl; lia|lia|simpl; lia|].
  cbn [buffer_ set_stream s1 set_memory].
  set (slop := ztake 16 (zdrop (end_ s) (buffer_ s))).
  assert (zlen slop = 16) as Hsl by (unfold slop; zl).
  assert (Hout : forall m, alive i2 = true -> m = ztake o (zdrop (end_ s) (buffer_ s)) ->
    flushed i2 ++ m = out s (end_ s + o)).
  { intros m Hal ->. destruct (Ha Hal) as (_ & -> & _). unfold out. rewrite Ei, Epl, Ef1, Hblk.
    rewrite ztake_add, !app_assoc by lia. done. }
  assert (Hcnt : alive i2 = true ->
    ZeroCopyOutput.ByteCount i2 - z + o = count s (end_ s + o)).
  { intros Hal. destruct (Ha Hal) as (_ & _ & ->). unfold count, Eps.ByteCount. rewrite Ei, Eb, Ec1.
    simpl. lia. }
  assert (Hgood : forall s', had_error_ s' = false -> stream_ s' = Some i2 -> alive i2 = true -> good s).
  { intros s' _ _ Hal. split; [done|]. exists i. split; [done|]. rewrite <- Ea1. by apply Ha. }
  destruct (Z.ltb_spec 16 z).
  - assert (memory (set_stream (Some i2) s1) = block i2) as Em2 by done.
    apply wp_bind, store_memory_wp; [lia|rewrite Em2; lia|]. rewrite Em2.
    destruct (set_memory_stream (set_stream (Some i2) s1) i2 (splice 0 slop (block i2)) eq_refl Hi2)
      as (i3 & Ei3 & Hi3 & Eb3 & Ef3 & Ea3 & Ec3 & _); [apply zlen_splice; lia|].
    apply wp_bind, wp_modS, wp_ret. set (s3 := aim _ _ _ _).
    assert (stream_ s3 = Some i3) as Es3 by done.
    split; [done|]. split; [|split; [intros _; unfold s3; simpl; unfold kSlopBytes; lia|done]]. split.
    + split; [done|]. split; [unfold s3; simpl; unfold kSlopBytes; lia|]. exists i3.
      split_and!; [done|done|]. unfold s3; simpl. rewrite He. split; [unfold kSlopBytes; lia|].
      rewrite Eb3, zlen_splice by lia. unfold kSlopBytes. lia.
    + split; [done|]. intros (_ & j & Ej & Hal). rewrite Es3 in Ej. injection Ej as <-. rewrite Ea3 in Hal.
      split; [by apply (Hgood (set_stream (Some i2) s1))|]. split.
      * rewrite app_nil_r, <- (Hout (ztake o (splice 0 slop (block i2)))); [|done|].
        { unfold out. rewrite Es3. unfold s3; cbn [place_ aim]. by rewrite Ef3, Eb3. }
        apply ztake_slop; lia.
      * rewrite <- Hcnt, zlen_nil by done. unfold count, Eps.ByteCount. rewrite Es3.
        unfold s3; simpl. rewrite Ec3. unfold kSlopBytes. lia.
  - apply wp_bind, wp_dcheck; [by apply Z.ltb_lt|].
    apply wp_bind, store_buffer_wp; [lia|simpl; lia|]. apply wp_bind, wp_modS, wp_ret.
    set (s3 := aim _ _ _ _). assert (stream_ s3 = Some i2) as Es3 by done.
    split; [done|]. split; [|split; [intros _; unfold s3; simpl; lia|done]]. split.
    + split; [unfold s3; simpl; rewrite zlen_splice; lia|].
      split; [unfold s3; simpl; unfold kSlopBytes; lia|]. exists i2.
      split_and!; [done|done|]. unfold s3; simpl. rewrite He. unfold kSlopBytes. lia.
    + split; [done|]. intros (_ & j & Ej & Hal). rewrite Es3 in Ej. injection Ej as <-.
      split; [by apply (Hgood (set_stream (Some i2) s1))|]. split.
      * rewrite app_nil_r, <- (Hout (ztake o (splice 0 slop (buffer_ s)))); [|done|].
        { unfold out. rewrite Es3. unfold s3; cbn [place_ aim end_ buffer_ set_buffer].
          rewrite (ztake_0 (zlen _ - z)) by lia. done. }
        apply ztake_slop; lia.
      * rewrite <- Hcnt, zlen_nil by done. unfold count, Eps.ByteCount. rewrite Es3.
        unfold s3; simpl. lia.
Qed.

Lemma Next_direct_wp s o :
  Inv s (end_ s + o) -> 0 <= o <= kSlopBytes -> had_error_ s = false -> place_ s = direct ->
  wp Next s (fun n s' => n = 0 /\ wrote [] s (end_ s + o) s' o /\
    (had_error_ s' = false -> next_place s s') /\ aliasing_enabled_ s' = aliasing_enabled_ s).
Proof.
  intros (H32 & Hp & i & Ei & Hi & Hs) Ho He Epl. rewrite He, Epl in Hs.
  destruct (buffer_end_ s) as [b|] eqn:Eb; [done|]. destruct Hs as (Hend & Hz).
  unfold Next, next_place. rewrite Epl. apply wp_bind, wp_getS, wp_bind, wp_dcheck; [by rewrite He|].
  rewrite Ei, Eb. unfold kSlopBytes in *.
  assert (memory s = block i) as Em by (unfold memory; by rewrite Ei).
  apply wp_bind, load_memory_wp; [lia|lia|rewrite Em; lia|]. rewrite Em.
  set (slop := ztake 16 (zdrop (end_ s) (block i))). assert (zlen slop = 16) as Hsl by (unfold slop; zl).
  apply wp_bind, store_buffer_wp; [lia|lia|]. apply wp_bind, wp_modS, wp_ret.
  set (s3 := aim _ _ _ _). assert (stream_ s3 = Some i) as Es3 by done.
  split; [done|]. split; [|split; [by intros _|done]]. split.
  - split; [unfold s3; simpl; rewrite zlen_splice; lia|].
    split; [unfold s3; simpl; unfold kSlopBytes; lia|]. exists i. split_and!; [done|done|].
    unfold s3; simpl. rewrite He. unfold kSlopBytes. lia.
  - split; [done|]. intros Hg. split; [exact Hg|]. split.
    + rewrite app_nil_r. unfold out. rewrite Es3, Ei, Epl.
      unfold s3; cbn [place_ aim end_ buffer_ set_buffer]. unfold slop.
      rewrite ztake_slop by lia. rewrite (ztake_add (end_ s) o) by lia.
      do 3 f_equal. lia.
    + rewrite zlen_nil. unfold count, Eps.ByteCount. rewrite Es3, Ei, Eb. unfold s3; simpl.
      unfold kSlopBytes. lia.
Qed.

Lemma Next_wp s o :
  Inv s (end_ s + o) -> 0 <= o <= kSlopBytes -> had_error_ s = false ->
  wp Next s (fun n s' => n = 0 /\ wrote [] s (end_ s + o) s' o /\
    (had_error_ s' = false -> next_place s s') /\ aliasing_enabled_ s' = aliasing_enabled_ s).
Proof.
  intros. destruct (place_ s) eqn:E; [by apply Next_patch_wp|by apply Next_direct_wp].
Qed.

(** How many calls of [Next] are left when the pointer is [o] behind [end_]. *)
Definition rounds s (o : Z) : Z :=
  match place_ s with direct => if o <? kSlopBytes then 1 else 2 | patch => o + 1 end.

Lemma rounds_next s s' o :
  0 <= o <= kSlopBytes -> next_place s s' -> end_ s' <= o -> rounds s' (o - end_ s') < rounds s o.
Proof.
  unfold next_place, rounds, kSlopBytes. intros Ho Hn He.
  destruct (place_ s).
  - destruct (place_ s'); [lia|]. case_cmp; lia.
  - destruct Hn as [-> Hn]. rewrite Hn in *. case_cmp; lia.
Qed.

Lemma EnsureSpaceFallback_wp s ptr :
  Inv s ptr -> end_ s <= ptr ->
  wp (EnsureSpaceFallback ptr) s (fun ptr' s' => wrote [] s ptr s' ptr' /\ ptr' < end_ s' /\
    aliasing_enabled_ s' = aliasing_enabled_ s).
Proof.
  intros HI Hp. unfold EnsureSpaceFallback.
  assert (forall n s ptr, Inv s ptr -> end_ s <= ptr -> rounds s (ptr - end_ s) < Z.of_nat n ->
    wp (EnsureSpaceFallback_loop n ptr) s (fun ptr' s' => wrote [] s ptr s' ptr' /\ ptr' < end_ s' /\
      aliasing_enabled_ s' = aliasing_enabled_ s)) as Hloop.
  { clear. intros n. induction n as [|n IH]; intros s ptr HI Hp Hn.
    { exfalso. revert Hn. unfold rounds. destruct (place_ s); case_cmp; lia. }
    cbn [EnsureSpaceFallback_loop]. apply wp_bind, wp_getS.
    pose proof HI as (H32 & Hptr & i & Ei & Hi & Hs).
    destruct (had_error_ s) eqn:He.
    { destruct Hs as [Epl Eend]. apply wp_ret. split; [|split; [rewrite Eend; done|done]].
      apply wrote_error; [|done|done]. split; [done|]. split; [rewrite Eend; unfold kSlopBytes; lia|].
      exists i. by rewrite He. }
    set (o := ptr - end_ s). assert (ptr = end_ s + o) as Eo by lia.
    assert (0 <= o <= kSlopBytes) as Ho by lia.
    apply wp_bind, wp_dcheck; [unfold o; by rewrite !(proj2 (Z.leb_le _ _)) by lia|].
    rewrite Eo in HI. apply wp_bind. wp_use (Next_wp s o); [done..|].
    intros n0 s1 (-> & Hw & Hnp & Hal). apply wp_bind, wp_gets. rewrite Z.add_0_l.
    rewrite <- Eo in Hw. destruct (Z.leb_spec (end_ s1) o) as [Hle|Hlt].
    - pose proof Hw as [HI1 _]. destruct (had_error_ s1) eqn:He1.
      + destruct n as [|n]; [exfalso; revert Hn; unfold rounds; destruct (place_ s); case_cmp; lia|].
        cbn [EnsureSpaceFallback_loop]. apply wp_bind, wp_getS. rewrite He1. apply wp_ret.
        destruct HI1 as (H32' & Hptr' & i1 & Ei1 & Hi1 & Hs1). rewrite He1 in Hs1.
        destruct Hs1 as [Epl1 Eend1]. split; [|split; [by rewrite Eend1|done]].
        apply wrote_error; [|done|by intros Hinf; destruct Hw as (_ & Hinf' & _); rewrite Hinf' in He1]. split; [done|]. split; [rewrite Eend1; unfold kSlopBytes; lia|].
        exists i1. by rewrite He1.
      + pose proof (rounds_next s s1 o Ho (Hnp eq_refl) Hle) as Hr.
        wp_use (IH s1 o HI1 Hle); [fold o in Hn; lia|].
        intros ptr' s' (Hw' & ? & ?). split; [|split; [done|congruence]].
        apply (wrote_trans [] [] _ _ _ _ _ _ Hw Hw').
    - apply wp_ret. done. }
  apply Hloop; [done|done|]. destruct HI as (_ & ? & _).
  unfold rounds, kSlopBytes in *. destruct (place_ s); case_cmp; lia.
Qed.

Lemma EnsureSpace_wp s ptr :
  Inv s ptr ->
  wp (EnsureSpace ptr) s (fun ptr' s' => wrote [] s ptr s' ptr' /\ ptr' < end_ s' /\
    aliasing_enabled_ s' = aliasing_enabled_ s).
Proof.
  intros HI. apply wp_bind, wp_gets. destruct (Z.leb_spec (end_ s) ptr).
  - by apply EnsureSpaceFallback_wp.
  - apply wp_ret. split; [by apply wrote_nil|done].
Qed.

(** ** Giving the buffer back *)

Lemma Inv_patch s ptr : Inv s ptr -> had_error_ s = false -> buffer_end_ s <> None -> place_ s = patch.
Proof.
  intros (_ & _ & i & _ & _ & Hs) He Hb. rewrite He in Hs. by destruct (place_ s), (buffer_end_ s).
Qed.

Lemma Inv_error_0 s ptr : Inv s ptr -> had_error_ s = true -> Inv s 0.
Proof.
  intros (H32 & Hp & i & Ei & Hi & Hs) He. split; [done|]. rewrite He in Hs. destruct Hs as [? Hend].
  split; [rewrite Hend; unfold kSlopBytes; lia|]. exists i. by rewrite He.
Qed.

Lemma Flush_loop_wp n s ptr :
  Inv s ptr -> had_error_ s = false -> (end_ s < ptr -> rounds s (ptr - end_ s) <= Z.of_nat n) ->
  wp (Flush_loop n ptr) s (fun r s' => aliasing_enabled_ s' = aliasing_enabled_ s /\
    match r with
    | None => had_error_ s' = true /\ Inv s' 0 /\ ~ infallible
    | Some p => wrote [] s ptr s' p /\ had_error_ s' = false /\
                (buffer_end_ s' <> None -> p <= end_ s')
    end).
Proof.
  revert s ptr. induction n as [|n IH]; intros s ptr HI He Hn; cbn [Flush_loop];
    apply wp_bind, wp_getS;
    (destruct (buffer_end_ s) as [b|] eqn:Eb;
      [|apply wp_ret; split; [done|]; split; [by apply wrote_nil|]; split; [done|by rewrite Eb]]);
    (destruct (Z.ltb_spec (end_ s) ptr);
      [|apply wp_ret; split; [done|]; split; [by apply wrote_nil|by split]]).
  - exfalso. specialize (Hn ltac:(lia)). revert Hn. unfold rounds.
    destruct (place_ s); case_cmp; lia.
  - specialize (Hn ltac:(lia)).
    assert (place_ s = patch) as Epl by (eapply Inv_patch; [done..|by rewrite Eb]).
    set (o := ptr - end_ s). assert (ptr = end_ s + o) as Eo by lia.
    assert (0 <= o <= kSlopBytes) as Ho by (destruct HI as (_ & ? & _); lia).
    apply wp_bind, wp_dcheck; [by rewrite He|].
    apply wp_bind, wp_dcheck; [apply Z.leb_le; lia|].
    rewrite Eo in HI. apply wp_bind. wp_use (Next_wp s o); [done..|].
    intros n0 s1 (-> & Hw & Hnp & Hal). rewrite Z.add_0_l, <- Eo in *. pose proof Hw as (HI1 & Hinf & _).
    apply wp_bind, wp_gets. destruct (had_error_ s1) eqn:He1.
    { apply wp_ret. split_and!; [done|done|by eapply Inv_error_0|].
      intros Hi. by specialize (Hinf Hi He). }
    wp_use (IH s1 o HI1 He1).
    { intros Hlt. pose proof (rounds_next s s1 o Ho (Hnp eq_refl) ltac:(lia)). fold o in Hn. lia. }
    intros r s' [Ha Hr]. split; [congruence|]. destruct r as [p|]; [|done].
    destruct Hr as (Hw' & ? & ?). split; [|done]. apply (wrote_trans [] [] _ _ _ _ _ _ Hw Hw').
Qed.

(** After [Flush]: the bytes in front of the last [size] of the stream's buffer
    are what was written. *)
Definition flush_done s ptr (size : Z) s' : Prop :=
  zlen (buffer_ s') = 32 /\ had_error_ s' = false /\ aliasing_enabled_ s' = aliasing_enabled_ s /\
  exists i b, stream_ s' = Some i /\ ostream_ok i /\ buffer_end_ s' = Some b /\
    0 <= size /\ 0 <= b /\ b + size <= zlen (block i) /\
    (size = 0 \/ b + size = zlen (block i)) /\
    (alive i = true -> good s /\
       flushed i ++ ztake (zlen (block i) - size) (block i) = out s ptr /\
       ZeroCopyOutput.ByteCount i - size = count s ptr).

Lemma Flush_wp s ptr :
  Inv s ptr -> had_error_ s = false ->
  wp (Flush ptr) s (fun size s' =>
    (had_error_ s' = true /\ size = 0 /\ Inv s' 0 /\ ~ infallible /\ aliasing_enabled_ s' = aliasing_enabled_ s) \/
    flush_done s ptr size s').
Proof.
  intros HI He. unfold Flush. apply wp_bind. wp_use Flush_loop_wp; [done|done| |].
  { intros _. destruct HI as (_ & ? & _). unfold rounds, kSlopBytes in *.
    destruct (place_ s); case_cmp; lia. }
  intros r s1 [Hal Hr]. destruct r as [p|]; [|apply wp_ret; left; destruct Hr as (? & ? & ?); by split_and!].
  destruct Hr as (Hw & He1 & Hle). apply wp_bind, wp_getS, wp_bind.
  pose proof Hw as [(H32 & Hp & i & Ei & Hi & Hs) [_ Hg]]. rewrite He1 in Hs.
  assert (memory s1 = block i) as Em by (unfold memory; by rewrite Ei).
  destruct (buffer_end_ s1) as [b|] eqn:Eb.
  - destruct (place_ s1) eqn:Epl; [|done]. destruct Hs as (Hend & Hb & Hbe & Hfull).
    specialize (Hle ltac:(done)). apply wp_bind, load_buffer_wp; [lia|lia|unfold kSlopBytes in *; lia|].
    rewrite (zdrop_0 0) by done. set (filled := ztake p (buffer_ s1)).
    assert (zlen filled = p) as Hfl by (unfold filled; unfold kSlopBytes in *; zl).
    apply wp_bind, store_memory_wp; [lia|rewrite Em; lia|]. rewrite Em.
    destruct (set_memory_stream s1 i (splice b filled (block i)) Ei Hi)
      as (i1 & Ei1 & Hi1 & Eb1 & Ef1 & Ea1 & Ec1 & _); [apply zlen_splice; lia|].
    assert (zlen (block i1) = zlen (block i)) as Hz1 by (rewrite Eb1; apply zlen_splice; lia).
    apply wp_bind, wp_modS, wp_ret, wp_bind, wp_dcheck; [apply Z.leb_le; lia|].
    apply wp_ret. right. split_and!; [done|done|done|].
    exists i1, (b + p). rewrite Hz1. split_and!; [exact Ei1|done|done|lia|lia|lia|lia|].
    intros Ha. rewrite Ea1 in Ha. destruct Hg as (Hgs & Ho & Hc); [split; [done|by exists i]|].
    split; [done|]. rewrite <- (app_nil_r (out s ptr)), <- Ho. split.
    + unfold out. rewrite Ei, Epl, Ef1, Eb1. f_equal. fold filled.
      destruct Hfull as [E0|Efull].
      * assert (p = 0) as -> by lia. rewrite (zlen_0 filled), splice_nil, app_nil_r by lia.
        rewrite E0. done.
      * replace (zlen (block i) - (end_ s1 - p)) with (b + zlen filled) by lia.
        rewrite ztake_splice by lia. do 2 f_equal. lia.
    + rewrite zlen_nil, Z.add_0_r in Hc. rewrite <- Hc, Ec1. unfold count, Eps.ByteCount.
      rewrite Ei, Eb. simpl. lia.
  - destruct (place_ s1) eqn:Epl; [done|]. destruct Hs as (Hend & Hz).
    apply wp_bind, wp_modS, wp_ret, wp_bind, wp_dcheck; [apply Z.leb_le; lia|].
    apply wp_ret. right. split_and!; [done|done|done|].
    exists i, p. split_and!; [exact Ei|done|done|lia|lia|lia|lia|].
    intros Ha. destruct Hg as (Hgs & Ho & Hc); [split; [done|by exists i]|].
    split; [done|]. rewrite <- (app_nil_r (out s ptr)), <- Ho. split.
    + unfold out. rewrite Ei, Epl. do 2 f_equal. lia.
    + rewrite zlen_nil, Z.add_0_r in Hc. rewrite <- Hc. unfold count, Eps.ByteCount.
      rewrite Ei, Eb. simpl. lia.
Qed.

(** Taking the rest of the buffer up again after [Flush], [n] bytes further on. *)
Lemma resume_wp s ptr size s1 n b :
  had_error_ s = false -> flush_done s ptr size s1 -> buffer_end_ s1 = Some b -> 0 <= n <= size ->
  wp (SetInitialBuffer (b + n) (size - n)) s1 (fun p s2 =>
    exists skipped, zlen skipped = n /\ wrote skipped s ptr s2 p /\ had_error_ s2 = false /\
      aliasing_enabled_ s2 = aliasing_enabled_ s).
Proof.
  intros Hs (H32 & He & Hal & i & b' & Ei & Hi & Eb & Hsz & Hb & Hbs & Hfull & Hg) Eb' Hn.
  rewrite Eb in Eb'. injection Eb' as ->. unfold SetInitialBuffer, kSlopBytes.
  set (skipped := ztake n (zdrop (zlen (block i) - size) (block i))).
  assert (zlen skipped = n) as Hsk by (unfold skipped; zl).
  assert (ztake (zlen (block i) - size) (block i) ++ skipped = ztake (zlen (block i) - (size - n)) (block i))
    as Htk.
  { unfold skipped. rewrite <- ztake_add by lia. f_equal. lia. }
  destruct (Z.ltb_spec 16 (size - n)).
  - assert (b + size = zlen (block i)) as Ef by lia.
    apply wp_bind, wp_modS, wp_ret. exists skipped. split_and!; [done| |done|done].
    split; [|split; [by intros _ _|]].
    + split; [done|]. split; [simpl; unfold kSlopBytes; lia|]. exists i. split_and!; [done|done|].
      simpl. rewrite He. unfold kSlopBytes. lia.
    + intros (_ & j & Ej & Ha). simpl in Ej. rewrite Ei in Ej. injection Ej as <-.
      destruct (Hg Ha) as (Hgs & <- & <-). split; [done|]. split.
      * unfold out; simpl. rewrite Ei, <- app_assoc, Htk. do 2 f_equal. lia.
      * unfold count, Eps.ByteCount; simpl. rewrite Ei. simpl. unfold kSlopBytes. lia.
  - apply wp_bind, wp_modS, wp_ret. exists skipped. split_and!; [done| |done|done].
    split; [|split; [by intros _ _|]].
    + split; [done|]. split; [simpl; unfold kSlopBytes; lia|]. exists i. split_and!; [done|done|].
      simpl. rewrite He. unfold kSlopBytes. lia.
    + intros (_ & j & Ej & Ha). simpl in Ej. rewrite Ei in Ej. injection Ej as <-.
      destruct (Hg Ha) as (Hgs & <- & <-). split; [done|]. split.
      * unfold out; simpl. rewrite Ei, <- app_assoc, Htk. f_equal.
        rewrite (ztake_0 0), app_nil_r by done. done.
      * unfold count, Eps.ByteCount; simpl. rewrite Ei. simpl. lia.
Qed.

Lemma wrote_failed bytes s ptr s' :
  had_error_ s' = true -> Inv s' 0 -> ~ infallible -> wrote bytes s ptr s' 0.
Proof. intros. by apply wrote_error. Qed.

Lemma FlushAndResetBuffer_wp s ptr :
  Inv s ptr ->
  wp (FlushAndResetBuffer ptr) s (fun p s' => wrote [] s ptr s' p /\
    aliasing_enabled_ s' = aliasing_enabled_ s).
Proof.
  intros HI. apply wp_bind, wp_gets. destruct (had_error_ s) eqn:He.
  { apply wp_ret. split; [|done]. apply wrote_error; [by eapply Inv_error_0|done|done]. }
  apply wp_bind. wp_use Flush_wp; [done|done|]. intros size s1 [(He1 & _ & HI1 & Hinf & Hal)|Hd];
    apply wp_bind, wp_gets.
  { rewrite He1. apply wp_ret. split; [by apply wrote_failed|done]. }
  pose proof Hd as (_ & He1 & _ & i & b & _ & _ & Eb & Hsz & _). rewrite He1.
  unfold flushed_to. apply wp_bind, wp_bind, wp_gets. rewrite Eb. apply wp_ret.
  replace b with (b + 0) by lia. replace size with (size - 0) by lia.
  wp_use (resume_wp s ptr size s1 0 b); [done|done|done|lia|].
  intros p s2 (skipped & Hz & Hw & _ & Hal). rewrite (zlen_0 skipped) in Hw by lia. done.
Qed.

(** After a successful [Trim] the stream holds what was written and nothing
    else, and the next write asks it for a new buffer. *)
Lemma Trim_wp s ptr :
  Inv s ptr -> had_error_ s = false ->
  wp (Trim ptr) s (fun p s' => p = 0 /\ aliasing_enabled_ s' = aliasing_enabled_ s /\
    (had_error_ s' = false -> wrote [] s ptr s' 0) /\ (infallible -> had_error_ s' = false) /\
    exists i, stream_ s' = Some i /\ ostream_ok i /\
    (had_error_ s' = false -> alive i = true ->
     good s /\ flushed i ++ block i = out s ptr /\ ZeroCopyOutput.ByteCount i = count s ptr)).
Proof.
  intros HI He. apply wp_bind, wp_gets. rewrite He. apply wp_bind.
  wp_use Flush_wp; [done|done|]. intros size s1 [(He1 & -> & HI1 & Hinf & Hal)|Hd]; apply wp_bind.
  - destruct HI1 as (_ & _ & i & Ei & Hi & _). eapply on_output_wp; [done|].
    wp_use (back_up_ok i 0); [done|pose proof (zlen_nonneg (block i)); lia|].
    intros _ i' [Hi' _]. apply wp_bind, wp_modS, wp_ret. split; [done|]. split; [done|].
    split; [simpl; congruence|]. split; [intros Hi0; by destruct Hinf|].
    exists i'. split_and!; [done|done|]. simpl. congruence.
  - destruct Hd as (H32 & He1 & Hal & i & b & Ei & Hi & Eb & Hsz & Hb & Hbs & Hfull & Hg).
    eapply on_output_wp; [done|]. wp_use (back_up_ok i size); [done|lia|].
    intros _ i' [Hi' Ha]. apply wp_bind, wp_modS, wp_ret. split; [done|]. split; [done|].
    assert (alive i' = true -> good s /\ flushed i' ++ block i' = out s ptr /\
      ZeroCopyOutput.ByteCount i' = count s ptr) as Hfin.
    { intros Hal'. destruct (Ha Hal') as (Hai & -> & ->). by apply Hg. }
    split; [|split; [by simpl|exists i'; by split_and!]].
    intros _. split; [|split; [by simpl|]].
    + split; [done|]. split; [simpl; unfold kSlopBytes; lia|]. exists i'. split_and!; [done|done|].
      simpl. rewrite He1. pose proof (zlen_nonneg (block i')). unfold kSlopBytes. lia.
    + intros (_ & j & Ej & Hal'). simpl in Ej. injection Ej as <-. destruct (Hfin Hal') as (Hgs & Ho & Hc).
      split; [done|]. split.
      * rewrite app_nil_r, <- Ho. unfold out; simpl.
        by rewrite Z.sub_0_r, (ztake_all _ (block i')), (ztake_0 0), app_nil_r by (done || lia).
      * rewrite <- Hc. unfold count, Eps.ByteCount, zlen; simpl. lia.
Qed.

(** ** Writes *)

Lemma GetSize_wp s ptr :
  Inv s ptr -> wp (GetSize ptr) s (fun n s' => s' = s /\ n = end_ s + kSlopBytes - ptr).
Proof.
  intros (_ & Hp & _). apply wp_bind, wp_gets, wp_bind, wp_dcheck; [apply Z.leb_le; lia|].
  by apply wp_ret.
Qed.

(** [s'] and [ptr'] are [s] and [ptr] after [bytes]. *)
Definition writes (bytes : list byte) s ptr (ptr' : Z) s' : Prop :=
  wrote bytes s ptr s' ptr' /\ aliasing_enabled_ s' = aliasing_enabled_ s.

Lemma writes_trans b1 b2 s1 p1 s2 p2 s3 p3 :
  writes b1 s1 p1 p2 s2 -> writes b2 s2 p2 p3 s3 -> writes (b1 ++ b2) s1 p1 p3 s3.
Proof. intros [Hw1 ?] [Hw2 ?]. split; [by eapply wrote_trans|congruence]. Qed.

Lemma put_writes bytes s ptr :
  Inv s ptr -> ptr + zlen bytes <= end_ s + kSlopBytes ->
  wp (put bytes ptr) s (fun ptr' s' =>
    writes bytes s ptr ptr' s' /\ ptr' = ptr + zlen bytes /\ end_ s' = end_ s).
Proof. intros. wp_use put_wp; [done|done|]. intros p s' (-> & ? & ? & ?). by split_and!. Qed.

Lemma EnsureSpace_writes s ptr :
  Inv s ptr -> wp (EnsureSpace ptr) s (fun ptr' s' => writes [] s ptr ptr' s' /\ ptr' < end_ s').
Proof. intros. wp_use EnsureSpace_wp; [done|]. intros p s' (? & ? & ?). by split_and!. Qed.

(** From a pointer in front of [end_] every round copies at least seventeen
    bytes. *)
Lemma WriteRawFallback_ahead n data s ptr :
  Inv s ptr -> ptr < end_ s -> (length data <= n)%nat ->
  wp (WriteRawFallback_loop n data ptr) s (writes data s ptr).
Proof.
  revert data s ptr. induction n as [|n IH]; intros data s ptr HI Hlt Hn; cbn [WriteRawFallback_loop];
    apply wp_bind; (wp_use GetSize_wp; [done|]); intros size s0 [-> ->];
    (destruct (Z.ltb_spec (end_ s + kSlopBytes - ptr) (zlen data));
      [|wp_use put_writes; [done|lia|]; by intros p s' [? _]]).
  - unfold zlen, kSlopBytes in *. lia.
  - unfold kSlopBytes in *. set (k := end_ s + 16 - ptr) in *.
    apply wp_bind. wp_use (put_writes (ztake k data)); [done|unfold kSlopBytes; zl|].
    intros p1 s1 (Hw1 & Ep & Ee). pose proof Hw1 as [[HI1 _] Hal1].
    apply wp_bind. wp_use EnsureSpaceFallback_wp; [done|rewrite Ep; zl|].
    intros p2 s2 (Hw2 & Hlt2 & Hal2). pose proof Hw2 as [HI2 _].
    wp_use (IH (zdrop k data) s2 p2); [done|done| |].
    { unfold zdrop, zlen in *. rewrite length_drop. lia. }
    intros p3 s3 Hw3. rewrite <- (ztake_zdrop k data).
    eapply writes_trans; [done|]. eapply (writes_trans []); [|done]. by split.
Qed.

Lemma WriteRaw_wp data s ptr : Inv s ptr -> wp (WriteRaw data ptr) s (writes data s ptr).
Proof.
  intros HI. apply wp_bind, wp_gets. destruct (Z.ltb_spec (end_ s - ptr) (zlen data)).
  2:{ wp_use put_writes; [done|unfold kSlopBytes; lia|]. by intros p s' [? _]. }
  unfold WriteRawFallback. cbn [WriteRawFallback_loop]. apply wp_bind.
  wp_use GetSize_wp; [done|]. intros size s0 [-> ->]. pose proof HI as (_ & Hp & _).
  destruct (Z.ltb_spec (end_ s + kSlopBytes - ptr) (zlen data)).
  2:{ wp_use put_writes; [done|lia|]. by intros p s' [? _]. }
  unfold kSlopBytes in *. set (k := end_ s + 16 - ptr) in *.
  apply wp_bind. wp_use (put_writes (ztake k data)); [done|unfold kSlopBytes; zl|].
  intros p1 s1 (Hw1 & Ep & Ee). pose proof Hw1 as [[HI1 _] Hal1].
  apply wp_bind. wp_use EnsureSpaceFallback_wp; [done|rewrite Ep; zl|].
  intros p2 s2 (Hw2 & Hlt2 & Hal2). pose proof Hw2 as [HI2 _].
  wp_use (WriteRawFallback_ahead (length data) (zdrop k data)); [done|done| |].
  { unfold zdrop. rewrite length_drop. lia. }
  intros p3 s3 Hw3. rewrite <- (ztake_zdrop k data).
  eapply writes_trans; [done|]. eapply (writes_trans []); [|done]. by split.
Qed.

(** *** Fields *)

(** A write of at most sixteen bytes after [EnsureSpace]. *)
Lemma ensure_put bytes s ptr :
  Inv s ptr -> zlen bytes <= kSlopBytes ->
  wp (let* p := EnsureSpace ptr in put bytes p) s (writes bytes s ptr).
Proof.
  intros HI Hz. apply wp_bind. wp_use EnsureSpace_writes; [done|]. intros p s1 [Hw Hlt].
  pose proof Hw as [[HI1 _] _]. wp_use put_writes; [done|lia|]. intros p2 s2 [Hw2 _].
  by eapply (writes_trans []).
Qed.

Definition tag_bytes (num wt : Z) : list byte := UnsafeVarint (u32 (Z.lor (u32 (Z.shiftl num 3)) wt)).

Lemma zlen_varint32_le v : is_u32 v -> 1 <= zlen (UnsafeVarint v) <= 5.
Proof.
  intros Hv. pose proof (length_UnsafeVarint_size32 false v Hv) as E.
  pose proof (VarintSize32_bounds false v Hv). unfold zlen. lia.
Qed.

Lemma zlen_varint64_le v : is_u64 v -> 1 <= zlen (UnsafeVarint v) <= 10.
Proof.
  intros Hv. pose proof (length_UnsafeVarint_size64 false v Hv) as E.
  pose proof (VarintSize64_bounds false v Hv). unfold zlen. lia.
Qed.

Lemma WriteLengthDelim_wp num size s ptr :
  Inv s ptr -> ptr < end_ s -> is_u32 size ->
  wp (WriteLengthDelim num size ptr) s
    (writes (tag_bytes (u32 num) 2 ++ UnsafeVarint size) s ptr).
Proof.
  intros HI Hlt Hsz. unfold WriteLengthDelim, WriteTag.
  pose proof (zlen_varint32_le (u32 (Z.lor (u32 (Z.shiftl (u32 num) 3)) 2)) (u32_range _)) as Ht.
  fold (tag_bytes (u32 num) 2) in *. pose proof (zlen_varint32_le size Hsz).
  apply wp_bind, wp_bind, wp_gets, wp_bind, wp_dcheck; [by apply Z.ltb_lt|].
  wp_use (put_writes (tag_bytes (u32 num) 2)); [done|unfold kSlopBytes; lia|].
  intros p s1 (Hw & -> & He). pose proof Hw as [[HI1 _] _]. rewrite UnsafeWriteSize_eq by done.
  wp_use put_writes; [done|rewrite He; unfold kSlopBytes; lia|]. intros p2 s2 [Hw2 _].
  by eapply writes_trans.
Qed.

Definition string_bytes (num : Z) (str : list byte) : list byte :=
  tag_bytes num 2 ++ UnsafeVarint (zlen str) ++ str.

Lemma u32_s32 x : u32 (s32 x) = u32 x.
Proof. unfold u32, s32. Z.div_mod_to_equations; lia. Qed.

Lemma outline_wp (raw : list byte -> Z -> M eps Z) num str s ptr :
  Inv s ptr -> is_u32 num -> zlen str <= INT_MAX ->
  (forall s1 p, Inv s1 p -> aliasing_enabled_ s1 = aliasing_enabled_ s ->
     wp (raw str p) s1 (writes str s1 p)) ->
  wp (let* p := EnsureSpace ptr in
      let* p := WriteLengthDelim (s32 num) (u32 (zlen str)) p in raw str p) s
    (writes (string_bytes num str) s ptr).
Proof.
  intros HI Hn Hl Hraw. pose proof (zlen_nonneg str).
  rewrite (u32_id (zlen str)) by (unfold INT_MAX in *; ilia).
  apply wp_bind. wp_use EnsureSpace_writes; [done|]. intros p s1 [Hw Hlt].
  pose proof Hw as [[HI1 _] Ha1]. apply wp_bind.
  wp_use WriteLengthDelim_wp; [done|done|unfold INT_MAX in *; ilia|]. intros p2 s2 Hw2.
  pose proof Hw2 as [[HI2 _] Ha2]. wp_use Hraw; [done|congruence|]. intros p3 s3 Hw3.
  unfold string_bytes. rewrite u32_s32, (u32_id num) in Hw2 by done. rewrite app_assoc.
  eapply writes_trans; [|done]. by eapply (writes_trans []).
Qed.

(** The inline path of [WriteString] has room for the header and the string. *)
Lemma zlen_tag_bytes num : zlen (tag_bytes num 2) <= TagSize (u32 (Z.shiftl num 3)).
Proof.
  unfold tag_bytes. set (x := u32 (Z.shiftl num 3)). pose proof (u32_range (Z.shiftl num 3)) as Hx.
  fold x in Hx. assert (x mod 8 = 0) as Hm.
  { unfold x, u32. rewrite Z.shiftl_mul_pow2 by lia. change (2 ^ 3) with 8. change (2 ^ 32) with (8 * 536870912).
    rewrite Z.mul_comm, Z.mul_mod_distr_l, Z.mul_comm by lia. by apply Z.mod_mul. }
  assert (Z.lor x 2 = x + 2) as E.
  { replace x with (8 * (x / 8)) by (Z.div_mod_to_equations; lia). by apply lor_8. }
  rewrite E. assert (x <= 2 ^ 32 - 8) by (unfold is_u32 in Hx; Z.div_mod_to_equations; lia).
  rewrite u32_id by (unfold is_u32 in *; lia).
  assert (is_u64 (x + 2)) as Hu by ilia. unfold TagSize.
  assert (Hk : forall k, (0 < k)%nat -> x < 2 ^ (7 * Z.of_nat k) -> 8 * 2 ^ (7 * Z.of_nat k - 3) = 2 ^ (7 * Z.of_nat k) ->
    zlen (UnsafeVarint (x + 2)) <= Z.of_nat k).
  { intros k Hk Hlt Hp. apply UnsafeVarint_short; [done| |done].
    rewrite <- Hp in *. Z.div_mod_to_equations; lia. }
  repeat match goal with |- context [if ?a <? ?b then _ else _] => destruct (Z.ltb_spec a b) end.
  - by apply (Hk 1%nat); [lia|..].
  - by apply (Hk 2%nat); [lia|..].
  - by apply (Hk 3%nat); [lia|..].
  - by apply (Hk 4%nat); [lia|..].
  - by apply (zlen_varint32_le (x + 2)); unfold is_u32 in *; lia.
Qed.

Lemma WriteString__wp outline num str s ptr :
  Inv s ptr -> is_u32 num -> zlen str <= INT_MAX ->
  wp (outline num str ptr) s (writes (string_bytes num str) s ptr) ->
  wp (WriteString_ outline num str ptr) s (writes (string_bytes num str) s ptr).
Proof.
  intros HI Hn Hl Hout. unfold WriteString_. apply wp_bind, wp_gets.
  destruct (Z.leb_spec 128 (zlen str)); [done|].
  destruct (Z.ltb_spec (end_ s - ptr + 16 - TagSize (u32 (Z.shiftl num 3)) - 1) (zlen str)); [done|].
  simpl. pose proof (zlen_tag_bytes num). pose proof (zlen_nonneg str).
  fold (tag_bytes num 2). apply wp_bind.
  wp_use (put_writes (tag_bytes num 2)); [done|unfold kSlopBytes; lia|].
  intros p1 s1 (Hw1 & Ep1 & Ee1). pose proof Hw1 as [[HI1 _] _]. apply wp_bind.
  wp_use (put_writes [z2b (zlen str)]); [done|unfold kSlopBytes; rewrite zlen_cons, zlen_nil; lia|].
  intros p2 s2 (Hw2 & Ep2 & Ee2). pose proof Hw2 as [[HI2 _] _].
  wp_use put_writes; [done|unfold kSlopBytes; rewrite zlen_cons, zlen_nil in Ep2; lia|].
  intros p3 s3 (Hw3 & _). unfold string_bytes.
  assert (UnsafeVarint (zlen str) = [z2b (zlen str)]) as ->.
  { rewrite UnsafeVarint_unfold by (unfold INT_MAX in *; ilia). by rewrite (proj2 (Z.leb_gt 128 _)) by lia. }
  eapply writes_trans; [done|]. by eapply writes_trans.
Qed.

Lemma WriteString_wp num str s ptr :
  Inv s ptr -> is_u32 num -> zlen str <= INT_MAX ->
  wp (WriteString num str ptr) s (writes (string_bytes num str) s ptr).
Proof.
  intros. apply WriteString__wp; try done. apply outline_wp; try done.
  intros. by apply WriteRaw_wp.
Qed.

Definition packed_bytes (num size : Z) (body : list byte) : list byte :=
  tag_bytes (u32 num) 2 ++ UnsafeVarint size ++ body.

Lemma WriteVarintPacked_loop_wp encode r s ptr :
  Inv s ptr -> r <> [] -> (forall x, is_u64 (encode x)) ->
  wp (WriteVarintPacked_loop encode r ptr) s
    (writes (concat (map (fun x => UnsafeVarint (encode x)) r)) s ptr).
Proof.
  intros HI Hr He. revert s ptr HI. induction r as [|x r IH]; intros s ptr HI; [done|].
  cbn [WriteVarintPacked_loop map concat]. apply wp_bind.
  wp_use EnsureSpace_writes; [done|]. intros p s1 [Hw Hlt]. pose proof Hw as [[HI1 _] _].
  pose proof (zlen_varint64_le (encode x) (He x)). apply wp_bind.
  wp_use put_writes; [done|unfold kSlopBytes; lia|]. intros p2 s2 [Hw2 _].
  pose proof (writes_trans _ _ _ _ _ _ _ _ Hw Hw2) as Hw'. pose proof Hw2 as [[HI2 _] _].
  destruct r as [|y r]; [apply wp_ret; by rewrite app_nil_r|].
  wp_use IH; [done|done|]. intros p3 s3 Hw3. by eapply writes_trans.
Qed.

Lemma WriteVarintPacked_wp encode num r size s ptr :
  Inv s ptr -> r <> [] -> (forall x, is_u64 (encode x)) -> is_u32 size ->
  wp (WriteVarintPacked encode num r size ptr) s
    (writes (packed_bytes num size (concat (map (fun x => UnsafeVarint (encode x)) r))) s ptr).
Proof.
  intros HI Hr He Hs. unfold WriteVarintPacked. rewrite (u32_id size) by done.
  apply wp_bind. wp_use EnsureSpace_writes; [done|]. intros p s1 [Hw Hlt].
  pose proof Hw as [[HI1 _] _]. apply wp_bind. wp_use WriteLengthDelim_wp; [done|done|done|].
  intros p2 s2 Hw2. pose proof Hw2 as [[HI2 _] _].
  wp_use WriteVarintPacked_loop_wp; [done|done|done|]. intros p3 s3 Hw3.
  unfold packed_bytes. rewrite app_assoc. eapply writes_trans; [|done]. by eapply (writes_trans []).
Qed.

Lemma WriteFixedPacked_wp num r s ptr :
  Inv s ptr -> zlen r <= INT_MAX ->
  wp (WriteFixedPacked num r ptr) s (writes (packed_bytes num (zlen r) r) s ptr).
Proof.
  intros HI Hr. pose proof (zlen_nonneg r). unfold WriteFixedPacked.
  rewrite (u32_id (zlen r)) by (unfold INT_MAX in *; ilia).
  apply wp_bind. wp_use EnsureSpace_writes; [done|]. intros p s1 [Hw Hlt].
  pose proof Hw as [[HI1 _] _]. apply wp_bind.
  wp_use WriteLengthDelim_wp; [done|done|unfold INT_MAX in *; ilia|]. intros p2 s2 Hw2.
  pose proof Hw2 as [[HI2 _] _]. wp_use WriteRaw_wp; [done|]. intros p3 s3 Hw3.
  unfold packed_bytes. rewrite app_assoc. eapply writes_trans; [|done]. by eapply (writes_trans []).
Qed.
End eps.
