(* ===== verification/CodedOutputSpec.v ===== *)
(** * CodedOutputStream over any stream

    A script of writes through a [CodedOutputStream], and what is in the
    underlying stream when it is destroyed. *)

From S2P Require Import Prelude Varint ZeroCopyOutput EpsCopyOutput EpsCopyOutputSpec.

(** ** Scripts *)

Inductive packed := PInt32 | PUInt32 | PSInt32 | PInt64 | PUInt64 | PSInt64 | PEnum.

(** The public writers, the field writers that serialization calls on the
    underlying [EpsCopyOutputStream], and [HadError]. *)
Inductive wop :=
  | WVarint32 (v : Z) | WVarint64 (v : Z) | WVarint32SignExtended (v : Z) | WTag (v : Z)
  | WLittleEndian16 (v : Z) | WLittleEndian32 (v : Z) | WLittleEndian64 (v : Z)
  | WRaw (data : list byte) | WString (num : Z) (str : list byte)
  | WPacked (kind : packed) (num : Z) (r : list Z) (size : Z)
  | WFixedPacked (num : Z) (r : list byte)
  | WHadError.

Definition encode (t : packed) : Z -> Z :=
  match t with
  | PUInt32 => EpsCopyOutputStream.Encode32 | PSInt32 => ZigZagEncode32 | PSInt64 => ZigZagEncode64
  | _ => EpsCopyOutputStream.Encode64
  end.

(** The encoding of each write, on its own. *)
Definition bytes_of (o : wop) : list byte :=
  match o with
  | WVarint32 v | WTag v => WriteVarint32ToArray v
  | WVarint64 v => WriteVarint64ToArray v
  | WVarint32SignExtended v => WriteVarint64ToArray (u64 v)
  | WLittleEndian16 v => [z2b v; z2b (Z.shiftr v 8)]
  | WLittleEndian32 v => WriteLittleEndian32ToArray v
  | WLittleEndian64 v => WriteLittleEndian64ToArray v
  | WRaw data => data
  | WString num str => string_bytes num str
  | WPacked t num r size =>
      packed_bytes num size (concat (map (fun x => UnsafeVarint (encode t x)) r))
  | WFixedPacked num r => packed_bytes num (zlen r) r
  | WHadError => []
  end.

(** The types of the arguments; a packed field has an element. *)
Definition wop_ok (o : wop) : bool :=
  match o with
  | WVarint32 v | WTag v => (0 <=? v) && (v <? 2 ^ 32)
  | WVarint64 v => (0 <=? v) && (v <? 2 ^ 64)
  | WString num str => (0 <=? num) && (num <? 2 ^ 32) && (zlen str <=? INT_MAX)
  | WPacked t _ r size =>
      negb (zlen r =? 0) && (0 <=? size) && (size <? 2 ^ 32)
  | WFixedPacked _ r => zlen r <=? INT_MAX
  | _ => true
  end.

Section session.
Context {S : Type} `{ZeroCopyOutputStream S}.
Notation OM := (M (CodedOutputStream.t S)).

Definition run_wop (o : wop) : OM unit :=
  match o with
  | WVarint32 v => CodedOutputStream.WriteVarint32 v
  | WVarint64 v => CodedOutputStream.WriteVarint64 v
  | WVarint32SignExtended v => CodedOutputStream.WriteVarint32SignExtended v
  | WTag v => CodedOutputStream.WriteTag v
  | WLittleEndian16 v => CodedOutputStream.WriteLittleEndian16 v
  | WLittleEndian32 v => CodedOutputStream.WriteLittleEndian32 v
  | WLittleEndian64 v => CodedOutputStream.WriteLittleEndian64 v
  | WRaw data => CodedOutputStream.WriteRaw data
  | WString num str => CodedOutputStream.on_impl (EpsCopyOutputStream.WriteString num str)
  | WPacked t num r size =>
      CodedOutputStream.on_impl
        (match t with
         | PInt32 => EpsCopyOutputStream.WriteInt32Packed
         | PUInt32 => EpsCopyOutputStream.WriteUInt32Packed
         | PSInt32 => EpsCopyOutputStream.WriteSInt32Packed
         | PInt64 => EpsCopyOutputStream.WriteInt64Packed
         | PUInt64 => EpsCopyOutputStream.WriteUInt64Packed
         | PSInt64 => EpsCopyOutputStream.WriteSInt64Packed
         | PEnum => EpsCopyOutputStream.WriteEnumPacked
         end num r size)
  | WFixedPacked num r => CodedOutputStream.on_impl (EpsCopyOutputStream.WriteFixedPacked num r)
  | WHadError => CodedOutputStream.HadError ;;; ret tt
  end.

Fixpoint run_wops (l : list wop) : OM unit :=
  match l with [] => ret tt | o :: l => run_wop o ;;; run_wops l end.

(** Construction, the script, destruction: whether there was an error, and the
    stream. *)
Definition write_session (l : list wop) (stream : S) (eager deterministic : bool)
    (uninit : list byte) : option (bool * option S) :=
  s ← CodedOutputStream.make stream eager deterministic uninit;
  '(_, s) ← run_wops l s;
  '(_, s) ← CodedOutputStream.destroy s;
  Some (EpsCopyOutputStream.had_error_ (CodedOutputStream.impl_ s),
        EpsCopyOutputStream.stream_ (CodedOutputStream.impl_ s)).
End session.

(** ** What a script writes *)

Section spec.
Import CodedOutputStream.
Context {S : Type} `{ZeroCopyOutputStreamOk S}.
Notation cos := (CodedOutputStream.t S).
Implicit Type s : cos.

Definition CInv s : Prop := Inv (impl_ s) (cur_ s).
(** [bytes] were written between [s] and [s']. *)
Definition appends (bytes : list byte) s s' : Prop :=
  wrote bytes (impl_ s) (cur_ s) (impl_ s') (cur_ s') /\ start_count_ s' = start_count_ s.

Lemma appends_nil s : CInv s -> appends [] s s.
Proof. intros. split; [by apply wrote_nil|done]. Qed.
Lemma appends_trans b1 b2 s1 s2 s3 :
  appends b1 s1 s2 -> appends b2 s2 s3 -> appends (b1 ++ b2) s1 s3.
Proof. intros [Ha ?] [Hb ?]. split; [by eapply wrote_trans|congruence]. Qed.

Lemma on_impl_wp f bytes s :
  wp (f (cur_ s)) (impl_ s) (writes bytes (impl_ s) (cur_ s)) ->
  wp (on_impl f) s (fun _ s' => appends bytes s s').
Proof.
  unfold wp, on_impl. destruct (f _ _) as [[p i]|]; [|done]. intros [Hw _]. by split.
Qed.

Lemma write_wp bytes s :
  CInv s -> zlen bytes <= kSlopBytes -> wp (write bytes) s (fun _ s' => appends bytes s s').
Proof.
  intros HI Hz. apply wp_bind. unfold wp at 1, on_impl.
  destruct (wp_inv _ _ _ (EnsureSpace_writes _ _ HI)) as (p & i & -> & Hw & Hlt).
  pose proof Hw as [[HI1 _] _].
  wp_use (on_impl_wp (EpsCopyOutputStream.put bytes) bytes (mk i p (start_count_ s))).
  { wp_use put_writes; [done|simpl; lia|]. by intros p2 s2 [? _]. }
  intros _ s' [Hw' Hst]. split; [|done]. simpl in Hw'. destruct Hw as [Hw _].
  apply (wrote_trans [] _ _ _ _ _ _ _ Hw Hw').
Qed.

Lemma lxor_range w a b : 0 <= w -> 0 <= a < 2 ^ w -> 0 <= b < 2 ^ w -> 0 <= Z.lxor a b < 2 ^ w.
Proof.
  intros Hw Ha Hb. assert (0 <= Z.lxor a b) as Hn by (apply Z.lxor_nonneg; lia). split; [done|].
  destruct (decide (Z.lxor a b = 0)) as [->|]; [by apply Z.pow_pos_nonneg|].
  apply Z.log2_lt_pow2; [lia|]. pose proof (Z.log2_lxor a b ltac:(lia) ltac:(lia)).
  assert (forall x, 0 <= x < 2 ^ w -> Z.log2 x < w \/ x = 0) as Hl.
  { intros x Hx. destruct (decide (x = 0)) as [->|]; [by right|]. left. apply Z.log2_lt_pow2; lia. }
  destruct (Hl a Ha) as [|Ea], (Hl b Hb) as [|Eb]; try lia; subst.
  - rewrite Z.lxor_0_r in *. lia.
  - rewrite Z.lxor_0_l in *. lia.
  - by rewrite Z.lxor_0_l in *.
Qed.

Lemma encode_u64 t x : is_u64 (encode t x).
Proof.
  destruct t; simpl; try apply u64_range; try apply u32_is_u64, u32_range.
  - apply u32_is_u64. apply lxor_range; [lia|apply u32_range..].
  - apply lxor_range; [lia|apply u64_range..].
Qed.

Lemma run_wop_wp o s :
  CInv s -> wop_ok o = true -> wp (run_wop o) s (fun _ s' => appends (bytes_of o) s s').
Proof.
  intros HI Hok. destruct o; simpl in *; rewrite ?andb_true_iff, ?Z.leb_le, ?Z.ltb_lt in Hok.
  - apply write_wp; [done|]. pose proof (zlen_varint32_le v). unfold is_u32, kSlopBytes in *.
    unfold WriteVarint32ToArray. lia.
  - apply write_wp; [done|]. pose proof (zlen_varint64_le v). unfold is_u64, kSlopBytes in *.
    unfold WriteVarint64ToArray. lia.
  - apply write_wp; [done|]. pose proof (zlen_varint64_le (u64 v) (u64_range v)).
    unfold kSlopBytes, WriteVarint64ToArray. lia.
  - apply write_wp; [done|]. pose proof (zlen_varint32_le v). unfold is_u32, kSlopBytes in *.
    unfold WriteVarint32ToArray. lia.
  - by apply write_wp.
  - by apply write_wp.
  - by apply write_wp.
  - apply on_impl_wp. by apply WriteRaw_wp.
  - apply on_impl_wp. apply WriteString_wp; [done|unfold is_u32; lia|lia].
  - apply on_impl_wp. destruct Hok as [[Hr ?] ?].
    assert (r <> []) as Hne by (intros ->; done).
    destruct kind; apply WriteVarintPacked_wp; try done; try (unfold is_u32; lia).
    + apply (encode_u64 PInt32). + apply (encode_u64 PUInt32). + apply (encode_u64 PSInt32).
    + apply (encode_u64 PInt64). + apply (encode_u64 PUInt64). + apply (encode_u64 PSInt64).
    + apply (encode_u64 PEnum).
  - apply on_impl_wp. by apply WriteFixedPacked_wp.
  - apply wp_bind, wp_bind. wp_use (on_impl_wp EpsCopyOutputStream.FlushAndResetBuffer []).
    + wp_use FlushAndResetBuffer_wp; [done|]. intros p i [? ?]. by split.
    + intros _ s' Hw. by apply wp_gets, wp_ret.
Qed.

Lemma run_wops_wp l s :
  CInv s -> forallb wop_ok l = true ->
  wp (run_wops l) s (fun _ s' => appends (concat (map bytes_of l)) s s').
Proof.
  revert s. induction l as [|o l IH]; intros s HI; simpl.
  { intros _. by apply wp_ret, appends_nil. }
  rewrite andb_true_iff. intros [Ho Hl]. apply wp_bind. wp_use run_wop_wp; [done|done|].
  intros _ s1 Hw1. pose proof Hw1 as [[HI1 _] _]. wp_use IH; [done|done|].
  intros _ s2 Hw2. by eapply appends_trans.
Qed.

Lemma make_spec stream eager deterministic uninit :
  ostream_ok stream -> zlen uninit = 32 ->
  exists s, make stream eager deterministic uninit = Some s /\ CInv s /\
    EpsCopyOutputStream.had_error_ (impl_ s) = false /\
    start_count_ s = ZeroCopyOutput.ByteCount stream /\
    (good (impl_ s) ->
       alive stream = true /\ out (impl_ s) (cur_ s) = flushed stream ++ block stream /\
       count (impl_ s) (cur_ s) = ZeroCopyOutput.ByteCount stream).
Proof.
  intros Hs Hu. set (s0 := mk (EpsCopyOutputStream.from_stream stream deterministic uninit) 0
                              (ZeroCopyOutput.ByteCount stream)).
  assert (forall i', ostream_ok i' ->
    (alive i' = true -> alive stream = true /\ flushed i' ++ block i' = flushed stream ++ block stream /\
       ZeroCopyOutput.ByteCount i' = ZeroCopyOutput.ByteCount stream) ->
    let s := mk (EpsCopyOutputStream.set_stream (Some i') (impl_ s0)) 0 (start_count_ s0) in
    CInv s /\ EpsCopyOutputStream.had_error_ (impl_ s) = false /\
    start_count_ s = ZeroCopyOutput.ByteCount stream /\
    (good (impl_ s) ->
       alive stream = true /\ out (impl_ s) (cur_ s) = flushed stream ++ block stream /\
       count (impl_ s) (cur_ s) = ZeroCopyOutput.ByteCount stream)) as Hfresh.
  { intros i' Hi' Ha s. split_and!; [|done|done|].
    - split; [done|]. split; [simpl; unfold kSlopBytes; lia|]. exists i'. split_and!; [done|done|].
      simpl. pose proof (zlen_nonneg (block i')). unfold kSlopBytes. lia.
    - intros (_ & j & Ej & Hal). simpl in Ej. injection Ej as <-.
      destruct (Ha Hal) as (? & <- & <-). split_and!; [done| |].
      + unfold out; simpl. by rewrite Z.sub_0_r, (ztake_all _ (block i')), (ztake_0 0), app_nil_r
          by (done || lia).
      + unfold count, EpsCopyOutputStream.ByteCount; simpl. lia. }
  unfold make. fold s0. destruct eager.
  2:{ exists s0. split; [done|]. by apply (Hfresh stream). }
  unfold InitEagerly. simpl.
  destruct (wp_inv _ _ _ (next_block_ok stream Hs)) as (r & i & -> & Hi & Hr). simpl.
  destruct r as [n|].
  2:{ eexists. split; [done|]. by apply Hfresh. }
  destruct Hr as (Hz & Hmax & _ & Ha). pose proof (zlen_nonneg (block i)).
  destruct (Z.ltb_spec 0 n).
  2:{ eexists. split; [done|]. apply Hfresh; [done|]. intros Hal. destruct (Ha Hal) as (? & -> & ->).
      rewrite (zlen_0 (block i)), app_nil_r by lia. split_and!; [done|done|lia]. }
  unfold EpsCopyOutputStream.SetInitialBuffer, kSlopBytes.
  destruct (Z.ltb_spec 16 n); simpl; (eexists; split; [done|]; split_and!; [|done|done|]).
  - split; [done|]. split; [simpl; unfold kSlopBytes; lia|]. exists i. split_and!; [done|done|].
    simpl. unfold kSlopBytes. lia.
  - intros (_ & j & Ej & Hal). simpl in Ej. injection Ej as <-. destruct (Ha Hal) as (? & Hf & Hb).
    split_and!; [done| |].
    + unfold out; simpl. rewrite (ztake_0 0), app_nil_r by done. done.
    + unfold count, EpsCopyOutputStream.ByteCount; simpl. unfold kSlopBytes. lia.
  - split; [done|]. split; [simpl; unfold kSlopBytes; lia|]. exists i. split_and!; [done|done|].
    simpl. unfold kSlopBytes. lia.
  - intros (_ & j & Ej & Hal). simpl in Ej. injection Ej as <-. destruct (Ha Hal) as (? & Hf & Hb).
    split_and!; [done| |].
    + unfold out; simpl. by rewrite (ztake_0 0), ztake_0, !app_nil_r by (done || lia).
    + unfold count, EpsCopyOutputStream.ByteCount; simpl. lia.
Qed.

Lemma destroy_coded_wp s :
  CInv s ->
  wp destroy s (fun _ s' => exists i,
    EpsCopyOutputStream.stream_ (impl_ s') = Some i /\ ostream_ok i /\
    (infallible (S := S) -> EpsCopyOutputStream.had_error_ (impl_ s) = false ->
     EpsCopyOutputStream.had_error_ (impl_ s') = false) /\
    (EpsCopyOutputStream.had_error_ (impl_ s') = false -> alive i = true ->
     good (impl_ s) /\ flushed i ++ block i = out (impl_ s) (cur_ s))).
Proof.
  intros HI. unfold wp, destroy, Trim, on_impl.
  destruct (EpsCopyOutputStream.had_error_ (impl_ s)) eqn:He.
  - unfold EpsCopyOutputStream.Trim, mbind_, gets. rewrite He. simpl.
    destruct HI as (_ & _ & i & Ei & Hi & _). exists i. rewrite He. by split_and!.
  - destruct (wp_inv _ _ _ (Trim_wp _ _ HI He)) as (p & e & -> & _ & _ & _ & Hinf & i & Ei & Hi & Hf).
    exists i. split_and!; [done|done|by auto|]. intros He' Ha. by destruct (Hf He' Ha) as (? & ? & _).
Qed.

(** What is left of a session over a stream. *)
Lemma write_session_spec l stream eager deterministic uninit :
  ostream_ok stream -> zlen uninit = 32 -> forallb wop_ok l = true ->
  exists err i,
    write_session l stream eager deterministic uninit = Some (err, Some i) /\ ostream_ok i /\
    (infallible (S := S) -> err = false) /\
    (err = false -> alive i = true ->
     alive stream = true /\
     flushed i ++ block i = flushed stream ++ block stream ++ concat (map bytes_of l)).
Proof.
  intros Hs Hu Hl.
  destruct (make_spec stream eager deterministic uninit Hs Hu) as (s & Em & HI & He & _ & Hg).
  destruct (wp_inv _ _ _ (run_wops_wp l s HI Hl)) as ([] & s1 & Er & Hw & _).
  pose proof Hw as (HI1 & Hinf1 & Hg1).
  destruct (wp_inv _ _ _ (destroy_coded_wp s1 HI1)) as ([] & s2 & Ed & i & Ei & Hi & Hinf & Hf).
  exists (EpsCopyOutputStream.had_error_ (impl_ s2)), i.
  unfold write_session. rewrite Em. simpl. rewrite Er. simpl. rewrite Ed. simpl. rewrite Ei.
  split_and!; [done|done|by auto|]. intros He2 Ha.
  destruct (Hf He2 Ha) as (Hgood & ->). destruct (Hg1 Hgood) as (Hgood0 & -> & _).
  destruct (Hg Hgood0) as (? & -> & _). by rewrite app_assoc.
Qed.
End spec.

(** ** Samples *)

Definition sample_script : list wop :=
  [WTag 8; WVarint32 300; WString 2 [Byte.x61; Byte.x62; Byte.x63]; WHadError;
   WPacked PSInt32 3 [-1; 2] 2; WRaw (replicate 40 Byte.x2a); WFixedPacked 4 [Byte.x01; Byte.x02];
   WVarint32SignExtended (-1); WLittleEndian32 7].

Definition sample_grow (c n : Z) : Z := Z.max n (2 * c).
Lemma sample_grow_ok c n : n <= sample_grow c n.
Proof. unfold sample_grow. lia. Qed.

(** A sink that keeps what is written, up to a hundred bytes. *)
Definition sample_sink : CopyingOutputStream (list byte) :=
  {| Write d := fun t => if zlen (t ++ d) <=? 100 then Some (true, t ++ d) else Some (false, t) |}.
#[program] Definition sample_sink_ok : @CopyingOutputStreamOk _ sample_sink :=
  {| sink_ok := fun _ => True; sink := fun t => t |}.
Next Obligation.
  intros t d _. unfold wp. change (@Write _ sample_sink d t) with
    (if zlen (t ++ d) <=? 100 then Some (true, t ++ d) else Some (false, t)).
  by destruct (zlen (t ++ d) <=? 100).
Qed.

Definition sample_array (n : nat) : ArrayOutputStream.t :=
  ArrayOutputStream.make (replicate n Byte.x00) (Z.of_nat n) 8.
Definition sample_patch : list byte := replicate 32 Byte.x00.

(** ** The properties *)

(** C3: Writing through a [CodedOutputStream] over any stream that keeps the
    stream contract, whatever the sizes of its buffers, with or without eager
    initialization: no store ever leaves the stream's buffer or the patch
    buffer, and when there was no error the stream holds what it held before
    followed by the encodings of the writes, nothing else, once the
    [CodedOutputStream] is destroyed. *)
Theorem coded_output_appends {S} `{ZeroCopyOutputStreamOk S} l stream eager deterministic uninit :
  ostream_ok stream -> zlen uninit = 32 -> forallb wop_ok l = true ->
  exists err i,
    write_session l stream eager deterministic uninit = Some (err, Some i) /\ ostream_ok i /\
    (err = false -> alive i = true ->
     flushed i ++ block i = flushed stream ++ block stream ++ concat (map bytes_of l)).
Proof.
  intros Hs Hu Hl.
  destruct (write_session_spec l stream eager deterministic uninit Hs Hu Hl)
    as (err & i & E & Hi & _ & Hf).
  exists err, i. split_and!; [done..|]. intros He Ha. by apply Hf.
Qed.

(** An array of eight-byte blocks with room for the sample, and one without. *)
Lemma coded_output_appends_witness :
  (exists err i,
     write_session sample_script (sample_array 100)
       true false sample_patch = Some (err, Some i) /\ ostream_ok i /\
     (err = false -> alive i = true ->
      flushed i ++ block i =
      flushed (sample_array 100) ++ block (sample_array 100) ++
      concat (map bytes_of sample_script))) /\
  fst <$> write_session sample_script (sample_array 100)
    true false sample_patch = Some false /\
  fst <$> write_session sample_script (sample_array 50)
    true false sample_patch = Some true.
Proof.
  split; [|split; vm_compute; reflexivity].
  apply (coded_output_appends sample_script
           (sample_array 100) true false sample_patch).
  - apply (ArrayOutputStream.array_output_make_wf (replicate 100 Byte.x00) 8). by vm_compute.
  - by vm_compute.
  - by vm_compute.
Defined.

(** C31: Writing to a string cannot fail: the string is the old one with the
    encodings appended, for any growth policy of the standard library's string
    that gives at least the capacity asked for. *)
Theorem string_output_exact l target capacity grow junk eager deterministic uninit :
  zlen target <= capacity -> (forall c n, n <= grow c n) -> zlen uninit = 32 ->
  forallb wop_ok l = true ->
  exists i,
    write_session l (StringOutputStream.make target capacity grow junk) eager deterministic uninit
      = Some (false, Some i) /\
    StringOutputStream.target_ i = target ++ concat (map bytes_of l).
Proof.
  intros Hc Hg Hu Hl. set (stream := StringOutputStream.make target capacity grow junk).
  assert (ostream_ok stream) as Hs by (by apply StringOutputStream.string_output_make_wf).
  destruct (write_session_spec l stream eager deterministic uninit Hs Hu Hl)
    as (err & i & E & Hi & Hinf & Hf).
  assert (err = false) as ->.
  { apply Hinf. intros j _. unfold wp; simpl.
    by unfold StringOutputStream.Next, mbind_, getS, modS, mret_. }
  exists i. split; [done|]. destruct (Hf eq_refl eq_refl) as [_ Hw].
  change (flushed i ++ block i) with (ztake (StringOutputStream.given_ i) (StringOutputStream.target_ i)
    ++ zdrop (StringOutputStream.given_ i) (StringOutputStream.target_ i)) in Hw.
  rewrite ztake_zdrop in Hw. rewrite Hw, app_assoc. f_equal.
  change (ztake (zlen target) target ++ zdrop (zlen target) target = target). apply ztake_zdrop.
Qed.

Lemma string_output_exact_witness :
  exists i,
    write_session sample_script
      (StringOutputStream.make [Byte.x41] 15 sample_grow (fun _ => Byte.x00)) false true sample_patch
      = Some (false, Some i) /\
    StringOutputStream.target_ i = [Byte.x41] ++ concat (map bytes_of sample_script).
Proof.
  apply string_output_exact; [by vm_compute|apply sample_grow_ok|by vm_compute|by vm_compute].
Defined.

(** C30: Writing through a [CopyingOutputStreamAdaptor]: once the coded stream
    and then the adaptor are destroyed, and neither has seen an error, the sink
    has received exactly the encodings, in blocks of any size. *)
Theorem copying_output_exact {T} `{CopyingOutputStreamOk T} l (c : T) block_size junk
    eager deterministic uninit :
  sink_ok c -> block_size <= INT_MAX -> zlen uninit = 32 -> forallb wop_ok l = true ->
  exists err i i',
    write_session l (CopyingOutputStreamAdaptor.make c block_size junk) eager deterministic uninit
      = Some (err, Some i) /\
    CopyingOutputStreamAdaptor.destroy i = Some (tt, i') /\
    (err = false -> CopyingOutputStreamAdaptor.failed_ i' = false ->
     sink (CopyingOutputStreamAdaptor.copying_stream_ i') = sink c ++ concat (map bytes_of l)).
Proof.
  intros Hc Hb Hu Hl. set (stream := CopyingOutputStreamAdaptor.make c block_size junk).
  assert (ostream_ok stream) as Hs
    by (by apply CopyingOutputStreamAdaptor.copying_output_make_wf).
  destruct (write_session_spec l stream eager deterministic uninit Hs Hu Hl)
    as (err & i & E & Hi & _ & Hf).
  destruct (wp_inv _ _ _ (CopyingOutputStreamAdaptor.WriteBuffer_wp i Hi))
    as (ok & i' & Ew & Hi' & _ & Hk & Ht & Hbad).
  exists err, i, i'. split; [done|]. split.
  { unfold CopyingOutputStreamAdaptor.destroy, mbind_. by rewrite Ew. }
  intros He Hal. assert (CopyingOutputStreamAdaptor.alive i' = true) as Ha
    by (unfold CopyingOutputStreamAdaptor.alive; by rewrite Hal).
  destruct ok; [|by rewrite Hbad in Ha]. destruct (Ht eq_refl) as [Hu0 _].
  destruct (Hk Ha) as (Ha0 & Hw & _). destruct (Hf He Ha0) as [_ Hfin].
  assert (CopyingOutputStreamAdaptor.written i = sink c ++ concat (map bytes_of l)) as Hwi.
  { rewrite <- CopyingOutputStreamAdaptor.flushed_block by done.
    etrans; [exact Hfin|]. rewrite app_assoc. f_equal. simpl.
    unfold CopyingOutputStreamAdaptor.flushed, CopyingOutputStreamAdaptor.block; simpl.
    by rewrite !app_nil_r. }
  rewrite <- Hwi, <- Hw. unfold CopyingOutputStreamAdaptor.written.
  rewrite Hu0, (ztake_0 0), app_nil_r by done. done.
Qed.

Lemma copying_output_exact_witness :
  exists err i i',
    @write_session _ (@CopyingOutputStreamAdaptor.stream _ sample_sink) sample_script
      (CopyingOutputStreamAdaptor.make [Byte.x41] 12 (fun _ => Byte.x00)) true false sample_patch
      = Some (err, Some i) /\
    @CopyingOutputStreamAdaptor.destroy _ sample_sink i = Some (tt, i') /\
    (err = false -> CopyingOutputStreamAdaptor.failed_ i' = false ->
     CopyingOutputStreamAdaptor.copying_stream_ i' = [Byte.x41] ++ concat (map bytes_of sample_script)).
Proof.
  apply (@copying_output_exact _ sample_sink sample_sink_ok sample_script [Byte.x41] 12);
    [done|by vm_compute..].
Defined.

(** [ByteCount] counts the bytes written so far, in whichever buffer they
    are, as a 32-bit integer. *)
Theorem coded_output_byte_count {S} `{ZeroCopyOutputStreamOk S} l stream eager deterministic uninit :
  ostream_ok stream -> zlen uninit = 32 -> forallb wop_ok l = true ->
  exists s s',
    CodedOutputStream.make stream eager deterministic uninit = Some s /\
    run_wops l s = Some (tt, s') /\
    (good (CodedOutputStream.impl_ s') ->
     CodedOutputStream.ByteCount s' = Some (s32 (zlen (concat (map bytes_of l))))).
Proof.
  intros Hs Hu Hl.
  destruct (make_spec stream eager deterministic uninit Hs Hu) as (s & Em & HI & _ & Hst & Hg).
  destruct (wp_inv _ _ _ (run_wops_wp l s HI Hl)) as ([] & s' & Er & Hw & Hst').
  exists s, s'. split_and!; [done|done|]. intros Hgood. destruct Hw as (HI' & _ & Hg').
  destruct (Hg' Hgood) as (Hgood0 & _ & Hc'). destruct (Hg Hgood0) as (_ & _ & Hc).
  unfold CodedOutputStream.ByteCount. destruct Hgood as [_ (i & Ei & _)].
  unfold count in Hc'. unfold EpsCopyOutputStream.ByteCount in *. rewrite Ei in *. simpl in *.
  rewrite Hst', Hst. do 2 f_equal. unfold count, EpsCopyOutputStream.ByteCount in Hc. lia.
Qed.

Lemma coded_output_byte_count_witness :
  exists s s',
    CodedOutputStream.make (sample_array 100)
      false false sample_patch = Some s /\
    run_wops sample_script s = Some (tt, s') /\
    (good (CodedOutputStream.impl_ s') ->
     CodedOutputStream.ByteCount s' = Some (s32 (zlen (concat (map bytes_of sample_script))))).
Proof.
  apply coded_output_byte_count.
  - apply (ArrayOutputStream.array_output_make_wf (replicate 100 Byte.x00) 8). by vm_compute.
  - by vm_compute.
  - by vm_compute.
Defined.

(** ** Errors that do not stay *)

(** [Next] of a [CopyingOutputStreamAdaptor] succeeds again after it failed:
    [FreeBuffer] leaves an empty buffer, and a buffer that is not full is handed
    out without a look at [failed_]. *)
Example adaptor_next_recovers :
  (let* a := @CopyingOutputStreamAdaptor.Next _ sample_sink in
   let* b := @CopyingOutputStreamAdaptor.Next _ sample_sink in
   let* c := @CopyingOutputStreamAdaptor.Next _ sample_sink in
   let* failed := gets CopyingOutputStreamAdaptor.failed_ in
   ret (a, b, c, failed))
    (CopyingOutputStreamAdaptor.make (replicate 100 Byte.x41) 12 (fun _ => Byte.x00))
  ≫= (fun r => Some (fst r)) = Some (Some 12, None, Some 12, true).
Proof. vm_compute. reflexivity. Qed.

(** [Trim] that sees the error only in its own [Flush] still resets [end_]; the
    next [EnsureSpace] returns a pointer that is not in front of [end_], and the
    [ABSL_DCHECK] of [WriteTag] stops a debug build. *)
Example trim_error_stops_tag :
  let script := (run_wop (WRaw (replicate 5 Byte.x2a)) ;;; run_wop (WVarint32 1) ;;;
                 run_wop (WRaw (replicate 18 Byte.x2a)) ;;; CodedOutputStream.Trim) in
  let stream := ArrayOutputStream.make (replicate 20 Byte.x00) 20 20 in
  (s ← CodedOutputStream.make stream true false sample_patch;
   '(_, s) ← script s; Some (Eps.had_error_ (CodedOutputStream.impl_ s),
                            Eps.end_ (CodedOutputStream.impl_ s))) = Some (true, 0) /\
  (s ← CodedOutputStream.make stream true false sample_patch;
   (script ;;; run_wop (WVarint32 1) ;;; run_wop (WString 1 [Byte.x61])) s) <> None /\
  (s ← CodedOutputStream.make stream true false sample_patch;
   (script ;;; run_wop (WPacked PInt32 1 [7] 1)) s) = None.
Proof. split; [vm_compute; reflexivity|]. split; vm_compute; done. Qed.
