(* ===== verification/ArrayOutputSpec.v ===== *)
(** * Serialization to an array

    [EpsCopyOutputStream] over an array of exactly the size of what is written,
    the way [SerializeToArray] uses it after computing the size: no write needs
    the patch buffer, none leaves the array. *)

From S2P Require Import Prelude Varint ZeroCopyOutput EpsCopyOutput EpsCopyOutputSpec CodedOutputSpec.

Section array.
Import EpsCopyOutputStream.
Context {S : Type} `{ZeroCopyOutputStream S}.
Variables (data uninit : list byte) (deterministic : bool).
Notation EM := (M (EpsCopyOutputStream.t S)).

(** The stream after [w] was written. *)
Definition array_at (w : list byte) : EpsCopyOutputStream.t S :=
  mk direct (zlen data) None uninit None (w ++ zdrop (zlen w) data) false false deterministic.

Lemma array_at_start : array_at [] = from_array data deterministic uninit.
Proof. unfold array_at, from_array. rewrite zdrop_0; done. Qed.

(** A write of [bytes] where there is room for them. *)
Definition stores (f : Z -> EM Z) (bytes : list byte) : Prop :=
  forall w, zlen w + zlen bytes <= zlen data ->
  f (zlen w) (array_at w) = Some (zlen (w ++ bytes), array_at (w ++ bytes)).

Lemma stores_then f g b1 b2 :
  stores f b1 -> stores g b2 -> stores (fun p => let* p := f p in g p) (b1 ++ b2).
Proof.
  intros Hf Hg w Hw. rewrite zlen_app in Hw. pose proof (zlen_nonneg b2).
  unfold mbind_. rewrite Hf by lia. rewrite Hg by (rewrite zlen_app; lia). by rewrite app_assoc.
Qed.

Lemma stores_put bytes : stores (put bytes) bytes.
Proof.
  intros w Hw. pose proof (zlen_nonneg w). pose proof (zlen_nonneg bytes).
  unfold put, store_memory, mbind_, gets, getS, modS, mret_, dcheck; simpl.
  unfold memory; simpl. rewrite inside_true by (done || zl). simpl. unfold set_memory; simpl.
  rewrite zlen_app. do 2 f_equal. unfold array_at. f_equal. unfold splice.
  rewrite ztake_app_exact by done. rewrite <- app_assoc. do 2 f_equal.
  rewrite zdrop_app, (zdrop_all _ w) by lia. simpl. rewrite zdrop_zdrop, zlen_app by lia. f_equal. lia.
Qed.

Lemma stores_ensure f bytes :
  0 < zlen bytes -> stores f bytes -> stores (fun p => let* p := EnsureSpace p in f p) bytes.
Proof.
  intros Hb Hf w Hw. unfold EnsureSpace, mbind_, gets, mret_; simpl.
  rewrite (proj2 (Z.leb_gt (zlen data) (zlen w))) by lia. by apply Hf.
Qed.

Lemma stores_raw bytes : stores (WriteRaw bytes) bytes.
Proof.
  intros w Hw. unfold WriteRaw, mbind_, gets; simpl.
  rewrite (proj2 (Z.ltb_ge _ _)) by lia. by apply stores_put.
Qed.

Lemma stores_length_delim num size :
  is_u32 size -> stores (WriteLengthDelim num size) (tag_bytes (u32 num) 2 ++ UnsafeVarint size).
Proof.
  intros Hs w Hw. unfold WriteLengthDelim.
  apply (stores_then (WriteTag (u32 num) 2) (put (UnsafeWriteSize size))); [|
    rewrite UnsafeWriteSize_eq by done; apply stores_put|done].
  clear w Hw. intros w Hw. unfold WriteTag, mbind_, gets, dcheck; simpl.
  fold (tag_bytes (u32 num) 2).
  pose proof (zlen_varint32_le (u32 (Z.lor (u32 (Z.shiftl (u32 num) 3)) 2)) (u32_range _)) as Ht.
  fold (tag_bytes (u32 num) 2) in Ht. rewrite (proj2 (Z.ltb_lt _ _)) by lia. simpl.
  by apply stores_put.
Qed.

Lemma tag_bytes_pos num : 0 < zlen (tag_bytes num 2).
Proof. pose proof (zlen_varint32_le (u32 (Z.lor (u32 (Z.shiftl num 3)) 2)) (u32_range _)) as Ht. unfold tag_bytes. lia. Qed.

(** A length-delimited field behind [EnsureSpace]. *)
Lemma stores_field num size f body :
  is_u32 size -> stores f body ->
  stores (fun p => let* p := EnsureSpace p in let* p := WriteLengthDelim num size p in f p)
    (packed_bytes num size body).
Proof.
  intros Hs Hf. unfold packed_bytes. pose proof (tag_bytes_pos (u32 num)).
  pose proof (zlen_nonneg (UnsafeVarint size ++ body)).
  apply (stores_ensure (fun p => let* p := WriteLengthDelim num size p in f p)); [rewrite zlen_app; lia|].
  rewrite app_assoc. apply stores_then; [by apply stores_length_delim|done].
Qed.

Lemma stores_string num str :
  is_u32 num -> zlen str <= INT_MAX -> stores (WriteString num str) (string_bytes num str).
Proof.
  intros Hn Hl w Hw. pose proof (zlen_nonneg str). unfold WriteString, WriteString_, mbind_ at 1, gets.
  destruct ((128 <=? zlen str) || _) eqn:E.
  - unfold WriteStringOutline. rewrite (u32_id (zlen str)) by (unfold INT_MAX in *; ilia).
    pose proof (stores_field (s32 num) (zlen str) (WriteRaw str) str) as Hf.
    unfold packed_bytes in Hf. rewrite u32_s32, (u32_id num) in Hf by done.
    apply Hf; [unfold INT_MAX in *; ilia|apply stores_raw|done].
  - apply orb_false_iff in E as [E _]. apply Z.leb_gt in E.
    assert (UnsafeVarint (zlen str) = [z2b (zlen str)]) as Ev.
    { rewrite UnsafeVarint_unfold by (unfold INT_MAX in *; ilia). by rewrite (proj2 (Z.leb_gt 128 _)) by lia. }
    unfold string_bytes in *. rewrite Ev in *.
    apply (stores_then (put (tag_bytes num 2)) (fun p => let* p := put [z2b (zlen str)] p in put str p));
      [apply stores_put|apply stores_then; apply stores_put|done].
Qed.

Lemma stores_packed_loop encode r :
  r <> [] -> (forall x, is_u64 (encode x)) ->
  stores (WriteVarintPacked_loop encode r) (concat (map (fun x => UnsafeVarint (encode x)) r)).
Proof.
  intros Hr He. induction r as [|x r IH]; [done|].
  pose proof (zlen_varint64_le (encode x) (He x)) as Hz.
  destruct r as [|y r]; cbn [WriteVarintPacked_loop map concat].
  - apply (stores_ensure (fun p => let* p := put (UnsafeVarint (encode x)) p in ret p));
      [rewrite app_nil_r; lia|].
    intros w Hw. rewrite app_nil_r in *. unfold mbind_. by rewrite stores_put by lia.
  - set (rest := concat _). pose proof (zlen_nonneg (UnsafeVarint (encode y) ++ rest)).
    apply (stores_ensure (fun p => let* p := put (UnsafeVarint (encode x)) p in
                                   WriteVarintPacked_loop encode (y :: r) p)); [rewrite zlen_app; lia|].
    apply stores_then; [apply stores_put|by apply IH].
Qed.

(** A script without [HadError], which asks for the buffer back. *)
Definition array_op (o : wop) : bool := match o with WHadError => false | _ => true end.

Lemma on_impl_stores f bytes w start :
  stores f bytes -> zlen w + zlen bytes <= zlen data ->
  CodedOutputStream.on_impl f (CodedOutputStream.mk (array_at w) (zlen w) start)
  = Some (tt, CodedOutputStream.mk (array_at (w ++ bytes)) (zlen (w ++ bytes)) start).
Proof. intros Hf Hw. unfold CodedOutputStream.on_impl; simpl. by rewrite Hf. Qed.

Lemma write_stores bytes w start :
  0 < zlen bytes -> zlen w + zlen bytes <= zlen data ->
  CodedOutputStream.write bytes (CodedOutputStream.mk (array_at w) (zlen w) start)
  = Some (tt, CodedOutputStream.mk (array_at (w ++ bytes)) (zlen (w ++ bytes)) start).
Proof.
  intros Hb Hw. unfold CodedOutputStream.write, mbind_ at 1, CodedOutputStream.on_impl at 1,
    EnsureSpace, mbind_, gets, mret_; simpl.
  rewrite (proj2 (Z.leb_gt (zlen data) (zlen w))) by lia. apply on_impl_stores; [apply stores_put|done].
Qed.

Lemma run_wop_array o w start :
  wop_ok o = true -> array_op o = true -> zlen w + zlen (bytes_of o) <= zlen data ->
  run_wop o (CodedOutputStream.mk (array_at w) (zlen w) start)
  = Some (tt, CodedOutputStream.mk (array_at (w ++ bytes_of o)) (zlen (w ++ bytes_of o)) start).
Proof.
  intros Hok Ha Hw. destruct o; simpl in *; rewrite ?andb_true_iff, ?Z.leb_le, ?Z.ltb_lt in Hok;
    try (by apply write_stores).
  - apply write_stores; [|done]. pose proof (zlen_varint32_le v). unfold is_u32 in *.
    unfold WriteVarint32ToArray. lia.
  - apply write_stores; [|done]. pose proof (zlen_varint64_le v). unfold is_u64 in *.
    unfold WriteVarint64ToArray. lia.
  - apply write_stores; [|done]. pose proof (zlen_varint64_le (u64 v) (u64_range v)).
    unfold WriteVarint64ToArray. lia.
  - apply write_stores; [|done]. pose proof (zlen_varint32_le v). unfold is_u32 in *.
    unfold WriteVarint32ToArray. lia.
  - apply on_impl_stores; [apply stores_raw|done].
  - apply on_impl_stores; [apply stores_string; [unfold is_u32; lia|lia]|done].
  - apply on_impl_stores; [|done]. destruct Hok as [[Hr ?] ?].
    assert (r <> []) as Hne by (intros ->; done).
    assert (forall enc, (forall x, is_u64 (enc x)) ->
      stores (WriteVarintPacked enc num r size)
        (packed_bytes num size (concat (map (fun x => UnsafeVarint (enc x)) r)))) as Hp.
    { intros enc He. unfold WriteVarintPacked. rewrite (u32_id size) by (unfold is_u32; lia).
      apply stores_field; [unfold is_u32; lia|by apply stores_packed_loop]. }
    destruct kind; apply Hp.
    + apply (encode_u64 PInt32). + apply (encode_u64 PUInt32). + apply (encode_u64 PSInt32).
    + apply (encode_u64 PInt64). + apply (encode_u64 PUInt64). + apply (encode_u64 PSInt64).
    + apply (encode_u64 PEnum).
  - apply on_impl_stores; [|done]. pose proof (zlen_nonneg r).
    unfold WriteFixedPacked. rewrite (u32_id (zlen r)) by (unfold INT_MAX in *; ilia).
    apply stores_field; [unfold INT_MAX in *; ilia|apply stores_raw].
  - done.
Qed.

Lemma run_wops_array l w start :
  forallb wop_ok l = true -> forallb array_op l = true ->
  zlen w + zlen (concat (map bytes_of l)) <= zlen data ->
  run_wops l (CodedOutputStream.mk (array_at w) (zlen w) start)
  = Some (tt, CodedOutputStream.mk (array_at (w ++ concat (map bytes_of l)))
                (zlen (w ++ concat (map bytes_of l))) start).
Proof.
  revert w. induction l as [|o l IH]; intros w; simpl; [by rewrite app_nil_r|].
  rewrite !andb_true_iff, zlen_app. intros [Ho Hl] [Ao Al] Hz.
  pose proof (zlen_nonneg (concat (map bytes_of l))).
  unfold mbind_. rewrite run_wop_array by (done || lia). rewrite IH by (done || (rewrite zlen_app; lia)).
  by rewrite app_assoc.
Qed.
End array.

(** C29: Serialization to an array whose size is what the writes need: every
    write stores in place, the array is the encodings and the pointer its end,
    the patch buffer is not touched and there is no error. *)
Theorem array_output_exact {S} `{ZeroCopyOutputStream S} l data uninit deterministic :
  forallb wop_ok l = true -> forallb array_op l = true ->
  zlen data = zlen (concat (map bytes_of l)) ->
  exists s : CodedOutputStream.t S,
    run_wops l (CodedOutputStream.mk (Eps.from_array data deterministic uninit) 0 0) = Some (tt, s) /\
    Eps.array_ (CodedOutputStream.impl_ s) = concat (map bytes_of l) /\
    CodedOutputStream.cur_ s = zlen data /\
    Eps.buffer_ (CodedOutputStream.impl_ s) = uninit /\
    Eps.had_error_ (CodedOutputStream.impl_ s) = false.
Proof.
  intros Hok Ha Hz. rewrite <- array_at_start. eexists. split.
  { apply (run_wops_array data uninit deterministic l [] 0); [done|done|rewrite zlen_nil; lia]. }
  simpl. rewrite zdrop_all, app_nil_r by lia. by rewrite Hz.
Qed.

Lemma array_output_exact_witness :
  let l := [WTag 8; WVarint32 300; WString 2 [Byte.x61]; WPacked PSInt32 3 [-1; 2] 2; WRaw []] in
  exists s : CodedOutputStream.t StringOutputStream.t,
    run_wops l (CodedOutputStream.mk (Eps.from_array (replicate 10 Byte.x00) false sample_patch) 0 0)
      = Some (tt, s) /\
    Eps.array_ (CodedOutputStream.impl_ s) = concat (map bytes_of l) /\
    CodedOutputStream.cur_ s = zlen (replicate 10 Byte.x00) /\
    Eps.buffer_ (CodedOutputStream.impl_ s) = sample_patch /\
    Eps.had_error_ (CodedOutputStream.impl_ s) = false.
Proof. apply array_output_exact; by vm_compute. Defined.
