(* ===== verification/TimeUtil.v ===== *)
(** * Durations and timestamps

    [util/time_util.h] and [util/time_util.cc]: the arithmetic of [Duration] and
    [Timestamp], the conversions to and from integers of other units and
    [timeval], and the string form of a duration. [None] is signed overflow or a
    failed [ABSL_DCHECK]. *)

From Stdlib Require Import Strings.Byte.
From S2P Require Import Prelude.

(** ** Checked arithmetic *)

Definition check (b : bool) : option unit := if b then Some tt else None.
Definition i64 (z : Z) : option Z := if (- 2 ^ 63 <=? z) && (z <? 2 ^ 63) then Some z else None.
Definition i32 (z : Z) : option Z := if (- 2 ^ 31 <=? z) && (z <? 2 ^ 31) then Some z else None.

(** ** Data

    The messages' fields: an [int64] and an [int32]. *)

Record Duration := mkDuration { d_seconds : Z; d_nanos : Z }.
Record Timestamp := mkTimestamp { t_seconds : Z; t_nanos : Z }.

#[global] Instance Duration_eq_dec : EqDecision Duration.
Proof. solve_decision. Defined.
#[global] Instance Timestamp_eq_dec : EqDecision Timestamp.
Proof. solve_decision. Defined.

Definition kNanosPerSecond : Z := 1000000000.
Definition kMicrosPerSecond : Z := 1000000.
Definition kMillisPerSecond : Z := 1000.
Definition kNanosPerMillisecond : Z := 1000000.
Definition kNanosPerMicrosecond : Z := 1000.
Definition kSecondsPerMinute : Z := 60.
Definition kSecondsPerHour : Z := 3600.

Definition kTimestampMinSeconds : Z := -62135596800.
Definition kTimestampMaxSeconds : Z := 253402300799.
Definition kTimestampMinNanoseconds : Z := 0.
Definition kTimestampMaxNanoseconds : Z := 999999999.
Definition kDurationMinSeconds : Z := -315576000000.
Definition kDurationMaxSeconds : Z := 315576000000.
Definition kDurationMinNanoseconds : Z := -999999999.
Definition kDurationMaxNanoseconds : Z := 999999999.

Definition IsTimestampValid (t : Timestamp) : bool :=
  (t_seconds t <=? kTimestampMaxSeconds) && (kTimestampMinSeconds <=? t_seconds t) &&
  (t_nanos t <=? kTimestampMaxNanoseconds) && (kTimestampMinNanoseconds <=? t_nanos t).

Definition IsDurationValid (d : Duration) : bool :=
  (d_seconds d <=? kDurationMaxSeconds) && (kDurationMinSeconds <=? d_seconds d) &&
  (d_nanos d <=? kDurationMaxNanoseconds) && (kDurationMinNanoseconds <=? d_nanos d) &&
  negb ((1 <=? d_seconds d) && (d_nanos d <? 0)) &&
  negb ((d_seconds d <=? -1) && (0 <? d_nanos d)).

(** ** Normalization *)

(** The carry of whole seconds out of [nanos]. *)
Definition carry (seconds nanos : Z) : option (Z * Z) :=
  if (nanos <=? - kNanosPerSecond) || (kNanosPerSecond <=? nanos) then
    s ← i64 (seconds + Z.quot nanos kNanosPerSecond);
    Some (s, Z.rem nanos kNanosPerSecond)
  else Some (seconds, nanos).

Definition CreateNormalized_Timestamp (seconds nanos : Z) : option Timestamp :=
  _ ← check ((kTimestampMinSeconds <=? seconds) && (seconds <=? kTimestampMaxSeconds));
  '(seconds, nanos) ← carry seconds nanos;
  '(seconds, nanos) ←
    (if nanos <? 0 then s ← i64 (seconds - 1); Some (s, nanos + kNanosPerSecond)
     else Some (seconds, nanos));
  _ ← check ((kTimestampMinSeconds <=? seconds) && (seconds <=? kTimestampMaxSeconds) &&
             (kTimestampMinNanoseconds <=? nanos) && (nanos <=? kTimestampMaxNanoseconds));
  Some (mkTimestamp seconds nanos).

Definition CreateNormalized_Duration (seconds nanos : Z) : option Duration :=
  _ ← check ((kDurationMinSeconds <=? seconds) && (seconds <=? kDurationMaxSeconds));
  '(seconds, nanos) ← carry seconds nanos;
  '(seconds, nanos) ←
    (if (seconds <? 0) && (0 <? nanos) then
       s ← i64 (seconds + 1); Some (s, nanos - kNanosPerSecond)
     else if (0 <? seconds) && (nanos <? 0) then
       s ← i64 (seconds - 1); Some (s, nanos + kNanosPerSecond)
     else Some (seconds, nanos));
  _ ← check ((kDurationMinSeconds <=? seconds) && (seconds <=? kDurationMaxSeconds) &&
             (kDurationMinNanoseconds <=? nanos) && (nanos <=? kDurationMaxNanoseconds));
  Some (mkDuration seconds nanos).

Definition RoundTowardZero (value divider : Z) : Z :=
  let result := Z.quot value divider in
  let remainder := Z.rem value divider in
  if (result <? 0) && (0 <? remainder) then result + 1 else result.

(** ** Durations and integers *)

Definition NanosecondsToDuration (nanos : Z) : option Duration :=
  CreateNormalized_Duration (Z.quot nanos kNanosPerSecond) (Z.rem nanos kNanosPerSecond).

Definition MicrosecondsToDuration (micros : Z) : option Duration :=
  CreateNormalized_Duration (Z.quot micros kMicrosPerSecond)
    (s32 (Z.rem micros kMicrosPerSecond * kNanosPerMicrosecond)).

Definition MillisecondsToDuration (millis : Z) : option Duration :=
  CreateNormalized_Duration (Z.quot millis kMillisPerSecond)
    (s32 (Z.rem millis kMillisPerSecond * kNanosPerMillisecond)).

Definition SecondsToDuration (seconds : Z) : option Duration :=
  CreateNormalized_Duration seconds 0.

Definition MinutesToDuration (minutes : Z) : option Duration :=
  _ ← check ((Z.quot kDurationMinSeconds kSecondsPerMinute <=? minutes) &&
             (minutes <=? Z.quot kDurationMaxSeconds kSecondsPerMinute));
  s ← i64 (minutes * kSecondsPerMinute); SecondsToDuration s.

Definition HoursToDuration (hours : Z) : option Duration :=
  _ ← check ((Z.quot kDurationMinSeconds kSecondsPerHour <=? hours) &&
             (hours <=? Z.quot kDurationMaxSeconds kSecondsPerHour));
  s ← i64 (hours * kSecondsPerHour); SecondsToDuration s.

Definition DurationToSeconds (d : Duration) : option Z :=
  _ ← check (IsDurationValid d); Some (d_seconds d).

Definition DurationToNanoseconds (d : Duration) : option Z :=
  _ ← check (IsDurationValid d);
  p ← i64 (d_seconds d * kNanosPerSecond); i64 (p + d_nanos d).

Definition DurationToMicroseconds (d : Duration) : option Z :=
  s ← DurationToSeconds d;
  p ← i64 (s * kMicrosPerSecond);
  i64 (p + RoundTowardZero (d_nanos d) kNanosPerMicrosecond).

Definition DurationToMilliseconds (d : Duration) : option Z :=
  s ← DurationToSeconds d;
  p ← i64 (s * kMillisPerSecond);
  i64 (p + RoundTowardZero (d_nanos d) kNanosPerMillisecond).

Definition DurationToMinutes (d : Duration) : option Z :=
  s ← DurationToSeconds d; Some (RoundTowardZero s kSecondsPerMinute).

Definition DurationToHours (d : Duration) : option Z :=
  s ← DurationToSeconds d; Some (RoundTowardZero s kSecondsPerHour).

(** ** Timestamps and integers *)

Definition GetEpoch : Timestamp := mkTimestamp 0 0.

Definition NanosecondsToTimestamp (nanos : Z) : option Timestamp :=
  CreateNormalized_Timestamp (Z.quot nanos kNanosPerSecond) (Z.rem nanos kNanosPerSecond).

Definition MicrosecondsToTimestamp (micros : Z) : option Timestamp :=
  CreateNormalized_Timestamp (Z.quot micros kMicrosPerSecond)
    (s32 (Z.rem micros kMicrosPerSecond * kNanosPerMicrosecond)).

Definition MillisecondsToTimestamp (millis : Z) : option Timestamp :=
  CreateNormalized_Timestamp (Z.quot millis kMillisPerSecond)
    (s32 (Z.rem millis kMillisPerSecond * kNanosPerMillisecond)).

Definition SecondsToTimestamp (seconds : Z) : option Timestamp :=
  CreateNormalized_Timestamp seconds 0.

Definition TimestampToNanoseconds (t : Timestamp) : option Z :=
  _ ← check (IsTimestampValid t);
  p ← i64 (t_seconds t * kNanosPerSecond); i64 (p + t_nanos t).

Definition TimestampToMicroseconds (t : Timestamp) : option Z :=
  _ ← check (IsTimestampValid t);
  p ← i64 (t_seconds t * kMicrosPerSecond);
  i64 (p + RoundTowardZero (t_nanos t) kNanosPerMicrosecond).

Definition TimestampToMilliseconds (t : Timestamp) : option Z :=
  _ ← check (IsTimestampValid t);
  p ← i64 (t_seconds t * kMillisPerSecond);
  i64 (p + RoundTowardZero (t_nanos t) kNanosPerMillisecond).

Definition TimestampToSeconds (t : Timestamp) : option Z :=
  _ ← check (IsTimestampValid t); Some (t_seconds t).

Definition TimeTToTimestamp (value : Z) : option Timestamp := CreateNormalized_Timestamp value 0.
Definition TimestampToTimeT (t : Timestamp) : Z := t_seconds t.

(** *** timeval *)

Record timeval := mkTimeval { tv_sec : Z; tv_usec : Z }.

Definition TimevalToTimestamp (v : timeval) : option Timestamp :=
  n ← i64 (tv_usec v * kNanosPerMicrosecond); CreateNormalized_Timestamp (tv_sec v) (s32 n).

Definition TimestampToTimeval (t : Timestamp) : timeval :=
  mkTimeval (t_seconds t) (RoundTowardZero (t_nanos t) kNanosPerMicrosecond).

Definition TimevalToDuration (v : timeval) : option Duration :=
  n ← i64 (tv_usec v * kNanosPerMicrosecond); CreateNormalized_Duration (tv_sec v) (s32 n).

Definition DurationToTimeval (d : Duration) : option timeval :=
  let usec := RoundTowardZero (d_nanos d) kNanosPerMicrosecond in
  if usec <? 0 then s ← i64 (d_seconds d - 1); Some (mkTimeval s (usec + kMicrosPerSecond))
  else Some (mkTimeval (d_seconds d) usec).

(** ** Operators *)

(** The 128-bit magnitude and the sign. *)
Definition ToUint128 (d : Duration) : option (Z * bool) :=
  if (d_seconds d <? 0) || (d_nanos d <? 0) then
    s ← i64 (- d_seconds d); n ← i32 (- d_nanos d);
    Some ((u64 s * kNanosPerSecond + u32 n) mod 2 ^ 128, true)
  else Some ((u64 (d_seconds d) * kNanosPerSecond + u32 (d_nanos d)) mod 2 ^ 128, false).

Definition ToDuration (value : Z) (negative : bool) : option Duration :=
  let seconds := s64 (u64 (value / kNanosPerSecond)) in
  let nanos := s32 (u64 (value mod kNanosPerSecond)) in
  if negative then s ← i64 (- seconds); n ← i32 (- nanos); Some (mkDuration s n)
  else Some (mkDuration seconds nanos).

Definition duration_add (d1 d2 : Duration) : option Duration :=
  s ← i64 (d_seconds d1 + d_seconds d2); n ← i32 (d_nanos d1 + d_nanos d2);
  CreateNormalized_Duration s n.

Definition duration_sub (d1 d2 : Duration) : option Duration :=
  s ← i64 (d_seconds d1 - d_seconds d2); n ← i32 (d_nanos d1 - d_nanos d2);
  CreateNormalized_Duration s n.

Definition duration_neg (d : Duration) : option Duration :=
  s ← i64 (- d_seconds d); n ← i32 (- d_nanos d); Some (mkDuration s n).

Definition duration_mul (d : Duration) (r : Z) : option Duration :=
  '(value, negative) ← ToUint128 d;
  if 0 <? r then ToDuration ((value * u64 r) mod 2 ^ 128) negative
  else m ← i64 (- r); ToDuration ((value * u64 m) mod 2 ^ 128) (negb negative).

(** Division by zero is undefined. *)
Definition duration_div (d : Duration) (r : Z) : option Duration :=
  '(value, negative) ← ToUint128 d;
  if 0 <? r then ToDuration (value / u64 r) negative
  else
    m ← i64 (- r);
    _ ← check (negb (u64 m =? 0)); ToDuration (value / u64 m) (negb negative).

Definition duration_mod (d1 d2 : Duration) : option Duration :=
  '(value1, negative1) ← ToUint128 d1;
  '(value2, _) ← ToUint128 d2;
  _ ← check (negb (value2 =? 0));
  ToDuration (value1 mod value2) negative1.

Definition duration_quot (d1 d2 : Duration) : option Z :=
  '(value1, negative1) ← ToUint128 d1;
  '(value2, negative2) ← ToUint128 d2;
  _ ← check (negb (value2 =? 0));
  let result := s64 (u64 (value1 / value2)) in
  if xorb negative1 negative2 then i64 (- result) else Some result.

Definition duration_lt (d1 d2 : Duration) : bool :=
  if d_seconds d1 =? d_seconds d2 then d_nanos d1 <? d_nanos d2
  else d_seconds d1 <? d_seconds d2.
Definition duration_gt (d1 d2 : Duration) : bool := duration_lt d2 d1.
Definition duration_ge (d1 d2 : Duration) : bool := negb (duration_lt d1 d2).
Definition duration_le (d1 d2 : Duration) : bool := negb (duration_lt d2 d1).
Definition duration_eq (d1 d2 : Duration) : bool :=
  (d_seconds d1 =? d_seconds d2) && (d_nanos d1 =? d_nanos d2).
Definition duration_ne (d1 d2 : Duration) : bool := negb (duration_eq d1 d2).

Definition timestamp_lt (t1 t2 : Timestamp) : bool :=
  if t_seconds t1 =? t_seconds t2 then t_nanos t1 <? t_nanos t2
  else t_seconds t1 <? t_seconds t2.
Definition timestamp_gt (t1 t2 : Timestamp) : bool := timestamp_lt t2 t1.
Definition timestamp_ge (t1 t2 : Timestamp) : bool := negb (timestamp_lt t1 t2).
Definition timestamp_le (t1 t2 : Timestamp) : bool := negb (timestamp_lt t2 t1).
Definition timestamp_eq (t1 t2 : Timestamp) : bool :=
  (t_seconds t1 =? t_seconds t2) && (t_nanos t1 =? t_nanos t2).
Definition timestamp_ne (t1 t2 : Timestamp) : bool := negb (timestamp_eq t1 t2).

Definition timestamp_add (t : Timestamp) (d : Duration) : option Timestamp :=
  s ← i64 (t_seconds t + d_seconds d); n ← i32 (t_nanos t + d_nanos d);
  CreateNormalized_Timestamp s n.

Definition timestamp_sub (t : Timestamp) (d : Duration) : option Timestamp :=
  s ← i64 (t_seconds t - d_seconds d); n ← i32 (t_nanos t - d_nanos d);
  CreateNormalized_Timestamp s n.

Definition timestamp_diff (t1 t2 : Timestamp) : option Duration :=
  s ← i64 (t_seconds t1 - t_seconds t2); n ← i32 (t_nanos t1 - t_nanos t2);
  CreateNormalized_Duration s n.

(** ** Strings *)

Definition ch_minus : byte := "-"%byte.
Definition ch_plus : byte := "+"%byte.
Definition ch_dot : byte := "."%byte.
Definition ch_s : byte := "s"%byte.

Definition is_digit (c : byte) : bool := (48 <=? b2z c) && (b2z c <=? 57).
Definition is_space (c : byte) : bool := (b2z c =? 32) || ((9 <=? b2z c) && (b2z c <=? 13)).

(** [std::strtoll] in base ten: the value, saturated, and what is left of the
    string behind what was read (all of it when there is no number). *)
Fixpoint skip_spaces (l : list byte) : list byte :=
  match l with c :: l' => if is_space c then skip_spaces l' else l | [] => [] end.
Fixpoint read_digits (acc : Z) (l : list byte) : Z * list byte :=
  match l with
  | c :: l' => if is_digit c then read_digits (10 * acc + (b2z c - 48)) l' else (acc, l)
  | [] => (acc, [])
  end.
Definition strtoll (l : list byte) : Z * list byte :=
  let body := skip_spaces l in
  let '(negative, number) :=
    match body with
    | c :: r => if decide (c = ch_minus) then (true, r)
                else if decide (c = ch_plus) then (false, r) else (false, body)
    | [] => (false, body)
    end in
  match number with
  | c :: _ =>
      if is_digit c then
        let '(v, rest) := read_digits 0 number in
        (if negative : bool then Z.max (- 2 ^ 63) (- v) else Z.min (2 ^ 63 - 1) v, rest)
      else (0, l)
  | [] => (0, l)
  end.

(** [find_last_of] a character. *)
Fixpoint find_last (c : byte) (l : list byte) : option Z :=
  match l with
  | [] => None
  | x :: l' =>
      match find_last c l' with
      | Some p => Some (p + 1)
      | None => if decide (x = c) then Some 0 else None
      end
  end.

Fixpoint Pow_loop (y : nat) (x result : Z) : option Z :=
  match y with O => Some result | S y => r ← i64 (result * x); Pow_loop y x r end.
Definition Pow (x y : Z) : option Z := Pow_loop (Z.to_nat y) x 1.

(** Whether the string is a duration, and which. *)
Definition FromString (value : list byte) : option (option Duration) :=
  if (zlen value <=? 1) || negb (bool_decide (last value = Some ch_s)) then Some None else
  let negative := bool_decide (head value = Some ch_minus) in
  let sign_length := if negative then 1 else 0 in
  let '(seconds_part, nanos_part) :=
    match find_last ch_dot value with
    | None => (ztake (zlen value - 1 - sign_length) (zdrop sign_length value), ["0"%byte])
    | Some pos => (ztake (pos - sign_length) (zdrop sign_length value),
                   ztake (zlen value - pos - 2) (zdrop (pos + 1) value))
    end in
  let '(seconds, rest) := strtoll seconds_part in
  if negb (zlen rest =? 0) then Some None else
  let '(nanos, rest) := strtoll nanos_part in
  if negb (zlen rest =? 0) then Some None else
  p ← Pow 10 (s32 (9 - zlen nanos_part));
  nanos ← i64 (nanos * p);
  if negative then
    seconds ← i64 (- seconds); nanos ← i64 (- nanos);
    Some (Some (mkDuration seconds (s32 nanos)))
  else Some (Some (mkDuration seconds (s32 nanos))).

Section format.
(** [absl::StrAppend] of an integer and [absl::StrFormat] with a ["%0*d"]. *)
Variable StrAppend : Z -> list byte.
Variable StrFormat0 : Z -> Z -> list byte.

Definition FormatNanos (nanos : Z) : list byte :=
  if Z.rem nanos kNanosPerMillisecond =? 0 then
    StrFormat0 3 (Z.quot nanos kNanosPerMillisecond)
  else if Z.rem nanos kNanosPerMicrosecond =? 0 then
    StrFormat0 6 (Z.quot nanos kNanosPerMicrosecond)
  else StrFormat0 9 nanos.

Definition ToString (d : Duration) : option (list byte) :=
  '(sign, seconds, nanos) ←
    (if (d_seconds d <? 0) || (d_nanos d <? 0) then
       s ← i64 (- d_seconds d); n ← i32 (- d_nanos d); Some ([ch_minus], s, n)
     else Some ([], d_seconds d, d_nanos d));
  Some (sign ++ StrAppend seconds ++
        (if negb (nanos =? 0) then [ch_dot] ++ FormatNanos nanos else []) ++ [ch_s]).
End format.
