(* ===== verification/TimeUtilSpec.v ===== *)
(** * Durations and timestamps are numbers of nanoseconds

    A valid [Duration] or [Timestamp] stands for a number of nanoseconds, each
    number of the range for one; every operation is that of the integers. *)

From Stdlib Require Import Strings.Byte.
From S2P Require Import Prelude TimeUtil.

(** ** The numbers *)

Definition duration_ns (d : Duration) : Z := d_seconds d * 1000000000 + d_nanos d.
Definition timestamp_ns (t : Timestamp) : Z := t_seconds t * 1000000000 + t_nanos t.

Definition max_duration_ns : Z := 315576000000999999999.
Definition min_timestamp_ns : Z := -62135596800000000000.
Definition max_timestamp_ns : Z := 253402300799999999999.

Definition duration_of (k : Z) : Duration :=
  mkDuration (Z.quot k 1000000000) (Z.rem k 1000000000).
Definition timestamp_of (k : Z) : Timestamp := mkTimestamp (k / 1000000000) (k mod 1000000000).

Definition in_duration (k : Z) : bool := (- max_duration_ns <=? k) && (k <=? max_duration_ns).
Definition in_timestamp (k : Z) : bool := (min_timestamp_ns <=? k) && (k <=? max_timestamp_ns).

(** What the operations that normalize return. *)
Definition duration_result (k : Z) : option Duration :=
  if in_duration k then Some (duration_of k) else None.
Definition timestamp_result (k : Z) : option Timestamp :=
  if in_timestamp k then Some (timestamp_of k) else None.

(** [tlia] decides arithmetic on the constants of the file. *)
Ltac unfold_time :=
  unfold kNanosPerSecond, kMicrosPerSecond, kMillisPerSecond, kNanosPerMillisecond,
    kNanosPerMicrosecond, kSecondsPerMinute, kSecondsPerHour, kTimestampMinSeconds,
    kTimestampMaxSeconds, kTimestampMinNanoseconds, kTimestampMaxNanoseconds,
    kDurationMinSeconds, kDurationMaxSeconds, kDurationMinNanoseconds,
    kDurationMaxNanoseconds, max_duration_ns, min_timestamp_ns, max_timestamp_ns,
    duration_ns, timestamp_ns in *;
  cbn [d_seconds d_nanos t_seconds t_nanos] in *; zify_pow.
Ltac tlia := unfold_time; Z.quot_rem_to_equations; Z.div_mod_to_equations; lia.

Lemma IsDurationValid_true d :
  IsDurationValid d = true <->
  kDurationMinSeconds <= d_seconds d <= kDurationMaxSeconds /\
  -999999999 <= d_nanos d <= 999999999 /\
  (1 <= d_seconds d -> 0 <= d_nanos d) /\ (d_seconds d <= -1 -> d_nanos d <= 0).
Proof.
  unfold IsDurationValid, kDurationMinNanoseconds, kDurationMaxNanoseconds.
  rewrite !andb_true_iff, !negb_true_iff, !andb_false_iff, !Z.leb_le, !Z.leb_gt, !Z.ltb_ge. lia.
Qed.

Lemma IsTimestampValid_true t :
  IsTimestampValid t = true <->
  kTimestampMinSeconds <= t_seconds t <= kTimestampMaxSeconds /\ 0 <= t_nanos t <= 999999999.
Proof.
  unfold IsTimestampValid, kTimestampMinNanoseconds, kTimestampMaxNanoseconds.
  rewrite !andb_true_iff, !Z.leb_le. lia.
Qed.

Lemma in_duration_true k : in_duration k = true <-> - max_duration_ns <= k <= max_duration_ns.
Proof. unfold in_duration. by rewrite andb_true_iff, !Z.leb_le. Qed.
Lemma in_timestamp_true k : in_timestamp k = true <-> min_timestamp_ns <= k <= max_timestamp_ns.
Proof. unfold in_timestamp. by rewrite andb_true_iff, !Z.leb_le. Qed.

Lemma i64_some z : - 2 ^ 63 <= z < 2 ^ 63 -> i64 z = Some z.
Proof. intros. unfold i64. by rewrite (proj2 (Z.leb_le _ _)), (proj2 (Z.ltb_lt _ _)) by lia. Qed.
Lemma i32_some z : - 2 ^ 31 <= z < 2 ^ 31 -> i32 z = Some z.
Proof. intros. unfold i32. by rewrite (proj2 (Z.leb_le _ _)), (proj2 (Z.ltb_lt _ _)) by lia. Qed.

Lemma i64_none z : ~ (- 2 ^ 63 <= z < 2 ^ 63) -> i64 z = None.
Proof.
  intros. unfold i64. destruct (Z.leb_spec (- 2 ^ 63) z), (Z.ltb_spec z (2 ^ 63)); (done || lia).
Qed.

(** ** Valid values and numbers *)

Lemma duration_valid_number d : IsDurationValid d = true -> - max_duration_ns <= duration_ns d <= max_duration_ns.
Proof. rewrite IsDurationValid_true. intros. tlia. Qed.

Lemma duration_of_ns d : IsDurationValid d = true -> duration_of (duration_ns d) = d.
Proof.
  rewrite IsDurationValid_true. destruct d as [s n]; simpl. intros (? & ? & ? & ?).
  unfold duration_of. f_equal; tlia.
Qed.

Lemma duration_of_valid k :
  - max_duration_ns <= k <= max_duration_ns ->
  IsDurationValid (duration_of k) = true /\ duration_ns (duration_of k) = k.
Proof. intros. rewrite IsDurationValid_true. unfold duration_of; simpl. split; tlia. Qed.

Lemma timestamp_of_ns t : IsTimestampValid t = true -> timestamp_of (timestamp_ns t) = t.
Proof.
  rewrite IsTimestampValid_true. destruct t as [s n]; simpl. intros (? & ?).
  unfold timestamp_of. f_equal; tlia.
Qed.

Lemma timestamp_of_valid k :
  min_timestamp_ns <= k <= max_timestamp_ns ->
  IsTimestampValid (timestamp_of k) = true /\ timestamp_ns (timestamp_of k) = k.
Proof. intros. rewrite IsTimestampValid_true. unfold timestamp_of; simpl. split; tlia. Qed.

(** ** Normalization *)

Definition duration_seconds_ok (s : Z) : bool :=
  (kDurationMinSeconds <=? s) && (s <=? kDurationMaxSeconds).
Definition timestamp_seconds_ok (s : Z) : bool :=
  (kTimestampMinSeconds <=? s) && (s <=? kTimestampMaxSeconds).

Lemma carry_some s n :
  - 10 ^ 12 <= s <= 10 ^ 12 -> is_s32 n ->
  exists s' n', carry s n = Some (s', n') /\
    s' * 1000000000 + n' = s * 1000000000 + n /\ - 1000000000 < n' < 1000000000 /\
    s - 3 <= s' <= s + 3.
Proof.
  intros Hs Hn. change (10 ^ 12) with 1000000000000 in Hs. unfold is_s32 in Hn. unfold carry.
  destruct (Z.leb_spec n (- kNanosPerSecond)), (Z.leb_spec kNanosPerSecond n); simpl;
    try rewrite i64_some by tlia; simpl; (do 2 eexists; split; [done|tlia]).
Qed.

Lemma duration_of_unique s n :
  - 1000000000 < n < 1000000000 -> (0 < s -> 0 <= n) -> (s < 0 -> n <= 0) ->
  duration_of (s * 1000000000 + n) = mkDuration s n.
Proof. intros. unfold duration_of. f_equal; tlia. Qed.

Lemma timestamp_of_unique s n :
  0 <= n < 1000000000 -> timestamp_of (s * 1000000000 + n) = mkTimestamp s n.
Proof. intros. unfold timestamp_of. f_equal; tlia. Qed.

(** The last check of a normalization and its result. *)
Lemma duration_checked s n k :
  - 1000000000 < n < 1000000000 -> (0 < s -> 0 <= n) -> (s < 0 -> n <= 0) ->
  s * 1000000000 + n = k ->
  (_ ← check ((kDurationMinSeconds <=? s) && (s <=? kDurationMaxSeconds) &&
              (kDurationMinNanoseconds <=? n) && (n <=? kDurationMaxNanoseconds));
   Some (mkDuration s n)) = duration_result k.
Proof.
  intros Hn Hp Hm Hk. unfold duration_result.
  assert ((kDurationMinSeconds <=? s) && (s <=? kDurationMaxSeconds) &&
          (kDurationMinNanoseconds <=? n) && (n <=? kDurationMaxNanoseconds) = in_duration k) as ->.
  { apply eq_true_iff_eq. rewrite in_duration_true, !andb_true_iff, !Z.leb_le. tlia. }
  rewrite <- Hk, duration_of_unique by done. by destruct (in_duration _).
Qed.

Lemma timestamp_checked s n k :
  0 <= n < 1000000000 -> s * 1000000000 + n = k ->
  (_ ← check ((kTimestampMinSeconds <=? s) && (s <=? kTimestampMaxSeconds) &&
              (kTimestampMinNanoseconds <=? n) && (n <=? kTimestampMaxNanoseconds));
   Some (mkTimestamp s n)) = timestamp_result k.
Proof.
  intros Hn Hk. unfold timestamp_result.
  assert ((kTimestampMinSeconds <=? s) && (s <=? kTimestampMaxSeconds) &&
          (kTimestampMinNanoseconds <=? n) && (n <=? kTimestampMaxNanoseconds) = in_timestamp k) as ->.
  { apply eq_true_iff_eq. rewrite in_timestamp_true, !andb_true_iff, !Z.leb_le. tlia. }
  rewrite <- Hk, timestamp_of_unique by done. by destruct (in_timestamp _).
Qed.

Lemma CreateNormalized_Duration_eq s n :
  is_s32 n ->
  CreateNormalized_Duration s n =
  if duration_seconds_ok s then duration_result (s * 1000000000 + n) else None.
Proof.
  intros Hn. unfold CreateNormalized_Duration, duration_seconds_ok.
  destruct (Z.leb_spec kDurationMinSeconds s), (Z.leb_spec s kDurationMaxSeconds); try done. simpl.
  destruct (carry_some s n) as (s' & n' & -> & Hk & Hn' & Hs'); [unfold_time; lia|done|].
  simpl. rewrite <- Hk.
  destruct (Z.ltb_spec s' 0), (Z.ltb_spec 0 n'), (Z.ltb_spec 0 s'), (Z.ltb_spec n' 0); simpl;
    try rewrite i64_some by tlia; simpl; apply duration_checked; tlia.
Qed.

Lemma CreateNormalized_Timestamp_eq s n :
  is_s32 n ->
  CreateNormalized_Timestamp s n =
  if timestamp_seconds_ok s then timestamp_result (s * 1000000000 + n) else None.
Proof.
  intros Hn. unfold CreateNormalized_Timestamp, timestamp_seconds_ok.
  destruct (Z.leb_spec kTimestampMinSeconds s), (Z.leb_spec s kTimestampMaxSeconds); try done. simpl.
  destruct (carry_some s n) as (s' & n' & -> & Hk & Hn' & Hs'); [unfold_time; lia|done|].
  simpl. rewrite <- Hk.
  destruct (Z.ltb_spec n' 0); simpl; try rewrite i64_some by tlia; simpl;
    apply timestamp_checked; tlia.
Qed.

Lemma duration_total_out s n :
  - 2000000000 < n < 2000000000 -> (0 < s -> 0 <= n \/ s <= kDurationMaxSeconds) ->
  (s < 0 -> n <= 0 \/ kDurationMinSeconds <= s) ->
  duration_seconds_ok s = false -> in_duration (s * 1000000000 + n) = false.
Proof.
  intros Hn Hp Hm Hs. apply not_true_iff_false. rewrite in_duration_true.
  unfold duration_seconds_ok in Hs. rewrite andb_false_iff, !Z.leb_gt in Hs. tlia.
Qed.

(** ** Operators *)

Lemma duration_add_eq d1 d2 :
  IsDurationValid d1 = true -> IsDurationValid d2 = true ->
  duration_add d1 d2 = duration_result (duration_ns d1 + duration_ns d2).
Proof.
  rewrite !IsDurationValid_true. intros H1 H2. unfold duration_add.
  rewrite i64_some, i32_some by tlia. simpl. rewrite CreateNormalized_Duration_eq by (unfold is_s32; tlia).
  replace (duration_ns d1 + duration_ns d2)
    with ((d_seconds d1 + d_seconds d2) * 1000000000 + (d_nanos d1 + d_nanos d2)) by tlia.
  destruct (duration_seconds_ok _) eqn:E; [done|]. unfold duration_result.
  rewrite duration_total_out; [done|tlia..|done].
Qed.

Lemma duration_neg_eq d :
  IsDurationValid d = true -> duration_neg d = duration_result (- duration_ns d).
Proof.
  intros Hv. pose proof (duration_valid_number d Hv). rewrite IsDurationValid_true in Hv.
  unfold duration_neg, duration_result. rewrite i64_some, i32_some by tlia. simpl.
  rewrite (proj2 (in_duration_true _)) by lia. f_equal. unfold duration_of. f_equal; tlia.
Qed.

Lemma duration_sub_eq d1 d2 :
  IsDurationValid d1 = true -> IsDurationValid d2 = true ->
  duration_sub d1 d2 = duration_result (duration_ns d1 - duration_ns d2).
Proof.
  rewrite !IsDurationValid_true. intros H1 H2. unfold duration_sub.
  rewrite i64_some, i32_some by tlia. simpl. rewrite CreateNormalized_Duration_eq by (unfold is_s32; tlia).
  replace (duration_ns d1 - duration_ns d2)
    with ((d_seconds d1 - d_seconds d2) * 1000000000 + (d_nanos d1 - d_nanos d2)) by tlia.
  destruct (duration_seconds_ok _) eqn:E; [done|]. unfold duration_result.
  rewrite duration_total_out; [done|tlia..|done].
Qed.

(** The magnitude and the sign of a valid duration. *)
Lemma ToUint128_eq d :
  IsDurationValid d = true -> ToUint128 d = Some (Z.abs (duration_ns d), duration_ns d <? 0).
Proof.
  rewrite IsDurationValid_true. intros H. unfold ToUint128.
  change (2 ^ 128) with 340282366920938463463374607431768211456.
  destruct (Z.ltb_spec (d_seconds d) 0), (Z.ltb_spec (d_nanos d) 0); simpl;
    try rewrite i64_some by tlia; try rewrite i32_some by tlia; simpl;
    rewrite u64_id, u32_id by (unfold is_u64, is_u32; tlia); f_equal; f_equal;
    try (rewrite Z.mod_small by tlia; tlia); symmetry; (apply Z.ltb_lt || apply Z.ltb_ge); tlia.
Qed.

Lemma ToDuration_eq k :
  - max_duration_ns <= k <= max_duration_ns -> forall negative,
  (k < 0 -> negative = true) -> (0 < k -> negative = false) ->
  ToDuration (Z.abs k) negative = Some (duration_of k).
Proof.
  intros Hk negative Hn Hp. unfold ToDuration.
  rewrite (u64_id (_ / _)), (u64_id (_ mod _)), s64_id, s32_id
    by (unfold is_u64, is_s64, is_s32; tlia).
  assert (negative = true /\ k <= 0 \/ negative = false /\ 0 <= k) as [[-> ?]|[-> ?]]
    by (destruct negative; [left|right]; split; try done; lia).
  - rewrite i64_some, i32_some by tlia. simpl. unfold duration_of. do 2 f_equal; tlia.
  - unfold duration_of. do 2 f_equal; tlia.
Qed.

(** The multiplier or divisor as the code splits it. *)
Lemma duration_mul_eq d r :
  IsDurationValid d = true -> - 2 ^ 63 < r < 2 ^ 63 -> in_duration (duration_ns d * r) = true ->
  duration_mul d r = Some (duration_of (duration_ns d * r)).
Proof.
  intros Hv Hr Hk. rewrite in_duration_true in Hk. unfold duration_mul. rewrite ToUint128_eq by done.
  change (2 ^ 128) with 340282366920938463463374607431768211456. simpl.
  assert (Z.abs (duration_ns d) * Z.abs r = Z.abs (duration_ns d * r)) as Habs
    by (by rewrite Z.abs_mul).
  destruct (Z.ltb_spec 0 r).
  - rewrite u64_id by ilia. rewrite <- (Z.abs_eq r) at 1 by lia. rewrite Habs, Z.mod_small by tlia.
    apply ToDuration_eq; [done|..]; rewrite ?Z.ltb_lt, ?Z.ltb_ge; nia.
  - rewrite i64_some by ilia. simpl. rewrite u64_id by ilia.
    replace (- r) with (Z.abs r) by lia. rewrite Habs, Z.mod_small by tlia.
    apply ToDuration_eq; [done|..]; rewrite ?negb_true_iff, ?negb_false_iff, ?Z.ltb_lt, ?Z.ltb_ge; nia.
Qed.

Lemma quot_abs a b : b <> 0 -> Z.abs a / Z.abs b = Z.abs (Z.quot a b).
Proof.
  intros. rewrite <- Z.quot_div_nonneg by lia. by rewrite <- Z.quot_abs.
Qed.

Lemma duration_div_eq d r :
  IsDurationValid d = true -> - 2 ^ 63 < r < 2 ^ 63 -> r <> 0 ->
  duration_div d r = Some (duration_of (Z.quot (duration_ns d) r)).
Proof.
  intros Hv Hr Hz. pose proof (duration_valid_number d Hv). unfold duration_div.
  rewrite ToUint128_eq by done. simpl.
  assert (- max_duration_ns <= Z.quot (duration_ns d) r <= max_duration_ns) as Hk.
  { pose proof (Z.quot_abs (duration_ns d) r Hz). pose proof (Z.quot_le_upper_bound (Z.abs (duration_ns d)) (Z.abs r) max_duration_ns ltac:(lia)). unfold max_duration_ns in *. lia. }
  destruct (Z.ltb_spec 0 r).
  - rewrite u64_id by ilia. rewrite <- (Z.abs_eq r) at 1 by lia. rewrite quot_abs by done.
    apply ToDuration_eq; [done|..]; rewrite ?Z.ltb_lt, ?Z.ltb_ge; intros;
      pose proof (Z.quot_pos (duration_ns d) r); pose proof (Z.quot_pos (- duration_ns d) r);
      rewrite Z.quot_opp_l in * by lia; lia.
  - rewrite i64_some by ilia. simpl. rewrite u64_id by ilia.
    replace (- r) with (Z.abs r) by lia. rewrite (proj2 (Z.eqb_neq _ _)) by lia. simpl.
    rewrite quot_abs by done.
    apply ToDuration_eq; [done|..]; rewrite ?negb_true_iff, ?negb_false_iff, ?Z.ltb_lt, ?Z.ltb_ge;
      intros; pose proof (Z.quot_pos (duration_ns d) (- r)); pose proof (Z.quot_pos (- duration_ns d) (- r));
      rewrite ?Z.quot_opp_l, ?Z.quot_opp_r in * by lia; lia.
Qed.

Lemma duration_mod_eq d1 d2 :
  IsDurationValid d1 = true -> IsDurationValid d2 = true -> duration_ns d2 <> 0 ->
  duration_mod d1 d2 = Some (duration_of (Z.rem (duration_ns d1) (duration_ns d2))).
Proof.
  intros H1 H2 Hz. unfold duration_mod. rewrite !ToUint128_eq by done. simpl.
  rewrite (proj2 (Z.eqb_neq _ _)) by lia. simpl.
  pose proof (duration_valid_number d1 H1). pose proof (duration_valid_number d2 H2).
  rewrite <- Z.rem_mod_nonneg, Z.rem_abs by lia.
  apply ToDuration_eq; [|intros Hs..].
  - pose proof (Z.rem_bound_abs (duration_ns d1) (duration_ns d2) Hz). lia.
  - apply Z.ltb_lt. pose proof (Z.rem_nonneg (duration_ns d1) (duration_ns d2) Hz). lia.
  - apply Z.ltb_ge. pose proof (Z.rem_nonpos (duration_ns d1) (duration_ns d2) Hz). lia.
Qed.

(** The 64 low bits of the quotient, of which the code negates the magnitude. *)
Lemma duration_quot_low d1 d2 :
  IsDurationValid d1 = true -> IsDurationValid d2 = true -> duration_ns d2 <> 0 ->
  u64 (Z.quot (duration_ns d1) (duration_ns d2)) <> 2 ^ 63 ->
  duration_quot d1 d2 = Some (s64 (Z.quot (duration_ns d1) (duration_ns d2))).
Proof.
  intros H1 H2 Hz Hq. unfold duration_quot. rewrite !ToUint128_eq by done. simpl.
  rewrite (proj2 (Z.eqb_neq _ _)) by lia. simpl. rewrite quot_abs by done.
  set (a := duration_ns d1) in *. set (b := duration_ns d2) in *.
  pose proof (Z.quot_pos a b). pose proof (Z.quot_pos (- a) b).
  pose proof (Z.quot_pos a (- b)). pose proof (Z.quot_pos (- a) (- b)).
  rewrite ?Z.quot_opp_l, ?Z.quot_opp_r in * by lia. set (q := Z.quot a b) in *. clearbody q.
  assert (forall x, s64 (u64 x) = s64 x) as Hs by (intros; ilia).
  destruct (Z.ltb_spec a 0), (Z.ltb_spec b 0); simpl; rewrite Hs.
  - rewrite Z.abs_eq by lia. done.
  - rewrite Z.abs_neq, i64_some by (lia || ilia). f_equal. ilia.
  - rewrite Z.abs_neq, i64_some by (lia || ilia). f_equal. ilia.
  - rewrite Z.abs_eq by lia. done.
Qed.

(** The negation of the smallest factor overflows. *)
Lemma duration_mul_min d : IsDurationValid d = true -> duration_mul d (- 2 ^ 63) = None.
Proof. intros Hd. unfold duration_mul. by rewrite ToUint128_eq. Qed.
Lemma duration_div_min d : IsDurationValid d = true -> duration_div d (- 2 ^ 63) = None.
Proof. intros Hd. unfold duration_div. by rewrite ToUint128_eq. Qed.

Lemma duration_lt_eq d1 d2 :
  IsDurationValid d1 = true -> IsDurationValid d2 = true ->
  duration_lt d1 d2 = (duration_ns d1 <? duration_ns d2).
Proof.
  rewrite !IsDurationValid_true. intros. unfold duration_lt. apply eq_true_iff_eq.
  destruct (Z.eqb_spec (d_seconds d1) (d_seconds d2)); rewrite !Z.ltb_lt; tlia.
Qed.

Lemma duration_eq_eq d1 d2 :
  IsDurationValid d1 = true -> IsDurationValid d2 = true ->
  duration_eq d1 d2 = (duration_ns d1 =? duration_ns d2).
Proof.
  rewrite !IsDurationValid_true. intros. unfold duration_eq. apply eq_true_iff_eq.
  rewrite andb_true_iff, !Z.eqb_eq. tlia.
Qed.

Lemma timestamp_lt_eq t1 t2 :
  IsTimestampValid t1 = true -> IsTimestampValid t2 = true ->
  timestamp_lt t1 t2 = (timestamp_ns t1 <? timestamp_ns t2).
Proof.
  rewrite !IsTimestampValid_true. intros. unfold timestamp_lt. apply eq_true_iff_eq.
  destruct (Z.eqb_spec (t_seconds t1) (t_seconds t2)); rewrite !Z.ltb_lt; tlia.
Qed.

Lemma timestamp_eq_eq t1 t2 :
  IsTimestampValid t1 = true -> IsTimestampValid t2 = true ->
  timestamp_eq t1 t2 = (timestamp_ns t1 =? timestamp_ns t2).
Proof.
  rewrite !IsTimestampValid_true. intros. unfold timestamp_eq. apply eq_true_iff_eq.
  rewrite andb_true_iff, !Z.eqb_eq. tlia.
Qed.

Lemma timestamp_total_out s n :
  - 1000000000 < n < 2000000000 -> (kTimestampMaxSeconds < s -> 0 <= n) ->
  (s < kTimestampMinSeconds -> n < 1000000000) ->
  timestamp_seconds_ok s = false -> in_timestamp (s * 1000000000 + n) = false.
Proof.
  intros Hn Hp Hm Hs. apply not_true_iff_false. rewrite in_timestamp_true.
  unfold timestamp_seconds_ok in Hs. rewrite andb_false_iff, !Z.leb_gt in Hs. tlia.
Qed.

Lemma timestamp_add_eq t d :
  IsTimestampValid t = true -> IsDurationValid d = true ->
  timestamp_add t d = timestamp_result (timestamp_ns t + duration_ns d).
Proof.
  rewrite IsTimestampValid_true, IsDurationValid_true. intros H1 H2. unfold timestamp_add.
  rewrite i64_some, i32_some by tlia. simpl. rewrite CreateNormalized_Timestamp_eq by (unfold is_s32; tlia).
  replace (timestamp_ns t + duration_ns d)
    with ((t_seconds t + d_seconds d) * 1000000000 + (t_nanos t + d_nanos d)) by tlia.
  destruct (timestamp_seconds_ok _) eqn:E; [done|]. unfold timestamp_result.
  rewrite timestamp_total_out; [done|tlia..|done].
Qed.

Lemma timestamp_sub_eq t d :
  IsTimestampValid t = true -> IsDurationValid d = true ->
  timestamp_sub t d = timestamp_result (timestamp_ns t - duration_ns d).
Proof.
  rewrite IsTimestampValid_true, IsDurationValid_true. intros H1 H2. unfold timestamp_sub.
  rewrite i64_some, i32_some by tlia. simpl. rewrite CreateNormalized_Timestamp_eq by (unfold is_s32; tlia).
  replace (timestamp_ns t - duration_ns d)
    with ((t_seconds t - d_seconds d) * 1000000000 + (t_nanos t - d_nanos d)) by tlia.
  destruct (timestamp_seconds_ok _) eqn:E; [done|]. unfold timestamp_result.
  rewrite timestamp_total_out; [done|tlia..|done].
Qed.

Lemma timestamp_diff_eq t1 t2 :
  IsTimestampValid t1 = true -> IsTimestampValid t2 = true ->
  timestamp_diff t1 t2 = Some (duration_of (timestamp_ns t1 - timestamp_ns t2)).
Proof.
  rewrite !IsTimestampValid_true. intros H1 H2. unfold timestamp_diff.
  rewrite i64_some, i32_some by tlia. simpl. rewrite CreateNormalized_Duration_eq by (unfold is_s32; tlia).
  replace (timestamp_ns t1 - timestamp_ns t2)
    with ((t_seconds t1 - t_seconds t2) * 1000000000 + (t_nanos t1 - t_nanos t2)) by tlia.
  unfold duration_seconds_ok. rewrite !(proj2 (Z.leb_le _ _)) by tlia. simpl.
  unfold duration_result. by rewrite (proj2 (in_duration_true _)) by tlia.
Qed.

(** ** Units *)

Lemma RoundTowardZero_quot v k : 0 < k -> RoundTowardZero v k = Z.quot v k.
Proof.
  intros Hk. unfold RoundTowardZero.
  destruct (Z.ltb_spec (Z.quot v k) 0), (Z.ltb_spec 0 (Z.rem v k)); simpl; try done.
  exfalso. pose proof (Z.quot_pos v k). pose proof (Z.rem_nonpos v k). lia.
Qed.

Ltac unit_to := intros; unfold DurationToMicroseconds, DurationToMilliseconds,
  DurationToMinutes, DurationToHours, DurationToSeconds, TimestampToMicroseconds, TimestampToMilliseconds,
  TimestampToSeconds.

(** The part of a duration in units of [k] nanoseconds is truncated toward zero,
    that of a timestamp downwards. *)
Lemma duration_units d :
  IsDurationValid d = true ->
  DurationToMicroseconds d = Some (Z.quot (duration_ns d) 1000) /\
  DurationToMilliseconds d = Some (Z.quot (duration_ns d) 1000000) /\
  DurationToSeconds d = Some (Z.quot (duration_ns d) 1000000000) /\
  DurationToMinutes d = Some (Z.quot (duration_ns d) (60 * 1000000000)) /\
  DurationToHours d = Some (Z.quot (duration_ns d) (3600 * 1000000000)) /\
  DurationToNanoseconds d = i64 (duration_ns d).
Proof.
  intros Hv. pose proof Hv as Hv'. rewrite IsDurationValid_true in Hv'. unit_to.
  unfold DurationToNanoseconds. rewrite Hv. simpl. rewrite !RoundTowardZero_quot by (unfold_time; lia).
  split; [|split; [|split; [|split; [|split]]]].
  - rewrite !i64_some by tlia. simpl. rewrite i64_some by tlia. f_equal. tlia.
  - rewrite !i64_some by tlia. simpl. rewrite i64_some by tlia. f_equal. tlia.
  - f_equal. tlia.
  - f_equal. rewrite (Z.mul_comm 60), <- Z.quot_quot by lia. f_equal. tlia.
  - f_equal. rewrite (Z.mul_comm 3600), <- Z.quot_quot by lia. f_equal. tlia.
  - destruct (decide (- 2 ^ 63 <= d_seconds d * kNanosPerSecond < 2 ^ 63)).
    + rewrite (i64_some (_ * _)) by done. done.
    + rewrite (i64_none (_ * _)) by done. symmetry. apply i64_none. tlia.
Qed.

Lemma timestamp_units t :
  IsTimestampValid t = true ->
  TimestampToMicroseconds t = Some (timestamp_ns t / 1000) /\
  TimestampToMilliseconds t = Some (timestamp_ns t / 1000000) /\
  TimestampToSeconds t = Some (timestamp_ns t / 1000000000) /\
  TimestampToTimeT t = timestamp_ns t / 1000000000 /\
  (- 2 ^ 63 <= t_seconds t * 1000000000 -> TimestampToNanoseconds t = i64 (timestamp_ns t)).
Proof.
  intros Hv. pose proof Hv as Hv'. rewrite IsTimestampValid_true in Hv'. unit_to.
  unfold TimestampToNanoseconds, TimestampToTimeT. rewrite Hv. simpl.
  rewrite !RoundTowardZero_quot by (unfold_time; lia).
  split; [|split; [|split; [|split]]].
  - rewrite !i64_some by tlia. simpl. rewrite i64_some by tlia. f_equal. tlia.
  - rewrite !i64_some by tlia. simpl. rewrite i64_some by tlia. f_equal. tlia.
  - f_equal. tlia.
  - tlia.
  - intros. destruct (decide (t_seconds t * kNanosPerSecond < 2 ^ 63)).
    + rewrite (i64_some (_ * _)) by (unfold_time; lia). done.
    + rewrite (i64_none (_ * _)) by lia. symmetry. apply i64_none. tlia.
Qed.

Lemma to_duration v s n :
  is_s32 n -> s * 1000000000 + n = v -> (in_duration v = true -> duration_seconds_ok s = true) ->
  CreateNormalized_Duration s n = duration_result v.
Proof.
  intros Hn <- Hs. rewrite CreateNormalized_Duration_eq by done. unfold duration_result.
  destruct (duration_seconds_ok s); [done|]. destruct (in_duration _); [by specialize (Hs eq_refl)|done].
Qed.
Lemma to_timestamp v s n :
  is_s32 n -> s * 1000000000 + n = v -> (in_timestamp v = true -> timestamp_seconds_ok s = true) ->
  CreateNormalized_Timestamp s n = timestamp_result v.
Proof.
  intros Hn <- Hs. rewrite CreateNormalized_Timestamp_eq by done. unfold timestamp_result.
  destruct (timestamp_seconds_ok s); [done|]. destruct (in_timestamp _); [by specialize (Hs eq_refl)|done].
Qed.

Ltac to_units :=
  intros; unfold NanosecondsToDuration, MicrosecondsToDuration, MillisecondsToDuration,
    SecondsToDuration, NanosecondsToTimestamp, MicrosecondsToTimestamp, MillisecondsToTimestamp,
    SecondsToTimestamp, TimeTToTimestamp;
  rewrite ?s32_id by (unfold is_s32; tlia);
  first [apply to_duration | apply to_timestamp]; [unfold is_s32; tlia|tlia|];
  rewrite ?in_duration_true, ?in_timestamp_true; unfold duration_seconds_ok, timestamp_seconds_ok;
  rewrite andb_true_iff, !Z.leb_le; tlia.

(** A number of units is the duration or the timestamp of as many nanoseconds,
    where there is one. *)
Lemma units_duration v :
  NanosecondsToDuration v = duration_result v /\
  MicrosecondsToDuration v = duration_result (v * 1000) /\
  MillisecondsToDuration v = duration_result (v * 1000000) /\
  SecondsToDuration v = duration_result (v * 1000000000).
Proof. split; [|split; [|split]]; to_units. Qed.

Lemma minutes_hours_duration v :
  MinutesToDuration v = duration_result (v * (60 * 1000000000)) /\
  HoursToDuration v = duration_result (v * (3600 * 1000000000)).
Proof.
  unfold MinutesToDuration, HoursToDuration.
  change (Z.quot kDurationMinSeconds kSecondsPerMinute) with (-5259600000).
  change (Z.quot kDurationMaxSeconds kSecondsPerMinute) with 5259600000.
  change (Z.quot kDurationMinSeconds kSecondsPerHour) with (-87660000).
  change (Z.quot kDurationMaxSeconds kSecondsPerHour) with 87660000.
  assert (forall lo hi k, 0 < k <= 3600 -> lo * k = kDurationMinSeconds -> hi * k = kDurationMaxSeconds ->
    (_ ← check ((lo <=? v) && (v <=? hi)); s ← i64 (v * k); SecondsToDuration s)
    = duration_result (v * (k * 1000000000))) as Hk.
  { intros lo hi k Hk Hlo Hhi. unfold kDurationMinSeconds, kDurationMaxSeconds in *.
    destruct (Z.leb_spec lo v), (Z.leb_spec v hi); simpl.
    - rewrite i64_some by nia. simpl. rewrite (proj2 (proj2 (proj2 (units_duration _)))).
      f_equal. lia.
    - unfold duration_result. destruct (in_duration _) eqn:E; [|done].
      rewrite in_duration_true in E. unfold max_duration_ns in E. nia.
    - unfold duration_result. destruct (in_duration _) eqn:E; [|done].
      rewrite in_duration_true in E. unfold max_duration_ns in E. nia.
    - nia. }
  split; apply Hk; done.
Qed.

Lemma units_timestamp v :
  NanosecondsToTimestamp v = timestamp_result v /\
  MicrosecondsToTimestamp v = timestamp_result (v * 1000) /\
  MillisecondsToTimestamp v = timestamp_result (v * 1000000) /\
  SecondsToTimestamp v = timestamp_result (v * 1000000000) /\
  TimeTToTimestamp v = timestamp_result (v * 1000000000).
Proof. split; [|split; [|split; [|split]]]; to_units. Qed.

(** *** timeval *)

Definition timeval_us (v : timeval) : Z := tv_sec v * 1000000 + tv_usec v.
Definition timeval_ok (v : timeval) : bool := (0 <=? tv_usec v) && (tv_usec v <? 1000000).

Lemma timeval_ok_true v : timeval_ok v = true <-> 0 <= tv_usec v < 1000000.
Proof. unfold timeval_ok. by rewrite andb_true_iff, Z.leb_le, Z.ltb_lt. Qed.

(** Into a [timeval]: rounded like the integers, with [tv_usec] in range. *)
Lemma duration_timeval d :
  IsDurationValid d = true ->
  exists v, DurationToTimeval d = Some v /\ timeval_ok v = true /\
    timeval_us v = Z.quot (duration_ns d) 1000.
Proof.
  rewrite IsDurationValid_true. intros Hv. unfold DurationToTimeval.
  rewrite RoundTowardZero_quot by done. destruct (Z.ltb_spec (Z.quot (d_nanos d) kNanosPerMicrosecond) 0).
  - rewrite i64_some by tlia. simpl. eexists. split; [done|].
    rewrite timeval_ok_true. unfold timeval_us; simpl. split; tlia.
  - eexists. split; [done|]. rewrite timeval_ok_true. unfold timeval_us; simpl. split; tlia.
Qed.

Lemma timestamp_timeval t :
  IsTimestampValid t = true ->
  timeval_ok (TimestampToTimeval t) = true /\
  timeval_us (TimestampToTimeval t) = timestamp_ns t / 1000.
Proof.
  rewrite IsTimestampValid_true, timeval_ok_true. intros Hv.
  unfold timeval_us, TimestampToTimeval; simpl. rewrite RoundTowardZero_quot by done. split; tlia.
Qed.

(** Out of a [timeval]; for durations only from the first whole second of the
    range on. *)
Lemma timeval_duration v :
  timeval_ok v = true -> kDurationMinSeconds <= tv_sec v ->
  TimevalToDuration v = duration_result (timeval_us v * 1000).
Proof.
  rewrite timeval_ok_true. intros Hv Hs. unfold TimevalToDuration. rewrite i64_some by tlia. simpl.
  rewrite s32_id by (unfold is_s32; tlia). apply to_duration; [unfold is_s32; tlia|unfold timeval_us; tlia|].
  rewrite in_duration_true. unfold duration_seconds_ok, timeval_us.
  rewrite andb_true_iff, !Z.leb_le. tlia.
Qed.

Lemma timeval_timestamp v :
  timeval_ok v = true -> TimevalToTimestamp v = timestamp_result (timeval_us v * 1000).
Proof.
  rewrite timeval_ok_true. intros Hv. unfold TimevalToTimestamp. rewrite i64_some by tlia. simpl.
  rewrite s32_id by (unfold is_s32; tlia). apply to_timestamp; [unfold is_s32; tlia|unfold timeval_us; tlia|].
  rewrite in_timestamp_true. unfold timestamp_seconds_ok, timeval_us.
  rewrite andb_true_iff, !Z.leb_le. tlia.
Qed.

(** ** The properties *)

(** C24: The operators on valid durations and timestamps are those of the
    integers on their numbers of nanoseconds. Sums, differences and negations are
    the value of the exact result where it is in range and fail the range check
    where it is not. A product in range and a quotient by an integer (truncated
    toward zero) are exact, unless the integer is [INT64_MIN], whose negation is
    undefined. A remainder is exact, with the sign of the dividend. The quotient of
    two durations, truncated toward zero, is cut to its 64 low bits, so that it is
    exact where it fits [int64]; left out are quotients whose low bits are those of
    [INT64_MIN], which the code may negate. The comparisons of durations and those
    of timestamps are exact. *)
Theorem duration_arithmetic (d1 d2 : Duration) (t1 t2 : Timestamp) (r : Z) :
  IsDurationValid d1 = true -> IsDurationValid d2 = true ->
  IsTimestampValid t1 = true -> IsTimestampValid t2 = true -> is_s64 r ->
  (duration_add d1 d2 = duration_result (duration_ns d1 + duration_ns d2) /\
   duration_sub d1 d2 = duration_result (duration_ns d1 - duration_ns d2) /\
   duration_neg d1 = duration_result (- duration_ns d1)) /\
  (timestamp_add t1 d1 = timestamp_result (timestamp_ns t1 + duration_ns d1) /\
   timestamp_sub t1 d1 = timestamp_result (timestamp_ns t1 - duration_ns d1) /\
   timestamp_diff t1 t2 = Some (duration_of (timestamp_ns t1 - timestamp_ns t2))) /\
  (r <> - 2 ^ 63 ->
   (in_duration (duration_ns d1 * r) = true ->
    duration_mul d1 r = Some (duration_of (duration_ns d1 * r))) /\
   (r <> 0 -> duration_div d1 r = Some (duration_of (Z.quot (duration_ns d1) r)))) /\
  (r = - 2 ^ 63 -> duration_mul d1 r = None /\ duration_div d1 r = None) /\
  (duration_ns d2 <> 0 ->
   duration_mod d1 d2 = Some (duration_of (Z.rem (duration_ns d1) (duration_ns d2))) /\
   (u64 (Z.quot (duration_ns d1) (duration_ns d2)) <> 2 ^ 63 ->
    duration_quot d1 d2 = Some (s64 (Z.quot (duration_ns d1) (duration_ns d2))))) /\
  (duration_lt d1 d2 = (duration_ns d1 <? duration_ns d2) /\
   duration_gt d1 d2 = (duration_ns d1 >? duration_ns d2) /\
   duration_ge d1 d2 = (duration_ns d1 >=? duration_ns d2) /\
   duration_le d1 d2 = (duration_ns d1 <=? duration_ns d2) /\
   duration_eq d1 d2 = (duration_ns d1 =? duration_ns d2) /\
   duration_ne d1 d2 = negb (duration_ns d1 =? duration_ns d2)) /\
  (timestamp_lt t1 t2 = (timestamp_ns t1 <? timestamp_ns t2) /\
   timestamp_gt t1 t2 = (timestamp_ns t1 >? timestamp_ns t2) /\
   timestamp_ge t1 t2 = (timestamp_ns t1 >=? timestamp_ns t2) /\
   timestamp_le t1 t2 = (timestamp_ns t1 <=? timestamp_ns t2) /\
   timestamp_eq t1 t2 = (timestamp_ns t1 =? timestamp_ns t2) /\
   timestamp_ne t1 t2 = negb (timestamp_ns t1 =? timestamp_ns t2)).
Proof.
  intros Hd1 Hd2 Ht1 Ht2 Hr. split; [split; [|split]|split; [split; [|split]|]].
  - by apply duration_add_eq.
  - by apply duration_sub_eq.
  - by apply duration_neg_eq.
  - by apply timestamp_add_eq.
  - by apply timestamp_sub_eq.
  - by apply timestamp_diff_eq.
  - split; [|split; [|split; [|split]]].
    + intros Hmin. unfold is_s64 in Hr. split; intros; [apply duration_mul_eq|apply duration_div_eq]; done || lia.
    + intros ->. by rewrite duration_mul_min, duration_div_min.
    + intros Hz. split; [by apply duration_mod_eq|intros; by apply duration_quot_low].
    + unfold duration_gt, duration_ge, duration_le, duration_ne. rewrite !duration_lt_eq, duration_eq_eq by done.
      by rewrite Z.gtb_ltb, Z.geb_leb, <- !Z.leb_antisym.
    + unfold timestamp_gt, timestamp_ge, timestamp_le, timestamp_ne. rewrite !timestamp_lt_eq, timestamp_eq_eq by done.
      by rewrite Z.gtb_ltb, Z.geb_leb, <- !Z.leb_antisym.
Qed.

Lemma duration_arithmetic_witness :
  let d1 := mkDuration (-1) (-500000000) in
  let d2 := mkDuration 0 700000001 in
  let t := mkTimestamp (-62135596800) 3 in
  duration_ns d1 = -1500000000 /\
  (duration_add d1 d2 = Some (mkDuration 0 (-799999999)) /\
   timestamp_sub t d1 = Some (mkTimestamp (-62135596799) 500000003) /\
   timestamp_add t d1 = None) /\
  duration_mod d1 d2 = Some (mkDuration 0 (-99999998)) /\ duration_quot d1 d2 = Some (-2).
Proof.
  intros d1 d2 t.
  destruct (duration_arithmetic d1 d2 t t 7) as ((Ha & _) & (Hta & Hts & _) & _ & _ & Hm & _);
    [done|done|done|done|ilia|].
  destruct Hm as [Hm Hq]; [done|]. specialize (Hq ltac:(by vm_compute)).
  rewrite Ha, Hta, Hts, Hm, Hq. repeat split; vm_compute; reflexivity.
Defined.

(** C36: A valid duration or timestamp and its number of nanoseconds determine
    each other; normalization makes every pair of seconds in range and any
    [int32] nanoseconds the value of their sum, or fails the range check when
    there is none. *)
Theorem normalized_values (s n k : Z) :
  is_s32 n ->
  (CreateNormalized_Duration s n =
     if duration_seconds_ok s then duration_result (s * 1000000000 + n) else None) /\
  (CreateNormalized_Timestamp s n =
     if timestamp_seconds_ok s then timestamp_result (s * 1000000000 + n) else None) /\
  (forall d, IsDurationValid d = true /\ duration_ns d = k <->
             in_duration k = true /\ d = duration_of k) /\
  (forall t, IsTimestampValid t = true /\ timestamp_ns t = k <->
             in_timestamp k = true /\ t = timestamp_of k).
Proof.
  intros Hn. split; [by apply CreateNormalized_Duration_eq|].
  split; [by apply CreateNormalized_Timestamp_eq|]. split; intros x; split.
  - intros [Hv <-]. rewrite in_duration_true, duration_of_ns by done.
    split; [by apply duration_valid_number|done].
  - rewrite in_duration_true. intros [Hk ->]. by apply duration_of_valid.
  - intros [Hv <-]. rewrite in_timestamp_true, timestamp_of_ns by done. split; [|done].
    rewrite IsTimestampValid_true in Hv. tlia.
  - rewrite in_timestamp_true. intros [Hk ->]. by apply timestamp_of_valid.
Qed.

Lemma normalized_values_witness :
  CreateNormalized_Duration 1 (-1999999999) = Some (mkDuration 0 (-999999999)) /\
  CreateNormalized_Timestamp (-5) (-2000000001) = Some (mkTimestamp (-8) 999999999) /\
  IsTimestampValid (timestamp_of (-1)) = true.
Proof.
  destruct (normalized_values 1 (-1999999999) 0) as (-> & _); [by vm_compute|].
  destruct (normalized_values (-5) (-2000000001) (-1)) as (_ & -> & _ & Ht); [by vm_compute|].
  split; [by vm_compute|]. split; [by vm_compute|].
  by destruct (Ht (timestamp_of (-1))) as [_ [-> _]].
Defined.

(** Conversion from a number of units gives the value of as many
    nanoseconds where there is one, and fails where there is none; conversion
    to a number of units truncates a duration toward zero and a timestamp
    downwards, and [timeval]s likewise with their microseconds in range. *)
Theorem unit_conversions (v : Z) (d : Duration) (t : Timestamp) (tv : timeval) :
  IsDurationValid d = true -> IsTimestampValid t = true -> timeval_ok tv = true ->
  (NanosecondsToDuration v = duration_result v /\
   MicrosecondsToDuration v = duration_result (v * 1000) /\
   MillisecondsToDuration v = duration_result (v * 1000000) /\
   SecondsToDuration v = duration_result (v * 1000000000)) /\
  (MinutesToDuration v = duration_result (v * (60 * 1000000000)) /\
   HoursToDuration v = duration_result (v * (3600 * 1000000000))) /\
  (NanosecondsToTimestamp v = timestamp_result v /\
   MicrosecondsToTimestamp v = timestamp_result (v * 1000) /\
   MillisecondsToTimestamp v = timestamp_result (v * 1000000) /\
   SecondsToTimestamp v = timestamp_result (v * 1000000000) /\
   TimeTToTimestamp v = timestamp_result (v * 1000000000)) /\
  (DurationToMicroseconds d = Some (Z.quot (duration_ns d) 1000) /\
   DurationToMilliseconds d = Some (Z.quot (duration_ns d) 1000000) /\
   DurationToSeconds d = Some (Z.quot (duration_ns d) 1000000000) /\
   DurationToMinutes d = Some (Z.quot (duration_ns d) (60 * 1000000000)) /\
   DurationToHours d = Some (Z.quot (duration_ns d) (3600 * 1000000000)) /\
   DurationToNanoseconds d = i64 (duration_ns d)) /\
  (TimestampToMicroseconds t = Some (timestamp_ns t / 1000) /\
   TimestampToMilliseconds t = Some (timestamp_ns t / 1000000) /\
   TimestampToSeconds t = Some (timestamp_ns t / 1000000000) /\
   TimestampToTimeT t = timestamp_ns t / 1000000000 /\
   (- 2 ^ 63 <= t_seconds t * 1000000000 -> TimestampToNanoseconds t = i64 (timestamp_ns t))) /\
  (exists w, DurationToTimeval d = Some w /\ timeval_ok w = true /\
     timeval_us w = Z.quot (duration_ns d) 1000) /\
  (timeval_ok (TimestampToTimeval t) = true /\
   timeval_us (TimestampToTimeval t) = timestamp_ns t / 1000) /\
  TimevalToTimestamp tv = timestamp_result (timeval_us tv * 1000) /\
  (kDurationMinSeconds <= tv_sec tv ->
   TimevalToDuration tv = duration_result (timeval_us tv * 1000)).
Proof.
  intros Hd Ht Htv. split; [apply units_duration|]. split; [apply minutes_hours_duration|].
  split; [apply units_timestamp|]. split; [by apply duration_units|].
  split; [by apply timestamp_units|]. split; [by apply duration_timeval|].
  split; [by apply timestamp_timeval|]. split; [by apply timeval_timestamp|].
  by apply timeval_duration.
Qed.

Lemma unit_conversions_witness :
  let d := mkDuration (-1) (-500000000) in
  let t := mkTimestamp (-1) 900000000 in
  MillisecondsToDuration (-1500) = Some d /\ MinutesToDuration 5259600001 = None /\
  DurationToSeconds d = Some (-1) /\ TimestampToMilliseconds t = Some (-100) /\
  TimestampToSeconds t = Some (-1) /\
  TimevalToTimestamp (mkTimeval (-1) 900000) = Some t.
Proof.
  intros d t.
  destruct (unit_conversions (-1500) d t (mkTimeval (-1) 900000))
    as ((_ & _ & Hms & _) & _ & _ & (_ & _ & Hs & _) & (_ & Htm & Hts & _) & _ & _ & Htv & _);
    [done|done|done|].
  destruct (unit_conversions 5259600001 d t (mkTimeval 0 0)) as (_ & (Hm & _) & _); [done|done|done|].
  rewrite Hms, Hm, Hs, Htm, Hts, Htv. repeat split; vm_compute; reflexivity.
Defined.

(** *** Values lost at the ends of the ranges *)

(** A duration in its first second becomes a [timeval] that is refused on the
    way back, since its seconds are one below the range before the
    microseconds are added. *)
Example timeval_below_range :
  let d := mkDuration (-315576000000) (-500000000) in
  IsDurationValid d = true /\
  DurationToTimeval d = Some (mkTimeval (-315576000001) 500000) /\
  TimevalToDuration (mkTimeval (-315576000001) 500000) = None.
Proof. vm_compute. done. Qed.

(** The nanoseconds of a timestamp may fit where its seconds alone do not. *)
Example timestamp_nanoseconds_overflow :
  NanosecondsToTimestamp (- 2 ^ 63) = Some (mkTimestamp (-9223372037) 145224192) /\
  TimestampToNanoseconds (mkTimestamp (-9223372037) 145224192) = None.
Proof. vm_compute. done. Qed.
