(* ===== verification/TimeUtilStrings.v ===== *)
(** * The string form of a duration

    [TimeUtil::ToString] and [FromString] of [util/time_util.cc] are inverse on
    valid durations, for any integer formatting that prints decimal digits. *)

From Stdlib Require Import Strings.Byte Strings.String.
From S2P Require Import Prelude TimeUtil TimeUtilSpec.

(** ** Decimal digits *)

Definition digits (l : list byte) : Prop := Forall (fun c => is_digit c = true) l.
Definition decimal (l : list byte) : Z :=
  fold_left (fun a c => 10 * a + (b2z c - 48)) l 0.

(** What the code relies on of the formatting of the absl library: digits that
    spell the number, and as many as the format asks for. *)
Class DecimalFormat (StrAppend : Z -> list byte) (StrFormat0 : Z -> Z -> list byte) : Prop := {
  append_digits n : 0 <= n < 2 ^ 63 ->
    digits (StrAppend n) /\ StrAppend n <> [] /\ decimal (StrAppend n) = n;
  format_digits w n : 0 < w -> 0 <= n < 10 ^ w ->
    digits (StrFormat0 w n) /\ zlen (StrFormat0 w n) = w /\ decimal (StrFormat0 w n) = n;
}.

Lemma digit_not_special c :
  is_digit c = true -> c <> ch_minus /\ c <> ch_plus /\ c <> ch_dot /\ is_space c = false.
Proof.
  unfold is_digit. rewrite andb_true_iff, !Z.leb_le. intros H.
  split; [|split; [|split]]; try (intros ->; vm_compute in H; naive_solver).
  unfold is_space. rewrite orb_false_iff, andb_false_iff, Z.eqb_neq, !Z.leb_gt. lia.
Qed.

Lemma digits_notin c l : is_digit c = false -> digits l -> c ∉ l.
Proof. unfold digits. intros Hc Hl Hin. rewrite Forall_forall in Hl. specialize (Hl c Hin). congruence. Qed.

Lemma read_digits_spec l acc :
  digits l -> read_digits acc l = (fold_left (fun a c => 10 * a + (b2z c - 48)) l acc, []).
Proof.
  revert acc. induction l as [|c l IH]; intros acc Hd; simpl; [done|].
  inversion_clear Hd as [|? ? Hc Hl]. rewrite Hc. by apply IH.
Qed.

Lemma strtoll_digits l :
  digits l -> l <> [] -> decimal l < 2 ^ 63 -> strtoll l = (decimal l, []).
Proof.
  intros Hd Hne Hv. destruct l as [|c l]; [done|]. pose proof Hd as Hd'. inversion_clear Hd' as [|? ? Hc _].
  destruct (digit_not_special c Hc) as (? & ? & ? & Hs). unfold strtoll. simpl skip_spaces. rewrite Hs.
  rewrite (decide_False (P := c = ch_minus)), (decide_False (P := c = ch_plus)), Hc by done.
  rewrite read_digits_spec by done. fold (decimal (c :: l)). f_equal. lia.
Qed.

(** ** The parts of the string *)

Lemma find_last_none c l : c ∉ l -> find_last c l = None.
Proof.
  induction l as [|x l IH]; [done|]. rewrite not_elem_of_cons. intros [Hx Hl]. simpl.
  rewrite IH by done. by rewrite decide_False by done.
Qed.

Lemma find_last_app c l1 l2 : c ∉ l2 -> find_last c (l1 ++ c :: l2) = Some (zlen l1).
Proof.
  intros Hc. induction l1 as [|x l1 IH].
  - simpl. rewrite find_last_none by done. by rewrite decide_True by done.
  - simpl. rewrite IH. f_equal. rewrite zlen_cons. lia.
Qed.

Definition sign_of (negative : bool) : list byte := if negative then [ch_minus] else [].
Definition signed (negative : bool) (z : Z) : Z := if negative then - z else z.

Lemma zlen_sign negative : zlen (sign_of negative) = if negative then 1 else 0.
Proof. by destruct negative. Qed.

Lemma last_s l : last (l ++ [ch_s]) = Some ch_s.
Proof. apply last_snoc. Qed.

Lemma head_sign negative sec rest :
  digits sec -> sec <> [] ->
  bool_decide (head (sign_of negative ++ sec ++ rest) = Some ch_minus) = negative.
Proof.
  intros Hd Hne. destruct negative; [done|]. destruct sec as [|c sec]; [done|].
  inversion_clear Hd as [|? ? Hc _]. destruct (digit_not_special c Hc) as (? & _).
  simpl. apply bool_decide_eq_false. congruence.
Qed.

(** The end of [FromString], from the two numbers. *)
Lemma finish_duration negative s n :
  0 <= s < 2 ^ 63 -> 0 <= n < 2 ^ 31 ->
  (if negative : bool then
     seconds ← i64 (- s); nanos ← i64 (- n); Some (Some (mkDuration seconds (s32 nanos)))
   else Some (Some (mkDuration s (s32 n))))
  = Some (Some (mkDuration (signed negative s) (signed negative n))).
Proof.
  intros Hs Hn. destruct negative; simpl.
  - rewrite !i64_some by lia. simpl. by rewrite s32_id by (unfold is_s32; lia).
  - by rewrite s32_id by (unfold is_s32; lia).
Qed.

Lemma FromString_whole negative sec :
  digits sec -> sec <> [] -> decimal sec < 2 ^ 63 -> 0 <= decimal sec ->
  FromString (sign_of negative ++ sec ++ [ch_s])
  = Some (Some (mkDuration (signed negative (decimal sec)) 0)).
Proof.
  intros Hd Hne Hv Hp. unfold FromString. rewrite head_sign by done.
  assert (1 <= zlen sec) as Hz by (destruct sec; [done|rewrite zlen_cons; pose proof (zlen_nonneg sec); lia]).
  set (v := sign_of negative ++ sec ++ [ch_s]).
  assert (zlen v = zlen (sign_of negative) + zlen sec + 1) as Hlen
    by (unfold v; rewrite !zlen_app, zlen_cons, zlen_nil; lia).
  rewrite (proj2 (Z.leb_gt _ _)) by (pose proof (zlen_nonneg (sign_of negative)); lia).
  assert (last v = Some ch_s) as -> by (unfold v; rewrite app_assoc; apply last_s).
  rewrite bool_decide_true by done. cbn [negb orb].
  rewrite find_last_none.
  2:{ unfold v. rewrite !not_elem_of_app. split_and!.
      - destruct negative; simpl; [|by apply not_elem_of_nil]. rewrite list_elem_of_singleton. done.
      - by apply digits_notin.
      - rewrite list_elem_of_singleton. done. }
  rewrite <- zlen_sign. unfold v at 2. rewrite (zdrop_app_exact (zlen (sign_of negative))) by done.
  rewrite Hlen, ztake_app_exact by lia. rewrite strtoll_digits by done.
  change (negb (zlen (@nil byte) =? 0)) with false. cbv beta iota.
  change (strtoll ["0"%byte]) with (0, @nil byte). cbv beta iota.
  change (negb (zlen (@nil byte) =? 0)) with false. cbv beta iota.
  change (Pow 10 (s32 (9 - zlen ["0"%byte]))) with (Some 100000000). cbn [mbind option_bind].
  change (i64 (0 * 100000000)) with (Some 0). cbn [mbind option_bind].
  rewrite (finish_duration negative (decimal sec) 0) by lia. by destruct negative.
Qed.

Lemma FromString_fraction negative sec frac p :
  digits sec -> sec <> [] -> 0 <= decimal sec < 2 ^ 63 ->
  digits frac -> frac <> [] -> 0 <= decimal frac < 2 ^ 63 ->
  Pow 10 (s32 (9 - zlen frac)) = Some p -> 0 <= decimal frac * p < 2 ^ 31 ->
  FromString (sign_of negative ++ sec ++ [ch_dot] ++ frac ++ [ch_s])
  = Some (Some (mkDuration (signed negative (decimal sec)) (signed negative (decimal frac * p)))).
Proof.
  intros Hd Hne Hv Hdf Hnf Hvf Hp Hn. unfold FromString. rewrite head_sign by done.
  assert (1 <= zlen sec) as Hz by (destruct sec; [done|rewrite zlen_cons; pose proof (zlen_nonneg sec); lia]).
  pose proof (zlen_nonneg frac). pose proof (zlen_nonneg (sign_of negative)).
  set (v := sign_of negative ++ sec ++ [ch_dot] ++ frac ++ [ch_s]).
  assert (v = (sign_of negative ++ sec) ++ ch_dot :: (frac ++ [ch_s])) as Ev
    by (unfold v; by rewrite <- app_assoc).
  assert (zlen v = zlen (sign_of negative) + zlen sec + zlen frac + 2) as Hlen
    by (unfold v; rewrite !zlen_app, !zlen_cons, !zlen_nil; lia).
  rewrite (proj2 (Z.leb_gt _ _)) by lia.
  assert (last v = Some ch_s) as -> by (unfold v; rewrite !app_assoc; apply last_s).
  rewrite bool_decide_true by done. simpl.
  assert (find_last ch_dot v = Some (zlen (sign_of negative ++ sec))) as ->.
  { rewrite Ev. apply find_last_app. rewrite not_elem_of_app. split; [by apply digits_notin|].
    rewrite list_elem_of_singleton. done. }
  rewrite <- zlen_sign. unfold v at 1. rewrite (zdrop_app_exact (zlen (sign_of negative))) by done.
  rewrite ztake_app_exact by (rewrite zlen_app; lia). rewrite strtoll_digits by (done || lia).
  change (zlen (@nil byte)) with 0. simpl.
  assert (ztake (zlen v - zlen (sign_of negative ++ sec) - 2)
            (zdrop (zlen (sign_of negative ++ sec) + 1) v) = frac) as ->.
  { rewrite Ev at 2. rewrite zdrop_app, zdrop_all by lia. simpl.
    rewrite zdrop_cons by lia. rewrite zdrop_0 by lia. apply ztake_app_exact. rewrite zlen_app. lia. }
  rewrite strtoll_digits by (done || lia). change (zlen (@nil byte)) with 0. simpl. rewrite Hp. simpl.
  rewrite (i64_some (decimal frac * p)) by lia. simpl. by rewrite finish_duration by lia.
Qed.

(** ** The round trip *)

Section roundtrip.
Context {StrAppend : Z -> list byte} {StrFormat0 : Z -> Z -> list byte}
  `{!DecimalFormat StrAppend StrFormat0}.

(** Three, six or nine digits that spell [n] nanoseconds. *)
Lemma FormatNanos_spec n :
  0 < n < 1000000000 ->
  exists p, digits (FormatNanos StrFormat0 n) /\ FormatNanos StrFormat0 n <> [] /\
    Pow 10 (s32 (9 - zlen (FormatNanos StrFormat0 n))) = Some p /\
    0 <= decimal (FormatNanos StrFormat0 n) < 2 ^ 63 /\ decimal (FormatNanos StrFormat0 n) * p = n.
Proof.
  intros Hn.
  assert (forall w m p, 0 < w -> 0 <= m < 10 ^ w -> 10 ^ w <= 10 ^ 9 ->
    Pow 10 (s32 (9 - w)) = Some p -> m * p = n ->
    exists p, digits (StrFormat0 w m) /\ StrFormat0 w m <> [] /\
      Pow 10 (s32 (9 - zlen (StrFormat0 w m))) = Some p /\
      0 <= decimal (StrFormat0 w m) < 2 ^ 63 /\ decimal (StrFormat0 w m) * p = n) as Hw.
  { intros w m p Hw Hm Hmax Hp Hmp. destruct (format_digits w m Hw Hm) as (Hd & Hz & Hv).
    exists p. rewrite Hz, Hv. split; [done|]. split; [|split; [done|]].
    - intros E. rewrite E in Hz. change (zlen (@nil byte)) with 0 in Hz. lia.
    - change (10 ^ 9) with 1000000000 in Hmax. split; [lia|done]. }
  unfold FormatNanos. destruct (Z.eqb_spec (Z.rem n kNanosPerMillisecond) 0).
  { apply (Hw 3 _ 1000000); [done|change (10 ^ 3) with 1000; tlia|done|done|tlia]. }
  destruct (Z.eqb_spec (Z.rem n kNanosPerMicrosecond) 0).
  { apply (Hw 6 _ 1000); [done|change (10 ^ 6) with 1000000; tlia|done|done|tlia]. }
  apply (Hw 9 _ 1); [done|change (10 ^ 9) with 1000000000; tlia|done|done|lia].
Qed.

(** The magnitudes and the sign that [ToString] prints. *)
Lemma ToString_parts d :
  IsDurationValid d = true ->
  exists negative s n, 0 <= s < 2 ^ 63 /\ 0 <= n < 1000000000 /\
    d = mkDuration (signed negative s) (signed negative n) /\
    ToString StrAppend StrFormat0 d = Some (sign_of negative ++ StrAppend s ++
      (if negb (n =? 0) then [ch_dot] ++ FormatNanos StrFormat0 n else []) ++ [ch_s]).
Proof.
  rewrite IsDurationValid_true. destruct d as [s n]; simpl. intros Hv. unfold ToString; simpl.
  destruct (orb _ _) eqn:E.
  - rewrite i64_some, i32_some by tlia. simpl. exists true, (- s), (- n).
    rewrite orb_true_iff, !Z.ltb_lt in E. split; [tlia|]. split; [tlia|]. split; [|done].
    unfold signed. f_equal; lia.
  - rewrite orb_false_iff, !Z.ltb_ge in E. exists false, s, n. split; [tlia|]. split; [tlia|]. done.
Qed.

(** C33: [ToString] of a valid duration, with three, six or nine digits of
    fraction, is read back by [FromString] as that duration. *)
Theorem duration_string_roundtrip d :
  IsDurationValid d = true ->
  exists str, ToString StrAppend StrFormat0 d = Some str /\ FromString str = Some (Some d).
Proof.
  intros Hv. destruct (ToString_parts d Hv) as (negative & s & n & Hs & Hn & -> & ->).
  eexists. split; [done|]. destruct (append_digits s Hs) as (Hd & Hne & Es).
  destruct (Z.eqb_spec n 0) as [->|Hz]; cbn [negb].
  - rewrite app_nil_l, FromString_whole by (done || lia). rewrite Es. by destruct negative.
  - destruct (FormatNanos_spec n) as (p & Hdf & Hnf & Hp & Hvf & Ep); [lia|].
    rewrite <- app_assoc, (FromString_fraction negative _ _ p) by (done || lia).
    by rewrite Es, Ep.
Qed.
End roundtrip.

(** ** A formatter *)

Definition digit_char (d : Z) : byte := z2b (48 + d).
Fixpoint pad (w : nat) (n : Z) : list byte :=
  match w with O => [] | S w => pad w (n / 10) ++ [digit_char (n mod 10)] end.
Fixpoint width (fuel : nat) (n : Z) : nat :=
  match fuel with O => 1 | S fuel => if n <? 10 then 1 else S (width fuel (n / 10)) end.
Definition sample_append (n : Z) : list byte := pad (width 18 n) n.
Definition sample_format (w n : Z) : list byte := pad (Z.to_nat w) n.

Lemma decimal_snoc l c : decimal (l ++ [c]) = 10 * decimal l + (b2z c - 48).
Proof. unfold decimal. by rewrite fold_left_app. Qed.

Lemma pad_spec w n :
  0 <= n < 10 ^ Z.of_nat w -> digits (pad w n) /\ length (pad w n) = w /\ decimal (pad w n) = n.
Proof.
  revert n. induction w as [|w IH]; intros n Hn; simpl.
  { change (10 ^ Z.of_nat 0) with 1 in Hn. split; [by constructor|]. split; [done|]. change (0 = n). lia. }
  rewrite Nat2Z.inj_succ, Z.pow_succ_r in Hn by lia.
  destruct (IH (n / 10)) as (Hd & Hl & Hv); [Z.div_mod_to_equations; lia|].
  assert (0 <= n mod 10 < 10) by (apply Z.mod_pos_bound; lia).
  assert (b2z (digit_char (n mod 10)) = 48 + n mod 10) as Hb
    by (unfold digit_char; rewrite b2z_z2b; apply Z.mod_small; lia).
  split; [|split].
  - apply Forall_app_2; [done|]. constructor; [|constructor]. unfold is_digit. rewrite Hb.
    rewrite andb_true_iff, !Z.leb_le. lia.
  - rewrite length_app, Hl. simpl. lia.
  - rewrite decimal_snoc, Hv, Hb. pose proof (Z.div_mod n 10). lia.
Qed.

Lemma width_spec fuel n : 0 <= n < 10 ^ Z.of_nat (S fuel) -> n < 10 ^ Z.of_nat (width fuel n) /\ (0 < width fuel n)%nat.
Proof.
  revert n. induction fuel as [|fuel IH]; intros n Hn; simpl; [split; [apply Hn|lia]|].
  destruct (Z.ltb_spec n 10); [split; [|lia]; change (10 ^ Z.of_nat 1) with 10; lia|].
  rewrite Nat2Z.inj_succ, Z.pow_succ_r in Hn by lia.
  destruct (IH (n / 10)) as [Hw _]; [Z.div_mod_to_equations; lia|].
  rewrite Nat2Z.inj_succ, Z.pow_succ_r by lia. split; [|lia]. Z.div_mod_to_equations; lia.
Qed.

Lemma sample_format_ok : DecimalFormat sample_append sample_format.
Proof.
  constructor.
  - intros n Hn. unfold sample_append. destruct (width_spec 18 n) as [Hw Hp].
    { change (10 ^ Z.of_nat 19) with 10000000000000000000. zify_pow. lia. }
    destruct (pad_spec (width 18 n) n) as (Hd & Hl & Hv); [lia|]. split; [done|]. split; [|done].
    intros E. rewrite E in Hl. change (0%nat = width 18 n) in Hl. lia.
  - intros w n Hw Hn. unfold sample_format.
    destruct (pad_spec (Z.to_nat w) n) as (Hd & Hl & Hv); [by rewrite Z2Nat.id by lia|].
    split; [done|]. split; [unfold zlen; lia|done].
Qed.

Lemma duration_string_roundtrip_witness :
  (exists str, ToString sample_append sample_format (mkDuration (-3) (-100000000)) = Some str /\
    FromString str = Some (Some (mkDuration (-3) (-100000000)))) /\
  ToString sample_append sample_format (mkDuration (-3) (-100000000))
    = Some (list_byte_of_string "-3.100s").
Proof.
  split; [|by vm_compute].
  apply (duration_string_roundtrip (DecimalFormat0 := sample_format_ok) (mkDuration (-3) (-100000000))).
  by vm_compute.
Defined.

(** ** Strings that should not be durations *)

Notation parse s := (FromString (list_byte_of_string s)).

(** More than nine digits of fraction are read as that many nanoseconds and cut
    to 32 bits, so that the result is not a valid duration or not the one
    written; signs and spaces inside of the string are accepted; and a second
    sign in front of the smallest [int64] overflows. *)
Example long_fractions_accepted :
  parse "0.1234567890s" = Some (Some (mkDuration 0 1234567890)) /\
  parse "0.9999999999s" = Some (Some (mkDuration 0 1410065407)) /\
  IsDurationValid (mkDuration 0 1410065407) = false.
Proof. vm_compute. done. Qed.

Example inner_signs_accepted :
  parse "--5s" = Some (Some (mkDuration 5 0)) /\
  parse "1.-50s" = Some (Some (mkDuration 1 (-50000000))) /\
  parse "- 1. 5s" = Some (Some (mkDuration (-1) (-50000000))) /\
  parse "-s" = Some (Some (mkDuration 0 0)).
Proof. vm_compute. done. Qed.

Example smallest_seconds_overflow : parse "--9223372036854775808s" = None.
Proof. vm_compute. done. Qed.
