(* ===== verification/FieldMask.v ===== *)
(** * Field masks

    [util/field_mask_util.cc]: a field mask is a list of paths of field names;
    [FieldMaskTree] is the tree in which its operations are done. The message
    operations ([MergeMessageTo], [TrimMessage]) go through reflection and are
    not modelled. *)

From Stdlib Require Import Strings.Byte.
From S2P Require Import Prelude.

Notation name := (list byte) (only parsing).

Definition ch_dot : byte := "."%byte.
Definition ch_comma : byte := ","%byte.
Definition ch_underscore : byte := "_"%byte.

(** The string functions of the absl library that the code calls:
    [absl::StrSplit] and [absl::StrJoin] at a character and
    [absl::ConsumePrefix], which returns the rest behind the prefix. *)
Class AbslStrings := {
  StrSplit : list byte -> byte -> list (list byte);
  StrJoin : list (list byte) -> byte -> list byte;
  ConsumePrefix : list byte -> list byte -> option (list byte);
}.

(** What the code asks of a message descriptor: its fields in order, the field
    of a name, and a field's name, the message type of a field whose
    [cpp_type] is a message, and whether it is repeated. *)
Class Descriptors := {
  Descriptor : Type;
  FieldDescriptor : Type;
  field : Descriptor -> list FieldDescriptor;
  FindFieldByName : Descriptor -> list byte -> option FieldDescriptor;
  field_name : FieldDescriptor -> list byte;
  message_type : FieldDescriptor -> option Descriptor;
  is_repeated : FieldDescriptor -> bool;
}.

(** The message's only field, [paths]. *)
Definition FieldMask := list (list byte).

(** ** Case conversion

    Success and the output, which holds what was converted so far when a
    conversion fails. *)

Definition is_upper (c : byte) : bool := (65 <=? b2z c) && (b2z c <=? 90).
Definition is_lower (c : byte) : bool := (97 <=? b2z c) && (b2z c <=? 122).
Definition to_upper (c : byte) : byte := z2b (b2z c + 65 - 97).
Definition to_lower (c : byte) : byte := z2b (b2z c + 97 - 65).

Fixpoint SnakeCaseToCamelCase_loop (after_underscore : bool) (input output : list byte)
    : bool * list byte :=
  match input with
  | [] => (negb after_underscore, output)
  | c :: input =>
      if is_upper c then (false, output)
      else if after_underscore then
        if is_lower c then SnakeCaseToCamelCase_loop false input (output ++ [to_upper c])
        else (false, output)
      else if decide (c = ch_underscore) then SnakeCaseToCamelCase_loop true input output
      else SnakeCaseToCamelCase_loop false input (output ++ [c])
  end.
Definition SnakeCaseToCamelCase (input : list byte) : bool * list byte :=
  SnakeCaseToCamelCase_loop false input [].

Fixpoint CamelCaseToSnakeCase_loop (input output : list byte) : bool * list byte :=
  match input with
  | [] => (true, output)
  | c :: input =>
      if decide (c = ch_underscore) then (false, output)
      else if is_upper c then
        CamelCaseToSnakeCase_loop input (output ++ [ch_underscore; to_lower c])
      else CamelCaseToSnakeCase_loop input (output ++ [c])
  end.
Definition CamelCaseToSnakeCase (input : list byte) : bool * list byte :=
  CamelCaseToSnakeCase_loop input [].

(** ** The tree

    The children are an ordered map from names to nodes; a leaf has none. *)

Inductive Node := mkNode (children_ : list (list byte * Node)).
Definition children (n : Node) : list (list byte * Node) := let 'mkNode l := n in l.
Definition empty (n : Node) : bool := match children n with [] => true | _ => false end.

(** The order of [std::string]. *)
Fixpoint string_ltb (a b : list byte) : bool :=
  match a, b with
  | _, [] => false
  | [], _ :: _ => true
  | x :: a, y :: b => (b2z x <? b2z y) || ((b2z x =? b2z y) && string_ltb a b)
  end.

Fixpoint lookup_child (k : list byte) (l : list (list byte * Node)) : option Node :=
  match l with
  | [] => None
  | (k', n) :: l => if decide (k = k') then Some n else lookup_child k l
  end.
Fixpoint set_child (k : list byte) (n : Node) (l : list (list byte * Node))
    : list (list byte * Node) :=
  match l with
  | [] => [(k, n)]
  | (k', n') :: l' =>
      if decide (k = k') then (k, n) :: l'
      else if string_ltb k k' then (k, n) :: l
      else (k', n') :: set_child k n l'
  end.
Fixpoint erase_child (k : list byte) (l : list (list byte * Node)) : list (list byte * Node) :=
  match l with
  | [] => []
  | (k', n) :: l => if decide (k = k') then l else (k', n) :: erase_child k l
  end.

(** [prefix.empty() ? name : prefix + "." + name] *)
Definition sub_path (prefix k : list byte) : list byte :=
  match prefix with [] => k | _ => prefix ++ [ch_dot] ++ k end.

Section trees.
Context `{!AbslStrings}.

(** The loop of [AddPath] over the parts of the path from a node on. *)
Fixpoint AddPath_loop (root new_branch : bool) (parts : list (list byte)) (node : Node) : Node :=
  match parts with
  | [] => mkNode []
  | node_name :: parts =>
      if negb new_branch && negb root && empty node then node
      else
        match lookup_child node_name (children node) with
        | None =>
            mkNode (set_child node_name (AddPath_loop false true parts (mkNode [])) (children node))
        | Some child =>
            mkNode (set_child node_name (AddPath_loop false new_branch parts child) (children node))
        end
  end.
Definition AddPath (path : list byte) (root : Node) : Node :=
  match StrSplit path ch_dot with
  | [] => root
  | parts => AddPath_loop true false parts root
  end.

Definition MergeFromFieldMask (mask : FieldMask) (root : Node) : Node :=
  fold_left (fun root path => AddPath path root) mask root.

(** The paths added to the mask for a sub-tree. *)
Fixpoint MergeToFieldMask (prefix : list byte) (node : Node) : FieldMask :=
  match node with
  | mkNode [] => match prefix with [] => [] | _ => [prefix] end
  | mkNode l => flat_map (fun kv => MergeToFieldMask (sub_path prefix (fst kv)) (snd kv)) l
  end.

Fixpoint MergeLeafNodesToTree (prefix : list byte) (node out : Node) : Node :=
  match node with
  | mkNode l =>
      fold_left (fun out kv => MergeLeafNodesToTree (sub_path prefix (fst kv)) (snd kv) out) l
        (match l with [] => AddPath prefix out | _ => out end)
  end.

Fixpoint IntersectPath_loop (path : list byte) (root : bool) (parts : list (list byte))
    (node out : Node) : Node :=
  match parts with
  | [] => MergeLeafNodesToTree path node out
  | node_name :: parts =>
      if empty node then (if root then out else AddPath path out)
      else
        match lookup_child node_name (children node) with
        | None => out
        | Some child => IntersectPath_loop path false parts child out
        end
  end.
Definition IntersectPath (path : list byte) (root out : Node) : Node :=
  match StrSplit path ch_dot with
  | [] => out
  | parts => IntersectPath_loop path true parts root out
  end.

(** *** Removing a path *)

Section descriptors.
Context `{!Descriptors}.

(** How the walk down to the path's node ends: at a name that is not a field or
    has no fields below it, at a name not in the tree, at the node. *)
Inductive walk := Invalid | Absent | Found.

Definition is_nil {A} (l : list A) : bool := match l with [] => true | _ => false end.

(** The walk replaces a leaf on its way by the fields of its message; the first
    node where it did ([new_branch] is set below it) gets its leaf back when the
    path turns out to be invalid. A field that is not a message keeps the
    current descriptor. *)
Fixpoint RemovePath_walk (new_branch : bool) (parts : list (list byte)) (d : Descriptor)
    (node : Node) : Node * walk :=
  match parts with
  | [] => (node, Found)
  | part :: parts =>
      match FindFieldByName d part with
      | None => (node, Invalid)
      | Some f =>
          if negb (bool_decide (is_Some (message_type f))) && negb (is_nil parts)
          then (node, Invalid)
          else
            let here := empty node && negb new_branch in
            let l := if empty node
                     then fold_left (fun l f => set_child (field_name f) (mkNode []) l) (field d) []
                     else children node in
            match lookup_child part l with
            | None => (mkNode l, Absent)
            | Some child =>
                let '(child, w) :=
                  RemovePath_walk (new_branch || here) parts
                    (match message_type f with Some m => m | None => d end) child in
                match w with
                | Invalid => if here then (mkNode [], Invalid)
                             else (mkNode (set_child part child l), Invalid)
                | _ => (mkNode (set_child part child l), w)
                end
            end
      end
  end.

(** The last loop: erase the path's node, and its parents as long as they have
    no children left. *)
Fixpoint RemovePath_erase (parts : list (list byte)) (node : Node) : Node :=
  match parts with
  | [] => node
  | [part] => mkNode (erase_child part (children node))
  | part :: parts =>
      match lookup_child part (children node) with
      | None => node
      | Some child =>
          let child := RemovePath_erase parts child in
          if empty child then mkNode (erase_child part (children node))
          else mkNode (set_child part child (children node))
      end
  end.

Definition RemovePath (path : list byte) (d : Descriptor) (root : Node) : Node :=
  if empty root then root else
  match StrSplit path ch_dot with
  | [] => root
  | parts =>
      let '(root, w) := RemovePath_walk false parts d root in
      match w with Found => RemovePath_erase parts root | _ => root end
  end.
End descriptors.

(** ** FieldMaskUtil *)

Definition ToString (mask : FieldMask) : list byte := StrJoin mask ch_comma.
Definition FromString (s : list byte) : FieldMask :=
  List.filter (fun path => negb (is_nil path)) (StrSplit s ch_comma).

Fixpoint ToJsonString_loop (first : bool) (mask : FieldMask) (out : list byte) : bool * list byte :=
  match mask with
  | [] => (true, out)
  | path :: mask =>
      let '(ok, camelcase_path) := SnakeCaseToCamelCase path in
      if negb ok then (false, out)
      else ToJsonString_loop false mask
             ((if first then out else out ++ [ch_comma]) ++ camelcase_path)
  end.
Definition ToJsonString (mask : FieldMask) : bool * list byte := ToJsonString_loop true mask [].

Fixpoint FromJsonString_loop (paths : list (list byte)) (out : FieldMask) : bool * FieldMask :=
  match paths with
  | [] => (true, out)
  | path :: paths =>
      if is_nil path then FromJsonString_loop paths out
      else
        let '(ok, snakecase_path) := CamelCaseToSnakeCase path in
        if negb ok then (false, out) else FromJsonString_loop paths (out ++ [snakecase_path])
  end.
Definition FromJsonString (s : list byte) : bool * FieldMask :=
  FromJsonString_loop (StrSplit s ch_comma) [].

Definition ToCanonicalForm (mask : FieldMask) : FieldMask :=
  MergeToFieldMask [] (MergeFromFieldMask mask (mkNode [])).

Definition Union (mask1 mask2 : FieldMask) : FieldMask :=
  MergeToFieldMask [] (MergeFromFieldMask mask2 (MergeFromFieldMask mask1 (mkNode []))).

Definition Intersect (mask1 mask2 : FieldMask) : FieldMask :=
  let tree := MergeFromFieldMask mask1 (mkNode []) in
  MergeToFieldMask [] (fold_left (fun out path => IntersectPath path tree out) mask2 (mkNode [])).

Definition Subtract `{!Descriptors} (d : Descriptor) (mask1 mask2 : FieldMask) : FieldMask :=
  match mask1 with
  | [] => []
  | _ =>
      MergeToFieldMask []
        (fold_left (fun tree path => RemovePath path d tree) mask2
           (MergeFromFieldMask mask1 (mkNode [])))
  end.

Fixpoint IsPathInFieldMask (path : list byte) (mask : FieldMask) : bool :=
  match mask with
  | [] => false
  | mask_path :: mask =>
      if decide (path = mask_path) then true
      else if (zlen mask_path <? zlen path) &&
              match ConsumePrefix path mask_path with
              | Some current => bool_decide (is_Some (ConsumePrefix current [ch_dot]))
              | None => false
              end
      then true else IsPathInFieldMask path mask
  end.

(** [GetFieldDescriptors], with the fields the path traverses; a valid path
    goes through singular messages only. *)
Fixpoint GetFieldDescriptors_loop `{!Descriptors} (parts : list (list byte))
    (d : option Descriptor) (out : list FieldDescriptor) : bool * list FieldDescriptor :=
  match parts with
  | [] => (true, out)
  | part :: parts =>
      match d with
      | None => (false, out)
      | Some d =>
          match FindFieldByName d part with
          | None => (false, out)
          | Some f =>
              GetFieldDescriptors_loop parts
                (if negb (is_repeated f) then message_type f else None) (out ++ [f])
          end
      end
  end.
Definition GetFieldDescriptors `{!Descriptors} (d : Descriptor) (path : list byte)
    : bool * list FieldDescriptor :=
  GetFieldDescriptors_loop (StrSplit path ch_dot) (Some d) [].
Definition IsValidPath `{!Descriptors} (d : Descriptor) (path : list byte) : bool :=
  fst (GetFieldDescriptors d path).
Definition IsValidFieldMask `{!Descriptors} (d : Descriptor) (mask : FieldMask) : bool :=
  forallb (IsValidPath d) mask.
Definition GetFieldMaskForAllFields `{!Descriptors} (d : Descriptor) : FieldMask :=
  map field_name (field d).
End trees.
