(* ===== verification/FieldMaskSpec.v ===== *)
(** * Field masks cover sets of paths

    A mask covers the paths that one of its paths is a prefix of. The tree
    operations of [FieldMask.v] are the set operations on what is covered. *)

From Stdlib Require Import Strings.Byte Sorting.Sorted.
From stdpp Require Import sets.
From S2P Require Import Prelude FieldMask.

(** ** Splitting and joining *)

Fixpoint join (c : byte) (parts : list (list byte)) : list byte :=
  match parts with
  | [] => []
  | [p] => p
  | p :: parts => p ++ c :: join c parts
  end.

(** What the code relies on of the absl library. *)
Class AbslStringsOk `{!AbslStrings} := {
  split_parts s c : StrSplit s c <> [] /\ Forall (fun p => c ∉ p) (StrSplit s c) /\
    join c (StrSplit s c) = s;
  join_ok parts c : StrJoin parts c = join c parts;
  consume_prefix s p r : ConsumePrefix s p = Some r <-> s = p ++ r;
}.

(** What it relies on of descriptors: names are found, and are identifiers. *)
Class DescriptorsOk `{!Descriptors} := {
  find_field d s f : FindFieldByName d s = Some f <-> f ∈ field d /\ field_name f = s;
  names_ok d f : f ∈ field d -> field_name f <> [] /\ ch_dot ∉ field_name f;
}.

Lemma join_cons c p parts : parts <> [] -> join c (p :: parts) = p ++ c :: join c parts.
Proof. by destruct parts. Qed.

Lemma app_sep_inj {A} (c : A) (p q s t : list A) :
  c ∉ p -> c ∉ q -> p ++ c :: s = q ++ c :: t -> p = q /\ s = t.
Proof.
  revert q. induction p as [|x p IH]; intros [|y q] Hp Hq E; simpl in *; simplify_eq.
  - done.
  - by rewrite not_elem_of_cons in Hq; destruct Hq.
  - by rewrite not_elem_of_cons in Hp; destruct Hp.
  - rewrite not_elem_of_cons in Hp, Hq. destruct (IH q) as [-> ->]; naive_solver.
Qed.

Lemma join_no_sep c p q rest :
  c ∉ p -> rest <> [] -> p <> q ++ c :: join c rest.
Proof. intros Hp _ ->. rewrite not_elem_of_app, not_elem_of_cons in Hp. naive_solver. Qed.

Lemma join_inj c l1 l2 :
  Forall (fun p => c ∉ p) l1 -> Forall (fun p => c ∉ p) l2 -> l1 <> [] -> l2 <> [] ->
  join c l1 = join c l2 -> l1 = l2.
Proof.
  intros H1. revert l2. induction H1 as [|p l1 Hp H1 IH]; intros l2 H2 N1 N2 E; [done|].
  destruct H2 as [|q l2 Hq H2]; [done|]. destruct (decide (l1 = [])) as [->|Hl1], (decide (l2 = [])) as [->|Hl2].
  - simpl in E. by subst.
  - rewrite (join_cons c q l2) in E by done. simpl in E. by apply join_no_sep in E.
  - rewrite (join_cons c p l1) in E by done. simpl in E. symmetry in E. by apply join_no_sep in E.
  - rewrite !join_cons in E by done. apply app_sep_inj in E as [-> E]; [|done..]. f_equal. by apply IH.
Qed.

Section strings.
Context `{AbslStringsOk}.

Lemma split_join c l :
  l <> [] -> Forall (fun p => c ∉ p) l -> StrSplit (join c l) c = l.
Proof.
  intros Hl Hc. destruct (split_parts (join c l) c) as (Hne & Hf & E).
  by apply (join_inj c).
Qed.

(** The names of a path. *)
Definition segs (path : list byte) : list (list byte) := StrSplit path ch_dot.

Lemma segs_ne path : segs path <> [].
Proof. apply split_parts. Qed.
Lemma segs_nodot path : Forall (fun p => ch_dot ∉ p) (segs path).
Proof. apply split_parts. Qed.
Lemma join_segs path : join ch_dot (segs path) = path.
Proof. apply split_parts. Qed.
Lemma segs_join l : l <> [] -> Forall (fun p => ch_dot ∉ p) l -> segs (join ch_dot l) = l.
Proof. apply split_join. Qed.
Lemma segs_inj p q : segs p = segs q -> p = q.
Proof. intros E. by rewrite <- (join_segs p), E, join_segs. Qed.
End strings.

(** ** What is covered *)

Fixpoint prefixb (q p : list (list byte)) : bool :=
  match q, p with
  | [], _ => true
  | _ :: _, [] => false
  | x :: q, y :: p => bool_decide (x = y) && prefixb q p
  end.

Lemma prefixb_app q r : prefixb q (q ++ r) = true.
Proof. induction q; simpl; [done|]. by rewrite bool_decide_true. Qed.
Lemma prefixb_spec q p : prefixb q p = true <-> exists r, p = q ++ r.
Proof.
  split; [|intros [r ->]; apply prefixb_app].
  revert p. induction q as [|x q IH]; intros [|y p] E; simpl in *; try done; eauto.
  rewrite andb_true_iff, bool_decide_eq_true in E. destruct E as [-> E].
  destruct (IH p E) as [r ->]. by exists r.
Qed.
Lemma prefixb_trans a b c : prefixb a b = true -> prefixb b c = true -> prefixb a c = true.
Proof.
  rewrite !prefixb_spec. intros [r ->] [s ->]. exists (r ++ s). by rewrite app_assoc.
Qed.
Lemma prefixb_refl a : prefixb a a = true.
Proof. rewrite prefixb_spec. exists []. by rewrite app_nil_r. Qed.

Definition covers `{!AbslStrings} (mask : FieldMask) (path : list (list byte)) : bool :=
  existsb (fun q => prefixb (segs q) path) mask.

(** By a node other than an empty root: a leaf covers everything below it. *)
Fixpoint node_covers (n : Node) (path : list (list byte)) : bool :=
  empty n ||
  match path with
  | [] => false
  | s :: path =>
      match lookup_child s (children n) with Some c => node_covers c path | None => false end
  end.
Definition tree_covers (root : Node) (path : list (list byte)) : bool :=
  negb (empty root) && node_covers root path.

Lemma node_covers_leaf n p : empty n = true -> node_covers n p = true.
Proof. intros E. destruct p; simpl; by rewrite E. Qed.

Lemma lookup_set k k' n l :
  lookup_child k' (set_child k n l) = if decide (k' = k) then Some n else lookup_child k' l.
Proof.
  induction l as [|[k1 n1] l IH]; simpl; [by case_decide|].
  destruct (decide (k = k1)) as [<-|Hk]; simpl.
  { by destruct (decide (k' = k)). }
  destruct (string_ltb k k1); simpl; [by destruct (decide (k' = k))|].
  rewrite IH. destruct (decide (k' = k1)), (decide (k' = k)); congruence.
Qed.

Lemma set_child_ne k n l : set_child k n l <> [].
Proof. destruct l as [|[k1 n1] l]; simpl; [done|]. by repeat case_match. Qed.
Lemma empty_set k n l : empty (mkNode (set_child k n l)) = false.
Proof. destruct (set_child k n l) eqn:E; [by apply set_child_ne in E|done]. Qed.

(** *** Adding *)

Lemma AddPath_loop_ne root nb parts n :
  parts <> [] -> empty n && negb nb && negb root = false -> empty (AddPath_loop root nb parts n) = false.
Proof.
  destruct parts as [|s parts]; [done|]. intros _ E. simpl.
  replace (negb nb && negb root && empty n) with false by (destruct (empty n), nb, root; done).
  destruct (lookup_child s (children n)); apply empty_set.
Qed.

(** The paths below one child. *)
Definition child_covers (l : list (list byte * Node)) (s : list byte) (p : list (list byte)) : bool :=
  match lookup_child s l with Some c => node_covers c p | None => false end.

Lemma node_covers_eq l p :
  l <> [] -> node_covers (mkNode l) p = match p with [] => false | s :: p => child_covers l s p end.
Proof. by destruct l, p. Qed.

Lemma set_covers k c l p :
  node_covers (mkNode (set_child k c l)) p =
  match p with
  | [] => false
  | s :: p => if decide (s = k) then node_covers c p else child_covers l s p
  end.
Proof.
  rewrite node_covers_eq by apply set_child_ne. destruct p as [|s p]; [done|].
  unfold child_covers. rewrite lookup_set. by case_decide.
Qed.

Lemma prefixb_cons s q s' p :
  prefixb (s :: q) (s' :: p) = if decide (s' = s) then prefixb q p else false.
Proof. simpl. destruct (decide (s' = s)) as [->|]; [by rewrite bool_decide_true|by rewrite bool_decide_false]. Qed.

Lemma add_new_covers parts p : node_covers (AddPath_loop false true parts (mkNode [])) p = prefixb parts p.
Proof.
  revert p. induction parts as [|s parts IH]; intros p; [by destruct p|].
  cbn [AddPath_loop negb andb lookup_child children]. rewrite (set_covers s _ []). destruct p as [|s' p]; [done|].
  rewrite prefixb_cons. case_decide; [apply IH|done].
Qed.

(** Setting a child to what its new path adds. *)
Lemma add_child_covers root parts s l p :
  (forall n p, node_covers (AddPath_loop false false parts n) p = node_covers n p || prefixb parts p) ->
  (root = true \/ l <> []) ->
  node_covers (AddPath_loop root false (s :: parts) (mkNode l)) p
  = match p with [] => false | s' :: p' => child_covers l s' p' end || prefixb (s :: parts) p.
Proof.
  intros IH Hl. cbn [AddPath_loop negb andb].
  replace (negb root && empty (mkNode l)) with false by (destruct Hl as [->|]; [done|by destruct root, l]).
  cbn [children]. destruct p as [|s' p'].
  { by destruct (lookup_child s l); rewrite set_covers. }
  rewrite prefixb_cons. destruct (lookup_child s l) eqn:E; rewrite set_covers; unfold child_covers;
    destruct (decide (s' = s)) as [->|]; rewrite ?orb_false_r; try done.
  - by rewrite E, IH.
  - by rewrite E, add_new_covers.
Qed.

Lemma add_covers parts n p :
  node_covers (AddPath_loop false false parts n) p = node_covers n p || prefixb parts p.
Proof.
  revert n p. induction parts as [|s parts IH]; intros n p.
  { destruct p; simpl; by rewrite orb_true_r. }
  destruct n as [[|kv l]].
  { simpl AddPath_loop. by rewrite node_covers_leaf. }
  rewrite add_child_covers by (done || by right). by rewrite node_covers_eq by done.
Qed.

Lemma root_covers l p :
  tree_covers (mkNode l) p = match p with [] => false | s :: p => child_covers l s p end.
Proof. unfold tree_covers. destruct l as [|kv l]; [by destruct p|]. by rewrite node_covers_eq. Qed.

Section masks.
Context `{AbslStringsOk}.

Lemma AddPath_covers path root p :
  tree_covers (AddPath path root) p = tree_covers root p || prefixb (segs path) p.
Proof.
  unfold AddPath, segs. destruct (split_parts path ch_dot) as (Hne & _).
  destruct (StrSplit path ch_dot) as [|s parts]; [done|]. destruct root as [l].
  unfold tree_covers at 1. rewrite add_child_covers by (auto using add_covers).
  rewrite root_covers. replace (empty _) with false; [done|].
  simpl. by destruct (lookup_child s l); rewrite empty_set.
Qed.

Lemma merge_covers mask root p :
  tree_covers (MergeFromFieldMask mask root) p = tree_covers root p || covers mask p.
Proof.
  unfold MergeFromFieldMask. revert root. induction mask as [|q mask IH]; intros root; simpl.
  { by rewrite orb_false_r. }
  rewrite IH, AddPath_covers. by rewrite orb_assoc.
Qed.
End masks.

(** ** Well-formed trees *)

Fixpoint Node_nested_ind (P : Node -> Prop)
    (step : forall l, Forall (fun kv => P (snd kv)) l -> P (mkNode l)) (n : Node) : P n :=
  match n with
  | mkNode l =>
      step l ((fix go l : Forall (fun kv : list byte * Node => P (snd kv)) l :=
                 match l with
                 | [] => Forall_nil_2 _
                 | (k, c) :: l => Forall_cons_2 _ (k, c) _ (Node_nested_ind P step c) (go l)
                 end) l)
  end.

(** [P] of the children of every node. *)
Fixpoint nodes_all (P : list (list byte * Node) -> Prop) (n : Node) : Prop :=
  let 'mkNode l := n in P l /\ foldr (fun kv Q => nodes_all P (snd kv) /\ Q) True l.

Lemma nodes_all_eq P l :
  nodes_all P (mkNode l) <-> P l /\ Forall (fun kv => nodes_all P (snd kv)) l.
Proof.
  simpl. apply and_iff_compat_l. induction l as [|kv l IH]; simpl; [by rewrite Forall_nil|].
  by rewrite Forall_cons, IH.
Qed.

Definition slt (a b : list byte) : Prop := string_ltb a b = true.

(** The children are an ordered map. *)
Definition keys_sorted (l : list (list byte * Node)) : Prop := StronglySorted slt (map fst l).
Definition seg_ok (s : list byte) : Prop := s <> [] /\ ch_dot ∉ s.
Definition keys_named (l : list (list byte * Node)) : Prop := Forall (fun kv => seg_ok (fst kv)) l.

Definition ordered : Node -> Prop := nodes_all keys_sorted.
Definition named : Node -> Prop := nodes_all keys_named.

Lemma string_ltb_irrefl a : string_ltb a a = false.
Proof. induction a as [|x a IH]; simpl; [done|]. by rewrite Z.ltb_irrefl, Z.eqb_refl, IH. Qed.
Lemma slt_trans a b c : slt a b -> slt b c -> slt a c.
Proof.
  unfold slt. revert b c. induction a as [|x a IH]; intros [|y b] [|z c]; simpl; try done.
  rewrite !orb_true_iff, !andb_true_iff, !Z.ltb_lt, !Z.eqb_eq.
  intros [?|[? ?]] [?|[? ?]]; try (left; lia). right. split; [lia|eauto].
Qed.
Lemma slt_total a b : a <> b -> string_ltb a b = false -> slt b a.
Proof.
  unfold slt. revert b. induction a as [|x a IH]; intros [|y b] Hne; simpl; try done.
  rewrite orb_false_iff, orb_true_iff, andb_true_iff, andb_false_iff, Z.ltb_ge, Z.ltb_lt, !Z.eqb_eq, Z.eqb_neq.
  intros [? [?|E]]; [left; lia|]. destruct (decide (b2z y = b2z x)) as [Eb|]; [|left; lia].
  right. split; [done|]. apply IH; [|done]. intros ->. apply Hne. f_equal.
  rewrite <- (z2b_b2z x), <- (z2b_b2z y). congruence.
Qed.

Lemma set_child_keys k n l x : x ∈ map fst (set_child k n l) -> x = k \/ x ∈ map fst l.
Proof.
  induction l as [|[k1 n1] l IH]; simpl; [set_solver|]. destruct (decide (k = k1)) as [<-|]; simpl; [set_solver|].
  destruct (string_ltb k k1); simpl; set_solver.
Qed.

Lemma sorted_set k n l : keys_sorted l -> keys_sorted (set_child k n l).
Proof.
  unfold keys_sorted. induction l as [|[k1 n1] l IH]; simpl; intros Hs; [by repeat constructor|].
  inversion_clear Hs as [|? ? Hl Hk]. destruct (decide (k = k1)) as [<-|Hne]; [by constructor|].
  destruct (string_ltb k k1) eqn:E; simpl; constructor.
  - by constructor.
  - constructor; [done|]. eapply Forall_impl; [done|]. intros x Hx. by eapply slt_trans.
  - by apply IH.
  - apply Forall_forall. intros x Hx. apply set_child_keys in Hx as [->|Hx]; [by apply slt_total|].
    by rewrite Forall_forall in Hk; apply Hk.
Qed.

Lemma named_set k n l : seg_ok k -> keys_named l -> keys_named (set_child k n l).
Proof.
  intros Hk. unfold keys_named. induction 1 as [|[k1 n1] l H1 Hl IH]; simpl; [apply Forall_cons_2; [done|apply Forall_nil_2]|].
  repeat case_match; repeat (apply Forall_cons_2; [done|]); done.
Qed.

Lemma Forall_set (P : Node -> Prop) k n l :
  P n -> Forall (fun kv => P (snd kv)) l -> Forall (fun kv => P (snd kv)) (set_child k n l).
Proof.
  intros Hn. induction 1 as [|[k1 n1] l H1 Hl IH]; simpl; [apply Forall_cons_2; [done|apply Forall_nil_2]|].
  repeat case_match; repeat (apply Forall_cons_2; [done|]); done.
Qed.

Lemma lookup_Forall (P : Node -> Prop) k l c :
  lookup_child k l = Some c -> Forall (fun kv => P (snd kv)) l -> P c.
Proof.
  intros E. induction 1 as [|[k1 n1] l H1 Hl IH]; simpl in E; [done|]. case_decide; [by simplify_eq|auto].
Qed.

(** [P] survives the addition of names in [Q]. *)
Lemma AddPath_loop_all P (Q : list byte -> Prop) root nb parts n :
  P [] -> (forall k c l, Q k -> P l -> P (set_child k c l)) -> Forall Q parts ->
  nodes_all P n -> nodes_all P (AddPath_loop root nb parts n).
Proof.
  intros Hnil Hset HQ. revert root nb n. induction HQ as [|s parts Hs _ IH]; intros root nb [l] Hn.
  { cbn [AddPath_loop]. rewrite nodes_all_eq. by split. }
  cbn [AddPath_loop]. case_match; [done|]. rewrite nodes_all_eq in Hn. destruct Hn as [Hl Hc].
  cbn [children]. destruct (lookup_child s l) as [c|] eqn:E; rewrite nodes_all_eq; (split; [by apply Hset|]);
    apply Forall_set; try done; apply IH; [by eapply lookup_Forall|by rewrite nodes_all_eq].
Qed.

Section wf.
Context `{AbslStringsOk}.

(** A path whose names are not empty. *)
Definition path_ok (path : list byte) : Prop := Forall (fun s => s <> []) (segs path).

Lemma path_ok_segs path : path_ok path -> Forall seg_ok (segs path).
Proof. intros Hp. apply Forall_and. split; [done|apply segs_nodot]. Qed.

Lemma AddPath_ordered path root : ordered root -> ordered (AddPath path root).
Proof.
  intros Ho. unfold AddPath. destruct (StrSplit path ch_dot) as [|s parts]; [done|].
  apply (AddPath_loop_all _ (fun _ => True)); [constructor| |by apply Forall_true|done].
  intros. by apply sorted_set.
Qed.
Lemma AddPath_named path root : path_ok path -> named root -> named (AddPath path root).
Proof.
  intros Hp Ho. apply path_ok_segs in Hp. unfold AddPath, segs in *.
  destruct (StrSplit path ch_dot) as [|s parts]; [done|].
  apply (AddPath_loop_all _ seg_ok); [constructor|apply named_set|done|done].
Qed.

Lemma merge_ordered mask root : ordered root -> ordered (MergeFromFieldMask mask root).
Proof.
  unfold MergeFromFieldMask. revert root. induction mask as [|q mask IH]; intros root Ho; [done|].
  simpl. by apply IH, AddPath_ordered.
Qed.
Lemma merge_named mask root :
  Forall path_ok mask -> named root -> named (MergeFromFieldMask mask root).
Proof.
  intros Hm. unfold MergeFromFieldMask. revert root. induction Hm as [|q mask Hq _ IH]; intros root Ho; [done|].
  simpl. by apply IH, AddPath_named.
Qed.
End wf.

Lemma ordered_nil : ordered (mkNode []).
Proof. unfold ordered. rewrite nodes_all_eq. by repeat constructor. Qed.
Lemma named_nil : named (mkNode []).
Proof. unfold named. rewrite nodes_all_eq. by repeat constructor. Qed.

(** ** The coverage of a tree determines it *)

Lemma node_covers_some n : exists p, node_covers n p = true.
Proof.
  induction n as [l IH] using Node_nested_ind. destruct l as [|[k c] l]; [by exists []|].
  inversion_clear IH as [|? ? [p Hp] _]. exists (k :: p).
  rewrite node_covers_eq by done. unfold child_covers. simpl. by rewrite decide_True.
Qed.

Lemma lookup_notin k l : Forall (slt k) (map fst l) -> lookup_child k l = None.
Proof.
  induction l as [|[k1 n1] l IH]; simpl; [done|]. inversion_clear 1 as [|? ? Hk Hl].
  rewrite decide_False; [by apply IH|]. intros <-. unfold slt in Hk. by rewrite string_ltb_irrefl in Hk.
Qed.

Lemma sorted_lookup_ext l1 l2 :
  keys_sorted l1 -> keys_sorted l2 -> (forall k, lookup_child k l1 = lookup_child k l2) -> l1 = l2.
Proof.
  unfold keys_sorted. revert l2. induction l1 as [|[k1 n1] l1 IH]; intros [|[k2 n2] l2] H1 H2 E; simpl in *.
  - done.
  - specialize (E k2). by rewrite decide_True in E.
  - specialize (E k1). by rewrite decide_True in E.
  - inversion_clear H1 as [|? ? Hs1 Hf1]. inversion_clear H2 as [|? ? Hs2 Hf2].
    assert (k1 = k2) as <-.
    { pose proof (E k1) as E1. pose proof (E k2) as E2. rewrite decide_True in E1 by done.
      rewrite (decide_True (P := k2 = k2)) in E2 by done.
      destruct (decide (k1 = k2)) as [|Hne]; [done|]. exfalso.
      destruct (string_ltb k1 k2) eqn:Hlt.
      - rewrite lookup_notin in E1; [done|]. eapply Forall_impl; [exact Hf2|].
        intros x Hx. by eapply slt_trans.
      - apply slt_total in Hlt; [|done]. rewrite decide_False in E2 by done.
        rewrite lookup_notin in E2; [done|]. eapply Forall_impl; [exact Hf1|].
        intros x Hx. by eapply slt_trans. }
    pose proof (E k1) as E1. rewrite !decide_True in E1 by done. injection E1 as <-. f_equal.
    apply IH; [done|done|]. intros k. specialize (E k). destruct (decide (k = k1)) as [->|]; [|done].
    by rewrite !lookup_notin.
Qed.

Lemma node_covers_inj n1 n2 :
  ordered n1 -> ordered n2 -> (forall p, node_covers n1 p = node_covers n2 p) -> n1 = n2.
Proof.
  revert n2. induction n1 as [l1 IH] using Node_nested_ind. intros [l2] H1 H2 E.
  unfold ordered in H1, H2. rewrite nodes_all_eq in H1, H2. destruct H1 as [H1 C1], H2 as [H2 C2].
  assert (empty (mkNode l1) = empty (mkNode l2)) as Ee.
  { specialize (E []). simpl in E. by rewrite !orb_false_r in E. }
  f_equal. destruct l1 as [|kv1 l1], l2 as [|kv2 l2]; try done.
  apply sorted_lookup_ext; [done|done|]. intros k.
  assert (forall p, child_covers (kv1 :: l1) k p = child_covers (kv2 :: l2) k p) as Ek.
  { intros p. specialize (E (k :: p)). by rewrite !node_covers_eq in E by done. }
  unfold child_covers in Ek.
  destruct (lookup_child k (kv1 :: l1)) as [c1|] eqn:E1, (lookup_child k (kv2 :: l2)) as [c2|] eqn:E2; [| | |done].
  - f_equal. apply (lookup_Forall (fun c => forall n2, ordered c -> ordered n2 ->
      (forall p, node_covers c p = node_covers n2 p) -> c = n2) _ _ _ E1 IH); [| |done].
    + by apply (lookup_Forall ordered _ _ _ E1).
    + by apply (lookup_Forall ordered _ _ _ E2).
  - destruct (node_covers_some c1) as [p Hp]. specialize (Ek p). congruence.
  - destruct (node_covers_some c2) as [p Hp]. specialize (Ek p). congruence.
Qed.
