(* ===== verification/FieldMaskTrees.v ===== *)
(** * From trees to masks and back

    The paths a tree stands for, in order, and the tree operations that read a
    tree: [MergeToFieldMask], [IntersectPath] and [RemovePath]. *)

From Stdlib Require Import Strings.Byte Sorting.Sorted.
From stdpp Require Import sets.
From S2P Require Import Prelude FieldMask FieldMaskSpec.

(** ** The leaves of a tree *)

Fixpoint leaf_paths (n : Node) : list (list (list byte)) :=
  match n with
  | mkNode [] => [[]]
  | mkNode l => flat_map (fun kv => map (cons (fst kv)) (leaf_paths (snd kv))) l
  end.

Lemma leaf_paths_eq l :
  l <> [] -> leaf_paths (mkNode l) = flat_map (fun kv => map (cons (fst kv)) (leaf_paths (snd kv))) l.
Proof. by destruct l. Qed.

Lemma existsb_map {A B} (f : B -> bool) (g : A -> B) l : existsb f (map g l) = existsb (fun x => f (g x)) l.
Proof. induction l; simpl; congruence. Qed.
Lemma existsb_flat_map {A B} (f : B -> bool) (g : A -> list B) l :
  existsb f (flat_map g l) = existsb (fun x => existsb f (g x)) l.
Proof. induction l as [|x l IH]; simpl; [done|]. by rewrite existsb_app, IH. Qed.
Lemma existsb_ext_Forall {A} (f g : A -> bool) l :
  Forall (fun x => f x = g x) l -> existsb f l = existsb g l.
Proof. induction 1 as [|x l Hx _ IH]; simpl; congruence. Qed.

(** At most one child has a name. *)
Lemma existsb_lookup (f : Node -> bool) s l :
  keys_sorted l ->
  existsb (fun kv => bool_decide (fst kv = s) && f (snd kv)) l
  = match lookup_child s l with Some c => f c | None => false end.
Proof.
  unfold keys_sorted. induction l as [|[k c] l IH]; intros Hs; [done|].
  inversion_clear Hs as [|? ? Hl Hf]. simpl. rewrite IH by done.
  destruct (decide (s = k)) as [<-|Hne].
  - rewrite bool_decide_true by done. rewrite lookup_notin by done. simpl. by rewrite orb_false_r.
  - by rewrite bool_decide_false by congruence.
Qed.

Lemma node_covers_leaves n p :
  ordered n -> node_covers n p = existsb (fun q => prefixb q p) (leaf_paths n).
Proof.
  revert p. induction n as [l IH] using Node_nested_ind. intros p Ho.
  unfold ordered in Ho. rewrite nodes_all_eq in Ho. destruct Ho as [Hs Hc].
  destruct (decide (l = [])) as [->|Hl]; [by destruct p|].
  rewrite node_covers_eq, leaf_paths_eq, existsb_flat_map by done.
  destruct p as [|s p].
  - symmetry. apply not_true_iff_false. rewrite existsb_exists. intros (kv & _ & E).
    rewrite existsb_map in E. rewrite existsb_exists in E. by destruct E as (q & _ & E).
  - unfold child_covers. rewrite <- (existsb_lookup (fun c => node_covers c p)) by done.
    apply existsb_ext_Forall. rewrite Forall_forall in IH, Hc |- *. intros kv Hkv.
    rewrite existsb_map. simpl. rewrite (IH kv Hkv) by (by apply Hc).
    destruct (bool_decide (fst kv = s)); simpl; [done|]. symmetry. apply not_true_iff_false.
    rewrite existsb_exists. by intros (q & _ & E).
Qed.

Section masks.
Context `{AbslStringsOk}.

Lemma join_empty pre : Forall seg_ok pre -> join ch_dot pre = [] -> pre = [].
Proof.
  destruct pre as [|p pre]; [done|]. intros Hf. inversion_clear Hf as [|? ? [Hp _] _].
  destruct pre as [|q pre]; simpl; [by intros ->|]. by destruct p.
Qed.

Lemma join_app c pre k : pre <> [] -> join c (pre ++ [k]) = join c pre ++ c :: k.
Proof.
  induction pre as [|p pre IH]; intros Hp; [done|]. destruct pre as [|q pre]; [done|].
  rewrite (join_cons c p (q :: pre)), <- app_comm_cons, join_cons by done.
  rewrite IH by done. by rewrite <- app_assoc.
Qed.

Lemma sub_path_join pre k :
  Forall seg_ok pre -> sub_path (join ch_dot pre) k = join ch_dot (pre ++ [k]).
Proof.
  intros Hp. destruct (decide (pre = [])) as [->|Hne]; [done|]. rewrite join_app by done.
  unfold sub_path. destruct (join ch_dot pre) eqn:E; [by apply join_empty in E|done].
Qed.

Lemma seg_ok_app pre k : Forall seg_ok pre -> seg_ok k -> Forall seg_ok (pre ++ [k]).
Proof. intros. by apply Forall_app_2, Forall_cons_2. Qed.

(** The mask of a sub-tree: the paths of its leaves, but for an empty root. *)
Lemma merge_to_leaves n pre :
  named n -> Forall seg_ok pre ->
  MergeToFieldMask (join ch_dot pre) n =
  if bool_decide (pre = []) && empty n then []
  else map (fun q => join ch_dot (pre ++ q)) (leaf_paths n).
Proof.
  revert pre. induction n as [l IH] using Node_nested_ind. intros pre Hn Hp.
  unfold named in Hn. rewrite nodes_all_eq in Hn. destruct Hn as [Hk Hc].
  destruct (decide (l = [])) as [->|Hl].
  { simpl. rewrite app_nil_r, andb_true_r. destruct (decide (pre = [])) as [->|Hne]; [done|].
    rewrite bool_decide_false by done. destruct (join ch_dot pre) eqn:E; [by apply join_empty in E|done]. }
  replace (bool_decide (pre = []) && empty (mkNode l)) with false by (by destruct l; rewrite ?andb_false_r).
  rewrite leaf_paths_eq by done.
  transitivity (flat_map (fun kv => MergeToFieldMask (sub_path (join ch_dot pre) (fst kv)) (snd kv)) l);
    [by destruct l|].
  clear Hl. induction l as [|[k c] l IHl]; [done|]. simpl.
  inversion_clear IH as [|? ? IHc IHl']. inversion_clear Hk as [|? ? Hk1 Hk2].
  inversion_clear Hc as [|? ? Hc1 Hc2]. simpl in *.
  rewrite sub_path_join, IHc, IHl by (done || by apply seg_ok_app).
  rewrite bool_decide_false by (by destruct pre). simpl. rewrite map_app, map_map. f_equal.
  apply map_ext. intros q. by rewrite <- app_assoc.
Qed.

Lemma leaf_paths_named n q : named n -> q ∈ leaf_paths n -> Forall seg_ok q.
Proof.
  revert q. induction n as [l IH] using Node_nested_ind. intros q Hn Hq.
  unfold named in Hn. rewrite nodes_all_eq in Hn. destruct Hn as [Hk Hc].
  destruct (decide (l = [])) as [->|Hl]; [simpl in Hq; set_solver|].
  rewrite leaf_paths_eq in Hq by done. apply list_elem_of_In, in_flat_map in Hq as (kv & Hin & Hq).
  apply in_map_iff in Hq as (q' & <- & Hq'). apply list_elem_of_In in Hin, Hq'.
  unfold keys_named in Hk. rewrite Forall_forall in IH, Hk, Hc. constructor; [by apply Hk|].
  apply (IH kv); [done|by apply Hc|done].
Qed.

Lemma leaf_paths_nonempty l q : l <> [] -> q ∈ leaf_paths (mkNode l) -> q <> [].
Proof.
  intros Hl Hq. rewrite leaf_paths_eq in Hq by done. apply list_elem_of_In, in_flat_map in Hq as (kv & _ & Hq).
  apply in_map_iff in Hq as (q' & <- & _). done.
Qed.

Lemma segs_of_leaf q : Forall seg_ok q -> q <> [] -> segs (join ch_dot q) = q.
Proof. intros Hq Hne. apply segs_join; [done|]. eapply Forall_impl; [done|]. by intros s [_ ?]. Qed.

(** The mask of a tree covers what the tree does. *)
Lemma to_mask_covers root p :
  ordered root -> named root -> covers (MergeToFieldMask [] root) p = tree_covers root p.
Proof.
  intros Ho Hn. pose proof (merge_to_leaves root [] Hn ltac:(constructor)) as E. simpl in E.
  rewrite E. unfold tree_covers. destruct root as [[|kv l]]; [done|].
  cbn [empty children negb andb].
  rewrite node_covers_leaves by done. unfold covers. rewrite existsb_map.
  apply existsb_ext_Forall, Forall_forall. intros q Hq. rewrite segs_of_leaf; [done| |].
  - by eapply leaf_paths_named.
  - apply (leaf_paths_nonempty (kv :: l)); [done|exact Hq].
Qed.

(** ** Intersection *)

Lemma prefixb_app_l pre q p :
  prefixb (pre ++ q) p = prefixb pre p && prefixb q (drop (length pre) p).
Proof.
  revert p. induction pre as [|x pre IH]; intros [|y p]; simpl; try done.
  by rewrite IH, andb_assoc.
Qed.

(** Adding the leaves below [pre] adds what the node covers below it. *)
Lemma merge_leaves_covers n pre out p :
  ordered n -> named n -> Forall seg_ok pre -> pre <> [] ->
  tree_covers (MergeLeafNodesToTree (join ch_dot pre) n out) p
  = tree_covers out p || (prefixb pre p && node_covers n (drop (length pre) p)).
Proof.
  intros Ho Hn Hp Hne. rewrite node_covers_leaves by done.
  assert (forall n, named n -> forall pre out, Forall seg_ok pre -> pre <> [] ->
    tree_covers (MergeLeafNodesToTree (join ch_dot pre) n out) p
    = tree_covers out p || existsb (fun q => prefixb (pre ++ q) p) (leaf_paths n)) as Hl.
  { clear n pre out Ho Hn Hp Hne. induction n as [l IH] using Node_nested_ind. intros Hn pre out Hp Hne.
    unfold named in Hn. rewrite nodes_all_eq in Hn. destruct Hn as [Hk Hc].
    destruct (decide (l = [])) as [->|Hl].
    { simpl. rewrite AddPath_covers, segs_of_leaf, app_nil_r by done. by rewrite orb_false_r. }
    rewrite leaf_paths_eq by done.
    replace (MergeLeafNodesToTree (join ch_dot pre) (mkNode l) out) with
      (fold_left (fun out kv => MergeLeafNodesToTree (sub_path (join ch_dot pre) (fst kv)) (snd kv) out) l out)
      by (by destruct l).
    clear Hl. revert out. induction l as [|[k c] l IHl]; intros out; simpl; [by rewrite orb_false_r|].
    inversion_clear IH as [|? ? IHc IHl']. inversion_clear Hk as [|? ? Hk1 Hk2].
    inversion_clear Hc as [|? ? Hc1 Hc2]. simpl in *.
    rewrite IHl by done. rewrite sub_path_join by done.
    rewrite IHc by (done || by apply seg_ok_app || by destruct pre).
    rewrite existsb_app, existsb_map, <- orb_assoc. do 2 f_equal.
    apply existsb_ext_Forall, Forall_true. intros q. by rewrite <- app_assoc. }
  rewrite Hl by done. f_equal. rewrite <- Bool.andb_true_l at 1.
  destruct (prefixb pre p) eqn:E; simpl.
  - apply existsb_ext_Forall, Forall_true. intros q. by rewrite prefixb_app_l, E.
  - apply not_true_iff_false. rewrite existsb_exists. intros (q & _ & Hq).
    by rewrite prefixb_app_l, E in Hq.
Qed.

Lemma prefixb_drop pre s parts p :
  prefixb (pre ++ s :: parts) p = true ->
  drop (length pre) p = s :: drop (length (pre ++ [s])) p.
Proof.
  rewrite prefixb_spec. intros [r ->]. rewrite length_app, <- !app_assoc, <- app_comm_cons. simpl.
  rewrite drop_app_length. rewrite <- drop_drop, drop_app_length. done.
Qed.

Lemma intersect_loop_covers path root pre parts n out p :
  segs path = pre ++ parts -> path_ok path -> (root = true -> parts <> []) ->
  (root = false -> pre <> []) -> ordered n -> named n ->
  tree_covers (IntersectPath_loop path root parts n out) p
  = tree_covers out p ||
    (prefixb (segs path) p && negb (root && empty n) && node_covers n (drop (length pre) p)).
Proof.
  intros Es Hok Hr Hpre Ho Hn. pose proof (path_ok_segs path Hok) as Hseg.
  revert root pre n Es Hr Hpre Ho Hn. induction parts as [|s parts IH]; intros root pre n Es Hr Hpre Ho Hn.
  { destruct root; [by destruct Hr|]. simpl. rewrite app_nil_r in Es. rewrite andb_true_r, Es in *.
    rewrite <- (join_segs path) at 1. rewrite Es. apply merge_leaves_covers; auto. }
  cbn [IntersectPath_loop]. destruct (empty n) eqn:Ee.
  { destruct root; simpl; [by rewrite andb_false_r, orb_false_r|].
    rewrite AddPath_covers, node_covers_leaf by done. by rewrite !andb_true_r. }
  rewrite andb_false_r, andb_true_r. destruct n as [l]. destruct l as [|kv l]; [done|].
  unfold ordered, named in Ho, Hn. rewrite nodes_all_eq in Ho, Hn. destruct Ho as [_ Ho], Hn as [_ Hn].
  cbn [children].
  assert (prefixb (segs path) p = true -> drop (length pre) p = s :: drop (length (pre ++ [s])) p) as Hd.
  { rewrite Es. apply prefixb_drop. }
  destruct (prefixb (segs path) p) eqn:Ep.
  - rewrite Hd, node_covers_eq by done. unfold child_covers.
    destruct (lookup_child s (kv :: l)) as [c|] eqn:Ec; [|by rewrite orb_false_r].
    rewrite (IH false (pre ++ [s]) c); try done.
    + by rewrite <- app_assoc.
    + intros _. by destruct pre.
    + by apply (lookup_Forall ordered _ _ _ Ec).
    + by apply (lookup_Forall named _ _ _ Ec).
  - cbn [andb]. rewrite orb_false_r. destruct (lookup_child s (kv :: l)) as [c|] eqn:Ec; [|done].
    rewrite (IH false (pre ++ [s]) c); try done.
    + simpl. by rewrite orb_false_r.
    + by rewrite <- app_assoc.
    + intros _. by destruct pre.
    + by apply (lookup_Forall ordered _ _ _ Ec).
    + by apply (lookup_Forall named _ _ _ Ec).
Qed.

Lemma IntersectPath_covers path t out p :
  path_ok path -> ordered t -> named t ->
  tree_covers (IntersectPath path t out) p
  = tree_covers out p || (prefixb (segs path) p && tree_covers t p).
Proof.
  intros Hok Ho Hn. pose proof (segs_ne path) as Hne. unfold IntersectPath. fold (segs path).
  destruct (segs path) as [|s parts] eqn:Es; [done|]. rewrite <- Es.
  rewrite (intersect_loop_covers path true [] (segs path)); try done.
  - cbn [length drop andb]. by rewrite <- andb_assoc.
  - by rewrite Es.
Qed.

(** What adding paths preserves, reading leaves into the tree does too. *)
Lemma merge_leaves_inv (Q : Node -> Prop) n pre out :
  (forall path out, path_ok path -> Q out -> Q (AddPath path out)) ->
  named n -> Forall seg_ok pre -> pre <> [] -> Q out -> Q (MergeLeafNodesToTree (join ch_dot pre) n out).
Proof.
  intros HQ. revert pre out. induction n as [l IH] using Node_nested_ind. intros pre out Hn Hp Hne Hout.
  unfold named in Hn. rewrite nodes_all_eq in Hn. destruct Hn as [Hk Hc].
  destruct (decide (l = [])) as [->|Hl].
  { simpl. apply HQ; [|done]. unfold path_ok. rewrite segs_of_leaf by done.
    eapply Forall_impl; [done|]. by intros s [? _]. }
  replace (MergeLeafNodesToTree (join ch_dot pre) (mkNode l) out) with
    (fold_left (fun out kv => MergeLeafNodesToTree (sub_path (join ch_dot pre) (fst kv)) (snd kv) out) l out)
    by (by destruct l).
  clear Hl. revert out Hout. induction l as [|[k c] l IHl]; intros out Hout; simpl; [done|].
  inversion_clear IH as [|? ? IHc IHl']. inversion_clear Hk as [|? ? Hk1 Hk2].
  inversion_clear Hc as [|? ? Hc1 Hc2]. simpl in *.
  apply IHl; [done..|]. rewrite sub_path_join by done.
  apply IHc; [done|by apply seg_ok_app|by destruct pre|done].
Qed.

Lemma intersect_loop_inv (Q : Node -> Prop) path root pre parts n out :
  (forall path out, path_ok path -> Q out -> Q (AddPath path out)) ->
  segs path = pre ++ parts -> path_ok path -> named n -> Q out ->
  Q (IntersectPath_loop path root parts n out).
Proof.
  intros HQ Es Hok. revert root pre n Es. induction parts as [|s parts IH]; intros root pre n Es Hn Hout.
  { simpl. rewrite app_nil_r in Es. rewrite <- (join_segs path).
    apply merge_leaves_inv; [done|done|by apply path_ok_segs|apply segs_ne|done]. }
  cbn [IntersectPath_loop]. destruct (empty n); [destruct root; auto|].
  destruct n as [l]. unfold named in Hn. rewrite nodes_all_eq in Hn. destruct Hn as [_ Hn]. cbn [children].
  destruct (lookup_child s l) as [c|] eqn:Ec; [|done].
  apply (IH false (pre ++ [s])); [by rewrite <- app_assoc|by apply (lookup_Forall named _ _ _ Ec)|done].
Qed.

Lemma IntersectPath_inv (Q : Node -> Prop) path t out :
  (forall path out, path_ok path -> Q out -> Q (AddPath path out)) ->
  path_ok path -> named t -> Q out -> Q (IntersectPath path t out).
Proof.
  intros HQ Hok Hn Hout. unfold IntersectPath. fold (segs path).
  destruct (segs path) as [|s parts] eqn:Es; [done|]. rewrite <- Es.
  by apply (intersect_loop_inv Q path true []).
Qed.
End masks.

(** ** Removal *)

Lemma lookup_erase k k' l :
  keys_sorted l -> lookup_child k' (erase_child k l) = if decide (k' = k) then None else lookup_child k' l.
Proof.
  unfold keys_sorted. induction l as [|[k1 n1] l IH]; intros Hs; simpl; [by case_decide|].
  inversion_clear Hs as [|? ? Hl Hf]. destruct (decide (k = k1)) as [<-|Hne]; simpl.
  - destruct (decide (k' = k)) as [->|]; [by apply lookup_notin|done].
  - rewrite IH by done. destruct (decide (k' = k1)), (decide (k' = k)); congruence.
Qed.

Lemma Forall_erase (P : list byte * Node -> Prop) k l : Forall P l -> Forall P (erase_child k l).
Proof.
  induction 1 as [|[k1 n1] l Hx Hl IH]; simpl; [by apply Forall_nil_2|]. case_decide; [done|].
  by apply Forall_cons_2.
Qed.

Lemma sorted_erase k l : keys_sorted l -> keys_sorted (erase_child k l).
Proof.
  unfold keys_sorted. induction l as [|[k1 n1] l IH]; simpl; [done|]. intros Hs.
  inversion_clear Hs as [|? ? Hl Hf]. case_decide; [done|]. simpl. constructor; [by apply IH|].
  rewrite Forall_map in Hf |- *. by apply Forall_erase.
Qed.

Lemma set_child_same k c l : keys_sorted l -> lookup_child k l = Some c -> set_child k c l = l.
Proof.
  intros Hs E. apply sorted_lookup_ext; [by apply sorted_set|done|]. intros k'. rewrite lookup_set.
  by destruct (decide (k' = k)) as [->|].
Qed.

Section removal.
Context `{DescriptorsOk}.

(** The fields of a message as leaves, and the names that lead to fields the
    way [RemovePath] follows them: only the last may be no message. *)
Definition field_leaves (d : Descriptor) : list (list byte * Node) :=
  fold_left (fun l f => set_child (field_name f) (mkNode []) l) (field d) [].
Definition below (d : Descriptor) (f : FieldDescriptor) : Descriptor :=
  match message_type f with Some m => m | None => d end.
Fixpoint walkable (d : Descriptor) (parts : list (list byte)) : bool :=
  match parts with
  | [] => true
  | s :: parts =>
      match FindFieldByName d s with
      | None => false
      | Some f => (is_nil parts || bool_decide (is_Some (message_type f))) && walkable (below d f) parts
      end
  end.

Lemma lookup_fields fs s l :
  lookup_child s (fold_left (fun l f => set_child (field_name f) (mkNode []) l) fs l)
  = if existsb (fun f => bool_decide (field_name f = s)) fs then Some (mkNode []) else lookup_child s l.
Proof.
  revert l. induction fs as [|f fs IH]; intros l; simpl; [done|]. rewrite IH, lookup_set.
  destruct (existsb _ fs); [by rewrite orb_true_r|]. rewrite orb_false_r.
  destruct (decide (s = field_name f)) as [->|Hs]; [by rewrite bool_decide_true|].
  by rewrite bool_decide_false by congruence.
Qed.

Lemma lookup_field_leaves d s :
  lookup_child s (field_leaves d)
  = if FindFieldByName d s then Some (mkNode []) else None.
Proof.
  unfold field_leaves. rewrite lookup_fields. simpl.
  destruct (FindFieldByName d s) as [f|] eqn:E.
  - apply find_field in E as [Hf <-]. replace (existsb _ _) with true; [done|]. symmetry.
    apply existsb_exists. exists f. split; [by apply list_elem_of_In|by apply bool_decide_eq_true].
  - replace (existsb _ _) with false; [done|]. symmetry. apply not_true_iff_false.
    rewrite existsb_exists. intros (f & Hf & Hs). apply list_elem_of_In in Hf.
    apply bool_decide_eq_true in Hs. pose proof (proj2 (find_field d s f) (conj Hf Hs)). congruence.
Qed.

Lemma field_leaves_all (P : list (list byte * Node) -> Prop) d :
  P [] -> (forall k c l, seg_ok k -> P l -> P (set_child k c l)) -> nodes_all P (mkNode (field_leaves d)).
Proof.
  intros Hnil Hset. unfold field_leaves. rewrite nodes_all_eq.
  assert (forall l, P l -> Forall (fun kv => nodes_all P (snd kv)) l ->
    P (fold_left (fun l f => set_child (field_name f) (mkNode []) l) (field d) l) /\
    Forall (fun kv => nodes_all P (snd kv))
      (fold_left (fun l f => set_child (field_name f) (mkNode []) l) (field d) l)) as Hf;
    [|by apply Hf].
  assert (Forall (fun f => seg_ok (field_name f)) (field d)) as Hn.
  { apply Forall_forall. intros f Hf. by apply (names_ok d). }
  induction Hn as [|f fs Hk _ IH]; intros l Hl Hc; simpl; [done|].
  apply IH; [by apply Hset|]. apply Forall_set; [by rewrite nodes_all_eq|done].
Qed.

(** The children a node has while the walk goes through it. *)
Definition walk_children (d : Descriptor) (n : Node) : list (list byte * Node) :=
  if empty n then field_leaves d else children n.

Lemma walk_children_all (P : list (list byte * Node) -> Prop) d n :
  P [] -> (forall k c l, seg_ok k -> P l -> P (set_child k c l)) -> nodes_all P n ->
  nodes_all P (mkNode (walk_children d n)).
Proof.
  intros Hnil Hset Hn. unfold walk_children. destruct n as [l].
  destruct (empty (mkNode l)); [by apply field_leaves_all|done].
Qed.

Lemma walk_children_ordered d n : ordered n -> ordered (mkNode (walk_children d n)).
Proof. intros. apply walk_children_all; [constructor|intros; by apply sorted_set|done]. Qed.

Lemma walk_children_covers d n s p f :
  FindFieldByName d s = Some f -> node_covers n (s :: p) = child_covers (walk_children d n) s p.
Proof.
  intros Ef. unfold walk_children. destruct (empty n) eqn:Ee.
  - rewrite node_covers_leaf by done. unfold child_covers. rewrite lookup_field_leaves, Ef.
    by rewrite node_covers_leaf.
  - destruct n as [[|kv l]]; [done|]. by apply node_covers_eq.
Qed.

Lemma walk_eq nb s parts d n :
  RemovePath_walk nb (s :: parts) d n =
  match FindFieldByName d s with
  | None => (n, Invalid)
  | Some f =>
      if negb (is_nil parts || bool_decide (is_Some (message_type f))) then (n, Invalid)
      else
        match lookup_child s (walk_children d n) with
        | None => (mkNode (walk_children d n), Absent)
        | Some c =>
            let '(c, w) := RemovePath_walk (nb || (empty n && negb nb)) parts (below d f) c in
            match w with
            | Invalid => if empty n && negb nb then (mkNode [], Invalid)
                         else (mkNode (set_child s c (walk_children d n)), Invalid)
            | _ => (mkNode (set_child s c (walk_children d n)), w)
            end
        end
  end.
Proof.
  cbn [RemovePath_walk]. destruct (FindFieldByName d s); [|done].
  rewrite negb_orb, (andb_comm (negb (is_nil parts))). done.
Qed.

(** Below a leaf the walk never misses a name. *)
Lemma walk_leaf_present nb parts d n c : empty n = true -> RemovePath_walk nb parts d n <> (c, Absent).
Proof.
  revert nb d n c. induction parts as [|s parts IH]; intros nb d n c He; [done|]. rewrite walk_eq.
  destruct (FindFieldByName d s) as [f|] eqn:Ef; [|done]. case_match; [done|].
  unfold walk_children. rewrite He, lookup_field_leaves, Ef.
  destruct (RemovePath_walk _ parts (below d f) (mkNode [])) as [c' w] eqn:Ew.
  destruct w; [by case_match| |done]. by apply IH in Ew.
Qed.

(** A walk that does not reach the path's node leaves the tree as it was. *)
Lemma walk_unchanged parts d n n' w :
  ordered n -> RemovePath_walk false parts d n = (n', w) -> w <> Found -> n' = n.
Proof.
  revert d n n' w. induction parts as [|s parts IH]; intros d n n' w Ho E Hw; [by simplify_eq/=|].
  rewrite walk_eq in E. destruct (FindFieldByName d s) as [f|] eqn:Ef; [|by simplify_eq].
  case_match; [by simplify_eq|]. rewrite andb_true_r, orb_false_l in E.
  destruct (empty n) eqn:Ee.
  - unfold walk_children in E. rewrite Ee, lookup_field_leaves, Ef in E.
    destruct (RemovePath_walk _ parts (below d f) (mkNode [])) as [c' w'] eqn:Ew.
    destruct w'; simplify_eq; [by destruct n as [[|? ?]]|]. by apply walk_leaf_present in Ew.
  - assert (walk_children d n = children n) as Ec by (unfold walk_children; by rewrite Ee).
    rewrite Ec in E. destruct n as [l]. cbn [children] in E.
    pose proof Ho as Ho'. unfold ordered in Ho'. rewrite nodes_all_eq in Ho'. destruct Ho' as [Hs Hc].
    destruct (lookup_child s l) as [c|] eqn:El; [|by simplify_eq].
    destruct (RemovePath_walk false parts (below d f) c) as [c' w'] eqn:Ew.
    assert (w' <> Found -> mkNode (set_child s c' l) = mkNode l) as Hsame.
    { intros Hw'. apply IH in Ew as ->; [|by apply (lookup_Forall ordered _ _ _ El)|done].
      by rewrite set_child_same. }
    destruct w'; simplify_eq; by apply Hsame.
Qed.

(** When the node is not reached although the path can be walked, nothing below
    the path is in the tree. *)
Lemma walk_absent parts d n n' p :
  RemovePath_walk false parts d n = (n', Absent) -> prefixb parts p = true -> node_covers n p = false.
Proof.
  revert d n n' p. induction parts as [|s parts IH]; intros d n n' p E Hp; [done|].
  destruct p as [|s' p]; [done|]. rewrite prefixb_cons in Hp. case_decide; [subst s'|done].
  destruct (empty n) eqn:Ee; [by apply walk_leaf_present in E|].
  rewrite walk_eq in E. destruct (FindFieldByName d s) as [f|] eqn:Ef; [|done].
  case_match; [done|]. rewrite Ee in E. simpl orb in E. rewrite (walk_children_covers d n s p f) by done.
  unfold child_covers. destruct (lookup_child s (walk_children d n)) as [c|]; [|done].
  destruct (RemovePath_walk false parts (below d f) c) as [c' w] eqn:Ew.
  destruct w; simplify_eq. by apply (IH _ _ _ p) in Ew.
Qed.

Lemma walk_invalid nb parts d n n' : walkable d parts = true -> RemovePath_walk nb parts d n <> (n', Invalid).
Proof.
  revert nb d n n'. induction parts as [|s parts IH]; intros nb d n n' Hw; [done|]. rewrite walk_eq.
  simpl in Hw. destruct (FindFieldByName d s) as [f|]; [|done]. apply andb_true_iff in Hw as [-> Hw].
  simpl. destruct (lookup_child s _) as [c|]; [|done].
  destruct (RemovePath_walk _ parts (below d f) c) as [c' w] eqn:Ew. destruct w; [by apply IH in Ew|done..].
Qed.
Lemma walk_found nb parts d n n' : RemovePath_walk nb parts d n = (n', Found) -> walkable d parts = true.
Proof.
  revert nb d n n'. induction parts as [|s parts IH]; intros nb d n n' Hw; [done|]. rewrite walk_eq in Hw.
  simpl. destruct (FindFieldByName d s) as [f|]; [|done].
  destruct (is_nil parts || _); simpl in Hw |- *; [|done].
  destruct (lookup_child s _) as [c|]; [|done].
  destruct (RemovePath_walk _ parts (below d f) c) as [c' w] eqn:Ew. destruct w; [by case_match|done|by apply IH in Ew].
Qed.

Lemma erase_covers parts nb d n n' p :
  parts <> [] -> ordered n -> RemovePath_walk nb parts d n = (n', Found) -> walkable d p = true ->
  (prefixb p parts = true -> p = parts) ->
  tree_covers (RemovePath_erase parts n') p = node_covers n p && negb (prefixb parts p).
Proof.
  revert nb d n n' p. induction parts as [|s parts IH]; intros nb d n n' p Hne Ho Hw Hp Hpre; [done|].
  rewrite walk_eq in Hw. destruct (FindFieldByName d s) as [f|] eqn:Ef; [|done]. case_match; [done|].
  pose proof (walk_children_ordered d n Ho) as Ho'. set (l := walk_children d n) in *.
  unfold ordered in Ho'. rewrite nodes_all_eq in Ho'. destruct Ho' as [Hs Hc].
  destruct (lookup_child s l) as [c|] eqn:El; [|done].
  destruct (RemovePath_walk _ parts (below d f) c) as [c' w] eqn:Ew.
  destruct w; [by case_match|done|]. injection Hw as <-.
  destruct p as [|x p]; [by specialize (Hpre eq_refl)|].
  simpl in Hp. destruct (FindFieldByName d x) as [fx|] eqn:Ex; [|done]. apply andb_true_iff in Hp as [_ Hp].
  rewrite (walk_children_covers d n x p fx) by done. fold l. rewrite prefixb_cons.
  pose proof (sorted_set s c' l Hs) as Hs'.
  assert (forall m, (forall y, y <> s -> lookup_child y m = lookup_child y l) ->
    tree_covers (mkNode m) (x :: p) =
    if decide (x = s) then child_covers m s p else child_covers l x p) as Hm.
  { intros m Hm. rewrite root_covers. destruct (decide (x = s)) as [->|Hx]; [done|].
    unfold child_covers. by rewrite Hm. }
  assert (forall y, y <> s -> lookup_child y (erase_child s (set_child s c' l)) = lookup_child y l) as He.
  { intros y Hy. by rewrite lookup_erase, decide_False, lookup_set, decide_False by done. }
  assert (child_covers (erase_child s (set_child s c' l)) s p = false) as Hes.
  { unfold child_covers. by rewrite lookup_erase, decide_True by done. }
  destruct parts as [|t parts].
  { cbn [RemovePath_erase children]. rewrite Hm by done. rewrite Hes.
    destruct (decide (x = s)); [by destruct p; rewrite andb_false_r|by rewrite andb_true_r]. }
  assert (lookup_child s (set_child s c' l) = Some c') as El' by (by rewrite lookup_set, decide_True).
  set (rest := t :: parts) in *.
  assert (x = s -> tree_covers (RemovePath_erase rest c') p = node_covers c p && negb (prefixb rest p)) as Hin.
  { intros ->. rewrite Ef in Ex. injection Ex as <-.
    apply (IH (nb || (empty n && negb nb)) (below d f) c c'); [done|by apply (lookup_Forall ordered _ _ _ El)|done|done|].
    intros Hr. assert (s :: p = s :: rest) as E; [|by injection E].
    apply Hpre. rewrite prefixb_cons. by rewrite decide_True. }
  change (RemovePath_erase (s :: rest) (mkNode (set_child s c' l))) with
    (match lookup_child s (set_child s c' l) with
     | None => mkNode (set_child s c' l)
     | Some child =>
         if empty (RemovePath_erase rest child) then mkNode (erase_child s (set_child s c' l))
         else mkNode (set_child s (RemovePath_erase rest child) (set_child s c' l))
     end).
  rewrite El'. destruct (empty (RemovePath_erase rest c')) eqn:Ee.
  - rewrite Hm by done. rewrite Hes. destruct (decide (x = s)) as [->|]; [|by rewrite andb_true_r].
    unfold child_covers. rewrite El, <- Hin by done. unfold tree_covers. by rewrite Ee.
  - rewrite Hm by (intros y Hy; by rewrite !lookup_set, !decide_False).
    destruct (decide (x = s)) as [->|]; [|by rewrite andb_true_r].
    unfold child_covers. rewrite lookup_set, decide_True, El, <- Hin by done. unfold tree_covers. by rewrite Ee.
Qed.

Lemma walk_all (P : list (list byte * Node) -> Prop) nb parts d n :
  P [] -> (forall k c l, seg_ok k -> P l -> P (set_child k c l)) -> nodes_all P n ->
  nodes_all P (fst (RemovePath_walk nb parts d n)).
Proof.
  intros Hnil Hset. revert nb d n. induction parts as [|s parts IH]; intros nb d n Hn; [done|].
  rewrite walk_eq. destruct (FindFieldByName d s) as [f|] eqn:Ef; [|done]. case_match; [done|].
  pose proof (walk_children_all P d n Hnil Hset Hn) as Hl. pose proof Hl as Hl'.
  rewrite nodes_all_eq in Hl'. destruct Hl' as [Hl1 Hl2].
  destruct (lookup_child s (walk_children d n)) as [c|] eqn:El; [|done].
  specialize (IH (nb || (empty n && negb nb)) (below d f) c (lookup_Forall _ _ _ _ El Hl2)).
  destruct (RemovePath_walk _ parts (below d f) c) as [c' w]. simpl in IH.
  apply find_field in Ef as [Hf <-]. pose proof (names_ok d f Hf) as Hk.
  assert (nodes_all P (mkNode (set_child (field_name f) c' (walk_children d n)))) as Hnew
    by (rewrite nodes_all_eq; split; [by apply Hset|by apply Forall_set]).
  destruct w; [case_match|..]; try done.
Qed.

Lemma erase_all (P : list (list byte * Node) -> Prop) parts d n :
  (forall k c l, seg_ok k -> P l -> P (set_child k c l)) ->
  (forall k l, P l -> P (erase_child k l)) -> walkable d parts = true -> nodes_all P n ->
  nodes_all P (RemovePath_erase parts n).
Proof.
  intros Hset Hdel. revert d n. induction parts as [|s parts IH]; intros d [l] Hw Hn; [done|].
  simpl in Hw. destruct (FindFieldByName d s) as [f|] eqn:Ef; [|done]. apply andb_true_iff in Hw as [_ Hw].
  rewrite nodes_all_eq in Hn. destruct Hn as [Hl Hc].
  assert (nodes_all P (mkNode (erase_child s l))) as He
    by (rewrite nodes_all_eq; split; [by apply Hdel|by apply Forall_erase]).
  cbn [RemovePath_erase children]. destruct parts as [|t parts]; [done|].
  destruct (lookup_child s l) as [c|] eqn:El; [|by rewrite nodes_all_eq].
  specialize (IH _ c Hw (lookup_Forall _ _ _ _ El Hc)).
  case_match; [done|]. rewrite nodes_all_eq. apply find_field in Ef as [Hf <-].
  split; [apply Hset; [by apply (names_ok d)|done]|by apply Forall_set].
Qed.

Lemma RemovePath_all `{!AbslStrings} (P : list (list byte * Node) -> Prop) path d root :
  P [] -> (forall k c l, seg_ok k -> P l -> P (set_child k c l)) ->
  (forall k l, P l -> P (erase_child k l)) -> nodes_all P root -> nodes_all P (RemovePath path d root).
Proof.
  intros Hnil Hset Hdel Hr. unfold RemovePath. destruct (empty root); [done|].
  destruct (StrSplit path ch_dot) as [|s parts]; [done|].
  pose proof (walk_all P false (s :: parts) d root Hnil Hset Hr) as Hw.
  destruct (RemovePath_walk false (s :: parts) d root) as [root' w] eqn:E. simpl in Hw.
  destruct w; [done|done|]. apply walk_found in E. by apply (erase_all P _ d).
Qed.

Lemma RemovePath_ordered `{!AbslStrings} path d root : ordered root -> ordered (RemovePath path d root).
Proof.
  apply RemovePath_all; [constructor|intros; by apply sorted_set|intros; by apply sorted_erase].
Qed.
Lemma RemovePath_named `{!AbslStrings} path d root : named root -> named (RemovePath path d root).
Proof.
  apply RemovePath_all; [constructor|intros; by apply named_set|intros k l; apply Forall_erase].
Qed.

(** Removing a path that can be walked takes away what it covers; any other
    path changes nothing. *)
Lemma RemovePath_covers `{AbslStringsOk} path d root p :
  ordered root -> walkable d p = true -> (prefixb p (segs path) = true -> p = segs path) ->
  tree_covers (RemovePath path d root) p
  = tree_covers root p && negb (walkable d (segs path) && prefixb (segs path) p).
Proof.
  intros Ho Hp Hpre. unfold RemovePath, tree_covers at 2. destruct (empty root) eqn:Ee.
  { unfold tree_covers. by rewrite Ee. }
  pose proof (segs_ne path) as Hne. fold (segs path).
  destruct (segs path) as [|s parts] eqn:Es; [done|].
  destruct (RemovePath_walk false (s :: parts) d root) as [root' w] eqn:Ew. cbn [negb andb].
  assert (w <> Found -> tree_covers root' p = node_covers root p) as Hsame.
  { intros Hw. apply walk_unchanged in Ew as ->; [|done|done]. unfold tree_covers. by rewrite Ee. }
  destruct w.
  - rewrite Hsame by done. destruct (walkable d (s :: parts)) eqn:Ek; [by apply walk_invalid in Ew|].
    by rewrite andb_true_r.
  - rewrite Hsame by done. destruct (walkable d (s :: parts) && prefixb (s :: parts) p) eqn:Ek; [|by rewrite andb_true_r].
    apply andb_true_iff in Ek as [_ Ek]. by rewrite (walk_absent _ _ _ _ p Ew).
  - rewrite (walk_found _ _ _ _ _ Ew), andb_true_l. by apply (erase_covers _ false d).
Qed.
End removal.
