(* ===== verification/FieldMaskTheorems.v ===== *)
(** * The operations of field masks

    What [FieldMaskUtil] promises: the set operations, the canonical form, and
    the text forms of a mask. *)

From Stdlib Require Import Strings.Byte Strings.String Sorting.Sorted.
From stdpp Require Import sets.
From S2P Require Import Prelude FieldMask FieldMaskSpec FieldMaskTrees.

(** ** The order of the leaves *)

(** At the first name where they differ, the first path's is smaller. *)
Definition path_lt (p q : list (list byte)) : Prop :=
  exists c k1 r1 k2 r2, p = c ++ k1 :: r1 /\ q = c ++ k2 :: r2 /\ slt k1 k2.

Lemma path_lt_prefix p q : path_lt p q -> prefixb p q = false /\ prefixb q p = false.
Proof.
  intros (c & k1 & r1 & k2 & r2 & -> & -> & Hk).
  assert (k1 <> k2) as Hne by (intros ->; unfold slt in Hk; by rewrite string_ltb_irrefl in Hk).
  rewrite !prefixb_app_l, !prefixb_app, !drop_app_length. simpl.
  by rewrite !bool_decide_false by congruence.
Qed.

Lemma path_lt_cons k p q : path_lt p q -> path_lt (k :: p) (k :: q).
Proof. intros (c & k1 & r1 & k2 & r2 & -> & -> & Hk). by exists (k :: c), k1, r1, k2, r2. Qed.

Lemma StronglySorted_append {A} (R : A -> A -> Prop) l1 l2 :
  StronglySorted R l1 -> StronglySorted R l2 -> (forall x y, x ∈ l1 -> y ∈ l2 -> R x y) ->
  StronglySorted R (l1 ++ l2).
Proof.
  induction 1 as [|x l1 Hs IH Hf]; intros H2 Hx; [done|]. simpl. constructor.
  - apply IH; [done|]. intros. apply Hx; set_solver.
  - apply Forall_app_2; [done|]. apply Forall_forall. intros y Hy. apply Hx; set_solver.
Qed.

Lemma StronglySorted_map {A B} (R : A -> A -> Prop) (R' : B -> B -> Prop) (f : A -> B) l :
  (forall x y, x ∈ l -> y ∈ l -> R x y -> R' (f x) (f y)) -> StronglySorted R l -> StronglySorted R' (map f l).
Proof.
  intros Hf. induction 1 as [|x l Hs IH Hx]; simpl; constructor.
  - apply IH. intros. apply Hf; set_solver.
  - apply Forall_map, Forall_forall. intros y Hy. rewrite Forall_forall in Hx.
    apply Hf; [set_solver..|by apply Hx].
Qed.

Lemma leaf_paths_sorted n : ordered n -> StronglySorted path_lt (leaf_paths n).
Proof.
  induction n as [l IH] using Node_nested_ind. intros Ho.
  unfold ordered in Ho. rewrite nodes_all_eq in Ho. destruct Ho as [Hs Hc].
  destruct (decide (l = [])) as [->|Hl]; [repeat constructor|]. rewrite leaf_paths_eq by done. clear Hl.
  unfold keys_sorted in Hs. induction l as [|[k c] l IHl]; simpl; [constructor|].
  inversion_clear IH as [|? ? IHc IHl']. inversion_clear Hs as [|? ? Hs1 Hs2].
  inversion_clear Hc as [|? ? Hc1 Hc2]. simpl in *. apply StronglySorted_append.
  - apply (StronglySorted_map path_lt); [|by apply IHc]. intros. by apply path_lt_cons.
  - by apply IHl.
  - intros p q Hp Hq. apply list_elem_of_In, in_map_iff in Hp as (p' & <- & _).
    apply list_elem_of_In, in_flat_map in Hq as ([k2 c2] & Hin & Hq). apply in_map_iff in Hq as (q' & <- & _).
    exists [], k, p', k2, q'. split; [done|]. split; [done|]. rewrite Forall_forall in Hs2.
    apply Hs2. apply list_elem_of_In, in_map_iff. by exists (k2, c2).
Qed.

(** *** In alphabetical order

    The characters of field names come behind the dot. *)
Definition plain (s : list byte) : Prop := Forall (fun c => 46 < b2z c) s.
Definition tail_of (c : byte) (r : list (list byte)) : list byte :=
  match r with [] => [] | _ => c :: join c r end.

Lemma join_tail c k r : join c (k :: r) = k ++ tail_of c r.
Proof. destruct r; simpl; [by rewrite app_nil_r|done]. Qed.

Lemma slt_app p a b : slt a b -> slt (p ++ a) (p ++ b).
Proof. unfold slt. intros. induction p as [|x p IH]; simpl; [done|]. by rewrite Z.eqb_refl, IH, orb_true_r. Qed.

Lemma slt_tails k1 k2 r1 r2 :
  plain k1 -> plain k2 -> slt k1 k2 -> slt (k1 ++ tail_of ch_dot r1) (k2 ++ tail_of ch_dot r2).
Proof.
  unfold slt. intros H1. revert k2. induction H1 as [|x k1 Hx H1 IH]; intros k2 H2 Hlt.
  - destruct H2 as [|y k2 Hy H2]; [done|]. destruct r1; simpl; [done|].
    rewrite (proj2 (Z.ltb_lt (b2z ch_dot) (b2z y))); [done|]. exact Hy.
  - destruct H2 as [|y k2 Hy H2]; [done|]. simpl in *. rewrite orb_true_iff, andb_true_iff in *.
    destruct Hlt as [?|[? ?]]; [by left|right]. split; [done|by apply IH].
Qed.

Lemma join_app_cons c l k r : l <> [] -> join c (l ++ k :: r) = join c l ++ c :: join c (k :: r).
Proof.
  induction l as [|x l IH]; intros Hl; [done|]. destruct l as [|y l]; [done|].
  rewrite (join_cons c x (y :: l)) by done. rewrite <- app_comm_cons, join_cons by done.
  rewrite IH by done. by rewrite <- app_assoc.
Qed.

Lemma slt_join p q : Forall plain p -> Forall plain q -> path_lt p q -> slt (join ch_dot p) (join ch_dot q).
Proof.
  intros Hp Hq (c & k1 & r1 & k2 & r2 & -> & -> & Hk).
  rewrite Forall_app, Forall_cons in Hp, Hq. destruct Hp as (_ & Hp & _), Hq as (_ & Hq & _).
  assert (slt (join ch_dot (k1 :: r1)) (join ch_dot (k2 :: r2))) as Hs
    by (rewrite !join_tail; by apply slt_tails).
  destruct (decide (c = [])) as [->|Hc]; [done|]. rewrite !join_app_cons by done.
  by apply slt_app, (slt_app [ch_dot]).
Qed.

(** ** Masks *)

Section masks.
Context `{AbslStringsOk}.

(** No path has an empty name. *)
Definition mask_ok (mask : FieldMask) : Prop := Forall path_ok mask.

Definition tree_of (mask : FieldMask) : Node := MergeFromFieldMask mask (mkNode []).

Lemma tree_of_covers mask p : tree_covers (tree_of mask) p = covers mask p.
Proof. unfold tree_of. by rewrite merge_covers. Qed.
Lemma tree_of_ordered mask : ordered (tree_of mask).
Proof. apply merge_ordered, ordered_nil. Qed.
Lemma tree_of_named mask : mask_ok mask -> named (tree_of mask).
Proof. intros. apply merge_named; [done|apply named_nil]. Qed.

Lemma canonical_covers mask p : mask_ok mask -> covers (ToCanonicalForm mask) p = covers mask p.
Proof.
  intros Hm. unfold ToCanonicalForm. fold (tree_of mask).
  rewrite to_mask_covers, tree_of_covers; [done|apply tree_of_ordered|by apply tree_of_named].
Qed.

Lemma union_eq mask1 mask2 : Union mask1 mask2 = ToCanonicalForm (mask1 ++ mask2).
Proof. unfold Union, ToCanonicalForm, MergeFromFieldMask. by rewrite fold_left_app. Qed.

Lemma covers_app m1 m2 p : covers (m1 ++ m2) p = covers m1 p || covers m2 p.
Proof. unfold covers. by rewrite existsb_app. Qed.

Definition intersection_of (mask1 mask2 : FieldMask) : Node :=
  fold_left (fun out path => IntersectPath path (tree_of mask1) out) mask2 (mkNode []).

Lemma intersection_covers mask1 mask2 p :
  mask_ok mask1 -> mask_ok mask2 ->
  tree_covers (intersection_of mask1 mask2) p = covers mask1 p && covers mask2 p.
Proof.
  intros H1 H2. unfold intersection_of.
  assert (forall out, tree_covers (fold_left (fun out path => IntersectPath path (tree_of mask1) out) mask2 out) p
    = tree_covers out p || (covers mask1 p && covers mask2 p)) as Hf; [|by rewrite Hf].
  induction H2 as [|q mask2 Hq H2 IH]; intros out; simpl; [by rewrite andb_false_r, orb_false_r|].
  rewrite IH, IntersectPath_covers, tree_of_covers
    by (done || apply tree_of_ordered || by apply tree_of_named).
  rewrite andb_orb_distrib_r, orb_assoc, (andb_comm (covers mask1 p) (prefixb _ _)). done.
Qed.

Lemma intersection_inv (Q : Node -> Prop) mask1 mask2 :
  (forall path out, path_ok path -> Q out -> Q (AddPath path out)) ->
  mask_ok mask1 -> mask_ok mask2 -> Q (mkNode []) -> Q (intersection_of mask1 mask2).
Proof.
  intros HQ H1 H2. unfold intersection_of. generalize (mkNode []).
  induction H2 as [|q mask2 Hq H2 IH]; intros out Hout; simpl; [done|].
  apply IH, IntersectPath_inv; [done|done|by apply tree_of_named|done].
Qed.

Lemma intersect_covers mask1 mask2 p :
  mask_ok mask1 -> mask_ok mask2 ->
  covers (Intersect mask1 mask2) p = covers mask1 p && covers mask2 p.
Proof.
  intros H1 H2. unfold Intersect. fold (tree_of mask1). fold (intersection_of mask1 mask2).
  rewrite to_mask_covers; [by apply intersection_covers| |].
  - apply intersection_inv; [intros; by apply AddPath_ordered|done|done|apply ordered_nil].
  - apply intersection_inv; [intros; by apply AddPath_named|done|done|apply named_nil].
Qed.

(** A mask path is a prefix of a path up to a dot exactly when its names are a
    prefix of the path's names. *)
Lemma in_mask_path path q :
  (if decide (path = q) then true
   else (zlen q <? zlen path) &&
        match ConsumePrefix path q with
        | Some current => bool_decide (is_Some (ConsumePrefix current [ch_dot]))
        | None => false
        end) = prefixb (segs q) (segs path).
Proof.
  apply eq_true_iff_eq. rewrite prefixb_spec. split.
  - destruct (decide (path = q)) as [->|Hne]; [intros _; exists []; by rewrite app_nil_r|].
    intros E. apply andb_true_iff in E as [_ E]. destruct (ConsumePrefix path q) as [cur|] eqn:Ec; [|done].
    apply bool_decide_eq_true in E as [r Er]. apply consume_prefix in Ec, Er. subst path cur.
    exists (segs r). apply (join_inj ch_dot); [apply segs_nodot| |apply segs_ne| |].
    + apply Forall_app_2; apply segs_nodot.
    + pose proof (segs_ne q). by destruct (segs q).
    + rewrite join_segs. pose proof (segs_ne r). destruct (segs r) as [|k l] eqn:E; [done|].
      rewrite join_app_cons, <- E, !join_segs by apply segs_ne. done.
  - intros [r Er]. destruct r as [|k r].
    { rewrite app_nil_r in Er. apply segs_inj in Er. by rewrite decide_True. }
    assert (path = q ++ ch_dot :: join ch_dot (k :: r)) as Ep.
    { rewrite <- (join_segs path), Er, join_app_cons, join_segs by apply segs_ne. done. }
    rewrite decide_False; [|intros ->; apply (f_equal length) in Ep; rewrite length_app in Ep; simpl in Ep; lia].
    apply andb_true_iff. split.
    { apply Z.ltb_lt. rewrite Ep, zlen_app, zlen_cons. pose proof (zlen_nonneg (join ch_dot (k :: r))). lia. }
    destruct (ConsumePrefix path q) as [cur|] eqn:Ec.
    + apply consume_prefix in Ec. rewrite Ep in Ec. apply app_inv_head in Ec as <-.
      apply bool_decide_eq_true. exists (join ch_dot (k :: r)). by apply consume_prefix.
    + pose proof (proj2 (consume_prefix path q _) Ep). congruence.
Qed.

Lemma is_path_in_mask path mask : IsPathInFieldMask path mask = covers mask (segs path).
Proof.
  induction mask as [|q mask IH]; [done|]. simpl. rewrite <- in_mask_path, IH.
  destruct (decide (path = q)); [done|]. by destruct (_ && _).
Qed.

Lemma tree_covers_inj t1 t2 :
  ordered t1 -> ordered t2 -> (forall p, tree_covers t1 p = tree_covers t2 p) -> t1 = t2.
Proof.
  intros H1 H2 E.
  assert (forall t, empty t = true -> t = mkNode []) as He by (by intros [[|? ?]]).
  assert (forall t, empty t = false -> exists p, tree_covers t p = true) as Hs.
  { intros t Ht. destruct (node_covers_some t) as [p Hp]. exists p. unfold tree_covers. by rewrite Ht. }
  destruct (empty t1) eqn:E1, (empty t2) eqn:E2.
  - by rewrite (He t1), (He t2).
  - destruct (Hs t2 E2) as [p Hp]. rewrite <- E in Hp. unfold tree_covers in Hp. by rewrite E1 in Hp.
  - destruct (Hs t1 E1) as [p Hp]. rewrite E in Hp. unfold tree_covers in Hp. by rewrite E2 in Hp.
  - apply node_covers_inj; [done|done|]. intros p. specialize (E p). unfold tree_covers in E.
    by rewrite E1, E2 in E.
Qed.

Lemma canonical_unique mask1 mask2 :
  (forall p, covers mask1 p = covers mask2 p) -> ToCanonicalForm mask1 = ToCanonicalForm mask2.
Proof.
  intros E. unfold ToCanonicalForm. fold (tree_of mask1). fold (tree_of mask2).
  rewrite (tree_covers_inj (tree_of mask1) (tree_of mask2)); [done|apply tree_of_ordered..|].
  intros p. by rewrite !tree_of_covers.
Qed.

(** The paths of a canonical mask, by the leaves of its tree. *)
Lemma canonical_leaves mask :
  mask_ok mask -> ToCanonicalForm mask = [] \/
  ToCanonicalForm mask = map (join ch_dot) (leaf_paths (tree_of mask)) /\ empty (tree_of mask) = false.
Proof.
  intros Hm. pose proof (merge_to_leaves (tree_of mask) [] (tree_of_named mask Hm) ltac:(constructor)) as E.
  unfold ToCanonicalForm. fold (tree_of mask). change (join ch_dot []) with (@nil byte) in E. rewrite E.
  rewrite bool_decide_true by done. destruct (empty (tree_of mask)); [by left|by right].
Qed.

(** Before the plain names of a canonical mask there is no other path. *)
Definition plain_path (path : list byte) : Prop := Forall plain (segs path).
Definition keys_plain (l : list (list byte * Node)) : Prop := Forall (fun kv => plain (fst kv)) l.

Lemma plain_set k n l : plain k -> keys_plain l -> keys_plain (set_child k n l).
Proof.
  intros Hk. unfold keys_plain. induction 1 as [|[k1 n1] l H1' Hl IH]; simpl;
    [apply Forall_cons_2; [done|apply Forall_nil_2]|].
  repeat case_match; repeat (apply Forall_cons_2; [done|]); done.
Qed.

Lemma tree_of_plain mask : Forall plain_path mask -> nodes_all keys_plain (tree_of mask).
Proof.
  intros Hm. unfold tree_of, MergeFromFieldMask.
  assert (nodes_all keys_plain (mkNode [])) as Hn by (rewrite nodes_all_eq; split; apply Forall_nil_2).
  revert Hn. generalize (mkNode []). induction Hm as [|q mask Hq _ IH]; intros n Hn; simpl; [done|].
  apply IH. unfold AddPath. unfold plain_path, segs in Hq. destruct (StrSplit q ch_dot) as [|s parts]; [done|].
  apply (AddPath_loop_all _ plain); [apply Forall_nil_2|apply plain_set|done|done].
Qed.

Lemma leaf_paths_plain n q : nodes_all keys_plain n -> q ∈ leaf_paths n -> Forall plain q.
Proof.
  revert q. induction n as [l IH] using Node_nested_ind. intros q Hn Hq.
  rewrite nodes_all_eq in Hn. destruct Hn as [Hk Hc].
  destruct (decide (l = [])) as [->|Hl]; [simpl in Hq; set_solver|].
  rewrite leaf_paths_eq in Hq by done. apply list_elem_of_In, in_flat_map in Hq as (kv & Hin & Hq).
  apply in_map_iff in Hq as (q' & <- & Hq'). apply list_elem_of_In in Hin, Hq'.
  unfold keys_plain in Hk. rewrite Forall_forall in IH, Hk, Hc. constructor; [by apply Hk|].
  apply (IH kv); [done|by apply Hc|done].
Qed.

Lemma canonical_separated mask p q :
  mask_ok mask -> p ∈ ToCanonicalForm mask -> q ∈ ToCanonicalForm mask ->
  prefixb (segs p) (segs q) = true -> p = q.
Proof.
  intros Hm Hp Hq Hpre. pose proof (tree_of_named mask Hm) as Hn.
  destruct (canonical_leaves mask Hm) as [E|[E Ee]]; rewrite E in Hp, Hq; [set_solver|].
  apply list_elem_of_In, in_map_iff in Hp as (lp & <- & Hp), Hq as (lq & <- & Hq).
  apply list_elem_of_In in Hp, Hq.
  assert (forall l, l ∈ leaf_paths (tree_of mask) -> segs (join ch_dot l) = l) as Hsegs.
  { intros l Hl. destruct (tree_of mask) as [kids] eqn:Et. apply segs_of_leaf.
    - by apply (leaf_paths_named (mkNode kids)).
    - apply (leaf_paths_nonempty kids); [by destruct kids|done]. }
  rewrite !Hsegs in Hpre by done. f_equal.
  pose proof (leaf_paths_sorted _ (tree_of_ordered mask)) as Hs.
  clear E. induction Hs as [|x l Hs IH Hx]; [set_solver|]. rewrite Forall_forall in Hx.
  rewrite elem_of_cons in Hp, Hq. destruct Hp as [->|Hp], Hq as [->|Hq]; [done|..].
  - by destruct (path_lt_prefix _ _ (Hx lq Hq)) as [E1 _]; rewrite E1 in Hpre.
  - by destruct (path_lt_prefix _ _ (Hx lp Hp)) as [_ E1]; rewrite E1 in Hpre.
  - apply IH; try done. intros y Hy. apply Hsegs. by right.
Qed.

Lemma canonical_alphabetical mask :
  mask_ok mask -> Forall plain_path mask -> StronglySorted slt (ToCanonicalForm mask).
Proof.
  intros Hm Hp. destruct (canonical_leaves mask Hm) as [->|[-> _]]; [constructor|].
  apply (StronglySorted_map path_lt); [|apply leaf_paths_sorted, tree_of_ordered].
  intros x y Hx Hy. pose proof (tree_of_plain mask Hp). apply slt_join; by eapply leaf_paths_plain.
Qed.

(** *** Subtraction *)

Lemma subtract_tree_covers `{DescriptorsOk} d mask2 t p :
  ordered t -> walkable d p = true ->
  Forall (fun q => prefixb p (segs q) = true -> p = segs q) mask2 ->
  tree_covers (fold_left (fun tree path => RemovePath path d tree) mask2 t) p
  = tree_covers t p && negb (existsb (fun q => walkable d (segs q) && prefixb (segs q) p) mask2).
Proof.
  intros Ho Hp Hm. revert t Ho. induction Hm as [|q mask2 Hq _ IH]; intros t Ho; simpl.
  { by rewrite andb_true_r. }
  rewrite IH by (by apply RemovePath_ordered). rewrite RemovePath_covers by done.
  by rewrite negb_orb, andb_assoc.
Qed.

Lemma subtract_inv `{DescriptorsOk} d mask2 t :
  ordered t -> named t ->
  ordered (fold_left (fun tree path => RemovePath path d tree) mask2 t) /\
  named (fold_left (fun tree path => RemovePath path d tree) mask2 t).
Proof.
  revert t. induction mask2 as [|q mask2 IH]; intros t Ho Hn; simpl; [done|].
  apply IH; [by apply RemovePath_ordered|by apply RemovePath_named].
Qed.
End masks.

(** ** Case conversion *)

(** The conversions without the buffer. *)
Fixpoint snake_to_camel (after_underscore : bool) (s : list byte) : option (list byte) :=
  match s with
  | [] => if after_underscore then None else Some []
  | c :: s =>
      if is_upper c then None
      else if after_underscore then
        if is_lower c then cons (to_upper c) <$> snake_to_camel false s else None
      else if decide (c = ch_underscore) then snake_to_camel true s
      else cons c <$> snake_to_camel false s
  end.
Fixpoint camel_to_snake (s : list byte) : option (list byte) :=
  match s with
  | [] => Some []
  | c :: s =>
      if decide (c = ch_underscore) then None
      else if is_upper c then (fun r => ch_underscore :: to_lower c :: r) <$> camel_to_snake s
      else cons c <$> camel_to_snake s
  end.

Lemma snake_loop_spec au s out o :
  SnakeCaseToCamelCase_loop au s out = (true, o) <-> exists r, snake_to_camel au s = Some r /\ o = out ++ r.
Proof.
  revert au out. induction s as [|c s IH]; intros au out; simpl.
  { destruct au; simpl; split; [done|naive_solver| |].
    - intros E. simplify_eq. exists []. by rewrite app_nil_r.
    - intros (r & E & ->). simplify_eq. by rewrite app_nil_r. }
  destruct (is_upper c); [naive_solver|]. destruct au.
  - destruct (is_lower c); [|naive_solver]. rewrite IH. split.
    + intros (r & -> & ->). eexists. split; [done|]. by rewrite <- app_assoc.
    + intros (r & E & ->). destruct (snake_to_camel false s); simplify_eq/=. eexists.
      split; [done|]. by rewrite <- app_assoc.
  - case_decide; [apply IH|]. rewrite IH. split.
    + intros (r & -> & ->). eexists. split; [done|]. by rewrite <- app_assoc.
    + intros (r & E & ->). destruct (snake_to_camel false s); simplify_eq/=. eexists.
      split; [done|]. by rewrite <- app_assoc.
Qed.

Lemma camel_loop_spec s out o :
  CamelCaseToSnakeCase_loop s out = (true, o) <-> exists r, camel_to_snake s = Some r /\ o = out ++ r.
Proof.
  revert out. induction s as [|c s IH]; intros out; simpl.
  { split.
    - intros E. simplify_eq. exists []. by rewrite app_nil_r.
    - intros (r & E & ->). simplify_eq. by rewrite app_nil_r. }
  case_decide; [naive_solver|]. destruct (is_upper c); rewrite IH; split.
  - intros (r & -> & ->). eexists. split; [done|]. by rewrite <- app_assoc.
  - intros (r & E & ->). destruct (camel_to_snake s); simplify_eq/=. eexists.
    split; [done|]. by rewrite <- app_assoc.
  - intros (r & -> & ->). eexists. split; [done|]. by rewrite <- app_assoc.
  - intros (r & E & ->). destruct (camel_to_snake s); simplify_eq/=. eexists.
    split; [done|]. by rewrite <- app_assoc.
Qed.

Lemma is_upper_range c : is_upper c = true <-> 65 <= b2z c <= 90.
Proof. unfold is_upper. by rewrite andb_true_iff, !Z.leb_le. Qed.
Lemma is_lower_range c : is_lower c = true <-> 97 <= b2z c <= 122.
Proof. unfold is_lower. by rewrite andb_true_iff, !Z.leb_le. Qed.

Lemma b2z_to_upper c : is_lower c = true -> b2z (to_upper c) = b2z c - 32.
Proof. rewrite is_lower_range. intros. unfold to_upper. rewrite b2z_z2b. rewrite Z.mod_small; lia. Qed.
Lemma b2z_to_lower c : is_upper c = true -> b2z (to_lower c) = b2z c + 32.
Proof. rewrite is_upper_range. intros. unfold to_lower. rewrite b2z_z2b. rewrite Z.mod_small; lia. Qed.
Lemma to_lower_is_lower c : is_upper c = true -> is_lower (to_lower c) = true.
Proof. intros Hc. rewrite is_lower_range, b2z_to_lower by done. rewrite is_upper_range in Hc. lia. Qed.
Lemma to_upper_is_upper c : is_lower c = true -> is_upper (to_upper c) = true.
Proof. intros Hc. rewrite is_upper_range, b2z_to_upper by done. rewrite is_lower_range in Hc. lia. Qed.
Lemma to_upper_lower c : is_upper c = true -> to_upper (to_lower c) = c.
Proof. intros Hc. apply b2z_inj. rewrite b2z_to_upper by (by apply to_lower_is_lower). rewrite b2z_to_lower by done. lia. Qed.
Lemma to_lower_upper c : is_lower c = true -> to_lower (to_upper c) = c.
Proof. intros Hc. apply b2z_inj. rewrite b2z_to_lower by (by apply to_upper_is_upper). rewrite b2z_to_upper by done. lia. Qed.
Lemma upper_not_underscore c : is_upper c = true -> c <> ch_underscore.
Proof. rewrite is_upper_range. intros H ->. by vm_compute in H; naive_solver. Qed.
Lemma lower_not_upper c : is_lower c = true -> is_upper c = false.
Proof. rewrite <- not_true_iff_false, is_lower_range, is_upper_range. lia. Qed.

Lemma snake_camel_inverse au s c :
  snake_to_camel au s = Some c <-> camel_to_snake c = Some (if au : bool then ch_underscore :: s else s).
Proof.
  assert (forall y t r, camel_to_snake (y :: t) = Some r ->
    y <> ch_underscore /\
    ((is_upper y = true /\ exists r', camel_to_snake t = Some r' /\ r = ch_underscore :: to_lower y :: r') \/
     (is_upper y = false /\ exists r', camel_to_snake t = Some r' /\ r = y :: r'))) as Hinv.
  { intros y t r E. simpl in E. case_decide; [done|]. split; [done|].
    destruct (is_upper y), (camel_to_snake t); simplify_eq/=; eauto. }
  revert au c. induction s as [|x s IH]; intros au c; simpl.
  - destruct au; split; try done.
    + destruct c as [|y t]; [done|]. intros E. apply Hinv in E as (? & [(? & r' & _ & ?)|(? & r' & _ & ?)]); congruence.
    + intros E. by simplify_eq.
    + destruct c as [|y t]; [done|]. intros E. apply Hinv in E as (? & [(? & r' & _ & ?)|(? & r' & _ & ?)]); congruence.
  - destruct (is_upper x) eqn:Ux.
    { split; [done|]. destruct c as [|y t]; [by destruct au|]. intros E.
      apply Hinv in E as (? & [(Uy & r' & _ & E)|(Uy & r' & _ & E)]); destruct au; simplify_eq; try congruence.
      - by rewrite (lower_not_upper _ (to_lower_is_lower _ Uy)) in Ux. }
    destruct au.
    + destruct (is_lower x) eqn:Lx.
      * split.
        -- intros E. destruct (snake_to_camel false s) as [r|] eqn:Es; simplify_eq/=.
           apply IH in Es. rewrite decide_False by (by apply upper_not_underscore, to_upper_is_upper).
           by rewrite to_upper_is_upper, Es, to_lower_upper by done.
        -- destruct c as [|y t]; [done|]. intros E.
           apply Hinv in E as (? & [(Uy & r' & Et & E)|(Uy & r' & _ & E)]); simplify_eq.
           apply (IH false) in Et. rewrite Et. simpl. by rewrite to_upper_lower.
      * split; [done|]. destruct c as [|y t]; [done|]. intros E.
        apply Hinv in E as (? & [(Uy & r' & Et & E)|(Uy & r' & _ & E)]); simplify_eq.
        by rewrite to_lower_is_lower in Lx.
    + case_decide as Hx; [subst x; apply (IH true)|]. split.
      * intros E. destruct (snake_to_camel false s) as [r|] eqn:Es; simplify_eq/=.
        apply IH in Es. by rewrite decide_False, Ux, Es by done.
      * destruct c as [|y t]; [done|]. intros E.
        apply Hinv in E as (? & [(Uy & r' & Et & E)|(Uy & r' & Et & E)]); simplify_eq.
        apply (IH false) in Et. by rewrite Et.
Qed.

Lemma snake_case_eq s c : SnakeCaseToCamelCase s = (true, c) <-> snake_to_camel false s = Some c.
Proof. unfold SnakeCaseToCamelCase. rewrite snake_loop_spec. naive_solver. Qed.
Lemma camel_case_eq s c : CamelCaseToSnakeCase s = (true, c) <-> camel_to_snake s = Some c.
Proof. unfold CamelCaseToSnakeCase. rewrite camel_loop_spec. naive_solver. Qed.

Lemma camel_comma c s : camel_to_snake c = Some s -> ch_comma ∉ s -> ch_comma ∉ c.
Proof.
  revert s. induction c as [|y c IH]; intros s E Hs; [by apply not_elem_of_nil|]. simpl in E.
  case_decide; [done|]. destruct (is_upper y) eqn:Uy, (camel_to_snake c) as [r|]; simplify_eq/=;
    rewrite !not_elem_of_cons in *; (split; [|by apply (IH r); naive_solver]).
  - intros <-. rewrite is_upper_range in Uy. vm_compute in Uy. naive_solver.
  - naive_solver.
Qed.

(** ** Text *)

Section text.
Context `{AbslStringsOk}.

Definition json_path_ok (p : list byte) : Prop := p <> [] /\ ch_comma ∉ p.

Lemma split_mask m :
  Forall json_path_ok m -> StrSplit (join ch_comma m) ch_comma = match m with [] => [[]] | _ => m end.
Proof.
  intros Hm. destruct m as [|p m]; [apply (split_join ch_comma [[]]); [done|]|].
  - apply Forall_cons_2; [by apply not_elem_of_nil|apply Forall_nil_2].
  - apply split_join; [done|]. eapply Forall_impl; [done|]. by intros x [_ ?].
Qed.

Lemma mask_string m : Forall json_path_ok m -> FromString (ToString m) = m.
Proof.
  intros Hm. unfold FromString, ToString. rewrite join_ok, split_mask by done.
  destruct Hm as [|p m [Hp _] Hm]; [done|].
  assert (List.filter (fun path => negb (is_nil path)) m = m) as E.
  { induction Hm as [|q m [Hq _] Hm IH]; simpl; [done|]. rewrite IH. by destruct q. }
  simpl. rewrite E. by destruct p.
Qed.

Lemma to_json_loop m cs first out :
  Forall2 (fun p c => snake_to_camel false p = Some c) m cs ->
  ToJsonString_loop first m out
  = (true, out ++ match cs with [] => [] | _ => (if first : bool then [] else [ch_comma]) ++ join ch_comma cs end).
Proof.
  intros Hm. revert first out. induction Hm as [|p c m cs Hp Hm IH]; intros first out; simpl.
  { by rewrite app_nil_r. }
  apply snake_case_eq in Hp. rewrite Hp. simpl. rewrite IH. f_equal. destruct cs as [|c' cs].
  - rewrite !app_nil_r. destruct first; simpl; [done|by rewrite <- app_assoc].
  - destruct first; simpl; by rewrite <- ?app_assoc.
Qed.

Lemma from_json_loop m cs out :
  Forall2 (fun p c => camel_to_snake c = Some p /\ c <> []) m cs ->
  FromJsonString_loop cs out = (true, out ++ m).
Proof.
  intros Hm. revert out. induction Hm as [|p c m cs [Hp Hc] Hm IH]; intros out; simpl; [by rewrite app_nil_r|].
  apply camel_case_eq in Hp. rewrite Hp. destruct c; [done|]. simpl. rewrite IH. by rewrite <- app_assoc.
Qed.

Lemma to_json_some m s : ToJsonString m = (true, s) ->
  exists cs, Forall2 (fun p c => snake_to_camel false p = Some c) m cs.
Proof.
  unfold ToJsonString. generalize true at 1. generalize (@nil byte). revert s.
  induction m as [|p m IH]; intros s out first E; [by exists []|]. simpl in E.
  destruct (SnakeCaseToCamelCase p) as [ok c] eqn:Ep. destruct ok; [|done]. simpl in E.
  apply IH in E as [cs Hcs]. exists (c :: cs). constructor; [by apply snake_case_eq|done].
Qed.

Lemma json_roundtrip m s :
  Forall json_path_ok m -> ToJsonString m = (true, s) -> FromJsonString s = (true, m).
Proof.
  intros Hm E. destruct (to_json_some m s E) as [cs Hcs].
  assert (s = join ch_comma cs) as ->.
  { unfold ToJsonString in E. rewrite (to_json_loop m cs) in E by done. injection E as <-. by destruct cs. }
  assert (Forall2 (fun p c => camel_to_snake c = Some p /\ c <> []) m cs) as H2.
  { clear E. induction Hcs as [|p c m cs Hp Hcs IH]; [constructor|]. inversion_clear Hm as [|? ? [Hne _] Hm'].
    constructor; [|by apply IH]. apply (snake_camel_inverse false) in Hp.
    split; [done|]. intros ->. by simplify_eq/=. }
  assert (Forall json_path_ok cs) as Hok.
  { clear E Hcs. induction H2 as [|p c m cs [Hp Hc] _ IH]; [by apply Forall_nil_2|].
    inversion_clear Hm as [|? ? [_ Hcomma] Hm']. apply Forall_cons_2; [|by apply IH].
    split; [done|by apply (camel_comma c p)]. }
  unfold FromJsonString. rewrite split_mask by done. destruct cs as [|c cs].
  - by inversion H2.
  - by rewrite (from_json_loop m).
Qed.
End text.

(** ** Samples *)

Fixpoint sample_split (c : byte) (l : list byte) : list (list byte) :=
  match l with
  | [] => [[]]
  | x :: l =>
      if decide (x = c) then [] :: sample_split c l
      else match sample_split c l with p :: ps => (x :: p) :: ps | [] => [[x]] end
  end.
Fixpoint sample_consume (s p : list byte) {struct p} : option (list byte) :=
  match p, s with
  | [], _ => Some s
  | x :: p, y :: s => if decide (x = y) then sample_consume s p else None
  | _ :: _, [] => None
  end.
Definition sample_strings : AbslStrings :=
  {| StrSplit := fun s c => sample_split c s; StrJoin := fun l c => join c l;
     ConsumePrefix := sample_consume |}.

Lemma sample_split_ok c s :
  sample_split c s <> [] /\ Forall (fun p => c ∉ p) (sample_split c s) /\ join c (sample_split c s) = s.
Proof.
  induction s as [|x s (Hne & Hf & Hj)]; simpl.
  { split; [done|]. split; [apply Forall_cons_2; [by apply not_elem_of_nil|apply Forall_nil_2]|done]. }
  destruct (decide (x = c)) as [->|Hx].
  - split; [done|]. split; [apply Forall_cons_2; [by apply not_elem_of_nil|done]|].
    by rewrite join_cons, Hj.
  - destruct (sample_split c s) as [|p ps]; [done|]. inversion_clear Hf as [|? ? Hp Hps].
    split; [done|]. split; [apply Forall_cons_2; [by apply not_elem_of_cons|done]|].
    destruct ps; simpl in *; by rewrite Hj.
Qed.

Lemma sample_strings_ok : @AbslStringsOk sample_strings.
Proof.
  constructor; [intros; apply sample_split_ok|done|]. intros s p r.
  change (sample_consume s p = Some r <-> s = p ++ r). revert s.
  induction p as [|x p IH]; intros s; simpl; [split; congruence|].
  destruct s as [|y s]; [split; congruence|]. destruct (decide (x = y)) as [->|Hx].
  - rewrite IH. split; congruence.
  - split; congruence.
Qed.

Definition str (s : string) : list byte := list_byte_of_string s.

(** A message of a message [foo] with the fields [a] and [b], and of a number
    [bar]. *)
Inductive sample_message := SampleRoot | SampleFoo.
Definition sample_descriptors : Descriptors :=
  {| Descriptor := sample_message; FieldDescriptor := list byte * option sample_message;
     field d := match d with
                | SampleRoot => [((str "foo"), Some SampleFoo); ((str "bar"), None)]
                | SampleFoo => [((str "a"), None); ((str "b"), None)]
                end;
     FindFieldByName d s := match d with
       | SampleRoot => if decide (s = (str "foo")) then Some (s, Some SampleFoo)
                       else if decide (s = (str "bar")) then Some (s, None) else None
       | SampleFoo => if decide (s = (str "a")) then Some (s, None)
                      else if decide (s = (str "b")) then Some (s, None) else None
       end;
     field_name := fst; message_type := snd; is_repeated _ := false |}.

Lemma sample_descriptors_ok : @DescriptorsOk sample_descriptors.
Proof.
  constructor.
  - intros d s [n o]. destruct d; simpl; repeat case_decide; subst; rewrite !elem_of_cons, elem_of_nil;
      naive_solver.
  - intros d [n o]. destruct d; simpl; rewrite !elem_of_cons, elem_of_nil; intros [E|[E|[]]];
      simplify_eq; (split; [done|]); refine (bool_decide_eq_true_1 _ _); vm_compute; reflexivity.
Qed.

(** ** The properties *)

(** C21: For masks whose paths have no empty name ([mask_ok]; a path with an empty
    first name loses it, see [empty_first_name_dropped], and is valid for no
    message), the operations of field masks are those of the sets of paths they
    cover: the canonical form covers what the mask does, the union what either
    mask does, the intersection what both do, and [IsPathInFieldMask] decides
    whether a path is covered. *)
Theorem mask_set_operations `{AbslStringsOk} mask1 mask2 path p :
  mask_ok mask1 -> mask_ok mask2 ->
  covers (ToCanonicalForm mask1) p = covers mask1 p /\
  covers (Union mask1 mask2) p = covers mask1 p || covers mask2 p /\
  covers (Intersect mask1 mask2) p = covers mask1 p && covers mask2 p /\
  IsPathInFieldMask path mask1 = covers mask1 (segs path).
Proof.
  intros H1 H2. split; [by apply canonical_covers|]. split; [|split; [by apply intersect_covers|apply is_path_in_mask]].
  rewrite union_eq, canonical_covers; [apply covers_app|by apply Forall_app_2].
Qed.

Lemma mask_set_operations_witness :
  let m1 := [str "foo.a"; str "bar"] in
  let m2 := [str "foo"; str "foo.b"] in
  @Union sample_strings m1 m2 = [str "bar"; str "foo"] /\
  @covers sample_strings (@Intersect sample_strings m1 m2) [str "foo"; str "a"] = true /\
  @IsPathInFieldMask sample_strings (str "foo.b") m1 = false.
Proof.
  intros m1 m2. split; [vm_compute; reflexivity|].
  destruct (@mask_set_operations _ sample_strings_ok m1 m2 (str "foo.b")
    [str "foo"; str "a"]) as (_ & _ & -> & ->).
  - repeat apply Forall_cons_2; apply Forall_nil_2 || (by repeat apply Forall_cons_2).
  - repeat apply Forall_cons_2; apply Forall_nil_2 || (by repeat apply Forall_cons_2).
  - split; vm_compute; reflexivity.
Defined.

(** C22: For a mask whose paths have no empty name ([mask_ok], the masks that can
    be valid for a message), the canonical form is a normal form: masks that cover
    the same paths have the same, it is its own canonical form, no path of it covers another,
    and where names consist of characters behind the dot (as all field names
    do) its paths are in alphabetical order. *)
Theorem canonical_form `{AbslStringsOk} mask1 mask2 p q :
  mask_ok mask1 ->
  ((forall p, covers mask1 p = covers mask2 p) -> ToCanonicalForm mask1 = ToCanonicalForm mask2) /\
  ToCanonicalForm (ToCanonicalForm mask1) = ToCanonicalForm mask1 /\
  (p ∈ ToCanonicalForm mask1 -> q ∈ ToCanonicalForm mask1 ->
   prefixb (segs p) (segs q) = true -> p = q) /\
  (Forall plain_path mask1 -> StronglySorted slt (ToCanonicalForm mask1)).
Proof.
  intros Hm. split; [apply canonical_unique|].
  split; [apply canonical_unique; intros; by apply canonical_covers|].
  split; [by apply canonical_separated|by apply canonical_alphabetical].
Qed.

Lemma canonical_form_witness :
  let m1 := [str "foo.b"; str "foo"; str "bar"] in
  @ToCanonicalForm sample_strings m1 = [str "bar"; str "foo"] /\
  @ToCanonicalForm sample_strings (@ToCanonicalForm sample_strings m1)
    = @ToCanonicalForm sample_strings m1 /\
  StronglySorted slt (@ToCanonicalForm sample_strings m1).
Proof.
  intros m1. split; [vm_compute; reflexivity|].
  destruct (@canonical_form _ sample_strings_ok m1 m1 [] []) as (_ & -> & _ & Hs).
  - repeat apply Forall_cons_2; apply Forall_nil_2 || (by repeat apply Forall_cons_2).
  - split; [done|]. apply Hs. unfold plain_path, plain.
    repeat apply Forall_cons_2; apply Forall_nil_2 || (repeat apply Forall_cons_2; by vm_compute).
Defined.

(** C23: From a mask whose paths have no empty name ([mask_ok], the masks that can
    be valid for a message), [Subtract] takes away what the paths of the second
    mask cover, as far as these are paths of the message, descending into fields
    the first mask covers as a whole; for every path of the message that is not
    in front of a subtracted one. *)
Theorem mask_subtraction `{AbslStringsOk} `{DescriptorsOk} d mask1 mask2 p :
  mask_ok mask1 -> walkable d p = true ->
  Forall (fun q => prefixb p (segs q) = true -> p = segs q) mask2 ->
  covers (Subtract d mask1 mask2) p
  = covers mask1 p && negb (existsb (fun q => walkable d (segs q) && prefixb (segs q) p) mask2).
Proof.
  intros H1' Hp H2'. unfold Subtract. destruct mask1 as [|m mask1]; [done|].
  change (MergeFromFieldMask (m :: mask1) (mkNode [])) with (tree_of (m :: mask1)).
  destruct (subtract_inv d mask2 (tree_of (m :: mask1))) as [Ho Hn];
    [apply tree_of_ordered|by apply tree_of_named|].
  rewrite to_mask_covers, subtract_tree_covers, tree_of_covers by (done || apply tree_of_ordered). done.
Qed.

Lemma mask_subtraction_witness :
  let m1 := [str "foo"] in
  let m2 := [str "foo.a"; str "bar.x"] in
  @Subtract sample_strings sample_descriptors SampleRoot m1 m2 = [str "foo.b"] /\
  @covers sample_strings (@Subtract sample_strings sample_descriptors SampleRoot m1 m2)
    [str "foo"; str "a"] = false.
Proof.
  intros m1 m2. split; [vm_compute; reflexivity|].
  rewrite (@mask_subtraction _ sample_strings_ok _ sample_descriptors_ok SampleRoot m1 m2); [by vm_compute|..].
  - repeat apply Forall_cons_2; apply Forall_nil_2 || (by repeat apply Forall_cons_2).
  - by vm_compute.
  - repeat apply Forall_cons_2; [by vm_compute|by vm_compute|apply Forall_nil_2].
Defined.

(** C34: Snake case and camel case are inverse where they convert at all, and a
    mask whose paths are not empty and have no commas is read back from its
    string and, when it has one, from its JSON string. *)
Theorem mask_text_roundtrip `{AbslStringsOk} mask json snake camel :
  Forall json_path_ok mask ->
  (SnakeCaseToCamelCase snake = (true, camel) <-> CamelCaseToSnakeCase camel = (true, snake)) /\
  FromString (ToString mask) = mask /\
  (ToJsonString mask = (true, json) -> FromJsonString json = (true, mask)).
Proof.
  intros Hm. split; [|split; [by apply mask_string|by apply json_roundtrip]].
  rewrite snake_case_eq, camel_case_eq. apply (snake_camel_inverse false).
Qed.

Lemma mask_text_roundtrip_witness :
  let m := [str "foo_bar.a"; str "b1"] in
  @FromString sample_strings (str "foo_bar.a,b1") = m /\
  @ToJsonString m = (true, (str "fooBar.a,b1")) /\
  @FromJsonString sample_strings (str "fooBar.a,b1") = (true, m).
Proof.
  intros m.
  destruct (@mask_text_roundtrip _ sample_strings_ok m (str "fooBar.a,b1") [] []) as (_ & Hs & Hj).
  - repeat apply Forall_cons_2; [..|apply Forall_nil_2]; (split; [done|]);
      refine (bool_decide_eq_true_1 _ _); vm_compute; reflexivity.
  - split; [exact Hs|]. split; [by vm_compute|]. apply Hj. by vm_compute.
Defined.

(** A first name that is empty is dropped by the tree, with its dot. *)
Example empty_first_name_dropped :
  @ToCanonicalForm sample_strings [str ".a"] = [str "a"] /\
  @IsPathInFieldMask sample_strings (str ".a") [str "a"] = false.
Proof. split; vm_compute; reflexivity. Qed.
