(* ===== verification/Tokenizer.v ===== *)
(** * The tokenizer

    [io/tokenizer.h] and [io/tokenizer.cc]: the lexer below the [.proto] and
    text-format parsers. It reads a [ZeroCopyInputStream] one character at a
    time, cuts it into tokens with their positions, and collects comments; the
    static helpers give the value of integer and string tokens. [None] is
    overflow of a line or column number, a read outside of the buffer, or a
    failed check. A [char] is a byte that compares as signed. *)

From Stdlib Require Import Strings.Byte.
From S2P Require Import Prelude ZeroCopyStream.

#[local] Open Scope byte_scope.
#[local] Open Scope Z_scope.

(** ** Characters *)

Notation NUL := x00 (only parsing).
Notation TAB := x09 (only parsing).
Notation NL := x0a (only parsing).
Notation DQUOTE := x22 (only parsing).
Notation QUOTE := x27 (only parsing).
Notation BACKSLASH := x5c (only parsing).

Definition schar (c : byte) : Z := if b2z c <? 128 then b2z c else b2z c - 256.
Definition eqc (a c : byte) : bool := bool_decide (c = a).
Definition between (a b c : byte) : bool :=
  (schar a <=? schar c) && (schar c <=? schar b).

Definition Whitespace (c : byte) : bool :=
  eqc " " c || eqc NL c || eqc TAB c || eqc x0d c || eqc x0b c || eqc x0c c.
Definition WhitespaceNoNewline (c : byte) : bool :=
  eqc " " c || eqc TAB c || eqc x0d c || eqc x0b c || eqc x0c c.
Definition Unprintable (c : byte) : bool := (schar c <? schar " ") && (schar NUL <? schar c).
Definition Digit (c : byte) : bool := between "0" "9" c.
Definition OctalDigit (c : byte) : bool := between "0" "7" c.
Definition HexDigit (c : byte) : bool :=
  between "0" "9" c || between "a" "f" c || between "A" "F" c.
Definition Letter (c : byte) : bool := between "a" "z" c || between "A" "Z" c || eqc "_" c.
Definition Alphanumeric (c : byte) : bool :=
  between "a" "z" c || between "A" "Z" c || between "0" "9" c || eqc "_" c.
Definition Escape (c : byte) : bool :=
  eqc "a" c || eqc "b" c || eqc "f" c || eqc "n" c || eqc "r" c || eqc "t" c || eqc "v" c ||
  eqc BACKSLASH c || eqc "?" c || eqc QUOTE c || eqc DQUOTE c.

Definition kAsciiToInt : list Z := [
    36; 36; 36; 36; 36; 36; 36; 36; 36; 36; 36; 36; 36; 36; 36; 36;
    36; 36; 36; 36; 36; 36; 36; 36; 36; 36; 36; 36; 36; 36; 36; 36;
    36; 36; 36; 36; 36; 36; 36; 36; 36; 36; 36; 36; 36; 36; 36; 36;
    0;  1;  2;  3;  4;  5;  6;  7;  8;  9;
    36; 36; 36; 36; 36; 36; 36;
    10; 11; 12; 13; 14; 15; 16; 17; 18; 19; 20; 21; 22; 23; 24; 25;
    26; 27; 28; 29; 30; 31; 32; 33; 34; 35;
    36; 36; 36; 36; 36; 36;
    10; 11; 12; 13; 14; 15; 16; 17; 18; 19; 20; 21; 22; 23; 24; 25;
    26; 27; 28; 29; 30; 31; 32; 33; 34; 35;
    36; 36; 36; 36; 36;
    36; 36; 36; 36; 36; 36; 36; 36; 36; 36; 36; 36; 36; 36; 36; 36;
    36; 36; 36; 36; 36; 36; 36; 36; 36; 36; 36; 36; 36; 36; 36; 36;
    36; 36; 36; 36; 36; 36; 36; 36; 36; 36; 36; 36; 36; 36; 36; 36;
    36; 36; 36; 36; 36; 36; 36; 36; 36; 36; 36; 36; 36; 36; 36; 36;
    36; 36; 36; 36; 36; 36; 36; 36; 36; 36; 36; 36; 36; 36; 36; 36;
    36; 36; 36; 36; 36; 36; 36; 36; 36; 36; 36; 36; 36; 36; 36; 36;
    36; 36; 36; 36; 36; 36; 36; 36; 36; 36; 36; 36; 36; 36; 36; 36;
    36; 36; 36; 36; 36; 36; 36; 36; 36; 36; 36; 36; 36; 36; 36; 36].
Definition DigitValue (digit : byte) : Z :=
  nth (Z.to_nat (Z.land (b2z digit) 0xFF)) kAsciiToInt 0.

Definition TranslateEscape (c : byte) : byte :=
  match c with
  | "a" => x07 | "b" => x08 | "f" => x0c | "n" => x0a
  | "r" => x0d | "t" => x09 | "v" => x0b | x5c => x5c
  | "?" => "?" | x27 => x27 | x22 => x22
  | _ => "?"
  end%byte.

(** ** Tokens, errors, state *)

Inductive TokenType :=
  TYPE_START | TYPE_END | TYPE_IDENTIFIER | TYPE_INTEGER | TYPE_FLOAT | TYPE_STRING
| TYPE_SYMBOL | TYPE_WHITESPACE | TYPE_NEWLINE.
#[global] Instance TokenType_eq_dec : EqDecision TokenType.
Proof. solve_decision. Defined.

Record Token := mkToken {
  type : TokenType;
  text : list byte;
  line : Z;
  column : Z;
  end_column : Z;
}.
#[global] Instance Token_eq_dec : EqDecision Token.
Proof. solve_decision. Defined.

(** One constructor for each message given to the [ErrorCollector]. *)
Inductive Message :=
| UnexpectedEndOfString | MultilineString | InvalidEscape | ExpectedHexDigits
| ExpectedFourHexDigits | ExpectedEightHexDigits | EmptyHexNumber | NotOctal
| EmptyExponent | NumberNeedsSpace | SecondPoint | NotAnInteger
| NestedComment | EndInsideComment | CommentStartedHere
| ControlCharacters | IdentifierNeedsSpace | NonAscii (code : Z) | NotUTF8.

(** A call of [RecordError]. *)
Record Error := mkError { error_line : Z; error_column : Z; message : Message }.

Inductive CommentStyle := CPP_COMMENT_STYLE | SH_COMMENT_STYLE.
#[global] Instance CommentStyle_eq_dec : EqDecision CommentStyle.
Proof. solve_decision. Defined.

Record Options := mkOptions {
  allow_f_after_float_ : bool;
  comment_style_ : CommentStyle;
  require_space_after_number_ : bool;
  allow_multiline_strings_ : bool;
  report_whitespace_ : bool;
  report_newlines_ : bool;
}.

Definition default_options : Options := mkOptions false CPP_COMMENT_STYLE true false false false.

(** The local object of [NextWithComments]; a null pointer is [None]. *)
Record CommentCollector := mkCollector {
  prev_trailing_comments_ : option (list byte);
  detached_comments_ : option (list (list byte));
  next_leading_comments_ : option (list byte);
  comment_buffer_ : list byte;
  num_comments_ : Z;
  has_trailing_comment_ : bool;
  has_comment_ : bool;
  is_line_comment_ : bool;
  can_attach_to_prev_ : bool;
}.

(** What [record_target_] points to: the text of [current_], or the buffer of the
    [CommentCollector]. *)
Inductive Target := CurrentText | CommentBuffer.
#[global] Instance Target_eq_dec : EqDecision Target.
Proof. solve_decision. Defined.

(** [collector] is the collector of the running [NextWithComments]; [errors] what
    the error collector has been given. *)
Record t (S : Type) := mk {
  input_ : S;
  current_char_ : byte;
  buffer_ : list byte;
  buffer_pos_ : Z;
  read_error_ : bool;
  line_ : Z;
  column_ : Z;
  current_ : Token;
  previous_ : Token;
  record_target_ : option Target;
  record_start_ : Z;
  collector : CommentCollector;
  errors : list Error;
  options : Options;
}.
Arguments mk {S} _ _ _ _ _ _ _ _ _ _ _ _ _ _.
Arguments input_ {S} _.
Arguments current_char_ {S} _.
Arguments buffer_ {S} _.
Arguments buffer_pos_ {S} _.
Arguments read_error_ {S} _.
Arguments line_ {S} _.
Arguments column_ {S} _.
Arguments current_ {S} _.
Arguments previous_ {S} _.
Arguments record_target_ {S} _.
Arguments record_start_ {S} _.
Arguments collector {S} _.
Arguments errors {S} _.
Arguments options {S} _.

Definition kTabWidth : Z := 8.

(** ** Field updates *)

Definition with_text (w : list byte) (k : Token) : Token :=
  mkToken (type k) w (line k) (column k) (end_column k).
Definition with_type (ty : TokenType) (k : Token) : Token :=
  mkToken ty (text k) (line k) (column k) (end_column k).
Definition with_buffer (w : list byte) (c : CommentCollector) : CommentCollector :=
  mkCollector (prev_trailing_comments_ c) (detached_comments_ c) (next_leading_comments_ c) w
    (num_comments_ c) (has_trailing_comment_ c) (has_comment_ c) (is_line_comment_ c)
    (can_attach_to_prev_ c).

Section updates.
Context {S : Type}.
Implicit Types s : t S.

Definition set_input (i : S) s : t S :=
  mk i (current_char_ s) (buffer_ s) (buffer_pos_ s) (read_error_ s) (line_ s) (column_ s)
    (current_ s) (previous_ s) (record_target_ s) (record_start_ s) (collector s) (errors s)
    (options s).
Definition set_char (c : byte) s : t S :=
  mk (input_ s) c (buffer_ s) (buffer_pos_ s) (read_error_ s) (line_ s) (column_ s)
    (current_ s) (previous_ s) (record_target_ s) (record_start_ s) (collector s) (errors s)
    (options s).
Definition set_buffer (b : list byte) (pos : Z) s : t S :=
  mk (input_ s) (current_char_ s) b pos (read_error_ s) (line_ s) (column_ s)
    (current_ s) (previous_ s) (record_target_ s) (record_start_ s) (collector s) (errors s)
    (options s).
Definition set_read_error s : t S :=
  mk (input_ s) (current_char_ s) (buffer_ s) (buffer_pos_ s) true (line_ s) (column_ s)
    (current_ s) (previous_ s) (record_target_ s) (record_start_ s) (collector s) (errors s)
    (options s).
Definition set_position (l c : Z) s : t S :=
  mk (input_ s) (current_char_ s) (buffer_ s) (buffer_pos_ s) (read_error_ s) l c
    (current_ s) (previous_ s) (record_target_ s) (record_start_ s) (collector s) (errors s)
    (options s).
Definition set_current (k : Token) s : t S :=
  mk (input_ s) (current_char_ s) (buffer_ s) (buffer_pos_ s) (read_error_ s) (line_ s) (column_ s)
    k (previous_ s) (record_target_ s) (record_start_ s) (collector s) (errors s) (options s).
Definition set_previous (k : Token) s : t S :=
  mk (input_ s) (current_char_ s) (buffer_ s) (buffer_pos_ s) (read_error_ s) (line_ s) (column_ s)
    (current_ s) k (record_target_ s) (record_start_ s) (collector s) (errors s) (options s).
Definition set_record (target : option Target) (start : Z) s : t S :=
  mk (input_ s) (current_char_ s) (buffer_ s) (buffer_pos_ s) (read_error_ s) (line_ s) (column_ s)
    (current_ s) (previous_ s) target start (collector s) (errors s) (options s).
Definition set_collector (c : CommentCollector) s : t S :=
  mk (input_ s) (current_char_ s) (buffer_ s) (buffer_pos_ s) (read_error_ s) (line_ s) (column_ s)
    (current_ s) (previous_ s) (record_target_ s) (record_start_ s) c (errors s) (options s).
Definition add_error (e : Error) s : t S :=
  mk (input_ s) (current_char_ s) (buffer_ s) (buffer_pos_ s) (read_error_ s) (line_ s) (column_ s)
    (current_ s) (previous_ s) (record_target_ s) (record_start_ s) (collector s)
    (errors s ++ [e]) (options s).

(** [record_target_->append(w)]. *)
Definition append_target (w : list byte) s : option (t S) :=
  match record_target_ s with
  | Some CurrentText => Some (set_current (with_text (text (current_ s) ++ w) (current_ s)) s)
  | Some CommentBuffer =>
      Some (set_collector (with_buffer (comment_buffer_ (collector s) ++ w) (collector s)) s)
  | None => None
  end.
End updates.

(** ** Characters of the stream *)

Section tokenizer.
Context {S : Type} `{ZeroCopyInputStreamOk S}.

Notation TM := (M (t S)).

Definition on_input {A} (m : M S A) : TM A := fun s =>
  match m (input_ s) with Some (a, i) => Some (a, set_input i s) | None => None end.

Definition buffer_size_ (s : t S) : Z := zlen (buffer_ s).

(** [++line_] and additions to [column_], which are [int]s. *)
Definition move_to (line column : Z) : TM unit :=
  if (line <=? INT_MAX) && (column <=? INT_MAX) then modS (set_position line column) else undef.

(** The [n] bytes from [buffer_ + start]. *)
Definition buffer_bytes (start n : Z) (s : t S) : option (list byte) :=
  if (0 <=? start) && (0 <=? n) && (start + n <=? buffer_size_ s)
  then Some (ztake n (zdrop start (buffer_ s))) else None.

(** Appends to the recorded string the bytes from [record_start_] to [stop]. *)
Definition append_recorded (stop : Z) : TM unit :=
  let* s := getS in
  let* w := lift (buffer_bytes (record_start_ s) (stop - record_start_ s) s) in
  let* s' := lift (append_target w s) in putS s'.

Fixpoint Refresh_loop (fuel : nat) : TM (option (list byte)) :=
  let* r := on_input ZeroCopyStream.Next in
  match r with
  | Some [] => match fuel with O => undef | Datatypes.S fuel => Refresh_loop fuel end
  | _ => ret r
  end.

Definition Refresh : TM unit :=
  let* s := getS in
  if read_error_ s then modS (set_char NUL)
  else
    (if bool_decide (is_Some (record_target_ s)) && (record_start_ s <? buffer_size_ s) then
       append_recorded (buffer_size_ s) ;;; modS (fun s => set_record (record_target_ s) 0 s)
     else ret tt) ;;;
    modS (set_buffer [] 0) ;;;
    let* fuel := gets (fun s => bound (input_ s)) in
    let* r := Refresh_loop fuel in
    match r with
    | None => modS set_read_error ;;; modS (set_char NUL)
    | Some data =>
        modS (set_buffer data 0) ;;;
        let* c := lift (data !! 0%nat) in modS (set_char c)
    end.

Definition NextChar : TM unit :=
  let* s := getS in
  (if eqc NL (current_char_ s) then move_to (line_ s + 1) 0
   else if eqc TAB (current_char_ s) then
     move_to (line_ s) (column_ s + (kTabWidth - Z.rem (column_ s) kTabWidth))
   else move_to (line_ s) (column_ s + 1)) ;;;
  modS (fun s => set_buffer (buffer_ s) (buffer_pos_ s + 1) s) ;;;
  let* s := getS in
  if buffer_pos_ s <? buffer_size_ s then
    let* c := lift (buffer_ s !! Z.to_nat (buffer_pos_ s)) in modS (set_char c)
  else Refresh.

Definition RecordTo (target : Target) : TM unit :=
  modS (fun s => set_record (Some target) (buffer_pos_ s) s).

Definition StopRecording : TM unit :=
  let* s := getS in
  (if buffer_pos_ s =? record_start_ s then ret tt else append_recorded (buffer_pos_ s)) ;;;
  modS (set_record None (-1)).

Definition StartToken : TM unit :=
  modS (fun s =>
    set_current (mkToken TYPE_START [] (line_ s) (column_ s) (end_column (current_ s))) s) ;;;
  RecordTo CurrentText.

Definition EndToken : TM unit :=
  StopRecording ;;;
  modS (fun s =>
    let k := current_ s in
    set_current (mkToken (type k) (text k) (line k) (column k) (column_ s)) s).

Definition make (i : S) (opts : Options) : option (t S) :=
  let k := mkToken TYPE_START [] 0 0 0 in
  match
    Refresh (mk i NUL [] 0 false 0 0 k k None (-1)
               (mkCollector None None None [] 0 false false false true) [] opts)
  with
  | Some (_, s) => Some s
  | None => None
  end.

Definition destroy (s : t S) : option S :=
  if buffer_pos_ s <? buffer_size_ s then
    match ZeroCopyStream.BackUp (buffer_size_ s - buffer_pos_ s) (input_ s) with
    | Some (_, i) => Some i
    | None => None
    end
  else Some (input_ s).

(** What is left to read; the number of its bytes bounds every loop below. *)
Definition rest (s : t S) : list byte :=
  if read_error_ s then [] else zdrop (buffer_pos_ s) (buffer_ s) ++ content (input_ s).
Definition fuel (s : t S) : nat := length (rest s).

Definition AddError (m : Message) : TM unit :=
  modS (fun s => add_error (mkError (line_ s) (column_ s) m) s).

Definition RecordError (line column : Z) (m : Message) : TM unit :=
  modS (add_error (mkError line column m)).

Definition set_type (ty : TokenType) : TM unit :=
  modS (fun s => set_current (with_type ty (current_ s)) s).

(** ** Consuming characters *)

Definition LookingAt (InClass : byte -> bool) : TM bool :=
  gets (fun s => InClass (current_char_ s)).

Definition TryConsumeOne (InClass : byte -> bool) : TM bool :=
  let* s := getS in
  if InClass (current_char_ s) then NextChar ;;; ret true else ret false.

Definition TryConsume (c : byte) : TM bool := TryConsumeOne (eqc c).

(** [while (InClass(current_char_)) NextChar();] *)
Fixpoint while_in_class (InClass : byte -> bool) (fuel : nat) : TM unit :=
  let* s := getS in
  if InClass (current_char_ s) then
    match fuel with
    | O => undef
    | Datatypes.S fuel => NextChar ;;; while_in_class InClass fuel
    end
  else ret tt.

Definition ConsumeZeroOrMore (InClass : byte -> bool) : TM unit :=
  let* n := gets fuel in while_in_class InClass n.

Definition ConsumeOneOrMore (InClass : byte -> bool) (error : Message) : TM unit :=
  let* b := LookingAt InClass in
  if b : bool then NextChar ;;; ConsumeZeroOrMore InClass else AddError error.

(** [a() && b()] and [a() || b()]. *)
Definition and_then (a b : TM bool) : TM bool := let* x := a in if x : bool then b else ret false.
Definition or_else (a b : TM bool) : TM bool := let* x := a in if x : bool then ret true else b.
Definition when (c : TM bool) (a b : TM unit) : TM unit := let* x := c in if x : bool then a else b.

(** ** Tokens and comments *)

(** One round of the loop of [ConsumeString]; true when it returns. *)
Definition ConsumeString_round (delimiter : byte) : TM bool :=
  let* s := getS in
  if eqc NUL (current_char_ s) then AddError UnexpectedEndOfString ;;; ret true
  else if eqc NL (current_char_ s) then
    if negb (allow_multiline_strings_ (options s)) then AddError MultilineString ;;; ret true
    else NextChar ;;; ret false
  else if eqc BACKSLASH (current_char_ s) then
    NextChar ;;;
    when (TryConsumeOne Escape) (ret tt)
    (when (TryConsumeOne OctalDigit) (ret tt)
    (when (or_else (TryConsume "x") (TryConsume "X"))
       (when (TryConsumeOne HexDigit) (ret tt) (AddError ExpectedHexDigits))
    (when (TryConsume "u")
       (when (and_then (TryConsumeOne HexDigit) (and_then (TryConsumeOne HexDigit)
             (and_then (TryConsumeOne HexDigit) (TryConsumeOne HexDigit))))
          (ret tt) (AddError ExpectedFourHexDigits))
    (when (TryConsume "U")
       (when (and_then (TryConsume "0") (and_then (TryConsume "0")
             (and_then (or_else (TryConsume "0") (TryConsume "1"))
             (and_then (TryConsumeOne HexDigit) (and_then (TryConsumeOne HexDigit)
             (and_then (TryConsumeOne HexDigit) (and_then (TryConsumeOne HexDigit)
                (TryConsumeOne HexDigit))))))))
          (ret tt) (AddError ExpectedEightHexDigits))
    (AddError InvalidEscape))))) ;;;
    ret false
  else if eqc delimiter (current_char_ s) then NextChar ;;; ret true
  else NextChar ;;; ret false.

Fixpoint ConsumeString_loop (delimiter : byte) (fuel : nat) : TM unit :=
  let* stop := ConsumeString_round delimiter in
  if stop : bool then ret tt
  else match fuel with
       | O => undef
       | Datatypes.S fuel => ConsumeString_loop delimiter fuel
       end.
Definition ConsumeString (delimiter : byte) : TM unit :=
  let* n := gets fuel in ConsumeString_loop delimiter n.

Definition ConsumeDecimal (started_with_dot : bool) : TM bool :=
  let* is_float :=
    (if started_with_dot then ConsumeZeroOrMore Digit ;;; ret true
     else
       ConsumeZeroOrMore Digit ;;;
       let* dot := TryConsume "." in
       if dot : bool then ConsumeZeroOrMore Digit ;;; ret true else ret false) in
  let* e := or_else (TryConsume "e") (TryConsume "E") in
  let* is_float :=
    (if e : bool then
       let* _ := or_else (TryConsume "-") (TryConsume "+") in
       ConsumeOneOrMore Digit EmptyExponent ;;; ret true
     else ret (is_float : bool)) in
  let* allow_f := gets (fun s => allow_f_after_float_ (options s)) in
  let* f :=
    (if allow_f : bool then or_else (TryConsume "f") (TryConsume "F") else ret false) in
  ret ((is_float : bool) || f).

Definition ConsumeNumber (started_with_zero started_with_dot : bool) : TM TokenType :=
  let* is_float :=
    (let* hex :=
       (if started_with_zero then or_else (TryConsume "x") (TryConsume "X") else ret false) in
     if hex : bool then ConsumeOneOrMore HexDigit EmptyHexNumber ;;; ret false
     else
       let* octal := (if started_with_zero then LookingAt Digit else ret false) in
       if octal : bool then
         ConsumeZeroOrMore OctalDigit ;;;
         let* bad := LookingAt Digit in
         (if bad : bool then AddError NotOctal ;;; ConsumeZeroOrMore Digit else ret tt) ;;;
         ret false
       else ConsumeDecimal started_with_dot) in
  let* s := getS in
  (if Letter (current_char_ s) && require_space_after_number_ (options s) then
     AddError NumberNeedsSpace
   else if eqc "." (current_char_ s) then
     if is_float : bool then AddError SecondPoint else AddError NotAnInteger
   else ret tt) ;;;
  ret (if is_float : bool then TYPE_FLOAT else TYPE_INTEGER).

(** [content] tells whether the argument is a string (always the collector's
    buffer) or null. *)
Definition ConsumeLineComment (content : bool) : TM unit :=
  (if content then RecordTo CommentBuffer else ret tt) ;;;
  ConsumeZeroOrMore (fun c => negb (eqc NUL c) && negb (eqc NL c)) ;;;
  let* _ := TryConsume NL in
  (if content then StopRecording else ret tt).

(** [content->erase(content->size() - 2)], which throws when there are fewer than
    two characters. *)
Definition erase_last_two : TM unit :=
  let* s := getS in
  let w := comment_buffer_ (collector s) in
  if 2 <=? zlen w
  then modS (set_collector (with_buffer (ztake (zlen w - 2) w) (collector s)))
  else undef.

Definition block_comment_stop (c : byte) : bool :=
  eqc NUL c || eqc "*" c || eqc "/" c || eqc NL c.

(** One round of the loop of [ConsumeBlockComment]; true when it breaks. *)
Definition ConsumeBlockComment_round (start_line start_column : Z) (content : bool) : TM bool :=
  ConsumeZeroOrMore (fun c => negb (block_comment_stop c)) ;;;
  let* newline := TryConsume NL in
  if newline : bool then
    (if content then StopRecording else ret tt) ;;;
    ConsumeZeroOrMore WhitespaceNoNewline ;;;
    let* stop := and_then (TryConsume "*") (TryConsume "/") in
    if stop : bool then ret true
    else (if content then RecordTo CommentBuffer else ret tt) ;;; ret false
  else
    let* stop := and_then (TryConsume "*") (TryConsume "/") in
    if stop : bool then
      (if content then StopRecording ;;; erase_last_two else ret tt) ;;; ret true
    else
      let* nested :=
        and_then (TryConsume "/") (gets (fun s => eqc "*" (current_char_ s))) in
      if nested : bool then AddError NestedComment ;;; ret false
      else
        let* s := getS in
        if eqc NUL (current_char_ s) then
          AddError EndInsideComment ;;;
          RecordError start_line start_column CommentStartedHere ;;;
          (if content then StopRecording else ret tt) ;;; ret true
        else ret false.

Fixpoint ConsumeBlockComment_loop (start_line start_column : Z) (content : bool) (fuel : nat)
    : TM unit :=
  let* stop := ConsumeBlockComment_round start_line start_column content in
  if stop : bool then ret tt
  else match fuel with
       | O => undef
       | Datatypes.S fuel => ConsumeBlockComment_loop start_line start_column content fuel
       end.
Definition ConsumeBlockComment (content : bool) : TM unit :=
  let* s := getS in
  (if content then RecordTo CommentBuffer else ret tt) ;;;
  ConsumeBlockComment_loop (line_ s) (column_ s - 2) content (fuel s).

Inductive NextCommentStatus := LINE_COMMENT | BLOCK_COMMENT | SLASH_NOT_COMMENT | NO_COMMENT.

Definition TryConsumeCommentStart : TM NextCommentStatus :=
  let* style := gets (fun s => comment_style_ (options s)) in
  match style with
  | CPP_COMMENT_STYLE =>
      let* slash := TryConsume "/" in
      if slash : bool then
        let* line := TryConsume "/" in
        if line : bool then ret LINE_COMMENT
        else
          let* block := TryConsume "*" in
          if block : bool then ret BLOCK_COMMENT
          else
            modS (fun s => set_current
              (mkToken TYPE_SYMBOL ["/"%byte] (line_ s) (column_ s - 1) (column_ s)) s) ;;;
            ret SLASH_NOT_COMMENT
      else ret NO_COMMENT
  | SH_COMMENT_STYLE =>
      let* hash := TryConsume "#" in
      if hash : bool then ret LINE_COMMENT else ret NO_COMMENT
  end.

Definition TryConsumeWhitespace : TM bool :=
  let* o := gets options in
  if report_newlines_ o then
    let* b := TryConsumeOne WhitespaceNoNewline in
    if b : bool then
      ConsumeZeroOrMore WhitespaceNoNewline ;;; set_type TYPE_WHITESPACE ;;; ret true
    else ret false
  else
    let* b := TryConsumeOne Whitespace in
    if b : bool then
      ConsumeZeroOrMore Whitespace ;;; set_type TYPE_WHITESPACE ;;; ret (report_whitespace_ o)
    else ret false.

Definition TryConsumeNewline : TM bool :=
  let* o := gets options in
  if negb (report_whitespace_ o) || negb (report_newlines_ o) then ret false
  else
    let* b := TryConsume NL in
    if b : bool then set_type TYPE_NEWLINE ;;; ret true else ret false.

(** ** Next *)

(** The token that starts at the current character. *)
Definition ConsumeToken : TM unit :=
  StartToken ;;;
  when (TryConsumeOne Letter) (ConsumeZeroOrMore Alphanumeric ;;; set_type TYPE_IDENTIFIER)
  (when (TryConsume "0") (let* ty := ConsumeNumber true false in set_type ty)
  (when (TryConsume ".")
     (when (TryConsumeOne Digit)
        (let* s := getS in
         (if bool_decide (type (previous_ s) = TYPE_IDENTIFIER) &&
             (line (current_ s) =? line (previous_ s)) &&
             (column (current_ s) =? end_column (previous_ s))
          then RecordError (line_ s) (column_ s - 2) IdentifierNeedsSpace
          else ret tt) ;;;
         let* ty := ConsumeNumber false true in set_type ty)
        (set_type TYPE_SYMBOL))
  (when (TryConsumeOne Digit) (let* ty := ConsumeNumber false false in set_type ty)
  (when (TryConsume DQUOTE) (ConsumeString DQUOTE ;;; set_type TYPE_STRING)
  (when (TryConsume QUOTE) (ConsumeString QUOTE ;;; set_type TYPE_STRING)
     (let* s := getS in
      (if negb (Z.land (b2z (current_char_ s)) 0x80 =? 0) then
         RecordError (line_ s) (column_ s) (NonAscii (b2z (current_char_ s)))
       else ret tt) ;;;
      NextChar ;;; set_type TYPE_SYMBOL)))))) ;;;
  EndToken.

(** [while (TryConsumeOne<Unprintable>() || (!read_error_ && TryConsume('\0')));] *)
Fixpoint skip_control_characters (fuel : nat) : TM unit :=
  let* b :=
    or_else (TryConsumeOne Unprintable)
      (let* eof := gets read_error_ in if eof : bool then ret false else TryConsume NUL) in
  if b : bool then
    match fuel with O => undef | Datatypes.S fuel => skip_control_characters fuel end
  else ret tt.

(** What one round of the loop of [Next] does: it returns true, breaks, or
    continues. *)
Inductive flow := Return_true | Break | Continue.

Definition Next_round : TM flow :=
  StartToken ;;;
  let* report_token := or_else TryConsumeWhitespace TryConsumeNewline in
  EndToken ;;;
  if report_token : bool then ret Return_true
  else
    let* comment := TryConsumeCommentStart in
    match comment with
    | LINE_COMMENT => ConsumeLineComment false ;;; ret Continue
    | BLOCK_COMMENT => ConsumeBlockComment false ;;; ret Continue
    | SLASH_NOT_COMMENT => ret Return_true
    | NO_COMMENT =>
        let* s := getS in
        if read_error_ s then ret Break
        else if Unprintable (current_char_ s) || eqc NUL (current_char_ s) then
          AddError ControlCharacters ;;; NextChar ;;;
          let* n := gets fuel in skip_control_characters n ;;; ret Continue
        else ConsumeToken ;;; ret Return_true
    end.

Definition EndOfFile : TM bool :=
  modS (fun s => set_current (mkToken TYPE_END [] (line_ s) (column_ s) (column_ s)) s) ;;;
  ret false.

Fixpoint Next_loop (fuel : nat) : TM bool :=
  let* eof := gets read_error_ in
  if eof : bool then EndOfFile
  else
    let* f := Next_round in
    match f with
    | Return_true => ret true
    | Break => EndOfFile
    | Continue =>
        match fuel with O => undef | Datatypes.S fuel => Next_loop fuel end
    end.

Definition Next : TM bool :=
  modS (fun s => set_previous (current_ s) s) ;;;
  let* n := gets fuel in Next_loop n.

(** ** Comments *)

Definition has_comment (has line : bool) (c : CommentCollector) : CommentCollector :=
  mkCollector (prev_trailing_comments_ c) (detached_comments_ c) (next_leading_comments_ c)
    (comment_buffer_ c) (num_comments_ c) (has_trailing_comment_ c) has line
    (can_attach_to_prev_ c).

Definition new_collector (prev_trailing : option (list byte)) (detached : option (list (list byte)))
    (next_leading : option (list byte)) : CommentCollector :=
  mkCollector ((fun _ => []) <$> prev_trailing) ((fun _ => []) <$> detached)
    ((fun _ => []) <$> next_leading) [] 0 false false false true.

(** The destructor. *)
Definition end_collector (c : CommentCollector) : CommentCollector :=
  if bool_decide (is_Some (next_leading_comments_ c)) && has_comment_ c then
    mkCollector (prev_trailing_comments_ c) (detached_comments_ c) (Some (comment_buffer_ c))
      (default [] (next_leading_comments_ c)) (num_comments_ c) (has_trailing_comment_ c)
      (has_comment_ c) (is_line_comment_ c) (can_attach_to_prev_ c)
  else c.

Definition ClearBuffer (c : CommentCollector) : CommentCollector :=
  has_comment false (is_line_comment_ c) (with_buffer [] c).

Definition Flush (c : CommentCollector) : CommentCollector :=
  if has_comment_ c then
    let c :=
      if can_attach_to_prev_ c then
        mkCollector ((fun w => w ++ comment_buffer_ c) <$> prev_trailing_comments_ c)
          (detached_comments_ c) (next_leading_comments_ c) (comment_buffer_ c) (num_comments_ c)
          true (has_comment_ c) (is_line_comment_ c) false
      else
        mkCollector (prev_trailing_comments_ c)
          ((fun l => l ++ [comment_buffer_ c]) <$> detached_comments_ c)
          (next_leading_comments_ c) (comment_buffer_ c) (num_comments_ c)
          (has_trailing_comment_ c) (has_comment_ c) (is_line_comment_ c)
          (can_attach_to_prev_ c) in
    let c := ClearBuffer c in
    mkCollector (prev_trailing_comments_ c) (detached_comments_ c) (next_leading_comments_ c)
      (comment_buffer_ c) (num_comments_ c + 1) (has_trailing_comment_ c) (has_comment_ c)
      (is_line_comment_ c) (can_attach_to_prev_ c)
  else c.

Definition GetBufferForLineComment (c : CommentCollector) : CommentCollector :=
  has_comment true true (if has_comment_ c && negb (is_line_comment_ c) then Flush c else c).

Definition GetBufferForBlockComment (c : CommentCollector) : CommentCollector :=
  has_comment true false (if has_comment_ c then Flush c else c).

Definition DetachFromPrev (c : CommentCollector) : CommentCollector :=
  mkCollector (prev_trailing_comments_ c) (detached_comments_ c) (next_leading_comments_ c)
    (comment_buffer_ c) (num_comments_ c) (has_trailing_comment_ c) (has_comment_ c)
    (is_line_comment_ c) false.

Definition MaybeDetachComment (c : CommentCollector) : CommentCollector :=
  let count := num_comments_ c + (if has_comment_ c then 1 else 0) in
  if count =? 1 then
    let c :=
      match prev_trailing_comments_ c with
      | Some trail =>
          if has_trailing_comment_ c then
            mkCollector (Some []) ((fun l => trail :: l) <$> detached_comments_ c)
              (next_leading_comments_ c) (comment_buffer_ c) (num_comments_ c)
              (has_trailing_comment_ c) (has_comment_ c) (is_line_comment_ c)
              (can_attach_to_prev_ c)
          else c
      | None => c
      end in
    Flush c
  else c.

Definition on_collector (f : CommentCollector -> CommentCollector) : TM unit :=
  modS (fun s => set_collector (f (collector s)) s).

(** The part of [NextWithComments] behind the line of the previous token. *)
Definition closes_scope (k : Token) : bool :=
  bool_decide (text k = ["}"%byte]) || bool_decide (text k = ["]"%byte]) ||
  bool_decide (text k = [")"%byte]).

Fixpoint NextWithComments_loop (prev_line trailing_comment_end_line : Z) (fuel : nat) : TM bool :=
  let again :=
    match fuel with
    | O => undef
    | Datatypes.S fuel => NextWithComments_loop prev_line trailing_comment_end_line fuel
    end in
  ConsumeZeroOrMore WhitespaceNoNewline ;;;
  let* comment := TryConsumeCommentStart in
  match comment with
  | LINE_COMMENT =>
      on_collector GetBufferForLineComment ;;; ConsumeLineComment true ;;; again
  | BLOCK_COMMENT =>
      on_collector GetBufferForBlockComment ;;; ConsumeBlockComment true ;;;
      ConsumeZeroOrMore WhitespaceNoNewline ;;;
      let* _ := TryConsume NL in again
  | SLASH_NOT_COMMENT => ret true
  | NO_COMMENT =>
      let* blank := TryConsume NL in
      if blank : bool then on_collector Flush ;;; on_collector DetachFromPrev ;;; again
      else
        let* result := Next in
        let* s := getS in
        (if negb result || closes_scope (current_ s) then on_collector Flush else ret tt) ;;;
        (if result && ((prev_line =? line_ s) || (trailing_comment_end_line =? line_ s))
         then on_collector MaybeDetachComment else ret tt) ;;;
        ret (result : bool)
  end.

Definition NextWithComments_ : TM bool :=
  let* s := getS in
  let continue_ (prev_line trailing_comment_end_line : Z) : TM bool :=
    let* n := gets fuel in NextWithComments_loop prev_line trailing_comment_end_line n in
  if bool_decide (type (current_ s) = TYPE_START) then
    let* ef := TryConsume xef in
    let* bad :=
      (if ef : bool then
         let* bom := and_then (TryConsume xbb) (TryConsume xbf) in ret (negb (bom : bool))
       else ret false) in
    if bad : bool then AddError NotUTF8 ;;; ret false
    else on_collector DetachFromPrev ;;; continue_ (-1) (-1)
  else
    let prev_line := line_ s in
    ConsumeZeroOrMore WhitespaceNoNewline ;;;
    let* comment := TryConsumeCommentStart in
    match comment with
    | LINE_COMMENT =>
        let* end_line := gets line_ in
        on_collector GetBufferForLineComment ;;; ConsumeLineComment true ;;;
        on_collector Flush ;;; continue_ prev_line end_line
    | BLOCK_COMMENT =>
        on_collector GetBufferForBlockComment ;;; ConsumeBlockComment true ;;;
        let* end_line := gets line_ in
        ConsumeZeroOrMore WhitespaceNoNewline ;;;
        on_collector Flush ;;; continue_ prev_line end_line
    | SLASH_NOT_COMMENT => ret true
    | NO_COMMENT =>
        let* newline := TryConsume NL in
        if newline : bool then continue_ prev_line (-1) else Next
    end.

(** The collector is a local object; its destructor runs on every return. *)
Definition NextWithComments (prev_trailing : option (list byte))
    (detached : option (list (list byte))) (next_leading : option (list byte))
    : TM (bool * (option (list byte) * option (list (list byte)) * option (list byte))) :=
  on_collector (fun _ => new_collector prev_trailing detached next_leading) ;;;
  let* result := NextWithComments_ in
  on_collector end_collector ;;;
  let* c := gets collector in
  ret (result, (prev_trailing_comments_ c, detached_comments_ c, next_leading_comments_ c)).
End tokenizer.

(** ** Options *)

Definition set_report_whitespace (report : bool) (o : Options) : Options :=
  mkOptions (allow_f_after_float_ o) (comment_style_ o) (require_space_after_number_ o)
    (allow_multiline_strings_ o) report (report_newlines_ o && report).
Definition set_report_newlines (report : bool) (o : Options) : Options :=
  mkOptions (allow_f_after_float_ o) (comment_style_ o) (require_space_after_number_ o)
    (allow_multiline_strings_ o) (report_whitespace_ o || report) report.
Definition set_allow_f_after_float (value : bool) (o : Options) : Options :=
  mkOptions value (comment_style_ o) (require_space_after_number_ o)
    (allow_multiline_strings_ o) (report_whitespace_ o) (report_newlines_ o).
Definition set_comment_style (style : CommentStyle) (o : Options) : Options :=
  mkOptions (allow_f_after_float_ o) style (require_space_after_number_ o)
    (allow_multiline_strings_ o) (report_whitespace_ o) (report_newlines_ o).
Definition set_require_space_after_number (require : bool) (o : Options) : Options :=
  mkOptions (allow_f_after_float_ o) (comment_style_ o) require
    (allow_multiline_strings_ o) (report_whitespace_ o) (report_newlines_ o).
Definition set_allow_multiline_strings (allow : bool) (o : Options) : Options :=
  mkOptions (allow_f_after_float_ o) (comment_style_ o) (require_space_after_number_ o)
    allow (report_whitespace_ o) (report_newlines_ o).
