(* ===== verification/TokenValues.v ===== *)
(** * The values of tokens

    The static helpers of [io/tokenizer.cc]: the value of an integer token, the
    bytes of a string token with its escape sequences, and identifiers. A [const
    char*] into [text.c_str()] is the list of the bytes from it to the end of the
    string; the terminating zero is read one place behind them, and a read past
    it gives [None]. *)

From Stdlib Require Import Strings.Byte.
From S2P Require Import Prelude Tokenizer.

#[local] Open Scope byte_scope.
#[local] Open Scope Z_scope.

(** [ptr[k]]. *)
Definition char_at (ptr : list byte) (k : nat) : option byte :=
  if (k <=? length ptr)%nat then Some (nth k ptr NUL) else None.

(** ** Integers *)

Definition kuint64max : Z := 2 ^ 64 - 1.

(** Zeros and the first other digit; [None] when a digit is not one of the base. *)
Fixpoint ParseInteger_leading (base : Z) (ptr : list byte) : option (Z * list byte) :=
  match ptr with
  | [] => Some (0, [])
  | c :: ptr' =>
      if eqc NUL c then Some (0, ptr)
      else
        let digit := DigitValue c in
        if base <=? digit then None
        else if negb (digit =? 0) then Some (digit, ptr')
        else ParseInteger_leading base ptr'
  end.

Fixpoint ParseInteger_loop (base overflow_if_mul_base result : Z) (ptr : list byte) : option Z :=
  match ptr with
  | [] => Some result
  | c :: ptr' =>
      if eqc NUL c then Some result
      else
        let digit := DigitValue c in
        if (digit <? 0) || (base <=? digit) then None
        else if overflow_if_mul_base <=? result then None
        else
          let result := u64 (result * base + digit) in
          if result <? base then None
          else ParseInteger_loop base overflow_if_mul_base result ptr'
  end.

(** The base, the point from where a multiplication overflows, and the digits. *)
Definition ParseInteger_base (text : list byte) : Z * Z * list byte :=
  match text with
  | x30 :: (x78 | x58) :: ptr => (16, kuint64max / 16 + 1, ptr)
  | x30 :: _ => (8, kuint64max / 8 + 1, text)
  | _ => (10, kuint64max / 10 + 1, text)
  end%byte.

(** [Some output] when the result is true. *)
Definition ParseInteger (text : list byte) (max_value : Z) : option Z :=
  let '(base, overflow_if_mul_base, ptr) := ParseInteger_base text in
  match ParseInteger_leading base ptr with
  | None => None
  | Some (result, ptr) =>
      match ParseInteger_loop base overflow_if_mul_base result ptr with
      | None => None
      | Some result => if max_value <? result then None else Some result
      end
  end.

(** ** Unicode *)

Section strings.
(** [absl]'s formatting of a number with [\U%08x]. *)
Variable StrFormat_U08x : Z -> list byte.

(** The last [len] bytes of [ghtonl(tmp)] in memory. *)
Definition last_bytes (tmp len : Z) : list byte :=
  zdrop (4 - len)
    [z2b (Z.shiftr tmp 24); z2b (Z.shiftr tmp 16); z2b (Z.shiftr tmp 8); z2b tmp].

Definition AppendUTF8 (code_point : Z) (output : list byte) : list byte :=
  if code_point <=? 0x7f then output ++ last_bytes code_point 1
  else if code_point <=? 0x07ff then
    output ++ last_bytes
      (Z.lor (Z.lor 0x0000c080 (u32 (Z.shiftl (Z.land code_point 0x07c0) 2)))
             (Z.land code_point 0x003f)) 2
  else if code_point <=? 0xffff then
    output ++ last_bytes
      (Z.lor (Z.lor (Z.lor 0x00e08080 (u32 (Z.shiftl (Z.land code_point 0xf000) 4)))
                    (u32 (Z.shiftl (Z.land code_point 0x0fc0) 2)))
             (Z.land code_point 0x003f)) 3
  else if code_point <=? 0x10ffff then
    output ++ last_bytes
      (Z.lor (Z.lor (Z.lor (Z.lor 0xf0808080 (u32 (Z.shiftl (Z.land code_point 0x1c0000) 6)))
                           (u32 (Z.shiftl (Z.land code_point 0x03f000) 4)))
                    (u32 (Z.shiftl (Z.land code_point 0x000fc0) 2)))
             (Z.land code_point 0x003f)) 4
  else output ++ StrFormat_U08x code_point.

(** [Some result] when there were as many characters; the outer [None] is a read
    past the end. *)
Fixpoint ReadHexDigits_loop (ptr : list byte) (len : nat) (result : Z) : option (option Z) :=
  match len with
  | O => Some (Some result)
  | Datatypes.S len =>
      c ← char_at ptr 0;
      if eqc NUL c then Some None
      else ReadHexDigits_loop (drop 1 ptr) len (u32 (u32 (Z.shiftl result 4) + DigitValue c))
  end.
Definition ReadHexDigits (ptr : list byte) (len : nat) : option (option Z) :=
  match len with O => Some None | _ => ReadHexDigits_loop ptr len 0 end.

Definition kMinHeadSurrogate : Z := 0xd800.
Definition kMaxHeadSurrogate : Z := 0xdc00.
Definition kMinTrailSurrogate : Z := 0xdc00.
Definition kMaxTrailSurrogate : Z := 0xe000.
Definition IsHeadSurrogate (code_point : Z) : bool :=
  (kMinHeadSurrogate <=? code_point) && (code_point <? kMaxHeadSurrogate).
Definition IsTrailSurrogate (code_point : Z) : bool :=
  (kMinTrailSurrogate <=? code_point) && (code_point <? kMaxTrailSurrogate).
Definition AssembleUTF16 (head_surrogate trail_surrogate : Z) : option Z :=
  if IsHeadSurrogate head_surrogate && IsTrailSurrogate trail_surrogate then
    Some (u32 (0x10000 + Z.lor (u32 (Z.shiftl (head_surrogate - kMinHeadSurrogate) 10))
                               (trail_surrogate - kMinTrailSurrogate)))
  else None.

Definition UnicodeLength (key : byte) : nat :=
  if eqc "u" key then 4%nat else if eqc "U" key then 8%nat else O.

(** The code point and the number of characters it takes, none when the result is
    [ptr] itself. *)
Definition FetchUnicodePoint (ptr : list byte) : option (option (Z * nat)) :=
  key ← char_at ptr 0;
  let len := UnicodeLength key in
  let p := drop 1 ptr in
  r ← ReadHexDigits p len;
  match r with
  | None => Some None
  | Some code_point =>
      let p := drop len p in
      c ← char_at p 0;
      if IsHeadSurrogate code_point && eqc BACKSLASH c then
        c1 ← char_at p 1;
        if eqc "u" c1 then
          r ← ReadHexDigits (drop 2 p) 4;
          match r with
          | Some trail_surrogate =>
              if IsTrailSurrogate trail_surrogate then
                code_point ← AssembleUTF16 code_point trail_surrogate;
                Some (Some (code_point, (1 + len + 6)%nat))
              else Some (Some (code_point, (1 + len)%nat))
          | None => Some (Some (code_point, (1 + len)%nat))
          end
        else Some (Some (code_point, (1 + len)%nat))
      else Some (Some (code_point, (1 + len)%nat))
  end.

(** ** Strings *)

(** Up to [n] digits of a class behind the character at [ptr]: the number and the
    number of digits. *)
Fixpoint digits_at (InClass : byte -> bool) (base : Z) (n : nat) (ptr : list byte) (code : Z)
    : Z * nat :=
  match n, ptr with
  | Datatypes.S n, c :: ptr =>
      if InClass c then
        let '(code, k) := digits_at InClass base n ptr (code * base + DigitValue c) in
        (code, Datatypes.S k)
      else (code, O)
  | _, _ => (code, O)
  end.

(** The escape sequence whose first character behind the backslash is at [ptr]:
    the output with its value, and the number of characters of it. *)
Definition ParseEscape (ptr : list byte) (output : list byte) : option (list byte * nat) :=
  c ← char_at ptr 0;
  if OctalDigit c then
    let '(code, k) := digits_at OctalDigit 8 2 (drop 1 ptr) (DigitValue c) in
    Some (output ++ [z2b code], Datatypes.S k)
  else if eqc "x" c || eqc "X" c then
    let '(code, k) := digits_at HexDigit 16 2 (drop 1 ptr) 0 in
    Some (output ++ [z2b code], Datatypes.S k)
  else if eqc "u" c || eqc "U" c then
    r ← FetchUnicodePoint ptr;
    match r with
    | None => Some (output ++ [c], 1%nat)
    | Some (unicode, k) => Some (AppendUTF8 unicode output, k)
    end
  else Some (output ++ [TranslateEscape c], 1%nat).

Fixpoint ParseStringAppend_loop (fuel : nat) (quote : byte) (ptr : list byte)
    (output : list byte) : option (list byte) :=
  c ← char_at ptr 0;
  if eqc NUL c then Some output
  else
    c1 ← char_at ptr 1;
    '(output, n) ←
      (if eqc BACKSLASH c && negb (eqc NUL c1) then
         '(output, n) ← ParseEscape (drop 1 ptr) output; Some (output, Datatypes.S n)
       else if eqc quote c && eqc NUL c1 then Some (output, 1%nat)
       else Some (output ++ [c], 1%nat));
    match fuel with
    | O => None
    | Datatypes.S fuel => ParseStringAppend_loop fuel quote (drop n ptr) output
    end.

(** The fuel is the length: each round moves forward. *)
Definition ParseStringAppend (text output : list byte) : option (list byte) :=
  match text with
  | [] => None
  | quote :: ptr => ParseStringAppend_loop (length ptr) quote ptr output
  end.
Definition ParseString (text : list byte) : option (list byte) := ParseStringAppend text [].
End strings.

(** ** Identifiers *)

Definition AllInClass (InClass : byte -> bool) (s : list byte) : bool := forallb InClass s.

Definition IsIdentifier (text : list byte) : bool :=
  match text with
  | [] => false
  | c :: l => if negb (Letter c) then false else AllInClass Alphanumeric l
  end.
