(* ===== verification/TokenizerFlat.v ===== *)
(** * The tokenizer on a list of bytes

    A lexer that reads a list: the characters that are left are [buffer_], what
    is recorded goes at once where it belongs, and nothing can fail. It has the
    state of [Tokenizer.v] without a stream below. The tokenizer is proved to
    compute it, whatever the stream; the properties of tokens are proved here. *)

From Stdlib Require Import Strings.Byte.
From S2P Require Import Prelude ZeroCopyStream Tokenizer.

#[local] Open Scope byte_scope.
#[local] Open Scope Z_scope.

(** ** States *)

Notation V := (Tokenizer.t unit).

Definition step_pos (p : Z * Z) (c : byte) : Z * Z :=
  if eqc NL c then (p.1 + 1, 0)
  else if eqc TAB c then (p.1, p.2 + (kTabWidth - Z.rem p.2 kTabWidth))
  else (p.1, p.2 + 1).
Definition walk (w : list byte) (p : Z * Z) : Z * Z := fold_left step_pos w p.
Definition pos (v : V) : Z * Z := (line_ v, column_ v).

Definition recorded (w : list byte) (v : V) : V := default v (append_target w v).

(** The state behind [w], which is what [buffer_] starts with. *)
Definition consume (w : list byte) (v : V) : V :=
  let l := drop (length w) (buffer_ v) in
  let p := walk w (pos v) in
  let v := recorded w v in
  mk tt (hd NUL l) l 0 (bool_decide (l = [])) p.1 p.2 (current_ v) (previous_ v)
    (record_target_ v) 0 (collector v) (errors v) (options v).

Fixpoint take_while (p : byte -> bool) (l : list byte) : list byte :=
  match l with
  | [] => []
  | c :: l => if p c then c :: take_while p l else []
  end.

(** ** Programs *)

Definition F (A : Type) : Type := V -> A * V.
Definition fret {A} (a : A) : F A := fun v => (a, v).
Definition fbind {A B} (m : F A) (k : A -> F B) : F B := fun v => let '(a, v) := m v in k a v.
Definition fmod (f : V -> V) : F unit := fun v => (tt, f v).
Definition fgets {A} (f : V -> A) : F A := fun v => (f v, v).

Declare Scope flat_scope.
Notation "'let+' p ':=' m 'in' k" := (fbind m (fun p => k))
  (at level 200, p pattern, m at level 100, k at level 200,
   right associativity) : flat_scope.
Notation "m ;+ k" := (fbind m (fun _ => k)) (at level 100, right associativity) : flat_scope.
Notation "'fret' a" := (fret a) (at level 10, a at level 9) : flat_scope.

Module Flat.
#[local] Open Scope flat_scope.

Definition NextChar : F unit := fmod (fun v => consume (take 1 (buffer_ v)) v).

Definition RecordTo (target : Target) : F unit := fmod (set_record (Some target) 0).
Definition StopRecording : F unit := fmod (set_record None 0).
Definition StartToken : F unit :=
  fmod (fun v =>
    set_current (mkToken TYPE_START [] (line_ v) (column_ v) (end_column (current_ v))) v) ;+
  RecordTo CurrentText.
Definition EndToken : F unit :=
  StopRecording ;+
  fmod (fun v =>
    let k := current_ v in
    set_current (mkToken (type k) (text k) (line k) (column k) (column_ v)) v).

Definition AddError (m : Message) : F unit :=
  fmod (fun v => add_error (mkError (line_ v) (column_ v) m) v).
Definition RecordError (line column : Z) (m : Message) : F unit :=
  fmod (add_error (mkError line column m)).
Definition set_type (ty : TokenType) : F unit :=
  fmod (fun v => set_current (with_type ty (current_ v)) v).
Definition on_collector (f : CommentCollector -> CommentCollector) : F unit :=
  fmod (fun v => set_collector (f (collector v)) v).

Definition TryConsumeOne (p : byte -> bool) : F bool := fun v =>
  if p (current_char_ v) then (true, (NextChar v).2) else (false, v).
Definition TryConsume (c : byte) : F bool := TryConsumeOne (eqc c).
Definition ConsumeZeroOrMore (p : byte -> bool) : F unit :=
  fmod (fun v => consume (take_while p (buffer_ v)) v).
Definition ConsumeOneOrMore (p : byte -> bool) (error : Message) : F unit := fun v =>
  if p (current_char_ v) then ConsumeZeroOrMore p v else AddError error v.

Definition and_then (a b : F bool) : F bool := let+ x := a in if x : bool then b else fret false.
Definition or_else (a b : F bool) : F bool := let+ x := a in if x : bool then fret true else b.
Definition when (c : F bool) (a b : F unit) : F unit := let+ x := c in if x : bool then a else b.

(** [n] hexadecimal digits. *)
Fixpoint HexDigits (n : nat) : F bool :=
  match n with
  | O => fret true
  | S O => TryConsumeOne HexDigit
  | S n => and_then (TryConsumeOne HexDigit) (HexDigits n)
  end.

(** Behind a backslash. *)
Definition ConsumeEscape : F unit :=
  when (TryConsumeOne Escape) (fret tt)
  (when (TryConsumeOne OctalDigit) (fret tt)
  (when (or_else (TryConsume "x") (TryConsume "X"))
     (when (HexDigits 1) (fret tt) (AddError ExpectedHexDigits))
  (when (TryConsume "u")
     (when (HexDigits 4) (fret tt) (AddError ExpectedFourHexDigits))
  (when (TryConsume "U")
     (when (and_then (TryConsume "0") (and_then (TryConsume "0")
           (and_then (or_else (TryConsume "0") (TryConsume "1")) (HexDigits 5))))
        (fret tt) (AddError ExpectedEightHexDigits))
  (AddError InvalidEscape))))).

Definition ConsumeString_round (delimiter : byte) : F bool := fun v =>
  let c := current_char_ v in
  if eqc NUL c then (AddError UnexpectedEndOfString ;+ fret true) v
  else if eqc NL c then
    if negb (allow_multiline_strings_ (options v)) then (AddError MultilineString ;+ fret true) v
    else (NextChar ;+ fret false) v
  else if eqc BACKSLASH c then (NextChar ;+ ConsumeEscape ;+ fret false) v
  else if eqc delimiter c then (NextChar ;+ fret true) v
  else (NextChar ;+ fret false) v.

Fixpoint ConsumeString_loop (delimiter : byte) (n : nat) : F unit :=
  let+ stop := ConsumeString_round delimiter in
  if stop : bool then fret tt
  else match n with O => fret tt | S n => ConsumeString_loop delimiter n end.
Definition ConsumeString (delimiter : byte) : F unit := fun v =>
  ConsumeString_loop delimiter (length (buffer_ v)) v.

Definition ConsumeDecimal (started_with_dot : bool) : F bool :=
  let+ is_float :=
    (ConsumeZeroOrMore Digit ;+
     if started_with_dot then fret true
     else let+ dot := TryConsume "." in
          if dot : bool then ConsumeZeroOrMore Digit ;+ fret true else fret false) in
  let+ e := or_else (TryConsume "e") (TryConsume "E") in
  let+ is_float :=
    (if e : bool then
       or_else (TryConsume "-") (TryConsume "+") ;+
       ConsumeOneOrMore Digit EmptyExponent ;+ fret true
     else fret (is_float : bool)) in
  let+ allow_f := fgets (fun v => allow_f_after_float_ (options v)) in
  let+ f :=
    (if allow_f : bool then or_else (TryConsume "f") (TryConsume "F") else fret false) in
  fret ((is_float : bool) || f).

Definition ConsumeNumber (started_with_zero started_with_dot : bool) : F TokenType :=
  let+ is_float :=
    (let+ hex :=
       (if started_with_zero then or_else (TryConsume "x") (TryConsume "X") else fret false) in
     if hex : bool then ConsumeOneOrMore HexDigit EmptyHexNumber ;+ fret false
     else
       let+ octal :=
         (if started_with_zero then fgets (fun v => Digit (current_char_ v)) else fret false) in
       if octal : bool then
         ConsumeZeroOrMore OctalDigit ;+
         let+ bad := fgets (fun v => Digit (current_char_ v)) in
         (if bad : bool then AddError NotOctal ;+ ConsumeZeroOrMore Digit else fret tt) ;+
         fret false
       else ConsumeDecimal started_with_dot) in
  let+ v := fgets (fun v => v) in
  (if Letter (current_char_ v) && require_space_after_number_ (options v) then
     AddError NumberNeedsSpace
   else if eqc "." (current_char_ v) then
     if is_float : bool then AddError SecondPoint else AddError NotAnInteger
   else fret tt) ;+
  fret (if is_float : bool then TYPE_FLOAT else TYPE_INTEGER).

(** *** Comments *)

Definition not_line_end (c : byte) : bool := negb (eqc NUL c) && negb (eqc NL c).

Definition ConsumeLineComment (content : bool) : F unit :=
  (if content then RecordTo CommentBuffer else fret tt) ;+
  ConsumeZeroOrMore not_line_end ;+
  TryConsume NL ;+
  (if content then StopRecording else fret tt).

Definition erase_last_two : F unit :=
  on_collector (fun c =>
    let w := comment_buffer_ c in with_buffer (ztake (zlen w - 2) w) c).

Definition ConsumeBlockComment_round (start_line start_column : Z) (content : bool) : F bool :=
  ConsumeZeroOrMore (fun c => negb (block_comment_stop c)) ;+
  let+ newline := TryConsume NL in
  if newline : bool then
    (if content then StopRecording else fret tt) ;+
    ConsumeZeroOrMore WhitespaceNoNewline ;+
    let+ stop := and_then (TryConsume "*") (TryConsume "/") in
    if stop : bool then fret true
    else (if content then RecordTo CommentBuffer else fret tt) ;+ fret false
  else
    let+ stop := and_then (TryConsume "*") (TryConsume "/") in
    if stop : bool then
      (if content then StopRecording ;+ erase_last_two else fret tt) ;+ fret true
    else
      let+ nested := and_then (TryConsume "/") (fgets (fun v => eqc "*" (current_char_ v))) in
      if nested : bool then AddError NestedComment ;+ fret false
      else
        let+ c := fgets current_char_ in
        if eqc NUL c then
          AddError EndInsideComment ;+
          RecordError start_line start_column CommentStartedHere ;+
          (if content then StopRecording else fret tt) ;+ fret true
        else fret false.

Fixpoint ConsumeBlockComment_loop (start_line start_column : Z) (content : bool) (n : nat)
    : F unit :=
  let+ stop := ConsumeBlockComment_round start_line start_column content in
  if stop : bool then fret tt
  else match n with
       | O => fret tt
       | S n => ConsumeBlockComment_loop start_line start_column content n
       end.
Definition ConsumeBlockComment (content : bool) : F unit := fun v =>
  ((if content then RecordTo CommentBuffer else fret tt) ;+
   ConsumeBlockComment_loop (line_ v) (column_ v - 2) content (length (buffer_ v))) v.

Definition TryConsumeCommentStart : F NextCommentStatus :=
  let+ style := fgets (fun v => comment_style_ (options v)) in
  match style with
  | CPP_COMMENT_STYLE =>
      let+ slash := TryConsume "/" in
      if slash : bool then
        let+ line := TryConsume "/" in
        if line : bool then fret LINE_COMMENT
        else
          let+ block := TryConsume "*" in
          if block : bool then fret BLOCK_COMMENT
          else
            fmod (fun v => set_current
              (mkToken TYPE_SYMBOL ["/"%byte] (line_ v) (column_ v - 1) (column_ v)) v) ;+
            fret SLASH_NOT_COMMENT
      else fret NO_COMMENT
  | SH_COMMENT_STYLE =>
      let+ hash := TryConsume "#" in
      if hash : bool then fret LINE_COMMENT else fret NO_COMMENT
  end.

Definition TryConsumeWhitespace : F bool :=
  let+ o := fgets options in
  if report_newlines_ o then
    let+ b := TryConsumeOne WhitespaceNoNewline in
    if b : bool then
      ConsumeZeroOrMore WhitespaceNoNewline ;+ set_type TYPE_WHITESPACE ;+ fret true
    else fret false
  else
    let+ b := TryConsumeOne Whitespace in
    if b : bool then
      ConsumeZeroOrMore Whitespace ;+ set_type TYPE_WHITESPACE ;+ fret (report_whitespace_ o)
    else fret false.

Definition TryConsumeNewline : F bool :=
  let+ o := fgets options in
  if negb (report_whitespace_ o) || negb (report_newlines_ o) then fret false
  else
    let+ b := TryConsume NL in
    if b : bool then set_type TYPE_NEWLINE ;+ fret true else fret false.

(** *** Next *)

Definition ConsumeToken : F unit :=
  StartToken ;+
  when (TryConsumeOne Letter) (ConsumeZeroOrMore Alphanumeric ;+ set_type TYPE_IDENTIFIER)
  (when (TryConsume "0") (let+ ty := ConsumeNumber true false in set_type ty)
  (when (TryConsume ".")
     (when (TryConsumeOne Digit)
        (let+ v := fgets (fun v => v) in
         (if bool_decide (type (previous_ v) = TYPE_IDENTIFIER) &&
             (line (current_ v) =? line (previous_ v)) &&
             (column (current_ v) =? end_column (previous_ v))
          then RecordError (line_ v) (column_ v - 2) IdentifierNeedsSpace
          else fret tt) ;+
         let+ ty := ConsumeNumber false true in set_type ty)
        (set_type TYPE_SYMBOL))
  (when (TryConsumeOne Digit) (let+ ty := ConsumeNumber false false in set_type ty)
  (when (TryConsume DQUOTE) (ConsumeString DQUOTE ;+ set_type TYPE_STRING)
  (when (TryConsume QUOTE) (ConsumeString QUOTE ;+ set_type TYPE_STRING)
     (let+ v := fgets (fun v => v) in
      (if negb (Z.land (b2z (current_char_ v)) 0x80 =? 0) then
         RecordError (line_ v) (column_ v) (NonAscii (b2z (current_char_ v)))
       else fret tt) ;+
      NextChar ;+ set_type TYPE_SYMBOL)))))) ;+
  EndToken.

Definition control (c : byte) : bool := Unprintable c || eqc NUL c.

Definition Next_round : F flow :=
  StartToken ;+
  let+ report_token := or_else TryConsumeWhitespace TryConsumeNewline in
  EndToken ;+
  if report_token : bool then fret Return_true
  else
    let+ comment := TryConsumeCommentStart in
    match comment with
    | LINE_COMMENT => ConsumeLineComment false ;+ fret Continue
    | BLOCK_COMMENT => ConsumeBlockComment false ;+ fret Continue
    | SLASH_NOT_COMMENT => fret Return_true
    | NO_COMMENT =>
        let+ v := fgets (fun v => v) in
        if read_error_ v then fret Break
        else if control (current_char_ v) then
          AddError ControlCharacters ;+ ConsumeZeroOrMore control ;+ fret Continue
        else ConsumeToken ;+ fret Return_true
    end.

Definition EndOfFile : F bool :=
  fmod (fun v => set_current (mkToken TYPE_END [] (line_ v) (column_ v) (column_ v)) v) ;+
  fret false.

Fixpoint Next_loop (n : nat) : F bool :=
  let+ eof := fgets read_error_ in
  if eof : bool then EndOfFile
  else
    let+ f := Next_round in
    match f with
    | Return_true => fret true
    | Break => EndOfFile
    | Continue => match n with O => fret false | S n => Next_loop n end
    end.

Definition Next : F bool := fun v =>
  (fmod (fun v => set_previous (current_ v) v) ;+ Next_loop (length (buffer_ v))) v.

(** *** NextWithComments *)

Fixpoint NextWithComments_loop (prev_line trailing_comment_end_line : Z) (n : nat) : F bool :=
  let again :=
    match n with
    | O => fret false
    | S n => NextWithComments_loop prev_line trailing_comment_end_line n
    end in
  ConsumeZeroOrMore WhitespaceNoNewline ;+
  let+ comment := TryConsumeCommentStart in
  match comment with
  | LINE_COMMENT =>
      on_collector GetBufferForLineComment ;+ ConsumeLineComment true ;+ again
  | BLOCK_COMMENT =>
      on_collector GetBufferForBlockComment ;+ ConsumeBlockComment true ;+
      ConsumeZeroOrMore WhitespaceNoNewline ;+ TryConsume NL ;+ again
  | SLASH_NOT_COMMENT => fret true
  | NO_COMMENT =>
      let+ blank := TryConsume NL in
      if blank : bool then on_collector Flush ;+ on_collector DetachFromPrev ;+ again
      else
        let+ result := Next in
        let+ v := fgets (fun v => v) in
        (if negb result || closes_scope (current_ v) then on_collector Flush else fret tt) ;+
        (if result && ((prev_line =? line_ v) || (trailing_comment_end_line =? line_ v))
         then on_collector MaybeDetachComment else fret tt) ;+
        fret (result : bool)
  end.

Definition NextWithComments_rest (prev_line trailing_comment_end_line : Z) : F bool := fun v =>
  NextWithComments_loop prev_line trailing_comment_end_line (length (buffer_ v)) v.

Definition NextWithComments_ : F bool := fun v =>
  if bool_decide (type (current_ v) = TYPE_START) then
    (let+ ef := TryConsume xef in
     let+ bad :=
       (if ef : bool then
          let+ bom := and_then (TryConsume xbb) (TryConsume xbf) in fret (negb (bom : bool))
        else fret false) in
     if bad : bool then AddError NotUTF8 ;+ fret false
     else on_collector DetachFromPrev ;+ NextWithComments_rest (-1) (-1)) v
  else
    (ConsumeZeroOrMore WhitespaceNoNewline ;+
     let+ comment := TryConsumeCommentStart in
     match comment with
     | LINE_COMMENT =>
         let+ end_line := fgets line_ in
         on_collector GetBufferForLineComment ;+ ConsumeLineComment true ;+
         on_collector Flush ;+ NextWithComments_rest (line_ v) end_line
     | BLOCK_COMMENT =>
         on_collector GetBufferForBlockComment ;+ ConsumeBlockComment true ;+
         let+ end_line := fgets line_ in
         ConsumeZeroOrMore WhitespaceNoNewline ;+
         on_collector Flush ;+ NextWithComments_rest (line_ v) end_line
     | SLASH_NOT_COMMENT => fret true
     | NO_COMMENT =>
         let+ newline := TryConsume NL in
         if newline : bool then NextWithComments_rest (line_ v) (-1) else Next
     end) v.

Definition NextWithComments (prev_trailing : option (list byte))
    (detached : option (list (list byte))) (next_leading : option (list byte))
    : F (bool * (option (list byte) * option (list (list byte)) * option (list byte))) :=
  on_collector (fun _ => new_collector prev_trailing detached next_leading) ;+
  let+ result := NextWithComments_ in
  on_collector end_collector ;+
  let+ c := fgets collector in
  fret (result, (prev_trailing_comments_ c, detached_comments_ c, next_leading_comments_ c)).
End Flat.

(** ** Facts about consuming *)

(** Reading the flat state costs nothing. *)
Lemma fbind_fgets {A B} (h : V -> A) (k : A -> F B) v : fbind (fgets h) k v = k (h v) v.
Proof. done. Qed.

Lemma walk_app w1 w2 p : walk (w1 ++ w2) p = walk w2 (walk w1 p).
Proof. apply fold_left_app. Qed.

Lemma consume_app w1 w2 v : consume w2 (consume w1 v) = consume (w1 ++ w2) v.
Proof.
  unfold consume, recorded, append_target, pos. rewrite walk_app, length_app.
  destruct v as [? ? b ? ? ? ? k ? o ? cc ? ?]; simpl. rewrite drop_drop.
  destruct o as [[]|]; cbn -[walk drop]; rewrite <- ?surjective_pairing; f_equal;
    destruct k, cc; cbn; unfold with_text, with_buffer; cbn; by rewrite <- app_assoc.
Qed.

Lemma buffer_consume w v : buffer_ (consume w v) = drop (length w) (buffer_ v).
Proof. done. Qed.

(** A flat state whose derived fields say what [buffer_] says. *)
Definition normal (v : V) : Prop :=
  current_char_ v = hd NUL (buffer_ v) /\ buffer_pos_ v = 0 /\
  read_error_ v = bool_decide (buffer_ v = []) /\ record_start_ v = 0.

Lemma consume_nil v : normal v -> consume [] v = v.
Proof.
  intros (E1 & E2 & E3 & E4).
  destruct v as [[] ? b ? ? ? ? k ? o ? cc ? ?]; simpl in *; subst.
  unfold consume, recorded, append_target. cbn.
  destruct o as [[]|]; cbn; f_equal; destruct k, cc; unfold with_text, with_buffer; cbn;
    by rewrite app_nil_r.
Qed.

Lemma take_while_spec p l :
  exists r, l = take_while p l ++ r /\ Forall (fun c => p c = true) (take_while p l) /\
    match r with [] => True | c :: _ => p c = false end.
Proof.
  induction l as [|c l IH]; simpl; [by exists []; split_and!; try constructor|].
  destruct (p c) eqn:E; [|exists (c :: l); split_and!; [done|constructor|done]].
  destruct IH as (r & El & Hf & Hr). exists r. split_and!; [cbn; by f_equal|by constructor|done].
Qed.

Lemma take_while_app p w l :
  Forall (fun c => p c = true) w -> take_while p (w ++ l) = w ++ take_while p l.
Proof. induction 1 as [|c w Hc _ IH]; simpl; [done|]. by rewrite Hc, IH. Qed.

Lemma take_while_stop p l :
  match l with [] => True | c :: _ => p c = false end -> take_while p l = [].
Proof. destruct l as [|c l]; [done|]. simpl. by intros ->. Qed.

(** ** Movement

    [moved w v v']: from [v] to [v'] the bytes [w] were read, and recorded where
    recording goes; there may be new errors, and nothing else is new. *)
Record moved (w : list byte) (v v' : V) : Prop := {
  m_buffer : buffer_ v = w ++ buffer_ v';
  m_normal : normal v';
  m_pos : pos v' = walk w (pos v);
  m_previous : previous_ v' = previous_ v;
  m_record : record_target_ v' = record_target_ v;
  m_options : options v' = options v;
  m_current : current_ v' =
    match record_target_ v with
    | Some CurrentText => with_text (text (current_ v) ++ w) (current_ v)
    | _ => current_ v
    end;
  m_collector : collector v' =
    match record_target_ v with
    | Some CommentBuffer => with_buffer (comment_buffer_ (collector v) ++ w) (collector v)
    | _ => collector v
    end;
  m_errors : exists es, errors v' = errors v ++ es;
}.

Lemma moved_nothing v : normal v -> moved [] v v.
Proof.
  intros Hv. constructor; try done.
  - destruct (record_target_ v) as [[]|]; try done. destruct (current_ v).
    unfold with_text. cbn. by rewrite app_nil_r.
  - destruct (record_target_ v) as [[]|]; try done. destruct (collector v).
    unfold with_buffer. cbn. by rewrite app_nil_r.
  - exists []. by rewrite app_nil_r.
Qed.

Lemma moved_app w1 w2 v1 v2 v3 : moved w1 v1 v2 -> moved w2 v2 v3 -> moved (w1 ++ w2) v1 v3.
Proof.
  intros [B1 N1 P1 V1 R1 O1 C1 L1 [e1 E1]] [B2 N2 P2 V2 R2 O2 C2 L2 [e2 E2]].
  constructor; try congruence.
  - by rewrite B1, B2, <- app_assoc.
  - by rewrite P2, P1, walk_app.
  - rewrite C2, R1, C1. destruct (record_target_ v1) as [[]|]; try done.
    unfold with_text. cbn. by rewrite <- app_assoc.
  - rewrite L2, R1, L1. destruct (record_target_ v1) as [[]|]; try done.
    unfold with_buffer. cbn. by rewrite <- app_assoc.
  - exists (e1 ++ e2). by rewrite E2, E1, <- app_assoc.
Qed.

Lemma consume_moved w r v : buffer_ v = w ++ r -> moved w v (consume w v).
Proof.
  intros Hv. assert (buffer_ (consume w v) = r) as Hr.
  { unfold consume. cbn. rewrite Hv. by apply drop_app_length. }
  constructor; try done; try (unfold consume, recorded, append_target; cbn;
    destruct (record_target_ v) as [[]|] eqn:E; cbn; congruence).
  - by rewrite Hr.
  - unfold consume, recorded, append_target, pos; cbn. by rewrite <- surjective_pairing.
  - exists []. unfold consume, recorded, append_target. rewrite app_nil_r. cbn.
    by destruct (record_target_ v) as [[]|].
Qed.

Lemma error_moved e v : normal v -> moved [] v (add_error e v).
Proof.
  intros Hv. pose proof (moved_nothing v Hv) as [? ? ? ? ? ? ? ? _].
  constructor; try done. by exists [e].
Qed.

#[local] Open Scope flat_scope.

(** A scanner only moves; [(f v).1] is its result. *)
Definition scans {A} (f : F A) : Prop := forall v, normal v -> exists w, moved w v (f v).2.

Lemma scans_moved {A} (f : F A) v : scans f -> normal v -> exists w, moved w v (f v).2.
Proof. auto. Qed.

Lemma scans_fret {A} (a : A) : scans (fret a).
Proof. intros v Hv. exists []. by apply moved_nothing. Qed.
Lemma scans_fgets {A} (f : V -> A) : scans (fgets f).
Proof. intros v Hv. exists []. by apply moved_nothing. Qed.
Lemma scans_fbind {A B} (m : F A) (k : A -> F B) :
  scans m -> (forall a, scans (k a)) -> scans (fbind m k).
Proof.
  intros Hm Hk v Hv. destruct (Hm v Hv) as [w1 H1]. unfold fbind.
  destruct (m v) as [a v1]. cbn in *. destruct (Hk a v1 (m_normal _ _ _ H1)) as [w2 H2].
  exists (w1 ++ w2). by eapply moved_app.
Qed.
Lemma scans_case {A} (c : V -> bool) (f g : F A) :
  scans f -> scans g -> scans (fun v => if c v then f v else g v).
Proof. intros Hf Hg v Hv. destruct (c v); auto. Qed.
Lemma scans_if {A} (b : bool) (f g : F A) : scans f -> scans g -> scans (if b then f else g).
Proof. by destruct b. Qed.

Create HintDb scans.
#[export] Hint Resolve scans_fret scans_fgets scans_fbind scans_if : scans.

Module FlatScans.
Import Flat.

Lemma NextChar_scans : scans NextChar.
Proof.
  intros v Hv. exists (take 1 (buffer_ v)). apply (consume_moved _ (drop 1 (buffer_ v))).
  by rewrite take_drop.
Qed.
Lemma NextChar_buffer v : buffer_ (NextChar v).2 = drop 1 (buffer_ v).
Proof. unfold NextChar, fmod. cbn [snd]. rewrite buffer_consume. by destruct (buffer_ v). Qed.
Lemma AddError_scans m : scans (AddError m).
Proof. intros v Hv. exists []. by apply error_moved. Qed.
Lemma RecordError_scans l c m : scans (RecordError l c m).
Proof. intros v Hv. exists []. by apply error_moved. Qed.
#[export] Hint Resolve NextChar_scans AddError_scans RecordError_scans : scans.

Lemma TryConsumeOne_scans p : scans (TryConsumeOne p).
Proof.
  intros v Hv. unfold TryConsumeOne. destruct (p _); [by apply NextChar_scans|].
  exists []. by apply moved_nothing.
Qed.
Lemma TryConsume_scans c : scans (TryConsume c).
Proof. apply TryConsumeOne_scans. Qed.

Lemma ConsumeZeroOrMore_moved p v :
  moved (take_while p (buffer_ v)) v (ConsumeZeroOrMore p v).2.
Proof. destruct (take_while_spec p (buffer_ v)) as (r & Hr & _). by apply (consume_moved _ r). Qed.
Lemma ConsumeZeroOrMore_scans p : scans (ConsumeZeroOrMore p).
Proof. intros v Hv. eexists. apply ConsumeZeroOrMore_moved. Qed.
#[export] Hint Resolve TryConsumeOne_scans TryConsume_scans ConsumeZeroOrMore_scans : scans.

Lemma ConsumeOneOrMore_scans p e : scans (ConsumeOneOrMore p e).
Proof. apply (scans_case (fun v => p (current_char_ v))); auto with scans. Qed.
Lemma and_then_scans a b : scans a -> scans b -> scans (and_then a b).
Proof. intros. unfold and_then. auto with scans. Qed.
Lemma or_else_scans a b : scans a -> scans b -> scans (or_else a b).
Proof. intros. unfold or_else. auto with scans. Qed.
Lemma when_scans c a b : scans c -> scans a -> scans b -> scans (when c a b).
Proof. intros. unfold when. auto with scans. Qed.
#[export] Hint Resolve ConsumeOneOrMore_scans and_then_scans or_else_scans when_scans : scans.

Lemma HexDigits_scans n : scans (HexDigits n).
Proof. induction n as [|[|n] IH]; cbn [HexDigits]; auto with scans. Qed.
#[export] Hint Resolve HexDigits_scans : scans.

Lemma ConsumeEscape_scans : scans ConsumeEscape.
Proof. unfold ConsumeEscape. auto 20 with scans. Qed.
#[export] Hint Resolve ConsumeEscape_scans : scans.

Lemma ConsumeString_round_scans d : scans (ConsumeString_round d).
Proof.
  intros v. unfold ConsumeString_round. repeat case_match; apply scans_moved; auto 10 with scans.
Qed.
#[export] Hint Resolve ConsumeString_round_scans : scans.
Lemma ConsumeString_loop_scans d n : scans (ConsumeString_loop d n).
Proof. induction n as [|n IH]; cbn [ConsumeString_loop]; auto with scans. Qed.
Lemma ConsumeString_scans d : scans (ConsumeString d).
Proof. intros v. apply (ConsumeString_loop_scans d). Qed.


(** *** Progress *)

Lemma scans_shorter {A} (f : F A) v :
  scans f -> normal v -> (length (buffer_ (f v).2) <= length (buffer_ v))%nat.
Proof. intros Hf Hv. destruct (Hf v Hv) as [w Hw]. rewrite (m_buffer _ _ _ Hw), length_app. lia. Qed.

Lemma next_shorter {A} (f : F A) v :
  scans f -> normal v -> buffer_ v <> [] ->
  (length (buffer_ ((NextChar ;+ f) v).2) < length (buffer_ v))%nat.
Proof.
  intros Hf Hv Hne. destruct (NextChar_scans v Hv) as [w Hw].
  pose proof (scans_shorter f _ Hf (m_normal _ _ _ Hw)) as Hl.
  pose proof (NextChar_buffer v) as Hb. change ((NextChar ;+ f) v) with (f (NextChar v).2).
  rewrite Hb in Hl. destruct (buffer_ v); [done|]. cbn in *. rewrite drop_0 in Hl. lia.
Qed.

Lemma not_nul v c : normal v -> eqc NUL (current_char_ v) = false -> buffer_ v <> [] /\
  (eqc c (current_char_ v) = true -> hd NUL (buffer_ v) = c).
Proof.
  intros (Ec & _) Hn. split.
  - intros E. rewrite Ec, E in Hn. done.
  - intros Hc. apply bool_decide_eq_true_1 in Hc. congruence.
Qed.

Lemma ConsumeString_round_progress d v :
  normal v -> (ConsumeString_round d v).1 = false ->
  (length (buffer_ (ConsumeString_round d v).2) < length (buffer_ v))%nat.
Proof.
  intros Hv. unfold ConsumeString_round. destruct (eqc NUL _) eqn:E; [done|].
  destruct (not_nul v NUL Hv E) as [Hne _].
  repeat case_match; try done; intros _; apply next_shorter; auto with scans.
Qed.

Lemma ConsumeDecimal_scans b : scans (ConsumeDecimal b).
Proof. unfold ConsumeDecimal. auto 20 with scans. Qed.
#[export] Hint Resolve ConsumeString_scans ConsumeDecimal_scans : scans.
Lemma ConsumeNumber_scans z d : scans (ConsumeNumber z d).
Proof. unfold ConsumeNumber. auto 20 with scans. Qed.

Lemma ConsumeLineComment_scans : scans (ConsumeLineComment false).
Proof. unfold ConsumeLineComment. auto with scans. Qed.
Lemma ConsumeBlockComment_round_scans l c : scans (ConsumeBlockComment_round l c false).
Proof. unfold ConsumeBlockComment_round. auto 20 with scans. Qed.
#[export] Hint Resolve ConsumeNumber_scans ConsumeLineComment_scans ConsumeBlockComment_round_scans
  : scans.
Lemma ConsumeBlockComment_loop_scans l c n : scans (ConsumeBlockComment_loop l c false n).
Proof. induction n as [|n IH]; cbn [ConsumeBlockComment_loop]; auto with scans. Qed.
Lemma ConsumeBlockComment_scans : scans (ConsumeBlockComment false).
Proof. intros v. apply (scans_fbind _ _ (scans_fret tt) (fun _ => ConsumeBlockComment_loop_scans _ _ _)). Qed.
#[export] Hint Resolve ConsumeBlockComment_scans : scans.
End FlatScans.

(** ** Reading

    Operations that start or stop recording, or change the tokens, still do
    nothing to the text but read some of it. *)
Record read_by (w : list byte) (v v' : V) : Prop := {
  r_buffer : buffer_ v = w ++ buffer_ v';
  r_normal : normal v';
  r_pos : pos v' = walk w (pos v);
  r_options : options v' = options v;
  r_errors : exists es, errors v' = errors v ++ es;
}.

Lemma read_by_refl v v' :
  normal v' -> buffer_ v' = buffer_ v -> pos v' = pos v -> options v' = options v ->
  errors v' = errors v -> read_by [] v v'.
Proof.
  intros Hv Eb Ep Eo Ee. constructor; try done.
  exists []. by rewrite app_nil_r.
Qed.

Lemma read_by_trans w1 w2 v1 v2 v3 :
  read_by w1 v1 v2 -> read_by w2 v2 v3 -> read_by (w1 ++ w2) v1 v3.
Proof.
  intros [B1 N1 P1 O1 [e1 E1]] [B2 N2 P2 O2 [e2 E2]]. constructor; try congruence.
  - by rewrite B1, B2, <- app_assoc.
  - by rewrite P2, P1, walk_app.
  - exists (e1 ++ e2). by rewrite E2, E1, <- app_assoc.
Qed.

Lemma moved_read_by w v v' : moved w v v' -> read_by w v v'.
Proof. intros []. by constructor. Qed.

Definition reads {A} (f : F A) : Prop := forall v, normal v -> exists w, read_by w v (f v).2.
Definition keeps {A} (f : F A) : Prop := forall v, record_target_ (f v).2 = record_target_ v.

Lemma scans_reads {A} (f : F A) : scans f -> reads f.
Proof. intros Hf v Hv. destruct (Hf v Hv) as [w Hw]. exists w. by apply moved_read_by. Qed.
Lemma reads_fbind {A B} (m : F A) (k : A -> F B) :
  reads m -> (forall a, reads (k a)) -> reads (fbind m k).
Proof.
  intros Hm Hk v Hv. destruct (Hm v Hv) as [w1 H1]. unfold fbind.
  destruct (m v) as [a v1]. cbn in *. destruct (Hk a v1 (r_normal _ _ _ H1)) as [w2 H2].
  exists (w1 ++ w2). by eapply read_by_trans.
Qed.
Lemma reads_if {A} (b : bool) (f g : F A) : reads f -> reads g -> reads (if b then f else g).
Proof. by destruct b. Qed.
Lemma reads_fmod f :
  (forall v, normal v -> read_by [] v (f v)) -> reads (fmod f).
Proof. intros Hf v Hv. exists []. by apply Hf. Qed.

Lemma keeps_fret {A} (a : A) : keeps (fret a).
Proof. done. Qed.
Lemma keeps_fgets {A} (f : V -> A) : keeps (fgets f).
Proof. done. Qed.
Lemma keeps_fbind {A B} (m : F A) (k : A -> F B) :
  keeps m -> (forall a, keeps (k a)) -> keeps (fbind m k).
Proof.
  intros Hm Hk v. unfold fbind. specialize (Hm v). destruct (m v) as [a v1]. cbn in *.
  by rewrite Hk.
Qed.
Lemma keeps_if {A} (b : bool) (f g : F A) : keeps f -> keeps g -> keeps (if b then f else g).
Proof. by destruct b. Qed.

Create HintDb reads.
Create HintDb keeps.
#[export] Hint Resolve reads_fbind reads_if : reads.
#[export] Hint Extern 5 (reads _) => (apply scans_reads; solve [auto 8 with scans]) : reads.
#[export] Hint Resolve keeps_fret keeps_fgets keeps_fbind keeps_if : keeps.

Module FlatReads.
Import Flat FlatScans.

Lemma consume_keeps w v : record_target_ (consume w v) = record_target_ v.
Proof.
  unfold consume, recorded, append_target. cbn. by destruct (record_target_ v) as [[]|] eqn:E; cbn.
Qed.
Lemma NextChar_keeps : keeps NextChar.
Proof. intros v. apply consume_keeps. Qed.
Lemma ConsumeZeroOrMore_keeps p : keeps (ConsumeZeroOrMore p).
Proof. intros v. apply consume_keeps. Qed.
Lemma TryConsumeOne_keeps p : keeps (TryConsumeOne p).
Proof. intros v. unfold TryConsumeOne. destruct (p _); [apply consume_keeps|done]. Qed.
Lemma TryConsume_keeps c : keeps (TryConsume c).
Proof. apply TryConsumeOne_keeps. Qed.
Lemma AddError_keeps m : keeps (AddError m).
Proof. done. Qed.
Lemma RecordError_keeps l c m : keeps (RecordError l c m).
Proof. done. Qed.
Lemma on_collector_keeps f : keeps (on_collector f).
Proof. done. Qed.
Lemma set_type_keeps ty : keeps (set_type ty).
Proof. done. Qed.
#[export] Hint Resolve NextChar_keeps ConsumeZeroOrMore_keeps TryConsumeOne_keeps TryConsume_keeps
  AddError_keeps RecordError_keeps on_collector_keeps set_type_keeps : keeps.
Lemma and_then_keeps a b : keeps a -> keeps b -> keeps (and_then a b).
Proof. intros. unfold and_then. auto with keeps. Qed.
Lemma or_else_keeps a b : keeps a -> keeps b -> keeps (or_else a b).
Proof. intros. unfold or_else. auto with keeps. Qed.
Lemma when_keeps c a b : keeps c -> keeps a -> keeps b -> keeps (when c a b).
Proof. intros. unfold when. auto with keeps. Qed.
#[export] Hint Resolve and_then_keeps or_else_keeps when_keeps : keeps.

Lemma ConsumeOneOrMore_keeps p e : keeps (ConsumeOneOrMore p e).
Proof. intros v. unfold ConsumeOneOrMore. destruct (p _); [apply consume_keeps|done]. Qed.
#[export] Hint Resolve ConsumeOneOrMore_keeps : keeps.
Lemma HexDigits_keeps n : keeps (HexDigits n).
Proof. induction n as [|[|n] IH]; cbn [HexDigits]; auto with keeps. Qed.
#[export] Hint Resolve HexDigits_keeps : keeps.
Lemma ConsumeEscape_keeps : keeps ConsumeEscape.
Proof. unfold ConsumeEscape. auto 20 with keeps. Qed.
#[export] Hint Resolve ConsumeEscape_keeps : keeps.
Lemma ConsumeString_round_keeps d : keeps (ConsumeString_round d).
Proof.
  intros v. unfold ConsumeString_round.
  repeat case_match; match goal with |- record_target_ (?f v).2 = _ =>
    assert (keeps f) as Hk by auto 10 with keeps; apply Hk end.
Qed.
#[export] Hint Resolve ConsumeString_round_keeps : keeps.
Lemma ConsumeString_loop_keeps d n : keeps (ConsumeString_loop d n).
Proof. induction n as [|n IH]; cbn [ConsumeString_loop]; auto with keeps. Qed.
Lemma ConsumeString_keeps d : keeps (ConsumeString d).
Proof. intros v. apply ConsumeString_loop_keeps. Qed.
Lemma ConsumeDecimal_keeps b : keeps (ConsumeDecimal b).
Proof. unfold ConsumeDecimal. auto 20 with keeps. Qed.
#[export] Hint Resolve ConsumeString_keeps ConsumeDecimal_keeps : keeps.
Lemma ConsumeNumber_keeps z d : keeps (ConsumeNumber z d).
Proof. unfold ConsumeNumber. auto 20 with keeps. Qed.
#[export] Hint Resolve ConsumeNumber_keeps : keeps.

Lemma RecordTo_reads tg : reads (RecordTo tg).
Proof. apply reads_fmod. intros v (? & ? & ? & ?). by apply read_by_refl. Qed.
Lemma StopRecording_reads : reads StopRecording.
Proof. apply reads_fmod. intros v (? & ? & ? & ?). by apply read_by_refl. Qed.
Lemma on_collector_reads f : reads (on_collector f).
Proof. apply reads_fmod. intros v Hv. by apply read_by_refl. Qed.
Lemma set_type_reads ty : reads (set_type ty).
Proof. apply reads_fmod. intros v Hv. by apply read_by_refl. Qed.
#[export] Hint Resolve RecordTo_reads StopRecording_reads on_collector_reads set_type_reads : reads.
Lemma StartToken_reads : reads StartToken.
Proof.
  apply reads_fbind; [|auto with reads]. apply reads_fmod. intros v Hv. by apply read_by_refl.
Qed.
Lemma EndToken_reads : reads EndToken.
Proof.
  apply reads_fbind; [auto with reads|]. intros _. apply reads_fmod. intros v Hv. by apply read_by_refl.
Qed.
Lemma when_reads c a b : reads c -> reads a -> reads b -> reads (when c a b).
Proof. intros. unfold when. auto with reads. Qed.
#[export] Hint Resolve StartToken_reads EndToken_reads when_reads : reads.

Lemma ConsumeLineComment_reads b : reads (ConsumeLineComment b).
Proof. unfold ConsumeLineComment. destruct b; auto 10 with reads. Qed.
Lemma ConsumeBlockComment_round_reads l c b : reads (ConsumeBlockComment_round l c b).
Proof. unfold ConsumeBlockComment_round, erase_last_two. destruct b; auto 20 with reads. Qed.
#[export] Hint Resolve ConsumeLineComment_reads ConsumeBlockComment_round_reads : reads.
Lemma ConsumeBlockComment_loop_reads l c b n : reads (ConsumeBlockComment_loop l c b n).
Proof. induction n as [|n IH]; cbn [ConsumeBlockComment_loop]; auto with reads. Qed.
#[export] Hint Resolve ConsumeBlockComment_loop_reads : reads.
Lemma ConsumeBlockComment_reads b : reads (ConsumeBlockComment b).
Proof.
  intros v. unfold ConsumeBlockComment.
  assert (forall l c n, reads ((if b then RecordTo CommentBuffer else fret tt) ;+
    ConsumeBlockComment_loop l c b n)) as Hr by (destruct b; auto with reads).
  apply Hr.
Qed.
#[export] Hint Resolve ConsumeBlockComment_reads : reads.
End FlatReads.

(** ** Symbolic execution of flat programs *)

Definition fwp {A} (f : F A) (v : V) (Q : A -> V -> Prop) : Prop := Q (f v).1 (f v).2.

Lemma fwp_fret {A} (a : A) v (Q : A -> V -> Prop) : Q a v -> fwp (fret a) v Q.
Proof. done. Qed.
Lemma fwp_fgets {A} (f : V -> A) v (Q : A -> V -> Prop) : Q (f v) v -> fwp (fgets f) v Q.
Proof. done. Qed.
Lemma fwp_fbind {A B} (m : F A) (k : A -> F B) v Q :
  fwp m v (fun a v => fwp (k a) v Q) -> fwp (fbind m k) v Q.
Proof. unfold fwp, fbind. by destruct (m v). Qed.
Lemma fwp_mono {A} (f : F A) v (P Q : A -> V -> Prop) :
  fwp f v P -> (forall a v', P a v' -> Q a v') -> fwp f v Q.
Proof. unfold fwp. auto. Qed.

Lemma scans_fwp {A} (f : F A) v (Q : A -> V -> Prop) :
  scans f -> normal v -> (forall a w v', moved w v v' -> Q a v') -> fwp f v Q.
Proof. intros Hf Hv HQ. destruct (Hf v Hv) as [w Hw]. by eapply HQ. Qed.

Lemma eqc_true a c : eqc a c = true <-> c = a.
Proof. apply bool_decide_eq_true. Qed.
Lemma eqc_false a c : eqc a c = false <-> c <> a.
Proof. apply bool_decide_eq_false. Qed.

Section fwp.
Import Flat.

Lemma NextChar_fwp v (Q : unit -> V -> Prop) :
  normal v -> buffer_ v <> [] ->
  (forall c l v', buffer_ v = c :: l -> current_char_ v = c -> moved [c] v v' -> Q tt v') ->
  fwp NextChar v Q.
Proof.
  intros (Ec & _) Hne HQ. unfold fwp, NextChar, fmod. cbn [fst snd].
  destruct (buffer_ v) as [|c l] eqn:El; [done|]. cbn in Ec |- *.
  by apply (HQ c l); [done..|]; apply (consume_moved _ l).
Qed.

Lemma TryConsumeOne_fwp p v (Q : bool -> V -> Prop) :
  normal v -> p NUL = false ->
  (p (current_char_ v) = false -> Q false v) ->
  (forall c l v', buffer_ v = c :: l -> p c = true -> moved [c] v v' -> Q true v') ->
  fwp (TryConsumeOne p) v Q.
Proof.
  intros Hv Hn Hf Ht. unfold fwp, TryConsumeOne. destruct (p (current_char_ v)) eqn:Ep; [|by apply Hf].
  cbn [fst snd]. apply (NextChar_fwp v (fun _ => Q true)); [done| |].
  - destruct Hv as (Ec & _). intros E. rewrite Ec, E in Ep. cbn in Ep. congruence.
  - intros c l v' El Ec Hw. apply (Ht c l); [done| |done]. by rewrite <- Ec.
Qed.

Lemma TryConsume_fwp a v (Q : bool -> V -> Prop) :
  normal v -> a <> NUL ->
  (current_char_ v <> a -> Q false v) ->
  (forall l v', buffer_ v = a :: l -> moved [a] v v' -> Q true v') ->
  fwp (TryConsume a) v Q.
Proof.
  intros Hv Ha Hf Ht. apply TryConsumeOne_fwp; [done|by apply eqc_false; congruence| |].
  - intros Hc. apply Hf. by apply eqc_false.
  - intros c l v' El Hc. apply eqc_true in Hc. subst c. by apply (Ht l).
Qed.

Lemma ConsumeZeroOrMore_fwp p v (Q : unit -> V -> Prop) :
  normal v -> p NUL = false ->
  (forall w v', w = take_while p (buffer_ v) -> Forall (fun c => p c = true) w ->
     moved w v v' -> p (current_char_ v') = false -> Q tt v') ->
  fwp (ConsumeZeroOrMore p) v Q.
Proof.
  intros Hv Hn HQ. pose proof (FlatScans.ConsumeZeroOrMore_moved p v) as Hw.
  destruct (take_while_spec p (buffer_ v)) as (r & Er & Hf & Hr).
  apply (HQ (take_while p (buffer_ v))); try done.
  destruct (m_normal _ _ _ Hw) as (Ec & _). rewrite Ec.
  pose proof (m_buffer _ _ _ Hw) as Hb. rewrite Er in Hb at 1. apply app_inv_head in Hb.
  rewrite <- Hb. by destruct r.
Qed.

Lemma current_char_cons v c l : normal v -> buffer_ v = c :: l -> current_char_ v = c.
Proof. intros (Ec & _) El. by rewrite Ec, El. Qed.
End fwp.

(** ** Block comments *)

Lemma slash_star_stop c :
  negb (block_comment_stop c) = false -> c <> NL -> c <> "*"%byte -> c <> "/"%byte -> c = NUL.
Proof.
  unfold block_comment_stop, eqc. intros Hc%negb_false_iff ???.
  repeat (apply orb_true_iff in Hc; destruct Hc as [Hc|Hc]); by apply bool_decide_eq_true_1 in Hc.
Qed.

Section block_comments.
Import Flat FlatScans FlatReads.

Lemma keeps_fwp {A} (f : F A) v (Q : A -> V -> Prop) :
  keeps f -> (forall a v', record_target_ v' = record_target_ v -> Q a v') -> fwp f v Q.
Proof. intros Hf HQ. apply HQ, Hf. Qed.

Lemma reads_fwp {A} (f : F A) v (Q : A -> V -> Prop) :
  reads f -> normal v ->
  (forall a v', normal v' -> (length (buffer_ v') <= length (buffer_ v))%nat -> Q a v') ->
  fwp f v Q.
Proof.
  intros Hf Hv HQ. destruct (Hf v Hv) as [w Hw]. apply HQ; [apply Hw|].
  rewrite (r_buffer _ _ _ Hw), length_app. lia.
Qed.

Lemma moved_shorter c w v v' :
  moved (c :: w) v v' -> (length (buffer_ v') < length (buffer_ v))%nat.
Proof. intros Hw. rewrite (m_buffer _ _ _ Hw). cbn. rewrite length_app. lia. Qed.

(** Recording goes on as long as the comment does. *)
Lemma ConsumeBlockComment_round_record l c v :
  record_target_ v = Some CommentBuffer ->
  fwp (ConsumeBlockComment_round l c true) v (fun stop v' =>
    record_target_ v' = if stop then None else Some CommentBuffer).
Proof.
  intros Hv. unfold ConsumeBlockComment_round.
  apply fwp_fbind, keeps_fwp; [auto with keeps|]. intros _ v1 E1.
  apply fwp_fbind, keeps_fwp; [auto with keeps|]. intros [] v2 E2.
  - do 2 apply fwp_fbind. cbn [fwp]. apply (keeps_fwp (ConsumeZeroOrMore _)); [auto with keeps|].
    intros _ v3 E3. apply fwp_fbind, keeps_fwp; [auto with keeps|]. intros [] v4 E4; [|done].
    apply fwp_fret. by rewrite E4, E3.
  - apply fwp_fbind, keeps_fwp; [auto with keeps|]. intros [] v3 E3; [done|].
    apply fwp_fbind, keeps_fwp; [auto with keeps|]. intros [] v4 E4; [unfold fwp; cbn; congruence|].
    apply fwp_fbind, fwp_fgets. destruct (eqc NUL (current_char_ v4)); unfold fwp; cbn; congruence.
Qed.

Lemma comment_end_recorded v :
  normal v -> record_target_ v = Some CommentBuffer ->
  fwp (and_then (TryConsume "*") (TryConsume "/")) v (fun stop v' =>
    stop = true -> 2 <= zlen (comment_buffer_ (collector v'))).
Proof.
  intros Hv Hr. apply fwp_fbind, TryConsume_fwp; [done..|by intros|intros r v1 _ Hw1].
  apply TryConsume_fwp; [apply Hw1|done|by intros|intros r' v2 _ Hw2 _].
  rewrite (m_collector _ _ _ Hw2), (m_record _ _ _ Hw1), Hr, (m_collector _ _ _ Hw1), Hr.
  cbn. rewrite !zlen_app. pose proof (zlen_nonneg (comment_buffer_ (collector v))).
  change (zlen ["*"%byte]) with 1. change (zlen ["/"%byte]) with 1. lia.
Qed.

Lemma ConsumeBlockComment_round_progress l c b v :
  normal v ->
  fwp (ConsumeBlockComment_round l c b) v (fun stop v' =>
    stop = false -> (length (buffer_ v') < length (buffer_ v))%nat).
Proof.
  intros Hv. unfold ConsumeBlockComment_round.
  apply fwp_fbind, ConsumeZeroOrMore_fwp; [done..|]. intros w v1 _ _ Hw Hstop.
  assert (length (buffer_ v1) <= length (buffer_ v))%nat as Hl1
    by (rewrite (m_buffer _ _ _ Hw), length_app; lia).
  pose proof (m_normal _ _ _ Hw) as Hn1. clear Hw.
  assert (forall (f : F bool) c v2, reads f -> moved [c] v1 v2 ->
    fwp f v2 (fun stop v' => stop = false -> (length (buffer_ v') < length (buffer_ v))%nat)) as Hrest.
  { intros f c' v2 Hf Hw2. apply reads_fwp; [done|apply Hw2|].
    intros a v' _ Hl _. pose proof (moved_shorter _ _ _ _ Hw2). lia. }
  apply fwp_fbind, TryConsume_fwp; [done..|intros Hc1|intros r v2 _ Hw2].
  2: { apply (Hrest _ NL); [destruct b; auto 10 with reads|done]. }
  apply fwp_fbind, fwp_fbind, TryConsume_fwp; [done..|intros Hc2|intros r v2 _ Hw2].
  2: { apply (fwp_mono (TryConsume "/")) with (P := fun stop v' => normal v' /\
         (length (buffer_ v') < length (buffer_ v))%nat).
       - apply reads_fwp; [auto with reads|apply Hw2|]. intros a v' Hn' Hl.
         pose proof (moved_shorter _ _ _ _ Hw2). split; [done|lia].
       - intros stop v' [Hn' Hl']. destruct stop.
         + apply reads_fwp; [unfold erase_last_two; destruct b; auto 10 with reads|done|]. intros. lia.
         + apply reads_fwp; [unfold and_then; destruct b; auto 20 with reads|done|]. intros. lia. }
  apply fwp_fret, fwp_fbind, fwp_fbind, TryConsume_fwp; [done..|intros Hc3|intros r v2 _ Hw2].
  - apply fwp_fret, fwp_fbind, fwp_fgets.
    rewrite (slash_star_stop (current_char_ v1)) by done.
    apply fwp_fbind. cbn. destruct b; done.
  - apply fwp_fgets. destruct (eqc "*" (current_char_ v2)).
    + by apply (Hrest _ "/"%byte); [auto with reads|].
    + apply (Hrest _ "/"%byte); [destruct b; auto 20 with reads|done].
Qed.
End block_comments.

(** ** The parts of [Next] *)

Section next.
Import Flat FlatScans FlatReads.

Definition slash_token (v : V) : Token :=
  mkToken TYPE_SYMBOL ["/"%byte] (line_ v) (column_ v - 1) (column_ v).

(** The characters that start a comment. *)
Definition comment_start (style : CommentStyle) (st : NextCommentStatus) (w : list byte) : Prop :=
  st = LINE_COMMENT /\
    (style = CPP_COMMENT_STYLE /\ w = ["/"; "/"]%byte \/ style = SH_COMMENT_STYLE /\ w = ["#"]%byte) \/
  st = BLOCK_COMMENT /\ style = CPP_COMMENT_STYLE /\ w = ["/"; "*"]%byte.

Lemma TryConsumeCommentStart_fwp v (Q : NextCommentStatus -> V -> Prop) :
  normal v -> Q NO_COMMENT v ->
  (forall st w v', comment_start (comment_style_ (options v)) st w -> moved w v v' -> Q st v') ->
  (forall v1, moved ["/"]%byte v v1 -> Q SLASH_NOT_COMMENT (set_current (slash_token v1) v1)) ->
  fwp TryConsumeCommentStart v Q.
Proof.
  intros Hv Hno Hcomment Hslash. apply fwp_fbind, fwp_fgets.
  destruct (comment_style_ (options v)).
  - apply fwp_fbind, TryConsume_fwp; [done..|intros r v1 _ Hw1].
    pose proof (m_normal _ _ _ Hw1) as Hn1.
    apply fwp_fbind, TryConsume_fwp; [done..|intros _|intros r' v2 _ Hw2].
    + apply fwp_fbind, TryConsume_fwp; [done..|intros _|intros r' v2 _ Hw2].
      * by apply Hslash.
      * apply (Hcomment BLOCK_COMMENT ["/"; "*"]%byte v2 ltac:(by right)). by eapply (moved_app ["/"%byte]).
    + apply (Hcomment LINE_COMMENT ["/"; "/"]%byte v2 ltac:(left; auto)). by eapply (moved_app ["/"%byte]).
  - apply fwp_fbind, TryConsume_fwp; [done..|intros r v1 _ Hw1].
    by apply (Hcomment LINE_COMMENT _ v1 ltac:(left; auto)).
Qed.

Lemma slash_keeps : keeps (fmod (fun v => set_current (slash_token v) v)).
Proof. done. Qed.
Lemma TryConsumeCommentStart_keeps : keeps TryConsumeCommentStart.
Proof.
  apply keeps_fbind; [auto with keeps|]. intros []; auto 10 using slash_keeps with keeps.
Qed.

Lemma comment_start_nonempty style st w : comment_start style st w -> w <> [].
Proof. by intros [[_ [[_ ->]|[_ ->]]]|(_ & _ & ->)]. Qed.

Lemma TryConsumeOne_false p v :
  (TryConsumeOne p v).1 = false -> (TryConsumeOne p v).2 = v.
Proof. unfold TryConsumeOne. by destruct (p _). Qed.

Lemma TryConsumeWhitespace_reads : reads TryConsumeWhitespace.
Proof. unfold TryConsumeWhitespace. auto 10 with reads. Qed.
Lemma TryConsumeNewline_reads : reads TryConsumeNewline.
Proof. unfold TryConsumeNewline. auto 10 with reads. Qed.

Lemma scans_keeps_at {A} (f : F A) v : scans f -> normal v -> record_target_ (f v).2 = record_target_ v.
Proof. intros Hf Hv. destruct (Hf v Hv) as [w Hw]. apply Hw. Qed.

Lemma ConsumeToken_reads : reads ConsumeToken.
Proof.
  unfold ConsumeToken. apply reads_fbind; [auto with reads|intros _].
  apply reads_fbind; [|auto with reads].
  repeat apply when_reads; auto 10 with reads.
Qed.

Lemma EndToken_record {A} (f : F A) v : fwp (f ;+ EndToken) v (fun _ v' => record_target_ v' = None).
Proof. by apply fwp_fbind. Qed.

Lemma ConsumeToken_record v : record_target_ (ConsumeToken v).2 = None.
Proof.
  apply (fwp_fbind StartToken _ v (fun _ v' => record_target_ v' = None)).
  apply EndToken_record.
Qed.

(** The first half of a round: white space. *)
Definition Next_space : F bool :=
  StartToken ;+
  let+ report_token := or_else TryConsumeWhitespace TryConsumeNewline in
  EndToken ;+ fret (report_token : bool).

Lemma or_else_reads a b : reads a -> reads b -> reads (or_else a b).
Proof. intros. unfold or_else. auto with reads. Qed.

Lemma Next_space_reads : reads Next_space.
Proof.
  apply reads_fbind; [auto with reads|intros _].
  apply reads_fbind; [apply or_else_reads;
    [apply TryConsumeWhitespace_reads|apply TryConsumeNewline_reads]|].
  intros. auto with reads.
Qed.

Lemma Next_space_record v : record_target_ (Next_space v).2 = None.
Proof. unfold Next_space, fbind. by destruct (StartToken v), (or_else _ _ _). Qed.

(** The second half. *)
Definition Next_rest : F flow :=
  let+ comment := TryConsumeCommentStart in
  match comment with
  | LINE_COMMENT => ConsumeLineComment false ;+ fret Continue
  | BLOCK_COMMENT => ConsumeBlockComment false ;+ fret Continue
  | SLASH_NOT_COMMENT => fret Return_true
  | NO_COMMENT =>
      let+ v := fgets (fun v => v) in
      if read_error_ v then fret Break
      else if control (current_char_ v) then
        AddError ControlCharacters ;+ ConsumeZeroOrMore control ;+ fret Continue
      else ConsumeToken ;+ fret Return_true
  end.

Lemma Next_round_halves v :
  Next_round v =
  (let+ report_token := Next_space in
   if report_token : bool then fret Return_true else Next_rest) v.
Proof.
  unfold Next_round, Next_space, Next_rest, fbind. destruct (StartToken v) as [_ v1].
  destruct (or_else _ _ v1) as [b v2]. by destruct (EndToken v2).
Qed.

Lemma Next_rest_done v :
  normal v -> record_target_ v = None ->
  fwp Next_rest v (fun f v' => normal v' /\ record_target_ v' = None /\
    (exists w, read_by w v v' /\ (f = Continue -> w <> []))).
Proof.
  intros Hv Hr. apply fwp_fbind, TryConsumeCommentStart_fwp; [done|..].
  - apply fwp_fbind, fwp_fgets. destruct (read_error_ v) eqn:Ee.
    + split; [done|]. split; [done|]. exists []. split; [by apply read_by_refl|done].
    + destruct (control (current_char_ v)) eqn:Ec.
      * apply fwp_fbind. unfold AddError, fwp at 1, fmod. cbn [fst snd].
        set (v1 := add_error _ v). assert (moved [] v v1) as Hw1 by by apply error_moved.
        pose proof (ConsumeZeroOrMore_moved control v1) as Hw2.
        apply fwp_fbind. unfold fwp at 1. apply fwp_fret.
        pose proof (moved_app _ _ _ _ _ Hw1 Hw2) as Hw.
        split; [apply Hw|]. split; [by rewrite (m_record _ _ _ Hw)|].
        eexists. split; [by apply moved_read_by|]. intros _. destruct Hv as (Ecc & _ & Eee & _).
        rewrite Eee in Ee. apply bool_decide_eq_false in Ee. cbn.
        destruct (buffer_ v) as [|c l]; [done|]. cbn in Ecc |- *. rewrite <- Ecc, Ec. done.
      * apply fwp_fbind. destruct (ConsumeToken_reads v Hv) as [w Hw].
        split; [apply Hw|]. split; [apply ConsumeToken_record|]. by exists w.
  - intros st w v1 Hst Hw. pose proof (comment_start_nonempty _ _ _ Hst) as Hne.
    assert (forall f : F unit, scans f -> fwp (f ;+ fret Continue) v1 (fun f v' => normal v' /\
      record_target_ v' = None /\ (exists w, read_by w v v' /\ (f = Continue -> w <> [])))) as Hf.
    { intros f Hf. apply fwp_fbind. apply scans_fwp; [done|apply Hw|]. intros [] w' v2 Hw'.
      pose proof (moved_app _ _ _ _ _ Hw Hw') as Hww. apply fwp_fret.
      split; [apply Hww|]. split; [by rewrite (m_record _ _ _ Hww)|].
      eexists. split; [by apply moved_read_by|]. intros _ [? _]%app_eq_nil. done. }
    destruct Hst as [[-> _]|[-> _]]; apply Hf; auto with scans.
  - intros v1 Hw. apply fwp_fret. split; [apply Hw|].
    split; [cbn; by rewrite (m_record _ _ _ Hw)|]. exists ["/"%byte]. split; [|done].
    by apply moved_read_by in Hw as [].
Qed.

Lemma Next_round_done v :
  normal v ->
  fwp Next_round v (fun f v' => record_target_ v' = None /\
    (exists w, read_by w v v' /\ (f = Continue -> w <> []))).
Proof.
  intros Hv. unfold fwp. rewrite Next_round_halves. fold (fwp (let+ report_token := Next_space in
    if report_token : bool then fret Return_true else Next_rest) v (fun f v' =>
      record_target_ v' = None /\ (exists w, read_by w v v' /\ (f = Continue -> w <> [])))).
  apply fwp_fbind. unfold fwp at 1. pose proof (Next_space_record v) as Hr.
  destruct (Next_space_reads v Hv) as [w1 H1]. destruct (Next_space v) as [[] v1]; cbn [fst snd] in *.
  - apply fwp_fret. split; [done|]. by exists w1.
  - eapply fwp_mono; [by apply Next_rest_done; [apply H1|]|].
    intros f v2 (_ & Hr2 & w2 & H2 & Hne). split; [done|]. exists (w1 ++ w2).
    split; [by eapply read_by_trans|]. intros Hf [_ ?]%app_eq_nil. by apply Hne.
Qed.

Lemma EndOfFile_reads : reads EndOfFile.
Proof.
  apply reads_fbind; [|auto with reads]. apply reads_fmod. intros v Hv. by apply read_by_refl.
Qed.

Lemma read_by_shorter w v v' :
  read_by w v v' -> w <> [] -> (length (buffer_ v') < length (buffer_ v))%nat.
Proof. intros Hw Hne. rewrite (r_buffer _ _ _ Hw), length_app. destruct w; [done|cbn; lia]. Qed.

Lemma Next_loop_done n v :
  normal v -> record_target_ v = None ->
  fwp (Next_loop n) v (fun _ v' => record_target_ v' = None /\ exists w, read_by w v v').
Proof.
  revert v. induction n as [|n IH]; intros v Hv Hr; cbn [Next_loop]; apply fwp_fbind, fwp_fgets;
    (destruct (read_error_ v); [split; [done|apply (EndOfFile_reads v Hv)]|]);
    apply fwp_fbind; (eapply fwp_mono; [by apply Next_round_done|]);
    intros f v1 (Hr1 & w1 & H1 & _); pose proof (r_normal _ _ _ H1) as Hn1; destruct f;
    try (apply fwp_fret; split; [done|by exists w1]);
    try (split; [done|]; destruct (EndOfFile_reads v1 Hn1) as [w2 H2]; exists (w1 ++ w2);
         by eapply read_by_trans).
  eapply fwp_mono; [by apply IH|]. intros b v2 (Hr2 & w2 & H2). split; [done|].
  exists (w1 ++ w2). by eapply read_by_trans.
Qed.

Lemma Next_done v :
  normal v -> record_target_ v = None ->
  fwp Next v (fun _ v' => record_target_ v' = None /\ exists w, read_by w v v').
Proof.
  intros Hv Hr.
  destruct (Next_loop_done (length (buffer_ v)) (set_previous (current_ v) v) Hv Hr)
    as (Hr' & w & [? ? ? ? ?]).
  split; [done|]. by exists w.
Qed.

(** ** Comments that are collected *)

Lemma ConsumeLineComment_record b v :
  record_target_ v = None -> record_target_ (ConsumeLineComment b v).2 = None.
Proof.
  intros Hr. destruct b.
  - unfold ConsumeLineComment, fbind. destruct (RecordTo _ v) as [_ v1].
    destruct (ConsumeZeroOrMore _ v1) as [_ v2]. by destruct (TryConsume _ v2).
  - unfold ConsumeLineComment.
    assert (keeps (fret tt ;+ ConsumeZeroOrMore not_line_end ;+ TryConsume NL ;+ fret tt)) as Hk
      by auto with keeps. by rewrite (Hk v).
Qed.

Lemma ConsumeBlockComment_loop_record l c n v :
  normal v -> (length (buffer_ v) <= n)%nat -> record_target_ v = Some CommentBuffer ->
  record_target_ (ConsumeBlockComment_loop l c true n v).2 = None.
Proof.
  revert v. induction n as [|n IH]; intros v Hv Hn Hr;
    change (fwp (ConsumeBlockComment_loop l c true 0) v (fun _ v' => record_target_ v' = None)) ||
    change (fwp (ConsumeBlockComment_loop l c true (S n)) v (fun _ v' => record_target_ v' = None));
    cbn [ConsumeBlockComment_loop]; apply fwp_fbind;
    pose proof (ConsumeBlockComment_round_record l c v Hr) as H1;
    pose proof (ConsumeBlockComment_round_progress l c true v Hv) as H2;
    destruct (ConsumeBlockComment_round_reads l c true v Hv) as [w H3];
    unfold fwp in H1, H2 |- *; destruct (ConsumeBlockComment_round l c true v) as [[] v1];
    cbn [fst snd] in *; try done; specialize (H2 eq_refl); [lia|].
  apply IH; [apply H3|lia|done].
Qed.

Lemma ConsumeBlockComment_record b v :
  normal v -> record_target_ v = None -> record_target_ (ConsumeBlockComment b v).2 = None.
Proof.
  intros Hv Hr. destruct b.
  - destruct (RecordTo_reads CommentBuffer v Hv) as [w Hw].
    change ((ConsumeBlockComment true v).2) with
      ((ConsumeBlockComment_loop (line_ v) (column_ v - 2) true (length (buffer_ v))
          (RecordTo CommentBuffer v).2).2).
    apply ConsumeBlockComment_loop_record; [apply Hw|done|done].
  - destruct (ConsumeBlockComment_scans v Hv) as [w Hw]. by rewrite (m_record _ _ _ Hw).
Qed.

(** An operation that reads [w] and leaves no recording open. *)
Definition quiet {A} (f : F A) : Prop := forall v, normal v -> record_target_ v = None ->
  fwp f v (fun _ v' => record_target_ v' = None /\ exists w, read_by w v v').

Lemma quiet_reads {A} (f : F A) :
  reads f -> (forall v, normal v -> record_target_ v = None -> record_target_ (f v).2 = None) -> quiet f.
Proof. intros Hf Hr v Hv Ev. split; [auto|by apply Hf]. Qed.
Lemma quiet_keeps {A} (f : F A) : reads f -> keeps f -> quiet f.
Proof. intros Hf Hk. apply quiet_reads; [done|]. intros v _ <-. apply Hk. Qed.
Lemma quiet_fbind {A B} (m : F A) (k : A -> F B) :
  quiet m -> (forall a, quiet (k a)) -> quiet (fbind m k).
Proof.
  intros Hm Hk v Hv Hr. apply fwp_fbind. eapply fwp_mono; [by apply Hm|].
  intros a v1 (Hr1 & w1 & H1). eapply fwp_mono; [by apply Hk; [apply H1|]|].
  intros b v2 (Hr2 & w2 & H2). split; [done|]. exists (w1 ++ w2). by eapply read_by_trans.
Qed.
Lemma quiet_fwp {A} (f : F A) v (Q : A -> V -> Prop) :
  quiet f -> normal v -> record_target_ v = None ->
  (forall a w v', normal v' -> record_target_ v' = None -> read_by w v v' -> Q a v') -> fwp f v Q.
Proof.
  intros Hf Hv Hr HQ. eapply fwp_mono; [by apply Hf|]. intros a v' (Hr' & w & Hw).
  eapply HQ; try done. apply Hw.
Qed.

Lemma ConsumeZeroOrMore_quiet p : quiet (ConsumeZeroOrMore p).
Proof. apply quiet_keeps; auto with reads keeps. Qed.
Lemma TryConsume_quiet c : quiet (TryConsume c).
Proof. apply quiet_keeps; auto with reads keeps. Qed.
Lemma on_collector_quiet f : quiet (on_collector f).
Proof. apply quiet_keeps; auto with reads keeps. Qed.
Lemma ConsumeLineComment_quiet b : quiet (ConsumeLineComment b).
Proof. apply quiet_reads; [auto with reads|]. intros. by apply ConsumeLineComment_record. Qed.
Lemma ConsumeBlockComment_quiet b : quiet (ConsumeBlockComment b).
Proof. apply quiet_reads; [auto with reads|]. intros. by apply ConsumeBlockComment_record. Qed.
Lemma Next_quiet : quiet Next.
Proof. intros v Hv Hr. by apply Next_done. Qed.
Lemma AddError_quiet m : quiet (AddError m).
Proof. apply quiet_keeps; auto with reads keeps. Qed.
Lemma fgets_quiet {A} (f : V -> A) : quiet (fgets f).
Proof. apply quiet_keeps; auto with reads keeps. Qed.
Lemma fret_quiet {A} (a : A) : quiet (fret a).
Proof. apply quiet_keeps; auto with reads keeps. Qed.
Lemma if_quiet {A} (b : bool) (f g : F A) : quiet f -> quiet g -> quiet (if b then f else g).
Proof. by destruct b. Qed.
Lemma TryConsumeCommentStart_quiet : quiet TryConsumeCommentStart.
Proof.
  apply quiet_keeps; [|apply TryConsumeCommentStart_keeps].
  intros v Hv. apply (TryConsumeCommentStart_fwp v (fun _ v' => exists w, read_by w v v'));
    [done|exists []; by apply read_by_refl| |].
  - intros st w v' _ Hw. exists w. by apply moved_read_by.
  - intros v1 Hw. exists ["/"%byte]. by apply moved_read_by in Hw as [].
Qed.
End next.

Create HintDb quiet.
#[export] Hint Resolve quiet_fbind ConsumeZeroOrMore_quiet TryConsume_quiet on_collector_quiet
  ConsumeLineComment_quiet ConsumeBlockComment_quiet Next_quiet AddError_quiet fgets_quiet fret_quiet
  if_quiet TryConsumeCommentStart_quiet : quiet.
