(* ===== verification/TokenizerRefine.v ===== *)
(** * The tokenizer computes the flat lexer

    [view] forgets the buffers of a tokenizer. Each operation of [Tokenizer.v]
    does to the state what the operation of [TokenizerFlat.v] of the same name
    does to its view. *)

From Stdlib Require Import Strings.Byte.
From S2P Require Import Prelude ZeroCopyStream Tokenizer TokenizerFlat.

#[local] Open Scope byte_scope.
#[local] Open Scope Z_scope.
#[local] Open Scope flat_scope.

(** ** The invariant *)

Section refine.
Context {S : Type} `{ZeroCopyInputStreamOk S}.
Notation TM := (M (t S)).
Implicit Types (s : t S) (v : V).

Definition pending (s : t S) : list byte :=
  match record_target_ s with
  | None => []
  | Some _ => zdrop (record_start_ s) (ztake (buffer_pos_ s) (buffer_ s))
  end.

Definition view (s : t S) : V :=
  let s' := default s (append_target (pending s) s) in
  mk tt (current_char_ s) (rest s) 0 (read_error_ s) (line_ s) (column_ s) (current_ s')
    (previous_ s) (record_target_ s) 0 (collector s') (errors s) (options s).

Definition source_ok (s : t S) : Prop :=
  stream_ok (input_ s) /\
  if read_error_ s then
    buffer_ s = [] /\ buffer_pos_ s = 0 /\ current_char_ s = NUL /\ content (input_ s) = []
  else
    0 <= buffer_pos_ s < buffer_size_ s /\
    buffer_ s !! Z.to_nat (buffer_pos_ s) = Some (current_char_ s) /\
    buffer_ s `suffix_of` backable (input_ s).

Definition record_ok (s : t S) : Prop :=
  is_Some (record_target_ s) -> 0 <= record_start_ s <= buffer_pos_ s.

(** The line and the column stay in range when the rest is read. *)
Definition in_bounds (v : V) : Prop :=
  0 <= line_ v /\ 0 <= column_ v /\ line_ v + zlen (buffer_ v) <= INT_MAX /\
  column_ v + 8 * zlen (buffer_ v) <= INT_MAX.

Definition inv (s : t S) : Prop := source_ok s /\ record_ok s /\ in_bounds (view s).

(** [m] does from [s] what [f] does from the view of [s]. *)
Definition computes {A} (m : TM A) (f : F A) (v : V) : Prop :=
  forall s, inv s -> view s = v -> wp m s (fun a s' => inv s' /\ (a, view s') = f v).

Lemma rest_source s :
  source_ok s -> normal (view s).
Proof.
  intros [_ Hs]. unfold normal, view, rest; cbn. unfold rest.
  destruct (read_error_ s); [destruct Hs as (_ & _ & -> & _); done|].
  destruct Hs as (Hpos & Hc & _). split_and!; try done.
  - destruct (zdrop (buffer_pos_ s) (buffer_ s)) as [|c l] eqn:E.
    + exfalso. unfold buffer_size_ in *. assert (zlen (zdrop (buffer_pos_ s) (buffer_ s)) = 0) as Hz by by rewrite E.
      rewrite zlen_zdrop in Hz by lia. lia.
    + simpl. unfold zdrop in E. rewrite <- (Nat.add_0_r (Z.to_nat _)), <- lookup_drop in Hc.
      rewrite E in Hc. by simplify_eq/=.
  - rewrite bool_decide_eq_false_2; [done|]. intros [E _]%app_eq_nil.
    assert (zlen (zdrop (buffer_pos_ s) (buffer_ s)) = 0) as Hz by by rewrite E.
    unfold buffer_size_ in *. rewrite zlen_zdrop in Hz by lia. lia.
Qed.

(** ** The primitives *)

Lemma append_target_some w s :
  is_Some (record_target_ s) -> append_target w s = Some (default s (append_target w s)).
Proof. unfold append_target. destruct (record_target_ s) as [[]|]; intros [? ?]; done. Qed.

Lemma append_recorded_wp stop s :
  is_Some (record_target_ s) -> 0 <= record_start_ s <= stop -> stop <= buffer_size_ s ->
  wp (append_recorded stop) s (fun _ s' => s' =
    default s (append_target (ztake (stop - record_start_ s) (zdrop (record_start_ s) (buffer_ s))) s)).
Proof.
  intros Ht Hs Hstop. unfold append_recorded. wp_steps.
  unfold buffer_bytes. case_cmp; try lia. simpl.
  eapply wp_lift; [done|]. wp_steps. eapply wp_lift; [by apply append_target_some|]. done.
Qed.

Lemma Refresh_loop_wp n s :
  stream_ok (input_ s) -> (bound (input_ s) <= n)%nat ->
  wp (Refresh_loop n) s (fun r s' => exists i, s' = set_input i s /\ stream_ok i /\
    match r with
    | Some c => c <> [] /\ content (input_ s) = c ++ content i /\ c `suffix_of` backable i
    | None => content (input_ s) = [] /\ content i = []
    end).
Proof.
  revert s. induction n as [|n IH]; intros s Hs Hn; cbn [Refresh_loop]; wp_steps;
    (eapply wp_mono with (P := fun r s' => exists i, s' = set_input i s /\ stream_ok i /\
       match r with
       | Some c => content (input_ s) = c ++ content i /\ c `suffix_of` backable i /\
                   (bound i < bound (input_ s))%nat
       | None => content (input_ s) = [] /\ content i = []
       end);
     [pose proof (next_ok (input_ s) Hs) as Hnext; unfold wp, on_input in *;
      destruct (ZeroCopyStream.Next (input_ s)) as [[r i]|]; [|done];
      destruct Hnext as [Hi Hr]; exists i; destruct r; [|by destruct Hr as (? & ? & _)];
      by destruct Hr as (? & ? & _ & ?)|]); cbv beta;
    intros r s' (i & -> & Hi & Hr).
  - destruct r as [[|c l]|]; [lia| |].
    + apply wp_ret. exists i. destruct Hr as (? & ? & _). done.
    + apply wp_ret. by exists i.
  - destruct r as [[|c l]|].
    + destruct Hr as (Ec & _ & Hb). wp_use IH; [done|simpl; lia|].
      intros r s' (i' & -> & Hi' & Hr). exists i'. split; [done|]. split; [done|].
      simpl in *. by rewrite Ec.
    + apply wp_ret. exists i. destruct Hr as (? & ? & _). done.
    + apply wp_ret. by exists i.
Qed.

(** A new buffer behind one that is read to its end. *)
Lemma Refresh_rest_wp s :
  stream_ok (input_ s) -> read_error_ s = false -> buffer_pos_ s = buffer_size_ s ->
  (is_Some (record_target_ s) -> 0 <= record_start_ s < buffer_size_ s) ->
  wp Refresh s (fun _ s' => source_ok s' /\ record_ok s' /\ view s' = consume [] (view s)).
Proof.
  intros Hs He Hp Ht. unfold Refresh. wp_steps. rewrite He. apply wp_bind.
  set (w := zdrop (record_start_ s) (buffer_ s)).
  eapply wp_mono with (P := fun _ s' => s' =
    set_record (record_target_ s) (if record_target_ s then 0 else record_start_ s)
      (default s (append_target w s))).
  { destruct (record_target_ s) as [tg|] eqn:Et.
    - specialize (Ht ltac:(done)). rewrite bool_decide_eq_true_2 by done.
      destruct (Z.ltb_spec (record_start_ s) (buffer_size_ s)); [|lia]. cbn [andb].
      apply wp_bind. wp_use append_recorded_wp; [by rewrite Et|lia|lia|].
      intros _ s' ->. rewrite ztake_all by (unfold buffer_size_ in *; rewrite zlen_zdrop by lia; lia).
      fold w. apply wp_modS. unfold append_target. rewrite Et. by destruct tg; simpl; rewrite Et.
    - rewrite bool_decide_eq_false_2 by (by intros [? ?]). apply wp_ret.
      unfold append_target. rewrite Et. simpl. destruct s; simpl in *; by subst. }
  intros _ s' ->. wp_steps.
  eapply wp_mono; [apply Refresh_loop_wp|].
  { simpl. unfold append_target. destruct (record_target_ s) as [[]|]; done. }
  { simpl. unfold append_target. destruct (record_target_ s) as [[]|]; done. }
  destruct s as [i ch b bp re ln co k pk tg st cc er op]; simpl in *. subst re.
  assert (Hpend : match tg with None => [] | Some _ => zdrop st (ztake bp b) end =
                  if tg then w else []).
  { destruct tg; [|done]. unfold buffer_size_ in *; simpl in *. by rewrite ztake_all by lia. }
  assert (Hrest : zdrop bp b = []) by (apply zdrop_all; unfold buffer_size_ in Hp; simpl in Hp; lia).
  cbv beta. intros r s' (i' & -> & Hi' & Hr). destruct r as [c|].
  - destruct Hr as (Hc & Ec & Hb). destruct c as [|c l]; [done|]. wp_steps.
    eapply wp_lift; [done|]. apply wp_modS.
    assert (content i = (c :: l) ++ content i') as Eci by (by destruct tg as [[]|]). clear Ec.
    split; [|split].
    + split; [done|]. destruct tg as [[]|]; cbn; unfold buffer_size_; cbn; rewrite zlen_cons;
        pose proof (zlen_nonneg l); split_and!; done || lia.
    + unfold record_ok. destruct tg as [[]|]; cbn; intros Htg; [lia..|]. by destruct Htg.
    + unfold view, pending, rest, consume, recorded, pos; cbn [record_target_].
      destruct tg as [[]|]; cbn in Hpend |- *; rewrite ?Hpend, Hrest, Eci; cbn; unfold with_text, with_buffer; cbn;
        by rewrite ?app_nil_r.
  - destruct Hr as [Ec Ec']. wp_steps.
    assert (content i = []) as Eci by (by destruct tg as [[]|]). clear Ec.
    split; [|split].
    + split; [done|]. destruct tg as [[]|]; cbn; done.
    + unfold record_ok. destruct tg as [[]|]; cbn; intros Htg; [lia..|]. by destruct Htg.
    + unfold view, pending, rest, consume, recorded, pos; cbn [record_target_].
      destruct tg as [[]|]; cbn in Hpend |- *; rewrite ?Hpend, Hrest, Eci; cbn; unfold with_text, with_buffer; cbn;
        by rewrite ?app_nil_r.
Qed.

(** The buffer behind the current character. *)
Lemma view_advance s c :
  source_ok s -> record_ok s -> read_error_ s = false -> current_char_ s = c ->
  consume [] (view (set_buffer (buffer_ s) (buffer_pos_ s + 1)
    (set_position (step_pos (line_ s, column_ s) c).1 (step_pos (line_ s, column_ s) c).2 s))) =
  consume [c] (view s).
Proof.
  intros [_ Hs] Hr He Hc. rewrite He in Hs. destruct Hs as (Hp & Hl & _).
  destruct s as [i ch b bp re ln co k pk tg st cc er op]; unfold record_ok, buffer_size_ in *;
    simpl in *. subst re ch.
  assert (ztake (bp + 1) b = ztake bp b ++ [c]) as Et.
  { unfold ztake. replace (Z.to_nat (bp + 1)) with (Datatypes.S (Z.to_nat bp)) by lia.
    by apply take_S_r. }
  assert (zdrop bp b = c :: zdrop (bp + 1) b) as Ed.
  { unfold zdrop. replace (Z.to_nat (bp + 1)) with (Datatypes.S (Z.to_nat bp)) by lia.
    by apply drop_S. }
  assert (forall o : Target, tg = Some o ->
    zdrop st (ztake (bp + 1) b) = zdrop st (ztake bp b) ++ [c]) as Ep.
  { intros o ->. specialize (Hr ltac:(done)). rewrite Et, zdrop_app. f_equal.
    apply zdrop_0. rewrite zlen_ztake. lia. }
  unfold view, pending, rest, consume, recorded, pos.
  destruct tg as [[]|]; cbn -[step_pos]; rewrite ?(Ep _ eq_refl), Ed;
    unfold with_text, with_buffer; cbn -[step_pos]; by rewrite ?app_nil_r, <- ?app_assoc.
Qed.

Lemma consume_bounds w v :
  (length w <= length (buffer_ v))%nat -> in_bounds v -> in_bounds (consume w v).
Proof.
  intros Hw (H1 & H2 & H3 & H4). unfold in_bounds. cbn -[walk]. unfold zlen in *.
  rewrite length_drop.
  assert (forall w p, 0 <= p.1 -> 0 <= p.2 ->
    0 <= (walk w p).1 <= p.1 + Z.of_nat (length w) /\
    0 <= (walk w p).2 <= p.2 + 8 * Z.of_nat (length w)) as Hwalk.
  { clear. induction w as [|c w IH]; intros [a b] Ha Hb; [cbn in *; lia|].
    change (walk (c :: w) (a, b)) with (walk w (step_pos (a, b) c)). cbn [length fst snd] in *.
    assert (Z.rem b 8 = b mod 8) by (apply Z.rem_mod_nonneg; lia).
    pose proof (Z.mod_pos_bound b 8 ltac:(lia)).
    assert (0 <= (step_pos (a, b) c).1 <= a + 1 /\ 0 <= (step_pos (a, b) c).2 <= b + 8) as [? ?].
    { unfold step_pos, kTabWidth. destruct (eqc NL c); [|destruct (eqc TAB c)]; cbn [fst snd]; lia. }
    specialize (IH (step_pos (a, b) c) ltac:(lia) ltac:(lia)). lia. }
  specialize (Hwalk w (pos v) H1 H2). unfold pos in *. cbn in Hwalk |- *. lia.
Qed.

Lemma NextChar_computes v : buffer_ v <> [] -> computes NextChar Flat.NextChar v.
Proof.
  intros Hv s (Hs & Hr & Hb) Ev. subst v.
  pose proof (rest_source s Hs) as (Ec & _ & Ee & _). cbn in Ec, Ee, Hv.
  destruct (rest s) as [|c l] eqn:El; [done|]. cbn in Ec.
  rewrite bool_decide_eq_false_2 in Ee by done.
  pose proof Hs as [Hi Hs']. rewrite Ee in Hs'. destruct Hs' as (Hp & Hl & Hsuf).
  destruct (consume_bounds [c] (view s)) as (H1 & H2 & H3 & H4); [cbn; rewrite El; cbn; lia|done|].
  pose proof (view_advance s c Hs Hr Ee Ec) as Ew.
  set (s1 := set_buffer _ _ _) in Ew.
  unfold NextChar. wp_steps. rewrite Ec.
  eapply wp_mono with (P := fun _ s' => s' =
    set_position (step_pos (line_ s, column_ s) c).1 (step_pos (line_ s, column_ s) c).2 s).
  { cbn -[step_pos] in H1, H2, H3, H4. unfold step_pos in *. cbn in *.
    pose proof (zlen_nonneg (drop 1 (rest s))).
    destruct (eqc NL c); [|destruct (eqc TAB c)]; unfold move_to; cbn in *; case_cmp; cbn; try done; lia. }
  intros _ s' ->. wp_steps. fold s1.
  assert (wp (if buffer_pos_ s1 <? buffer_size_ s1
      then let* c := lift (buffer_ s1 !! Z.to_nat (buffer_pos_ s1)) in modS (set_char c)
      else Refresh) s1 (fun _ s' =>
    source_ok s' /\ record_ok s' /\ view s' = consume [c] (view s))) as Hwp.
  { rewrite <- Ew. destruct (Z.ltb_spec (buffer_pos_ s1) (buffer_size_ s1)) as [Hlt|Hlt].
    - destruct (lookup_lt_is_Some_2 (buffer_ s1) (Z.to_nat (buffer_pos_ s1))) as [c' Ec'].
      { unfold buffer_size_, zlen in Hlt. cbn in Hlt |- *. unfold buffer_size_ in *. lia. }
      apply wp_bind. eapply wp_lift; [done|]. apply wp_modS.
      assert (source_ok (set_char c' s1)) as Hok.
      { split; [done|]. cbn. rewrite Ee. unfold buffer_size_ in *. cbn in *. split; [lia|]. done. }
      split; [done|]. split.
      { unfold record_ok in *. cbn. intros Ht. specialize (Hr Ht). lia. }
      rewrite <- (consume_nil (view (set_char c' s1))) by by apply rest_source.
      assert (forall (s : t S) c, consume [] (view (set_char c s)) = consume [] (view s)) as Hset.
      { clear. intros s c. unfold view, append_target, consume, recorded. cbn.
        by destruct (record_target_ s) as [[]|]. }
      apply Hset.
    - wp_use Refresh_rest_wp; try done.
      + unfold buffer_size_ in *. cbn in *. lia.
      + unfold record_ok, buffer_size_ in *. cbn in *. intros Ht. specialize (Hr Ht). lia. }
  eapply wp_mono; [exact Hwp|]. intros [] s' (H1' & H2' & E'). unfold Flat.NextChar, fmod.
  cbn [buffer_ view]. rewrite El. cbn [take]. split; [|by rewrite E'].
  split; [done|]. split; [done|]. rewrite E'. apply consume_bounds; [cbn; rewrite El; cbn; lia|done].
Qed.

(** ** Composition *)

Lemma computes_ext {A} (m : TM A) (f f' : F A) v : f v = f' v -> computes m f v -> computes m f' v.
Proof. intros E Hm s Hs Ev. rewrite <- E. by apply Hm. Qed.

Lemma computes_ret {A} (a : A) v : computes (ret a) (fret a) v.
Proof. intros s Hs <-. by apply wp_ret. Qed.

Lemma computes_bind {A B} (m : TM A) (k : A -> TM B) (f : F A) (g : A -> F B) v :
  computes m f v -> computes (k (f v).1) (g (f v).1) (f v).2 ->
  computes (mbind_ m k) (fbind f g) v.
Proof.
  intros Hm Hk s Hs Ev. apply wp_bind. eapply wp_mono; [by apply Hm|].
  intros a s' [Hs' E]. unfold fbind. rewrite <- E in *. by apply Hk.
Qed.

Lemma computes_get {B} (k : t S -> TM B) (g : F B) v :
  (forall s, inv s -> view s = v -> computes (k s) g v) -> computes (mbind_ getS k) g v.
Proof. intros Hk s Hs Ev. apply wp_bind, wp_getS. by apply Hk. Qed.

Lemma computes_gets {A} (f : t S -> A) (g : V -> A) v :
  (forall s, inv s -> view s = v -> f s = g v) -> computes (gets f) (fgets g) v.
Proof. intros Hf s Hs Ev. apply wp_gets. split; [done|]. unfold fgets. f_equal; auto. Qed.

Lemma computes_mod (f : t S -> t S) (g : V -> V) v :
  (forall s, inv s -> view s = v -> inv (f s) /\ view (f s) = g v) -> computes (modS f) (fmod g) v.
Proof.
  intros Hf s Hs Ev. apply wp_modS. destruct (Hf s Hs Ev). split; [done|]. unfold fmod. by f_equal.
Qed.

(** ** Field updates *)

Ltac view_eq := intros s Hs <-; split; [exact Hs|];
  unfold view, append_target; cbn; destruct (record_target_ s) as [[]|]; done.

Lemma AddError_computes m v : computes (AddError m) (Flat.AddError m) v.
Proof. apply computes_mod. view_eq. Qed.
Lemma RecordError_computes l c m v : computes (RecordError l c m) (Flat.RecordError l c m) v.
Proof. apply computes_mod. view_eq. Qed.
Lemma set_type_computes ty v : computes (set_type ty) (Flat.set_type ty) v.
Proof. apply computes_mod. view_eq. Qed.

Lemma on_collector_computes f v :
  record_target_ v = None -> computes (on_collector f) (Flat.on_collector f) v.
Proof.
  intros Hv. apply computes_mod. intros s Hs <-. split; [exact Hs|]. cbn in Hv.
  unfold view, append_target; cbn. by rewrite Hv.
Qed.

Lemma RecordTo_computes target v :
  record_target_ v = None -> computes (RecordTo target) (Flat.RecordTo target) v.
Proof.
  intros Hv. apply computes_mod. intros s (Hs & Hr & Hb) <-. cbn in Hv. split.
  - split; [exact Hs|]. split; [|exact Hb]. intros _. cbn. destruct Hs as [_ Hs].
    destruct (read_error_ s); [destruct Hs as (_ & -> & _); lia|]. lia.
  - unfold view, append_target, pending; cbn. rewrite Hv. cbn.
    rewrite zdrop_all by (rewrite zlen_ztake; pose proof (zlen_nonneg (buffer_ s));
      destruct Hs as [_ Hs]; destruct (read_error_ s); [destruct Hs as (_ & -> & _)|]; lia).
    destruct s as [i ch b bp re ln co k pk tg st cc er op]; cbn in *; subst tg.
    destruct k, cc, target; unfold with_text, with_buffer; cbn; by rewrite app_nil_r.
Qed.

Lemma StopRecording_computes v :
  is_Some (record_target_ v) -> computes StopRecording Flat.StopRecording v.
Proof.
  intros Hv s (Hs & Hr & Hb) <-. cbn in Hv. specialize (Hr Hv).
  assert (buffer_pos_ s <= buffer_size_ s) as Hp.
  { destruct Hs as [_ Hs]. unfold buffer_size_.
    destruct (read_error_ s); [destruct Hs as (-> & -> & _); done|]. unfold buffer_size_ in *. lia. }
  unfold StopRecording. wp_steps.
  eapply wp_mono with (P := fun _ s' => s' = default s (append_target (pending s) s)).
  { unfold pending. destruct Hv as [tg Hv]. rewrite Hv.
    destruct (Z.eqb_spec (buffer_pos_ s) (record_start_ s)) as [E|E].
    - apply wp_ret. rewrite zdrop_all by (rewrite zlen_ztake; lia). unfold append_target. rewrite Hv.
      destruct s as [i ch b bp re ln co k pk ? st cc er op], tg, k, cc; cbn in *;
        unfold set_current, set_collector, with_text, with_buffer; cbn; by rewrite app_nil_r, ?Hv.
    - wp_use append_recorded_wp; [by rewrite Hv|lia|lia|]. intros _ s' ->.
      by rewrite zdrop_ztake by lia. }
  intros _ s' ->. apply wp_modS. destruct Hv as [tg Hv].
  split.
  - split; [|split].
    + unfold append_target. rewrite Hv. by destruct tg.
    + intros [? ?]. done.
    + unfold append_target. rewrite Hv. by destruct tg.
  - unfold Flat.StopRecording, fmod, view, append_target. cbn. rewrite Hv. by destruct tg; cbn.
Qed.

Lemma StartToken_computes v :
  record_target_ v = None -> computes StartToken Flat.StartToken v.
Proof.
  intros Hv. apply computes_bind; [|by apply RecordTo_computes].
  apply computes_mod. intros s Hs <-. split; [exact Hs|]. cbn in Hv.
  unfold view, append_target. cbn. by rewrite Hv.
Qed.

Lemma EndToken_computes v :
  is_Some (record_target_ v) -> computes EndToken Flat.EndToken v.
Proof.
  intros Hv. apply computes_bind; [by apply StopRecording_computes|].
  apply computes_mod. intros s Hs E. split; [exact Hs|].
  assert (record_target_ s = None) as Ht by (change (record_target_ (view s) = None); by rewrite E).
  rewrite <- E. unfold view, append_target. cbn. by rewrite Ht.
Qed.

(** ** Consuming characters *)

Lemma computes_normal {A} (m : TM A) f v : (normal v -> computes m f v) -> computes m f v.
Proof. intros Hm s Hs Ev. apply Hm; [|done|done]. rewrite <- Ev. apply rest_source, Hs. Qed.

Lemma not_at_end p v : normal v -> p (current_char_ v) = true -> p NUL = false -> buffer_ v <> [].
Proof. intros (Ec & _) Hp Hn E. rewrite Ec, E in Hp. simpl in Hp. congruence. Qed.

Lemma TryConsumeOne_computes_at p v :
  (p (current_char_ v) = true -> buffer_ v <> []) ->
  computes (TryConsumeOne p) (Flat.TryConsumeOne p) v.
Proof.
  intros Hv. apply computes_get. intros s Hs Ev.
  change (current_char_ s) with (current_char_ (view s)). rewrite Ev.
  destruct (p (current_char_ v)) eqn:Ep.
  - apply computes_ext with (f := Flat.NextChar ;+ fret true).
    { unfold Flat.TryConsumeOne. by rewrite Ep. }
    apply computes_bind; [apply NextChar_computes; auto|apply computes_ret].
  - apply computes_ext with (f := fret false); [|apply computes_ret].
    unfold Flat.TryConsumeOne. by rewrite Ep.
Qed.

Lemma TryConsumeOne_computes p v :
  p NUL = false -> computes (TryConsumeOne p) (Flat.TryConsumeOne p) v.
Proof.
  intros Hp. apply computes_normal. intros Hv. apply TryConsumeOne_computes_at.
  intros Hc. by eapply not_at_end.
Qed.

Lemma TryConsume_computes c v : c <> NUL -> computes (TryConsume c) (Flat.TryConsume c) v.
Proof. intros Hc. apply TryConsumeOne_computes. by apply bool_decide_eq_false_2. Qed.

Lemma while_step p v c l :
  normal v -> buffer_ v = c :: l -> p c = true ->
  Flat.ConsumeZeroOrMore p v = (Flat.NextChar ;+ Flat.ConsumeZeroOrMore p) v.
Proof.
  intros Hv El Hp. unfold Flat.ConsumeZeroOrMore, Flat.NextChar, fbind, fmod.
  rewrite consume_app, buffer_consume, El. cbn. by rewrite Hp.
Qed.

Lemma while_stop p v :
  normal v -> p (current_char_ v) = false -> Flat.ConsumeZeroOrMore p v = (tt, v).
Proof.
  intros Hv Hp. unfold Flat.ConsumeZeroOrMore, fmod. rewrite take_while_stop.
  - by rewrite consume_nil.
  - destruct Hv as (Ec & _). rewrite Ec in Hp. by destruct (buffer_ v).
Qed.

Lemma while_in_class_computes p n v :
  p NUL = false -> (length (buffer_ v) <= n)%nat ->
  computes (while_in_class p n) (Flat.ConsumeZeroOrMore p) v.
Proof.
  intros Hp. revert v. induction n as [|n IH]; intros v Hn; apply computes_normal; intros Hv;
    (apply computes_get; intros s Hs Ev; change (current_char_ s) with (current_char_ (view s));
     rewrite Ev; destruct (p (current_char_ v)) eqn:Ep;
     [|apply computes_ext with (f := fret tt); [by rewrite while_stop|apply computes_ret]]);
    pose proof (not_at_end _ _ Hv Ep Hp) as Hne; pose proof Hv as (Ec & _);
    destruct (buffer_ v) as [|c l] eqn:El; try done; [simpl in Hn; lia|].
  apply computes_ext with (f := Flat.NextChar ;+ Flat.ConsumeZeroOrMore p).
  { rewrite (while_step p v c l) by (try done; by rewrite Ec in Ep). done. }
  apply computes_bind; [apply NextChar_computes; by rewrite El|].
  apply IH. rewrite FlatScans.NextChar_buffer, El. cbn in *. rewrite drop_0. lia.
Qed.

Lemma fuel_view s : fuel s = length (buffer_ (view s)).
Proof. done. Qed.

Lemma ConsumeZeroOrMore_computes p v :
  p NUL = false -> computes (ConsumeZeroOrMore p) (Flat.ConsumeZeroOrMore p) v.
Proof.
  intros Hp s Hs Ev. apply wp_bind, wp_gets. apply (while_in_class_computes p (fuel s)); try done.
  by rewrite fuel_view, Ev.
Qed.

Lemma ConsumeOneOrMore_computes p e v :
  p NUL = false -> computes (ConsumeOneOrMore p e) (Flat.ConsumeOneOrMore p e) v.
Proof.
  intros Hp. apply computes_normal. intros Hv.
  apply computes_ext with (f := fbind (fgets (fun v => p (current_char_ v)))
    (fun b => if b then Flat.NextChar ;+ Flat.ConsumeZeroOrMore p else Flat.AddError e)).
  { unfold Flat.ConsumeOneOrMore, fbind at 1, fgets. destruct (p (current_char_ v)) eqn:Ep; [|done].
    pose proof (not_at_end _ _ Hv Ep Hp). pose proof Hv as (Ec & _).
    destruct (buffer_ v) as [|c l] eqn:El; [done|]. symmetry. eapply while_step; try done.
    by rewrite Ec in Ep. }
  apply computes_bind; [apply computes_gets; by intros s _ <-|].
  cbn. destruct (p (current_char_ v)) eqn:Ep; [|apply AddError_computes].
  apply computes_bind; [|by apply ConsumeZeroOrMore_computes].
  apply NextChar_computes. by eapply not_at_end.
Qed.

Lemma and_then_computes a b f g v :
  computes a f v -> computes b g (f v).2 -> computes (and_then a b) (Flat.and_then f g) v.
Proof.
  intros Ha Hb. apply computes_bind; [done|]. destruct (f v).1; [done|apply computes_ret].
Qed.
Lemma or_else_computes a b f g v :
  computes a f v -> computes b g (f v).2 -> computes (or_else a b) (Flat.or_else f g) v.
Proof.
  intros Ha Hb. apply computes_bind; [done|]. destruct (f v).1; [apply computes_ret|done].
Qed.
Lemma when_computes c a b h f g v :
  computes c h v -> ((h v).1 = true -> computes a f (h v).2) ->
  ((h v).1 = false -> computes b g (h v).2) ->
  computes (when c a b) (Flat.when h f g) v.
Proof. intros Hc Ha Hb. apply computes_bind; [done|]. destruct (h v).1; auto. Qed.

Lemma computes_if {A} (b : bool) (m1 m2 : TM A) f1 f2 v :
  (b = true -> computes m1 f1 v) -> (b = false -> computes m2 f2 v) ->
  computes (if b then m1 else m2) (if b then f1 else f2) v.
Proof. destruct b; auto. Qed.
End refine.

(** One step of a program and of its flat version. *)
Ltac computes_step :=
  match goal with
  | |- computes (mret_ _) (fret _) _ => apply computes_ret
  | |- computes (AddError _) _ _ => apply AddError_computes
  | |- computes (RecordError _ _ _) _ _ => apply RecordError_computes
  | |- computes (set_type _) _ _ => apply set_type_computes
  | |- computes (TryConsume _) _ _ => apply TryConsume_computes; discriminate
  | |- computes (TryConsumeOne _) _ _ => apply TryConsumeOne_computes; reflexivity
  | |- computes (ConsumeZeroOrMore _) _ _ => apply ConsumeZeroOrMore_computes; reflexivity
  | |- computes (ConsumeOneOrMore _ _) _ _ => apply ConsumeOneOrMore_computes; reflexivity
  | |- computes (and_then _ _) (Flat.HexDigits _) _ => apply and_then_computes
  | |- computes (and_then _ _) _ _ => apply and_then_computes
  | |- computes (or_else _ _) _ _ => apply or_else_computes
  | |- computes (when _ _ _) _ _ => apply when_computes; [|intros ?|intros ?]
  | |- computes (mbind_ _ _) (fbind _ _) _ => apply computes_bind
  | |- computes (if _ then _ else _) (if _ then _ else _) _ => apply computes_if; intros ?
  end.
Ltac computes_steps := repeat computes_step.

(** A program that looks at the state, at a state with a known view. *)
Ltac computes_look s :=
  apply computes_get; let Hs := fresh "Hs" in let Ev := fresh "Ev" in intros s Hs Ev;
  change (current_char_ s) with (current_char_ (view s)); change (options s) with (options (view s));
  change (read_error_ s) with (read_error_ (view s)); rewrite ?Ev; clear Hs.

Section tokens.
Context {S : Type} `{ZeroCopyInputStreamOk S}.
Notation TM := (M (t S)).

(** ** Strings and numbers *)

Lemma ConsumeString_round_computes d v :
  computes (ConsumeString_round (S := S) d) (Flat.ConsumeString_round d) v.
Proof.
  apply computes_normal. intros Hv. computes_look s.
  destruct (eqc NUL (current_char_ v)) eqn:E0;
    [|pose proof (proj1 (FlatScans.not_nul v NUL Hv E0)) as Hne;
      destruct (eqc NL (current_char_ v)) eqn:E1;
      [destruct (negb (allow_multiline_strings_ (options v))) eqn:E2|
       destruct (eqc BACKSLASH (current_char_ v)) eqn:E2;
       [|destruct (eqc d (current_char_ v)) eqn:E3]]];
    (eapply computes_ext;
     [unfold Flat.ConsumeString_round; rewrite E0; try rewrite E1; try rewrite E2; try rewrite E3; reflexivity|]);
    apply computes_bind; try (by apply NextChar_computes); unfold Flat.ConsumeEscape; computes_steps.
Qed.

Lemma ConsumeString_computes d v :
  computes (ConsumeString (S := S) d) (Flat.ConsumeString d) v.
Proof.
  intros s Hs Ev. apply wp_bind, wp_gets. rewrite fuel_view, Ev. unfold Flat.ConsumeString.
  assert (forall n v, (length (buffer_ v) <= n)%nat ->
    computes (ConsumeString_loop (S := S) d n) (Flat.ConsumeString_loop d n) v) as Hloop.
  { clear. induction n as [|n IH]; intros v Hn; apply computes_normal; intros Hv;
      (apply computes_bind; [apply ConsumeString_round_computes|]);
      destruct (Flat.ConsumeString_round d v).1 eqn:E; try apply computes_ret;
      pose proof (FlatScans.ConsumeString_round_progress d v Hv E); [lia|]. apply IH. lia. }
  by apply (Hloop _ v).
Qed.

Lemma LookingAt_computes p v :
  computes (LookingAt (S := S) p) (fgets (fun v => p (current_char_ v))) v.
Proof. apply computes_gets. by intros s _ <-. Qed.

Lemma ConsumeDecimal_computes b v :
  computes (ConsumeDecimal (S := S) b) (Flat.ConsumeDecimal b) v.
Proof.
  apply computes_ext with (f :=
    let+ is_float :=
      (if b then Flat.ConsumeZeroOrMore Digit ;+ fret true
       else Flat.ConsumeZeroOrMore Digit ;+
            let+ dot := Flat.TryConsume "." in
            if dot : bool then Flat.ConsumeZeroOrMore Digit ;+ fret true else fret false) in
    let+ e := Flat.or_else (Flat.TryConsume "e") (Flat.TryConsume "E") in
    let+ is_float :=
      (if e : bool then
         Flat.or_else (Flat.TryConsume "-") (Flat.TryConsume "+") ;+
         Flat.ConsumeOneOrMore Digit EmptyExponent ;+ fret true
       else fret (is_float : bool)) in
    let+ allow_f := fgets (fun v => allow_f_after_float_ (options v)) in
    let+ f :=
      (if allow_f : bool then Flat.or_else (Flat.TryConsume "f") (Flat.TryConsume "F")
       else fret false) in
    fret ((is_float : bool) || f)); [by destruct b|].
  unfold ConsumeDecimal. computes_steps; try (by apply computes_gets; intros s _ <-);
    destruct b; computes_steps.
Qed.

Lemma ConsumeNumber_computes z d v :
  computes (ConsumeNumber (S := S) z d) (Flat.ConsumeNumber z d) v.
Proof.
  unfold ConsumeNumber, Flat.ConsumeNumber. apply computes_bind.
  - repeat first [apply ConsumeDecimal_computes | apply LookingAt_computes | computes_step].
  - computes_look s. eapply computes_ext; [symmetry; apply fbind_fgets|]. computes_steps.
Qed.

(** ** Comments *)

Lemma erase_last_two_computes v :
  record_target_ v = None -> 2 <= zlen (comment_buffer_ (collector v)) ->
  computes (S := S) erase_last_two Flat.erase_last_two v.
Proof.
  intros Hr Hl. apply computes_get. intros s Hs Ev.
  assert (record_target_ s = None) as Ht by (change (record_target_ (view s) = None); by rewrite Ev).
  assert (collector s = collector v) as Ec.
  { rewrite <- Ev. unfold view, append_target. cbn. by rewrite Ht. }
  rewrite Ec. cbv zeta. destruct (Z.leb_spec 2 (zlen (comment_buffer_ (collector v)))); [|lia].
  match goal with |- context [modS (set_collector ?x)] => set (c := x) end. change (modS (set_collector c)) with (on_collector (S := S) (fun _ => c)).
  apply (computes_ext _ (Flat.on_collector (fun _ => c))); [done|]. by apply on_collector_computes.
Qed.

Lemma ConsumeLineComment_computes b v :
  record_target_ v = None -> computes (S := S) (ConsumeLineComment b) (Flat.ConsumeLineComment b) v.
Proof.
  intros Hr. unfold ConsumeLineComment, Flat.ConsumeLineComment.
  destruct b; computes_steps; [by apply RecordTo_computes|].
  apply StopRecording_computes.
  rewrite (FlatReads.TryConsume_keeps _ _), (FlatReads.ConsumeZeroOrMore_keeps _ _). done.
Qed.

Lemma keeps_record {A} (f : F A) v tg : keeps f -> record_target_ v = tg -> record_target_ (f v).2 = tg.
Proof. intros Hf <-. apply Hf. Qed.

Import FlatScans FlatReads.
Lemma ConsumeBlockComment_round_computes l c b v :
  (b = true -> record_target_ v = Some CommentBuffer) ->
  computes (S := S) (ConsumeBlockComment_round l c b) (Flat.ConsumeBlockComment_round l c b) v.
Proof.
  intros Hr. apply computes_normal. intros Hv.
  unfold ConsumeBlockComment_round, Flat.ConsumeBlockComment_round.
  computes_step; [computes_step|].
  destruct (ConsumeZeroOrMore_scans (fun c => negb (block_comment_stop c)) v Hv) as [w0 Hw0].
  set (v1 := (Flat.ConsumeZeroOrMore _ v).2) in *.
  assert (b = true -> record_target_ v1 = Some CommentBuffer) as Hr1
    by (intros Hb; rewrite (m_record _ _ _ Hw0); auto).
  pose proof (m_normal _ _ _ Hw0) as Hv1. clearbody v1. clear Hw0 Hr Hv.
  computes_step; [computes_step|].
  destruct (TryConsume_scans NL v1 Hv1) as [w1 Hw1]. set (r := Flat.TryConsume NL v1) in *.
  assert (b = true -> record_target_ r.2 = Some CommentBuffer) as Hr2
    by (intros Hb; rewrite (m_record _ _ _ Hw1); auto).
  pose proof (m_normal _ _ _ Hw1) as Hv2. destruct r as [stop v2]. cbn [fst snd] in *. clear Hw1 Hr1 Hv1.
  computes_step.
  - destruct b; computes_steps.
    + apply StopRecording_computes. by rewrite Hr2.
    + apply RecordTo_computes. apply keeps_record; [auto with keeps|].
      by apply keeps_record; [auto with keeps|].
  - computes_step; [computes_steps|]. computes_step.
    + destruct b; computes_steps.
      * apply StopRecording_computes. exists CommentBuffer.
        by apply keeps_record; [auto with keeps|auto].
      * apply erase_last_two_computes; [done|]. cbn.
        by apply (comment_end_recorded v2); auto.
    + computes_step; [computes_steps|].
      { apply computes_gets. by intros s _ <-. }
      computes_step; [computes_steps|].
      computes_look s. eapply computes_ext; [symmetry; apply fbind_fgets|]. computes_step.
      * computes_steps. apply StopRecording_computes. exists CommentBuffer.
        do 4 (apply keeps_record; [auto 10 with keeps|]). by apply Hr2.
      * computes_steps.
Qed.

Lemma ConsumeBlockComment_loop_computes l c b n v :
  (length (buffer_ v) <= n)%nat -> (b = true -> record_target_ v = Some CommentBuffer) ->
  computes (S := S) (ConsumeBlockComment_loop l c b n) (Flat.ConsumeBlockComment_loop l c b n) v.
Proof.
  revert v. induction n as [|n IH]; intros v Hn Hr; apply computes_normal; intros Hv;
    (apply computes_bind; [by apply ConsumeBlockComment_round_computes|]);
    pose proof (ConsumeBlockComment_round_progress l c b v Hv) as Hp; unfold fwp in Hp;
    destruct (Flat.ConsumeBlockComment_round l c b v).1 eqn:E; try apply computes_ret;
    specialize (Hp eq_refl); [lia|].
  apply IH; [lia|]. intros ->. pose proof (ConsumeBlockComment_round_record l c v (Hr eq_refl)) as Hrec.
  unfold fwp in Hrec. by rewrite E in Hrec.
Qed.

Lemma ConsumeBlockComment_computes b v :
  record_target_ v = None ->
  computes (S := S) (ConsumeBlockComment b) (Flat.ConsumeBlockComment b) v.
Proof.
  intros Hr. apply computes_get. intros s Hs Ev.
  rewrite fuel_view. change (line_ s) with (line_ (view s)). change (column_ s) with (column_ (view s)).
  rewrite Ev. eapply computes_ext; [reflexivity|]. apply computes_bind.
  - destruct b; [by apply RecordTo_computes|apply computes_ret].
  - apply ConsumeBlockComment_loop_computes; [by destruct b|]. by intros ->.
Qed.

(** ** Next *)

Lemma TryConsumeCommentStart_computes v :
  record_target_ v = None ->
  computes (S := S) TryConsumeCommentStart Flat.TryConsumeCommentStart v.
Proof.
  intros Hr. unfold TryConsumeCommentStart, Flat.TryConsumeCommentStart.
  computes_step; [apply computes_gets; by intros s _ <-|].
  cbn [fgets fst snd]. destruct (comment_style_ (options v)); computes_steps.
  apply computes_mod. intros s Hs Ev. split; [exact Hs|].
  assert (record_target_ s = None) as Ht.
  { change (record_target_ (view s) = None). rewrite Ev. by do 3 (apply keeps_record; [auto with keeps|]). }
  rewrite <- Ev. unfold view, append_target. cbn. by rewrite Ht.
Qed.

Lemma TryConsumeWhitespace_computes v :
  computes (S := S) TryConsumeWhitespace Flat.TryConsumeWhitespace v.
Proof.
  unfold TryConsumeWhitespace, Flat.TryConsumeWhitespace.
  computes_step; [apply computes_gets; by intros s _ <-|]. computes_steps.
Qed.

Lemma TryConsumeNewline_computes v :
  computes (S := S) TryConsumeNewline Flat.TryConsumeNewline v.
Proof.
  unfold TryConsumeNewline, Flat.TryConsumeNewline.
  computes_step; [apply computes_gets; by intros s _ <-|]. computes_steps.
Qed.

Lemma skip_control_characters_computes n v :
  (length (buffer_ v) <= n)%nat ->
  computes (S := S) (skip_control_characters n) (Flat.ConsumeZeroOrMore Flat.control) v.
Proof.
  set (cond := fun v : V =>
    if Flat.control (current_char_ v) && negb (read_error_ v)
    then (true, (Flat.NextChar v).2) else (false, v)).
  assert (forall v, computes (S := S)
    (or_else (TryConsumeOne Unprintable)
      (let* eof := gets read_error_ in if eof : bool then ret false else TryConsume NUL)) cond v)
    as Hcond.
  { clear. intros v. apply computes_normal. intros Hv.
    apply computes_ext with (f := Flat.or_else (Flat.TryConsumeOne Unprintable)
      (let+ eof := fgets read_error_ in if eof : bool then fret false else Flat.TryConsume NUL)).
    { unfold cond, Flat.or_else, Flat.TryConsume, Flat.TryConsumeOne, Flat.control, fbind, fgets.
      destruct Hv as (Ec & _ & Ee & _). rewrite Ec, Ee.
      destruct (buffer_ v) as [|c l] eqn:El; [cbn; by rewrite Ee|].
      cbn [hd]. rewrite bool_decide_eq_false_2 by done. rewrite andb_true_r.
      destruct (Unprintable c); [done|]. cbn [orb]. cbv beta iota. rewrite Ee, bool_decide_eq_false_2 by done.
      rewrite Ec. cbn [hd]. by destruct (eqc NUL c). }
    apply or_else_computes; [by computes_step|].
    apply computes_bind; [apply computes_gets; by intros s _ <-|].
    apply computes_if; intros He; [apply computes_ret|].
    apply TryConsumeOne_computes_at. intros _ Eb. cbn [fgets snd fst] in *.
    assert (normal (Flat.TryConsumeOne Unprintable v).2) as (_ & _ & Ee & _).
    { destruct (TryConsumeOne_scans Unprintable v Hv) as [w Hw]. apply Hw. }
    rewrite Ee, bool_decide_eq_true_2 in He by done. done. }
  revert v. induction n as [|n IH]; intros v Hn; apply computes_normal; intros Hv;
    pose proof Hv as (Ec & _ & Ee & _);
    (apply computes_ext with (f := let+ b := cond in
       if b : bool then Flat.ConsumeZeroOrMore Flat.control else fret tt);
     [unfold fbind, cond; rewrite Ec, Ee;
      destruct (buffer_ v) as [|c l] eqn:El;
        [by unfold Flat.ConsumeZeroOrMore, fmod; rewrite El; cbn [take_while]; rewrite consume_nil|];
      rewrite bool_decide_eq_false_2 by done; cbn [hd]; rewrite andb_true_r;
      destruct (Flat.control c) eqn:Ep; symmetry;
      [by apply (while_step _ _ c l)|by apply while_stop; [|rewrite Ec]]|]);
    (apply computes_bind; [apply Hcond|]); unfold cond; rewrite Ec, Ee;
    destruct (buffer_ v) as [|c l] eqn:El; try (apply computes_ret);
    rewrite bool_decide_eq_false_2 by done; cbn [hd]; rewrite andb_true_r;
    destruct (Flat.control c); try apply computes_ret; cbn in Hn; [lia|].
  apply IH. cbn [snd]. rewrite NextChar_buffer, El. cbn. rewrite drop_0. lia.
Qed.

(** Reading the state while the text of the token is being recorded. *)
Lemma view_tokens s :
  previous_ s = previous_ (view s) /\ line_ s = line_ (view s) /\ column_ s = column_ (view s) /\
  line (current_ s) = line (current_ (view (S := S) s)) /\
  column (current_ s) = column (current_ (view s)) /\
  type (current_ s) = type (current_ (view s)).
Proof. unfold view, append_target. cbn. by destruct (record_target_ s) as [[]|]. Qed.

Lemma view_current s :
  record_target_ (view (S := S) s) = None -> current_ s = current_ (view s).
Proof. intros Ht. cbn in Ht. unfold view, append_target. cbn. by rewrite Ht. Qed.

Lemma StartToken_buffer v : buffer_ (Flat.StartToken v).2 = buffer_ v.
Proof. done. Qed.

(** An alternative that starts with a certain character; otherwise nothing has
    been read. *)
Lemma when_try_computes p a b f g v :
  p NUL = false -> computes (S := S) a f (Flat.NextChar v).2 -> computes b g v ->
  computes (when (TryConsumeOne p) a b) (Flat.when (Flat.TryConsumeOne p) f g) v.
Proof.
  intros Hp Ha Hb. apply when_computes; [by apply TryConsumeOne_computes|..];
    unfold Flat.TryConsumeOne; by destruct (p (current_char_ v)).
Qed.
Lemma when_char_computes c a b f g v :
  c <> NUL -> computes (S := S) a f (Flat.NextChar v).2 -> computes b g v ->
  computes (when (TryConsume c) a b) (Flat.when (Flat.TryConsume c) f g) v.
Proof. intros Hc. apply when_try_computes. by apply bool_decide_eq_false_2. Qed.

Lemma number_type_computes z d v :
  computes (S := S) (let* ty := ConsumeNumber z d in set_type ty)
    (let+ ty := Flat.ConsumeNumber z d in Flat.set_type ty) v.
Proof. apply computes_bind; [apply ConsumeNumber_computes|apply set_type_computes]. Qed.
Lemma string_type_computes d v :
  computes (S := S) (ConsumeString d ;;; set_type TYPE_STRING)
    (Flat.ConsumeString d ;+ Flat.set_type TYPE_STRING) v.
Proof. apply computes_bind; [apply ConsumeString_computes|apply set_type_computes]. Qed.

Lemma ConsumeToken_computes v :
  record_target_ v = None -> buffer_ v <> [] ->
  computes (S := S) ConsumeToken Flat.ConsumeToken v.
Proof.
  intros Hr Hne. unfold ConsumeToken, Flat.ConsumeToken.
  computes_step; [by apply StartToken_computes|].
  pose proof (StartToken_buffer v) as Hb.
  assert (record_target_ (Flat.StartToken v).2 = Some CurrentText) as Hr0 by done.
  set (v0 := (Flat.StartToken v).2) in *. clearbody v0.
  computes_step.
  - apply when_try_computes; [done|computes_steps|].
    apply when_char_computes; [done|apply number_type_computes|].
    apply when_char_computes; [done| |].
    { apply when_try_computes; [done| |computes_steps]. computes_look s.
      destruct (view_tokens s) as (-> & -> & -> & -> & -> & _). rewrite Ev.
      eapply computes_ext; [symmetry; apply fbind_fgets|].
      computes_step; [computes_steps|apply number_type_computes]. }
    apply when_try_computes; [done|apply number_type_computes|].
    apply when_char_computes; [done|apply string_type_computes|].
    apply when_char_computes; [done|apply string_type_computes|].
    computes_look s. destruct (view_tokens s) as (_ & -> & -> & _). rewrite Ev.
    eapply computes_ext; [symmetry; apply fbind_fgets|]. computes_steps.
    apply NextChar_computes. rewrite <- Hb in Hne. by destruct (negb _).
  - apply EndToken_computes. exists CurrentText. apply keeps_record; [|done].
    repeat apply when_keeps; auto 20 with keeps.
Qed.

Lemma Next_round_computes v :
  record_target_ v = None -> computes (S := S) Next_round Flat.Next_round v.
Proof.
  intros Hr. apply computes_normal. intros Hv. unfold Next_round, Flat.Next_round.
  computes_step; [by apply StartToken_computes|].
  computes_step; [computes_step; [apply TryConsumeWhitespace_computes|apply TryConsumeNewline_computes]|].
  computes_step.
  { apply EndToken_computes. exists CurrentText. apply keeps_record; [|done].
    unfold Flat.TryConsumeWhitespace, Flat.TryConsumeNewline. auto 20 with keeps. }
  computes_step; [computes_step|].
  set (v1 := (Flat.EndToken _).2).
  assert (record_target_ v1 = None) as Hr1 by done.
  assert (normal v1) as Hn1.
  { destruct (Next_space_reads v Hv) as [w Hw]. apply r_normal in Hw. revert Hw.
    unfold v1, Next_space, fbind. destruct (Flat.StartToken v) as [? va]. cbn [fst snd].
    by destruct (Flat.or_else _ _ va). }
  clearbody v1. computes_step; [by apply TryConsumeCommentStart_computes|].
  assert (record_target_ (Flat.TryConsumeCommentStart v1).2 = None) as Hr2
    by (apply keeps_record; [apply TryConsumeCommentStart_keeps|done]).
  set (v2 := (Flat.TryConsumeCommentStart v1).2) in *. clearbody v2.
  destruct (Flat.TryConsumeCommentStart v1).1.
  - computes_step; [by apply ConsumeLineComment_computes|computes_step].
  - computes_step; [by apply ConsumeBlockComment_computes|computes_step].
  - computes_step.
  - apply computes_normal. intros Hn2. computes_look s.
    eapply computes_ext; [symmetry; apply fbind_fgets|]. computes_step; [computes_step|].
    assert (buffer_ v2 <> []) as Hne.
    { destruct Hn2 as (_ & _ & Ee & _). rewrite Ee in *.
      eapply bool_decide_eq_false_1. eassumption. }
    fold (Flat.control (current_char_ v2)). computes_step.
    + computes_step; [computes_step|]. set (v3 := (Flat.AddError _ v2).2).
      assert (exists c l, buffer_ v3 = c :: l /\ Flat.control c = true) as (c & l & El & Hc).
      { destruct Hn2 as (Ec & _). change (buffer_ v3) with (buffer_ v2). rewrite Ec in *.
        destruct (buffer_ v2) as [|c l]; [done|]. by exists c, l. }
      apply computes_ext with (f := Flat.NextChar ;+ Flat.ConsumeZeroOrMore Flat.control ;+ fret Continue).
      { change ((Flat.NextChar ;+ Flat.ConsumeZeroOrMore Flat.control ;+ fret Continue) v3) with
          (((Flat.NextChar ;+ Flat.ConsumeZeroOrMore Flat.control) ;+ fret Continue) v3).
        unfold fbind at 1. unfold fbind at 2. by rewrite <- (while_step Flat.control v3 c l). }
      computes_step; [apply NextChar_computes; by rewrite El|].
      intros s' Hs' Ev'. apply wp_bind, wp_gets. rewrite fuel_view, Ev'.
      apply (computes_bind _ _ (Flat.ConsumeZeroOrMore Flat.control)); [|computes_step|done..].
      by apply skip_control_characters_computes.
    + computes_step; [by apply ConsumeToken_computes|computes_step].
Qed.

Lemma computes_bind_fwp {A B} (m : TM A) (k : A -> TM B) (f : F A) (g : A -> F B) v :
  computes m f v -> fwp f v (fun a v => computes (k a) (g a) v) ->
  computes (mbind_ m k) (fbind f g) v.
Proof. apply computes_bind. Qed.

Lemma EndOfFile_computes v :
  record_target_ v = None -> computes (S := S) EndOfFile Flat.EndOfFile v.
Proof.
  intros Hr. apply computes_bind; [|apply computes_ret]. apply computes_mod. intros s Hs Ev.
  split; [exact Hs|]. assert (record_target_ s = None) as Ht
    by (change (record_target_ (view s) = None); by rewrite Ev).
  rewrite <- Ev. unfold view, append_target. cbn. by rewrite Ht.
Qed.

Lemma Next_loop_computes n v :
  record_target_ v = None -> (length (buffer_ v) <= n)%nat ->
  computes (S := S) (Next_loop n) (Flat.Next_loop n) v.
Proof.
  revert v. induction n as [|n IH]; intros v Hr Hn; apply computes_normal; intros Hv;
    (apply computes_bind; [apply computes_gets; by intros s _ <-|]);
    (apply computes_if; intros He; [by apply EndOfFile_computes|]);
    (apply computes_bind_fwp; [by apply Next_round_computes|]);
    (eapply fwp_mono; [by apply Next_round_done|]); cbn [fgets snd]; intros f v1 (Hr1 & w & Hw & Hne);
    destruct f; try apply computes_ret; try (by apply EndOfFile_computes);
    pose proof (read_by_shorter _ _ _ Hw (Hne eq_refl)); [lia|]. apply IH; [done|lia].
Qed.

Lemma Next_computes v :
  record_target_ v = None -> computes (S := S) Next Flat.Next v.
Proof.
  intros Hr. apply (computes_ext _ (fmod (fun v => set_previous (current_ v) v) ;+
    Flat.Next_loop (length (buffer_ v)))); [done|].
  apply computes_bind.
  - apply computes_mod. intros s Hs Ev. split; [exact Hs|]. assert (record_target_ s = None) as Ht
      by (change (record_target_ (view s) = None); by rewrite Ev).
    rewrite <- Ev. unfold view, append_target. cbn. by rewrite Ht.
  - intros s Hs Ev. apply wp_bind, wp_gets. rewrite fuel_view, Ev.
    by apply (Next_loop_computes _ (fmod (fun v => set_previous (current_ v) v) v).2).
Qed.

(** ** NextWithComments *)

Lemma NextWithComments_loop_computes pl tl n v :
  normal v -> record_target_ v = None -> (length (buffer_ v) <= n)%nat ->
  computes (S := S) (NextWithComments_loop pl tl n) (Flat.NextWithComments_loop pl tl n) v.
Proof.
  revert v. induction n as [n IH] using lt_wf_ind. intros v Hv Hr Hn.
  set (again := match n with
    | O => undef
    | Datatypes.S n => NextWithComments_loop (S := S) pl tl n
    end).
  set (fagain := match n with
    | O => fret false
    | Datatypes.S n => Flat.NextWithComments_loop pl tl n
    end).
  assert (forall v', normal v' -> record_target_ v' = None ->
    (length (buffer_ v') < length (buffer_ v))%nat -> computes again fagain v') as Hagain.
  { intros v' Hv' Hr' Hl. subst again fagain. destruct n as [|n]; [lia|]. apply IH; try done; lia. }
  assert (computes (S := S)
    (ConsumeZeroOrMore WhitespaceNoNewline ;;;
     let* comment := TryConsumeCommentStart in
     match comment with
     | LINE_COMMENT =>
         on_collector GetBufferForLineComment ;;; ConsumeLineComment true ;;; again
     | BLOCK_COMMENT =>
         on_collector GetBufferForBlockComment ;;; ConsumeBlockComment true ;;;
         ConsumeZeroOrMore WhitespaceNoNewline ;;;
         let* _ := TryConsume NL in again
     | SLASH_NOT_COMMENT => ret true
     | NO_COMMENT =>
         let* blank := TryConsume NL in
         if blank : bool then on_collector Flush ;;; on_collector DetachFromPrev ;;; again
         else
           let* result := Next in
           let* s := getS in
           (if negb result || closes_scope (current_ s) then on_collector Flush else ret tt) ;;;
           (if result && ((pl =? line_ s) || (tl =? line_ s))
            then on_collector MaybeDetachComment else ret tt) ;;;
           ret (result : bool)
     end)
    (Flat.ConsumeZeroOrMore WhitespaceNoNewline ;+
     let+ comment := Flat.TryConsumeCommentStart in
     match comment with
     | LINE_COMMENT =>
         Flat.on_collector GetBufferForLineComment ;+ Flat.ConsumeLineComment true ;+ fagain
     | BLOCK_COMMENT =>
         Flat.on_collector GetBufferForBlockComment ;+ Flat.ConsumeBlockComment true ;+
         Flat.ConsumeZeroOrMore WhitespaceNoNewline ;+ Flat.TryConsume NL ;+ fagain
     | SLASH_NOT_COMMENT => fret true
     | NO_COMMENT =>
         let+ blank := Flat.TryConsume NL in
         if blank : bool then Flat.on_collector Flush ;+ Flat.on_collector DetachFromPrev ;+ fagain
         else
           let+ result := Flat.Next in
           let+ v := fgets (fun v => v) in
           (if negb result || closes_scope (current_ v) then Flat.on_collector Flush else fret tt) ;+
           (if result && ((pl =? line_ v) || (tl =? line_ v))
            then Flat.on_collector MaybeDetachComment else fret tt) ;+
           fret (result : bool)
     end) v) as Hloop; [|by destruct n].
  clearbody again fagain. clear IH Hn.
  apply computes_bind_fwp; [computes_step|].
  apply quiet_fwp; [auto with quiet|done|done|]. intros _ w1 v1 Hn1 Hr1 Hw1.
  assert (length (buffer_ v1) <= length (buffer_ v))%nat as Hl1
    by (rewrite (r_buffer _ _ _ Hw1), length_app; lia). clear Hw1 Hv Hr.
  assert (forall (f : F unit) (m : TM unit) v2, quiet f -> normal v2 -> record_target_ v2 = None ->
    (length (buffer_ v2) < length (buffer_ v))%nat -> computes m f v2 ->
    computes (m ;;; again) (f ;+ fagain) v2) as Hmore.
  { intros f m v2 Hf Hn2 Hr2 Hl2 Hm. apply computes_bind_fwp; [done|].
    apply quiet_fwp; [done..|]. intros _ w3 v3 Hn3 Hr3 Hw3. apply Hagain; [done..|].
    rewrite (r_buffer _ _ _ Hw3), length_app in Hl2. lia. }
  apply computes_bind_fwp; [by apply TryConsumeCommentStart_computes|].
  apply TryConsumeCommentStart_fwp; [done| | |].
  - apply computes_bind_fwp; [computes_step|]. apply TryConsume_fwp; [done..|intros _|intros r v2 _ Hw2].
    + apply computes_bind_fwp; [by apply Next_computes|].
      apply quiet_fwp; [apply Next_quiet|done..|]. intros b w3 v3 Hn3 Hr3 _.
      apply computes_get. intros s Hs Ev. rewrite (view_current s) by by rewrite Ev.
      change (line_ s) with (line_ (view s)). rewrite Ev.
      eapply computes_ext; [symmetry; apply fbind_fgets|].
      computes_step; [computes_step; [by apply on_collector_computes|computes_step]|].
      computes_step; [computes_step; [|computes_step]|computes_step].
      apply on_collector_computes. by destruct (negb b || closes_scope (current_ v3)).
    + pose proof (moved_shorter _ _ _ _ Hw2). pose proof (m_record _ _ _ Hw2) as Hr2.
      rewrite Hr1 in Hr2. apply computes_bind; [by apply on_collector_computes|].
      apply Hmore; try done; [auto with quiet|apply (m_normal _ _ _ Hw2)|cbn; lia|].
      by apply on_collector_computes.
  - intros st w v2 Hst Hw2. pose proof (comment_start_nonempty _ _ _ Hst) as Hne.
    destruct w as [|c w]; [done|]. pose proof (moved_shorter _ _ _ _ Hw2).
    pose proof (m_record _ _ _ Hw2) as Hr2. rewrite Hr1 in Hr2. pose proof (m_normal _ _ _ Hw2) as Hn2.
    destruct Hst as [[-> _]|[-> _]].
    + apply computes_bind; [by apply on_collector_computes|].
      apply Hmore; try done; [auto with quiet|cbn; lia|]. by apply ConsumeLineComment_computes.
    + apply computes_bind; [by apply on_collector_computes|]. cbn [fst snd].
      set (v3 := (Flat.on_collector _ v2).2).
      apply computes_bind_fwp; [by apply ConsumeBlockComment_computes|].
      apply quiet_fwp; [auto with quiet|done|done|]. intros _ w4 v4 Hn4 Hr4 Hw4.
      assert (length (buffer_ v4) < length (buffer_ v))%nat as Hl4.
      { assert (length (buffer_ v3) < length (buffer_ v))%nat as Hl3 by (cbn; lia).
        rewrite (r_buffer _ _ _ Hw4), length_app in Hl3. lia. }
      apply computes_bind_fwp; [computes_step|]. apply quiet_fwp; [auto with quiet|done..|].
      intros _ w5 v5 Hn5 Hr5 Hw5.
      apply computes_bind_fwp; [computes_step|]. apply quiet_fwp; [auto with quiet|done..|].
      intros _ w6 v6 Hn6 Hr6 Hw6. apply Hagain; [done..|].
      rewrite (r_buffer _ _ _ Hw5), (r_buffer _ _ _ Hw6), !length_app in Hl4. lia.
  - intros v2 _. apply computes_ret.
Qed.

Lemma NextWithComments_rest_computes pl tl v :
  normal v -> record_target_ v = None ->
  computes (S := S) (let* n := gets fuel in NextWithComments_loop pl tl n)
    (Flat.NextWithComments_rest pl tl) v.
Proof.
  intros Hv Hr s Hs Ev. apply wp_bind, wp_gets. rewrite fuel_view, Ev.
  by apply (NextWithComments_loop_computes pl tl (length (buffer_ v)) v).
Qed.

Lemma NextWithComments__computes v :
  normal v -> record_target_ v = None ->
  computes (S := S) NextWithComments_ Flat.NextWithComments_ v.
Proof.
  intros Hv Hr. apply computes_get. intros s Hs Ev. cbv zeta.
  rewrite (view_current s) by by rewrite Ev. change (line_ s) with (line_ (view s)). rewrite Ev.
  destruct (bool_decide (type (current_ v) = TYPE_START)) eqn:Es;
    (eapply computes_ext; [unfold Flat.NextWithComments_; rewrite Es; reflexivity|]).
  - apply computes_bind_fwp; [computes_step|]. apply quiet_fwp; [auto with quiet|done..|].
    intros b w1 v1 Hn1 Hr1 _.
    apply computes_bind_fwp; [computes_steps|].
    apply quiet_fwp; [unfold Flat.and_then; auto 10 with quiet|done..|].
    intros b' w2 v2 Hn2 Hr2 _.
    computes_step; [computes_steps|]. computes_step; [by apply on_collector_computes|].
    by apply NextWithComments_rest_computes.
  - apply computes_bind_fwp; [computes_step|]. apply quiet_fwp; [auto with quiet|done..|].
    intros _ w1 v1 Hn1 Hr1 _.
    apply computes_bind_fwp; [by apply TryConsumeCommentStart_computes|].
    apply quiet_fwp; [auto with quiet|done..|]. intros st w2 v2 Hn2 Hr2 _. destruct st.
    + computes_step; [apply computes_gets; by intros s' _ <-|]. cbn [fgets fst snd].
      computes_step; [by apply on_collector_computes|].
      apply computes_bind_fwp; [by apply ConsumeLineComment_computes|].
      apply quiet_fwp; [auto with quiet|done..|]. intros _ w3 v3 Hn3 Hr3 _.
      computes_step; [by apply on_collector_computes|]. by apply NextWithComments_rest_computes.
    + computes_step; [by apply on_collector_computes|].
      apply computes_bind_fwp; [by apply ConsumeBlockComment_computes|].
      apply quiet_fwp; [auto with quiet|done..|]. intros _ w3 v3 Hn3 Hr3 _.
      computes_step; [apply computes_gets; by intros s' _ <-|]. cbn [fgets fst snd].
      apply computes_bind_fwp; [computes_step|]. apply quiet_fwp; [auto with quiet|done..|].
      intros _ w4 v4 Hn4 Hr4 _.
      computes_step; [by apply on_collector_computes|]. by apply NextWithComments_rest_computes.
    + computes_step.
    + apply computes_bind_fwp; [computes_step|]. apply quiet_fwp; [auto with quiet|done..|].
      intros b w3 v3 Hn3 Hr3 _.
      computes_step; [by apply NextWithComments_rest_computes|by apply Next_computes].
Qed.

Lemma NextWithComments__quiet : quiet Flat.NextWithComments_.
Proof.
  assert (forall pl tl n, quiet (Flat.NextWithComments_loop pl tl n)) as Hloop.
  { intros pl tl. induction n as [|n IH]; cbn [Flat.NextWithComments_loop];
      (apply quiet_fbind; [auto with quiet|intros _]);
      (apply quiet_fbind; [auto with quiet|intros []]); auto 10 with quiet. }
  assert (forall pl tl, quiet (Flat.NextWithComments_rest pl tl)) as Hrest
    by (intros pl tl v; apply Hloop).
  intros v Hv Hr. unfold Flat.NextWithComments_, Flat.and_then, fwp. cbv beta.
  destruct (bool_decide (type (current_ v) = TYPE_START)).
  { match goal with |- context [(fbind ?m ?k) v] =>
      assert (quiet (fbind m k)) as Hq by auto 20 with quiet; by apply (Hq v) end. }
  match goal with |- context [(fbind ?m ?k) v] =>
    assert (quiet (fbind m k)) as Hq; [|by apply (Hq v)] end.
  apply quiet_fbind; [auto with quiet|intros _].
  apply quiet_fbind; [auto with quiet|intros []]; auto 20 with quiet.
Qed.
End tokens.
