(* ===== verification/TokenShapes.v ===== *)
(** * The shapes of tokens

    What the texts of tokens look like when no error was recorded, from the flat
    lexer. *)

From Stdlib Require Import Strings.Byte.
From S2P Require Import Prelude ZeroCopyStream Tokenizer TokenizerFlat.

#[local] Open Scope byte_scope.
#[local] Open Scope Z_scope.
#[local] Open Scope flat_scope.
Import Flat FlatScans FlatReads.

(** A fact about all 256 characters; [by_chars c P] adds that [P c] is true. *)
Lemma char_forall (P : byte -> bool) c :
  forallb (fun x => P (z2b x)) (map Z.of_nat (seq 0 256)) = true -> P c = true.
Proof.
  intros H. pose proof (byte_forall (fun x => P (z2b x)) H (b2z c) (b2z_range c)) as Hb.
  cbv beta in Hb. by rewrite z2b_b2z in Hb.
Qed.
Ltac by_chars c P :=
  let H := fresh in pose proof (char_forall P c ltac:(vm_compute; reflexivity)) as H; cbv beta in H.

(** ** Scanning without errors *)

(** [f] scans some [w] and, unless it records an error, [P] holds of its result,
    of [w] and of the state behind. *)
Definition clean {A} (f : F A) (v : V) (P : A -> list byte -> V -> Prop) : Prop :=
  fwp f v (fun a v' => exists w, moved w v v' /\ (errors v' = errors v -> P a w v')).

Lemma clean_mono {A} (f : F A) v (P Q : A -> list byte -> V -> Prop) :
  clean f v P -> (forall a w v', moved w v v' -> P a w v' -> Q a w v') -> clean f v Q.
Proof. intros (w & Hw & HP) HQ. exists w. auto. Qed.

Lemma errors_app_nil {A} (l es es' : list A) : (l ++ es) ++ es' = l -> es = [] /\ es' = [].
Proof.
  intros E. apply (f_equal length) in E. rewrite !length_app in E.
  destruct es, es'; cbn in E; (done || lia).
Qed.

Lemma clean_fbind {A B} (m : F A) (k : A -> F B) v (P : B -> list byte -> V -> Prop) :
  clean m v (fun a w v1 => clean (k a) v1 (fun b w' => P b (w ++ w'))) ->
  (forall a, scans (k a)) -> clean (fbind m k) v P.
Proof.
  intros (w & Hw & Hm) Hk. apply fwp_fbind. unfold fwp at 1.
  destruct (m v) as [a v1]. cbn [fst snd] in *.
  destruct (Hk a v1 (m_normal _ _ _ Hw)) as [w' Hw'].
  exists (w ++ w'). split; [by eapply moved_app|]. intros E.
  destruct (m_errors _ _ _ Hw) as [e1 E1]. destruct (m_errors _ _ _ Hw') as [e2 E2].
  rewrite E2, E1 in E. apply errors_app_nil in E as [-> ->]. rewrite app_nil_r in E1, E2.
  destruct (Hm E1) as (w2 & Hw2 & HP).
  assert (w2 = w') as ->.
  { pose proof (m_buffer _ _ _ Hw2) as Hb. rewrite (m_buffer _ _ _ Hw') in Hb.
    by apply app_inv_tail in Hb. }
  by apply HP.
Qed.

Lemma clean_fret {A} (a : A) v (P : A -> list byte -> V -> Prop) :
  normal v -> P a [] v -> clean (fret a) v P.
Proof. intros Hv HP. exists []. split; [by apply moved_nothing|done]. Qed.
Lemma clean_fgets {A} (f : V -> A) v (P : A -> list byte -> V -> Prop) :
  normal v -> P (f v) [] v -> clean (fgets f) v P.
Proof. intros Hv HP. exists []. split; [by apply moved_nothing|done]. Qed.

Lemma clean_AddError m v P : normal v -> clean (AddError m) v P.
Proof.
  intros Hv. exists []. split; [by apply error_moved|]. cbn. intros E.
  apply (f_equal length) in E. rewrite length_app in E. cbn in E. lia.
Qed.
Lemma clean_RecordError l c m v P : normal v -> clean (RecordError l c m) v P.
Proof.
  intros Hv. exists []. split; [by apply error_moved|]. cbn. intros E.
  apply (f_equal length) in E. rewrite length_app in E. cbn in E. lia.
Qed.

Lemma clean_scans {A} (f : F A) v (P : A -> list byte -> V -> Prop) :
  scans f -> normal v -> (forall a w v', moved w v v' -> errors v' = errors v -> P a w v') -> clean f v P.
Proof. intros Hf Hv HP. destruct (Hf v Hv) as [w Hw]. exists w. split; [done|]. by apply HP. Qed.

Lemma clean_NextChar v (P : unit -> list byte -> V -> Prop) :
  normal v -> buffer_ v <> [] ->
  (forall c v', current_char_ v = c -> moved [c] v v' -> P tt [c] v') -> clean NextChar v P.
Proof.
  intros Hv Hne HP. apply NextChar_fwp; [done..|]. intros c l v' El Ec Hw.
  exists [c]. split; [done|]. intros _. by apply HP.
Qed.

Lemma clean_TryConsumeOne p v (P : bool -> list byte -> V -> Prop) :
  normal v -> p NUL = false ->
  (p (current_char_ v) = false -> P false [] v) ->
  (forall c v', p c = true -> current_char_ v = c -> moved [c] v v' -> P true [c] v') ->
  clean (TryConsumeOne p) v P.
Proof.
  intros Hv Hn Hf Ht. apply TryConsumeOne_fwp; [done..| |].
  - intros Hc. exists []. split; [by apply moved_nothing|]. auto.
  - intros c l v' El Hc Hw. exists [c]. split; [done|]. intros _. apply Ht; [done| |done].
    by eapply current_char_cons.
Qed.

Lemma clean_TryConsume a v (P : bool -> list byte -> V -> Prop) :
  normal v -> a <> NUL ->
  (current_char_ v <> a -> P false [] v) ->
  (forall v', moved [a] v v' -> P true [a] v') ->
  clean (TryConsume a) v P.
Proof.
  intros Hv Ha Hf Ht. apply clean_TryConsumeOne; [done|by apply eqc_false; congruence| |].
  - intros Hc. apply Hf. by apply eqc_false.
  - intros c v' Hc _ Hw. apply eqc_true in Hc. subst c. by apply Ht.
Qed.

Lemma clean_ConsumeZeroOrMore p v (P : unit -> list byte -> V -> Prop) :
  normal v -> p NUL = false ->
  (forall w v', Forall (fun c => p c = true) w -> moved w v v' -> p (current_char_ v') = false ->
     P tt w v') ->
  clean (ConsumeZeroOrMore p) v P.
Proof.
  intros Hv Hn HP. apply ConsumeZeroOrMore_fwp; [done..|]. intros w v' _ Hf Hw Hc.
  exists w. split; [done|]. intros _. by apply HP.
Qed.

Lemma clean_ConsumeOneOrMore p e v (P : unit -> list byte -> V -> Prop) :
  normal v -> p NUL = false ->
  (forall w v', w <> [] -> Forall (fun c => p c = true) w -> moved w v v' ->
     p (current_char_ v') = false -> P tt w v') ->
  clean (ConsumeOneOrMore p e) v P.
Proof.
  intros Hv Hn HP. unfold clean, fwp, ConsumeOneOrMore.
  destruct (p (current_char_ v)) eqn:Ep; [|by apply clean_AddError].
  apply ConsumeZeroOrMore_fwp; [done..|]. intros w v' Ew Hf Hw Hc. exists w. split; [done|]. intros _.
  apply HP; try done. intros ->. destruct Hv as (Ec & _). rewrite Ec in Ep.
  destruct (buffer_ v) as [|c l]; cbn in Ep, Ew; [congruence|]. by rewrite Ep in Ew.
Qed.

(** ** Strings *)

(** What one round of [ConsumeString] accepts. *)
Inductive string_piece (multiline : bool) (quote : byte) : list byte -> Prop :=
| PlainPiece c :
    c <> NUL -> c <> BACKSLASH -> c <> quote -> (c = NL -> multiline = true) ->
    string_piece multiline quote [c]
| EscapePiece c : Escape c = true -> string_piece multiline quote [BACKSLASH; c]
| OctalPiece c : OctalDigit c = true -> string_piece multiline quote [BACKSLASH; c]
| HexPiece x c : x = "x"%byte \/ x = "X"%byte -> HexDigit c = true ->
    string_piece multiline quote [BACKSLASH; x; c]
| ShortUnicodePiece l : length l = 4%nat -> Forall (fun c => HexDigit c = true) l ->
    string_piece multiline quote (BACKSLASH :: "u"%byte :: l)
| LongUnicodePiece b l : b = "0"%byte \/ b = "1"%byte -> length l = 5%nat ->
    Forall (fun c => HexDigit c = true) l ->
    string_piece multiline quote (BACKSLASH :: "U" :: "0" :: "0" :: b :: l)%byte.

Definition string_body (multiline : bool) (quote : byte) (body : list byte) : Prop :=
  exists ps, body = concat ps /\ Forall (string_piece multiline quote) ps.

Definition string_text (multiline : bool) (text : list byte) : Prop :=
  exists quote body, (quote = QUOTE \/ quote = DQUOTE) /\ string_body multiline quote body /\
    text = quote :: body ++ [quote].

Lemma clean_HexDigits n v (P : bool -> list byte -> V -> Prop) :
  normal v ->
  (forall v' w, moved w v v' -> P false w v') ->
  (forall w v', length w = S n -> Forall (fun c => HexDigit c = true) w -> moved w v v' -> P true w v') ->
  clean (HexDigits (S n)) v P.
Proof.
  revert v P. induction n as [|n IH]; intros v P Hv Hf Ht.
  - apply clean_TryConsumeOne; [done..| |].
    + intros _. apply Hf. by apply moved_nothing.
    + intros c v' Hc _ Hw. apply Ht; try done. by repeat constructor.
  - change (HexDigits (S (S n))) with (and_then (TryConsumeOne HexDigit) (HexDigits (S n))).
    apply clean_fbind; [|intros []; auto with scans].
    apply clean_TryConsumeOne; [done..| |].
    + intros _. apply clean_fret; [done|]. apply Hf. by apply moved_nothing.
    + intros c v1 Hc _ Hw1. apply IH; [apply Hw1| |].
      * intros v' w Hw. apply Hf. by eapply moved_app.
      * intros w v' Hl Hw' Hw. apply Ht; [cbn; lia|by constructor|]. by eapply moved_app.
Qed.

Lemma clean_when c a b v (P : unit -> list byte -> V -> Prop) :
  scans a -> scans b ->
  clean c v (fun x w v1 => clean (if x : bool then a else b) v1 (fun r w' => P r (w ++ w'))) ->
  clean (when c a b) v P.
Proof. intros Ha Hb Hc. apply clean_fbind; [done|]. intros []; auto. Qed.

Lemma clean_and_then a b v (P : bool -> list byte -> V -> Prop) :
  scans b -> normal v ->
  clean a v (fun x w v1 => if x : bool then clean b v1 (fun y w' => P y (w ++ w')) else P false w v1) ->
  clean (and_then a b) v P.
Proof.
  intros Hb Hv Ha. apply clean_fbind; [|intros []; auto with scans].
  destruct Ha as (w & Hw & Ha). exists w. split; [done|]. intros E. specialize (Ha E).
  destruct (a v) as [x v1]; cbn [fst snd] in *. destruct x; [done|].
  apply clean_fret; [apply Hw|]. by rewrite app_nil_r.
Qed.

Lemma ConsumeEscape_clean ml q v :
  normal v ->
  clean ConsumeEscape v (fun _ w _ => string_piece ml q (BACKSLASH :: w)).
Proof.
  intros Hv. unfold ConsumeEscape.
  apply clean_when; [auto 20 with scans..|]. apply clean_TryConsumeOne; [done..| |].
  2: { intros c v' Hc _ Hw. apply clean_fret; [apply Hw|]. by apply EscapePiece. }
  intros _. apply clean_when; [auto 20 with scans..|]. apply clean_TryConsumeOne; [done..| |].
  2: { intros c v' Hc _ Hw. apply clean_fret; [apply Hw|]. by apply OctalPiece. }
  intros _. apply clean_when; [auto 20 with scans..|].
  apply clean_fbind; [|intros []; auto with scans].
  assert (forall x v1, x = "x"%byte \/ x = "X"%byte -> normal v1 ->
    clean (when (HexDigits 1) (fret tt) (AddError ExpectedHexDigits)) v1
      (fun _ w _ => string_piece ml q (BACKSLASH :: x :: w))) as Hhex.
  { intros x v1 Hx Hn1. apply clean_when; [auto with scans..|].
    apply clean_HexDigits; [done|..].
    - intros v' w Hw. by apply clean_AddError, Hw.
    - intros w v' Hl Hf Hw. apply clean_fret; [apply Hw|].
      destruct w as [|c [|]]; try done. apply Forall_inv in Hf. by apply HexPiece. }
  apply clean_TryConsume; [done..| |].
  2: { intros v1 Hw. apply clean_fret; [apply Hw|]. apply Hhex; [by left|apply Hw]. }
  intros _. apply clean_TryConsume; [done..| |].
  2: { intros v1 Hw. apply Hhex; [by right|apply Hw]. }
  intros _. apply clean_when; [auto 20 with scans..|]. apply clean_TryConsume; [done..| |].
  2: { intros v1 Hw. apply clean_when; [auto with scans..|]. apply clean_HexDigits; [apply Hw|..].
    - intros v' w Hw'. by apply clean_AddError, Hw'.
    - intros w v' Hl Hf Hw'. apply clean_fret; [apply Hw'|].
      cbn [app]. rewrite app_nil_r. by apply ShortUnicodePiece. }
  intros _. apply clean_when; [auto 20 with scans..|]. apply clean_TryConsume; [done..| |].
  2: { intros v1 Hw. apply clean_when; [auto with scans..|].
    assert (forall v w, normal v -> clean (AddError ExpectedEightHexDigits) v
      (fun _ w' _ => string_piece ml q (BACKSLASH :: "U"%byte :: w ++ w'))) as Hbad
      by by intros; apply clean_AddError.
    assert (normal v1) as Hn1 by apply Hw.
    apply clean_and_then; [auto 20 with scans|done|].
    apply clean_TryConsume; [done..|intros _; by apply (Hbad v1 [])|]. intros v2 Hw2.
    assert (normal v2) as Hn2 by apply Hw2.
    apply clean_and_then; [auto 20 with scans|done|].
    apply clean_TryConsume; [done..|intros _; by apply (Hbad v2 ["0"%byte])|]. intros v3 Hw3.
    assert (normal v3) as Hn3 by apply Hw3.
    apply clean_and_then; [auto with scans|done|].
    assert (forall b v4, b = "0"%byte \/ b = "1"%byte -> normal v4 ->
      clean (HexDigits 5) v4 (fun y w' v' => clean (if y : bool then fret tt else AddError ExpectedEightHexDigits) v'
         (fun _ w'' _ => string_piece ml q (BACKSLASH :: "U" :: "0" :: "0" :: b :: w' ++ w'')%byte))) as Hlast.
    { intros b v4 Hb Hn4. apply clean_HexDigits; [done|..].
      - intros v' w Hw'. by apply clean_AddError, Hw'.
      - intros w v' Hl Hf Hw'. apply clean_fret; [apply Hw'|]. rewrite app_nil_r.
        by apply LongUnicodePiece. }
    apply clean_fbind; [|intros []; auto with scans].
    apply clean_TryConsume; [done..| |].
    2: { intros v4 Hw4. apply clean_fret; [apply Hw4|]. apply (Hlast "0"%byte); [by left|apply Hw4]. }
    intros _. apply clean_TryConsume; [done..| |].
    2: { intros v4 Hw4. apply (Hlast "1"%byte); [by right|apply Hw4]. }
    intros _. by apply (Hbad v3 ["0"; "0"]%byte). }
  intros _. by apply clean_AddError.
Qed.

Lemma clean_ext {A} (f g : F A) v (P : A -> list byte -> V -> Prop) :
  f v = g v -> clean g v P -> clean f v P.
Proof. unfold clean, fwp. by intros ->. Qed.

Lemma ConsumeString_round_clean q v :
  q <> NL -> normal v ->
  clean (ConsumeString_round q) v (fun stop w _ =>
    if stop then w = [q] else string_piece (allow_multiline_strings_ (options v)) q w).
Proof.
  intros Hq Hv.
  destruct (eqc NUL (current_char_ v)) eqn:E0.
  { eapply clean_ext; [unfold ConsumeString_round; rewrite E0; reflexivity|].
    apply clean_fbind; [by apply clean_AddError|auto with scans]. }
  destruct (not_nul v NUL Hv E0) as [Hne _]. pose proof E0 as E0'%eqc_false.
  destruct (eqc NL (current_char_ v)) eqn:E1; [|destruct (eqc BACKSLASH (current_char_ v)) eqn:E2;
    [|destruct (eqc q (current_char_ v)) eqn:E3]].
  - destruct (allow_multiline_strings_ (options v)) eqn:Em;
      (eapply clean_ext; [unfold ConsumeString_round; rewrite E0, E1, Em; reflexivity|]).
    + apply clean_fbind; [|auto with scans]. apply clean_NextChar; [done..|].
      intros c v' Hc Hw. apply clean_fret; [apply Hw|]. apply eqc_true in E1.
      by apply PlainPiece; congruence.
    + apply clean_fbind; [by apply clean_AddError|auto with scans].
  - eapply clean_ext; [unfold ConsumeString_round; rewrite E0, E1, E2; reflexivity|].
    apply clean_fbind; [|intros; auto with scans]. apply clean_NextChar; [done..|].
    intros c v' Hc Hw. apply clean_fbind; [|intros; auto with scans].
    apply eqc_true in E2. rewrite Hc in E2. subst c.
    eapply clean_mono; [apply ConsumeEscape_clean, Hw|]. intros [] w v2 Hw2 HP.
    apply clean_fret; [apply Hw2|]. rewrite app_nil_r. exact HP.
  - eapply clean_ext; [unfold ConsumeString_round; rewrite E0, E1, E2, E3; reflexivity|].
    apply clean_fbind; [|auto with scans]. apply clean_NextChar; [done..|].
    intros c v' Hc Hw. apply clean_fret; [apply Hw|]. apply eqc_true in E3. by rewrite <- Hc, E3.
  - eapply clean_ext; [unfold ConsumeString_round; rewrite E0, E1, E2, E3; reflexivity|].
    apply clean_fbind; [|auto with scans]. apply clean_NextChar; [done..|].
    intros c v' Hc Hw. apply clean_fret; [apply Hw|].
    apply eqc_false in E1, E2, E3. apply PlainPiece; congruence.
Qed.

Lemma ConsumeString_clean q v :
  q <> NL -> normal v ->
  clean (ConsumeString q) v (fun _ w _ =>
    exists body, string_body (allow_multiline_strings_ (options v)) q body /\ w = body ++ [q]).
Proof.
  intros Hq Hv. unfold ConsumeString. change (clean (ConsumeString_loop q (length (buffer_ v))) v
    (fun _ w _ => exists body,
      string_body (allow_multiline_strings_ (options v)) q body /\ w = body ++ [q])).
  assert (length (buffer_ v) <= length (buffer_ v))%nat as Hn by done. revert Hn.
  generalize (length (buffer_ v)) at 2 3 as n. intros n. revert v Hv.
  induction n as [|n IH]; intros v Hv Hn; cbn [ConsumeString_loop];
    (apply clean_fbind; [|intros []; auto using ConsumeString_loop_scans with scans]);
    pose proof (ConsumeString_round_progress q v Hv) as Hp;
    (destruct (ConsumeString_round_clean q v Hq Hv) as (w & Hw & HP));
    exists w; (split; [done|]); intros E; specialize (HP E);
    destruct (ConsumeString_round q v) as [[] v1]; cbn [fst snd] in *;
    try (apply clean_fret; [apply Hw|]; subst w; exists []; split; [by exists []|done]);
    specialize (Hp eq_refl); [lia|].
  eapply clean_mono; [apply IH; [apply Hw|lia]|]. intros [] w2 v2 _ (body & (ps & -> & Hps) & ->).
  rewrite (m_options _ _ _ Hw) in Hps. exists (w ++ concat ps). split; [|by rewrite app_assoc].
  exists (w :: ps). split; [done|]. by constructor.
Qed.

(** ** Numbers *)

Notation all p := (Forall (fun c => p c = true)).

Definition integer_text (text : list byte) : Prop :=
  (exists x ds, (x = "x"%byte \/ x = "X"%byte) /\ ds <> [] /\ all HexDigit ds /\
     text = "0"%byte :: x :: ds) \/
  (exists ds, all OctalDigit ds /\ text = "0"%byte :: ds) \/
  (exists d ds, Digit d = true /\ d <> "0"%byte /\ all Digit ds /\ text = d :: ds).

Definition exponent (ex : list byte) : Prop :=
  exists e sign ds, (e = "e"%byte \/ e = "E"%byte) /\
    (sign = [] \/ sign = ["-"%byte] \/ sign = ["+"%byte]) /\ ds <> [] /\ all Digit ds /\
    ex = e :: sign ++ ds.

Definition suffix (allow_f : bool) (sf : list byte) : Prop :=
  sf = [] \/ allow_f = true /\ (sf = ["f"%byte] \/ sf = ["F"%byte]).

Definition float_text (allow_f : bool) (text : list byte) : Prop :=
  exists ip fp ex sf, text = ip ++ fp ++ ex ++ sf /\ all Digit ip /\
    (fp = [] \/ exists ds, fp = "."%byte :: ds /\ all Digit ds /\ (ip <> [] \/ ds <> [])) /\
    (ex = [] \/ exponent ex) /\ suffix allow_f sf /\
    (ip <> [] \/ fp <> []) /\ (fp <> [] \/ ex <> [] \/ sf <> []) /\
    (forall l, ip = "0"%byte :: l -> l = []).

(** What follows the first digit or the point. *)
Definition decimal_rest (allow_f dot is_float : bool) (w : list byte) (v : V) : Prop :=
  exists ds fp ex sf, w = ds ++ fp ++ ex ++ sf /\ all Digit ds /\
    (ds <> [] -> Digit (current_char_ v) = true) /\
    (fp = [] \/ dot = false /\ exists ds', fp = "."%byte :: ds' /\ all Digit ds') /\
    (ex = [] \/ exponent ex) /\ suffix allow_f sf /\
    is_float = dot || negb (bool_decide (fp = [])) || negb (bool_decide (ex = [])) ||
               negb (bool_decide (sf = [])).

Lemma clean_one_of a b v (P : bool -> list byte -> V -> Prop) :
  normal v -> a <> NUL -> b <> NUL ->
  P false [] v -> (forall c v', c = a \/ c = b -> moved [c] v v' -> P true [c] v') ->
  clean (or_else (TryConsume a) (TryConsume b)) v P.
Proof.
  intros Hv Ha Hb Hf Ht. apply clean_fbind; [|intros []; auto with scans].
  apply clean_TryConsume; [done..| |].
  - intros _. by apply clean_TryConsume; [..|intros v' Hw; apply (Ht b); [by right|]].
  - intros v1 Hw. apply clean_fret; [apply Hw|]. apply (Ht a); [by left|done].
Qed.

Lemma first_of_moved (p : byte -> bool) w v v' :
  all p w -> moved w v v' -> normal v -> w <> [] -> p (current_char_ v) = true.
Proof.
  intros Hw Hm (Ec & _) Hne. rewrite Ec, (m_buffer _ _ _ Hm). destruct w; [done|].
  by apply Forall_inv in Hw.
Qed.

Lemma ConsumeExponent_clean (is_float : bool) v :
  normal v ->
  clean (let+ e := or_else (TryConsume "e") (TryConsume "E") in
    if e : bool then
      or_else (TryConsume "-") (TryConsume "+") ;+
      ConsumeOneOrMore Digit EmptyExponent ;+ fret true
    else fret is_float) v
    (fun b w _ => (w = [] \/ exponent w) /\ b = is_float || negb (bool_decide (w = []))).
Proof.
  intros Hv. apply clean_fbind; [|intros []; auto with scans].
  apply clean_one_of; [done..| |].
  - apply clean_fret; [done|]. split; [by left|]. by rewrite bool_decide_eq_true_2, orb_false_r.
  - intros e v1 He Hw1. apply clean_fbind; [|intros; auto with scans].
    assert (forall sign v2, sign = [] \/ sign = ["-"%byte] \/ sign = ["+"%byte] -> normal v2 ->
      clean (ConsumeOneOrMore Digit EmptyExponent ;+ fret true) v2 (fun b w _ =>
        ([e] ++ sign ++ w = [] \/ exponent ([e] ++ sign ++ w)) /\
        b = is_float || negb (bool_decide ([e] ++ sign ++ w = [])))) as Hds.
    { intros sign v2 Hsign Hn2. apply clean_fbind; [|auto with scans].
      apply clean_ConsumeOneOrMore; [done..|]. intros w v3 Hne Hw Hw3 _.
      apply clean_fret; [apply Hw3|]. rewrite app_nil_r. split.
      - right. by exists e, sign, w.
      - by rewrite bool_decide_eq_false_2, orb_true_r. }
    apply clean_one_of; [apply Hw1|done|done| |].
    + apply (Hds []); [by left|apply Hw1].
    + intros c v2 Hc Hw2. apply (Hds [c]); [|apply Hw2]. destruct Hc as [-> | ->]; auto.
Qed.

Lemma ConsumeFraction_clean dot v :
  normal v ->
  clean (ConsumeZeroOrMore Digit ;+
     if dot : bool then fret true
     else let+ d := TryConsume "." in
          if d : bool then ConsumeZeroOrMore Digit ;+ fret true else fret false) v
    (fun b w _ => exists ds fp, w = ds ++ fp /\ all Digit ds /\
       (ds <> [] -> Digit (current_char_ v) = true) /\
       (fp = [] \/ dot = false /\ exists ds', fp = "."%byte :: ds' /\ all Digit ds') /\
       b = dot || negb (bool_decide (fp = []))).
Proof.
  intros Hv. apply clean_fbind; [|intros; destruct dot; auto with scans].
  apply clean_ConsumeZeroOrMore; [done..|]. intros ds v1 Hds Hw1 _.
  assert (ds <> [] -> Digit (current_char_ v) = true) as Hd by by eapply first_of_moved.
  destruct dot.
  - apply clean_fret; [apply Hw1|]. exists ds, []. split_and!; auto.
  - apply clean_fbind; [|intros []; auto with scans].
    apply clean_TryConsume; [apply Hw1|done| |].
    + intros _. apply clean_fret; [apply Hw1|]. exists ds, []. split_and!; auto.
    + intros v2 Hw2. apply clean_fbind; [|auto with scans].
      apply clean_ConsumeZeroOrMore; [apply Hw2|done|]. intros ds' v3 Hds' Hw3 _.
      apply clean_fret; [apply Hw3|]. exists ds, ("."%byte :: ds'). rewrite app_nil_r.
      split_and!; try done. right. split; [done|]. by exists ds'.
Qed.

Lemma ConsumeDecimal_clean dot v :
  normal v ->
  clean (ConsumeDecimal dot) v (fun b w _ =>
    decimal_rest (allow_f_after_float_ (options v)) dot b w v).
Proof.
  intros Hv. unfold ConsumeDecimal. apply clean_fbind; [|intros; auto 20 with scans].
  eapply clean_mono; [by apply ConsumeFraction_clean|].
  intros b1 w1 v1 Hw1 (ds & fp & -> & Hds & Hd & Hfp & ->).
  apply (clean_ext _ (let+ b2 := (let+ e := or_else (TryConsume "e") (TryConsume "E") in
      if e : bool then
        or_else (TryConsume "-") (TryConsume "+") ;+
        ConsumeOneOrMore Digit EmptyExponent ;+ fret true
      else fret (dot || negb (bool_decide (fp = [])))) in
    let+ allow_f := fgets (fun v => allow_f_after_float_ (options v)) in
    let+ f := (if allow_f : bool then or_else (TryConsume "f") (TryConsume "F") else fret false) in
    fret ((b2 : bool) || f))).
  { unfold fbind. by destruct (or_else _ _ v1). }
  apply clean_fbind; [|intros; auto 20 with scans].
  eapply clean_mono; [apply ConsumeExponent_clean, Hw1|]. intros b2 ex v2 Hw2 (Hex & ->).
  apply clean_fbind; [|intros; auto with scans]. apply clean_fgets; [apply Hw2|].
  rewrite (m_options _ _ _ Hw2), (m_options _ _ _ Hw1).
  assert (forall f sf, suffix (allow_f_after_float_ (options v)) sf -> f = negb (bool_decide (sf = [])) ->
    decimal_rest (allow_f_after_float_ (options v)) dot
     ((dot || negb (bool_decide (fp = []))) || negb (bool_decide (ex = [])) || f)
     ((ds ++ fp) ++ ex ++ [] ++ sf) v) as Hend.
  { intros f sf Hsf ->. exists ds, fp, ex, sf. split_and!; try done. by rewrite <- app_assoc. }
  apply clean_fbind; [|auto with scans].
  destruct (allow_f_after_float_ (options v)) eqn:Ea.
  - apply clean_one_of; [apply Hw2|done|done| |].
    + apply clean_fret; [apply Hw2|]. by apply Hend; [left|].
    + intros c v3 Hc Hw3. apply clean_fret; [apply Hw3|]. apply Hend; [|done].
      right. destruct Hc as [-> | ->]; auto.
  - apply clean_fret; [apply Hw2|]. apply clean_fret; [apply Hw2|]. by apply Hend; [left|].
Qed.

(** What [Next] has consumed when it calls [ConsumeNumber]. *)
Definition number_start (z dot : bool) (pre : list byte) : Prop :=
  z = true /\ dot = false /\ pre = ["0"%byte] \/
  (exists c, Digit c = true /\ c <> "0"%byte /\ z = false /\ dot = false /\ pre = [c]) \/
  (exists c, Digit c = true /\ z = false /\ dot = true /\ pre = ["."%byte; c]).

Definition number_text (allow_f : bool) (ty : TokenType) (text : list byte) : Prop :=
  ty = TYPE_INTEGER /\ integer_text text \/ ty = TYPE_FLOAT /\ float_text allow_f text.

Lemma decimal_text af z dot b pre w v :
  number_start z dot pre -> decimal_rest af dot b w v ->
  (z = true -> Digit (current_char_ v) = false) ->
  number_text af (if b then TYPE_FLOAT else TYPE_INTEGER) (pre ++ w).
Proof.
  intros Hpre (ds & fp & ex & sf & -> & Hds & Hd & Hfp & Hex & Hsf & ->) Hz.
  assert (z = true -> ds = []) as Hzd.
  { intros Ez. specialize (Hz Ez). destruct ds; [done|]. specialize (Hd ltac:(done)). congruence. }
  destruct Hpre as [(Ez & -> & ->)|[(c & Hc & Hc0 & -> & -> & ->)|(c & Hc & -> & -> & ->)]].
  3: { right. split; [done|]. exists [], ("."%byte :: c :: ds), ex, sf.
    destruct Hfp as [-> |[? _]]; [|done]. split_and!; try done; [|auto; by right|by left].
    right. exists (c :: ds). split_and!; [done| |by right]. by constructor. }
  2: assert (Digit c = true) as Hdig by done.
  1: assert (Digit "0" = true) as Hdig by done; rewrite (Hzd Ez) in *; clear Hzd.
  all: destruct (decide (fp = [] /\ ex = [] /\ sf = [])) as [(-> & -> & ->)|Hne];
    [left; cbn; (split; [done|])|right].
  - right. left. by exists [].
  - split; [by case_bool_decide; case_bool_decide; case_bool_decide; try done; exfalso; auto|].
    exists ["0"%byte], fp, ex, sf. split_and!; try done.
    + by repeat constructor.
    + destruct Hfp as [-> |(_ & ds' & -> & Hds')]; [by left|right; exists ds'; auto].
    + by left.
    + destruct fp; [|by left]. destruct ex; [|by right; left]. destruct sf; [|by right; right].
      by destruct Hne.
    + by intros l [= <-].
  - right. right. exists c, ds. by rewrite !app_nil_r.
  - split; [by case_bool_decide; case_bool_decide; case_bool_decide; try done; exfalso; auto|].
    exists (c :: ds), fp, ex, sf. split_and!; try done.
    + by constructor.
    + destruct Hfp as [-> |(_ & ds' & -> & Hds')]; [by left|right; exists ds'; auto].
    + by left.
    + destruct fp; [|by left]. destruct ex; [|by right; left]. destruct sf; [|by right; right].
      by destruct Hne.
    + intros l [= -> _]. done.
Qed.

Lemma ConsumeNumber_clean z dot pre v :
  number_start z dot pre -> normal v ->
  clean (ConsumeNumber z dot) v (fun ty w _ =>
    number_text (allow_f_after_float_ (options v)) ty (pre ++ w)).
Proof.
  intros Hpre Hv. unfold ConsumeNumber.
  set (af := allow_f_after_float_ (options v)).
  assert (forall (b : bool) w v1, normal v1 -> number_text af (if b then TYPE_FLOAT else TYPE_INTEGER) (pre ++ w) ->
    clean (let+ v := fgets (fun v => v) in
      (if Letter (current_char_ v) && require_space_after_number_ (options v) then
         AddError NumberNeedsSpace
       else if eqc "." (current_char_ v) then
         if b : bool then AddError SecondPoint else AddError NotAnInteger
       else fret tt) ;+
      fret (if b : bool then TYPE_FLOAT else TYPE_INTEGER)) v1 (fun ty w' _ =>
        number_text af ty (pre ++ w ++ w'))) as Hend.
  { intros b w v1 Hn1 HP. apply clean_fbind; [|intros; auto 20 with scans]. apply clean_fgets; [done|].
    apply clean_fbind; [|intros; auto with scans].
    destruct (Letter _ && _); [by apply clean_AddError|].
    destruct (eqc "." _); [destruct b; by apply clean_AddError|].
    apply clean_fret; [done|]. apply clean_fret; [done|]. by rewrite app_nil_r. }
  apply clean_fbind; [|intros; auto 20 with scans].
  apply clean_fbind; [|intros []; auto 20 with scans].
  assert (forall v1, normal v1 -> options v1 = options v ->
    (z = true -> Digit (current_char_ v1) = false) ->
    clean (ConsumeDecimal dot) v1 (fun (b : bool) w _ =>
      number_text af (if b then TYPE_FLOAT else TYPE_INTEGER) (pre ++ w)))
    as Hdec.
  { intros v1 Hn1 Ho Hz. eapply clean_mono; [by apply ConsumeDecimal_clean|]. intros b w v2 _ Hw.
    eapply decimal_text; try done. subst af. by rewrite <- Ho. }
  destruct Hpre as [(-> & -> & Epre)|Hpre].
  - apply clean_one_of; [done..| |].
    + apply clean_fbind; [|intros []; auto 20 with scans]. apply clean_fgets; [done|].
      destruct (Digit (current_char_ v)) eqn:Ed.
      * apply clean_fbind; [|intros; auto 20 with scans].
        apply clean_ConsumeZeroOrMore; [done..|]. intros ds v1 Hds Hw1 _.
        apply clean_fbind; [|intros []; auto 20 with scans]. apply clean_fgets; [apply Hw1|].
        destruct (Digit (current_char_ v1)).
        -- apply clean_fbind; [|intros; auto with scans].
           apply clean_fbind; [by apply clean_AddError, Hw1|auto with scans].
        -- apply clean_fbind; [|intros; auto with scans]. apply clean_fret; [apply Hw1|].
           apply clean_fret; [apply Hw1|]. cbn [app]. rewrite !app_nil_r.
           eapply clean_mono; [apply (Hend false ds); [apply Hw1|]|done].
           left. split; [done|]. right; left. exists ds. by rewrite Epre.
      * eapply clean_mono; [by apply Hdec|]. intros b w v2 Hw2 HP. cbn [app].
        apply Hend; [apply Hw2|done].
    + intros x v1 Hx Hw1. apply clean_fbind; [|intros; auto with scans].
      apply clean_ConsumeOneOrMore; [apply Hw1|done|]. intros ds v2 Hne Hds Hw2 _.
      apply clean_fret; [apply Hw2|]. rewrite app_nil_r.
      apply (Hend false ([x] ++ ds)); [apply Hw2|].
      left. split; [done|]. left. exists x, ds. by rewrite Epre.
  - assert (z = false) as -> by by destruct Hpre as [(? & _ & _ & ? & _)|(? & _ & ? & _)].
    apply clean_fret; [done|]. apply clean_fbind; [|intros []; auto 20 with scans].
    apply clean_fret; [done|]. cbn [app].
    eapply clean_mono; [by apply Hdec|]. intros b w v2 Hw2 HP. apply Hend; [apply Hw2|done].
Qed.

(** ** Tokens *)

Definition identifier_text (text : list byte) : Prop :=
  exists c l, Letter c = true /\ all Alphanumeric l /\ text = c :: l.

Definition symbol_text (text : list byte) : Prop :=
  exists c, 33 <= b2z c < 128 /\ Letter c = false /\ Digit c = false /\ c <> QUOTE /\ c <> DQUOTE /\
    text = [c].

(** The text of a token of [Next], when there was no error. *)
Definition token_text (o : Options) (ty : TokenType) (text : list byte) : Prop :=
  match ty with
  | TYPE_IDENTIFIER => identifier_text text
  | TYPE_INTEGER => integer_text text
  | TYPE_FLOAT => float_text (allow_f_after_float_ o) text
  | TYPE_STRING => string_text (allow_multiline_strings_ o) text
  | TYPE_SYMBOL => symbol_text text
  | TYPE_WHITESPACE =>
      report_whitespace_ o || report_newlines_ o = true /\ text <> [] /\ all Whitespace text
  | TYPE_NEWLINE => report_newlines_ o = true /\ text = [NL]
  | TYPE_START | TYPE_END => False
  end.

(** [f], which has read [pre] before, reads on and sets the type. *)
Definition typed (pre : list byte) (f : F unit) (v : V) (P : TokenType -> list byte -> Prop) : Prop :=
  fwp f v (fun _ v' => exists ty w v1, moved w v v1 /\ pre ++ w <> [] /\ v' = (set_type ty v1).2 /\
    (errors v1 = errors v -> P ty (pre ++ w))).

Lemma typed_clean pre m v (P : TokenType -> list byte -> Prop) :
  pre <> [] -> clean m v (fun ty w _ => P ty (pre ++ w)) ->
  typed pre (let+ ty := m in set_type ty) v P.
Proof.
  intros Hpre (w & Hw & HP). apply fwp_fbind. unfold fwp at 1.
  exists (m v).1, w, (m v).2. split_and!; try done. intros [? _]%app_eq_nil. done.
Qed.

Lemma typed_clean_const pre {A} (m : F A) ty v (P : TokenType -> list byte -> Prop) :
  pre <> [] -> clean m v (fun _ w _ => P ty (pre ++ w)) -> typed pre (m ;+ set_type ty) v P.
Proof.
  intros Hpre (w & Hw & HP). apply fwp_fbind. unfold fwp at 1.
  exists ty, w, (m v).2. split_and!; try done. intros [? _]%app_eq_nil. done.
Qed.

Lemma typed_when_try p pre a b v P :
  normal v -> p NUL = false ->
  (forall c v1, p c = true -> current_char_ v = c -> moved [c] v v1 -> typed (pre ++ [c]) a v1 P) ->
  (p (current_char_ v) = false -> typed pre b v P) ->
  typed pre (when (TryConsumeOne p) a b) v P.
Proof.
  intros Hv Hn Ha Hb. apply fwp_fbind, TryConsumeOne_fwp; [done..| |].
  - intros Hc. by apply Hb.
  - intros c l v1 El Hc Hw1.
    eapply fwp_mono; [apply (Ha c); [done|by eapply current_char_cons|done]|].
    intros [] v' (ty & w & v2 & Hw2 & Hne & -> & HP).
    exists ty, (c :: w), v2. rewrite <- app_assoc in *. split_and!; try done.
    + by eapply (moved_app [c]).
    + intros E. destruct (m_errors _ _ _ Hw1) as [e1 E1]. destruct (m_errors _ _ _ Hw2) as [e2 E2].
      rewrite E2, E1 in E. apply errors_app_nil in E as [-> ->]. apply HP.
      by rewrite E2, app_nil_r.
Qed.

Lemma typed_when_char c pre a b v P :
  normal v -> c <> NUL ->
  (forall v1, current_char_ v = c -> moved [c] v v1 -> typed (pre ++ [c]) a v1 P) ->
  (current_char_ v <> c -> typed pre b v P) ->
  typed pre (when (TryConsume c) a b) v P.
Proof.
  intros Hv Hc Ha Hb. apply typed_when_try; [done|by apply eqc_false; congruence| |].
  - intros c' v1 E Ec Hw. apply eqc_true in E. subst c'. by apply Ha.
  - intros E. apply Hb. by apply eqc_false.
Qed.

Lemma typed_step pre (f g : F unit) v P :
  fwp f v (fun _ v1 => moved [] v v1 /\ typed pre g v1 P) -> typed pre (f ;+ g) v P.
Proof.
  intros Hf. apply fwp_fbind. eapply fwp_mono; [exact Hf|]. cbv beta. intros [] v1 [Hw1 Hg].
  destruct Hg as (ty & w & v2 & Hw2 & Hne & Ev & HP). unfold fwp. rewrite Ev.
  exists ty, w, v2. split_and!; try done; [by eapply (moved_app [])|]. intros E.
  destruct (m_errors _ _ _ Hw1) as [e1 E1]. destruct (m_errors _ _ _ Hw2) as [e2 E2].
  rewrite E2, E1 in E. apply errors_app_nil in E as [-> ->]. apply HP. by rewrite E2, app_nil_r.
Qed.

Lemma typed_error_if pre (b : bool) l c m g v P :
  normal v -> (forall v1, moved [] v v1 -> typed pre g v1 (fun ty w => b = false -> P ty w)) ->
  typed pre ((if b then RecordError l c m else fret tt) ;+ g) v P.
Proof.
  intros Hv Hg. destruct b.
  - apply fwp_fbind. unfold fwp at 1. cbn [fst snd]. unfold RecordError, fmod. cbn [snd].
    set (v1 := add_error _ v).
    destruct (Hg v1 (error_moved _ v Hv)) as (ty & w & v2 & Hw2 & Hne & Ev & _).
    unfold fwp. rewrite Ev. exists ty, w, v2.
    split_and!; try done; [by eapply (moved_app []); [apply error_moved|]|]. intros E.
    destruct (m_errors _ _ _ Hw2) as [e2 E2]. rewrite E2 in E. cbn in E.
    by apply errors_app_nil in E as [? _].
  - apply typed_step. split; [by apply moved_nothing|]. change (typed pre g v P).
    destruct (Hg v (moved_nothing v Hv)) as (ty & w & v2 & Hw2 & Hne & Ev & HP).
    unfold typed, fwp. rewrite Ev. exists ty, w, v2. split_and!; auto.
Qed.

Lemma string_typed o q v v1 :
  q = QUOTE \/ q = DQUOTE -> moved [q] v v1 -> options v = o ->
  typed [q] (ConsumeString q ;+ set_type TYPE_STRING) v1 (token_text o).
Proof.
  intros Hq Hw <-. apply typed_clean_const; [done|].
  eapply clean_mono; [apply ConsumeString_clean; [by destruct Hq as [-> | ->]|apply Hw]|].
  intros [] w v2 _ (body & Hb & ->). rewrite (m_options _ _ _ Hw) in Hb.
  by exists q, body.
Qed.

Lemma number_typed o z dot pre v1 :
  number_start z dot pre -> normal v1 -> options v1 = o ->
  typed pre (let+ ty := ConsumeNumber z dot in set_type ty) v1 (token_text o).
Proof.
  intros Hpre Hv <-. apply typed_clean.
  - by destruct Hpre as [(_ & _ & ->)|[(? & _ & _ & _ & _ & ->)|(? & _ & _ & _ & ->)]].
  - eapply clean_mono; [by apply ConsumeNumber_clean|]. intros ty w v2 _ [[-> ?]|[-> ?]]; done.
Qed.

Definition not_space (v : V) : Prop := current_char_ v <> " "%byte.

Lemma symbol_byte c :
  Flat.control c = false -> c <> " "%byte -> Z.land (b2z c) 0x80 = 0 -> 33 <= b2z c < 128.
Proof.
  intros Hc Hs Hl. by_chars c (fun c => Flat.control c || eqc " " c || negb (Z.land (b2z c) 0x80 =? 0) ||
    (33 <=? b2z c) && (b2z c <? 128)).
  rewrite Hc, (proj2 (eqc_false _ _) Hs), Hl in H. cbn [orb Z.eqb negb] in H. lia.
Qed.

Lemma ConsumeToken_body_typed v :
  normal v -> buffer_ v <> [] -> Flat.control (current_char_ v) = false -> not_space v ->
  typed []
   (when (TryConsumeOne Letter) (ConsumeZeroOrMore Alphanumeric ;+ set_type TYPE_IDENTIFIER)
    (when (TryConsume "0") (let+ ty := ConsumeNumber true false in set_type ty)
    (when (TryConsume ".")
       (when (TryConsumeOne Digit)
          (let+ v := fgets (fun v => v) in
           (if bool_decide (type (previous_ v) = TYPE_IDENTIFIER) &&
               (line (current_ v) =? line (previous_ v)) &&
               (column (current_ v) =? end_column (previous_ v))
            then RecordError (line_ v) (column_ v - 2) IdentifierNeedsSpace
            else fret tt) ;+
           let+ ty := ConsumeNumber false true in set_type ty)
          (set_type TYPE_SYMBOL))
    (when (TryConsumeOne Digit) (let+ ty := ConsumeNumber false false in set_type ty)
    (when (TryConsume DQUOTE) (ConsumeString DQUOTE ;+ set_type TYPE_STRING)
    (when (TryConsume QUOTE) (ConsumeString QUOTE ;+ set_type TYPE_STRING)
       (let+ v := fgets (fun v => v) in
        (if negb (Z.land (b2z (current_char_ v)) 0x80 =? 0) then
           RecordError (line_ v) (column_ v) (NonAscii (b2z (current_char_ v)))
         else fret tt) ;+
        NextChar ;+ set_type TYPE_SYMBOL))))))) v (token_text (options v)).
Proof.
  intros Hv Hne Hctl Hsp.
  apply typed_when_try; [done..| |intros E1].
  { intros c v1 Hc _ Hw. apply typed_clean_const; [done|].
    apply clean_ConsumeZeroOrMore; [apply Hw|done|]. intros l v2 Hl _ _. by exists c, l. }
  apply typed_when_char; [done..| |intros E2].
  { intros v1 _ Hw. apply number_typed; [by left|apply Hw|apply Hw]. }
  apply typed_when_char; [done..| |intros E3].
  { intros v1 Ec Hw. apply typed_when_try; [apply Hw|done| |].
    - intros c v2 Hc _ Hw2.
      pose proof (m_options _ _ _ Hw) as Ho1. pose proof (m_options _ _ _ Hw2) as Ho2.
      assert (number_start false true ["."%byte; c]) as Hs by (right; right; by exists c).
      apply typed_error_if; [apply Hw2|]. intros v3 Hw3.
      destruct (number_typed (options v) false true ["."%byte; c] v3 Hs) as (ty & w & v4 & ? & ? & Ev & ?);
        [apply Hw3|rewrite (m_options _ _ _ Hw3); congruence|].
      unfold typed, fwp. rewrite Ev. exists ty, w, v4. split_and!; auto.
    - intros _. exists TYPE_SYMBOL, [], v1. split_and!; try done; [by apply moved_nothing, Hw|].
      intros _. exists "."%byte. by vm_compute. }
  apply typed_when_try; [done..| |intros E4].
  { intros c v1 Hc Ec Hw. apply number_typed; [|apply Hw|apply Hw]. right; left.
    exists c. split_and!; try done. congruence. }
  apply typed_when_char; [done..| |intros E5].
  { intros v1 _ Hw. by apply (string_typed _ _ v); [right| |]. }
  apply typed_when_char; [done..| |intros E6].
  { intros v1 _ Hw. by apply (string_typed _ _ v); [left| |]. }
  apply (typed_error_if [] (negb (Z.land (b2z (current_char_ v)) 0x80 =? 0))
    (line_ v) (column_ v) (NonAscii (b2z (current_char_ v)))
    (NextChar ;+ set_type TYPE_SYMBOL)); [done|]. intros v1 Hw1.
  assert (current_char_ v1 = current_char_ v) as Ec.
  { destruct (m_normal _ _ _ Hw1) as (-> & _), Hv as (-> & _). by rewrite (m_buffer _ _ _ Hw1). }
  apply fwp_fbind. destruct (m_buffer _ _ _ Hw1).
  apply NextChar_fwp; [apply Hw1|by rewrite (m_buffer _ _ _ Hw1) in Hne|].
  intros c l v2 _ Ec2 Hw2. exists TYPE_SYMBOL, [c], v2. split_and!; try done. intros _ Hb.
  rewrite Ec2 in Ec. subst c. apply negb_false_iff, Z.eqb_eq in Hb.
  pose proof (symbol_byte _ Hctl Hsp Hb). exists (current_char_ v). split_and!; try done; lia.
Qed.

Lemma ConsumeToken_token v :
  normal v -> record_target_ v = None -> buffer_ v <> [] -> Flat.control (current_char_ v) = false ->
  not_space v ->
  fwp ConsumeToken v (fun _ v' => exists ty w, w <> [] /\ read_by w v v' /\
    previous_ v' = previous_ v /\ collector v' = collector v /\
    current_ v' = mkToken ty w (line_ v) (column_ v) (walk w (pos v)).2 /\
    (errors v' = errors v -> token_text (options v) ty w)).
Proof.
  intros Hv Hr Hne Hctl Hsp. apply fwp_fbind. unfold fwp at 1.
  set (v0 := (StartToken v).2).
  assert (normal v0) as Hn0 by (destruct Hv as (? & ? & ? & ?); by split_and!).
  destruct (ConsumeToken_body_typed v0 Hn0 Hne Hctl Hsp) as (ty & w & v1 & Hw & Hwne & Ev & HP).
  apply fwp_fbind. unfold fwp at 1. rewrite Ev. cbn [fst snd app] in *. exists ty, w.
  destruct (moved_read_by _ _ _ Hw) as [B1 N1 P1 O1 E1].
  pose proof (m_current _ _ _ Hw) as Hc. cbn in Hc.
  unfold fwp. split_and!; try done.
  - constructor; try done. by destruct N1 as (? & ? & ? & ?).
  - cbn. apply (m_previous _ _ _ Hw).
  - cbn. apply (m_collector _ _ _ Hw).
  - cbn -[walk]. rewrite Hc. cbn -[walk]. f_equal. exact (f_equal snd P1).
Qed.

(** ** Between the tokens *)

(** What is skipped without an error. *)
Inductive gap_piece (style : CommentStyle) : list byte -> Prop :=
| GapSpace w : all Whitespace w -> gap_piece style w
| GapLine start w eol :
    (style = CPP_COMMENT_STYLE /\ start = ["/"; "/"]%byte \/
     style = SH_COMMENT_STYLE /\ start = ["#"]%byte) ->
    all not_line_end w -> eol = [] \/ eol = [NL] -> gap_piece style (start ++ w ++ eol)
| GapBlock body :
    style = CPP_COMMENT_STYLE -> gap_piece style (["/"; "*"] ++ body ++ ["*"; "/"])%byte.

Definition gap_text (style : CommentStyle) (gap : list byte) : Prop :=
  exists ps, gap = concat ps /\ Forall (gap_piece style) ps.

Lemma gap_text_nil style : gap_text style [].
Proof. by exists []. Qed.
Lemma gap_text_one style w : gap_piece style w -> gap_text style w.
Proof. intros Hw. exists [w]. cbn. rewrite app_nil_r. split; [done|by apply Forall_singleton]. Qed.
Lemma gap_text_app style w1 w2 : gap_text style w1 -> gap_text style w2 -> gap_text style (w1 ++ w2).
Proof.
  intros (p1 & -> & H1) (p2 & -> & H2). exists (p1 ++ p2). rewrite concat_app.
  split; [done|by apply Forall_app].
Qed.

Lemma ConsumeLineComment_clean v :
  normal v ->
  clean (ConsumeLineComment false) v (fun _ w _ => exists l eol,
    w = l ++ eol /\ all not_line_end l /\ (eol = [] \/ eol = [NL])).
Proof.
  intros Hv. unfold ConsumeLineComment. apply clean_fbind; [|auto with scans].
  apply clean_fret; [done|]. apply clean_fbind; [|auto with scans].
  apply clean_ConsumeZeroOrMore; [done..|]. intros l v1 Hl Hw1 _.
  apply clean_fbind; [|auto with scans]. apply clean_TryConsume; [apply Hw1|done| |].
  - intros _. apply clean_fret; [apply Hw1|]. exists l, []. cbn. auto.
  - intros v2 Hw2. apply clean_fret; [apply Hw2|]. exists l, [NL]. cbn. auto.
Qed.

Lemma comment_end_clean v :
  normal v ->
  clean (and_then (TryConsume "*") (TryConsume "/")) v (fun stop w _ =>
    stop = true -> w = ["*"; "/"]%byte).
Proof.
  intros Hv. apply clean_fbind; [|intros []; auto with scans].
  apply clean_TryConsume; [done..|by intros _; apply clean_fret|]. intros v1 Hw1.
  apply clean_TryConsume; [apply Hw1|done|done|done].
Qed.

Lemma ConsumeBlockComment_round_clean l c v :
  normal v ->
  clean (ConsumeBlockComment_round l c false) v (fun stop w _ =>
    stop = true -> exists body, w = body ++ ["*"; "/"]%byte).
Proof.
  intros Hv. unfold ConsumeBlockComment_round. apply clean_fbind; [|intros; auto 20 with scans].
  apply clean_ConsumeZeroOrMore; [done..|]. intros w1 v1 _ Hw1 Hstop.
  apply clean_fbind; [|intros []; auto 20 with scans]. apply clean_TryConsume; [apply Hw1|done| |].
  - intros _. apply clean_fbind; [|intros []; auto 20 with scans].
    eapply clean_mono; [apply comment_end_clean, Hw1|]. intros stop w2 v2 Hw2 H2. destruct stop.
    + specialize (H2 eq_refl). subst w2. apply clean_fbind; [|auto with scans].
      apply clean_fret; [apply Hw2|]. apply clean_fret; [apply Hw2|]. intros _. by exists w1.
    + apply clean_fbind; [|intros []; auto 20 with scans].
      eapply (clean_scans (and_then (TryConsume "/") (fgets (fun v => eqc "*" (current_char_ v)))));
        [auto with scans|apply Hw2|]. intros nested w3 v3 Hw3 _. destruct nested.
      * apply clean_fbind; [|auto with scans]. apply clean_AddError, Hw3.
      * apply clean_fbind; [|intros c'; auto 20 with scans]. apply clean_fgets; [apply Hw3|].
        destruct (eqc NUL (current_char_ v3)).
        -- apply clean_fbind; [|auto with scans]. apply clean_AddError, Hw3.
        -- apply clean_fret; [apply Hw3|done].
  - intros v2 Hw2. apply clean_fbind; [|auto 20 with scans]. apply clean_fret; [apply Hw2|].
    apply clean_fbind; [|auto 20 with scans].
    apply clean_ConsumeZeroOrMore; [apply Hw2|done|]. intros w3 v3 _ Hw3 _.
    apply clean_fbind; [|intros []; auto with scans].
    eapply clean_mono; [apply comment_end_clean, Hw3|]. intros stop w4 v4 Hw4 H4. destruct stop.
    + specialize (H4 eq_refl). subst w4. apply clean_fret; [apply Hw4|]. intros _.
      exists (w1 ++ [NL] ++ w3). by rewrite <- !app_assoc.
    + apply clean_fbind; [|auto with scans]. apply clean_fret; [apply Hw4|].
      by apply clean_fret; [apply Hw4|].
Qed.

Lemma ConsumeBlockComment_clean v :
  normal v ->
  clean (ConsumeBlockComment false) v (fun _ w _ => exists body, w = body ++ ["*"; "/"]%byte).
Proof.
  intros Hv. apply (clean_ext _ (ConsumeBlockComment_loop (line_ v) (column_ v - 2) false
    (length (buffer_ v)))); [done|].
  generalize (line_ v), (column_ v - 2). intros l c.
  assert (length (buffer_ v) <= length (buffer_ v))%nat as Hn by done. revert Hn.
  generalize (length (buffer_ v)) at 2 3 as n. intros n. revert v Hv.
  induction n as [|n IH]; intros v Hv Hn; cbn [ConsumeBlockComment_loop];
    (apply clean_fbind; [|intros []; auto using ConsumeBlockComment_loop_scans with scans]);
    pose proof (ConsumeBlockComment_round_progress l c false v Hv) as Hp; unfold fwp in Hp;
    (destruct (ConsumeBlockComment_round_clean l c v Hv) as (w & Hw & HP));
    exists w; (split; [done|]); intros E; specialize (HP E);
    destruct (ConsumeBlockComment_round l c false v) as [[] v1]; cbn [fst snd] in *;
    try (apply clean_fret; [apply Hw|]; rewrite app_nil_r; by apply HP);
    specialize (Hp eq_refl); [lia|].
  eapply clean_mono; [apply IH; [apply Hw|lia]|]. intros [] w2 v2 _ (body & ->).
  exists (w ++ body). by rewrite app_assoc.
Qed.

(** ** White space *)

Definition token_at (v : V) (ty : TokenType) (w : list byte) (v' : V) : Prop :=
  current_ v' = mkToken ty w (line_ v) (column_ v) (walk w (pos v)).2.

Definition space_done (v : V) (b : bool) (v' : V) : Prop :=
  normal v' /\ record_target_ v' = None /\ previous_ v' = previous_ v /\
  collector v' = collector v /\
  exists w, read_by w v v' /\ errors v' = errors v /\ all Whitespace w /\
    if b then w <> [] /\ exists ty, token_at v ty w v' /\ token_text (options v) ty w
    else not_space v'.

Lemma space_is_whitespace w : all WhitespaceNoNewline w -> all Whitespace w.
Proof.
  intros Hw. eapply Forall_impl; [exact Hw|]. intros c Hc. unfold WhitespaceNoNewline, Whitespace in *.
  destruct (eqc " " c); [done|]. cbn [orb] in *. rewrite <- !orb_assoc in *.
  rewrite Hc. by rewrite orb_true_r.
Qed.

Lemma StartToken_normal v : normal v -> normal (StartToken v).2.
Proof. intros (? & ? & ? & ?). by split_and!. Qed.

(** A token that was started at [v] and is ended behind [w]. *)
Lemma token_end ty w v v1 :
  moved w (StartToken v).2 v1 ->
  let v' := (EndToken (set_type ty v1).2).2 in
  normal v' /\ record_target_ v' = None /\ previous_ v' = previous_ v /\
  collector v' = collector v /\ read_by w v v' /\ token_at v ty w v' /\ errors v' = errors v1.
Proof.
  intros Hw. destruct (moved_read_by _ _ _ Hw) as [B1 N1 P1 O1 E1].
  pose proof (m_current _ _ _ Hw) as Hc. cbn in Hc.
  cbv zeta. split_and!; try done.
  - by destruct N1 as (? & ? & ? & ?).
  - cbn. apply (m_previous _ _ _ Hw).
  - cbn. apply (m_collector _ _ _ Hw).
  - constructor; try done. by destruct N1 as (? & ? & ? & ?).
  - unfold token_at. cbn -[walk]. rewrite Hc. cbn -[walk]. f_equal. exact (f_equal snd P1).
Qed.

Lemma consume_errors w v : errors (consume w v) = errors v.
Proof. unfold consume, recorded, append_target. cbn. by destruct (record_target_ v) as [[]|]. Qed.

(** A run of the characters of a class. *)
Lemma run_of_class p (k : F bool) v :
  normal v -> p NUL = false ->
  (let+ b := TryConsumeOne p in
   if b : bool then ConsumeZeroOrMore p ;+ k else fret false) v =
  if p (current_char_ v) then k (consume (take_while p (buffer_ v)) v) else (false, v).
Proof.
  intros Hv Hn. unfold fbind at 1, TryConsumeOne. destruct (p (current_char_ v)) eqn:Ep; [|done].
  unfold fbind, NextChar, ConsumeZeroOrMore, fmod. cbn [fst snd].
  rewrite consume_app, buffer_consume. destruct Hv as (Ec & _). rewrite Ec in Ep.
  destruct (buffer_ v) as [|c l]; cbn in Ep |- *; [congruence|]. by rewrite Ep.
Qed.

Lemma first_in_class p v : normal v -> p NUL = false -> p (current_char_ v) = true ->
  take_while p (buffer_ v) <> [].
Proof.
  intros (Ec & _) Hn Hp. rewrite Ec in Hp. destruct (buffer_ v) as [|c l]; cbn in *; [congruence|].
  by rewrite Hp.
Qed.

Lemma run_moved p v : moved (take_while p (buffer_ v)) v (consume (take_while p (buffer_ v)) v).
Proof. destruct (take_while_spec p (buffer_ v)) as (r & Hr & _). by apply (consume_moved _ r). Qed.

Lemma run_stops p v : p NUL = false ->
  p (current_char_ (consume (take_while p (buffer_ v)) v)) = false.
Proof.
  intros Hn. destruct (take_while_spec p (buffer_ v)) as (r & Hr & _ & Hs). cbn.
  rewrite Hr at 2. rewrite drop_app_length. by destruct r.
Qed.

Lemma all_take_while p l : all p (take_while p l).
Proof. by destruct (take_while_spec p l) as (r & _ & H & _). Qed.

Lemma newline_not_space c : Whitespace c = false -> c <> " "%byte.
Proof. by intros Hc ->. Qed.
Lemma no_newline_not_space c : WhitespaceNoNewline c = false -> c <> " "%byte.
Proof. by intros Hc ->. Qed.

Lemma TryConsumeWhitespace_eq v :
  normal v ->
  TryConsumeWhitespace v =
    let p := if report_newlines_ (options v) then WhitespaceNoNewline else Whitespace in
    if p (current_char_ v) then
      (report_newlines_ (options v) || report_whitespace_ (options v),
       (set_type TYPE_WHITESPACE (consume (take_while p (buffer_ v)) v)).2)
    else (false, v).
Proof.
  intros Hv. unfold TryConsumeWhitespace. rewrite fbind_fgets.
  destruct (report_newlines_ (options v)); cbv zeta; by rewrite run_of_class.
Qed.

Lemma TryConsumeNewline_eq v :
  normal v ->
  TryConsumeNewline v =
    if report_whitespace_ (options v) && report_newlines_ (options v) && eqc NL (current_char_ v)
    then (true, (set_type TYPE_NEWLINE (NextChar v).2).2) else (false, v).
Proof.
  intros Hv. unfold TryConsumeNewline. rewrite fbind_fgets, <- negb_andb.
  destruct (report_whitespace_ (options v) && report_newlines_ (options v)); [|done]. cbn [negb andb].
  unfold fbind, TryConsume, TryConsumeOne. by destruct (eqc NL (current_char_ v)).
Qed.

(** White space that is a token, is skipped, or is not there. *)
Lemma space_token v ty w v1 :
  moved w (StartToken v).2 v1 -> errors v1 = errors v -> all Whitespace w -> w <> [] ->
  token_text (options v) ty w -> space_done v true (EndToken (set_type ty v1).2).2.
Proof.
  intros Hw He Hall Hne Ht. destruct (token_end ty _ _ _ Hw) as (H1 & H2 & H3 & H4 & H5 & H6 & H7).
  split; [done|]. split; [done|]. split; [done|]. split; [done|].
  exists w. split; [done|]. split; [by rewrite H7|]. split; [done|]. split; [done|]. by exists ty.
Qed.

Lemma space_gap v ty w v1 :
  moved w (StartToken v).2 v1 -> errors v1 = errors v -> all Whitespace w -> not_space v1 ->
  space_done v false (EndToken (set_type ty v1).2).2.
Proof.
  intros Hw He Hall Hns. destruct (token_end ty _ _ _ Hw) as (H1 & H2 & H3 & H4 & H5 & H6 & H7).
  split; [done|]. split; [done|]. split; [done|]. split; [done|].
  exists w. split; [done|]. split; [by rewrite H7|]. done.
Qed.

Lemma set_same_type v : (set_type (type (current_ v)) v).2 = v.
Proof. by destruct v as [? ? ? ? ? ? ? [] ? ? ? ? ? ?]. Qed.

Lemma no_space_gap v :
  normal v -> not_space v -> space_done v false (EndToken (StartToken v).2).2.
Proof.
  intros Hv Hns. rewrite <- (set_same_type (StartToken v).2) at 1.
  apply (space_gap v _ []); try done. by apply moved_nothing, StartToken_normal.
Qed.

Lemma Next_space_done v : normal v -> fwp Next_space v (space_done v).
Proof.
  intros Hv. apply fwp_fbind. unfold fwp at 1. pose proof (StartToken_normal v Hv) as Hn0.
  apply fwp_fbind. apply fwp_mono with (P := fun b v1 => space_done v b (EndToken v1).2); [|done].
  apply fwp_fbind. unfold fwp at 1. rewrite TryConsumeWhitespace_eq by done.
  set (v0 := (StartToken v).2) in *. change (options v0) with (options v).
  cbv zeta. set (p := if report_newlines_ (options v) then _ else _).
  assert (p NUL = false) as Hp by (subst p; by destruct (report_newlines_ _)).
  assert (forall w, all p w -> all Whitespace w) as Hall.
  { subst p. destruct (report_newlines_ _); [apply space_is_whitespace|done]. }
  assert (forall v1 : V, p (current_char_ v1) = false -> not_space v1) as Hns.
  { subst p. intros v1. destruct (report_newlines_ _);
      [apply no_newline_not_space|apply newline_not_space]. }
  pose proof (run_moved p v0) as Hw. pose proof (run_stops p v0 Hp) as Hstop.
  pose proof (consume_errors (take_while p (buffer_ v0)) v0) as He.
  pose proof (Hall _ (all_take_while p (buffer_ v0))) as Hws.
  destruct (p (current_char_ v0)) eqn:Ec; cbn [fst snd].
  - pose proof (first_in_class p v0 Hn0 Hp Ec) as Hne.
    destruct (report_newlines_ (options v) || report_whitespace_ (options v)) eqn:Er.
    + apply fwp_fret. apply (space_token v TYPE_WHITESPACE _ _ Hw); try done.
      split; [by rewrite orb_comm|done].
    + apply orb_false_iff in Er as [_ Er].
      set (v1 := consume _ v0) in *. set (v2 := (set_type TYPE_WHITESPACE v1).2).
      assert (options v2 = options v) as Ho by exact (m_options _ _ _ Hw).
      unfold fwp. rewrite TryConsumeNewline_eq by exact (m_normal _ _ _ Hw). rewrite Ho, Er.
      by apply (space_gap v TYPE_WHITESPACE _ _ Hw); auto.
  - unfold fwp. rewrite TryConsumeNewline_eq by done. change (options v0) with (options v).
    destruct (_ && _ && _) eqn:El.
    + apply andb_true_iff in El as [[_ Hrn]%andb_true_iff Hc]. apply eqc_true in Hc.
      assert (moved [NL] v0 (NextChar v0).2) as Hw1.
      { destruct Hn0 as (Ecc & _). rewrite Ecc in Hc. unfold NextChar, fmod. cbn [snd].
        destruct (buffer_ v0) as [|c l] eqn:Eb; cbn in Hc; [done|]. subst c.
        by apply (consume_moved _ l). }
      apply (space_token v TYPE_NEWLINE [NL] _ Hw1); try done. by repeat constructor.
    + by apply no_space_gap; auto.
Qed.

(** ** One call of Next *)

(** From [v] to [v'], the bytes [gap] are skipped and [text] is the text of the
    current token. *)
Definition token_behind (o : Options) (gap text : list byte) (ty : TokenType) (v v' : V) : Prop :=
  read_by (gap ++ text) v v' /\ text <> [] /\
  current_ v' = mkToken ty text (walk gap (pos v)).1 (walk gap (pos v)).2
                  (walk (gap ++ text) (pos v)).2 /\
  (errors v' = errors v -> gap_text (comment_style_ o) gap /\ token_text o ty text).

Definition end_behind (o : Options) (gap : list byte) (v v' : V) : Prop :=
  read_by gap v v' /\ buffer_ v' = [] /\ (errors v' = errors v -> gap_text (comment_style_ o) gap).

Definition round_post (v : V) (f : flow) (v' : V) : Prop :=
  normal v' /\ record_target_ v' = None /\ previous_ v' = previous_ v /\ collector v' = collector v /\
  match f with
  | Return_true => exists gap text ty, token_behind (options v) gap text ty v v'
  | Break => exists gap, end_behind (options v) gap v v'
  | Continue => exists gap, gap <> [] /\ read_by gap v v' /\
      (errors v' = errors v -> gap_text (comment_style_ (options v)) gap)
  end.

Lemma errors_prefix {A} (l1 l2 l3 : list A) :
  (exists e, l2 = l1 ++ e) -> (exists e, l3 = l2 ++ e) -> l3 = l1 -> l2 = l1 /\ l3 = l2.
Proof.
  intros [e1 ->] [e2 ->] E. apply errors_app_nil in E as [-> ->]. by rewrite !app_nil_r.
Qed.

(** A comment: its start and the rest of it. *)
Lemma comment_gap v w0 v1 (f : F unit) (P : list byte -> Prop) :
  moved w0 v v1 -> w0 <> [] -> record_target_ v = None ->
  clean f v1 (fun _ w _ => P w) -> (forall w, P w -> gap_piece (comment_style_ (options v)) (w0 ++ w)) ->
  fwp (f ;+ fret Continue) v1 (round_post v).
Proof.
  intros Hw0 Hne Hr (w & Hw & HP) Hgap. apply fwp_fbind. unfold fwp at 1. apply fwp_fret.
  pose proof (moved_app _ _ _ _ _ Hw0 Hw) as Hm.
  split; [apply Hm|]. split; [by rewrite (m_record _ _ _ Hm)|].
  split; [apply (m_previous _ _ _ Hm)|]. split; [by rewrite (m_collector _ _ _ Hm), Hr|].
  exists (w0 ++ w). split; [intros [? _]%app_eq_nil; done|]. split; [by apply moved_read_by|].
  intros E. apply gap_text_one, Hgap, HP.
  by eapply errors_prefix in E as [_ ?]; [|apply Hw0|apply Hw].
Qed.

Lemma control_gap v :
  normal v -> record_target_ v = None -> buffer_ v <> [] -> control (current_char_ v) = true ->
  fwp (AddError ControlCharacters ;+ ConsumeZeroOrMore control ;+ fret Continue) v (round_post v).
Proof.
  intros Hv Hr Hne Hc. apply fwp_fbind. unfold fwp at 1.
  set (v1 := (AddError _ v).2). assert (moved [] v v1) as Hw1 by by apply error_moved.
  pose proof (ConsumeZeroOrMore_moved control v1) as Hw2.
  apply fwp_fbind. unfold fwp at 1. apply fwp_fret.
  pose proof (moved_app _ _ _ _ _ Hw1 Hw2) as Hm. cbn [app] in Hm.
  split; [apply Hm|]. split; [by rewrite (m_record _ _ _ Hm)|].
  split; [apply (m_previous _ _ _ Hm)|]. split; [by rewrite (m_collector _ _ _ Hm), Hr|].
  eexists. split; [|split; [by apply moved_read_by|]].
  - destruct Hv as (Ec & _). rewrite Ec in Hc. change (buffer_ v1) with (buffer_ v).
    destruct (buffer_ v); cbn in Hc |- *; [done|]. by rewrite Hc.
  - intros E. eapply errors_prefix in E as [E _]; [|apply Hw1|apply Hw2]. cbn in E.
    apply (f_equal length) in E. rewrite length_app in E. cbn in E. lia.
Qed.

Lemma token_round v :
  normal v -> record_target_ v = None -> buffer_ v <> [] -> control (current_char_ v) = false ->
  not_space v -> fwp (ConsumeToken ;+ fret Return_true) v (round_post v).
Proof.
  intros Hv Hr Hne Hc Hns. apply fwp_fbind.
  destruct (ConsumeToken_token v Hv Hr Hne Hc Hns) as (ty & w & Hwne & Hw & Hp & Hcol & Ek & Ht).
  unfold fwp at 1. apply fwp_fret. split; [apply Hw|]. split; [apply ConsumeToken_record|].
  split; [done|]. split; [done|]. exists [], w, ty. split; [done|]. split; [done|]. split; [done|].
  intros E. split; [apply gap_text_nil|auto].
Qed.

Lemma Next_rest_post v :
  normal v -> record_target_ v = None -> not_space v -> fwp Next_rest v (round_post v).
Proof.
  intros Hv Hr Hns. apply fwp_fbind, TryConsumeCommentStart_fwp; [done|..].
  - apply fwp_fbind, fwp_fgets. pose proof Hv as (Ec & _ & Ee & _). rewrite Ee.
    case_bool_decide as Hb.
    + apply fwp_fret. split; [done|]. split; [done|]. split; [done|]. split; [done|].
      exists []. split; [by apply read_by_refl|]. split; [done|]. intros _. apply gap_text_nil.
    + destruct (control (current_char_ v)) eqn:Ek; [by apply control_gap|by apply token_round].
  - intros st w0 v1 Hst Hw0. pose proof (comment_start_nonempty _ _ _ Hst) as Hne.
    pose proof (m_normal _ _ _ Hw0) as Hn1. destruct Hst as [[-> Hs]|(-> & Hs & ->)].
    + eapply comment_gap; try done; [by apply ConsumeLineComment_clean|].
      intros w (l & eol & -> & Hl & Heol). by apply GapLine.
    + eapply comment_gap; try done; [by apply ConsumeBlockComment_clean|].
      intros w (body & ->). by apply (GapBlock _ body).
  - intros v1 Hw. apply fwp_fret. pose proof (moved_read_by _ _ _ Hw) as [B N P O E].
    split; [done|]. split; [cbn; by rewrite (m_record _ _ _ Hw)|].
    split; [apply (m_previous _ _ _ Hw)|]. split; [cbn; by rewrite (m_collector _ _ _ Hw), Hr|].
    exists [], ["/"%byte], TYPE_SYMBOL. split; [by constructor|]. split; [done|].
    unfold pos in P. cbn in P. injection P as P1 P2.
    split.
    + cbn. unfold slash_token. rewrite P1, P2. f_equal; lia.
    + intros _. split; [apply gap_text_nil|]. exists "/"%byte. by vm_compute.
Qed.

(** *** Composition of gaps *)

Definition skipped (gap : list byte) (v v1 : V) : Prop :=
  read_by gap v v1 /\ (errors v1 = errors v -> gap_text (comment_style_ (options v)) gap).

Lemma token_behind_skip w gap text ty v v1 v' :
  skipped w v v1 -> token_behind (options v1) gap text ty v1 v' ->
  token_behind (options v) (w ++ gap) text ty v v'.
Proof.
  intros [Hw Hg] (Hr & Hne & Ek & Ht). pose proof (r_options _ _ _ Hw) as Ho.
  split; [rewrite <- app_assoc; by eapply read_by_trans|]. split; [done|]. split.
  - by rewrite Ek, (r_pos _ _ _ Hw), !walk_app.
  - intros E. eapply errors_prefix in E as [E1 E2]; [|apply Hw|apply Hr].
    rewrite Ho in Ht. destruct (Ht E2). split; [by apply gap_text_app; [apply Hg|]|done].
Qed.

Lemma end_behind_skip w gap v v1 v' :
  skipped w v v1 -> end_behind (options v1) gap v1 v' -> end_behind (options v) (w ++ gap) v v'.
Proof.
  intros [Hw Hg] (Hr & Hb & Ht). pose proof (r_options _ _ _ Hw) as Ho.
  split; [by eapply read_by_trans|]. split; [done|].
  intros E. eapply errors_prefix in E as [E1 E2]; [|apply Hw|apply Hr].
  rewrite Ho in Ht. by apply gap_text_app; [apply Hg|apply Ht].
Qed.

Lemma skipped_trans w1 w2 v v1 v2 : skipped w1 v v1 -> skipped w2 v1 v2 -> skipped (w1 ++ w2) v v2.
Proof.
  intros [H1 G1] [H2 G2]. split; [by eapply read_by_trans|].
  intros E. eapply errors_prefix in E as [E1 E2]; [|apply H1|apply H2].
  rewrite (r_options _ _ _ H1) in G2. by apply gap_text_app; [apply G1|apply G2].
Qed.

Lemma round_post_skip w v v1 f v' :
  skipped w v v1 -> previous_ v1 = previous_ v -> collector v1 = collector v ->
  round_post v1 f v' -> round_post v f v'.
Proof.
  intros Hw Hp Hc (Hn & Hr & Hp' & Hc' & Hf).
  split; [done|]. split; [done|]. split; [congruence|]. split; [congruence|]. destruct f.
  - destruct Hf as (gap & text & ty & Hf). exists (w ++ gap), text, ty. by eapply token_behind_skip.
  - destruct Hf as (gap & Hf). exists (w ++ gap). by eapply end_behind_skip.
  - destruct Hf as (gap & Hne & Hr' & Hg). exists (w ++ gap).
    split; [intros [_ ?]%app_eq_nil; done|]. by eapply (skipped_trans w gap _ v1).
Qed.

Lemma Next_round_post v : normal v -> fwp Next_round v (round_post v).
Proof.
  intros Hv. unfold fwp. rewrite Next_round_halves.
  change (fwp (let+ report_token := Next_space in
    if report_token : bool then fret Return_true else Next_rest) v (round_post v)).
  apply fwp_fbind. eapply fwp_mono; [by apply Next_space_done|].
  intros b v1 (Hn & Hr & Hp & Hc & w & Hw & He & Hall & Hb). destruct b.
  - destruct Hb as (Hne & ty & Hk & Ht). apply fwp_fret.
    split; [done|]. split; [done|]. split; [done|]. split; [done|]. exists [], w, ty.
    split; [done|]. split; [done|]. split; [done|]. intros _. split; [apply gap_text_nil|done].
  - eapply fwp_mono; [by apply Next_rest_post|]. intros f v'. apply (round_post_skip w); try done.
    split; [done|]. intros _. by apply gap_text_one, GapSpace.
Qed.

Definition end_token (v : V) : Token := mkToken TYPE_END [] (line_ v) (column_ v) (column_ v).

Definition next_post (v : V) (b : bool) (v' : V) : Prop :=
  normal v' /\ record_target_ v' = None /\ previous_ v' = previous_ v /\ collector v' = collector v /\
  if b then exists gap text ty, token_behind (options v) gap text ty v v'
  else current_ v' = end_token v' /\ exists gap, end_behind (options v) gap v v'.

Lemma EndOfFile_post v gap v1 :
  normal v1 -> record_target_ v1 = None -> previous_ v1 = previous_ v -> collector v1 = collector v ->
  end_behind (options v) gap v v1 -> fwp EndOfFile v1 (next_post v).
Proof.
  intros Hn Hr Hp Hc ([? ? ? ? ?] & Hb & Hg). split; [done|]. split; [done|]. split; [done|].
  split; [done|]. split; [done|]. exists gap. split; [by constructor|]. split; [done|]. done.
Qed.

Lemma Next_loop_post n v :
  normal v -> record_target_ v = None -> (length (buffer_ v) <= n)%nat ->
  fwp (Next_loop n) v (next_post v).
Proof.
  revert v. induction n as [|n IH]; intros v Hv Hr Hn; cbn [Next_loop]; apply fwp_fbind, fwp_fgets;
    pose proof Hv as (_ & _ & Ee & _);
    (destruct (read_error_ v);
     [symmetry in Ee; apply bool_decide_eq_true in Ee; apply (EndOfFile_post v []); try done;
      split; [by apply read_by_refl|]; split; [done|]; intros _; apply gap_text_nil|]);
    apply fwp_fbind; (eapply fwp_mono; [by apply Next_round_post|]);
    intros f v1 (Hn1 & Hr1 & Hp1 & Hc1 & Hf); destruct f;
    try (apply fwp_fret; by split_and!);
    try (destruct Hf as [gap Hf]; by eapply EndOfFile_post);
    destruct Hf as (gap & Hne & Hw & Hg); pose proof (read_by_shorter _ _ _ Hw Hne); [lia|].
  eapply fwp_mono; [apply IH; try done; lia|]. intros b v2 (Hn2 & Hr2 & Hp2 & Hc2 & Hb).
  split; [done|]. split; [done|]. split; [congruence|]. split; [congruence|]. destruct b.
  - destruct Hb as (gap2 & text & ty & Hb). exists (gap ++ gap2), text, ty.
    by apply (token_behind_skip _ _ _ _ _ v1).
  - destruct Hb as (Hk & gap2 & Hb). split; [done|]. exists (gap ++ gap2).
    by apply (end_behind_skip _ _ _ v1).
Qed.

Lemma Next_post v :
  normal v -> record_target_ v = None ->
  fwp Next v (fun b v' => next_post (set_previous (current_ v) v) b v').
Proof. intros Hv Hr. by apply (Next_loop_post _ (set_previous (current_ v) v)). Qed.
