(* ===== verification/TokenizerSpec.v ===== *)
(** * What the tokenizer promises

    A client constructs a [Tokenizer] over a stream, asks for tokens with or
    without their comments, and destroys it. *)

From Stdlib Require Import Strings.Byte Strings.String.
From S2P Require Import Prelude ZeroCopyStream Tokenizer TokenizerFlat TokenizerRefine TokenValues TokenShapes.

#[local] Open Scope Z_scope.
#[local] Open Scope flat_scope.
Import FlatScans FlatReads.

(** ** Sessions *)

Inductive call :=
| CallNext
| CallNextWithComments (prev_trailing : option (list byte)) (detached : option (list (list byte)))
    (next_leading : option (list byte)).

(** What a call returns, [current()] and [previous()] after it, and the comments. *)
Record outcome := mkOutcome {
  result : bool;
  current : Token;
  previous : Token;
  comments : option (option (list byte) * option (list (list byte)) * option (list byte));
}.

Section sessions.
Context {S : Type} `{ZeroCopyInputStreamOk S}.

Definition run_call (c : call) : M (t S) outcome :=
  let* r :=
    match c with
    | CallNext => let* b := Next in ret (b, None)
    | CallNextWithComments p d n => let* r := NextWithComments p d n in ret (r.1, Some r.2)
    end in
  let* s := getS in
  ret (mkOutcome r.1 (current_ s) (previous_ s) r.2).

Fixpoint run_calls (cs : list call) : M (t S) (list outcome) :=
  match cs with
  | [] => ret []
  | c :: cs => let* o := run_call c in let* os := run_calls cs in ret (o :: os)
  end.

(** The outcomes, the errors that were recorded, and the stream that is left. *)
Definition session (opts : Options) (cs : list call) (i : S)
    : option (list outcome * list Error * S) :=
  match make i opts with
  | None => None
  | Some s =>
      match run_calls cs s with
      | None => None
      | Some (os, s) =>
          match destroy s with
          | None => None
          | Some i => Some (os, errors s, i)
          end
      end
  end.
End sessions.

Section flat_sessions.

Definition start (bytes : list byte) (opts : Options) : V :=
  let k := mkToken TYPE_START [] 0 0 0 in
  mk tt (hd NUL bytes) bytes 0 (bool_decide (bytes = [])) 0 0 k k None 0
    (mkCollector None None None [] 0 false false false true) [] opts.

Definition flat_call (c : call) : F outcome :=
  let+ r :=
    match c with
    | CallNext => let+ b := Flat.Next in fret (b, None)
    | CallNextWithComments p d n => let+ r := Flat.NextWithComments p d n in fret (r.1, Some r.2)
    end in
  let+ v := fgets (fun v => v) in
  fret (mkOutcome r.1 (current_ v) (previous_ v) r.2).

Fixpoint flat_calls (cs : list call) : F (list outcome) :=
  match cs with
  | [] => fret []
  | c :: cs => let+ o := flat_call c in let+ os := flat_calls cs in fret (o :: os)
  end.

Lemma start_normal bytes opts : normal (start bytes opts).
Proof. done. Qed.

Lemma NextWithComments_quiet p d n : quiet (Flat.NextWithComments p d n).
Proof.
  apply quiet_fbind; [auto with quiet|intros _].
  apply quiet_fbind; [apply NextWithComments__quiet|intros b]. auto 10 with quiet.
Qed.

Lemma flat_call_quiet c : quiet (flat_call c).
Proof.
  apply quiet_fbind; [|intros; auto with quiet].
  destruct c; [auto with quiet|]. apply quiet_fbind; [apply NextWithComments_quiet|auto with quiet].
Qed.

Lemma flat_calls_quiet cs : quiet (flat_calls cs).
Proof.
  induction cs as [|c cs IH]; cbn [flat_calls]; [auto with quiet|].
  apply quiet_fbind; [apply flat_call_quiet|auto with quiet].
Qed.
End flat_sessions.

Section refinement.
Context {S : Type} `{ZeroCopyInputStreamOk S}.

Lemma NextWithComments_computes p d n v :
  normal v -> record_target_ v = None ->
  computes (S := S) (NextWithComments p d n) (Flat.NextWithComments p d n) v.
Proof.
  intros Hv Hr. apply computes_bind; [by apply on_collector_computes|].
  apply computes_bind_fwp; [by apply NextWithComments__computes|].
  apply quiet_fwp; [apply NextWithComments__quiet|done..|]. intros b w1 v1 _ Hr1 _.
  computes_step; [by apply on_collector_computes|].
  computes_step; [|computes_step]. apply computes_gets. intros s _ Ev. cbn [fst snd] in Ev.
  assert (record_target_ s = None) as Ht by (change (record_target_ (view s) = None); by rewrite Ev).
  change (collector s = collector (Flat.on_collector end_collector v1).2). rewrite <- Ev.
  unfold view, append_target. cbn. by rewrite Ht.
Qed.

Lemma run_call_computes c v :
  normal v -> record_target_ v = None -> computes (S := S) (run_call c) (flat_call c) v.
Proof.
  intros Hv Hr.
  assert (quiet match c with
    | CallNext => let+ b := Flat.Next in fret (b, None)
    | CallNextWithComments p d n => let+ r := Flat.NextWithComments p d n in fret (r.1, Some r.2)
    end) as Hq.
  { destruct c; [auto with quiet|]. apply quiet_fbind; [apply NextWithComments_quiet|auto with quiet]. }
  apply computes_bind_fwp.
  - destruct c; computes_step; try computes_step; [by apply Next_computes|].
    by apply NextWithComments_computes.
  - apply quiet_fwp; [done..|]. intros r w v1 _ Hr1 _. apply computes_get. intros s _ Ev.
    rewrite (view_current s) by by rewrite Ev. destruct (view_tokens s) as (-> & _). rewrite Ev.
    eapply computes_ext; [symmetry; apply fbind_fgets|]. computes_step.
Qed.

Lemma run_calls_computes cs v :
  normal v -> record_target_ v = None -> computes (S := S) (run_calls cs) (flat_calls cs) v.
Proof.
  revert v. induction cs as [|c cs IH]; intros v Hv Hr; [apply computes_ret|].
  apply computes_bind_fwp; [by apply run_call_computes|].
  apply quiet_fwp; [apply flat_call_quiet|done..|]. intros o w v1 Hn1 Hr1 _.
  computes_step; [by apply IH|computes_step].
Qed.

Lemma make_ok (i : S) opts :
  stream_ok i -> 8 * zlen (content i) <= INT_MAX ->
  exists s, make i opts = Some s /\ inv s /\ view s = start (content i) opts.
Proof.
  intros Hi Hl. unfold make. cbv zeta.
  match goal with |- context [Refresh ?x] =>
    pose proof (Refresh_rest_wp x Hi eq_refl eq_refl ltac:(by intros [? ?])) as Hwp end.
  apply wp_inv in Hwp as ([] & s & -> & Hs & Hr & Ev). exists s. split; [done|].
  assert (view s = start (content i) opts) as Ev' by by rewrite Ev.
  split; [|done]. split; [done|]. split; [done|]. rewrite Ev'. unfold in_bounds. cbn.
  pose proof (zlen_nonneg (content i)). lia.
Qed.

Lemma destroy_ok (s : t S) :
  inv s -> exists i, destroy s = Some i /\ stream_ok i /\ content i = buffer_ (view s).
Proof.
  intros ([Hi Hs] & _ & _). unfold destroy. cbn. unfold rest.
  destruct (read_error_ s).
  - destruct Hs as (Eb & Ep & _ & Ec). unfold buffer_size_. rewrite Eb, Ep. cbn. eauto.
  - destruct Hs as (Hp & _ & [pre Hb]). destruct (Z.ltb_spec (buffer_pos_ s) (buffer_size_ s)); [|lia].
    assert (zlen (backable (input_ s)) = zlen pre + buffer_size_ s) as Hz by by rewrite Hb, zlen_app.
    pose proof (zlen_nonneg pre).
    pose proof (backup_ok (input_ s) (buffer_size_ s - buffer_pos_ s) Hi ltac:(lia)) as Hwp.
    apply wp_inv in Hwp as ([] & i & -> & Hi' & Ec & _). exists i. split_and!; [done..|].
    rewrite Ec, Hz, Hb, zdrop_app, zdrop_all by lia. cbn. f_equal. f_equal. lia.
Qed.

(** A session is the session on the list of bytes. *)
Lemma session_computes opts cs (i : S) :
  stream_ok i -> 8 * zlen (content i) <= INT_MAX ->
  exists i', session opts cs i =
      Some ((flat_calls cs (start (content i) opts)).1,
            errors (flat_calls cs (start (content i) opts)).2, i') /\
    stream_ok i' /\ content i' = buffer_ (flat_calls cs (start (content i) opts)).2.
Proof.
  intros Hi Hl. unfold session. destruct (make_ok i opts Hi Hl) as (s & -> & Hs & Ev).
  pose proof (run_calls_computes cs _ (start_normal (content i) opts) eq_refl s Hs Ev) as Hwp.
  apply wp_inv in Hwp as (os & s' & -> & Hs' & E).
  destruct (destroy_ok s' Hs') as (i' & -> & Hi' & Ec). exists i'. rewrite <- E. cbn [fst snd].
  done.
Qed.
End refinement.

(** ** One reader for all streams *)

(** C18: The stream below a tokenizer is invisible. For any two streams that keep
    the stream contract and hold the same bytes, however they cut them into
    buffers (empty ones included), any script of calls of Next and
    NextWithComments runs without undefined behaviour to its end and gives the
    same results, tokens, comments and errors; and when the tokenizer is
    destroyed both streams are left right behind the last character that was
    read. *)
Theorem tokenizer_any_stream {S1 S2 : Type} `{ZeroCopyInputStreamOk S1} `{ZeroCopyInputStreamOk S2}
    (opts : Options) (cs : list call) (i1 : S1) (i2 : S2) :
  stream_ok i1 -> stream_ok i2 -> content i1 = content i2 -> 8 * zlen (content i1) <= INT_MAX ->
  exists os es i1' i2' w,
    session opts cs i1 = Some (os, es, i1') /\ session opts cs i2 = Some (os, es, i2') /\
    stream_ok i1' /\ stream_ok i2' /\
    content i1 = w ++ content i1' /\ content i2 = w ++ content i2'.
Proof.
  intros Hok1 Hok2 E Hl. destruct (session_computes opts cs i1 Hok1 Hl) as (i1' & E1 & Hi1 & C1).
  destruct (session_computes opts cs i2 Hok2 ltac:(by rewrite <- E)) as (i2' & E2 & Hi2 & C2).
  rewrite <- E in E2, C2.
  destruct (flat_calls_quiet cs (start (content i1) opts) (start_normal _ _) eq_refl) as (_ & w & Hw).
  do 4 eexists. exists w. do 2 (split; [eassumption|]). split; [done|]. split; [done|].
  rewrite <- E, C1, C2. split; apply (r_buffer _ _ _ Hw).
Qed.

(** ** Tokens and what is between them *)

(** [os] are the outcomes of [Next] on [bytes], from the position [p] on, the token
    before being [prev]; [unread] is left. Without an error ([ok]) the gaps and
    the texts have the forms of [gap_text] and [token_text]. *)
Fixpoint tiled (o : Options) (ok : Prop) (p : Z * Z) (prev : Token) (bytes : list byte)
    (os : list outcome) (unread : list byte) : Prop :=
  match os with
  | [] => unread = bytes
  | out :: os =>
      exists gap bytes', let k := current out in
        bytes = gap ++ text k ++ bytes' /\
        (line k, column k) = walk gap p /\ end_column k = (walk (gap ++ text k) p).2 /\
        previous out = prev /\ comments out = None /\
        (if result out then text k <> [] else type k = TYPE_END /\ text k = [] /\ bytes' = []) /\
        (ok -> gap_text (comment_style_ o) gap /\
               (result out = true -> token_text o (type k) (text k))) /\
        tiled o ok (walk (gap ++ text k) p) k bytes' os unread
  end.

Lemma tiled_mono o (ok ok' : Prop) p prev bytes os unread :
  (ok' -> ok) -> tiled o ok p prev bytes os unread -> tiled o ok' p prev bytes os unread.
Proof.
  intros Hok. revert p prev bytes. induction os as [|out os IH]; intros p prev bytes; [done|].
  intros (gap & bytes' & H1 & H2 & H3 & H4 & H5 & H6 & H7 & H8). exists gap, bytes'.
  split_and!; auto.
Qed.

Definition CallNexts (n : nat) : list call := replicate n CallNext.

Lemma flat_Next_tile v :
  normal v -> record_target_ v = None ->
  fwp (flat_call CallNext) v (fun out v' =>
    normal v' /\ record_target_ v' = None /\ current_ v' = current out /\ options v' = options v /\
    (exists es, errors v' = errors v ++ es) /\
    exists gap, let k := current out in
      buffer_ v = gap ++ text k ++ buffer_ v' /\
      (line k, column k) = walk gap (pos v) /\ end_column k = (walk (gap ++ text k) (pos v)).2 /\
      pos v' = walk (gap ++ text k) (pos v) /\
      previous out = current_ v /\ comments out = None /\
      (if result out then text k <> [] else type k = TYPE_END /\ text k = [] /\ buffer_ v' = []) /\
      (errors v' = errors v -> gap_text (comment_style_ (options v)) gap /\
         (result out = true -> token_text (options v) (type k) (text k)))).
Proof.
  intros Hv Hr. apply fwp_fbind, fwp_fbind. eapply fwp_mono; [by apply Next_post|].
  intros b v' (Hn' & Hr' & Hp & Hc & Hb). apply fwp_fret, fwp_fbind, fwp_fgets, fwp_fret.
  cbn [current result previous comments fst snd].
  split; [done|]. split; [done|]. split; [done|]. destruct b.
  - destruct Hb as (gap & w & ty & [B N P O E] & Hne & Ek & Ht). rewrite Ek. cbn -[walk] in *.
    split; [done|]. split; [done|]. exists gap. split_and!; try done.
    + by rewrite B, <- app_assoc.
    + symmetry. apply surjective_pairing.
    + intros Ee. by destruct (Ht Ee).
  - destruct Hb as (Ek & gap & [B N P O E] & Eb & Hg). rewrite Ek. cbn -[walk] in *.
    split; [done|]. split; [done|]. exists gap. rewrite !app_nil_r. split_and!; try done.
    + exact (f_equal snd P).
    + intros Ee. split; [by apply Hg|done].
Qed.

Lemma flat_calls_tiled n v :
  normal v -> record_target_ v = None ->
  fwp (flat_calls (CallNexts n)) v (fun os v' =>
    length os = n /\ (exists es, errors v' = errors v ++ es) /\
    tiled (options v) (errors v' = errors v) (pos v) (current_ v) (buffer_ v) os (buffer_ v') /\
    ((length (buffer_ v) < n)%nat -> exists out, last os = Some out /\ result out = false)).
Proof.
  revert v. induction n as [|n IH]; intros v Hv Hr; cbn [CallNexts replicate flat_calls].
  { apply fwp_fret. split; [done|]. split; [exists []; by rewrite app_nil_r|]. split; [done|lia]. }
  apply fwp_fbind. eapply fwp_mono; [by apply flat_Next_tile|].
  intros out v1 (Hn1 & Hr1 & Ek & Ho & He1 & gap & Hb & Hp & Hec & Hpos & Hpr & Hcm & Hres & Hok).
  apply fwp_fbind. eapply fwp_mono; [by apply IH|].
  intros os v2 (Hlen & He2 & Ht & Hlast). apply fwp_fret.
  split; [cbn; by rewrite Hlen|]. split.
  { destruct He1 as [e1 E1], He2 as [e2 E2]. exists (e1 ++ e2). by rewrite E2, E1, app_assoc. }
  split.
  - exists gap, (buffer_ v1). cbv zeta. split_and!; try done.
    + intros E. apply Hok. by eapply errors_prefix in E as [? _].
    + rewrite <- Hpos, <- Ek, <- Ho. eapply tiled_mono; [|exact Ht].
      intros E. by eapply errors_prefix in E as [_ ?].
  - intros Hl. destruct n as [|n].
    + destruct os; [|done]. exists out. split; [done|].
      destruct (result out); [|done]. destruct (buffer_ v); [|cbn in Hl; lia].
      destruct gap, (text (current out)); done.
    + assert (length (buffer_ v1) < S n)%nat as Hl1.
      { destruct (result out).
        - apply (f_equal length) in Hb. rewrite !length_app in Hb.
          destruct (text (current out)); [done|]. cbn in Hb. lia.
        - destruct Hres as (_ & _ & ->). cbn. lia. }
      destruct (Hlast Hl1) as (o' & El & Eo). exists o'. split; [|done].
      destruct os; [done|]. exact El.
Qed.

(** C14: Next covers the input: over any stream, the bytes are the texts of the
    tokens in order and what is skipped between them; each token carries the line
    and column of its first character and the column behind its last (tabs to
    multiples of eight), previous() is the token before, and the end is reached
    after at most one call more than there are bytes and reported from then on.
    When no error was recorded, what is skipped is white space and closed
    comments, and every token has the form of its type. *)
Theorem tokens_tile_input {S : Type} `{ZeroCopyInputStreamOk S} (opts : Options) (n : nat) (i : S) :
  stream_ok i -> 8 * zlen (content i) <= INT_MAX ->
  exists os es i', session opts (CallNexts n) i = Some (os, es, i') /\ length os = n /\
    tiled opts (es = []) (0, 0) (mkToken TYPE_START [] 0 0 0) (content i) os (content i') /\
    ((length (content i) < n)%nat -> exists out, last os = Some out /\ result out = false).
Proof.
  intros Hi Hl. destruct (session_computes opts (CallNexts n) i Hi Hl) as (i' & -> & _ & Ec).
  destruct (flat_calls_tiled n (start (content i) opts) (start_normal _ _) eq_refl)
    as (Hlen & _ & Ht & Hlast).
  do 3 eexists. split; [done|]. split; [done|]. rewrite Ec. split; [exact Ht|exact Hlast].
Qed.

(** ** Examples *)

Definition sample_text : list byte := list_byte_of_string "foo = 0x1F; // end".
Definition sample_file (block : Z) : ArrayInputStream.t :=
  ArrayInputStream.make sample_text (zlen sample_text) block.

Lemma sample_file_ok block : stream_ok (sample_file block).
Proof. apply ArrayInputStream.array_make_wf. Qed.

Lemma tokenizer_any_stream_witness :
  exists i1 i2,
    option_map (fun r => (map (fun o => text (current o)) r.1.1, r.1.2))
      (session default_options (CallNexts 3 ++ [CallNextWithComments (Some []) None None]) (sample_file 1)) =
      Some (map list_byte_of_string ["foo"; "="; "0x1F"; ";"]%string, []) /\
    option_map snd (session default_options (CallNexts 3 ++ [CallNextWithComments (Some []) None None])
      (sample_file 1)) = Some i1 /\
    option_map snd (session default_options (CallNexts 3 ++ [CallNextWithComments (Some []) None None])
      (sample_file 7)) = Some i2 /\
    content i1 = content i2.
Proof.
  destruct (tokenizer_any_stream default_options (CallNexts 3 ++ [CallNextWithComments (Some []) None None])
    (sample_file 1) (sample_file 7) (sample_file_ok 1) (sample_file_ok 7) eq_refl ltac:(vm_compute; discriminate))
    as (os & es & i1 & i2 & w & E1 & E2 & _ & _ & C1 & C2).
  exists i1, i2. split; [vm_compute; reflexivity|]. rewrite E1, E2. split; [done|]. split; [done|].
  apply (app_inv_head w). rewrite <- C1, <- C2. reflexivity.
Defined.

Lemma tokens_tile_input_witness :
  exists os i, session default_options (CallNexts 20) (sample_file 4) = Some (os, [], i) /\
    tiled default_options True (0, 0) (mkToken TYPE_START [] 0 0 0) sample_text os (content i) /\
    exists out, last os = Some out /\ result out = false.
Proof.
  destruct (tokens_tile_input default_options 20 (sample_file 4) (sample_file_ok 4)
    ltac:(vm_compute; discriminate)) as (os & es & i & E & _ & Ht & Hl).
  assert (option_map (fun r => r.1.2) (session default_options (CallNexts 20) (sample_file 4)) = Some []) as Ee
    by (vm_compute; reflexivity).
  rewrite E in Ee. injection Ee as ->.
  assert (content (sample_file 4) = sample_text) as Ec by (vm_compute; reflexivity). rewrite Ec in Ht, Hl.
  exists os, i. split; [exact E|]. split; [eapply tiled_mono; [|exact Ht]; intros _; reflexivity|].
  apply Hl. vm_compute. lia.
Defined.

(** A slash that is found by [NextWithComments] does not become [previous()]'s
    successor: after it [previous()] is still the token two calls ago. *)
Example slash_keeps_previous :
  option_map (fun r => map (fun o => (text (previous o), text (current o))) r.1.1)
    (session default_options [CallNext; CallNextWithComments None None None; CallNext]
       (ArrayInputStream.make (list_byte_of_string "a / b") 5 5)) =
  Some [([], ["a"]); ([], ["/"]); (["/"], ["b"])]%byte.
Proof. vm_compute. reflexivity. Qed.

Fixpoint lines (ls : list string) : list byte :=
  match ls with [] => [] | l :: ls => list_byte_of_string l ++ NL :: lines ls end.

(** The example of [tokenizer.h], shortened: which comment goes where. *)
Definition commented_text : list byte := lines
  ["foo  // Comment attached to foo."; "// Comment attached to bar."; "bar";
   "// Attached to bar."; "// Another line."; ""; "/* Detached. */"; "";
   "/* Block comment"; " * attached to baz. */"; "baz"]%string.

Example comments_attached :
  option_map (fun r => omap comments r.1.1)
    (session default_options
       [CallNext; CallNextWithComments (Some []) (Some []) (Some []);
        CallNextWithComments (Some []) (Some []) (Some []);
        CallNextWithComments (Some []) (Some []) (Some [])]
       (ArrayInputStream.make commented_text (zlen commented_text) 7)) =
  Some [(Some (lines [" Comment attached to foo."]%string), Some [], Some (lines [" Comment attached to bar."]%string));
        (Some (lines [" Attached to bar."; " Another line."]%string), Some [list_byte_of_string " Detached. "],
         Some (lines [" Block comment"]%string ++ list_byte_of_string " attached to baz. "));
        (Some [], Some [], Some [])].
Proof. vm_compute. reflexivity. Qed.
