(* ===== verification/TokenValuesSpec.v ===== *)
(** * The values of integers and strings

    [ParseInteger] computes the number its digits denote and knows when it is too
    large; [AppendUTF8] is the UTF-8 encoding; [ParseString] undoes every escape
    sequence the tokenizer accepts. *)

From Stdlib Require Import Strings.Byte Strings.String.
From S2P Require Import Prelude ZeroCopyStream Tokenizer TokenizerFlat TokenizerRefine TokenValues TokenShapes TokenizerSpec.

#[local] Open Scope byte_scope.
#[local] Open Scope Z_scope.

(** ** Integers *)

Definition digits_value (base : Z) (ds : list byte) : Z :=
  fold_left (fun n c => n * base + DigitValue c) ds 0.

Definition valid_digits (base : Z) (ds : list byte) : bool :=
  forallb (fun c => DigitValue c <? base) ds.

(** The number of an integer token, of the base its prefix says. *)
Definition integer_value (text : list byte) : Z :=
  let '(base, _, ds) := ParseInteger_base text in digits_value base ds.

Lemma DigitValue_range c : 0 <= DigitValue c <= 36.
Proof.
  assert (forallb (fun x => (0 <=? DigitValue (z2b x)) && (DigitValue (z2b x) <=? 36))
    (map Z.of_nat (seq 0 256)) = true) as H by (vm_compute; reflexivity).
  pose proof (byte_forall _ H (b2z c) (b2z_range c)) as Hb. cbv beta in Hb. rewrite z2b_b2z in Hb. lia.
Qed.

Definition value_from (base n : Z) (ds : list byte) : Z :=
  fold_left (fun n c => n * base + DigitValue c) ds n.

Lemma value_from_ge base n ds : 1 <= base -> 0 <= n -> n <= value_from base n ds.
Proof.
  intros Hb. revert n. induction ds as [|c ds IH]; intros n Hn; [cbn; lia|].
  change (value_from base n (c :: ds)) with (value_from base (n * base + DigitValue c) ds).
  pose proof (DigitValue_range c). assert (n <= n * base + DigitValue c) by nia.
  specialize (IH (n * base + DigitValue c) ltac:(lia)). lia.
Qed.

Lemma ParseInteger_loop_value base n ds :
  2 <= base <= 16 -> 1 <= n < 2 ^ 64 -> Forall (fun c => c <> NUL) ds ->
  ParseInteger_loop base (kuint64max / base + 1) n ds =
    if valid_digits base ds && (value_from base n ds <=? kuint64max)
    then Some (value_from base n ds) else None.
Proof.
  intros Hb. revert n. induction ds as [|c ds IH]; intros n Hn Hds.
  { cbn. unfold kuint64max. case_cmp; [done|lia]. }
  apply Forall_cons in Hds as [Hc Hds]. cbn [ParseInteger_loop valid_digits forallb].
  rewrite (proj2 (eqc_false NUL c)) by done.
  pose proof (DigitValue_range c) as Hd. destruct (Z.ltb_spec (DigitValue c) 0); [lia|]. cbn [orb].
  change (value_from base n (c :: ds)) with (value_from base (n * base + DigitValue c) ds).
  destruct (Z.leb_spec base (DigitValue c)) as [Hbad|Hok].
  { destruct (Z.ltb_spec (DigitValue c) base); [lia|done]. }
  destruct (Z.ltb_spec (DigitValue c) base); [|lia]. cbn [andb].
  pose proof (Z.div_mod kuint64max base ltac:(lia)) as Hdiv.
  pose proof (Z.mod_pos_bound kuint64max base ltac:(lia)) as Hmod.
  set (q := kuint64max / base) in *. assert (kuint64max = 2 ^ 64 - 1) as Hk by done.
  assert (forall m, 2 ^ 64 <= m -> kuint64max < value_from base m ds) as Hbig.
  { intros m Hm. pose proof (value_from_ge base m ds). lia. }
  destruct (Z.leb_spec (q + 1) n) as [Hov|Hov].
  { specialize (Hbig (n * base + DigitValue c) ltac:(nia)).
    destruct (Z.leb_spec (value_from base (n * base + DigitValue c) ds) kuint64max); [lia|].
    by rewrite andb_false_r. }
  assert (n * base <= kuint64max) as Hmul by nia.
  destruct (decide (n * base + DigitValue c < 2 ^ 64)) as [Hlt|Hge].
  - unfold u64. rewrite Z.mod_small by nia.
    destruct (Z.ltb_spec (n * base + DigitValue c) base); [nia|]. rewrite IH by (try done; nia). done.
  - assert (u64 (n * base + DigitValue c) = n * base + DigitValue c - 2 ^ 64) as ->.
    { unfold u64. symmetry. apply (Z.mod_unique _ _ 1); lia. }
    destruct (Z.ltb_spec (n * base + DigitValue c - 2 ^ 64) base); [|lia].
    specialize (Hbig (n * base + DigitValue c) ltac:(lia)).
    destruct (Z.leb_spec (value_from base (n * base + DigitValue c) ds) kuint64max); [lia|].
    by rewrite andb_false_r.
Qed.

Lemma ParseInteger_digits base ds :
  2 <= base <= 16 -> Forall (fun c => c <> NUL) ds ->
  match ParseInteger_leading base ds with
  | None => valid_digits base ds = false
  | Some (n, rest) =>
      ParseInteger_loop base (kuint64max / base + 1) n rest =
        if valid_digits base ds && (digits_value base ds <=? kuint64max)
        then Some (digits_value base ds) else None
  end.
Proof.
  intros Hb Hds. induction ds as [|c ds IH].
  { cbn. done. }
  apply Forall_cons in Hds as [Hc Hds]. cbn [ParseInteger_leading valid_digits forallb].
  rewrite (proj2 (eqc_false NUL c)) by done. pose proof (DigitValue_range c) as Hd.
  destruct (Z.leb_spec base (DigitValue c)) as [Hbad|Hok].
  { destruct (Z.ltb_spec (DigitValue c) base); [lia|done]. }
  destruct (Z.ltb_spec (DigitValue c) base); [|lia]. cbn [andb].
  destruct (Z.eqb_spec (DigitValue c) 0) as [E0|E0]; cbn [negb].
  - assert (digits_value base (c :: ds) = digits_value base ds) as ->
      by (change (digits_value base (c :: ds)) with (value_from base (0 * base + DigitValue c) ds);
          by rewrite E0).
    by apply IH.
  - by rewrite (ParseInteger_loop_value base (DigitValue c) ds) by (try done; lia).
Qed.

Lemma ParseInteger_base_range text :
  let '(base, overflow, ds) := ParseInteger_base text in
  2 <= base <= 16 /\ overflow = kuint64max / base + 1 /\ (exists pre, text = pre ++ ds).
Proof.
  unfold ParseInteger_base.
  assert (forall b, 2 <= b <= 16 -> 2 <= b <= 16 /\ kuint64max / b + 1 = kuint64max / b + 1 /\
    exists pre, text = pre ++ text) as Hall by (intros; split_and!; try lia; by exists []).
  destruct text as [|c text]; [by apply (Hall 10)|].
  destruct (decide (c = "0"%byte)) as [-> |Hc].
  - destruct text as [|x text]; [by apply (Hall 8)|].
    destruct (decide (x = "x"%byte)) as [-> |Hx]; [split; [lia|]; split; [done|by exists ["0"; "x"]%byte]|].
    destruct (decide (x = "X"%byte)) as [-> |HX]; [split; [lia|]; split; [done|by exists ["0"; "X"]%byte]|].
    pose proof (Hall 8 ltac:(lia)). by destruct x.
  - pose proof (Hall 10 ltac:(lia)). by destruct c.
Qed.

Lemma ParseInteger_eq text max_value :
  Forall (fun c => c <> NUL) text -> max_value <= kuint64max ->
  ParseInteger text max_value =
    let '(base, _, ds) := ParseInteger_base text in
    if valid_digits base ds && (digits_value base ds <=? max_value)
    then Some (digits_value base ds) else None.
Proof.
  intros Hnul Hmax. unfold ParseInteger. pose proof (ParseInteger_base_range text) as Hr.
  destruct (ParseInteger_base text) as [[base overflow] ds]. destruct Hr as (Hb & -> & pre & ->).
  apply Forall_app in Hnul as [_ Hnul]. pose proof (ParseInteger_digits base ds Hb Hnul) as Hp.
  destruct (ParseInteger_leading base ds) as [[n rest]|].
  - rewrite Hp. destruct (valid_digits base ds); [|done]. cbn [andb].
    case_cmp; try done; lia.
  - by rewrite Hp.
Qed.

Lemma HexDigit_value c : HexDigit c = true -> DigitValue c < 16 /\ c <> NUL.
Proof.
  intros Hc. by_chars c (fun c => implb (HexDigit c) ((DigitValue c <? 16) && negb (eqc NUL c))).
  rewrite Hc in H. cbn [implb] in H. apply andb_true_iff in H as [H1%Z.ltb_lt H2].
  split; [done|]. by apply negb_true_iff, eqc_false, not_eq_sym in H2.
Qed.
Lemma OctalDigit_value c : OctalDigit c = true -> DigitValue c < 8 /\ c <> NUL /\ Digit c = true.
Proof.
  intros Hc. by_chars c (fun c => implb (OctalDigit c)
    ((DigitValue c <? 8) && negb (eqc NUL c) && Digit c)).
  rewrite Hc in H. cbn [implb] in H. apply andb_true_iff in H as [[H1%Z.ltb_lt H2]%andb_true_iff H3].
  split; [done|]. by apply negb_true_iff, eqc_false, not_eq_sym in H2.
Qed.
Lemma Digit_value c : Digit c = true -> DigitValue c < 10 /\ c <> NUL.
Proof.
  intros Hc. by_chars c (fun c => implb (Digit c) ((DigitValue c <? 10) && negb (eqc NUL c))).
  rewrite Hc in H. cbn [implb] in H. apply andb_true_iff in H as [H1%Z.ltb_lt H2].
  split; [done|]. by apply negb_true_iff, eqc_false, not_eq_sym in H2.
Qed.

Lemma all_valid (p : byte -> bool) base ds :
  (forall c, p c = true -> DigitValue c < base) -> all p ds -> valid_digits base ds = true.
Proof.
  intros Hp Hds. unfold valid_digits. induction Hds as [|c ds Hc _ IH]; cbn [forallb]; [done|].
  by rewrite IH, (proj2 (Z.ltb_lt _ _) (Hp c Hc)).
Qed.

Lemma integer_text_valid text :
  integer_text text ->
  let '(base, _, ds) := ParseInteger_base text in
  valid_digits base ds = true /\ Forall (fun c => c <> NUL) text.
Proof.
  assert (forall p ds, (forall c, p c = true -> c <> NUL) -> all p ds -> Forall (fun c => c <> NUL) ds)
    as Hnul by (intros p ds Hp Hds; eapply Forall_impl; eauto).
  intros [(x & ds & Hx & _ & Hds & ->)|[(ds & Hds & ->)|(d & ds & Hd & H0 & Hds & ->)]].
  - destruct Hx as [-> | ->]; cbn; (split;
      [by apply (all_valid HexDigit); [intros c Hc; by apply HexDigit_value|]|]);
      do 2 (constructor; [done|]); apply (Hnul HexDigit); try done; intros c Hc; by apply HexDigit_value.
  - assert (Forall (fun c => c <> NUL) ("0"%byte :: ds)) as Hn.
    { constructor; [done|]. apply (Hnul OctalDigit); [|done]. intros c Hc. by apply OctalDigit_value. }
    assert (valid_digits 8 ("0"%byte :: ds) = true) as Hv.
    { apply (all_valid OctalDigit); [intros c Hc; by apply OctalDigit_value|]. by constructor. }
    destruct ds as [|x ds]; [done|]. apply Forall_cons in Hds as [Hx _].
    unfold ParseInteger_base. destruct x; done.
  - assert (Forall (fun c => c <> NUL) (d :: ds)) as Hn.
    { constructor; [by apply Digit_value|].
      apply (Hnul Digit); [|done]. intros c Hc. by apply Digit_value. }
    assert (valid_digits 10 (d :: ds) = true) as Hv.
    { apply (all_valid Digit); [intros c Hc; by apply Digit_value|]. by constructor. }
    unfold ParseInteger_base. destruct d; done.
Qed.

(** C35: ParseInteger is exact: it accepts a text when all its digits are of the base
    its prefix announces and the number they denote is at most the limit, and gives
    that number; overflow of 64 bits, in the multiplication or the addition, is never
    missed and never reported too early. On the texts of integer tokens only the limit
    can make it fail. *)
Theorem integer_values (text : list byte) (max_value : Z) :
  max_value <= kuint64max ->
  (Forall (fun c => c <> NUL) text ->
   ParseInteger text max_value =
     let '(base, _, ds) := ParseInteger_base text in
     if valid_digits base ds && (digits_value base ds <=? max_value)
     then Some (digits_value base ds) else None) /\
  (integer_text text ->
   ParseInteger text max_value =
     if integer_value text <=? max_value then Some (integer_value text) else None).
Proof.
  intros Hmax. split; [intros Hn; by apply ParseInteger_eq|]. intros Ht.
  pose proof (integer_text_valid text Ht) as Hv. unfold integer_value.
  pose proof (fun Hn => ParseInteger_eq text max_value Hn Hmax) as He.
  destruct (ParseInteger_base text) as [[base overflow] ds]. destruct Hv as [Hv Hn].
  by rewrite He, Hv.
Qed.

Lemma integer_values_witness :
  ParseInteger (list_byte_of_string "0xFFFFFFFFFFFFFFFF") kuint64max = Some kuint64max /\
  ParseInteger (list_byte_of_string "18446744073709551616") kuint64max = None /\
  ParseInteger (list_byte_of_string "2147483648") 2147483647 = None.
Proof.
  split.
  { refine (eq_trans (proj1 (integer_values _ kuint64max (Z.le_refl _)) _) eq_refl).
    refine (bool_decide_eq_true_1 _ _). vm_compute. reflexivity. }
  split.
  { refine (eq_trans (proj1 (integer_values _ kuint64max (Z.le_refl _)) _) eq_refl).
    refine (bool_decide_eq_true_1 _ _). vm_compute. reflexivity. }
  refine (eq_trans (proj2 (integer_values (list_byte_of_string "2147483648") 2147483647 _) _) eq_refl).
  - vm_compute. discriminate.
  - right. right. exists "2"%byte, (list_byte_of_string "147483648"). split; [done|]. split; [done|].
    split; [|done]. refine (bool_decide_eq_true_1 _ _). vm_compute. reflexivity.
Defined.

(** ** UTF-8 *)

(** The encoding of a code point, by arithmetic. *)
Definition utf8 (cp : Z) : list byte :=
  map z2b
    (if cp <? 0x80 then [cp]
     else if cp <? 0x800 then [0xc0 + cp / 64; 0x80 + cp mod 64]
     else if cp <? 0x10000 then [0xe0 + cp / 64 / 64; 0x80 + cp / 64 mod 64; 0x80 + cp mod 64]
     else [0xf0 + cp / 64 / 64 / 64; 0x80 + cp / 64 / 64 mod 64; 0x80 + cp / 64 mod 64;
           0x80 + cp mod 64]).

Lemma z2b_bits a b : (forall i, 0 <= i < 8 -> Z.testbit a i = Z.testbit b i) -> z2b a = z2b b.
Proof.
  intros H. apply b2z_inj. rewrite !b2z_z2b. change 256 with (2 ^ 8). apply Z.bits_inj'. intros i Hi.
  destruct (Z.ltb_spec i 8).
  - rewrite !Z.mod_pow2_bits_low by done. by apply H.
  - by rewrite !Z.mod_pow2_bits_high by lia.
Qed.

(** A marker above a field of [k] bits. *)
Lemma marker_bits k m f i :
  0 <= k -> 0 <= f < 2 ^ k -> Z.land m (Z.ones k) = 0 -> 0 <= i ->
  Z.testbit (m + f) i = if i <? k then Z.testbit f i else Z.testbit m i.
Proof.
  intros Hk Hf Hm Hi.
  assert (forall j, 0 <= j < k -> Z.testbit m j = false) as Hlow.
  { intros j Hj. apply (f_equal (fun x => Z.testbit x j)) in Hm.
    by rewrite Z.land_spec, Z.bits_0, Z.ones_spec_low, andb_true_r in Hm by lia. }
  assert (forall j, k <= j -> Z.testbit f j = false) as Hhigh.
  { intros j Hj. rewrite <- (Z.mod_small f (2 ^ k)), Z.mod_pow2_bits_high by lia. done. }
  rewrite Z.add_nocarry_lxor, Z.lxor_spec.
  - case_cmp; [rewrite Hlow by lia; by destruct (Z.testbit f i)|].
    rewrite Hhigh by lia. by destruct (Z.testbit m i).
  - apply Z.bits_inj'. intros j Hj. rewrite Z.land_spec, Z.bits_0.
    destruct (Z.ltb_spec j k); [by rewrite Hlow|rewrite (Hhigh j) by lia; apply andb_false_r].
Qed.

Lemma div64_bits cp i : 0 <= i -> Z.testbit (cp / 64) i = Z.testbit cp (i + 6).
Proof. intros Hi. change 64 with (2 ^ 6). by rewrite Z.div_pow2_bits by lia. Qed.
Lemma mod64_bits cp i : 0 <= i -> Z.testbit (cp mod 64) i = (i <? 6) && Z.testbit cp i.
Proof.
  intros Hi. change 64 with (2 ^ 6). destruct (Z.ltb_spec i 6).
  - by rewrite Z.mod_pow2_bits_low by lia.
  - by rewrite Z.mod_pow2_bits_high by lia.
Qed.

Lemma u32_bits x i : 0 <= i < 32 -> Z.testbit (u32 x) i = Z.testbit x i.
Proof. intros. unfold u32. by rewrite Z.mod_pow2_bits_low by lia. Qed.

(** Both sides of each of the eight bits become bits of the code point. *)
Ltac utf8_byte k :=
  apply z2b_bits; let i := fresh "i" in let Hi := fresh "Hi" in intros i Hi;
  rewrite (marker_bits k) by (first [done | lia | Z.div_mod_to_equations; lia]);
  assert (i = 0 \/ i = 1 \/ i = 2 \/ i = 3 \/ i = 4 \/ i = 5 \/ i = 6 \/ i = 7)
    as [-> |[-> |[-> |[-> |[-> |[-> |[-> | ->]]]]]]] by lia;
  cbn [Z.ltb Z.compare Pos.compare Pos.compare_cont];
  repeat first [rewrite Z.shiftr_spec by (cbn; lia) | rewrite Z.lor_spec | rewrite Z.land_spec |
    rewrite u32_bits by (cbn; lia) | rewrite Z.shiftl_spec by (cbn; lia) |
    rewrite mod64_bits by (cbn; lia) | rewrite div64_bits by (cbn; lia)];
  cbn -[Z.div Z.modulo]; rewrite ?andb_true_r, ?andb_false_r, ?orb_false_r; done.

Lemma last_bytes_1 t : last_bytes t 1 = [z2b t].
Proof. done. Qed.
Lemma last_bytes_2 t : last_bytes t 2 = [z2b (Z.shiftr t 8); z2b t].
Proof. done. Qed.
Lemma last_bytes_3 t : last_bytes t 3 = [z2b (Z.shiftr t 16); z2b (Z.shiftr t 8); z2b t].
Proof. done. Qed.
Lemma last_bytes_4 t :
  last_bytes t 4 = [z2b (Z.shiftr t 24); z2b (Z.shiftr t 16); z2b (Z.shiftr t 8); z2b t].
Proof. done. Qed.

Section values.
Variable StrFormat_U08x : Z -> list byte.

Lemma AppendUTF8_utf8 cp output :
  0 <= cp <= 0x10ffff -> AppendUTF8 StrFormat_U08x cp output = output ++ utf8 cp.
Proof.
  intros Hcp. unfold AppendUTF8, utf8.
  repeat case_cmp; try lia; rewrite ?last_bytes_1, ?last_bytes_2, ?last_bytes_3, ?last_bytes_4;
    unfold map; f_equal; repeat apply (f_equal2 cons); try reflexivity.
  all: first [ utf8_byte 6 | utf8_byte 5 | utf8_byte 4 | utf8_byte 3].
Qed.
End values.

(** ** Strings *)

(** The contents of a string literal: characters and escape sequences. *)
Inductive item :=
| Plain (c : byte)
| Simple (c : byte)
| Octal (ds : list byte)
| Hex (x : byte) (ds : list byte)
| Unicode (long : bool) (ds : list byte).

Definition literal1 (i : item) : list byte :=
  match i with
  | Plain c => [c]
  | Simple c => [BACKSLASH; c]
  | Octal ds => BACKSLASH :: ds
  | Hex x ds => BACKSLASH :: x :: ds
  | Unicode long ds => BACKSLASH :: (if long then "U" else "u")%byte :: ds
  end.
Definition literal (items : list item) : list byte := flat_map literal1 items.

Definition item_ok (multiline : bool) (quote : byte) (i : item) : Prop :=
  match i with
  | Plain c => c <> NUL /\ c <> BACKSLASH /\ c <> quote /\ (c = NL -> multiline = true)
  | Simple c => Escape c = true
  | Octal ds => (1 <= length ds <= 3)%nat /\ all OctalDigit ds
  | Hex x ds => (x = "x"%byte \/ x = "X"%byte) /\ (1 <= length ds <= 2)%nat /\ all HexDigit ds
  | Unicode false ds => length ds = 4%nat /\ all HexDigit ds
  | Unicode true ds => length ds = 8%nat /\ all HexDigit ds /\
      exists b l, (b = "0"%byte \/ b = "1"%byte) /\ ds = "0"%byte :: "0"%byte :: b :: l
  end.

(** An octal or hexadecimal escape takes all the digits it can. *)
Definition munched (i : item) (items : list item) : Prop :=
  match i, items with
  | Octal ds, Plain c :: _ => length ds = 3%nat \/ OctalDigit c = false
  | Hex _ ds, Plain c :: _ => length ds = 2%nat \/ HexDigit c = false
  | _, _ => True
  end.

Fixpoint well_formed (multiline : bool) (quote : byte) (items : list item) : Prop :=
  match items with
  | [] => True
  | i :: items => item_ok multiline quote i /\ munched i items /\ well_formed multiline quote items
  end.

(** The code point of two surrogates. *)
Definition surrogate_pair (h t : Z) : option Z :=
  if IsHeadSurrogate h && IsTrailSurrogate t
  then Some (0x10000 + (h - 0xd800) * 0x400 + (t - 0xdc00)) else None.

(** The pair an escape makes with the items behind it. *)
Definition pair_with (ds : list byte) (items : list item) : option Z :=
  match items with
  | Unicode false ds' :: _ => surrogate_pair (digits_value 16 ds) (digits_value 16 ds')
  | _ => None
  end.

Section values.
Variable StrFormat_U08x : Z -> list byte.

Definition code_bytes (cp : Z) : list byte :=
  if cp <=? 0x10ffff then utf8 cp else StrFormat_U08x cp.

Fixpoint literal_value (items : list item) : list byte :=
  match items with
  | [] => []
  | Plain c :: items => c :: literal_value items
  | Simple c :: items => TranslateEscape c :: literal_value items
  | Octal ds :: items => z2b (digits_value 8 ds) :: literal_value items
  | Hex _ ds :: items => z2b (digits_value 16 ds) :: literal_value items
  | Unicode _ ds :: items =>
      match pair_with ds items, items with
      | Some cp, _ :: items' => code_bytes cp ++ literal_value items'
      | _, _ => code_bytes (digits_value 16 ds) ++ literal_value items
      end
  end.

(** *** Digits *)

Lemma value_from_lt base n ds :
  1 <= base -> 0 <= n -> valid_digits base ds = true ->
  value_from base n ds < (n + 1) * base ^ Z.of_nat (length ds).
Proof.
  intros Hb. revert n. induction ds as [|c ds IH]; intros n Hn Hv; [cbn; lia|].
  cbn [valid_digits forallb] in Hv. apply andb_true_iff in Hv as [Hc%Z.ltb_lt Hv].
  pose proof (DigitValue_range c).
  change (value_from base n (c :: ds)) with (value_from base (n * base + DigitValue c) ds).
  specialize (IH (n * base + DigitValue c) ltac:(nia) Hv). cbn [length].
  rewrite Nat2Z.inj_succ, Z.pow_succ_r by lia.
  assert (0 < base ^ Z.of_nat (length ds)) by (apply Z.pow_pos_nonneg; lia). nia.
Qed.

Lemma hex_valid ds : all HexDigit ds -> valid_digits 16 ds = true.
Proof. apply all_valid. intros c Hc. by apply HexDigit_value. Qed.

Lemma ReadHexDigits_loop_value ds rest n :
  0 <= n -> (n + 1) * 16 ^ Z.of_nat (length ds) <= 2 ^ 32 -> all HexDigit ds ->
  ReadHexDigits_loop (ds ++ rest) (length ds) n = Some (Some (value_from 16 n ds)).
Proof.
  revert n. induction ds as [|c ds IH]; intros n Hn Hl Hds; [done|].
  apply Forall_cons in Hds as [Hc Hds]. destruct (HexDigit_value c Hc) as [Hd H0].
  pose proof (DigitValue_range c). cbn [length app ReadHexDigits_loop].
  change (char_at (c :: ds ++ rest) 0) with (Some c). cbn [option_bind mbind].
  rewrite (proj2 (eqc_false NUL c)) by done. change (drop 1 (c :: ds ++ rest)) with (ds ++ rest).
  cbn [length] in Hl. rewrite Nat2Z.inj_succ, Z.pow_succ_r in Hl by lia.
  assert (0 < 16 ^ Z.of_nat (length ds)) by (apply Z.pow_pos_nonneg; lia).
  assert ((n + 1) * 16 <= 2 ^ 32) by nia.
  rewrite Z.shiftl_mul_pow2 by lia. change (2 ^ 4) with 16. unfold u32.
  rewrite (Z.mod_small (n * 16)) by lia. rewrite Z.mod_small by lia. apply IH; [lia|nia|done].
Qed.

Lemma ReadHexDigits_value ds rest :
  (1 <= length ds <= 8)%nat -> all HexDigit ds ->
  ReadHexDigits (ds ++ rest) (length ds) = Some (Some (digits_value 16 ds)).
Proof.
  intros Hl Hds. unfold ReadHexDigits. destruct (length ds) eqn:E; [lia|]. rewrite <- E.
  apply ReadHexDigits_loop_value; [lia| |done]. rewrite Z.add_0_l, Z.mul_1_l.
  change (2 ^ 32) with (16 ^ 8). apply Z.pow_le_mono_r; lia.
Qed.

Lemma digits_at_value p base n ds rest code :
  all p ds -> (length ds <= n)%nat -> length ds = n \/ p (hd NUL rest) = false -> p NUL = false ->
  digits_at p base n (ds ++ rest) code = (value_from base code ds, length ds).
Proof.
  intros Hds. revert n code. induction Hds as [|c ds Hc _ IH]; intros n code Hn Hstop Hnul.
  - cbn [app length]. destruct n as [|n]; [by destruct rest|].
    destruct rest as [|c rest]; [done|]. cbn [digits_at]. destruct Hstop as [?|Hs]; [done|].
    cbn in Hs. by rewrite Hs.
  - destruct n as [|n]; [cbn in Hn; lia|]. cbn [app digits_at length]. rewrite Hc.
    cbn [length] in Hn, Hstop. rewrite IH; [done|lia| |done].
    destruct Hstop; [left; lia|by right].
Qed.

(** *** Reading past an item *)

Lemma surrogate_value h t : AssembleUTF16 h t = surrogate_pair h t.
Proof.
  unfold AssembleUTF16, surrogate_pair.
  destruct (IsHeadSurrogate h && IsTrailSurrogate t) eqn:E; [|done].
  unfold IsHeadSurrogate, IsTrailSurrogate, kMinHeadSurrogate, kMaxHeadSurrogate,
    kMinTrailSurrogate, kMaxTrailSurrogate in *. f_equal.
  set (a := h - 0xd800). set (b := t - 0xdc00). assert (0 <= a < 1024 /\ 0 <= b < 1024) as [Ha Hb] by lia.
  rewrite Z.shiftl_mul_pow2 by lia. change (2 ^ 10) with 1024. unfold u32.
  rewrite (Z.mod_small (a * 1024)) by lia.
  assert (Z.lor (a * 1024) b = a * 1024 + b) as ->.
  { apply Z.bits_inj'. intros i Hi. rewrite (marker_bits 10); [|lia|done| |done].
    - rewrite Z.lor_spec. change 1024 with (2 ^ 10). case_cmp.
      + by rewrite Z.mul_pow2_bits_low by lia.
      + rewrite <- (Z.mod_small b (2 ^ 10)), (Z.mod_pow2_bits_high b) by lia. apply orb_false_r.
    - rewrite Z.land_ones by lia. change (2 ^ 10) with 1024. apply Z.mod_mul. lia. }
  rewrite Z.mod_small by lia. lia.
Qed.

Lemma literal_end_nonempty items (q : byte) : exists c l, literal items ++ [q] = c :: l.
Proof. destruct items as [|[] items]; cbn; eauto. Qed.

(** The first character behind an escape does not belong to it. *)
Lemma munched_stops (p : byte -> bool) n (ds : list byte) items q :
  p BACKSLASH = false -> p q = false ->
  match items with Plain c :: _ => length ds = n \/ p c = false | _ => True end ->
  length ds = n \/ p (hd NUL (literal items ++ [q])) = false.
Proof. intros Hb Hq. destruct items as [|[] items]; cbn; auto. Qed.

Lemma char_at_0 c l : char_at (c :: l) 0 = Some c.
Proof. done. Qed.
Lemma char_at_1 c d l : char_at (c :: d :: l) 1 = Some d.
Proof. done. Qed.

Lemma code_bytes_append cp output :
  0 <= cp -> AppendUTF8 StrFormat_U08x cp output = output ++ code_bytes cp.
Proof.
  intros Hcp. unfold code_bytes. case_cmp; [by apply AppendUTF8_utf8|].
  unfold AppendUTF8. case_cmp; try lia. done.
Qed.

Lemma digits_value_nonneg base ds : 1 <= base -> 0 <= digits_value base ds.
Proof. intros. by apply value_from_ge. Qed.

Lemma IsTrailSurrogate_false h t : IsTrailSurrogate t = false -> surrogate_pair h t = None.
Proof. intros E. unfold surrogate_pair. by rewrite E, andb_false_r. Qed.

(** No \u escape begins here. *)
Lemma not_short ml q items :
  (q = QUOTE \/ q = DQUOTE) -> well_formed ml q items ->
  match items with Unicode false _ :: _ => False | _ => True end ->
  exists c l, literal items ++ [q] = c :: l /\
    (eqc BACKSLASH c = false \/ exists c1 l', l = c1 :: l' /\ eqc "u" c1 = false).
Proof.
  intros Hq Hw Hn. destruct items as [|i items].
  { exists q, []. split; [done|]. left. by destruct Hq as [-> | ->]. }
  destruct Hw as [Hi _]. destruct i as [c|c|ds|x ds|[] ds]; cbn in Hi |- *; try done; eexists _, _.
  - split; [done|]. left. apply eqc_false. tauto.
  - split; [done|]. right. eexists _, _. split; [done|].
    by_chars c (fun c => implb (Escape c) (negb (eqc "u" c))). rewrite Hi in H. by apply negb_true_iff.
  - destruct Hi as [Hl Hds]. destruct ds as [|c ds]; [cbn in Hl; lia|]. split; [done|]. right.
    eexists _, _. split; [done|]. apply Forall_inv in Hds.
    by_chars c (fun c => implb (OctalDigit c) (negb (eqc "u" c))). rewrite Hds in H. by apply negb_true_iff.
  - split; [done|]. right. eexists _, _. split; [done|]. by destruct Hi as [[-> | ->] _].
  - split; [done|]. right. eexists _, _. split; [done|]. done.
Qed.

Lemma unicode_digits ml q long ds :
  item_ok ml q (Unicode long ds) ->
  UnicodeLength (if long then "U" else "u")%byte = length ds /\ (1 <= length ds <= 8)%nat /\ all HexDigit ds.
Proof. destruct long; cbn; intros (El & Hds); rewrite El; split_and!; try done; lia || tauto. Qed.

Lemma FetchUnicodePoint_value ml q long ds items :
  (q = QUOTE \/ q = DQUOTE) -> item_ok ml q (Unicode long ds) -> well_formed ml q items ->
  FetchUnicodePoint ((if long then "U" else "u")%byte :: ds ++ literal items ++ [q]) =
    Some (Some match pair_with ds items with
               | Some cp => (cp, (1 + length ds + 6)%nat)
               | None => (digits_value 16 ds, (1 + length ds)%nat)
               end).
Proof.
  intros Hq Hi Hw. destruct (unicode_digits _ _ _ _ Hi) as (El & Hl & Hds).
  unfold FetchUnicodePoint. rewrite char_at_0. cbn [option_bind mbind]. rewrite El.
  change (drop 1 (?k :: ?l)) with l. cbv zeta.
  rewrite ReadHexDigits_value by done. cbn [option_bind mbind]. rewrite drop_app_length.
  set (h := digits_value 16 ds).
  assert (match items with Unicode false _ :: _ => False | _ => True end \/
    exists ds' items', items = Unicode false ds' :: items') as [Hn|(ds' & items' & ->)]
    by (destruct items as [|[| | | |[] ds'] items]; eauto).
  - destruct (not_short ml q items Hq Hw Hn) as (c & l & -> & Hc). rewrite char_at_0.
    cbn [option_bind mbind]. assert (pair_with ds items = None) as -> by by destruct items as [|[| | | |[]]].
    destruct Hc as [-> |(c1 & l' & -> & Hc1)]; [by rewrite andb_false_r|].
    rewrite char_at_1. cbn [option_bind mbind]. rewrite Hc1. by destruct (_ && _).
  - destruct Hw as (Hi' & _).
    destruct (unicode_digits _ _ _ _ Hi') as (El' & Hl' & Hds'). change (4%nat = length ds') in El'.
    change (literal (Unicode false ds' :: items') ++ [q])
      with (BACKSLASH :: "u"%byte :: (ds' ++ literal items') ++ [q]).
    rewrite char_at_0, char_at_1, <- app_assoc. cbn [option_bind mbind].
    change (eqc BACKSLASH BACKSLASH) with true. change (eqc "u" "u") with true.
    change (drop 2 (?k :: ?k' :: ?l)) with l. rewrite El', ReadHexDigits_value by done.
    cbn [option_bind mbind pair_with]. rewrite surrogate_value. fold h.
    set (t := digits_value 16 ds'). rewrite andb_true_r.
    destruct (IsHeadSurrogate h) eqn:Eh; cbn [andb].
    + destruct (IsTrailSurrogate t) eqn:Et.
      * unfold surrogate_pair. by rewrite Eh, Et.
      * by rewrite IsTrailSurrogate_false.
    + unfold surrogate_pair. by rewrite Eh.
Qed.

(** *** A literal and its value *)

Lemma escape_step fuel q l w rest output output' :
  ParseEscape StrFormat_U08x l output = Some (output', length w) ->
  l = w ++ rest -> w <> [] -> hd NUL w <> NUL ->
  ParseStringAppend_loop StrFormat_U08x (S fuel) q (BACKSLASH :: l) output =
    ParseStringAppend_loop StrFormat_U08x fuel q rest output'.
Proof.
  intros He -> Hne Hnul. destruct w as [|c w]; [done|]. cbn [hd] in Hnul.
  cbn [ParseStringAppend_loop]. cbn [app]. rewrite char_at_0, char_at_1. cbn [option_bind mbind].
  rewrite (proj2 (eqc_false NUL c)) by done. change (drop 1 (BACKSLASH :: ?l)) with l.
  cbn [app] in He. change (eqc NUL BACKSLASH) with false. change (eqc BACKSLASH BACKSLASH) with true.
  cbn [andb negb]. rewrite He. cbn [option_bind mbind]. change (drop (S ?n) (BACKSLASH :: ?l)) with (drop n l).
  change (c :: w ++ rest) with ((c :: w) ++ rest). by rewrite drop_app_length.
Qed.

Lemma plain_step fuel ml q c rest output :
  item_ok ml q (Plain c) -> rest <> [] ->
  ParseStringAppend_loop StrFormat_U08x (S fuel) q (c :: rest) output =
    ParseStringAppend_loop StrFormat_U08x fuel q rest (output ++ [c]).
Proof.
  intros (H0 & Hb & Hq & _) Hne. destruct rest as [|c1 rest]; [done|].
  cbn [ParseStringAppend_loop]. rewrite char_at_0, char_at_1. cbn [option_bind mbind].
  by rewrite !(proj2 (eqc_false _ c)) by done.
Qed.

Lemma ParseEscape_Simple c rest output :
  Escape c = true -> ParseEscape StrFormat_U08x (c :: rest) output = Some (output ++ [TranslateEscape c], 1%nat).
Proof.
  intros Hc. unfold ParseEscape. rewrite char_at_0. cbn [option_bind mbind].
  by_chars c (fun c => implb (Escape c) (negb (OctalDigit c) && negb (eqc "x" c || eqc "X" c) &&
    negb (eqc "u" c || eqc "U" c))).
  rewrite Hc in H. cbn [implb] in H. apply andb_true_iff in H as [[H1%negb_true_iff H2%negb_true_iff]%andb_true_iff
    H3%negb_true_iff]. by rewrite H1, H2, H3.
Qed.

Lemma ParseEscape_Octal q ds items output :
  (q = QUOTE \/ q = DQUOTE) -> (1 <= length ds <= 3)%nat -> all OctalDigit ds -> munched (Octal ds) items ->
  ParseEscape StrFormat_U08x (ds ++ literal items ++ [q]) output =
    Some (output ++ [z2b (digits_value 8 ds)], length ds).
Proof.
  intros Hq Hl Hds Hm. destruct ds as [|c ds]; [cbn in Hl; lia|]. apply Forall_cons in Hds as [Hc Hds].
  unfold ParseEscape. cbn [app]. rewrite char_at_0. cbn [option_bind mbind]. rewrite Hc.
  change (drop 1 (c :: ?l)) with l. cbn [length] in Hl.
  rewrite digits_at_value; [|done|lia| |done].
  - change (digits_value 8 (c :: ds)) with (value_from 8 (0 * 8 + DigitValue c) ds). done.
  - destruct (munched_stops OctalDigit 3 (c :: ds) items q) as [E|E]; [done|by destruct Hq as [-> | ->]|done| |].
    + left. cbn [length] in E. lia.
    + by right.
Qed.

Lemma ParseEscape_Hex q x ds items output :
  (q = QUOTE \/ q = DQUOTE) -> x = "x"%byte \/ x = "X"%byte -> (1 <= length ds <= 2)%nat ->
  all HexDigit ds -> munched (Hex x ds) items ->
  ParseEscape StrFormat_U08x (x :: ds ++ literal items ++ [q]) output =
    Some (output ++ [z2b (digits_value 16 ds)], S (length ds)).
Proof.
  intros Hq Hx Hl Hds Hm. unfold ParseEscape. rewrite char_at_0. cbn [option_bind mbind].
  assert (OctalDigit x = false /\ (eqc "x" x || eqc "X" x) = true) as [-> ->] by by destruct Hx as [-> | ->].
  change (drop 1 (x :: ?l)) with l. rewrite digits_at_value; [done|done|lia| |done].
  by apply munched_stops; [|destruct Hq as [-> | ->]|].
Qed.

Lemma ParseEscape_Unicode ml q long ds items output :
  (q = QUOTE \/ q = DQUOTE) -> item_ok ml q (Unicode long ds) -> well_formed ml q items ->
  ParseEscape StrFormat_U08x ((if long then "U" else "u")%byte :: ds ++ literal items ++ [q]) output =
    Some match pair_with ds items with
         | Some cp => (AppendUTF8 StrFormat_U08x cp output, (1 + length ds + 6)%nat)
         | None => (AppendUTF8 StrFormat_U08x (digits_value 16 ds) output, (1 + length ds)%nat)
         end.
Proof.
  intros Hq Hi Hw. unfold ParseEscape. rewrite char_at_0. cbn [option_bind mbind].
  rewrite (FetchUnicodePoint_value ml) by done. cbn [option_bind mbind].
  destruct (pair_with ds items); by destruct long.
Qed.

Lemma pair_with_value ds items cp :
  pair_with ds items = Some cp -> 0 <= cp /\
    exists ds' items', items = Unicode false ds' :: items'.
Proof.
  destruct items as [|[| | | |[] ds'] items]; try done. cbn. unfold surrogate_pair.
  destruct (_ && _) eqn:E; [|done]. intros [= <-]. split; [|eauto].
  unfold IsHeadSurrogate, IsTrailSurrogate, kMinHeadSurrogate, kMaxHeadSurrogate,
    kMinTrailSurrogate, kMaxTrailSurrogate in E. lia.
Qed.

Lemma ParseStringAppend_loop_literal ml q n fuel items output :
  (q = QUOTE \/ q = DQUOTE) -> well_formed ml q items -> (length items <= n)%nat ->
  (length (literal items) < fuel)%nat ->
  ParseStringAppend_loop StrFormat_U08x fuel q (literal items ++ [q]) output =
    Some (output ++ literal_value items).
Proof.
  intros Hq. revert fuel items output. induction n as [|n IH]; intros fuel items output Hw Hn Hf;
    (destruct fuel as [|fuel]; [lia|]); (destruct items as [|i items];
    [cbn [literal flat_map app]; cbn [ParseStringAppend_loop]; rewrite char_at_0;
     cbn [option_bind mbind]; change (char_at [q] 1) with (Some NUL); cbn [option_bind mbind];
     rewrite app_nil_r; by destruct Hq as [-> | ->]; destruct fuel|]).
  { cbn in Hn. lia. }
  destruct Hw as (Hi & Hm & Hw). cbn [length] in Hn.
  change (literal (i :: items)) with (literal1 i ++ literal items) in *. rewrite length_app in Hf.
  assert (length (literal items) < fuel)%nat as Hf' by (destruct i; cbn [literal1 length] in Hf; lia).
  pose proof (fun output => IH fuel items output Hw ltac:(lia) Hf') as IH'.
  destruct i as [c|c|ds|x ds|long ds]; rewrite <- app_assoc.
  - cbn [literal1 app literal_value]. rewrite (plain_step _ ml) by (done || by destruct (literal items)).
    by rewrite IH', <- app_assoc.
  - cbn [literal1 app literal_value].
    rewrite (escape_step _ _ _ [c] _ _ _ (ParseEscape_Simple c _ output Hi) eq_refl);
      [by rewrite IH', <- app_assoc|done|by destruct c].
  - destruct Hi as [Hl Hds]. cbn [literal1 app literal_value].
    rewrite (escape_step _ _ _ ds _ _ _ (ParseEscape_Octal q ds items output Hq Hl Hds Hm) eq_refl);
      [by rewrite IH', <- app_assoc|by destruct ds; cbn in Hl; [lia|]|].
    destruct Hds as [|c ? Hc _]; [cbn in Hl; lia|]. by apply OctalDigit_value.
  - destruct Hi as (Hx & Hl & Hds). cbn [literal1 app literal_value].
    rewrite (escape_step _ _ _ (x :: ds) _ _ _ (ParseEscape_Hex q x ds items output Hq Hx Hl Hds Hm) eq_refl);
      [by rewrite IH', <- app_assoc|done|by destruct Hx as [-> | ->]].
  - pose proof (ParseEscape_Unicode ml q long ds items output Hq Hi Hw) as He.
    cbn [literal1 literal_value app]. set (key := (if long then "U" else "u")%byte) in *.
    assert (key <> NUL) as Hkey by by destruct long.
    destruct (pair_with ds items) as [cp|] eqn:Ep.
    + destruct (pair_with_value _ _ _ Ep) as (Hcp & ds' & items' & ->).
      destruct Hw as (Hi' & _ & Hw'). cbn [length] in Hn. destruct (unicode_digits _ _ _ _ Hi') as (El & _).
      change (4%nat = length ds') in El. rewrite code_bytes_append in He by done.
      rewrite (escape_step _ _ _ ((key :: ds) ++ BACKSLASH :: "u"%byte :: ds')
        (literal items' ++ [q]) output (output ++ code_bytes cp)); [|..|done|done].
      * rewrite IH; [by rewrite app_assoc|done|lia|].
        change (literal (Unicode false ds' :: items'))
          with (BACKSLASH :: "u"%byte :: ds' ++ literal items') in Hf'.
        cbn [length] in Hf'. rewrite length_app in Hf'. lia.
      * rewrite He, !length_app. cbn [length]. do 2 f_equal. lia.
      * change (literal (Unicode false ds' :: items'))
          with (BACKSLASH :: "u"%byte :: ds' ++ literal items').
        cbn [app]. by rewrite <- !app_assoc.
    + rewrite code_bytes_append in He by (apply digits_value_nonneg; lia).
      rewrite (escape_step _ _ _ (key :: ds) _ _ _ He eq_refl) by done. by rewrite IH', app_assoc.
Qed.

Lemma ParseString_literal ml q items :
  (q = QUOTE \/ q = DQUOTE) -> well_formed ml q items ->
  ParseString StrFormat_U08x (q :: literal items ++ [q]) = Some (literal_value items).
Proof.
  intros Hq Hw. apply (ParseStringAppend_loop_literal ml q (length items)); try done.
  rewrite length_app. cbn. lia.
Qed.
End values.

(** ** Literals are the texts of string tokens *)

(** The characters of a class that can be taken from the front. *)
Lemma take_plain ml q (p : byte -> bool) n items :
  well_formed ml q items ->
  exists ds items', literal items = ds ++ literal items' /\ well_formed ml q items' /\
    (length ds <= n)%nat /\ all p ds /\
    match items' with Plain c :: _ => length ds = n \/ p c = false | _ => True end.
Proof.
  revert items. induction n as [|n IH]; intros items Hw.
  { exists [], items. split_and!; try done. destruct items as [|[]]; auto. }
  destruct items as [|[c|c|ds|x ds|long ds] items].
  2: { destruct (p c) eqn:Ep.
    - destruct Hw as (_ & _ & Hw). destruct (IH items Hw) as (ds & items' & E & Hw' & Hl & Hds & Hs).
      exists (c :: ds), items'. change (literal (Plain c :: items)) with (c :: literal items). rewrite E.
      split_and!; [done|done|cbn; lia|by constructor|].
      destruct items' as [|[]]; try done. cbn. destruct Hs; auto with lia.
    - exists [], (Plain c :: items). split_and!; try done; [cbn; lia|by right]. }
  all: match goal with |- context [literal ?l] => exists [], l end; split_and!; done || (cbn; lia).
Qed.

Lemma piece_literal ml q piece items :
  string_piece ml q piece -> well_formed ml q items ->
  exists items', well_formed ml q items' /\ literal items' = piece ++ literal items.
Proof.
  intros [c H0 Hb Hq Hnl|c Hc|c Hc|x c Hx Hc|l Hl Hds|b l Hb Hl Hds] Hw.
  - by exists (Plain c :: items).
  - by exists (Simple c :: items).
  - destruct (take_plain ml q OctalDigit 2 items Hw) as (ds & items' & E & Hw' & Hl & Hds & Hs).
    exists (Octal (c :: ds) :: items'). split; [|cbn; by rewrite E]. split; [|split; [|done]].
    + split; [cbn; lia|by constructor].
    + destruct items' as [|[]]; try done. cbn. destruct Hs; auto with lia.
  - destruct (take_plain ml q HexDigit 1 items Hw) as (ds & items' & E & Hw' & Hl & Hds & Hs).
    exists (Hex x (c :: ds) :: items'). split; [|cbn; by rewrite E]. split; [|split; [|done]].
    + split; [done|]. split; [cbn; lia|by constructor].
    + destruct items' as [|[]]; try done. cbn. destruct Hs; auto with lia.
  - by exists (Unicode false l :: items).
  - exists (Unicode true ("0"%byte :: "0"%byte :: b :: l) :: items). split; [|done].
    split; [|done]. split; [cbn; lia|]. split; [|by exists b, l].
    do 2 (constructor; [done|]). constructor; [|done]. by destruct Hb as [-> | ->].
Qed.

Lemma body_literal ml q body :
  string_body ml q body -> exists items, well_formed ml q items /\ body = literal items.
Proof.
  intros (ps & -> & Hps). induction Hps as [|p ps Hp _ (items & Hw & E)]; [by exists []|].
  destruct (piece_literal ml q p items Hp Hw) as (items' & Hw' & E'). exists items'.
  split; [done|]. cbn [concat]. by rewrite E, E'.
Qed.

Lemma string_body_app ml q b1 b2 : string_body ml q b1 -> string_body ml q b2 -> string_body ml q (b1 ++ b2).
Proof.
  intros (p1 & -> & H1) (p2 & -> & H2). exists (p1 ++ p2). by rewrite concat_app, Forall_app.
Qed.
Lemma string_body_one ml q p : string_piece ml q p -> string_body ml q p.
Proof. intros Hp. exists [p]. split; [by rewrite concat_cons, app_nil_r|by constructor]. Qed.

(** Characters of an escape that the tokenizer reads as plain ones. *)
Lemma plain_body ml q (p : byte -> bool) ds :
  (q = QUOTE \/ q = DQUOTE) -> all p ds ->
  (forall c, p c = true -> c <> NUL /\ c <> BACKSLASH /\ c <> QUOTE /\ c <> DQUOTE /\ c <> NL) ->
  string_body ml q ds.
Proof.
  intros Hq Hds Hp. induction Hds as [|c ds Hc _ IH]; [by exists []|].
  apply (string_body_app _ _ [c]); [|done]. apply string_body_one.
  destruct (Hp c Hc) as (? & ? & ? & ? & ?). apply PlainPiece; try done. destruct Hq as [-> | ->]; done.
Qed.

Lemma digit_plain c :
  HexDigit c = true -> c <> NUL /\ c <> BACKSLASH /\ c <> QUOTE /\ c <> DQUOTE /\ c <> NL.
Proof. intros H. split_and!; intros ->; discriminate H. Qed.
Lemma OctalDigit_HexDigit c : OctalDigit c = true -> HexDigit c = true.
Proof.
  intros Hc. by_chars c (fun c => implb (OctalDigit c) (HexDigit c)). by rewrite Hc in H.
Qed.

Lemma item_body ml q i : (q = QUOTE \/ q = DQUOTE) -> item_ok ml q i -> string_body ml q (literal1 i).
Proof.
  intros Hq Hi. destruct i as [c|c|ds|x ds|long ds].
  - apply string_body_one. destruct Hi as (? & ? & ? & ?). by apply PlainPiece.
  - by apply string_body_one, EscapePiece.
  - destruct Hi as [Hl Hds]. destruct ds as [|c ds]; [cbn in Hl; lia|]. apply Forall_cons in Hds as [Hc Hds].
    apply (string_body_app _ _ [BACKSLASH; c]); [by apply string_body_one, OctalPiece|].
    apply (plain_body _ _ OctalDigit); try done. intros d Hd. by apply digit_plain, OctalDigit_HexDigit.
  - destruct Hi as (Hx & Hl & Hds). destruct ds as [|c ds]; [cbn in Hl; lia|].
    apply Forall_cons in Hds as [Hc Hds].
    apply (string_body_app _ _ [BACKSLASH; x; c]); [by apply string_body_one, HexPiece|].
    apply (plain_body _ _ HexDigit); try done. apply digit_plain.
  - destruct long; destruct Hi as (Hl & Hds); apply string_body_one.
    + destruct Hds as (Hds & b & l & Hb & ->). do 3 apply Forall_cons in Hds as [_ Hds].
      apply LongUnicodePiece; [done|cbn in Hl; lia|done].
    + by apply ShortUnicodePiece.
Qed.

Lemma literal_body ml q items :
  (q = QUOTE \/ q = DQUOTE) -> well_formed ml q items -> string_body ml q (literal items).
Proof.
  intros Hq. induction items as [|i items IH]; [by exists []|]. intros (Hi & _ & Hw).
  apply string_body_app; [by apply item_body|by apply IH].
Qed.

(** C19: ParseString undoes every escape sequence the tokenizer accepts. The texts of
    string tokens without an error are exactly a quote, characters and escape
    sequences, and the quote again; the value of such a text is its characters, the
    byte of a simple, octal (modulo 256) or hexadecimal escape, which takes all the
    digits it can, and the UTF-8 encoding of the code point of a \u or \U escape, a
    leading surrogate together with a trailing one behind it being one code point. No
    byte outside the text is read. *)
Theorem string_values (StrFormat_U08x : Z -> list byte) (multiline : bool) (text : list byte) :
  (string_text multiline text ->
   exists q items, (q = QUOTE \/ q = DQUOTE) /\ well_formed multiline q items /\
     text = q :: literal items ++ [q] /\
     ParseString StrFormat_U08x text = Some (literal_value StrFormat_U08x items)) /\
  (forall q items, (q = QUOTE \/ q = DQUOTE) -> well_formed multiline q items ->
     text = q :: literal items ++ [q] ->
     string_text multiline text /\
     ParseString StrFormat_U08x text = Some (literal_value StrFormat_U08x items)).
Proof.
  split.
  - intros (q & body & Hq & Hb & ->). destruct (body_literal _ _ _ Hb) as (items & Hw & ->).
    exists q, items. split_and!; try done. by eapply ParseString_literal.
  - intros q items Hq Hw ->. split; [|by eapply ParseString_literal].
    exists q, (literal items). split_and!; try done. by apply literal_body.
Qed.

Lemma string_values_witness :
  ParseString (fun _ => []) (list_byte_of_string "'\101\x4a7\n\u00e9\ud83d\ude00\ud83d!'") =
    Some [x41; x4a; "7"; x0a; xc3; xa9; xf0; x9f; x98; x80; xed; xa0; xbd; "!"]%byte.
Proof.
  refine (eq_trans (proj2 (proj2 (string_values (fun _ => []) false
    (list_byte_of_string "'\101\x4a7\n\u00e9\ud83d\ude00\ud83d!'")) QUOTE
    [Octal ["1"; "0"; "1"]; Hex "x" ["4"; "a"]; Plain "7"; Simple "n"; Unicode false ["0"; "0"; "e"; "9"];
     Unicode false ["d"; "8"; "3"; "d"]; Unicode false ["d"; "e"; "0"; "0"];
     Unicode false ["d"; "8"; "3"; "d"]; Plain "!"]%byte (or_introl eq_refl) _ eq_refl)) eq_refl).
  cbn. split_and!; try done; try lia; try (by left);
    refine (bool_decide_eq_true_1 _ _); vm_compute; reflexivity.
Defined.
