(* ===== verification/TokensForward.v ===== *)
(** * Reading back a text that is well formed

    The other direction of [TokenShapes.v]: on the text of a token the flat lexer
    reads exactly that text and records no error. *)

From Stdlib Require Import Strings.Byte.
From S2P Require Import Prelude ZeroCopyStream Tokenizer TokenizerFlat TokenShapes.

#[local] Open Scope byte_scope.
#[local] Open Scope Z_scope.
#[local] Open Scope flat_scope.
Import Flat FlatScans FlatReads.

(** What [ConsumeToken] does between the start and the end of the token. *)
Definition token_body : F unit :=
  when (TryConsumeOne Letter) (ConsumeZeroOrMore Alphanumeric ;+ set_type TYPE_IDENTIFIER)
  (when (TryConsume "0") (let+ ty := ConsumeNumber true false in set_type ty)
  (when (TryConsume ".")
     (when (TryConsumeOne Digit)
        (let+ v := fgets (fun v => v) in
         (if bool_decide (type (previous_ v) = TYPE_IDENTIFIER) &&
             (line (current_ v) =? line (previous_ v)) &&
             (column (current_ v) =? end_column (previous_ v))
          then RecordError (line_ v) (column_ v - 2) IdentifierNeedsSpace
          else fret tt) ;+
         let+ ty := ConsumeNumber false true in set_type ty)
        (set_type TYPE_SYMBOL))
  (when (TryConsumeOne Digit) (let+ ty := ConsumeNumber false false in set_type ty)
  (when (TryConsume DQUOTE) (ConsumeString DQUOTE ;+ set_type TYPE_STRING)
  (when (TryConsume QUOTE) (ConsumeString QUOTE ;+ set_type TYPE_STRING)
     (let+ v := fgets (fun v => v) in
      (if negb (Z.land (b2z (current_char_ v)) 0x80 =? 0) then
         RecordError (line_ v) (column_ v) (NonAscii (b2z (current_char_ v)))
       else fret tt) ;+
      NextChar ;+ set_type TYPE_SYMBOL)))))).

Section forward.
(** The options, and what the operations need to know of the state besides. *)
Variable o : Options.
Variable inert : V -> Prop.
Hypothesis inert_consume : forall w v, inert v -> inert (consume w v).

Definition ready (v : V) (l : list byte) : Prop :=
  normal v /\ options v = o /\ buffer_ v = l /\ inert v.

Lemma ready_consume w l v : ready v (w ++ l) -> ready (consume w v) l.
Proof.
  intros (Hv & Ho & Hb & Hi). pose proof (consume_moved w l v Hb) as Hw.
  split; [apply Hw|]. split; [by rewrite (m_options _ _ _ Hw)|]. split; [|by apply inert_consume].
  rewrite buffer_consume, Hb. apply drop_app_length.
Qed.

Lemma ready_char v l : ready v l -> current_char_ v = hd NUL l.
Proof. by intros ((-> & _) & _ & -> & _). Qed.

Lemma ready_buffer v l : ready v l -> buffer_ v = l.
Proof. by intros (_ & _ & ? & _). Qed.

(** With [rest] behind [w], [f] reads [w], gives [a] and does nothing else. *)
Definition eats {A} (f : F A) (w rest : list byte) (a : A) : Prop :=
  forall v, ready v (w ++ rest) -> f v = (a, consume w v).

Lemma eats_fret {A} (a : A) rest : eats (fret a) [] rest a.
Proof. intros v (Hv & _). by rewrite consume_nil. Qed.

Lemma eats_fbind {A B} (m : F A) (k : A -> F B) w1 w2 rest a b :
  eats m w1 (w2 ++ rest) a -> eats (k a) w2 rest b -> eats (fbind m k) (w1 ++ w2) rest b.
Proof.
  intros Hm Hk v Hv. rewrite <- app_assoc in Hv. unfold fbind. rewrite Hm by done.
  rewrite Hk by by apply ready_consume. by rewrite consume_app.
Qed.
Lemma eats_fbind_l {A B} (m : F A) (k : A -> F B) w rest a b :
  eats m w rest a -> eats (k a) [] rest b -> eats (fbind m k) w rest b.
Proof. intros Hm Hk. rewrite <- (app_nil_r w). by apply eats_fbind with a. Qed.
Lemma eats_fbind_r {A B} (m : F A) (k : A -> F B) w rest a b :
  eats m [] (w ++ rest) a -> eats (k a) w rest b -> eats (fbind m k) w rest b.
Proof. intros Hm Hk. by apply (eats_fbind m k [] w rest a). Qed.

Lemma eats_fgets {A} (f : V -> A) rest a :
  (forall v, ready v rest -> f v = a) -> eats (fgets f) [] rest a.
Proof. intros Hf v Hv. unfold fgets. rewrite Hf by done. destruct Hv as [Hv _]. by rewrite consume_nil. Qed.

Lemma eats_char (p : byte -> bool) rest b :
  p (hd NUL rest) = b -> eats (fgets (fun v => p (current_char_ v))) [] rest b.
Proof. intros Hp. apply eats_fgets. intros v Hv. by rewrite (ready_char v rest). Qed.

Lemma eats_NextChar c rest : eats NextChar [c] rest tt.
Proof.
  intros v (_ & _ & Hb & _). unfold NextChar, fmod. rewrite Hb. cbn [app take]. by rewrite take_0.
Qed.
Lemma eats_hit p c rest : p c = true -> eats (TryConsumeOne p) [c] rest true.
Proof.
  intros Hc v Hv. unfold TryConsumeOne. rewrite (ready_char _ _ Hv). cbn [hd app]. rewrite Hc.
  unfold NextChar, fmod. destruct Hv as (_ & _ & -> & _). cbn [snd take app]. by rewrite take_0.
Qed.
Lemma eats_miss p rest : p (hd NUL rest) = false -> eats (TryConsumeOne p) [] rest false.
Proof.
  intros Hc v Hv. unfold TryConsumeOne. rewrite (ready_char _ _ Hv). cbn [app]. rewrite Hc.
  destruct Hv as [Hv _]. by rewrite consume_nil.
Qed.
Lemma eats_this c rest : eats (TryConsume c) [c] rest true.
Proof. apply eats_hit. by apply eqc_true. Qed.
Lemma eats_not_this c rest : hd NUL rest <> c -> eats (TryConsume c) [] rest false.
Proof. intros Hc. apply eats_miss. by apply eqc_false. Qed.

Lemma eats_ZeroOrMore p w rest :
  all p w -> p (hd NUL rest) = false -> eats (ConsumeZeroOrMore p) w rest tt.
Proof.
  intros Hw Hp v (_ & _ & Hb & _). unfold ConsumeZeroOrMore, fmod. rewrite Hb, take_while_app by done.
  rewrite take_while_stop, app_nil_r by by destruct rest. done.
Qed.
Lemma eats_OneOrMore p e w rest :
  all p w -> w <> [] -> p (hd NUL rest) = false -> eats (ConsumeOneOrMore p e) w rest tt.
Proof.
  intros Hw Hne Hp v Hv. unfold ConsumeOneOrMore. rewrite (ready_char _ _ Hv).
  assert (p (hd NUL (w ++ rest)) = true) as -> by (destruct Hw; done).
  by apply (eats_ZeroOrMore p w rest Hw Hp v).
Qed.

Lemma eats_and_then a b w1 w2 rest x :
  eats a w1 (w2 ++ rest) true -> eats b w2 rest x -> eats (and_then a b) (w1 ++ w2) rest x.
Proof. intros Ha Hb. by apply eats_fbind with true. Qed.
Lemma eats_or_left a b w rest : eats a w rest true -> eats (or_else a b) w rest true.
Proof. intros Ha. apply eats_fbind_l with true; [done|apply eats_fret]. Qed.
Lemma eats_or_right a b w rest x :
  eats a [] (w ++ rest) false -> eats b w rest x -> eats (or_else a b) w rest x.
Proof. intros Ha Hb. by apply eats_fbind_r with false. Qed.
Lemma eats_when_yes c a b w1 w2 rest :
  eats c w1 (w2 ++ rest) true -> eats a w2 rest tt -> eats (when c a b) (w1 ++ w2) rest tt.
Proof. intros Hc Ha. by apply eats_fbind with true. Qed.
Lemma eats_when_no c a b w rest :
  eats c [] (w ++ rest) false -> eats b w rest tt -> eats (when c a b) w rest tt.
Proof. intros Hc Hb. by apply eats_fbind_r with false. Qed.

(** One of two characters, or neither. *)
Lemma eats_either a b c rest : c = a \/ c = b -> eats (or_else (TryConsume a) (TryConsume b)) [c] rest true.
Proof.
  intros [-> | ->]; [apply eats_or_left, eats_this|].
  destruct (decide (a = b)) as [-> |]; [apply eats_or_left, eats_this|].
  apply eats_or_right; [by apply eats_not_this|apply eats_this].
Qed.
Lemma eats_neither a b rest :
  hd NUL rest <> a -> hd NUL rest <> b -> eats (or_else (TryConsume a) (TryConsume b)) [] rest false.
Proof. intros. apply eats_or_right; by apply eats_not_this. Qed.

(** ** Strings *)

Lemma eats_HexDigits n w rest :
  length w = S n -> all HexDigit w -> eats (HexDigits (S n)) w rest true.
Proof.
  revert w. induction n as [|n IH]; intros w Hl Hw.
  - destruct w as [|c [|]]; try done. apply eats_hit. by apply Forall_inv in Hw.
  - destruct w as [|c w]; [done|]. apply Forall_cons in Hw as [Hc Hw].
    change (HexDigits (S (S n))) with (and_then (TryConsumeOne HexDigit) (HexDigits (S n))).
    apply (eats_and_then _ _ [c] w); [by apply eats_hit|]. apply IH; [|done]. cbn in Hl. lia.
Qed.

Lemma eats_digits n w rest (e : Message) :
  length w = S n -> all HexDigit w -> eats (when (HexDigits (S n)) (fret tt) (AddError e)) w rest tt.
Proof.
  intros Hl Hw. rewrite <- (app_nil_r w). apply eats_when_yes; [|apply eats_fret]. by apply eats_HexDigits.
Qed.

Ltac misses := apply eats_miss; first [done | assumption].

Lemma escape_not_digit c :
  Escape c = true -> c <> "x"%byte /\ c <> "X"%byte /\ c <> "u"%byte /\ c <> "U"%byte.
Proof. intros H. split_and!; intros ->; discriminate H. Qed.

Lemma eats_escape ml q w rest :
  string_piece ml q (BACKSLASH :: w) -> w <> [] -> eats ConsumeEscape w rest tt.
Proof.
  intros Hp Hne. inversion Hp as [|c Hc|c Hc|x c Hx Hc|l Hl Hds|b l Hb Hl Hds]; subst; try done; clear Hp.
  - apply (eats_when_yes _ _ _ [c] []); [by apply eats_hit|apply eats_fret].
  - assert (Escape c = false) as He by by destruct c.
    apply eats_when_no; [by misses|].
    apply (eats_when_yes _ _ _ [c] []); [by apply eats_hit|apply eats_fret].
  - do 2 (apply eats_when_no; [by destruct Hx as [-> | ->]; misses|]).
    apply (eats_when_yes _ _ _ [x] [c]); [by apply eats_either|]. apply eats_digits; [done|by constructor].
  - do 2 (apply eats_when_no; [misses|]). apply eats_when_no; [by apply eats_neither|].
    apply (eats_when_yes _ _ _ ["u"%byte] l); [apply eats_this|by apply eats_digits].
  - do 2 (apply eats_when_no; [misses|]). apply eats_when_no; [by apply eats_neither|].
    apply eats_when_no; [by apply eats_not_this|].
    rewrite <- (app_nil_r l). change ("U" :: "0" :: "0" :: b :: l ++ [])%byte
      with (["U"] ++ (["0"] ++ ["0"] ++ [b] ++ l) ++ [])%byte.
    apply eats_when_yes; [apply eats_this|]. apply eats_when_yes; [|apply eats_fret].
    do 2 (apply eats_and_then; [apply eats_this|]).
    apply eats_and_then; [by apply eats_either|by apply eats_HexDigits].
Qed.

Lemma eats_string_piece q w rest :
  q = QUOTE \/ q = DQUOTE -> string_piece (allow_multiline_strings_ o) q w ->
  eats (ConsumeString_round q) w rest false.
Proof.
  intros Hq Hp v Hv. unfold ConsumeString_round. pose proof (ready_char _ _ Hv) as Hc.
  assert (forall c w' (k : F unit), w = c :: w' -> eats k w' rest tt ->
    (NextChar ;+ k ;+ fret false) v = (false, consume w v)) as Hnext.
  { intros c w' k -> Hk. apply (eats_fbind _ _ [c] w' rest tt); [apply eats_NextChar| |done].
    apply eats_fbind_l with tt; [done|apply eats_fret]. }
  assert (forall c, w = [c] -> (NextChar ;+ fret false) v = (false, consume w v)) as Hone.
  { intros c ->. apply (eats_fbind_l _ _ [c] rest tt false); [apply eats_NextChar|apply eats_fret|done]. }
  assert ((exists w', w = BACKSLASH :: w' /\ w' <> []) \/ (exists c, w = [c] /\ c <> NUL /\
    c <> BACKSLASH /\ c <> q /\ (c = NL -> allow_multiline_strings_ o = true)))
    as [(w' & -> & Hne)|(c & -> & H0 & Hb & Hcq & Hnl)]
    by (inversion Hp; subst; (by left; eauto) || (by right; eauto 10)).
  - rewrite Hc. cbn [hd app]. apply (Hnext BACKSLASH w'); [done|]. by apply (eats_escape (allow_multiline_strings_ o) q).
  - rewrite Hc. cbn [hd app]. rewrite (proj2 (eqc_false NUL c)), (proj2 (eqc_false BACKSLASH c)), (proj2 (eqc_false q c)) by done.
    destruct (eqc NL c) eqn:En; [|by apply (Hone c)]. apply eqc_true in En.
    destruct Hv as (_ & -> & _). rewrite Hnl by done. by apply (Hone c).
Qed.

Lemma eats_string q body rest :
  q = QUOTE \/ q = DQUOTE -> string_body (allow_multiline_strings_ o) q body ->
  eats (ConsumeString q) (body ++ [q]) rest tt.
Proof.
  intros Hq (ps & -> & Hps) v Hv. unfold ConsumeString.
  assert (exists n, length (buffer_ v) = n /\ (length ps <= n)%nat) as (n & -> & Hn).
  { eexists. split; [done|]. destruct Hv as (_ & _ & -> & _). rewrite !length_app.
    assert (length ps <= length (concat ps))%nat; [|lia]. clear -Hps.
    induction Hps as [|p ps Hp _ IH]; [done|]. cbn [concat length]. rewrite length_app.
    assert (length p <> O) by by inversion Hp. lia. }
  revert v Hv. change (eats (ConsumeString_loop q n) (concat ps ++ [q]) rest tt).
  revert n Hn. induction Hps as [|p ps Hp _ IH]; intros n Hn.
  - assert (eats (ConsumeString_round q) [q] rest true) as Hend.
    { intros v Hv. unfold ConsumeString_round. rewrite (ready_char _ _ Hv). cbn [app hd].
      rewrite (proj2 (eqc_true q q) eq_refl).
      assert (eqc NUL q = false /\ eqc NL q = false /\ eqc BACKSLASH q = false) as (-> & -> & ->)
        by by destruct Hq as [-> | ->].
      by apply (eats_fbind_l _ _ [q] rest tt true (eats_NextChar q rest) (eats_fret true rest)). }
    destruct n; apply eats_fbind_l with true; auto using eats_fret.
  - destruct n as [|n]; cbn in Hn; [lia|]. cbn [concat]. rewrite <- app_assoc.
    apply (eats_fbind _ _ p _ _ false); [by apply eats_string_piece|]. apply IH. lia.
Qed.

(** ** Numbers *)

(** What is behind a token here: white space or the end. *)
Definition stops (rest : list byte) : Prop := hd NUL rest = NUL \/ Whitespace (hd NUL rest) = true.

Lemma stops_class (p : byte -> bool) rest :
  stops rest -> p NUL = false -> forallb (fun x => implb (Whitespace (z2b x)) (negb (p (z2b x))))
    (map Z.of_nat (seq 0 256)) = true -> p (hd NUL rest) = false.
Proof.
  intros [-> |Hw] Hn Hp; [done|].
  pose proof (char_forall (fun c => implb (Whitespace c) (negb (p c))) (hd NUL rest) Hp) as H.
  cbv beta in H. rewrite Hw in H. by apply negb_true_iff.
Qed.

Lemma eats_exponent (is_float : bool) ex rest :
  ex = [] \/ exponent ex -> Digit (hd NUL rest) = false ->
  (ex = [] -> hd NUL rest <> "e"%byte /\ hd NUL rest <> "E"%byte) ->
  eats (let+ e := or_else (TryConsume "e") (TryConsume "E") in
    if e : bool then
      or_else (TryConsume "-") (TryConsume "+") ;+
      ConsumeOneOrMore Digit EmptyExponent ;+ fret true
    else fret is_float) ex rest (is_float || negb (bool_decide (ex = []))).
Proof.
  intros Hex Hd Hr. destruct Hex as [-> |(e & sign & ds & He & Hs & Hne & Hds & ->)].
  - destruct (Hr eq_refl). rewrite bool_decide_eq_true_2, orb_false_r by done.
    apply eats_fbind_l with false; [by apply eats_neither|apply eats_fret].
  - rewrite bool_decide_eq_false_2, orb_true_r by done.
    apply (eats_fbind _ _ [e] (sign ++ ds) _ true); [by apply eats_either|].
    apply eats_fbind with (a := negb (bool_decide (sign = []))).
    + destruct Hs as [-> |Hs].
      * apply eats_neither; (destruct ds as [|d ds]; [done|]); apply Forall_inv in Hds; cbn; by intros ->.
      * assert (exists c, sign = [c] /\ (c = "-" \/ c = "+")%byte) as (c & -> & Hc)
          by (destruct Hs as [-> | ->]; eauto).
        by apply eats_either.
    + apply eats_fbind_l with tt; [by apply eats_OneOrMore|apply eats_fret].
Qed.

Lemma eats_fraction (dot : bool) ds fp rest :
  all Digit ds -> fp = [] \/ dot = false /\ (exists ds', fp = "."%byte :: ds' /\ all Digit ds') ->
  Digit (hd NUL rest) = false -> (fp = [] -> hd NUL rest <> "."%byte) ->
  eats (ConsumeZeroOrMore Digit ;+
     if dot then fret true
     else let+ d := TryConsume "." in
          if d : bool then ConsumeZeroOrMore Digit ;+ fret true else fret false)
    (ds ++ fp) rest (dot || negb (bool_decide (fp = []))).
Proof.
  intros Hds Hfp Hd Hr. apply eats_fbind with tt.
  { apply eats_ZeroOrMore; [done|]. by destruct Hfp as [-> |(_ & ds' & -> & _)]. }
  destruct Hfp as [-> |(-> & ds' & -> & Hds')].
  - rewrite bool_decide_eq_true_2, orb_false_r by done. destruct dot; [apply eats_fret|].
    apply eats_fbind_l with false; [apply eats_not_this, Hr; done|apply eats_fret].
  - apply (eats_fbind _ _ ["."%byte] ds' _ true); [apply eats_this|].
    apply eats_fbind_l with tt; [by apply eats_ZeroOrMore|apply eats_fret].
Qed.

(** The exponent and the suffix do not begin like what is before them. *)
Lemma suffix_head (p : byte -> bool) af sf rest :
  suffix af sf -> p (hd NUL rest) = false -> p "f"%byte = false -> p "F"%byte = false ->
  p (hd NUL (sf ++ rest)) = false.
Proof. by intros [-> |(_ & [-> | ->])]. Qed.
Lemma exponent_head (p : byte -> bool) ex rest :
  ex = [] \/ exponent ex -> p (hd NUL rest) = false -> p "e"%byte = false -> p "E"%byte = false ->
  p (hd NUL (ex ++ rest)) = false.
Proof. by intros [-> |(e & s & ds & [-> | ->] & _ & _ & _ & ->)]. Qed.

Lemma eats_suffix (b : bool) sf rest :
  suffix (allow_f_after_float_ o) sf -> stops rest ->
  eats (let+ allow_f := fgets (fun v => allow_f_after_float_ (options v)) in
    let+ f := (if allow_f : bool then or_else (TryConsume "f") (TryConsume "F") else fret false) in
    fret (b || f)) sf rest (b || negb (bool_decide (sf = []))).
Proof.
  intros Hsf Hr. apply eats_fbind_r with (allow_f_after_float_ o).
  { apply eats_fgets. by intros v (_ & -> & _). }
  apply eats_fbind_l with (negb (bool_decide (sf = []))); [|apply eats_fret].
  destruct Hsf as [-> |(-> & Hsf)].
  - rewrite bool_decide_eq_true_2 by done. destruct (allow_f_after_float_ o); [|apply eats_fret].
    apply eats_neither; apply eqc_false; by apply (stops_class _ rest).
  - assert (exists c, sf = [c] /\ (c = "f" \/ c = "F")%byte) as (c & -> & Hc)
      by (destruct Hsf as [-> | ->]; eauto).
    by apply eats_either.
Qed.

Lemma eats_decimal (dot : bool) ds fp ex sf rest :
  all Digit ds -> fp = [] \/ dot = false /\ (exists ds', fp = "."%byte :: ds' /\ all Digit ds') ->
  ex = [] \/ exponent ex -> suffix (allow_f_after_float_ o) sf -> stops rest ->
  eats (ConsumeDecimal dot) (ds ++ fp ++ ex ++ sf) rest
    (dot || negb (bool_decide (fp = [])) || negb (bool_decide (ex = [])) || negb (bool_decide (sf = []))).
Proof.
  intros Hds Hfp Hex Hsf Hr.
  assert (forall p : byte -> bool, p NUL = false -> p "f"%byte = false -> p "F"%byte = false ->
    forallb (fun x => implb (Whitespace (z2b x)) (negb (p (z2b x)))) (map Z.of_nat (seq 0 256)) = true ->
    p (hd NUL (sf ++ rest)) = false) as Hs by (intros; eapply suffix_head; eauto using stops_class).
  rewrite app_assoc. apply eats_fbind with (a := dot || negb (bool_decide (fp = []))).
  { apply eats_fraction; try done.
    - rewrite <- app_assoc. apply exponent_head; try done. by apply Hs.
    - intros _. apply eqc_false. rewrite <- app_assoc. apply exponent_head; try done. by apply Hs. }
  intros v Hv.
  assert (eats (fbind (let+ e := or_else (TryConsume "e") (TryConsume "E") in
    if e : bool then
      or_else (TryConsume "-") (TryConsume "+") ;+
      ConsumeOneOrMore Digit EmptyExponent ;+ fret true
    else fret (dot || negb (bool_decide (fp = [])))) (fun is_float =>
      let+ allow_f := fgets (fun v => allow_f_after_float_ (options v)) in
      let+ f := (if allow_f : bool then or_else (TryConsume "f") (TryConsume "F") else fret false) in
      fret (is_float || f)))
    (ex ++ sf) rest
    (dot || negb (bool_decide (fp = [])) || negb (bool_decide (ex = [])) || negb (bool_decide (sf = []))))
    as Hrest.
  { eapply eats_fbind; [|by apply eats_suffix]. apply eats_exponent; [done|by apply Hs|].
    intros _. split; apply eqc_false; by apply Hs. }
  rewrite <- (Hrest v Hv). unfold fbind. by destruct (or_else _ _ v).
Qed.

(** A number ends here. *)
Lemma eats_number_end (is_float : bool) rest :
  stops rest ->
  eats (let+ v := fgets (fun v => v) in
    (if Letter (current_char_ v) && require_space_after_number_ (options v) then
       AddError NumberNeedsSpace
     else if eqc "." (current_char_ v) then
       if is_float then AddError SecondPoint else AddError NotAnInteger
     else fret tt) ;+
    fret (if is_float then TYPE_FLOAT else TYPE_INTEGER)) [] rest
    (if is_float then TYPE_FLOAT else TYPE_INTEGER).
Proof.
  intros Hr v Hv. rewrite fbind_fgets, (ready_char _ _ Hv). cbn [app].
  rewrite (stops_class Letter), (stops_class (eqc ".")) by done. cbn [andb].
  destruct Hv as [Hv _]. by rewrite consume_nil.
Qed.

Lemma eats_hex x ds rest :
  x = "x"%byte \/ x = "X"%byte -> ds <> [] -> all HexDigit ds -> stops rest ->
  eats (ConsumeNumber true false) (x :: ds) rest TYPE_INTEGER.
Proof.
  intros Hx Hne Hds Hr. apply eats_fbind_l with false; [|by apply (eats_number_end false)].
  apply (eats_fbind _ _ [x] ds _ true); [by apply eats_either|].
  apply eats_fbind_l with tt; [|apply eats_fret].
  apply eats_OneOrMore; [done..|]. by apply (stops_class HexDigit).
Qed.

Lemma eats_octal ds rest :
  ds <> [] -> all OctalDigit ds -> stops rest ->
  eats (ConsumeNumber true false) ds rest TYPE_INTEGER.
Proof.
  intros Hne Hds Hr. apply eats_fbind_l with false; [|by apply (eats_number_end false)].
  assert (exists d l, ds = d :: l /\ Digit d = true /\ d <> "x"%byte /\ d <> "X"%byte) as (d & l & E & Hd & Hx & HX).
  { destruct Hds as [|d l Hd _]; [done|]. exists d, l. split; [done|].
    split; [by destruct d|]. by split; intros ->. }
  apply eats_fbind_r with false; [by apply eats_neither; rewrite E|].
  apply eats_fbind_r with true; [apply eats_char; by rewrite E|].
  apply eats_fbind_l with tt; [by apply eats_ZeroOrMore; [|by apply (stops_class OctalDigit)]|].
  apply eats_fbind_l with false; [apply eats_char; by apply (stops_class Digit)|].
  apply eats_fbind_l with tt; apply eats_fret.
Qed.

Lemma eats_decimal_number (z dot : bool) ds fp ex sf rest :
  (z = true -> ds = []) ->
  all Digit ds -> fp = [] \/ dot = false /\ (exists ds', fp = "."%byte :: ds' /\ all Digit ds') ->
  ex = [] \/ exponent ex -> suffix (allow_f_after_float_ o) sf -> stops rest ->
  eats (ConsumeNumber z dot) (ds ++ fp ++ ex ++ sf) rest
    (if dot || negb (bool_decide (fp = [])) || negb (bool_decide (ex = [])) || negb (bool_decide (sf = []))
     then TYPE_FLOAT else TYPE_INTEGER).
Proof.
  intros Hz Hds Hfp Hex Hsf Hr. eapply eats_fbind_l; [|by apply eats_number_end].
  assert (forall p : byte -> bool, p NUL = false -> p "f"%byte = false -> p "F"%byte = false ->
    p "e"%byte = false -> p "E"%byte = false -> p "."%byte = false ->
    forallb (fun x => implb (Whitespace (z2b x)) (negb (p (z2b x)))) (map Z.of_nat (seq 0 256)) = true ->
    z = true -> p (hd NUL ((ds ++ fp ++ ex ++ sf) ++ rest)) = false) as Hhd.
  { intros p ? ? ? ? ? ? ? Ez. rewrite (Hz Ez), <- !app_assoc.
    destruct Hfp as [-> |(_ & ds' & -> & _)]; [|done]. cbn [app]. apply exponent_head; try done.
    eapply suffix_head; eauto using stops_class. }
  apply eats_fbind_r with false.
  { destruct z; [|apply eats_fret]. apply eats_neither; apply eqc_false; by apply Hhd. }
  apply eats_fbind_r with false.
  { destruct z; [|apply eats_fret]. apply eats_char. by apply Hhd. }
  by apply eats_decimal.
Qed.
(** ** Tokens *)

(** [f] reads [w] and gives the token its type. *)
Definition yields (f : F unit) (ty : TokenType) (w rest : list byte) : Prop :=
  forall v, ready v (w ++ rest) -> f v = set_type ty (consume w v).

Lemma yields_then {A} (m : F A) ty w rest a : eats m w rest a -> yields (m ;+ set_type ty) ty w rest.
Proof. intros Hm v Hv. unfold fbind. by rewrite Hm. Qed.
Lemma yields_type (m : F TokenType) ty w rest :
  eats m w rest ty -> yields (let+ ty := m in set_type ty) ty w rest.
Proof. intros Hm v Hv. unfold fbind. by rewrite Hm. Qed.
Lemma yields_fbind {A} (m : F A) (k : A -> F unit) a ty w1 w2 rest :
  eats m w1 (w2 ++ rest) a -> yields (k a) ty w2 rest -> yields (fbind m k) ty (w1 ++ w2) rest.
Proof.
  intros Hm Hk v Hv. rewrite <- app_assoc in Hv. unfold fbind. rewrite Hm by done.
  rewrite Hk by by apply ready_consume. by rewrite consume_app.
Qed.
Lemma yields_yes p a b ty c w rest :
  p c = true -> yields a ty w rest -> yields (when (TryConsumeOne p) a b) ty (c :: w) rest.
Proof. intros Hc Ha. apply (yields_fbind _ _ true ty [c] w); [by apply eats_hit|done]. Qed.
Lemma yields_no p a b ty w rest :
  p (hd NUL (w ++ rest)) = false -> yields b ty w rest -> yields (when (TryConsumeOne p) a b) ty w rest.
Proof. intros Hc Hb. apply (yields_fbind _ _ false ty [] w); [by apply eats_miss|done]. Qed.

(** A [.] does not make a number of an identifier that is right before. *)
Hypothesis inert_apart : forall v, inert v ->
  bool_decide (type (previous_ v) = TYPE_IDENTIFIER) &&
  (line (current_ v) =? line (previous_ v)) && (column (current_ v) =? end_column (previous_ v)) = false.

Lemma yields_point (m : F TokenType) l c e ty w rest :
  eats m w rest ty ->
  yields (let+ v := fgets (fun v => v) in
     (if bool_decide (type (previous_ v) = TYPE_IDENTIFIER) &&
         (line (current_ v) =? line (previous_ v)) && (column (current_ v) =? end_column (previous_ v))
      then RecordError (l v) (c v) e else fret tt) ;+
     let+ ty := m in set_type ty) ty w rest.
Proof.
  intros Hm v Hv. rewrite fbind_fgets. rewrite inert_apart by apply Hv.
  by apply (yields_type m ty w rest Hm v).
Qed.

Lemma yields_symbol (m : V -> Message) (l k : V -> Z) c rest :
  33 <= b2z c < 128 ->
  yields (let+ v := fgets (fun v => v) in
    (if negb (Z.land (b2z (current_char_ v)) 0x80 =? 0) then RecordError (l v) (k v) (m v) else fret tt) ;+
    NextChar ;+ set_type TYPE_SYMBOL) TYPE_SYMBOL [c] rest.
Proof.
  intros Hc v Hv. rewrite fbind_fgets, (ready_char _ _ Hv). cbn [app hd]. rewrite land_80.
  destruct (Z.ltb_spec (b2z c) 128); [|lia]. cbn [negb].
  by apply (yields_then NextChar TYPE_SYMBOL [c] rest tt (eats_NextChar c rest) v).
Qed.

Lemma yields_integer text rest : integer_text text -> stops rest -> yields token_body TYPE_INTEGER text rest.
Proof.
  intros [(x & ds & Hx & Hne & Hds & ->)|[(ds & Hds & ->)|(d & ds & Hd & H0 & Hds & ->)]] Hr.
  - apply yields_no; [done|]. apply yields_yes; [done|]. by apply yields_type, eats_hex.
  - apply yields_no; [done|]. apply yields_yes; [done|]. apply yields_type.
    destruct ds as [|d ds]; [|by apply eats_octal].
    by apply (eats_decimal_number true false [] [] [] []); first [done | left].
  - do 3 (apply yields_no; [by destruct d|]). apply yields_yes; [done|]. apply yields_type.
    rewrite <- (app_nil_r ds). by apply (eats_decimal_number false false ds [] [] []); first [done | left].
Qed.

Lemma yields_float text rest :
  float_text (allow_f_after_float_ o) text -> stops rest -> yields token_body TYPE_FLOAT text rest.
Proof.
  intros (ip & fp & ex & sf & -> & Hip & Hfp & Hex & Hsf & Hne & Hne' & Hz) Hr.
  assert (forall b, (if b || negb (bool_decide (fp = [])) || negb (bool_decide (ex = [])) ||
    negb (bool_decide (sf = [])) then TYPE_FLOAT else TYPE_INTEGER) = TYPE_FLOAT) as Hty.
  { intros b. repeat case_bool_decide; subst; rewrite ?orb_true_r; try done. tauto. }
  destruct ip as [|d ip].
  - destruct Hfp as [-> |(ds & -> & Hds & [?|Hd])]; [by destruct Hne|done|].
    destruct Hds as [|d ds Hd' Hds]; [done|].
    apply yields_no; [done|]. apply yields_no; [done|]. apply yields_yes; [done|]. apply yields_yes; [done|].
    apply yields_point. by apply (eats_decimal_number false true ds [] ex sf); auto.
  - apply Forall_cons in Hip as [Hd Hip].
    assert (fp = [] \/ false = false /\ exists ds', fp = "."%byte :: ds' /\ all Digit ds') as Hfp'
      by (destruct Hfp as [-> |(ds & -> & Hds & _)]; eauto).
    destruct (decide (d = "0"%byte)) as [-> |H0].
    + rewrite (Hz ip eq_refl). apply yields_no; [done|]. apply yields_yes; [done|]. apply yields_type.
      rewrite <- (Hty false). by apply (eats_decimal_number true false [] fp ex sf).
    + do 3 (apply yields_no; [by destruct d|]). apply yields_yes; [done|]. apply yields_type.
      rewrite <- (Hty false). by apply (eats_decimal_number false false ip fp ex sf).
Qed.

Lemma yields_token ty text rest :
  report_whitespace_ o = false -> report_newlines_ o = false ->
  token_text o ty text -> stops rest -> yields token_body ty text rest.
Proof.
  intros Hrw Hrn Ht Hr. destruct ty; try done; cbn [token_text] in Ht.
  - destruct Ht as (c & l & Hc & Hl & ->). apply yields_yes; [done|]. apply yields_then with tt.
    apply eats_ZeroOrMore; [done|]. by apply (stops_class Alphanumeric).
  - by apply yields_integer.
  - by apply yields_float.
  - destruct Ht as (q & body & Hq & Hb & ->).
    assert (yields (ConsumeString q ;+ set_type TYPE_STRING) TYPE_STRING (body ++ [q]) rest) as Hs
      by by eapply yields_then, eats_string.
    destruct Hq as [-> | ->]; do 4 (apply yields_no; [done|]).
    + apply yields_no; [done|]. by apply yields_yes.
    + by apply yields_yes.
  - destruct Ht as (c & Hc & HL & HD & Hq & Hdq & ->).
    apply yields_no; [done|]. apply yields_no; [by destruct c|].
    destruct (decide (c = "."%byte)) as [-> |Hp].
    + apply yields_yes; [done|]. apply yields_no; [by apply (stops_class Digit)|].
      intros v [Hv _]. by rewrite consume_nil.
    + apply yields_no; [by apply eqc_false|]. apply yields_no; [done|].
      do 2 (apply yields_no; [by apply eqc_false|]).
      by apply (yields_symbol (fun v => NonAscii (b2z (current_char_ v))) line_ column_).
  - destruct Ht as [Ht _]. by rewrite Hrw, Hrn in Ht.
  - destruct Ht as [Ht _]. congruence.
Qed.
End forward.

(** ** Next *)

Definition spaced_token (o : Options) (ty : TokenType) (text : list byte) : Prop :=
  token_text o ty text /\ (comment_style_ o = SH_COMMENT_STYLE -> text <> ["#"%byte]).

Lemma integer_first text : integer_text text -> exists d l, text = d :: l /\ Digit d = true.
Proof.
  intros [(x & ds & _ & _ & _ & ->)|[(ds & _ & ->)|(d & ds & Hd & _ & _ & ->)]]; by eexists _, _.
Qed.
Lemma float_first allow_f text :
  float_text allow_f text -> exists d l, text = d :: l /\ (Digit d = true \/ d = "."%byte).
Proof.
  intros (ip & fp & ex & sf & -> & Hip & Hfp & _ & _ & Hne & _).
  destruct Hip as [|d ip Hd _]; [|eexists _, _; split; [done|by left]].
  destruct Hfp as [-> |(ds & -> & _)]; [by destruct Hne|]. eexists _, _. split; [done|by right].
Qed.

(** How the text of a token begins. *)
Lemma token_first o ty text :
  report_whitespace_ o = false -> report_newlines_ o = false -> token_text o ty text ->
  exists c l, text = c :: l /\ 33 <= b2z c < 128 /\
    (ty = TYPE_SYMBOL /\ l = [] \/ c <> "/"%byte /\ c <> "#"%byte).
Proof.
  intros Hrw Hrn Ht.
  assert (forall c l, Letter c = true \/ Digit c = true \/ c = "."%byte \/ c = QUOTE \/ c = DQUOTE ->
    33 <= b2z c < 128 /\ (ty = TYPE_SYMBOL /\ l = @nil byte \/ c <> "/"%byte /\ c <> "#"%byte)) as Hc.
  { intros c l Hc. assert ((33 <=? b2z c) && (b2z c <? 128) && negb (eqc "/" c) && negb (eqc "#" c) = true) as H.
    { by_chars c (fun c => implb (Letter c || Digit c || eqc "." c || eqc QUOTE c || eqc DQUOTE c)
        ((33 <=? b2z c) && (b2z c <? 128) && negb (eqc "/" c) && negb (eqc "#" c))).
      rewrite <- H. destruct Hc as [Hc|[Hc|[-> |[-> | ->]]]]; try done; by rewrite Hc, ?orb_true_r. }
    apply andb_true_iff in H as [[H H1%negb_true_iff%eqc_false]%andb_true_iff H2%negb_true_iff%eqc_false].
    split; [lia|by right]. }
  destruct ty; try done; cbn [token_text] in Ht.
  - destruct Ht as (c & l & H & _ & ->). exists c, l. split; [done|]. apply Hc. auto.
  - destruct (integer_first _ Ht) as (c & l & -> & H). exists c, l. split; [done|]. apply Hc. auto.
  - destruct (float_first _ _ Ht) as (c & l & -> & H). exists c, l. split; [done|]. apply Hc. tauto.
  - destruct Ht as (q & body & Hq & _ & ->). exists q, (body ++ [q]). split; [done|]. apply Hc. tauto.
  - destruct Ht as (c & H & _ & _ & _ & _ & ->). exists c, []. auto.
  - destruct Ht as [Ht _]. by rewrite Hrw, Hrn in Ht.
  - destruct Ht as [Ht _]. congruence.
Qed.

Section next.
Variable o : Options.
Hypothesis no_whitespace : report_whitespace_ o = false.
Hypothesis no_newlines : report_newlines_ o = false.

Notation at_ v l := (ready o (fun _ => True) v l).

Lemma Next_space_skips gap l v :
  at_ v (gap ++ l) -> all Whitespace gap -> Whitespace (hd NUL l) = false ->
  exists ty, Next_space v = (false, (EndToken (set_type ty (consume gap (StartToken v).2)).2).2).
Proof.
  intros Hv Hgap Hl. assert (at_ (StartToken v).2 (gap ++ l)) as Hv0.
  { destruct Hv as (Hn & ? & ? & _). split; [by apply StartToken_normal|done]. }
  unfold Next_space, or_else. unfold fbind at 1. destruct (StartToken v) as [[] v0]. cbn [snd] in *.
  assert (options v0 = o) as Ho by apply Hv0. assert (normal v0) as Hn by apply Hv0.
  unfold fbind. rewrite TryConsumeWhitespace_eq, (ready_char _ _ _ _ Hv0) by done. rewrite Ho.
  rewrite no_newlines, no_whitespace. cbv zeta.
  assert (take_while Whitespace (buffer_ v0) = gap) as ->.
  { destruct Hv0 as (_ & _ & -> & _). rewrite take_while_app, take_while_stop, app_nil_r; [done| |done].
    by destruct l. }
  assert (forall ty v1, v1 = (set_type ty (consume gap v0)).2 -> normal v1 ->
    (let '(a, v) := TryConsumeNewline v1 in (let '(_, v) := EndToken v in fret a v)) =
    (false, (EndToken (set_type ty (consume gap v0)).2).2)) as Hend.
  { intros ty v1 -> Hn1. rewrite TryConsumeNewline_eq by done.
    change (options (set_type ty (consume gap v0)).2) with (options (consume gap v0)).
    assert (options (consume gap v0) = o) as -> by (apply (ready_consume o (fun _ => True) (fun _ _ _ => I) gap l), Hv0).
    by rewrite no_whitespace. }
  pose proof (ready_consume o (fun _ => True) (fun _ _ _ => I) gap l v0 Hv0) as (Hn1 & _).
  destruct gap as [|c gap].
  - exists (type (current_ (consume [] v0))). cbn [app]. rewrite Hl. cbn [orb].
    apply (Hend _ v0); [|done]. by rewrite set_same_type, consume_nil.
  - exists TYPE_WHITESPACE. cbn [app hd]. apply Forall_inv in Hgap. rewrite Hgap.
    by apply (Hend TYPE_WHITESPACE).
Qed.

(** Where a token begins, it is not a comment. *)
Lemma comment_start_no c l v :
  at_ v (c :: l) -> c <> "/"%byte \/ comment_style_ o = SH_COMMENT_STYLE ->
  (comment_style_ o = SH_COMMENT_STYLE -> c <> "#"%byte) ->
  TryConsumeCommentStart v = (NO_COMMENT, v).
Proof.
  intros Hv Hc Hs. unfold TryConsumeCommentStart. rewrite fbind_fgets.
  assert (options v = o) as -> by apply Hv.
  destruct (comment_style_ o); unfold fbind, TryConsume, TryConsumeOne;
    rewrite (ready_char _ _ _ _ Hv); cbn [hd].
  - rewrite (proj2 (eqc_false "/"%byte c)) by by destruct Hc. done.
  - by rewrite (proj2 (eqc_false "#"%byte c)) by by apply Hs.
Qed.

Lemma eats_no_comment_at_end v : at_ v [] -> TryConsumeCommentStart v = (NO_COMMENT, v).
Proof.
  intros Hv. unfold TryConsumeCommentStart. rewrite fbind_fgets.
  destruct (comment_style_ (options v)); unfold fbind, TryConsume, TryConsumeOne;
    by rewrite (ready_char _ _ _ _ Hv).
Qed.

Lemma comment_start_slash rest v :
  at_ v ("/"%byte :: rest) -> comment_style_ o = CPP_COMMENT_STYLE -> stops rest ->
  let v1 := consume ["/"%byte] v in
  TryConsumeCommentStart v = (SLASH_NOT_COMMENT, set_current (slash_token v1) v1).
Proof.
  intros Hv Hs Hr. cbv zeta. unfold TryConsumeCommentStart. rewrite fbind_fgets.
  assert (options v = o) as -> by apply Hv. rewrite Hs. unfold fbind at 1.
  rewrite (eats_this o (fun _ => True) "/"%byte rest v Hv).
  assert (at_ (consume ["/"%byte] v) rest) as Hv1 by by apply ready_consume.
  set (v1 := consume _ v) in *. unfold fbind, TryConsume, TryConsumeOne.
  rewrite (ready_char _ _ _ _ Hv1), (stops_class (eqc "/")) by done. cbv beta iota.
  by rewrite (ready_char _ _ _ _ Hv1), (stops_class (eqc "*")).
Qed.

(** [ConsumeToken] on the text of a token that is not glued to an identifier. *)
Lemma ConsumeToken_forward ty w rest v :
  at_ v (w ++ rest) -> token_text o ty w -> stops rest ->
  (type (previous_ v) = TYPE_IDENTIFIER -> pos v <> (line (previous_ v), end_column (previous_ v))) ->
  ConsumeToken v = EndToken (set_type ty (consume w (StartToken v).2)).2.
Proof.
  intros Hv Ht Hr Hapart.
  set (inert := fun v0 : V => bool_decide (type (previous_ v0) = TYPE_IDENTIFIER) &&
    (line (current_ v0) =? line (previous_ v0)) && (column (current_ v0) =? end_column (previous_ v0)) = false).
  assert (forall w v0, inert v0 -> inert (consume w v0)) as Hcons.
  { intros w' v0. unfold inert, consume, recorded, append_target. cbn.
    by destruct (record_target_ v0) as [[]|]. }
  assert (ready o inert (StartToken v).2 (w ++ rest)) as Hv0.
  { destruct Hv as (Hn & ? & ? & _). split; [by apply StartToken_normal|]. split; [done|]. split; [done|].
    unfold inert. cbn. case_bool_decide as Hid; [|done]. specialize (Hapart Hid). cbn [andb].
    destruct (Z.eqb_spec (line_ v) (line (previous_ v))) as [E|]; [|done].
    destruct (Z.eqb_spec (column_ v) (end_column (previous_ v))) as [E'|]; [|done].
    destruct Hapart. unfold pos. by rewrite E, E'. }
  pose proof (yields_token o inert Hcons (fun v Hv => Hv) ty w rest no_whitespace no_newlines Ht Hr
    (StartToken v).2 Hv0) as E.
  change (ConsumeToken v) with (let '(a, v) := token_body (StartToken v).2 in EndToken v).
  by rewrite E.
Qed.

(** The token [w] of type [ty] is behind the white space [gap]. *)
Record lexed (gap : list byte) (ty : TokenType) (w rest : list byte) (v v' : V) : Prop := {
  l_ready : at_ v' rest;
  l_record : record_target_ v' = None;
  l_previous : previous_ v' = previous_ v;
  l_pos : pos v' = walk (gap ++ w) (pos v);
  l_errors : errors v' = errors v;
  l_current : current_ v' = mkToken ty w (walk gap (pos v)).1 (walk gap (pos v)).2 (walk (gap ++ w) (pos v)).2;
}.

Lemma read_by_at w l v v' : at_ v (w ++ l) -> read_by w v v' -> at_ v' l.
Proof.
  intros (_ & Ho & Hb & _) [B N P O E]. split; [done|]. split; [congruence|]. split; [|done].
  rewrite Hb in B. by apply app_inv_head in B.
Qed.

(** The token of the given type that is started, read and ended. *)
Lemma token_done ty w rest v :
  at_ v (w ++ rest) ->
  let v' := (EndToken (set_type ty (consume w (StartToken v).2)).2).2 in
  at_ v' rest /\ record_target_ v' = None /\ previous_ v' = previous_ v /\ pos v' = walk w (pos v) /\
  token_at v ty w v' /\ errors v' = errors v.
Proof.
  intros Hv. cbv zeta. assert (moved w (StartToken v).2 (consume w (StartToken v).2)) as Hw
    by (apply (consume_moved _ rest); exact (ready_buffer _ _ _ _ Hv)).
  destruct (token_end ty _ _ _ Hw) as (_ & Hr & Hp & _ & Hrd & Hk & He).
  split; [by apply (read_by_at w rest v)|]. split; [done|]. split; [done|]. split; [apply Hrd|]. split; [done|].
  rewrite He. exact (consume_errors w (StartToken v).2).
Qed.

Lemma token_char_control c : 33 <= b2z c < 128 -> control c = false.
Proof.
  intros Hc. by_chars c (fun c => implb (33 <=? b2z c) (negb (control c) || (128 <=? b2z c))).
  destruct (Z.leb_spec 33 (b2z c)); [|lia]. destruct (Z.leb_spec 128 (b2z c)); [lia|].
  cbn [implb] in H. rewrite orb_false_r in H. by apply negb_true_iff.
Qed.

Lemma Next_rest_forward ty w rest v :
  at_ v (w ++ rest) -> spaced_token o ty w -> stops rest -> record_target_ v = None ->
  (type (previous_ v) = TYPE_IDENTIFIER -> pos v <> (line (previous_ v), end_column (previous_ v))) ->
  fwp Next_rest v (fun f v' => f = Return_true /\ lexed [] ty w rest v v').
Proof.
  intros Hv [Ht Hsh] Hr Hrec Hapart.
  destruct (token_first o ty w no_whitespace no_newlines Ht) as (c & l & -> & Hc & Hkind).
  destruct (decide (c = "/"%byte /\ comment_style_ o = CPP_COMMENT_STYLE)) as [[-> Hcpp]|Hno].
  - destruct Hkind as [[-> ->]|[? _]]; [|done].
    assert (Next_rest v = (Return_true, set_current (slash_token (consume ["/"%byte] v)) (consume ["/"%byte] v)))
      as E by (unfold Next_rest, fbind; by rewrite (comment_start_slash rest v Hv Hcpp Hr)).
    unfold fwp. rewrite E. split; [done|]. cbn [snd]. clear E.
    assert (moved ["/"%byte] v (consume ["/"%byte] v)) as Hw by (apply (consume_moved _ rest), Hv).
    pose proof (m_pos _ _ _ Hw) as Hp.
    constructor; try done.
    + apply (read_by_at ["/"%byte] rest v); [done|]. pose proof (moved_read_by _ _ _ Hw) as [B N P O E].
      by constructor.
    + exact (eq_trans (m_record _ _ _ Hw) Hrec).
    + apply (m_previous _ _ _ Hw).
    + cbn [app]. cbn [set_current errors]. apply consume_errors.
    + cbn [app]. cbn [set_current current_]. unfold slash_token. cbn. f_equal.
      change (column_ v + 1 - 1 = column_ v). lia.
  - assert (Next_rest v = (Return_true, (ConsumeToken v).2)) as E.
    { unfold Next_rest, fbind. rewrite (comment_start_no c (l ++ rest) v Hv).
      - cbv beta iota. unfold fgets. assert (read_error_ v = false) as ->.
        { destruct Hv as ((_ & _ & -> & _) & _ & -> & _). done. }
        rewrite (ready_char _ _ _ _ Hv). cbn [app hd]. rewrite (token_char_control c Hc).
        by destruct (ConsumeToken v).
      - destruct (comment_style_ o); [left|by right]. intros ->. by apply Hno.
      - intros Es ->. destruct Hkind as [[-> ->]|[_ ?]]; [|done]. by apply (Hsh Es). }
    unfold fwp. rewrite E, (ConsumeToken_forward ty (c :: l) rest v Hv Ht Hr Hapart).
    destruct (token_done ty (c :: l) rest v Hv) as (H1 & H2 & H3 & H4 & H5 & H6).
    split; [done|]. by constructor.
Qed.

Lemma spaced_not_space ty w rest : spaced_token o ty w -> Whitespace (hd NUL (w ++ rest)) = false.
Proof.
  intros [Ht _]. destruct (token_first o ty w no_whitespace no_newlines Ht) as (c & l & -> & Hc & _).
  cbn. by_chars c (fun c => implb (33 <=? b2z c) (negb (Whitespace c))).
  destruct (Z.leb_spec 33 (b2z c)); [|lia]. by apply negb_true_iff.
Qed.

Lemma Next_forward gap ty w rest v :
  at_ v (gap ++ w ++ rest) -> all Whitespace gap -> spaced_token o ty w -> stops rest ->
  record_target_ v = None ->
  (type (current_ v) = TYPE_IDENTIFIER ->
   walk gap (pos v) <> (line (current_ v), end_column (current_ v))) ->
  fwp Next v (fun b v' => b = true /\ lexed gap ty w rest (set_previous (current_ v) v) v').
Proof.
  intros Hv Hgap Hsp Hr Hrec Hapart. set (v0 := set_previous (current_ v) v).
  change (fwp (Next_loop (length (buffer_ v))) v0 (fun b v' => b = true /\ lexed gap ty w rest v0 v')).
  assert (at_ v0 (gap ++ w ++ rest)) as Hv0 by done.
  assert (exists n, length (buffer_ v) = S n \/ length (buffer_ v) = n) as [n Hn] by eauto.
  assert (read_error_ v0 = false) as Heof.
  { destruct Hv0 as ((_ & _ & -> & _) & _ & -> & _). destruct gap; [|done].
    destruct Hsp as [Ht _]. by destruct (token_first o ty w no_whitespace no_newlines Ht) as (c & l & -> & _). }
  assert (forall k, fwp (Next_loop k) v0 (fun b v' => b = true /\ lexed gap ty w rest v0 v')) as Hloop; [|done].
  intros k.
  assert (fwp Next_round v0 (fun f v' => f = Return_true /\ lexed gap ty w rest v0 v')) as Hround.
  { unfold fwp. rewrite Next_round_halves. unfold fbind.
    destruct (Next_space_skips gap (w ++ rest) v0 Hv0 Hgap (spaced_not_space ty w rest Hsp)) as [sty ->].
    destruct (token_done sty gap (w ++ rest) v0 Hv0) as (H1 & H2 & H3 & H4 & _ & H6).
    set (v1 := (EndToken _).2) in *. cbn [fst snd].
    destruct (Next_rest_forward ty w rest v1 H1 Hsp Hr H2) as [E [L1 L2 L3 L4 L5 L6]].
    { rewrite H3, H4. intros Hid. by apply Hapart. }
    split; [done|]. rewrite H4 in L4, L6. cbn [app] in *.
    constructor; rewrite ?walk_app; try done; try congruence. }
  unfold fwp in *. destruct k; cbn [Next_loop]; rewrite fbind_fgets, Heof; unfold fbind;
    destruct (Next_round v0) as [f v1]; cbn [fst snd] in Hround; by destruct Hround as [-> ?].
Qed.

(** Behind the last token there is only white space. *)
Lemma Next_forward_end gap v :
  at_ v gap -> all Whitespace gap -> record_target_ v = None ->
  fwp Next v (fun b v' => b = false /\ type (current_ v') = TYPE_END /\ text (current_ v') = [] /\
    errors v' = errors v).
Proof.
  intros Hv Hgap Hrec. set (v0 := set_previous (current_ v) v).
  assert (forall k, fwp (Next_loop k) v0 (fun b v' => b = false /\ type (current_ v') = TYPE_END /\
    text (current_ v') = [] /\ errors v' = errors v)) as Hloop; [|apply Hloop].
  intros k. assert (at_ v0 (gap ++ [])) as Hv0 by by rewrite app_nil_r.
  destruct (Next_space_skips gap [] v0 Hv0 Hgap eq_refl) as [sty Hspace].
  destruct (token_done sty gap [] v0 Hv0) as (H1 & H2 & H3 & H4 & _ & H6).
  set (v1 := (EndToken _).2) in *.
  assert (Next_round v0 = (Break, v1)) as Hround.
  { rewrite Next_round_halves. unfold fbind. rewrite Hspace. unfold Next_rest, fbind.
    rewrite (eats_no_comment_at_end v1 H1). unfold fgets.
    destruct H1 as ((_ & _ & -> & _) & _ & -> & _). done. }
  unfold fwp. destruct k; cbn [Next_loop]; rewrite fbind_fgets; (destruct (read_error_ v0); [done|]);
    unfold fbind; rewrite Hround; split_and!; try done; exact H6.
Qed.
End next.
