(* ===== verification/TokensRoundTrip.v ===== *)
(** * Tokens that are written down are read back

    Texts of tokens with white space between them are tokenized to these tokens,
    without an error. *)

From Stdlib Require Import Strings.Byte Strings.String.
From S2P Require Import Prelude ZeroCopyStream Tokenizer TokenizerFlat TokenizerRefine TokenValues TokenShapes TokenizerSpec TokenValuesSpec TokensForward.

#[local] Open Scope Z_scope.
#[local] Open Scope flat_scope.
Import FlatScans FlatReads.

(** A token and the white space before it. *)
Record lexeme := mkLexeme { gap : list byte; kind : TokenType; body : list byte }.

Definition written (ts : list lexeme) (trail : list byte) : list byte :=
  flat_map (fun t => gap t ++ body t) ts ++ trail.

(** Every token but the first has some white space before it. *)
Definition spaced (o : Options) (ts : list lexeme) (trail : list byte) : Prop :=
  Forall (fun t => all Whitespace (gap t) /\ spaced_token o (kind t) (body t)) ts /\
  Forall (fun t => gap t <> []) (tail ts) /\ all Whitespace trail.

Fixpoint positioned (p : Z * Z) (ts : list lexeme) : list Token :=
  match ts with
  | [] => []
  | t :: ts =>
      let q := walk (gap t) p in
      let r := walk (gap t ++ body t) p in
      mkToken (kind t) (body t) q.1 q.2 r.2 :: positioned r ts
  end.

(** ** Positions grow *)

Definition not_before (p q : Z * Z) : Prop := 0 <= q.2 /\ (p.1 < q.1 \/ p.1 = q.1 /\ p.2 <= q.2).
Definition behind (p q : Z * Z) : Prop := 0 <= q.2 /\ (p.1 < q.1 \/ p.1 = q.1 /\ p.2 < q.2).

Lemma step_pos_behind p c : 0 <= p.2 -> behind p (step_pos p c).
Proof.
  intros Hp. unfold behind, step_pos. destruct (eqc _ _); [cbn; lia|]. destruct (eqc _ _); cbn; [|lia].
  pose proof (Z.rem_bound_pos p.2 kTabWidth Hp ltac:(done)). unfold kTabWidth in *. lia.
Qed.

Lemma walk_not_before w p : 0 <= p.2 -> not_before p (walk w p).
Proof.
  revert p. induction w as [|c w IH]; intros p Hp; [unfold not_before; cbn; lia|].
  change (walk (c :: w) p) with (walk w (step_pos p c)). pose proof (step_pos_behind p c Hp) as [H0 H1].
  destruct (IH (step_pos p c) H0) as [H2 H3]. split; [done|]. lia.
Qed.

Lemma walk_behind w p : w <> [] -> 0 <= p.2 -> behind p (walk w p).
Proof.
  intros Hw Hp. destruct w as [|c w]; [done|]. change (walk (c :: w) p) with (walk w (step_pos p c)).
  pose proof (step_pos_behind p c Hp) as [H0 H1]. destruct (walk_not_before w (step_pos p c) H0) as [H2 H3].
  split; [done|]. lia.
Qed.

(** ** The calls *)

Section roundtrip.
Variable o : Options.
Hypothesis no_whitespace : report_whitespace_ o = false.
Hypothesis no_newlines : report_newlines_ o = false.

Notation at_ v l := (ready o (fun _ => True) v l).

(** Between two calls. *)
Record resting (v : V) (l : list byte) : Prop := {
  rs_at : at_ v l;
  rs_record : record_target_ v = None;
  rs_column : 0 <= column_ v;
  rs_token : type (current_ v) = TYPE_IDENTIFIER ->
    end_column (current_ v) = column_ v /\ line (current_ v) <= line_ v;
}.

Lemma written_stops ts trail :
  Forall (fun t => all Whitespace (gap t) /\ spaced_token o (kind t) (body t)) ts ->
  Forall (fun t => gap t <> []) ts -> all Whitespace trail -> stops (written ts trail).
Proof.
  intros Hts Hne Htr. destruct ts as [|t ts].
  - unfold written. cbn. destruct Htr as [|c l Hc _]; [by left|by right].
  - apply Forall_inv in Hts as [Hg _]. apply Forall_inv in Hne. unfold written. cbn.
    destruct Hg as [|c l Hc _]; [done|by right].
Qed.

Lemma resting_next t rest v v' :
  resting v (gap t ++ body t ++ rest) ->
  lexed o (gap t) (kind t) (body t) rest (set_previous (current_ v) v) v' -> resting v' rest.
Proof.
  intros [Hat Hrec Hcol _] [L1 L2 L3 L4 L5 L6]. change (pos (set_previous _ v)) with (pos v) in *.
  pose proof (walk_not_before (gap t) (pos v) Hcol) as [H0 _].
  pose proof (walk_not_before (body t) (walk (gap t) (pos v)) H0) as [H1 H2].
  rewrite <- walk_app, <- L4 in H1, H2.
  constructor; [done|done|exact H1|]. intros _. rewrite L6. cbn [end_column line]. rewrite <- L4.
  split; [done|]. change (line_ v') with (pos v').1. lia.
Qed.

Lemma flat_calls_written ts trail v :
  resting v (written ts trail) -> spaced o ts trail ->
  (type (current_ v) = TYPE_IDENTIFIER -> Forall (fun t => gap t <> []) ts) ->
  fwp (flat_calls (CallNexts (S (length ts)))) v (fun os v' =>
    errors v' = errors v /\ map result os = replicate (length ts) true ++ [false] /\
    exists e, map current os = positioned (pos v) ts ++ [e] /\ type e = TYPE_END /\ text e = []).
Proof.
  revert v. induction ts as [|t ts IH]; intros v Hv (Hts & Hne & Htr) Hid;
    cbn [CallNexts replicate flat_calls length]; apply fwp_fbind, fwp_fbind, fwp_fbind.
  - eapply fwp_mono; [apply (Next_forward_end o no_whitespace no_newlines trail); [apply Hv|done|apply Hv]|].
    intros b v' (-> & Hty & Htx & He). apply fwp_fret, fwp_fbind, fwp_fgets, fwp_fret, fwp_fbind, fwp_fret, fwp_fret.
    split; [done|]. split; [done|]. by exists (current_ v').
  - apply Forall_cons in Hts as [[Hg Hsp] Hts]. cbn [tail] in Hne.
    assert (written (t :: ts) trail = gap t ++ body t ++ written ts trail) as Hw
      by (unfold written; cbn [flat_map]; by rewrite <- !app_assoc).
    rewrite Hw in Hv. eapply fwp_mono.
    + apply (Next_forward o no_whitespace no_newlines (gap t) (kind t) (body t) (written ts trail));
        [apply Hv|done|done|by apply written_stops|apply Hv|].
      intros Hk. destruct (rs_token _ _ Hv Hk) as [E1 E2].
      specialize (Hid Hk). apply Forall_inv in Hid.
      pose proof (walk_behind (gap t) (pos v) Hid (rs_column _ _ Hv)) as [_ Hb]. unfold pos in Hb. cbn [fst snd] in Hb.
      intros E. unfold pos in E. rewrite E in Hb. cbn [fst snd] in Hb. lia.
    + intros b v' (-> & Hl). pose proof (resting_next t _ v v' Hv Hl) as Hv'.
      destruct Hl as [L1 L2 L3 L4 L5 L6]. change (pos (set_previous _ v)) with (pos v) in *.
      apply fwp_fret, fwp_fbind, fwp_fgets, fwp_fret, fwp_fbind. eapply fwp_mono.
      { apply IH; [done| |done]. split; [done|]. split; [by destruct Hne|done]. }
      intros os v2 (He & Hr & e & Hc & Hty & Htx). apply fwp_fret.
      split; [by rewrite He, L5|]. split; [cbn; by rewrite Hr|]. exists e. split; [|done].
      cbn [map positioned app]. by rewrite Hc, <- L6, L4.
Qed.
End roundtrip.

(** C13: Tokens survive being written and read: over any stream, a text that is
    made of the texts of tokens (identifiers, integers, floats, strings and symbols of
    the shapes of [token_text]) with white space between them is tokenized by Next to
    exactly these tokens, each with its type, its text, and the line and column where
    it was written, then the end, and no error is recorded. *)
Theorem tokens_roundtrip {S : Type} `{ZeroCopyInputStreamOk S} (opts : Options) (ts : list lexeme)
    (trail : list byte) (i : S) :
  report_whitespace_ opts = false -> report_newlines_ opts = false -> spaced opts ts trail ->
  stream_ok i -> content i = written ts trail -> 8 * zlen (content i) <= INT_MAX ->
  exists os i' e, session opts (CallNexts (Datatypes.S (length ts))) i = Some (os, [], i') /\
    map result os = replicate (length ts) true ++ [false] /\
    map current os = positioned (0, 0) ts ++ [e] /\ type e = TYPE_END /\ text e = [].
Proof.
  intros Hw Hn Hts Hi Hc Hl.
  destruct (session_computes opts (CallNexts (Datatypes.S (length ts))) i Hi Hl) as (i' & -> & _).
  assert (resting opts (start (content i) opts) (written ts trail)) as Hs
    by (constructor; done).
  destruct (flat_calls_written opts Hw Hn ts trail _ Hs Hts) as (He & Hr & e & Hk & Hty & Htx); [done|].
  do 3 eexists. rewrite He. done.
Qed.

Definition sample_lexemes : list lexeme := [
  mkLexeme [] TYPE_IDENTIFIER ["x"%byte];
  mkLexeme [" "%byte] TYPE_INTEGER (list_byte_of_string "0x1F");
  mkLexeme [NL] TYPE_STRING (list_byte_of_string "'\101'");
  mkLexeme [" "%byte] TYPE_FLOAT (list_byte_of_string ".5e+1");
  mkLexeme [TAB; " "%byte] TYPE_SYMBOL ["/"%byte]].

Lemma sample_lexemes_spaced : spaced default_options sample_lexemes [" "%byte].
Proof.
  assert (forall c l, string_body false QUOTE l -> c = QUOTE -> string_text false (c :: l ++ [c])) as Hstr
    by (intros c l Hl ->; exists QUOTE, l; auto).
  split; [|by repeat constructor]. unfold sample_lexemes, spaced_token.
  repeat (apply Forall_cons_2; [split; [by repeat constructor|split; [|by intros ?]]|]); [..|constructor]; cbn.
  - by exists "x"%byte, [].
  - left. exists "x"%byte, (list_byte_of_string "1F"). split; [by left|]. by repeat constructor.
  - apply (Hstr QUOTE (list_byte_of_string "\101")); [|done]. exists [[BACKSLASH; "1"]; ["0"]; ["1"]]%byte.
    split; [done|]. by repeat constructor.
  - exists [], (list_byte_of_string ".5"), (list_byte_of_string "e+1"), [].
    split; [done|]. split; [constructor|]. split.
    + right. exists ["5"%byte]. split; [done|]. split; [by repeat constructor|by right].
    + split; [right; exists "e"%byte, ["+"%byte], ["1"%byte]; split_and!; auto; by repeat constructor|].
      split; [by left|]. split; [by right|]. split; [by left|done].
  - exists "/"%byte. by vm_compute.
Qed.

Definition sample_lines : ArrayInputStream.t :=
  ArrayInputStream.make (written sample_lexemes [" "%byte]) (zlen (written sample_lexemes [" "%byte])) 2.

Lemma sample_lines_ok : stream_ok sample_lines.
Proof. apply ArrayInputStream.array_make_wf. Qed.

Lemma tokens_roundtrip_witness :
  exists os i e,
    session default_options (CallNexts 6) sample_lines = Some (os, [], i) /\
    map current os = positioned (0, 0) sample_lexemes ++ [e] /\
    positioned (0, 0) sample_lexemes =
      [mkToken TYPE_IDENTIFIER ["x"%byte] 0 0 1; mkToken TYPE_INTEGER (list_byte_of_string "0x1F") 0 2 6;
       mkToken TYPE_STRING (list_byte_of_string "'\101'") 1 0 6;
       mkToken TYPE_FLOAT (list_byte_of_string ".5e+1") 1 7 12; mkToken TYPE_SYMBOL ["/"%byte] 1 17 18].
Proof.
  destruct (tokens_roundtrip default_options sample_lexemes [" "%byte] sample_lines eq_refl eq_refl
    sample_lexemes_spaced sample_lines_ok) as (os & i & e & E & _ & Hk & _);
    [vm_compute; reflexivity|vm_compute; discriminate|].
  exists os, i, e. split; [exact E|]. split; [exact Hk|vm_compute; reflexivity].
Defined.

(** An escape above the last code point is a token without an error, and its value
    is what [absl] writes for the number. *)
Example large_code_point_accepted :
  option_map (fun r => (map (fun o => (type (current o), text (current o))) r.1.1, r.1.2))
    (session default_options [CallNext]
       (ArrayInputStream.make (list_byte_of_string "'\U001fffff'") 12 12)) =
    Some ([(TYPE_STRING, list_byte_of_string "'\U001fffff'")], []) /\
  (forall f, ParseString f (list_byte_of_string "'\U001fffff'") = Some (f 0x1fffff)).
Proof. split; [vm_compute; reflexivity|]. intros f. cbv. by rewrite ?app_nil_r. Qed.
