(* ===== verification/PointerDecoders.v ===== *)
(** * Decoders of the pointer-based parser

    The varint, tag and size decoders of [parse_context.h] and
    [parse_context.cc]. A [const char*] that is read is the list of the readable
    bytes from it on, and a read past them gives [None]; a pointer that is
    returned is an offset from the argument, and the null pointer is the inner
    [None]. The decoders for little-endian ARM are the code under [__aarch64__]. *)

From S2P Require Import Prelude Varint.

(** A returned pointer and the value that goes with it. *)
Definition parsed : Type := option nat * Z.

(** [n] rounds, from the byte [p[i]] on, of the loop the decoders share, in an
    unsigned type of [w] bits: returned from, or left with the sum so far. *)
Fixpoint slow_loop (w : Z) (n i : nat) (p : list byte) (res : Z) : option (nat * Z + Z) :=
  match n with
  | O => Some (inr res)
  | S n =>
      byte ← at_ p i;
      let res := (res + Z.shiftl ((byte - 1) mod 2 ^ w) (7 * Z.of_nat i)) mod 2 ^ w in
      if byte <? 128 then Some (inl (S i, res)) else slow_loop w n (S i) p res
  end.

(** The bytes after the fifth, of which only the number matters. *)
Fixpoint discard_loop (n i : nat) (p : list byte) (res : Z) : option parsed :=
  match n with
  | O => Some (None, 0)
  | S n =>
      byte ← at_ p i;
      if byte <? 128 then Some (Some (S i), res) else discard_loop n (S i) p res
  end.

Definition VarintParseSlow32 (p : list byte) (res : Z) : option parsed :=
  r ← slow_loop 32 4 1 p res;
  match r with
  | inl (q, res) => Some (Some q, res)
  | inr res => discard_loop 5 5 p res
  end.

Definition VarintParseSlow64 (p : list byte) (res32 : Z) : option parsed :=
  r ← slow_loop 64 9 1 p res32;
  match r with
  | inl (q, res) => Some (Some q, res)
  | inr _ => Some (None, 0)
  end.

(** [VarintParse<uint32_t>] and [VarintParse<uint64_t>], the portable code. *)
Definition VarintParse (VarintParseSlow : list byte -> Z -> option parsed) (p : list byte)
    : option parsed :=
  res ← at_ p 0;
  if Z.land res 0x80 =? 0 then Some (Some 1%nat, res) else VarintParseSlow p res.

Definition VarintParse32 : list byte -> option parsed := VarintParse VarintParseSlow32.
Definition VarintParse64 : list byte -> option parsed := VarintParse VarintParseSlow64.

(** ** Tags *)

Definition ReadTagFallback (p : list byte) (res : Z) : option parsed :=
  r ← slow_loop 32 3 2 p res;
  match r with
  | inl (q, res) => Some (Some q, res)
  | inr _ => Some (None, 0)
  end.

Definition ReadTag (p : list byte) : option parsed :=
  res ← at_ p 0;
  if res <? 128 then Some (Some 1%nat, res) else
  second ← at_ p 1;
  let res := u32 (res + u32 (Z.shiftl (u32 (second - 1)) 7)) in
  if second <? 128 then Some (Some 2%nat, res) else ReadTagFallback p res.

(** [RotateLeft<uint64_t>]; the shift counts are taken modulo 64. *)
Definition RotateLeft (x s : Z) : Z :=
  Z.lor (u64 (Z.shiftl x (Z.land s 63))) (u64 (Z.shiftr x (Z.land (- s) 63))).

Definition RotRight7AndReplaceLowByte (res byte : Z) : Z :=
  let res := RotateLeft res (-7) in
  let res := Z.land res (u64 (Z.lnot 0xFF)) in
  Z.lor res (Z.land 0xFF byte).

Definition ReadTagInlined (ptr : list byte) : option parsed :=
  b0 ← at_ ptr 0;
  let res := Z.land 0xFF b0 in
  if 128 <=? res then
    b1 ← at_ ptr 1;
    let res := RotRight7AndReplaceLowByte res b1 in
    if negb (Z.land res 0x80 =? 0) then
      b2 ← at_ ptr 2;
      let res := RotRight7AndReplaceLowByte res b2 in
      if negb (Z.land res 0x80 =? 0) then
        b3 ← at_ ptr 3;
        let res := RotRight7AndReplaceLowByte res b3 in
        if negb (Z.land res 0x80 =? 0) then
          b4 ← at_ ptr 4;
          let res := RotRight7AndReplaceLowByte res b4 in
          if negb (Z.land res 0x80 =? 0) then Some (None, 0)
          else Some (Some 5%nat, u32 (RotateLeft res 28))
        else Some (Some 4%nat, u32 (RotateLeft res 21))
      else Some (Some 3%nat, u32 (RotateLeft res 14))
    else Some (Some 2%nat, u32 (RotateLeft res 7))
  else Some (Some 1%nat, u32 res).

(** ** Sizes *)

(** [EpsCopyInputStream::kSlopBytes] *)
Definition kSlopBytes : Z := 16.

Definition ReadSizeFallback (p : list byte) (res : Z) : option parsed :=
  r ← slow_loop 32 3 1 p res;
  match r with
  | inl (q, res) => Some (Some q, res)
  | inr res =>
      byte ← at_ p 4;
      if 8 <=? byte then Some (None, 0) else
      let res := u32 (res + u32 (Z.shiftl (u32 (byte - 1)) 28)) in
      if INT_MAX - kSlopBytes <? res then Some (None, 0) else Some (Some 5%nat, res)
  end.

Definition ReadSize (pp : list byte) : option parsed :=
  res ← at_ pp 0;
  if res <? 128 then Some (Some 1%nat, res) else ReadSizeFallback pp res.

(** ** Varints two bytes at a time *)

(** The two-byte value and what is added to [*ptr]. *)
Definition DecodeTwoBytes (ptr : list byte) : option (Z * nat) :=
  b0 ← at_ ptr 0;
  b1 ← at_ ptr 1;
  let value := b0 + 256 * b1 in
  let x := u32 ((u8 value + 2 ^ 7) mod 2 ^ 8 - 2 ^ 7) in
  let value := Z.land value x in
  let value := u32 (value + x) in
  Some (value, if value <? x then 2%nat else 1%nat).

(** [static_cast<std::int16_t>(tmp) >= 0] *)
Definition last_two_bytes (tmp : Z) : bool := 0 <=? (tmp + 2 ^ 15) mod 2 ^ 16 - 2 ^ 15.

Fixpoint ParseBigVarint_loop (n i : nat) (p : list byte) (res : Z) : option parsed :=
  match n with
  | O => Some (None, 0)
  | S n =>
      '(tmp, k) ← DecodeTwoBytes (drop (2 * i) p);
      let res := u64 (res + u64 (Z.shiftl (u64 (tmp - 2)) (14 * Z.of_nat i - 1))) in
      if last_two_bytes tmp then Some (Some (2 * i + k)%nat, res)
      else ParseBigVarint_loop n (S i) p res
  end.

Definition ParseBigVarint (p : list byte) : option parsed :=
  '(tmp, k) ← DecodeTwoBytes p;
  let res := Z.shiftr tmp 1 in
  if last_two_bytes tmp then Some (Some k, res) else ParseBigVarint_loop 4 1 p res.

(** ** Varints on ARM *)

(** A load of eight bytes with [memcpy]. *)
Definition load64 (p : list byte) : option Z :=
  if 8 <=? zlen p then Some (le_value (ztake 8 p)) else None.

Definition Ubfx7 (data start : Z) : Z := Z.land (Z.shiftr data start) 0x7f.

Definition ExtractAndMergeTwoChunks (data first_byte : Z) : Z :=
  let first := Ubfx7 data (first_byte * 8) in
  let second := Ubfx7 data ((first_byte + 1) * 8) in
  Z.lor first (u64 (Z.shiftl second 7)).

(** [absl::countr_zero] of a 64-bit integer. *)
Definition countr_zero (x : Z) : Z := if x =? 0 then 64 else Z.log2 (Z.land x (- x)).

Record SlowPathEncodedInfo := {
  info_p : nat;
  last8 : Z;
  valid_bits : Z;
  valid_chunk_bits : Z;
  masked_cont_bits : Z;
}.

Definition ComputeLengthAndUpdateP (p : list byte) : option SlowPathEncodedInfo :=
  last8 ← load64 (drop 2 p);
  let mask := 0x8080808080808080 in
  let masked_cont_bits := Z.land mask (u64 (Z.lnot last8)) in
  let valid_bits := countr_zero masked_cont_bits in
  let set_continuation_bits := Z.shiftr valid_bits 3 in
  Some {| info_p := Z.to_nat (set_continuation_bits + 3);
          last8 := last8;
          valid_bits := valid_bits;
          valid_chunk_bits := valid_bits - set_continuation_bits;
          masked_cont_bits := masked_cont_bits |}.

Definition kResultMaskUnshifted : Z := 0xffffffffffffc000.

Definition VarintParseSlowArm64 (p : list byte) (first8 : Z) : option parsed :=
  info ← ComputeLengthAndUpdateP p;
  let merged_01 := ExtractAndMergeTwoChunks first8 0 in
  let merged_23 := ExtractAndMergeTwoChunks first8 2 in
  let merged_45 := ExtractAndMergeTwoChunks first8 4 in
  let result := Z.lor (Z.lor merged_01 (u64 (Z.shiftl merged_23 (2 * 7))))
                  (u64 (Z.shiftl merged_45 (4 * 7))) in
  let result_mask := u64 (Z.shiftl kResultMaskUnshifted (valid_chunk_bits info)) in
  if masked_cont_bits info =? 0 then Some (None, 0) else
  let result :=
    if negb (Z.land (valid_bits info) 0x20 =? 0) then
      let merged_67 := ExtractAndMergeTwoChunks first8 6 in
      let merged_89 := ExtractAndMergeTwoChunks (last8 info) 6 in
      Z.lor (Z.lor result (u64 (Z.shiftl merged_67 (6 * 7))))
        (u64 (Z.shiftl merged_89 (8 * 7)))
    else result in
  Some (Some (info_p info), Z.land result (u64 (Z.lnot result_mask))).

Definition VarintParseSlowArm32 (p : list byte) (first8 : Z) : option parsed :=
  info ← ComputeLengthAndUpdateP p;
  let merged_12 := ExtractAndMergeTwoChunks first8 1 in
  let merged_34 := ExtractAndMergeTwoChunks first8 3 in
  let result := Ubfx7 first8 0 in
  let result := Z.lor result (u64 (Z.shiftl merged_12 (1 * 7))) in
  let result := Z.lor result (u64 (Z.shiftl merged_34 (3 * 7))) in
  let result_mask := u64 (Z.shiftl kResultMaskUnshifted (valid_chunk_bits info)) in
  let result := Z.land result (u64 (Z.lnot result_mask)) in
  if masked_cont_bits info =? 0 then Some (None, 0)
  else Some (Some (info_p info), u32 result).

(** [VarintParse] under [__aarch64__]; the value of the first two paths fits in
    either type. *)
Definition VarintParseArm (VarintParseSlowArm : list byte -> Z -> option parsed)
    (p : list byte) : option parsed :=
  first8 ← load64 p;
  if Z.land first8 0x80 =? 0 then Some (Some 1%nat, u8 first8) else
  if Z.land first8 0x8000 =? 0 then
    let chunk1 := Ubfx7 first8 0 in
    let chunk2 := Ubfx7 first8 8 in
    Some (Some 2%nat, Z.lor chunk1 (u64 (Z.shiftl chunk2 7)))
  else VarintParseSlowArm p first8.

(** ** The reference *)

(** What a decoder of at most [n] bytes returns: the bytes taken and the value,
    made by [f] of the number that was written. *)
Definition decoded (n : nat) (f : Z -> Z) (l : list byte) : parsed :=
  match vdecode n l with
  | Some (v, r) => (Some (length l - length r)%nat, f v)
  | None => (None, 0)
  end.

(** [l] from its byte [i] on, after [i] bytes that all continue and add [v]. *)
Definition continued (n i : nat) (f : Z -> Z) (v : Z) (l : list byte) : parsed :=
  match vdecode n (drop i l) with
  | Some (x, r) => (Some (length l - length r)%nat, f (v + 2 ^ (7 * Z.of_nat i) * x))
  | None => (None, 0)
  end.

Lemma at_lookup (l : list byte) i b : l !! i = Some b -> at_ l i = Some (b2z b).
Proof. unfold at_. by intros ->. Qed.

Lemma continued_step n i f v l b :
  l !! i = Some b ->
  continued (S n) i f v l =
    if b2z b <? 128 then (Some (S i), f (v + 2 ^ (7 * Z.of_nat i) * b2z b))
    else continued n (S i) f (v + 2 ^ (7 * Z.of_nat i) * (b2z b - 128)) l.
Proof.
  intros Hb. unfold continued. rewrite (drop_S l b i Hb). simpl.
  pose proof (lookup_lt_Some _ _ _ Hb) as Hi.
  destruct (Z.ltb_spec (b2z b) 128).
  - rewrite length_drop. do 2 f_equal. lia.
  - destruct (vdecode n (drop (S i) l)) as [[x r]|]; [|done]. do 2 f_equal.
    replace (7 * Z.of_nat (S i)) with (7 * Z.of_nat i + 7) by lia.
    rewrite Z.pow_add_r by lia. change (2 ^ 7) with 128. ring.
Qed.

Lemma decoded_continued n f l : decoded n f l = continued n 0 f 0 l.
Proof.
  unfold decoded, continued. rewrite drop_0. destruct (vdecode n l) as [[v r]|]; [|done].
  do 2 f_equal. change (2 ^ _) with 1. lia.
Qed.

Lemma continued_ext n i f g v l : (forall x, f x = g x) -> continued n i f v l = continued n i g v l.
Proof. intros E. unfold continued. destruct (vdecode _ _) as [[x r]|]; [by rewrite E|done]. Qed.

(** The sum of the shared loop: the continuation bit of a byte is in the sum
    until the next byte, less one, is added. *)
Lemma slow_loop_step w i v b :
  0 < w ->
  ((v + 2 ^ (7 * Z.of_nat i)) mod 2 ^ w +
     Z.shiftl ((b - 1) mod 2 ^ w) (7 * Z.of_nat i)) mod 2 ^ w
  = (v + 2 ^ (7 * Z.of_nat i) * b) mod 2 ^ w.
Proof.
  intros Hw. rewrite Z.shiftl_mul_pow2 by lia.
  rewrite Z.add_mod_idemp_l by lia. rewrite <- Z.add_mod_idemp_r by lia.
  rewrite Z.mul_mod_idemp_l by lia. rewrite Z.add_mod_idemp_r by lia. f_equal. ring.
Qed.

Lemma digit_bound i v b :
  0 <= v < 2 ^ (7 * Z.of_nat i) -> 128 <= b2z b ->
  0 <= v + 2 ^ (7 * Z.of_nat i) * (b2z b - 128) < 2 ^ (7 * Z.of_nat (S i)).
Proof.
  intros Hv Hb. pose proof (b2z_range b).
  replace (7 * Z.of_nat (S i)) with (7 * Z.of_nat i + 7) by lia.
  rewrite Z.pow_add_r by lia. change (2 ^ 7) with 128. nia.
Qed.

(** What is left of a decoder when the loop ends or falls through. *)
Definition after_loop (w : Z) (n m i : nat) (v : Z) (l : list byte) (r : nat * Z + Z) : Prop :=
  match r with
  | inl (q, res) =>
      (q <= i + n)%nat /\
      exists v', res = v' mod 2 ^ w /\ forall f, continued (n + m) i f v l = (Some q, f v')
  | inr res =>
      exists v', res = (v' + 2 ^ (7 * Z.of_nat (i + n))) mod 2 ^ w /\
      (0 <= v < 2 ^ (7 * Z.of_nat i) -> 0 <= v' < 2 ^ (7 * Z.of_nat (i + n))) /\
      forall f, continued (n + m) i f v l = continued m (i + n) f v' l
  end.

Lemma slow_loop_continued w n m i v l :
  0 < w -> (i + n <= length l)%nat ->
  exists r, slow_loop w n i l ((v + 2 ^ (7 * Z.of_nat i)) mod 2 ^ w) = Some r /\
  after_loop w n m i v l r.
Proof.
  intros Hw. revert i v. induction n as [|n IH]; intros i v Hl.
  - eexists; split; [done|]. exists v. by rewrite Nat.add_0_r.
  - destruct (lookup_lt_is_Some_2 l i ltac:(lia)) as [b Hb]. cbn [slow_loop].
    rewrite (at_lookup l i b Hb). cbn [mbind option_bind]. rewrite slow_loop_step by done.
    pose proof (fun f => continued_step (n + m) i f v l b Hb) as E.
    destruct (Z.ltb_spec (b2z b) 128).
    + eexists; split; [done|]. split; [lia|]. eexists; split; [done|]. exact E.
    + destruct (IH (S i) (v + 2 ^ (7 * Z.of_nat i) * (b2z b - 128)) ltac:(lia)) as (r & Er & Hr).
      exists r. split.
      * rewrite <- Er. f_equal. f_equal.
        replace (7 * Z.of_nat (S i)) with (7 * Z.of_nat i + 7) by lia.
        rewrite Z.pow_add_r by lia. change (2 ^ 7) with 128. ring.
      * unfold after_loop in *. cbn [Nat.add].
        destruct r as [[q res]|res].
        -- destruct Hr as (? & v' & ? & Hr). split; [lia|]. exists v'. split; [done|].
           intros f. by rewrite E.
        -- destruct Hr as (v' & ? & Hv & Hr). exists v'. rewrite <- plus_n_Sm.
           split; [done|]. split; [|intros f; by rewrite E].
           intros Hv0. apply Hv. by apply digit_bound.
Qed.

Lemma first_byte w n b l :
  2 ^ 8 <= 2 ^ w -> 128 <= b2z b ->
  exists v, 0 <= v < 2 ^ (7 * Z.of_nat 1) /\
  b2z b = (v + 2 ^ (7 * Z.of_nat 1)) mod 2 ^ w /\
  forall f, decoded (S n) f (b :: l) = continued n 1 f v (b :: l).
Proof.
  intros Hw Hb. exists (b2z b - 128). pose proof (b2z_range b).
  change (2 ^ (7 * Z.of_nat 1)) with 128. split_and!; [lia|lia|..].
  - rewrite Z.mod_small; zify_pow; lia.
  - intros f. rewrite decoded_continued, (continued_step _ _ _ _ _ b) by done.
    destruct (Z.ltb_spec (b2z b) 128); [lia|]. f_equal. change (2 ^ _) with 1. lia.
Qed.

Lemma decoded_one n f b l :
  b2z b < 128 -> decoded (S n) f (b :: l) = (Some 1%nat, f (b2z b)).
Proof.
  intros Hb. rewrite decoded_continued, (continued_step _ _ _ _ _ b) by done.
  destruct (Z.ltb_spec (b2z b) 128); [|lia]. do 2 f_equal. change (2 ^ _) with 1. lia.
Qed.

Lemma VarintParse64_decoded l :
  (10 <= length l)%nat -> VarintParse64 l = Some (decoded 10 u64 l).
Proof.
  intros Hl. destruct l as [|b l]; [simpl in Hl; lia|]. unfold VarintParse64, VarintParse. simpl.
  rewrite land_80. pose proof (b2z_range b). destruct (Z.ltb_spec (b2z b) 128).
  - rewrite decoded_one by done. do 2 f_equal. rewrite u64_id; [done|ilia].
  - destruct (first_byte 64 9 b l) as (v & Hv & E & Ed); [lia..|]. unfold VarintParseSlow64.
    rewrite Ed, E.
    destruct (slow_loop_continued 64 9 0 1 v (b :: l)) as (r & -> & Hr); [lia|lia|].
    cbn [mbind option_bind]. destruct r as [[q res]|res]; cbn [after_loop] in Hr.
    + destruct Hr as (_ & v' & -> & Hr). by rewrite Hr.
    + destruct Hr as (v' & _ & _ & Hr). by rewrite Hr.
Qed.

Lemma discard_loop_continued n i v l :
  (5 <= i)%nat -> (i + n <= length l)%nat ->
  discard_loop n i l (u32 v) = Some (continued n i u32 v l).
Proof.
  revert i v. induction n as [|n IH]; intros i v Hi Hl; [by unfold continued|].
  destruct (lookup_lt_is_Some_2 l i ltac:(lia)) as [b Hb]. cbn [discard_loop].
  rewrite (at_lookup l i b Hb). cbn [mbind option_bind]. rewrite (continued_step _ _ _ _ _ b) by done.
  assert (forall x, u32 (v + 2 ^ (7 * Z.of_nat i) * x) = u32 v) as E.
  { intros x. replace (7 * Z.of_nat i) with (32 + (7 * Z.of_nat i - 32)) by lia.
    rewrite Z.pow_add_r by lia. unfold u32. rewrite <- Z.mul_assoc, (Z.mul_comm (2 ^ 32)).
    apply Z.mod_add. lia. }
  destruct (b2z b <? 128); [by rewrite E|]. rewrite <- IH by lia. by rewrite E.
Qed.

Lemma VarintParse32_decoded l :
  (10 <= length l)%nat -> VarintParse32 l = Some (decoded 10 u32 l).
Proof.
  intros Hl. destruct l as [|b l]; [simpl in Hl; lia|]. unfold VarintParse32, VarintParse. simpl.
  rewrite land_80. pose proof (b2z_range b). destruct (Z.ltb_spec (b2z b) 128).
  - rewrite decoded_one by done. do 2 f_equal. rewrite u32_id; [done|ilia].
  - destruct (first_byte 32 9 b l) as (v & Hv & E & Ed); [lia..|]. unfold VarintParseSlow32.
    rewrite Ed, E.
    destruct (slow_loop_continued 32 4 5 1 v (b :: l)) as (r & -> & Hr); [lia|simpl in *; lia|].
    cbn [mbind option_bind]. destruct r as [[q res]|res]; cbn [after_loop] in Hr.
    + destruct Hr as (_ & v' & -> & Hr). by rewrite Hr.
    + destruct Hr as (v' & -> & Hv' & Hr). rewrite Hr.
      rewrite <- (discard_loop_continued 5 5) by (done || lia).
      f_equal. unfold u32. change (2 ^ (7 * Z.of_nat (1 + 4))) with (8 * 2 ^ 32).
      by rewrite Z.mod_add by lia.
Qed.

Lemma ReadTag_decoded l :
  (5 <= length l)%nat -> ReadTag l = Some (decoded 5 u32 l).
Proof.
  intros Hl. destruct l as [|b [|c l]]; simpl in Hl; [lia..|]. unfold ReadTag.
  change (at_ (b :: c :: l) 0) with (Some (b2z b)). cbn [mbind option_bind].
  pose proof (b2z_range b). destruct (Z.ltb_spec (b2z b) 128).
  - rewrite decoded_one by done. do 2 f_equal. rewrite u32_id; [done|ilia].
  - destruct (first_byte 32 4 b (c :: l)) as (v & Hv & E & Ed); [lia..|]. rewrite Ed.
    change (at_ _ 1) with (Some (b2z c)). cbn [mbind option_bind].
    rewrite (continued_step 3 1 _ _ _ c) by done.
    assert (u32 (b2z b + u32 (Z.shiftl (u32 (b2z c - 1)) 7))
            = (v + 2 ^ (7 * Z.of_nat 1) * b2z c) mod 2 ^ 32) as ->.
    { rewrite u32_add_r, E. by rewrite <- (slow_loop_step 32 1 v (b2z c)) by lia. }
    destruct (b2z c <? 128); [done|]. unfold ReadTagFallback.
    destruct (slow_loop_continued 32 3 0 2 (v + 2 ^ (7 * Z.of_nat 1) * (b2z c - 128)) (b :: c :: l))
      as (r & Er & Hr); [lia|simpl; lia|].
    replace (v + 2 ^ (7 * Z.of_nat 1) * b2z c)
      with (v + 2 ^ (7 * Z.of_nat 1) * (b2z c - 128) + 2 ^ (7 * Z.of_nat 2)) by lia.
    rewrite Er. cbn [mbind option_bind]. destruct r as [[q res]|res]; cbn [after_loop] in Hr.
    + destruct Hr as (_ & v' & -> & Hr). by rewrite Hr.
    + destruct Hr as (v' & _ & _ & Hr). by rewrite Hr.
Qed.

(** A size is at most [INT_MAX - kSlopBytes]. *)
Definition decoded_size (l : list byte) : parsed :=
  match vdecode 5 l with
  | Some (v, r) =>
      if v <=? INT_MAX - kSlopBytes then (Some (length l - length r)%nat, v) else (None, 0)
  | None => (None, 0)
  end.

Definition size_limit (p : parsed) : parsed :=
  match p with
  | (Some q, v) => if v <=? INT_MAX - kSlopBytes then (Some q, v) else (None, 0)
  | (None, _) => (None, 0)
  end.

Lemma decoded_size_limit l : decoded_size l = size_limit (decoded 5 id l).
Proof. unfold decoded_size, decoded. by destruct (vdecode 5 l) as [[v r]|]. Qed.

Lemma decoded_short q v l :
  decoded 5 id l = (Some q, v) -> (q <= 4)%nat -> 0 <= v < 2 ^ 28.
Proof.
  unfold decoded. destruct (vdecode 5 l) as [[x r]|] eqn:E; [|done]. intros [= <- <-] Hq.
  pose proof (vdecode_bound _ _ _ _ E). pose proof (vdecode_suffix _ _ _ _ E) as (c & -> & Hc).
  rewrite length_app in Hq. unfold id. split; [lia|].
  assert (2 ^ (7 * (zlen (c ++ r) - zlen r)) <= 2 ^ 28); [|lia].
  apply Z.pow_le_mono_r; [lia|]. unfold zlen. rewrite length_app. lia.
Qed.

Lemma ReadSize_decoded l :
  (5 <= length l)%nat -> ReadSize l = Some (decoded_size l).
Proof.
  intros Hl. rewrite decoded_size_limit. destruct l as [|b l]; [simpl in Hl; lia|].
  unfold ReadSize. change (at_ (b :: l) 0) with (Some (b2z b)). cbn [mbind option_bind].
  pose proof (b2z_range b). destruct (Z.ltb_spec (b2z b) 128).
  - rewrite decoded_one by done. simpl. unfold id. destruct (Z.leb_spec (b2z b) (INT_MAX - kSlopBytes)); [done|].
    unfold kSlopBytes in *. ilia.
  - destruct (first_byte 32 4 b l) as (v & Hv & E & Ed); [lia..|]. specialize (Ed id). rewrite E.
    unfold ReadSizeFallback.
    destruct (slow_loop_continued 32 3 1 1 v (b :: l)) as (r & -> & Hr); [lia|simpl in *; lia|].
    cbn [mbind option_bind]. destruct r as [[q res]|res]; cbn [after_loop] in Hr;
      change (3 + 1)%nat with 4%nat in Hr.
    + destruct Hr as (Hq & v' & -> & Hr). rewrite Ed, (Hr id). rewrite (Hr id) in Ed.
      apply decoded_short in Ed; [|lia]. unfold id in *. simpl.
      rewrite Z.mod_small by ilia. destruct (Z.leb_spec v' (INT_MAX - kSlopBytes)); [done|].
      unfold kSlopBytes in *. ilia.
    + destruct Hr as (v' & -> & Hv' & Hr). specialize (Hv' Hv). rewrite Ed.
      rewrite Hr. change (1 + 3)%nat with 4%nat in *.
      destruct (lookup_lt_is_Some_2 (b :: l) 4 ltac:(lia)) as [c Hc].
      rewrite (at_lookup _ _ _ Hc). cbn [mbind option_bind].
      rewrite (continued_step 0 4 _ _ _ c) by done. pose proof (b2z_range c).
      replace (u32 _) with (u32 (v' + 2 ^ 28 * b2z c)); cycle 1.
      { symmetry. rewrite u32_add_r. apply (slow_loop_step 32 4 v' (b2z c)). lia. }
      change (2 ^ (7 * Z.of_nat 4)) with 268435456 in *. change (2 ^ 28) with 268435456.
      unfold id, continued.
      cbn [drop vdecode]. unfold size_limit, kSlopBytes.
      destruct (Z.leb_spec 8 (b2z c)), (Z.ltb_spec (b2z c) 128); try lia; try done.
      * destruct (Z.leb_spec (v' + 268435456 * b2z c) (INT_MAX - 16)); [ilia|done].
      * rewrite u32_id by ilia.
        destruct (Z.leb_spec (v' + 268435456 * b2z c) (INT_MAX - 16)),
          (Z.ltb_spec (INT_MAX - 16) (v' + 268435456 * b2z c)); done || lia.
Qed.

(** ** The tag decoder that rotates *)

Lemma lor_disjoint a b k : 0 <= k -> 0 <= b < 2 ^ k -> Z.lor (a * 2 ^ k) b = a * 2 ^ k + b.
Proof.
  intros Hk Hb. symmetry. rewrite <- Z.lxor_lor, <- Z.add_nocarry_lxor; [done|..];
    (apply Z.bits_inj'; intros i Hi; rewrite Z.land_spec, Z.bits_0;
     destruct (decide (i < k)); [by rewrite Z.mul_pow2_bits_low|];
     destruct (decide (b = 0)) as [->|]; [by rewrite Z.bits_0, andb_false_r|];
     rewrite (Z.bits_above_log2 b i), andb_false_r; [done|lia|];
     apply Z.lt_le_trans with k; [apply Z.log2_lt_pow2; lia|lia]).
Qed.

Lemma low_byte_cleared y : Z.land y (u64 (Z.lnot 0xFF)) = (y mod 2 ^ 64) / 256 * 256.
Proof.
  change (u64 (Z.lnot 0xFF)) with (Z.land (Z.ones 64) (Z.lnot (Z.ones 8))).
  rewrite Z.land_assoc, Z.land_ones by lia. rewrite <- Z.ldiff_land.
  rewrite Z.ldiff_ones_r by lia. rewrite Z.shiftl_mul_pow2, Z.shiftr_div_pow2 by lia. done.
Qed.

(** The register after [k] bytes: the last one at the bottom, the number they
    have made so far at the top. *)
Definition rotated (k : Z) (b v : Z) : Z := b + 2 ^ (64 - 7 * k) * v.

Section rotated.
Context (k b v : Z) (Hk : 0 <= k <= 4) (Hb : 0 <= b < 256) (Hv : 0 <= v < 2 ^ (7 * k)).

Lemma rotated_range : 0 <= rotated k b v < 2 ^ 64.
Proof using All.
  unfold rotated. assert (2 ^ 64 = 2 ^ (64 - 7 * k) * 2 ^ (7 * k)) as ->
    by (rewrite <- Z.pow_add_r by lia; f_equal; lia).
  assert (2 ^ 8 <= 2 ^ (64 - 7 * k)) by (apply Z.pow_le_mono_r; lia). nia.
Qed.

Lemma rotated_continues : negb (Z.land (rotated k b v) 0x80 =? 0) = (128 <=? b).
Proof using All.
  assert (rotated k b v mod 2 ^ 8 = b) as E.
  { unfold rotated. replace (64 - 7 * k) with (56 - 7 * k + 8) by lia.
    rewrite Z.pow_add_r, <- Z.mul_assoc, (Z.mul_comm (2 ^ 8)), Z.mul_assoc by lia.
    rewrite Z.mod_add by lia. apply Z.mod_small. lia. }
  assert (Z.land (rotated k b v) 0x80 = Z.land b 0x80) as ->.
  { change (Z.land (rotated k b v) 0x80) with (Z.land (rotated k b v) (Z.land (Z.ones 8) 0x80)).
    by rewrite Z.land_assoc, Z.land_ones, E by lia. }
  pose proof (land_80 (z2b b)) as E2. rewrite b2z_z2b_small in E2 by done. rewrite E2.
  destruct (Z.ltb_spec b 128), (Z.leb_spec 128 b); done || lia.
Qed.

Lemma rotated_next c :
  0 <= c < 256 -> k < 4 -> 128 <= b ->
  RotRight7AndReplaceLowByte (rotated k b v) c
  = rotated (k + 1) c (v + 2 ^ (7 * k) * (b - 128)).
Proof using All.
  intros Hc Hk4 Hb128. pose proof rotated_range as Hr.
  unfold RotRight7AndReplaceLowByte, RotateLeft.
  change (Z.land (-7) 63) with 57. change (Z.land (- -7) 63) with 7.
  set (x := rotated k b v) in *.
  assert (u64 (Z.shiftl x 57) = x mod 128 * 2 ^ 57) as ->.
  { unfold u64. rewrite Z.shiftl_mul_pow2 by lia. change (2 ^ 64) with (128 * 2 ^ 57).
    by rewrite Z.mul_mod_distr_r by lia. }
  assert (u64 (Z.shiftr x 7) = x / 128) as ->.
  { rewrite Z.shiftr_div_pow2 by lia. change (2 ^ 7) with 128. apply u64_id.
    split; [apply Z.div_pos; lia|]. apply Z.div_lt_upper_bound; lia. }
  rewrite lor_disjoint; cycle 1; [lia| |].
  { split; [apply Z.div_pos; lia|]. apply Z.div_lt_upper_bound; [lia|]. exact (proj2 Hr). }
  rewrite low_byte_cleared. change 0xFF with (Z.ones 8). rewrite Z.land_comm, Z.land_ones by lia.
  rewrite (Z.mod_small c) by (change (2 ^ 8) with 256; lia).
  change 256 with (2 ^ 8) at 2. rewrite lor_disjoint by (change (2 ^ 8) with 256; lia).
  assert (x = (b - 128) + 128 * (1 + 2 ^ (57 - 7 * k) * v)) as Ex.
  { unfold x, rotated. replace (64 - 7 * k) with (57 - 7 * k + 7) by lia.
    rewrite Z.pow_add_r by lia. change (2 ^ 7) with 128. ring. }
  assert (x mod 128 = b - 128) as ->.
  { rewrite Ex, (Z.mul_comm 128), Z.mod_add by lia. apply Z.mod_small. lia. }
  assert (x / 128 = 1 + 2 ^ (57 - 7 * k) * v) as ->.
  { rewrite Ex, (Z.mul_comm 128), Z.div_add by lia. rewrite Z.div_small by lia. lia. }
  assert (0 <= 2 ^ (57 - 7 * k) * v < 2 ^ 57 - 255) as Hv2.
  { assert (2 ^ 57 = 2 ^ (57 - 7 * k) * 2 ^ (7 * k)) as ->
      by (rewrite <- Z.pow_add_r by lia; f_equal; lia).
    assert (2 ^ 8 <= 2 ^ (57 - 7 * k)) by (apply Z.pow_le_mono_r; lia). zify_pow. nia. }
  replace (57 - 7 * k) with (49 - 7 * k + 8) in * by lia.
  rewrite Z.pow_add_r in * by lia. change (2 ^ 8) with 256 in *.
  rewrite Z.mod_small by (change (2 ^ 57) with 144115188075855872 in *; zify_pow; nia).
  replace ((b - 128) * 2 ^ 57 + (1 + 2 ^ (49 - 7 * k) * 256 * v))
    with (1 + ((b - 128) * 2 ^ 49 + 2 ^ (49 - 7 * k) * v) * 256) by (change (2 ^ 57) with (2 ^ 49 * 256); ring).
  rewrite Z.div_add by lia. change (1 / 256) with 0. unfold rotated.
  replace (64 - 7 * (k + 1)) with (49 - 7 * k + 8) by lia. rewrite Z.pow_add_r by lia.
  assert (2 ^ 49 = 2 ^ (49 - 7 * k) * 2 ^ (7 * k)) as ->
      by (rewrite <- Z.pow_add_r by lia; f_equal; lia).
  change (2 ^ 8) with 256. ring.
Qed.

Lemma rotated_last : 0 < k -> b < 128 -> u32 (RotateLeft (rotated k b v) (7 * k)) = u32 (v + 2 ^ (7 * k) * b).
Proof using All.
  intros Hk0 Hb128. f_equal. unfold RotateLeft.
  assert (Z.land (7 * k) 63 = 7 * k /\ Z.land (- (7 * k)) 63 = 64 - 7 * k) as [-> ->].
  { assert (k = 1 \/ k = 2 \/ k = 3 \/ k = 4) as [->|[->|[->| ->]]] by lia; done. }
  assert (2 ^ 64 = 2 ^ (64 - 7 * k) * 2 ^ (7 * k)) as E64
    by (rewrite <- Z.pow_add_r by lia; f_equal; lia).
  assert (2 ^ 8 <= 2 ^ (64 - 7 * k)) by (apply Z.pow_le_mono_r; lia).
  change (2 ^ 8) with 256 in *.
  assert (u64 (Z.shiftl (rotated k b v) (7 * k)) = b * 2 ^ (7 * k)) as ->.
  { unfold u64, rotated. rewrite Z.shiftl_mul_pow2 by lia.
    rewrite E64. replace ((b + 2 ^ (64 - 7 * k) * v) * 2 ^ (7 * k))
      with (b * 2 ^ (7 * k) + v * (2 ^ (64 - 7 * k) * 2 ^ (7 * k))) by ring.
    rewrite Z.mod_add by lia. apply Z.mod_small. nia. }
  assert (u64 (Z.shiftr (rotated k b v) (64 - 7 * k)) = v) as ->.
  { unfold rotated. rewrite Z.shiftr_div_pow2 by lia.
    rewrite (Z.mul_comm _ v), Z.div_add, Z.div_small by lia. apply u64_id.
    split; [lia|]. assert (2 ^ (7 * k) <= 2 ^ 64) by (apply Z.pow_le_mono_r; lia). lia. }
  rewrite lor_disjoint by lia. ring.
Qed.
End rotated.

(** The nest of conditions from the byte [i] on, with the register [res]. *)
Fixpoint inlined_chain (n i : nat) (p : list byte) (res : Z) : option parsed :=
  if negb (Z.land res 0x80 =? 0) then
    match n with
    | O => Some (None, 0)
    | S n => b ← at_ p (S i); inlined_chain n (S i) p (RotRight7AndReplaceLowByte res b)
    end
  else Some (Some (S i), u32 (RotateLeft res (7 * Z.of_nat i))).

Lemma inlined_chain_continued n i p b v :
  (i + n = 4)%nat -> (0 < i)%nat -> (5 <= length p)%nat -> p !! i = Some b ->
  0 <= v < 2 ^ (7 * Z.of_nat i) ->
  inlined_chain n i p (rotated (Z.of_nat i) (b2z b) v) = Some (continued (S n) i u32 v p).
Proof.
  revert i b v. induction n as [|n IH]; intros i b v Hn Hi Hp Hb Hv;
    rewrite (continued_step _ _ _ _ _ b Hb); cbn [inlined_chain];
    rewrite (rotated_continues (Z.of_nat i) (b2z b) v ltac:(lia) (b2z_range b) Hv);
    pose proof (b2z_range b) as Hr;
    destruct (Z.leb_spec 128 (b2z b)), (Z.ltb_spec (b2z b) 128); try lia.
  - done.
  - by rewrite rotated_last by (done || lia).
  - destruct (lookup_lt_is_Some_2 p (S i) ltac:(lia)) as [c Hc].
    rewrite (at_lookup _ _ _ Hc). cbn [mbind option_bind].
    rewrite rotated_next by (done || lia || apply b2z_range).
    replace (Z.of_nat i + 1) with (Z.of_nat (S i)) by lia.
    apply IH; [lia|lia|done|done|]. by apply digit_bound.
  - by rewrite rotated_last by (done || lia).
Qed.

Lemma ReadTagInlined_decoded l :
  (5 <= length l)%nat -> ReadTagInlined l = Some (decoded 5 u32 l).
Proof.
  intros Hl. destruct l as [|b [|c l]]; simpl in Hl; try lia.
  rewrite decoded_continued. rewrite (continued_step 4 0 _ _ _ b) by done.
  unfold ReadTagInlined. change (at_ (b :: c :: l) 0) with (Some (b2z b)). cbn [mbind option_bind].
  pose proof (b2z_range b). pose proof (b2z_range c).
  assert (Z.land 0xFF (b2z b) = rotated 0 (b2z b) 0) as ->.
  { change 0xFF with (Z.ones 8). rewrite Z.land_comm, Z.land_ones, Z.mod_small by (zify_pow; lia).
    unfold rotated. lia. }
  assert ((128 <=? rotated 0 (b2z b) 0) = negb (b2z b <? 128)) as ->.
  { unfold rotated. rewrite Z.mul_0_r, Z.add_0_r.
    destruct (Z.leb_spec 128 (b2z b)), (Z.ltb_spec (b2z b) 128); done || lia. }
  destruct (Z.ltb_spec (b2z b) 128); cbn [negb].
  { do 3 f_equal. unfold rotated. change (2 ^ (7 * Z.of_nat 0)) with 1. lia. }
  change (at_ (b :: c :: l) 1) with (Some (b2z c)). cbn [mbind option_bind].
  rewrite rotated_next by (done || lia).
  change (2 ^ (7 * Z.of_nat 0)) with (2 ^ (7 * 0)).
  refine (inlined_chain_continued 3 1 _ c _ _ _ _ _ _); [done|lia|simpl; lia|done|].
  change (2 ^ (7 * Z.of_nat 1)) with 128. lia.
Qed.

(** ** Two bytes at a time *)

Lemma testbit_split a x k i :
  0 <= k -> 0 <= i -> 0 <= x < 2 ^ k ->
  Z.testbit (a * 2 ^ k + x) i = if decide (i < k) then Z.testbit x i else Z.testbit a (i - k).
Proof.
  intros Hk Hi Hx. destruct (decide (i < k)).
  - rewrite <- (Z.mod_pow2_bits_low (a * 2 ^ k + x) k) by lia.
    rewrite Z.add_comm, Z.mod_add by lia. by rewrite Z.mod_small.
  - replace i with (i - k + k) at 1 by lia. rewrite <- Z.div_pow2_bits by lia.
    rewrite Z.add_comm, Z.div_add by lia. by rewrite Z.div_small.
Qed.

Lemma land_split a d x y k :
  0 <= k -> 0 <= x < 2 ^ k -> 0 <= y < 2 ^ k ->
  Z.land (a * 2 ^ k + x) (d * 2 ^ k + y) = Z.land a d * 2 ^ k + Z.land x y.
Proof.
  intros Hk Hx Hy.
  assert (0 <= Z.land x y < 2 ^ k) as Hxy.
  { rewrite <- (Z.mod_small x (2 ^ k)) at 1 2 by done. rewrite <- Z.land_ones by done.
    rewrite <- Z.land_assoc, (Z.land_comm (Z.ones k)), Z.land_assoc, Z.land_ones by done.
    apply Z.mod_pos_bound. lia. }
  apply Z.bits_inj'. intros i Hi. rewrite Z.land_spec, !testbit_split by done.
  destruct (decide (i < k)); by rewrite Z.land_spec.
Qed.

Lemma DecodeTwoBytes_eq b c l :
  DecodeTwoBytes (b :: c :: l) =
    Some (if b2z b <? 128 then (2 * b2z b, 1%nat) else (2 * (b2z b - 128 + 128 * b2z c), 2%nat)).
Proof.
  unfold DecodeTwoBytes. change (at_ (b :: c :: l) 0) with (Some (b2z b)).
  change (at_ (b :: c :: l) 1) with (Some (b2z c)). cbn [mbind option_bind].
  pose proof (b2z_range b). pose proof (b2z_range c).
  assert (u8 (b2z b + 256 * b2z c) = b2z b) as -> by ilia.
  destruct (Z.ltb_spec (b2z b) 128).
  - assert (u32 ((b2z b + 2 ^ 7) mod 2 ^ 8 - 2 ^ 7) = b2z b) as -> by ilia.
    replace (b2z b + 256 * b2z c) with (b2z c * 2 ^ 8 + b2z b) by (zify_pow; lia).
    pose proof (land_split (b2z c) 0 (b2z b) (b2z b) 8 ltac:(lia) (b2z_range b) (b2z_range b)) as E.
    rewrite Z.land_0_r, Z.land_diag in E. change (0 * 2 ^ 8) with 0 in E.
    rewrite Z.add_0_l in E. rewrite E.
    rewrite u32_id by ilia. destruct (Z.ltb_spec (b2z b + b2z b) (b2z b)); [lia|].
    do 2 f_equal. lia.
  - assert (u32 ((b2z b + 2 ^ 7) mod 2 ^ 8 - 2 ^ 7) = Z.ones 24 * 2 ^ 8 + b2z b) as ->
      by (change (Z.ones 24) with 16777215; ilia).
    replace (b2z b + 256 * b2z c) with (b2z c * 2 ^ 8 + b2z b) by (zify_pow; lia).
    rewrite land_split by (zify_pow; lia). rewrite Z.land_diag, Z.land_ones by lia.
    rewrite (Z.mod_small (b2z c)) by (change (2 ^ 24) with 16777216; lia).
    change (Z.ones 24 * 2 ^ 8) with 4294967040. change (2 ^ 8) with 256.
    replace (u32 _) with (2 * (b2z b - 128 + 128 * b2z c)) by ilia.
    destruct (Z.ltb_spec (2 * (b2z b - 128 + 128 * b2z c)) (4294967040 + b2z b)); [done|lia].
Qed.

Lemma last_two_bytes_eq tmp : 0 <= tmp < 2 ^ 16 -> last_two_bytes tmp = (tmp <? 2 ^ 15).
Proof.
  intros H. unfold last_two_bytes. change (2 ^ 16) with 65536 in *. change (2 ^ 15) with 32768.
  destruct (Z.ltb_spec tmp 32768).
  - rewrite Z.mod_small by lia. apply Z.leb_le. lia.
  - replace (tmp + 32768) with (tmp - 32768 + 1 * 65536) by lia. rewrite Z.mod_add by lia.
    rewrite Z.mod_small by lia. apply Z.leb_gt. lia.
Qed.

Lemma two_bytes (l : list byte) i :
  (S (S i) <= length l)%nat ->
  exists b c r, drop i l = b :: c :: r /\ l !! i = Some b /\ l !! S i = Some c.
Proof.
  intros Hl. destruct (lookup_lt_is_Some_2 l i ltac:(lia)) as [b Hb].
  destruct (lookup_lt_is_Some_2 l (S i) ltac:(lia)) as [c Hc].
  exists b, c, (drop (S (S i)) l). by rewrite (drop_S l b i Hb), (drop_S l c (S i) Hc).
Qed.

Lemma ParseBigVarint_loop_continued n i v l :
  (0 < i)%nat -> (2 * i + 2 * n <= length l)%nat -> 0 <= v ->
  ParseBigVarint_loop n i l (u64 (v + 2 ^ (7 * Z.of_nat (2 * i))))
  = Some (continued (2 * n) (2 * i) u64 v l).
Proof.
  revert i v. induction n as [|n IH]; intros i v Hi Hl Hv; [done|].
  destruct (two_bytes l (2 * i) ltac:(lia)) as (b & c & r & E & Hb & Hc).
  cbn [ParseBigVarint_loop]. rewrite E, DecodeTwoBytes_eq. cbn [mbind option_bind].
  replace (2 * S n)%nat with (S (S (2 * n))) by lia.
  rewrite (continued_step _ _ _ _ _ b), (continued_step _ _ _ _ _ c) by done.
  pose proof (b2z_range b). pose proof (b2z_range c).
  replace (7 * Z.of_nat (2 * i)) with (14 * Z.of_nat i) by lia.
  replace (7 * Z.of_nat (S (2 * i))) with (14 * Z.of_nat i + 7) by lia.
  rewrite Z.pow_add_r by lia. set (w := 2 ^ (14 * Z.of_nat i)). change (2 ^ 7) with 128.
  assert (forall x, u64 (u64 (v + w) + u64 (Z.shiftl (u64 (2 * x - 2)) (14 * Z.of_nat i - 1)))
                    = u64 (v + w * x)) as Hsum.
  { intros x. rewrite u64_add_r, u64_add_l, Z.shiftl_mul_pow2 by lia.
    rewrite <- u64_add_r, u64_mul_l, u64_add_r. f_equal.
    assert (w = 2 ^ (14 * Z.of_nat i - 1) * 2) as ->.
    { unfold w. rewrite <- (Z.pow_1_r 2) at 3. rewrite <- Z.pow_add_r by lia. f_equal. lia. }
    ring. }
  destruct (Z.ltb_spec (b2z b) 128).
  - rewrite Hsum, last_two_bytes_eq by (zify_pow; lia).
    destruct (Z.ltb_spec (2 * b2z b) (2 ^ 15)); [|zify_pow; lia]. by rewrite Nat.add_1_r.
  - rewrite Hsum, last_two_bytes_eq by (zify_pow; lia). change (2 ^ 15) with 32768.
    destruct (Z.ltb_spec (2 * (b2z b - 128 + 128 * b2z c)) 32768), (Z.ltb_spec (b2z c) 128); try lia.
    + do 3 f_equal; [lia|ring].
    + replace (S (S (2 * i))) with (2 * S i)%nat by lia.
      rewrite <- (IH (S i)) by lia || nia. do 2 f_equal.
      replace (7 * Z.of_nat (2 * S i)) with (14 * Z.of_nat i + 14) by lia.
      rewrite Z.pow_add_r by lia. fold w. change (2 ^ 14) with 16384. ring.
Qed.

Lemma ParseBigVarint_decoded l :
  (10 <= length l)%nat -> ParseBigVarint l = Some (decoded 10 u64 l).
Proof.
  intros Hl. destruct l as [|b [|c l]]; simpl in Hl; try lia. unfold ParseBigVarint.
  rewrite DecodeTwoBytes_eq, decoded_continued. cbn [mbind option_bind].
  rewrite (continued_step 9 0 _ _ _ b), (continued_step 8 1 _ _ _ c) by done.
  pose proof (b2z_range b). pose proof (b2z_range c).
  change (2 ^ (7 * Z.of_nat 0)) with 1. change (2 ^ (7 * Z.of_nat 1)) with 128.
  assert (forall x, Z.shiftr (2 * x) 1 = x) as Hs.
  { intros x. rewrite Z.shiftr_div_pow2, Z.mul_comm by lia. apply Z.div_mul. lia. }
  destruct (Z.ltb_spec (b2z b) 128).
  - rewrite Hs, last_two_bytes_eq by (zify_pow; lia).
    destruct (Z.ltb_spec (2 * b2z b) (2 ^ 15)); [|zify_pow; lia].
    do 2 f_equal. rewrite u64_id; [lia|ilia].
  - rewrite Hs, last_two_bytes_eq by (zify_pow; lia). change (2 ^ 15) with 32768.
    destruct (Z.ltb_spec (2 * (b2z b - 128 + 128 * b2z c)) 32768), (Z.ltb_spec (b2z c) 128); try lia.
    + do 2 f_equal. rewrite u64_id; [lia|ilia].
    + rewrite <- (ParseBigVarint_loop_continued 4 1) by (simpl; lia). f_equal.
      change (2 ^ (7 * Z.of_nat (2 * 1))) with 16384. rewrite u64_id; [lia|ilia].
Qed.

(** ** The decoders for ARM

    Seven bits of each byte, whatever its continuation bit says. *)

Fixpoint dsum (l : list byte) : Z :=
  match l with [] => 0 | b :: l => b2z b mod 128 + 128 * dsum l end.

(** The continuation bits that are clear. *)
Fixpoint clear_bits (l : list byte) : Z :=
  match l with [] => 0 | b :: l => (if b2z b <? 128 then 128 else 0) + 256 * clear_bits l end.

Lemma dsum_range l : 0 <= dsum l < 2 ^ (7 * zlen l).
Proof.
  induction l as [|b l IH]; [done|]. cbn [dsum]. rewrite zlen_cons. pose proof (zlen_nonneg l).
  replace (7 * (1 + zlen l)) with (7 + 7 * zlen l) by lia. rewrite Z.pow_add_r by lia.
  change (2 ^ 7) with 128. pose proof (Z.mod_pos_bound (b2z b) 128 ltac:(lia)). lia.
Qed.

Lemma dsum_app l k : dsum (l ++ k) = dsum l + 2 ^ (7 * zlen l) * dsum k.
Proof.
  induction l as [|b l IH]; cbn [dsum app].
  - change (2 ^ _) with 1. lia.
  - rewrite zlen_cons, IH. pose proof (zlen_nonneg l).
    replace (7 * (1 + zlen l)) with (7 + 7 * zlen l) by lia. rewrite Z.pow_add_r by lia.
    change (2 ^ 7) with 128. lia.
Qed.

Lemma dsum_take n m l :
  (n <= m <= length l)%nat -> dsum (take m l) mod 2 ^ (7 * Z.of_nat n) = dsum (take n l).
Proof.
  intros Hn. rewrite <- (take_drop n (take m l)), take_take, dsum_app.
  replace (n `min` m)%nat with n by lia.
  assert (zlen (take n l) = Z.of_nat n) as E by (unfold zlen; rewrite length_take; lia).
  pose proof (dsum_range (take n l)) as Hr. rewrite E in *.
  rewrite Z.mul_comm, Z.mod_add by lia. by apply Z.mod_small.
Qed.

Lemma vdecode_dsum n l v r :
  vdecode n l = Some (v, r) -> v = dsum (take (length l - length r) l).
Proof.
  revert l v r. induction n as [|n IH]; intros [|b l] v r; try done. cbn [vdecode].
  pose proof (b2z_range b). destruct (Z.ltb_spec (b2z b) 128).
  - intros [= <- <-]. replace (length (b :: l) - length l)%nat with 1%nat by (simpl; lia).
    cbn [firstn dsum]. rewrite Z.mod_small by lia. change (dsum (take 0 l)) with 0. lia.
  - destruct (vdecode n l) as [[v' r']|] eqn:E; [|done]. intros [= <- <-].
    pose proof (vdecode_suffix _ _ _ _ E) as (c & Ec & _). apply IH in E.
    assert (length r' <= length l)%nat by (rewrite Ec, length_app; lia).
    replace (length (b :: l) - length r')%nat with (S (length l - length r')) by (simpl; lia).
    cbn [firstn dsum]. rewrite <- E. f_equal.
    replace (b2z b) with (b2z b - 128 + 1 * 128) at 2 by lia. rewrite Z.mod_add by lia.
    rewrite Z.mod_small by lia. done.
Qed.

Lemma Ubfx7_byte l j b :
  l !! j = Some b -> Ubfx7 (le_value l) (Z.of_nat j * 8) = b2z b mod 128.
Proof.
  intros Hb. pose proof (lookup_lt_Some _ _ _ Hb).
  rewrite <- (take_drop_middle l j b Hb), le_value_app.
  pose proof (le_value_range (take j l)) as Hr. rewrite (length_take_le l j) in * by lia.
  unfold Ubfx7. rewrite Z.shiftr_div_pow2 by lia. change 0x7f with (Z.ones 7).
  rewrite Z.land_ones by lia. change (2 ^ 7) with 128.
  assert (2 ^ (Z.of_nat j * 8) = 256 ^ Z.of_nat j) as ->.
  { change 256 with (2 ^ 8). rewrite <- Z.pow_mul_r by lia. f_equal. lia. }
  rewrite Z.add_comm, (Z.mul_comm (256 ^ _)), Z.div_add_l by lia.
  rewrite (Z.div_small (le_value _)) by lia. rewrite Z.add_0_r. cbn [le_value].
  replace (256 * le_value (drop (S j) l)) with (2 * le_value (drop (S j) l) * 128) by lia.
  by rewrite Z.mod_add by lia.
Qed.

Lemma two_chunks l j b c :
  l !! j = Some b -> l !! S j = Some c ->
  ExtractAndMergeTwoChunks (le_value l) (Z.of_nat j) = dsum [b; c].
Proof.
  intros Hb Hc. unfold ExtractAndMergeTwoChunks. rewrite (Ubfx7_byte l j b Hb).
  replace (Z.of_nat j + 1) with (Z.of_nat (S j)) by lia. rewrite (Ubfx7_byte l (S j) c Hc).
  pose proof (Z.mod_pos_bound (b2z b) 128 ltac:(lia)).
  pose proof (Z.mod_pos_bound (b2z c) 128 ltac:(lia)).
  rewrite Z.shiftl_mul_pow2, u64_id by (lia || ilia).
  rewrite Z.lor_comm, lor_disjoint by (zify_pow; lia). cbn [dsum]. zify_pow. lia.
Qed.

Lemma clear_bits_masked l :
  Z.land (le_value (repeat (z2b 0x80) (length l))) (2 ^ (8 * zlen l) - 1 - le_value l)
  = clear_bits l.
Proof.
  induction l as [|b l IH]; [done|]. cbn [repeat length le_value clear_bits].
  rewrite zlen_cons. pose proof (zlen_nonneg l).
  replace (8 * (1 + zlen l)) with (8 + 8 * zlen l) by lia. rewrite Z.pow_add_r by lia.
  rewrite b2z_z2b_small by lia. pose proof (b2z_range b). change (2 ^ 8) with 256.
  set (x := 2 ^ (8 * zlen l)) in *. set (y := le_value (repeat _ _)) in *.
  replace (128 + 256 * y) with (y * 2 ^ 8 + 128) by (zify_pow; lia).
  replace (256 * x - 1 - (b2z b + 256 * le_value l))
    with ((x - 1 - le_value l) * 2 ^ 8 + (255 - b2z b)) by (zify_pow; lia).
  rewrite land_split, IH by (zify_pow; lia).
  pose proof (byte_forall (fun z => Z.land 128 (255 - z) =? (if z <? 128 then 128 else 0))
    eq_refl _ (b2z_range b)) as E. apply Z.eqb_eq in E. rewrite E. zify_pow. lia.
Qed.

Lemma countr_zero_odd k y : 0 <= k -> 0 <= y -> countr_zero (2 ^ k * (1 + 2 * y)) = k.
Proof.
  intros Hk Hy. unfold countr_zero.
  assert (0 < 2 ^ k) by lia. destruct (Z.eqb_spec (2 ^ k * (1 + 2 * y)) 0); [nia|].
  replace (2 ^ k * (1 + 2 * y)) with ((y * 2 ^ 1 + 1) * 2 ^ k) by (change (2 ^ 1) with 2; ring).
  replace (- ((y * 2 ^ 1 + 1) * 2 ^ k)) with ((Z.lnot y * 2 ^ 1 + 1) * 2 ^ k)
    by (unfold Z.lnot; change (2 ^ 1) with 2; ring_simplify; unfold Z.pred; ring).
  pose proof (land_split (y * 2 ^ 1 + 1) (Z.lnot y * 2 ^ 1 + 1) 0 0 k Hk
    ltac:(lia) ltac:(lia)) as E.
  rewrite (land_split y (Z.lnot y) 1 1 1), Z.land_lnot_diag in E by (change (2 ^ 1) with 2; lia).
  rewrite !Z.add_0_r in E. rewrite E. change (0 * 2 ^ 1 + Z.land 1 1) with 1.
  rewrite Z.mul_1_l. by apply Z.log2_pow2.
Qed.

(** The first clear bit is that of the last byte of the varint. *)
Lemma clear_bits_vdecode k t :
  (clear_bits k = 0 /\ vdecode (length k) (k ++ t) = None) \/
  exists j y v r, 0 <= y /\ (j < length k)%nat /\
    clear_bits k = 2 ^ (8 * Z.of_nat j + 7) * (1 + 2 * y) /\
    vdecode (length k) (k ++ t) = Some (v, r) /\ length (k ++ t) = (S j + length r)%nat.
Proof.
  induction k as [|b k IH]; [by left|]. cbn [clear_bits length app vdecode].
  assert (0 <= clear_bits k) as Hc.
  { clear. induction k as [|b k IH]; cbn [clear_bits]; [lia|]. destruct (_ <? _); lia. }
  destruct (Z.ltb_spec (b2z b) 128).
  - right. exists O, (clear_bits k), (b2z b), (k ++ t). split_and!; [done|lia| |done|lia].
    change (2 ^ _) with 128. lia.
  - destruct IH as [[-> ->]|(j & y & v & r & Hy & Hj & -> & -> & Hr)]; [by left|].
    right. exists (S j), y, (b2z b - 128 + 128 * v), r. split_and!; [done|lia| |done|lia].
    replace (8 * Z.of_nat (S j) + 7) with (8 + (8 * Z.of_nat j + 7)) by lia.
    rewrite (Z.pow_add_r 2 8) by lia. change (2 ^ 8) with 256. ring.
Qed.

Lemma lor_chunk a c :
  7 * zlen a <= 64 ->
  Z.lor (dsum a) (u64 (Z.shiftl (dsum c) (7 * zlen a))) = u64 (dsum (a ++ c)).
Proof.
  intros Ha. pose proof (zlen_nonneg a). pose proof (dsum_range a) as Hr.
  set (k := 7 * zlen a) in *.
  assert (2 ^ 64 = 2 ^ (64 - k) * 2 ^ k) as E by (rewrite <- Z.pow_add_r by lia; f_equal; lia).
  rewrite Z.shiftl_mul_pow2, Z.lor_comm by lia. unfold u64. rewrite E.
  rewrite Z.mul_mod_distr_r, lor_disjoint by lia. rewrite dsum_app. fold k.
  pose proof (Z.mod_pos_bound (dsum c) (2 ^ (64 - k)) ltac:(lia)).
  rewrite <- E, (Z.mul_comm (2 ^ k)). rewrite <- Z.add_mod_idemp_r by lia.
  rewrite E, Z.mul_mod_distr_r by lia. symmetry. rewrite Z.add_comm. apply Z.mod_small. nia.
Qed.

Lemma u64_dsum l : 7 * zlen l <= 64 -> u64 (dsum l) = dsum l.
Proof.
  intros Hl. apply u64_id. pose proof (dsum_range l).
  assert (2 ^ (7 * zlen l) <= 2 ^ 64) by (apply Z.pow_le_mono_r; lia). unfold is_u64. lia.
Qed.

(** The mask keeps the bits of the bytes that belong to the varint. *)
Lemma result_mask_eq j :
  0 <= j < 8 ->
  u64 (Z.lnot (u64 (Z.shiftl kResultMaskUnshifted (7 * j + 7)))) = Z.ones (Z.min 64 (7 * (j + 3))) /\
  negb (Z.land (8 * j + 7) 0x20 =? 0) = (4 <=? j).
Proof.
  intros Hj. assert (j = 0 \/ j = 1 \/ j = 2 \/ j = 3 \/ j = 4 \/ j = 5 \/ j = 6 \/ j = 7)
    as [->|[->|[->|[->|[->|[->|[->| ->]]]]]]] by lia; by vm_compute.
Qed.

(** What [ComputeLengthAndUpdateP] finds about [p]. *)
Definition length_found (p : list byte) (info : SlowPathEncodedInfo) : Prop :=
  last8 info = le_value (take 8 (drop 2 p)) /\
  ((masked_cont_bits info = 0 /\ vdecode 8 (drop 2 p) = None) \/
   exists j v r, 0 <= j < 8 /\ masked_cont_bits info <> 0 /\
     vdecode 8 (drop 2 p) = Some (v, r) /\ Z.of_nat (length p) = j + 3 + Z.of_nat (length r) /\
     info_p info = Z.to_nat (j + 3) /\ valid_bits info = 8 * j + 7 /\
     valid_chunk_bits info = 7 * j + 7).

Lemma ComputeLengthAndUpdateP_found p :
  (10 <= length p)%nat ->
  exists info, ComputeLengthAndUpdateP p = Some info /\ length_found p info.
Proof.
  intros Hp. unfold ComputeLengthAndUpdateP, load64.
  destruct (Z.leb_spec 8 (zlen (drop 2 p))) as [Hl|Hl];
    [|unfold zlen in Hl; rewrite length_drop in Hl; lia].
  cbn [mbind option_bind]. eexists; split; [done|].
  unfold length_found. cbn [info_p last8 valid_bits valid_chunk_bits masked_cont_bits].
  unfold ztake. change (Z.to_nat 8) with 8%nat.
  set (k := take 8 (drop 2 p)).
  assert (length k = 8%nat) as Hk by (unfold k; rewrite length_take, length_drop; lia).
  assert (Z.land 0x8080808080808080 (u64 (Z.lnot (le_value k))) = clear_bits k) as ->.
  { rewrite <- clear_bits_masked, Hk.
    change (le_value (repeat (z2b 0x80) 8)) with 0x8080808080808080. f_equal.
    pose proof (le_value_range k) as Hr. rewrite Hk in Hr. change (256 ^ Z.of_nat 8) with (2 ^ 64) in Hr.
    replace (8 * zlen k) with 64 by (unfold zlen; lia). unfold Z.lnot, Z.pred. ilia. }
  split; [done|].
  pose proof (clear_bits_vdecode k (drop 8 (drop 2 p))) as H.
  assert (k ++ drop 8 (drop 2 p) = drop 2 p) as Ek by apply take_drop. rewrite Ek, Hk in H.
  destruct H as [[-> E]|(j & y & v & r & Hy & Hj & E & Ev & Hr)]; [by left|right].
  exists (Z.of_nat j), v, r. rewrite E, countr_zero_odd by lia.
  rewrite Z.shiftr_div_pow2 by lia. change (2 ^ 3) with 8.
  replace (8 * Z.of_nat j + 7) with (7 + Z.of_nat j * 8) by lia. rewrite Z.div_add by lia.
  change (7 / 8) with 0. rewrite length_drop in Hr.
  split_and!; try done; nia.
Qed.

(** The digits that the two versions put together. *)
Lemma first8_chunks b0 b1 b2 b3 b4 b5 b6 b7 t :
  let p := b0 :: b1 :: b2 :: b3 :: b4 :: b5 :: b6 :: b7 :: t in
  let first8 := le_value (ztake 8 p) in
  ExtractAndMergeTwoChunks first8 0 = dsum [b0; b1] /\
  ExtractAndMergeTwoChunks first8 1 = dsum [b1; b2] /\
  ExtractAndMergeTwoChunks first8 2 = dsum [b2; b3] /\
  ExtractAndMergeTwoChunks first8 3 = dsum [b3; b4] /\
  ExtractAndMergeTwoChunks first8 4 = dsum [b4; b5] /\
  ExtractAndMergeTwoChunks first8 6 = dsum [b6; b7] /\
  Ubfx7 first8 0 = dsum [b0] /\ Ubfx7 first8 8 = dsum [b1].
Proof.
  intros p first8. unfold first8, p, ztake. change (Z.to_nat 8) with 8%nat. cbn [firstn].
  split_and!.
  - by apply (two_chunks _ 0).
  - by apply (two_chunks _ 1).
  - by apply (two_chunks _ 2).
  - by apply (two_chunks _ 3).
  - by apply (two_chunks _ 4).
  - by apply (two_chunks _ 6).
  - rewrite (Ubfx7_byte _ 0 b0) by done. cbn [dsum]. lia.
  - rewrite (Ubfx7_byte _ 1 b1) by done. cbn [dsum]. lia.
Qed.

Lemma decoded_tail f p :
  (2 <= length p)%nat -> (forall b, p !! 0%nat = Some b -> 128 <= b2z b) ->
  (forall b, p !! 1%nat = Some b -> 128 <= b2z b) ->
  match vdecode 8 (drop 2 p) with
  | None => decoded 10 f p = (None, 0)
  | Some (_, r) =>
      decoded 10 f p = (Some (length p - length r)%nat, f (dsum (take (length p - length r) p)))
  end.
Proof.
  intros Hp H0 H1. destruct p as [|b [|c t]]; simpl in Hp; try lia. change (drop 2 (b :: c :: t)) with t.
  specialize (H0 b eq_refl). specialize (H1 c eq_refl). unfold decoded.
  assert (forall m (x : byte) l, 128 <= b2z x -> vdecode (S m) (x :: l) =
    match vdecode m l with Some (v, r) => Some (b2z x - 128 + 128 * v, r) | None => None end) as E.
  { intros m x l Hx. cbn [vdecode]. by destruct (Z.ltb_spec (b2z x) 128); [lia|]. }
  destruct (vdecode 10 (b :: c :: t)) as [[v r]|] eqn:Ev;
    [rewrite (vdecode_dsum _ _ _ _ Ev)|]; rewrite !E in Ev by done;
    destruct (vdecode 8 t) as [[v' r']|]; try done.
  by injection Ev as _ <-.
Qed.

Lemma drop_mod_pow x m w : 0 <= m <= w -> (x mod 2 ^ w) mod 2 ^ m = x mod 2 ^ m.
Proof.
  intros Hm. replace w with (m + (w - m)) by lia. rewrite Z.pow_add_r by lia.
  rewrite Z.rem_mul_r by lia. rewrite Z.mul_comm, Z.mod_add by lia. apply Z.mod_mod. lia.
Qed.

Lemma u64_take_dsum p n :
  (n <= 9)%nat -> (n <= length p)%nat -> u64 (dsum (take n p)) = dsum (take n p).
Proof. intros. apply u64_dsum. unfold zlen. rewrite length_take. lia. Qed.

Lemma VarintParseSlowArm64_decoded p b c :
  (10 <= length p)%nat -> p !! 0%nat = Some b -> 128 <= b2z b ->
  p !! 1%nat = Some c -> 128 <= b2z c ->
  VarintParseSlowArm64 p (le_value (ztake 8 p)) = Some (decoded 10 u64 p).
Proof.
  intros Hp Eb Hb Ec Hc. unfold VarintParseSlowArm64.
  destruct (ComputeLengthAndUpdateP_found p Hp) as (info & -> & El & H). cbn [mbind option_bind].
  pose proof (decoded_tail u64 p ltac:(lia) ltac:(naive_solver) ltac:(naive_solver)) as Hd.
  destruct H as [[-> E]|(j & v & r & Hj & Hm & E & Hr & -> & -> & ->)]; rewrite E in Hd; rewrite Hd.
  { done. }
  destruct (Z.eqb_spec (masked_cont_bits info) 0) as [|_]; [done|]. clear Hd E.
  destruct (result_mask_eq j Hj) as [-> ->]. rewrite Z.land_ones by lia.
  replace (length p - length r)%nat with (Z.to_nat (j + 3)) by lia. do 2 f_equal.
  rewrite El. clear El Eb Ec. set (n := Z.to_nat (j + 3)).
  destruct p as [|b0 [|b1 [|b2 [|b3 [|b4 [|b5 [|b6 [|b7 [|b8 [|b9 t]]]]]]]]]]; simpl in Hp; try lia.
  destruct (first8_chunks b0 b1 b2 b3 b4 b5 b6 b7 (b8 :: b9 :: t))
    as (-> & _ & -> & _ & -> & -> & _). cbn [drop].
  change (take 8 _) with ([b2; b3; b4; b5; b6; b7; b8] ++ [b9]).
  rewrite (two_chunks _ 6 b8 b9) by done. cbn [app].
  change (2 * 7) with (7 * zlen [b0; b1]). rewrite lor_chunk by done. rewrite u64_dsum by done.
  change (4 * 7) with (7 * zlen ([b0; b1] ++ [b2; b3])). rewrite lor_chunk by done.
  rewrite u64_dsum by done.
  change (6 * 7) with (7 * zlen (([b0; b1] ++ [b2; b3]) ++ [b4; b5])). rewrite lor_chunk by done.
  rewrite u64_dsum by done.
  change (8 * 7) with (7 * zlen ((([b0; b1] ++ [b2; b3]) ++ [b4; b5]) ++ [b6; b7])).
  rewrite lor_chunk by done.
  set (p := b0 :: b1 :: b2 :: b3 :: b4 :: b5 :: b6 :: b7 :: b8 :: b9 :: t) in *.
  change (((([b0; b1] ++ [b2; b3]) ++ [b4; b5]) ++ [b6; b7]) ++ [b8; b9]) with (take 10 p).
  change ((([b0; b1] ++ [b2; b3]) ++ [b4; b5])) with (take 6 p).
  destruct (Z.leb_spec 4 j).
  - destruct (decide (j = 7)) as [->|].
    + change (Z.min 64 (7 * (7 + 3))) with 64. unfold u64. by rewrite Z.mod_mod by lia.
    + replace (Z.min 64 (7 * (j + 3))) with (7 * Z.of_nat n) by lia.
      rewrite (u64_take_dsum p n) by lia. rewrite <- (dsum_take n 10 p) by (simpl; lia).
      apply drop_mod_pow. lia.
  - replace (Z.min 64 (7 * (j + 3))) with (7 * Z.of_nat n) by lia.
    rewrite (u64_take_dsum p n) by (simpl in *; lia). apply dsum_take. simpl; lia.
Qed.

Lemma VarintParseSlowArm32_decoded p b c :
  (10 <= length p)%nat -> p !! 0%nat = Some b -> 128 <= b2z b ->
  p !! 1%nat = Some c -> 128 <= b2z c ->
  VarintParseSlowArm32 p (le_value (ztake 8 p)) = Some (decoded 10 u32 p).
Proof.
  intros Hp Eb Hb Ec Hc. unfold VarintParseSlowArm32.
  destruct (ComputeLengthAndUpdateP_found p Hp) as (info & -> & El & H). cbn [mbind option_bind].
  pose proof (decoded_tail u32 p ltac:(lia) ltac:(naive_solver) ltac:(naive_solver)) as Hd.
  destruct H as [[-> E]|(j & v & r & Hj & Hm & E & Hr & -> & _ & ->)]; rewrite E in Hd; rewrite Hd.
  { done. }
  destruct (Z.eqb_spec (masked_cont_bits info) 0) as [|_]; [done|]. clear Hd E El.
  destruct (result_mask_eq j Hj) as [-> _]. rewrite Z.land_ones by lia.
  replace (length p - length r)%nat with (Z.to_nat (j + 3)) by lia. do 2 f_equal.
  clear Eb Ec. set (n := Z.to_nat (j + 3)).
  destruct p as [|b0 [|b1 [|b2 [|b3 [|b4 [|b5 [|b6 [|b7 t]]]]]]]]; simpl in Hp; try lia.
  destruct (first8_chunks b0 b1 b2 b3 b4 b5 b6 b7 t) as (_ & -> & _ & -> & _ & _ & -> & _).
  change (1 * 7) with (7 * zlen [b0]). rewrite lor_chunk by done. rewrite u64_dsum by done.
  change (3 * 7) with (7 * zlen ([b0] ++ [b1; b2])). rewrite lor_chunk by done.
  rewrite u64_dsum by done.
  set (p := b0 :: b1 :: b2 :: b3 :: b4 :: b5 :: b6 :: b7 :: t) in *.
  change (([b0] ++ [b1; b2]) ++ [b3; b4]) with (take 5 p).
  destruct (Z.leb_spec j 2).
  - replace (Z.min 64 (7 * (j + 3))) with (7 * Z.of_nat n) by lia.
    rewrite dsum_take; [done|simpl; lia].
  - rewrite <- (dsum_take 5 n p) by (simpl in *; lia).
    change (7 * Z.of_nat 5) with 35. rewrite (Z.mod_small (_ mod _)); cycle 1.
    { pose proof (Z.mod_pos_bound (dsum (take n p)) (2 ^ 35) ltac:(lia)).
      assert (2 ^ 35 <= 2 ^ Z.min 64 (7 * (j + 3))) by (apply Z.pow_le_mono_r; lia). lia. }
    unfold u32. by rewrite drop_mod_pow by lia.
Qed.

Lemma VarintParseArm_decoded VarintParseSlowArm f p :
  (forall x, 0 <= x < 2 ^ 14 -> f x = x) -> (10 <= length p)%nat ->
  (forall b c, p !! 0%nat = Some b -> 128 <= b2z b -> p !! 1%nat = Some c -> 128 <= b2z c ->
     VarintParseSlowArm p (le_value (ztake 8 p)) = Some (decoded 10 f p)) ->
  VarintParseArm VarintParseSlowArm p = Some (decoded 10 f p).
Proof.
  intros Hf Hp Hslow. unfold VarintParseArm, load64.
  destruct (Z.leb_spec 8 (zlen p)) as [_|Hl]; [|unfold zlen in Hl; lia]. cbn [mbind option_bind].
  destruct p as [|b0 [|b1 [|b2 [|b3 [|b4 [|b5 [|b6 [|b7 t]]]]]]]]; simpl in Hp; try lia.
  set (p := b0 :: b1 :: b2 :: b3 :: b4 :: b5 :: b6 :: b7 :: t) in *.
  pose proof (b2z_range b0). pose proof (b2z_range b1).
  assert (exists x, 0 <= x /\ le_value (ztake 8 p) = x * 2 ^ 16 + (b2z b1 * 2 ^ 8 + b2z b0)) as (x & Hx & E).
  { exists (le_value [b2; b3; b4; b5; b6; b7]). split; [apply le_value_range|].
    change (ztake 8 p) with [b0; b1; b2; b3; b4; b5; b6; b7]. cbn [le_value].
    change (2 ^ 16) with 65536. zify_pow. lia. }
  assert (Z.land (le_value (ztake 8 p)) 0x80 = Z.land (b2z b0) 0x80) as ->.
  { rewrite E. replace (x * 2 ^ 16 + (b2z b1 * 2 ^ 8 + b2z b0))
      with ((x * 2 ^ 8 + b2z b1) * 2 ^ 8 + b2z b0) by (change (2 ^ 16) with (2 ^ 8 * 2 ^ 8); ring).
    change 0x80 with (0 * 2 ^ 8 + 0x80) at 1. rewrite land_split by (zify_pow; lia).
    by rewrite Z.land_0_r. }
  assert ((Z.land (le_value (ztake 8 p)) 0x8000 =? 0) = (Z.land (b2z b1) 0x80 =? 0)) as ->.
  { rewrite E. change 0x8000 with (0 * 2 ^ 16 + (0x80 * 2 ^ 8 + 0)).
    rewrite land_split by (change (2 ^ 16) with 65536; zify_pow; lia).
    rewrite (land_split (b2z b1) 0x80 (b2z b0) 0 8) by (zify_pow; lia).
    rewrite !Z.land_0_r. zify_pow. destruct (Z.eqb_spec (Z.land (b2z b1) 0x80) 0);
      [rewrite e; done|apply Z.eqb_neq; lia]. }
  rewrite !land_80. destruct (Z.ltb_spec (b2z b0) 128).
  - assert (u8 (le_value (ztake 8 p)) = b2z b0) as -> by (rewrite E; change (2 ^ 16) with 65536; ilia).
    unfold p. rewrite decoded_one by done. rewrite Hf; [done|change (2 ^ 14) with 16384; lia].
  - destruct (Z.ltb_spec (b2z b1) 128).
    + rewrite decoded_continued, (continued_step 9 0 _ _ _ b0), (continued_step 8 1 _ _ _ b1) by done.
      destruct (Z.ltb_spec (b2z b0) 128), (Z.ltb_spec (b2z b1) 128); try lia.
      pose proof (first8_chunks b0 b1 b2 b3 b4 b5 b6 b7 t) as (_ & _ & _ & _ & _ & _ & E0 & E1).
      fold p in E0, E1. rewrite E0, E1.
      change (Z.shiftl (dsum [b1]) 7) with (Z.shiftl (dsum [b1]) (7 * zlen [b0])). rewrite lor_chunk, u64_dsum by done. cbn [app dsum].
      change (2 ^ (7 * Z.of_nat 0)) with 1. change (2 ^ (7 * Z.of_nat 1)) with 128.
      replace (b2z b0) with (b2z b0 - 128 + 1 * 128) at 1 by lia. rewrite Z.mod_add by lia.
      rewrite !Z.mod_small by lia. do 2 f_equal. rewrite Hf; [lia|change (2 ^ 14) with 16384; lia].
    + by apply (Hslow b0 b1).
Qed.

(** ** The decoders agree *)

(** C20: The decoders of the pointer-based parser, run where as many bytes as a
    varint may have can be read, agree with the reference decoder and never
    read past them: the loop, the two-bytes-at-a-time version and the bit-parallel version for
    ARM of the 64-bit decoder find the same value and length and refuse the same
    inputs, and so do both 32-bit versions; the tag decoder that keeps the number
    in a rotating register equals the plain one, both refuse a tag of more than
    five bytes; and a size is refused exactly if it is longer than that or above
    [INT_MAX - 16]. *)
Theorem pointer_decoders_agree l :
  (10 <= length l)%nat ->
  VarintParse64 l = Some (decoded 10 u64 l) /\
  ParseBigVarint l = Some (decoded 10 u64 l) /\
  VarintParseArm VarintParseSlowArm64 l = Some (decoded 10 u64 l) /\
  VarintParse32 l = Some (decoded 10 u32 l) /\
  VarintParseArm VarintParseSlowArm32 l = Some (decoded 10 u32 l) /\
  ReadTag l = Some (decoded 5 u32 l) /\
  ReadTagInlined l = Some (decoded 5 u32 l) /\
  ReadSize l = Some (decoded_size l).
Proof.
  intros Hl. split_and!.
  - by apply VarintParse64_decoded.
  - by apply ParseBigVarint_decoded.
  - apply VarintParseArm_decoded; [|done|intros b c ? ? ? ?; by apply (VarintParseSlowArm64_decoded l b c)].
    intros x Hx. apply u64_id. change (2 ^ 14) with 16384 in Hx. ilia.
  - by apply VarintParse32_decoded.
  - apply VarintParseArm_decoded; [|done|intros b c ? ? ? ?; by apply (VarintParseSlowArm32_decoded l b c)].
    intros x Hx. apply u32_id. change (2 ^ 14) with 16384 in Hx. ilia.
  - apply ReadTag_decoded. lia.
  - apply ReadTagInlined_decoded. lia.
  - apply ReadSize_decoded. lia.
Qed.

(** A varint of ten bytes: the 32-bit value is cut, a tag or size so long is refused. *)
Definition ten_bytes : list byte := map z2b [0x85; 0x80; 0x80; 0x80; 0x90; 0x80; 0x80; 0x80; 0x80; 0x01].

Lemma pointer_decoders_agree_witness :
  VarintParseArm VarintParseSlowArm64 ten_bytes = Some (Some 10%nat, 2 ^ 63 + 2 ^ 32 + 5) /\
  VarintParseArm VarintParseSlowArm32 ten_bytes = Some (Some 10%nat, 5) /\
  ReadTagInlined ten_bytes = Some (None, 0) /\ ReadSize ten_bytes = Some (None, 0).
Proof.
  destruct (pointer_decoders_agree ten_bytes) as (_ & _ & E1 & _ & E2 & _ & E3 & E4);
    [by vm_compute; lia|].
  split_and!; [etransitivity; [exact E1|]|etransitivity; [exact E2|]|
    etransitivity; [exact E3|]|etransitivity; [exact E4|]]; by vm_compute.
Defined.
