(* ===== verification/EpsCopyInput.v ===== *)
(** * The input stream of the pointer-based parser

    [EpsCopyInputStream] of [parse_context.h] and [parse_context.cc]. A
    [const char*] into the current buffer is an offset in it, the null pointer is
    [None]. The current buffer is [patch_buffer_] or a chunk of the underlying
    stream ([buffer_]); every load names the bytes it reads, and a load that is
    not inside of the buffer, a failed [ABSL_DCHECK], a null dereference and a
    signed overflow have no result. *)

From S2P Require Import Prelude Varint ZeroCopyStream PointerDecoders.

Definition kPatchBufferSize : Z := 32.

(** [next_chunk_]: null, [patch_buffer_], or the chunk that [Next] returned last. *)
Inductive chunk_pointer :=
  | nc_null
  | nc_patch
  | nc_data (d : list byte).

(** [aliasing_]; the last is the distance between two buffers, whose addresses
    have no numbers here. It is only kept for [ReadArenaString]. *)
Inductive aliasing_mode :=
  | kNoAliasing
  | kOnPatch
  | kNoDelta
  | some_delta.

(** [LimitToken] *)
Definition LimitToken : Type := Z.

Record t (S : Type) := mk {
  limit_end_ : Z;
  buffer_end_ : Z;
  next_chunk_ : chunk_pointer;
  size_ : Z;
  limit_ : Z;
  zcis_ : option S;
  patch_buffer_ : list byte;
  aliasing_ : aliasing_mode;
  last_tag_minus_1_ : Z;
  overall_limit_ : Z;
  (** What [buffer_end_] and the parse pointer point into: [None] is
      [patch_buffer_]. *)
  buffer_ : option (list byte);
  (** The members of [ParseContext]. *)
  depth_ : Z;
  group_depth_ : Z;
}.
Arguments mk {S}.
Arguments limit_end_ {S}.
Arguments buffer_end_ {S}.
Arguments next_chunk_ {S}.
Arguments size_ {S}.
Arguments limit_ {S}.
Arguments zcis_ {S}.
Arguments patch_buffer_ {S}.
Arguments aliasing_ {S}.
Arguments last_tag_minus_1_ {S}.
Arguments overall_limit_ {S}.
Arguments buffer_ {S}.
Arguments depth_ {S}.
Arguments group_depth_ {S}.

Section set.
Context {S : Type}.
Implicit Type c : t S.

Definition set_limit (limit : Z) c : t S :=
  mk (limit_end_ c) (buffer_end_ c) (next_chunk_ c) (size_ c) limit (zcis_ c) (patch_buffer_ c)
    (aliasing_ c) (last_tag_minus_1_ c) (overall_limit_ c) (buffer_ c) (depth_ c) (group_depth_ c).
Definition set_limit_end (limit_end : Z) c : t S :=
  mk limit_end (buffer_end_ c) (next_chunk_ c) (size_ c) (limit_ c) (zcis_ c) (patch_buffer_ c)
    (aliasing_ c) (last_tag_minus_1_ c) (overall_limit_ c) (buffer_ c) (depth_ c) (group_depth_ c).
Definition set_last_tag_minus_1 (x : Z) c : t S :=
  mk (limit_end_ c) (buffer_end_ c) (next_chunk_ c) (size_ c) (limit_ c) (zcis_ c) (patch_buffer_ c)
    (aliasing_ c) x (overall_limit_ c) (buffer_ c) (depth_ c) (group_depth_ c).
Definition set_overall_limit (x : Z) c : t S :=
  mk (limit_end_ c) (buffer_end_ c) (next_chunk_ c) (size_ c) (limit_ c) (zcis_ c) (patch_buffer_ c)
    (aliasing_ c) (last_tag_minus_1_ c) x (buffer_ c) (depth_ c) (group_depth_ c).
Definition set_patch (p : list byte) c : t S :=
  mk (limit_end_ c) (buffer_end_ c) (next_chunk_ c) (size_ c) (limit_ c) (zcis_ c) p
    (aliasing_ c) (last_tag_minus_1_ c) (overall_limit_ c) (buffer_ c) (depth_ c) (group_depth_ c).
Definition set_stream (z : S) c : t S :=
  mk (limit_end_ c) (buffer_end_ c) (next_chunk_ c) (size_ c) (limit_ c) (Some z) (patch_buffer_ c)
    (aliasing_ c) (last_tag_minus_1_ c) (overall_limit_ c) (buffer_ c) (depth_ c) (group_depth_ c).
Definition set_size (size : Z) c : t S :=
  mk (limit_end_ c) (buffer_end_ c) (next_chunk_ c) size (limit_ c) (zcis_ c) (patch_buffer_ c)
    (aliasing_ c) (last_tag_minus_1_ c) (overall_limit_ c) (buffer_ c) (depth_ c) (group_depth_ c).
(** A new current buffer, its end and what comes after it. *)
Definition set_buffer (b : option (list byte)) (buffer_end : Z) (next : chunk_pointer)
    (aliasing : aliasing_mode) c : t S :=
  mk (limit_end_ c) buffer_end next (size_ c) (limit_ c) (zcis_ c) (patch_buffer_ c)
    aliasing (last_tag_minus_1_ c) (overall_limit_ c) b (depth_ c) (group_depth_ c).
Definition set_depths (depth group_depth : Z) c : t S :=
  mk (limit_end_ c) (buffer_end_ c) (next_chunk_ c) (size_ c) (limit_ c) (zcis_ c) (patch_buffer_ c)
    (aliasing_ c) (last_tag_minus_1_ c) (overall_limit_ c) (buffer_ c) depth group_depth.
End set.

(** The result of a signed 32-bit operation. *)
Definition int_ {S} (z : Z) : M S Z :=
  if (INT_MIN <=? z) && (z <=? INT_MAX) then ret z else undef.

(** The bytes of the current buffer. *)
Definition memory {S} (c : t S) : list byte :=
  match buffer_ c with Some d => d | None => patch_buffer_ c end.

(** ** Where a parse ends

    [ParseEndsInSlopRegion], on the bytes from [begin] on; [ptr] counts from there. *)

Fixpoint ParseEndsInSlopRegion_loop (n : nat) (begin : list byte) (ptr depth : Z) : option bool :=
  match n with
  | O => None
  | S n =>
      let end_ := kSlopBytes in
      if negb (ptr <? end_) then Some false else
      '(q, tag) ← ReadTag (zdrop ptr begin);
      match q with
      | None => Some false
      | Some k =>
          let ptr := ptr + Z.of_nat k in
          if end_ <? ptr then Some false else
          if tag =? 0 then Some true else
          match Z.land tag 7 with
          | 0 =>
              '(q, _) ← VarintParse64 (zdrop ptr begin);
              match q with
              | None => Some false
              | Some k => ParseEndsInSlopRegion_loop n begin (ptr + Z.of_nat k) depth
              end
          | 1 => ParseEndsInSlopRegion_loop n begin (ptr + 8) depth
          | 2 =>
              '(q, size) ← ReadSize (zdrop ptr begin);
              match q with
              | None => Some false
              | Some k =>
                  let ptr := ptr + Z.of_nat k in
                  if end_ - ptr <? size then Some false
                  else ParseEndsInSlopRegion_loop n begin (ptr + size) depth
              end
          | 3 => ParseEndsInSlopRegion_loop n begin ptr (depth + 1)
          | 4 => if depth - 1 <? 0 then Some true
                 else ParseEndsInSlopRegion_loop n begin ptr (depth - 1)
          | 5 => ParseEndsInSlopRegion_loop n begin (ptr + 4) depth
          | _ => Some false
          end
      end
  end.

(** Every round reads a byte of the sixteen. *)
Definition ParseEndsInSlopRegion (begin : list byte) (overrun depth : Z) : option bool :=
  if (0 <=? overrun) && (overrun <=? kSlopBytes)
  then ParseEndsInSlopRegion_loop 17 begin overrun depth else None.

Section stream.
Context {S : Type} `{ZeroCopyInputStreamOk S}.
Notation C := (t S).

(** ** Memory *)

(** [n] bytes at [ptr]. *)
Definition load (ptr n : Z) : M C (list byte) :=
  let* c := getS in
  if (0 <=? ptr) && (0 <=? n) && (ptr + n <=? zlen (memory c))
  then ret (ztake n (zdrop ptr (memory c))) else undef.

(** A decoder run at [ptr]: the new pointer and the value. *)
Definition decode (f : list byte -> option parsed) (ptr : Z) : M C (option Z * Z) :=
  let* c := getS in
  if (0 <=? ptr) && (ptr <=? zlen (memory c)) then
    let* (q, v) := lift (f (zdrop ptr (memory c))) in
    ret (option_map (fun k => ptr + Z.of_nat k) q, v)
  else undef.

Definition BytesAvailable (ptr : Z) : M C Z :=
  let* c := getS in
  let available := buffer_end_ c + kSlopBytes - ptr in
  dcheck (0 <=? available) ;;; dcheck (available <=? INT_MAX) ;;; ret available.

(** ** The underlying stream *)

Definition StreamNext : M C (option (list byte)) :=
  let* c := getS in
  match zcis_ c with
  | None => undef
  | Some z =>
      let* (r, z) := lift (ZeroCopyStream.Next z) in
      modS (set_stream z) ;;;
      match r with
      | None => ret None
      | Some data =>
          let* overall := int_ (overall_limit_ c - zlen data) in
          modS (set_size (zlen data)) ;;; modS (set_overall_limit overall) ;;; ret (Some data)
      end
  end.

Definition StreamBackUp (count : Z) : M C unit :=
  let* c := getS in
  match zcis_ c with
  | None => undef
  | Some z =>
      let* (_, z) := lift (ZeroCopyStream.BackUp count z) in
      modS (set_stream z) ;;;
      let* overall := int_ (overall_limit_ c + count) in modS (set_overall_limit overall)
  end.

Definition BackUp (ptr : Z) : M C unit :=
  let* c := getS in
  dcheck (ptr <=? buffer_end_ c + kSlopBytes) ;;;
  let* count :=
    match next_chunk_ c with
    | nc_patch => BytesAvailable ptr
    | _ => int_ (size_ c + (buffer_end_ c - ptr))
    end in
  if 0 <? count then StreamBackUp count else ret tt.

(** ** The next buffer *)

(** [if (aliasing_ >= kNoDelta) aliasing_ = kOnPatch] *)
Definition back_on_patch (a : aliasing_mode) : aliasing_mode :=
  match a with kNoDelta | some_delta => kOnPatch | _ => a end.

(** The loop over [StreamNext]; the result is whether a buffer was found. [n]
    bounds the number of empty buffers. *)
Fixpoint NextBuffer_loop (n : nat) : M C bool :=
  match n with
  | O => undef
  | Datatypes.S n =>
      let* r := StreamNext in
      match r with
      | None => ret false
      | Some data =>
          let* c := getS in
          if kSlopBytes <? size_ c then
            modS (set_patch (splice kSlopBytes (ztake kSlopBytes data) (patch_buffer_ c))) ;;;
            modS (set_buffer None kSlopBytes (nc_data data) (back_on_patch (aliasing_ c))) ;;;
            ret true
          else if 0 <? size_ c then
            modS (set_patch (splice kSlopBytes data (patch_buffer_ c))) ;;;
            modS (set_buffer None (size_ c) nc_patch (back_on_patch (aliasing_ c))) ;;;
            ret true
          else dcheck (size_ c =? 0) ;;; NextBuffer_loop n
      end
  end.

Definition stream_bound (c : C) : nat :=
  match zcis_ c with Some z => Datatypes.S (bound z) | None => 1%nat end.

(** The returned pointer is the start of the new buffer. *)
Definition NextBuffer (overrun depth : Z) : M C (option Z) :=
  let* c := getS in
  match next_chunk_ c with
  | nc_null => ret None
  | nc_data d =>
      dcheck (kSlopBytes <? size_ c) ;;;
      modS (set_buffer (Some d) (size_ c - kSlopBytes) nc_patch
              (match aliasing_ c with kOnPatch => kNoDelta | a => a end)) ;;;
      ret (Some 0)
  | nc_patch =>
      let* slop := load (buffer_end_ c) kSlopBytes in
      let patch := splice 0 slop (patch_buffer_ c) in
      modS (set_patch patch) ;;;
      let* more :=
        if 0 <? overall_limit_ c then
          if depth <? 0 then ret true else
          let* ends := lift (ParseEndsInSlopRegion patch overrun depth) in ret (negb ends)
        else ret false in
      let* found :=
        if more : bool then
          let* found := NextBuffer_loop (stream_bound c) in
          (if found then ret tt else modS (set_overall_limit 0)) ;;; ret found
        else ret false in
      if found then ret (Some 0) else
      modS (fun c => set_buffer None kSlopBytes nc_null
              (match aliasing_ c with kNoDelta => some_delta | a => a end) c) ;;;
      modS (set_size 0) ;;; ret (Some 0)
  end.

Definition SetEndOfStream : M C unit := modS (set_last_tag_minus_1 1).

(** [limit_ -= buffer_end_ - p] *)
Definition move_limit (p : Z) : M C unit :=
  let* c := getS in
  let* limit := int_ (limit_ c - (buffer_end_ c - p)) in modS (set_limit limit).

(** [limit_end_ = buffer_end_ + min(0, limit_)] *)
Definition place_limit_end : M C unit :=
  modS (fun c => set_limit_end (buffer_end_ c + Z.min 0 (limit_ c)) c).

Definition Next : M C (option Z) :=
  let* c := getS in
  dcheck (kSlopBytes <? limit_ c) ;;;
  let* p := NextBuffer 0 (-1) in
  match p with
  | None => modS (fun c => set_limit_end (buffer_end_ c) c) ;;; SetEndOfStream ;;; ret None
  | Some p => move_limit p ;;; place_limit_end ;;; ret (Some p)
  end.

(** The loop of [DoneFallback]: a pointer and whether the parse is done. Every
    new buffer has a byte before its end, and [overrun] is at most sixteen. *)
Fixpoint DoneFallback_loop (n : nat) (overrun depth : Z) : M C (option Z * bool) :=
  match n with
  | O => undef
  | Datatypes.S n =>
      dcheck (0 <=? overrun) ;;;
      let* p := NextBuffer overrun depth in
      match p with
      | None =>
          if negb (overrun =? 0) then ret (None, true) else
          let* c := getS in
          dcheck (0 <? limit_ c) ;;;
          modS (set_limit_end (buffer_end_ c)) ;;; SetEndOfStream ;;;
          ret (Some (buffer_end_ c), true)
      | Some p =>
          move_limit p ;;;
          let p := p + overrun in
          let* c := getS in
          let overrun := p - buffer_end_ c in
          if 0 <=? overrun then DoneFallback_loop n overrun depth
          else place_limit_end ;;; ret (Some p, false)
      end
  end.

Definition DoneFallback (overrun depth : Z) : M C (option Z * bool) :=
  let* c := getS in
  if limit_ c <? overrun then ret (None, true) else
  dcheck (negb (overrun =? limit_ c)) ;;; dcheck (overrun <? limit_ c) ;;;
  dcheck (limit_end_ c =? buffer_end_ c + Z.min 0 (limit_ c)) ;;;
  dcheck (0 <? limit_ c) ;;; dcheck (limit_end_ c =? buffer_end_ c) ;;;
  DoneFallback_loop 17 overrun depth.

Definition DoneWithCheck (ptr d : Z) : M C (option Z * bool) :=
  let* c := getS in
  if ptr <? limit_end_ c then ret (Some ptr, false) else
  let overrun := ptr - buffer_end_ c in
  dcheck (overrun <=? kSlopBytes) ;;;
  if overrun =? limit_ c then
    match next_chunk_ c with
    | nc_null => if 0 <? overrun then ret (None, true) else ret (Some ptr, true)
    | _ => ret (Some ptr, true)
    end
  else DoneFallback overrun d.

(** ** Limits *)

Definition PushLimit (ptr limit : Z) : M C LimitToken :=
  dcheck ((0 <=? limit) && (limit <=? INT_MAX - kSlopBytes)) ;;;
  let* c := getS in
  let* limit := int_ (limit + (ptr - buffer_end_ c)) in
  modS (set_limit_end (buffer_end_ c + Z.min 0 limit)) ;;;
  modS (set_limit limit) ;;;
  int_ (limit_ c - limit).

Definition EndedAtLimit (c : C) : bool := last_tag_minus_1_ c =? 0.
Definition EndedAtEndOfStream (c : C) : bool := last_tag_minus_1_ c =? 1.
Definition LastTag (c : C) : Z := u32 (last_tag_minus_1_ c + 1).
Definition SetLastTag (tag : Z) : M C unit := modS (set_last_tag_minus_1 (u32 (tag - 1))).

Definition PopLimit (delta : LimitToken) : M C bool :=
  let* c := getS in
  let* limit := int_ (limit_ c + delta) in
  modS (set_limit limit) ;;;
  if negb (EndedAtLimit c) then ret false else
  place_limit_end ;;; ret true.

Definition ConsumeEndGroup (start_tag : Z) : M C bool :=
  let* c := getS in
  let res := last_tag_minus_1_ c =? start_tag in
  modS (set_last_tag_minus_1 0) ;;; ret res.

Definition IsExceedingLimit (c : C) (ptr : Z) : bool :=
  (limit_end_ c <? ptr) &&
  (match next_chunk_ c with nc_null => true | _ => false end || (limit_ c <? ptr - buffer_end_ c)).
Definition BytesUntilLimit (c : C) (ptr : Z) : Z := limit_ c + (buffer_end_ c - ptr).
Definition MaximumReadSize (c : C) (ptr : Z) : Z := limit_end_ c - ptr + kSlopBytes.
Definition DataAvailable (c : C) (ptr : Z) : bool := ptr <? limit_end_ c.

(** ** Reading many bytes *)

Section append.
Context {X : Type}.

(** A callback takes the bytes it is given, and returns false to stop. *)
Definition callback : Type := list byte -> M X bool.

(** [ptr] is given [chunk_size] bytes; the loop body runs at least once. [n]
    bounds the number of buffers. *)
Fixpoint AppendSize_loop (n : nat) (ptr chunk_size size : Z) (append : callback)
    : M (C * X) (option Z) :=
  match n with
  | O => undef
  | Datatypes.S n =>
      dcheck (chunk_size <? size) ;;;
      let* c := on_fst getS in
      match next_chunk_ c with
      | nc_null => ret None
      | _ =>
          let* bytes := on_fst (load ptr chunk_size) in
          let* ok := on_snd (append bytes) in
          if negb ok then ret None else
          let size := size - chunk_size in
          if limit_ c <=? kSlopBytes then ret None else
          let* p := on_fst Next in
          match p with
          | None => ret None
          | Some p =>
              let ptr := p + kSlopBytes in
              let* chunk_size := on_fst (BytesAvailable ptr) in
              if chunk_size <? size then AppendSize_loop n ptr chunk_size size append else
              let* bytes := on_fst (load ptr size) in
              let* ok := on_snd (append bytes) in
              if negb ok then ret None else ret (Some (ptr + size))
          end
      end
  end.

(** Two buffers for every chunk that is left. *)
Definition buffers_left (c : C) : nat := (3 + 2 * stream_bound c)%nat.

Definition AppendSize (ptr size : Z) (append : callback) : M (C * X) (option Z) :=
  let* chunk_size := on_fst (BytesAvailable ptr) in
  let* c := on_fst getS in
  AppendSize_loop (buffers_left c) ptr chunk_size size append.

(** [ReadChunkAndCallback], whose callback does not stop the reading. *)
Definition ReadChunkAndCallback (ptr size : Z) (append : callback) : M (C * X) (option Z) :=
  let* available := on_fst (BytesAvailable ptr) in
  if size <=? available then
    let* bytes := on_fst (load ptr size) in
    let* _ := on_snd (append bytes) in ret (Some (ptr + size))
  else AppendSize ptr size append.

(** [AppendUntilEnd] *)
Fixpoint AppendUntilEnd_loop (n : nat) (ptr : Z) (append : callback) : M (C * X) (option Z) :=
  match n with
  | O => undef
  | Datatypes.S n =>
      let* c := on_fst getS in
      if kSlopBytes <? limit_ c then
        let* chunk_size := on_fst (BytesAvailable ptr) in
        let* bytes := on_fst (load ptr chunk_size) in
        let* _ := on_snd (append bytes) in
        let* p := on_fst Next in
        match p with
        | None => let* c := on_fst getS in ret (Some (limit_end_ c))
        | Some p => AppendUntilEnd_loop n (p + kSlopBytes) append
        end
      else
        let end_ := buffer_end_ c + limit_ c in
        dcheck (ptr <=? end_) ;;;
        let* bytes := on_fst (load ptr (end_ - ptr)) in
        let* _ := on_snd (append bytes) in ret (Some end_)
  end.

Definition AppendUntilEnd (ptr : Z) (append : callback) : M (C * X) (option Z) :=
  let* c := on_fst getS in
  if limit_ c <? ptr - buffer_end_ c then ret None
  else AppendUntilEnd_loop (buffers_left c) ptr append.
End append.

(** The callback of the strings. *)
Definition str_append : callback (X := list byte) := fun bytes =>
  modS (fun s => s ++ bytes) ;;; ret true.

(** [Skip] reads nothing of what is in the buffer; its callback does nothing. *)
Definition SkipFallback (ptr size : Z) : M (C * unit) (option Z) :=
  AppendSize ptr size (fun _ => ret true).

Definition Skip (ptr size : Z) : M (C * unit) (option Z) :=
  let* available := on_fst (BytesAvailable ptr) in
  if size <=? available then ret (Some (ptr + size)) else SkipFallback ptr size.

(** The string is the second object. Reserving memory for it is not a change of
    it. *)
Definition ReadStringFallback (ptr size : Z) : M (C * list byte) (option Z) :=
  on_snd (putS []) ;;; AppendSize ptr size str_append.

Definition ReadString (ptr size : Z) : M (C * list byte) (option Z) :=
  let* available := on_fst (BytesAvailable ptr) in
  if size <=? available then
    let* bytes := on_fst (load ptr size) in
    on_snd (putS bytes) ;;; ret (Some (ptr + size))
  else ReadStringFallback ptr size.

Definition AppendStringFallback (ptr size : Z) : M (C * list byte) (option Z) :=
  AppendSize ptr size str_append.

Definition AppendString (ptr size : Z) : M (C * list byte) (option Z) :=
  let* available := on_fst (BytesAvailable ptr) in
  if size <=? available then
    let* bytes := on_fst (load ptr size) in
    on_snd (modS (fun s => s ++ bytes)) ;;; ret (Some (ptr + size))
  else AppendStringFallback ptr size.

(** [AppendString(ptr, str)], until the limit or the end. *)
Definition AppendStringUntilEnd (ptr : Z) : M (C * list byte) (option Z) :=
  AppendUntilEnd ptr str_append.

(** ** Construction *)

(** A new [ParseContext]: what the declarations initialize, and zero for what
    [InitFrom] sets first. *)
Definition fresh (depth : Z) (aliasing : bool) : C :=
  mk 0 0 nc_null 0 0 None (repeat (z2b 0) (Z.to_nat kPatchBufferSize))
    (if aliasing then kOnPatch else kNoAliasing) 0 INT_MAX None depth INT_MIN.

(** [InitFrom(flat)] *)
Definition InitFrom_flat (flat : list byte) : M C Z :=
  modS (set_overall_limit 0) ;;;
  let* c := getS in
  if kSlopBytes <? zlen flat then
    modS (set_limit kSlopBytes) ;;;
    modS (set_buffer (Some flat) (zlen flat - kSlopBytes) nc_patch
            (match aliasing_ c with kOnPatch => kNoDelta | a => a end)) ;;;
    modS (set_limit_end (zlen flat - kSlopBytes)) ;;; ret 0
  else
    modS (set_patch (splice 0 flat (patch_buffer_ c))) ;;;
    modS (set_limit 0) ;;;
    modS (set_buffer None (zlen flat) nc_null
            (match aliasing_ c with kOnPatch => some_delta | a => a end)) ;;;
    modS (set_limit_end (zlen flat)) ;;; ret 0.

(** [InitFrom(zcis)] *)
Definition InitFrom_zcis (zcis : S) : M C Z :=
  modS (set_stream zcis) ;;;
  modS (set_limit INT_MAX) ;;;
  let* c := getS in
  let* (r, z) := lift (ZeroCopyStream.Next zcis) in
  modS (set_stream z) ;;;
  match r with
  | Some data =>
      let size := zlen data in
      let* overall := int_ (overall_limit_ c - size) in
      modS (set_overall_limit overall) ;;;
      if kSlopBytes <? size then
        let* limit := int_ (limit_ c - (size - kSlopBytes)) in
        modS (set_limit limit) ;;;
        modS (set_buffer (Some data) (size - kSlopBytes) nc_patch
                (match aliasing_ c with kOnPatch => kNoDelta | a => a end)) ;;;
        modS (set_limit_end (size - kSlopBytes)) ;;; ret 0
      else
        modS (set_buffer None kSlopBytes nc_patch (aliasing_ c)) ;;;
        modS (set_limit_end kSlopBytes) ;;;
        let ptr := kPatchBufferSize - size in
        modS (set_patch (splice ptr data (patch_buffer_ c))) ;;; ret ptr
  | None =>
      modS (set_overall_limit 0) ;;; modS (set_size 0) ;;;
      modS (set_buffer None 0 nc_null (aliasing_ c)) ;;;
      modS (set_limit_end 0) ;;; ret 0
  end.

(** [InitFrom(zcis, limit)] *)
Definition InitFrom_bounded (zcis : S) (limit : Z) : M C Z :=
  if limit =? -1 then InitFrom_zcis zcis else
  modS (set_overall_limit limit) ;;;
  let* res := InitFrom_zcis zcis in
  let* c := getS in
  let* limit := int_ (limit - (buffer_end_ c - res)) in
  modS (set_limit limit) ;;; place_limit_end ;;; ret res.
End stream.
