(* ===== verification/EpsCopyInputSpec.v ===== *)
(** * The buffers of the pointer-based parser are invisible

    What an [EpsCopyInputStream] holds is a list of bytes, [whole], of which the
    current limit shows a first part, [visible]. [Inv] is the invariant; each
    operation is proved to move along these lists, in whatever pieces the
    underlying stream gives its bytes, and to have a result: no load is outside
    of a buffer, no check fails and no sum overflows. *)

From S2P Require Import Prelude Varint ZeroCopyStream PointerDecoders EpsCopyInput.

#[local] Arguments vdecode : simpl never.

(** ** Lists *)

Section lists.
Context {A : Type}.
Implicit Types l k : list A.

Lemma zdrop_splice_after n m k l :
  0 <= n <= zlen l -> n + zlen k <= m -> zdrop m (splice n k l) = zdrop m l.
Proof.
  intros Hn Hm. unfold splice. pose proof (zlen_nonneg k).
  rewrite !zdrop_app. rewrite (zdrop_all m) by zl. rewrite (zdrop_all _ k) by zl.
  rewrite zlen_ztake. cbn [app]. rewrite zdrop_zdrop by lia. f_equal. lia.
Qed.

Lemma ztake_prefix n m l k : n <= m -> ztake m l = ztake m k -> ztake n l = ztake n k.
Proof.
  intros Hn E. rewrite <- (Z.min_l n m), <- (ztake_ztake n m l), E, ztake_ztake by lia. done.
Qed.

Lemma ztake_split n m l : 0 <= n -> ztake (n + m) l = ztake n l ++ ztake m (zdrop n l) \/ m < 0.
Proof.
  intros Hn. destruct (Z.ltb_spec m 0); [by right|left].
  rewrite <- (ztake_zdrop n l) at 1. rewrite ztake_app, ztake_ztake.
  f_equal; [f_equal; lia|]. rewrite zlen_ztake.
  destruct (Z.leb_spec n (zlen l)); [f_equal; lia|].
  rewrite (zdrop_all n l) by lia. unfold ztake. by rewrite !take_nil.
Qed.
End lists.

Lemma vdecode_prefix n c r k v :
  vdecode n (c ++ r) = Some (v, r) -> vdecode n (c ++ k) = Some (v, k).
Proof.
  revert c v. induction n as [|n IH]; intros c v E; [done|].
  destruct c as [|b c]; [apply vdecode_suffix in E as (x & E & Hx)|].
  { apply (f_equal length) in E. rewrite !length_app in E. simpl in E. lia. }
  cbn [app] in *. unfold vdecode in *; fold vdecode in *. destruct (b2z b <? 128).
  - injection E as -> E. apply (f_equal length) in E. rewrite length_app in E.
    destruct c; [done|simpl in E; lia].
  - destruct (vdecode n (c ++ r)) as [[v' r']|] eqn:E'; [|done]. injection E as <- ->.
    by rewrite (IH _ _ E').
Qed.

(** A decoder that reads [M], of which [V] is known to be the beginning. *)
Lemma vdecode_window n M V :
  (forall m, m <= Z.of_nat n -> m <= zlen V -> ztake m M = ztake m V) ->
  match vdecode n V with
  | Some (x, r) => exists r', vdecode n M = Some (x, r') /\
                     Z.of_nat (length M - length r') = zlen V - zlen r
  | None => forall x r', vdecode n M = Some (x, r') ->
                     zlen V < Z.of_nat (length M - length r') <= Z.of_nat n
  end.
Proof.
  intros Hw. destruct (vdecode n V) as [[x r]|] eqn:E.
  - pose proof (vdecode_suffix _ _ _ _ E) as (c & -> & Hc).
    assert (ztake (zlen c) M = c) as Ec.
    { rewrite Hw by (unfold zlen; rewrite ?length_app; lia). by apply ztake_app_exact. }
    exists (zdrop (zlen c) M). rewrite <- (ztake_zdrop (zlen c) M) at 1. rewrite Ec.
    split; [by eapply vdecode_prefix|].
    rewrite <- (ztake_zdrop (zlen c) M) at 1. rewrite Ec. rewrite length_app. unfold zlen.
    rewrite length_app. lia.
  - intros x r' E'. pose proof (vdecode_suffix _ _ _ _ E') as (c & -> & Hc).
    rewrite length_app. split; [|lia]. apply Z.nle_gt. intros Hle.
    assert (ztake (zlen c) V = c) as Ec.
    { rewrite <- Hw by (unfold zlen in *; lia). by apply ztake_app_exact. }
    rewrite <- (ztake_zdrop (zlen c) V), Ec in E.
    erewrite vdecode_prefix in E by exact E'. done.
Qed.

(** ** What the stream holds *)

Section spec.
Context {S : Type} `{ZeroCopyInputStreamOk S}.
Notation C := (t S).
Implicit Type c : C.

(** The sixteen bytes past the end of the current buffer. *)
Definition slop c : list byte := ztake kSlopBytes (zdrop (buffer_end_ c) (memory c)).

Definition stream_rest c : list byte :=
  match zcis_ c with Some z => content z | None => [] end.

(** What comes after the current buffer. *)
Definition tail c : list byte :=
  match next_chunk_ c with
  | nc_null => []
  | nc_patch => slop c ++ stream_rest c
  | nc_data d => d ++ stream_rest c
  end.

(** How much of it the overall limit allows; [overall_limit_] counts from the
    end of what the stream has returned. *)
Definition allowed c : Z :=
  overall_limit_ c +
  match next_chunk_ c with nc_null => 0 | nc_patch => kSlopBytes | nc_data d => zlen d end.

(** All that is left from [ptr] on, and the part that the limit shows. *)
Definition whole c (ptr : Z) : list byte :=
  ztake (allowed c + buffer_end_ c - ptr)
    (zdrop ptr (ztake (buffer_end_ c) (memory c) ++ tail c)).
Definition visible c (ptr : Z) : list byte := ztake (BytesUntilLimit c ptr) (whole c ptr).

(** The lengths of the two; negative when [ptr] is past their ends. *)
Definition total c (ptr : Z) : Z := Z.min (allowed c) (zlen (tail c)) + buffer_end_ c - ptr.
Definition left_ c (ptr : Z) : Z := Z.min (BytesUntilLimit c ptr) (total c ptr).

(** What the overall limit hides of the stream: the bytes that the last [Next]
    has returned beyond it, and what comes after. *)
Definition hidden c : list byte :=
  match zcis_ c with
  | Some z =>
      if overall_limit_ c <? 0
      then zdrop (zlen (backable z) + overall_limit_ c) (backable z) ++ content z
      else zdrop (overall_limit_ c) (content z)
  | None => []
  end.

Definition same_stream c c' : Prop :=
  hidden c' = hidden c /\ (zcis_ c <> None -> zcis_ c' <> None).

(** How far the overall limit is, unless the stream has ended before it. *)
Definition budget c (ptr : Z) : Z := allowed c + buffer_end_ c - ptr.
Definition dry c : Prop :=
  next_chunk_ c = nc_null /\ overall_limit_ c = 0 /\ stream_rest c = [].

(** The stream, between two places that are [k] bytes apart. *)
Definition streams (k : Z) c ptr c' ptr' : Prop :=
  same_stream c c' /\
  (budget c' ptr' = budget c ptr - k \/ budget c' ptr' < budget c ptr - k /\ dry c') /\
  (dry c -> dry c').

Lemma streams_same k c ptr ptr' : ptr' = ptr + k -> streams k c ptr c ptr'.
Proof. intros ->. split; [done|]. split; [left; unfold budget; lia|done]. Qed.

Lemma streams_trans k j c ptr c1 p1 c2 p2 :
  streams k c ptr c1 p1 -> streams j c1 p1 c2 p2 -> streams (k + j) c ptr c2 p2.
Proof.
  intros ([Eh1 Hz1] & Hb1 & Hd1) ([Eh2 Hz2] & Hb2 & Hd2). split; [split; [congruence|auto]|]. split; [|by auto].
  destruct Hb1 as [Hb1|[Hb1 Hd]], Hb2 as [Hb2|[Hb2 Hd']]; [left; lia|right..]; (split; [lia|by auto]).
Qed.

(** The invariant, but for the limit. *)
Record Shape c : Prop := {
  shape_patch : zlen (patch_buffer_ c) = kPatchBufferSize;
  shape_end : 0 <= buffer_end_ c /\ buffer_end_ c + kSlopBytes <= zlen (memory c) <= INT_MAX;
  shape_stream :
    match zcis_ c with
    | Some z => stream_ok z /\ zlen (content z) <= INT_MAX /\
                (overall_limit_ c < 0 -> - overall_limit_ c <= zlen (backable z))
    | None => overall_limit_ c <= 0
    end;
  shape_next :
    match next_chunk_ c with
    | nc_data d => buffer_end_ c = kSlopBytes /\ size_ c = zlen d /\
                   kSlopBytes < zlen d <= INT_MAX /\ ztake kSlopBytes d = slop c
    | nc_null => overall_limit_ c <= 0 /\
                 match zcis_ c with Some _ => size_ c = 0 | None => True end
    | nc_patch => True
    end;
  shape_overall : - INT_MAX <= overall_limit_ c <= INT_MAX;
}.

(** A limit does not show what the overall limit hides. *)
Definition within c : Prop := Z.min (limit_ c) (zlen (tail c)) <= allowed c.

Record Inv c : Prop := {
  inv_shape : Shape c;
  inv_within : within c;
  inv_limit : - INT_MAX <= limit_ c <= INT_MAX;
  inv_limit_end : limit_end_ c = buffer_end_ c + Z.min 0 (limit_ c);
}.

(** Where a pointer may be. *)
Definition valid c (ptr : Z) : Prop :=
  0 <= ptr <= buffer_end_ c + kSlopBytes /\ BytesUntilLimit c ptr <= INT_MAX.

Definition same_depths c c' : Prop := depth_ c' = depth_ c /\ group_depth_ c' = group_depth_ c.

Lemma same_depths_refl c : same_depths c c.
Proof. done. Qed.

Lemma same_depths_trans c c1 c2 : same_depths c c1 -> same_depths c1 c2 -> same_depths c c2.
Proof. intros [] []. split; congruence. Qed.

(** From [ptr] in [c] to [k] bytes further, in a state that may have other
    buffers. *)
Record moves (k : Z) c ptr c' ptr' : Prop := {
  moves_inv : Inv c';
  moves_valid : valid c' ptr';
  moves_until : BytesUntilLimit c' ptr' = BytesUntilLimit c ptr - k;
  moves_total : total c' ptr' = total c ptr - k;
  moves_whole : k <= total c ptr -> whole c' ptr' = zdrop k (whole c ptr);
  moves_depths : same_depths c c';
  moves_tag : last_tag_minus_1_ c' = last_tag_minus_1_ c;
  moves_stream : streams k c ptr c' ptr';
}.

Lemma zlen_whole c ptr : 0 <= buffer_end_ c -> buffer_end_ c <= zlen (memory c) -> 0 <= ptr ->
  zlen (whole c ptr) = Z.max 0 (total c ptr).
Proof. intros. unfold whole, total. zl. Qed.

Lemma zlen_visible c ptr : Inv c -> 0 <= ptr -> zlen (visible c ptr) = Z.max 0 (left_ c ptr).
Proof.
  intros HI Hp. destruct (inv_shape _ HI). unfold visible.
  rewrite zlen_ztake, zlen_whole; unfold left_, kSlopBytes in *; lia.
Qed.

Lemma moves_left k c ptr c' ptr' : moves k c ptr c' ptr' -> left_ c' ptr' = left_ c ptr - k.
Proof. intros []. unfold left_. lia. Qed.

Lemma moves_visible k c ptr c' ptr' :
  0 <= k <= left_ c ptr -> moves k c ptr c' ptr' -> visible c' ptr' = zdrop k (visible c ptr).
Proof.
  intros Hk []. unfold visible, left_ in *. rewrite moves_whole0, moves_until0 by lia.
  by rewrite zdrop_ztake by lia.
Qed.

Lemma moves_refl c ptr : Inv c -> valid c ptr -> moves 0 c ptr c ptr.
Proof. intros. split; try done; try lia. apply streams_same. lia. Qed.

Lemma moves_trans k j c ptr c1 p1 c2 p2 :
  0 <= k -> 0 <= j -> moves k c ptr c1 p1 -> moves j c1 p1 c2 p2 -> moves (k + j) c ptr c2 p2.
Proof.
  intros Hk Hj [? ? ? ? Hw1 [] ? Hs1] [? ? ? ? Hw2 [] ? Hs2].
  split; [done|done|lia|lia| |split; congruence|congruence|by eapply streams_trans].
  intros Hl. rewrite Hw2, Hw1 by lia. by rewrite zdrop_zdrop.
Qed.

(** Within the buffer, a move is a sum. *)
Lemma moves_add k c ptr :
  Inv c -> valid c ptr -> 0 <= k -> ptr + k <= buffer_end_ c + kSlopBytes ->
  moves k c ptr c (ptr + k).
Proof.
  intros HI [Hp Hu] Hk Hle. unfold BytesUntilLimit in *. destruct (inv_shape _ HI).
  split; unfold valid, BytesUntilLimit; try done; try lia.
  - unfold total. lia.
  - intros Ht. unfold whole. rewrite zdrop_ztake, zdrop_zdrop by lia. f_equal. lia.
  - by apply streams_same.
Qed.

Lemma tail_cases c :
  Shape c ->
  (next_chunk_ c = nc_null /\ tail c = []) \/
  (next_chunk_ c <> nc_null /\ exists k, tail c = slop c ++ k).
Proof.
  intros []. unfold tail. destruct (next_chunk_ c) as [| |d]; [by left|right..].
  - split; [done|by eexists].
  - split; [done|]. destruct shape_next0 as (_ & _ & _ & <-).
    exists (zdrop kSlopBytes d ++ stream_rest c). by rewrite app_assoc, ztake_zdrop.
Qed.

Lemma zlen_slop c : Shape c -> zlen (slop c) = kSlopBytes.
Proof. intros []. unfold slop, kSlopBytes in *. zl. Qed.

Lemma buffer_slop c :
  Shape c -> ztake (buffer_end_ c + kSlopBytes) (memory c) = ztake (buffer_end_ c) (memory c) ++ slop c.
Proof.
  intros []. destruct (ztake_split (buffer_end_ c) kSlopBytes (memory c)) as [E|E]; [lia|done|done].
Qed.

(** The bytes in memory are those of the list, as far as there are any. *)
Lemma window c ptr m :
  Shape c -> 0 <= ptr -> m <= total c ptr -> ptr + m <= buffer_end_ c + kSlopBytes ->
  ztake m (zdrop ptr (memory c)) = ztake m (whole c ptr).
Proof.
  intros HS Hp Ht Hm. unfold whole, total in *. rewrite ztake_ztake, Z.min_l by lia.
  assert (ztake (ptr + m) (memory c) = ztake (ptr + m) (ztake (buffer_end_ c) (memory c) ++ tail c)) as E.
  { pose proof (shape_end _ HS). destruct (tail_cases c HS) as [[_ Et]|[_ [k Et]]]; rewrite Et in *.
    - rewrite app_nil_r, ztake_ztake. f_equal. zl.
    - rewrite app_assoc, <- buffer_slop, ztake_app, ztake_ztake by done.
      rewrite (ztake_0 (_ - _)), app_nil_r; [f_equal; lia|zl]. }
  replace m with (ptr + m - ptr) by lia. rewrite <- !zdrop_ztake by lia. by rewrite E.
Qed.

(** ** Memory and decoders *)

Lemma load_wp c ptr n Q :
  Shape c -> 0 <= ptr -> 0 <= n -> ptr + n <= buffer_end_ c + kSlopBytes ->
  Q (ztake n (zdrop ptr (memory c))) c -> wp (load ptr n) c Q.
Proof.
  intros [] Hp Hn Hle HQ. unfold load. wp_steps.
  destruct (Z.leb_spec 0 ptr), (Z.leb_spec 0 n), (Z.leb_spec (ptr + n) (zlen (memory c)));
    try lia. by wp_steps.
Qed.

(** What a decoder of at most [n] bytes finds at [ptr]: what the reference finds
    in the visible bytes, or nothing, or something longer than they are. *)
Definition too_far (n : nat) c (ptr : Z) (r : option Z) : Prop :=
  match r with
  | None => True
  | Some q => ptr < q <= ptr + Z.of_nat n /\ left_ c ptr < q - ptr
  end.

Definition found n (g : Z -> Z) c (ptr : Z) (r : option Z * Z) : Prop :=
  match vdecode n (visible c ptr) with
  | Some (x, l) => r = (Some (ptr + (zlen (visible c ptr) - zlen l)), g x)
  | None => too_far n c ptr r.1
  end /\
  (r.1 <> None -> exists x, r.2 = g x).

Lemma visible_window c ptr m :
  Inv c -> 0 <= ptr -> m <= zlen (visible c ptr) -> ptr + m <= buffer_end_ c + kSlopBytes ->
  ztake m (zdrop ptr (memory c)) = ztake m (visible c ptr).
Proof.
  intros HI Hp Hm Hle. rewrite zlen_visible in Hm by done.
  destruct (Z.leb_spec m 0); [by rewrite !ztake_0 by lia|].
  unfold left_ in Hm. rewrite (window c ptr m) by (done || apply HI || lia).
  unfold visible. rewrite ztake_ztake. f_equal. lia.
Qed.

Lemma decode_window c ptr n :
  Inv c -> 0 <= ptr -> ptr + Z.of_nat n <= buffer_end_ c + kSlopBytes ->
  let M := zdrop ptr (memory c) in
  (n <= length M)%nat /\
  match vdecode n (visible c ptr) with
  | Some (x, l) => exists r, vdecode n M = Some (x, r) /\
                     Z.of_nat (length M - length r) = zlen (visible c ptr) - zlen l
  | None => forall x r, vdecode n M = Some (x, r) ->
              too_far n c ptr (Some (ptr + Z.of_nat (length M - length r)))
  end.
Proof.
  intros HI Hp Hle M. destruct (shape_end _ (inv_shape _ HI)).
  assert (Z.of_nat n <= zlen M) as Hn by (unfold M; zl). split; [unfold zlen in Hn; lia|].
  pose proof (vdecode_window n M (visible c ptr)) as Hw.
  destruct (vdecode n (visible c ptr)) as [[x l]|].
  - apply Hw. intros m Hm HV. apply visible_window; try done; lia.
  - intros x r E. apply Hw in E; [|intros m Hm HV; apply visible_window; try done; lia].
    rewrite zlen_visible in E by done. simpl. lia.
Qed.

Lemma decode_wp f g n c ptr :
  (forall l, (n <= length l)%nat -> f l = Some (decoded n g l)) ->
  Inv c -> 0 <= ptr -> ptr + Z.of_nat n <= buffer_end_ c + kSlopBytes ->
  wp (decode f ptr) c (fun r c' => c' = c /\ found n g c ptr r).
Proof.
  intros Hf HI Hp Hle. destruct (decode_window c ptr n HI Hp Hle) as [Hn Hw].
  destruct (shape_end _ (inv_shape _ HI)).
  unfold decode. wp_steps.
  destruct (Z.leb_spec 0 ptr), (Z.leb_spec ptr (zlen (memory c))); try (unfold kSlopBytes in *; lia).
  apply wp_bind. rewrite Hf by done. eapply wp_lift; [done|]. unfold decoded, found in *.
  destruct (vdecode n (zdrop ptr (memory c))) as [[y r]|] eqn:E; apply wp_ret; (split; [done|]);
    destruct (vdecode n (visible c ptr)) as [[x l]|].
  - destruct Hw as (r' & [= -> ->] & Hr). simpl. rewrite Hr. split; [done|]. by exists x.
  - split; [by apply (Hw y r)|]. intros _. by exists y.
  - by destruct Hw as (r' & ? & _).
  - done.
Qed.

(** The same for a size, which is small enough for [PushLimit]. *)
Definition size_decode (l : list byte) : option (Z * list byte) :=
  '(x, r) ← vdecode 5 l; if x <=? INT_MAX - kSlopBytes then Some (x, r) else None.

Definition size_found c (ptr : Z) (r : option Z * Z) : Prop :=
  match size_decode (visible c ptr) with
  | Some (x, l) => r = (Some (ptr + (zlen (visible c ptr) - zlen l)), x)
  | None => too_far 5 c ptr r.1
  end /\
  (r.1 <> None -> 0 <= r.2 <= INT_MAX - kSlopBytes).

Lemma ReadSize_wp c ptr :
  Inv c -> 0 <= ptr -> ptr + 5 <= buffer_end_ c + kSlopBytes ->
  wp (decode ReadSize ptr) c (fun r c' => c' = c /\ size_found c ptr r).
Proof.
  intros HI Hp Hle. destruct (decode_window c ptr 5 HI Hp Hle) as [Hn Hw].
  destruct (shape_end _ (inv_shape _ HI)).
  unfold decode. wp_steps.
  destruct (Z.leb_spec 0 ptr), (Z.leb_spec ptr (zlen (memory c))); try (unfold kSlopBytes in *; lia).
  apply wp_bind. rewrite ReadSize_decoded by done. eapply wp_lift; [done|].
  unfold decoded_size, size_found, size_decode in *.
  destruct (vdecode 5 (zdrop ptr (memory c))) as [[y r]|] eqn:E.
  - pose proof (vdecode_nonneg _ _ _ _ E).
    destruct (Z.leb_spec y (INT_MAX - kSlopBytes)); apply wp_ret; (split; [done|]);
      destruct (vdecode 5 (visible c ptr)) as [[x l]|]; simpl.
    + destruct Hw as (r' & [= -> ->] & Hr). simpl.
      destruct (Z.leb_spec x (INT_MAX - kSlopBytes)); [|lia]. rewrite Hr. split; [done|lia].
    + split; [by apply (Hw y r)|done].
    + destruct Hw as (r' & [= -> ->] & Hr). by destruct (Z.leb_spec x (INT_MAX - kSlopBytes)); [lia|].
    + done.
  - apply wp_ret; split; [done|]. destruct (vdecode 5 (visible c ptr)) as [[x l]|]; simpl.
    + by destruct Hw as (r' & ? & _).
    + done.
Qed.

(** ** The next buffer *)

(** What no change of buffer touches. *)
Definition keep c := (limit_ c, limit_end_ c, last_tag_minus_1_ c, depth_ c, group_depth_ c).

(** The number of buffers that can still come. *)
Definition measure c : nat :=
  let b := match zcis_ c with Some z => bound z | None => O end in
  match next_chunk_ c with
  | nc_null => O
  | nc_patch => 2 * b + 1
  | nc_data _ => 2 * b + 2
  end%nat.

Record switched c c' : Prop := {
  switched_shape : Shape c';
  switched_keep : keep c' = keep c;
  switched_end : 0 < buffer_end_ c';
  switched_whole : forall o, 0 <= o <= kSlopBytes -> whole c' o = whole c (buffer_end_ c + o);
  switched_total : forall o, total c' o = total c (buffer_end_ c + o);
  switched_within : within c -> Z.min (limit_ c - buffer_end_ c') (zlen (tail c')) <= allowed c';
  switched_slop : ztake kSlopBytes (memory c') = slop c;
  switched_measure : (measure c' < measure c)%nat;
  switched_stream : same_stream c c';
  switched_budget : forall o, budget c' o = budget c (buffer_end_ c + o) \/
                    budget c' o < budget c (buffer_end_ c + o) /\ dry c';
}.

(** A switch from the lists: either what the new buffer starts is what was left,
    or the overall limit hides all but the slop bytes. *)
Lemma whole_after c o :
  0 <= buffer_end_ c <= zlen (memory c) -> 0 <= o ->
  whole c (buffer_end_ c + o) = ztake (allowed c - o) (zdrop o (tail c)).
Proof.
  intros He Ho. unfold whole. rewrite <- zdrop_zdrop by lia. rewrite zdrop_app_exact by zl.
  f_equal. lia.
Qed.

Lemma switch_same c c' :
  Shape c -> Shape c' -> keep c' = keep c -> 0 < buffer_end_ c' ->
  ztake (buffer_end_ c') (memory c') ++ tail c' = tail c ->
  allowed c' + buffer_end_ c' = allowed c ->
  ztake kSlopBytes (memory c') = slop c -> (measure c' < measure c)%nat ->
  same_stream c c' -> switched c c'.
Proof.
  intros HS HS' Hk He Et Ea Es Hm Hh.
  pose proof (shape_end _ HS) as [? ?]. pose proof (shape_end _ HS') as [? ?].
  unfold kSlopBytes in *.
  assert (zlen (tail c) = buffer_end_ c' + zlen (tail c')) as El by (rewrite <- Et; zl).
  split; try done.
  - intros o Ho. rewrite whole_after by lia. unfold whole. rewrite Et. f_equal. lia.
  - intros o. unfold total. lia.
  - unfold within. lia.
  - intros o. left. unfold budget. lia.
Qed.

Lemma switch_to_null c c' :
  Shape c -> Shape c' -> keep c' = keep c -> next_chunk_ c = nc_patch ->
  next_chunk_ c' = nc_null -> buffer_end_ c' = kSlopBytes ->
  ztake kSlopBytes (memory c') = slop c ->
  (overall_limit_ c' = overall_limit_ c /\ overall_limit_ c <= 0 \/
   overall_limit_ c' = 0 /\ 0 < overall_limit_ c /\ stream_rest c = [] /\ stream_rest c' = []) ->
  same_stream c c' -> switched c c'.
Proof.
  intros HS HS' Hk En En' Ee Es Ho Hh.
  pose proof (shape_end _ HS) as [? ?]. pose proof (zlen_slop c HS) as Hl.
  assert (tail c = slop c ++ stream_rest c) as Et by (unfold tail; by rewrite En).
  assert (tail c' = []) as Et' by (unfold tail; by rewrite En').
  assert (allowed c = overall_limit_ c + 16) as Ea by (unfold allowed; by rewrite En).
  assert (allowed c' = overall_limit_ c') as Ea' by (unfold allowed; rewrite En'; lia).
  unfold kSlopBytes in *. split; try done.
  - by rewrite Ee.
  - intros o Ho'. unfold kSlopBytes in Ho'. rewrite whole_after by lia. unfold whole.
    rewrite Et, Et', Ea, Ea', Ee, Es, app_nil_r.
    destruct Ho as [[-> Ho]|(-> & Ho & -> & _)].
    + rewrite zdrop_app, ztake_app, zlen_zdrop, Hl. rewrite (ztake_0 (_ - _ - _)), app_nil_r by lia.
      done.
    + rewrite app_nil_r, !ztake_all; [done|zl..].
  - intros o. unfold total. rewrite Et, Et', Ea, Ea', Ee.
    destruct Ho as [[-> Ho]|(-> & Ho & -> & _)]; zl.
  - unfold within. rewrite Et, Et', Ea, Ea', Ee.
    destruct Ho as [[-> Ho]|(-> & Ho & -> & _)]; zl.
  - unfold measure. rewrite En, En'. lia.
  - intros o. unfold budget. rewrite Ea, Ea', Ee.
    destruct Ho as [[Eo Ho]|(Eo & Ho & _ & Er)]; rewrite Eo; [left; lia|right].
    split; [lia|by split_and!].
Qed.

(** What the loop over the stream leaves: a buffer put after the slop bytes, or
    the end of the stream. *)
Definition fetched c (b : bool) c' : Prop :=
  keep c' = keep c /\
  exists z z', zcis_ c = Some z /\ zcis_ c' = Some z' /\ stream_ok z' /\
  match b with
  | true => exists data, 0 < zlen data /\ content z = data ++ content z' /\
      (bound z' < bound z)%nat /\ overall_limit_ c' = overall_limit_ c - zlen data /\
      zlen data <= zlen (backable z') /\ hidden c' = hidden c /\ size_ c' = zlen data /\ buffer_ c' = None /\
      ((kSlopBytes < zlen data /\ next_chunk_ c' = nc_data data /\ buffer_end_ c' = kSlopBytes /\
        patch_buffer_ c' = splice kSlopBytes (ztake kSlopBytes data) (patch_buffer_ c)) \/
       (zlen data <= kSlopBytes /\ next_chunk_ c' = nc_patch /\ buffer_end_ c' = zlen data /\
        patch_buffer_ c' = splice kSlopBytes data (patch_buffer_ c)))
  | false => content z = [] /\ content z' = [] /\ patch_buffer_ c' = patch_buffer_ c
  end.

(** [Next] moves bytes from the stream to the context, or beyond the limit. *)
Lemma hidden_next c z z' data size :
  zcis_ c = Some z -> 0 <= overall_limit_ c -> content z = data ++ content z' ->
  data `suffix_of` backable z' ->
  hidden (set_overall_limit (overall_limit_ c - zlen data) (set_size size (set_stream z' c))) = hidden c.
Proof.
  intros Ez Ho Ec [pre Eb]. unfold hidden. simpl. rewrite Ez, (proj2 (Z.ltb_ge (overall_limit_ c) 0)), Ec by lia.
  rewrite zdrop_app. destruct (Z.ltb_spec (overall_limit_ c - zlen data) 0).
  - rewrite (zdrop_0 (_ - _) (content z')) by lia. f_equal. rewrite Eb, zlen_app.
    replace (zlen pre + zlen data + (overall_limit_ c - zlen data)) with (zlen pre + overall_limit_ c) by lia.
    rewrite <- zdrop_zdrop by (pose proof (zlen_nonneg pre); lia). by rewrite zdrop_app_exact.
  - by rewrite (zdrop_all _ data) by lia.
Qed.

Lemma int_wp z c Q : - 2 ^ 31 <= z <= INT_MAX -> Q z c -> wp (int_ z) c Q.
Proof.
  intros Hz HQ. unfold int_. destruct (Z.leb_spec INT_MIN z), (Z.leb_spec z INT_MAX);
    try (unfold INT_MIN in *; lia). done.
Qed.

Lemma StreamNext_wp c z Q :
  zcis_ c = Some z -> stream_ok z -> zlen (content z) <= INT_MAX ->
  0 < overall_limit_ c <= INT_MAX ->
  (forall r z', stream_ok z' ->
    match r with
    | Some data => content z = data ++ content z' /\ (bound z' < bound z)%nat /\
        data `suffix_of` backable z' ->
        Q (Some data) (set_overall_limit (overall_limit_ c - zlen data)
                         (set_size (zlen data) (set_stream z' c)))
    | None => content z = [] /\ content z' = [] -> Q None (set_stream z' c)
    end) ->
  wp StreamNext c Q.
Proof.
  intros Ez Hok Hl Ho HQ. unfold StreamNext. wp_steps. rewrite Ez.
  destruct (wp_inv _ _ _ (next_ok z Hok)) as (r & z' & E & Hok' & Hr).
  apply wp_bind. eapply wp_lift; [exact E|]. cbv beta iota. wp_steps.
  specialize (HQ r z' Hok').
  destruct r as [data|].
  - destruct Hr as (Ec & Hsuf & _ & Hb). apply wp_bind, int_wp.
    { rewrite Ec, zlen_app in Hl. zl. }
    wp_steps. by apply HQ.
  - destruct Hr as (E1 & E2 & _). apply wp_ret. by apply HQ.
Qed.

Lemma NextBuffer_loop_wp n c z :
  zcis_ c = Some z -> stream_ok z -> zlen (content z) <= INT_MAX ->
  0 < overall_limit_ c <= INT_MAX -> (bound z < n)%nat ->
  wp (NextBuffer_loop n) c (fetched c).
Proof.
  revert c z. induction n as [|n IH]; intros c z Ez Hok Hl Ho Hn; [lia|]. cbn [NextBuffer_loop].
  apply wp_bind. eapply StreamNext_wp; [done..|]. intros [data|] z' Hok'; cycle 1.
  { intros [E1 E2]. apply wp_ret. split; [done|]. exists z, z'. done. }
  intros (Ec & Hb & Hsuf). wp_steps.
  pose proof (fun size => hidden_next c z z' data size Ez ltac:(lia) Ec Hsuf) as Hh.
  assert (zlen data <= zlen (backable z')) as Hbk by (destruct Hsuf as [pre ->]; zl).
  cbn [size_ patch_buffer_ aliasing_ set_overall_limit set_size set_stream].
  pose proof (zlen_nonneg data). destruct (Z.ltb_spec kSlopBytes (zlen data)) as [Hd|Hd].
  { wp_steps. split; [done|]. exists z, z'. split_and!; [done..|]. exists data.
    split_and!; try done; [unfold kSlopBytes in *; lia|exact (Hh 0)|by left]. }
  destruct (Z.ltb_spec 0 (zlen data)).
  { wp_steps. split; [done|]. exists z, z'. split_and!; [done..|]. exists data.
    split_and!; try done; [exact (Hh 0)|by right]. }
  assert (data = []) as -> by (apply zlen_0; lia). apply wp_bind, wp_ret. simpl in Ec.
  wp_use IH; [reflexivity|done|by rewrite <- Ec|simpl; lia|lia|].
  intros b c' (Hk & z1 & z2 & [= <-] & Ez2 & Hok2 & Hb2). split; [done|].
  exists z, z2. split_and!; [done..|]. destruct b; cycle 1.
  { by rewrite Ec. }
  destruct Hb2 as (data & ? & ? & ? & Eo & ? & Eh & Hrest). exists data. rewrite Ec.
  split; [done|]. split; [done|]. split; [lia|]. split; [rewrite Eo; simpl; lia|].
  split; [done|]. split; [rewrite Eh; exact (Hh 0)|exact Hrest].
Qed.

Lemma splice_head (p slop data : list byte) :
  zlen p = kPatchBufferSize -> zlen slop = kSlopBytes -> zlen data <= kSlopBytes ->
  exists k, zlen k = kSlopBytes - zlen data /\
  splice kSlopBytes data (splice 0 slop p) = slop ++ data ++ k.
Proof.
  unfold kPatchBufferSize, kSlopBytes. intros Hp Hs Hd. pose proof (zlen_nonneg data).
  exists (zdrop (16 + zlen data) p). split; [zl|]. unfold splice at 1.
  rewrite zdrop_splice_after by zl. f_equal. unfold splice. rewrite (ztake_0 0) by lia. simpl.
  rewrite ztake_app. rewrite ztake_all by lia. rewrite (ztake_0 (_ - _)), app_nil_r by lia. done.
Qed.

(** The slop bytes moved to the start of the patch buffer. *)
Definition slop_moved c : C := set_patch (splice 0 (slop c) (patch_buffer_ c)) c.

Lemma slop_moved_patch c :
  Shape c -> zlen (patch_buffer_ (slop_moved c)) = kPatchBufferSize /\
  ztake kSlopBytes (patch_buffer_ (slop_moved c)) = slop c.
Proof.
  intros HS. pose proof (zlen_slop c HS) as Hsl. destruct HS as [Hp _ _ _ _]. simpl.
  unfold kPatchBufferSize in *. split.
  - rewrite zlen_splice; unfold kSlopBytes in *; lia.
  - pose proof (ztake_splice 0 (slop c) (patch_buffer_ c)) as E. rewrite Hsl in E.
    rewrite (ztake_0 0) in E by lia. apply E. lia.
Qed.

Lemma fetched_switched c c' :
  Shape c -> next_chunk_ c = nc_patch -> 0 < overall_limit_ c ->
  fetched (slop_moved c) true c' -> switched c c'.
Proof.
  intros HS En Ho (Hk & z & z' & Ez & Ez' & Hok & data & Hd & Ec & Hb & Eo & Hbk & Hh & Es & Ebuf & Hcase).
  assert (same_stream c c') as Hst by (split; [exact Hh|by rewrite Ez']).
  pose proof (zlen_slop c HS) as Hsl. pose proof HS as [Hp He Hz _ Hov].
  change (zcis_ c = Some z) in Ez. rewrite Ez in Hz. destruct Hz as (_ & Hz & _).
  change (overall_limit_ (slop_moved c)) with (overall_limit_ c) in Eo.
  assert (memory c' = patch_buffer_ c') as Em by (unfold memory; by rewrite Ebuf).
  assert (stream_rest c = data ++ stream_rest c') as Er by (unfold stream_rest; by rewrite Ez, Ez').
  assert (zlen data <= INT_MAX /\ zlen (content z') <= INT_MAX) as [Hdl Hcl]
    by (rewrite Ec in Hz; zl).
  destruct (splice_head (patch_buffer_ c) (slop c) (ztake kSlopBytes data) Hp Hsl) as (k & Hk1 & Ek).
  { unfold kSlopBytes. zl. }
  assert (patch_buffer_ c' = slop c ++ ztake kSlopBytes data ++ k) as Ep.
  { destruct Hcase as [(_ & _ & _ & ->)|(Hs & _ & _ & ->)]; [done|].
    rewrite (ztake_all _ data) in Ek |- * by done. done. }
  rewrite zlen_ztake in Hk1.
  assert (ztake kSlopBytes (memory c') = slop c) as Eslop
    by (rewrite Em, Ep; by apply ztake_app_exact).
  assert (zlen (patch_buffer_ c') = kPatchBufferSize) as Hpl
    by (rewrite Ep; unfold kSlopBytes, kPatchBufferSize in *; zl).
  assert (tail c = slop c ++ stream_rest c) as Et by (unfold tail; by rewrite En).
  unfold kPatchBufferSize, kSlopBytes in *.
  destruct Hcase as [(Hs & En' & Ee & _)|(Hs & En' & Ee & _)].
  - assert (slop c' = ztake 16 data) as Es'.
    { unfold slop. rewrite Em, Ep, Ee, zdrop_app_exact by done. apply ztake_app_exact.
      unfold kSlopBytes. zl. }
    apply switch_same; try done; try lia.
    + split; unfold kPatchBufferSize, kSlopBytes; rewrite ?En', ?Ez', ?Em, ?Es'; try done;
        unfold INT_MAX in *; split_and?; done || lia.
    + rewrite Et. unfold tail. by rewrite Ee, Eslop, En', Er.
    + unfold allowed. rewrite En, En', Eo, Ee. unfold kSlopBytes. lia.
    + unfold measure. rewrite En, En', Ez, Ez'. lia.
  - rewrite (ztake_all 16 data) in Ep by lia.
    assert (ztake (zlen data) (patch_buffer_ c') ++ slop c' = slop c ++ data) as Es'.
    { unfold slop. rewrite Em, Ee. unfold kSlopBytes.
      destruct (ztake_split (zlen data) 16 (patch_buffer_ c')) as [E|E]; [lia| |lia].
      rewrite <- E, Ep, app_assoc. apply ztake_app_exact. zl. }
    apply switch_same; try done; try lia.
    + split; unfold kPatchBufferSize, kSlopBytes; rewrite ?En', ?Ez', ?Em; try done;
        unfold INT_MAX in *; split_and?; done || lia.
    + rewrite Et. unfold tail. rewrite Em, Ee, En', Er, app_assoc, Es'. by rewrite app_assoc.
    + unfold allowed. rewrite En, En', Eo, Ee. unfold kSlopBytes. lia.
    + unfold measure. rewrite En, En', Ez, Ez'. lia.
Qed.

(** The end of the stream, or of what the overall limit allows. *)
Definition ended_patch (a : aliasing_mode) c : C := set_size 0 (set_buffer None kSlopBytes nc_null a c).

Lemma overall_ended c a :
  Shape c -> next_chunk_ c = nc_patch -> overall_limit_ c <= 0 ->
  switched c (ended_patch a (slop_moved c)).
Proof.
  intros HS En Ho. destruct (slop_moved_patch c HS) as [Hpl Hps]. pose proof HS as [? ? ? ? ?].
  apply switch_to_null; try done.
  - split; try done; simpl.
    + unfold memory. simpl in *. rewrite Hpl. unfold kPatchBufferSize, kSlopBytes, INT_MAX. lia.
    + by destruct (zcis_ c).
  - by left.
Qed.

Lemma stream_ended c c' a :
  Shape c -> next_chunk_ c = nc_patch -> 0 < overall_limit_ c ->
  fetched (slop_moved c) false c' ->
  switched c (ended_patch a (set_overall_limit 0 c')).
Proof.
  intros HS En Ho (Hk & z & z' & Ez & Ez' & Hok & Ec & Ec' & Ep).
  change (zcis_ c = Some z) in Ez.
  destruct (slop_moved_patch c HS) as [Hpl Hps]. pose proof HS as [? ? ? ? ?].
  apply switch_to_null; try done.
  - split; simpl; rewrite ?Ez', ?Ep; try done.
    + unfold memory; simpl. rewrite Ep, Hpl. unfold kPatchBufferSize, kSlopBytes, INT_MAX. lia.
    + rewrite Ec'. done.
  - unfold memory; simpl. by rewrite Ep.
  - right. split_and!; [done|done|..]; unfold stream_rest; simpl; [by rewrite Ez, Ec|by rewrite Ez', Ec'].
  - split; [|simpl; by rewrite Ez']. unfold hidden. simpl. rewrite Ez, Ez', Ec, Ec', (proj2 (Z.ltb_ge (overall_limit_ c) 0)) by lia.
    unfold zdrop. simpl. by rewrite !drop_nil.
Qed.

Lemma chunk_switched c data a :
  Shape c -> next_chunk_ c = nc_data data ->
  switched c (set_buffer (Some data) (size_ c - kSlopBytes) nc_patch a c).
Proof.
  intros HS En. pose proof HS as [Hp He Hz Hnext Ho]. rewrite En in Hnext.
  destruct Hnext as (Ee & Es & Hl & Hs). rewrite Es.
  set (c' := set_buffer _ _ _ _ c).
  assert (slop c' ++ stream_rest c' = zdrop (buffer_end_ c') data ++ stream_rest c) as Et.
  { unfold slop, stream_rest. simpl. f_equal. apply ztake_all. unfold kSlopBytes in *. zl. }
  apply switch_same; try done.
  - split; simpl; try done. unfold memory, kSlopBytes in *; simpl. lia.
  - simpl. unfold kSlopBytes in *. lia.
  - unfold tail. rewrite En. simpl. simpl in Et. rewrite Et, app_assoc. f_equal. apply ztake_zdrop.
  - unfold allowed. rewrite En. simpl. unfold kSlopBytes. lia.
  - unfold measure. rewrite En. simpl. destruct (zcis_ c); lia.
Qed.

(** Outside of the groups that are tracked ([depth < 0]) the next buffer is
    always taken. *)
Lemma NextBuffer_wp o d c :
  Shape c -> next_chunk_ c <> nc_null -> d < 0 ->
  wp (NextBuffer o d) c (fun r c' => r = Some 0 /\ switched c c').
Proof.
  intros HS Hn Hd. pose proof HS as [Hp He Hz Hnext Ho]. unfold NextBuffer. wp_steps.
  destruct (next_chunk_ c) as [| |data] eqn:En; [done| |].
  2: { destruct Hnext as (Ee & Es & Hl & Hs). rewrite Es.
    destruct (Z.ltb_spec kSlopBytes (zlen data)); [|lia]. apply wp_bind, wp_ret. wp_steps.
    split; [done|]. rewrite <- Es. by apply chunk_switched. }
  apply wp_bind. apply load_wp; [done|lia|unfold kSlopBytes; lia|lia|].
  fold (slop c). wp_steps. fold (slop_moved c).
  destruct (Z.ltb_spec 0 (overall_limit_ c)).
  - destruct (Z.ltb_spec d 0); [|lia]. apply wp_bind, wp_ret. cbv iota. wp_steps.
    destruct (zcis_ c) as [z|] eqn:Ez; [|lia]. destruct Hz as (Hok & Hc & _).
    eapply wp_mono.
    { apply (NextBuffer_loop_wp _ _ z); [exact Ez|exact Hok|exact Hc|simpl; lia|].
      unfold stream_bound. rewrite Ez. lia. }
    intros [] c' Hf; repeat (cbv beta iota; wp_step).
    + split; [done|]. by apply fetched_switched.
    + split; [done|]. by apply stream_ended.
  - apply wp_bind, wp_ret. cbv iota. wp_steps. split; [done|]. by apply overall_ended.
Qed.

(** ** Moving on, and the end of a parse *)

(** The state after a switch, with the limit moved: the same place is [o] bytes
    into the new buffer. *)
Definition relimited (limit limit_end : Z) c : C := set_limit_end limit_end (set_limit limit c).

Lemma switched_moves c c' o limit_end :
  within c -> 0 < limit_ c <= INT_MAX -> 0 <= o <= kSlopBytes ->
  valid c (buffer_end_ c + o) -> switched c c' ->
  limit_end = buffer_end_ c' + Z.min 0 (limit_ c - buffer_end_ c') ->
  moves 0 c (buffer_end_ c + o) (relimited (limit_ c - buffer_end_ c') limit_end c') o.
Proof.
  intros Hw Hl Ho [Hv Hu] [HS' Hk He Hwh Ht Hwi Hs Hm Hh Hb] ->.
  pose proof HS' as [? [? ?] ? ? ?]. unfold keep in Hk. simplify_eq.
  unfold BytesUntilLimit, valid, kSlopBytes in *. split; simpl; try done.
  - split; simpl.
    + by split.
    + unfold within; simpl. by apply Hwi.
    + unfold INT_MAX in *. lia.
    + done.
  - unfold valid, BytesUntilLimit, kSlopBytes; simpl. lia.
  - unfold BytesUntilLimit; simpl. lia.
  - change (total c' o = total c (buffer_end_ c + o) - 0). rewrite Ht. lia.
  - intros _. change (whole c' o = zdrop 0 (whole c (buffer_end_ c + o))). by rewrite Hwh by lia.
  - split; [exact Hh|]. rewrite Z.sub_0_r. split; [exact (Hb o)|].
    intros (En & _). unfold measure in Hm. rewrite En in Hm. lia.
Qed.

Lemma moves_ptr_range k c ptr c' ptr' : moves k c ptr c' ptr' -> 0 <= ptr'.
Proof. intros Hm. pose proof (moves_valid _ _ _ _ _ Hm) as [Hv _]. lia. Qed.

(** What the current limit shows is there. *)
Lemma total_pos c ptr :
  within c -> ptr < buffer_end_ c -> 0 < BytesUntilLimit c ptr -> 0 < total c ptr.
Proof.
  unfold within, total, BytesUntilLimit. intros. pose proof (zlen_nonneg (tail c)). lia.
Qed.

(** [Done]: null past the end, true at the end, and otherwise a place before
    [limit_end_]. [tag] is what the last tag is set to at the end. *)
Definition done_post c ptr (r : option Z * bool) c' : Prop :=
  if left_ c ptr <? 0 then r = (None, true) /\ same_depths c c'
  else exists p, (r = (Some p, left_ c ptr =? 0)) /\
  if left_ c ptr =? 0 then
    moves 0 c ptr (set_last_tag_minus_1 (last_tag_minus_1_ c) c') p /\
    last_tag_minus_1_ c' = if BytesUntilLimit c ptr =? 0 then last_tag_minus_1_ c else 1
  else moves 0 c ptr c' p /\ p < limit_end_ c'.

(** The same under the conditions of [DoneFallback]. *)
Record in_slop c (o : Z) : Prop := {
  in_slop_shape : Shape c;
  in_slop_within : within c;
  in_slop_limit : o < limit_ c <= INT_MAX;
  in_slop_range : 0 <= o <= kSlopBytes;
  in_slop_until : limit_ c - o <= INT_MAX;
}.

Definition fallback_post c (o : Z) (r : option Z * bool) c' : Prop :=
  let tot := total c (buffer_end_ c + o) in
  if tot <? 0 then r = (None, true) /\ same_depths c c'
  else exists p, r = (Some p, tot =? 0) /\
  if tot =? 0 then
    moves 0 c (buffer_end_ c + o) (relimited (limit_ c') (buffer_end_ c' + Z.min 0 (limit_ c'))
                                     (set_last_tag_minus_1 (last_tag_minus_1_ c) c')) p /\
    last_tag_minus_1_ c' = 1 /\ limit_end_ c' = buffer_end_ c' + Z.min 0 (limit_ c')
  else moves 0 c (buffer_end_ c + o) c' p /\ p < limit_end_ c'.

Lemma Shape_set_limit l c : Shape c -> Shape (set_limit l c).
Proof. intros []. by split. Qed.

Lemma moves_from k l limit_end c ptr c' ptr' :
  moves k (set_limit l c) ptr c' ptr' -> moves k (relimited l limit_end c) ptr c' ptr'.
Proof. intros []. by split. Qed.

Lemma null_total c o :
  within c -> 0 < limit_ c -> next_chunk_ c = nc_null -> total c (buffer_end_ c + o) = - o.
Proof.
  unfold within, total, allowed, tail. intros Hw Hl En. rewrite En in *. rewrite !zlen_nil in *. zl.
Qed.

Lemma moves_ended c ptr limit_end tag :
  let c' := set_last_tag_minus_1 tag (set_limit_end limit_end c) in
  Shape c -> within c -> 0 < limit_ c <= INT_MAX -> valid c ptr ->
  moves 0 c ptr
    (relimited (limit_ c') (buffer_end_ c' + Z.min 0 (limit_ c'))
       (set_last_tag_minus_1 (last_tag_minus_1_ c) c')) ptr.
Proof.
  intros c' [] Hw Hl Hv.
  split; [split|exact Hv|symmetry; apply Z.sub_0_r|symmetry; apply Z.sub_0_r|done|done|done|].
  - by split.
  - done.
  - unfold INT_MAX in *. simpl. lia.
  - done.
  - change (streams 0 c ptr c ptr). apply streams_same. lia.
Qed.

Lemma DoneFallback_loop_wp n o d c :
  in_slop c o -> (Z.to_nat o < n)%nat -> d < 0 ->
  wp (DoneFallback_loop n o d) c (fallback_post c o).
Proof.
  revert o c. induction n as [|n IH]; intros o c Hin Hn Hd; [lia|]. cbn [DoneFallback_loop].
  pose proof Hin as [HS Hw Hl Ho Hu]. destruct (Z.leb_spec 0 o); [|lia].
  pose proof (shape_end _ HS) as [? ?].
  assert (valid c (buffer_end_ c + o)) as Hv by (unfold valid, BytesUntilLimit; lia).
  apply wp_bind, wp_ret. apply wp_bind.
  destruct (tail_cases c HS) as [[En _]|[En _]].
  - assert (NextBuffer o d c = Some (None, c)) as E by (unfold NextBuffer, mbind_, getS; by rewrite En).
    unfold wp at 1. rewrite E. unfold fallback_post. rewrite null_total by (done || lia).
    destruct (Z.eqb_spec o 0) as [->|]; cbn [negb].
    + wp_steps. destruct (Z.ltb_spec 0 (limit_ c)); [|lia]. apply wp_bind, wp_ret. wp_steps.
      change (- 0) with 0. exists (buffer_end_ c). split; [done|].
      split; [|split; [done|simpl; lia]].
      rewrite Z.add_0_r in *.
      apply moves_ended; done || lia.
    + apply wp_ret. destruct (Z.ltb_spec (- o) 0); [|lia]. split; [done|apply same_depths_refl].
  - wp_use NextBuffer_wp; [done..|]. intros r c1 [-> Hsw]. cbv iota.
    pose proof Hsw as [HS1 Hk1 He1 _ Ht1 Hw1 _ _ _ _]. unfold keep in Hk1. simplify_eq.
    pose proof (shape_end _ HS1) as [? ?]. unfold move_limit.
    repeat (cbv beta iota; wp_step). apply int_wp.
    { rewrite Z.sub_0_r. unfold INT_MAX, kSlopBytes in *. lia. }
    rewrite Z.sub_0_r, Z.add_0_l. wp_steps. cbn [buffer_end_ set_limit].
    pose proof (switched_moves c c1 o _ Hw ltac:(lia) Ho Hv Hsw eq_refl) as Hmv.
    replace (limit_ c1) with (limit_ c) by congruence.
    set (c2 := set_limit (limit_ c - buffer_end_ c1) c1).
    assert (forall q, total c2 (buffer_end_ c2 + q) = total c (buffer_end_ c + (buffer_end_ c1 + q))) as Et.
    { intros q. change (total c1 (buffer_end_ c1 + q) = total c (buffer_end_ c + (buffer_end_ c1 + q))).
      apply Ht1. }
    destruct (Z.leb_spec 0 (o - buffer_end_ c1)).
    + wp_use IH; [|lia|done|].
      { split; simpl; try lia; [by apply Shape_set_limit|by apply Hw1]. }
      intros r c' Hr. unfold fallback_post in *. rewrite Et in Hr.
      replace (buffer_end_ c1 + (o - buffer_end_ c1)) with o in Hr by lia.
      replace (buffer_end_ c2 + (o - buffer_end_ c1)) with o in Hr by (simpl; lia).
      destruct (_ <? 0).
      { destruct Hr as [-> Hr]. split; [done|]. eapply same_depths_trans; [|exact Hr]. by split. }
      destruct Hr as (p & Er & Hr). exists p. split; [done|].
      destruct (_ =? 0).
      * destruct Hr as (Hr & ? & ?). split; [|done].
        apply (moves_trans 0 0 _ _ _ _ _ _ ltac:(lia) ltac:(lia) Hmv).
        replace (last_tag_minus_1_ c) with (last_tag_minus_1_ c2) by (simpl; congruence).
        by apply moves_from.
      * destruct Hr as [Hr ?]. split; [|done].
        apply (moves_trans 0 0 _ _ _ _ _ _ ltac:(lia) ltac:(lia) Hmv). by apply moves_from.
    + unfold place_limit_end. wp_steps. unfold fallback_post.
      assert (0 < total c (buffer_end_ c + o)).
      { replace o with (buffer_end_ c1 + (o - buffer_end_ c1)) by lia. rewrite <- Et.
        apply total_pos; [by apply Hw1|simpl; lia|unfold BytesUntilLimit; simpl; lia]. }
      destruct (Z.ltb_spec (total c (buffer_end_ c + o)) 0); [lia|].
      destruct (Z.eqb_spec (total c (buffer_end_ c + o)) 0); [lia|].
      exists o. split; [done|]. split; [exact Hmv|]. simpl. lia.
Qed.

Lemma DoneWithCheck_wp ptr d c :
  Inv c -> valid c ptr -> d < 0 -> wp (DoneWithCheck ptr d) c (done_post c ptr).
Proof.
  intros HI Hv Hd. pose proof HI as [HS Hw Hl He]. pose proof Hv as [Hp Hu].
  pose proof (shape_end _ HS) as [? ?].
  unfold DoneWithCheck. wp_steps. unfold done_post.
  destruct (Z.ltb_spec ptr (limit_end_ c)).
  { apply wp_ret. assert (0 < left_ c ptr) as Hleft.
    { apply Z.min_glb_lt; [unfold BytesUntilLimit; lia|].
      apply total_pos; [done|lia|unfold BytesUntilLimit; lia]. }
    destruct (Z.ltb_spec (left_ c ptr) 0), (Z.eqb_spec (left_ c ptr) 0); try lia.
    exists ptr. split; [done|]. split; [by apply moves_refl|done]. }
  destruct (Z.leb_spec (ptr - buffer_end_ c) kSlopBytes); [|lia]. apply wp_bind, wp_ret.
  destruct (Z.eqb_spec (ptr - buffer_end_ c) (limit_ c)) as [El|El].
  - assert (BytesUntilLimit c ptr = 0) as Eu by (unfold BytesUntilLimit; lia).
    assert (moves 0 c ptr (set_last_tag_minus_1 (last_tag_minus_1_ c) c) ptr) as Hm.
    { replace (set_last_tag_minus_1 (last_tag_minus_1_ c) c) with c by (by destruct c).
      by apply moves_refl. }
    pose proof (zlen_slop c HS) as Hsl.
    destruct (tail_cases c HS) as [[En Et]|[En [k Et]]].
    + rewrite En. destruct (Z.ltb_spec 0 (ptr - buffer_end_ c)); apply wp_ret.
      * assert (left_ c ptr < 0) as Hleft
          by (unfold left_, total; rewrite Et, zlen_nil; lia).
        by destruct (Z.ltb_spec (left_ c ptr) 0); [|lia].
      * assert (left_ c ptr = 0) as ->.
        { unfold left_. unfold within, total in *. rewrite Et, zlen_nil in *. lia. }
        exists ptr. rewrite Eu. done.
    + assert (left_ c ptr = 0) as ->.
      { unfold left_. unfold within, total in *. rewrite Et in *. unfold kSlopBytes in *. zl. }
      destruct (next_chunk_ c); [done|..]; apply wp_ret; exists ptr; rewrite Eu; done.
  - unfold DoneFallback. wp_steps. destruct (Z.ltb_spec (limit_ c) (ptr - buffer_end_ c)).
    { apply wp_ret. assert (left_ c ptr < 0) as Hleft by (unfold left_, BytesUntilLimit; lia).
      by destruct (Z.ltb_spec (left_ c ptr) 0); [|lia]. }
    destruct (Z.ltb_spec (ptr - buffer_end_ c) (limit_ c)); [|lia].
    destruct (Z.ltb_spec 0 (limit_ c)); [|lia].
    replace (limit_end_ c =? buffer_end_ c + Z.min 0 (limit_ c)) with true by (symmetry; lia).
    replace (limit_end_ c =? buffer_end_ c) with true by (symmetry; lia).
    destruct (Z.eqb_spec (ptr - buffer_end_ c) (limit_ c)); [lia|]. cbn [negb].
    do 5 (apply wp_bind, wp_ret).
    wp_use DoneFallback_loop_wp; [|unfold kSlopBytes in *; lia|done|].
    { split; try done; unfold BytesUntilLimit in *; lia. }
    intros r c' Hr. unfold fallback_post in Hr.
    replace (buffer_end_ c + (ptr - buffer_end_ c)) with ptr in Hr by lia.
    assert (0 < BytesUntilLimit c ptr) as Hup by (unfold BytesUntilLimit; lia).
    assert ((left_ c ptr <? 0) = (total c ptr <? 0)) as -> by (unfold left_; lia).
    assert ((left_ c ptr =? 0) = (total c ptr =? 0)) as -> by (unfold left_; lia).
    destruct (_ <? 0); [done|]. destruct Hr as (p & Er & Hr). exists p. split; [done|].
    destruct (_ =? 0); [|done]. destruct Hr as (Hr & Et & Ele).
    destruct (Z.eqb_spec (BytesUntilLimit c ptr) 0); [lia|]. split; [|done].
    unfold relimited in Hr. simpl in Hr. rewrite <- Ele in Hr. exact Hr.
Qed.

(** ** Next *)

(** The next buffer, with the limit moved: the slop bytes are its first. *)
Record flipped c c' : Prop := {
  flipped_moves : forall o, 0 <= o <= kSlopBytes -> valid c (buffer_end_ c + o) ->
                  moves 0 c (buffer_end_ c + o) c' o;
  flipped_end : 0 < buffer_end_ c';
  flipped_slop : ztake kSlopBytes (memory c') = slop c;
  flipped_measure : (measure c' < measure c)%nat;
}.

Lemma next_buffer_wp c :
  Inv c -> kSlopBytes < limit_ c -> next_chunk_ c <> nc_null ->
  wp Next c (fun r c' => r = Some 0 /\ flipped c c').
Proof.
  intros HI Hl En. pose proof HI as [HS Hw Hr He]. unfold Next. wp_steps.
  destruct (Z.ltb_spec kSlopBytes (limit_ c)); [|lia]. apply wp_bind, wp_ret. wp_steps.
  wp_use NextBuffer_wp; [done|done|done|]. intros r c1 [-> Hsw]. unfold move_limit, place_limit_end.
  pose proof Hsw as [HS1 Hk1 He1 _ Ht1 Hw1 Hs1 Hm1 _ _]. unfold keep in Hk1. simplify_eq.
  pose proof (shape_end _ HS1) as [? ?].
  repeat (cbv beta iota; wp_step). apply int_wp.
  { rewrite Z.sub_0_r. unfold INT_MAX, kSlopBytes in *. lia. }
  rewrite Z.sub_0_r. repeat (cbv beta iota; wp_step). split; [done|].
  replace (limit_ c1) with (limit_ c) by congruence.
  split; try done. intros o Ho Hv. apply switched_moves; try done; try (unfold kSlopBytes in *; lia).
Qed.

Lemma BytesAvailable_wp c ptr Q :
  Inv c -> valid c ptr -> Q (buffer_end_ c + kSlopBytes - ptr) c -> wp (BytesAvailable ptr) c Q.
Proof.
  intros HI [Hv _] HQ. pose proof (shape_end _ (inv_shape _ HI)) as [? ?].
  unfold BytesAvailable. wp_steps.
  destruct (Z.leb_spec 0 (buffer_end_ c + kSlopBytes - ptr)); [|lia]. apply wp_bind, wp_ret.
  destruct (Z.leb_spec (buffer_end_ c + kSlopBytes - ptr) INT_MAX); [|lia].
  by repeat (apply wp_bind || apply wp_ret).
Qed.

(** ** Reading many bytes *)

Lemma match_chunk {A} (nc : chunk_pointer) (a b : A) :
  nc <> nc_null -> match nc with nc_null => a | _ => b end = b.
Proof. by destruct nc. Qed.

Section append.
Context {X : Type} (append : callback (X := X)).

(** What the callback does: [P] relates the bytes it has been given to its state,
    and [F] says that it stopped at them. *)
Context (P : list byte -> X -> Prop) (F : list byte -> Prop).
Hypothesis append_ok : forall l bytes x, P l x ->
  wp (append bytes) x (fun ok x' => if ok : bool then P (l ++ bytes) x' else F (l ++ bytes)).

(** [B] are the next bytes, as far as there are any. *)
Definition reads c ptr (B : list byte) : Prop :=
  zlen B <= total c ptr -> B = ztake (zlen B) (whole c ptr).

Definition append_post size c ptr (l : list byte) (r : option Z) (cx : C * X) : Prop :=
  match r with
  | Some q => exists B, zlen B = size /\ reads c ptr B /\ moves size c ptr cx.1 q /\ P (l ++ B) cx.2
  | None => same_depths c cx.1 /\ (left_ c ptr < size \/
      exists B, zlen B <= size /\ reads c ptr B /\ F (l ++ B))
  end.

Lemma reads_app c ptr A c' ptr' B :
  Inv c -> 0 <= ptr ->
  moves (zlen A) c ptr c' ptr' -> reads c ptr A -> reads c' ptr' B -> reads c ptr (A ++ B).
Proof.
  intros HI Hp Hm HA HB Hl. rewrite zlen_app in *. pose proof (zlen_nonneg A). pose proof (zlen_nonneg B).
  pose proof (moves_total _ _ _ _ _ Hm). pose proof (moves_whole _ _ _ _ _ Hm ltac:(lia)) as Ew.
  destruct (ztake_split (zlen A) (zlen B) (whole c ptr)) as [->|]; [lia| |lia].
  rewrite <- Ew, <- HA, <- HB by lia. done.
Qed.

Lemma load_reads c ptr n Q :
  Inv c -> valid c ptr -> 0 <= n -> ptr + n <= buffer_end_ c + kSlopBytes ->
  (forall B, zlen B = n -> reads c ptr B -> Q B c) -> wp (load ptr n) c Q.
Proof.
  intros HI [Hv _] Hn Hle HQ. apply load_wp; [apply HI|lia|done|done|].
  pose proof (shape_end _ (inv_shape _ HI)).
  assert (zlen (ztake n (zdrop ptr (memory c))) = n) as El by zl.
  apply HQ; [done|]. intros Ht. rewrite El in *. apply window; [apply HI|lia|done|done].
Qed.

Lemma AppendSize_loop_wp n c ptr size x l :
  Inv c -> valid c ptr -> buffer_end_ c + kSlopBytes - ptr < size -> (measure c < n)%nat -> P l x ->
  wp (AppendSize_loop n ptr (buffer_end_ c + kSlopBytes - ptr) size append) (c, x)
    (append_post size c ptr l).
Proof.
  revert c ptr size x l. induction n as [|n IH]; intros c ptr size x l HI Hv Hs Hn HP; [lia|].
  cbn [AppendSize_loop]. pose proof Hv as [Hp Hu]. pose proof (inv_shape _ HI) as HS.
  pose proof (shape_end _ HS) as [? ?]. pose proof (inv_limit _ HI).
  set (k := buffer_end_ c + kSlopBytes - ptr) in *.
  destruct (Z.ltb_spec k size); [|lia]. apply wp_bind, wp_ret. apply wp_bind, on_fst_wp, wp_getS.
  destruct (tail_cases c HS) as [[En Et]|[En _]].
  { rewrite En. apply wp_ret. split; [done|left]. unfold left_, total. rewrite Et, zlen_nil.
    unfold k, kSlopBytes in *. lia. }
  rewrite (match_chunk _ _ _ En).
  apply wp_bind, on_fst_wp. apply load_reads; [done|done|lia|unfold k; lia|]. intros B HB HrB.
  apply wp_bind, on_snd_wp. wp_use append_ok; [exact HP|]. intros [] x1 HP1; cbn [negb]; cycle 1.
  { apply wp_ret. split; [done|right]. exists B. split_and!; [lia|done|done]. }
  destruct (Z.leb_spec (limit_ c) kSlopBytes).
  { apply wp_ret. split; [done|left]. unfold left_, BytesUntilLimit. unfold k in *. lia. }
  apply wp_bind, on_fst_wp. wp_use next_buffer_wp; [done|done|done|]. intros r c1 [-> [Hfm Hfe _ Hfs]].
  rewrite Z.add_0_l.
  assert (moves k c ptr c1 kSlopBytes) as Hm.
  { replace k with (k + 0) by lia. eapply moves_trans; [lia|lia|apply moves_add; done || lia|].
    replace (ptr + k) with (buffer_end_ c + kSlopBytes) by lia.
    apply Hfm; [unfold kSlopBytes; lia|]. unfold valid, BytesUntilLimit in *. unfold kSlopBytes in *. lia. }
  pose proof (moves_inv _ _ _ _ _ Hm) as HI1. pose proof (moves_valid _ _ _ _ _ Hm) as Hv1.
  apply wp_bind, on_fst_wp, BytesAvailable_wp; [done|done|].
  destruct (Z.ltb_spec (buffer_end_ c1 + kSlopBytes - kSlopBytes) (size - k)) as [Hlt|Hge].
  - wp_use IH; [done|done|done|lia|exact HP1|]. intros r [c2 x2] Hr. unfold append_post in *.
    destruct r as [q|].
    + destruct Hr as (B2 & HB2 & HrB2 & Hm2 & HP2). exists (B ++ B2). rewrite app_assoc.
      split_and!; [zl| |replace size with (k + (size - k)) by lia; eapply moves_trans;
                        [lia|lia|done|done]|done].
      rewrite <- HB in Hm. eapply reads_app; [done|lia|done|done|done].
    + destruct Hr as [HI2 Hr]. split; [eapply same_depths_trans; [apply Hm|exact HI2]|]. rewrite (moves_left _ _ _ _ _ Hm) in Hr.
      destruct Hr as [Hr|(B2 & HB2 & HrB2 & HF)]; [left; lia|right]. exists (B ++ B2).
      rewrite app_assoc. split_and!; [zl| |done].
      rewrite <- HB in Hm. eapply reads_app; [done|lia|done|done|done].
  - apply wp_bind, on_fst_wp. apply load_reads; [done|done|lia|lia|]. intros B2 HB2 HrB2.
    apply wp_bind, on_snd_wp. wp_use append_ok; [exact HP1|].
    assert (reads c ptr (B ++ B2)) as HrBB.
    { rewrite <- HB in Hm. eapply reads_app; [done|lia|done|done|done]. }
    intros [] x2 HP2; cbn [negb]; apply wp_ret; unfold append_post; cbn [fst snd]; cycle 1.
    { split; [apply Hm|right]. exists (B ++ B2). rewrite app_assoc. split_and!; [zl|done|done]. }
    exists (B ++ B2). rewrite app_assoc. split_and!; [zl|done| |done].
    replace size with (k + (size - k)) by lia. eapply moves_trans; [lia|lia|done|].
    replace (kSlopBytes + (k + (size - k) - k)) with (kSlopBytes + (size - k)) by lia.
    apply moves_add; done || lia.
Qed.

Lemma AppendSize_wp c ptr size x :
  Inv c -> valid c ptr -> buffer_end_ c + kSlopBytes - ptr < size -> P [] x ->
  wp (AppendSize ptr size append) (c, x) (append_post size c ptr []).
Proof.
  intros HI Hv Hs HP. unfold AppendSize. apply wp_bind, on_fst_wp, BytesAvailable_wp; [done|done|].
  apply wp_bind, on_fst_wp, wp_getS. apply AppendSize_loop_wp; try done.
  unfold measure, buffers_left, stream_bound. destruct (next_chunk_ c), (zcis_ c); lia.
Qed.
End append.

(** What is read inside of the visible bytes are their first. *)
Lemma reads_visible c ptr B :
  reads c ptr B -> zlen B <= left_ c ptr -> B = ztake (zlen B) (visible c ptr).
Proof.
  unfold left_. intros HB Hl. rewrite HB by lia. unfold visible. rewrite !ztake_ztake. f_equal.
  rewrite zlen_ztake. pose proof (zlen_nonneg B).
  assert (zlen B <= zlen (whole c ptr)) by (rewrite (HB ltac:(lia)) at 1; zl). lia.
Qed.

Definition string_post size c ptr (s : list byte) (r : option Z) (cs : C * list byte) : Prop :=
  match r with
  | Some q => moves size c ptr cs.1 q /\
              exists B, zlen B = size /\ reads c ptr B /\ cs.2 = s ++ B
  | None => same_depths c cs.1 /\ left_ c ptr < size
  end.

Lemma AppendStringFallback_wp c ptr size s :
  Inv c -> valid c ptr -> buffer_end_ c + kSlopBytes - ptr < size ->
  wp (AppendStringFallback ptr size) (c, s) (string_post size c ptr s).
Proof.
  intros HI Hv Hs. unfold AppendStringFallback.
  wp_use (AppendSize_wp str_append (fun l s' => s' = s ++ l) (fun _ => False)); try done.
  - intros l bytes x ->. unfold str_append. wp_steps. by rewrite app_assoc.
  - by rewrite app_nil_r.
  - intros [q|] [c' s']; simpl.
    + intros (B & ? & ? & ? & ->). split; [done|]. by exists B.
    + intros [? [?|(B & _ & _ & [])]]. done.
Qed.

Lemma AppendString_wp c ptr size s :
  Inv c -> valid c ptr -> 0 <= size ->
  wp (AppendString ptr size) (c, s) (string_post size c ptr s).
Proof.
  intros HI Hv Hs. unfold AppendString. apply wp_bind, on_fst_wp, BytesAvailable_wp; [done|done|].
  destruct (Z.leb_spec size (buffer_end_ c + kSlopBytes - ptr)).
  - apply wp_bind, on_fst_wp, load_reads; [done|done|done|lia|]. intros B HB HrB.
    apply wp_bind, on_snd_wp, wp_modS, wp_ret. unfold string_post; cbn [fst snd]. split; [apply moves_add; done || lia|].
    by exists B.
  - apply AppendStringFallback_wp; done || lia.
Qed.

Lemma string_wp c ptr size s :
  Inv c -> valid c ptr -> 0 <= size ->
  wp (ReadString ptr size) (c, s) (string_post size c ptr []).
Proof.
  intros HI Hv Hs. unfold ReadString. apply wp_bind, on_fst_wp, BytesAvailable_wp; [done|done|].
  destruct (Z.leb_spec size (buffer_end_ c + kSlopBytes - ptr)).
  - apply wp_bind, on_fst_wp, load_reads; [done|done|done|lia|]. intros B HB HrB.
    apply wp_bind, on_snd_wp. unfold wp at 1, putS. apply wp_ret.
    unfold string_post; cbn [fst snd]. split; [apply moves_add; done || lia|]. by exists B.
  - unfold ReadStringFallback. apply wp_bind, on_snd_wp. unfold wp at 1, putS.
    apply AppendStringFallback_wp; done || lia.
Qed.

Definition skip_post size c ptr (r : option Z) (cx : C * unit) : Prop :=
  match r with
  | Some q => moves size c ptr cx.1 q
  | None => same_depths c cx.1 /\ left_ c ptr < size
  end.

Lemma Skip_wp c ptr size x :
  Inv c -> valid c ptr -> 0 <= size -> wp (Skip ptr size) (c, x) (skip_post size c ptr).
Proof.
  intros HI Hv Hs. unfold Skip. apply wp_bind, on_fst_wp, BytesAvailable_wp; [done|done|].
  destruct (Z.leb_spec size (buffer_end_ c + kSlopBytes - ptr)).
  - apply wp_ret. cbn [fst skip_post]. apply moves_add; done || lia.
  - unfold SkipFallback. wp_use (AppendSize_wp (X := unit) (fun _ => ret true) (fun _ _ => True) (fun _ => False));
      [by intros|done|done|lia|done|]. intros [q|] [c' []].
    + by intros (B & _ & _ & ? & _).
    + by intros [? [?|(B & _ & _ & [])]].
Qed.

(** ** Giving bytes back

    At the end of what there is, or beyond it, [BackUp] returns to the stream what
    the overall limit hides. *)

(** The bytes the context holds but has not shown as its buffer. *)
Definition held c : Z :=
  match next_chunk_ c with nc_null => 0 | nc_patch => kSlopBytes | nc_data d => zlen d end.

Lemma back_up_count c ptr Q :
  Shape c -> zcis_ c <> None -> 0 <= ptr <= buffer_end_ c + kSlopBytes ->
  held c + buffer_end_ c - ptr <= INT_MAX ->
  wp (if 0 <? held c + buffer_end_ c - ptr then StreamBackUp (held c + buffer_end_ c - ptr) else ret tt) c Q ->
  wp (BackUp ptr) c Q.
Proof.
  intros HS Hz Hp Hmax HQ. pose proof (shape_end _ HS) as [? ?]. pose proof (shape_next _ HS) as Hn.
  unfold BackUp. wp_steps. destruct (Z.leb_spec ptr (buffer_end_ c + kSlopBytes)); [|lia].
  apply wp_bind, wp_ret. wp_steps. unfold held in HQ, Hmax. destruct (next_chunk_ c) as [| |d].
  - destruct Hn as [_ Hn]. destruct (zcis_ c); [|done]. rewrite Hn.
    apply int_wp; [unfold kSlopBytes, INT_MAX in *; lia|].
    by replace (0 + (buffer_end_ c - ptr)) with (0 + buffer_end_ c - ptr) by lia.
  - unfold BytesAvailable. wp_steps.
    destruct (Z.leb_spec 0 (buffer_end_ c + kSlopBytes - ptr)); [|lia]. apply wp_bind, wp_ret.
    destruct (Z.leb_spec (buffer_end_ c + kSlopBytes - ptr) INT_MAX); [|lia].
    wp_steps.
    by replace (kSlopBytes + buffer_end_ c - ptr) with (buffer_end_ c + kSlopBytes - ptr) in HQ by lia.
  - destruct Hn as (Ee & Es & Hd & _). rewrite Es.
    apply int_wp; [unfold kSlopBytes, INT_MAX in *; lia|].
    by replace (zlen d + (buffer_end_ c - ptr)) with (zlen d + buffer_end_ c - ptr) by lia.
Qed.

Lemma StreamBackUp_wp count c z :
  zcis_ c = Some z -> stream_ok z -> 0 < count <= - overall_limit_ c ->
  - overall_limit_ c <= zlen (backable z) -> - INT_MAX <= overall_limit_ c ->
  wp (StreamBackUp count) c (fun _ c' => last_tag_minus_1_ c' = last_tag_minus_1_ c /\
    exists z', zcis_ c' = Some z' /\ stream_ok z' /\
    (count = - overall_limit_ c -> content z' = hidden c)).
Proof.
  intros Ez Hok Hc Hb Ho. unfold StreamBackUp. wp_steps. rewrite Ez.
  destruct (wp_inv _ _ _ (backup_ok z count Hok ltac:(lia))) as ([] & z' & E & Hok' & Ec & _).
  apply wp_bind. eapply wp_lift; [exact E|]. cbv beta iota. wp_steps.
  apply int_wp; [unfold INT_MAX in *; lia|]. wp_steps. split; [done|].
  exists z'. split; [done|]. split; [done|]. intros ->. rewrite Ec. unfold hidden.
  rewrite Ez, (proj2 (Z.ltb_lt (overall_limit_ c) 0)) by lia. f_equal. f_equal. lia.
Qed.

Lemma BackUp_end_wp c ptr :
  Shape c -> zcis_ c <> None -> 0 <= ptr <= buffer_end_ c + kSlopBytes -> total c ptr <= 0 ->
  wp (BackUp ptr) c (fun _ c' => last_tag_minus_1_ c' = last_tag_minus_1_ c /\
    exists z', zcis_ c' = Some z' /\ stream_ok z' /\ (total c ptr = 0 -> content z' = hidden c)).
Proof.
  intros HS Hz Hp Ht. pose proof HS as [_ He Hs Hn Ho].
  destruct (zcis_ c) as [z|] eqn:Ez; [|done]. destruct Hs as (Hok & Hl & Hb).
  pose proof (zlen_nonneg (content z)) as Hc. pose proof (zlen_slop c HS) as Hsl.
  assert (allowed c = overall_limit_ c + held c) as Ea by done.
  assert (held c <= zlen (tail c) /\ (next_chunk_ c = nc_null -> overall_limit_ c <= 0 /\ held c = 0) /\
          (next_chunk_ c <> nc_null -> held c + buffer_end_ c - ptr = 0 /\ zlen (tail c) = held c + zlen (content z)
           \/ 0 < held c + buffer_end_ c - ptr)) as (Hh & Hnull & Hdata).
  { unfold held, tail, stream_rest. rewrite Ez. destruct (next_chunk_ c) as [| |d].
    - change (zlen []) with 0. split; [lia|]. split; [by intros _; split; [apply Hn|]|done].
    - rewrite zlen_app, Hsl. split; [lia|]. split; [done|]. intros _. lia.
    - destruct Hn as (? & ? & ? & _). rewrite zlen_app. split; [lia|]. split; [done|]. intros _.
      unfold kSlopBytes in *. lia. }
  unfold total in *. rewrite Ea in *. apply back_up_count; [done|by rewrite Ez|done|lia|].
  destruct (Z.ltb_spec 0 (held c + buffer_end_ c - ptr)) as [Hpos|Hneg].
  - assert (next_chunk_ c = nc_null \/ next_chunk_ c <> nc_null) as Hcase
      by (destruct (next_chunk_ c); auto).
    assert (0 < held c + buffer_end_ c - ptr <= - overall_limit_ c /\ overall_limit_ c <= zlen (tail c) - held c) as [Hr Hle].
    { destruct Hcase as [En|En]; [destruct (Hnull En)|]; lia. }
    wp_use StreamBackUp_wp; [exact Ez|done|done|apply Hb; lia|lia|].
    intros [] c' (Et & z' & ? & ? & Hz'). split; [done|]. exists z'. split; [done|]. split; [done|].
    intros E. apply Hz'. lia.
  - apply wp_ret. split; [done|]. exists z. split; [done|]. split; [done|]. intros E.
    assert (0 <= overall_limit_ c /\ (overall_limit_ c = 0 \/ content z = [])) as [Ho0 Hor].
    { destruct (next_chunk_ c) as [| |d] eqn:En.
      - destruct (Hnull eq_refl). split; [|left]; lia.
      - destruct (Hdata ltac:(done)) as [[? ?]|?]; [|lia].
        destruct (Z.eq_dec (overall_limit_ c) 0); [split; [|left]; lia|].
        split; [lia|right]. apply zlen_0. lia.
      - destruct (Hdata ltac:(done)) as [[? ?]|?]; [|lia].
        destruct (Z.eq_dec (overall_limit_ c) 0); [split; [|left]; lia|].
        split; [lia|right]. apply zlen_0. lia. }
    unfold hidden. rewrite Ez, (proj2 (Z.ltb_ge (overall_limit_ c) 0)) by lia.
    destruct Hor as [-> | ->]; [by rewrite zdrop_0 by lia|]. unfold zdrop. by rewrite drop_nil.
Qed.
End spec.
