(* ===== verification/ParseContext.v ===== *)
(** * The pointer-based parser

    [ParseContext] of [parse_context.h] and [parse_context.cc]: nested messages
    and groups, the parser of fields that have no declaration ([FieldParser],
    [WireFormatParser]) with its two clients, the one of
    [unknown_field_set.cc] that makes an [UnknownFieldSet] and the one that makes
    a string, and the entry points of [message_lite.cc]. What a parser fills is the second object of the state. *)

From S2P Require Import Prelude Varint ZeroCopyStream WireFormatLite UnknownFields PointerDecoders EpsCopyInput.

(** ** Groups and nested messages *)

Section context.
Context {S : Type} `{ZeroCopyInputStreamOk S}.
Notation C := (t S).

Definition TrackCorrectEnding : M C unit := modS (fun c => set_depths (depth_ c) 0 c).

Definition Done (ptr : Z) : M C (option Z * bool) :=
  let* c := getS in DoneWithCheck ptr (group_depth_ c).

Definition set_depth (depth : Z) : M C unit := modS (fun c => set_depths depth (group_depth_ c) c).
Definition set_group_depth (depth : Z) : M C unit := modS (fun c => set_depths (depth_ c) depth c).

(** The new pointer and the token. *)
Definition ReadSizeAndPushLimitAndDepthInlined (ptr : Z) : M C (option (Z * LimitToken)) :=
  let* (q, size) := decode ReadSize ptr in
  let* c := getS in
  match q with
  | None => ret None
  | Some ptr =>
      if depth_ c <=? 0 then ret None else
      let* old_limit := PushLimit ptr size in
      set_depth (depth_ c - 1) ;;; ret (Some (ptr, old_limit))
  end.

Section inlined.
Context {X : Type} (func : Z -> M (C * X) (option Z)).

Definition ParseLengthDelimitedInlined (ptr : Z) : M (C * X) (option Z) :=
  let* r := on_fst (ReadSizeAndPushLimitAndDepthInlined ptr) in
  match r with
  | None => ret None
  | Some (ptr, old) =>
      let* old_depth := on_fst (gets depth_) in
      let* r := func ptr in
      let* depth := on_fst (gets depth_) in
      dcheck (match r with Some _ => old_depth =? depth | None => true end) ;;;
      let* depth := on_fst (int_ (depth + 1)) in
      on_fst (set_depth depth) ;;;
      let* ok := on_fst (PopLimit old) in
      ret (if ok : bool then r else None)
  end.

Definition ParseGroupInlined (ptr start_tag : Z) : M (C * X) (option Z) :=
  let* depth := on_fst (gets depth_) in
  let* depth := on_fst (int_ (depth - 1)) in
  on_fst (set_depth depth) ;;;
  if depth <? 0 then ret None else
  let* group_depth := on_fst (gets group_depth_) in
  let* group_depth := on_fst (int_ (group_depth + 1)) in
  on_fst (set_group_depth group_depth) ;;;
  let* r := func ptr in
  let* c := on_fst getS in
  dcheck (match r with
          | Some _ => (depth =? depth_ c) && (group_depth =? group_depth_ c)
          | None => true
          end) ;;;
  let* group_depth := on_fst (int_ (group_depth_ c - 1)) in
  let* depth := on_fst (int_ (depth_ c + 1)) in
  on_fst (set_group_depth group_depth) ;;; on_fst (set_depth depth) ;;;
  let* ok := on_fst (ConsumeEndGroup start_tag) in
  ret (if ok : bool then r else None).
End inlined.
End context.

(** ** Fields without a declaration

    The template parameter [T] of [FieldParser]: what is done with each kind of
    field. [ParseGroup] gets the parser of the fields of a group. *)

Record field_parser (S X : Type) := {
  AddVarint : Z -> Z -> X -> X;
  AddFixed64 : Z -> Z -> X -> X;
  AddFixed32 : Z -> Z -> X -> X;
  ParseLengthDelimited : Z -> Z -> M (t S * X) (option Z);
  ParseGroup : (Z -> M (t S * X) (option Z)) -> Z -> Z -> M (t S * X) (option Z);
}.
Arguments AddVarint {S X}.
Arguments AddFixed64 {S X}.
Arguments AddFixed32 {S X}.
Arguments ParseLengthDelimited {S X}.
Arguments ParseGroup {S X}.

Section parser.
Context {S : Type} `{ZeroCopyInputStreamOk S}.
Context {X : Type} (T : field_parser S X).
Notation C := (t S).

Definition FieldParser_ (WireFormatParser : Z -> M (C * X) (option Z)) (tag ptr : Z)
    : M (C * X) (option Z) :=
  let number := u32 (Z.shiftr tag 3) in
  if number =? 0 then ret None else
  match Z.land tag 7 with
  | 0 =>
      let* (q, value) := on_fst (decode VarintParse64 ptr) in
      match q with
      | None => ret None
      | Some ptr => on_snd (modS (AddVarint T number value)) ;;; ret (Some ptr)
      end
  | 1 =>
      let* bytes := on_fst (load ptr 8) in
      on_snd (modS (AddFixed64 T number (le_value bytes))) ;;; ret (Some (ptr + 8))
  | 2 => ParseLengthDelimited T number ptr
  | 3 => ParseGroup T WireFormatParser number ptr
  | 4 => undef
  | 5 =>
      let* bytes := on_fst (load ptr 4) in
      on_snd (modS (AddFixed32 T number (le_value bytes))) ;;; ret (Some (ptr + 4))
  | _ => ret None
  end.

(** [n] bounds the number of tags, those of nested groups included. *)
Fixpoint WireFormatParser_loop (n : nat) (ptr : Z) : M (C * X) (option Z) :=
  match n with
  | O => undef
  | Datatypes.S n =>
      let* (r, done) := on_fst (Done ptr) in
      match r with
      | None => if done : bool then ret None else undef
      | Some ptr =>
          if done : bool then ret (Some ptr) else
          let* (q, tag) := on_fst (decode ReadTag ptr) in
          match q with
          | None => ret None
          | Some ptr =>
              if (tag =? 0) || (Z.land tag 7 =? 4) then
                on_fst (SetLastTag tag) ;;; ret (Some ptr)
              else
                let* r := FieldParser_ (WireFormatParser_loop n) tag ptr in
                match r with
                | None => ret None
                | Some ptr => WireFormatParser_loop n ptr
                end
          end
      end
  end.

(** A tag is at least a byte. *)
Definition bytes_left (c : C) : nat :=
  (2 + length (memory c) +
   match next_chunk_ c with nc_data d => length d | _ => 16 end +
   match zcis_ c with Some z => length (content z) | None => 0 end)%nat.

Definition WireFormatParser (ptr : Z) : M (C * X) (option Z) := fun s =>
  WireFormatParser_loop (bytes_left s.1) ptr s.

Definition FieldParser (tag ptr : Z) : M (C * X) (option Z) := fun s =>
  FieldParser_ (WireFormatParser_loop (bytes_left s.1)) tag ptr s.
End parser.

(** *** The parser of [unknown_field_set.cc] *)

Section unknown.
Context {S : Type} `{ZeroCopyInputStreamOk S}.
Notation C := (t S).

(** A call on the string, or the set, that [AddLengthDelimited] or [AddGroup]
    has made: it is in the set whatever the call returns. *)
Definition in_string {A} (number : Z) (m : M (C * list byte) A) : M (C * UnknownFieldSet) A :=
  fun s =>
    match m (s.1, []) with
    | Some (a, (c, value)) => Some (a, (c, AddLengthDelimited number value s.2))
    | None => None
    end.
Definition in_group {A} (number : Z) (m : M (C * UnknownFieldSet) A) : M (C * UnknownFieldSet) A :=
  fun s =>
    match m (s.1, []) with
    | Some (a, (c, group)) => Some (a, (c, AddGroup number group s.2))
    | None => None
    end.

Definition UnknownFieldParserHelper : field_parser S UnknownFieldSet := {|
  AddVarint := UnknownFields.AddVarint;
  AddFixed64 := UnknownFields.AddFixed64;
  AddFixed32 := UnknownFields.AddFixed32;
  ParseLengthDelimited num ptr :=
    in_string num (
      let* (q, size) := on_fst (decode ReadSize ptr) in
      match q with
      | None => ret None
      | Some ptr => ReadString ptr size
      end);
  ParseGroup WireFormatParser num ptr :=
    ParseGroupInlined (fun ptr => in_group num (WireFormatParser ptr)) ptr (u32 (num * 8 + 3));
|}.

Definition UnknownGroupParse : Z -> M (C * UnknownFieldSet) (option Z) :=
  WireFormatParser UnknownFieldParserHelper.
Definition UnknownFieldParse : Z -> Z -> M (C * UnknownFieldSet) (option Z) :=
  FieldParser UnknownFieldParserHelper.

(** *** The parser that keeps the bytes *)

(** [WriteVarint(val, s)]: the bytes that are appended. *)
Fixpoint WriteVarint_loop (n : nat) (val : Z) : list byte :=
  match n with
  | O => []
  | Datatypes.S n =>
      if 128 <=? val then z2b (Z.lor val 0x80) :: WriteVarint_loop n (Z.shiftr val 7) else [z2b val]
  end.
Definition WriteVarint (val : Z) : list byte := WriteVarint_loop 10 val.

(** The overloads for a field; [num] and its shift are 32 bits wide. *)
Definition WriteVarintField (num val : Z) (s : list byte) : list byte :=
  s ++ WriteVarint (u32 (Z.shiftl num 3)) ++ WriteVarint val.
Definition WriteLengthDelimited (num : Z) (val s : list byte) : list byte :=
  s ++ WriteVarint (u32 (u32 (Z.shiftl num 3) + 2)) ++ WriteVarint (zlen val) ++ val.

(** [unknown_] may be null. *)
Definition append_unknown (bytes : list byte) : option (list byte) -> option (list byte) :=
  option_map (fun s => s ++ bytes).

(** A call on the string, or of something that has none. *)
Definition on_string {A} (m : M (C * list byte) A) : M (C * option (list byte)) A := fun s =>
  match s.2 with
  | Some str =>
      match m (s.1, str) with Some (a, (c, str)) => Some (a, (c, Some str)) | None => None end
  | None => None
  end.
Definition without_string {A} (m : M (C * unit) A) : M (C * option (list byte)) A := fun s =>
  match m (s.1, tt) with Some (a, (c, _)) => Some (a, (c, s.2)) | None => None end.

Definition UnknownFieldLiteParserHelper : field_parser S (option (list byte)) := {|
  AddVarint num value :=
    append_unknown (WriteVarint (u32 (num * 8)) ++ WriteVarint value);
  AddFixed64 num value :=
    append_unknown (WriteVarint (u32 (num * 8 + 1)) ++ WriteLittleEndian64ToArray value);
  AddFixed32 num value :=
    append_unknown (WriteVarint (u32 (num * 8 + 5)) ++ WriteLittleEndian32ToArray value);
  ParseLengthDelimited num ptr :=
    let* (q, size) := on_fst (decode ReadSize ptr) in
    match q with
    | None => ret None
    | Some ptr =>
        let* s := getS in
        match s.2 with
        | None => without_string (Skip ptr size)
        | Some _ =>
            on_snd (modS (append_unknown (WriteVarint (u32 (num * 8 + 2))))) ;;;
            on_snd (modS (append_unknown (WriteVarint size))) ;;;
            on_string (AppendString ptr size)
        end
    end;
  ParseGroup WireFormatParser num ptr :=
    on_snd (modS (append_unknown (WriteVarint (u32 (num * 8 + 3))))) ;;;
    let* r := ParseGroupInlined WireFormatParser ptr (u32 (num * 8 + 3)) in
    match r with
    | None => ret None
    | Some ptr =>
        on_snd (modS (append_unknown (WriteVarint (u32 (num * 8 + 4))))) ;;; ret (Some ptr)
    end;
|}.

Definition UnknownGroupLiteParse : Z -> M (C * option (list byte)) (option Z) :=
  WireFormatParser UnknownFieldLiteParserHelper.
Definition UnknownFieldLiteParse : Z -> Z -> M (C * option (list byte)) (option Z) :=
  FieldParser UnknownFieldLiteParserHelper.
End unknown.

(** ** The entry points of [message_lite.cc]

    The three [MergeFromImpl]. The parse loop and the check of the required
    fields are generated code: they are arguments. The message is [x]. *)

Section merge.
Context {S : Type} `{ZeroCopyInputStreamOk S}.
Context {X : Type} (ParseLoop : Z -> M (t S * X) (option Z)) (CheckFieldPresence : X -> bool).
Context (depth : Z) (aliasing : bool).
Notation C := (t S).

Definition MergeFromImpl_flat (input : list byte) : M (C * X) bool :=
  on_fst (putS (fresh depth aliasing)) ;;;
  let* ptr := on_fst (InitFrom_flat input) in
  let* r := ParseLoop ptr in
  let* s := getS in
  match r with
  | Some _ => ret (if EndedAtLimit s.1 then CheckFieldPresence s.2 else false)
  | None => ret false
  end.

Definition MergeFromImpl_zcis (input : S) : M (C * X) bool :=
  on_fst (putS (fresh depth aliasing)) ;;;
  let* ptr := on_fst (InitFrom_zcis input) in
  let* r := ParseLoop ptr in
  let* s := getS in
  match r with
  | Some _ => ret (if EndedAtEndOfStream s.1 then CheckFieldPresence s.2 else false)
  | None => ret false
  end.

Definition MergeFromImpl_bounded (input : S) (limit : Z) : M (C * X) bool :=
  on_fst (putS (fresh depth aliasing)) ;;;
  let* ptr := on_fst (InitFrom_bounded input limit) in
  let* r := ParseLoop ptr in
  match r with
  | Some ptr =>
      on_fst (EpsCopyInput.BackUp ptr) ;;;
      let* s := getS in
      ret (if EndedAtLimit s.1 then CheckFieldPresence s.2 else false)
  | None => ret false
  end.
End merge.
