(* ===== verification/ParseContextSpec.v ===== *)
(** * What the pointer-based parser does

    [parse] reads fields off a list of bytes, with the limits of this parser: a
    tag of at most five bytes, a size of at most five that [PushLimit] accepts.
    [WireFormatParser] does what it says with the visible bytes of any stream.
    Where [parse] fails the code may still return a pointer, but one that is past
    what is visible, and every caller finds that out. *)

From S2P Require Import Prelude Varint ZeroCopyStream WireFormatLite UnknownFields UnknownFieldsSpec PointerDecoders EpsCopyInput EpsCopyInputSpec ParseContext.

#[local] Arguments vdecode : simpl never.

(** ** The parser of lists *)

(** At the end of the list, at a zero or end-group tag, or not at all. *)
Inductive outcome :=
  | ended
  | stopped (tag : Z) (rest : list byte)
  | failed.

Definition tag_decode (l : list byte) : option (Z * list byte) :=
  '(x, r) ← vdecode 5 l; Some (u32 x, r).

(** A size and as many bytes. *)
Definition read_string (l : list byte) : option (list byte * list byte) :=
  '(x, r) ← size_decode l; parse_bytes x r.

Definition read_field (read_rest : list byte -> list UnknownField * outcome)
    (depth tag : Z) (l : list byte) : option (UnknownField * list byte) :=
  let number := GetTagFieldNumber tag in
  if number =? 0 then None else
  match GetTagWireType tag with
  | 0 => '(x, r) ← vdecode 10 l; Some (VARINT number (u64 x), r)
  | 1 => '(b, r) ← parse_bytes 8 l; Some (FIXED64 number (le_value b), r)
  | 2 => '(b, r) ← read_string l; Some (LENGTH_DELIMITED number b, r)
  | 3 =>
      if depth - 1 <? 0 then None else
      match read_rest l with
      | (fs, stopped tag' r) =>
          if tag' =? MakeTag number WIRETYPE_END_GROUP then Some (GROUP number fs, r) else None
      | _ => None
      end
  | 5 => '(b, r) ← parse_bytes 4 l; Some (FIXED32 number (le_value b), r)
  | _ => None
  end.

Fixpoint read_fields (n : nat) (depth : Z) (l : list byte) : list UnknownField * outcome :=
  match n with
  | O => ([], failed)
  | S n =>
      match l with
      | [] => ([], ended)
      | _ =>
          match tag_decode l with
          | None => ([], failed)
          | Some (tag, r) =>
              if (tag =? 0) || (GetTagWireType tag =? WIRETYPE_END_GROUP) then ([], stopped tag r) else
              match read_field (read_fields n (depth - 1)) depth tag r with
              | Some (f, r) => let (fs, e) := read_fields n depth r in (f :: fs, e)
              | None => ([], failed)
              end
          end
      end
  end.

Definition read (depth : Z) (l : list byte) : list UnknownField * outcome :=
  read_fields (S (length l)) depth l.

(** *** Fuel *)

Lemma tag_decode_suffix l tag r :
  tag_decode l = Some (tag, r) -> is_u32 tag /\ exists c, l = c ++ r /\ (0 < length c <= 5)%nat.
Proof.
  unfold tag_decode. destruct (vdecode 5 l) as [[x r']|] eqn:E; simpl; [|done].
  intros [= <- <-]. split; [apply u32_range|]. by apply vdecode_suffix in E.
Qed.

Lemma size_decode_suffix l x r :
  size_decode l = Some (x, r) ->
  0 <= x <= INT_MAX - kSlopBytes /\ exists c, l = c ++ r /\ (0 < length c <= 5)%nat.
Proof.
  unfold size_decode. destruct (vdecode 5 l) as [[x' r']|] eqn:E; simpl; [|done].
  destruct (Z.leb_spec x' (INT_MAX - kSlopBytes)); [|done]. intros [= <- <-].
  pose proof (vdecode_nonneg _ _ _ _ E). split; [lia|]. by apply vdecode_suffix in E.
Qed.

Lemma read_string_suffix l b r : read_string l = Some (b, r) -> exists c, l = c ++ r.
Proof.
  unfold read_string. destruct (size_decode l) as [[x r']|] eqn:E; simpl; [|done].
  apply size_decode_suffix in E as (_ & c & -> & _).
  intros E'. apply parse_bytes_suffix in E' as [-> _]. exists (c ++ b). by rewrite app_assoc.
Qed.

Lemma read_field_suffix g depth tag l f r :
  (forall fs tag' r, g l = (fs, stopped tag' r) -> exists c, l = c ++ r) ->
  read_field g depth tag l = Some (f, r) -> exists c, l = c ++ r.
Proof.
  intros Hg. unfold read_field. destruct (_ =? 0); [done|].
  assert (forall k (F : list byte -> UnknownField),
    ('(b, r) ← parse_bytes k l; Some (F b, r)) = Some (f, r) -> exists c, l = c ++ r) as Hb.
  { intros k F. destruct (parse_bytes k l) as [[b r']|] eqn:E; simpl; [|done].
    intros [= _ <-]. apply parse_bytes_suffix in E as [-> _]. by exists b. }
  destruct (GetTagWireType tag) as [|[[[]|[]|]|[[]|[]|]|]|]; try done; try apply Hb.
  - destruct (vdecode _ l) as [[x r']|] eqn:E; simpl; [|done]. intros [= _ <-].
    apply vdecode_suffix in E as (c & -> & _). by exists c.
  - destruct (_ <? 0); [done|]. destruct (g l) as [fs [|tag' r'|]] eqn:E; try done.
    destruct (_ =? _); [|done]. intros [= _ <-]. by eapply Hg.
  - destruct (read_string l) as [[b r']|] eqn:E; simpl; [|done]. intros [= _ <-].
    by eapply read_string_suffix.
Qed.

Lemma read_fields_suffix n depth l fs tag r :
  read_fields n depth l = (fs, stopped tag r) -> is_u32 tag /\ exists c, l = c ++ r.
Proof.
  revert depth l fs tag r. induction n as [|n IH]; intros depth l fs tag r; simpl; [done|].
  destruct l as [|b l]; [done|]. destruct (tag_decode (b :: l)) as [[x r1]|] eqn:E; [|done].
  apply tag_decode_suffix in E as (Hx & c & -> & _).
  destruct (_ || _).
  { intros [= _ <- ->]. split; [done|]. by exists c. }
  destruct (read_field _ _ _ r1) as [[f r2]|] eqn:Ef; [|done].
  apply read_field_suffix in Ef as [c2 ->]; [|intros ? ? ? E; by apply IH in E as [_ ?]].
  destruct (read_fields n depth r2) as [fs2 e] eqn:E2. intros [= _ ->].
  apply IH in E2 as [? [c3 ->]]. split; [done|]. exists (c ++ c2 ++ c3). by rewrite !app_assoc.
Qed.

Lemma read_field_ext g h depth tag l :
  (depth - 1 <? 0 = false -> g l = h l) -> read_field g depth tag l = read_field h depth tag l.
Proof.
  intros E. unfold read_field. destruct (_ =? 0); [done|].
  destruct (GetTagWireType tag) as [|[[[]|[]|]|[[]|[]|]|]|]; try done.
  destruct (_ <? 0); [done|]. by rewrite E.
Qed.

Lemma read_fuel n m depth l :
  (length l < n)%nat -> (length l < m)%nat -> read_fields n depth l = read_fields m depth l.
Proof.
  revert m depth l. induction n as [|n IH]; intros m depth l Hn Hm; [lia|].
  destruct m as [|m]; [lia|]. simpl. destruct l as [|b l]; [done|].
  destruct (tag_decode (b :: l)) as [[x r]|] eqn:E; [|done].
  apply tag_decode_suffix in E as (_ & c & Ec & Hc). rewrite Ec, length_app in Hn, Hm.
  destruct (_ || _); [done|].
  rewrite (read_field_ext _ (read_fields m (depth - 1))) by (intros; apply IH; lia).
  destruct (read_field _ depth _ r) as [[f r2]|] eqn:Ef; [|done].
  apply read_field_suffix in Ef as [c2 Ec2];
    [|intros ? ? ? E'; by apply read_fields_suffix in E' as [_ ?]].
  rewrite Ec2, length_app in Hn, Hm. rewrite (IH m) by lia. done.
Qed.

(** The parser's own equation, without fuel. *)
Lemma read_cons depth l tag r :
  tag_decode l = Some (tag, r) ->
  read depth l =
    if (tag =? 0) || (GetTagWireType tag =? WIRETYPE_END_GROUP) then ([], stopped tag r) else
    match read_field (read (depth - 1)) depth tag r with
    | Some (f, r) => let (fs, e) := read depth r in (f :: fs, e)
    | None => ([], failed)
    end.
Proof.
  intros E. unfold read at 1. cbn [read_fields].
  destruct l as [|b l]; [by destruct (tag_decode_suffix _ _ _ E) as (_ & [] & ? & ?)|].
  rewrite E. apply tag_decode_suffix in E as (_ & c & Ec & Hc).
  assert (length r < length (b :: l))%nat as Hr by (rewrite Ec, length_app; lia).
  destruct (_ || _); [done|].
  rewrite (read_field_ext _ (read (depth - 1))) by (intros; apply read_fuel; lia).
  destruct (read_field _ depth _ r) as [[f r2]|] eqn:Ef; [|done].
  apply read_field_suffix in Ef as [c2 Ec2];
    [|intros ? ? ? E'; by apply read_fields_suffix in E' as [_ ?]].
  rewrite Ec2, length_app in Hr. unfold read. by rewrite (read_fuel _ (S (length r2))) by lia.
Qed.

Lemma read_nil depth : read depth [] = ([], ended).
Proof. done. Qed.

Lemma read_none depth l : l <> [] -> tag_decode l = None -> read depth l = ([], failed).
Proof. unfold read. simpl. by destruct l as [|b l]; [done|intros _ ->]. Qed.

Lemma read_field_nil depth tag : read_field (read (depth - 1)) depth tag [] = None.
Proof.
  unfold read_field. destruct (_ =? 0); [done|].
  destruct (GetTagWireType tag) as [|[[[]|[]|]|[[]|[]|]|]|]; try done.
  by destruct (_ <? 0).
Qed.

(** ** The code against it *)

Section refine.
Context {S : Type} `{ZeroCopyInputStreamOk S}.
Notation C := (t S).
Implicit Type c : C.

(** A move after which the last tag may be another one. *)
Definition moves_to (k : Z) c ptr c' ptr' : Prop :=
  moves k c ptr (set_last_tag_minus_1 (last_tag_minus_1_ c) c') ptr'.

(** The state a parser of fields starts from: groups are not tracked, and never
    will be at the depth that is left. *)
Record ready c ptr : Prop := {
  ready_inv : Inv c;
  ready_valid : valid c ptr;
  ready_tag : last_tag_minus_1_ c = 0;
  ready_depth : 0 <= depth_ c <= INT_MAX;
  ready_group : INT_MIN <= group_depth_ c /\ group_depth_ c + depth_ c < 0;
}.

Lemma moves_to_tag k c ptr c' ptr' :
  moves_to k c ptr c' ptr' -> last_tag_minus_1_ c' = last_tag_minus_1_ c -> moves k c ptr c' ptr'.
Proof.
  intros Hm E. unfold moves_to in Hm. rewrite <- E in Hm.
  replace (set_last_tag_minus_1 (last_tag_minus_1_ c') c') with c' in Hm by (by destruct c'). done.
Qed.

Lemma moves_to_same k c ptr c' ptr' : moves k c ptr c' ptr' -> moves_to k c ptr c' ptr'.
Proof.
  intros Hm. unfold moves_to. rewrite <- (moves_tag _ _ _ _ _ Hm).
  replace (set_last_tag_minus_1 (last_tag_minus_1_ c') c') with c' by (by destruct c'). done.
Qed.

Lemma moves_to_trans k j c ptr c1 p1 c2 p2 :
  0 <= k -> 0 <= j -> moves k c ptr c1 p1 -> moves_to j c1 p1 c2 p2 -> moves_to (k + j) c ptr c2 p2.
Proof.
  intros Hk Hj Hm1 Hm2. unfold moves_to in *. rewrite <- (moves_tag _ _ _ _ _ Hm1).
  by eapply moves_trans.
Qed.

Lemma ready_moves k c ptr c' ptr' : ready c ptr -> moves k c ptr c' ptr' -> ready c' ptr'.
Proof. intros [] [? ? ? ? ? [] ?]. split; [done|done|congruence|lia|lia]. Qed.

(** The depths after a failure: a group that is too deep has taken one off. *)
Definition unwound c c' : Prop :=
  depth_ c - 1 <= depth_ c' <= depth_ c /\ group_depth_ c' = group_depth_ c.

Lemma same_unwound c c' : same_depths c c' -> unwound c c'.
Proof. intros []. split; [lia|done]. Qed.

Lemma unwound_trans c c1 c2 : same_depths c c1 -> unwound c1 c2 -> unwound c c2.
Proof. intros [] []. split; [lia|congruence]. Qed.

(** What happened to a list of fields: [R] relates it to the second object. *)
Definition fields_post {Y} (R : list UnknownField -> Y -> Prop)
    (res : list UnknownField * outcome) c ptr (r : option Z) (cy : C * Y) : Prop :=
  if left_ c ptr <? 0 then r = None /\ unwound c cy.1 else
  match res.2 with
  | ended => exists p, r = Some p /\ moves_to (zlen (visible c ptr)) c ptr cy.1 p /\
      last_tag_minus_1_ cy.1 = (if BytesUntilLimit c ptr =? zlen (visible c ptr) then 0 else 1) /\
      R res.1 cy.2
  | stopped tag l => exists p, r = Some p /\
      moves_to (zlen (visible c ptr) - zlen l) c ptr cy.1 p /\
      last_tag_minus_1_ cy.1 = u32 (tag - 1) /\ R res.1 cy.2
  | failed =>
      match r with
      | Some p => exists k tag, left_ c ptr < k /\ moves_to k c ptr cy.1 p /\
          last_tag_minus_1_ cy.1 = u32 (tag - 1) /\ is_u32 tag /\
          (tag = 0 \/ GetTagWireType tag = WIRETYPE_END_GROUP)
      | None => unwound c cy.1
      end
  end.

(** What happened to one field. *)
Definition one_post {Y A} (R : A -> Y -> Prop) (f : option (A * list byte)) c ptr
    (r : option Z) (cy : C * Y) : Prop :=
  match f with
  | Some (a, l) => exists p, r = Some p /\
      moves (zlen (visible c ptr) - zlen l) c ptr cy.1 p /\ R a cy.2
  | None =>
      match r with
      | Some p => exists k, 0 <= k /\ left_ c ptr < k /\ moves k c ptr cy.1 p
      | None => unwound c cy.1
      end
  end.

Lemma unwound_refl c : unwound c c.
Proof. by apply same_unwound. Qed.

(** *** Groups *)

(** The fields up to the end of the group [num]. *)
Definition read_group (num depth : Z) (l : list byte) : option (list UnknownField * list byte) :=
  if depth - 1 <? 0 then None else
  match read (depth - 1) l with
  | (fs, stopped tag r) => if tag =? MakeTag num WIRETYPE_END_GROUP then Some (fs, r) else None
  | _ => None
  end.

Lemma moves_deeper k c ptr c1 p :
  last_tag_minus_1_ c = 0 ->
  moves_to k (set_depths (depth_ c - 1) (group_depth_ c + 1) c) ptr c1 p ->
  depth_ c1 = depth_ c - 1 /\ group_depth_ c1 = group_depth_ c + 1 /\
  moves k c ptr (set_last_tag_minus_1 0 (set_depths (depth_ c1 + 1) (group_depth_ c + 1 - 1) c1)) p.
Proof.
  unfold moves_to. intros H0tag [[[? ? ? ? ?] ? ? ?] ? ? ? ? [Ed Eg] Htag]. split; [done|]. split; [done|].
  simpl in Ed, Eg. replace (depth_ c1 + 1) with (depth_ c) by lia.
  replace (group_depth_ c + 1 - 1) with (group_depth_ c) by lia.
  simpl in *. split; [split; [split|..]|..]; done.
Qed.

Lemma end_group_tag num tag :
  is_u32 tag -> 0 < num < 2 ^ 29 ->
  (u32 (tag - 1) =? u32 (num * 8 + 3)) = (tag =? MakeTag num WIRETYPE_END_GROUP).
Proof.
  intros Ht Hn. rewrite MakeTag_eq by (unfold WIRETYPE_END_GROUP; lia).
  change (2 ^ 29) with 536870912 in *.
  unfold_ints. change WIRETYPE_END_GROUP with 4. rewrite (Z.mod_small (num * 8 + 3)) by lia.
  destruct (Z.eqb_spec tag 0) as [->|].
  - change ((0 - 1) mod 4294967296) with 4294967295. lia.
  - rewrite Z.mod_small by lia. lia.
Qed.

(** What [ParseGroupInlined] does after the fields of the group. *)
Lemma leave_group_wp {Y} (r : option Z) start_tag depth group_depth c1 (y : Y) Q :
  depth - 1 <= depth_ c1 <= depth -> (r <> None -> depth_ c1 = depth) -> group_depth_ c1 = group_depth ->
  -1 <= depth < INT_MAX -> INT_MIN < group_depth <= 0 ->
  Q (if last_tag_minus_1_ c1 =? start_tag then r else None)
    (set_last_tag_minus_1 0 (set_depths (depth_ c1 + 1) (group_depth - 1) c1), y) ->
  wp (dcheck (match r with
              | Some _ => (depth =? depth_ c1) && (group_depth =? group_depth_ c1)
              | None => true
              end) ;;;
      let* group_depth := on_fst (int_ (group_depth_ c1 - 1)) in
      let* depth := on_fst (int_ (depth_ c1 + 1)) in
      on_fst (set_group_depth group_depth) ;;; on_fst (set_depth depth) ;;;
      let* ok := on_fst (ConsumeEndGroup start_tag) in
      ret (if ok : bool then r else None)) (c1, y) Q.
Proof.
  intros Hd Hs Hg Hdr Hgr HQ. unfold INT_MAX, INT_MIN in *.
  assert (match r with
          | Some _ => (depth =? depth_ c1) && (group_depth =? group_depth_ c1)
          | None => true end = true) as ->.
  { destruct r; [|done]. rewrite Hs by done. rewrite Hg. by rewrite !Z.eqb_refl. }
  apply wp_bind, wp_ret. rewrite Hg.
  apply wp_bind, on_fst_wp, int_wp; [unfold INT_MAX; lia|]. apply wp_bind, on_fst_wp, int_wp; [unfold INT_MAX; lia|].
  apply wp_bind, on_fst_wp, wp_modS. apply wp_bind, on_fst_wp, wp_modS.
  apply wp_bind, on_fst_wp. unfold ConsumeEndGroup. wp_steps. exact HQ.
Qed.

Lemma ParseGroupInlined_wp {Y} (R : list UnknownField -> Y -> Prop) func num c ptr (y : Y) :
  ready c ptr -> 0 < num < 2 ^ 29 ->
  (forall c', ready c' ptr -> visible c' ptr = visible c ptr -> depth_ c' = depth_ c - 1 ->
    buffer_end_ c' = buffer_end_ c ->
    wp (func ptr) (c', y) (fields_post R (read (depth_ c') (visible c' ptr)) c' ptr)) ->
  wp (ParseGroupInlined func ptr (u32 (num * 8 + 3))) (c, y)
    (one_post R (read_group num (depth_ c) (visible c ptr)) c ptr).
Proof.
  intros Hr Hnum Hf. pose proof Hr as [HI Hv Htag Hd Hg]. unfold ParseGroupInlined, read_group.
  unfold INT_MIN, INT_MAX in *.
  apply wp_bind, on_fst_wp, wp_gets. apply wp_bind, on_fst_wp, int_wp; [unfold INT_MAX; lia|].
  apply wp_bind, on_fst_wp, wp_modS.
  destruct (Z.ltb_spec (depth_ c - 1) 0) as [Hneg|Hpos].
  { apply wp_ret. split; simpl; [lia|done]. }
  apply wp_bind, on_fst_wp, wp_gets. apply wp_bind, on_fst_wp, int_wp; [simpl; unfold INT_MAX; lia|].
  apply wp_bind, on_fst_wp, wp_modS. simpl group_depth_.
  set (c' := set_depths _ _ _).
  assert (c' = set_depths (depth_ c - 1) (group_depth_ c + 1) c) as Ec' by done.
  apply wp_bind. wp_use Hf; [|done|done|done|].
  { destruct HI as [[? ? ? ? ?] ? ? ?].
    split; [split; [split|..]|..]; try done; simpl; unfold INT_MIN, INT_MAX in *; lia. }
  change (depth_ c') with (depth_ c - 1). change (visible c' ptr) with (visible c ptr).
  intros r [c1 y1] Hp. apply wp_bind, on_fst_wp, wp_getS.
  pose proof (zlen_visible c ptr HI ltac:(apply Hv)) as El.
  unfold fields_post in Hp. change (left_ c' ptr) with (left_ c ptr) in Hp.
  change (BytesUntilLimit c' ptr) with (BytesUntilLimit c ptr) in Hp.
  change (visible c' ptr) with (visible c ptr) in Hp. cbn [fst snd] in Hp.
  destruct (Z.ltb_spec (left_ c ptr) 0) as [Hlt|Hge].
  { destruct Hp as [-> [Hd1 Hg1]]. simpl in Hd1, Hg1.
    apply (leave_group_wp None _ (depth_ c - 1) (group_depth_ c + 1)); try done; unfold INT_MIN, INT_MAX; try lia.
    assert (visible c ptr = []) as -> by (apply zlen_0; lia). rewrite read_nil.
    destruct (_ =? _); split; simpl; lia. }
  destruct (read _ (visible c ptr)) as [fs [|tag l|]] eqn:Er; cbn [fst snd] in Hp.
  - destruct Hp as (p & -> & Hm & Et & _). rewrite Ec' in Hm.
    pose proof (moves_deeper _ _ _ _ _ Htag Hm) as (Ed1 & Eg1 & _).
    apply (leave_group_wp (Some p) _ (depth_ c - 1) (group_depth_ c + 1)); try done; unfold INT_MIN, INT_MAX; try lia.
    assert (1 < u32 (num * 8 + 3)) as Hst.
    { change (2 ^ 29) with 536870912 in *. unfold_ints. rewrite Z.mod_small; lia. }
    rewrite Et. rewrite (proj2 (Z.eqb_neq _ _)) by (destruct (_ =? zlen _); lia). split; simpl; lia.
  - destruct Hp as (p & -> & Hm & Et & HR). rewrite Ec' in Hm.
    pose proof (moves_deeper _ _ _ _ _ Htag Hm) as (Ed1 & Eg1 & Hmv).
    apply (leave_group_wp (Some p) _ (depth_ c - 1) (group_depth_ c + 1)); try done; unfold INT_MIN, INT_MAX; try lia.
    apply read_fields_suffix in Er as [Hu _]. rewrite Et, end_group_tag by done.
    destruct (_ =? _); [|split; simpl; lia]. exists p. split; [done|]. by split.
  - destruct r as [p|].
    + destruct Hp as (k & tag & Hk & Hm & Et & Hu & _). rewrite Ec' in Hm.
      pose proof (moves_deeper _ _ _ _ _ Htag Hm) as (Ed1 & Eg1 & Hmv).
      apply (leave_group_wp (Some p) _ (depth_ c - 1) (group_depth_ c + 1)); try done; unfold INT_MIN, INT_MAX; try lia.
      destruct (_ =? _); [|split; simpl; lia]. exists k. split; [lia|]. by split.
    + destruct Hp as [Hd1 Hg1]. simpl in Hd1, Hg1.
      apply (leave_group_wp None _ (depth_ c - 1) (group_depth_ c + 1)); try done; unfold INT_MIN, INT_MAX; try lia.
      destruct (_ =? _); split; simpl; lia.
Qed.

Ltac unwinds := apply wp_ret; cbn [fst snd]; apply unwound_refl.

Lemma one_post_map {Y A B} (F : A -> B) (R : B -> Y -> Prop) f c ptr r (cy : C * Y) :
  one_post (fun a => R (F a)) f c ptr r cy -> one_post R ('(a, l) ← f; Some (F a, l)) c ptr r cy.
Proof. by destruct f as [[a l]|]. Qed.

Context {X : Type} (T : field_parser S X) (emit : UnknownField -> X -> X).

Definition emitted (x : X) (f : UnknownField) (x' : X) : Prop := x' = emit f x.
Definition all_emitted (x : X) (fs : list UnknownField) (x' : X) : Prop := x' = emits emit fs x.

(** [m] parses lists of fewer than [n] bytes. *)
Definition parses n (m : Z -> M (C * X) (option Z)) : Prop :=
  forall c ptr x, ready c ptr -> (length (visible c ptr) < n)%nat ->
  wp (m ptr) (c, x)
    (fields_post (all_emitted x) (read (depth_ c) (visible c ptr)) c ptr).

Hypothesis emit_varint : forall num v x,
  0 < num < 2 ^ 29 -> is_u64 v -> emit (VARINT num v) x = AddVarint T num v x.
Hypothesis emit_fixed64 : forall num v x,
  0 < num < 2 ^ 29 -> is_u64 v -> emit (FIXED64 num v) x = AddFixed64 T num v x.
Hypothesis emit_fixed32 : forall num v x,
  0 < num < 2 ^ 29 -> is_u32 v -> emit (FIXED32 num v) x = AddFixed32 T num v x.

(** A pointer to the value of a field, all of whose bytes can be read. *)
Definition at_value c ptr : Prop := ready c ptr /\ ptr + 10 <= buffer_end_ c + kSlopBytes.

Hypothesis length_ok : forall num c ptr x,
  at_value c ptr -> 0 < num < 2 ^ 29 ->
  wp (ParseLengthDelimited T num ptr) (c, x)
    (one_post (fun b => emitted x (LENGTH_DELIMITED num b)) (read_string (visible c ptr)) c ptr).
Hypothesis group_ok : forall n m num c ptr x,
  parses n m -> at_value c ptr -> (length (visible c ptr) < n)%nat -> 0 < num < 2 ^ 29 ->
  wp (ParseGroup T m num ptr) (c, x)
    (one_post (fun fs => emitted x (GROUP num fs)) (read_group num (depth_ c) (visible c ptr)) c ptr).

Lemma fixed_wp n (F : list byte -> UnknownField) (add : Z -> X -> X) c ptr x :
  at_value c ptr -> 0 < n <= 8 ->
  (forall b, zlen b = n -> emit (F b) x = add (le_value b) x) ->
  wp (let* bytes := on_fst (load ptr n) in
      on_snd (modS (add (le_value bytes))) ;;; ret (Some (ptr + n))) (c, x)
    (one_post (emitted x) ('(b, r) ← parse_bytes n (visible c ptr); Some (F b, r)) c ptr).
Proof.
  intros [[HI Hv _ _ _] Hle] Hn HF. pose proof Hv as [Hp _].
  apply wp_bind, on_fst_wp, load_reads; [done|done|lia|lia|]. intros B HB HrB.
  apply wp_bind, on_snd_wp, wp_modS, wp_ret. unfold parse_bytes.
  assert (moves n c ptr c (ptr + n)) as Hm by (apply moves_add; done || lia).
  pose proof (zlen_visible c ptr HI ltac:(lia)) as El.
  destruct (Z.leb_spec 0 n); [|lia].
  destruct (Z.leb_spec n (zlen (visible c ptr))); simpl.
  - exists (ptr + n). split; [done|]. split.
    + replace (zlen _ - zlen _) with n by zl. done.
    + rewrite <- (HF B HB). f_equal. f_equal. rewrite <- HB. apply reads_visible; [done|]. lia.
  - exists n. split; [lia|]. split; [lia|done].
Qed.

Lemma FieldParser_wp n m tag c ptr x :
  parses n m -> at_value c ptr -> (length (visible c ptr) < n)%nat -> is_u32 tag ->
  GetTagWireType tag <> WIRETYPE_END_GROUP ->
  wp (FieldParser_ T m tag ptr) (c, x)
    (one_post (emitted x) (read_field (read (depth_ c - 1)) (depth_ c) tag (visible c ptr)) c ptr).
Proof.
  intros Hpar Hat Hn Ht Hwt. pose proof Hat as [[HI Hv _ _ _] Hle]. pose proof Hv as [Hp _].
  unfold FieldParser_, read_field.
  assert (u32 (Z.shiftr tag 3) = GetTagFieldNumber tag /\ 0 <= GetTagFieldNumber tag < 2 ^ 29) as [-> Hnum].
  { rewrite GetTagFieldNumber_eq by done. rewrite Z.shiftr_div_pow2 by lia. zify_pow.
    change (2 ^ 29) with 536870912. unfold_ints. split; [|Z.div_mod_to_equations; lia].
    apply Z.mod_small. Z.div_mod_to_equations; lia. }
  change (Z.land tag 7) with (GetTagWireType tag).
  set (num := GetTagFieldNumber tag) in *. destruct (Z.eqb_spec num 0) as [|Hn0]; [unwinds|].
  set (wt := GetTagWireType tag) in *.
  assert (0 <= wt < 8) as Hwtr.
  { unfold wt. rewrite GetTagWireType_eq. apply Z.mod_pos_bound. lia. }
  change WIRETYPE_END_GROUP with 4 in Hwt.
  assert (wt = 0 \/ wt = 1 \/ wt = 2 \/ wt = 3 \/ wt = 5 \/ wt = 6 \/ wt = 7)
    as [E|[E|[E|[E|[E|[E|E]]]]]] by lia; rewrite E; clear E.
  - apply wp_bind, on_fst_wp. wp_use (decode_wp VarintParse64 u64 10);
      [apply VarintParse64_decoded|done|lia|lia|].
    intros [q v] c' [-> [Hf _]].
    pose proof (zlen_visible c ptr HI ltac:(lia)) as El.
    destruct (vdecode 10 (visible c ptr)) as [[y l]|] eqn:Ed; simpl.
    + injection Hf as -> ->. pose proof (vdecode_suffix _ _ _ _ Ed) as (b & Eb & Hb).
      assert (0 < zlen (visible c ptr) - zlen l <= 10) by (rewrite Eb; unfold zlen; rewrite length_app; lia).
      apply wp_bind, on_snd_wp, wp_modS, wp_ret. eexists. split; [done|]. split.
      * cbn [fst]. apply moves_add; done || lia.
      * symmetry. apply emit_varint; [lia|apply u64_range].
    + unfold too_far in Hf. simpl in Hf. destruct q as [q|]; [|unwinds].
      apply wp_bind, on_snd_wp, wp_modS, wp_ret. exists (q - ptr). split; [lia|]. split; [lia|].
      cbn [fst]. replace q with (ptr + (q - ptr)) at 2 by lia. apply moves_add; done || lia.
  - apply (fixed_wp 8); [done|lia|]. intros b Hb. apply emit_fixed64; [lia|].
    pose proof (le_value_range b) as Hr. unfold zlen in Hb. rewrite Hb in Hr. exact Hr.
  - wp_use length_ok; [done|lia|]. intros r cx Hl. by apply one_post_map.
  - wp_use group_ok; [done|done|done|lia|]. intros r cx Hg.
    apply (one_post_map (GROUP num)) in Hg. unfold read_group in Hg.
    destruct (_ <? 0); [done|]. destruct (read _ _) as [fs [|tag' l|]]; try done.
    by destruct (_ =? _).
  - apply (fixed_wp 4); [done|lia|]. intros b Hb. apply emit_fixed32; [lia|].
    pose proof (le_value_range b) as Hr. unfold zlen in Hb. rewrite Hb in Hr. exact Hr.
  - unwinds.
  - unwinds.
Qed.

Lemma Done_wp c ptr : ready c ptr -> wp (Done ptr) c (done_post c ptr).
Proof. intros []. unfold Done. wp_steps. apply DoneWithCheck_wp; [done|done|lia]. Qed.

Lemma done_false c ptr p c' :
  0 < left_ c ptr -> done_post c ptr (Some p, false) c' -> moves 0 c ptr c' p /\ p < limit_end_ c'.
Proof.
  intros Hl. unfold done_post. destruct (Z.ltb_spec (left_ c ptr) 0); [lia|].
  destruct (Z.eqb_spec (left_ c ptr) 0); [lia|]. by intros (q & [= ->] & ?).
Qed.

Lemma visible_app c ptr b l p c' :
  Inv c -> 0 <= ptr -> visible c ptr = b ++ l ->
  moves (zlen (visible c ptr) - zlen l) c ptr c' p -> visible c' p = l.
Proof.
  intros HI Hp E Hm. pose proof (zlen_visible c ptr HI Hp) as El.
  destruct (Z.leb_spec (left_ c ptr) 0).
  - assert (l = []) as -> by (apply zlen_0; rewrite E in El; zl).
    apply zlen_0. pose proof (moves_left _ _ _ _ _ Hm). rewrite zlen_nil in *.
    rewrite zlen_visible by (apply (moves_inv _ _ _ _ _ Hm) || apply (moves_ptr_range _ _ _ _ _ Hm)).
    lia.
  - assert (0 <= zlen (visible c ptr) - zlen l <= left_ c ptr) as Hk
      by (rewrite E in *; zl).
    rewrite (moves_visible _ _ _ _ _ Hk Hm), E. apply zdrop_app_exact. zl.
Qed.

(** A parser that is past the visible bytes finds it out at the next tag. *)
Lemma WireFormatParser_astray n c ptr x Q :
  (0 < n)%nat -> ready c ptr -> left_ c ptr < 0 ->
  (forall c', unwound c c' -> Q None (c', x)) -> wp (WireFormatParser_loop T n ptr) (c, x) Q.
Proof.
  intros Hn Hr Hl HQ. destruct n as [|n]; [lia|]. cbn [WireFormatParser_loop].
  apply wp_bind, on_fst_wp. wp_use Done_wp; [done|]. intros r c' Hd. unfold done_post in Hd.
  destruct (Z.ltb_spec (left_ c ptr) 0); [|lia]. destruct Hd as [-> Hd].
  by apply wp_ret, HQ, same_unwound.
Qed.

Lemma stop_wp tag k c ptr c1 p x Q :
  moves k c ptr c1 p ->
  (forall c', moves_to k c ptr c' p -> last_tag_minus_1_ c' = u32 (tag - 1) -> Q (Some p) (c', x)) ->
  wp (on_fst (T := X) (SetLastTag tag) ;;; ret (Some p)) (c1, x) Q.
Proof.
  intros Hm HQ. apply wp_bind, on_fst_wp, wp_modS, wp_ret. apply HQ; [|done].
  unfold moves_to. rewrite <- (moves_tag _ _ _ _ _ Hm).
  replace (set_last_tag_minus_1 _ (set_last_tag_minus_1 _ c1)) with c1 by (by destruct c1). done.
Qed.

Lemma fields_post_cons f d l c ptr x c2 p2 x2 r cx :
  Inv c -> 0 <= ptr -> 0 <= left_ c ptr -> last_tag_minus_1_ c = 0 ->
  (exists b, visible c ptr = b ++ l) ->
  moves (zlen (visible c ptr) - zlen l) c ptr c2 p2 -> x2 = emit f x ->
  fields_post (all_emitted x2) (read d l) c2 p2 r cx ->
  fields_post (all_emitted x) (let (fs, e) := read d l in (f :: fs, e)) c ptr r cx.
Proof.
  intros HI Hp Hl H0tag [b Eb] Hm -> Hpost. pose proof (moves_left _ _ _ _ _ Hm) as El2.
  pose proof (zlen_visible c ptr HI Hp) as El. rewrite Z.max_r in El by lia.
  pose proof (visible_app c ptr b l p2 c2 HI Hp Eb Hm) as Ev.
  assert (0 <= zlen (visible c ptr) - zlen l) by (rewrite Eb; zl).
  pose proof (moves_until _ _ _ _ _ Hm) as Eu. pose proof (zlen_nonneg l).
  unfold fields_post in *. rewrite El2, Ev in *.
  destruct (Z.ltb_spec (left_ c ptr - (zlen (visible c ptr) - zlen l)) 0); [lia|].
  destruct (Z.ltb_spec (left_ c ptr) 0); [lia|].
  destruct (read d l) as [fs e] eqn:Er. simpl in *. destruct e as [|tag l2|].
  - destruct Hpost as (p & -> & Hm2 & Ht & Hx). exists p. split_and!; [done| | |done].
    + replace (zlen (visible c ptr)) with ((zlen (visible c ptr) - zlen l) + zlen l) by lia.
      eapply moves_to_trans; [lia|lia|done|done].
    + rewrite Ht, Eu.
      destruct (Z.eqb_spec (BytesUntilLimit c ptr - (zlen (visible c ptr) - zlen l)) (zlen l)),
        (Z.eqb_spec (BytesUntilLimit c ptr) (zlen (visible c ptr))); done || lia.
  - destruct Hpost as (p & -> & Hm2 & Ht & Hx). exists p. split_and!; [done| |done|done].
    replace (zlen (visible c ptr) - zlen l2)
      with ((zlen (visible c ptr) - zlen l) + (zlen l - zlen l2)) by lia.
    apply read_fields_suffix in Er as [_ [b2 ->]].
    eapply moves_to_trans; [lia|zl|done|done].
  - destruct r as [p|]; [|by eapply unwound_trans; [apply Hm|]].
    destruct Hpost as (k & tag & Hk & Hm2 & ? & ?).
    exists ((zlen (visible c ptr) - zlen l) + k), tag. split; [lia|]. split; [|done].
    eapply moves_to_trans; [lia|lia|done|done].
Qed.

(** What [ReadTag] finds before the end of the buffer. *)
Definition tag_post c ptr (q : option Z) (tag : Z) : Prop :=
  match tag_decode (visible c ptr) with
  | Some (tag', l) => tag = tag' /\ exists p, q = Some p /\ p <= ptr + 5 /\
                        moves (zlen (visible c ptr) - zlen l) c ptr c p
  | None =>
      match q with
      | Some p => is_u32 tag /\ p <= ptr + 5 /\ exists k, 0 <= k /\ left_ c ptr < k /\ moves k c ptr c p
      | None => True
      end
  end.

Lemma tag_wp c ptr :
  Inv c -> valid c ptr -> ptr < buffer_end_ c ->
  wp (decode ReadTag ptr) c (fun r c' => c' = c /\ tag_post c ptr r.1 r.2).
Proof.
  intros HI Hv Hlt. pose proof Hv as [Hp _]. pose proof (zlen_visible c ptr HI ltac:(lia)) as El.
  wp_use (decode_wp ReadTag u32 5); [apply ReadTag_decoded|done|lia|unfold kSlopBytes; lia|].
  intros [q tag] c' [-> [Hf Hu]]. split; [done|]. unfold tag_post, tag_decode. simpl in *.
  destruct (vdecode 5 (visible c ptr)) as [[y l]|] eqn:Ed; simpl.
  - injection Hf as -> ->. pose proof (vdecode_suffix _ _ _ _ Ed) as (b & Eb & Hb).
    assert (0 < zlen (visible c ptr) - zlen l <= 5) by (rewrite Eb; unfold zlen; rewrite length_app; lia).
    split; [done|]. eexists. split; [done|]. split; [lia|].
    apply moves_add; try done; unfold kSlopBytes in *; lia.
  - destruct q as [q|]; [|done]. simpl in Hf. destruct (Hu ltac:(done)) as [y ->]. split; [apply u32_range|].
    split; [lia|]. exists (q - ptr). split; [lia|]. split; [lia|].
    replace q with (ptr + (q - ptr)) at 2 by lia. apply moves_add; try done; unfold kSlopBytes in *; lia.
Qed.

(** A round on a tag that is not all visible, or the fields of one that is. *)
Lemma astray_round n tag k c ptr p x :
  (0 < n)%nat -> parses n (WireFormatParser_loop T n) ->
  ready c ptr -> 0 <= left_ c ptr < k -> moves k c ptr c p -> p + 10 <= buffer_end_ c + kSlopBytes ->
  is_u32 tag ->
  wp (if (tag =? 0) || (Z.land tag 7 =? 4)
      then on_fst (SetLastTag tag) ;;; ret (Some p)
      else let* r := FieldParser_ T (WireFormatParser_loop T n) tag p in
           match r with None => ret None | Some ptr => WireFormatParser_loop T n ptr end) (c, x)
    (fun r cx => match r with
      | Some p => exists k tag, left_ c ptr < k /\ moves_to k c ptr cx.1 p /\
          last_tag_minus_1_ cx.1 = u32 (tag - 1) /\ is_u32 tag /\
          (tag = 0 \/ GetTagWireType tag = WIRETYPE_END_GROUP)
      | None => unwound c cx.1
      end).
Proof.
  intros Hn Hpar Hr Hk Hm Hle Ht. pose proof (ready_moves _ _ _ _ _ Hr Hm) as Hr1.
  pose proof (moves_left _ _ _ _ _ Hm) as El1. pose proof (moves_ptr_range _ _ _ _ _ Hm).
  destruct (_ || _) eqn:Es.
  - eapply stop_wp; [exact Hm|]. intros c' Hm' Et. exists k, tag. split_and!; [lia|done..|].
    apply orb_true_iff in Es as [Es%Z.eqb_eq|Es%Z.eqb_eq]; [by left|by right].
  - apply orb_false_iff in Es as [_ Es%Z.eqb_neq].
    assert (visible c p = []) as Ev.
    { apply zlen_0. rewrite zlen_visible by (apply Hr1 || lia). lia. }
    apply wp_bind. wp_use FieldParser_wp; [exact Hpar|by split|by rewrite Ev|done|done|].
    intros r [c2 x2] Hf. rewrite Ev, read_field_nil in Hf. unfold one_post in Hf.
    destruct r as [p2|]; [|by apply wp_ret]. destruct Hf as (j & Hj & Hlj & Hm2).
    pose proof (ready_moves _ _ _ _ _ Hr1 Hm2) as Hr2.
    pose proof (moves_left _ _ _ _ _ Hm2). simpl in *.
    apply WireFormatParser_astray; [done|done|lia|]. intros c3 Hc3.
    eapply unwound_trans; [apply Hm2|done].
Qed.

Lemma WireFormatParser_loop_wp n : parses n (WireFormatParser_loop T n).
Proof.
  induction n as [|n IH]; intros c ptr x Hr Hn; [lia|]. cbn [WireFormatParser_loop].
  pose proof Hr as [HI Hv Htag _ _]. pose proof Hv as [Hp _].
  pose proof (zlen_visible c ptr HI ltac:(lia)) as El.
  apply wp_bind, on_fst_wp. wp_use Done_wp; [done|]. intros [r b] c1 Hd.
  destruct (Z.ltb_spec (left_ c ptr) 0) as [Hlt|Hge].
  { unfold done_post in Hd. destruct (Z.ltb_spec (left_ c ptr) 0); [|lia].
    destruct Hd as [[= -> ->] Hd]. apply wp_ret. unfold fields_post.
    destruct (Z.ltb_spec (left_ c ptr) 0); [|lia]. split; [done|]. by apply same_unwound. }
  destruct (Z.eqb_spec (left_ c ptr) 0) as [E0|Hpos].
  { unfold done_post in Hd. rewrite E0 in Hd. destruct Hd as (p & [= -> ->] & Hm & Et).
    apply wp_ret. assert (visible c ptr = []) as Ev by (apply zlen_0; lia).
    unfold fields_post. rewrite E0, Ev, read_nil. exists p. split_and!; [done|done| |done].
    cbn [fst]. by rewrite Et, Htag. }
  assert (exists p, r = Some p /\ b = false) as (p & -> & ->).
  { unfold done_post in Hd. destruct (Z.ltb_spec (left_ c ptr) 0); [lia|].
    destruct (Z.eqb_spec (left_ c ptr) 0); [lia|]. destruct Hd as (p & [= -> ->] & _). by exists p. }
  apply done_false in Hd as [Hm Hple]; [|lia].
  pose proof (ready_moves _ _ _ _ _ Hr Hm) as Hr1. pose proof Hr1 as [HI1 Hv1 Htag1 _ _].
  pose proof (inv_limit_end _ HI1) as Ele1. pose proof Hv1 as [Hp1 _].
  assert (0 <= 0 <= left_ c ptr) as Hk0 by lia.
  pose proof (moves_visible 0 c ptr c1 p Hk0 Hm) as Ev1. rewrite zdrop_0 in Ev1 by lia.
  pose proof (moves_depths _ _ _ _ _ Hm) as [Edep _].
  pose proof (moves_left _ _ _ _ _ Hm) as El1. rewrite Z.sub_0_r in El1.
  apply wp_bind, on_fst_wp. wp_use tag_wp; [done|done|lia|].
  intros [q tag] c' [-> Ht]. unfold tag_post in Ht. rewrite Ev1 in Ht. cbv beta iota. simpl in Ht.
  assert (visible c ptr <> []) as Hne by (intros E; rewrite E in El; change (zlen []) with 0 in El; lia).
  assert (0 < n)%nat as Hn0.
  { destruct (visible c ptr); [done|]. simpl in Hn. lia. }
  unfold fields_post at 1. destruct (Z.ltb_spec (left_ c ptr) 0); [lia|].
  destruct (tag_decode (visible c ptr)) as [[tag' l]|] eqn:Ed; cycle 1.
  { rewrite (read_none _ _ Hne Ed). cbn [snd].
    destruct q as [q|]; [|by apply wp_ret, same_unwound, Hm]. destruct Ht as (Hu & Hq & k & Hk & Hlk & Hmk).
    wp_use (astray_round n tag k c1 p q); [done|exact IH|done|lia|done|unfold kSlopBytes; lia|done|].
    intros [p2|] cx Hpost; [|by eapply unwound_trans; [apply Hm|]]. destruct Hpost as (j & t' & Hj & Hmj & Hrest).
    exists j, t'. split; [lia|]. split; [|done]. rewrite <- (Z.add_0_l j).
    eapply moves_to_trans; [lia|lia|done|done]. }
  destruct Ht as (-> & p2 & -> & Hp2 & Hm2). rewrite (read_cons _ _ _ _ Ed).
  apply tag_decode_suffix in Ed as (Hu & b & Eb & Hb).
  assert (moves (zlen (visible c ptr) - zlen l) c ptr c1 p2) as Hm02.
  { rewrite <- (Z.add_0_l (_ - _)). eapply moves_trans; [lia|rewrite Eb; zl|done|done]. }
  change (GetTagWireType tag') with (Z.land tag' 7). change WIRETYPE_END_GROUP with 4.
  destruct (_ || _) eqn:Es.
  { eapply stop_wp; [exact Hm02|]. intros c' Hm' Et. exists p2. by split_and!. }
  apply orb_false_iff in Es as [_ Es%Z.eqb_neq].
  pose proof (visible_app c ptr b l p2 c1 HI ltac:(lia) Eb Hm02) as Ev2.
  pose proof (ready_moves _ _ _ _ _ Hr Hm02) as Hr2.
  rewrite Eb, length_app in Hn.
  apply wp_bind. wp_use FieldParser_wp; [exact IH|split; [done|unfold kSlopBytes; lia]|rewrite Ev2; lia|done|done|].
  intros r [c3 x3] Hf. rewrite Ev2, Edep in Hf. unfold one_post in Hf.
  pose proof (moves_left _ _ _ _ _ Hm02) as El2.
  destruct (read_field _ _ _ l) as [[f l3]|] eqn:Ef; cycle 1.
  { cbn [snd]. destruct r as [p3|]; [|by apply wp_ret; eapply unwound_trans; [apply Hm|]].
    destruct Hf as (j & Hj & Hlj & Hm3). pose proof (ready_moves _ _ _ _ _ Hr2 Hm3) as Hr3.
    pose proof (moves_left _ _ _ _ _ Hm3). simpl in *.
    apply WireFormatParser_astray; [done|done|lia|]. intros c4 Hc4.
    eapply unwound_trans; [apply Hm|]. eapply unwound_trans; [apply Hm3|done]. }
  destruct Hf as (p3 & -> & Hm3 & Hx3). simpl in Hm3, Hx3.
  apply read_field_suffix in Ef as [b3 Eb3];
    [|intros ? ? ? E'; by apply read_fields_suffix in E' as [_ ?]].
  pose proof (visible_app c1 p2 b3 l3 p3 c3 ltac:(apply Hr2)
    (moves_ptr_range _ _ _ _ _ Hm02) ltac:(by rewrite Ev2)) as Ev3.
  rewrite Ev2 in Ev3, Hm3. specialize (Ev3 Hm3).
  assert (moves (zlen (visible c ptr) - zlen l3) c ptr c3 p3) as Hm03.
  { replace (zlen (visible c ptr) - zlen l3)
      with ((zlen (visible c ptr) - zlen l) + (zlen l - zlen l3)) by lia.
    eapply moves_trans; [rewrite Eb; zl|rewrite Eb3; zl|done|done]. }
  pose proof (moves_depths _ _ _ _ _ Hm03) as [Edep3 _].
  wp_use (IH c3 p3 x3); [by eapply ready_moves|rewrite Ev3, Eb3, length_app in *; lia|].
  intros r cx Hpost. rewrite Ev3, Edep3 in Hpost.
  pose proof (fields_post_cons f (depth_ c) l3 c ptr x c3 p3 x3 r cx HI ltac:(lia) ltac:(lia) Htag
    ltac:(exists (b ++ b3); rewrite Eb, Eb3; by rewrite app_assoc) Hm03 Hx3 Hpost) as Hfin.
  unfold fields_post in Hfin. destruct (Z.ltb_spec (left_ c ptr) 0); [lia|]. exact Hfin.
Qed.
End refine.
