(* ===== verification/ParseContextTheorems.v ===== *)
(** * The clients of the pointer-based parser

    The parser of unknown fields into a set and the one that keeps their bytes
    both satisfy what [ParseContextSpec] asks of the callbacks, and the entry
    points accept a message exactly when [read] reaches its end, in whatever
    pieces it comes. *)

From S2P Require Import Prelude Varint ZeroCopyStream CodedInput WireFormatLite UnknownFields UnknownFieldsSpec UnknownFieldsTheorems PointerDecoders EpsCopyInput EpsCopyInputSpec ParseContext ParseContextSpec.

#[local] Arguments vdecode : simpl never.
#[local] Arguments repeat : simpl never.

Section clients.
Context {S : Type} `{ZeroCopyInputStreamOk S}.
Notation C := (t S).
Implicit Type c : C.

(** ** Strings *)

Lemma reads_exists c ptr size :
  Inv c -> 0 <= ptr -> 0 <= size -> exists B, zlen B = size /\ reads c ptr B.
Proof.
  intros HI Hp Hs. pose proof (shape_end _ (inv_shape _ HI)) as [? ?].
  pose proof (zlen_whole c ptr ltac:(lia) ltac:(unfold kSlopBytes in *; lia) Hp) as El. unfold reads.
  destruct (Z.leb_spec size (zlen (whole c ptr))).
  - exists (ztake size (whole c ptr)). assert (zlen (ztake size (whole c ptr)) = size) as E by zl.
    split; [done|]. intros _. by rewrite E.
  - exists (repeat (z2b 0) (Z.to_nat size)).
    assert (zlen (repeat (z2b 0) (Z.to_nat size)) = size) as E
      by (unfold zlen; rewrite repeat_length; lia).
    split; [done|]. rewrite E. lia.
Qed.

(** A reader of [size] bytes that leaves the second object in [R] of them. *)
Definition sized_post {Y} (R : list byte -> Y -> Prop) size c ptr (r : option Z) (cy : C * Y) : Prop :=
  match r with
  | Some q => moves size c ptr cy.1 q /\ exists B, zlen B = size /\ reads c ptr B /\ R B cy.2
  | None => same_depths c cy.1 /\ left_ c ptr < size
  end.

Lemma sized_wp {Y} (R : list byte -> Y -> Prop) (reader : Z -> Z -> M (C * Y) (option Z)) c ptr y :
  at_value c ptr ->
  (forall q size, valid c q -> 0 <= size <= INT_MAX - kSlopBytes ->
    wp (reader q size) (c, y) (sized_post R size c q)) ->
  wp (let* (q, size) := on_fst (decode ReadSize ptr) in
      match q with None => ret None | Some ptr => reader ptr size end) (c, y)
    (one_post R (read_string (visible c ptr)) c ptr).
Proof.
  intros [[HI Hv _ _ _] Hle] Hrd. pose proof Hv as [Hp _].
  pose proof (zlen_visible c ptr HI ltac:(lia)) as El.
  apply wp_bind, on_fst_wp. wp_use ReadSize_wp; [done|lia|unfold kSlopBytes in *; lia|].
  intros [q size] c' [-> [Hf Hsz]]. cbv beta iota. unfold read_string.
  destruct (size_decode (visible c ptr)) as [[x l]|] eqn:Ed.
  - injection Hf as -> ->. pose proof (size_decode_suffix _ _ _ Ed) as (Hx & b & Eb & Hb).
    assert (0 < zlen (visible c ptr) - zlen l <= 5) as Hk by (rewrite Eb; unfold zlen; rewrite length_app; lia).
    set (k := zlen (visible c ptr) - zlen l) in *.
    assert (moves k c ptr c (ptr + k)) as Hm by (apply moves_add; done || lia).
    pose proof (visible_app c ptr b l _ _ HI ltac:(lia) Eb Hm) as Ev.
    pose proof (moves_left _ _ _ _ _ Hm) as Hl. cbn [mbind option_bind].
    wp_use Hrd; [by apply Hm|done|]. intros [q|] [c1 y1] Hr; unfold sized_post in Hr; simpl in Hr; cycle 1.
    { destruct Hr as [Hd Hr]. unfold parse_bytes.
      destruct (Z.leb_spec 0 x), (Z.leb_spec x (zlen l)); simpl; try by apply same_unwound.
      all: pose proof (zlen_nonneg l); lia. }
    destruct Hr as (Hm2 & B & HB & HrB & HR). unfold parse_bytes.
    destruct (Z.leb_spec 0 x), (Z.leb_spec x (zlen l)); try lia; simpl.
    + exists q. split; [done|]. split.
      * replace (zlen (visible c ptr) - zlen (zdrop x l)) with (k + x) by zl.
        eapply moves_trans; [lia|lia|exact Hm|exact Hm2].
      * replace (ztake x l) with B; [done|]. rewrite <- Ev, <- HB. apply reads_visible; [done|]. lia.
    + exists (k + x). split; [lia|]. split; [lia|].
      eapply moves_trans; [lia|lia|exact Hm|exact Hm2].
  - cbn [mbind option_bind]. destruct q as [q|]; [|by apply wp_ret, unwound_refl].
    simpl in Hf. specialize (Hsz ltac:(done)). simpl in Hsz.
    assert (moves (q - ptr) c ptr c q) as Hm.
    { replace q with (ptr + (q - ptr)) at 2 by lia. apply moves_add; done || lia. }
    wp_use Hrd; [by apply Hm|done|]. intros [q2|] [c1 y1] Hr; unfold sized_post in Hr; simpl in Hr.
    + destruct Hr as (Hm2 & _). exists ((q - ptr) + size). split; [lia|]. split; [lia|].
      eapply moves_trans; [lia|lia|exact Hm|exact Hm2].
    + by apply same_unwound, Hr.
Qed.

(** ** The set *)

Definition add_field (f : UnknownField) (s : UnknownFieldSet) : UnknownFieldSet := s ++ [f].

Lemma emits_add fs s : emits add_field fs s = s ++ fs.
Proof.
  revert s. induction fs as [|f fs IH]; intros s; simpl; [by rewrite app_nil_r|].
  unfold emits in *. simpl. rewrite IH. unfold add_field. by rewrite <- app_assoc.
Qed.

Lemma number_u32 num : 0 < num < 2 ^ 29 -> u32 num = num.
Proof. intros. by apply number_id. Qed.

Lemma in_string_wp {A} num (m : M (C * list byte) A) c s Q :
  wp m (c, []) (fun a cv => Q a (cv.1, AddLengthDelimited num cv.2 s)) -> wp (in_string num m) (c, s) Q.
Proof. unfold wp, in_string. simpl. by destruct (m (c, [])) as [[a [c1 v]]|]. Qed.

Lemma in_group_wp {A} num (m : M (C * UnknownFieldSet) A) c s Q :
  wp m (c, []) (fun a cg => Q a (cg.1, AddGroup num cg.2 s)) -> wp (in_group num m) (c, s) Q.
Proof. unfold wp, in_group. simpl. by destruct (m (c, [])) as [[a [c1 v]]|]. Qed.

Lemma set_length num c ptr s :
  at_value c ptr -> 0 < num < 2 ^ 29 ->
  wp (ParseLengthDelimited UnknownFieldParserHelper num ptr) (c, s)
    (one_post (fun b => emitted add_field s (LENGTH_DELIMITED num b)) (read_string (visible c ptr)) c ptr).
Proof.
  intros Hat Hn. simpl. apply in_string_wp.
  wp_use (sized_wp (fun B v => v = B) ReadString c ptr []); [done| |].
  - intros q size Hv Hs. wp_use string_wp; [apply Hat|done|lia|].
    intros r [c1 v] Hr. unfold string_post, sized_post in *. destruct r; [|done]. simpl in *.
    destruct Hr as (? & B & ? & ? & ->). split; [done|]. by exists B.
  - intros r [c1 v] Hr. unfold one_post in *. destruct (read_string _) as [[b l]|]; [|done].
    destruct Hr as (p & ? & ? & Hb). exists p. split; [done|]. split; [done|]. simpl in *. subst v.
    unfold emitted, add_field, AddLengthDelimited. by rewrite number_u32.
Qed.

Lemma set_group n m num c ptr s :
  parses add_field n m -> at_value c ptr -> (length (visible c ptr) < n)%nat -> 0 < num < 2 ^ 29 ->
  wp (ParseGroup UnknownFieldParserHelper m num ptr) (c, s)
    (one_post (fun fs => emitted add_field s (GROUP num fs)) (read_group num (depth_ c) (visible c ptr)) c ptr).
Proof.
  intros Hpar [Hr _] Hn Hnum. simpl. apply ParseGroupInlined_wp; [done|done|].
  intros c' Hr' Ev Ed Ee. apply in_group_wp. wp_use Hpar; [done|by rewrite Ev|].
  intros r [c1 g] Hp. unfold fields_post in *. cbn [fst snd] in *.
  destruct (_ <? 0); [done|]. destruct (read _ _) as [fs [|tag l|]]; cbn [fst snd] in *; [| |done].
  - destruct Hp as (p & ? & ? & ? & Hx). exists p. split_and!; try done.
    unfold all_emitted in Hx. rewrite emits_add in Hx. subst g.
    unfold emitted, add_field, AddGroup. by rewrite number_u32.
  - destruct Hp as (p & ? & ? & ? & Hx). exists p. split_and!; try done.
    unfold all_emitted in Hx. rewrite emits_add in Hx. subst g.
    unfold emitted, add_field, AddGroup. by rewrite number_u32.
Qed.

Lemma set_parses n : parses add_field n (WireFormatParser_loop (S := S) UnknownFieldParserHelper n).
Proof.
  apply WireFormatParser_loop_wp.
  - intros num v s Hn _. simpl. unfold UnknownFields.AddVarint. by rewrite number_u32.
  - intros num v s Hn _. simpl. unfold UnknownFields.AddFixed64. by rewrite number_u32.
  - intros num v s Hn _. simpl. unfold UnknownFields.AddFixed32. by rewrite number_u32.
  - apply set_length.
  - apply set_group.
Qed.

(** ** The string *)

Lemma WriteVarint_eq v : WriteVarint v = UnsafeVarint v.
Proof.
  unfold WriteVarint, UnsafeVarint, kMaxVarintBytes. generalize 10%nat. intros n. revert v.
  induction n as [|n IH]; intros v; [done|]. simpl. by rewrite IH.
Qed.

Lemma WriteVarint_tag num k :
  0 < num < 2 ^ 29 -> 0 <= k < 8 -> WriteVarint (u32 (num * 8 + k)) = WriteTagToArray num k.
Proof.
  intros Hn Hk. rewrite WriteVarint_eq. unfold WriteTagToArray, WriteVarint32ToArray. f_equal.
  rewrite MakeTag_eq by lia. change (2 ^ 29) with 536870912 in *. rewrite u32_id; ilia.
Qed.

(** [AddVarint] has no [+ 0]. *)
Lemma WriteVarint_tag0 num :
  0 < num < 2 ^ 29 -> WriteVarint (u32 (num * 8)) = WriteTagToArray num 0.
Proof. intros. rewrite <- WriteVarint_tag by lia. by rewrite Z.add_0_r. Qed.

Definition keep_field (f : UnknownField) : option (list byte) -> option (list byte) :=
  append_unknown (SerializeField (fun _ => false) f).

Lemma append_unknown_app a b x :
  append_unknown b (append_unknown a x) = append_unknown (a ++ b) x.
Proof. destruct x; [|done]. simpl. by rewrite app_assoc. Qed.

Lemma emits_keep fs x : emits keep_field fs x = append_unknown (serialize fs) x.
Proof.
  revert x. unfold serialize, InternalSerializeUnknownFieldsToArray.
  induction fs as [|f fs IH]; intros x.
  { destruct x; simpl; [by rewrite app_nil_r|done]. }
  unfold emits in *. simpl. rewrite IH. unfold keep_field. by rewrite append_unknown_app.
Qed.

Lemma on_string_wp {A} (m : M (C * list byte) A) c str Q :
  wp m (c, str) (fun a cv => Q a (cv.1, Some cv.2)) -> wp (on_string m) (c, Some str) Q.
Proof. unfold wp, on_string. simpl. by destruct (m (c, str)) as [[a [c1 v]]|]. Qed.

Lemma without_string_wp {A} (m : M (C * unit) A) c x Q :
  wp m (c, tt) (fun a cv => Q a (cv.1, x)) -> wp (without_string m) (c, x) Q.
Proof. unfold wp, without_string. simpl. by destruct (m (c, tt)) as [[a [c1 v]]|]. Qed.

Lemma SerializeField_bytes num B :
  0 < num < 2 ^ 29 -> zlen B <= INT_MAX ->
  SerializeField (fun _ => false) (LENGTH_DELIMITED num B) =
    WriteVarint (u32 (num * 8 + 2)) ++ WriteVarint (zlen B) ++ B.
Proof.
  intros Hn Hl. cbn [SerializeField]. unfold number; cbn [number_].
  destruct (number_id num Hn) as [-> Eu]. rewrite Eu, WriteString_eq by done.
  by rewrite (WriteVarint_tag num 2), WriteVarint_eq by lia.
Qed.

Lemma lite_length num c ptr x :
  at_value c ptr -> 0 < num < 2 ^ 29 ->
  wp (ParseLengthDelimited UnknownFieldLiteParserHelper num ptr) (c, x)
    (one_post (fun b => emitted keep_field x (LENGTH_DELIMITED num b)) (read_string (visible c ptr)) c ptr).
Proof.
  intros Hat Hn. simpl. apply sized_wp; [done|]. intros q size Hv Hs. apply wp_bind, wp_getS. simpl.
  pose proof (proj1 Hat) as [HI _ _ _ _]. pose proof Hv as [Hq _].
  destruct x as [str|].
  - apply wp_bind, on_snd_wp, wp_modS. apply wp_bind, on_snd_wp, wp_modS. simpl.
    apply on_string_wp. wp_use AppendString_wp; [done|done|lia|].
    intros r [c1 v] Hr. unfold string_post, sized_post in *. destruct r; [|done]. simpl in *.
    destruct Hr as (? & B & HB & ? & ->). split; [done|]. exists B. split_and!; [done|done|].
    unfold emitted, keep_field. rewrite SerializeField_bytes, HB by (done || (unfold kSlopBytes in *; lia)).
    simpl. by rewrite <- !app_assoc.
  - apply without_string_wp. wp_use Skip_wp; [done|done|lia|].
    intros r [c1 []] Hr. unfold skip_post, sized_post in *. destruct r; [|done]. split; [done|].
    destruct (reads_exists c q size HI ltac:(lia) ltac:(lia)) as (B & ? & ?). by exists B.
Qed.

Lemma lite_group n m num c ptr x :
  parses keep_field n m -> at_value c ptr -> (length (visible c ptr) < n)%nat -> 0 < num < 2 ^ 29 ->
  wp (ParseGroup UnknownFieldLiteParserHelper m num ptr) (c, x)
    (one_post (fun fs => emitted keep_field x (GROUP num fs)) (read_group num (depth_ c) (visible c ptr)) c ptr).
Proof.
  intros Hpar [Hr _] Hn Hnum. simpl. apply wp_bind, on_snd_wp, wp_modS.
  set (x1 := append_unknown _ x). apply wp_bind.
  wp_use (ParseGroupInlined_wp (fun fs => all_emitted keep_field x1 fs)); [done|done| |].
  { intros c' Hr' Ev Ed Ee. apply Hpar; [done|by rewrite Ev]. }
  intros r [c1 y] Hp. unfold one_post in Hp. destruct (read_group _ _ _) as [[fs l]|].
  - destruct Hp as (p & -> & Hm & Hx). apply wp_bind, on_snd_wp, wp_modS, wp_ret.
    exists p. split; [done|]. split; [done|]. cbn [fst snd] in *. unfold all_emitted in Hx. subst y x1.
    rewrite emits_keep, !append_unknown_app. unfold emitted, keep_field. cbn [SerializeField].
    unfold number; cbn [number_]. destruct (number_id num Hnum) as [-> _].
    by rewrite !WriteVarint_tag by lia.
  - destruct r as [p|]; [|by apply wp_ret].
    destruct Hp as (k & ? & ? & Hm). apply wp_bind, on_snd_wp, wp_modS, wp_ret. by exists k.
Qed.

Lemma lite_parses n : parses keep_field n (WireFormatParser_loop (S := S) UnknownFieldLiteParserHelper n).
Proof.
  apply WireFormatParser_loop_wp.
  - intros num v s Hn _. unfold keep_field. cbn [SerializeField]. unfold number; cbn [number_].
    destruct (number_id num Hn) as [-> _]. simpl. rewrite WriteVarint_tag0 by done.
    by rewrite WriteVarint_eq.
  - intros num v s Hn _. unfold keep_field. cbn [SerializeField]. unfold number; cbn [number_].
    destruct (number_id num Hn) as [-> _]. simpl. by rewrite (WriteVarint_tag _ 1) by lia.
  - intros num v s Hn _. unfold keep_field. cbn [SerializeField]. unfold number; cbn [number_].
    destruct (number_id num Hn) as [-> _]. simpl. by rewrite (WriteVarint_tag _ 5) by lia.
  - apply lite_length.
  - apply lite_group.
Qed.

(** ** Construction *)

(** A context at the start of [l], of which the limit shows [until] bytes. *)
Record starts (l : list byte) (until depth : Z) c ptr : Prop := {
  starts_inv : Inv c;
  starts_valid : valid c ptr;
  starts_visible : visible c ptr = l;
  starts_until : BytesUntilLimit c ptr = until;
  starts_left : 0 <= left_ c ptr;
  starts_tag : last_tag_minus_1_ c = 0;
  starts_depth : depth_ c = depth;
  starts_group : group_depth_ c = INT_MIN;
}.

Lemma starts_ready l until depth c ptr :
  starts l until depth c ptr -> 0 <= depth <= INT_MAX -> ready c ptr.
Proof. intros [] Hd. split; try done; unfold INT_MIN, INT_MAX in *; lia. Qed.

Lemma InitFrom_flat_wp flat depth aliasing :
  zlen flat <= INT_MAX ->
  wp (InitFrom_flat flat) (fresh (S := S) depth aliasing)
    (fun ptr c => starts flat (zlen flat) depth c ptr).
Proof.
  intros Hl. pose proof (zlen_nonneg flat). unfold InitFrom_flat. wp_steps.
  destruct (Z.ltb_spec kSlopBytes (zlen flat)) as [Hlt|Hge]; wp_steps.
  - set (c := set_limit_end _ _). unfold kSlopBytes, INT_MAX in *.
    assert (Shape c) as HS.
    { split; simpl; try done; unfold kSlopBytes, memory, INT_MAX; simpl; lia. }
    assert (slop c = zdrop (zlen flat - 16) flat) as Es.
    { unfold slop, memory, kSlopBytes. simpl. apply ztake_all. zl. }
    assert (tail c = slop c) as Et by (unfold tail, stream_rest; simpl; by rewrite app_nil_r).
    pose proof (zlen_slop c HS) as Hsl. unfold kSlopBytes in Hsl.
    split; try done.
    + split; [done|unfold within, allowed; rewrite Et, Hsl; simpl; unfold kSlopBytes; lia|
        unfold INT_MAX; simpl; unfold kSlopBytes; lia|simpl; unfold kSlopBytes; lia].
    + unfold valid, BytesUntilLimit, kSlopBytes, INT_MAX. simpl. unfold kSlopBytes. lia.
    + unfold visible, whole, BytesUntilLimit, allowed. rewrite Et, Es. unfold memory. simpl.
      rewrite ztake_zdrop, zdrop_0 by lia. unfold kSlopBytes. rewrite !ztake_all; [done|zl..].
    + unfold BytesUntilLimit. simpl. unfold kSlopBytes. lia.
    + unfold left_, total, allowed, BytesUntilLimit. rewrite Et, Hsl. simpl. unfold kSlopBytes. lia.
  - set (c := set_limit_end _ _). unfold kSlopBytes, INT_MAX in *.
    assert (zlen (patch_buffer_ c) = 32) as Hp.
    { simpl. rewrite zlen_splice; [done|lia|]. change (zlen (repeat _ _)) with 32. lia. }
    assert (ztake (zlen flat) (patch_buffer_ c) = flat) as Ef.
    { simpl. pose proof (ztake_splice 0 flat (repeat (z2b 0) (Z.to_nat kPatchBufferSize))) as E.
      change (zlen (repeat _ _)) with 32 in E. rewrite (ztake_0 0) in E by lia. apply E. lia. }
    assert (Shape c) as HS.
    { split; try done; unfold kSlopBytes, memory, INT_MAX; simpl in *; rewrite ?Hp; lia. }
    split; try done.
    + split; [done|unfold within, allowed, tail; simpl; lia|
        unfold INT_MAX; simpl; lia|simpl; lia].
    + unfold valid, BytesUntilLimit, kSlopBytes, INT_MAX. simpl. lia.
    + unfold visible, whole, BytesUntilLimit, allowed, tail, memory. simpl in *.
      rewrite Ef, app_nil_r, zdrop_0 by lia. rewrite !ztake_all; [done|zl..].
    + unfold BytesUntilLimit. simpl. lia.
    + unfold left_, total, allowed, BytesUntilLimit, tail. simpl. change (zlen []) with 0. lia.
Qed.

(** After the first [Next] of a stream, before a limit is set: [o] is the overall
    limit. *)
Record opened (o : Z) (z : S) depth c ptr : Prop := {
  opened_shape : Shape c;
  opened_ptr : 0 <= ptr <= buffer_end_ c + kSlopBytes;
  opened_whole : whole c ptr = ztake o (content z);
  opened_limit : limit_ c = INT_MAX - Z.max 0 (buffer_end_ c - ptr);
  opened_limit_end : limit_end_ c = buffer_end_ c;
  opened_allowed : next_chunk_ c = nc_null /\ buffer_end_ c = ptr /\ allowed c = 0 /\ stream_rest c = [] \/
                   next_chunk_ c <> nc_null /\ allowed c + buffer_end_ c - ptr = o;
  opened_close : - kSlopBytes <= buffer_end_ c - ptr <= zlen (content z);
  opened_hidden : hidden c = zdrop o (content z);
  opened_zcis : zcis_ c <> None;
  opened_tag : last_tag_minus_1_ c = 0;
  opened_depth : depth_ c = depth;
  opened_group : group_depth_ c = INT_MIN;
}.

Lemma InitFrom_zcis_wp o z depth aliasing :
  stream_ok z -> zlen (content z) <= INT_MAX -> 0 <= o <= INT_MAX ->
  wp (InitFrom_zcis z) (set_overall_limit o (fresh depth aliasing)) (fun ptr c => opened o z depth c ptr).
Proof.
  intros Hok Hl Ho. unfold InitFrom_zcis. wp_steps.
  destruct (wp_inv _ _ _ (next_ok z Hok)) as (r & z' & E & Hok' & Hr).
  eapply wp_lift; [exact E|]. cbv beta iota. wp_steps.
  destruct r as [data|]; cycle 1.
  { destruct Hr as (E1 & E2 & _). wp_steps. split; try done; simpl.
    - split; simpl; rewrite ?E2; unfold kSlopBytes, memory, INT_MAX; simpl;
        try change (zlen (repeat _ _)) with 32; try done; try lia.
    - unfold whole, tail; simpl. rewrite E1. unfold ztake. by rewrite !take_nil.
    - left. split_and!; done.
    - rewrite E1. by change (zlen []) with 0.
    - unfold hidden, zdrop. simpl. by rewrite E1, E2, !drop_nil. }
  destruct Hr as (Ec & Hsuf & _ & _). pose proof (zlen_nonneg data).
  assert (zlen data <= INT_MAX /\ zlen (content z') <= INT_MAX) as [Hdl Hcl] by (rewrite Ec in Hl; zl).
  assert (zlen data <= zlen (backable z')) as Hbk by (destruct Hsuf as [pre ->]; zl).
  pose proof (hidden_next (set_stream z (set_overall_limit o (fresh depth aliasing))) z z' data 0
    eq_refl ltac:(apply Ho) Ec Hsuf) as Hh.
  assert (hidden (set_stream z (set_overall_limit o (fresh depth aliasing))) = zdrop o (content z)) as Eh.
  { unfold hidden. simpl. by rewrite (proj2 (Z.ltb_ge o 0)) by lia. }
  apply wp_bind, int_wp; [simpl; unfold INT_MAX in *; lia|]. wp_steps. simpl overall_limit_.
  destruct (Z.ltb_spec kSlopBytes (zlen data)) as [Hlt|Hge].
  - apply wp_bind, int_wp; [simpl; unfold kSlopBytes, INT_MAX in *; lia|]. wp_steps.
    set (c := set_limit_end _ _). unfold kSlopBytes, INT_MAX in *.
    assert (Shape c) as HS.
    { split; simpl; try done; unfold kSlopBytes, memory, INT_MAX; simpl; split_and?; done || lia. }
    assert (slop c = zdrop (zlen data - 16) data) as Es.
    { unfold slop, memory, kSlopBytes. simpl. apply ztake_all. zl. }
    split; try done; simpl; unfold kSlopBytes, INT_MAX; try lia.
    + unfold whole, allowed, tail, memory. rewrite Es. simpl. unfold stream_rest, kSlopBytes. simpl.
      rewrite app_assoc, ztake_zdrop, zdrop_0, Ec by lia. f_equal. lia.
    + right. split; [done|]. unfold allowed. simpl. unfold kSlopBytes. lia.
    + rewrite Ec. zl.
    + rewrite <- Eh, <- Hh. done.
  - wp_steps. set (c := set_patch _ _). unfold kSlopBytes, kPatchBufferSize, INT_MAX in *.
    assert (zlen (patch_buffer_ c) = 32) as Hp.
    { simpl. rewrite zlen_splice; [done|lia|]. change (zlen (repeat _ _)) with 32. lia. }
    assert (zdrop (32 - zlen data) (patch_buffer_ c) = data) as Ed.
    { simpl. unfold splice. rewrite zdrop_app_exact by (rewrite zlen_ztake; change (zlen (repeat _ _)) with 32; lia).
      rewrite (zdrop_all _ (repeat _ _)) by (change (zlen (repeat _ _)) with 32; lia).
      by rewrite app_nil_r. }
    assert (Shape c) as HS.
    { split; try done; unfold kSlopBytes, memory, INT_MAX; simpl in *; rewrite ?Hp; split_and?; done || lia. }
    split; try done; simpl; unfold kSlopBytes, INT_MAX; try lia.
    + unfold whole, allowed, tail, slop, memory. unfold stream_rest, kSlopBytes. simpl zcis_. cbv iota.
      change (buffer_end_ c) with 16. change (next_chunk_ c) with nc_patch. change (buffer_ c) with (@None (list byte)).
      cbv iota. rewrite (ztake_all 16 (zdrop 16 _)) by zl.
      rewrite app_assoc, ztake_zdrop. rewrite zdrop_app, Ed, (zdrop_0 _ (content z')) by zl.
      change (overall_limit_ c) with (o - zlen data). rewrite Ec. f_equal. lia.
    + right. split; [done|]. unfold allowed. simpl. unfold kSlopBytes. lia.
    + rewrite Ec. zl.
    + rewrite <- Eh, <- Hh. done.
Qed.

Lemma opened_total o z depth c ptr : opened o z depth c ptr -> 0 <= o -> 0 <= total c ptr.
Proof.
  intros [HS Hp Hw Hl Hle Ha Hc Hh Hzc Ht Hd Hg] Ho. pose proof (zlen_slop c HS) as Hs. unfold total.
  destruct (tail_cases c HS) as [[En Et]|[En [k Et]]]; rewrite Et.
  - destruct Ha as [(_ & -> & -> & _)|[? _]]; [|done]. change (zlen []) with 0. lia.
  - destruct Ha as [(? & _)|[_ Ha]]; [done|]. rewrite zlen_app, Hs. pose proof (zlen_nonneg k). unfold kSlopBytes in *. lia.
Qed.

Lemma starts_zcis z depth c ptr :
  opened INT_MAX z depth c ptr -> zlen (content z) <= INT_MAX - kSlopBytes ->
  starts (content z) (BytesUntilLimit c ptr) depth c ptr /\
  INT_MAX - kSlopBytes <= BytesUntilLimit c ptr.
Proof.
  intros Hop Hz. pose proof (opened_total _ _ _ _ _ Hop ltac:(done)) as Htot.
  destruct Hop as [HS Hp Hw Hl Hle Ha Hc Hh Hzc Ht Hd Hg]. pose proof (shape_end _ HS) as [? ?].
  assert (INT_MAX - kSlopBytes <= BytesUntilLimit c ptr <= INT_MAX) as Hu
    by (unfold BytesUntilLimit; unfold kSlopBytes in *; lia).
  pose proof (zlen_nonneg (content z)). split; [split; try done|lia].
  - split; [done| | |lia].
    + unfold within. destruct Ha as [(En & _ & -> & _)|[_ Ha]]; [unfold tail; rewrite En, zlen_nil; lia|lia].
    + unfold kSlopBytes, INT_MAX in *. lia.
  - unfold valid, kSlopBytes, INT_MAX in *. lia.
  - unfold visible. rewrite Hw, !ztake_all; [done|unfold kSlopBytes in *; zl..].
  - unfold left_, kSlopBytes, INT_MAX in *. lia.
Qed.

Lemma starts_bounded z depth limit c ptr :
  opened limit z depth c ptr -> zlen (content z) <= INT_MAX -> 0 <= limit <= INT_MAX - kSlopBytes ->
  let l := limit - (buffer_end_ c - ptr) in
  - 2 ^ 31 <= l <= INT_MAX /\
  starts (ztake limit (content z)) limit depth
    (set_limit_end (buffer_end_ c + Z.min 0 l) (set_limit l c)) ptr.
Proof.
  intros Hop Hz Hlim l. pose proof (opened_total _ _ _ _ _ Hop ltac:(lia)) as Htot.
  destruct Hop as [HS Hp Hw Hl Hle Ha Hc Hh Hzc Ht Hd Hg]. pose proof (shape_end _ HS) as [? ?].
  assert (- INT_MAX <= l <= INT_MAX) as Hlr by (unfold l, kSlopBytes, INT_MAX in *; lia).
  assert (BytesUntilLimit (set_limit_end (buffer_end_ c + Z.min 0 l) (set_limit l c)) ptr = limit) as Hu.
  { unfold BytesUntilLimit. simpl. unfold l. lia. }
  split; [unfold INT_MAX in *; lia|]. split; try done.
  - split; [| |done|done].
    + destruct HS. by split.
    + unfold within. simpl. change (Z.min l (zlen (tail c)) <= allowed c).
      destruct Ha as [(En & _ & -> & _)|[_ Ha]]; [unfold tail; rewrite En, zlen_nil; lia|unfold l; lia].
  - split; [done|]. rewrite Hu. unfold kSlopBytes in *. lia.
  - unfold visible. rewrite Hu. change (ztake limit (whole c ptr) = ztake limit (content z)).
    rewrite Hw, ztake_ztake. f_equal. lia.
  - unfold left_. rewrite Hu. change (0 <= Z.min limit (total c ptr)). lia.
Qed.

(** ** The entry points *)

(** A message and the outcome of reading it. *)
Section entry.
Context {X : Type} (emit : UnknownField -> X -> X) (ParseLoop : Z -> M (C * X) (option Z)).
Context (CheckFieldPresence : X -> bool) (depth : Z) (aliasing : bool).
Hypothesis depth_ok : 0 <= depth <= INT_MAX.
Hypothesis loop_ok : forall c ptr x, ready c ptr ->
  wp (ParseLoop ptr) (c, x) (fields_post (all_emitted emit x) (read (depth_ c) (visible c ptr)) c ptr).

(** A message is accepted, with its fields, if [read] comes to the end of its
    bytes [l]; [complete] tells whether these are all that is asked for. *)
Definition accepts (complete : bool) (l : list byte) (x : X) (ok : bool) (x' : X) : Prop :=
  match read depth l with
  | (fs, ended) =>
      ok = (if complete then CheckFieldPresence (emits emit fs x) else false) /\ x' = emits emit fs x
  | _ => ok = false
  end.

(** The last tag after a stop is not that of a limit or of the end. *)
Lemma stop_tag tag :
  is_u32 tag -> tag = 0 \/ GetTagWireType tag = WIRETYPE_END_GROUP ->
  u32 (tag - 1) <> 0 /\ u32 (tag - 1) <> 1.
Proof.
  rewrite GetTagWireType_eq. change WIRETYPE_END_GROUP with 4. intros Hu [-> | Ht]; [by vm_compute|].
  unfold_ints. destruct (Z.eqb_spec tag 0) as [->|]; [by vm_compute|].
  rewrite Z.mod_small by lia. split; intros E; replace tag with (1 + (tag - 1)) in Ht by lia; rewrite E in Ht; done.
Qed.

Lemma read_fields_stopped n d l fs tag r :
  read_fields n d l = (fs, stopped tag r) -> tag = 0 \/ GetTagWireType tag = WIRETYPE_END_GROUP.
Proof.
  revert d l fs tag r. induction n as [|n IH]; intros d l fs tag r; simpl; [done|].
  destruct l as [|b l]; [done|]. destruct (tag_decode (b :: l)) as [[x r1]|]; [|done].
  destruct (_ || _) eqn:Es.
  { intros [= _ -> _]. apply orb_true_iff in Es as [Es%Z.eqb_eq|Es%Z.eqb_eq]; [by left|by right]. }
  destruct (read_field _ _ _ r1) as [[f r2]|]; [|done].
  destruct (read_fields n d r2) as [fs2 e] eqn:E2. intros [= _ ->]. by eapply IH.
Qed.

(** What the parse loop makes of a message. *)
Definition loop_post (l : list byte) (until : Z) c ptr (x : X) (r : option Z) (cx : C * X) : Prop :=
  match read depth l with
  | (fs, ended) => exists p, r = Some p /\ cx.2 = emits emit fs x /\
      last_tag_minus_1_ cx.1 = (if until =? zlen l then 0 else 1) /\
      moves_to (zlen l) c ptr cx.1 p
  | (_, e) =>
      (r <> None -> last_tag_minus_1_ cx.1 <> 0 /\ last_tag_minus_1_ cx.1 <> 1) /\
      (e = failed -> forall p, r = Some p -> exists k, left_ c ptr < k /\ moves_to k c ptr cx.1 p)
  end.

Lemma loop_starts l until c ptr x :
  starts l until depth c ptr -> wp (ParseLoop ptr) (c, x) (loop_post l until c ptr x).
Proof.
  intros Hs. wp_use loop_ok; [by eapply starts_ready|]. destruct Hs as [HI Hv El Eu Hleft Ht Hd Hg].
  intros r [c1 x1] Hp. unfold fields_post in Hp. rewrite El, Hd, Eu in Hp.
  destruct (Z.ltb_spec (left_ c ptr) 0); [lia|]. unfold loop_post.
  destruct (read depth l) as [fs [|tag rest|]] eqn:Er; simpl in Hp.
  - destruct Hp as (p & -> & ? & ? & ?). exists p. by split_and!.
  - destruct Hp as (p & -> & _ & Et & _). split; [|done]. intros _. cbn [fst]. rewrite Et.
    apply stop_tag; [by eapply read_fields_suffix|by eapply read_fields_stopped].
  - destruct r as [p|]; [|done]. destruct Hp as (k & tag & Hk & Hm & Et & Hu & Ht').
    split; [intros _; cbn [fst]; rewrite Et; by apply stop_tag|].
    intros _ q [= <-]. by exists k.
Qed.

Lemma rejected (r : option Z) (b : C -> bool) c x :
  (r <> None -> b c = false) ->
  wp (match r with
      | Some _ => ret (if b c then CheckFieldPresence x else false)
      | None => ret false
      end) (c, x) (fun ok _ => ok = false).
Proof. intros Hr. destruct r; apply wp_ret; [|done]. by rewrite Hr. Qed.

Lemma MergeFromImpl_flat_wp input c0 x :
  zlen input <= INT_MAX ->
  wp (MergeFromImpl_flat ParseLoop CheckFieldPresence depth aliasing input) (c0, x)
    (fun ok cx => accepts true input x ok cx.2).
Proof.
  intros Hl. unfold MergeFromImpl_flat. apply wp_bind, on_fst_wp. unfold wp at 1, putS.
  apply wp_bind, on_fst_wp. wp_use InitFrom_flat_wp; [done|]. intros ptr c Hs.
  apply wp_bind. wp_use loop_starts; [exact Hs|]. intros r [c1 x1] Hp. apply wp_bind, wp_getS.
  unfold loop_post in Hp. unfold accepts. cbn [fst snd] in *.
  destruct (read depth input) as [fs [|tag rest|]].
  - destruct Hp as (p & -> & -> & Et & _). rewrite Z.eqb_refl in Et. apply wp_ret.
    unfold EndedAtLimit. by rewrite Et.
  - apply rejected. intros. by apply Z.eqb_neq, (proj1 Hp).
  - apply rejected. intros. by apply Z.eqb_neq, (proj1 Hp).
Qed.

Lemma MergeFromImpl_zcis_wp input c0 x :
  stream_ok input -> zlen (content input) < INT_MAX - kSlopBytes ->
  wp (MergeFromImpl_zcis ParseLoop CheckFieldPresence depth aliasing input) (c0, x)
    (fun ok cx => accepts true (content input) x ok cx.2).
Proof.
  intros Hok Hl. unfold MergeFromImpl_zcis. apply wp_bind, on_fst_wp. unfold wp at 1, putS.
  change (fresh depth aliasing) with (set_overall_limit INT_MAX (fresh (S := S) depth aliasing)).
  apply wp_bind, on_fst_wp. wp_use InitFrom_zcis_wp; [done|unfold kSlopBytes in *; lia|done|].
  intros ptr c Hop. apply starts_zcis in Hop as [Hs Hu]; [|lia].
  apply wp_bind. wp_use loop_starts; [exact Hs|]. intros r [c1 x1] Hp. apply wp_bind, wp_getS.
  unfold loop_post in Hp. unfold accepts. cbn [fst snd] in *.
  destruct (read depth (content input)) as [fs [|tag rest|]].
  - destruct Hp as (p & -> & -> & Et & _). rewrite (proj2 (Z.eqb_neq _ _)) in Et by lia. apply wp_ret.
    unfold EndedAtEndOfStream. by rewrite Et.
  - apply rejected. intros. by apply Z.eqb_neq, (proj1 Hp).
  - apply rejected. intros. by apply Z.eqb_neq, (proj1 Hp).
Qed.

Lemma opened_budget o z c ptr : opened o z depth c ptr -> 0 <= o -> budget c ptr <= o.
Proof.
  intros Hop Ho. unfold budget. destruct (opened_allowed _ _ _ _ _ Hop) as [(_ & -> & -> & _)|[_ ?]]; lia.
Qed.

(** At a place that is at or past the end of all that the overall limit allows. *)
Lemma give_back_wp k c ptr c' p :
  moves_to k c ptr c' p -> budget c ptr <= BytesUntilLimit c ptr -> left_ c ptr <= k -> zcis_ c <> None ->
  wp (EpsCopyInput.BackUp p) c' (fun _ c2 => last_tag_minus_1_ c2 = last_tag_minus_1_ c' /\
    exists z', zcis_ c2 = Some z' /\ stream_ok z' /\ (k = left_ c ptr -> content z' = hidden c)).
Proof.
  unfold moves_to. intros Hm Hb Hk Hz.
  assert (left_ c ptr = total c ptr) as El by (unfold left_, budget, total in *; lia).
  pose proof (moves_total _ _ _ _ _ Hm) as Et. change (total c' p = total c ptr - k) in Et.
  destruct (moves_stream _ _ _ _ _ Hm) as ([Eh Hz'] & _). change (hidden c' = hidden c) in Eh.
  assert (Shape c') as HS by (destruct (inv_shape _ (moves_inv _ _ _ _ _ Hm)); by split).
  pose proof (moves_valid _ _ _ _ _ Hm) as [Hp _].
  wp_use BackUp_end_wp; [done|by apply Hz'|done|lia|].
  intros [] c2 (? & z2 & ? & ? & Hc2). split; [done|]. exists z2. split; [done|]. split; [done|].
  intros E. rewrite <- Eh. apply Hc2. lia.
Qed.

Lemma InitFrom_bounded_wp input limit :
  stream_ok input -> zlen (content input) <= INT_MAX -> 0 <= limit <= INT_MAX - kSlopBytes ->
  wp (InitFrom_bounded input limit) (fresh depth aliasing) (fun ptr c =>
    starts (ztake limit (content input)) limit depth c ptr /\
    budget c ptr <= limit /\ hidden c = zdrop limit (content input) /\ zcis_ c <> None).
Proof.
  intros Hok Hl Hlim. unfold InitFrom_bounded. destruct (Z.eqb_spec limit (-1)); [lia|]. wp_steps.
  wp_use InitFrom_zcis_wp; [done|done|unfold kSlopBytes in *; lia|]. intros ptr c Hop. wp_steps.
  pose proof (starts_bounded _ _ _ _ _ Hop Hl Hlim) as [Hr Hs].
  apply int_wp; [done|]. unfold place_limit_end. wp_steps. split; [exact Hs|].
  split; [exact (opened_budget _ _ _ _ Hop ltac:(lia))|]. split; [exact (opened_hidden _ _ _ _ _ Hop)|].
  exact (opened_zcis _ _ _ _ _ Hop).
Qed.

Lemma MergeFromImpl_bounded_wp input limit c0 x :
  stream_ok input -> zlen (content input) <= INT_MAX -> 0 <= limit <= INT_MAX - kSlopBytes ->
  let l := ztake limit (content input) in
  (forall tag rest, (read depth l).2 <> stopped tag rest) ->
  wp (MergeFromImpl_bounded ParseLoop CheckFieldPresence depth aliasing input limit) (c0, x) (fun ok cx =>
    accepts (limit <=? zlen (content input)) l x ok cx.2 /\
    ((read depth l).2 = ended -> exists z', zcis_ cx.1 = Some z' /\ stream_ok z' /\
                                 content z' = zdrop limit (content input))).
Proof.
  intros Hok Hl Hlim l Hstop. unfold MergeFromImpl_bounded. apply wp_bind, on_fst_wp. unfold wp at 1, putS.
  apply wp_bind, on_fst_wp. wp_use InitFrom_bounded_wp; [done|done|done|]. fold l.
  intros ptr c (Hs & Hb & Eh & Hz). pose proof Hs as [HI [Hv _] El Eu Hleft _ _ _].
  pose proof (zlen_visible c ptr HI ltac:(lia)) as Evl. rewrite El in Evl.
  assert (zlen l = Z.min limit (zlen (content input))) as Ell by (unfold l; pose proof (zlen_nonneg (content input)); zl).
  apply wp_bind. wp_use loop_starts; [exact Hs|]. intros r [c1 x1] Hp.
  unfold loop_post in Hp. unfold accepts. cbn [fst snd] in *.
  destruct (read depth l) as [fs [|tag rest|]].
  - destruct Hp as (p & -> & -> & Et & Hm). apply wp_bind, on_fst_wp.
    wp_use give_back_wp; [exact Hm|lia|lia|done|]. intros [] c2 (Et2 & z2 & Ez2 & Hok2 & Hc2).
    apply wp_bind, wp_getS, wp_ret. cbn [fst snd]. unfold EndedAtLimit. rewrite Et2, Et.
    split.
    + destruct (Z.eqb_spec limit (zlen l)), (Z.leb_spec limit (zlen (content input))); done || lia.
    + intros _. exists z2. split; [done|]. split; [done|]. rewrite <- Eh. apply Hc2. lia.
  - by destruct (Hstop tag rest).
  - destruct Hp as [Htag Hmv]. destruct r as [p|]; [|by apply wp_ret].
    destruct (Hmv eq_refl p eq_refl) as (k & Hk & Hm). apply wp_bind, on_fst_wp.
    wp_use give_back_wp; [exact Hm|lia|lia|done|]. intros [] c2 (Et2 & _).
    apply wp_bind, wp_getS, wp_ret. cbn [fst snd]. unfold EndedAtLimit. rewrite Et2.
    split; [|done]. by rewrite (proj2 (Z.eqb_neq _ _)) by (apply Htag; done).
Qed.
End entry.

(** ** The parsers of unknown fields *)

Lemma visible_bytes c ptr : Inv c -> 0 <= ptr -> (length (visible c ptr) < bytes_left c)%nat.
Proof.
  intros HI Hp. pose proof (inv_shape _ HI) as HS. pose proof (zlen_slop c HS) as Hs.
  pose proof (shape_end _ HS) as [? ?].
  assert (zlen (visible c ptr) <= zlen (memory c) + zlen (tail c)) as Hl.
  { rewrite zlen_visible by done. pose proof (zlen_nonneg (tail c)).
    unfold left_, total, kSlopBytes in *. lia. }
  unfold bytes_left. unfold tail, stream_rest, zlen in *.
  destruct (next_chunk_ c), (zcis_ c); rewrite ?length_app in Hl; simpl in Hl; unfold kSlopBytes in *; lia.
Qed.

Lemma set_loop_ok c ptr s :
  ready c ptr ->
  wp (UnknownGroupParse ptr) (c, s)
    (fields_post (all_emitted add_field s) (read (depth_ c) (visible c ptr)) c ptr).
Proof.
  intros Hr. pose proof Hr as [HI [Hv _] _ _ _].
  apply set_parses; [done|]. cbn [fst]. apply visible_bytes; [done|lia].
Qed.

Lemma lite_loop_ok c ptr x :
  ready c ptr ->
  wp (UnknownGroupLiteParse ptr) (c, x)
    (fields_post (all_emitted keep_field x) (read (depth_ c) (visible c ptr)) c ptr).
Proof.
  intros Hr. pose proof Hr as [HI [Hv _] _ _ _].
  apply lite_parses; [done|]. cbn [fst]. apply visible_bytes; [done|lia].
Qed.
End clients.

(** *** The two parsers of the library

    [parse] is what the skippers over a [CodedInputStream] do; it accepts what
    this parser accepts, with the same fields. *)

Lemma vdecode_longer n m l r : (n <= m)%nat -> vdecode n l = Some r -> vdecode m l = Some r.
Proof.
  revert m l r. induction n as [|n IH]; intros m l r Hm E; [done|]. destruct m as [|m]; [lia|].
  destruct l as [|b l]; [done|]. unfold vdecode in *; fold vdecode in *.
  destruct (b2z b <? 128); [done|]. destruct (vdecode n l) as [[v r']|] eqn:E'; [|done].
  by rewrite (IH m l _ ltac:(lia) E').
Qed.

Lemma read_string_parse l b r :
  read_string l = Some (b, r) ->
  ('(x, r) ← vdecode kMaxVarintBytes l; parse_bytes (s32 (u32 x)) r) = Some (b, r).
Proof.
  unfold read_string, size_decode. destruct (vdecode 5 l) as [[x r1]|] eqn:E; [|done]. simpl.
  pose proof (vdecode_nonneg _ _ _ _ E).
  rewrite (vdecode_longer 5 kMaxVarintBytes l _ ltac:(unfold kMaxVarintBytes; lia) E).
  destruct (Z.leb_spec x (INT_MAX - kSlopBytes)); [|done]. simpl. unfold kSlopBytes in *.
  by rewrite u32_id, s32_id by (unfold INT_MAX in *; ilia).
Qed.

(** How [parse] ends where [read] ends. *)
Definition ending_of (e : outcome) (e' : ending) : Prop :=
  match e with
  | ended => e' = at_end
  | stopped tag r => e' = if tag =? 0 then at_zero else at_group tag r
  | failed => True
  end.

Lemma read_field_parse g h depth tag l f r :
  is_u32 tag ->
  (forall l fs tag' r, tag' <> 0 -> g l = (fs, stopped tag' r) -> h l = (fs, at_group tag' r)) ->
  read_field g depth tag l = Some (f, r) -> parse_field h depth tag l = Some (f, r).
Proof.
  intros Hu Hg. unfold read_field, parse_field.
  destruct (Z.eqb_spec (GetTagFieldNumber tag) 0) as [|Hn]; [done|].
  destruct (GetTagWireType tag) as [|[[[]|[]|]|[[]|[]|]|]|]; try done.
  - destruct (_ <? 0); [done|]. destruct (g l) as [fs [|tag' r'|]] eqn:Eg; try done.
    destruct (Z.eqb_spec tag' (MakeTag (GetTagFieldNumber tag) WIRETYPE_END_GROUP)) as [Et|]; [|done].
    pose proof (field_number_range tag Hu Hn) as Hr. unfold is_field_number in Hr.
    rewrite MakeTag_eq in Et by (unfold WIRETYPE_END_GROUP; lia).
    apply Hg in Eg; [|rewrite Et; unfold WIRETYPE_END_GROUP; lia]. rewrite Eg.
    rewrite MakeTag_eq by (unfold WIRETYPE_END_GROUP; lia). by rewrite Et, Z.eqb_refl.
  - destruct (read_string l) as [[b r']|] eqn:E; [|done].
    pose proof (read_string_parse _ _ _ E) as E'.
    destruct (vdecode kMaxVarintBytes l) as [[x r1]|]; [|done]. cbn [mbind option_bind] in *.
    by rewrite E'.
Qed.

Lemma read_fields_parse n depth l fs e :
  read_fields n depth l = (fs, e) -> e <> failed ->
  exists e', parse_message n depth l = (fs, e') /\ ending_of e e'.
Proof.
  revert depth l fs e. induction n as [|n IH]; intros depth l fs e; simpl; [by intros [= _ <-]|].
  destruct l as [|b l]; [intros [= <- <-] _; by eexists|].
  destruct (tag_decode (b :: l)) as [[tag r]|] eqn:Ed; [|by intros [= _ <-]].
  pose proof (tag_decode_suffix _ _ _ Ed) as [Hu _]. unfold tag_decode in Ed.
  destruct (vdecode 5 (b :: l)) as [[x r']|] eqn:Ev; [|done]. injection Ed as <- ->.
  rewrite (vdecode_longer 5 kMaxVarintBytes _ _ ltac:(unfold kMaxVarintBytes; lia) Ev).
  destruct (Z.eqb_spec (u32 x) 0) as [E0|E0]; cbn [orb].
  { intros [= <- <-] _. eexists. split; [done|]. simpl. by rewrite E0. }
  destruct (GetTagWireType (u32 x) =? WIRETYPE_END_GROUP).
  { intros [= <- <-] _. eexists. split; [done|]. simpl. by rewrite (proj2 (Z.eqb_neq _ _) E0). }
  destruct (read_field _ depth (u32 x) r) as [[f r2]|] eqn:Ef; [|by intros [= _ <-]].
  apply (read_field_parse _ (parse_message n (depth - 1))) in Ef; [|done|].
  2: { intros l' fs' tag' r' Ht Er. apply IH in Er as (e' & Ep & He); [|done]. simpl in He.
       rewrite (proj2 (Z.eqb_neq _ _) Ht) in He. by rewrite Ep, He. }
  rewrite Ef. destruct (read_fields n depth r2) as [fs2 e2] eqn:E2. intros [= <- ->] He.
  destruct (IH _ _ _ _ E2 He) as (e' & -> & ?). by exists e'.
Qed.

Lemma read_parse depth l fs e :
  read depth l = (fs, e) -> e <> failed -> exists e', parse depth l = (fs, e') /\ ending_of e e'.
Proof. apply read_fields_parse. Qed.

(** ** The properties *)

(** The fields of a message, if it is one. *)
Definition fields_of (depth : Z) (l : list byte) : option (list UnknownField) :=
  match read depth l with (fs, ended) => Some fs | _ => None end.

(** A call that accepts a message and leaves [x], or refuses it. *)
Definition merged_to {X} (CheckFieldPresence : X -> bool) (x : option X) (ok : bool) (x' : X) : Prop :=
  match x with
  | Some x => ok = CheckFieldPresence x /\ x' = x
  | None => ok = false
  end.

Lemma accepts_merged {X} (emit : UnknownField -> X -> X) check depth l x (F : list UnknownField -> X) ok x' :
  (forall fs, emits emit fs x = F fs) ->
  accepts emit check depth true l x ok x' ->
  merged_to check (option_map F (fields_of depth l)) ok x'.
Proof.
  intros HF. unfold accepts, merged_to, fields_of.
  destruct (read depth l) as [fs []]; simpl; rewrite ?HF; done.
Qed.

Lemma accepts_bounded {X} (emit : UnknownField -> X -> X) check depth (complete : bool) l x
    (F : list UnknownField -> X) ok x' (P : Prop) :
  (forall fs, emits emit fs x = F fs) ->
  accepts emit check depth complete l x ok x' /\ ((read depth l).2 = ended -> P) ->
  merged_to check (option_map F (if complete then fields_of depth l else None)) ok x' /\
  (fields_of depth l <> None -> P).
Proof.
  intros HF. unfold accepts, merged_to, fields_of.
  destruct (read depth l) as [fs []], complete; simpl; rewrite ?HF; intros [Ha HP]; split_and?;
    try tauto; intros; by apply HP.
Qed.

(** C4: The buffers of the pointer-based parser are invisible. A message is
    accepted or refused, and fills the same set or the same string of unknown
    fields, whether it is parsed from an array or from any stream that keeps the
    stream contract, however that cuts it into buffers, empty ones included: what
    happens is what [read] says of its bytes alone. The parse always returns, in
    particular no read is outside of the current buffer and its sixteen slop
    bytes, no debug check fails and no [int] overflows. *)
Theorem parse_context_any_stream {S} `{ZeroCopyInputStreamOk S} depth aliasing (input : S) c
    (check_set : UnknownFieldSet -> bool) check_string set out :
  0 <= depth <= INT_MAX -> stream_ok input -> zlen (content input) < INT_MAX - kSlopBytes ->
  let l := content input in
  let set_post := fun ok (cx : t S * UnknownFieldSet) =>
    merged_to check_set (option_map (fun fs => set ++ fs) (fields_of depth l)) ok cx.2 in
  let string_post := fun ok (cx : t S * option (list byte)) =>
    merged_to check_string (option_map (fun fs => append_unknown (serialize fs) out) (fields_of depth l)) ok cx.2 in
  wp (MergeFromImpl_flat UnknownGroupParse check_set depth aliasing l) (c, set) set_post /\
  wp (MergeFromImpl_zcis UnknownGroupParse check_set depth aliasing input) (c, set) set_post /\
  wp (MergeFromImpl_flat UnknownGroupLiteParse check_string depth aliasing l) (c, out) string_post /\
  wp (MergeFromImpl_zcis UnknownGroupLiteParse check_string depth aliasing input) (c, out) string_post.
Proof.
  intros Hd Hok Hl l set_post string_post.
  assert (zlen l <= INT_MAX) by (unfold l, kSlopBytes in *; lia). split_and!.
  - wp_use (MergeFromImpl_flat_wp add_field); [done|apply set_loop_ok|done|].
    intros ok cx Ha. eapply accepts_merged; [|exact Ha]. intros. apply emits_add.
  - wp_use (MergeFromImpl_zcis_wp add_field); [done|apply set_loop_ok|done|done|].
    intros ok cx Ha. eapply accepts_merged; [|exact Ha]. intros. apply emits_add.
  - wp_use (MergeFromImpl_flat_wp keep_field); [done|apply lite_loop_ok|done|].
    intros ok cx Ha. eapply accepts_merged; [|exact Ha]. intros. apply emits_keep.
  - wp_use (MergeFromImpl_zcis_wp keep_field); [done|apply lite_loop_ok|done|done|].
    intros ok cx Ha. eapply accepts_merged; [|exact Ha]. intros. apply emits_keep.
Qed.

(** C5: The library's two parsers agree. A message that the pointer-based parser
    accepts is accepted by the skipper over a [CodedInputStream] with the same
    nesting limit, over any stream, with the same fields. *)
Theorem parsers_agree {S} `{ZeroCopyInputStreamOk S} depth aliasing l c c' fs (s : CodedInput.t S) :
  0 <= depth <= INT_MAX -> zlen l <= INT_MAX ->
  MergeFromImpl_flat (S := S) UnknownGroupParse (fun _ => true) depth aliasing l (c, []) = Some (true, (c', fs)) ->
  UnknownFieldsSpec.ready s -> CodedInput.recursion_budget_ s = depth -> avail s = l ->
  wp Full.SkipMessage (s, Some []) (fun ok sx =>
    ok = true /\ sx.2 = Some fs /\ CodedInput.last_tag_ sx.1 = 0 /\
    CodedInput.legitimate_message_end_ sx.1 = ends s).
Proof.
  intros Hd Hl E Hr Hb Ha.
  destruct (wp_inv _ _ _ (MergeFromImpl_flat_wp add_field UnknownGroupParse (fun _ => true) depth aliasing Hd
    set_loop_ok l c [] Hl)) as (ok & cx & E' & Hacc).
  rewrite E in E'. injection E' as <- <-. unfold accepts in Hacc. cbn [snd] in Hacc.
  destruct (read depth l) as [fs' []] eqn:Er; try done. destruct Hacc as [_ ->].
  apply read_parse in Er as (e' & Ep & He); [|done]. simpl in He. subst e'.
  rewrite emits_add. wp_use full_skips; [exact Hr|]. intros ok sx Hs.
  rewrite Ha, Hb, Ep in Hs. unfold skipped in Hs. simpl in Hs.
  by destruct Hs as (-> & -> & _ & ? & ?).
Qed.

(** C6: A bounded parse takes exactly its bytes. A message of [limit] bytes is
    parsed out of a longer stream, however that cuts it into buffers: it is
    accepted or refused, and fills the set or the string of unknown fields, by
    those bytes alone, and refused if the stream is too short. When they are a
    sequence of fields, the stream is then right behind them: what the parser has
    read ahead, from [Next] or into its patch buffer, it gives back. (A stray
    end-group tag is left out: there the program may stop, see
    [bounded_parse_aborts].) *)
Theorem bounded_parse_gives_back {S} `{ZeroCopyInputStreamOk S} depth aliasing (input : S) limit c
    (check_set : UnknownFieldSet -> bool) check_string set out :
  0 <= depth <= INT_MAX -> stream_ok input -> zlen (content input) <= INT_MAX ->
  0 <= limit <= INT_MAX - kSlopBytes ->
  let l := ztake limit (content input) in
  (forall tag rest, (read depth l).2 <> stopped tag rest) ->
  let message := if limit <=? zlen (content input) then fields_of depth l else None in
  let left_behind := fun c : t S => fields_of depth l <> None ->
    exists z, zcis_ c = Some z /\ stream_ok z /\ content z = zdrop limit (content input) in
  wp (MergeFromImpl_bounded UnknownGroupParse check_set depth aliasing input limit) (c, set) (fun ok cx =>
    merged_to check_set (option_map (fun fs => set ++ fs) message) ok cx.2 /\ left_behind cx.1) /\
  wp (MergeFromImpl_bounded UnknownGroupLiteParse check_string depth aliasing input limit) (c, out) (fun ok cx =>
    merged_to check_string (option_map (fun fs => append_unknown (serialize fs) out) message) ok cx.2 /\
    left_behind cx.1).
Proof.
  intros Hd Hok Hl Hlim l Hstop message left_behind. split.
  - wp_use (MergeFromImpl_bounded_wp add_field); [done|apply set_loop_ok|done..|].
    intros ok cx Ha. eapply accepts_bounded; [|exact Ha]. intros. apply emits_add.
  - wp_use (MergeFromImpl_bounded_wp keep_field); [done|apply lite_loop_ok|done..|].
    intros ok cx Ha. eapply accepts_bounded; [|exact Ha]. intros. apply emits_keep.
Qed.

(** ** At concrete inputs *)

#[local] Notation sample_stream := (ArrayInputStream.make sample_message 28 3).
#[local] Notation any_context := (fresh (S := ArrayInputStream.t) 0 false).

Lemma sample_read : fields_of 100 sample_message = Some sample_set.
Proof. by vm_compute. Qed.

(** The same without its last byte. *)
Definition cut_message : list byte := Eval vm_compute in take 27 sample_message.

Lemma cut_content : content (ArrayInputStream.make cut_message 27 3) = cut_message.
Proof. by vm_compute. Qed.

Lemma cut_read : fields_of 100 cut_message = None.
Proof. by vm_compute. Qed.

Lemma parse_context_any_stream_witness :
  fields_of 100 sample_message = Some sample_set /\
  wp (MergeFromImpl_zcis UnknownGroupParse (fun _ => true) 100 false sample_stream) (any_context, [VARINT 9 9])
    (fun ok cx => ok = true /\ cx.2 = VARINT 9 9 :: sample_set) /\
  wp (MergeFromImpl_flat UnknownGroupParse (fun _ => true) 100 false cut_message) (any_context, [])
    (fun ok _ => ok = false).
Proof.
  split; [exact sample_read|]. split.
  - destruct (parse_context_any_stream 100 false sample_stream any_context (fun _ => true) (fun _ => true)
      [VARINT 9 9] None) as (_ & Hz & _);
      [unfold INT_MAX; lia|apply (ArrayInputStream.array_make_wf sample_message 3)|by vm_compute|].
    eapply wp_mono; [exact Hz|]. clear Hz. intros ok cx.
    change (content sample_stream) with sample_message. by rewrite sample_read.
  - destruct (parse_context_any_stream 100 false (ArrayInputStream.make cut_message 27 3)
      any_context (fun _ => true) (fun _ => true) [] None) as (Hf & _);
      [unfold INT_MAX; lia|apply (ArrayInputStream.array_make_wf cut_message 3)|by vm_compute|].
    rewrite cut_content, cut_read in Hf. exact Hf.
Defined.

(** The sample message, and twelve bytes that follow it in the stream. *)
Definition followed_message : list byte := Eval vm_compute in sample_message ++ take 12 sample_message.

#[local] Notation followed_stream := (ArrayInputStream.make followed_message 40 3).

Lemma followed_read : read 100 (ztake 28 (content followed_stream)) = (sample_set, ended).
Proof. by vm_compute. Qed.

Lemma bounded_parse_gives_back_witness :
  wp (MergeFromImpl_bounded UnknownGroupParse (fun _ => true) 100 false followed_stream 28) (any_context, [])
    (fun ok cx => ok = true /\ cx.2 = sample_set /\
      exists z, zcis_ cx.1 = Some z /\ content z = take 12 sample_message).
Proof.
  destruct (bounded_parse_gives_back 100 false followed_stream 28 any_context (fun _ => true) (fun _ => true)
    [] None) as (Hw & _);
    [unfold INT_MAX; lia|apply (ArrayInputStream.array_make_wf followed_message 3)|by vm_compute|
     unfold INT_MAX, kSlopBytes; lia|rewrite followed_read; done|].
  unfold fields_of in Hw. rewrite followed_read in Hw.
  change (zlen (content followed_stream)) with 40 in Hw.
  eapply wp_mono; [exact Hw|]. clear Hw. intros ok cx [[-> ->] Hz].
  split; [done|]. split; [done|]. destruct Hz as (z & -> & _ & Ez); [done|]. exists z. by rewrite Ez.
Defined.

Lemma accepted_inv {A B} (r : option (bool * (A * B))) x :
  option_map (fun r => (r.1, r.2.2)) r = Some (true, x) -> exists c, r = Some (true, (c, x)).
Proof. destruct r as [[ok [c y]]|]; [|done]. intros [= -> ->]. by exists c. Qed.

Lemma sample_accepted :
  exists c, MergeFromImpl_flat UnknownGroupParse (fun _ => true) 100 false sample_message (any_context, [])
    = Some (true, (c, sample_set)).
Proof. apply accepted_inv. vm_compute. reflexivity. Qed.

Lemma parsers_agree_witness :
  wp Full.SkipMessage (CodedInput.from_array (S := ArrayInputStream.t) sample_message, Some [])
    (fun ok sx => ok = true /\ sx.2 = Some sample_set).
Proof.
  destruct sample_accepted as [c E].
  assert (0 <= 100 <= INT_MAX) as Hd by (unfold INT_MAX; lia).
  assert (zlen sample_message <= INT_MAX) as Hl by (by vm_compute).
  destruct (from_array_inv (S := ArrayInputStream.t) sample_message Hl) as (_ & Ha & _).
  pose proof (parsers_agree 100 false sample_message any_context c sample_set
    (CodedInput.from_array sample_message) Hd Hl E sample_ready eq_refl Ha) as Hw.
  eapply wp_mono; [exact Hw|]. clear Hw E. by intros ok sx (-> & -> & _).
Defined.

(** ** Where the code does not do what it means to

    A stream in blocks of three bytes ends before the limit, and the message is
    broken: a stray end-group tag with a byte after it. The parser has called
    [Next] once more, which failed, when [MergeFromImpl] gives the last byte back:
    [ArrayInputStream::BackUp] stops the program. With a limit that the stream
    reaches the message is refused. *)
Definition stray_end_group : list byte := map z2b [8; 1; 8; 2; 12; 3].

Example bounded_parse_aborts :
  MergeFromImpl_bounded UnknownGroupParse (fun _ => true) 100 false
    (ArrayInputStream.make stray_end_group 6 3) 7 (any_context, []) = None.
Proof. vm_compute. reflexivity. Qed.

Example bounded_parse_refuses :
  option_map fst (MergeFromImpl_bounded UnknownGroupParse (fun _ => true) 100 false
    (ArrayInputStream.make stray_end_group 6 3) 6 (any_context, [])) = Some false.
Proof. vm_compute. reflexivity. Qed.

(** Reading a string up to the end of a stream that has no limit: the last buffer
    is the sixteen slop bytes, all of which are appended a second time. *)
Example append_until_end_past_the_end :
  option_map (fun r => length r.2.2)
    ((let* ptr := on_fst (InitFrom_zcis (ArrayInputStream.make sample_message 28 28)) in
      AppendStringUntilEnd ptr) (any_context, [])) = Some 44%nat.
Proof. vm_compute. reflexivity. Qed.
