(* ===== verification/Utf8.v ===== *)
(** * UTF-8

    The validator of [utf8_validity.h] is not in the repository: it is an
    interface, whose law is its documentation on the well-formed byte sequences
    of the Unicode standard (table 3-7), which are defined here. *)

From S2P Require Import Prelude.

(** ** Well-formed sequences *)

Definition in_bytes (lo hi : Z) (b : byte) : bool := (lo <=? b2z b) && (b2z b <=? hi).
Definition trailing : byte -> bool := in_bytes 0x80 0xBF.

(** What may come second, after the first byte of three or of four. *)
Definition second_of_3 (b0 : byte) : byte -> bool :=
  if b2z b0 =? 0xE0 then in_bytes 0xA0 0xBF else
  if b2z b0 =? 0xED then in_bytes 0x80 0x9F else trailing.
Definition second_of_4 (b0 : byte) : byte -> bool :=
  if b2z b0 =? 0xF0 then in_bytes 0x90 0xBF else
  if b2z b0 =? 0xF4 then in_bytes 0x80 0x8F else trailing.

(** The number of bytes of the code point at the front. *)
Definition code_point (l : list byte) : option Z :=
  match l with
  | [] => None
  | b0 :: l =>
      if b2z b0 <=? 0x7F then Some 1
      else if in_bytes 0xC2 0xDF b0 then
        match l with b1 :: _ => if trailing b1 then Some 2 else None | _ => None end
      else if in_bytes 0xE0 0xEF b0 then
        match l with
        | b1 :: b2 :: _ => if second_of_3 b0 b1 && trailing b2 then Some 3 else None
        | _ => None
        end
      else if in_bytes 0xF0 0xF4 b0 then
        match l with
        | b1 :: b2 :: b3 :: _ => if second_of_4 b0 b1 && trailing b2 && trailing b3 then Some 4 else None
        | _ => None
        end
      else None
  end.

(** The length of the longest beginning that is a sequence of code points. *)
Fixpoint prefix_loop (n : nat) (l : list byte) : Z :=
  match n with
  | O => 0
  | S n => match code_point l with Some k => k + prefix_loop n (zdrop k l) | None => 0 end
  end.
Definition valid_prefix (l : list byte) : Z := prefix_loop (length l) l.
Definition well_formed (l : list byte) : bool := valid_prefix l =? zlen l.

(** ** The interface *)

Class Utf8Range := {
  SpanStructurallyValid : list byte -> Z;
  IsStructurallyValid : list byte -> bool;
}.

(** [SpanStructurallyValid] is documented as the length of the longest prefix that
    is valid UTF-8, [IsStructurallyValid] as whether all of the bytes are. *)
Class Utf8RangeOk `{Utf8Range} : Prop := {
  span_ok : forall l, SpanStructurallyValid l = valid_prefix l;
  is_ok : forall l, IsStructurallyValid l = well_formed l;
}.

#[export] Instance reference_range : Utf8Range :=
  {| SpanStructurallyValid := valid_prefix; IsStructurallyValid := well_formed |}.

#[export] Instance reference_range_ok : Utf8RangeOk.
Proof. done. Qed.

(** ** Lemmas *)

(** Four bytes decide. *)
Lemma code_point_app l k n : code_point l = Some n -> code_point (l ++ k) = Some n.
Proof.
  destruct l as [|b0 l]; [done|]. cbn [code_point app].
  repeat (case_match; try done); simplify_eq/=; try done; repeat (case_match; try done); simplify_eq/=; congruence.
Qed.

Lemma code_point_range l n : code_point l = Some n -> 1 <= n <= 4 /\ n <= zlen l.
Proof.
  pose proof (zlen_nonneg (A := byte)) as Hn.
  destruct l as [|b0 [|b1 [|b2 [|b3 l]]]]; [done|..]; cbn [code_point];
    repeat (case_match; try done); intros [= <-]; rewrite ?zlen_cons, ?zlen_nil; try specialize (Hn l); lia.
Qed.

Lemma code_point_take l n m : code_point l = Some n -> n <= m -> code_point (ztake m l) = Some n.
Proof.
  intros E Hm. revert E.
  destruct l as [|b0 [|b1 [|b2 [|b3 l]]]]; [done|..]; cbn [code_point];
    repeat (case_match; try done); intros [= <-]; repeat (rewrite ztake_cons by lia); cbn [code_point];
    repeat match goal with H : _ = true |- _ => rewrite H | H : _ = false |- _ => rewrite H end; done.
Qed.

(** What follows decides nothing about a code point that is there, and none is
    there if four bytes are not the beginning of one. *)
Lemma code_point_none_app l k : code_point l = None -> 4 <= zlen l -> code_point (l ++ k) = None.
Proof.
  intros E Hl. destruct (code_point (l ++ k)) as [n|] eqn:Ek; [|done].
  pose proof (code_point_range _ _ Ek) as [Hn _]. rewrite <- (ztake_app_exact (zlen l) l k eq_refl) in E.
  by rewrite (code_point_take _ n) in E by (done || lia).
Qed.

Lemma prefix_loop_fuel n m l : (length l <= n)%nat -> (length l <= m)%nat -> prefix_loop n l = prefix_loop m l.
Proof.
  revert m l. induction n as [|n IH]; intros m l Hn Hm.
  { destruct l; [by destruct m|simpl in Hn; lia]. }
  destruct m as [|m]; [destruct l; [done|simpl in Hm; lia]|]. cbn [prefix_loop].
  destruct (code_point l) as [k|] eqn:E; [|done]. pose proof (code_point_range _ _ E) as [Hk Hl].
  f_equal. assert (zlen (zdrop k l) = zlen l - k) as Hz by zl. unfold zlen in *. apply IH; lia.
Qed.

Lemma valid_prefix_eq l :
  valid_prefix l = match code_point l with Some k => k + valid_prefix (zdrop k l) | None => 0 end.
Proof.
  unfold valid_prefix. destruct (code_point l) as [k|] eqn:E; cycle 1.
  { destruct l; [done|]. cbn [length prefix_loop]. by rewrite E. }
  pose proof (code_point_range _ _ E) as [Hk Hl]. destruct l as [|b l]; [done|].
  assert (zlen (zdrop k (b :: l)) = zlen (b :: l) - k) as Hz by zl.
  cbn [length prefix_loop]. rewrite E. f_equal. apply prefix_loop_fuel; unfold zlen in *; simpl in *; lia.
Qed.

Lemma valid_prefix_ind (P : list byte -> Prop) :
  (forall l, code_point l = None -> P l) ->
  (forall l k, code_point l = Some k -> P (zdrop k l) -> P l) -> forall l, P l.
Proof.
  intros Hnone Hsome l. induction l as [l IH] using (induction_ltof1 _ (@length byte)). unfold ltof in IH.
  destruct (code_point l) as [k|] eqn:E; [|by apply Hnone].
  pose proof (code_point_range _ _ E) as [Hk Hl]. eapply Hsome; [exact E|]. apply IH.
  assert (zlen (zdrop k l) = zlen l - k) as Hz by zl. unfold zlen in *. lia.
Qed.

Lemma valid_prefix_range l : 0 <= valid_prefix l <= zlen l.
Proof.
  induction l as [l E|l k E IH] using valid_prefix_ind; rewrite valid_prefix_eq, E; [pose proof (zlen_nonneg l); lia|].
  pose proof (code_point_range _ _ E) as [Hk Hl]. rewrite zlen_zdrop in IH. lia.
Qed.

(** Where the valid beginning ends, no code point starts. *)
Lemma valid_prefix_stop l : code_point (zdrop (valid_prefix l) l) = None.
Proof.
  induction l as [l E|l k E IH] using valid_prefix_ind; rewrite valid_prefix_eq, E.
  - by rewrite zdrop_0.
  - pose proof (code_point_range _ _ E). pose proof (valid_prefix_range (zdrop k l)).
    by rewrite <- zdrop_zdrop by lia; rewrite zdrop_zdrop in * by lia; rewrite Z.add_comm, <- zdrop_zdrop in * by lia.
Qed.

Lemma valid_prefix_app l k :
  valid_prefix (l ++ k) = valid_prefix l + valid_prefix (zdrop (valid_prefix l) l ++ k).
Proof.
  induction l as [l E|l n E IH] using valid_prefix_ind; rewrite (valid_prefix_eq l), E.
  - by rewrite zdrop_0.
  - pose proof (code_point_range _ _ E) as [? ?]. pose proof (valid_prefix_range (zdrop n l)).
    rewrite valid_prefix_eq, (code_point_app _ _ _ E), zdrop_app, (zdrop_0 (_ - _) k), IH by lia.
    rewrite zdrop_zdrop by lia. lia.
Qed.

Lemma valid_prefix_none l : code_point l = None -> valid_prefix l = 0.
Proof. intros E. by rewrite valid_prefix_eq, E. Qed.

(** Four bytes that do not start a code point are the end of what is valid. *)
Lemma undecided_none l k :
  4 <= zlen l - valid_prefix l -> valid_prefix (l ++ k) = valid_prefix l.
Proof.
  intros Hl. pose proof (valid_prefix_range l). rewrite valid_prefix_app.
  rewrite (valid_prefix_none (_ ++ k)); [lia|]. apply code_point_none_app; [apply valid_prefix_stop|zl].
Qed.
