(* ===== verification/PackedReaders.v ===== *)
(** * The bulk readers of the pointer-based parser

    [ReadRepeatedFixed], [ReadPackedFixed] and [ReadPackedVarint] of
    [parse_context.h], the packed parsers of [parse_context.cc] on top of them,
    and the check of UTF-8 over a field that lies in several buffers. A
    [RepeatedField] is the list of its elements, which its operations refine
    ([repeated_field_refines_list]); an element is a number, as in
    [WireFormatLite.v], and a float or a double its bit pattern. *)

From S2P Require Import Prelude Varint ZeroCopyStream WireFormatLite WireRead Utf8 PointerDecoders EpsCopyInput.

(** ** Values in memory *)

(** The bits of an element of type [t], as its C++ type reads them. *)
Definition of_bits (t : FieldType) (bits : Z) : Z :=
  match t with TYPE_SFIXED32 => s32 bits | TYPE_SFIXED64 => s64 bits | _ => bits end.

(** [n] elements copied from memory, on a little-endian machine. *)
Fixpoint copied (t : FieldType) (n : nat) (l : list byte) : list Z :=
  match n with
  | O => []
  | S n => of_bits t (le_value (ztake (sizeof t) l)) :: copied t n (zdrop (sizeof t) l)
  end.

(** [ReadPackedVarintArray] over the bytes [mem], in which pointers are offsets;
    [add] is what is done with each value. *)
Fixpoint ReadPackedVarintArray {X} (add : Z -> X -> X) (n : nat) (mem : list byte) (ptr end_ : Z) (x : X)
    : option (option Z * X) :=
  if negb (ptr <? end_) then Some (Some ptr, x) else
  match n with
  | O => None
  | S n =>
      if (ptr <? 0) || (zlen mem <? ptr) then None else
      '(q, varint) ← VarintParse64 (zdrop ptr mem);
      match q with
      | None => Some (None, x)
      | Some k => ReadPackedVarintArray add n mem (ptr + Z.of_nat k) end_ (add varint x)
      end
  end.

Section packed.
Context {S : Type} `{ZeroCopyInputStreamOk S}.
Notation C := (t S).

(** [UnalignedLoad] of [n] bytes. *)
Definition UnalignedLoad (ptr n : Z) : M C Z := let* l := load ptr n in ret (le_value l).

(** The repeated elements of the fixed-width type [t], each but the first after
    its tag of [tag_size] bytes. [n] bounds the number of elements. *)
Fixpoint ReadRepeatedFixed_loop (t : FieldType) (tag_size : Z) (n : nat) (ptr expected_tag : Z) : M (C * list Z) Z :=
  match n with
  | O => undef
  | Datatypes.S n =>
      let* bits := on_fst (UnalignedLoad ptr (sizeof t)) in
      on_snd (modS (fun out => out ++ [of_bits t bits])) ;;;
      let ptr := ptr + sizeof t in
      let* c := on_fst getS in
      if limit_end_ c <=? ptr then ret ptr else
      let* tag := on_fst (UnalignedLoad ptr tag_size) in
      if tag =? expected_tag then ReadRepeatedFixed_loop t tag_size n (ptr + tag_size) expected_tag
      else ret ptr
  end.

(** Each round but the last starts before [limit_end_]. *)
Definition ReadRepeatedFixed (t : FieldType) (tag_size ptr expected_tag : Z) : M (C * list Z) Z :=
  let* c := on_fst getS in
  ReadRepeatedFixed_loop t tag_size (Datatypes.S (length (memory c))) ptr expected_tag.

(** The loop of [ReadPackedFixed]: what is left of the field and where, or the
    null pointer. *)
Fixpoint ReadPackedFixed_loop (t : FieldType) (n : nat) (ptr nbytes size : Z) : M (C * list Z) (option (Z * Z)) :=
  if negb (nbytes <? size) then ret (Some (ptr, size)) else
  match n with
  | O => undef
  | Datatypes.S n =>
      let num := nbytes / sizeof t in
      let block_size := num * sizeof t in
      let* block := on_fst (load ptr block_size) in
      on_snd (modS (fun out => out ++ copied t (Z.to_nat num) block)) ;;;
      let size := size - block_size in
      let* c := on_fst getS in
      if limit_ c <=? kSlopBytes then ret None else
      let* p := on_fst Next in
      match p with
      | None => ret None
      | Some p =>
          let ptr := p + (kSlopBytes - (nbytes - block_size)) in
          let* nbytes := on_fst (BytesAvailable ptr) in
          ReadPackedFixed_loop t n ptr nbytes size
      end
  end.

(** [ptr] is not null here. *)
Definition ReadPackedFixed (t : FieldType) (ptr size : Z) : M (C * list Z) (option Z) :=
  let* nbytes := on_fst (BytesAvailable ptr) in
  let* c := on_fst getS in
  let* r := ReadPackedFixed_loop t (buffers_left c) ptr nbytes size in
  match r with
  | None => ret None
  | Some (ptr, size) =>
      let num := size / sizeof t in
      let block_size := num * sizeof t in
      if num =? 0 then ret (if size =? block_size then Some ptr else None) else
      let* block := on_fst (load ptr block_size) in
      on_snd (modS (fun out => out ++ copied t (Z.to_nat num) block)) ;;;
      ret (if negb (size =? block_size) then None else Some (ptr + block_size))
  end.

Section varints.
Context {X : Type} (add : Z -> X -> X) (size_callback : Z -> X -> X).

(** [ReadPackedVarintArray] over the current buffer, or over [buf]. *)
Definition read_array (mem : list byte) (ptr end_ : Z) : M (C * X) (option Z) := fun s =>
  match ReadPackedVarintArray add (length mem) mem ptr end_ s.2 with
  | Some (r, x) => Some (r, (s.1, x))
  | None => None
  end.

Fixpoint ReadPackedVarint_loop (n : nat) (ptr chunk_size size : Z) : M (C * X) (option Z) :=
  let* c := on_fst getS in
  if negb (chunk_size <? size) then
    let end_ := ptr + size in
    let* ptr := read_array (memory c) ptr end_ in
    ret (match ptr with Some ptr => if end_ =? ptr then Some ptr else None | None => None end)
  else
  match n with
  | O => undef
  | Datatypes.S n =>
      let* r := read_array (memory c) ptr (buffer_end_ c) in
      match r with
      | None => ret None
      | Some ptr =>
          let overrun := ptr - buffer_end_ c in
          dcheck ((0 <=? overrun) && (overrun <=? kSlopBytes)) ;;;
          if size - chunk_size <=? kSlopBytes then
            let* slop := on_fst (load (buffer_end_ c) kSlopBytes) in
            let buf := splice 0 slop (repeat (z2b 0) (Z.to_nat (kSlopBytes + 10))) in
            let end_ := size - chunk_size in
            let* res := read_array buf overrun end_ in
            ret (match res with
                 | Some res => if negb (res =? end_) then None else Some (buffer_end_ c + res)
                 | None => None
                 end)
          else
            let size := size - (overrun + chunk_size) in
            dcheck (0 <? size) ;;;
            if limit_ c <=? kSlopBytes then ret None else
            let* p := on_fst Next in
            match p with
            | None => ret None
            | Some p =>
                let ptr := p + overrun in
                let* c := on_fst getS in
                ReadPackedVarint_loop n ptr (buffer_end_ c - ptr) size
            end
      end
  end.

Definition ReadPackedVarint (ptr : Z) : M (C * X) (option Z) :=
  let* (q, size) := on_fst (decode ReadSize ptr) in
  on_snd (modS (size_callback size)) ;;;
  match q with
  | None => ret None
  | Some ptr =>
      let* c := on_fst getS in
      ReadPackedVarint_loop (buffers_left c) ptr (buffer_end_ c - ptr) size
  end.
End varints.

(** ** The packed parsers

    [VarintParser] by the type of the field: the conversion of the varint to the
    C++ type and, for the zig-zag types, its decoding. *)

Definition VarintParser_value (t : FieldType) (varint : Z) : Z :=
  match t with
  | TYPE_SINT64 => ZigZagDecode64 varint
  | TYPE_SINT32 => ZigZagDecode32 (u32 varint)
  | TYPE_INT32 | TYPE_ENUM => s32 (u32 varint)
  | TYPE_INT64 => s64 varint
  | TYPE_UINT32 => u32 varint
  | TYPE_BOOL => if varint =? 0 then 0 else 1
  | _ => varint
  end.

Definition VarintParser (t : FieldType) (ptr : Z) : M (C * list Z) (option Z) :=
  ReadPackedVarint (fun varint object => object ++ [VarintParser_value t varint]) (fun _ object => object) ptr.

Definition FixedParser (t : FieldType) (ptr : Z) : M (C * list Z) (option Z) :=
  let* (q, size) := on_fst (decode ReadSize ptr) in
  match q with
  | None => ret None
  | Some ptr => ReadPackedFixed t ptr size
  end.

(** [PackedInt32Parser] and so on. *)
Definition PackedParser (t : FieldType) : Z -> M (C * list Z) (option Z) :=
  if fixed_size t then FixedParser t else VarintParser t.
End packed.

(** ** UTF-8 in several buffers

    The bytes of a code point of which the rest is in the next buffer. *)

Definition kUtfMax : Z := 4.

Record LeftoverBuffer := {
  leftover_size : Z;
  leftover_bytes : list byte;
}.

(** The bytes of a new one are not initialized. *)
Definition no_leftover : LeftoverBuffer := {| leftover_size := 0; leftover_bytes := repeat (z2b 0) (Z.to_nat kUtfMax) |}.

Section utf8.
Context `{Utf8Range}.
Notation LM := (M LeftoverBuffer).

(** [UnrolledMemcpy] to [dst] in the buffer. *)
Definition UnrolledMemcpy (dst : Z) (src : list byte) : LM unit :=
  dcheck (zlen src <? 4) ;;;
  modS (fun l => {| leftover_size := leftover_size l; leftover_bytes := splice dst src (leftover_bytes l) |}).
Definition set_leftover_size (n : Z) : LM unit :=
  modS (fun l => {| leftover_size := n; leftover_bytes := leftover_bytes l |}).

Definition leftover_view : LM (list byte) := gets (fun l => ztake (leftover_size l) (leftover_bytes l)).

Definition leftover_assign (from : list byte) : LM unit :=
  dcheck (zlen from <? kUtfMax) ;;; UnrolledMemcpy 0 from ;;; set_leftover_size (zlen from).

Definition leftover_append (from : list byte) : LM unit :=
  let* l := getS in
  dcheck (leftover_size l + zlen from <=? kUtfMax) ;;;
  UnrolledMemcpy (leftover_size l) from ;;; set_leftover_size (leftover_size l + zlen from).

Definition leftover_remove_prefix (pos : Z) : LM unit :=
  let* l := getS in
  dcheck (pos <=? leftover_size l) ;;;
  set_leftover_size (leftover_size l - pos) ;;;
  UnrolledMemcpy 0 (ztake (leftover_size l - pos) (zdrop pos (leftover_bytes l))).

(** The end of the function, on what is left of the fragment. *)
Definition rest_of_fragment (fragment : list byte) : LM bool :=
  let valid := SpanStructurallyValid fragment in
  let fragment := zdrop valid fragment in
  if kUtfMax <=? zlen fragment then ret false else leftover_assign fragment ;;; ret true.

Definition IsViewValidUTF8WithLeftover : callback (X := LeftoverBuffer) := fun fragment =>
  let* l := getS in
  let leftover_size := leftover_size l in
  if 0 <? leftover_size then
    dcheck (leftover_size <? kUtfMax) ;;;
    let fill_size := kUtfMax - leftover_size in
    if zlen fragment <? fill_size then
      leftover_append fragment ;;;
      let* view := leftover_view in
      leftover_remove_prefix (SpanStructurallyValid view) ;;; ret true
    else
      leftover_append (ztake fill_size fragment) ;;;
      let* view := leftover_view in
      let leftover_valid := SpanStructurallyValid view in
      if leftover_valid =? 0 then ret false else
      (* the difference of two sizes is taken off the front *)
      dcheck ((leftover_size <=? leftover_valid) && (leftover_valid - leftover_size <=? zlen fragment)) ;;;
      rest_of_fragment (zdrop (leftover_valid - leftover_size) fragment)
  else rest_of_fragment fragment.

Context {S : Type} `{ZeroCopyInputStreamOk S}.

Definition VerifyUTF8Fallback (ptr size : Z) : M (t S) (option Z) := fun c =>
  match AppendSize ptr size IsViewValidUTF8WithLeftover (c, no_leftover) with
  | Some (ptr, (c, leftover)) => Some (if leftover_size leftover =? 0 then ptr else None, c)
  | None => None
  end.

Definition VerifyUTF8 (ptr size : Z) : M (t S) (option Z) :=
  let* available := BytesAvailable ptr in
  if size <=? available then
    let* bytes := load ptr size in
    ret (if IsStructurallyValid bytes then Some (ptr + size) else None)
  else VerifyUTF8Fallback ptr size.
End utf8.
