(* ===== verification/PackedReadersSpec.v ===== *)
(** * Packed fields over any buffers

    The packed parsers of [PackedReaders.v] read the elements of the field's
    body, whatever buffers it lies in, and the check of UTF-8 gives the verdict
    on all of its bytes. *)

From S2P Require Import Prelude Varint ZeroCopyStream WireFormatLite RepeatedField WireRead Utf8 PointerDecoders EpsCopyInput EpsCopyInputSpec ParseContextSpec PackedReaders.

#[local] Arguments vdecode : simpl never.
#[local] Arguments repeat : simpl never.
#[local] Arguments kMaxVarintBytes : simpl never.

(** ** The elements of a list of bytes *)

Definition scan (t : FieldType) (l : list byte) : list Z * bool := all_spec t (length l) l.

Lemma scan_fuel t n m l : (length l <= n)%nat -> (length l <= m)%nat -> all_spec t n l = all_spec t m l.
Proof.
  revert m l. induction n as [|n IH]; intros m l Hn Hm.
  - destruct l; [|simpl in Hn; lia]. by destruct m.
  - destruct l as [|b l]; [by destruct m|]. destruct m as [|m]; [simpl in Hm; lia|]. cbn [all_spec].
    destruct (prim_spec t (b :: l)) as [[v r]|] eqn:E; [|done].
    apply prim_spec_suffix in E as (c & Ec & Hc). apply (f_equal length) in Ec. rewrite length_app in Ec.
    unfold zlen in Hc. by rewrite (IH m r) by lia.
Qed.

Lemma scan_nil t : scan t [] = ([], true).
Proof. done. Qed.

Lemma scan_cons t l v r : prim_spec t l = Some (v, r) -> scan t l = (v :: (scan t r).1, (scan t r).2).
Proof.
  intros E. pose proof (prim_spec_suffix _ _ _ _ E) as (c & Ec & Hc).
  pose proof (f_equal length Ec) as El. rewrite length_app in El. unfold zlen in Hc.
  unfold scan. destruct l as [|b l]; [simpl in El; lia|]. cbn [length all_spec]. rewrite E.
  rewrite (scan_fuel t (length l) (length r)) by (simpl in *; lia). by destruct (all_spec t (length r) r).
Qed.

Lemma scan_none t l : prim_spec t l = None -> 0 < zlen l -> scan t l = ([], false).
Proof. unfold scan. destruct l as [|b l]; [done|]. intros E _. cbn [length all_spec]. by rewrite E. Qed.

(** A reader has taken the elements [us] off the front of [l], down to [r]. *)
Definition taken t (l : list byte) (us : list Z) (r : list byte) : Prop :=
  scan t l = (us ++ (scan t r).1, (scan t r).2).

Lemma taken_nil t l : taken t l [] l.
Proof. unfold taken. simpl. by destruct (scan t l). Qed.

Lemma taken_cons t l v l1 us r : prim_spec t l = Some (v, l1) -> taken t l1 us r -> taken t l (v :: us) r.
Proof. unfold taken. intros E Ht. by rewrite (scan_cons _ _ _ _ E), Ht. Qed.

Lemma taken_app t l us l1 vs r : taken t l us l1 -> taken t l1 vs r -> taken t l (us ++ vs) r.
Proof. unfold taken. intros -> ->. simpl. by rewrite app_assoc. Qed.

Lemma taken_bad t l us r : taken t l us r -> (scan t r).2 = false -> (scan t l).2 = false.
Proof. unfold taken. by intros ->. Qed.

Lemma taken_all t l us : taken t l us [] -> scan t l = (us, true).
Proof. unfold taken. rewrite scan_nil. simpl. by rewrite app_nil_r. Qed.

(** ** Varints in memory *)

Section array.
Context (t : FieldType) {X : Type} (add : Z -> X -> X) (P : list Z -> X -> Prop).
Hypothesis varint_type : fixed_size t = false.
Hypothesis add_ok : forall us v x, P us x -> P (us ++ [from_wire t v]) (add (u64 v) x).

(** [V] is what is known of the memory from [ptr] on. *)
Definition windowed (mem : list byte) (ptr end_ : Z) (V : list byte) : Prop :=
  forall m, m <= zlen V -> ptr + m <= end_ + 9 -> ztake m (zdrop ptr mem) = ztake m V.

Definition array_post (mem : list byte) (ptr end_ : Z) us (x : X) (r : option Z) (x' : X) : Prop :=
  (forall q, r = Some q -> ptr <= q /\ end_ <= q /\ (q < end_ + 10 \/ q = ptr)) /\
  (exists vs, P (us ++ vs) x') /\
  forall V, windowed mem ptr end_ V -> end_ - ptr <= zlen V ->
    match r with
    | Some q =>
        if q - ptr <=? zlen V
        then exists vs, P (us ++ vs) x' /\ taken t V vs (zdrop (q - ptr) V)
        else (scan t V).2 = false
    | None => (scan t V).2 = false
    end.

Lemma prim_varint l : prim_spec t l = '(x, r) ← vdecode 10 l; Some (from_wire t x, r).
Proof. unfold prim_spec, raw_spec. by rewrite varint_type. Qed.

Lemma read_array_ok n mem ptr end_ us x :
  0 <= ptr -> end_ + 9 <= zlen mem -> end_ - ptr <= Z.of_nat n -> P us x ->
  exists r x', ReadPackedVarintArray add n mem ptr end_ x = Some (r, x') /\ array_post mem ptr end_ us x r x'.
Proof.
  revert ptr us x. induction n as [|n IH]; intros ptr us x Hp He Hn HP; cbn [ReadPackedVarintArray].
  - destruct (Z.ltb_spec ptr end_); [lia|]. exists (Some ptr), x. split; [done|]. split.
    + intros q [= <-]. lia.
    + split; [exists []; by rewrite app_nil_r|]. intros V _ HV. pose proof (zlen_nonneg V). destruct (Z.leb_spec (ptr - ptr) (zlen V)); [|lia].
      exists []. rewrite app_nil_r. split; [done|]. rewrite zdrop_0 by lia. apply taken_nil.
  - destruct (Z.ltb_spec ptr end_) as [Hlt|Hge]; cbn [negb]; cycle 1.
    { exists (Some ptr), x. split; [done|]. split; [intros q [= <-]; lia|].
      split; [exists []; by rewrite app_nil_r|]. intros V _ HV. pose proof (zlen_nonneg V). destruct (Z.leb_spec (ptr - ptr) (zlen V)); [|lia].
      exists []. rewrite app_nil_r. split; [done|]. rewrite zdrop_0 by lia. apply taken_nil. }
    destruct (Z.ltb_spec ptr 0), (Z.ltb_spec (zlen mem) ptr); try lia. cbn [orb].
    assert (10 <= length (zdrop ptr mem))%nat as Hl
      by (enough (10 <= zlen (zdrop ptr mem)) by (unfold zlen in *; lia); zl).
    rewrite VarintParse64_decoded by done. unfold decoded.
    assert (forall V, windowed mem ptr end_ V -> end_ - ptr <= zlen V ->
      match vdecode 10 V with
      | Some (y, l) => exists l', vdecode 10 (zdrop ptr mem) = Some (y, l') /\
                         Z.of_nat (length (zdrop ptr mem) - length l') = zlen V - zlen l
      | None => forall y l', vdecode 10 (zdrop ptr mem) = Some (y, l') ->
                         zlen V < Z.of_nat (length (zdrop ptr mem) - length l') <= 10
      end) as Hw.
    { intros V HW HV. apply (vdecode_window 10). intros m Hm HmV. apply HW; lia. }
    assert (forall V, vdecode 10 V = None -> end_ - ptr <= zlen V -> (scan t V).2 = false) as Hbad.
    { intros V EV HV. rewrite scan_none; [done| |lia]. rewrite prim_varint. by rewrite EV. }
    destruct (vdecode 10 (zdrop ptr mem)) as [[y r]|] eqn:Ed; cbn [mbind option_bind]; cycle 1.
    { exists None, x. split; [done|]. split; [done|].
      split; [exists []; by rewrite app_nil_r|]. intros V HW HV. specialize (Hw V HW HV).
      destruct (vdecode 10 V) as [[y l]|] eqn:EV; [by destruct Hw as (? & ? & _)|by apply Hbad]. }
    pose proof (vdecode_suffix _ _ _ _ Ed) as (c & Ec & Hc).
    set (k := (length (zdrop ptr mem) - length r)%nat) in *.
    assert (1 <= k <= 10)%nat as Hk by (unfold k; rewrite Ec, length_app; lia).
    destruct (IH (ptr + Z.of_nat k) (us ++ [from_wire t y]) (add (u64 y) x)) as (r' & x' & E & Hq & (vs0 & Hvs0) & HV');
      [lia|done|lia|by apply add_ok|].
    exists r', x'. split; [exact E|]. split.
    { intros q ->. destruct (Hq q eq_refl) as (? & ? & ?). lia. }
    split; [exists (from_wire t y :: vs0); by rewrite <- app_assoc in Hvs0|]. intros V HW HV. specialize (Hw V HW HV). destruct (vdecode 10 V) as [[y' l]|] eqn:EV; cycle 1.
    { pose proof (Hw y r eq_refl). pose proof (Hbad V EV HV). destruct r' as [q|]; [|done].
      destruct (Hq q eq_refl) as (? & _). destruct (Z.leb_spec (q - ptr) (zlen V)); [lia|done]. }
    destruct Hw as (r2 & [= <- <-] & Hkl). fold k in Hkl.
    pose proof (vdecode_suffix _ _ _ _ EV) as (cV & EcV & _).
    assert (l = zdrop (Z.of_nat k) V) as El by (rewrite Hkl, EcV, zdrop_app_exact; [done|zl]).
    assert (prim_spec t V = Some (from_wire t y, l)) as Epr by (rewrite prim_varint; by rewrite EV).
    assert (zlen l = zlen V - Z.of_nat k) as Hll by (rewrite EcV, zlen_app in *; lia).
    assert (taken t V [from_wire t y] l) as Ht by (eapply taken_cons; [exact Epr|apply taken_nil]).
    assert (windowed mem (ptr + Z.of_nat k) end_ l) as HWl.
    { intros m Hm HmV. pose proof (HW (m + Z.of_nat k) ltac:(lia) ltac:(lia)) as E'.
      apply (f_equal (zdrop (Z.of_nat k))) in E'. rewrite !zdrop_ztake, zdrop_zdrop, <- El in E' by lia.
      by replace (m + Z.of_nat k - Z.of_nat k) with m in E' by lia. }
    specialize (HV' l HWl ltac:(lia)).
    destruct r' as [q|]; [|by eapply taken_bad].
    destruct (Hq q eq_refl) as (? & _).
    destruct (Z.leb_spec (q - (ptr + Z.of_nat k)) (zlen l)), (Z.leb_spec (q - ptr) (zlen V)); try lia.
    + destruct HV' as (vs & HPv & Htv). exists (from_wire t y :: vs). rewrite <- app_assoc in HPv.
      split; [exact HPv|]. eapply taken_cons; [exact Epr|].
      replace (zdrop (q - ptr) V) with (zdrop (q - (ptr + Z.of_nat k)) l); [exact Htv|].
      rewrite El, zdrop_zdrop by lia. f_equal. lia.
    + by eapply taken_bad.
Qed.
End array.

(** ** Varints over the buffers *)

Section spec.
Context {S : Type} `{ZeroCopyInputStreamOk S}.
Notation C := (t S).
Implicit Type c : C.

(** The next [size] bytes, as far as they can be seen. *)
Definition body c ptr size : list byte := ztake size (visible c ptr).

Lemma zlen_body c ptr size :
  Inv c -> 0 <= ptr -> 0 <= size <= left_ c ptr -> zlen (body c ptr size) = size.
Proof. intros HI Hp Hs. unfold body. rewrite zlen_ztake, zlen_visible by done. lia. Qed.

Lemma body_moves k c ptr c' ptr' size :
  0 <= k <= size -> size <= left_ c ptr -> moves k c ptr c' ptr' ->
  body c' ptr' (size - k) = zdrop k (body c ptr size).
Proof. intros Hk Hs Hm. unfold body. rewrite (moves_visible k c ptr) by (done || lia). by rewrite zdrop_ztake by lia. Qed.

Lemma body_window c ptr m size :
  Inv c -> 0 <= ptr -> m <= zlen (body c ptr size) -> ptr + m <= buffer_end_ c + kSlopBytes ->
  ztake m (zdrop ptr (memory c)) = ztake m (body c ptr size).
Proof.
  unfold body. intros HI Hp Hm Hle. rewrite zlen_ztake in Hm. rewrite ztake_ztake.
  destruct (Z.leb_spec m 0); [by rewrite !ztake_0 by lia|].
  rewrite visible_window by (done || lia). f_equal. lia.
Qed.

Lemma wp_value {A St} (m : M St A) s a s' Q : m s = Some (a, s') -> Q a s' -> wp m s Q.
Proof. unfold wp. by intros ->. Qed.

(** On to the next buffer, to a place in the slop bytes. *)
Lemma next_moves k c ptr :
  Inv c -> valid c ptr -> 0 <= k -> 0 <= ptr + k - buffer_end_ c <= kSlopBytes -> kSlopBytes < limit_ c ->
  wp Next c (fun r c' =>
    match r with
    | None => same_depths c c' /\ left_ c ptr <= buffer_end_ c - ptr
    | Some p => p = 0 /\ moves k c ptr c' (ptr + k - buffer_end_ c) /\ (measure c' < measure c)%nat
    end).
Proof.
  intros HI Hv Hk Ho Hl. pose proof (inv_shape _ HI) as HS.
  destruct (tail_cases c HS) as [[En Et]|[En _]].
  - unfold Next. wp_steps. destruct (Z.ltb_spec kSlopBytes (limit_ c)); [|lia]. apply wp_bind, wp_ret.
    assert (NextBuffer 0 (-1) c = Some (None, c)) as E by (unfold NextBuffer, mbind_, getS; by rewrite En).
    eapply wp_value; [exact E|]. unfold SetEndOfStream. wp_steps. split; [done|].
    unfold left_, total. rewrite Et, zlen_nil. lia.
  - wp_use next_buffer_wp; [done..|]. intros r c1 [-> [Hm _ _ Hms]]. split; [done|]. split; [|done].
    pose proof (inv_limit _ HI). destruct Hv as [Hp Hu].
    replace k with (k + 0) at 1 by lia. eapply moves_trans; [done|done|apply moves_add; done || lia|].
    replace (ptr + k) with (buffer_end_ c + (ptr + k - buffer_end_ c)) at 1 by lia. apply Hm; [done|].
    unfold valid, BytesUntilLimit in *. lia.
Qed.

Section varints.
Context (t : FieldType) {X : Type} (add : Z -> X -> X) (P : list Z -> X -> Prop).
Hypothesis varint_type : fixed_size t = false.
Hypothesis add_ok : forall us v x, P us x -> P (us ++ [from_wire t v]) (add (u64 v) x).

(** The elements of a body of [size] bytes are given to [add], or it is not a
    sequence of elements, if all of it can be seen. *)
Definition body_post size c ptr us (r : option Z) (cx : C * X) : Prop :=
  match r with
  | Some q => moves size c ptr cx.1 q /\
      (size <= left_ c ptr -> exists vs, scan t (body c ptr size) = (vs, true) /\ P (us ++ vs) cx.2)
  | None => same_depths c cx.1 /\ (size <= left_ c ptr -> (scan t (body c ptr size)).2 = false)
  end.

Lemma read_array_wp mem ptr end_ c us x :
  0 <= ptr -> end_ + 9 <= zlen mem -> end_ - ptr <= zlen mem -> P us x ->
  wp (read_array add mem ptr end_) (c, x) (fun r cx => cx.1 = c /\ array_post t P mem ptr end_ us x r cx.2).
Proof.
  intros Hp He Hn HP. unfold wp, read_array.
  destruct (read_array_ok t add P varint_type add_ok (length mem) mem ptr end_ us x Hp He ltac:(unfold zlen in Hn; lia) HP)
    as (r & x' & E & Hpost). cbn [snd]. by rewrite E.
Qed.

(** The bytes in the current buffer show the body. *)
Lemma memory_windowed c ptr end_ size :
  Inv c -> 0 <= ptr -> end_ <= buffer_end_ c -> windowed (memory c) ptr end_ (body c ptr size).
Proof. intros HI Hp He m Hm Hle. apply body_window; [done|done|done|unfold kSlopBytes; lia]. Qed.

(** The elements [vs] have been read, up to [p]. *)
Definition so_far p c ptr size (vs : list Z) : Prop :=
  size <= left_ c ptr -> if p - ptr <=? size
    then taken t (body c ptr size) vs (zdrop (p - ptr) (body c ptr size))
    else (scan t (body c ptr size)).2 = false.

(** The end of a body that lies in the slop bytes, read from a copy of them. *)
Lemma buf_wp c ptr p size us vs x :
  Inv c -> valid c ptr -> ptr <= p -> 0 <= p - buffer_end_ c <= kSlopBytes ->
  0 < size - (buffer_end_ c - ptr) <= kSlopBytes -> 0 <= size -> P (us ++ vs) x -> so_far p c ptr size vs ->
  wp (let* res := read_array add (splice 0 (slop c) (repeat (z2b 0) (Z.to_nat (kSlopBytes + 10))))
                    (p - buffer_end_ c) (size - (buffer_end_ c - ptr)) in
      ret (match res with
           | Some res => if negb (res =? size - (buffer_end_ c - ptr)) then None else Some (buffer_end_ c + res)
           | None => None
           end)) (c, x) (body_post size c ptr us).
Proof.
  intros HI Hv Hp Ho He Hs Hx Hpart. pose proof Hv as [Hv0 _]. pose proof (zlen_slop c (inv_shape _ HI)) as Hsl.
  pose proof (shape_end _ (inv_shape _ HI)) as [? _].
  set (buf := splice _ _ _).
  assert (zlen buf = 26) as Hb
    by (unfold buf; rewrite zlen_splice; change (zlen (repeat _ _)) with 26; unfold kSlopBytes in *; lia).
  set (end_ := size - (buffer_end_ c - ptr)) in *.
  assert (end_ = size - (buffer_end_ c - ptr)) as Ee by done. clearbody end_.
  assert (size <= left_ c ptr -> p - ptr <= size ->
    zlen (zdrop (p - ptr) (body c ptr size)) = size - (p - ptr) /\
    windowed buf (p - buffer_end_ c) end_ (zdrop (p - ptr) (body c ptr size))) as HW.
  { intros Hl Hps. pose proof (zlen_body c ptr size HI ltac:(lia) ltac:(lia)) as Hbl.
    assert (zlen (zdrop (p - ptr) (body c ptr size)) = size - (p - ptr)) as El by zl.
    split; [done|]. intros m Hm _. rewrite El in Hm.
    destruct (Z.leb_spec m 0); [by rewrite !ztake_0 by lia|].
    assert (ztake kSlopBytes buf = slop c) as Eb.
    { pose proof (ztake_splice 0 (slop c) (repeat (z2b 0) (Z.to_nat (kSlopBytes + 10)))) as E.
      rewrite Hsl, (ztake_0 0) in E by lia. apply E. change (zlen (repeat _ _)) with 26. lia. }
    assert (ztake (p - ptr + m) (zdrop ptr (memory c)) = ztake (p - ptr + m) (body c ptr size)) as Em
      by (apply body_window; done || (lia)).
    apply (f_equal (zdrop (p - ptr))) in Em. rewrite !zdrop_ztake, zdrop_zdrop in Em by lia.
    replace (p - ptr + m - (p - ptr)) with m in Em by lia. rewrite <- Em.
    replace m with (p - buffer_end_ c + m - (p - buffer_end_ c)) at 1 by lia.
    rewrite <- zdrop_ztake by lia.
    replace (ztake (p - buffer_end_ c + m) buf) with (ztake (p - buffer_end_ c + m) (slop c))
      by (rewrite <- Eb, ztake_ztake; f_equal; lia).
    unfold slop. rewrite ztake_ztake, zdrop_ztake, zdrop_zdrop by lia. f_equal; [lia|f_equal; lia]. }
  apply wp_bind. wp_use read_array_wp; [lia|unfold kSlopBytes in *; lia|unfold kSlopBytes in *; lia|exact Hx|].
  intros r [c1 x1] [Ec (Hq & _ & Hpost)]. cbn [fst snd] in *. subst c1. apply wp_ret. unfold body_post. cbn [fst snd].
  assert (size <= left_ c ptr -> size < p - ptr -> (scan t (body c ptr size)).2 = false) as Hpast.
  { intros Hl Hlt. specialize (Hpart Hl). by destruct (Z.leb_spec (p - ptr) size); [lia|]. }
  destruct r as [q|]; cycle 1.
  { split; [done|]. intros Hl. destruct (Z.leb_spec (p - ptr) size) as [Hle|]; [|by apply Hpast].
    destruct (HW Hl Hle) as [El HWl]. specialize (Hpart Hl). destruct (Z.leb_spec (p - ptr) size); [|lia].
    eapply taken_bad; [exact Hpart|]. apply Hpost; [done|lia]. }
  destruct (Hq q eq_refl) as (? & ? & _).
  destruct (Z.eqb_spec q end_) as [->|Hne]; cbn [negb].
  - split; [replace (buffer_end_ c + end_) with (ptr + size) by lia; apply moves_add; done || lia|].
    intros Hl. destruct (HW Hl ltac:(lia)) as [El HWl]. specialize (Hpart Hl).
    destruct (Z.leb_spec (p - ptr) size); [|lia]. specialize (Hpost _ HWl ltac:(lia)). rewrite El in Hpost.
    destruct (Z.leb_spec (end_ - (p - buffer_end_ c)) (size - (p - ptr))); [|lia].
    destruct Hpost as (ws & HPw & Htw). exists (vs ++ ws). rewrite app_assoc. split; [|done].
    apply taken_all. eapply taken_app; [exact Hpart|]. rewrite (zdrop_all (end_ - _)) in Htw by lia. exact Htw.
  - split; [done|]. intros Hl. destruct (Z.leb_spec (p - ptr) size) as [Hle|]; [|by apply Hpast].
    destruct (HW Hl Hle) as [El HWl]. specialize (Hpart Hl). destruct (Z.leb_spec (p - ptr) size); [|lia].
    eapply taken_bad; [exact Hpart|]. specialize (Hpost _ HWl ltac:(lia)). rewrite El in Hpost.
    by destruct (Z.leb_spec (q - (p - buffer_end_ c)) (size - (p - ptr))); [lia|].
Qed.

Lemma ReadPackedVarint_loop_wp n c ptr size us x :
  Inv c -> valid c ptr -> 0 <= size -> (measure c < n)%nat -> P us x ->
  wp (ReadPackedVarint_loop add n ptr (buffer_end_ c - ptr) size) (c, x) (body_post size c ptr us).
Proof.
  revert c ptr size us x. induction n as [|n IH]; intros c ptr size us x HI Hv Hs Hn HP; [lia|].
  cbn [ReadPackedVarint_loop]. pose proof Hv as [Hp Hu]. pose proof (inv_shape _ HI) as HS.
  pose proof (shape_end _ HS) as [? ?]. apply wp_bind, on_fst_wp, wp_getS.
  assert (size <= left_ c ptr -> zlen (body c ptr size) = size) as Hbl
    by (intros; apply zlen_body; done || lia).
  destruct (Z.ltb_spec (buffer_end_ c - ptr) size) as [Hlt|Hge]; cbn [negb]; cycle 1.
  { apply wp_bind. wp_use read_array_wp; [lia|unfold kSlopBytes in *; lia|unfold kSlopBytes in *; lia|exact HP|].
    intros r [c1 x1] [Ec (Hq & _ & Hpost)]. apply wp_ret. cbn [fst snd] in *. subst c1.
    assert (size <= left_ c ptr -> windowed (memory c) ptr (ptr + size) (body c ptr size)) as HW
      by (intros; apply memory_windowed; done || lia).
    unfold body_post. cbn [fst snd]. destruct r as [q|]; cycle 1.
    { split; [done|]. intros Hl. apply Hpost; [by apply HW|rewrite Hbl; lia]. }
    destruct (Hq q eq_refl) as (_ & Hge' & _).
    destruct (Z.eqb_spec (ptr + size) q) as [<-|Hne].
    - split; [apply moves_add; done || (unfold kSlopBytes; lia)|]. intros Hl.
      specialize (Hpost _ (HW Hl) ltac:(rewrite Hbl; lia)). rewrite Hbl in Hpost by done.
      destruct (Z.leb_spec (ptr + size - ptr) size); [|lia]. destruct Hpost as (vs & HPv & Ht).
      exists vs. split; [|done]. rewrite zdrop_all in Ht by (rewrite Hbl; lia). by apply taken_all.
    - split; [done|]. intros Hl. specialize (Hpost _ (HW Hl) ltac:(rewrite Hbl; lia)).
      rewrite Hbl in Hpost by done. by destruct (Z.leb_spec (q - ptr) size); [lia|]. }
  apply wp_bind. wp_use read_array_wp; [lia|unfold kSlopBytes in *; lia|unfold kSlopBytes in *; lia|exact HP|].
  intros r [c1 x1] [Ec (Hq & Hx & Hpost)]. cbn [fst snd] in *. subst c1.
  assert (size <= left_ c ptr -> windowed (memory c) ptr (buffer_end_ c) (body c ptr size)) as HW
    by (intros; apply memory_windowed; done || lia).
  destruct r as [p|]; cycle 1.
  { apply wp_ret. split; [done|]. intros Hl. apply Hpost; [by apply HW|rewrite Hbl; lia]. }
  destruct (Hq p eq_refl) as (Hpp & Hpe & Hpr).
  assert (0 <= p - buffer_end_ c <= kSlopBytes) as Ho by (unfold kSlopBytes in *; lia).
  destruct (Z.leb_spec 0 (p - buffer_end_ c)), (Z.leb_spec (p - buffer_end_ c) kSlopBytes); try lia.
  apply wp_bind, wp_ret.
  assert (exists vs, P (us ++ vs) x1 /\ so_far p c ptr size vs) as (vs & HPv & Hpart).
  { unfold so_far. destruct (Z.leb_spec size (left_ c ptr)) as [Hl|Hl].
    - specialize (Hpost _ (HW Hl) ltac:(rewrite Hbl; lia)). rewrite Hbl in Hpost by done.
      destruct (_ <=? _); [destruct Hpost as (vs & ? & ?)|destruct Hx as [vs ?]]; exists vs; done.
    - destruct Hx as [vs ?]. exists vs. split; [done|lia]. }
  destruct (Z.leb_spec (size - (buffer_end_ c - ptr)) kSlopBytes) as [Hin|Hout].
  - apply wp_bind, on_fst_wp, load_wp; [done|lia|done|lia|]. fold (slop c).
    by apply buf_wp with vs; try done; lia.
  - set (k := p - ptr). replace (size - (p - buffer_end_ c + (buffer_end_ c - ptr))) with (size - k) by (unfold k; lia).
    destruct (Z.ltb_spec 0 (size - k)); [|unfold kSlopBytes, k in *; lia]. apply wp_bind, wp_ret.
    destruct (Z.leb_spec (limit_ c) kSlopBytes).
    { apply wp_ret. split; [done|]. unfold left_, BytesUntilLimit. lia. }
    apply wp_bind, on_fst_wp. wp_use (next_moves k); [done|done|unfold k; lia|unfold k, kSlopBytes in *; lia|lia|].
    intros [p'|] c1; cycle 1.
    { intros [? ?]. apply wp_ret. split; [done|lia]. }
    intros (-> & Hm & Hms). apply wp_bind, on_fst_wp, wp_getS.
    replace (0 + (p - buffer_end_ c)) with (ptr + k - buffer_end_ c) by (unfold k; lia).
    pose proof (moves_left _ _ _ _ _ Hm) as El.
    wp_use IH; [apply Hm|apply Hm|lia|lia|exact HPv|]. intros r [c2 x2] Hr. unfold body_post in *.
    cbn [fst snd] in *. rewrite El in Hr.
    assert (size <= left_ c ptr -> taken t (body c ptr size) vs (body c1 (ptr + k - buffer_end_ c) (size - k))) as Ht.
    { intros Hl. rewrite (body_moves k c ptr) by (done || (unfold k; lia)). specialize (Hpart Hl).
      fold k in Hpart. by destruct (Z.leb_spec k size); [|lia]. }
    destruct r as [q|].
    + destruct Hr as [Hm2 Hr]. split.
      { replace size with (k + (size - k)) by lia. eapply moves_trans; [unfold k; lia|lia|done|done]. }
      intros Hl. destruct (Hr ltac:(lia)) as (ws & Ew & HPw). exists (vs ++ ws). rewrite app_assoc.
      split; [|done]. by rewrite (Ht Hl), Ew.
    + destruct Hr as [Hd Hr]. split; [eapply same_depths_trans; [apply Hm|exact Hd]|].
      intros Hl. eapply taken_bad; [by apply Ht|]. apply Hr. lia.
Qed.
End varints.

(** ** Fixed-width elements *)

Section fixed.
Context (t : FieldType).
Hypothesis fixed_type : fixed_size t = true.

Lemma fixed_sizeof : sizeof t = 4 \/ sizeof t = 8.
Proof. by destruct (fixed_wire t fixed_type) as (_ & ? & _). Qed.

Lemma prim_fixed l :
  prim_spec t l = if sizeof t <=? zlen l then Some (of_bits t (le_value (ztake (sizeof t) l)), zdrop (sizeof t) l) else None.
Proof.
  unfold prim_spec, raw_spec, bits_spec. rewrite fixed_type. destruct (_ <=? _); [|done]. by destruct t.
Qed.

Lemma taken_copied n l :
  Z.of_nat n * sizeof t <= zlen l ->
  taken t l (copied t n (ztake (Z.of_nat n * sizeof t) l)) (zdrop (Z.of_nat n * sizeof t) l).
Proof.
  pose proof fixed_sizeof as Hsz. revert l. induction n as [|n IH]; intros l Hn; cbn [copied].
  { rewrite zdrop_0 by lia. apply taken_nil. }
  eapply taken_cons; [rewrite prim_fixed; destruct (Z.leb_spec (sizeof t) (zlen l)); [|lia]|].
  { rewrite ztake_ztake. by replace (Z.min (sizeof t) (Z.of_nat (Datatypes.S n) * sizeof t)) with (sizeof t) by lia. }
  specialize (IH (zdrop (sizeof t) l) ltac:(zl)). rewrite zdrop_zdrop in IH by lia.
  rewrite zdrop_ztake by lia. 
  replace (Z.of_nat (Datatypes.S n) * sizeof t - sizeof t) with (Z.of_nat n * sizeof t) by lia.
  by replace (Z.of_nat (Datatypes.S n) * sizeof t) with (sizeof t + Z.of_nat n * sizeof t) by lia.
Qed.

(** A rest that is too short for an element. *)
Lemma scan_short l : zlen l < sizeof t -> (scan t l).2 = (zlen l =? 0).
Proof.
  intros Hl. destruct (Z.eqb_spec (zlen l) 0) as [E|].
  - by rewrite (zlen_0 l) by lia.
  - pose proof (zlen_nonneg l). rewrite scan_none; [done| |lia]. rewrite prim_fixed.
    by destruct (Z.leb_spec (sizeof t) (zlen l)); [lia|].
Qed.

(** The loop leaves the last part of the body, which is in the current buffer. *)
Definition fixed_loop_post size c ptr us (r : option (Z * Z)) (cx : C * list Z) : Prop :=
  match r with
  | Some (q, rest) => 0 <= rest /\ q + rest <= buffer_end_ cx.1 + kSlopBytes /\
      moves (size - rest) c ptr cx.1 q /\ rest <= size /\
      exists vs, cx.2 = us ++ vs /\
        (size <= left_ c ptr -> taken t (body c ptr size) vs (zdrop (size - rest) (body c ptr size)))
  | None => same_depths c cx.1 /\ left_ c ptr < size
  end.

Lemma reads_body c ptr B size :
  reads c ptr B -> zlen B <= size <= left_ c ptr -> B = ztake (zlen B) (body c ptr size).
Proof.
  intros HB Hl. rewrite (reads_visible _ _ _ HB) at 1 by lia. unfold body. rewrite ztake_ztake. f_equal. lia.
Qed.

Lemma reads_whole c ptr B size : reads c ptr B -> zlen B = size -> size <= left_ c ptr -> body c ptr size = B.
Proof.
  intros HB Hs Hl. rewrite (reads_body c ptr B size) by (done || lia). rewrite Hs. unfold body.
  rewrite ztake_ztake. f_equal. lia.
Qed.

(** A block of elements. *)
Lemma block_wp {A} c ptr size num out us (m : M (C * list Z) A) Q :
  Inv c -> valid c ptr -> 0 <= num -> num * sizeof t <= size -> ptr + num * sizeof t <= buffer_end_ c + kSlopBytes ->
  (forall vs, (size <= left_ c ptr -> taken t (body c ptr size) vs (zdrop (num * sizeof t) (body c ptr size))) ->
     wp m (c, out ++ us ++ vs) Q) ->
  wp (let* block := on_fst (load ptr (num * sizeof t)) in
      on_snd (modS (fun out => out ++ copied t (Z.to_nat num) block)) ;;; m) (c, out ++ us) Q.
Proof.
  intros HI Hv Hn Hs Hle HQ. pose proof fixed_sizeof. apply wp_bind, on_fst_wp, load_reads; [done|done|nia|done|].
  intros B HB HrB. apply wp_bind, on_snd_wp, wp_modS. rewrite <- app_assoc. apply HQ. intros Hl.
  rewrite (reads_body c ptr B size) by (done || lia). rewrite HB.
  pose proof Hv as [Hp _].
  pose proof (taken_copied (Z.to_nat num) (body c ptr size)) as Ht. rewrite Z2Nat.id in Ht by lia.
  apply Ht. rewrite zlen_body by (done || nia). lia.
Qed.

Lemma ReadPackedFixed_loop_wp n c ptr size us :
  Inv c -> valid c ptr -> 0 <= size -> (measure c < n)%nat ->
  wp (ReadPackedFixed_loop t n ptr (buffer_end_ c + kSlopBytes - ptr) size) (c, us) (fixed_loop_post size c ptr us).
Proof.
  pose proof fixed_sizeof as Hsz.
  revert c ptr size us. induction n as [|n IH]; intros c ptr size us HI Hv Hs Hn; [lia|].
  cbn [ReadPackedFixed_loop]. pose proof Hv as [Hp Hu].
  destruct (Z.ltb_spec (buffer_end_ c + kSlopBytes - ptr) size) as [Hlt|Hge]; cbn [negb]; cycle 1.
  { apply wp_ret. split_and!; [done|cbn [fst]; lia| |lia|].
    - replace (size - size) with 0 by lia. by apply moves_refl.
    - exists []. rewrite app_nil_r. split; [done|]. intros _. rewrite zdrop_0 by lia. apply taken_nil. }
  remember (buffer_end_ c + kSlopBytes - ptr) as nbytes eqn:Enb. set (num := nbytes / sizeof t).
  assert (0 <= num /\ 0 <= nbytes - num * sizeof t < sizeof t) as [Hnum Hrem].
  { unfold num. destruct Hsz as [-> | ->]; Z.div_mod_to_equations; lia. }
  rewrite <- (app_nil_r us). eapply (block_wp c ptr size num us []); [done|done|done|lia|lia|]. intros vs Ht. cbn [app]. rewrite (app_nil_r us).
  set (k := num * sizeof t) in *. apply wp_bind, on_fst_wp, wp_getS.
  destruct (Z.leb_spec (limit_ c) kSlopBytes).
  { apply wp_ret. split; [done|]. unfold left_, BytesUntilLimit. lia. }
  apply wp_bind, on_fst_wp. wp_use (next_moves k); [done|done|lia|unfold kSlopBytes in *; lia|lia|].
  intros [p|] c1; cycle 1.
  { intros [? ?]. apply wp_ret. split; [done|unfold kSlopBytes in *; lia]. }
  intros (-> & Hm & Hms). apply wp_bind, on_fst_wp.
  replace (0 + (kSlopBytes - (nbytes - k))) with (ptr + k - buffer_end_ c) by lia.
  apply BytesAvailable_wp; [apply Hm|apply Hm|].
  wp_use IH; [apply Hm|apply Hm|lia|lia|]. intros [[q rest]|] [c2 x2] Hr; unfold fixed_loop_post in *; cbn [fst snd] in *.
  - destruct Hr as (? & ? & Hm2 & ? & ws & -> & Hw). split_and!; [done|done| |lia|].
    { replace (size - rest) with (k + (size - k - rest)) by lia. eapply moves_trans; [lia|lia|done|done]. }
    exists (vs ++ ws). split; [by rewrite app_assoc|]. intros Hl. eapply taken_app; [by apply Ht|].
    rewrite (body_moves k c ptr) in Hw by (done || lia). rewrite zdrop_zdrop in Hw by lia.
    replace (size - rest) with (k + (size - k - rest)) by lia. apply Hw.
    rewrite (moves_left _ _ _ _ _ Hm). lia.
  - rewrite (moves_left _ _ _ _ _ Hm) in Hr. destruct Hr as [Hd Hr]. split; [|lia].
    eapply same_depths_trans; [apply Hm|done].
Qed.

Lemma ReadPackedFixed_wp c ptr size us :
  Inv c -> valid c ptr -> 0 <= size ->
  wp (ReadPackedFixed t ptr size) (c, us) (body_post t (fun vs x => x = us ++ vs) size c ptr []).
Proof.
  pose proof fixed_sizeof as Hsz. intros HI Hv Hs. unfold ReadPackedFixed.
  apply wp_bind, on_fst_wp, BytesAvailable_wp; [done|done|]. apply wp_bind, on_fst_wp, wp_getS. apply wp_bind.
  wp_use ReadPackedFixed_loop_wp; [done|done|done| |].
  { unfold measure, buffers_left, stream_bound. destruct (next_chunk_ c), (zcis_ c); lia. }
  intros [[q rest]|] [c1 x1] Hr; unfold fixed_loop_post in Hr; cbn [fst snd] in Hr; cycle 1.
  { apply wp_ret. destruct Hr. split; [done|lia]. }
  destruct Hr as (Hr0 & Hle & Hm & Hrs & vs & -> & Ht). pose proof (moves_inv _ _ _ _ _ Hm) as HI1.
  pose proof (moves_valid _ _ _ _ _ Hm) as Hv1. set (num := rest / sizeof t).
  assert (0 <= num /\ 0 <= rest - num * sizeof t < sizeof t) as [Hnum Hrem].
  { unfold num. destruct Hsz as [-> | ->]; Z.div_mod_to_equations; lia. }
  assert (scan_rest : size <= left_ c ptr -> scan t (body c ptr size) =
    (vs ++ (scan t (body c1 q rest)).1, (scan t (body c1 q rest)).2) /\ zlen (body c1 q rest) = rest).
  { intros Hl. pose proof (moves_left _ _ _ _ _ Hm) as El. destruct Hv1 as [Hp1 _].
    assert (body c1 q rest = zdrop (size - rest) (body c ptr size)) as ->.
    { replace rest with (size - (size - rest)) at 1 by lia. apply body_moves; done || lia. }
    split; [by apply Ht|]. rewrite zlen_zdrop, zlen_body by (done || lia || apply Hv). lia. }
  destruct (Z.eqb_spec num 0) as [E0|E0].
  - apply wp_ret. rewrite E0. destruct (Z.eqb_spec rest (0 * sizeof t)) as [->|Hne].
    + split; [by replace size with (size - 0 * sizeof t) by lia|]. intros Hl. destruct (scan_rest Hl) as [-> El].
      exists vs. split; [|done]. by rewrite (zlen_0 (body _ _ _)), scan_nil, app_nil_r by lia.
    + split; [apply Hm|]. intros Hl. destruct (scan_rest Hl) as [-> El]. cbn [snd].
      rewrite scan_short by lia. apply Z.eqb_neq. lia.
  - eapply (block_wp c1 q rest num us vs); [done|done|lia|lia|cbn [fst] in *; lia|]. intros ws Htw.
    assert (size <= left_ c ptr -> taken t (body c1 q rest) ws (zdrop (num * sizeof t) (body c1 q rest))) as Htw'.
    { intros Hl. apply Htw. rewrite (moves_left _ _ _ _ _ Hm). lia. }
    apply wp_ret. destruct (Z.eqb_spec rest (num * sizeof t)) as [Er|Hne]; cbn [negb].
    + split.
      * replace size with ((size - rest) + num * sizeof t) by lia.
        eapply moves_trans; [lia|lia|done|]. apply moves_add; [done|done|lia|cbn [fst] in *; lia].
      * intros Hl. destruct (scan_rest Hl) as [-> El]. rewrite (Htw' Hl). cbn [fst snd].
        exists (vs ++ ws). split; [|done]. by rewrite zdrop_all, scan_nil, app_nil_r by lia.
    + split; [apply Hm|]. intros Hl. destruct (scan_rest Hl) as [-> El]. rewrite (Htw' Hl). cbn [fst snd].
      rewrite scan_short by (rewrite zlen_zdrop; lia). apply Z.eqb_neq. rewrite zlen_zdrop. lia.
Qed.

(** *** Elements that each have a tag *)

(** [n] more elements, each behind the tag. *)
Fixpoint tagged (tag_size tag : Z) (n : nat) (l : list byte) : option (list Z * list byte) :=
  match n with
  | O => Some ([], l)
  | Datatypes.S n =>
      if (tag_size <=? zlen l) && (le_value (ztake tag_size l) =? tag) then
        '(v, l) ← prim_spec t (zdrop tag_size l);
        '(vs, r) ← tagged tag_size tag n l; Some (v :: vs, r)
      else None
  end.

(** The elements read from [ptr] to [q], if all of them can be seen; the end is
    that of the buffer or what is not the tag. *)
Definition repeated_post tag_size tag c ptr us q (cx : C * list Z) : Prop :=
  ptr <= q /\ cx.1 = c /\ moves (q - ptr) c ptr c q /\
  (q - ptr <= left_ c ptr -> exists n v l vs,
     prim_spec t (visible c ptr) = Some (v, l) /\ tagged tag_size tag n l = Some (vs, visible c q) /\
     cx.2 = us ++ v :: vs /\
     (q < limit_end_ c -> tagged tag_size tag 1 (visible c q) = None)).

(** The [k] bytes at a place, and the place behind them. *)
Lemma load_visible c ptr k Q :
  Inv c -> valid c ptr -> 0 <= k -> ptr + k <= buffer_end_ c + kSlopBytes ->
  (forall B, moves k c ptr c (ptr + k) ->
     (k <= left_ c ptr -> B = le_value (ztake k (visible c ptr)) /\ k <= zlen (visible c ptr) /\
                          visible c (ptr + k) = zdrop k (visible c ptr)) -> Q B c) ->
  wp (UnalignedLoad ptr k) c Q.
Proof.
  intros HI Hv Hk Hle HQ. unfold UnalignedLoad. apply wp_bind, load_reads; [done..|]. intros B HB HrB.
  assert (moves k c ptr c (ptr + k)) as Hm by (apply moves_add; done || lia).
  apply wp_ret, HQ; [done|]. intros Hl. pose proof Hv as [Hp _].
  rewrite (reads_visible _ _ _ HrB) by lia. rewrite HB. split; [done|]. split.
  - rewrite zlen_visible by (done || lia). lia.
  - apply moves_visible; done || lia.
Qed.

Lemma ReadRepeatedFixed_loop_wp tag_size tag n c ptr us :
  1 <= tag_size <= 2 -> Inv c -> valid c ptr -> ptr + sizeof t <= buffer_end_ c + kSlopBytes ->
  Z.max 0 (limit_end_ c - ptr) < Z.of_nat n ->
  wp (ReadRepeatedFixed_loop t tag_size n ptr tag) (c, us) (repeated_post tag_size tag c ptr us).
Proof.
  pose proof fixed_sizeof as Hsz. intros Htag HI. pose proof HI as [HS _ _ El].
  assert (limit_end_ c <= buffer_end_ c) as Hend by lia.
  revert ptr us. induction n as [|n IH]; intros ptr us Hv Hle Hn; [lia|].
  cbn [ReadRepeatedFixed_loop]. apply wp_bind, on_fst_wp, load_visible; [done|done|lia|done|].
  intros bits Hm Hbits. apply wp_bind, on_snd_wp, wp_modS. apply wp_bind, on_fst_wp, wp_getS.
  pose proof (moves_left _ _ _ _ _ Hm) as Hl.
  assert (sizeof t <= left_ c ptr -> prim_spec t (visible c ptr) = Some (of_bits t bits, visible c (ptr + sizeof t))) as Hfirst.
  { intros Hle'. destruct (Hbits Hle') as (-> & Hz & ->). rewrite prim_fixed.
    by destruct (Z.leb_spec (sizeof t) (zlen (visible c ptr))); [|lia]. }
  destruct (Z.leb_spec (limit_end_ c) (ptr + sizeof t)).
  { apply wp_ret. split; [lia|]. split; [done|]. replace (ptr + sizeof t - ptr) with (sizeof t) by lia.
    split; [done|]. intros Hle'. exists 0%nat, (of_bits t bits), (visible c (ptr + sizeof t)), [].
    split_and!; [by apply Hfirst|done|done|lia]. }
  apply wp_bind, on_fst_wp, load_visible; [done|by apply Hm|lia|unfold kSlopBytes in *; lia|].
  intros tg Hm2 Htg. destruct (Z.eqb_spec tg tag) as [->|Hne].
  - wp_use IH; [apply Hm2|unfold kSlopBytes in *; lia|lia|]. intros q [c2 x2] (Hq & Ec & Hm3 & Hr).
    cbn [fst snd] in *. split; [lia|]. split; [done|]. split.
    { replace (q - ptr) with (sizeof t + (tag_size + (q - (ptr + sizeof t + tag_size)))) by lia.
      eapply moves_trans; [lia|lia|done|]. eapply moves_trans; [lia|lia|done|done]. }
    intros Hle'. rewrite (moves_left _ _ _ _ _ Hm2), Hl in Hr.
    destruct (Hr ltac:(lia)) as (m & v & l & vs & Ev & Et & Ex & Hstop).
    destruct (Htg ltac:(lia)) as (Et1 & Hz1 & Ev1).
    exists (Datatypes.S m), (of_bits t bits), (visible c (ptr + sizeof t)), (v :: vs).
    split; [apply Hfirst; lia|]. split; [|by rewrite <- app_assoc in Ex].
    cbn [tagged]. destruct (Z.leb_spec tag_size (zlen (visible c (ptr + sizeof t)))); [|lia].
    rewrite <- Et1, Z.eqb_refl, <- Ev1, Ev. cbn [andb mbind option_bind]. by rewrite Et.
  - apply wp_ret. split; [lia|]. split; [done|]. replace (ptr + sizeof t - ptr) with (sizeof t) by lia.
    split; [done|]. intros Hle'. exists 0%nat, (of_bits t bits), (visible c (ptr + sizeof t)), [].
    split_and!; [by apply Hfirst|done|done|]. intros _. cbn [tagged].
    destruct (Z.leb_spec tag_size (zlen (visible c (ptr + sizeof t)))); [|done].
    rewrite zlen_visible in * by (done || (destruct Hv; lia)). destruct (Htg ltac:(lia)) as [-> _] in Hne.
    by destruct (Z.eqb_spec (le_value (ztake tag_size (visible c (ptr + sizeof t)))) tag).
Qed.

Lemma ReadRepeatedFixed_wp tag_size tag c ptr us :
  1 <= tag_size <= 2 -> Inv c -> valid c ptr -> ptr + sizeof t <= buffer_end_ c + kSlopBytes ->
  wp (ReadRepeatedFixed t tag_size ptr tag) (c, us) (repeated_post tag_size tag c ptr us).
Proof.
  intros Htag HI Hv Hle. unfold ReadRepeatedFixed. apply wp_bind, on_fst_wp, wp_getS.
  apply ReadRepeatedFixed_loop_wp; try done. pose proof (shape_end _ (inv_shape _ HI)) as [? ?].
  rewrite (inv_limit_end _ HI). destruct Hv. unfold zlen, kSlopBytes in *. lia.
Qed.
End fixed.

(** ** The packed parsers *)

(** The length, and then the body. *)
Definition packed_post t c ptr us (r : option Z) (cx : C * list Z) : Prop :=
  let beyond := match r with
    | Some q => exists k, left_ c ptr < k /\ moves k c ptr cx.1 q
    | None => same_depths c cx.1
    end in
  match size_decode (visible c ptr) with
  | Some (size, l) =>
      if size <=? zlen l then
        let (vs, whole) := scan t (ztake size l) in
        if whole then exists q, r = Some q /\ cx.2 = us ++ vs /\
                        moves (zlen (visible c ptr) - zlen l + size) c ptr cx.1 q
        else r = None /\ same_depths c cx.1
      else beyond
  | None => beyond
  end.

Lemma VarintParser_value_ok t v : fixed_size t = false -> is_scalar t = true ->
  VarintParser_value t (u64 v) = from_wire t v.
Proof. destruct t; try done; intros _ _; simpl; by rewrite ?u32_u64. Qed.

(** What a parser of a body makes of a field. *)
Lemma sized_body_wp t (reader : Z -> Z -> M (C * list Z) (option Z)) c ptr us :
  (forall c ptr size, Inv c -> valid c ptr -> 0 <= size ->
     wp (reader ptr size) (c, us) (body_post t (fun vs x => x = us ++ vs) size c ptr [])) ->
  Inv c -> valid c ptr -> ptr + 5 <= buffer_end_ c + kSlopBytes ->
  wp (let* (q, size) := on_fst (decode ReadSize ptr) in
      match q with None => ret None | Some ptr => reader ptr size end) (c, us) (packed_post t c ptr us).
Proof.
  intros Hr HI Hv Hle. pose proof Hv as [Hp _]. pose proof (zlen_visible c ptr HI ltac:(lia)) as El.
  apply wp_bind, on_fst_wp. wp_use ReadSize_wp; [done|lia|done|]. intros [q size] c1 [-> [Hf Hs]].
  unfold packed_post, size_found in *. cbn [fst snd] in *.
  destruct (size_decode (visible c ptr)) as [[x l]|] eqn:Ed.
  - injection Hf as -> ->. pose proof (size_decode_suffix _ _ _ Ed) as (Hx & b & Eb & Hb).
    assert (0 < zlen (visible c ptr) - zlen l <= 5) as Hk by (rewrite Eb; unfold zlen; rewrite length_app; lia).
    set (k := zlen (visible c ptr) - zlen l) in *.
    assert (moves k c ptr c (ptr + k)) as Hm by (apply moves_add; done || lia).
    pose proof (visible_app c ptr b l _ _ HI ltac:(lia) Eb Hm) as Ev.
    pose proof (moves_left _ _ _ _ _ Hm) as Hl. pose proof (zlen_nonneg l).
    wp_use Hr; [done|by apply Hm|lia|]. intros r [c1 x1] Hpost. unfold body_post, body in Hpost.
    rewrite Ev in Hpost. cbn [fst snd] in *.
    destruct r as [q|].
    + destruct Hpost as [Hm2 Hsc].
      assert (moves (k + x) c ptr c1 q) as Hm3 by (eapply moves_trans; [lia|lia|exact Hm|exact Hm2]).
      destruct (Z.leb_spec x (zlen l)).
      * destruct (Hsc ltac:(lia)) as (vs & -> & ->). exists q. by split_and!.
      * exists (k + x). split; [lia|done].
    + destruct Hpost as [Hd Hsc]. destruct (Z.leb_spec x (zlen l)); [|done].
      specialize (Hsc ltac:(lia)). destruct (scan t (ztake x l)) as [vs []]; done.
  - destruct q as [q|]; [|by apply wp_ret]. simpl in Hf. specialize (Hs ltac:(done)).
    assert (moves (q - ptr) c ptr c q) as Hm.
    { replace q with (ptr + (q - ptr)) at 2 by lia. apply moves_add; done || lia. }
    wp_use Hr; [done|by apply Hm|lia|]. intros [q2|] [c1 x1] Hpost; unfold body_post in Hpost; cbn [fst snd] in *.
    + destruct Hpost as (Hm2 & _). exists ((q - ptr) + size). split; [lia|].
      eapply moves_trans; [lia|lia|exact Hm|exact Hm2].
    + apply Hpost.
Qed.

Lemma VarintParser_eq t ptr s :
  VarintParser t ptr s =
    (let* (q, size) := on_fst (decode ReadSize ptr) in
     match q with
     | None => ret None
     | Some ptr =>
         let* c := on_fst getS in
         ReadPackedVarint_loop (fun varint object => object ++ [VarintParser_value t varint])
           (buffers_left c) ptr (buffer_end_ c - ptr) size
     end) s.
Proof.
  unfold VarintParser, ReadPackedVarint, mbind_, on_fst. destruct s as [c x]. simpl.
  by destruct (decode ReadSize ptr c) as [[[[q|] size] c']|].
Qed.

Lemma PackedParser_wp t c ptr us :
  is_scalar t = true -> Inv c -> valid c ptr -> ptr + 5 <= buffer_end_ c + kSlopBytes ->
  wp (PackedParser t ptr) (c, us) (packed_post t c ptr us).
Proof.
  intros Ht HI Hv Hle. unfold PackedParser. destruct (fixed_size t) eqn:E.
  - apply sized_body_wp; [|done..]. intros. by apply ReadPackedFixed_wp.
  - unfold wp. rewrite VarintParser_eq. apply sized_body_wp; [|done..].
    intros c1 p size HI1 Hv1 Hs. apply wp_bind, on_fst_wp, wp_getS.
    apply ReadPackedVarint_loop_wp; try done.
    + intros vs v x ->. by rewrite <- app_assoc, VarintParser_value_ok.
    + unfold measure, buffers_left, stream_bound. destruct (next_chunk_ c1), (zcis_ c1); lia.
    + by rewrite app_nil_r.
Qed.

(** ** UTF-8 *)

Section utf8.
Context `{Utf8RangeOk}.

(** What of the bytes [l] is left over. *)
Definition leftover_of (l : list byte) (b : LeftoverBuffer) : Prop :=
  zlen (leftover_bytes b) = kUtfMax /\ leftover_size b < kUtfMax /\
  ztake (leftover_size b) (leftover_bytes b) = zdrop (valid_prefix l) l /\
  leftover_size b = zlen l - valid_prefix l.

Definition stopped_at (l : list byte) : Prop := kUtfMax <= zlen l - valid_prefix l.

Lemma memcpy_wp dst src b Q :
  zlen src < 4 -> Q tt {| leftover_size := leftover_size b; leftover_bytes := splice dst src (leftover_bytes b) |} ->
  wp (UnrolledMemcpy dst src) b Q.
Proof. intros Hs HQ. unfold UnrolledMemcpy. destruct (Z.ltb_spec (zlen src) 4); [|lia]. by wp_steps. Qed.

Lemma rest_of_fragment_wp l fragment b :
  zlen (leftover_bytes b) = kUtfMax ->
  zdrop (zlen l - zlen fragment) l = fragment -> zlen fragment <= zlen l ->
  valid_prefix l = zlen l - zlen fragment + valid_prefix fragment ->
  wp (rest_of_fragment fragment) b (fun ok b' => if ok : bool then leftover_of l b' else stopped_at l).
Proof.
  intros Hb Ef Hle Hv. unfold rest_of_fragment, leftover_assign. rewrite span_ok.
  pose proof (valid_prefix_range fragment).
  assert (zdrop (valid_prefix fragment) fragment = zdrop (valid_prefix l) l) as E.
  { rewrite <- Ef at 2. rewrite zdrop_zdrop by lia. by rewrite <- Hv. }
  assert (zlen (zdrop (valid_prefix fragment) fragment) = zlen l - valid_prefix l) as El by zl.
  rewrite El. unfold kUtfMax in *. destruct (Z.leb_spec 4 (zlen l - valid_prefix l)).
  { by apply wp_ret. }
  destruct (Z.ltb_spec (zlen l - valid_prefix l) 4); [|lia]. wp_steps. apply wp_bind, memcpy_wp; [lia|].
  unfold set_leftover_size. wp_steps. unfold leftover_of, kUtfMax. simpl. split_and!; [|lia| |done].
  - rewrite zlen_splice; lia.
  - rewrite <- E. pose proof (ztake_splice 0 (zdrop (valid_prefix fragment) fragment) (leftover_bytes b) ltac:(lia)) as Es.
    rewrite (ztake_0 0), El in Es by lia. exact Es.
Qed.

Lemma leftover_append_wp from b Q :
  zlen (leftover_bytes b) = kUtfMax -> 0 <= leftover_size b -> leftover_size b + zlen from <= kUtfMax -> zlen from < 4 ->
  (forall b', zlen (leftover_bytes b') = kUtfMax -> leftover_size b' = leftover_size b + zlen from ->
     ztake (leftover_size b') (leftover_bytes b') = ztake (leftover_size b) (leftover_bytes b) ++ from -> Q tt b') ->
  wp (leftover_append from) b Q.
Proof.
  intros Hb Hs Hle Hf HQ. unfold leftover_append. wp_steps. pose proof (zlen_nonneg from).
  destruct (Z.leb_spec (leftover_size b + zlen from) kUtfMax); [|lia]. wp_steps.
  apply wp_bind, memcpy_wp; [lia|]. apply wp_modS, HQ; simpl; [rewrite zlen_splice; lia|done|].
  apply ztake_splice. lia.
Qed.

Lemma IsViewValid_wp l fragment b :
  leftover_of l b ->
  wp (IsViewValidUTF8WithLeftover fragment) b
    (fun ok b' => if ok : bool then leftover_of (l ++ fragment) b' else stopped_at (l ++ fragment)).
Proof.
  intros (Hb & Hs & Ev & El). unfold IsViewValidUTF8WithLeftover. wp_steps.
  pose proof (valid_prefix_range l). pose proof (zlen_nonneg fragment).
  set (rest := zdrop (valid_prefix l) l) in *. assert (zlen rest = leftover_size b) as Hr by (unfold rest; zl).
  assert (code_point rest = None) as Hnone by apply valid_prefix_stop.
  pose proof (valid_prefix_app l fragment) as Eapp. fold rest in Eapp.
  assert (forall v, 0 <= v -> zdrop (valid_prefix l + v) (l ++ fragment) = zdrop v (rest ++ fragment)) as Hdrop.
  { intros v Hv. rewrite <- zdrop_zdrop by lia. by rewrite zdrop_app, (zdrop_0 _ fragment) by lia. }
  destruct (Z.ltb_spec 0 (leftover_size b)) as [Hpos|Hzero]; cycle 1.
  { apply rest_of_fragment_wp; [done|apply zdrop_app_exact; zl|zl|].
    rewrite Eapp, (zlen_0 rest) by lia. cbn [app]. zl. }
  destruct (Z.ltb_spec (leftover_size b) kUtfMax); [|lia]. apply wp_bind, wp_ret.
  destruct (Z.ltb_spec (zlen fragment) (kUtfMax - leftover_size b)) as [Hfit|Hfill].
  - apply wp_bind, leftover_append_wp; [done|lia|lia|unfold kUtfMax in *; lia|]. intros b1 Hb1 Hs1 Ev1.
    unfold leftover_view. wp_steps. rewrite Ev1, Ev, span_ok. pose proof (valid_prefix_range (rest ++ fragment)) as Hvr.
    rewrite zlen_app in Hvr. set (v := valid_prefix (rest ++ fragment)) in *.
    unfold leftover_remove_prefix. wp_steps. destruct (Z.leb_spec v (leftover_size b1)); [|lia].
    unfold set_leftover_size. apply wp_ret.
    assert (ztake (leftover_size b1 - v) (zdrop v (leftover_bytes b1)) = zdrop v (rest ++ fragment)) as E2.
    { rewrite <- zdrop_ztake, Ev1, Ev by lia. done. }
    apply wp_bind, wp_modS. rewrite E2. apply memcpy_wp; [unfold kUtfMax in *; zl|]. apply wp_ret. unfold leftover_of, kUtfMax in *. simpl.
    assert (zlen (zdrop v (rest ++ fragment)) = leftover_size b1 - v) as Ez by zl.
    split_and!; [rewrite zlen_splice; lia|lia| |rewrite zlen_app; lia].
    pose proof (ztake_splice 0 (zdrop v (rest ++ fragment)) (leftover_bytes b1) ltac:(lia)) as Es.
    rewrite (ztake_0 0), Ez in Es by lia. cbn [app] in Es. rewrite Z.add_0_l in Es. rewrite Es, Eapp.
    symmetry. apply Hdrop. lia.
  - apply wp_bind, leftover_append_wp; [done|lia|zl|unfold kUtfMax in *; zl|]. intros b1 Hb1 Hs1 Ev1.
    unfold leftover_view. wp_steps. rewrite Ev1, Ev, span_ok.
    set (head := ztake (kUtfMax - leftover_size b) fragment) in *.
    assert (zlen head = kUtfMax - leftover_size b) as Hh by (unfold head; zl).
    assert (rest ++ fragment = (rest ++ head) ++ zdrop (kUtfMax - leftover_size b) fragment) as Esplit.
    { unfold head. by rewrite <- app_assoc, ztake_zdrop. }
    pose proof (valid_prefix_range (rest ++ head)) as Hvr. rewrite zlen_app in Hvr.
    set (v := valid_prefix (rest ++ head)) in *.
    destruct (Z.eqb_spec v 0) as [Ev0|Hv0].
    { apply wp_ret. unfold stopped_at. rewrite Eapp, Esplit, undecided_none; fold v; rewrite ?zlen_app; unfold kUtfMax in *; lia. }
    assert (leftover_size b < v) as Hlv.
    { unfold v in *. rewrite valid_prefix_eq in *. destruct (code_point (rest ++ head)) as [k|] eqn:Ek; [|done].
      pose proof (valid_prefix_range (zdrop k (rest ++ head))).
      destruct (Z.leb_spec k (leftover_size b)); [|lia]. 
      apply (code_point_take _ _ (leftover_size b)) in Ek; [|done]. rewrite ztake_app_exact in Ek by done. congruence. }
    destruct (Z.leb_spec (leftover_size b) v), (Z.leb_spec (v - leftover_size b) (zlen fragment)); try lia.
    apply wp_bind, wp_ret.
    assert (zdrop (v - leftover_size b) fragment = zdrop v (rest ++ fragment)) as Efr.
    { rewrite zdrop_app, (zdrop_all v rest), Hr by lia. done. }
    assert (zlen (zdrop (v - leftover_size b) fragment) = zlen l + zlen fragment - (valid_prefix l + v)) as Elen by zl.
    apply rest_of_fragment_wp; [done| |rewrite Elen, zlen_app; lia|].
    + rewrite Elen, zlen_app, Efr, <- Hdrop by lia. f_equal. lia.
    + assert (zdrop v (rest ++ fragment) = zdrop v (rest ++ head) ++ zdrop (kUtfMax - leftover_size b) fragment) as Ev2
        by (rewrite Esplit, (zdrop_app v (rest ++ head)), (zdrop_0 (v - _)) by (rewrite zlen_app; lia); done).
      assert (valid_prefix (rest ++ fragment) = v + valid_prefix (zdrop v (rest ++ fragment))) as Evp
        by (rewrite Ev2, Esplit; apply valid_prefix_app).
      rewrite Elen, zlen_app, Eapp, Efr. lia.
Qed.

(** Bytes at which the check has stopped, or that leave some over, are not
    well-formed, and nothing makes up for the former. *)
Lemma leftover_verdict l b : leftover_of l b -> (leftover_size b =? 0) = well_formed l.
Proof. intros (_ & _ & _ & ->). unfold well_formed. destruct (Z.eqb_spec (valid_prefix l) (zlen l)); lia. Qed.

Lemma stopped_verdict l k : stopped_at l -> well_formed (l ++ k) = false.
Proof.
  intros Hl. unfold well_formed. rewrite undecided_none by done. unfold stopped_at, kUtfMax in *.
  pose proof (zlen_nonneg k). apply Z.eqb_neq. zl.
Qed.

Definition utf8_post size c ptr (r : option Z) c' : Prop :=
  match r with
  | Some q => moves size c ptr c' q /\ (size <= left_ c ptr -> well_formed (body c ptr size) = true)
  | None => same_depths c c' /\ (size <= left_ c ptr -> well_formed (body c ptr size) = false)
  end.

Lemma VerifyUTF8_wp c ptr size :
  Inv c -> valid c ptr -> 0 <= size -> wp (VerifyUTF8 ptr size) c (utf8_post size c ptr).
Proof.
  intros HI Hv Hs. unfold VerifyUTF8. apply wp_bind, BytesAvailable_wp; [done|done|].
  pose proof Hv as [Hp _].
  destruct (Z.leb_spec size (buffer_end_ c + kSlopBytes - ptr)).
  - apply wp_bind, load_reads; [done|done|done|lia|]. intros B HB HrB. apply wp_ret. rewrite is_ok.
    assert (size <= left_ c ptr -> body c ptr size = B) as Eb.
    { intros Hl. by apply reads_whole. }
    destruct (well_formed B) eqn:Ew.
    + split; [apply moves_add; done || lia|]. intros Hl. by rewrite Eb.
    + split; [done|]. intros Hl. by rewrite Eb.
  - unfold VerifyUTF8Fallback.
    destruct (wp_inv _ _ _ (AppendSize_wp IsViewValidUTF8WithLeftover leftover_of stopped_at
      (fun l bytes x => IsViewValid_wp l bytes x) c ptr size no_leftover HI Hv ltac:(lia) ltac:(done)))
      as (r & [c1 b] & E & Hpost).
    unfold wp. rewrite E. unfold append_post in Hpost. cbn [fst snd app] in Hpost.
    destruct r as [q|].
    + destruct Hpost as (B & HB & HrB & Hm & Hb). rewrite (leftover_verdict _ _ Hb).
      assert (size <= left_ c ptr -> body c ptr size = B) as Eb.
      { intros Hl. by apply reads_whole. }
      destruct (well_formed B) eqn:Ew.
      * split; [done|]. intros Hl. by rewrite Eb.
      * split; [apply Hm|]. intros Hl. by rewrite Eb.
    + assert (forall x : bool, (if x then @None Z else None) = None) as En by (by intros []). rewrite En.
      destruct Hpost as [Hd [Hl|(B & HB & HrB & Hst)]]; (split; [done|]); [lia|]. intros Hl.
      rewrite <- (ztake_zdrop (zlen B) (body c ptr size)), <- (reads_body c ptr B size) by (done || lia).
      by apply stopped_verdict.
Qed.
End utf8.
End spec.
