(* ===== verification/PackedReadersTheorems.v ===== *)
(** * Packed fields and UTF-8: the properties

    The two readers of packed fields, the one of the pointer-based parser and the
    one over a [CodedInputStream], give the same elements, and the check of UTF-8
    does not see the buffers. *)

From S2P Require Import Prelude Varint ZeroCopyStream CodedInput RepeatedField WireFormatLite WireRead UnknownFields UnknownFieldsSpec UnknownFieldsTheorems Utf8 PointerDecoders EpsCopyInput EpsCopyInputSpec ParseContext ParseContextSpec ParseContextTheorems PackedReaders PackedReadersSpec.

#[local] Arguments vdecode : simpl never.
#[local] Arguments repeat : simpl never.

(** The reference of the [CodedInputStream] reader refuses a fixed-width body of
    a wrong length at once. *)
Lemma scan_packed t body :
  is_scalar t = true ->
  (packed_spec t body).2 = (scan t body).2 /\ ((scan t body).2 = true -> packed_spec t body = scan t body).
Proof.
  intros Ht. unfold packed_spec. destruct (fixed_size t) eqn:E; [|done].
  destruct (Z.eqb_spec (zlen body mod sizeof t) 0) as [|Hmod]; [done|]. cbn [andb negb snd].
  enough ((scan t body).2 = false) as -> by done.
  pose proof (fixed_sizeof t E) as Hsz. pose proof (zlen_nonneg body).
  set (n := Z.to_nat (zlen body / sizeof t)).
  assert (0 <= zlen body - Z.of_nat n * sizeof t < sizeof t /\ zlen body <> Z.of_nat n * sizeof t) as [Hn Hne].
  { unfold n. rewrite Z2Nat.id by (apply Z.div_pos; lia). pose proof (Z.div_mod (zlen body) (sizeof t)).
    pose proof (Z.mod_pos_bound (zlen body) (sizeof t)). lia. }
  eapply taken_bad; [apply (taken_copied t E n); lia|]. rewrite scan_short by (done || zl).
  apply Z.eqb_neq. zl.
Qed.

Section properties.
Context {S : Type} `{ZeroCopyInputStreamOk S}.
Notation C := (t S).

(** The first field of a message, as a parse loop comes to it. *)
Definition first_field {X A} (input : S) (parse : Z -> M (C * X) (option A)) : M (C * X) (option A) :=
  let* ptr := on_fst (InitFrom_zcis input) in
  let* (ptr, done) := on_fst (Done ptr) in
  match ptr with
  | Some ptr => if done : bool then ret None else parse ptr
  | None => ret None
  end.

Lemma first_field_wp {X A} (input : S) (parse : Z -> M (C * X) (option A)) depth aliasing x Q :
  stream_ok input -> 0 < zlen (content input) < INT_MAX - kSlopBytes -> 0 <= depth <= INT_MAX ->
  (forall c p, ready c p -> visible c p = content input -> p < buffer_end_ c -> wp (parse p) (c, x) Q) ->
  wp (first_field input parse) (fresh depth aliasing, x) Q.
Proof.
  intros Hok Hl Hd HQ. unfold first_field.
  change (fresh depth aliasing) with (set_overall_limit INT_MAX (fresh (S := S) depth aliasing)).
  apply wp_bind, on_fst_wp. wp_use InitFrom_zcis_wp; [done|unfold kSlopBytes in *; lia|done|].
  intros ptr c Hop. apply starts_zcis in Hop as [Hs Hu]; [|lia].
  pose proof (starts_ready _ _ _ _ _ Hs Hd) as Hr. pose proof Hr as [HI Hv _ _ _].
  pose proof (starts_visible _ _ _ _ _ Hs) as Ev.
  assert (0 < left_ c ptr) as Hleft.
  { pose proof (zlen_visible c ptr HI ltac:(destruct Hv; lia)) as El. rewrite Ev in El. lia. }
  apply wp_bind, on_fst_wp. wp_use Done_wp; [done|]. intros [r b] c1 Hdone. unfold done_post in Hdone.
  destruct (Z.ltb_spec (left_ c ptr) 0); [lia|]. destruct Hdone as (p & Er & Hp).
  destruct (Z.eqb_spec (left_ c ptr) 0); [lia|]. injection Er as -> ->. destruct Hp as [Hm Hlt].
  pose proof (ready_moves _ _ _ _ _ Hr Hm) as Hr1. apply HQ; [done| |].
  - rewrite (moves_visible 0 c ptr) by (done || lia). by rewrite zdrop_0.
  - rewrite (inv_limit_end _ (moves_inv _ _ _ _ _ Hm)) in Hlt. lia.
Qed.

Lemma size_decode_write n r :
  0 <= n <= INT_MAX - kSlopBytes -> size_decode (WriteVarint32ToArray n ++ r) = Some (n, r).
Proof.
  intros Hn. unfold kSlopBytes, INT_MAX in *. unfold size_decode.
  replace (WriteVarint32ToArray n) with (unsafe_varint_loop 5 n).
  - rewrite vdecode_unsafe_varint_loop by (simpl Z.of_nat; lia). cbn [mbind option_bind].
    by destruct (Z.leb_spec n (INT_MAX - kSlopBytes)); [|unfold INT_MAX, kSlopBytes in *; lia].
  - apply unsafe_varint_loop_unfold; unfold kMaxVarintBytes; simpl Z.of_nat; lia.
Qed.

(** C7: The library's two readers of packed fields agree. For each of the
    fourteen scalar types and any body, a sequence of elements or not, in any
    stream and for any buffers: the parser of [parse_context.h] and the reader
    over a [CodedInputStream] both accept exactly the bodies that are sequences
    of elements, append the same elements, and stop at the byte behind the
    body. *)
Theorem packed_parsers_agree t depth aliasing (input : S) body k us
    AllocateAtLeast ArenaAllocate little_endian (s : CodedInput.t S) v :
  is_scalar t = true -> 0 <= depth <= INT_MAX -> stream_ok input ->
  content input = WriteVarint32ToArray (zlen body) ++ body ++ k ->
  zlen (content input) < INT_MAX - kSlopBytes ->
  (forall bytes, address (fst (AllocateAtLeast bytes)) /\ bytes <= snd (AllocateAtLeast bytes)) ->
  (forall bytes, address (ArenaAllocate bytes)) ->
  CodedInput.Inv s -> avail s = content input -> CurrentPosition s + zlen (avail s) < INT_MAX ->
  RepeatedField.wf (sizeof t) v -> elems v = us -> size v + zlen body <= INT_MAX ->
  let (vs, whole) := packed_spec t body in
  wp (first_field input (PackedParser t)) (fresh depth aliasing, us) (fun r cx =>
    if whole then exists q, r = Some q /\ cx.2 = us ++ vs /\ visible cx.1 q = k else r = None) /\
  wp (ReadPackedPrimitive t AllocateAtLeast ArenaAllocate little_endian) (s, v) (fun ok sv =>
    ok = whole /\ (whole = true -> elems sv.2 = us ++ vs /\ avail sv.1 = k)).
Proof.
  intros Ht Hd Hok Ec Hl Ha Har HI Ea Hpos Hv <- Hmax. pose proof (zlen_nonneg body) as Hb.
  assert (zlen body < INT_MAX - kSlopBytes) as Hbl
    by (rewrite Ec, !zlen_app in Hl; pose proof (zlen_nonneg k); pose proof (zlen_nonneg (WriteVarint32ToArray (zlen body))); lia).
  destruct (scan_packed t body Ht) as [Eok Escan]. rewrite (surjective_pairing (packed_spec t body)). split.
  - apply first_field_wp; [done| |done|].
    { split; [|lia]. pose proof (size_decode_write (zlen body) (body ++ k) ltac:(lia)) as Es. rewrite <- Ec in Es.
      apply size_decode_suffix in Es as (_ & c & -> & Hc). unfold zlen. rewrite length_app. lia. }
    intros c p Hr Ev Hlt. pose proof Hr as [HIc Hvc _ _ _].
    wp_use PackedParser_wp; [done|done|done|unfold kSlopBytes; lia|]. intros r [c1 x1] Hp.
    unfold packed_post in Hp. rewrite Ev, Ec, size_decode_write in Hp by lia. cbn [fst snd] in *.
    destruct (Z.leb_spec (zlen body) (zlen (body ++ k))); [|rewrite zlen_app in *; pose proof (zlen_nonneg k); lia].
    rewrite ztake_app_exact in Hp by done. rewrite Eok.
    destruct (scan t body) as [vs whole]; cbn [fst snd] in *. destruct whole; [|by destruct Hp].
    rewrite Escan by done. destruct Hp as (q & -> & -> & Hm). exists q. split_and!; [done..|].
    eapply (visible_app c p (WriteVarint32ToArray (zlen body) ++ body)); [done|by destruct Hvc; lia|by rewrite Ev, Ec, app_assoc|].
    rewrite Ev, Ec. replace (zlen (WriteVarint32ToArray (zlen body) ++ body ++ k) - zlen k)
      with (zlen (WriteVarint32ToArray (zlen body) ++ body ++ k) - zlen (body ++ k) + zlen body) by zl. exact Hm.
  - assert (forall ok sv, packed_read t s v body k ok sv ->
      ok = (packed_spec t body).2 /\ ((packed_spec t body).2 = true ->
        elems sv.2 = elems v ++ (packed_spec t body).1 /\ avail sv.1 = k)) as Hr.
    { intros ok sv ([_ He] & -> & Hm). split; [done|]. intros Eq. rewrite Eq in Hm. split; [done|].
      rewrite Ec, app_assoc in Ea. by apply (WireRead.moved_to _ _ _ _ Ea Hm). }
    unfold ReadPackedPrimitive. rewrite Ec in Ea. unfold kSlopBytes in *. destruct (fixed_size t) eqn:E.
    + by wp_use packed_fixed_wp; try done; lia.
    + by wp_use packed_generic_wp; try done; lia.
Qed.

(** C8: The check of UTF-8 does not see the buffers. The bytes of a string field
    pass it exactly if all of them together are a sequence of the code points of
    the Unicode standard, however the stream cuts them, in the middle of code
    points too, and the parse goes on right behind them. *)
Theorem utf8_any_buffers `{Utf8RangeOk} depth aliasing (input : S) size :
  0 <= depth <= INT_MAX -> stream_ok input -> 0 < zlen (content input) < INT_MAX - kSlopBytes ->
  0 <= size <= zlen (content input) ->
  wp (first_field input (fun p => on_fst (VerifyUTF8 p size))) (fresh depth aliasing, tt) (fun r cx =>
    if well_formed (ztake size (content input))
    then exists q, r = Some q /\ visible cx.1 q = zdrop size (content input)
    else r = None).
Proof.
  intros Hd Hok Hl Hs. apply first_field_wp; [done..|]. intros c p Hr Ev Hlt. pose proof Hr as [HI Hv _ _ _].
  pose proof Hv as [Hp _]. apply on_fst_wp. wp_use VerifyUTF8_wp; [done|done|lia|]. intros r c1 Hpost.
  assert (size <= left_ c p) as Hleft.
  { pose proof (zlen_visible c p HI ltac:(lia)) as El. rewrite Ev in El. lia. }
  unfold utf8_post, body in Hpost. rewrite Ev in Hpost. cbn [fst]. destruct r as [q|].
  - destruct Hpost as [Hm ->]; [|done]. exists q. split; [done|].
    rewrite (moves_visible size c p) by (done || lia). by rewrite Ev.
  - by destruct Hpost as [_ ->].
Qed.
End properties.

(** ** At concrete inputs *)

(** Three [sint64] values behind their length, and one more byte, in blocks of
    two bytes. *)
Definition packed_body : list byte := concat (map (WriteNoTagToArray TYPE_SINT64) [-1; 300; - 2 ^ 63]).
Definition packed_message : list byte :=
  Eval vm_compute in WriteVarint32ToArray (zlen packed_body) ++ packed_body ++ [Byte.x05].

#[local] Notation packed_stream := (ArrayInputStream.make packed_message 15 2).

Lemma packed_parsers_agree_witness :
  wp (first_field packed_stream (PackedParser TYPE_SINT64)) (fresh 100 false, []) (fun r cx =>
    exists q, r = Some q /\ cx.2 = [-1; 300; - 2 ^ 63] /\ visible cx.1 q = [Byte.x05]) /\
  wp (ReadPackedPrimitive (S := ArrayInputStream.t) TYPE_SINT64 sample_alloc sample_arena_alloc true)
    (CodedInput.from_array packed_message, sample_field)
    (fun ok sv => ok = true /\ (true = true -> elems sv.2 = [-1; 300; - 2 ^ 63] /\ avail sv.1 = [Byte.x05])).
Proof.
  destruct (from_array_inv (S := ArrayInputStream.t) packed_message ltac:(by vm_compute)) as (HI & Ha & Hp & _).
  destruct sample_allocators as [H1 H2].
  pose proof (packed_parsers_agree TYPE_SINT64 100 false packed_stream packed_body [Byte.x05] []
    sample_alloc sample_arena_alloc true (CodedInput.from_array packed_message) sample_field) as Hw.
  apply Hw; clear Hw; try done.
  - apply (ArrayInputStream.array_make_wf packed_message 2).
  - apply sample_field_wf.
Defined.

(** The euro sign behind a letter, in blocks of two bytes. *)
Definition utf8_text : list byte := map z2b [0x61; 0xE2; 0x82; 0xAC; 0x80].

Lemma utf8_any_buffers_witness :
  wp (first_field (ArrayInputStream.make utf8_text 5 2) (fun p => on_fst (VerifyUTF8 p 4))) (fresh 100 false, tt)
    (fun r cx => exists q, r = Some q /\ visible cx.1 q = map z2b [0x80]) /\
  wp (first_field (ArrayInputStream.make utf8_text 5 2) (fun p => on_fst (VerifyUTF8 p 5))) (fresh 100 false, tt)
    (fun r _ => r = None).
Proof.
  assert (0 <= 100 <= INT_MAX) as Hd by (unfold INT_MAX; lia).
  pose proof (ArrayInputStream.array_make_wf utf8_text 2) as Hok.
  assert (0 < zlen (content (ArrayInputStream.make utf8_text 5 2)) < INT_MAX - kSlopBytes) as Hl by (by vm_compute).
  assert (well_formed (ztake 4 (content (ArrayInputStream.make utf8_text 5 2))) = true) as E4 by (by vm_compute).
  assert (well_formed (ztake 5 (content (ArrayInputStream.make utf8_text 5 2))) = false) as E5 by (by vm_compute).
  split.
  - pose proof (utf8_any_buffers 100 false (ArrayInputStream.make utf8_text 5 2) 4 Hd Hok Hl ltac:(by vm_compute)) as Hw.
    rewrite E4 in Hw. eapply wp_mono; [exact Hw|]. clear Hw. intros r cx (q & -> & Ev). exists q.
    split; [done|]. rewrite Ev. by vm_compute.
  - pose proof (utf8_any_buffers 100 false (ArrayInputStream.make utf8_text 5 2) 5 Hd Hok Hl ltac:(by vm_compute)) as Hw.
    rewrite E5 in Hw. exact Hw.
Defined.
