(* ===== verification/JsonStream.v ===== *)
(** * The buffered stream of the JSON lexer

    [ZeroCopyBufferedStream] of [json/internal/zero_copy_buffered_stream.h] and
    [.cc]. A [BufferingGuard] is a reference that is counted in
    [outstanding_buffer_borrows_]: making one is [UpRefBuffer], the end of its
    life is [DownRefBuffer], written out where C++ destroys it. A copy that is
    made and destroyed while another guard lives changes nothing and is left out.
    A failed [ABSL_DCHECK] and a [substr] past the end have no result. *)

From S2P Require Import Prelude ZeroCopyStream.

(** [MaybeOwnedString]; a string in the stream's buffer has a guard, which is
    counted. *)
Inductive MaybeOwnedString :=
  | owned (value : list byte)
  | stream_owned (start len : Z).

Record t (S : Type) := mk {
  stream_ : S;
  last_chunk_ : list byte;
  buf_ : list byte;
  using_buf_ : bool;
  cursor_ : Z;
  buffer_start_ : Z;
  eof_ : bool;
  outstanding_buffer_borrows_ : Z;
}.
Arguments mk {S}.
Arguments stream_ {S}.
Arguments last_chunk_ {S}.
Arguments buf_ {S}.
Arguments using_buf_ {S}.
Arguments cursor_ {S}.
Arguments buffer_start_ {S}.
Arguments eof_ {S}.
Arguments outstanding_buffer_borrows_ {S}.

Definition make {S} (stream : S) : t S := mk stream [] [] false 0 0 false 0.

Section set.
Context {S : Type}.
Implicit Type c : t S.
Definition set_buf (buf : list byte) (using_buf : bool) c : t S :=
  mk (stream_ c) (last_chunk_ c) buf using_buf (cursor_ c) (buffer_start_ c) (eof_ c) (outstanding_buffer_borrows_ c).
Definition set_stream (stream : S) c : t S :=
  mk stream (last_chunk_ c) (buf_ c) (using_buf_ c) (cursor_ c) (buffer_start_ c) (eof_ c) (outstanding_buffer_borrows_ c).
Definition set_eof c : t S :=
  mk (stream_ c) (last_chunk_ c) (buf_ c) (using_buf_ c) (cursor_ c) (buffer_start_ c) true (outstanding_buffer_borrows_ c).
Definition set_last_chunk (chunk : list byte) c : t S :=
  mk (stream_ c) chunk (buf_ c) (using_buf_ c) (cursor_ c) (buffer_start_ c) (eof_ c) (outstanding_buffer_borrows_ c).
Definition set_cursor (cursor : Z) c : t S :=
  mk (stream_ c) (last_chunk_ c) (buf_ c) (using_buf_ c) cursor (buffer_start_ c) (eof_ c) (outstanding_buffer_borrows_ c).
Definition set_buffer_start (start : Z) c : t S :=
  mk (stream_ c) (last_chunk_ c) (buf_ c) (using_buf_ c) (cursor_ c) start (eof_ c) (outstanding_buffer_borrows_ c).
Definition set_borrows (n : Z) c : t S :=
  mk (stream_ c) (last_chunk_ c) (buf_ c) (using_buf_ c) (cursor_ c) (buffer_start_ c) (eof_ c) n.
End set.

Section stream.
Context {S : Type} `{ZeroCopyInputStreamOk S}.
Notation C := (t S).

(** ** The buffer *)

(** [RawBuffer]; no [len] is [npos]. *)
Definition RawBuffer (start : Z) (len : option Z) : M C (list byte) :=
  let* c := getS in
  dcheck (negb (using_buf_ c) || (buffer_start_ c <=? start)) ;;;
  let start := if using_buf_ c then start - buffer_start_ c else start in
  let view := if using_buf_ c then buf_ c else last_chunk_ c in
  dcheck (start <=? zlen view) ;;;
  match len with
  | None => ret (zdrop start view)
  | Some len => dcheck (start + len <=? zlen view) ;;; ret (ztake len (zdrop start view))
  end.

Definition Unread : M C (list byte) := let* c := getS in RawBuffer (cursor_ c) None.

Definition PeekChar : M C byte :=
  let* unread := Unread in
  match unread with [] => undef | c :: _ => ret c end.

(** ** Guards *)

Definition UpRefBuffer : M C unit :=
  let* c := getS in
  modS (set_borrows (outstanding_buffer_borrows_ c + 1)) ;;;
  if outstanding_buffer_borrows_ c =? 0 then modS (set_buffer_start (cursor_ c)) else ret tt.

Definition DownRefBuffer : M C unit :=
  let* c := getS in
  dcheck (0 <? outstanding_buffer_borrows_ c) ;;;
  modS (set_borrows (outstanding_buffer_borrows_ c - 1)) ;;;
  if (0 <? outstanding_buffer_borrows_ c - 1) || negb (using_buf_ c) then ret tt else
  if eof_ c then ret tt else
  let virtual_buf_len := zlen (buf_ c) + buffer_start_ c in
  let last_chunk_in_buf := virtual_buf_len - zlen (last_chunk_ c) in
  dcheck ((0 <=? last_chunk_in_buf) && (last_chunk_in_buf <=? virtual_buf_len)) ;;;
  modS (set_cursor (if cursor_ c <=? last_chunk_in_buf then 0 else cursor_ c - last_chunk_in_buf)) ;;;
  modS (set_buf [] false).

(** ** Reading *)

Definition ReadChunk : M C bool :=
  let* c := getS in
  if eof_ c then ret false else
  (if (0 <? outstanding_buffer_borrows_ c) && negb (using_buf_ c) then
     let* bytes := RawBuffer (buffer_start_ c) None in
     modS (fun c => set_buf (buf_ c ++ bytes) true c)
   else ret tt) ;;;
  let* (r, stream) := lift (ZeroCopyStream.Next (stream_ c)) in
  modS (set_stream stream) ;;;
  match r with
  | None => modS set_eof ;;; ret false
  | Some data =>
      modS (set_last_chunk data) ;;;
      let* c := getS in
      (if using_buf_ c then modS (set_buf (buf_ c ++ data) true)
       else modS (set_cursor 0) ;;; modS (set_buffer_start 0)) ;;;
      ret true
  end.

(** The loop of [Advance]; [n] bounds its rounds. *)
Fixpoint Advance_loop (n : nat) (bytes : Z) : M C bool :=
  if bytes =? 0 then ret true else
  match n with
  | O => undef
  | Datatypes.S n =>
      let* unread := Unread in
      let* more := if zlen unread =? 0 then ReadChunk else ret true in
      if negb more then ret false else
      let* unread := Unread in
      let to_skip := Z.min bytes (zlen unread) in
      modS (fun c => set_cursor (cursor_ c + to_skip) c) ;;;
      Advance_loop n (bytes - to_skip)
  end.

(** A round takes a chunk of the stream, or all that is asked for, or what is left
    in the buffer. *)
Definition chunks_left (c : C) : nat := (2 * bound (stream_ c) + 3)%nat.

Definition Advance (bytes : Z) : M C bool :=
  let* c := getS in
  let* ok := Advance_loop (chunks_left c) bytes in
  if negb ok then ret false else
  let* c := getS in
  dcheck (if using_buf_ c then cursor_ c <=? buffer_start_ c + zlen (buf_ c)
          else cursor_ c <=? zlen (last_chunk_ c)) ;;;
  ret true.

(** [guard = BufferingGuard(this)], when [guard] is [held] or empty. *)
Definition assign_guard (held : bool) : M C unit := if held then ret tt else UpRefBuffer.
Definition release_guard (held : bool) : M C unit := if held then DownRefBuffer else ret tt.

(** The result is whether a guard is returned. *)
Fixpoint BufferAtLeast_loop (n : nat) (held : bool) (bytes : Z) : M C bool :=
  let* unread := Unread in
  if zlen unread <? bytes then
    match n with
    | O => undef
    | Datatypes.S n =>
        (if negb (zlen unread =? 0) then assign_guard held else ret tt) ;;;
        let held := held || negb (zlen unread =? 0) in
        let* more := ReadChunk in
        if negb more then release_guard held ;;; ret false else
        assign_guard held ;;;
        BufferAtLeast_loop n true bytes
    end
  else UpRefBuffer ;;; release_guard held ;;; ret true.

Definition BufferAtLeast (bytes : Z) : M C bool :=
  let* c := getS in BufferAtLeast_loop (chunks_left c) false bytes.

(** [BufferAtLeast(bytes).status()], with the guard destroyed. *)
Definition Buffered (bytes : Z) : M C bool :=
  let* ok := BufferAtLeast bytes in
  release_guard ok ;;; ret ok.

Definition AtEof : M C bool :=
  let* _ := Buffered 1 in gets eof_.

(** ** Strings *)

Definition AsView (m : MaybeOwnedString) : M C (list byte) :=
  match m with
  | owned value => ret value
  | stream_owned start len => RawBuffer start (Some len)
  end.

(** The end of the life of a string. *)
Definition destroy (m : MaybeOwnedString) : M C unit :=
  match m with owned _ => ret tt | stream_owned _ _ => DownRefBuffer end.

(** A string that is not owned is copied, and its guard is given back. *)
Definition ToString (m : MaybeOwnedString) : M C MaybeOwnedString :=
  match m with
  | owned _ => ret m
  | stream_owned _ _ => let* value := AsView m in DownRefBuffer ;;; ret (owned value)
  end.

(** [None] is an error. *)
Definition Take (len : Z) : M C (option MaybeOwnedString) :=
  let* ok := BufferAtLeast len in
  if negb ok then ret None else
  let* start := gets cursor_ in
  let* ok := Advance len in
  if negb ok then DownRefBuffer ;;; ret None else
  ret (Some (stream_owned start len)).

Section take_while.
Context {X : Type} (p : X -> Z -> byte -> bool * X).

Fixpoint TakeWhile_loop (n : nat) (start : Z) (x : X) : M C (option unit) :=
  match n with
  | O => undef
  | Datatypes.S n =>
      let* ok := Buffered 1 in
      if negb ok then ret (Some tt) else
      let* cursor := gets cursor_ in
      let* c := PeekChar in
      let (more, x) := p x (cursor - start) c in
      if negb more then ret (Some tt) else
      let* ok := Advance 1 in
      if negb ok then ret None else TakeWhile_loop n start x
  end.

(** [x] is the state of the predicate. Every round but the last takes a byte. *)
Definition TakeWhile (x : X) : M C (option MaybeOwnedString) :=
  let* start := gets cursor_ in
  UpRefBuffer ;;;
  let* c := getS in
  let* unread := Unread in
  let* r := TakeWhile_loop (Datatypes.S (length unread + length (content (stream_ c)))) start x in
  match r with
  | None => DownRefBuffer ;;; ret None
  | Some _ => let* cursor := gets cursor_ in ret (Some (stream_owned start (cursor - start)))
  end.
End take_while.

(** A mark is its offset; its guard is counted. *)
Definition BeginMark : M C Z := let* start := gets cursor_ in UpRefBuffer ;;; ret start.

(** The string is a copy of the guard of the mark. *)
Definition UpToUnread (mark clip : Z) : M C MaybeOwnedString :=
  let* cursor := gets cursor_ in
  UpRefBuffer ;;; ret (stream_owned mark (cursor - mark - clip)).

Definition Discard : M C unit := DownRefBuffer.
End stream.
