(* ===== verification/JsonStreamSpec.v ===== *)
(** * What the buffered stream holds

    The chunks and the buffer of [JsonStream.v] stand for one list of bytes,
    [rest]; while a guard lives, what has been read since the first guard can be
    read again, [text]. Each operation is described on these. *)

From S2P Require Import Prelude ZeroCopyStream JsonStream.

Section spec.
Context {S : Type} `{ZeroCopyInputStreamOk S}.
Notation C := (t S).
Implicit Type c : C.

Definition base c : Z := if using_buf_ c then buffer_start_ c else 0.
Definition view c : list byte := if using_buf_ c then buf_ c else last_chunk_ c.
Definition unread c : list byte := zdrop (cursor_ c - base c) (view c).

(** The bytes still to be read. *)
Definition rest c : list byte := unread c ++ (if eof_ c then [] else content (stream_ c)).

(** What has been read since the offset [start]. *)
Definition text c (start : Z) : list byte := ztake (cursor_ c - start) (zdrop (start - base c) (view c)).

(** The invariant with [k] guards, but for where the cursor is in [buf_]: before
    the end of a guard it has to be in the last chunk. *)
Record Loose (k : Z) c : Prop := {
  loose_stream : stream_ok (stream_ c);
  loose_borrows : outstanding_buffer_borrows_ c = k /\ 0 <= k;
  loose_cursor : 0 <= base c <= cursor_ c /\ cursor_ c <= base c + zlen (view c);
  loose_start : 0 < k -> base c <= buffer_start_ c <= cursor_ c;
  loose_buf : using_buf_ c = false -> buf_ c = [];
  loose_using : using_buf_ c = true -> 0 < k \/ eof_ c = true;
  loose_last : using_buf_ c = true -> eof_ c = false ->
    zlen (last_chunk_ c) <= zlen (buf_ c) /\ zdrop (zlen (buf_ c) - zlen (last_chunk_ c)) (buf_ c) = last_chunk_ c;
  loose_eof : eof_ c = true -> unread c = [];
}.

(** [n] bytes further the cursor is in the last chunk. *)
Definition near (n : Z) c : Prop :=
  using_buf_ c = true -> eof_ c = false -> zlen (buf_ c) - zlen (last_chunk_ c) <= cursor_ c + n - buffer_start_ c.

Record Inv (k : Z) c : Prop := { inv_loose : Loose k c; inv_near : near 0 c }.

(** What is left of the invariant when an error ends the parse. *)
Definition broken (k : Z) c : Prop :=
  outstanding_buffer_borrows_ c = k /\ 0 <= k /\
  (using_buf_ c = true -> eof_ c = false -> zlen (last_chunk_ c) <= zlen (buf_ c) + buffer_start_ c) /\
  (using_buf_ c = true -> 0 <= buffer_start_ c).

(** [n] bytes have been read, while [k] guards were held throughout. *)
Record advanced (k n : Z) c c' : Prop := {
  advanced_rest : rest c' = zdrop n (rest c);
  advanced_text : 0 < k ->
    cursor_ c' = cursor_ c + n /\ buffer_start_ c' = buffer_start_ c /\
    forall start, buffer_start_ c <= start <= cursor_ c -> text c' start = text c start ++ ztake n (rest c);
}.

Lemma advanced_refl k c : advanced k 0 c c.
Proof.
  split; [by rewrite zdrop_0|]. intros _. split; [lia|]. split; [done|]. intros start _.
  by rewrite ztake_0, app_nil_r.
Qed.

Lemma advanced_trans k n m c c1 c2 :
  0 <= n -> 0 <= m -> advanced k n c c1 -> advanced k m c1 c2 -> advanced k (n + m) c c2.
Proof.
  intros Hn Hm [Hr1 Ht1] [Hr2 Ht2]. split.
  - by rewrite Hr2, Hr1, zdrop_zdrop.
  - intros Hk. destruct (Ht1 Hk) as (Ec1 & Eb1 & Ex1), (Ht2 Hk) as (Ec2 & Eb2 & Ex2).
    split; [lia|]. split; [congruence|]. intros start Hs.
    rewrite Ex2, Ex1, Hr1, ztake_add, app_assoc by lia. done.
Qed.

Lemma advanced_same k n c c1 c2 : 0 <= n -> advanced k 0 c c1 -> advanced k n c1 c2 -> advanced k n c c2.
Proof. intros. replace n with (0 + n) by lia. by eapply advanced_trans. Qed.

Lemma advanced_end k n c c1 c2 : 0 <= n -> advanced k n c c1 -> advanced k 0 c1 c2 -> advanced k n c c2.
Proof. intros. replace n with (n + 0) by lia. by eapply advanced_trans. Qed.

Lemma advanced_weaken k j n c c' : j <= k -> advanced k n c c' -> advanced j n c c'.
Proof. intros Hj [Hr Ht]. split; [done|]. intros. apply Ht. lia. Qed.

Lemma zlen_text k c start :
  Loose k c -> base c <= start <= cursor_ c -> zlen (text c start) = cursor_ c - start.
Proof. intros [] Hs. unfold text. zl. Qed.

Lemma zlen_unread k c : Loose k c -> zlen (unread c) = base c + zlen (view c) - cursor_ c.
Proof. intros []. unfold unread. zl. Qed.

Lemma rest_nonempty k c : Loose k c -> rest c <> [] -> eof_ c = false.
Proof.
  intros HL Hr. destruct (eof_ c) eqn:E; [|done]. unfold rest in Hr. rewrite E, (loose_eof k c HL E) in Hr. done.
Qed.

Lemma unread_nonempty k c : Loose k c -> 0 < zlen (unread c) -> eof_ c = false.
Proof.
  intros HL Hr. eapply rest_nonempty; [exact HL|]. unfold rest. intros E. apply app_eq_nil in E as [E _].
  rewrite E in Hr. done.
Qed.

(** ** The buffer *)

Lemma RawBuffer_wp k c start Q :
  Loose k c -> base c <= start <= base c + zlen (view c) ->
  Q (zdrop (start - base c) (view c)) c -> wp (RawBuffer start None) c Q.
Proof.
  intros [] Hs HQ. unfold RawBuffer, base, view in *. wp_steps. destruct (using_buf_ c); simpl.
  - destruct (Z.leb_spec (buffer_start_ c) start); [|lia]. apply wp_bind, wp_ret.
    destruct (Z.leb_spec (start - buffer_start_ c) (zlen (buf_ c))); [|lia]. by repeat (apply wp_bind || apply wp_ret).
  - apply wp_bind, wp_ret. destruct (Z.leb_spec start (zlen (last_chunk_ c))); [|lia].
    rewrite Z.sub_0_r in HQ. by repeat (apply wp_bind || apply wp_ret).
Qed.

Lemma Unread_wp k c Q : Loose k c -> Q (unread c) c -> wp Unread c Q.
Proof. intros HL HQ. unfold Unread. wp_steps. eapply RawBuffer_wp; [exact HL| |exact HQ]. destruct HL. lia. Qed.

Lemma PeekChar_wp k c b l Q : Loose k c -> rest c = b :: l -> 0 < zlen (unread c) -> Q b c -> wp PeekChar c Q.
Proof.
  intros HL Hr Hu HQ. unfold PeekChar. apply wp_bind. eapply Unread_wp; [exact HL|].
  unfold rest in Hr. destruct (unread c); [done|]. by injection Hr as -> _.
Qed.

(** What a string shows; its guard is one of those counted. *)
Definition shows c (m : MaybeOwnedString) (l : list byte) : Prop :=
  match m with
  | owned value => value = l
  | stream_owned start len =>
      buffer_start_ c <= start /\ 0 <= len /\ start + len <= cursor_ c /\ ztake len (text c start) = l
  end.
Definition holds (m : MaybeOwnedString) : Z := match m with owned _ => 0 | stream_owned _ _ => 1 end.

Lemma AsView_wp k c m l Q :
  Loose k c -> holds m <= k -> shows c m l -> Q l c -> wp (AsView m) c Q.
Proof.
  intros HL Hk Hs HQ. destruct m as [value|start len]; simpl in *; [subst; by apply wp_ret|].
  destruct Hs as (Hb & Hl & He & <-). pose proof HL as [_ _ Hcur Hst _ _ _ _]. specialize (Hst ltac:(lia)).
  unfold RawBuffer. wp_steps. unfold text, base, view in *. destruct (using_buf_ c); simpl in *.
  - destruct (Z.leb_spec (buffer_start_ c) start); [|lia]. apply wp_bind, wp_ret.
    destruct (Z.leb_spec (start - buffer_start_ c) (zlen (buf_ c))); [|lia]. apply wp_bind, wp_ret.
    destruct (Z.leb_spec (start - buffer_start_ c + len) (zlen (buf_ c))); [|lia]. repeat (apply wp_bind || apply wp_ret).
    rewrite ztake_ztake, Z.min_l in HQ by lia. done.
  - apply wp_bind, wp_ret. destruct (Z.leb_spec start (zlen (last_chunk_ c))); [|lia]. apply wp_bind, wp_ret.
    destruct (Z.leb_spec (start + len) (zlen (last_chunk_ c))); [|lia]. repeat (apply wp_bind || apply wp_ret).
    rewrite ztake_ztake, Z.min_l, Z.sub_0_r in HQ by lia. done.
Qed.

Lemma shows_advanced i k n c c' m l :
  Loose i c -> holds m <= k <= i -> 0 <= n -> advanced k n c c' -> shows c m l -> shows c' m l.
Proof.
  intros HL Hk Hn Ha. destruct m as [value|start len]; simpl in *; [done|].
  destruct (advanced_text _ _ _ _ Ha ltac:(lia)) as (Ec & Eb & Et). intros (? & ? & ? & <-).
  pose proof (loose_start _ _ HL ltac:(lia)). split_and!; [lia|done|lia|].
  rewrite Et, ztake_app by lia. rewrite (zlen_text i) by (done || lia).
  by rewrite (ztake_0 (len - _)), app_nil_r by lia.
Qed.

(** ** Guards *)

(** The same bytes, with another number of guards. *)
Record kept (k k' : Z) c c' : Prop := {
  kept_loose : Loose k' c';
  kept_advanced : advanced k 0 c c';
  kept_near : forall n, near n c -> near n c';
  kept_unread : unread c' = unread c;
  kept_eof : eof_ c' = eof_ c;
  kept_stream : stream_ c' = stream_ c;
}.

Lemma UpRefBuffer_wp k c :
  Loose k c -> 0 < k \/ eof_ c = false ->
  wp UpRefBuffer c (fun _ c' => kept k (k + 1) c c' /\ cursor_ c' = cursor_ c /\ buffer_start_ c' <= cursor_ c).
Proof.
  intros HL He. pose proof HL as [Hok [Hb Hk] Hcur Hst Hbuf Hus Hlast Heof]. unfold UpRefBuffer. wp_steps.
  rewrite Hb. destruct (Z.eqb_spec k 0) as [->|Hne]; wp_steps.
  - assert (using_buf_ c = false) as Eu.
    { destruct (using_buf_ c); [|done]. destruct He as [?|He]; [lia|]. destruct Hus as [?|Hus]; [done|lia|congruence]. }
    split; [|split; [done|simpl; lia]]. unfold base, view, unread in *. rewrite Eu in *.
    split; try done.
    + split; unfold base, view, unread; simpl; rewrite ?Eu; try done; try lia.
      intros E. destruct He as [?|He]; [lia|congruence].
    + split; [|lia]. rewrite zdrop_0 by lia. unfold rest, unread, base, view. simpl. by rewrite Eu.
    + intros n Hn. unfold near. simpl. congruence.
    + unfold unread, base, view. simpl. by rewrite Eu.
  - split; [|split; [done|apply Hst; lia]]. split; try done.
    + split; try done; simpl; try lia. intros _. apply Hst. lia.
    + destruct (advanced_refl k c). by split.
Qed.

Lemma near_weaken n m c : n <= m -> near n c -> near m c.
Proof. unfold near. intros Hn Hc ? ?. specialize (Hc ltac:(done) ltac:(done)). lia. Qed.

Lemma DownRefBuffer_wp k c :
  Inv (k + 1) c -> 0 <= k -> wp DownRefBuffer c (fun _ c' => Inv k c' /\ kept k k c c').
Proof.
  intros [HL Hn] Hk. pose proof HL as [Hok [Hb _] Hcur Hst Hbuf Hus Hlast Heof]. unfold DownRefBuffer. wp_steps.
  rewrite Hb. destruct (Z.ltb_spec 0 (k + 1)); [|lia]. apply wp_bind, wp_ret. wp_steps.
  replace (k + 1 - 1) with k by lia. specialize (Hst ltac:(lia)).
  assert (forall c', c' = set_borrows k c -> (0 < k \/ using_buf_ c = false \/ eof_ c = true) -> Inv k c' /\ kept k k c c') as Hsame.
  { intros c' -> Hcase. assert (Loose k (set_borrows k c)) as HL'.
    { split; try done. simpl. intros E. destruct Hcase as [?|[?|?]]; [by left|congruence|by right]. }
    split; [by split|]. split; try done. destruct (advanced_refl k c). by split. }
  destruct (Z.ltb_spec 0 k) as [Hpos|Hzero]; cbn [orb].
  { apply wp_ret, Hsame; [done|by left]. }
  destruct (using_buf_ c) eqn:Eu; cbn [negb]; cycle 1.
  { apply wp_ret, Hsame; [done|by right; left]. }
  destruct (eof_ c) eqn:Ee; [apply wp_ret, Hsame; [done|by right; right]|].
  destruct (Hlast eq_refl eq_refl) as [Hle Hl]. specialize (Hn Eu Ee). unfold base, view in Hcur. rewrite Eu in Hcur.
  pose proof (zlen_nonneg (last_chunk_ c)).
  set (last := zlen (buf_ c) + buffer_start_ c - zlen (last_chunk_ c)).
  destruct (Z.leb_spec 0 last); [|unfold last in *; lia].
  destruct (Z.leb_spec last (zlen (buf_ c) + buffer_start_ c)); [|unfold last in *; lia].
  apply wp_bind, wp_ret. wp_steps.
  assert ((if cursor_ c <=? last then 0 else cursor_ c - last) = cursor_ c - last) as ->
    by (destruct (Z.leb_spec (cursor_ c) last); unfold last in *; lia).
  set (c' := set_buf _ _ _).
  assert (unread c' = unread c) as Eur.
  { unfold unread, base, view, c'. simpl. rewrite Eu, <- Hl, zdrop_zdrop by (unfold last; lia). f_equal. unfold last. lia. }
  assert (Loose k c') as HL'.
  { split; try done; unfold base, view; simpl; try done; try (unfold last in *; lia).
    intros E. rewrite Eur. congruence. }
  assert (rest c' = rest c) as Er by (unfold rest; rewrite Eur; done).
  split; [by split|]. split; try done. split; [by rewrite Er, zdrop_0|lia].
Qed.

(** Not the last one. *)
Lemma DownRefBuffer_pos k c :
  Loose (k + 1) c -> 0 < k -> wp DownRefBuffer c (fun _ c' => kept k k c c' /\ cursor_ c' = cursor_ c /\ buffer_start_ c' = buffer_start_ c).
Proof.
  intros HL Hk. pose proof HL as [Hok [Hb _] Hcur Hst Hbuf Hus Hlast Heof]. unfold DownRefBuffer. wp_steps.
  rewrite Hb. destruct (Z.ltb_spec 0 (k + 1)); [|lia]. apply wp_bind, wp_ret. wp_steps.
  replace (k + 1 - 1) with k by lia. destruct (Z.ltb_spec 0 k); [|lia]. apply wp_ret.
  split; [|done]. split; try done; [|destruct (advanced_refl k c); by split].
  split; try done; simpl; [lia|intros _; apply Hst; lia|by left].
Qed.

Lemma DownRefBuffer_broken k c :
  broken (k + 1) c -> 0 <= k -> wp DownRefBuffer c (fun _ c' => broken k c' /\ eof_ c' = eof_ c).
Proof.
  intros (Hb & _ & Hl & Hs) Hk. unfold DownRefBuffer. wp_steps. rewrite Hb.
  destruct (Z.ltb_spec 0 (k + 1)); [|lia]. apply wp_bind, wp_ret. wp_steps. replace (k + 1 - 1) with k by lia.
  assert (broken k (set_borrows k c)) as Hbr by (split_and!; done).
  destruct (_ || _) eqn:Eor; [by apply wp_ret|]. apply orb_false_iff in Eor as [_ Eu].
  apply negb_false_iff in Eu. destruct (eof_ c) eqn:Ee; [by apply wp_ret|].
  specialize (Hl Eu eq_refl). pose proof (zlen_nonneg (last_chunk_ c)).
  destruct (Z.leb_spec 0 (zlen (buf_ c) + buffer_start_ c - zlen (last_chunk_ c))); [|lia].
  destruct (Z.leb_spec (zlen (buf_ c) + buffer_start_ c - zlen (last_chunk_ c)) (zlen (buf_ c) + buffer_start_ c)); [|lia].
  apply wp_bind, wp_ret. wp_steps. by unfold broken.
Qed.

Lemma Loose_broken k c : Loose k c -> broken k c.
Proof.
  intros [_ [] Hcur _ _ _ Hlast _]. unfold broken. split_and!; [done|done| |].
  - intros Eu Ee. destruct (Hlast Eu Ee). unfold base in Hcur. rewrite Eu in Hcur. lia.
  - intros Eu. unfold base in Hcur. rewrite Eu in Hcur. lia.
Qed.

Lemma broken_eof k c : Loose k c -> broken k (set_eof c).
Proof. intros HL. destruct (Loose_broken k c HL) as (? & ? & ? & ?). by unfold broken. Qed.

(** ** Reading *)

(** With the buffer in place, if it is needed. *)
Definition buffering c : C :=
  if (0 <? outstanding_buffer_borrows_ c) && negb (using_buf_ c)
  then set_buf (zdrop (buffer_start_ c) (last_chunk_ c)) true c else c.

Record buffering_facts (k : Z) c c' : Prop := {
  buffering_same : stream_ c' = stream_ c /\ cursor_ c' = cursor_ c /\ eof_ c' = eof_ c /\
    outstanding_buffer_borrows_ c' = k /\ last_chunk_ c' = last_chunk_ c /\ buffer_start_ c' = buffer_start_ c;
  buffering_using : using_buf_ c' = true ->
    0 < k /\ 0 <= buffer_start_ c <= cursor_ c /\ cursor_ c <= buffer_start_ c + zlen (buf_ c') /\
    zdrop (cursor_ c - buffer_start_ c) (buf_ c') = unread c /\
    forall start, buffer_start_ c <= start <= cursor_ c ->
      ztake (cursor_ c - start) (zdrop (start - buffer_start_ c) (buf_ c')) = text c start;
  buffering_not : using_buf_ c' = false -> k = 0 /\ c' = c;
}.

Lemma buffering_wp k c Q :
  Loose k c -> eof_ c = false -> (forall c', buffering_facts k c c' -> Q tt c') ->
  wp (if (0 <? outstanding_buffer_borrows_ c) && negb (using_buf_ c) then
        let* bytes := RawBuffer (buffer_start_ c) None in
        modS (fun c => set_buf (buf_ c ++ bytes) true c)
      else ret tt) c Q.
Proof.
  intros HL Ee HQ. pose proof HL as [Hok [Hb Hk] Hcur Hst Hbuf Hus Hlast Heof].
  destruct (_ && _) eqn:Eand; cycle 1.
  { apply wp_ret, HQ. split; [done| |].
    - intros Eu. unfold unread, text, base, view in *. rewrite Eu in *. destruct Hus as [?|?]; [done| |congruence]. by split_and!; try lia.
    - intros Eu. split; [|done]. rewrite Hb, Eu, andb_true_r in Eand. apply Z.ltb_ge in Eand. lia. }
  apply andb_true_iff in Eand as [Hpos%Z.ltb_lt Eu%negb_true_iff]. rewrite Hb in Hpos. specialize (Hst Hpos).
  specialize (Hbuf Eu). unfold base, view in Hcur, Hst. rewrite Eu in Hcur, Hst.
  apply wp_bind. eapply RawBuffer_wp; [exact HL|unfold base, view; rewrite Eu; lia|].
  apply wp_modS, HQ. rewrite Hbuf. unfold base, view. rewrite Eu, Z.sub_0_r. cbn [app].
  split; [done| |done]. intros _. simpl. unfold unread, text, base, view. rewrite Eu. split_and!; [done|lia|lia|zl| |].
  - rewrite zdrop_zdrop by lia. f_equal. lia.
  - intros start Hs. rewrite zdrop_zdrop by lia. f_equal. f_equal. lia.
Qed.

(** A chunk comes behind what is unread, or the stream has ended. *)
Definition chunk_read (k : Z) c (r : bool) c' : Prop :=
  if r then Loose k c' /\ advanced k 0 c c' /\ near (zlen (unread c)) c' /\ eof_ c' = false /\
            (bound (stream_ c') < bound (stream_ c))%nat
  else rest c = unread c /\ eof_ c' = true /\ broken k c' /\ (unread c = [] -> Inv k c' /\ advanced k 0 c c').

Lemma ReadChunk_wp k c :
  Loose k c -> unread c = [] \/ 0 < k -> wp ReadChunk c (chunk_read k c).
Proof.
  intros HL Hu. pose proof HL as [Hok [Hb Hk] Hcur Hst Hbuf Hus Hlast Heof]. unfold ReadChunk. wp_steps.
  destruct (eof_ c) eqn:Ee.
  { apply wp_ret. unfold chunk_read. split; [unfold rest; by rewrite Ee, app_nil_r|].
    split; [done|]. split; [by apply Loose_broken|]. intros _. split; [|apply advanced_refl]. split; [done|]. unfold near. congruence. }
  apply wp_bind. eapply buffering_wp; [exact HL|done|].
  intros c1 [(Es & Ec & Ee1 & Eb & El & Ebs) Hbu Hbn].
  destruct (wp_inv _ _ _ (next_ok (stream_ c) Hok)) as (r & z' & E & Hok' & Hr).
  apply wp_bind. eapply wp_lift; [exact E|]. cbv beta iota. wp_steps.
  destruct r as [data|]; cycle 1.
  { destruct Hr as (Ec1 & Ec2 & _). wp_steps. unfold chunk_read.
    split; [unfold rest; by rewrite Ee, Ec1, app_nil_r|]. split; [done|].
    split.
    { unfold broken. simpl. split_and!; [done|done|done|]. intros Eu. destruct (Hbu Eu) as (_ & ? & _). lia. }
    intros En. assert (unread (set_eof (set_stream z' c1)) = []) as Eun.
    { unfold unread, base, view. simpl. destruct (using_buf_ c1) eqn:Eu.
      - destruct (Hbu eq_refl) as (_ & _ & _ & Hd & _). rewrite Ec, Ebs, Hd. done.
      - destruct (Hbn eq_refl) as [_ ->]. unfold unread, base, view in En. by rewrite Eu in En. }
    split.
    - split; [|unfold near; simpl; congruence].
      split; simpl; try done; try congruence; unfold base, view; simpl.
      + destruct (using_buf_ c1) eqn:Eu.
        * destruct (Hbu eq_refl) as (_ & ? & ? & _). lia.
        * destruct (Hbn eq_refl) as [_ ->]. unfold base, view in Hcur. by rewrite Eu in Hcur.
      + intros Hpos. destruct (using_buf_ c1) eqn:Eu; [destruct (Hbu eq_refl) as (_ & ? & ? & _)|destruct (Hbn eq_refl)]; lia.
      + intros Eu. destruct (Hbn Eu) as [_ ->]. by apply Hbuf.
      + intros _. by right.
    - split.
      + rewrite zdrop_0 by lia. unfold rest. rewrite Eun, En, Ee, Ec1. done.
      + intros Hpos. simpl. split; [lia|]. split; [done|]. intros start Hs. rewrite ztake_0, app_nil_r by lia.
        destruct (using_buf_ c1) eqn:Eu; [|destruct (Hbn eq_refl); lia].
        destruct (Hbu eq_refl) as (_ & _ & _ & _ & Ht). unfold text at 1, base, view. simpl. rewrite Eu, Ec, Ebs. by apply Ht. }
  destruct Hr as (Ecd & _ & _ & Hbd). pose proof (zlen_nonneg data).
  assert (rest c = unread c ++ data ++ content z') as Er by (unfold rest; by rewrite Ee, Ecd).
  wp_steps. destruct (using_buf_ (set_last_chunk data (set_stream z' c1))) eqn:Eu.
  - wp_steps. simpl in Eu. destruct (Hbu Eu) as (Hpos0 & Hs1 & Hs2 & Hd & Ht). unfold chunk_read.
    set (c2 := set_buf (buf_ c1 ++ data) true (set_last_chunk data (set_stream z' c1))).
    change (chunk_read k c true c2). unfold chunk_read.
    assert (unread c2 = unread c ++ data) as Eun.
    { unfold unread at 1, base, view, c2. simpl. rewrite Ec, Ebs, zdrop_app, Hd, (zdrop_0 _ data) by lia. done. }
    assert (zlen (unread c) = buffer_start_ c + zlen (buf_ c1) - cursor_ c) as Elu by (rewrite <- Hd; zl).
    split_and!; [| |intros _ _; simpl; rewrite zlen_app, Ec, Ebs; lia|simpl; congruence|done].
    + split; simpl; try done; unfold base, view; simpl; rewrite ?zlen_app; try congruence; try lia.
      intros _ _. split; [lia|]. rewrite zdrop_app, zdrop_all by lia.
        by replace (zlen (buf_ c1) + zlen data - zlen data - zlen (buf_ c1)) with 0 by lia; rewrite zdrop_0.
    + split.
      * rewrite zdrop_0 by lia. unfold rest at 1. rewrite Eun, Er, <- app_assoc. simpl. by rewrite Ee1, Ee.
      * intros Hpos. simpl. split; [lia|]. split; [done|]. intros start Hs. rewrite ztake_0, app_nil_r by lia.
        rewrite <- Ht by done. unfold text, base, view, c2. simpl. rewrite Ec, Ebs, zdrop_app, ztake_app.
        rewrite (ztake_0 _ (zdrop _ data)), app_nil_r; [done|]. rewrite zlen_zdrop. lia.
  - wp_steps. simpl in Eu. destruct (Hbn Eu) as [-> ->]. destruct Hu as [Hu|?]; [|lia].
    set (c2 := set_buffer_start 0 (set_cursor 0 (set_last_chunk data (set_stream z' c)))).
    change (chunk_read 0 c true c2). unfold chunk_read.
    assert (unread c2 = data) as Eun by (unfold unread, base, view, c2; simpl; rewrite Eu; apply zdrop_0; lia).
    split_and!; [| |intros E2 _; unfold c2 in E2; simpl in E2; congruence|done|done].
    + split; simpl; try done; unfold base, view; simpl; rewrite ?Eu; try done; try lia. rewrite Ee. done.
    + split; [|lia]. rewrite zdrop_0 by lia. unfold rest at 1. rewrite Eun, Er, Hu. simpl. by rewrite Ee.
Qed.

(** [bytes] bytes are in the buffer, with one more guard, or there are not as many;
    not even one is not an error for those who only look. *)
Definition buffered (k bytes : Z) c (ok : bool) c' : Prop :=
  if ok then Loose (k + 1) c' /\ near (Z.max 0 (bytes - 1)) c' /\ bytes <= zlen (unread c') /\ advanced k 0 c c' /\
             eof_ c' = false /\ buffer_start_ c' <= cursor_ c'
  else zlen (rest c) < bytes /\ eof_ c' = true /\ broken k c' /\ (bytes = 1 -> Inv k c' /\ advanced k 0 c c').

Lemma buffered_advanced k bytes c c1 ok c' :
  advanced k 0 c c1 -> buffered k bytes c1 ok c' -> buffered k bytes c ok c'.
Proof.
  intros Ha. pose proof (advanced_rest _ _ _ _ Ha) as Er. rewrite zdrop_0 in Er by lia. unfold buffered. destruct ok.
  - intros (? & ? & ? & ? & ? & ?). split_and!; try done. by eapply advanced_same.
  - rewrite Er. intros (? & ? & ? & Hb). split_and!; try done. intros E. destruct (Hb E).
    split; [done|by eapply advanced_same].
Qed.

(** The guard of the loop. *)
Definition held_z (held : bool) : Z := if held then 1 else 0.

Lemma BufferAtLeast_loop_wp n held k bytes c :
  Loose (k + held_z held) c -> 0 <= k -> near (Z.max 0 (bytes - 1)) c -> (bound (stream_ c) < n)%nat ->
  (held = true \/ bytes <= 0 -> eof_ c = false) -> (bytes = 1 -> near 0 c) ->
  wp (BufferAtLeast_loop n held bytes) c (buffered k bytes c).
Proof.
  revert held c. induction n as [|n IH]; intros held c HL Hk Hn Hf Hh H1; [lia|]. cbn [BufferAtLeast_loop].
  apply wp_bind. eapply Unread_wp; [exact HL|]. pose proof (zlen_nonneg (unread c)) as Hu0.
  destruct (Z.ltb_spec (zlen (unread c)) bytes) as [Hlt|Hge].
  - (* a guard is there if something is unread *)
    apply wp_bind.
    assert (wp (if negb (zlen (unread c) =? 0) then assign_guard held else ret tt) c (fun _ c1 =>
      let held1 := held || negb (zlen (unread c) =? 0) in
      Loose (k + held_z held1) c1 /\ advanced k 0 c c1 /\ unread c1 = unread c /\ stream_ c1 = stream_ c /\
      (zlen (unread c) = 0 -> c1 = c))) as Hg.
    { destruct (Z.eqb_spec (zlen (unread c)) 0) as [E0|E0]; cbn [negb].
      - apply wp_ret. rewrite orb_false_r. split_and!; try done; try apply advanced_refl.
      - unfold assign_guard. destruct held; [apply wp_ret; split_and!; try done; try apply advanced_refl|].
        simpl in HL. rewrite Z.add_0_r in HL.
        wp_use UpRefBuffer_wp; [exact HL|right; eapply unread_nonempty; [exact HL|lia]|].
        intros [] c1 [[HL1 Ha1 _ Eu1 _ Es1] _]. by split_and!. }
    eapply wp_mono; [exact Hg|]. intros [] c1 (HL1 & Ha1 & Eu1 & Es1 & Hsame).
    set (held1 := held || negb (zlen (unread c) =? 0)) in *.
    apply wp_bind. wp_use ReadChunk_wp; [exact HL1| |].
    { destruct (Z.eqb_spec (zlen (unread c)) 0) as [E0|E0]; [left; rewrite Eu1; apply zlen_0; lia|].
      right. unfold held1. rewrite orb_true_r. simpl. lia. }
    intros more c2 Hc. unfold chunk_read in Hc. destruct more; cbn [negb].
    + destruct Hc as (HL2 & Ha2 & Hn2 & Ee2 & Hb2). rewrite Eu1 in Hn2. rewrite Es1 in Hb2. apply wp_bind.
      assert (wp (assign_guard held1) c2 (fun _ c3 => Loose (k + 1) c3 /\ advanced k 0 c2 c3 /\
        near (zlen (unread c)) c3 /\ eof_ c3 = false /\ stream_ c3 = stream_ c2)) as Hg2.
      { unfold assign_guard. destruct held1; [apply wp_ret; split_and!; try done; try apply advanced_refl|].
        simpl in HL2. rewrite Z.add_0_r in HL2.
        wp_use UpRefBuffer_wp; [exact HL2|by right|]. intros [] c3 [[HL3 Ha3 Hn3 _ Ee3 Es3] _].
        split_and!; try done; [by apply Hn3|congruence]. }
      eapply wp_mono; [exact Hg2|]. intros [] c3 (HL3 & Ha3 & Hn3 & Ee3 & Es3).
      wp_use (IH true c3); [exact HL3|done|eapply near_weaken; [|exact Hn3]; lia|rewrite Es3; lia|done| |].
      { intros ->. assert (zlen (unread c) = 0) as E0 by lia. by rewrite E0 in Hn3. }
      intros ok c4 Hr. eapply buffered_advanced; [|exact Hr].
      eapply advanced_same; [done|exact Ha1|]. eapply advanced_same; [done| |exact Ha3].
      eapply advanced_weaken; [|exact Ha2]. destruct held1; simpl; lia.
    + destruct Hc as (Er2 & Eeof & Hbr & Hemp). apply wp_bind.
      pose proof (advanced_rest _ _ _ _ Ha1) as Er. rewrite zdrop_0 in Er by lia.
      assert (zlen (rest c) < bytes) as Hshort by (rewrite <- Er, Er2, Eu1; lia).
      unfold release_guard. destruct held1 eqn:Eh.
      * destruct (Z.eq_dec bytes 1) as [->|Hb1].
        -- assert (zlen (unread c) = 0) as E0 by lia. specialize (Hemp ltac:(rewrite Eu1; apply zlen_0; lia)).
           destruct Hemp as [HI2 Ha2]. wp_use DownRefBuffer_wp; [exact HI2|done|].
           intros [] c3 [HI3 Hkept]. apply wp_ret. split; [done|].
           split; [by rewrite (kept_eof _ _ _ _ Hkept)|]. split; [apply Loose_broken, HI3|].
           intros _. split; [done|]. eapply advanced_same; [done|exact Ha1|].
           eapply advanced_same; [done| |apply Hkept]. eapply advanced_weaken; [|exact Ha2]. simpl. lia.
        -- wp_use DownRefBuffer_broken; [exact Hbr|done|]. intros [] c3 [Hbr3 Ee3]. apply wp_ret. split_and!; [done|congruence|done..].
      * apply wp_ret, wp_ret. simpl in *. rewrite Z.add_0_r in *. split; [done|]. split; [done|]. split; [done|].
        intros E. destruct Hemp as [HI2 Ha2]; [rewrite Eu1; apply zlen_0; lia|]. split; [done|by eapply advanced_same].
  - assert (eof_ c = false) as Ee.
    { destruct (Z.leb_spec bytes 0); [apply Hh; by right|]. eapply unread_nonempty; [exact HL|lia]. }
    apply wp_bind. wp_use UpRefBuffer_wp; [exact HL|by right|].
    intros [] c1 [[HL1 Ha1 Hn1 Eu1 Ee1 _] [Ec1 Hb1]]. apply wp_bind. unfold release_guard. destruct held; simpl in *.
    + wp_use DownRefBuffer_pos; [exact HL1|lia|]. intros [] c2 [[HL2 Ha2 Hn2 Eu2 Ee2 _] [Ec2 Hb2]]. apply wp_ret.
      split_and!; [done|by apply Hn2, Hn1|rewrite Eu2, Eu1; lia| |congruence|lia].
      eapply advanced_same; [done|eapply advanced_weaken; [|exact Ha1]; lia|eapply advanced_weaken; [|exact Ha2]; lia].
    + rewrite Z.add_0_r in *. apply wp_ret, wp_ret.
      split_and!; [done|by apply Hn1|rewrite Eu1; lia|done|congruence|lia].
Qed.

Lemma BufferAtLeast_wp k bytes c :
  Inv k c -> 0 < bytes \/ eof_ c = false -> wp (BufferAtLeast bytes) c (buffered k bytes c).
Proof.
  intros [HL Hn] He. unfold BufferAtLeast. apply wp_bind, wp_getS.
  apply BufferAtLeast_loop_wp; simpl; rewrite ?Z.add_0_r; try done.
  - apply HL.
  - eapply near_weaken; [|exact Hn]. lia.
  - unfold chunks_left. lia.
  - intros [?|?]; [done|]. by destruct He; [lia|].
Qed.

(** [BufferAtLeast(1)] for its effect. *)
Definition looked (k : Z) c (ok : bool) c' : Prop :=
  Inv k c' /\ advanced k 0 c c' /\
  if ok then rest c <> [] /\ 0 < zlen (unread c') /\ eof_ c' = false else rest c = [] /\ eof_ c' = true.

Lemma Buffered_wp k c : Inv k c -> wp (Buffered 1) c (looked k c).
Proof.
  intros HI. pose proof (proj2 (loose_borrows _ _ (inv_loose _ _ HI))) as Hk. unfold Buffered. apply wp_bind.
  wp_use (BufferAtLeast_wp k 1); [done|lia|]. intros ok c1 Hb. unfold buffered in Hb. destruct ok; simpl.
  - destruct Hb as (HL1 & Hn1 & Hu1 & Ha1 & Ee1 & _). apply wp_bind. unfold release_guard.
    wp_use (DownRefBuffer_wp k); [by split|done|]. intros [] c2 [HI2 [HL2 Ha2 _ Eu2 Ee2 _]]. apply wp_ret.
    split; [done|]. split; [by eapply advanced_same|]. rewrite Eu2, Ee2. split; [|split; [lia|done]].
    intros Er. pose proof (advanced_rest _ _ _ _ Ha1) as Er1. rewrite zdrop_0, Er in Er1 by lia.
    unfold rest in Er1. apply app_eq_nil in Er1 as [Eu _]. rewrite Eu in Hu1. done.
  - destruct Hb as (Hs & Ee & _ & Hb). apply wp_bind, wp_ret, wp_ret. destruct (Hb eq_refl). split; [done|].
    split; [done|]. split; [|done]. apply zlen_0. lia.
Qed.

Lemma AtEof_wp k c : Inv k c -> wp AtEof c (fun r c' => Inv k c' /\ advanced k 0 c c' /\ r = (zlen (rest c) =? 0)).
Proof.
  intros HI. unfold AtEof. apply wp_bind. wp_use Buffered_wp; [done|]. intros ok c1 (HI1 & Ha1 & Hr).
  apply wp_gets. split; [done|]. split; [done|].
  destruct ok.
  - destruct Hr as (Hr & _ & ->). destruct (rest c); [done|]. rewrite zlen_cons. pose proof (zlen_nonneg l).
    symmetry. apply Z.eqb_neq. lia.
  - by destruct Hr as [-> ->].
Qed.

(** Bytes that are in the buffer. *)
Lemma stream_Advance_wp k bytes c :
  Loose k c -> near bytes c -> 0 <= bytes <= zlen (unread c) ->
  wp (Advance bytes) c (fun ok c' => ok = true /\ Inv k c' /\ advanced k bytes c c' /\ eof_ c' = eof_ c /\
    cursor_ c' = cursor_ c + bytes /\ unread c' = zdrop bytes (unread c) /\ buffer_start_ c' = buffer_start_ c).
Proof.
  intros HL Hn Hb. pose proof HL as [Hok [Hbo Hk] Hcur Hst Hbuf Hus Hlast Heof].
  pose proof (zlen_unread k c HL) as Eu.
  set (c' := set_cursor (cursor_ c + bytes) c).
  assert (unread c' = zdrop bytes (unread c)) as Eur.
  { unfold unread, base, view, c'. simpl. rewrite zdrop_zdrop by (unfold base in *; lia). f_equal. lia. }
  assert (Loose k c') as HL'.
  { split; try done; unfold base, view in *; simpl; try lia. intros E. rewrite Eur, (Heof E). unfold zdrop. by rewrite drop_nil. }
  assert (advanced k bytes c c') as Ha.
  { split.
    - unfold rest at 1. rewrite Eur. unfold rest. rewrite zdrop_app, (zdrop_0 (_ - _)) by lia. done.
    - intros Hpos. split; [done|]. split; [done|]. intros start Hs. specialize (Hst Hpos).
      unfold text. change (view c') with (view c). change (base c') with (base c). simpl.
      replace (cursor_ c + bytes - start) with ((cursor_ c - start) + bytes) by lia.
      rewrite ztake_add by lia. f_equal. unfold rest. rewrite ztake_app, (ztake_0 (_ - _)), app_nil_r by lia.
      unfold unread. rewrite zdrop_zdrop by lia. f_equal. f_equal. lia. }
  assert (wp (Advance_loop (chunks_left c) bytes) c (fun ok c1 => ok = true /\ c1 = c')) as Hloop.
  { unfold chunks_left. destruct (2 * bound (stream_ c) + 3)%nat as [|[|n]] eqn:Ef; [lia|lia|]. cbn [Advance_loop].
    destruct (Z.eqb_spec bytes 0) as [->|Hne].
    { apply wp_ret. split; [done|]. unfold c'. rewrite Z.add_0_r. by destruct c. }
    apply wp_bind. eapply Unread_wp; [exact HL|]. destruct (Z.eqb_spec (zlen (unread c)) 0); [lia|].
    apply wp_bind, wp_ret. cbn [negb]. apply wp_bind. eapply Unread_wp; [exact HL|]. rewrite Z.min_l by lia.
    apply wp_bind, wp_modS. replace (bytes - bytes) with 0 by lia. rewrite Z.eqb_refl. by apply wp_ret. }
  unfold Advance. apply wp_bind, wp_getS. apply wp_bind. eapply wp_mono; [exact Hloop|]. intros ok c1 [-> ->]. cbn [negb].
  apply wp_bind, wp_getS. apply wp_bind.
  assert ((if using_buf_ c' then cursor_ c' <=? buffer_start_ c' + zlen (buf_ c') else cursor_ c' <=? zlen (last_chunk_ c')) = true) as ->.
  { unfold base, view in *. unfold c'. simpl. destruct (using_buf_ c); apply Z.leb_le; lia. }
  apply wp_ret, wp_ret. split_and!; try done. split; [done|]. intros E1 E2. specialize (Hn E1 E2). simpl. unfold c'. simpl. lia.
Qed.

(** ** Strings *)

Lemma advanced_up k n c c' : 0 <= k -> advanced (k + 1) n c c' -> advanced k n c c'.
Proof. intros. eapply advanced_weaken; [|done]. lia. Qed.

(** [len] bytes, as a string. *)
Definition took (k len : Z) c (r : option MaybeOwnedString) c' : Prop :=
  match r with
  | Some m => Inv (k + holds m) c' /\ holds m <= 1 /\ advanced k len c c' /\ shows c' m (ztake len (rest c)) /\
              len <= zlen (rest c) /\ eof_ c' = false
  | None => zlen (rest c) < len /\ broken k c'
  end.

Lemma buffered_Take_wp k len c :
  Inv k c -> 0 <= len -> 0 < len \/ eof_ c = false -> wp (Take len) c (took k len c).
Proof.
  intros HI Hl He. pose proof (proj2 (loose_borrows _ _ (inv_loose _ _ HI))) as Hk. unfold Take. apply wp_bind.
  wp_use BufferAtLeast_wp; [exact HI|done|]. intros ok c1 Hb. unfold buffered in Hb. destruct ok; cbn [negb]; cycle 1.
  { apply wp_ret. by destruct Hb as (? & _ & ? & _). }
  destruct Hb as (HL1 & Hn1 & Hu1 & Ha1 & Ee1 & Hs1).
  apply wp_bind, wp_gets. apply wp_bind. wp_use (stream_Advance_wp (k + 1)); [exact HL1| |lia|].
  { eapply near_weaken; [|exact Hn1]. lia. }
  intros ok c2 (-> & HI2 & Ha2 & Ee2 & Ec2 & _ & Eb2). cbn [negb]. apply wp_ret. unfold took. simpl.
  pose proof (advanced_rest _ _ _ _ Ha1) as Er1. rewrite zdrop_0 in Er1 by lia.
  destruct (advanced_text _ _ _ _ Ha2 ltac:(lia)) as (_ & _ & Et).
  split_and!; [done|done| |lia|lia|lia| | |congruence].
  - eapply advanced_same; [done|exact Ha1|]. by apply advanced_up.
  - rewrite Et by lia. assert (text c1 (cursor_ c1) = []) as ->.
    { apply zlen_0. rewrite (zlen_text (k + 1)); [lia|done|]. pose proof (loose_start _ _ HL1). pose proof (loose_cursor _ _ HL1). lia. }
    cbn [app]. rewrite Er1, ztake_ztake. f_equal. lia.
  - rewrite <- Er1. unfold rest. rewrite zlen_app. pose proof (zlen_nonneg (if eof_ c1 then [] else content (stream_ c1))). lia.
Qed.

(** What a predicate takes off the front. *)
Section take_while.
Context {X : Type} (p : X -> Z -> byte -> bool * X).

Fixpoint taken_while (x : X) (i : Z) (l : list byte) : list byte :=
  match l with
  | [] => []
  | b :: l => let (more, x) := p x i b in if more then b :: taken_while x (i + 1) l else []
  end.

Lemma taken_while_prefix x i l : exists k, l = taken_while x i l ++ k.
Proof.
  revert x i. induction l as [|b l IH]; intros x i; [by exists []|]. cbn [taken_while].
  destruct (p x i b) as [[] x']; [|by eexists]. destruct (IH x' (i + 1)) as [k E]. exists k. by rewrite <- app_comm_cons, <- E.
Qed.

Lemma TakeWhile_loop_wp n k start x c :
  Inv k c -> 0 < k -> start <= cursor_ c -> zlen (rest c) < Z.of_nat n ->
  let l := taken_while x (cursor_ c - start) (rest c) in
  wp (TakeWhile_loop p n start x) c (fun r c' => r = Some tt /\ Inv k c' /\ advanced k (zlen l) c c').
Proof.
  revert x c. induction n as [|n IH]; intros x c HI Hk Hs Hn; [pose proof (zlen_nonneg (rest c)); lia|].
  cbn [TakeWhile_loop]. cbv zeta. apply wp_bind. wp_use Buffered_wp; [done|]. intros ok c1 (HI1 & Ha1 & Hok).
  destruct ok; cbn [negb]; cycle 1.
  { destruct Hok as [-> _]. by apply wp_ret. }
  destruct Hok as (Hne & Hu1 & Ee1). pose proof (advanced_rest _ _ _ _ Ha1) as Er1. rewrite zdrop_0 in Er1 by lia.
  destruct (advanced_text _ _ _ _ Ha1 Hk) as (Ec1 & _).
  destruct (rest c) as [|b l] eqn:Er; [done|]. apply wp_bind, wp_gets. apply wp_bind.
  eapply PeekChar_wp; [apply HI1|exact Er1|done|]. cbn [taken_while].
  replace (cursor_ c1 - start) with (cursor_ c - start) by lia. destruct (p x (cursor_ c - start) b) as [more x'].
  destruct more; cbn [negb]; cycle 1.
  { by apply wp_ret. }
  apply wp_bind. wp_use stream_Advance_wp; [apply HI1|eapply near_weaken; [|apply HI1]; lia|lia|].
  intros ok c2 (-> & HI2 & Ha2 & _ & Ec2 & _). cbn [negb].
  assert (rest c2 = l) as Er2 by (rewrite (advanced_rest _ _ _ _ Ha2), Er1, zdrop_cons by lia; by apply zdrop_0).
  rewrite zlen_cons in Hn.
  wp_use (IH x' c2); [done|done|lia|rewrite Er2; lia|]. intros r c3 (-> & HI3 & Ha3). split; [done|]. split; [done|].
  rewrite Er2 in Ha3. replace (cursor_ c2 - start) with (cursor_ c - start + 1) in Ha3 by lia. rewrite zlen_cons.
  eapply advanced_trans; [done|apply zlen_nonneg| |exact Ha3]. by eapply advanced_same.
Qed.

Lemma stream_TakeWhile_wp k x c :
  Inv k c -> eof_ c = false ->
  let l := taken_while x 0 (rest c) in
  wp (TakeWhile p x) c (fun r c' => exists m, r = Some m /\ holds m = 1 /\ Inv (k + 1) c' /\
    advanced k (zlen l) c c' /\ shows c' m l).
Proof.
  intros HI He. pose proof HI as [HL Hn]. pose proof (proj2 (loose_borrows _ _ HL)) as Hk. cbv zeta.
  unfold TakeWhile. apply wp_bind, wp_gets. apply wp_bind. wp_use UpRefBuffer_wp; [exact HL|by right|].
  intros [] c1 [[HL1 Ha1 Hn1 Eu1 Ee1 Es1] [Ec1 Hb1]]. apply wp_bind, wp_getS. apply wp_bind.
  eapply Unread_wp; [exact HL1|]. apply wp_bind. pose proof (advanced_rest _ _ _ _ Ha1) as Er1. rewrite zdrop_0 in Er1 by lia.
  wp_use TakeWhile_loop_wp; [split; [exact HL1|by apply Hn1]|lia|lia| |].
  { unfold rest, zlen. rewrite length_app. destruct (eof_ c1); simpl; lia. }
  intros r c2 (-> & HI2 & Ha2). rewrite Ec1, Z.sub_diag, Er1 in Ha2. apply wp_bind, wp_gets, wp_ret.
  destruct (advanced_text _ _ _ _ Ha2 ltac:(lia)) as (Ec2 & Eb2 & Et2).
  set (l := taken_while x 0 (rest c)) in *. pose proof (zlen_nonneg l).
  eexists. split; [done|]. split; [done|]. split; [done|].
  split; [eapply advanced_same; [lia|exact Ha1|by apply advanced_up]|]. simpl. split_and!; [lia|lia|lia|].
  rewrite Et2 by lia. assert (text c1 (cursor_ c) = []) as ->.
  { apply zlen_0. rewrite (zlen_text (k + 1)); [lia|done|]. pose proof (loose_start _ _ HL1). pose proof (loose_cursor _ _ HL1). lia. }
  cbn [app]. rewrite Er1. destruct (taken_while_prefix x 0 (rest c)) as [j Ej]. fold l in Ej. rewrite Ej, ztake_app_exact by done.
  apply ztake_all. lia.
Qed.
End take_while.

Lemma BeginMark_wp k c :
  Inv k c -> eof_ c = false ->
  wp BeginMark c (fun mark c' => Inv (k + 1) c' /\ advanced k 0 c c' /\ eof_ c' = false /\
    buffer_start_ c' <= mark <= cursor_ c' /\ text c' mark = []).
Proof.
  intros [HL Hn] He. pose proof (proj2 (loose_borrows _ _ HL)) as Hk.
  unfold BeginMark. apply wp_bind, wp_gets. apply wp_bind. wp_use UpRefBuffer_wp; [exact HL|by right|].
  intros [] c1 [[HL1 Ha1 Hn1 Eu1 Ee1 Es1] [Ec1 Hb1]]. apply wp_ret.
  split; [split; [done|by apply Hn1]|]. split; [done|]. split; [congruence|]. split; [lia|].
  apply zlen_0. rewrite (zlen_text (k + 1)); [lia|done|]. pose proof (loose_start _ _ HL1). pose proof (loose_cursor _ _ HL1). lia.
Qed.

(** A mark is one of the guards. *)
Lemma UpToUnread_wp k c mark clip l k' :
  Inv k c -> 0 < k -> 0 <= clip -> buffer_start_ c <= mark <= cursor_ c -> text c mark = l ++ k' -> zlen k' = clip ->
  wp (UpToUnread mark clip) c (fun m c' => holds m = 1 /\ Inv (k + 1) c' /\ advanced k 0 c c' /\ eof_ c' = eof_ c /\ shows c' m l).
Proof.
  intros [HL Hn] Hk Hc Hm Et El. unfold UpToUnread. apply wp_bind, wp_gets. apply wp_bind.
  wp_use UpRefBuffer_wp; [exact HL|by left|]. intros [] c1 [[HL1 Ha1 Hn1 Eu1 Ee1 Es1] [Ec1 Hb1]]. apply wp_ret.
  split; [done|]. split; [split; [done|by apply Hn1]|]. split; [done|]. split; [done|].
  destruct (advanced_text _ _ _ _ Ha1 Hk) as (_ & Eb & Ht1).
  assert (zlen (text c mark) = cursor_ c - mark) as Ez.
  { apply (zlen_text k); [done|]. pose proof (loose_start _ _ HL Hk). lia. }
  rewrite Et, zlen_app in Ez. pose proof (zlen_nonneg l).
  simpl. split_and!; [lia|lia|lia|]. rewrite Ht1, Et, <- app_assoc by lia. apply ztake_app_exact. lia.
Qed.

Lemma guard_destroy_wp k m c :
  Inv (k + holds m) c -> 0 <= k -> wp (destroy m) c (fun _ c' => Inv k c' /\ advanced k 0 c c' /\ eof_ c' = eof_ c).
Proof.
  intros HI Hk. destruct m; simpl in *.
  - apply wp_ret. rewrite Z.add_0_r in HI. split; [done|]. split; [apply advanced_refl|done].
  - wp_use DownRefBuffer_wp; [done|done|]. intros [] c' [HI' []]. done.
Qed.
End spec.
