(* ===== verification/JsonLexer.v ===== *)
(** * The JSON lexer

    [JsonLexer] of [json/internal/lexer.h] and [lexer.cc] over any
    [ZeroCopyInputStream]. An [absl::Status] that is not ok is [err]; its message
    is the reason and the place that it names. [RETURN_IF_ERROR] is [try*], and a
    string that goes out of scope is destroyed where C++ does so, on the error
    paths too. The conversion of a text to a finite double by [absl::SimpleAtod]
    is a parameter; so is the validator of UTF-8. *)

From S2P Require Import Prelude ZeroCopyStream Utf8 JsonStream.

(** ** Characters *)

(** The [char] constants of the source. *)
Definition ch (z : Z) : byte := z2b z.
Definition is_ch (z : Z) (c : byte) : bool := b2z c =? z.

Definition ascii_isdigit (c : byte) : bool := in_bytes 0x30 0x39 c.
Definition ascii_isalnum (c : byte) : bool :=
  ascii_isdigit c || in_bytes 0x41 0x5A c || in_bytes 0x61 0x7A c.

(** ** Places and errors *)

(** [path] is only printed. *)
Record JsonLocation := {
  offset : Z;
  line : Z;
  col : Z;
}.
Definition start_location : JsonLocation := {| offset := 0; line := 0; col := 0 |}.

Inductive reason :=
  | unexpected_character (c : byte)
  | expected_literal (c : byte) (literal : list byte)
  | invalid_unicode_escape
  | expected_a_number
  | extraneous_leading_zero
  | trailing_period
  | invalid_number (text : list byte)
  | invalid_low_surrogate
  | unpaired_low_surrogate
  | invalid_codepoint
  | expected_quote
  | invalid_utf8_string
  | invalid_escape_char (c : byte)
  | invalid_control_character (uc : Z)
  | invalid_utf8_in_string
  | expected_bare_word
  | too_deeply_nested
  | expected_comma
  | expected_close (c : byte).

Inductive error :=
  | unexpected_eof
  | Invalid (loc : JsonLocation) (message : reason).

(** [absl::StatusOr] *)
Inductive result (A : Type) :=
  | ok (a : A)
  | err (e : error).
Arguments ok {A}.
Arguments err {A}.

(** [LocationWith] *)
Definition LocationWith (T : Type) : Type := T * JsonLocation.

(** [JsonLexer::Kind] *)
Inductive Kind := kObj | kArr | kStr | kNum | kTrue | kFalse | kNull.

(** The options that the lexer reads. *)
Record ParseOptions := {
  recursion_depth : Z;
  allow_legacy_syntax : bool;
}.

Record lexer (S : Type) := mk_lexer {
  stream : t S;
  options_ : ParseOptions;
  json_loc_ : JsonLocation;
}.
Arguments mk_lexer {S}.
Arguments stream {S}.
Arguments options_ {S}.
Arguments json_loc_ {S}.

(** [JsonLexer(stream, options)] *)
Definition make_lexer {S} (s : S) (options : ParseOptions) : lexer S :=
  mk_lexer (JsonStream.make s) options start_location.

(** [RETURN_IF_ERROR] *)
Notation "'try*' p ':=' m 'in' k" := (mbind_ m (fun r_ => match r_ with ok p => k | err e_ => ret (err e_) end))
  (at level 200, p pattern, m at level 100, k at level 200, right associativity) : cpp_scope.
(** The same, with something to destroy. *)
Notation "'try*' p ':=' m 'after' d 'in' k" :=
  (mbind_ m (fun r_ => match r_ with ok p => k | err e_ => d ;;; ret (err e_) end))
  (at level 200, p pattern, m at level 100, d at level 100, k at level 200, right associativity) : cpp_scope.

(** ** What the characters say *)

(** The [switch] of [PeekKind]. *)
Definition kind_of (c : byte) : option Kind :=
  if is_ch 0x7B c then Some kObj
  else if is_ch 0x5B c then Some kArr
  else if is_ch 0x22 c || is_ch 0x27 c then Some kStr
  else if is_ch 0x2D c || ascii_isdigit c then Some kNum
  else if is_ch 0x74 c then Some kTrue
  else if is_ch 0x66 c then Some kFalse
  else if is_ch 0x6E c then Some kNull
  else None.

Definition u16 (z : Z) : Z := z mod 2 ^ 16.

Definition hex_digit (c : byte) : option Z :=
  if in_bytes 0x30 0x39 c then Some (b2z c - 0x30)
  else if in_bytes 0x61 0x66 c then Some (b2z c - 0x61 + 10)
  else if in_bytes 0x41 0x46 c then Some (b2z c - 0x41 + 10)
  else None.

(** The loop of [ParseU16HexCodepoint]. *)
Fixpoint hex_value (value : Z) (text : list byte) : option Z :=
  match text with
  | [] => Some value
  | c :: text =>
      match hex_digit c with
      | Some digit => hex_value (Z.lor (u16 (Z.shiftl value 4)) digit) text
      | None => None
      end
  end.

(** The end of [ParseUnicodeEscape]: what is written to [out_utf8]. *)
Definition utf8_of (rune : Z) : option (list byte) :=
  let part n mask mark := z2b (Z.lor (Z.land (Z.shiftr rune n) mask) mark) in
  if rune <=? 0x7F then Some [z2b rune]
  else if rune <=? 0x07FF then Some [part 6 0x1F 0xC0; part 0 0x3F 0x80]
  else if rune <=? 0xFFFF then Some [part 12 0x0F 0xE0; part 6 0x3F 0x80; part 0 0x3F 0x80]
  else if rune <=? 0x10FFFF then Some [part 18 0x07 0xF0; part 12 0x3F 0x80; part 6 0x3F 0x80; part 0 0x3F 0x80]
  else None.

Definition surrogates (high low : Z) : Z :=
  Z.lor (Z.shiftl (Z.land high 0x3FF) 10) (Z.land low 0x3FF) + 0x10000.

(** 0 is no escape. *)
Definition ParseSimpleEscape (c : byte) (allow_legacy_syntax : bool) : byte :=
  if is_ch 0x22 c then ch 0x22
  else if is_ch 0x5C c then ch 0x5C
  else if is_ch 0x2F c then ch 0x2F
  else if is_ch 0x62 c then ch 0x08
  else if is_ch 0x66 c then ch 0x0C
  else if is_ch 0x6E c then ch 0x0A
  else if is_ch 0x72 c then ch 0x0D
  else if is_ch 0x74 c then ch 0x09
  else if is_ch 0x27 c && allow_legacy_syntax then ch 0x27
  else ch 0.

(** [absl::countl_one] of eight bits. *)
Fixpoint ones_below (n : nat) (z : Z) : Z :=
  match n with
  | O => 0
  | Datatypes.S n => if Z.testbit z (Z.of_nat n) then 1 + ones_below n z else 0
  end.
Definition countl_one (uc : Z) : Z := ones_below 8 uc.

(** The bytes that follow the first of a character. *)
Definition lookahead_of (uc : Z) : option Z :=
  let ones := countl_one uc in
  if ones =? 0 then Some 0 else if ones =? 2 then Some 1 else if ones =? 3 then Some 2
  else if ones =? 4 then Some 3 else None.

Inductive number_state := kInt | kFraction | kExponent.

(** The predicate of [ParseRawNumber], with its captured [state] and [prev_var]. *)
Definition number_char (captured : number_state * byte) (index : Z) (c : byte) : bool * (number_state * byte) :=
  let (state, prev) := captured in
  if ascii_isdigit c then (true, (state, c)) else
  let last_was_int := ascii_isdigit prev in
  let int := match state with kInt => true | _ => false end in
  let exponent := match state with kExponent => true | _ => false end in
  if int && is_ch 0x2D c then (negb last_was_int, (state, c))
  else if int && last_was_int && is_ch 0x2E c then (true, (kFraction, c))
  else if negb exponent && last_was_int && (is_ch 0x65 c || is_ch 0x45 c) then (true, (kExponent, c))
  else if (is_ch 0x65 prev || is_ch 0x45 prev) && (is_ch 0x2D c || is_ch 0x2B c) then (true, (state, c))
  else (false, (state, c)).

(** What is wrong with the text of a number. *)
Definition number_error {D} (SimpleAtod : list byte -> option D) (number_text : list byte) : option reason :=
  match number_text with
  | [] => Some expected_a_number
  | first :: others =>
      if is_ch 0x2D first && match others with [] => true | _ => false end then Some expected_a_number else
      let without_minus := if is_ch 0x2D first then others else number_text in
      if match without_minus with a :: b :: _ => is_ch 0x30 a && ascii_isdigit b | _ => false end
      then Some extraneous_leading_zero else
      if is_ch 0x2E (List.last number_text first) then Some trailing_period else
      match SimpleAtod number_text with Some _ => None | None => Some (invalid_number number_text) end
  end.

Definition null_word : list byte := [ch 0x6E; ch 0x75; ch 0x6C; ch 0x6C].
Definition true_word : list byte := [ch 0x74; ch 0x72; ch 0x75; ch 0x65].
Definition false_word : list byte := [ch 0x66; ch 0x61; ch 0x6C; ch 0x73; ch 0x65].

Definition word_char (_ : unit) (index : Z) (c : byte) : bool * unit := (is_ch 0x5F c || ascii_isalnum c, tt).

Definition is_bare_word (text : list byte) : bool :=
  match text with
  | [] => false
  | c :: _ =>
      negb (ascii_isdigit c || bool_decide (text = null_word) || bool_decide (text = true_word) ||
            bool_decide (text = false_word))
  end.

Section lexer.
Context {S : Type} `{ZeroCopyInputStreamOk S} `{Utf8Range}.
Context {D : Type} (SimpleAtod : list byte -> option D).
Notation L := (M (lexer S)).

Definition set_location (loc : JsonLocation) : L unit := modS (fun x => mk_lexer (stream x) (options_ x) loc).
Definition set_depth (depth : Z) : L unit :=
  modS (fun x => mk_lexer (stream x)
    {| recursion_depth := depth; allow_legacy_syntax := allow_legacy_syntax (options_ x) |} (json_loc_ x)).

(** A call of the stream. *)
Definition on_stream {A} (m : M (t S) A) : L A := fun x =>
  match m (stream x) with Some (a, s) => Some (a, mk_lexer s (options_ x) (json_loc_ x)) | None => None end.

Definition invalid {A} (message : reason) : L (result A) :=
  let* loc := gets json_loc_ in ret (err (Invalid loc message)).

Definition legacy : L bool := gets (fun x => allow_legacy_syntax (options_ x)).

(** [RETURN_IF_ERROR(stream_.BufferAtLeast(1).status())] *)
Definition buffer_one : L (result unit) :=
  let* r := on_stream (Buffered 1) in ret (if r : bool then ok tt else err unexpected_eof).

Definition peek_char : L byte := on_stream PeekChar.

Definition Advance (bytes : Z) : L (result unit) :=
  let* r := on_stream (JsonStream.Advance bytes) in
  if negb r then ret (err unexpected_eof) else
  let* loc := gets json_loc_ in
  set_location {| offset := offset loc + bytes; line := line loc; col := col loc + bytes |} ;;;
  ret (ok tt).

Definition Push : L (result unit) :=
  let* depth := gets (fun x => recursion_depth (options_ x)) in
  if depth =? 0 then invalid too_deeply_nested else set_depth (depth - 1) ;;; ret (ok tt).

Definition Pop : L unit :=
  let* depth := gets (fun x => recursion_depth (options_ x)) in set_depth (depth + 1).

(** ** Blanks and literals *)

(** Each round takes a byte. *)
Definition bytes_left (x : lexer S) : nat :=
  let s := stream x in
  (length (last_chunk_ s) + length (buf_ s) + length (content (stream_ s)))%nat.

Definition newline : L (result unit) :=
  try* _ := Advance 1 in
  let* loc := gets json_loc_ in
  set_location {| offset := offset loc; line := line loc + 1; col := 0 |} ;;;
  ret (ok tt).

Fixpoint SkipToToken_loop (n : nat) : L (result unit) :=
  match n with
  | O => undef
  | Datatypes.S n =>
      try* _ := buffer_one in
      let* c := peek_char in
      if is_ch 0x0A c then
        try* _ := newline in SkipToToken_loop n
      else if is_ch 0x0D c || is_ch 0x09 c || is_ch 0x20 c then
        try* _ := Advance 1 in SkipToToken_loop n
      else ret (ok tt)
  end.

Definition SkipToToken : L (result unit) :=
  let* x := getS in SkipToToken_loop (Datatypes.S (bytes_left x)).

(** [absl::StartsWith] *)
Fixpoint StartsWith (text prefix : list byte) {struct prefix} : bool :=
  match prefix, text with
  | [], _ => true
  | p :: prefix, c :: text => bool_decide (p = c) && StartsWith text prefix
  | _ :: _, [] => false
  end.

Definition Expect (literal : list byte) : L (result unit) :=
  try* _ := SkipToToken in
  let* buffering := on_stream (BufferAtLeast (zlen literal)) in
  if negb buffering then ret (err unexpected_eof) else
  let* unread := on_stream Unread in
  let* r :=
    if negb (StartsWith unread literal) then
      let* c := peek_char in invalid (expected_literal c literal)
    else Advance (zlen literal) in
  on_stream DownRefBuffer ;;; ret r.

(** [Peek(literal)]; the errors are not looked at. *)
Definition Peek (literal : list byte) : L bool :=
  let* _ := SkipToToken in
  let* ignored := on_stream (BufferAtLeast (zlen literal)) in
  let* unread := on_stream Unread in
  let* r :=
    if negb (StartsWith unread literal) then ret false
    else let* _ := Advance (zlen literal) in ret true in
  on_stream (release_guard ignored) ;;; ret r.

Definition PeekKind : L (result Kind) :=
  try* _ := SkipToToken in
  let* c := peek_char in
  match kind_of c with Some kind => ret (ok kind) | None => invalid (unexpected_character c) end.

(** [Peek(kind)] *)
Definition PeekOfKind (needle : Kind) : L bool :=
  let* kind := PeekKind in
  ret (match kind, needle with
       | ok kObj, kObj | ok kArr, kArr | ok kStr, kStr | ok kNum, kNum
       | ok kTrue, kTrue | ok kFalse, kFalse | ok kNull, kNull => true
       | _, _ => false
       end).

Definition AtEof : L bool :=
  let* _ := SkipToToken in on_stream JsonStream.AtEof.

Definition Take (len : Z) : L (result (LocationWith MaybeOwnedString)) :=
  let* loc := gets json_loc_ in
  let* taken := on_stream (JsonStream.Take len) in
  ret (match taken with Some taken => ok (taken, loc) | None => err unexpected_eof end).

Definition TakeWhile {X} (p : X -> Z -> byte -> bool * X) (x : X) : L (result (LocationWith MaybeOwnedString)) :=
  let* loc := gets json_loc_ in
  let* taken := on_stream (JsonStream.TakeWhile p x) in
  ret (match taken with Some taken => ok (taken, loc) | None => err unexpected_eof end).

(** ** Strings *)

Definition ParseU16HexCodepoint : L (result Z) :=
  try* (escape, _) := Take 4 in
  let* view := on_stream (AsView escape) in
  let* r := match hex_value 0 view with Some value => ret (ok value) | None => invalid invalid_unicode_escape end in
  on_stream (destroy escape) ;;; ret r.

Definition backslash_u : list byte := [ch 0x5C; ch 0x75].

(** The bytes that are written to [out_utf8]. *)
Definition ParseUnicodeEscape : L (result (list byte)) :=
  try* hex := ParseU16HexCodepoint in
  let write rune := match utf8_of rune with Some utf8 => ret (ok utf8) | None => invalid invalid_codepoint end in
  if (0xD800 <=? hex) && (hex <=? 0xDBFF) then
    try* _ := Expect backslash_u in
    try* low := ParseU16HexCodepoint in
    if (low <? 0xDC00) || (0xDFFF <? low) then invalid invalid_low_surrogate else
    write (surrogates hex low)
  else if (0xDC00 <=? hex) && (hex <=? 0xDFFF) then invalid unpaired_low_surrogate
  else write hex.

(** The guard of a mark that has been discarded is empty. *)
Definition release_mark (mark : option Z) : L unit :=
  match mark with Some _ => on_stream Discard | None => ret tt end.

(** [mark.value.UpToUnread(1)] *)
Definition up_to_unread (mark : option Z) : L MaybeOwnedString :=
  match mark with Some start => on_stream (UpToUnread start 1) | None => undef end.

(** The quote that closes. *)
Definition close_string (loc : JsonLocation) (on_heap : list byte) (mark : option Z) :
    L (result (LocationWith MaybeOwnedString)) :=
  let* value := match on_heap with [] => up_to_unread mark | _ :: _ => ret (owned on_heap) end in
  let* view := on_stream (AsView value) in
  if IsStructurallyValid view then ret (ok (value, loc)) else
  let* r := invalid invalid_utf8_string in on_stream (destroy value) ;;; ret r.

(** [on_heap] gets its first bytes, and the mark is not needed any more. *)
Definition start_heap (on_heap : list byte) (mark : option Z) : L (list byte * option Z) :=
  match on_heap with
  | _ :: _ => ret (on_heap, mark)
  | [] =>
      let* value := up_to_unread mark in
      let* view := on_stream (AsView value) in
      on_stream (destroy value) ;;; release_mark mark ;;; ret (view, None)
  end.

(** What follows a backslash; the result is the new [on_heap]. *)
Definition string_escape (on_heap : list byte) : L (result (list byte)) :=
  try* _ := buffer_one in
  let* c := peek_char in
  try* _ := Advance 1 in
  let* legacy := legacy in
  if is_ch 0x75 c || (is_ch 0x55 c && legacy) then
    try* written := ParseUnicodeEscape in ret (ok (on_heap ++ written))
  else
    let escape := ParseSimpleEscape c legacy in
    if is_ch 0 escape then invalid (invalid_escape_char c) else ret (ok (on_heap ++ [escape])).

(** Another character. *)
Definition string_character (on_heap : list byte) (c : byte) : L (result (list byte)) :=
  let uc := b2z c in
  let* legacy := legacy in
  if ((uc <? 0x20) || (uc =? 0xFF)) && negb legacy then invalid (invalid_control_character uc) else
  match lookahead_of uc with
  | None => invalid invalid_utf8_in_string
  | Some lookahead =>
      let on_heap := match on_heap with [] => [] | _ :: _ => on_heap ++ [c] end in
      let* lookahead_bytes := on_stream (JsonStream.Take lookahead) in
      match lookahead_bytes with
      | None => ret (err unexpected_eof)
      | Some lookahead_bytes =>
          let* view := on_stream (AsView lookahead_bytes) in
          on_stream (destroy lookahead_bytes) ;;;
          ret (ok (match on_heap with [] => [] | _ :: _ => on_heap ++ view end))
      end
  end.

Fixpoint ParseUtf8_loop (n : nat) (loc : JsonLocation) (quote : Z) (on_heap : list byte) (mark : option Z) :
    L (result (LocationWith MaybeOwnedString)) :=
  match n with
  | O => undef
  | Datatypes.S n =>
      try* _ := buffer_one after release_mark mark in
      let* c := peek_char in
      try* _ := Advance 1 after release_mark mark in
      if is_ch quote c then
        let* r := close_string loc on_heap mark in release_mark mark ;;; ret r
      else if is_ch 0x5C c then
        let* (on_heap, mark) := start_heap on_heap mark in
        try* on_heap := string_escape on_heap after release_mark mark in
        ParseUtf8_loop n loc quote on_heap mark
      else
        try* on_heap := string_character on_heap c after release_mark mark in
        ParseUtf8_loop n loc quote on_heap mark
  end.

Definition ParseUtf8 : L (result (LocationWith MaybeOwnedString)) :=
  try* _ := SkipToToken in
  let* c := peek_char in
  let is_single_quote := is_ch 0x27 c in
  let* legacy := legacy in
  if negb legacy && is_single_quote then invalid expected_quote else
  let quote := if is_single_quote then 0x27 else 0x22 in
  let* loc := gets json_loc_ in
  try* _ := Expect [ch quote] in
  let* mark := on_stream BeginMark in
  let* x := getS in
  ParseUtf8_loop (Datatypes.S (bytes_left x)) loc quote [] (Some mark).

(** ** Numbers and words *)

(** The end of [ParseRawNumber]: the next token may follow a number. *)
Definition after_number : L (result unit) :=
  let* at_eof := on_stream JsonStream.AtEof in
  if at_eof then ret (ok tt) else
  try* _ := SkipToToken in
  let* c := peek_char in
  if is_ch 0x2C c || is_ch 0x5D c || is_ch 0x7D c then ret (ok tt)
  else invalid (unexpected_character c).

Definition ParseRawNumber : L (result (LocationWith MaybeOwnedString)) :=
  try* _ := SkipToToken in
  try* number := TakeWhile number_char (kInt, ch 0) in
  let (value, loc) := number in
  let* number_text := on_stream (AsView value) in
  match number_error SimpleAtod number_text with
  | Some message => on_stream (destroy value) ;;; ret (err (Invalid loc message))
  | None =>
      try* _ := after_number after on_stream (destroy value) in
      ret (ok number)
  end.

Definition ParseNumber : L (result (LocationWith D)) :=
  try* (value, loc) := ParseRawNumber in
  let* text := on_stream (AsView value) in
  on_stream (destroy value) ;;;
  ret (match SimpleAtod text with
       | Some d => ok (d, loc)
       | None => err (Invalid loc (invalid_number text))
       end).

Definition ParseBareWord : L (result (LocationWith MaybeOwnedString)) :=
  try* _ := SkipToToken in
  try* ident := TakeWhile word_char tt in
  let (value, loc) := ident in
  let* text := on_stream (AsView value) in
  if is_bare_word text then ret (ok ident)
  else on_stream (destroy value) ;;; ret (err (Invalid loc expected_bare_word)).

(** ** Arrays, objects and values *)

(** The loops: a round that is followed by another has taken a comma, or it is
    the last but one. The result is [has_comma]. *)
Fixpoint VisitArray_loop (n : nat) (f : L (result unit)) (has_comma : bool) : L (result bool) :=
  match n with
  | O => undef
  | Datatypes.S n =>
      if negb has_comma then invalid expected_comma else
      try* _ := f in
      let* has_comma := Peek [ch 0x2C] in
      let* close := Peek [ch 0x5D] in
      if close then ret (ok has_comma) else VisitArray_loop n f has_comma
  end.

Definition VisitArray (f : L (result unit)) : L (result unit) :=
  try* _ := Expect [ch 0x5B] in
  try* _ := Push in
  let* empty := Peek [ch 0x5D] in
  if empty then Pop ;;; ret (ok tt) else
  let* x := getS in
  try* has_comma := VisitArray_loop (bytes_left x + 2) f true in
  let* legacy := legacy in
  if negb legacy && has_comma then invalid (expected_close (ch 0x5D)) else
  Pop ;;; ret (ok tt).

Definition object_key : L (result (LocationWith MaybeOwnedString)) :=
  let* c := peek_char in
  let* legacy := legacy in
  if is_ch 0x22 c || is_ch 0x27 c then ParseUtf8
  else if legacy then ParseBareWord
  else invalid expected_quote.

(** The key is destroyed at the end of the body of the loop. *)
Fixpoint VisitObject_loop (n : nat) (f : LocationWith MaybeOwnedString -> L (result unit)) (has_comma : bool) :
    L (result bool) :=
  match n with
  | O => undef
  | Datatypes.S n =>
      if negb has_comma then invalid expected_comma else
      try* _ := SkipToToken in
      try* key := object_key in
      try* _ := Expect [ch 0x3A] after on_stream (destroy (fst key)) in
      try* _ := f key after on_stream (destroy (fst key)) in
      let* has_comma := Peek [ch 0x2C] in
      on_stream (destroy (fst key)) ;;;
      let* close := Peek [ch 0x7D] in
      if close then ret (ok has_comma) else VisitObject_loop n f has_comma
  end.

Definition VisitObject (f : LocationWith MaybeOwnedString -> L (result unit)) : L (result unit) :=
  try* _ := Expect [ch 0x7B] in
  try* _ := Push in
  let* empty := Peek [ch 0x7D] in
  if empty then Pop ;;; ret (ok tt) else
  let* x := getS in
  try* has_comma := VisitObject_loop (bytes_left x + 2) f true in
  Pop ;;;
  let* legacy := legacy in
  if negb legacy && has_comma then invalid (expected_close (ch 0x7D)) else
  ret (ok tt).

(** [n] bounds the depth: each level takes a bracket. *)
Fixpoint SkipValue_loop (n : nat) : L (result unit) :=
  match n with
  | O => undef
  | Datatypes.S n =>
      try* kind := PeekKind in
      match kind with
      | kObj => VisitObject (fun _ => SkipValue_loop n)
      | kArr => VisitArray (SkipValue_loop n)
      | kStr => try* (value, _) := ParseUtf8 in on_stream (destroy value) ;;; ret (ok tt)
      | kNum => try* _ := ParseNumber in ret (ok tt)
      | kTrue => Expect true_word
      | kFalse => Expect false_word
      | kNull => Expect null_word
      end
  end.

Definition SkipValue : L (result unit) :=
  let* x := getS in SkipValue_loop (Datatypes.S (bytes_left x)).
End lexer.
