(* ===== verification/JsonFlat.v ===== *)
(** * The JSON lexer on a list of bytes

    What [JsonLexer.v] promises: the operations of the lexer where the input is a
    list, with no chunks, no buffer and no guards. A string is the bytes it
    shows. [JsonLexerSpec.v] proves that the lexer does this on every stream. *)

From S2P Require Import Prelude Utf8 JsonStreamSpec JsonLexer.

Module Flat.

Record t := {
  bytes : list byte;
  place : JsonLocation;
  options : ParseOptions;
}.

Definition set_place (loc : JsonLocation) (f : t) : t :=
  {| bytes := bytes f; place := loc; options := options f |}.
Definition set_depth (depth : Z) (f : t) : t :=
  {| bytes := bytes f; place := place f;
     options := {| recursion_depth := depth; allow_legacy_syntax := allow_legacy_syntax (options f) |} |}.

(** [n] bytes that are not counted, and [n] bytes that are. *)
Definition drop (n : Z) (f : t) : t := {| bytes := zdrop n (bytes f); place := place f; options := options f |}.
Definition shift (n : Z) (loc : JsonLocation) : JsonLocation :=
  {| offset := offset loc + n; line := line loc; col := col loc + n |}.
Definition advance (n : Z) (f : t) : t := set_place (shift n (place f)) (drop n f).
Definition newline (f : t) : t :=
  set_place {| offset := offset (place f); line := line (place f) + 1; col := 0 |} f.

Definition is_blank (c : byte) : bool := is_ch 0x0A c || is_ch 0x0D c || is_ch 0x09 c || is_ch 0x20 c.

(** Past the blanks. *)
Fixpoint skip_loop (l : list byte) (f : t) : t :=
  match l with
  | [] => f
  | c :: l =>
      if is_ch 0x0A c then skip_loop l (newline (advance 1 f))
      else if is_blank c then skip_loop l (advance 1 f)
      else f
  end.
Definition skip (f : t) : t := skip_loop (bytes f) f.

Section flat.
Context `{Utf8Range} {D : Type} (SimpleAtod : list byte -> option D).
Notation F := (M t).

Definition invalid {A} (message : reason) : F (result A) :=
  let* loc := gets place in ret (err (Invalid loc message)).

Definition legacy : F bool := gets (fun f => allow_legacy_syntax (options f)).

Definition some_left : F (result unit) :=
  let* l := gets bytes in ret (match l with [] => err unexpected_eof | _ :: _ => ok tt end).

Definition first : F byte :=
  let* l := gets bytes in match l with [] => undef | c :: _ => ret c end.

Definition Push : F (result unit) :=
  let* depth := gets (fun f => recursion_depth (options f)) in
  if depth =? 0 then invalid too_deeply_nested else modS (set_depth (depth - 1)) ;;; ret (ok tt).
Definition Pop : F unit :=
  let* depth := gets (fun f => recursion_depth (options f)) in modS (set_depth (depth + 1)).

Definition SkipToToken : F (result unit) := modS skip ;;; some_left.

Definition Expect (literal : list byte) : F (result unit) :=
  try* _ := SkipToToken in
  let* l := gets bytes in
  if zlen l <? zlen literal then ret (err unexpected_eof)
  else if StartsWith l literal then modS (advance (zlen literal)) ;;; ret (ok tt)
  else let* c := first in invalid (expected_literal c literal).

Definition Peek (literal : list byte) : F bool :=
  modS skip ;;;
  let* l := gets bytes in
  if StartsWith l literal then modS (advance (zlen literal)) ;;; ret true else ret false.

Definition PeekKind : F (result Kind) :=
  try* _ := SkipToToken in
  let* c := first in
  match kind_of c with Some kind => ret (ok kind) | None => invalid (unexpected_character c) end.

(** [Take] counts nothing. *)
Definition Take (len : Z) : F (result (list byte)) :=
  let* l := gets bytes in
  if zlen l <? len then ret (err unexpected_eof) else modS (drop len) ;;; ret (ok (ztake len l)).

Definition ParseU16HexCodepoint : F (result Z) :=
  try* l := Take 4 in
  match hex_value 0 l with Some value => ret (ok value) | None => invalid invalid_unicode_escape end.

Definition ParseUnicodeEscape : F (result (list byte)) :=
  try* hex := ParseU16HexCodepoint in
  let write rune := match utf8_of rune with Some utf8 => ret (ok utf8) | None => invalid invalid_codepoint end in
  if (0xD800 <=? hex) && (hex <=? 0xDBFF) then
    try* _ := Expect backslash_u in
    try* low := ParseU16HexCodepoint in
    if (low <? 0xDC00) || (0xDFFF <? low) then invalid invalid_low_surrogate else
    write (surrogates hex low)
  else if (0xDC00 <=? hex) && (hex <=? 0xDFFF) then invalid unpaired_low_surrogate
  else write hex.

(** What an escape stands for. *)
Definition string_escape : F (result (list byte)) :=
  try* _ := some_left in
  let* c := first in
  modS (advance 1) ;;;
  let* legacy := legacy in
  if is_ch 0x75 c || (is_ch 0x55 c && legacy) then ParseUnicodeEscape
  else
    let escape := ParseSimpleEscape c legacy in
    if is_ch 0 escape then invalid (invalid_escape_char c) else ret (ok [escape]).

(** The bytes of a character. *)
Definition string_character (c : byte) : F (result (list byte)) :=
  let* legacy := legacy in
  if ((b2z c <? 0x20) || (b2z c =? 0xFF)) && negb legacy then invalid (invalid_control_character (b2z c)) else
  match lookahead_of (b2z c) with
  | None => invalid invalid_utf8_in_string
  | Some lookahead => try* l := Take lookahead in ret (ok (c :: l))
  end.

Fixpoint ParseUtf8_loop (n : nat) (loc : JsonLocation) (quote : Z) (text : list byte) :
    F (result (LocationWith (list byte))) :=
  match n with
  | O => undef
  | Datatypes.S n =>
      try* _ := some_left in
      let* c := first in
      modS (advance 1) ;;;
      if is_ch quote c then
        if IsStructurallyValid text then ret (ok (text, loc)) else invalid invalid_utf8_string
      else if is_ch 0x5C c then
        try* l := string_escape in ParseUtf8_loop n loc quote (text ++ l)
      else
        try* l := string_character c in ParseUtf8_loop n loc quote (text ++ l)
  end.

Definition ParseUtf8 : F (result (LocationWith (list byte))) :=
  try* _ := SkipToToken in
  let* c := first in
  let is_single_quote := is_ch 0x27 c in
  let* legacy := legacy in
  if negb legacy && is_single_quote then invalid expected_quote else
  let quote := if is_single_quote then 0x27 else 0x22 in
  let* loc := gets place in
  try* _ := Expect [ch quote] in
  let* l := gets bytes in
  ParseUtf8_loop (Datatypes.S (length l)) loc quote [].

Section take_while.
Context {X : Type} (p : X -> Z -> byte -> bool * X).

Definition TakeWhile (x : X) : F (LocationWith (list byte)) :=
  let* loc := gets place in
  let* l := gets bytes in
  let taken := taken_while p x 0 l in
  modS (drop (zlen taken)) ;;; ret (taken, loc).
End take_while.

(** At the end of the input, or before a token that may follow a number. *)
Definition after_number : F (result unit) :=
  let* l := gets bytes in
  match l with
  | [] => ret (ok tt)
  | _ :: _ =>
      try* _ := SkipToToken in
      let* c := first in
      if is_ch 0x2C c || is_ch 0x5D c || is_ch 0x7D c then ret (ok tt)
      else invalid (unexpected_character c)
  end.

Definition ParseRawNumber : F (result (LocationWith (list byte))) :=
  try* _ := SkipToToken in
  let* (text, loc) := TakeWhile number_char (kInt, ch 0) in
  match number_error SimpleAtod text with
  | Some message => ret (err (Invalid loc message))
  | None => try* _ := after_number in ret (ok (text, loc))
  end.

Definition ParseNumber : F (result (LocationWith D)) :=
  try* (text, loc) := ParseRawNumber in
  ret (match SimpleAtod text with
       | Some d => ok (d, loc)
       | None => err (Invalid loc (invalid_number text))
       end).

Definition ParseBareWord : F (result (LocationWith (list byte))) :=
  try* _ := SkipToToken in
  let* (text, loc) := TakeWhile word_char tt in
  ret (if is_bare_word text then ok (text, loc) else err (Invalid loc expected_bare_word)).

Fixpoint VisitArray_loop (n : nat) (f : F (result unit)) (has_comma : bool) : F (result bool) :=
  match n with
  | O => undef
  | Datatypes.S n =>
      if negb has_comma then invalid expected_comma else
      try* _ := f in
      let* has_comma := Peek [ch 0x2C] in
      let* close := Peek [ch 0x5D] in
      if close then ret (ok has_comma) else VisitArray_loop n f has_comma
  end.

Definition VisitArray (f : F (result unit)) : F (result unit) :=
  try* _ := Expect [ch 0x5B] in
  try* _ := Push in
  let* empty := Peek [ch 0x5D] in
  if empty then Pop ;;; ret (ok tt) else
  let* l := gets bytes in
  try* has_comma := VisitArray_loop (length l + 2) f true in
  let* legacy := legacy in
  if negb legacy && has_comma then invalid (expected_close (ch 0x5D)) else
  Pop ;;; ret (ok tt).

Definition object_key : F (result (LocationWith (list byte))) :=
  let* c := first in
  let* legacy := legacy in
  if is_ch 0x22 c || is_ch 0x27 c then ParseUtf8
  else if legacy then ParseBareWord
  else invalid expected_quote.

Fixpoint VisitObject_loop (n : nat) (f : LocationWith (list byte) -> F (result unit)) (has_comma : bool) :
    F (result bool) :=
  match n with
  | O => undef
  | Datatypes.S n =>
      if negb has_comma then invalid expected_comma else
      try* _ := SkipToToken in
      try* key := object_key in
      try* _ := Expect [ch 0x3A] in
      try* _ := f key in
      let* has_comma := Peek [ch 0x2C] in
      let* close := Peek [ch 0x7D] in
      if close then ret (ok has_comma) else VisitObject_loop n f has_comma
  end.

Definition VisitObject (f : LocationWith (list byte) -> F (result unit)) : F (result unit) :=
  try* _ := Expect [ch 0x7B] in
  try* _ := Push in
  let* empty := Peek [ch 0x7D] in
  if empty then Pop ;;; ret (ok tt) else
  let* l := gets bytes in
  try* has_comma := VisitObject_loop (length l + 2) f true in
  Pop ;;;
  let* legacy := legacy in
  if negb legacy && has_comma then invalid (expected_close (ch 0x7D)) else
  ret (ok tt).

Fixpoint SkipValue_loop (n : nat) : F (result unit) :=
  match n with
  | O => undef
  | Datatypes.S n =>
      try* kind := PeekKind in
      match kind with
      | kObj => VisitObject (fun _ => SkipValue_loop n)
      | kArr => VisitArray (SkipValue_loop n)
      | kStr => try* _ := ParseUtf8 in ret (ok tt)
      | kNum => try* _ := ParseNumber in ret (ok tt)
      | kTrue => Expect true_word
      | kFalse => Expect false_word
      | kNull => Expect null_word
      end
  end.

Definition SkipValue : F (result unit) :=
  let* l := gets bytes in SkipValue_loop (Datatypes.S (length l)).
End flat.
End Flat.
