(* ===== verification/JsonLexerSpec.v ===== *)
(** * The JSON lexer refines its description on lists

    Over every stream that keeps the contract of [ZeroCopyStream.v], however its
    bytes are cut into chunks, each operation of [JsonLexer.v] does what
    [JsonFlat.v] does on the list of the bytes, the errors and their places
    included, and leaves no guard but those of the strings it returns. *)

From S2P Require Import Prelude ZeroCopyStream Utf8 JsonStream JsonStreamSpec JsonLexer JsonFlat.

Section sim.
Context {S : Type} `{ZeroCopyInputStreamOk S} `{Utf8Range}.
Notation lexer := (lexer S).
Implicit Type x : lexer.
Implicit Type f : Flat.t.

(** ** The relation *)

(** [k] guards, and the same bytes, place and options. *)
Record related (k : Z) x f : Prop := {
  related_inv : Inv k (stream x);
  related_rest : rest (stream x) = Flat.bytes f;
  related_loc : json_loc_ x = Flat.place f;
  related_options : options_ x = Flat.options f;
}.

(** Bytes have been read, and what [k] guards show is the same. *)
Definition moved (k : Z) x x' : Prop := exists n, 0 <= n /\ advanced k n (stream x) (stream x').

(** From [x0] to [x], where there are [j] guards; [k] of them were there all the
    time. *)
Record went (k j : Z) x0 x f : Prop := {
  went_related : related j x f;
  went_moved : moved k x0 x;
  went_le : 0 <= k <= j;
}.

Definition peekable x : Prop := eof_ (stream x) = false /\ 0 < zlen (unread (stream x)).

Lemma lexer_moved_refl k x : moved k x x.
Proof. exists 0. split; [done|apply advanced_refl]. Qed.

Lemma lexer_moved_trans k x x1 x2 : moved k x x1 -> moved k x1 x2 -> moved k x x2.
Proof. intros (n & ? & ?) (m & ? & ?). exists (n + m). split; [lia|by eapply advanced_trans]. Qed.

Lemma moved_up k j x x' : j <= k -> moved k x x' -> moved j x x'.
Proof. intros ? (n & ? & ?). exists n. split; [done|by eapply advanced_weaken]. Qed.

Lemma moved_shows i k x x' m l :
  Loose i (stream x) -> holds m <= k <= i -> moved k x x' -> shows (stream x) m l -> shows (stream x') m l.
Proof. intros ? ? (n & ? & ?). by eapply shows_advanced. Qed.

Lemma related_nonneg k x f : related k x f -> 0 <= k.
Proof. intros [[HL _] _ _ _]. apply (loose_borrows _ _ HL). Qed.

Lemma related_broken k x f : related k x f -> broken k (stream x).
Proof. intros [[] _ _ _]. by apply Loose_broken. Qed.

Lemma went_refl k x f : related k x f -> went k k x x f.
Proof. intros Hr. split; [done|apply lexer_moved_refl|]. pose proof (related_nonneg _ _ _ Hr). lia. Qed.

Lemma went_step k j x0 x f x' f' : went k j x0 x f -> related j x' f' -> moved j x x' -> went k j x0 x' f'.
Proof.
  intros [Hr Hm Hle] Hr' Hm'. split; [done| |done]. eapply lexer_moved_trans; [exact Hm|]. eapply moved_up; [|done]. lia.
Qed.

Lemma went_shorter k j i x f x' f' : related j x f -> went k i x x' f' -> zlen (Flat.bytes f') <= zlen (Flat.bytes f).
Proof.
  intros Hr [Hr' (n & Hn & Ha) _]. rewrite <- (related_rest _ _ _ Hr), <- (related_rest _ _ _ Hr').
  rewrite (advanced_rest _ _ _ _ Ha), zlen_zdrop. pose proof (zlen_nonneg (rest (stream x))). lia.
Qed.

(** In two parts, the second from where the first has ended. *)
Lemma went_trans k j i x0 x f x' f' :
  went k j x0 x f -> went j i x x' f' -> went k i x0 x' f' /\ zlen (Flat.bytes f') <= zlen (Flat.bytes f).
Proof.
  intros Hw Hw'. split; [|by eapply went_shorter; [apply Hw|]]. destruct Hw as [Hr Hm ?], Hw' as [Hr' Hm' ?].
  split; [done| |lia]. eapply lexer_moved_trans; [exact Hm|]. eapply moved_up; [|done]. lia.
Qed.

(** [m] does what [F] does; [R] holds at the end, and after an error [k] guards
    are left. *)
Definition sim {A B} (k : Z) (R : A -> B -> lexer -> Flat.t -> Prop)
    (m : M lexer (result A)) (F : M Flat.t (result B)) x f : Prop :=
  wp m x (fun ra x' => exists rb f', F f = Some (rb, f') /\
    match ra, rb with
    | ok a, ok b => R a b x' f'
    | err e, err e' => e = e' /\ broken k (stream x')
    | _, _ => False
    end).

Lemma sim_mono {A B} k (R R' : A -> B -> lexer -> Flat.t -> Prop) m F x f :
  sim k R m F x f -> (forall a b x' f', R a b x' f' -> R' a b x' f') -> sim k R' m F x f.
Proof.
  intros Hs HR. eapply wp_mono; [exact Hs|]. cbv beta. intros ra x' (rb & f' & E & Hr). exists rb, f'. split; [done|].
  destruct ra, rb; auto.
Qed.

Lemma sim_ok {A B} k (R : A -> B -> lexer -> Flat.t -> Prop) a b x f : R a b x f -> sim k R (ret (ok a)) (ret (ok b)) x f.
Proof. intros HR. apply wp_ret. by exists (ok b), f. Qed.

Lemma sim_err {A B} k (R : A -> B -> lexer -> Flat.t -> Prop) e x f : broken k (stream x) -> sim k R (ret (err e)) (ret (err e)) x f.
Proof. intros Hb. apply wp_ret. by exists (err e), f. Qed.

(** [try*] *)
Lemma sim_bind {A B A' B'} k (R : A -> B -> lexer -> Flat.t -> Prop) (R' : A' -> B' -> lexer -> Flat.t -> Prop)
    m F (mk : A -> M lexer (result A')) (Fk : B -> M Flat.t (result B')) x f :
  sim k R m F x f -> (forall a b x' f', R a b x' f' -> sim k R' (mk a) (Fk b) x' f') ->
  sim k R' (try* a := m in mk a) (try* b := F in Fk b) x f.
Proof.
  intros Hs HK. apply wp_bind. eapply wp_mono; [exact Hs|]. cbv beta. intros ra x' (rb & f' & E & Hr).
  destruct ra as [a|e], rb as [b|e']; try done.
  - eapply wp_mono; [by apply HK|]. cbv beta. intros ra x2 (rb & f2 & E2 & Hr2). exists rb, f2. split; [|done].
    unfold mbind_. by rewrite E.
  - destruct Hr as [<- Hb]. apply wp_ret. exists (err e), f'. unfold mbind_. by rewrite E.
Qed.

(** [try*], with [h] guards to release. *)
Lemma sim_bind_after {A B A' B'} k h (R : A -> B -> lexer -> Flat.t -> Prop) (R' : A' -> B' -> lexer -> Flat.t -> Prop)
    m F (d : M lexer unit) (mk : A -> M lexer (result A')) (Fk : B -> M Flat.t (result B')) x f :
  sim (k + h) R m F x f -> (forall x', broken (k + h) (stream x') -> wp d x' (fun _ x2 => broken k (stream x2))) ->
  (forall a b x' f', R a b x' f' -> sim k R' (mk a) (Fk b) x' f') ->
  sim k R' (try* a := m after d in mk a) (try* b := F in Fk b) x f.
Proof.
  intros Hs Hd HK. apply wp_bind. eapply wp_mono; [exact Hs|]. cbv beta. intros ra x' (rb & f' & E & Hr).
  destruct ra as [a|e], rb as [b|e']; try done.
  - eapply wp_mono; [by apply HK|]. cbv beta. intros ra x2 (rb & f2 & E2 & Hr2). exists rb, f2. split; [|done].
    unfold mbind_. by rewrite E.
  - destruct Hr as [<- Hb]. apply wp_bind. eapply wp_mono; [by apply Hd|]. cbv beta. intros _ x2 Hb2. apply wp_ret.
    exists (err e), f'. unfold mbind_. by rewrite E.
Qed.

(** A step of the lexer alone, and one of the description alone. *)
Lemma sim_left {A A' B'} k (R' : A' -> B' -> lexer -> Flat.t -> Prop) (m : M lexer A) mk F x f :
  wp m x (fun a x' => sim k R' (mk a) F x' f) -> sim k R' (let* a := m in mk a) F x f.
Proof. intros Hs. by apply wp_bind. Qed.

Lemma sim_right {B A' B'} k (R' : A' -> B' -> lexer -> Flat.t -> Prop) m (F : M Flat.t B) Fk b f' x f :
  F f = Some (b, f') -> sim k R' m (Fk b) x f' -> sim k R' m (let* b := F in Fk b) x f.
Proof.
  intros E Hs. eapply wp_mono; [exact Hs|]. cbv beta. intros ra x' (rb & f2 & E2 & Hr). exists rb, f2.
  split; [|done]. unfold mbind_. by rewrite E.
Qed.

Lemma sim_right_err {B A' B'} k (R' : A' -> B' -> lexer -> Flat.t -> Prop) (F : M Flat.t (result B)) (Fk : B -> M Flat.t (result B')) e f' x f :
  F f = Some (err e, f') -> broken k (stream x) -> sim k R' (ret (err e)) (try* b := F in Fk b) x f.
Proof. intros E Hb. apply wp_ret. exists (err e), f'. unfold mbind_. by rewrite E. Qed.

Lemma lexer_stream_wp {A} (m : M (t S) A) x Q :
  wp m (stream x) (fun a s => Q a (mk_lexer s (options_ x) (json_loc_ x))) -> wp (on_stream m) x Q.
Proof. unfold wp, on_stream. destruct (m (stream x)) as [[a s]|]; done. Qed.

Lemma sim_invalid {A B} k (R : A -> B -> lexer -> Flat.t -> Prop) message x f :
  related k x f -> sim k R (invalid message) (Flat.invalid message) x f.
Proof.
  intros Hr. apply sim_left, wp_gets. eapply sim_right; [reflexivity|]. rewrite (related_loc _ _ _ Hr).
  eapply sim_err, related_broken, Hr.
Qed.

(** ** Bytes *)

(** The stream has moved, and nothing else. *)
Lemma related_stream k k' i n x f s :
  related k x f -> Inv k' s -> advanced i n (stream x) s -> 0 <= n ->
  related k' (mk_lexer s (options_ x) (json_loc_ x)) (Flat.drop n f) /\ moved i x (mk_lexer s (options_ x) (json_loc_ x)).
Proof.
  intros [HI Hr Hl Ho] HI' Ha Hn. split; [|by exists n]. split; simpl; try done. by rewrite (advanced_rest _ _ _ _ Ha), Hr.
Qed.

Lemma drop_0 f : Flat.drop 0 f = f.
Proof. destruct f. unfold Flat.drop. simpl. by rewrite zdrop_0. Qed.

Lemma related_same k k' i x f s :
  related k x f -> Inv k' s -> advanced i 0 (stream x) s ->
  related k' (mk_lexer s (options_ x) (json_loc_ x)) f /\ moved i x (mk_lexer s (options_ x) (json_loc_ x)).
Proof. intros Hr HI Ha. rewrite <- (drop_0 f). by eapply related_stream. Qed.

Lemma buffer_one_wp k j x0 x f :
  went k j x0 x f ->
  wp buffer_one x (fun r x' => went k j x0 x' f /\ advanced j 0 (stream x) (stream x') /\
    match Flat.bytes f with [] => r = err unexpected_eof | _ :: _ => r = ok tt /\ peekable x' end).
Proof.
  intros Hw. pose proof Hw as [Hr _ _]. pose proof Hr as [HI Hrest _ _]. unfold buffer_one.
  apply wp_bind, lexer_stream_wp. wp_use Buffered_wp; [exact HI|].
  intros r s (HI' & Ha & Hb). apply wp_ret. destruct (related_same _ _ _ _ _ _ Hr HI' Ha) as [Hr' Hm].
  split; [by eapply went_step|]. split; [done|]. rewrite <- Hrest. destruct r.
  - destruct Hb as (? & ? & ?). by destruct (rest (stream x)).
  - by destruct Hb as [-> _].
Qed.

Lemma peek_char_wp k j x0 x f c l Q :
  went k j x0 x f -> peekable x -> Flat.bytes f = c :: l -> Q c x -> wp peek_char x Q.
Proof.
  intros [[[HL _] Hrest _ _] _ _] [_ Hu] El HQ. apply lexer_stream_wp. eapply PeekChar_wp; [exact HL|by rewrite Hrest|done|].
  by destruct x.
Qed.

Lemma lexer_Advance_wp k j x0 n x f :
  went k j x0 x f -> 0 <= n <= zlen (unread (stream x)) ->
  wp (Advance n) x (fun r x' => r = ok tt /\ went k j x0 x' (Flat.advance n f) /\
    eof_ (stream x') = eof_ (stream x) /\ advanced j n (stream x) (stream x')).
Proof.
  intros Hw Hn. pose proof Hw as [Hr _ _]. pose proof Hr as [HI _ Hl _]. unfold Advance. apply wp_bind, lexer_stream_wp.
  wp_use stream_Advance_wp; [apply HI|eapply near_weaken; [|apply HI]; lia|done|].
  intros r s (-> & HI' & Ha & He & _ & Hu & _). cbn [negb]. apply wp_bind, wp_gets. cbn [json_loc_].
  apply wp_bind, wp_modS, wp_ret. split; [done|]. destruct (related_stream _ j j n _ _ s Hr HI' Ha ltac:(lia)) as [Hr' Hm].
  split; [|done]. eapply went_step; [done| |exact Hm]. rewrite Hl. destruct Hr' as [? ? ? ?]. by split.
Qed.

(** One byte that has been looked at. *)
Lemma Advance_peeked k j x0 x f c l :
  went k j x0 x f -> peekable x -> Flat.bytes f = c :: l ->
  wp (Advance 1) x (fun r x' => r = ok tt /\ went k j x0 x' (Flat.advance 1 f) /\ Flat.bytes (Flat.advance 1 f) = l /\
    eof_ (stream x') = false /\ advanced j 1 (stream x) (stream x')).
Proof.
  intros Hw [He Hu] El. wp_use lexer_Advance_wp; [exact Hw|lia|]. intros r x' (-> & Hw' & He' & Ha).
  split; [done|]. split; [done|]. split; [simpl; rewrite El; by rewrite zdrop_cons, zdrop_0 by lia|]. split; [congruence|done].
Qed.

(** ** Blanks and literals *)

Lemma bytes_left_ok k j x0 x f : went k j x0 x f -> zlen (Flat.bytes f) <= Z.of_nat (bytes_left x).
Proof.
  intros [[HI Hrest _ _] _ _]. rewrite <- Hrest. unfold rest, bytes_left, unread, view, zlen. rewrite length_app.
  assert (forall n (l : list byte), (length (zdrop n l) <= length l)%nat) as Hd by (intros; unfold zdrop; rewrite length_drop; lia).
  pose proof (Hd (cursor_ (stream x) - base (stream x)) (buf_ (stream x))).
  pose proof (Hd (cursor_ (stream x) - base (stream x)) (last_chunk_ (stream x))).
  destruct (using_buf_ (stream x)), (eof_ (stream x)); simpl; lia.
Qed.

(** After the blanks there is a token, or the end of the input. *)
Definition at_token (r : result unit) x f : Prop :=
  match Flat.bytes f with [] => r = err unexpected_eof | _ :: _ => r = ok tt /\ peekable x end.

Lemma newline_wp k j x0 x f c l :
  went k j x0 x f -> peekable x -> Flat.bytes f = c :: l ->
  wp newline x (fun r x' => r = ok tt /\ went k j x0 x' (Flat.newline (Flat.advance 1 f))).
Proof.
  intros Hw Hp El. unfold newline. apply wp_bind. wp_use Advance_peeked; [exact Hw|done|exact El|].
  intros r x2 (-> & [Hr2 Hm2 Hle] & _). apply wp_bind, wp_gets, wp_bind, wp_modS, wp_ret. split; [done|].
  rewrite (related_loc _ _ _ Hr2). split; [by destruct Hr2; split|done..].
Qed.

Lemma SkipToToken_loop_wp k j x0 n x f :
  went k j x0 x f -> zlen (Flat.bytes f) < Z.of_nat n ->
  wp (SkipToToken_loop n) x (fun r x' => went k j x0 x' (Flat.skip f) /\ at_token r x' (Flat.skip f)).
Proof.
  revert x f. induction n as [|n IH]; intros x f Hw Hn; [pose proof (zlen_nonneg (Flat.bytes f)); lia|].
  cbn [SkipToToken_loop]. apply wp_bind. wp_use buffer_one_wp; [exact Hw|]. intros r x1 (Hw1 & _ & Hb).
  destruct f as [l loc o]. unfold Flat.skip, at_token in *. cbn [Flat.bytes] in *. destruct l as [|c l].
  { subst r. by apply wp_ret. }
  destruct Hb as [-> Hp]. apply wp_bind. eapply peek_char_wp; [exact Hw1|done|done|].
  rewrite zlen_cons in Hn. cbn [Flat.skip_loop].
  assert (forall m f', wp (m : M lexer (result unit)) x1 (fun r x' => r = ok tt /\ went k j x0 x' f') -> Flat.bytes f' = l ->
    wp (try* _ := m in SkipToToken_loop n) x1 (fun r x' => went k j x0 x' (Flat.skip_loop l f') /\
      at_token r x' (Flat.skip_loop l f'))) as Hloop.
  { intros m f' Hwp El. apply wp_bind. eapply wp_mono; [exact Hwp|]. cbv beta. intros r x2 [-> Hw2].
    wp_use IH; [exact Hw2|rewrite El; lia|]. by rewrite El. }
  assert (zdrop 1 (c :: l) = l) as Ed by by rewrite zdrop_cons, zdrop_0 by lia.
  unfold Flat.is_blank. destruct (is_ch 0x0A c) eqn:En.
  - apply Hloop; [|done]. by eapply newline_wp.
  - cbn [orb]. destruct (is_ch 0x0D c || is_ch 0x09 c || is_ch 0x20 c) eqn:Eb.
    + apply Hloop; [|done]. wp_use Advance_peeked; [exact Hw1|done|done|]. by intros r x2 (-> & ? & _).
    + by apply wp_ret.
Qed.

Lemma lexer_SkipToToken_wp k j x0 x f :
  went k j x0 x f -> wp SkipToToken x (fun r x' => went k j x0 x' (Flat.skip f) /\ at_token r x' (Flat.skip f)).
Proof.
  intros Hw. unfold SkipToToken. apply wp_bind, wp_getS. apply SkipToToken_loop_wp; [done|].
  pose proof (bytes_left_ok _ _ _ _ _ Hw). lia.
Qed.

(** What [sim] concludes most often. *)
Notation back k j x0 := (fun _ _ x' f' => went k j x0 x' f').

Lemma sim_SkipToToken k j x0 x f :
  went k j x0 x f ->
  sim j (fun _ _ x' f' => went k j x0 x' f' /\ f' = Flat.skip f /\ peekable x' /\ exists c l, Flat.bytes f' = c :: l)
    SkipToToken Flat.SkipToToken x f.
Proof.
  intros Hw. unfold sim. wp_use lexer_SkipToToken_wp; [exact Hw|]. intros r x' [Hw' Ht]. unfold at_token in Ht.
  unfold Flat.SkipToToken, Flat.some_left, mbind_, modS, gets, mret_. eexists _, (Flat.skip f). split; [reflexivity|].
  destruct (Flat.bytes (Flat.skip f)) as [|c l].
  - subst r. split; [done|]. eapply related_broken, Hw'.
  - destruct Ht as [-> Hp]. split_and!; [done|done|done|by exists c, l].
Qed.

(** The byte that has been looked at. *)
Lemma sim_first {A B} k i j x0 x f c l (R : A -> B -> lexer -> Flat.t -> Prop) mk Fk :
  went k i x0 x f -> peekable x -> Flat.bytes f = c :: l -> sim j R (mk c) (Fk c) x f ->
  sim j R (let* c := peek_char in mk c) (let* c := Flat.first in Fk c) x f.
Proof.
  intros Hw Hp El Hs. apply sim_left. eapply peek_char_wp; [exact Hw|done|exact El|].
  eapply sim_right; [|exact Hs]. unfold Flat.first, mbind_, gets. by rewrite El.
Qed.

Lemma StartsWith_app u t literal : zlen literal <= zlen u -> StartsWith (u ++ t) literal = StartsWith u literal.
Proof.
  revert u. induction literal as [|p literal IH]; intros u Hl; [done|].
  destruct u as [|c u]; [rewrite zlen_cons, zlen_nil in Hl; pose proof (zlen_nonneg literal); lia|].
  rewrite !zlen_cons in Hl. cbn [StartsWith app]. by rewrite IH by lia.
Qed.

Lemma StartsWith_short u literal : zlen u < zlen literal -> StartsWith u literal = false.
Proof.
  revert u. induction literal as [|p literal IH]; intros u Hl; [rewrite zlen_nil in Hl; pose proof (zlen_nonneg u); lia|].
  destruct u as [|c u]; [done|]. rewrite !zlen_cons in Hl. cbn [StartsWith]. rewrite IH by lia. by rewrite andb_false_r.
Qed.

(** With the bytes of a literal in the buffer: is it the literal? *)
Lemma literal_wp j x f literal s :
  related j x f -> 0 < zlen literal -> buffered j (zlen literal) (stream x) true s ->
  zlen literal <= zlen (Flat.bytes f) /\ StartsWith (unread s) literal = StartsWith (Flat.bytes f) literal /\
  (exists c l, Flat.bytes f = c :: l) /\ rest s = Flat.bytes f.
Proof.
  intros [_ Hrest _ _] Hl (HL & _ & Hu & Ha & _). pose proof (advanced_rest _ _ _ _ Ha) as Er.
  rewrite zdrop_0, Hrest in Er by lia. pose proof Er as Er'. unfold rest in Er. rewrite <- Er, zlen_app, StartsWith_app by done.
  pose proof (zlen_nonneg (if eof_ s then [] else content (stream_ s))). split_and!; [lia|done| |by rewrite Er].
  destruct (unread s) as [|c l]; [rewrite zlen_nil in Hu; lia|by eexists _, _].
Qed.

(** Past the literal, and then without the guard. *)
Lemma literal_advance_wp k j x0 x f n s :
  went k j x0 x f -> 0 < n -> buffered j n (stream x) true s ->
  wp (Advance n) (mk_lexer s (options_ x) (json_loc_ x)) (fun r x1 => r = ok tt /\
    wp (on_stream DownRefBuffer) x1 (fun _ x' => went k j x0 x' (Flat.advance n f) /\ eof_ (stream x') = false)).
Proof.
  intros Hw Hn (HL & Hnear & Hu & Ha & He & _). pose proof Hw as [Hr _ _]. unfold Advance.
  apply wp_bind, lexer_stream_wp. cbn [stream options_ json_loc_].
  wp_use (stream_Advance_wp (j + 1)); [exact HL|eapply near_weaken; [|exact Hnear]; lia|lia|].
  intros r s2 (-> & HI2 & Ha2 & He2 & _). cbn [negb]. apply wp_bind, wp_gets. cbn [json_loc_].
  apply wp_bind, wp_modS, wp_ret. split; [done|]. apply lexer_stream_wp. cbn [stream options_ json_loc_].
  pose proof (related_nonneg _ _ _ Hr). wp_use (DownRefBuffer_wp (S := S) j); [exact HI2|done|].
  intros [] s3 [HI3 [_ Ha3 _ _ He3 _]]. split; [|cbn [stream]; congruence].
  assert (advanced j n (stream x) s3) as Hadv.
  { eapply advanced_same; [lia|exact Ha|]. eapply advanced_end; [lia|by apply advanced_up|done]. }
  destruct (related_stream _ j j n _ _ s3 Hr HI3 Hadv ltac:(lia)) as [Hr' Hm]. eapply went_step; [done| |exact Hm].
  rewrite (related_loc _ _ _ Hr). destruct Hr'. by split.
Qed.

Lemma sim_Expect k j x0 x f literal :
  went k j x0 x f -> 0 < zlen literal ->
  sim j (fun _ _ x' f' => went k j x0 x' f' /\ eof_ (stream x') = false) (Expect literal) (Flat.Expect literal) x f.
Proof.
  intros Hw Hl. unfold Expect, Flat.Expect. eapply sim_bind; [by eapply sim_SkipToToken|].
  intros [] [] x1 f1 (Hw1 & -> & Hp & c & l & El). eapply sim_right; [reflexivity|].
  pose proof Hw1 as [Hr1 _ _]. pose proof Hr1 as [HI1 Hrest1 Hloc1 _]. apply sim_left, lexer_stream_wp.
  wp_use BufferAtLeast_wp; [exact HI1|by left|]. intros b s Hb. destruct b; cbn [negb]; cycle 1.
  { destruct Hb as (Hs & _ & Hbr & _). rewrite Hrest1 in Hs. destruct (Z.ltb_spec (zlen (Flat.bytes (Flat.skip f))) (zlen literal)); [|lia].
    by apply sim_err. }
  destruct (literal_wp _ _ _ _ _ Hr1 Hl Hb) as (Hlen & ES & _ & Ers). destruct (Z.ltb_spec (zlen (Flat.bytes (Flat.skip f))) (zlen literal)); [lia|].
  pose proof Hb as (HL & _ & Hu & _ & He & _). apply sim_left, lexer_stream_wp. eapply Unread_wp; [exact HL|]. cbn [stream options_ json_loc_]. rewrite ES.
  destruct (StartsWith (Flat.bytes (Flat.skip f)) _) eqn:Est in |- *; cbn [negb].
  - unfold sim. apply wp_bind. wp_use literal_advance_wp; [exact Hw1|done|exact Hb|]. intros r x2 [-> Hdown].
    apply wp_bind. eapply wp_mono; [exact Hdown|]. intros [] x' Hw2. apply wp_ret. eexists (ok tt), _. split; [reflexivity|done].
  - apply wp_bind, wp_bind, lexer_stream_wp. eapply PeekChar_wp; [exact HL|etrans; [exact Ers|exact El]|cbn [stream]; lia|].
    apply wp_bind, wp_gets, wp_ret, wp_bind, lexer_stream_wp. cbn [stream json_loc_].
    wp_use (DownRefBuffer_broken (S := S) j); [by eapply Loose_broken|by eapply related_nonneg|]. intros [] s2 [Hbr _]. apply wp_ret.
    unfold Flat.first, Flat.invalid, mbind_, gets, mret_. rewrite El. eexists (err _), _. split; [reflexivity|]. by rewrite Hloc1.
Qed.

Lemma flat_Peek literal f :
  Flat.Peek literal f = Some (if StartsWith (Flat.bytes (Flat.skip f)) literal
    then (true, Flat.advance (zlen literal) (Flat.skip f)) else (false, Flat.skip f)).
Proof. unfold Flat.Peek, mbind_, modS, gets, mret_. by destruct (StartsWith _ _). Qed.

(** [Peek] of one character. *)
Lemma Peek_wp k j x0 x f c :
  went k j x0 x f ->
  wp (Peek [c]) x (fun b x' => exists f', Flat.Peek [c] f = Some (b, f') /\ went k j x0 x' f').
Proof.
  intros Hw. unfold Peek. apply wp_bind. wp_use lexer_SkipToToken_wp; [exact Hw|]. intros r x1 [Hw1 _].
  rewrite flat_Peek. pose proof Hw1 as [Hr1 _ _]. pose proof Hr1 as [HI1 Hrest1 Hloc1 _]. apply wp_bind, lexer_stream_wp.
  pose proof (related_nonneg _ _ _ Hr1).
  wp_use BufferAtLeast_wp; [exact HI1|left; reflexivity|]. intros b s Hb. apply wp_bind, lexer_stream_wp. destruct b.
  - destruct (literal_wp _ _ _ [c] _ Hr1 ltac:(done) Hb) as (Hlen & ES & _ & Ers). pose proof Hb as (HL & Hn & Hu & Ha & He & _).
    eapply Unread_wp; [exact HL|]. cbn [stream options_ json_loc_]. rewrite ES. destruct (StartsWith (Flat.bytes (Flat.skip f)) _) eqn:Est in |- *; cbn [negb].
    + apply wp_bind, wp_bind. wp_use (literal_advance_wp k j x0 x1 (Flat.skip f) 1); [done|done|exact Hb|].
      intros r2 x2 [-> Hdown]. apply wp_ret, wp_bind. eapply wp_mono; [exact Hdown|]. intros [] x' [Hw' _]. apply wp_ret.
      eexists. split; [reflexivity|done].
    + apply wp_bind, wp_ret, wp_bind, lexer_stream_wp. cbn [release_guard]. cbn [stream].
      wp_use (DownRefBuffer_wp (S := S) j); [by split|done|]. intros [] s2 [HI2 Hk2]; pose proof (kept_advanced _ _ _ _ Hk2) as Ha2. apply wp_ret.
      eexists. split; [reflexivity|]. 
      destruct (related_same _ j j _ _ s2 Hr1 HI2) as [Hr2 Hm2]; [by eapply advanced_same|]. by eapply went_step.
  - destruct Hb as (Hs & He & _ & Hb). destruct (Hb eq_refl) as [HI2 Ha2].
    destruct (related_same _ j j _ _ s Hr1 HI2 Ha2) as [Hr2 Hm2]. 
    eapply Unread_wp; [apply HI2|]. cbn [stream options_ json_loc_]. rewrite Hrest1 in Hs. change (zlen [c]) with 1 in Hs.
    rewrite (zlen_0 (Flat.bytes (Flat.skip f))) by lia. rewrite (loose_eof _ _ (inv_loose _ _ HI2) He). cbn [StartsWith negb].
    apply wp_bind, wp_ret, wp_bind, lexer_stream_wp, wp_ret, wp_ret. eexists. split; [reflexivity|]. by eapply went_step.
Qed.

Lemma sim_PeekKind k j x0 x f :
  went k j x0 x f ->
  sim j (fun a b x' f' => a = b /\ went k j x0 x' f' /\ eof_ (stream x') = false /\ f' = Flat.skip f /\
           exists c l, Flat.bytes f' = c :: l /\ kind_of c = Some a) PeekKind Flat.PeekKind x f.
Proof.
  intros Hw. unfold PeekKind, Flat.PeekKind. eapply sim_bind; [by eapply sim_SkipToToken|].
  intros [] [] x1 f1 (Hw1 & Ef & Hp & c & l & El). eapply sim_first; [exact Hw1|done|exact El|].
  destruct (kind_of c) as [kind|] eqn:Ek; [|eapply sim_invalid, Hw1]. apply sim_ok. destruct Hp. split_and!; try done. by exists c, l.
Qed.

Lemma sim_Push k j x0 x f : went k j x0 x f -> sim j (back k j x0) Push Flat.Push x f.
Proof.
  intros [Hr Hm Hle]. unfold Push, Flat.Push. apply sim_left, wp_gets. eapply sim_right; [reflexivity|].
  rewrite (related_options _ _ _ Hr). destruct (_ =? 0); [eapply sim_invalid, Hr|].
  apply sim_left, wp_modS. eapply sim_right; [reflexivity|]. apply sim_ok. split; [|done..].
  destruct Hr as [? ? ? Ho]. split; simpl; try done. by rewrite Ho.
Qed.

Lemma lexer_Pop_wp k j x0 x f :
  went k j x0 x f -> wp Pop x (fun _ x' => exists f', Flat.Pop f = Some (tt, f') /\ went k j x0 x' f').
Proof.
  intros [Hr Hm Hle]. unfold Pop. apply wp_bind, wp_gets, wp_modS. eexists. split; [reflexivity|]. split; [|done..].
  destruct Hr as [? ? ? Ho]. split; simpl; try done. by rewrite Ho.
Qed.

(** ** Strings in the stream *)

Lemma stream_Take_wp k j x0 x f len :
  went k j x0 x f -> 0 <= len -> 0 < len \/ eof_ (stream x) = false ->
  wp (on_stream (JsonStream.Take len)) x (fun r x' =>
    match r with
    | Some m => len <= zlen (Flat.bytes f) /\ went k (j + holds m) x0 x' (Flat.drop len f) /\ holds m <= 1 /\
                shows (stream x') m (ztake len (Flat.bytes f)) /\ advanced j len (stream x) (stream x') /\
                eof_ (stream x') = false /\ 0 <= k <= j
    | None => zlen (Flat.bytes f) < len /\ broken j (stream x')
    end).
Proof.
  intros [Hr Hm Hle] Hl He. pose proof Hr as [HI Hrest _ _]. apply lexer_stream_wp. wp_use buffered_Take_wp; [exact HI|done|done|].
  intros [m|] s Ht; unfold took in Ht; rewrite Hrest in Ht; [|done]. destruct Ht as (HI' & Hh & Ha & Hs & Hlen & He').
  destruct (related_stream _ (j + holds m) j _ _ _ s Hr HI' Ha Hl) as [Hr' Hm']. split_and!; try done; try lia.
  split; [done| |destruct m; simpl; lia]. eapply lexer_moved_trans; [exact Hm|]. eapply moved_up; [|done]. lia.
Qed.

Lemma view_wp j x f m l Q :
  related j x f -> holds m <= j -> shows (stream x) m l -> Q l x -> wp (on_stream (AsView m)) x Q.
Proof. intros [[HL _] _ _ _] Hh Hs HQ. apply lexer_stream_wp. eapply AsView_wp; [exact HL|done|done|]. by destruct x. Qed.

Lemma string_destroy_wp k j x0 x f m :
  went k (j + holds m) x0 x f -> 0 <= k <= j ->
  wp (on_stream (destroy m)) x (fun _ x' => went k j x0 x' f /\ eof_ (stream x') = eof_ (stream x) /\
    advanced j 0 (stream x) (stream x')).
Proof.
  intros [Hr Hm _] Hk. apply lexer_stream_wp. wp_use (guard_destroy_wp (S := S) j); [apply Hr|lia|].
  intros [] s (HI' & Ha & He). destruct (related_same _ j j _ _ s Hr HI' Ha) as [Hr' Hm']. split; [|done].
  split; [done| |done]. eapply lexer_moved_trans; [exact Hm|]. eapply moved_up; [|exact Hm']. lia.
Qed.

Lemma destroy_broken j x m :
  broken (j + holds m) (stream x) -> 0 <= j -> wp (on_stream (destroy m)) x (fun _ x' => broken j (stream x')).
Proof.
  intros Hb Hj. apply lexer_stream_wp. destruct m; simpl in *.
  - apply wp_ret. by rewrite Z.add_0_r in Hb.
  - wp_use (DownRefBuffer_broken (S := S) j); [done|done|]. by intros [] s [Hbr _].
Qed.

(** [Take] of the lexer, for a view that is used at once. *)
Lemma sim_ParseU16HexCodepoint k j x0 x f :
  went k j x0 x f ->
  sim j (fun a b x' f' => a = b /\ went k j x0 x' f' /\ eof_ (stream x') = false)
    ParseU16HexCodepoint Flat.ParseU16HexCodepoint x f.
Proof.
  intros Hw. unfold ParseU16HexCodepoint, Flat.ParseU16HexCodepoint, Take, Flat.Take.
  eapply sim_left, wp_bind, wp_gets, wp_bind. wp_use stream_Take_wp; [exact Hw|done|by left|].
  intros [m|] x1; cycle 1.
  { intros [Hs Hb]. apply wp_ret. eapply sim_right_err; [|done]. unfold mbind_, gets. by destruct (Z.ltb_spec (zlen (Flat.bytes f)) 4); [|lia]. }
  intros (Hlen & Hw1 & Hh & Hs & _ & He & Hkj). apply wp_ret. apply sim_left.
  eapply view_wp; [apply Hw1|lia|exact Hs|].
  eapply (sim_right _ _ _ _ _ (ok (ztake 4 (Flat.bytes f))) (Flat.drop 4 f)).
  { unfold mbind_, gets. by destruct (Z.ltb_spec (zlen (Flat.bytes f)) 4); [lia|]. }
  apply sim_left. destruct (hex_value 0 _) as [value|].
  - apply wp_ret. apply sim_left. wp_use string_destroy_wp; [exact Hw1|done|]. intros [] x2 (Hw2 & He2 & _).
    apply sim_ok. split_and!; [done|done|congruence].
  - apply wp_bind, wp_gets, wp_ret. apply sim_left. eapply wp_mono; [apply (destroy_broken j)|].
    + eapply related_broken, Hw1.
    + lia.
    + cbv beta. intros [] x2 Hb. apply wp_ret. eexists (err _), _. split; [reflexivity|]. by rewrite (related_loc _ _ _ (went_related _ _ _ _ _ Hw1)).
Qed.

(** The end of an escape. *)
Lemma sim_write k j x0 x f rune :
  went k j x0 x f -> eof_ (stream x) = false ->
  sim j (fun a b x' f' => a = b /\ a <> [] /\ went k j x0 x' f' /\ eof_ (stream x') = false)
    (match utf8_of rune with Some utf8 => ret (ok utf8) | None => invalid invalid_codepoint end)
    (match utf8_of rune with Some utf8 => ret (ok utf8) | None => Flat.invalid invalid_codepoint end) x f.
Proof.
  intros Hw He. destruct (utf8_of rune) as [utf8|] eqn:Eu; [|eapply sim_invalid, Hw].
  apply sim_ok. split; [done|]. split; [|done]. intros ->. unfold utf8_of in Eu. repeat case_match; done.
Qed.

Lemma sim_ParseUnicodeEscape k j x0 x f :
  went k j x0 x f ->
  sim j (fun a b x' f' => a = b /\ a <> [] /\ went k j x0 x' f' /\ eof_ (stream x') = false)
    ParseUnicodeEscape Flat.ParseUnicodeEscape x f.
Proof.
  intros Hw. unfold ParseUnicodeEscape, Flat.ParseUnicodeEscape. eapply sim_bind; [by eapply sim_ParseU16HexCodepoint|].
  intros hex hex' x1 f1 (<- & Hw1 & He1). cbv zeta. destruct (_ && _).
  - eapply sim_bind; [eapply sim_Expect; [exact Hw1|done]|]. intros [] [] x2 f2 [Hw2 _].
    eapply sim_bind; [by eapply sim_ParseU16HexCodepoint|]. intros low low' x3 f3 (<- & Hw3 & He3).
    destruct (_ || _); [eapply sim_invalid, Hw3|by apply sim_write].
  - destruct (_ && _); [eapply sim_invalid, Hw1|by apply sim_write].
Qed.

Lemma legacy_wp j x f Q : related j x f -> Q (allow_legacy_syntax (Flat.options f)) x -> wp legacy x Q.
Proof. intros Hr HQ. apply wp_gets. by rewrite (related_options _ _ _ Hr). Qed.

(** The options that both have. *)
Lemma sim_legacy {A B} j x f (R : A -> B -> lexer -> Flat.t -> Prop) mk Fk :
  related j x f -> sim j R (mk (allow_legacy_syntax (Flat.options f))) (Fk (allow_legacy_syntax (Flat.options f))) x f ->
  sim j R (let* b := legacy in mk b) (let* b := Flat.legacy in Fk b) x f.
Proof.
  intros Hr Hs. apply sim_left. eapply legacy_wp; [exact Hr|]. eapply sim_right; [reflexivity|exact Hs].
Qed.

Lemma sim_buffer_one k j x0 x f :
  went k j x0 x f ->
  sim j (fun _ _ x' f' => went k j x0 x' f' /\ f' = f /\ peekable x' /\ advanced j 0 (stream x) (stream x') /\
           exists c l, Flat.bytes f' = c :: l) buffer_one Flat.some_left x f.
Proof.
  intros Hw. unfold sim. wp_use buffer_one_wp; [exact Hw|]. intros r x' (Hw' & Ha & Hb).
  unfold Flat.some_left, mbind_, gets, mret_. eexists _, f. split; [reflexivity|].
  destruct (Flat.bytes f) as [|c l].
  - subst r. split; [done|]. eapply related_broken, Hw'.
  - destruct Hb as [-> Hp]. split_and!; [done|done|done|done|by exists c, l].
Qed.

(** The result is put together by the lexer alone. *)
Lemma sim_map {A B A'} k (R : A -> B -> lexer -> Flat.t -> Prop) (R' : A' -> B -> lexer -> Flat.t -> Prop) m F (g : A -> A') x f :
  sim k R m F x f -> (forall a b x' f', R a b x' f' -> R' (g a) b x' f') -> sim k R' (try* a := m in ret (ok (g a))) F x f.
Proof.
  intros Hs HR. apply wp_bind. eapply wp_mono; [exact Hs|]. cbv beta. intros ra x' (rb & f' & E & Hr).
  destruct ra as [a|e]; apply wp_ret; exists rb, f'; (split; [done|]); destruct rb; auto.
Qed.

(** A byte that is taken. *)
Lemma sim_taken {A B} k j x0 x f c l (R : A -> B -> lexer -> Flat.t -> Prop) (mk : M lexer (result A)) Fk :
  went k j x0 x f -> peekable x -> Flat.bytes f = c :: l ->
  (forall x', went k j x0 x' (Flat.advance 1 f) -> eof_ (stream x') = false -> advanced j 1 (stream x) (stream x') ->
     sim j R mk Fk x' (Flat.advance 1 f)) ->
  sim j R (try* _ := Advance 1 in mk) (modS (Flat.advance 1) ;;; Fk) x f.
Proof.
  intros Hw Hp El Hs. apply sim_left. wp_use Advance_peeked; [exact Hw|done|exact El|].
  intros r x1 (-> & Hw1 & _ & He1 & Ha1). eapply sim_right; [reflexivity|]. by apply Hs.
Qed.

Lemma sim_string_escape k j x0 x f on_heap :
  went k j x0 x f ->
  sim j (fun a b x' f' => a = on_heap ++ b /\ b <> [] /\ went k j x0 x' f')
    (string_escape on_heap) Flat.string_escape x f.
Proof.
  intros Hw. unfold string_escape, Flat.string_escape. eapply sim_bind; [by eapply sim_buffer_one|].
  intros [] [] x1 f1 (Hw1 & -> & Hp1 & _ & c & l & El). eapply sim_first; [exact Hw1|done|exact El|].
  eapply sim_taken; [exact Hw1|done|exact El|]. intros x2 Hw2 He2 _. eapply sim_legacy; [apply Hw2|]. cbn [Flat.options].
  destruct (_ || _).
  - eapply sim_map; [by eapply sim_ParseUnicodeEscape|]. by intros a b x' f' (<- & ? & ? & _).
  - cbv zeta. destruct (is_ch 0 _); [eapply sim_invalid, Hw2|by apply sim_ok].
Qed.

(** Another character. With nothing on the heap the bytes are under the mark. *)
Lemma sim_string_character k j x0 x f on_heap c :
  went k j x0 x f -> eof_ (stream x) = false ->
  sim j (fun a b x' f' => a = match on_heap with [] => [] | _ :: _ => on_heap ++ b end /\ went k j x0 x' f' /\
           exists n, 0 <= n <= zlen (Flat.bytes f) /\ b = c :: ztake n (Flat.bytes f) /\ advanced j n (stream x) (stream x'))
    (string_character on_heap c) (Flat.string_character c) x f.
Proof.
  intros Hw He. unfold string_character, Flat.string_character. cbv zeta. eapply sim_legacy; [apply Hw|].
  destruct (_ && _); [eapply sim_invalid, Hw|].
  destruct (lookahead_of (b2z c)) as [n|] eqn:En; [|eapply sim_invalid, Hw].
  assert (0 <= n) as Hn by (unfold lookahead_of in En; repeat case_match; simplify_eq/=; lia).
  apply sim_left. wp_use stream_Take_wp; [exact Hw|done|by right|]. unfold Flat.Take. intros [m|] x1; cycle 1.
  { intros [Hs Hb]. apply wp_ret. eexists (err _), _. unfold mbind_, gets.
    destruct (Z.ltb_spec (zlen (Flat.bytes f)) n); [|lia]. split; [reflexivity|done]. }
  intros (Hlen & Hw1 & Hh & Hs & Ha & _ & Hkj). apply sim_left. eapply view_wp; [apply Hw1|lia|exact Hs|].
  apply sim_left. wp_use string_destroy_wp; [exact Hw1|done|]. intros [] x2 (Hw2 & _ & Ha2).
  apply wp_ret. unfold mbind_, gets. destruct (Z.ltb_spec (zlen (Flat.bytes f)) n); [lia|].
  eexists (ok _), _. split; [reflexivity|]. split_and!; [|done|].
  - destruct on_heap; [done|]. cbn [app]. by rewrite <- app_assoc.
  - exists n. split; [done|]. split; [done|]. by eapply advanced_end.
Qed.

(** ** Strings *)

Definition guards (mark : option Z) : Z := match mark with Some _ => 1 | None => 0 end.

(** What has been read since the offset [m]. *)
Definition marked x (m : Z) (l : list byte) : Prop :=
  buffer_start_ (stream x) <= m <= cursor_ (stream x) /\ text (stream x) m = l.

(** The text so far is on the heap or under the mark. *)
Definition string_state (on_heap : list byte) (mark : option Z) (l : list byte) x : Prop :=
  match mark with Some m => on_heap = [] /\ marked x m l | None => on_heap = l /\ l <> [] end.

Lemma marked_advanced j n x x' m l :
  0 < j -> 0 <= n -> marked x m l -> advanced j n (stream x) (stream x') -> marked x' m (l ++ ztake n (rest (stream x))).
Proof. intros Hj Hn [Hm <-] [_ Ha]. destruct (Ha Hj) as (Ec & Eb & Et). split; [lia|]. by apply Et. Qed.

Lemma release_mark_wp k j x0 x f mark :
  went k (j + guards mark) x0 x f -> 0 <= k <= j ->
  wp (release_mark mark) x (fun _ x' => went k j x0 x' f /\ eof_ (stream x') = eof_ (stream x) /\
    advanced j 0 (stream x) (stream x')).
Proof.
  intros Hw Hk. destruct mark as [m|].
  - apply (string_destroy_wp k j x0 x f (stream_owned m 0)); done.
  - apply wp_ret. simpl in Hw. rewrite Z.add_0_r in Hw. split; [done|]. split; [done|apply advanced_refl].
Qed.

Lemma release_mark_broken j x mark :
  broken (j + guards mark) (stream x) -> 0 <= j -> wp (release_mark mark) x (fun _ x' => broken j (stream x')).
Proof.
  intros Hb Hj. destruct mark as [m|].
  - by apply (destroy_broken j x (stream_owned m 0)).
  - apply wp_ret. simpl in Hb. by rewrite Z.add_0_r in Hb.
Qed.

Lemma up_to_unread_wp k j x0 x f m l c :
  went k (j + 1) x0 x f -> 0 <= k <= j -> marked x m (l ++ [c]) ->
  wp (up_to_unread (Some m)) x (fun s x' => went k (j + 1 + holds s) x0 x' f /\ holds s = 1 /\ shows (stream x') s l /\
    advanced (j + 1) 0 (stream x) (stream x') /\ eof_ (stream x') = eof_ (stream x)).
Proof.
  intros [Hr Hm Hle] Hk [Hmark Ht]. apply lexer_stream_wp.
  wp_use (UpToUnread_wp (S := S) (j + 1)); [apply Hr|lia|lia|exact Hmark|exact Ht|done|].
  intros s st (Hh & HI & Ha & He & Hs). destruct (related_same _ (j + 1 + holds s) (j + 1) _ _ st Hr) as [Hr' Hm'];
    [by rewrite Hh|done|]. split_and!; try done. split; [done| |lia].
  eapply lexer_moved_trans; [exact Hm|]. eapply moved_up; [|done]. lia.
Qed.

(** A string with its guard. *)
Definition string_post (k j : Z) x0 (a : LocationWith MaybeOwnedString) (b : LocationWith (list byte)) x f : Prop :=
  snd a = snd b /\ went k (j + holds (fst a)) x0 x f /\ holds (fst a) <= 1 /\ shows (stream x) (fst a) (fst b).

Lemma sim_close_string k j x0 x f loc on_heap mark l c :
  went k (j + guards mark) x0 x f -> 0 <= k <= j ->
  string_state on_heap mark (match mark with Some _ => l ++ [c] | None => l end) x ->
  sim j (string_post k j x0) (let* r := close_string loc on_heap mark in release_mark mark ;;; ret r)
    (if IsStructurallyValid l then ret (ok (l, loc)) else Flat.invalid invalid_utf8_string) x f.
Proof.
  intros Hw Hk Hs. unfold close_string.
  assert (wp (match on_heap with [] => up_to_unread mark | _ :: _ => ret (owned on_heap) end) x (fun s x' =>
    went k (j + guards mark + holds s) x0 x' f /\ holds s <= 1 /\ shows (stream x') s l)) as Hvalue.
  { destruct mark as [m|]; cbn [string_state guards] in *.
    - destruct Hs as [-> Hm]. wp_use up_to_unread_wp; [exact Hw|done|exact Hm|].
      intros s x' (Hw' & Hh & Hsh & _). split_and!; [done|lia|done].
    - destruct Hs as [-> Hne]. destruct l; [done|]. apply wp_ret. cbn [holds]. by rewrite !Z.add_0_r in *. }
  apply sim_left, wp_bind. eapply wp_mono; [exact Hvalue|]. cbv beta. intros s x1 (Hw1 & Hh & Hsh).
  apply wp_bind. eapply view_wp; [apply Hw1|destruct mark; simpl; lia|exact Hsh|].
  destruct (IsStructurallyValid l).
  - apply wp_ret, sim_left.
    wp_use (release_mark_wp k (j + holds s)); [|destruct s; simpl; lia|].
    { by rewrite <- Z.add_assoc, (Z.add_comm (holds s)), Z.add_assoc. }
    intros [] x2 (Hw2 & _ & Ha2). apply sim_ok. split_and!; [done|done|done|]. cbn [fst].
    eapply moved_shows; [apply Hw1| |exists 0; split; [done|exact Ha2]|exact Hsh]. destruct mark; simpl; lia.
  - apply wp_bind, wp_bind, wp_gets, wp_ret, wp_bind.
    wp_use string_destroy_wp; [exact Hw1|destruct mark; simpl; lia|]. intros [] x2 (Hw2 & _ & _).
    apply wp_ret, sim_left. wp_use release_mark_wp; [exact Hw2|done|]. intros [] x3 (Hw3 & _ & _).
    apply wp_ret. eexists (err _), _. split; [reflexivity|]. rewrite (related_loc _ _ _ (went_related _ _ _ _ _ Hw1)).
    split; [done|]. eapply related_broken, Hw3.
Qed.

(** After a backslash all is on the heap. *)
Lemma start_heap_wp k j x0 x f on_heap mark l c :
  went k (j + guards mark) x0 x f -> 0 <= k <= j ->
  string_state on_heap mark (match mark with Some _ => l ++ [c] | None => l end) x ->
  wp (start_heap on_heap mark) x (fun r x' => r = (l, None) /\ went k j x0 x' f).
Proof.
  intros Hw Hk Hs. unfold start_heap. destruct mark as [m|]; cbn [string_state guards] in *.
  - destruct Hs as [-> Hm]. apply wp_bind. wp_use up_to_unread_wp; [exact Hw|done|exact Hm|].
    intros s x1 (Hw1 & Hh & Hsh & _). apply wp_bind. eapply view_wp; [apply Hw1|lia|exact Hsh|].
    apply wp_bind. wp_use string_destroy_wp; [exact Hw1|lia|]. intros [] x2 (Hw2 & _). apply wp_bind.
    wp_use (release_mark_wp k j x0 x2 f (Some m)); [done|done|]. intros [] x3 (Hw3 & _). by apply wp_ret.
  - destruct Hs as [-> Hne]. destruct l; [done|]. apply wp_ret. by rewrite Z.add_0_r in Hw.
Qed.

(** ** The loop of [ParseUtf8] *)
Lemma sim_ParseUtf8_loop k j x0 n nf x f loc quote on_heap mark l :
  went k (j + guards mark) x0 x f -> 0 <= k <= j -> string_state on_heap mark l x ->
  zlen (Flat.bytes f) < Z.of_nat n -> zlen (Flat.bytes f) < Z.of_nat nf ->
  sim j (string_post k j x0) (ParseUtf8_loop n loc quote on_heap mark) (Flat.ParseUtf8_loop nf loc quote l) x f.
Proof.
  revert nf x f on_heap mark l. induction n as [|n IH]; intros nf x f on_heap mark l Hw Hk Hs Hn Hnf;
    [pose proof (zlen_nonneg (Flat.bytes f)); lia|].
  destruct nf as [|nf]; [pose proof (zlen_nonneg (Flat.bytes f)); lia|].
  cbn [ParseUtf8_loop Flat.ParseUtf8_loop].
  assert (forall x', broken (j + guards mark) (stream x') -> wp (release_mark mark) x' (fun _ x2 => broken j (stream x2))) as Hrel.
  { intros x' Hb. apply release_mark_broken; [done|lia]. }
  eapply sim_bind_after; [by eapply sim_buffer_one|exact Hrel|]. intros [] [] x1 f1 (Hw1 & -> & Hp1 & Ha1 & c & r & El).
  assert (rest (stream x1) = c :: r) as Er by (rewrite <- El; apply Hw1).
  eapply sim_first; [exact Hw1|done|exact El|]. apply sim_left. wp_use Advance_peeked; [exact Hw1|done|exact El|].
  intros ok_ x2 (-> & Hw2 & El2 & He2 & Ha2). eapply sim_right; [reflexivity|].
  rewrite El, zlen_cons in *.
  assert (string_state on_heap mark (match mark with Some _ => l ++ [c] | None => l end) x2) as Hs2.
  { destruct mark as [m|]; cbn [string_state guards] in *; [|done]. destruct Hs as [-> Hm]. split; [done|].
    pose proof (marked_advanced (j + 1) 0 _ _ _ _ ltac:(lia) ltac:(lia) Hm Ha1) as Hm1. rewrite ztake_0, app_nil_r in Hm1 by lia.
    pose proof (marked_advanced (j + 1) 1 _ _ _ _ ltac:(lia) ltac:(lia) Hm1 Ha2) as Hm2.
    by rewrite Er, ztake_cons, ztake_0 in Hm2 by lia. }
  destruct (is_ch quote c); [by eapply sim_close_string|]. destruct (is_ch 0x5C c).
  - apply sim_left. wp_use start_heap_wp; [exact Hw2|done|exact Hs2|]. intros [h m] x3 [[= -> ->] Hw3].
    eapply (sim_bind_after _ 0); [rewrite Z.add_0_r; by eapply sim_string_escape, went_refl, Hw3| |].
    { intros x' Hb. apply wp_ret. by rewrite Z.add_0_r in Hb. }
    intros a b x4 f4 (-> & Hne & Hw4). destruct (went_trans _ _ _ _ _ _ _ _ Hw3 Hw4) as [Hw5 Hz]. rewrite El2 in Hz.
    apply IH; [by rewrite Z.add_0_r|done| |lia|lia]. split; [done|]. destruct b; [done|by destruct l].
  - eapply sim_bind_after; [eapply sim_string_character; [eapply went_refl, Hw2|done]|exact Hrel|].
    intros a b x3 f3 (-> & Hw3 & n2 & Hn2 & -> & Ha3). destruct (went_trans _ _ _ _ _ _ _ _ Hw2 Hw3) as [Hw4 Hz].
    rewrite El2 in Hz. apply IH; [exact Hw4|done| |lia|lia]. destruct mark as [m|]; cbn [string_state guards] in *.
    + destruct Hs2 as [-> Hm2]. split; [done|].
      pose proof (marked_advanced (j + 1) n2 _ _ _ _ ltac:(lia) ltac:(lia) Hm2 Ha3) as Hm3.
      by rewrite (related_rest _ _ _ (went_related _ _ _ _ _ Hw2)), <- app_assoc in Hm3.
    + destruct Hs2 as [-> Hne]. destruct l; [done|]. split; [done|]. by destruct l.
Qed.

Lemma sim_ParseUtf8 k j x0 x f : went k j x0 x f -> sim j (string_post k j x0) ParseUtf8 Flat.ParseUtf8 x f.
Proof.
  intros Hw. unfold ParseUtf8, Flat.ParseUtf8. eapply sim_bind; [by eapply sim_SkipToToken|].
  intros [] [] x1 f1 (Hw1 & _ & Hp1 & c & l & El). eapply sim_first; [exact Hw1|done|exact El|]. cbv zeta.
  eapply sim_legacy; [apply Hw1|]. destruct (_ && _); [eapply sim_invalid, Hw1|].
  apply sim_left, wp_gets. eapply sim_right; [reflexivity|]. rewrite (related_loc _ _ _ (went_related _ _ _ _ _ Hw1)).
  eapply sim_bind; [by eapply sim_Expect|]. intros [] [] x2 f2 [Hw2 He2]. pose proof Hw2 as [Hr2 Hm2 Hle].
  apply sim_left, lexer_stream_wp. wp_use (BeginMark_wp (S := S) j); [apply Hr2|done|]. intros m s (HI & Ha & He & Hmark & Ht).
  destruct (related_same _ (j + 1) j _ _ s Hr2 HI Ha) as [Hr3 Hm3]. set (x3 := mk_lexer s _ _) in *.
  assert (went k (j + 1) x0 x3 f2) as Hw3.
  { split; [done| |lia]. eapply lexer_moved_trans; [exact Hm2|]. eapply moved_up; [|exact Hm3]. lia. }
  apply sim_left, wp_getS. eapply sim_right; [reflexivity|].
  apply sim_ParseUtf8_loop; [done|done|done| |unfold zlen; lia]. pose proof (bytes_left_ok _ _ _ _ _ Hw3). lia.
Qed.

(** A string that is not used. *)
Lemma sim_drop_string k j x0 (m : M lexer (result (LocationWith MaybeOwnedString))) F x f :
  0 <= k <= j -> sim j (string_post k j x0) m F x f ->
  sim j (back k j x0) (try* (value, _) := m in on_stream (destroy value) ;;; ret (ok tt)) (try* _ := F in ret (ok tt)) x f.
Proof.
  intros Hk Hs. eapply sim_bind; [exact Hs|]. intros [value loc] b x1 f1 (_ & Hw1 & _). apply sim_left.
  wp_use string_destroy_wp; [exact Hw1|done|]. intros [] x2 [Hw2 _]. by apply sim_ok.
Qed.

(** ** Numbers and words *)

Lemma lexer_TakeWhile_wp {X} (p : X -> Z -> byte -> bool * X) c k j x0 x f :
  went k j x0 x f -> eof_ (stream x) = false ->
  let l := taken_while p c 0 (Flat.bytes f) in
  wp (TakeWhile p c) x (fun r x' => exists m, r = ok (m, Flat.place f) /\ holds m = 1 /\ went k (j + 1) x0 x' (Flat.drop (zlen l) f) /\
    shows (stream x') m l).
Proof.
  intros Hw He. cbv zeta. pose proof Hw as [Hr Hm Hle]. pose proof Hr as [HI Hrest Hl _]. unfold TakeWhile.
  apply wp_bind, wp_gets, wp_bind, lexer_stream_wp. wp_use (stream_TakeWhile_wp p); [exact HI|done|].
  intros r s (m & -> & Hh & HI' & Ha & Hs). apply wp_ret. exists m. rewrite Hrest in Hs, Ha. split; [by rewrite Hl|]. split; [done|].
  split; [|done]. destruct (related_stream _ (j + 1) j _ _ _ s Hr HI' Ha) as [Hr' Hm']; [apply zlen_nonneg|].
  split; [done| |lia]. eapply lexer_moved_trans; [exact Hm|]. eapply moved_up; [|done]. lia.
Qed.

Lemma flat_TakeWhile {X} (p : X -> Z -> byte -> bool * X) c f :
  let l := taken_while p c 0 (Flat.bytes f) in
  Flat.TakeWhile p c f = Some ((l, Flat.place f), Flat.drop (zlen l) f).
Proof. done. Qed.

Lemma sim_after_number k j x0 x f : went k j x0 x f -> sim j (back k j x0) after_number Flat.after_number x f.
Proof.
  intros Hw. unfold after_number, Flat.after_number. pose proof Hw as [Hr _ _]. pose proof Hr as [HI Hrest _ _].
  apply sim_left, lexer_stream_wp. wp_use AtEof_wp; [exact HI|]. intros r s (HI' & Ha & ->).
  destruct (related_same _ j j _ _ s Hr HI' Ha) as [Hr1 Hm1].
  pose proof (went_step _ _ _ _ _ _ _ Hw Hr1 Hm1) as Hw1. rewrite Hrest. eapply sim_right; [reflexivity|].
  destruct (Flat.bytes f) as [|b l]; [by apply sim_ok|]. rewrite zlen_cons. pose proof (zlen_nonneg l).
  destruct (Z.eqb_spec (zlen l + 1) 0) as [?|_]; [lia|]. destruct (Z.eqb_spec (1 + zlen l) 0) as [?|_]; [lia|].
  eapply sim_bind; [by eapply sim_SkipToToken|].
  intros [] [] x2 f2 (Hw2 & _ & Hp2 & c & k2 & El). eapply sim_first; [exact Hw2|done|exact El|].
  destruct (_ || _); [by apply sim_ok|eapply sim_invalid, Hw2].
Qed.

Section number.
Context {D : Type} (SimpleAtod : list byte -> option D).

Lemma sim_ParseRawNumber k j x0 x f :
  went k j x0 x f ->
  sim j (string_post k j x0) (ParseRawNumber SimpleAtod) (Flat.ParseRawNumber SimpleAtod) x f.
Proof.
  intros Hw. unfold ParseRawNumber, Flat.ParseRawNumber. eapply sim_bind; [by eapply sim_SkipToToken|].
  intros [] [] x1 f1 (Hw1 & _ & [He1 _] & _). pose proof Hw1 as [_ _ Hle]. apply sim_left.
  wp_use (lexer_TakeWhile_wp number_char); [exact Hw1|done|]. intros r x2 (m & -> & Hh & Hw2 & Hs). eapply sim_right; [by apply flat_TakeWhile|].
  set (l := taken_while _ _ _ _) in *. set (f2 := Flat.drop _ _) in *. apply sim_left. eapply view_wp; [apply Hw2|lia|exact Hs|].
  destruct (number_error SimpleAtod l) as [message|].
  - apply sim_left. eapply wp_mono; [apply (destroy_broken j); [rewrite Hh; eapply related_broken, Hw2|lia]|].
    cbv beta. intros [] x3 Hb. by apply sim_err.
  - eapply (sim_bind_after j 1); [by eapply sim_after_number, went_refl, Hw2| |].
    { intros x' Hb. apply destroy_broken; [by rewrite Hh|lia]. }
    intros [] [] x3 f3 Hw3. destruct (went_trans _ _ _ _ _ _ _ _ Hw2 Hw3) as [Hw4 _]. apply sim_ok.
    split; [done|]. cbn [fst]. rewrite Hh. split; [done|]. split; [done|].
    eapply moved_shows; [apply Hw2| |apply Hw3|exact Hs]. lia.
Qed.

Lemma sim_ParseNumber k j x0 x f :
  went k j x0 x f ->
  sim j (fun a b x' f' => a = b /\ went k j x0 x' f') (ParseNumber SimpleAtod) (Flat.ParseNumber SimpleAtod) x f.
Proof.
  intros Hw. pose proof Hw as [_ _ Hle]. unfold ParseNumber, Flat.ParseNumber. eapply sim_bind; [by eapply sim_ParseRawNumber|].
  intros [m loc] [l loc'] x1 f1 (E & Hw1 & Hh & Hs). cbn [fst snd] in *. subst loc'. apply sim_left.
  eapply view_wp; [apply Hw1|lia|exact Hs|]. apply sim_left. wp_use string_destroy_wp; [exact Hw1|done|].
  intros [] x2 [Hw2 _]. destruct (SimpleAtod l); [by apply sim_ok|]. eapply sim_err, related_broken, Hw2.
Qed.
End number.

Lemma sim_ParseBareWord k j x0 x f :
  went k j x0 x f -> sim j (string_post k j x0) ParseBareWord Flat.ParseBareWord x f.
Proof.
  intros Hw. unfold ParseBareWord, Flat.ParseBareWord. eapply sim_bind; [by eapply sim_SkipToToken|].
  intros [] [] x1 f1 (Hw1 & _ & [He1 _] & _). pose proof Hw1 as [_ _ Hle]. apply sim_left.
  wp_use (lexer_TakeWhile_wp word_char); [exact Hw1|done|]. intros r x2 (m & -> & Hh & Hw2 & Hs). eapply sim_right; [by apply flat_TakeWhile|].
  set (l := taken_while _ _ _ _) in *. apply sim_left. eapply view_wp; [apply Hw2|lia|exact Hs|].
  destruct (is_bare_word l).
  - apply sim_ok. split; [done|]. cbn [fst]. rewrite Hh. by split.
  - apply sim_left. eapply wp_mono; [apply (destroy_broken j); [rewrite Hh; eapply related_broken, Hw2|lia]|].
    cbv beta. intros [] x3 Hb. by apply sim_err.
Qed.

(** ** Arrays and objects *)

Lemma sim_run {A B} k (R : A -> B -> lexer -> Flat.t -> Prop) m F x f :
  sim k R m F x f -> sim k (fun a b x' f' => R a b x' f' /\ F f = Some (ok b, f')) m F x f.
Proof.
  intros Hs. eapply wp_mono; [exact Hs|]. cbv beta. intros ra x' (rb & f' & E & Hr). exists rb, f'. split; [done|].
  by destruct ra, rb.
Qed.

Lemma skip_shorter f : zlen (Flat.bytes (Flat.skip f)) <= zlen (Flat.bytes f).
Proof.
  unfold Flat.skip. remember (Flat.bytes f) as l eqn:El. revert f El. induction l as [|c l IH]; intros f El; [cbn; by rewrite <- El|].
  assert (zdrop 1 (Flat.bytes f) = l) as Ed by by rewrite <- El, zdrop_cons, zdrop_0 by lia.
  cbn [Flat.skip_loop]. rewrite zlen_cons. repeat case_match.
  - etrans; [apply IH; simpl; by rewrite Ed|lia].
  - etrans; [apply IH; simpl; by rewrite Ed|lia].
  - rewrite <- El, zlen_cons. lia.
Qed.

Lemma Expect_shorter literal f f' :
  0 < zlen literal -> Flat.Expect literal f = Some (ok tt, f') -> zlen (Flat.bytes f') < zlen (Flat.bytes f).
Proof.
  intros Hl. unfold Flat.Expect, Flat.SkipToToken, Flat.some_left, Flat.first, Flat.invalid, mbind_, modS, gets, mret_.
  pose proof (skip_shorter f). destruct (Flat.bytes (Flat.skip f)) as [|c l] eqn:El; [done|]. rewrite El.
  destruct (Z.ltb_spec (zlen (c :: l)) (zlen literal)); [done|]. destruct (StartsWith _ _); [|by rewrite El].
  intros [= <-]. simpl. rewrite El, zlen_zdrop. lia.
Qed.

(** A call of [Peek] on both sides. *)
Lemma sim_Peek {A B} k i j x0 x f c (R : A -> B -> lexer -> Flat.t -> Prop) mk Fk :
  went k i x0 x f ->
  (forall b x' f', went k i x0 x' f' -> zlen (Flat.bytes f') + Z.b2z b <= zlen (Flat.bytes f) -> sim j R (mk b) (Fk b) x' f') ->
  sim j R (let* b := Peek [c] in mk b) (let* b := Flat.Peek [c] in Fk b) x f.
Proof.
  intros Hw Hs. apply sim_left. wp_use Peek_wp; [exact Hw|]. intros b x' (f' & E & Hw'). eapply sim_right; [exact E|].
  apply Hs; [done|]. rewrite flat_Peek in E. pose proof (skip_shorter f).
  destruct (Flat.bytes (Flat.skip f)) as [|d l] eqn:El; [injection E as <- <-; rewrite El; simpl; lia|].
  change (zlen [c]) with 1 in *. rewrite zlen_cons in *. pose proof (zlen_nonneg l).
  destruct (StartsWith _ _); injection E as <- <-;
    cbn [Flat.bytes Flat.advance Flat.set_place Flat.drop Z.b2z]; rewrite El, ?zlen_zdrop, ?zlen_cons; lia.
Qed.

Lemma sim_Pop {A B} k j x0 x f (R : A -> B -> lexer -> Flat.t -> Prop) mk Fk :
  went k j x0 x f -> (forall x' f', went k j x0 x' f' -> sim j R mk Fk x' f') ->
  sim j R (Pop ;;; mk) (Flat.Pop ;;; Fk) x f.
Proof.
  intros Hw Hs. apply sim_left. wp_use lexer_Pop_wp; [exact Hw|]. intros [] x' (f' & E & Hw'). eapply sim_right; [exact E|]. by apply Hs.
Qed.

(** The callbacks of both sides, where fewer than [N] bytes are left. *)
Definition callback (N : Z) (m : M lexer (result unit)) (F : M Flat.t (result unit)) : Prop :=
  forall k j x0 x f, went k j x0 x f -> zlen (Flat.bytes f) < N -> sim j (back k j x0) m F x f.

(** Rounds that are left. *)
Definition enough (has_comma : bool) f (n : nat) : Prop :=
  (if has_comma then zlen (Flat.bytes f) + 1 else 0) < Z.of_nat n.

Lemma enough_next has_comma has_comma' f f' n :
  enough has_comma f (Datatypes.S n) -> has_comma = true ->
  zlen (Flat.bytes f') + Z.b2z has_comma' <= zlen (Flat.bytes f) -> enough has_comma' f' n.
Proof.
  unfold enough. intros Hn -> Hz. pose proof (zlen_nonneg (Flat.bytes f)). pose proof (zlen_nonneg (Flat.bytes f')).
  destruct has_comma'; simpl in *; lia.
Qed.

Lemma sim_VisitArray_loop k j x0 N m F : callback N m F -> forall n nf has_comma x f,
  went k j x0 x f -> zlen (Flat.bytes f) < N -> enough has_comma f n -> enough has_comma f nf ->
  sim j (fun a b x' f' => a = b /\ went k j x0 x' f') (VisitArray_loop n m has_comma) (Flat.VisitArray_loop nf F has_comma) x f.
Proof.
  intros Hcall. induction n as [|n IH]; intros nf has_comma x f Hw HN Hn Hnf.
  { unfold enough in Hn. pose proof (zlen_nonneg (Flat.bytes f)). destruct has_comma; lia. }
  destruct nf as [|nf]; [unfold enough in Hnf; pose proof (zlen_nonneg (Flat.bytes f)); destruct has_comma; lia|].
  cbn [VisitArray_loop Flat.VisitArray_loop]. destruct has_comma eqn:Ec; cbn [negb]; [|eapply sim_invalid, Hw].
  eapply sim_bind; [eapply Hcall; [eapply went_refl, Hw|done]|]. intros [] [] x1 f1 Hw1.
  destruct (went_trans _ _ _ _ _ _ _ _ Hw Hw1) as [Hw2 Hz2].
  eapply sim_Peek; [exact Hw2|]. intros comma x3 f3 Hw3 Hz3. eapply sim_Peek; [exact Hw3|]. intros close x4 f4 Hw4 Hz4.
  assert (zlen (Flat.bytes f4) + Z.b2z comma <= zlen (Flat.bytes f)) as Hz by (destruct close, comma; simpl in *; lia).
  destruct close; [by apply sim_ok|].
  apply IH; [done| | |]; [destruct comma; simpl in *; lia|by eapply enough_next..].
Qed.

Lemma sim_VisitArray k j x0 N m F x f :
  callback N m F -> went k j x0 x f -> zlen (Flat.bytes f) <= N -> sim j (back k j x0) (VisitArray m) (Flat.VisitArray F) x f.
Proof.
  intros Hcall Hw HN. unfold VisitArray, Flat.VisitArray.
  eapply sim_bind; [eapply sim_run, sim_Expect; [exact Hw|done]|]. intros [] [] x1 f1 [[Hw1 _] Ez]. apply Expect_shorter in Ez; [|done].
  eapply sim_bind; [by eapply sim_Push, went_refl, Hw1|]. intros [] [] x2 f2 Hw2.
  destruct (went_trans _ _ _ _ _ _ _ _ Hw1 Hw2) as [Hw3 Hz3].
  eapply sim_Peek; [exact Hw3|]. intros empty x4 f4 Hw4 Hz4. destruct empty.
  { eapply sim_Pop; [exact Hw4|]. intros x5 f5 Hw5. by apply sim_ok. }
  apply sim_left, wp_getS. eapply sim_right; [reflexivity|]. simpl in Hz4.
  eapply sim_bind; [eapply sim_VisitArray_loop; [exact Hcall|exact Hw4|lia| |]|].
  - unfold enough. pose proof (bytes_left_ok _ _ _ _ _ Hw4). lia.
  - unfold enough, zlen. lia.
  - intros a b x5 f5 [<- Hw5]. eapply sim_legacy; [apply Hw5|]. destruct (_ && _); [eapply sim_invalid, Hw5|].
    eapply sim_Pop; [exact Hw5|]. intros x6 f6 Hw6. by apply sim_ok.
Qed.

Lemma sim_object_key k j x0 x f c l :
  went k j x0 x f -> peekable x -> Flat.bytes f = c :: l ->
  sim j (string_post k j x0) object_key Flat.object_key x f.
Proof.
  intros Hw Hp El. unfold object_key, Flat.object_key. eapply sim_first; [exact Hw|done|exact El|].
  eapply sim_legacy; [apply Hw|]. destruct (_ || _); [by apply sim_ParseUtf8|].
  destruct (allow_legacy_syntax _); [by apply sim_ParseBareWord|eapply sim_invalid, Hw].
Qed.

(** A callback that gets a key. *)
Definition key_callback (N : Z) (m : LocationWith MaybeOwnedString -> M lexer (result unit))
    (F : LocationWith (list byte) -> M Flat.t (result unit)) : Prop :=
  forall k j x0 x f key l, went k j x0 x f -> zlen (Flat.bytes f) < N ->
    holds (fst key) <= j -> shows (stream x) (fst key) (fst l) -> snd key = snd l ->
    sim j (back k j x0) (m key) (F l) x f.

Lemma sim_VisitObject_loop k j x0 N m F : key_callback N m F -> forall n nf has_comma x f,
  went k j x0 x f -> zlen (Flat.bytes f) < N -> enough has_comma f n -> enough has_comma f nf ->
  sim j (fun a b x' f' => a = b /\ went k j x0 x' f') (VisitObject_loop n m has_comma) (Flat.VisitObject_loop nf F has_comma) x f.
Proof.
  intros Hcall. induction n as [|n IH]; intros nf has_comma x f Hw HN Hn Hnf.
  { unfold enough in Hn. pose proof (zlen_nonneg (Flat.bytes f)). destruct has_comma; lia. }
  destruct nf as [|nf]; [unfold enough in Hnf; pose proof (zlen_nonneg (Flat.bytes f)); destruct has_comma; lia|].
  cbn [VisitObject_loop Flat.VisitObject_loop]. destruct has_comma eqn:Ec; cbn [negb]; [|eapply sim_invalid, Hw].
  pose proof Hw as [_ _ Hkj].
  eapply sim_bind; [by eapply sim_SkipToToken|]. intros [] [] x1 f1 (Hw1 & -> & Hp1 & c & r & El). pose proof (skip_shorter f).
  eapply sim_bind; [eapply sim_object_key; [eapply went_refl, Hw1|done|exact El]|]. intros key l x2 f2 (Eloc & Hw2 & Hh & Hs).
  destruct (went_trans _ _ _ _ _ _ _ _ Hw1 Hw2) as [Hw3 Hz3].
  assert (forall x', broken (j + holds (fst key)) (stream x') -> wp (on_stream (destroy (fst key))) x' (fun _ x2 => broken j (stream x2))) as Hdestroy.
  { intros x' Hb. apply destroy_broken; [done|lia]. }
  eapply sim_bind_after; [eapply sim_Expect; [eapply went_refl, Hw3|done]|exact Hdestroy|]. intros [] [] x4 f4 [Hw4 _].
  destruct (went_trans _ _ _ _ _ _ _ _ Hw3 Hw4) as [Hw5 Hz5].
  assert (0 <= holds (fst key)) as Hpos by by destruct (fst key).
  eapply sim_bind_after; [eapply (Hcall _ _ _ _ _ key l); [eapply went_refl, Hw5|lia|lia| |done]|exact Hdestroy|].
  { eapply moved_shows; [apply Hw3| |apply Hw4|exact Hs]. lia. }
  intros [] [] x6 f6 Hw6. destruct (went_trans _ _ _ _ _ _ _ _ Hw5 Hw6) as [Hw7 Hz7].
  eapply sim_Peek; [exact Hw7|]. intros comma x8 f8 Hw8 Hz8. apply sim_left.
  wp_use string_destroy_wp; [exact Hw8|done|]. intros [] x9 (Hw9 & _).
  eapply sim_Peek; [exact Hw9|]. intros close x10 f10 Hw10 Hz10.
  assert (zlen (Flat.bytes f10) + Z.b2z comma <= zlen (Flat.bytes f)) as Hz by (destruct close, comma; simpl in *; lia).
  destruct close; [by apply sim_ok|].
  apply IH; [done| | |]; [destruct comma; simpl in *; lia|by eapply enough_next..].
Qed.

Lemma sim_VisitObject k j x0 N m F x f :
  key_callback N m F -> went k j x0 x f -> zlen (Flat.bytes f) <= N -> sim j (back k j x0) (VisitObject m) (Flat.VisitObject F) x f.
Proof.
  intros Hcall Hw HN. unfold VisitObject, Flat.VisitObject.
  eapply sim_bind; [eapply sim_run, sim_Expect; [exact Hw|done]|]. intros [] [] x1 f1 [[Hw1 _] Ez]. apply Expect_shorter in Ez; [|done].
  eapply sim_bind; [by eapply sim_Push, went_refl, Hw1|]. intros [] [] x2 f2 Hw2.
  destruct (went_trans _ _ _ _ _ _ _ _ Hw1 Hw2) as [Hw3 Hz3].
  eapply sim_Peek; [exact Hw3|]. intros empty x4 f4 Hw4 Hz4. destruct empty.
  { eapply sim_Pop; [exact Hw4|]. intros x5 f5 Hw5. by apply sim_ok. }
  apply sim_left, wp_getS. eapply sim_right; [reflexivity|]. simpl in Hz4.
  eapply sim_bind; [eapply sim_VisitObject_loop; [exact Hcall|exact Hw4|lia| |]|].
  - unfold enough. pose proof (bytes_left_ok _ _ _ _ _ Hw4). lia.
  - unfold enough, zlen. lia.
  - intros a b x5 f5 [<- Hw5]. eapply sim_Pop; [exact Hw5|]. intros x6 f6 Hw6.
    eapply sim_legacy; [apply Hw6|]. destruct (_ && _); [eapply sim_invalid, Hw6|]. by apply sim_ok.
Qed.

(** ** Values *)

Section skip.
Context {D : Type} (SimpleAtod : list byte -> option D).

Lemma sim_SkipValue_loop n nf k j x0 x f :
  went k j x0 x f -> zlen (Flat.bytes f) < Z.of_nat n -> zlen (Flat.bytes f) < Z.of_nat nf ->
  sim j (back k j x0) (SkipValue_loop SimpleAtod n) (Flat.SkipValue_loop SimpleAtod nf) x f.
Proof.
  revert nf k j x0 x f. induction n as [|n IH]; intros nf k j x0 x f Hw Hn Hnf; [pose proof (zlen_nonneg (Flat.bytes f)); lia|].
  destruct nf as [|nf]; [pose proof (zlen_nonneg (Flat.bytes f)); lia|]. cbn [SkipValue_loop Flat.SkipValue_loop].
  eapply sim_bind; [by eapply sim_PeekKind|]. intros kind kind' x1 f1 (<- & Hw1 & _ & -> & _). pose proof Hw1 as [_ _ Hkj].
  pose proof (skip_shorter f).
  assert (callback (zlen (Flat.bytes f)) (SkipValue_loop SimpleAtod n) (Flat.SkipValue_loop SimpleAtod nf)) as Hcall.
  { intros k' j' x0' x' f' Hw' Hz. apply IH; [done|lia|lia]. }
  destruct kind.
  - eapply sim_VisitObject; [|exact Hw1|done]. intros k' j' x0' x' f' key l Hw' Hz _ _ _. by apply Hcall.
  - by eapply sim_VisitArray.
  - apply sim_drop_string; [done|]. by apply sim_ParseUtf8.
  - eapply sim_bind; [by eapply sim_ParseNumber|]. intros a b x2 f2 [_ Hw2]. by apply sim_ok.
  - eapply sim_mono; [by eapply sim_Expect|]. by intros a b x' f' [].
  - eapply sim_mono; [by eapply sim_Expect|]. by intros a b x' f' [].
  - eapply sim_mono; [by eapply sim_Expect|]. by intros a b x' f' [].
Qed.

Lemma sim_SkipValue k j x0 x f :
  went k j x0 x f -> sim j (back k j x0) (SkipValue SimpleAtod) (Flat.SkipValue SimpleAtod) x f.
Proof.
  intros Hw. unfold SkipValue, Flat.SkipValue. apply sim_left, wp_getS. eapply sim_right; [reflexivity|].
  apply sim_SkipValue_loop; [done| |unfold zlen; lia]. pose proof (bytes_left_ok _ _ _ _ _ Hw). lia.
Qed.
End skip.
End sim.
