(* ===== verification/ByteSink.v ===== *)
(** * ZeroCopyStreamByteSink

    [io/zero_copy_sink.h] and [.cc]: bytes appended to a [ZeroCopyOutputStream],
    a buffer at a time. [buffer_] is the offset of the pointer in the stream's last
    buffer. The end of the sink's life is [destroy]. *)

From S2P Require Import Prelude ZeroCopyOutput.

Record t (S : Type) := mk {
  stream_ : S;
  buffer_ : Z;
  buffer_size_ : Z;
  bytes_written_ : Z;
  failed_ : bool;
}.
Arguments mk {S}.
Arguments stream_ {S}.
Arguments buffer_ {S}.
Arguments buffer_size_ {S}.
Arguments bytes_written_ {S}.
Arguments failed_ {S}.

Definition make {S} (stream : S) : t S := mk stream 0 0 0 false.

Section sink.
Context {S : Type} `{ZeroCopyOutputStream S}.
Notation K := (t S).

(** The start of a round: there is a buffer, or the stream has failed. *)
Definition next_buffer : M K bool :=
  let* s := getS in
  if negb (buffer_size_ s =? 0) then ret true else
  let* (r, stream) := lift (Next (stream_ s)) in
  match r with
  | None => putS (mk stream (buffer_ s) 0 (bytes_written_ s) true) ;;; ret false
  | Some size => putS (mk stream 0 size (bytes_written_ s) (failed_ s)) ;;; ret true
  end.

(** The rest of a round: [memcpy], and what is left of the buffer. *)
Definition copy (bytes : list byte) : M K Z :=
  let* s := getS in
  let to_write := Z.min (zlen bytes) (buffer_size_ s) in
  dcheck ((0 <=? buffer_ s) && (buffer_ s + to_write <=? zlen (block (stream_ s)))) ;;;
  putS (mk (set_block (splice (buffer_ s) (ztake to_write bytes) (block (stream_ s))) (stream_ s))
          (buffer_ s + to_write) (buffer_size_ s - to_write) (bytes_written_ s + to_write) (failed_ s)) ;;;
  ret to_write.

(** The [while]. [n] bounds the rounds that write something, [idle_left] those
    in a row in which the stream has an empty buffer. *)
Fixpoint Append_loop (n : nat) : nat -> list byte -> M K unit :=
  fix round (idle_left : nat) (bytes : list byte) : M K unit :=
    let* failed := gets failed_ in
    if failed || (zlen bytes =? 0) then ret tt else
    let* more := next_buffer in
    if negb more then ret tt else
    let* written := copy bytes in
    if written =? 0 then
      match idle_left with O => undef | Datatypes.S idle_left => round idle_left bytes end
    else
      match n with
      | O => undef
      | Datatypes.S n =>
          let* idle_left := gets (fun s => idle (stream_ s)) in
          Append_loop n idle_left (zdrop written bytes)
      end.

Definition Append (bytes : list byte) : M K unit :=
  let* idle_left := gets (fun s => idle (stream_ s)) in
  Append_loop (length bytes) idle_left bytes.

(** The destructor. *)
Definition destroy : M K unit :=
  let* s := getS in
  if 0 <? buffer_size_ s then
    let* (_, stream) := lift (BackUp (buffer_size_ s) (stream_ s)) in
    putS (mk stream (buffer_ s) (buffer_size_ s) (bytes_written_ s) (failed_ s))
  else ret tt.
End sink.

(** ** What has been written *)

Section spec.
Context {S : Type} `{ZeroCopyOutputStreamOk S}.
Implicit Type s : t S.

(** The bytes before the pointer. *)
Definition written s : list byte := flushed (stream_ s) ++ ztake (zlen (block (stream_ s)) - buffer_size_ s) (block (stream_ s)).

Record wf s : Prop := {
  wf_stream : ostream_ok (stream_ s);
  wf_size : 0 <= buffer_size_ s <= zlen (block (stream_ s));
  wf_buffer : 0 < buffer_size_ s -> buffer_ s = zlen (block (stream_ s)) - buffer_size_ s;
}.

(** [bytes] have been written, if the stream has not failed. *)
Definition appended (bytes : list byte) s s' : Prop :=
  wf s' /\ (failed_ s' = false -> failed_ s = false /\ bytes_written_ s' = bytes_written_ s + zlen bytes /\
    (alive (stream_ s') = true -> alive (stream_ s) = true /\ written s' = written s ++ bytes)).

Lemma appended_nil s : wf s -> appended [] s s.
Proof. intros Hs. split; [done|]. intros Hf. rewrite zlen_nil, Z.add_0_r, app_nil_r. done. Qed.

Lemma appended_trans l k s s1 s2 : appended l s s1 -> appended k s1 s2 -> appended (l ++ k) s s2.
Proof.
  intros [_ H1'] [Hw H2']. split; [done|]. intros Hf. destruct (H2' Hf) as (Hf1 & E2 & H2), (H1' Hf1) as (Hf0 & E1 & H1).
  rewrite zlen_app. split; [done|]. split; [lia|]. intros Ha. destruct (H2 Ha) as [Ha1 ->], (H1 Ha1) as [Ha0 ->].
  split; [done|]. by rewrite app_assoc.
Qed.

Lemma sink_next_buffer_wp s :
  wf s -> failed_ s = false ->
  wp next_buffer s (fun more s' =>
    if more then appended [] s s' /\ failed_ s' = false /\ 0 <= buffer_ s' /\ buffer_ s' = zlen (block (stream_ s')) - buffer_size_ s' /\
      (buffer_size_ s' = 0 -> (idle (stream_ s') < idle (stream_ s))%nat)
    else wf s' /\ failed_ s' = true).
Proof.
  intros Hs Hf. pose proof Hs as [Hok Hsize Hbuf]. unfold next_buffer. wp_steps.
  destruct (Z.eqb_spec (buffer_size_ s) 0) as [E|E]; cbn [negb]; cycle 1.
  { apply wp_ret. split; [by apply appended_nil|]. split; [done|]. rewrite Hbuf by lia. split_and!; lia. }
  destruct (wp_inv _ _ _ (next_block_ok (stream_ s) Hok)) as (r & i & Er & Hok' & Hr).
  apply wp_bind. eapply wp_lift; [exact Er|]. destruct r as [size|]; wp_steps.
  - destruct Hr as (Hz & Hmax & Hidle & Ha). pose proof (zlen_nonneg (block i)).
    split; [|simpl; split_and!; [done|lia|lia|done]].
    split; [split; simpl; [done|lia|lia]|]. simpl. intros _. rewrite zlen_nil. split; [done|]. split; [lia|].
    intros Hal. destruct (Ha Hal) as (? & Ef & _). split; [done|]. unfold written. simpl.
    rewrite E, Ef, (ztake_0 (_ - _)), (ztake_all (zlen (block (stream_ s)) - 0)), !app_nil_r by lia. done.
  - split; [|done]. split; simpl; [done|pose proof (zlen_nonneg (block i)); lia|lia].
Qed.

Lemma copy_wp s bytes :
  wf s -> failed_ s = false -> 0 <= buffer_ s -> buffer_ s = zlen (block (stream_ s)) - buffer_size_ s ->
  wp (copy bytes) s (fun n s' => n = Z.min (zlen bytes) (buffer_size_ s) /\ appended (ztake n bytes) s s' /\
    failed_ s' = false /\ idle (stream_ s') = idle (stream_ s)).
Proof.
  intros [Hok Hsize Hbuf] Hf Hb Eb. pose proof (zlen_nonneg bytes). unfold copy. wp_steps.
  set (n := Z.min (zlen bytes) (buffer_size_ s)). assert (0 <= n <= zlen bytes /\ n <= buffer_size_ s) as Hn by (unfold n; lia).
  destruct (Z.leb_spec 0 (buffer_ s)); [|lia]. destruct (Z.leb_spec (buffer_ s + n) (zlen (block (stream_ s)))); [|lia].
  apply wp_bind, wp_ret. wp_steps. set (b := splice _ _ _).
  assert (zlen (ztake n bytes) = n) as Hk by (rewrite zlen_ztake; lia).
  assert (zlen b = zlen (block (stream_ s))) as Hz by (unfold b; rewrite zlen_splice; [done|lia|lia]).
  destruct (set_block_ok _ b Hok Hz) as (Hok' & Ebl & Efl & Eal & _ & Eid).
  split; [done|]. split; [|done]. split.
  - split; simpl; [done|rewrite Ebl; lia|rewrite Ebl; lia].
  - simpl. intros _. rewrite Hk. split; [done|]. split; [done|]. rewrite Eal. intros Ha. split; [done|].
    unfold written. simpl. rewrite Ebl, Efl, <- app_assoc. f_equal. rewrite Hz.
    replace (zlen (block (stream_ s)) - (buffer_size_ s - n)) with (buffer_ s + zlen (ztake n bytes)) by lia.
    unfold b. rewrite ztake_splice by lia. f_equal. f_equal. lia.
Qed.

(** A round that does not end the loop. *)
Lemma round_wp s bytes Q (rest : Z -> M (t S) unit) :
  wf s -> failed_ s = false -> bytes <> [] ->
  (forall s', wf s' -> failed_ s' = true -> Q tt s') ->
  (forall w s', appended (ztake w bytes) s s' -> 0 <= w <= zlen bytes ->
     (w = 0 -> (idle (stream_ s') < idle (stream_ s))%nat) -> wp (rest w) s' Q) ->
  wp (let* more := next_buffer in if negb more then ret tt else let* written := copy bytes in rest written) s Q.
Proof.
  intros Hs Hf Hne Hfail Hrest. apply wp_bind. wp_use sink_next_buffer_wp; [done|done|]. intros more s1 Hm.
  destruct more; cbn [negb]; [|apply wp_ret; by apply Hfail; destruct Hm].
  destruct Hm as (Ha1 & Hf1 & Hb0 & Eb & Hidle). pose proof (proj1 Ha1) as Hw1.
  apply wp_bind. wp_use copy_wp; [done|done|done|done|]. intros w s2 (Ew & Ha2 & Hf2 & Ei2).
  pose proof (wf_size _ Hw1). pose proof (zlen_nonneg bytes).
  assert (0 < zlen bytes) by (destruct bytes as [|? l]; [done|rewrite zlen_cons; pose proof (zlen_nonneg l); lia]).
  apply Hrest; [by apply (appended_trans [] _ s s1 s2)|lia|]. intros E. rewrite Ei2. apply Hidle. lia.
Qed.

Lemma appended_again w bytes s s1 s2 :
  appended (ztake w bytes) s s1 -> appended (zdrop w bytes) s1 s2 -> appended bytes s s2.
Proof. intros H1' H2'. rewrite <- (ztake_zdrop w bytes). by eapply appended_trans. Qed.

Lemma Append_loop_wp n idle_left bytes s :
  wf s -> (length bytes <= n)%nat -> (idle (stream_ s) <= idle_left)%nat ->
  wp (Append_loop n idle_left bytes) s (fun _ s' => appended bytes s s').
Proof.
  revert idle_left bytes s. induction n as [|n IHn]; intros idle_left; induction idle_left as [|i IHi];
    intros bytes s Hs Hl Hi; cbn [Append_loop]; apply wp_bind, wp_gets.
  all: destruct (failed_ s) eqn:Hf; cbn [orb]; [apply wp_ret; split; [done|congruence]|].
  all: destruct (Z.eqb_spec (zlen bytes) 0) as [E|E]; [apply wp_ret; rewrite (zlen_0 bytes) by lia; by apply appended_nil|].
  all: apply round_wp; [done|done|by intros ->|intros s' Hw Hf'; split; [done|congruence]|].
  all: intros w s' Ha Hw Hidle; destruct (Z.eqb_spec w 0) as [Ew|Ew]; [try specialize (Hidle Ew)|].
  all: try (exfalso; unfold zlen in *; lia).
  2: subst w; wp_use IHi; [apply Ha|lia|lia|]; intros [] s2 Ha2; eapply appended_again; [exact Ha|by rewrite zdrop_0].
  all: apply wp_bind, wp_gets; wp_use IHn; [apply Ha|unfold zdrop, zlen in *; rewrite length_drop; lia|lia|].
  all: intros [] s2 Ha2; by eapply appended_again.
Qed.

Lemma Append_wp bytes s : wf s -> wp (Append bytes) s (fun _ s' => appended bytes s s').
Proof. intros Hs. unfold Append. apply wp_bind, wp_gets. by apply Append_loop_wp. Qed.

Lemma make_wf stream : ostream_ok stream -> wf (make stream).
Proof. intros Hok. split; simpl; [done|pose proof (zlen_nonneg (block stream)); lia|lia]. Qed.

Lemma written_make stream : written (make stream) = flushed stream ++ block stream.
Proof. unfold written. simpl. by rewrite Z.sub_0_r, ztake_all by lia. Qed.

Lemma sink_destroy_wp s :
  wf s -> wp destroy s (fun _ s' => ostream_ok (stream_ s') /\
    (alive (stream_ s') = true -> alive (stream_ s) = true /\ flushed (stream_ s') ++ block (stream_ s') = written s)).
Proof.
  intros [Hok Hsize Hbuf]. unfold destroy. wp_steps. destruct (Z.ltb_spec 0 (buffer_size_ s)).
  - destruct (wp_inv _ _ _ (back_up_ok (stream_ s) (buffer_size_ s) Hok Hsize)) as ([] & i & Er & Hok' & Ha).
    apply wp_bind. eapply wp_lift; [exact Er|]. wp_steps. split; [done|]. intros Hal. by destruct (Ha Hal) as (? & ? & _).
  - apply wp_ret. split; [done|]. intros Hal. split; [done|]. unfold written.
    by rewrite ztake_all by lia.
Qed.
End spec.
