(* ===== verification/JsonWriter.v ===== *)
(** * The JSON writer

    [JsonWriter] of [json/internal/writer.h] and [writer.cc], over the sink of
    [ByteSink.v]. What prints a number ([absl::SNPrintF] with ["%d"],
    [SimpleDtoa] and [SimpleFtoa]) is not in the repository and is a parameter;
    so are the questions asked of a floating point value. [scratch_buf_] is a
    buffer for the callers and is left out. *)

From S2P Require Import Prelude ZeroCopyOutput JsonLexer ByteSink.

Record WriterOptions := {
  add_whitespace : bool;
  always_print_fields_with_no_presence : bool;
  always_print_enums_as_ints : bool;
  preserve_proto_field_names : bool;
  unquote_int64_if_possible : bool;
  allow_legacy_syntax : bool;
}.

(** ** Scalars *)

Definition kMinHighSurrogate : Z := 0xD800.
Definition kMinLowSurrogate : Z := 0xDC00.
Definition kMaxLowSurrogate : Z := 0xDFFF.
Definition kMinSupplementaryCodePoint : Z := 0x10000.
Definition kMaxCodePoint : Z := 0x10FFFF.
Definition kErrorSentinel : Z := 0xAAAAAAAA.

(** [scalar] is in 32 bits. *)
Record Utf8Scalar := {
  scalar : Z;
  utf8 : list byte;
}.

(** The [for] of [ConsumeUtf8Scalar]: the scalar, the bytes that it takes and
    what is left. *)
Fixpoint lookahead_loop (lookahead : nat) (scalar : Z) (str : list byte) : Z * list byte * list byte :=
  match lookahead with
  | O => (scalar, [], str)
  | S lookahead =>
      match str with
      | [] => (kErrorSentinel, [], [])
      | next :: str =>
          if negb (Z.shiftr (b2z next) 6 =? 2) then (kErrorSentinel, [next], str) else
          let scalar := Z.lor (u32 (Z.shiftl scalar 6)) (Z.land (b2z next) 0x3F) in
          let '(scalar, taken, str) := lookahead_loop lookahead scalar str in
          (scalar, next :: taken, str)
      end
  end.

(** [str] is not empty. *)
Definition ConsumeUtf8Scalar (str : list byte) : option (Utf8Scalar * list byte) :=
  match str with
  | [] => None
  | first :: str =>
      let uc := b2z first in
      let ones := countl_one uc in
      let '(value, taken, str) :=
        if ones =? 0 then (uc, [], str)
        else if ones =? 2 then lookahead_loop 1 (Z.land uc 0x1F) str
        else if ones =? 3 then lookahead_loop 2 (Z.land uc 0x0F) str
        else if ones =? 4 then lookahead_loop 3 (Z.land uc 0x07) str
        else (kErrorSentinel, [], str) in
      Some ({| scalar := if kMaxCodePoint <? value then kErrorSentinel else value; utf8 := first :: taken |}, str)
  end.

Definition kEscapedRanges : list (Z * Z) :=
  [(0x0000, 0x001F); (0x007F, 0x009F); (0x0600, 0x0603); (0x200B, 0x200F); (0x2028, 0x202E);
   (0x2060, 0x2064); (0x206A, 0x206F); (0x1D173, 0x1D17A); (0xE0020, 0xE007F)].

(** The [case]s that set no [custom_escape]. *)
Definition escaped_cases : list Z :=
  [0x3C; 0x3E; 0xFEFF; 0xFFF9; 0xFFFA; 0xFFFB; 0xAD; 0x6DD; 0x70F; 0x17B4; 0x17B5; 0xE0001].

(** [Some custom_escape] when the result is true. *)
Definition MustEscape (scalar : Z) : option (list byte) :=
  let escape z := Some [ch 0x5C; ch z] in
  if scalar =? 0x0A then escape 0x6E
  else if scalar =? 0x0D then escape 0x72
  else if scalar =? 0x09 then escape 0x74
  else if scalar =? 0x22 then escape 0x22
  else if scalar =? 0x0C then escape 0x66
  else if scalar =? 0x08 then escape 0x62
  else if scalar =? 0x5C then escape 0x5C
  else if scalar =? kErrorSentinel then Some [ch 0x20]
  else if existsb (Z.eqb scalar) escaped_cases then Some []
  else if existsb (fun '(first, last) => (first <=? scalar) && (scalar <=? last)) kEscapedRanges then Some []
  else None.

(** ["%04x"] of a [uint16_t]. *)
Definition hex_char (digit : Z) : byte := ch (if digit <? 10 then 0x30 + digit else 0x61 + (digit - 10)).
Definition hex4 (val : Z) : list byte :=
  [hex_char (val / 4096 mod 16); hex_char (val / 256 mod 16); hex_char (val / 16 mod 16); hex_char (val mod 16)].

Definition high_surrogate (scalar : Z) : Z :=
  u16 (Z.shiftr scalar 10 + (kMinHighSurrogate - Z.shiftr kMinSupplementaryCodePoint 10)).
Definition low_surrogate (scalar : Z) : Z :=
  u16 (Z.land scalar (kMaxLowSurrogate - kMinLowSurrogate) + kMinLowSurrogate).

Definition kBase64 (index : Z) : byte :=
  if index <? 26 then ch (0x41 + index)
  else if index <? 52 then ch (0x61 + (index - 26))
  else if index <? 62 then ch (0x30 + (index - 52))
  else if index =? 62 then ch 0x2B else ch 0x2F.

(** ** The writer *)

Record writer (S : Type) := mk_writer {
  sink_ : ByteSink.t S;
  options_ : WriterOptions;
  indent_ : Z;
}.
Arguments mk_writer {S}.
Arguments sink_ {S}.
Arguments options_ {S}.
Arguments indent_ {S}.

Definition make_writer {S} (out : S) (options : WriterOptions) : writer S :=
  mk_writer (ByteSink.make out) options 0.

Section writer.
Context {S : Type} `{ZeroCopyOutputStream S}.
Notation W := (M (writer S)).

Definition Push : W unit := modS (fun w => mk_writer (sink_ w) (options_ w) (indent_ w + 1)).
Definition Pop : W unit := modS (fun w => mk_writer (sink_ w) (options_ w) (indent_ w - 1)).

(** [Write] of a string. *)
Definition Write (str : list byte) : W unit := fun w =>
  match ByteSink.Append str (sink_ w) with
  | Some (_, sink) => Some (tt, mk_writer sink (options_ w) (indent_ w))
  | None => None
  end.
Definition Write_char (c : byte) : W unit := Write [c].

Definition Whitespace (ws : list byte) : W unit :=
  let* options := gets options_ in if add_whitespace options then Write ws else ret tt.

Fixpoint indent_loop (n : nat) : W unit :=
  match n with O => ret tt | Datatypes.S n => Whitespace [ch 0x20] ;;; indent_loop n end.

Definition NewLine : W unit :=
  Whitespace [ch 0x0A] ;;;
  let* indent := gets indent_ in indent_loop (Z.to_nat indent).

(** The result is [is_first] afterwards. *)
Definition WriteComma (is_first : bool) : W bool :=
  if is_first then ret false else Write [ch 0x2C] ;;; ret false.

(** *** Strings *)

Definition WriteUEscape (val : Z) : W unit := Write (ch 0x5C :: ch 0x75 :: hex4 val).

(** [n] bounds the scalars. *)
Fixpoint WriteEscapedUtf8_loop (n : nat) (str : list byte) : W unit :=
  match str with
  | [] => ret tt
  | _ :: _ =>
      match n with
      | O => undef
      | Datatypes.S n =>
          let* (s, str) := lift (ConsumeUtf8Scalar str) in
          match MustEscape (scalar s) with
          | None => Write (utf8 s)
          | Some ((_ :: _) as custom_escape) => Write custom_escape
          | Some [] =>
              if scalar s <? 0x10000 then WriteUEscape (scalar s) else
              WriteUEscape (high_surrogate (scalar s)) ;;; WriteUEscape (low_surrogate (scalar s))
          end ;;;
          WriteEscapedUtf8_loop n str
      end
  end.
Definition WriteEscapedUtf8 (str : list byte) : W unit := WriteEscapedUtf8_loop (length str) str.

(** [Write] of a [Quoted] string. *)
Definition WriteQuoted (str : list byte) : W unit :=
  Write_char (ch 0x22) ;;; WriteEscapedUtf8 str ;;; Write_char (ch 0x22).

(** [read] of three bytes, and the four characters. *)
Fixpoint WriteBase64_loop (str : list byte) : W unit :=
  match str with
  | a :: b :: c :: str =>
      Write [kBase64 (Z.shiftr (b2z a) 2);
             kBase64 (Z.lor (Z.shiftl (Z.land (b2z a) 0x3) 4) (Z.shiftr (b2z b) 4));
             kBase64 (Z.lor (Z.shiftl (Z.land (b2z b) 0xF) 2) (Z.shiftr (b2z c) 6));
             kBase64 (Z.land (b2z c) 0x3F)] ;;;
      WriteBase64_loop str
  | [a; b] =>
      Write [kBase64 (Z.shiftr (b2z a) 2);
             kBase64 (Z.lor (Z.shiftl (Z.land (b2z a) 0x3) 4) (Z.shiftr (b2z b) 4));
             kBase64 (Z.shiftl (Z.land (b2z b) 0xF) 2);
             ch 0x3D]
  | [a] =>
      Write [kBase64 (Z.shiftr (b2z a) 2); kBase64 (Z.shiftl (Z.land (b2z a) 0x3) 4); ch 0x3D; ch 0x3D]
  | [] => ret tt
  end.
Definition WriteBase64 (str : list byte) : W unit :=
  Write [ch 0x22] ;;; WriteBase64_loop str ;;; Write [ch 0x22].

(** *** Numbers *)

(** [Write] of the four integer types. *)
Definition Write_int (SNPrintF_d : Z -> list byte) (val : Z) : W unit := Write (SNPrintF_d val).

Section floating.
Context {Fp : Type} (is_infinity is_minus_infinity isnan : Fp -> bool) (Dtoa : Fp -> list byte).

Definition infinity_word : list byte := map ch [0x49; 0x6E; 0x66; 0x69; 0x6E; 0x69; 0x74; 0x79].
Definition nan_word : list byte := map ch [0x4E; 0x61; 0x4E].

Definition MaybeWriteSpecialFp (val : Fp) : W bool :=
  if is_infinity val then Write (ch 0x22 :: infinity_word ++ [ch 0x22]) ;;; ret true
  else if is_minus_infinity val then Write (ch 0x22 :: ch 0x2D :: infinity_word ++ [ch 0x22]) ;;; ret true
  else if isnan val then Write (ch 0x22 :: nan_word ++ [ch 0x22]) ;;; ret true
  else ret false.

(** [Write] of a [double] or of a [float]. *)
Definition Write_fp (val : Fp) : W unit :=
  let* special := MaybeWriteSpecialFp val in
  if special then ret tt else Write (Dtoa val).
End floating.

(** The destructor writes back what is left of the buffer. *)
Definition destroy : W unit := fun w =>
  match ByteSink.destroy (sink_ w) with
  | Some (_, sink) => Some (tt, mk_writer sink (options_ w) (indent_ w))
  | None => None
  end.
End writer.
