(* ===== verification/JsonText.v ===== *)
(** * UTF-8 and escapes of JSON strings, as numbers

    What the masks and shifts of the lexer and of the writer compute. *)

From S2P Require Import Prelude Utf8 JsonWriter JsonLexer.

(** ** Bits *)

Lemma lor_shift a b n : 0 <= n -> 0 <= b < 2 ^ n -> Z.lor (a * 2 ^ n) b = a * 2 ^ n + b.
Proof.
  intros Hn Hb. symmetry. rewrite <- Z.lxor_lor, <- Z.add_nocarry_lxor; [done|..];
    (apply Z.bits_inj'; intros i Hi; rewrite Z.land_spec, Z.bits_0;
     destruct (decide (i < n)); [by rewrite Z.mul_pow2_bits_low|];
     destruct (decide (b = 0)) as [->|]; [by rewrite Z.bits_0, andb_false_r|];
     rewrite (Z.bits_above_log2 b i), andb_false_r; [done|lia|];
     apply Z.log2_lt_pow2; [lia|]; apply Z.lt_le_trans with (2 ^ n); [lia|apply Z.pow_le_mono_r; lia]).
Qed.

Lemma lor_64 a b : 0 <= b < 64 -> Z.lor (a * 64) b = a * 64 + b.
Proof. intros. apply (lor_shift a b 6); lia. Qed.
Lemma lor_16 a b : 0 <= b < 16 -> Z.lor (a * 16) b = a * 16 + b.
Proof. intros. apply (lor_shift a b 4); lia. Qed.

(** A property of bytes in a range. *)
Lemma byte_range (P : Z -> bool) lo hi x :
  forallb (fun z => negb ((lo <=? z) && (z <=? hi)) || P z) (map Z.of_nat (seq 0 256)) = true ->
  0 <= lo -> hi < 256 -> lo <= x <= hi -> P x = true.
Proof.
  intros H ? ? Hx. pose proof (byte_forall _ H x ltac:(lia)) as Hp. cbv beta in Hp.
  destruct (Z.leb_spec lo x); [|lia]. by destruct (Z.leb_spec x hi); [|lia].
Qed.

Ltac by_byte_range P lo hi :=
  intros; apply Z.eqb_eq; apply (byte_range P lo hi); [reflexivity|lia|lia|lia].

Lemma ones_0 x : 0 <= x <= 0x7F -> countl_one x = 0.
Proof. by_byte_range (fun x => countl_one x =? 0) 0 0x7F. Qed.
Lemma ones_2 x : 0xC0 <= x <= 0xDF -> countl_one x = 2.
Proof. by_byte_range (fun x => countl_one x =? 2) 0xC0 0xDF. Qed.
Lemma ones_3 x : 0xE0 <= x <= 0xEF -> countl_one x = 3.
Proof. by_byte_range (fun x => countl_one x =? 3) 0xE0 0xEF. Qed.
Lemma ones_4 x : 0xF0 <= x <= 0xF7 -> countl_one x = 4.
Proof. by_byte_range (fun x => countl_one x =? 4) 0xF0 0xF7. Qed.

Lemma land_1f x : 0xC0 <= x <= 0xDF -> Z.land x 0x1F = x - 0xC0.
Proof. by_byte_range (fun x => Z.land x 0x1F =? x - 0xC0) 0xC0 0xDF. Qed.
Lemma land_0f x : 0xE0 <= x <= 0xEF -> Z.land x 0x0F = x - 0xE0.
Proof. by_byte_range (fun x => Z.land x 0x0F =? x - 0xE0) 0xE0 0xEF. Qed.
Lemma land_07 x : 0xF0 <= x <= 0xF7 -> Z.land x 0x07 = x - 0xF0.
Proof. by_byte_range (fun x => Z.land x 0x07 =? x - 0xF0) 0xF0 0xF7. Qed.
Lemma land_3f x : 0x80 <= x <= 0xBF -> Z.land x 0x3F = x - 0x80.
Proof. by_byte_range (fun x => Z.land x 0x3F =? x - 0x80) 0x80 0xBF. Qed.
Lemma shiftr_6 x : 0x80 <= x <= 0xBF -> Z.shiftr x 6 = 2.
Proof. by_byte_range (fun x => Z.shiftr x 6 =? 2) 0x80 0xBF. Qed.

Lemma lor_c0 x : 0 <= x <= 31 -> Z.lor x 0xC0 = x + 0xC0.
Proof. by_byte_range (fun x => Z.lor x 0xC0 =? x + 0xC0) 0 31. Qed.
Lemma lor_e0 x : 0 <= x <= 15 -> Z.lor x 0xE0 = x + 0xE0.
Proof. by_byte_range (fun x => Z.lor x 0xE0 =? x + 0xE0) 0 15. Qed.
Lemma lor_f0 x : 0 <= x <= 7 -> Z.lor x 0xF0 = x + 0xF0.
Proof. by_byte_range (fun x => Z.lor x 0xF0 =? x + 0xF0) 0 7. Qed.
Lemma lor_80 x : 0 <= x <= 63 -> Z.lor x 0x80 = x + 0x80.
Proof. by_byte_range (fun x => Z.lor x 0x80 =? x + 0x80) 0 63. Qed.

(** ** A scalar as bytes *)

Lemma utf8_of_eq rune :
  0 <= rune ->
  utf8_of rune =
    if rune <=? 0x7F then Some [z2b rune]
    else if rune <=? 0x7FF then Some [z2b (rune / 64 + 0xC0); z2b (rune mod 64 + 0x80)]
    else if rune <=? 0xFFFF then
      Some [z2b (rune / 4096 + 0xE0); z2b (rune / 64 mod 64 + 0x80); z2b (rune mod 64 + 0x80)]
    else if rune <=? 0x10FFFF then
      Some [z2b (rune / 262144 + 0xF0); z2b (rune / 4096 mod 64 + 0x80); z2b (rune / 64 mod 64 + 0x80); z2b (rune mod 64 + 0x80)]
    else None.
Proof.
  intros Hr. unfold utf8_of. rewrite !Z.shiftr_div_pow2 by lia.
  change 0x1F with (Z.ones 5). change 0x0F with (Z.ones 4). change 0x07 with (Z.ones 3). change 0x3F with (Z.ones 6).
  rewrite !Z.land_ones by lia. change (2 ^ 0) with 1. change (2 ^ 6) with 64. change (2 ^ 12) with 4096.
  change (2 ^ 18) with 262144. change (2 ^ 5) with 32. change (2 ^ 4) with 16. change (2 ^ 3) with 8. rewrite Z.div_1_r.
  case_cmp; try done;
    rewrite ?(Z.mod_small (rune / 64) 32), ?(Z.mod_small (rune / 4096) 16), ?(Z.mod_small (rune / 262144) 8)
      by (Z.div_mod_to_equations; lia);
    rewrite ?lor_c0, ?lor_e0, ?lor_f0 by (Z.div_mod_to_equations; lia);
    rewrite !lor_80 by (Z.div_mod_to_equations; lia); done.
Qed.

(** The scalars. *)
Definition is_scalar (rune : Z) : Prop := 0 <= rune <= 0x10FFFF /\ ~ 0xD800 <= rune <= 0xDFFF.

Lemma in_bytes_spec lo hi b : in_bytes lo hi b = true <-> lo <= b2z b <= hi.
Proof. unfold in_bytes. rewrite andb_true_iff, !Z.leb_le. done. Qed.

(** The value of the code point at the front. *)
Definition scalar_at (l : list byte) (k rune : Z) : Prop :=
  is_scalar rune /\ utf8_of rune = Some (ztake k l) /\
  ConsumeUtf8Scalar l = Some ({| scalar := rune; utf8 := ztake k l |}, zdrop k l) /\
  (rune <= 0x7F -> k = 1).

Lemma trailing_spec b : trailing b = true -> 0x80 <= b2z b <= 0xBF.
Proof. apply in_bytes_spec. Qed.

Lemma z2b_eq z b : z = b2z b -> z2b z = b.
Proof. intros ->. apply z2b_b2z. Qed.

Ltac byte_lists :=
  repeat (rewrite ztake_cons by lia); rewrite ?ztake_0 by lia; apply (f_equal Some);
  repeat (apply (f_equal2 cons)); try done; apply z2b_eq; Z.div_mod_to_equations; lia.

(** One more byte of [lookahead_loop]. *)
Lemma lookahead_next n v b l :
  trailing b = true -> 0 <= v < 2 ^ 26 ->
  lookahead_loop (S n) v (b :: l) =
    let '(rune, taken, rest) := lookahead_loop n (v * 64 + (b2z b - 0x80)) l in (rune, b :: taken, rest).
Proof.
  intros Hb%trailing_spec Hv. cbn [lookahead_loop]. rewrite shiftr_6, land_3f by lia. cbn [Z.eqb Pos.eqb negb].
  rewrite Z.shiftl_mul_pow2, u32_id by (unfold is_u32; lia). change (2 ^ 6) with 64. by rewrite lor_64 by lia.
Qed.

Lemma scalar_of_1 b0 l : b2z b0 <= 0x7F -> exists rune, scalar_at (b0 :: l) 1 rune.
Proof.
  intros H0. pose proof (b2z_range b0). exists (b2z b0). unfold scalar_at, is_scalar.
  split; [lia|]. split; [|split; [|lia]].
  - rewrite utf8_of_eq by lia. destruct (Z.leb_spec (b2z b0) 0x7F); [|lia]. byte_lists.
  - unfold ConsumeUtf8Scalar. rewrite ones_0 by lia. cbn [Z.eqb]. unfold kMaxCodePoint. destruct (Z.ltb_spec 0x10FFFF (b2z b0)); [lia|].
    by rewrite ztake_cons, ztake_0, zdrop_cons, zdrop_0 by lia.
Qed.

(** The end of a proof about [ConsumeUtf8Scalar], with the lemmas on the first byte. *)
Ltac consume ones land :=
  unfold ConsumeUtf8Scalar; rewrite ones, land by lia; cbn [Z.eqb Pos.eqb];
  repeat (rewrite lookahead_next by (done || lia)); cbn [lookahead_loop]; unfold kMaxCodePoint;
  match goal with |- context [?a <? ?b] => destruct (Z.ltb_spec a b); [lia|] end;
  repeat (rewrite ztake_cons by lia); rewrite ?ztake_0 by lia; repeat (rewrite zdrop_cons by lia); by rewrite ?zdrop_0 by lia.

Lemma scalar_of_2 b0 b1 l :
  0xC2 <= b2z b0 <= 0xDF -> trailing b1 = true -> exists rune, scalar_at (b0 :: b1 :: l) 2 rune.
Proof.
  intros H0 Hb1. pose proof (trailing_spec _ Hb1). exists ((b2z b0 - 0xC0) * 64 + (b2z b1 - 0x80)). unfold scalar_at, is_scalar.
  split; [lia|]. split; [|split; [|lia]].
  - rewrite utf8_of_eq by lia. case_cmp; try lia. byte_lists.
  - consume ones_2 land_1f.
Qed.

Lemma second_of_3_spec b0 b1 :
  second_of_3 b0 b1 = true ->
  trailing b1 = true /\ (b2z b0 = 0xE0 -> 0xA0 <= b2z b1) /\ (b2z b0 = 0xED -> b2z b1 <= 0x9F).
Proof.
  unfold second_of_3, trailing. destruct (Z.eqb_spec (b2z b0) 0xE0); [|destruct (Z.eqb_spec (b2z b0) 0xED)];
    rewrite !in_bytes_spec; lia.
Qed.

Lemma second_of_4_spec b0 b1 :
  second_of_4 b0 b1 = true ->
  trailing b1 = true /\ (b2z b0 = 0xF0 -> 0x90 <= b2z b1) /\ (b2z b0 = 0xF4 -> b2z b1 <= 0x8F).
Proof.
  unfold second_of_4, trailing. destruct (Z.eqb_spec (b2z b0) 0xF0); [|destruct (Z.eqb_spec (b2z b0) 0xF4)];
    rewrite !in_bytes_spec; lia.
Qed.

Lemma scalar_of_3 b0 b1 b2 l :
  0xE0 <= b2z b0 <= 0xEF -> second_of_3 b0 b1 = true -> trailing b2 = true ->
  exists rune, scalar_at (b0 :: b1 :: b2 :: l) 3 rune.
Proof.
  intros H0 (Hb1 & Hlo & Hhi)%second_of_3_spec Hb2. pose proof (trailing_spec _ Hb1). pose proof (trailing_spec _ Hb2).
  exists (((b2z b0 - 0xE0) * 64 + (b2z b1 - 0x80)) * 64 + (b2z b2 - 0x80)). unfold scalar_at, is_scalar.
  split; [lia|]. split; [|split; [|lia]].
  - rewrite utf8_of_eq by lia. case_cmp; try lia. byte_lists.
  - consume ones_3 land_0f.
Qed.

Lemma scalar_of_4 b0 b1 b2 b3 l :
  0xF0 <= b2z b0 <= 0xF4 -> second_of_4 b0 b1 = true -> trailing b2 = true -> trailing b3 = true ->
  exists rune, scalar_at (b0 :: b1 :: b2 :: b3 :: l) 4 rune.
Proof.
  intros H0 (Hb1 & Hlo & Hhi)%second_of_4_spec Hb2 Hb3.
  pose proof (trailing_spec _ Hb1). pose proof (trailing_spec _ Hb2). pose proof (trailing_spec _ Hb3).
  exists ((((b2z b0 - 0xF0) * 64 + (b2z b1 - 0x80)) * 64 + (b2z b2 - 0x80)) * 64 + (b2z b3 - 0x80)). unfold scalar_at, is_scalar.
  split; [lia|]. split; [|split; [|lia]].
  - rewrite utf8_of_eq by lia. case_cmp; try lia. byte_lists.
  - consume ones_4 land_07.
Qed.

(** The writer reads what table 3-7 of the standard allows. *)
Lemma code_point_scalar l k : code_point l = Some k -> exists rune, scalar_at l k rune.
Proof.
  destruct l as [|b0 l]; [done|]. cbn [code_point].
  destruct (Z.leb_spec (b2z b0) 0x7F); [intros [= <-]; by apply scalar_of_1|].
  destruct (in_bytes 0xC2 0xDF b0) eqn:E2.
  { apply in_bytes_spec in E2. destruct l as [|b1 l]; [done|]. destruct (trailing b1) eqn:E; [|done].
    intros [= <-]. by apply scalar_of_2. }
  destruct (in_bytes 0xE0 0xEF b0) eqn:E3.
  { apply in_bytes_spec in E3. destruct l as [|b1 [|b2 l]]; [done..|]. destruct (_ && _) eqn:E; [|done].
    apply andb_true_iff in E as []. intros [= <-]. by apply scalar_of_3. }
  destruct (in_bytes 0xF0 0xF4 b0) eqn:E4; [|done]. apply in_bytes_spec in E4.
  destruct l as [|b1 [|b2 [|b3 l]]]; [done..|]. destruct (_ && _) eqn:E; [|done].
  apply andb_true_iff in E as [[]%andb_true_iff ?]. intros [= <-]. by apply scalar_of_4.
Qed.

(** The digits of a scalar, six bits each. *)
Lemma six_bits rune :
  0 <= rune <= 0x10FFFF -> exists a b c d, rune = ((a * 64 + b) * 64 + c) * 64 + d /\
    0 <= a <= 4 /\ 0 <= b < 64 /\ 0 <= c < 64 /\ 0 <= d < 64 /\
    rune / 262144 = a /\ rune / 4096 = a * 64 + b /\ rune / 4096 mod 64 = b /\ rune / 64 = (a * 64 + b) * 64 + c /\
    rune / 64 mod 64 = c /\ rune mod 64 = d.
Proof.
  intros Hr. exists (rune / 262144), (rune / 4096 mod 64), (rune / 64 mod 64), (rune mod 64).
  split_and!; try done; Z.div_mod_to_equations; lia.
Qed.

(** What the lexer writes for a scalar is a code point. *)
Lemma utf8_of_code_point rune l :
  is_scalar rune -> utf8_of rune = Some l -> code_point l = Some (zlen l).
Proof.
  intros [Hr Hs]. rewrite utf8_of_eq by lia.
  destruct (six_bits rune Hr) as (a & b & c & d & E & Ha & Hb & Hc & Hd & E18 & E12 & E12' & E6 & E6' & E0).
  rewrite E18, E12', E12, E6', E6, E0. clear E18 E12 E12' E6 E6' E0.
  repeat match goal with |- context [rune <=? ?z] => destruct (Z.leb_spec rune z) end; try lia; intros [= <-];
    unfold code_point, zlen; cbn [length]; rewrite !b2z_z2b_small by lia;
    unfold second_of_3, second_of_4, trailing, in_bytes; rewrite ?b2z_z2b_small by lia.
  all: repeat match goal with
    | |- context [b2z (z2b ?z)] => rewrite (b2z_z2b_small z) by lia
    | |- context [?x =? ?y] => destruct (Z.eqb_spec x y); try (exfalso; lia)
    | |- context [?x <=? ?y] => destruct (Z.leb_spec x y); [|try (exfalso; lia)]; try (exfalso; lia)
    end; done.
Qed.

Lemma surrogates_scalar high low :
  0xD800 <= high <= 0xDBFF -> 0xDC00 <= low <= 0xDFFF ->
  surrogates high low = (high - 0xD800) * 1024 + (low - 0xDC00) + 0x10000.
Proof.
  intros Hh Hl. unfold surrogates. change 0x3FF with (Z.ones 10). rewrite !Z.land_ones, Z.shiftl_mul_pow2 by lia.
  rewrite lor_shift by (change (2 ^ 10) with 1024; Z.div_mod_to_equations; lia). change (2 ^ 10) with 1024.
  Z.div_mod_to_equations; lia.
Qed.

Lemma high_surrogate_eq rune : 0x10000 <= rune <= 0x10FFFF -> high_surrogate rune = (rune - 0x10000) / 1024 + 0xD800.
Proof.
  intros Hr. unfold high_surrogate, u16. rewrite Z.shiftr_div_pow2 by lia. change (2 ^ 10) with 1024. change (2 ^ 16) with 65536.
  change (kMinHighSurrogate - Z.shiftr kMinSupplementaryCodePoint 10) with 0xD7C0. Z.div_mod_to_equations; lia.
Qed.

Lemma low_surrogate_eq rune : 0x10000 <= rune <= 0x10FFFF -> low_surrogate rune = (rune - 0x10000) mod 1024 + 0xDC00.
Proof.
  intros Hr. unfold low_surrogate, u16. change (kMaxLowSurrogate - kMinLowSurrogate) with (Z.ones 10).
  rewrite Z.land_ones by lia. change (2 ^ 10) with 1024. change (2 ^ 16) with 65536. change kMinLowSurrogate with 0xDC00.
  Z.div_mod_to_equations; lia.
Qed.

(** The two escapes of a scalar that has no 16 bits. *)
Lemma surrogates_of rune : 0x10000 <= rune <= 0x10FFFF -> surrogates (high_surrogate rune) (low_surrogate rune) = rune.
Proof.
  intros Hr. rewrite high_surrogate_eq, low_surrogate_eq by lia. rewrite surrogates_scalar; Z.div_mod_to_equations; lia.
Qed.

(** ** Four digits *)

Lemma hex_digit_char d : 0 <= d < 16 -> hex_digit (hex_char d) = Some d.
Proof.
  intros Hd.
  assert (match hex_digit (hex_char d) with Some e => e =? d | None => false end = true) as E.
  { apply (byte_range (fun d => match hex_digit (hex_char d) with Some e => e =? d | None => false end) 0 15); [reflexivity|lia..]. }
  destruct (hex_digit (hex_char d)); [|done]. f_equal. lia.
Qed.

Lemma hex_value_next value d l :
  0 <= d < 16 -> 0 <= value -> hex_value value (hex_char d :: l) = hex_value (value mod 4096 * 16 + d) l.
Proof.
  intros Hd Hv. cbn [hex_value]. rewrite hex_digit_char by done. f_equal. unfold u16.
  rewrite Z.shiftl_mul_pow2 by lia. change (2 ^ 4) with 16. change (2 ^ 16) with 65536.
  assert (value * 16 mod 65536 = value mod 4096 * 16) as -> by (Z.div_mod_to_equations; lia). by apply lor_16.
Qed.

Lemma hex_value_hex4 val : 0 <= val < 0x10000 -> hex_value 0 (hex4 val) = Some val.
Proof.
  intros Hv. unfold hex4. rewrite !hex_value_next by (Z.div_mod_to_equations; lia). cbn [hex_value]. f_equal.
  Z.div_mod_to_equations; lia.
Qed.
