(* ===== verification/JsonGrammar.v ===== *)
(** * JSON texts, and what the lexer makes of them

    The grammar of RFC 8259, without unpaired surrogates, with the bytes that a
    string stands for. The lexer
    on a list ([JsonFlat.v]) takes such a string, and [SkipValue]
    such a value if it is not nested deeper than [recursion_depth]. *)

From S2P Require Import Prelude Utf8 JsonStreamSpec JsonWriter JsonLexer JsonFlat JsonText.

(** ** Strings *)

Definition simple_escapes : list (Z * Z) :=
  [(0x22, 0x22); (0x5C, 0x5C); (0x2F, 0x2F); (0x62, 0x08); (0x66, 0x0C); (0x6E, 0x0A); (0x72, 0x0D); (0x74, 0x09)].

(** One character: its text and its bytes. *)
Inductive string_char : list byte -> list byte -> Prop :=
  | char_plain c l :
      code_point (c :: l) = Some (zlen (c :: l)) -> 0x20 <= b2z c -> b2z c <> 0x22 -> b2z c <> 0x5C ->
      string_char (c :: l) (c :: l)
  | char_escape c b : In (c, b) simple_escapes -> string_char [ch 0x5C; ch c] [ch b]
  | char_unicode h rune l :
      zlen h = 4 -> hex_value 0 h = Some rune -> is_scalar rune -> utf8_of rune = Some l ->
      string_char (ch 0x5C :: ch 0x75 :: h) l
  | char_surrogates h h' high low l :
      zlen h = 4 -> hex_value 0 h = Some high -> 0xD800 <= high <= 0xDBFF ->
      zlen h' = 4 -> hex_value 0 h' = Some low -> 0xDC00 <= low <= 0xDFFF ->
      utf8_of (surrogates high low) = Some l ->
      string_char (ch 0x5C :: ch 0x75 :: h ++ ch 0x5C :: ch 0x75 :: h') l.

(** The text between the quotes, and the bytes. *)
Inductive string_text : list byte -> list byte -> Prop :=
  | text_nil : string_text [] []
  | text_char t l t' l' : string_char t l -> string_text t' l' -> string_text (t ++ t') (l ++ l').

Lemma string_char_nonempty t l : string_char t l -> t <> [].
Proof. by destruct 1. Qed.

Lemma well_formed_app a b : code_point a = Some (zlen a) -> well_formed b = true -> well_formed (a ++ b) = true.
Proof.
  unfold well_formed. intros Ha Hb. apply Z.eqb_eq in Hb. apply Z.eqb_eq.
  rewrite valid_prefix_eq, (code_point_app _ b _ Ha), zdrop_app_exact, zlen_app by done. lia.
Qed.

Lemma string_char_well_formed t l : string_char t l -> code_point l = Some (zlen l).
Proof.
  destruct 1 as [| c b Hin | | h h' high low l Hh Eh Hhigh Hh' Eh' Hlow Hu]; [done| |by eapply utf8_of_code_point|].
  - simpl in Hin. repeat (destruct Hin as [[= <- <-]|Hin]; [reflexivity|]). done.
  - eapply utf8_of_code_point; [|exact Hu]. rewrite surrogates_scalar by done. unfold is_scalar. lia.
Qed.

Lemma string_text_well_formed t l : string_text t l -> well_formed l = true.
Proof.
  induction 1 as [|t l t' l' Hc _ IH]; [done|]. apply well_formed_app; [|done]. by eapply string_char_well_formed.
Qed.

(** ** Steps of the lexer on a list *)

Section runs.
Context `{Utf8RangeOk}.
Implicit Type f : Flat.t.

(** The bytes that are left, with the same options. *)
Definition left f f' (l : list byte) : Prop := Flat.bytes f' = l /\ Flat.options f' = Flat.options f.

Lemma left_trans f f1 f2 l k : left f f1 l -> left f1 f2 k -> left f f2 k.
Proof. intros [] []. split; congruence. Qed.

Lemma first_wp f c l Q : Flat.bytes f = c :: l -> Q c f -> wp Flat.first f Q.
Proof. intros E HQ. unfold Flat.first. apply wp_bind, wp_gets. rewrite E. by apply wp_ret. Qed.

Lemma some_left_wp f c l Q : Flat.bytes f = c :: l -> Q (ok tt) f -> wp Flat.some_left f Q.
Proof. intros E HQ. unfold Flat.some_left. apply wp_bind, wp_gets, wp_ret. by rewrite E. Qed.

Lemma advance_left f n a l : Flat.bytes f = a ++ l -> zlen a = n -> left f (Flat.advance n f) l.
Proof. intros E <-. split; [|done]. simpl. by rewrite E, zdrop_app_exact. Qed.

Lemma advance_one f c l : Flat.bytes f = c :: l -> left f (Flat.advance 1 f) l.
Proof. intros E. by apply (advance_left f 1 [c]). Qed.

Lemma flat_Take_wp f n a l Q :
  Flat.bytes f = a ++ l -> zlen a = n -> (forall f', left f f' l -> Q (ok a) f') -> wp (Flat.Take n) f Q.
Proof.
  intros E <- HQ. unfold Flat.Take. apply wp_bind, wp_gets. rewrite E, zlen_app. pose proof (zlen_nonneg l).
  destruct (Z.ltb_spec (zlen a + zlen l) (zlen a)); [lia|]. apply wp_bind, wp_modS, wp_ret. rewrite ztake_app_exact by done.
  apply HQ. split; [|done]. simpl. by rewrite E, zdrop_app_exact.
Qed.

Lemma ParseU16_wp f h l value Q :
  Flat.bytes f = h ++ l -> zlen h = 4 -> hex_value 0 h = Some value -> (forall f', left f f' l -> Q (ok value) f') ->
  wp Flat.ParseU16HexCodepoint f Q.
Proof.
  intros E Hh Ev HQ. unfold Flat.ParseU16HexCodepoint. apply wp_bind. eapply flat_Take_wp; [exact E|done|]. intros f' Hl.
  rewrite Ev. by apply wp_ret, HQ.
Qed.

(** Blanks. *)
Definition blanks (ws : list byte) : Prop := Forall (fun c => Flat.is_blank c = true) ws.

Lemma skip_blanks f ws c l :
  blanks ws -> Flat.is_blank c = false -> Flat.bytes f = ws ++ c :: l -> left f (Flat.skip f) (c :: l).
Proof.
  intros Hws Hc. unfold Flat.skip. intros E. rewrite E. revert f E. induction Hws as [|b ws Hb Hws IH]; intros f E.
  - cbn [app Flat.skip_loop]. rewrite Hc. unfold Flat.is_blank in Hc. destruct (is_ch 0x0A c); [done|]. by split.
  - cbn [app Flat.skip_loop]. pose proof (advance_one _ _ _ E) as Ha. rewrite Hb.
    destruct (is_ch 0x0A b); [|eapply left_trans; [exact Ha|]; apply IH, Ha].
    eapply left_trans; [|apply IH; by apply Ha]. by destruct Ha.
Qed.

Lemma flat_SkipToToken_wp f ws c l Q :
  blanks ws -> Flat.is_blank c = false -> Flat.bytes f = ws ++ c :: l ->
  (forall f', left f f' (c :: l) -> Q (ok tt) f') -> wp Flat.SkipToToken f Q.
Proof.
  intros Hws Hc E HQ. pose proof (skip_blanks _ _ _ _ Hws Hc E) as Hl. unfold Flat.SkipToToken. apply wp_bind, wp_modS.
  eapply some_left_wp; [apply Hl|]. by apply HQ.
Qed.

Lemma StartsWith_app_self a l : StartsWith (a ++ l) a = true.
Proof. induction a as [|c a IH]; [done|]. cbn [app StartsWith]. by rewrite bool_decide_eq_true_2, IH. Qed.

Lemma Expect_wp f ws c literal literal' l Q :
  literal = c :: literal' -> blanks ws -> Flat.is_blank c = false -> Flat.bytes f = ws ++ literal ++ l ->
  (forall f', left f f' l -> Q (ok tt) f') -> wp (Flat.Expect literal) f Q.
Proof.
  intros El Hws Hc E HQ. unfold Flat.Expect. apply wp_bind.
  eapply (flat_SkipToToken_wp f ws c (literal' ++ l)); [done|done|by rewrite E, El|].
  intros f1 Hl1. apply wp_bind, wp_gets.
  assert (Flat.bytes f1 = literal ++ l) as E1 by (rewrite El; apply Hl1).
  rewrite E1, zlen_app. pose proof (zlen_nonneg l). destruct (Z.ltb_spec (zlen literal + zlen l) (zlen literal)); [lia|].
  rewrite StartsWith_app_self. apply wp_bind, wp_modS, wp_ret, HQ. eapply left_trans; [exact Hl1|]. by eapply advance_left.
Qed.

Lemma Peek_hit f ws c l Q :
  blanks ws -> Flat.is_blank c = false -> Flat.bytes f = ws ++ c :: l ->
  (forall f', left f f' l -> Q true f') -> wp (Flat.Peek [c]) f Q.
Proof.
  intros Hws Hc E HQ. pose proof (skip_blanks _ _ _ _ Hws Hc E) as Hl. unfold Flat.Peek.
  apply wp_bind, wp_modS, wp_bind, wp_gets. rewrite (proj1 Hl). cbn [StartsWith]. rewrite bool_decide_eq_true_2 by done.
  apply wp_bind, wp_modS, wp_ret, HQ. eapply left_trans; [exact Hl|]. eapply advance_one, Hl.
Qed.

Lemma Peek_miss f ws c d l Q :
  blanks ws -> Flat.is_blank c = false -> Flat.bytes f = ws ++ c :: l -> d <> c ->
  (forall f', left f f' (c :: l) -> Q false f') -> wp (Flat.Peek [d]) f Q.
Proof.
  intros Hws Hc E Hd HQ. pose proof (skip_blanks _ _ _ _ Hws Hc E) as Hl. unfold Flat.Peek.
  apply wp_bind, wp_modS, wp_bind, wp_gets. rewrite (proj1 Hl). cbn [StartsWith]. rewrite bool_decide_eq_false_2 by done.
  by apply wp_ret, HQ.
Qed.

(** ** Strings *)

Lemma is_ch_ch z c : 0 <= z < 256 -> is_ch z (ch c) = (c mod 256 =? z).
Proof. intros _. unfold is_ch, ch. by rewrite b2z_z2b. Qed.

Lemma is_ch_false z c : b2z c <> z -> is_ch z c = false.
Proof. intros. by apply Z.eqb_neq. Qed.

Lemma lookahead_of_code_point c l k :
  code_point (c :: l) = Some k -> lookahead_of (b2z c) = Some (k - 1) /\ b2z c <> 0xFF.
Proof.
  intros E. pose proof (b2z_range c). unfold lookahead_of. revert E. cbn [code_point].
  destruct (Z.leb_spec (b2z c) 0x7F).
  { intros [= <-]. rewrite ones_0 by lia. split; [done|lia]. }
  destruct (in_bytes 0xC2 0xDF c) eqn:E2.
  { apply in_bytes_spec in E2. rewrite ones_2 by lia. repeat case_match; try done; intros [= <-]; split; (done || lia). }
  destruct (in_bytes 0xE0 0xEF c) eqn:E3.
  { apply in_bytes_spec in E3. rewrite ones_3 by lia. repeat case_match; try done; intros [= <-]; split; (done || lia). }
  destruct (in_bytes 0xF0 0xF4 c) eqn:E4; [|done].
  apply in_bytes_spec in E4. rewrite ones_4 by lia. repeat case_match; try done; intros [= <-]; split; (done || lia).
Qed.

Lemma string_character_wp f c l tail Q :
  Flat.bytes f = l ++ tail -> code_point (c :: l) = Some (zlen (c :: l)) -> 0x20 <= b2z c ->
  (forall f', left f f' tail -> Q (ok (c :: l)) f') -> wp (Flat.string_character c) f Q.
Proof.
  intros E Hc H20 HQ. destruct (lookahead_of_code_point _ _ _ Hc) as [El Hff]. unfold Flat.string_character.
  apply wp_bind, wp_gets. destruct (Z.ltb_spec (b2z c) 0x20); [lia|]. destruct (Z.eqb_spec (b2z c) 0xFF); [done|]. cbn [orb andb].
  rewrite El. apply wp_bind. eapply flat_Take_wp; [exact E|rewrite zlen_cons; lia|]. intros f' Hl. by apply wp_ret, HQ.
Qed.

Lemma ParseSimpleEscape_table c b legacy :
  In (c, b) simple_escapes ->
  ParseSimpleEscape (ch c) legacy = ch b /\ is_ch 0x75 (ch c) = false /\ is_ch 0x55 (ch c) = false /\ is_ch 0 (ch b) = false.
Proof. intros Hin. simpl in Hin. repeat (destruct Hin as [[= <- <-]|Hin]; [done|]). done. Qed.

Lemma sub_ones h : 0xD800 <= h <= 0xDBFF -> (0xD800 <=? h) && (h <=? 0xDBFF) = true.
Proof. intros. apply andb_true_iff. rewrite !Z.leb_le. lia. Qed.

(** [ParseUnicodeEscape] after the [u]. *)
Lemma ParseUnicodeEscape_scalar f h rune l tail Q :
  Flat.bytes f = h ++ tail -> zlen h = 4 -> hex_value 0 h = Some rune -> is_scalar rune -> utf8_of rune = Some l ->
  (forall f', left f f' tail -> Q (ok l) f') -> wp Flat.ParseUnicodeEscape f Q.
Proof.
  intros E Hh Ev [Hr Hs] Hu HQ. unfold Flat.ParseUnicodeEscape. apply wp_bind. eapply ParseU16_wp; [exact E|done|exact Ev|].
  intros f1 Hl1. cbv zeta. rewrite Hu.
  destruct (Z.leb_spec 0xD800 rune), (Z.leb_spec rune 0xDBFF), (Z.leb_spec 0xDC00 rune), (Z.leb_spec rune 0xDFFF);
    try lia; by apply wp_ret, HQ.
Qed.

Lemma ParseUnicodeEscape_surrogates f h h' high low l tail Q :
  Flat.bytes f = h ++ (ch 0x5C :: ch 0x75 :: h') ++ tail ->
  zlen h = 4 -> hex_value 0 h = Some high -> 0xD800 <= high <= 0xDBFF ->
  zlen h' = 4 -> hex_value 0 h' = Some low -> 0xDC00 <= low <= 0xDFFF -> utf8_of (surrogates high low) = Some l ->
  (forall f', left f f' tail -> Q (ok l) f') -> wp Flat.ParseUnicodeEscape f Q.
Proof.
  intros E Hh Eh Hhigh Hh' Eh' Hlow Hu HQ. unfold Flat.ParseUnicodeEscape. apply wp_bind.
  eapply ParseU16_wp; [exact E|done|exact Eh|]. intros f1 Hl1. cbv zeta. rewrite sub_ones by done. apply wp_bind.
  eapply (Expect_wp f1 [] (ch 0x5C) backslash_u [ch 0x75] (h' ++ tail)); [done|constructor|done|apply Hl1|].
  intros f2 Hl2. apply wp_bind. eapply ParseU16_wp; [apply Hl2|done|exact Eh'|]. intros f3 Hl3.
  destruct (Z.ltb_spec low 0xDC00), (Z.ltb_spec 0xDFFF low); try lia. cbn [orb]. rewrite Hu. apply wp_ret, HQ.
  eapply left_trans; [exact Hl1|]. by eapply left_trans.
Qed.

(** [string_escape] after the backslash. *)
Lemma string_escape_wp f t l tail Q :
  string_char (ch 0x5C :: t) l -> Flat.bytes f = t ++ tail ->
  (forall f', left f f' tail -> Q (ok l) f') -> wp Flat.string_escape f Q.
Proof.
  intros Hc E HQ.
  assert (exists c t', t = c :: t') as (c & t' & ->) by (inversion Hc; subst; eauto; done).
  cbn [app] in E. unfold Flat.string_escape. apply wp_bind. eapply some_left_wp; [exact E|]. apply wp_bind.
  eapply first_wp; [exact E|]. apply wp_bind, wp_modS. pose proof (advance_one _ _ _ E) as Hl1.
  set (f1 := Flat.advance 1 f) in *. apply wp_bind, wp_gets. pose proof (proj1 Hl1) as E1.
  assert (forall f', left f1 f' tail -> Q (ok l) f') as HQ1 by (intros; apply HQ; eapply left_trans; [exact Hl1|done]).
  inversion Hc as [c0 l0 _ _ _ Hne|z b Hin|h rune l0 Hh Ev Hs Hu|h h' high low l0 Hh Eh Hhigh Hh' Eh' Hlow Hu]; subst.
  - by rewrite b2z_z2b_small in Hne.
  - destruct (ParseSimpleEscape_table _ b (allow_legacy_syntax (Flat.options f1)) Hin) as (-> & -> & -> & ->). cbn [orb andb]. by apply wp_ret, HQ1.
  - by eapply ParseUnicodeEscape_scalar.
  - apply (ParseUnicodeEscape_surrogates f1 h h' high low l tail); try done. rewrite E1. by rewrite <- app_assoc.
Qed.

Lemma ParseUtf8_loop_step n f loc acc t l tail Q :
  string_char t l -> Flat.bytes f = t ++ tail ->
  (forall f', left f f' tail -> wp (Flat.ParseUtf8_loop n loc 0x22 (acc ++ l)) f' Q) ->
  wp (Flat.ParseUtf8_loop (S n) loc 0x22 acc) f Q.
Proof.
  intros Hc E HQ. assert (exists c t', t = c :: t') as (c & t' & ->) by (destruct t; [by apply string_char_nonempty in Hc|eauto]).
  cbn [app] in E. cbn [Flat.ParseUtf8_loop]. apply wp_bind. eapply some_left_wp; [exact E|]. apply wp_bind.
  eapply first_wp; [exact E|]. apply wp_bind, wp_modS. pose proof (advance_one _ _ _ E) as Hl1.
  set (f1 := Flat.advance 1 f) in *. pose proof (proj1 Hl1) as E1.
  assert (forall f', left f1 f' tail -> wp (Flat.ParseUtf8_loop n loc 0x22 (acc ++ l)) f' Q) as HQ1
    by (intros; apply HQ; eapply left_trans; [exact Hl1|done]).
  destruct (decide (c = ch 0x5C)) as [->|Hne].
  - cbn. apply wp_bind. eapply string_escape_wp; [exact Hc|exact E1|done].
  - inversion Hc; subst; try done. rewrite !is_ch_false by done. apply wp_bind.
    eapply string_character_wp; [exact E1|done|done|done].
Qed.

Lemma ParseUtf8_loop_text n f loc acc t l tail :
  string_text t l -> Flat.bytes f = t ++ ch 0x22 :: tail -> well_formed (acc ++ l) = true -> (length t < n)%nat ->
  wp (Flat.ParseUtf8_loop n loc 0x22 acc) f (fun r f' => r = ok (acc ++ l, loc) /\ left f f' tail).
Proof.
  intros Ht. revert n f acc. induction Ht as [|t l t' l' Hc Ht IH]; intros n f acc E Hw Hn; (destruct n as [|n]; [lia|]).
  - cbn [app] in E. cbn [Flat.ParseUtf8_loop]. apply wp_bind. eapply some_left_wp; [exact E|]. apply wp_bind.
    eapply first_wp; [exact E|]. apply wp_bind, wp_modS. cbn [is_ch]. rewrite app_nil_r in *.
    rewrite is_ok, Hw. apply wp_ret. split; [done|]. by eapply advance_one.
  - rewrite <- app_assoc in E. eapply ParseUtf8_loop_step; [exact Hc|exact E|]. intros f1 Hl1.
    pose proof (string_char_nonempty _ _ Hc) as Hne. rewrite app_assoc in Hw. rewrite length_app in Hn.
    wp_use IH; [apply Hl1|done|destruct t; [done|simpl in *; lia]|]. intros r f2 [-> Hl2]. rewrite app_assoc. split; [done|].
    by eapply left_trans.
Qed.

Lemma ParseUtf8_text f ws t l tail :
  string_text t l -> blanks ws -> Flat.bytes f = ws ++ ch 0x22 :: t ++ ch 0x22 :: tail ->
  wp Flat.ParseUtf8 f (fun r f' => left f f' tail /\ exists loc, r = ok (l, loc)).
Proof.
  intros Ht Hws E. unfold Flat.ParseUtf8. apply wp_bind.
  eapply (flat_SkipToToken_wp f ws (ch 0x22)); [exact Hws|done|exact E|].
  intros f1 Hl1. apply wp_bind. eapply first_wp; [apply Hl1|]. cbv zeta. apply wp_bind, wp_gets.
  change (is_ch 0x27 (ch 0x22)) with false. rewrite andb_false_r. apply wp_bind, wp_gets, wp_bind.
  eapply (Expect_wp f1 [] (ch 0x22) [ch 0x22] []); [done|constructor|done|apply Hl1|]. intros f2 Hl2.
  apply wp_bind, wp_gets. wp_use ParseUtf8_loop_text; [exact Ht|apply Hl2|by eapply string_text_well_formed| |].
  { rewrite (proj1 Hl2), length_app. simpl. lia. }
  intros r f3 [-> Hl3]. split; [|by eexists]. eapply left_trans; [exact Hl1|]. by eapply left_trans.
Qed.
End runs.
