(* ===== verification/JsonWriterSpec.v ===== *)
(** * What the JSON writer prints

    The text of a string, scalar by scalar; it is a string of the grammar of
    [JsonGrammar.v], and each operation appends its text to the sink. *)

From S2P Require Import Prelude ZeroCopyOutput Utf8 ByteSink JsonWriter JsonLexer JsonText JsonGrammar.

(** ** The writer *)

(** What is written for a scalar and for a string. *)
Definition escape_scalar (s : Utf8Scalar) : list byte :=
  match MustEscape (scalar s) with
  | None => utf8 s
  | Some ((_ :: _) as custom_escape) => custom_escape
  | Some [] =>
      if scalar s <? 0x10000 then ch 0x5C :: ch 0x75 :: hex4 (scalar s)
      else (ch 0x5C :: ch 0x75 :: hex4 (high_surrogate (scalar s))) ++ ch 0x5C :: ch 0x75 :: hex4 (low_surrogate (scalar s))
  end.

Fixpoint escape_loop (n : nat) (str : list byte) : list byte :=
  match n with
  | O => []
  | S n => match ConsumeUtf8Scalar str with Some (s, str) => escape_scalar s ++ escape_loop n str | None => [] end
  end.
Definition escape (str : list byte) : list byte := escape_loop (length str) str.

Section written.
Context {S : Type} `{ZeroCopyOutputStreamOk S}.
Implicit Type w : writer S.

(** [l] has been written, and nothing else has changed. *)
Definition wrote (l : list byte) w w' : Prop :=
  ByteSink.appended l (sink_ w) (sink_ w') /\ JsonWriter.options_ w' = JsonWriter.options_ w /\ indent_ w' = indent_ w.

Lemma json_wrote_trans l k w w1 w2 : wrote l w w1 -> wrote k w1 w2 -> wrote (l ++ k) w w2.
Proof. intros (Ha & Ho & Hi) (Ha2 & Ho2 & Hi2). split; [by eapply ByteSink.appended_trans|]. split; congruence. Qed.

Lemma wrote_wf l w w' : wrote l w w' -> ByteSink.wf (sink_ w').
Proof. by intros [[] _]. Qed.

Lemma json_wrote_nil w : ByteSink.wf (sink_ w) -> wrote [] w w.
Proof. intros Hw. split; [by apply ByteSink.appended_nil|done]. Qed.

Lemma Write_wp l w : ByteSink.wf (sink_ w) -> wp (JsonWriter.Write l) w (fun _ w' => wrote l w w').
Proof.
  intros Hw. unfold JsonWriter.Write, wp. pose proof (ByteSink.Append_wp l (sink_ w) Hw) as Ha. unfold wp in Ha.
  destruct (ByteSink.Append l (sink_ w)) as [[u s]|]; [|done]. by split.
Qed.

(** Two writes, one after the other. *)
Lemma wrote_bind l k w (m m' : M (writer S) unit) :
  wp m w (fun _ w' => wrote l w w') -> (forall w', ByteSink.wf (sink_ w') -> wp m' w' (fun _ w2 => wrote k w' w2)) ->
  wp (m ;;; m') w (fun _ w' => wrote (l ++ k) w w').
Proof.
  intros Hm Hm'. apply wp_bind. eapply wp_mono; [exact Hm|]. cbv beta. intros [] w1 Hw1.
  eapply wp_mono; [apply Hm'; by eapply wrote_wf|]. cbv beta. intros [] w2 Hw2. by eapply json_wrote_trans.
Qed.

Lemma write_scalar_wp s w :
  ByteSink.wf (sink_ w) ->
  wp (match MustEscape (scalar s) with
      | None => JsonWriter.Write (utf8 s)
      | Some ((_ :: _) as custom_escape) => JsonWriter.Write custom_escape
      | Some [] =>
          if scalar s <? 0x10000 then WriteUEscape (scalar s) else
          WriteUEscape (high_surrogate (scalar s)) ;;; WriteUEscape (low_surrogate (scalar s))
      end) w (fun _ w' => wrote (escape_scalar s) w w').
Proof.
  intros Hw. unfold escape_scalar. destruct (MustEscape (scalar s)) as [[|c l]|]; [|by apply Write_wp..].
  destruct (scalar s <? 0x10000); [by apply Write_wp|]. apply wrote_bind; [by apply Write_wp|]. intros. by apply Write_wp.
Qed.

Lemma lookahead_loop_shorter n v str : (length (snd (lookahead_loop n v str)) <= length str)%nat.
Proof.
  revert v str. induction n as [|n IH]; intros v str; [done|]. destruct str as [|c str]; [done|]. cbn [lookahead_loop].
  destruct (negb _); [simpl; lia|]. set (u := Z.lor _ _). specialize (IH u str). destruct (lookahead_loop n u str) as [[r t] l].
  simpl in *. lia.
Qed.

Lemma ConsumeUtf8Scalar_shorter c str : exists s str', ConsumeUtf8Scalar (c :: str) = Some (s, str') /\ (length str' <= length str)%nat.
Proof.
  unfold ConsumeUtf8Scalar.
  assert (forall o : Z * list byte * list byte, (length (snd o) <= length str)%nat ->
    exists s str', (let '(value, taken, str) := o in
      Some ({| scalar := if kMaxCodePoint <? value then kErrorSentinel else value; utf8 := c :: taken |}, str)) = Some (s, str') /\
      (length str' <= length str)%nat) as Ho.
  { intros [[v t] l] Hl. by eexists _, _. }
  cbv zeta. apply Ho. repeat case_match; try apply lookahead_loop_shorter; done.
Qed.

Lemma WriteEscapedUtf8_wp str w :
  ByteSink.wf (sink_ w) -> wp (WriteEscapedUtf8 str) w (fun _ w' => wrote (escape str) w w').
Proof.
  unfold WriteEscapedUtf8, escape. remember (length str) as n eqn:En. assert (length str <= n)%nat as Hn by lia. clear En.
  revert str w Hn. induction n as [|n IH]; intros str w Hn Hw.
  { destruct str; [|simpl in Hn; lia]. apply wp_ret. by apply json_wrote_nil. }
  cbn [WriteEscapedUtf8_loop escape_loop]. destruct str as [|c str]; [apply wp_ret; by apply json_wrote_nil|].
  destruct (ConsumeUtf8Scalar_shorter c str) as (s & str' & E & Hl). rewrite E. apply wp_bind. eapply wp_lift; [reflexivity|].
  apply wrote_bind; [by apply write_scalar_wp|]. intros w' Hw'. apply IH; [simpl in Hn; lia|done].
Qed.

Lemma WriteQuoted_wp str w :
  ByteSink.wf (sink_ w) -> wp (WriteQuoted str) w (fun _ w' => wrote (ch 0x22 :: escape str ++ [ch 0x22]) w w').
Proof.
  intros Hw. apply (wrote_bind [ch 0x22]); [by apply Write_wp|]. intros w1 Hw1.
  apply wrote_bind; [by apply WriteEscapedUtf8_wp|]. intros w2 Hw2. by apply Write_wp.
Qed.
End written.

(** *** The text is JSON *)

Lemma MustEscape_none rune :
  0 <= rune <= 0x10FFFF -> MustEscape rune = None -> 0x20 <= rune /\ rune <> 0x22 /\ rune <> 0x5C.
Proof.
  intros Hr. unfold MustEscape. cbv zeta.
  repeat match goal with |- context [rune =? ?z] => destruct (Z.eqb_spec rune z); [done|] end.
  destruct (existsb (Z.eqb rune) escaped_cases); [done|]. unfold kEscapedRanges. cbn [existsb].
  destruct (Z.leb_spec 0 rune); [|lia]. destruct (Z.leb_spec rune 0x1F); [done|]. split; [lia|done].
Qed.

Lemma MustEscape_custom rune c l :
  rune <> kErrorSentinel -> MustEscape rune = Some (c :: l) ->
  exists e, c = ch 0x5C /\ l = [ch e] /\ In (e, rune) simple_escapes /\ rune <= 0x7F.
Proof.
  intros Hne. unfold MustEscape. cbv zeta. rewrite (proj2 (Z.eqb_neq rune kErrorSentinel) Hne).
  repeat match goal with |- context [rune =? ?z] =>
    destruct (Z.eqb_spec rune z) as [->|]; [intros [= <- <-]; eexists; split; [done|]; split; [done|]; split; [simpl; tauto|lia]|] end.
  destruct (existsb (Z.eqb rune) escaped_cases); [done|]. by destruct (existsb _ kEscapedRanges).
Qed.

Lemma utf8_of_ascii rune c : 0 <= rune -> b2z c <= 0x7F -> (exists l, utf8_of rune = Some (c :: l)) -> b2z c = rune.
Proof.
  intros Hr Hc [l E]. rewrite utf8_of_eq in E by done.
  repeat match goal with H : context [rune <=? ?z] |- _ => destruct (Z.leb_spec rune z) end; try done; injection E as E _; subst c.
  { by rewrite b2z_z2b_small by lia. }
  all: rewrite b2z_z2b_small in Hc by (Z.div_mod_to_equations; lia); Z.div_mod_to_equations; lia.
Qed.

Lemma escape_scalar_text str k rune :
  code_point str = Some k -> scalar_at str k rune -> string_char (escape_scalar {| scalar := rune; utf8 := ztake k str |}) (ztake k str).
Proof.
  intros Hc ([Hr Hs] & Hu & _ & _). pose proof (code_point_range _ _ Hc) as [Hk Hk'].
  pose proof (code_point_take _ _ k Hc ltac:(lia)) as Hct. assert (zlen (ztake k str) = k) as Hz by (rewrite zlen_ztake; lia).
  unfold escape_scalar. cbn [scalar utf8]. destruct (MustEscape rune) as [[|c l]|] eqn:E.
  - destruct (Z.ltb_spec rune 0x10000).
    + eapply char_unicode; [done|by apply hex_value_hex4; lia|done|done].
    + eapply (char_surrogates _ _ (high_surrogate rune) (low_surrogate rune)); [done|apply hex_value_hex4| |done|apply hex_value_hex4| |].
      all: try (rewrite high_surrogate_eq by lia; Z.div_mod_to_equations; lia).
      all: try (rewrite low_surrogate_eq by lia; Z.div_mod_to_equations; lia).
      by rewrite surrogates_of by lia.
  - destruct (MustEscape_custom rune c l) as (e & -> & -> & Hin & Hle); [unfold kErrorSentinel; lia|done|].
    rewrite utf8_of_eq in Hu by lia. destruct (Z.leb_spec rune 0x7F); [|lia]. injection Hu as <-. by apply char_escape.
  - destruct (MustEscape_none rune Hr E) as (? & ? & ?). destruct (ztake k str) as [|c l]; [done|].
    rewrite <- Hz in Hct. pose proof (b2z_range c).
    assert (b2z c = rune \/ 0x7F < b2z c) as Hcase.
    { destruct (Z.leb_spec (b2z c) 0x7F); [left; apply utf8_of_ascii; [lia|done|by eexists]|by right]. }
    apply char_plain; [done|lia|lia|lia].
Qed.

Lemma escape_text str : well_formed str = true -> string_text (escape str) str.
Proof.
  unfold escape. remember (length str) as n eqn:En. assert (length str <= n)%nat as Hn by lia. clear En.
  revert str Hn. induction n as [|n IH]; intros str Hn Hw.
  { destruct str; [constructor|simpl in Hn; lia]. }
  cbn [escape_loop]. destruct str as [|c str]; [constructor|]. unfold well_formed in Hw. apply Z.eqb_eq in Hw.
  rewrite valid_prefix_eq in Hw. destruct (code_point (c :: str)) as [k|] eqn:Ec; cycle 1.
  { rewrite zlen_cons in Hw. pose proof (zlen_nonneg str). lia. }
  destruct (code_point_scalar _ _ Ec) as [rune Hs]. pose proof Hs as (_ & _ & -> & _).
  rewrite <- (ztake_zdrop k (c :: str)) at 3. pose proof (code_point_range _ _ Ec) as [Hk Hk'].
  constructor; [by apply escape_scalar_text|].
  assert (zlen (zdrop k (c :: str)) = zlen (c :: str) - k) as Hz by (rewrite zlen_zdrop; lia).
  apply IH; [unfold zlen in *; cbn [length] in *; lia|]. unfold well_formed. apply Z.eqb_eq. lia.
Qed.
