(* ===== verification/JsonValues.v ===== *)
(** * JSON values, and [SkipValue]

    The rest of the grammar of RFC 8259, without unpaired surrogates. [SkipValue] takes a value that is nested
    no deeper than [recursion_depth]; after a number it has also taken the blanks
    that follow. *)

From S2P Require Import Prelude Utf8 JsonStreamSpec JsonWriter JsonLexer JsonFlat JsonText JsonGrammar.

(** ** Numbers *)

Definition digits (l : list byte) : Prop := Forall (fun c => ascii_isdigit c = true) l.

(** No leading zero. *)
Definition int_text (l : list byte) : Prop :=
  l = [ch 0x30] \/ exists c k, l = c :: k /\ ascii_isdigit c = true /\ is_ch 0x30 c = false /\ digits k.

Definition fraction_text (l : list byte) : Prop := l = [] \/ exists k, l = ch 0x2E :: k /\ k <> [] /\ digits k.

Definition exponent_text (l : list byte) : Prop :=
  l = [] \/ exists e sign k, l = e :: sign ++ k /\ (e = ch 0x65 \/ e = ch 0x45) /\
    (sign = [] \/ sign = [ch 0x2B] \/ sign = [ch 0x2D]) /\ k <> [] /\ digits k.

Definition number_text (l : list byte) : Prop :=
  exists minus int fraction exponent, l = minus ++ int ++ fraction ++ exponent /\
    (minus = [] \/ minus = [ch 0x2D]) /\ int_text int /\ fraction_text fraction /\ exponent_text exponent.

(** What may follow a number: the end of the input right behind it, or, after any
    blanks, the byte that ends an element or a member. Blanks and then the end of
    the input are refused ([number_and_blank] of JsonTheorems.v). *)
Definition is_closing (c : byte) : bool := is_ch 0x2C c || is_ch 0x5D c || is_ch 0x7D c.
Definition follow (l : list byte) : Prop :=
  l = [] \/ exists ws c k, l = ws ++ c :: k /\ blanks ws /\ is_closing c = true.

(** A value that is a number, by its first byte; only then does [SkipValue] look at
    what follows. *)
Definition begins_number (v : list byte) : bool :=
  match v with c :: _ => match kind_of c with Some kNum => true | _ => false end | [] => false end.

(** The first byte after a number. *)
Definition stops (l : list byte) : Prop :=
  match l with [] => True | c :: _ => Flat.is_blank c || is_closing c = true end.

Lemma follow_stops l : follow l -> stops l.
Proof.
  intros [->|(ws & c & k & -> & Hws & Hc)]; [done|]. destruct Hws as [|b ws Hb _]; simpl; [by rewrite Hc, orb_true_r|by rewrite Hb].
Qed.

Section taken.
Notation taken := (taken_while number_char).

Lemma digits_taken st prev i ds k :
  ds <> [] -> digits ds -> exists d i', ascii_isdigit d = true /\ taken (st, prev) i (ds ++ k) = ds ++ taken (st, d) i' k.
Proof.
  intros Hne Hd. revert prev i Hne. induction Hd as [|c ds Hc Hd IH]; intros prev i Hne; [done|].
  cbn [app taken_while number_char]. rewrite Hc. destruct ds as [|c' ds].
  - exists c, (i + 1). done.
  - destruct (IH c (i + 1) ltac:(done)) as (d & i' & Hdig & E). exists d, i'. split; [done|]. f_equal. exact E.
Qed.

(** A byte that is no digit decides by its value. *)
Lemma byte_cases (P : byte -> bool) c : forallb (fun z => P (z2b z)) (map Z.of_nat (seq 0 256)) = true -> P c = true.
Proof.
  intros HP. pose proof (byte_forall (fun z => P (z2b z)) HP (b2z c) (b2z_range c)) as Hb. cbv beta in Hb. by rewrite z2b_b2z in Hb.
Qed.

Lemma stops_not_number c :
  Flat.is_blank c || is_closing c = true ->
  ascii_isdigit c = false /\ is_ch 0x2D c = false /\ is_ch 0x2E c = false /\ is_ch 0x65 c = false /\ is_ch 0x45 c = false.
Proof.
  intros Hc.
  pose proof (byte_cases (fun c => negb (Flat.is_blank c || is_closing c) ||
    negb (ascii_isdigit c || is_ch 0x2D c || is_ch 0x2E c || is_ch 0x65 c || is_ch 0x45 c)) c eq_refl) as Hb.
  cbv beta in Hb. rewrite Hc in Hb. cbn [negb orb] in Hb. apply negb_true_iff in Hb.
  repeat (apply orb_false_iff in Hb as [Hb ?]). done.
Qed.

Lemma digit_not_e d : ascii_isdigit d = true -> is_ch 0x65 d || is_ch 0x45 d = false.
Proof.
  intros Hd. pose proof (byte_cases (fun d => negb (ascii_isdigit d) || negb (is_ch 0x65 d || is_ch 0x45 d)) d eq_refl) as Hb.
  cbv beta in Hb. rewrite Hd in Hb. by apply negb_true_iff.
Qed.

Lemma stops_taken st d i k : ascii_isdigit d = true -> stops k -> taken (st, d) i k = [].
Proof.
  intros Hd Hk. destruct k as [|c k]; [done|]. cbn [taken_while number_char].
  destruct (stops_not_number c Hk) as (-> & -> & -> & -> & ->). rewrite digit_not_e by done.
  rewrite !andb_false_r. done.
Qed.

Lemma exponent_taken st d i l k :
  ascii_isdigit d = true -> st <> kExponent -> exponent_text l -> stops k -> taken (st, d) i (l ++ k) = l.
Proof.
  intros Hd Hst [->|(e & sign & ds & -> & He & Hsign & Hne & Hds)] Hk; [by apply stops_taken|].
  assert (taken (st, d) i ((e :: sign ++ ds) ++ k) = e :: taken (kExponent, e) (i + 1) (sign ++ ds ++ k)) as ->.
  { cbn [app taken_while number_char]. rewrite Hd, <- app_assoc. destruct st; [..|done]; destruct He as [-> | ->]; reflexivity. }
  f_equal. assert (forall c i, (c = e \/ c = ch 0x2B \/ c = ch 0x2D) -> taken (kExponent, c) i (ds ++ k) = ds) as Hend.
  { intros c i' _. destruct (digits_taken kExponent c i' ds k Hne Hds) as (d' & i2 & Hd' & ->).
    by rewrite stops_taken, app_nil_r. }
  destruct Hsign as [->|[->| ->]]; [apply Hend; by left|..]; cbn [app].
  - assert (taken (kExponent, e) (i + 1) (ch 0x2B :: ds ++ k) = ch 0x2B :: taken (kExponent, ch 0x2B) (i + 1 + 1) (ds ++ k)) as ->
      by (destruct He as [-> | ->]; reflexivity).
    rewrite Hend by (right; by left). done.
  - assert (taken (kExponent, e) (i + 1) (ch 0x2D :: ds ++ k) = ch 0x2D :: taken (kExponent, ch 0x2D) (i + 1 + 1) (ds ++ k)) as ->
      by (destruct He as [-> | ->]; reflexivity).
    rewrite Hend by (right; by right). done.
Qed.

Lemma int_digits l : int_text l -> l <> [] /\ digits l.
Proof.
  intros [->|(c & k & -> & Hc & _ & Hk)]; (split; [done|]); [by repeat constructor|by constructor].
Qed.

(** The lexer takes the whole number. *)
Lemma number_taken l k : number_text l -> stops k -> taken (kInt, ch 0) 0 (l ++ k) = l.
Proof.
  intros (minus & int & fraction & exponent & -> & Hm & Hint & Hf & He) Hk. destruct (int_digits _ Hint) as [Hne Hd].
  assert (forall c i, taken (kInt, c) i (int ++ (fraction ++ exponent) ++ k) = int ++ fraction ++ exponent) as Hrest.
  { intros c i. destruct (digits_taken kInt c i int ((fraction ++ exponent) ++ k) Hne Hd) as (d & i' & Hdig & ->). f_equal.
    destruct Hf as [->|(ds & -> & Hne2 & Hd2)]; [by apply exponent_taken|].
    assert (taken (kInt, d) i' (((ch 0x2E :: ds) ++ exponent) ++ k) = ch 0x2E :: taken (kFraction, ch 0x2E) (i' + 1) (ds ++ exponent ++ k)) as ->.
    { cbn [app taken_while number_char]. rewrite Hdig, <- app_assoc. reflexivity. }
    destruct (digits_taken kFraction (ch 0x2E) (i' + 1) ds (exponent ++ k) Hne2 Hd2) as (d2 & i2 & Hdig2 & ->).
    cbn [app]. f_equal. f_equal. by apply exponent_taken. }
  assert (forall c i, taken (kInt, c) i (int ++ fraction ++ exponent ++ k) = int ++ fraction ++ exponent) as Hrest'.
  { intros c i. pose proof (Hrest c i) as Hr. rewrite <- !app_assoc in Hr. exact Hr. }
  destruct Hm as [-> | ->]; cbn [app]; rewrite <- !app_assoc; [by apply Hrest'|].
  assert (forall t, taken (kInt, ch 0) 0 (ch 0x2D :: t) = ch 0x2D :: taken (kInt, ch 0x2D) (0 + 1) t) as -> by reflexivity.
  f_equal. apply Hrest'.
Qed.
End taken.

Lemma exponent_no_zero l : exponent_text l -> match l with c :: _ => ascii_isdigit c = false | [] => True end.
Proof. intros [->|(e & sign & k & -> & [-> | ->] & _)]; done. Qed.

Lemma fraction_no_zero l k :
  fraction_text l -> exponent_text k -> match l ++ k with c :: _ => ascii_isdigit c = false | [] => True end.
Proof. intros [->|(ds & -> & _)] Hk; [by apply exponent_no_zero|done]. Qed.

Lemma digits_last l : l <> [] -> digits l -> exists k d, l = k ++ [d] /\ ascii_isdigit d = true.
Proof.
  intros Hne Hd. destruct (exists_last Hne) as (k & d & ->). exists k, d. split; [done|].
  apply Forall_app in Hd as [_ Hd]. by inversion Hd.
Qed.

(** A number ends in a digit. *)
Lemma number_last l : number_text l -> exists k d, l = k ++ [d] /\ ascii_isdigit d = true.
Proof.
  intros (minus & int & fraction & exponent & -> & Hm & Hint & Hf & He). destruct (int_digits _ Hint) as [Hne Hd].
  destruct He as [->|(e & sign & ds & -> & _ & _ & Hne3 & Hd3)].
  - destruct Hf as [->|(ds & -> & Hne2 & Hd2)].
    + destruct (digits_last _ Hne Hd) as (k & d & -> & Hdig). exists (minus ++ k), d. split; [by rewrite !app_nil_r, <- app_assoc|done].
    + destruct (digits_last _ Hne2 Hd2) as (k & d & -> & Hdig). exists (minus ++ int ++ ch 0x2E :: k), d.
      split; [by rewrite app_nil_r, <- !app_assoc|done].
  - destruct (digits_last _ Hne3 Hd3) as (k & d & -> & Hdig). exists (minus ++ int ++ fraction ++ e :: sign ++ k), d.
    split; [|done]. rewrite <- !app_assoc. cbn [app]. by rewrite <- !app_assoc.
Qed.

Lemma number_first l : number_text l -> exists c k, l = c :: k /\ kind_of c = Some kNum /\ Flat.is_blank c = false.
Proof.
  intros (minus & int & fraction & exponent & -> & Hm & Hint & _). destruct Hm as [-> | ->]; [|by eexists _, _].
  destruct (int_digits _ Hint) as [Hne Hd]. destruct Hd as [|c int Hc Hd]; [done|]. exists c, (int ++ fraction ++ exponent).
  split; [done|]. pose proof (byte_cases (fun c => negb (ascii_isdigit c) ||
    (match kind_of c with Some kNum => true | _ => false end && negb (Flat.is_blank c))) c eq_refl) as Hb.
  cbv beta in Hb. rewrite Hc in Hb. cbn [negb orb] in Hb. apply andb_true_iff in Hb as [Hk Hb].
  split; [by destruct (kind_of c) as [[]|]|by apply negb_true_iff].
Qed.

Lemma is_ch_zero_digit c : ascii_isdigit c = true -> is_ch 0x2D c = false /\ is_ch 0x2E c = false.
Proof.
  intros Hc. pose proof (byte_cases (fun c => negb (ascii_isdigit c) || negb (is_ch 0x2D c || is_ch 0x2E c)) c eq_refl) as Hb.
  cbv beta in Hb. rewrite Hc in Hb. cbn [negb orb] in Hb. apply negb_true_iff in Hb. by apply orb_false_iff.
Qed.

(** The checks of [ParseRawNumber] on what follows the sign. *)
Lemma leading_zero_ok int k :
  int_text int -> match k with c :: _ => ascii_isdigit c = false | [] => True end ->
  match int ++ k with a :: b :: _ => is_ch 0x30 a && ascii_isdigit b | _ => false end = false.
Proof.
  intros [->|(c & l & -> & Hc & Hz & Hl)] Hk; cbn [app].
  - destruct k as [|b k]; [done|]. by rewrite Hk, andb_false_r.
  - destruct (l ++ k); [done|]. by rewrite Hz.
Qed.

Lemma number_no_error {D} (SimpleAtod : list byte -> option D) l d :
  number_text l -> SimpleAtod l = Some d -> number_error SimpleAtod l = None.
Proof.
  intros Hn Hd. destruct (number_last l Hn) as (p & e & Ep & He). destruct (number_first l Hn) as (c & k & Ec & _).
  assert (is_ch 0x2E (List.last l c) = false) as Hlast by (rewrite Ep, List.last_last; by apply is_ch_zero_digit).
  destruct Hn as (minus & int & fraction & exponent & E & Hm & Hint & Hf & Hx). unfold number_error. rewrite Ec in *.
  pose proof (leading_zero_ok int (fraction ++ exponent) Hint (fraction_no_zero _ _ Hf Hx)) as Hzero.
  destruct (int_digits _ Hint) as [Hne Hdig]. rewrite Hd, Hlast. destruct Hm as [-> | ->]; cbn [app] in E.
  - destruct Hdig as [|c' int' Hc' _]; [done|]. injection E as <- ->. destruct (is_ch_zero_digit c Hc') as [-> _]. cbn [andb].
    cbn [app] in Hzero. by rewrite Hzero.
  - injection E as -> ->. change (is_ch 0x2D (ch 0x2D)) with true. cbn [andb].
    rewrite Hzero. destruct int; [done|]. done.
Qed.

(** ** Values *)

(** Lengths of texts. *)
Ltac lens := repeat (progress (rewrite ?length_app; cbn [length app])); lia.

Section values.
Context `{Utf8RangeOk} {D : Type} (SimpleAtod : list byte -> option D).
Implicit Type f : Flat.t.

(** A value nested at most [d] deep, the elements of an array and the members of
    an object. A number has to have a finite double. *)
Inductive value : Z -> list byte -> Prop :=
  | value_null d : value d null_word
  | value_true d : value d true_word
  | value_false d : value d false_word
  | value_number d l v : number_text l -> SimpleAtod l = Some v -> value d l
  | value_string d t l : string_text t l -> value d (ch 0x22 :: t ++ [ch 0x22])
  | value_empty_array d ws : 0 < d -> blanks ws -> value d (ch 0x5B :: ws ++ [ch 0x5D])
  | value_array d l : 0 < d -> elements (d - 1) l -> value d (ch 0x5B :: l ++ [ch 0x5D])
  | value_empty_object d ws : 0 < d -> blanks ws -> value d (ch 0x7B :: ws ++ [ch 0x7D])
  | value_object d l : 0 < d -> members (d - 1) l -> value d (ch 0x7B :: l ++ [ch 0x7D])
with elements : Z -> list byte -> Prop :=
  | elements_one d ws v ws' : blanks ws -> value d v -> blanks ws' -> elements d (ws ++ v ++ ws')
  | elements_more d ws v ws' l :
      blanks ws -> value d v -> blanks ws' -> elements d l -> elements d (ws ++ v ++ ws' ++ ch 0x2C :: l)
with members : Z -> list byte -> Prop :=
  | members_one d l ws' : member d l -> blanks ws' -> members d (l ++ ws')
  | members_more d l ws' k : member d l -> blanks ws' -> members d k -> members d (l ++ ws' ++ ch 0x2C :: k)
with member : Z -> list byte -> Prop :=
  | member_intro d ws t l ws1 ws2 v :
      blanks ws -> string_text t l -> blanks ws1 -> blanks ws2 -> value d v ->
      member d (ws ++ ch 0x22 :: t ++ ch 0x22 :: ws1 ++ ch 0x3A :: ws2 ++ v).

Scheme value_mut := Induction for value Sort Prop
with elements_mut := Induction for elements Sort Prop
with members_mut := Induction for members Sort Prop
with member_mut := Induction for member Sort Prop.
Combined Scheme value_ind_all from value_mut, elements_mut, members_mut, member_mut.

(** What was to be taken has been, and perhaps blanks that follow. *)
Definition eats f (tail : list byte) f' : Prop :=
  exists ws, blanks ws /\ tail = ws ++ Flat.bytes f' /\ Flat.options f' = Flat.options f.

Lemma left_eats f f' l : left f f' l -> eats f l f'.
Proof. intros [<- Ho]. exists []. by split; [constructor|]. Qed.

Lemma eats_trans f f1 l f2 k : left f f1 l -> eats f1 k f2 -> eats f k f2.
Proof. intros [_ Ho] (ws & Hws & E & Ho2). exists ws. split_and!; [done|done|congruence]. Qed.

(** Some of the blanks before a token have been taken. *)
Lemma strip_blanks ws c l ws' k :
  ws ++ c :: l = ws' ++ k -> blanks ws -> blanks ws' -> Flat.is_blank c = false ->
  exists ws2, blanks ws2 /\ k = ws2 ++ c :: l.
Proof.
  intros E Hws Hws' Hc. revert ws' Hws' E. induction Hws as [|b ws Hb Hws IH]; intros ws' Hws' E; cbn [app] in E.
  - destruct Hws' as [|b' ws' Hb' _]; [exists []; by split; [constructor|]|]. injection E as <- _. congruence.
  - destruct Hws' as [|b' ws' Hb' Hws']; cbn [app] in E.
    + exists (b :: ws). split; [by constructor|done].
    + injection E as <- E. by eapply IH.
Qed.

(** The next token is still there. *)
Lemma eats_token f ws c l f' :
  eats f (ws ++ c :: l) f' -> blanks ws -> Flat.is_blank c = false ->
  exists ws', blanks ws' /\ Flat.bytes f' = ws' ++ c :: l /\ Flat.options f' = Flat.options f.
Proof.
  intros (ws1 & Hws1 & E & Ho) Hws Hc. destruct (strip_blanks _ _ _ _ _ E Hws Hws1 Hc) as (ws2 & ? & ?). by exists ws2.
Qed.

Lemma closing_not_blank c : is_closing c = true -> Flat.is_blank c = false.
Proof.
  intros Hc. pose proof (byte_cases (fun c => negb (is_closing c) || negb (Flat.is_blank c)) c eq_refl) as Hb.
  cbv beta in Hb. rewrite Hc in Hb. by apply negb_true_iff in Hb.
Qed.

Lemma PeekKind_wp f ws c l kind Q :
  blanks ws -> kind_of c = Some kind -> Flat.is_blank c = false -> Flat.bytes f = ws ++ c :: l ->
  (forall f', left f f' (c :: l) -> Q (ok kind) f') -> wp Flat.PeekKind f Q.
Proof.
  intros Hws Hk Hc E HQ. unfold Flat.PeekKind. apply wp_bind. eapply flat_SkipToToken_wp; [exact Hws|exact Hc|exact E|].
  intros f' Hl. apply wp_bind. eapply first_wp; [apply Hl|]. rewrite Hk. by apply wp_ret, HQ.
Qed.

Lemma ParseNumber_text f l d tail :
  number_text l -> SimpleAtod l = Some d -> follow tail -> Flat.bytes f = l ++ tail ->
  wp (Flat.ParseNumber SimpleAtod) f (fun r f' => (exists loc, r = ok (d, loc)) /\ eats f tail f').
Proof.
  intros Hn Hd Hf E. destruct (number_first l Hn) as (c & k & Ec & _ & Hc).
  unfold Flat.ParseNumber. apply wp_bind. unfold Flat.ParseRawNumber. apply wp_bind.
  eapply (flat_SkipToToken_wp f [] c (k ++ tail)); [constructor|done|by rewrite E, Ec|]. intros f1 Hl1.
  assert (Flat.bytes f1 = l ++ tail) as E1 by (rewrite Ec; apply Hl1).
  apply wp_bind. unfold Flat.TakeWhile. apply wp_bind, wp_gets, wp_bind, wp_gets, wp_bind, wp_modS, wp_ret.
  rewrite E1, number_taken by (done || by apply follow_stops). rewrite (number_no_error SimpleAtod l d) by done.
  set (f2 := Flat.drop (zlen l) f1). assert (left f1 f2 tail) as Hl2 by (split; [simpl; by rewrite E1, zdrop_app_exact|done]).
  apply wp_bind. eapply (wp_mono _ _ (fun r f' => r = ok tt /\ eats f2 tail f')).
  - unfold Flat.after_number. apply wp_bind, wp_gets. rewrite (proj1 Hl2).
    destruct Hf as [->|(ws & b & t & -> & Hws & Hb)]; [apply wp_ret; split; [done|by apply left_eats]|].
    destruct (ws ++ b :: t) as [|x y] eqn:Ex; [by destruct ws|]. rewrite <- Ex in *.
    apply wp_bind. eapply flat_SkipToToken_wp; [exact Hws|by apply closing_not_blank|apply Hl2|]. intros f3 Hl3.
    apply wp_bind. eapply first_wp; [apply Hl3|]. unfold is_closing in Hb. rewrite Hb. apply wp_ret. split; [done|].
    exists ws. split; [done|]. by rewrite (proj1 Hl3), (proj2 Hl3).
  - cbv beta. intros r f3 [-> He]. apply wp_ret, wp_ret. rewrite Hd. split; [by eexists|].
    eapply eats_trans; [exact Hl1|]. by eapply eats_trans.
Qed.

(** The promises of the three kinds of text. *)
Definition skips (d : Z) (t : list byte) : Prop := forall n f ws tail,
  blanks ws -> (begins_number t = true -> follow tail) -> Flat.bytes f = ws ++ t ++ tail -> recursion_depth (Flat.options f) = d ->
  (length (Flat.bytes f) < n)%nat ->
  wp (Flat.SkipValue_loop SimpleAtod n) f (fun r f' => r = ok tt /\ eats f tail f').

(** [t] from which blanks at the front may have been taken. *)
Definition stripped (t t0 : list byte) : Prop := exists ws, blanks ws /\ t = ws ++ t0.

Definition skips_elements (d : Z) (t : list byte) : Prop := forall n m f t0 tail,
  stripped t t0 -> Flat.bytes f = t0 ++ ch 0x5D :: tail -> recursion_depth (Flat.options f) = d ->
  (length (Flat.bytes f) < n)%nat -> (length (Flat.bytes f) < m)%nat ->
  wp (Flat.VisitArray_loop m (Flat.SkipValue_loop SimpleAtod n) true) f (fun r f' => r = ok false /\ left f f' tail).

Definition skips_members (d : Z) (t : list byte) : Prop := forall n m f t0 tail,
  stripped t t0 -> Flat.bytes f = t0 ++ ch 0x7D :: tail -> recursion_depth (Flat.options f) = d ->
  (length (Flat.bytes f) < n)%nat -> (length (Flat.bytes f) < m)%nat ->
  wp (Flat.VisitObject_loop m (fun _ => Flat.SkipValue_loop SimpleAtod n) true) f (fun r f' => r = ok false /\ left f f' tail).

(** How a value, an element and a member begin. *)
Lemma value_first d v : value d v -> exists c k kind, v = c :: k /\ kind_of c = Some kind /\ Flat.is_blank c = false.
Proof.
  destruct 1 as [| | |d l x Hn _| | | | |]; try by eexists _, _, _.
  destruct (number_first l Hn) as (c & k & -> & Hk & Hc). by eexists _, _, _.
Qed.

Lemma kind_not_closing c kind : kind_of c = Some kind -> c <> ch 0x5D /\ c <> ch 0x7D /\ c <> ch 0x2C.
Proof. intros Hk. split_and!; by intros ->. Qed.

Lemma elements_first d l : elements d l -> exists ws c k, l = ws ++ c :: k /\ blanks ws /\ Flat.is_blank c = false /\ c <> ch 0x5D.
Proof.
  destruct 1 as [d ws v ws' Hws Hv _|d ws v ws' l Hws Hv _ _]; destruct (value_first _ _ Hv) as (c & k & kind & -> & Hk & Hc);
    apply kind_not_closing in Hk as (? & _); by eexists ws, c, _.
Qed.

Lemma members_first d l : members d l -> exists ws k, l = ws ++ ch 0x22 :: k /\ blanks ws.
Proof.
  destruct 1 as [d l ws' Hm _|d l ws' k Hm _ _]; destruct Hm as [d ws]; exists ws; eexists; (split; [rewrite <- app_assoc; reflexivity|done]).
Qed.

(** A value inside of an array or of an object. *)
Lemma inner_value_wp d v n f ws ws' c l :
  skips d v -> blanks ws -> blanks ws' -> is_closing c = true -> Flat.bytes f = ws ++ v ++ ws' ++ c :: l ->
  recursion_depth (Flat.options f) = d -> (length (Flat.bytes f) < n)%nat ->
  wp (Flat.SkipValue_loop SimpleAtod n) f (fun r f' => r = ok tt /\
    exists ws2, blanks ws2 /\ Flat.bytes f' = ws2 ++ c :: l /\ Flat.options f' = Flat.options f).
Proof.
  intros Hv Hws Hws' Hc E Hd Hn. eapply wp_mono; [eapply Hv; [exact Hws| |exact E|done|done]|].
  { intros _. right. by exists ws', c, l. }
  cbv beta. intros r f' [-> He]. split; [done|]. eapply eats_token; [exact He|done|by apply closing_not_blank].
Qed.

Lemma elements_one_ok d ws v ws' : blanks ws -> value d v -> skips d v -> blanks ws' -> skips_elements d (ws ++ v ++ ws').
Proof.
  intros Hws Hval Hv Hws' n m f t0 tail (ws0 & Hws0 & Et) E Hd Hn Hm. destruct m as [|m]; [lia|]. cbn [Flat.VisitArray_loop negb].
  destruct (value_first _ _ Hval) as (c & k & kind & Ev & _ & Hc). rewrite Ev in Et. cbn [app] in Et.
  destruct (strip_blanks _ _ _ _ _ Et Hws Hws0 Hc) as (ws2 & Hws2 & ->).
  apply wp_bind. wp_use (inner_value_wp d v n f ws2 ws' (ch 0x5D) tail); [done|done|done|done| |done|done|].
  { rewrite E, Ev. rewrite <- !app_assoc. cbn [app]. by rewrite <- app_assoc. }
  intros r f1 (-> & ws3 & Hws3 & E1 & Ho1). apply wp_bind.
  eapply (Peek_miss f1 ws3 (ch 0x5D) (ch 0x2C)); [done|done|exact E1|done|]. intros f2 Hl2. apply wp_bind.
  eapply (Peek_hit f2 [] (ch 0x5D)); [constructor|done|apply Hl2|]. intros f3 Hl3. apply wp_ret. split; [done|].
  destruct Hl2, Hl3. split; congruence.
Qed.

Lemma elements_more_ok d ws v ws' l :
  blanks ws -> value d v -> skips d v -> blanks ws' -> elements d l -> skips_elements d l ->
  skips_elements d (ws ++ v ++ ws' ++ ch 0x2C :: l).
Proof.
  intros Hws Hval Hv Hws' Hl Hrec n m f t0 tail (ws0 & Hws0 & Et) E Hd Hn Hm. destruct m as [|m]; [lia|].
  cbn [Flat.VisitArray_loop negb]. destruct (value_first _ _ Hval) as (c & k & kind & Ev & _ & Hc). rewrite Ev in Et. cbn [app] in Et.
  destruct (strip_blanks _ _ _ _ _ Et Hws Hws0 Hc) as (ws2 & Hws2 & ->).
  apply wp_bind. wp_use (inner_value_wp d v n f ws2 ws' (ch 0x2C) (l ++ ch 0x5D :: tail)); [done|done|done|done| |done|done|].
  { rewrite E, Ev. rewrite <- !app_assoc. cbn [app]. by rewrite <- !app_assoc. }
  intros r f1 (-> & ws3 & Hws3 & E1 & Ho1). apply wp_bind.
  eapply (Peek_hit f1 ws3 (ch 0x2C)); [done|done|exact E1|]. intros f2 Hl2. apply wp_bind.
  destruct (elements_first _ _ Hl) as (ws4 & b & k4 & -> & Hws4 & Hb & Hne). rewrite <- app_assoc in Hl2.
  eapply (Peek_miss f2 ws4 b (ch 0x5D)); [done|done|apply Hl2|done|]. intros f3 Hl3.
  assert (length (Flat.bytes f3) < length (Flat.bytes f))%nat as Hlen.
  { rewrite (proj1 Hl3), E. lens. }
  wp_use (Hrec n m f3 (b :: k4) tail); [by exists ws4|by rewrite (proj1 Hl3)| |lia|lia|].
  { rewrite <- Hd. destruct Hl2 as [_ Eo2], Hl3 as [_ Eo3]. congruence. }
  intros r f4 [-> Hl4]. split; [done|]. destruct Hl2, Hl3, Hl4. split; congruence.
Qed.

(** The part of a member before its value. *)
Lemma member_start_wp {A} f ws t l ws1 rest (K : M Flat.t (result A)) Q :
  blanks ws -> string_text t l -> blanks ws1 -> Flat.bytes f = ws ++ ch 0x22 :: t ++ ch 0x22 :: ws1 ++ ch 0x3A :: rest ->
  (forall f', left f f' rest -> wp K f' Q) ->
  wp (try* _ := Flat.SkipToToken in try* key := Flat.object_key in try* _ := Flat.Expect [ch 0x3A] in K) f Q.
Proof.
  intros Hws Ht Hws1 E HQ. apply wp_bind. eapply (flat_SkipToToken_wp f ws (ch 0x22)); [done|done|exact E|]. intros f1 Hl1.
  apply wp_bind. unfold Flat.object_key. apply wp_bind. eapply first_wp; [apply Hl1|]. apply wp_bind, wp_gets.
  change (is_ch 0x22 (ch 0x22)) with true. cbn [orb].
  wp_use (ParseUtf8_text f1 []); [exact Ht|constructor|apply Hl1|]. intros r f2 (Hl2 & loc & ->). apply wp_bind.
  eapply (Expect_wp f2 ws1 (ch 0x3A) [ch 0x3A] []); [done|done|done|apply Hl2|]. intros f3 Hl3. apply HQ.
  destruct Hl1, Hl2, Hl3. split; congruence.
Qed.

(** A member up to the comma or the brace that follows. *)
Lemma member_wp {A} d ws t l ws1 ws2 v ws' c k n f t0 (K : M Flat.t (result A)) Q :
  blanks ws -> string_text t l -> blanks ws1 -> blanks ws2 -> skips d v -> blanks ws' -> is_closing c = true ->
  stripped ((ws ++ ch 0x22 :: t ++ ch 0x22 :: ws1 ++ ch 0x3A :: ws2 ++ v) ++ ws' ++ c :: k) t0 -> Flat.bytes f = t0 ->
  recursion_depth (Flat.options f) = d -> (length (Flat.bytes f) < n)%nat ->
  (forall f' ws3, blanks ws3 -> left f f' (ws3 ++ c :: k) -> (length (c :: k) <= length (Flat.bytes f))%nat -> wp K f' Q) ->
  wp (try* _ := Flat.SkipToToken in try* key := Flat.object_key in try* _ := Flat.Expect [ch 0x3A] in
      try* _ := Flat.SkipValue_loop SimpleAtod n in K) f Q.
Proof.
  intros Hws Ht Hws1 Hws2 Hv Hws' Hc (ws0 & Hws0 & Et) E Hd Hn HQ. rewrite <- !app_assoc in Et. cbn [app] in Et.
  destruct (strip_blanks ws (ch 0x22) _ _ _ Et Hws Hws0 eq_refl) as (ws3 & Hws3 & ->).
  eapply (member_start_wp f ws3 t l ws1 (ws2 ++ v ++ ws' ++ c :: k)); [done|exact Ht|done| |].
  { rewrite E. repeat (rewrite <- !app_assoc; cbn [app]). done. }
  intros f1 Hl1. apply wp_bind. wp_use (inner_value_wp d v n f1 ws2 ws' c k); [done|done|done|done|apply Hl1| | |].
  { by rewrite (proj2 Hl1). }
  { rewrite (proj1 Hl1). rewrite E in Hn. revert Hn. lens. }
  intros r f2 (-> & ws4 & Hws4 & E2 & Ho2). apply (HQ f2 ws4); [done| |rewrite E; lens]. destruct Hl1. split; congruence.
Qed.

Lemma members_one_ok d ws t l ws1 ws2 v ws' :
  blanks ws -> string_text t l -> blanks ws1 -> blanks ws2 -> skips d v -> blanks ws' ->
  skips_members d ((ws ++ ch 0x22 :: t ++ ch 0x22 :: ws1 ++ ch 0x3A :: ws2 ++ v) ++ ws').
Proof.
  intros Hws Ht Hws1 Hws2 Hv Hws' n m f t0 tail (ws0 & Hws0 & Et) E Hd Hn Hm. destruct m as [|m]; [lia|].
  cbn [Flat.VisitObject_loop negb].
  eapply (member_wp d ws t l ws1 ws2 v ws' (ch 0x7D) tail n f (t0 ++ ch 0x7D :: tail)); try done.
  { exists ws0. split; [done|]. rewrite (app_assoc ws0), <- Et. by rewrite <- !app_assoc. }
  intros f2 ws3 Hws3 Hl2 Hlen. apply wp_bind.
  eapply (Peek_miss f2 ws3 (ch 0x7D) (ch 0x2C)); [done|done|apply Hl2|done|]. intros f3 Hl3. apply wp_bind.
  eapply (Peek_hit f3 [] (ch 0x7D)); [constructor|done|apply Hl3|]. intros f4 Hl4. apply wp_ret. split; [done|].
  destruct Hl2, Hl3, Hl4. split; congruence.
Qed.

Lemma members_more_ok d ws t l ws1 ws2 v ws' k :
  blanks ws -> string_text t l -> blanks ws1 -> blanks ws2 -> skips d v -> blanks ws' -> members d k -> skips_members d k ->
  skips_members d ((ws ++ ch 0x22 :: t ++ ch 0x22 :: ws1 ++ ch 0x3A :: ws2 ++ v) ++ ws' ++ ch 0x2C :: k).
Proof.
  intros Hws Ht Hws1 Hws2 Hv Hws' Hk Hrec n m f t0 tail (ws0 & Hws0 & Et) E Hd Hn Hm. destruct m as [|m]; [lia|].
  cbn [Flat.VisitObject_loop negb].
  eapply (member_wp d ws t l ws1 ws2 v ws' (ch 0x2C) (k ++ ch 0x7D :: tail) n f (t0 ++ ch 0x7D :: tail)); try done.
  { exists ws0. split; [done|]. rewrite (app_assoc ws0), <- Et. rewrite <- !app_assoc. cbn [app]. by rewrite <- !app_assoc. }
  intros f2 ws3 Hws3 Hl2 Hlen. apply wp_bind. eapply (Peek_hit f2 ws3 (ch 0x2C)); [done|done|apply Hl2|]. intros f3 Hl3. apply wp_bind.
  destruct (members_first _ _ Hk) as (ws4 & k4 & -> & Hws4). rewrite <- app_assoc in Hl3.
  eapply (Peek_miss f3 ws4 (ch 0x22) (ch 0x7D)); [done|done|apply Hl3|done|]. intros f4 Hl4.
  assert (length (Flat.bytes f4) < length (Flat.bytes f))%nat as Hlen4.
  { rewrite (proj1 Hl4). revert Hlen. lens. }
  wp_use (Hrec n m f4 (ch 0x22 :: k4) tail); [by exists ws4|by rewrite (proj1 Hl4)| |lia|lia|].
  { rewrite <- Hd. destruct Hl2, Hl3, Hl4. congruence. }
  intros r f5 [-> Hl5]. split; [done|]. destruct Hl2, Hl3, Hl4, Hl5. split; congruence.
Qed.

(** An array and an object, after their first bracket has been seen. *)
Lemma Push_wp f d Q :
  recursion_depth (Flat.options f) = d -> 0 < d -> Q (ok tt) (Flat.set_depth (d - 1) f) -> wp Flat.Push f Q.
Proof.
  intros <- Hd HQ. unfold Flat.Push. apply wp_bind, wp_gets. destruct (Z.eqb_spec (recursion_depth (Flat.options f)) 0); [lia|].
  by apply wp_bind, wp_modS, wp_ret.
Qed.

(** [Pop] undoes [Push]. *)
Lemma flat_Pop_wp d f f1 f2 f3 l k Q :
  left f f1 l -> recursion_depth (Flat.options f) = d -> left (Flat.set_depth (d - 1) f1) f2 k ->
  (forall f', left f f' k -> Q tt f') -> f3 = f2 -> wp Flat.Pop f3 Q.
Proof.
  intros [_ Ho1] Hd [El2 Ho2] HQ ->. unfold Flat.Pop. apply wp_bind, wp_gets, wp_modS, HQ. split; [done|]. simpl. rewrite Ho2. simpl.
  rewrite Ho1. destruct (Flat.options f) as [depth legacy]. simpl in *. f_equal. lia.
Qed.

Lemma empty_array_ok d ws : 0 < d -> blanks ws -> skips d (ch 0x5B :: ws ++ [ch 0x5D]).
Proof.
  intros Hpos Hws n f ws0 tail Hws0 _ E Hd Hn. destruct n as [|n]; [lia|]. cbn [Flat.SkipValue_loop].
  cbn [app] in E. rewrite <- app_assoc in E. apply wp_bind. eapply (PeekKind_wp f ws0 (ch 0x5B)); [exact Hws0|done|done|exact E|]. intros f1 Hl1.
  unfold Flat.VisitArray. apply wp_bind. eapply (Expect_wp f1 [] (ch 0x5B) [ch 0x5B] []); [done|constructor|done|apply Hl1|].
  intros f2 Hl2. assert (left f f2 (ws ++ [ch 0x5D] ++ tail)) as Hl by (by eapply left_trans).
  apply wp_bind. eapply (Push_wp f2 d); [by rewrite (proj2 Hl)|done|]. apply wp_bind.
  eapply (Peek_hit _ ws (ch 0x5D)); [done|done|apply Hl|]. intros f3 Hl3. apply wp_bind.
  eapply flat_Pop_wp; [exact Hl|done|exact Hl3| |done]. intros f4 Hl4. apply wp_ret. split; [done|by apply left_eats].
Qed.

Lemma empty_object_ok d ws : 0 < d -> blanks ws -> skips d (ch 0x7B :: ws ++ [ch 0x7D]).
Proof.
  intros Hpos Hws n f ws0 tail Hws0 _ E Hd Hn. destruct n as [|n]; [lia|]. cbn [Flat.SkipValue_loop].
  cbn [app] in E. rewrite <- app_assoc in E. apply wp_bind. eapply (PeekKind_wp f ws0 (ch 0x7B)); [exact Hws0|done|done|exact E|]. intros f1 Hl1.
  unfold Flat.VisitObject. apply wp_bind. eapply (Expect_wp f1 [] (ch 0x7B) [ch 0x7B] []); [done|constructor|done|apply Hl1|].
  intros f2 Hl2. assert (left f f2 (ws ++ [ch 0x7D] ++ tail)) as Hl by (by eapply left_trans).
  apply wp_bind. eapply (Push_wp f2 d); [by rewrite (proj2 Hl)|done|]. apply wp_bind.
  eapply (Peek_hit _ ws (ch 0x7D)); [done|done|apply Hl|]. intros f3 Hl3. apply wp_bind.
  eapply flat_Pop_wp; [exact Hl|done|exact Hl3| |done]. intros f4 Hl4. apply wp_ret. split; [done|by apply left_eats].
Qed.

Lemma array_ok d l : 0 < d -> elements (d - 1) l -> skips_elements (d - 1) l -> skips d (ch 0x5B :: l ++ [ch 0x5D]).
Proof.
  intros Hpos Hl Hrec n f ws0 tail Hws0 _ E Hd Hn. destruct n as [|n]; [lia|]. cbn [Flat.SkipValue_loop].
  cbn [app] in E. rewrite <- app_assoc in E. apply wp_bind. eapply (PeekKind_wp f ws0 (ch 0x5B)); [exact Hws0|done|done|exact E|]. intros f1 Hl1.
  unfold Flat.VisitArray. apply wp_bind. eapply (Expect_wp f1 [] (ch 0x5B) [ch 0x5B] []); [done|constructor|done|apply Hl1|].
  intros f2 Hl2. assert (left f f2 (l ++ [ch 0x5D] ++ tail)) as Hlf by (by eapply left_trans).
  apply wp_bind. eapply (Push_wp f2 d); [by rewrite (proj2 Hlf)|done|]. apply wp_bind.
  destruct (elements_first _ _ Hl) as (ws & c & k & -> & Hws & Hc & Hne). rewrite <- app_assoc in Hlf.
  eapply (Peek_miss _ ws c (ch 0x5D)); [done|done|apply Hlf|done|]. intros f3 Hl3. apply wp_bind, wp_gets, wp_bind.
  wp_use (Hrec n (length (Flat.bytes f3) + 2)%nat f3 (c :: k) tail); [by exists ws|by rewrite (proj1 Hl3)|by rewrite (proj2 Hl3)| |lia|].
  { rewrite (proj1 Hl3). rewrite E in Hn. revert Hn. lens. }
  intros r f4 [-> Hl4]. apply wp_bind, wp_gets. rewrite andb_false_r. apply wp_bind.
  eapply flat_Pop_wp; [exact Hlf|done|eapply left_trans; [exact Hl3|exact Hl4]| |done].
  intros f5 Hl5. apply wp_ret. split; [done|by apply left_eats].
Qed.

Lemma object_ok d l : 0 < d -> members (d - 1) l -> skips_members (d - 1) l -> skips d (ch 0x7B :: l ++ [ch 0x7D]).
Proof.
  intros Hpos Hl Hrec n f ws0 tail Hws0 _ E Hd Hn. destruct n as [|n]; [lia|]. cbn [Flat.SkipValue_loop].
  cbn [app] in E. rewrite <- app_assoc in E. apply wp_bind. eapply (PeekKind_wp f ws0 (ch 0x7B)); [exact Hws0|done|done|exact E|]. intros f1 Hl1.
  unfold Flat.VisitObject. apply wp_bind. eapply (Expect_wp f1 [] (ch 0x7B) [ch 0x7B] []); [done|constructor|done|apply Hl1|].
  intros f2 Hl2. assert (left f f2 (l ++ [ch 0x7D] ++ tail)) as Hlf by (by eapply left_trans).
  apply wp_bind. eapply (Push_wp f2 d); [by rewrite (proj2 Hlf)|done|]. apply wp_bind.
  destruct (members_first _ _ Hl) as (ws & k & -> & Hws). rewrite <- app_assoc in Hlf.
  eapply (Peek_miss _ ws (ch 0x22) (ch 0x7D)); [done|done|apply Hlf|done|]. intros f3 Hl3. apply wp_bind, wp_gets, wp_bind.
  wp_use (Hrec n (length (Flat.bytes f3) + 2)%nat f3 (ch 0x22 :: k) tail); [by exists ws|by rewrite (proj1 Hl3)|by rewrite (proj2 Hl3)| |lia|].
  { rewrite (proj1 Hl3). rewrite E in Hn. revert Hn. lens. }
  intros r f4 [-> Hl4]. apply wp_bind. eapply flat_Pop_wp; [exact Hlf|done|eapply left_trans; [exact Hl3|exact Hl4]| |done].
  intros f5 Hl5. apply wp_bind, wp_gets. rewrite andb_false_r. apply wp_ret. split; [done|by apply left_eats].
Qed.

Lemma all_skip :
  (forall d v, value d v -> skips d v) /\ (forall d l, elements d l -> skips_elements d l) /\
  (forall d l, members d l -> skips_members d l) /\
  (forall d l, member d l -> exists ws t m ws1 ws2 v, l = ws ++ ch 0x22 :: t ++ ch 0x22 :: ws1 ++ ch 0x3A :: ws2 ++ v /\
     blanks ws /\ string_text t m /\ blanks ws1 /\ blanks ws2 /\ skips d v).
Proof.
  apply value_ind_all.
  4: { intros d l v Hn Hv n f ws tail Hws Hf E Hd Hfuel. destruct n as [|n]; [lia|]. cbn [Flat.SkipValue_loop].
    destruct (number_first l Hn) as (c & k & Ec & Hk & Hc). apply wp_bind.
    eapply PeekKind_wp; [exact Hws|exact Hk|exact Hc|by rewrite E, Ec|]. intros f1 Hl1. apply wp_bind.
    wp_use (ParseNumber_text f1 l v tail); [done|done|apply Hf; rewrite Ec; simpl; by rewrite Hk|by rewrite (proj1 Hl1), Ec|].
    intros r f2 [[loc ->] He]. apply wp_ret. split; [done|]. by eapply eats_trans. }
  4: { intros d t l Ht n f ws tail Hws Hf E Hd Hfuel. destruct n as [|n]; [lia|]. cbn [Flat.SkipValue_loop].
    cbn [app] in E. rewrite <- app_assoc in E. apply wp_bind. eapply (PeekKind_wp f ws (ch 0x22)); [exact Hws|done|done|exact E|]. intros f1 Hl1.
    apply wp_bind. wp_use (ParseUtf8_text f1 []); [exact Ht|constructor|apply Hl1|]. intros r f2 (Hl2 & loc & ->).
    apply wp_ret. split; [done|]. apply left_eats. by eapply left_trans. }
  1-3: intros d n f ws tail Hws Hf E Hd Hfuel; (destruct n as [|n]; [lia|]); cbn [Flat.SkipValue_loop]; apply wp_bind;
    (eapply PeekKind_wp; [exact Hws| | |exact E|]; [reflexivity..|]); intros f1 Hl1;
    (eapply (Expect_wp f1 [] _ _ _ tail); [reflexivity|constructor|reflexivity|apply Hl1|]); intros f2 Hl2;
    (split; [done|]); by apply left_eats; eapply left_trans.
  - intros. by apply empty_array_ok.
  - intros. by apply array_ok.
  - intros. by apply empty_object_ok.
  - intros. by apply object_ok.
  - intros. by apply elements_one_ok.
  - intros. by apply elements_more_ok.
  - intros d l ws' _ (ws & t & m & ws1 & ws2 & v & -> & ? & ? & ? & ? & ?) Hws'. by eapply members_one_ok.
  - intros d l ws' k _ (ws & t & m & ws1 & ws2 & v & -> & ? & ? & ? & ? & ?) Hws' Hk IH. by eapply members_more_ok.
  - intros d ws t l ws1 ws2 v Hws Ht Hws1 Hws2 _ Hv. by exists ws, t, l, ws1, ws2, v.
Qed.

(** A value at most as deep as the lexer is allowed to go. *)
Lemma SkipValue_text f ws v tail :
  value (recursion_depth (Flat.options f)) v -> blanks ws -> (begins_number v = true -> follow tail) -> Flat.bytes f = ws ++ v ++ tail ->
  wp (Flat.SkipValue SimpleAtod) f (fun r f' => r = ok tt /\ eats f tail f').
Proof.
  intros Hv Hws Hf E. unfold Flat.SkipValue. apply wp_bind, wp_gets. eapply (proj1 all_skip); [exact Hv|done|done|exact E|done|lia].
Qed.
End values.
