(* ===== verification/JsonTheorems.v ===== *)
(** * What the JSON lexer and the JSON writer guarantee

    Over all streams: the lexer does what its description on lists says, it takes
    the values of RFC 8259, and it reads back the strings that the writer prints. *)

From S2P Require Import Prelude ZeroCopyStream ZeroCopyOutput Utf8 ByteSink JsonStream JsonStreamSpec JsonWriter JsonLexer JsonFlat JsonLexerSpec JsonText JsonGrammar JsonWriterSpec JsonValues.

(** ** From any stream *)

Section any_stream.
Context {S : Type} `{ZeroCopyInputStreamOk S} `{Utf8Range}.

(** A lexer at the start of a stream, and its description. *)
Definition flat_start (s : S) (o : ParseOptions) : Flat.t :=
  {| Flat.bytes := content s; Flat.place := start_location; Flat.options := o |}.

Lemma make_Inv (s : S) : stream_ok s -> Inv 0 (JsonStream.make s).
Proof.
  intros Hs. split; [split|]; unfold base, view, unread, near, zlen; simpl; try done; lia.
Qed.

Lemma start_related s o : stream_ok s -> related 0 (make_lexer s o) (flat_start s o).
Proof. intros Hs. pose proof (make_Inv s Hs). by split. Qed.

Lemma start_went s o : stream_ok s -> went 0 0 (make_lexer s o) (make_lexer s o) (flat_start s o).
Proof. intros Hs. by apply went_refl, start_related. Qed.

(** What a lexer has left: the bytes, the place, the options and the guards. *)
Definition stands (x : lexer S) (f : Flat.t) (borrows : Z) : Prop :=
  rest (stream x) = Flat.bytes f /\ json_loc_ x = Flat.place f /\ JsonLexer.options_ x = Flat.options f /\
  outstanding_buffer_borrows_ (stream x) = borrows.

Lemma related_stands k x f : related k x f -> stands x f k.
Proof. intros [[[_ [Hb _] _ _ _ _ _ _] _] Hr Hl Ho]. by split_and!. Qed.

(** From a run of the description to a run of the lexer. *)
Lemma sim_wp {A B} k (R : A -> B -> lexer S -> Flat.t -> Prop) (P : result B -> Flat.t -> Prop) m F x f :
  sim k R m F x f -> wp F f P ->
  wp m x (fun ra x' => exists rb f', P rb f' /\
    match ra, rb with ok a, ok b => R a b x' f' | err e, err e' => e = e' | _, _ => False end).
Proof.
  intros Hs HP. eapply wp_mono; [exact Hs|]. cbv beta. intros ra x' (rb & f' & E & Hr). exists rb, f'.
  split; [by eapply wp_run|]. destruct ra, rb; try done. by destruct Hr.
Qed.
End any_stream.

(** C9: Over any input stream, however it cuts the bytes into chunks,
    [SkipValue] returns and does what its description on the list of bytes says:
    the same success or the same error at the same place; after a success the
    bytes, the place and the depth that are left are the same and the buffer is
    not borrowed any more, after an error nothing is borrowed either. *)
Theorem skip_value_any_stream {S} `{ZeroCopyInputStreamOk S} `{Utf8Range} {D} (SimpleAtod : list byte -> option D)
    (s : S) (o : ParseOptions) :
  stream_ok s ->
  exists r x f, SkipValue SimpleAtod (make_lexer s o) = Some (r, x) /\
    Flat.SkipValue SimpleAtod (flat_start s o) = Some (r, f) /\
    match r with ok _ => stands x f 0 | err _ => outstanding_buffer_borrows_ (stream x) = 0 end.
Proof.
  intros Hs. destruct (wp_inv _ _ _ (sim_SkipValue SimpleAtod 0 0 _ _ _ (start_went s o Hs))) as (r & x & E & rb & f & Ef & Hr).
  exists r, x, f. split; [done|]. destruct r as [[]|e], rb as [[]|e']; try done.
  - split; [done|]. apply related_stands, Hr.
  - destruct Hr as [-> Hb]. split; [done|]. apply Hb.
Qed.

(** C11: JSON values are skipped from any stream that keeps the contract. The values are those of RFC 8259
    whose strings are well-formed UTF-8 and whose [\u] escapes of surrogates come
    in pairs, whose numbers have a double, and that are nested no deeper than
    [recursion_depth]. There may be blanks before the value. Behind a number there
    has to be the end of the input at once, or, after any blanks, a comma, a closing
    bracket or a closing brace; behind any other value there may be anything. Then [SkipValue] succeeds, what
    is left is what follows the value, but for blanks that may have been taken,
    and the options, with the depth that is left, are what they were. *)
Theorem skip_value_takes_values {S} `{ZeroCopyInputStreamOk S} `{Utf8RangeOk} {D} (SimpleAtod : list byte -> option D)
    (s : S) (o : ParseOptions) ws v tail :
  stream_ok s -> content s = ws ++ v ++ tail -> blanks ws -> value SimpleAtod (recursion_depth o) v ->
  (begins_number v = true -> follow tail) ->
  wp (SkipValue SimpleAtod) (make_lexer s o) (fun r x => r = ok tt /\
    JsonLexer.options_ x = o /\ outstanding_buffer_borrows_ (stream x) = 0 /\
    exists ws', blanks ws' /\ tail = ws' ++ rest (stream x)).
Proof.
  intros Hs Ec Hws Hv Hf. eapply wp_mono.
  - eapply sim_wp; [apply sim_SkipValue, start_went, Hs|]. by apply (SkipValue_text SimpleAtod (flat_start s o) ws v tail).
  - cbv beta. intros r x (rb & f & [-> (ws' & Hws' & Et & Ho)] & Hr). destruct r as [[]|]; [|done].
    destruct (related_stands _ _ _ (went_related _ _ _ _ _ Hr)) as (Er & _ & Eo & Eb).
    split; [done|]. split; [by rewrite Eo, Ho|]. split; [done|]. exists ws'. by rewrite Er.
Qed.

(** C10: What the writer prints for a string of well-formed UTF-8 is read back
    by the lexer. Over any output stream, in any state of the sink: if nothing
    fails, the sink has the text of the string in quotes appended; and over any
    input stream that has this text and then any bytes, cut into any chunks,
    with any options, [ParseUtf8] returns a string that shows the same bytes,
    has taken the text and nothing more, and holds at most its own guard. *)
Theorem string_roundtrip {So Si} `{ZeroCopyOutputStreamOk So} `{ZeroCopyInputStreamOk Si} `{Utf8RangeOk}
    (w : writer So) (str : list byte) :
  ByteSink.wf (sink_ w) -> well_formed str = true ->
  wp (WriteQuoted str) w (fun _ w' => exists text, ByteSink.appended text (sink_ w) (sink_ w') /\
    forall (s : Si) (o : ParseOptions) tail, stream_ok s -> content s = text ++ tail ->
      wp ParseUtf8 (make_lexer s o) (fun r x => exists m loc, r = ok (m, loc) /\
        shows (stream x) m str /\ rest (stream x) = tail /\ outstanding_buffer_borrows_ (stream x) = holds m)).
Proof.
  intros Hw Hu. eapply wp_mono; [by apply WriteQuoted_wp|]. cbv beta. intros [] w' [Ha _].
  eexists. split; [exact Ha|]. intros s o tail Hs Ec. cbn [app] in Ec. rewrite <- app_assoc in Ec.
  eapply wp_mono.
  - eapply sim_wp; [apply sim_ParseUtf8, start_went, Hs|].
    apply (ParseUtf8_text (flat_start s o) [] (escape str) str tail); [by apply escape_text|constructor|exact Ec].
  - cbv beta. intros r x (rb & f & [[El _] [loc ->]] & Hr). destruct r as [[m loc']|]; [|done].
    destruct Hr as (Eloc & Hwent & Hh & Hshow). cbn [fst snd] in *. subst loc'. exists m, loc. split_and!.
    + done.
    + exact Hshow.
    + rewrite (related_rest _ _ _ (went_related _ _ _ _ _ Hwent)). exact El.
    + destruct (related_stands _ _ _ (went_related _ _ _ _ _ Hwent)) as (_ & _ & _ & Eb). exact Eb.
Qed.

(** ** Concrete runs *)

(** A stream that gives two bytes at a time. *)
Definition two_by_two (l : list byte) : ArrayInputStream.t := ArrayInputStream.make l (zlen l) 2.
Definition strict : ParseOptions := {| recursion_depth := 3; JsonLexer.allow_legacy_syntax := false |}.
Definition any_number (l : list byte) : option unit := Some tt.

(** The text [[1, {"a": null}] ,]. *)
Definition sample : list byte :=
  map ch [0x5B; 0x31; 0x2C; 0x20; 0x7B; 0x22; 0x61; 0x22; 0x3A; 0x20; 0x6E; 0x75; 0x6C; 0x6C; 0x7D; 0x5D].
Definition sample_tail : list byte := map ch [0x20; 0x2C].

Lemma skip_value_any_stream_witness :
  ZeroCopyStream.stream_ok (two_by_two (sample ++ sample_tail)) /\
  exists r x f, SkipValue any_number (make_lexer (two_by_two (sample ++ sample_tail)) strict) = Some (r, x) /\
    Flat.SkipValue any_number (flat_start (two_by_two (sample ++ sample_tail)) strict) = Some (r, f) /\
    match r with ok _ => stands x f 0 | err _ => outstanding_buffer_borrows_ (stream x) = 0 end.
Proof.
  assert (ZeroCopyStream.stream_ok (two_by_two (sample ++ sample_tail))) as Hok by (apply ArrayInputStream.array_make_wf; vm_compute; discriminate).
  split; [exact Hok|]. exact (skip_value_any_stream any_number (two_by_two (sample ++ sample_tail)) strict Hok).
Defined.

Lemma sample_object : value any_number 2 (map ch [0x7B; 0x22; 0x61; 0x22; 0x3A; 0x20; 0x6E; 0x75; 0x6C; 0x6C; 0x7D]).
Proof.
  apply (value_object any_number 2 (map ch [0x22; 0x61; 0x22; 0x3A; 0x20; 0x6E; 0x75; 0x6C; 0x6C])); [lia|].
  apply (members_one any_number 1 (map ch [0x22; 0x61; 0x22; 0x3A; 0x20; 0x6E; 0x75; 0x6C; 0x6C]) []); [|constructor].
  apply (member_intro any_number 1 [] [ch 0x61] [ch 0x61] [] [ch 0x20] null_word).
  - constructor.
  - apply (text_char [ch 0x61] [ch 0x61] [] []); [apply char_plain; [reflexivity|vm_compute; discriminate..]|constructor].
  - constructor.
  - by repeat constructor.
  - constructor.
Qed.

Lemma sample_value : value any_number 3 sample.
Proof.
  apply (value_array any_number 3 (removelast (tl sample))); [lia|].
  apply (elements_more any_number 2 [] [ch 0x31] [] (removelast (skipn 3 sample))); [constructor| |constructor|].
  - apply (value_number any_number 2 [ch 0x31] tt); [|done]. exists [], [ch 0x31], [], []. split_and!; try done; try by left.
    right. exists (ch 0x31), []. split_and!; [done..|constructor].
  - apply (elements_one any_number 2 [ch 0x20] (removelast (skipn 4 sample)) []); [by repeat constructor|exact sample_object|constructor].
Qed.

Lemma skip_value_takes_values_witness :
  content (two_by_two (sample ++ sample_tail)) = [] ++ sample ++ sample_tail /\
  wp (SkipValue any_number) (make_lexer (two_by_two (sample ++ sample_tail)) strict) (fun r x => r = ok tt /\
    JsonLexer.options_ x = strict /\ outstanding_buffer_borrows_ (stream x) = 0 /\
    exists ws', blanks ws' /\ sample_tail = ws' ++ rest (stream x)).
Proof.
  assert (content (two_by_two (sample ++ sample_tail)) = [] ++ sample ++ sample_tail) as Ec by (vm_compute; reflexivity).
  split; [exact Ec|].
  apply (skip_value_takes_values any_number (two_by_two (sample ++ sample_tail)) strict [] sample sample_tail).
  - apply ArrayInputStream.array_make_wf; vm_compute; discriminate.
  - exact Ec.
  - constructor.
  - exact sample_value.
  - intros _. right. exists [ch 0x20], (ch 0x2C), []. split_and!; [reflexivity|by repeat constructor|reflexivity].
Defined.

(** [a], a line feed, [<], U+00E9, U+1F600 and U+200B. *)
Definition sample_string : list byte :=
  map ch [0x61; 0x0A; 0x3C; 0xC3; 0xA9; 0xF0; 0x9F; 0x98; 0x80; 0xE2; 0x80; 0x8B].
Definition plain_options : WriterOptions :=
  {| add_whitespace := false; always_print_fields_with_no_presence := false; always_print_enums_as_ints := false;
     preserve_proto_field_names := false; unquote_int64_if_possible := false; JsonWriter.allow_legacy_syntax := false |}.
Definition sample_writer : writer StringOutputStream.t :=
  make_writer (StringOutputStream.make [] 16 (fun _ n => n) (fun _ => ch 0)) plain_options.

Lemma string_roundtrip_witness :
  well_formed sample_string = true /\
  wp (WriteQuoted sample_string) sample_writer (fun _ w' => exists text, ByteSink.appended text (sink_ sample_writer) (sink_ w') /\
    forall (s : ArrayInputStream.t) (o : ParseOptions) tail, ZeroCopyStream.stream_ok s -> content s = text ++ tail ->
      wp ParseUtf8 (make_lexer s o) (fun r x => exists m loc, r = ok (m, loc) /\
        shows (stream x) m sample_string /\ rest (stream x) = tail /\ outstanding_buffer_borrows_ (stream x) = holds m)).
Proof.
  split; [vm_compute; reflexivity|]. apply (string_roundtrip sample_writer sample_string); [|vm_compute; reflexivity].
  apply ByteSink.make_wf, StringOutputStream.string_output_make_wf; [vm_compute; discriminate|intros; lia].
Defined.

(** The lexer on a text, and what the parts of the result are. *)
Definition run {A} (m : M (lexer ArrayInputStream.t) A) (l : list Z) : option A :=
  match m (make_lexer (two_by_two (map ch l)) strict) with Some (r, _) => Some r | None => None end.

(** Blanks are accepted between the two halves of a surrogate pair: the string
    [\ud83d \ude00], with quotes. *)
Example blanks_in_surrogates :
  run (SkipValue any_number) [0x22; 0x5C; 0x75; 0x64; 0x38; 0x33; 0x64; 0x20; 0x0A; 0x5C; 0x75; 0x64; 0x65; 0x30; 0x30; 0x22] = Some (ok tt).
Proof. vm_compute. reflexivity. Qed.

(** [1], a blank and the end of the input is refused, and [null] and a blank is not. *)
Example number_and_blank : run (SkipValue any_number) [0x31; 0x20] = Some (err unexpected_eof).
Proof. vm_compute. reflexivity. Qed.
Example null_and_blank : run (SkipValue any_number) [0x6E; 0x75; 0x6C; 0x6C; 0x20] = Some (ok tt).
Proof. vm_compute. reflexivity. Qed.

(** The [x] of [[123456,x]] is said to be at offset 2. *)
Example place_after_number :
  run (SkipValue any_number) [0x5B; 0x31; 0x32; 0x33; 0x34; 0x35; 0x36; 0x2C; 0x78; 0x5D] =
    Some (err (Invalid {| offset := 2; line := 0; col := 2 |} (unexpected_character (ch 0x78)))).
Proof. vm_compute. reflexivity. Qed.

(** After a failed [Take] at the end of the input the buffered stream gives the
    same byte twice. *)
Definition take_twice : M (JsonStream.t ArrayInputStream.t) (option (list byte * list byte)) :=
  let* _ := JsonStream.Take 10 in
  let* a := JsonStream.Take 1 in
  match a with
  | None => ret None
  | Some a =>
      let* la := AsView a in
      JsonStream.destroy a ;;;
      let* b := JsonStream.Take 1 in
      match b with None => ret None | Some b => let* lb := AsView b in ret (Some (la, lb)) end
  end.
Example same_byte_twice :
  match take_twice (JsonStream.make (two_by_two (map ch [0x61; 0x62; 0x63]))) with Some (r, _) => r | None => None end =
    Some ([ch 0x61], [ch 0x61]).
Proof. vm_compute. reflexivity. Qed.

(** A surrogate in UTF-8 is no scalar, but the writer prints it as it is, and
    the lexer then refuses the text. *)
Example surrogate_printed : escape (map ch [0xED; 0xA0; 0x80]) = map ch [0xED; 0xA0; 0x80].
Proof. vm_compute. reflexivity. Qed.
Example surrogate_refused :
  run (SkipValue any_number) [0x22; 0xED; 0xA0; 0x80; 0x22] =
    Some (err (Invalid {| offset := 3; line := 0; col := 3 |} invalid_utf8_string)).
Proof. vm_compute. reflexivity. Qed.
