(* ===== verification/JsonBase64.v ===== *)
(** * Base64 of JSON strings

    [DecodeBase64InPlace] of [json/internal/parser.cc] and [WriteBase64] of
    [json/internal/writer.cc]. The decoder writes to the buffer that it reads;
    [ptr], [out] and [end] are offsets. *)

From S2P Require Import Prelude ZeroCopyOutput ByteSink JsonWriter JsonLexer JsonText JsonWriterSpec JsonTheorems.

(** ** The decoder *)

(** [kBase64Table], with the traditional characters and the web-safe ones. *)
Definition kBase64Table (index : Z) : Z :=
  if (index =? 0x2B) || (index =? 0x2D) then 62
  else if (index =? 0x2F) || (index =? 0x5F) then 63
  else if (0x30 <=? index) && (index <=? 0x39) then index - 0x30 + 52
  else if (0x41 <=? index) && (index <=? 0x5A) then index - 0x41
  else if (0x61 <=? index) && (index <=? 0x7A) then index - 0x61 + 26
  else -1.

Definition Base64Lookup (c : byte) : Z := u32 (kBase64Table (b2z c)).

Record state := {
  buffer : list byte;
  out : Z;
  ptr : Z;
  end_ : Z;
}.

(** [ptr[n]] *)
Definition at_ (s : state) (n : Z) : M state byte := lift (nth_error (buffer s) (Z.to_nat (ptr s + n))).

(** [Base64Lookup(ptr[n]) << bits] *)
Definition looked_up (n bits : Z) : M state Z :=
  let* s := getS in
  let* c := at_ s n in
  ret (u32 (Z.shiftl (Base64Lookup c) bits)).

(** Bytes stored at [out], which moves on. *)
Definition store (bytes : list byte) : M state unit :=
  modS (fun s => {| buffer := splice (out s) bytes (buffer s); out := out s + zlen bytes; ptr := ptr s; end_ := end_ s |}).

Definition char (val : Z) : byte := z2b val.

(** The [for], [n] groups of four being left; the [break] ends it. *)
Fixpoint groups_loop (n : nat) : M state unit :=
  match n with
  | O => ret tt
  | S n =>
      let* a := looked_up 0 18 in
      let* b := looked_up 1 12 in
      let* c := looked_up 2 6 in
      let* d := looked_up 3 0 in
      let val := Z.lor (Z.lor (Z.lor a b) c) d in
      if s32 val <? 0 then
        let* s := getS in
        let* last := at_ s 3 in
        if (end_ s - ptr s =? 4) && is_ch 0x3D last then
          let* third := at_ s 2 in
          modS (fun s => {| buffer := buffer s; out := out s; ptr := ptr s; end_ := end_ s - (if is_ch 0x3D third then 2 else 1) |})
        else ret tt
      else
        store [char (Z.shiftr val 16); char (Z.land (Z.shiftr val 8) 0xFF); char (Z.land val 0xFF)] ;;;
        modS (fun s => {| buffer := buffer s; out := out s; ptr := ptr s + 4; end_ := end_ s |}) ;;;
        groups_loop n
  end.

(** What is left when the groups are done. *)
Definition remainder : M state bool :=
  let* s := getS in
  if ptr s <? end_ s then
    let left := end_ s - ptr s in
    let* val :=
      if left =? 2 then
        let* a := looked_up 0 18 in
        let* b := looked_up 1 12 in
        let val := Z.lor a b in
        store [char (Z.shiftr val 16)] ;;; ret val
      else if left =? 3 then
        let* a := looked_up 0 18 in
        let* b := looked_up 1 12 in
        let* c := looked_up 2 6 in
        let val := Z.lor (Z.lor a b) c in
        store [char (Z.shiftr val 16); char (Z.land (Z.shiftr val 8) 0xFF)] ;;; ret val
      else ret (u32 (Z.lnot 0)) in
    ret (negb (s32 val <? 0))
  else ret true.

(** The result of the function: the span, or the error. [base64.size() & ~3u] is
    four times the number of groups. *)
Definition DecodeBase64InPlace (base64 : list byte) : option (option (list byte)) :=
  let s := {| buffer := base64; out := 0; ptr := 0; end_ := zlen base64 |} in
  match (groups_loop (Z.to_nat (zlen base64 / 4)) ;;; remainder) s with
  | Some (good, s) => Some (if good : bool then Some (ztake (out s) (buffer s)) else None)
  | None => None
  end.

(** ** The text that the writer prints *)

Definition four (a b c : Z) : list byte :=
  [kBase64 (Z.shiftr a 2); kBase64 (Z.lor (Z.shiftl (Z.land a 0x3) 4) (Z.shiftr b 4));
   kBase64 (Z.lor (Z.shiftl (Z.land b 0xF) 2) (Z.shiftr c 6)); kBase64 (Z.land c 0x3F)].

Fixpoint base64_of (str : list byte) : list byte :=
  match str with
  | a :: b :: c :: str => four (b2z a) (b2z b) (b2z c) ++ base64_of str
  | [a; b] => [kBase64 (Z.shiftr (b2z a) 2); kBase64 (Z.lor (Z.shiftl (Z.land (b2z a) 0x3) 4) (Z.shiftr (b2z b) 4));
               kBase64 (Z.shiftl (Z.land (b2z b) 0xF) 2); ch 0x3D]
  | [a] => [kBase64 (Z.shiftr (b2z a) 2); kBase64 (Z.shiftl (Z.land (b2z a) 0x3) 4); ch 0x3D; ch 0x3D]
  | [] => []
  end.

(** ** Digits *)

Lemma lookup_kBase64 i : 0 <= i < 64 -> Base64Lookup (kBase64 i) = i.
Proof.
  intros Hi. apply Z.eqb_eq. apply (byte_range (fun i => Base64Lookup (kBase64 i) =? i) 0 63); [reflexivity|lia..].
Qed.

Lemma kBase64_not_padding i : 0 <= i < 64 -> is_ch 0x3D (kBase64 i) = false.
Proof.
  intros Hi. apply negb_true_iff. apply (byte_range (fun i => negb (is_ch 0x3D (kBase64 i))) 0 63); [reflexivity|lia..].
Qed.

(** The six bits of each character. *)
Definition first_of (a : Z) : Z := a / 4.
Definition second_of (a b : Z) : Z := a mod 4 * 16 + b / 16.
Definition third_of (b c : Z) : Z := b mod 16 * 4 + c / 64.
Definition fourth_of (c : Z) : Z := c mod 64.

Lemma lor_4 a b : 0 <= b < 4 -> Z.lor (a * 4) b = a * 4 + b.
Proof. intros. apply (lor_shift a b 2); lia. Qed.

Lemma first_eq a : Z.shiftr a 2 = first_of a.
Proof. by rewrite Z.shiftr_div_pow2 by lia. Qed.

Lemma second_eq a b : 0 <= b < 256 -> Z.lor (Z.shiftl (Z.land a 0x3) 4) (Z.shiftr b 4) = second_of a b.
Proof.
  intros Hb. change 0x3 with (Z.ones 2). rewrite Z.land_ones, Z.shiftl_mul_pow2, Z.shiftr_div_pow2 by lia.
  change (2 ^ 2) with 4. change (2 ^ 4) with 16. apply lor_16. Z.div_mod_to_equations; lia.
Qed.

Lemma third_eq b c : 0 <= c < 256 -> Z.lor (Z.shiftl (Z.land b 0xF) 2) (Z.shiftr c 6) = third_of b c.
Proof.
  intros Hc. change 0xF with (Z.ones 4). rewrite Z.land_ones, Z.shiftl_mul_pow2, Z.shiftr_div_pow2 by lia.
  change (2 ^ 2) with 4. change (2 ^ 4) with 16. change (2 ^ 6) with 64. apply lor_4. Z.div_mod_to_equations; lia.
Qed.

Lemma fourth_eq c : Z.land c 0x3F = fourth_of c.
Proof. change 0x3F with (Z.ones 6). by rewrite Z.land_ones by lia. Qed.

(** The last digits of a text that ends early. *)
Lemma second_alone a : Z.shiftl (Z.land a 0x3) 4 = second_of a 0.
Proof.
  change 0x3 with (Z.ones 2). rewrite Z.land_ones, Z.shiftl_mul_pow2 by lia. unfold second_of.
  change (2 ^ 2) with 4. change (2 ^ 4) with 16. rewrite Z.div_0_l by lia. lia.
Qed.
Lemma third_alone b : Z.shiftl (Z.land b 0xF) 2 = third_of b 0.
Proof.
  change 0xF with (Z.ones 4). rewrite Z.land_ones, Z.shiftl_mul_pow2 by lia. unfold third_of.
  change (2 ^ 2) with 4. change (2 ^ 4) with 16. rewrite Z.div_0_l by lia. lia.
Qed.

Lemma digits_range a b c :
  0 <= a < 256 -> 0 <= b < 256 -> 0 <= c < 256 ->
  0 <= first_of a < 64 /\ 0 <= second_of a b < 64 /\ 0 <= third_of b c < 64 /\ 0 <= fourth_of c < 64.
Proof. intros. unfold first_of, second_of, third_of, fourth_of. Z.div_mod_to_equations; lia. Qed.

(** A digit in its place. *)
Definition placed (d bits : Z) : Z := u32 (Z.shiftl (Base64Lookup (kBase64 d)) bits).

Lemma placed_eq d bits : 0 <= d < 64 -> 0 <= bits <= 18 -> placed d bits = d * 2 ^ bits.
Proof.
  intros Hd Hb. unfold placed. rewrite lookup_kBase64, Z.shiftl_mul_pow2 by lia. apply u32_id. unfold is_u32.
  assert (2 ^ bits <= 2 ^ 18) by (apply Z.pow_le_mono_r; lia). assert (0 < 2 ^ bits) by (apply Z.pow_pos_nonneg; lia).
  change (2 ^ 18) with 262144 in *. change (2 ^ 32) with 4294967296. nia.
Qed.

Lemma val_2 a b : 0 <= a < 64 -> 0 <= b < 64 -> Z.lor (placed a 18) (placed b 12) = (a * 64 + b) * 4096.
Proof.
  intros. rewrite !placed_eq by lia. replace (a * 2 ^ 18) with (a * 64 * 2 ^ 12) by (change (2 ^ 18) with (64 * 2 ^ 12); lia).
  rewrite <- !Z.shiftl_mul_pow2, <- Z.shiftl_lor, !Z.shiftl_mul_pow2 by lia. rewrite lor_64 by lia. done.
Qed.
Lemma val_3 a b c :
  0 <= a < 64 -> 0 <= b < 64 -> 0 <= c < 64 -> Z.lor (Z.lor (placed a 18) (placed b 12)) (placed c 6) = ((a * 64 + b) * 64 + c) * 64.
Proof.
  intros. rewrite val_2, placed_eq by lia. replace ((a * 64 + b) * 4096) with ((a * 64 + b) * 64 * 2 ^ 6) by (change (2 ^ 6) with 64; lia).
  rewrite <- !Z.shiftl_mul_pow2, <- Z.shiftl_lor, !Z.shiftl_mul_pow2 by lia. rewrite lor_64 by lia. done.
Qed.
Lemma val_4 a b c d :
  0 <= a < 64 -> 0 <= b < 64 -> 0 <= c < 64 -> 0 <= d < 64 ->
  Z.lor (Z.lor (Z.lor (placed a 18) (placed b 12)) (placed c 6)) (placed d 0) = ((a * 64 + b) * 64 + c) * 64 + d.
Proof. intros. rewrite val_3, placed_eq by lia. rewrite Z.pow_0_r, Z.mul_1_r. apply lor_64. lia. Qed.

(** Padding makes the value negative. *)
Lemma s32_negative v : Z.testbit v 31 = true -> s32 v < 0.
Proof.
  intros Hv. apply Z.testbit_true in Hv; [|lia]. unfold s32. change (2 ^ 32) with 4294967296. change (2 ^ 31) with 2147483648 in *.
  Z.div_mod_to_equations; lia.
Qed.

Lemma padding_negative v : s32 (Z.lor v (u32 (Z.shiftl (Base64Lookup (ch 0x3D)) 0))) < 0.
Proof. apply s32_negative. rewrite Z.lor_spec. apply orb_true_iff. by right. Qed.

(** ** The round trip *)

(** [done] is decoded and [l] is still to be read. *)
Record reading (s : state) (done l : list byte) : Prop := {
  reading_left : zdrop (ptr s) (buffer s) = l;
  reading_done : ztake (out s) (buffer s) = done;
  reading_place : 0 <= out s <= ptr s /\ zlen done = out s;
  reading_end : zlen (buffer s) = ptr s + zlen l;
}.

Lemma at_wp s done l n c (s' : state) Q :
  reading s done l -> 0 <= n -> nth_error l (Z.to_nat n) = Some c -> Q c s' -> wp (at_ s n) s' Q.
Proof.
  intros [Hl _ Hp _] Hn Hc HQ. unfold at_. eapply wp_lift; [|exact HQ]. rewrite <- Hc, <- Hl. unfold zdrop.
  rewrite nth_error_skipn. f_equal. lia.
Qed.

Lemma looked_up_wp s done l n bits d Q :
  reading s done l -> 0 <= n -> nth_error l (Z.to_nat n) = Some (kBase64 d) -> Q (placed d bits) s -> wp (looked_up n bits) s Q.
Proof.
  intros Hr Hn Hc HQ. unfold looked_up. apply wp_bind, wp_getS, wp_bind. eapply at_wp; [exact Hr|done|exact Hc|]. by apply wp_ret.
Qed.

(** A group is decoded. *)
Lemma store_wp s done l k bytes Q :
  reading s done (l ++ k) -> zlen bytes <= zlen l ->
  (forall s', reading {| buffer := buffer s'; out := out s'; ptr := ptr s' + zlen l; end_ := end_ s' |} (done ++ bytes) k ->
     ptr s' = ptr s -> end_ s' = end_ s -> ztake (out s') (buffer s') = done ++ bytes -> Q tt s') -> wp (store bytes) s Q.
Proof.
  intros [Hl Hd [Hp Hz] He] Hb HQ. unfold store. apply wp_modS. pose proof (zlen_nonneg bytes). pose proof (zlen_nonneg k).
  rewrite zlen_app in He. assert (zlen (splice (out s) bytes (buffer s)) = zlen (buffer s)) as Es by (apply zlen_splice; lia).
  assert (ztake (out s + zlen bytes) (splice (out s) bytes (buffer s)) = done ++ bytes) as Et by (rewrite ztake_splice, Hd by lia; done).
  apply HQ; [|done|done|exact Et]. split; simpl.
  - rewrite zdrop_splice by lia. rewrite <- zdrop_zdrop, Hl, zdrop_app_exact by (done || lia || apply zlen_nonneg). done.
  - exact Et.
  - rewrite zlen_app. lia.
  - lia.
Qed.

(** The bytes that three, two and one of the digits give. *)
Lemma group_bytes x y z :
  let v := ((first_of (b2z x) * 64 + second_of (b2z x) (b2z y)) * 64 + third_of (b2z y) (b2z z)) * 64 + fourth_of (b2z z) in
  v = b2z x * 65536 + b2z y * 256 + b2z z.
Proof.
  cbv zeta. unfold first_of, second_of, third_of, fourth_of.
  pose proof (b2z_range x). pose proof (b2z_range y). pose proof (b2z_range z). Z.div_mod_to_equations; lia.
Qed.

Lemma char_eq v b : v mod 256 = b2z b -> char v = b.
Proof. intros E. unfold char. rewrite <- z2b_mod, E. apply z2b_b2z. Qed.

Lemma shift_bytes v x y z :
  0 <= z < 256 -> v = b2z x * 65536 + b2z y * 256 + z ->
  char (Z.shiftr v 16) = x /\ char (Z.land (Z.shiftr v 8) 0xFF) = y.
Proof.
  intros Hz ->. pose proof (b2z_range x). pose proof (b2z_range y). change 0xFF with (Z.ones 8).
  rewrite Z.land_ones, !Z.shiftr_div_pow2 by lia. change (2 ^ 16) with 65536. change (2 ^ 8) with 256.
  split; apply char_eq; Z.div_mod_to_equations; lia.
Qed.

(** Nothing is left to decode. *)
Lemma remainder_done s done Q : reading s done [] -> end_ s = zlen (buffer s) -> Q true s -> wp remainder s Q.
Proof.
  intros Hr He HQ. pose proof (reading_end _ _ _ Hr) as Hend. change (zlen []) with 0 in Hend.
  unfold remainder. apply wp_bind, wp_getS. destruct (Z.ltb_spec (ptr s) (end_ s)); [lia|]. by apply wp_ret.
Qed.

(** The last group has one character of padding, or two. *)
Lemma padded_group_wp s done d1 d2 third n Q :
  reading s done [kBase64 d1; kBase64 d2; third; ch 0x3D] -> end_ s = zlen (buffer s) ->
  Q tt {| buffer := buffer s; out := out s; ptr := ptr s; end_ := end_ s - (if is_ch 0x3D third then 2 else 1) |} ->
  wp (groups_loop (S n)) s Q.
Proof.
  intros Hr He HQ. pose proof (reading_end _ _ _ Hr) as Hend. change (zlen [_; _; _; _]) with 4 in Hend. cbn [groups_loop].
  apply wp_bind. eapply looked_up_wp; [exact Hr|lia|reflexivity|]. apply wp_bind. eapply looked_up_wp; [exact Hr|lia|reflexivity|].
  apply wp_bind. unfold looked_up at 1. apply wp_bind, wp_getS, wp_bind. eapply at_wp; [exact Hr|lia|reflexivity|]. apply wp_ret.
  apply wp_bind. unfold looked_up at 1. apply wp_bind, wp_getS, wp_bind. eapply at_wp; [exact Hr|lia|reflexivity|]. apply wp_ret.
  cbv zeta. set (v := Z.lor (placed d1 18) _). pose proof (padding_negative (Z.lor v (u32 (Z.shiftl (Base64Lookup third) 6)))) as Hneg.
  destruct (Z.ltb_spec (s32 (Z.lor (Z.lor v (u32 (Z.shiftl (Base64Lookup third) 6))) (u32 (Z.shiftl (Base64Lookup (ch 0x3D)) 0)))) 0); [|lia].
  apply wp_bind, wp_getS, wp_bind. eapply at_wp; [exact Hr|lia|reflexivity|].
  destruct (Z.eqb_spec (end_ s - ptr s) 4); [|lia]. change (is_ch 0x3D (ch 0x3D)) with true. cbn [andb].
  apply wp_bind. eapply at_wp; [exact Hr|lia|reflexivity|]. by apply wp_modS.
Qed.

Lemma reading_end_irrelevant s done l e :
  reading s done l -> reading {| buffer := buffer s; out := out s; ptr := ptr s; end_ := e |} done l.
Proof. intros []. by split. Qed.

(** Two characters that are not padding give a byte. *)
Lemma remainder_two a s done pad1 pad2 :
  reading s done [kBase64 (first_of (b2z a)); kBase64 (second_of (b2z a) 0); pad1; pad2] -> end_ s - ptr s = 2 ->
  wp remainder s (fun r s' => r = true /\ ztake (out s') (buffer s') = done ++ [a]).
Proof.
  intros Hr He. pose proof (b2z_range a) as Ra. destruct (digits_range _ 0 0 Ra ltac:(lia) ltac:(lia)) as (D1 & D2 & _).
  unfold remainder. apply wp_bind, wp_getS. destruct (Z.ltb_spec (ptr s) (end_ s)); [|lia]. cbv zeta. rewrite He. cbn [Z.eqb Pos.eqb].
  apply wp_bind, wp_bind. eapply looked_up_wp; [exact Hr|lia|reflexivity|].
  apply wp_bind. eapply looked_up_wp; [exact Hr|lia|reflexivity|]. rewrite val_2 by done.
  destruct (shift_bytes ((first_of (b2z a) * 64 + second_of (b2z a) 0) * 4096) a (z2b 0) 0) as [-> _]; [lia| |].
  { rewrite b2z_z2b_small by lia. unfold first_of, second_of. rewrite Z.div_0_l by lia. Z.div_mod_to_equations; lia. }
  apply wp_bind. eapply (store_wp s done [_; _; _; _] [] [a]); [exact Hr|done|]. intros s' _ _ _ Et. apply wp_ret, wp_ret.
  split; [|done]. rewrite s32_id by (unfold is_s32; change (2 ^ 31) with 2147483648; lia). apply negb_true_iff, Z.ltb_ge. lia.
Qed.

Lemma remainder_three a b s done pad :
  reading s done [kBase64 (first_of (b2z a)); kBase64 (second_of (b2z a) (b2z b)); kBase64 (third_of (b2z b) 0); pad] ->
  end_ s - ptr s = 3 ->
  wp remainder s (fun r s' => r = true /\ ztake (out s') (buffer s') = done ++ [a; b]).
Proof.
  intros Hr He. pose proof (b2z_range a) as Ra. pose proof (b2z_range b) as Rb.
  destruct (digits_range _ _ 0 Ra Rb ltac:(lia)) as (D1 & D2 & D3 & _).
  unfold remainder. apply wp_bind, wp_getS. destruct (Z.ltb_spec (ptr s) (end_ s)); [|lia]. cbv zeta. rewrite He. cbn [Z.eqb Pos.eqb].
  apply wp_bind, wp_bind. eapply looked_up_wp; [exact Hr|lia|reflexivity|].
  apply wp_bind. eapply looked_up_wp; [exact Hr|lia|reflexivity|].
  apply wp_bind. eapply looked_up_wp; [exact Hr|lia|reflexivity|]. rewrite val_3 by done.
  set (v := ((first_of _ * 64 + _) * 64 + _) * 64). destruct (shift_bytes v a b 0) as [-> ->]; [lia| |].
  { unfold v, first_of, second_of, third_of. rewrite Z.div_0_l by lia. Z.div_mod_to_equations; lia. }
  apply wp_bind. eapply (store_wp s done [_; _; _; _] [] [a; b]); [exact Hr|done|]. intros s' _ _ _ Et. apply wp_ret, wp_ret.
  split; [|done]. rewrite s32_id by (unfold v, is_s32; change (2 ^ 31) with 2147483648; lia).
  apply negb_true_iff, Z.ltb_ge. unfold v. lia.
Qed.

(** A whole group. *)
Lemma group_wp a b c s done rest n Q :
  reading s done (four (b2z a) (b2z b) (b2z c) ++ rest) -> end_ s = zlen (buffer s) ->
  (forall s', reading s' (done ++ [a; b; c]) rest -> end_ s' = zlen (buffer s') -> wp (groups_loop n) s' Q) ->
  wp (groups_loop (S n)) s Q.
Proof.
  intros Hr He HQ. pose proof (b2z_range a) as Ra. pose proof (b2z_range b) as Rb. pose proof (b2z_range c) as Rc.
  destruct (digits_range _ _ _ Ra Rb Rc) as (D1 & D2 & D3 & D4). pose proof (group_bytes a b c) as Ev. cbv zeta in Ev.
  unfold four in Hr. rewrite first_eq, second_eq, third_eq, fourth_eq in Hr by done. cbn [groups_loop].
  apply wp_bind. eapply looked_up_wp; [exact Hr|lia|reflexivity|]. apply wp_bind. eapply looked_up_wp; [exact Hr|lia|reflexivity|].
  apply wp_bind. eapply looked_up_wp; [exact Hr|lia|reflexivity|]. apply wp_bind. eapply looked_up_wp; [exact Hr|lia|reflexivity|].
  cbv zeta. rewrite val_4, Ev by done. set (v := b2z a * 65536 + b2z b * 256 + b2z c).
  rewrite s32_id by (unfold v, is_s32; change (2 ^ 31) with 2147483648; lia). destruct (Z.ltb_spec v 0); [unfold v in *; lia|].
  destruct (shift_bytes v a b (b2z c) Rc eq_refl) as [-> ->]. assert (char (Z.land v 0xFF) = c) as ->.
  { apply char_eq. change 0xFF with (Z.ones 8). rewrite Z.land_ones by lia. change (2 ^ 8) with 256. unfold v. Z.div_mod_to_equations; lia. }
  apply wp_bind. eapply (store_wp s done [_; _; _; _] rest [a; b; c]); [exact Hr|done|]. intros s' Hr' Ep Ee _.
  apply wp_bind, wp_modS. apply HQ; [exact Hr'|]. simpl. rewrite Ee, He.
  pose proof (reading_end _ _ _ Hr) as E1. pose proof (reading_end _ _ _ Hr') as E2. simpl in E2. rewrite zlen_app in E1.
  change (zlen [_; _; _; _]) with 4 in *. lia.
Qed.

(** Both parts of the function, from any point of the text. *)
Lemma base64_decode_wp n str s done :
  (length str <= n)%nat -> reading s done (base64_of str) -> end_ s = zlen (buffer s) ->
  wp (groups_loop (Z.to_nat (zlen (base64_of str) / 4)) ;;; remainder) s (fun r s' => r = true /\ ztake (out s') (buffer s') = done ++ str).
Proof.
  revert str s done. induction n as [|n IH]; intros str s done Hn Hr He.
  { destruct str; [|simpl in Hn; lia]. apply wp_bind, wp_ret. eapply remainder_done; [exact Hr|done|].
    by rewrite app_nil_r, (reading_done _ _ _ Hr). }
  destruct str as [|a [|b [|c str]]].
  - apply wp_bind, wp_ret. eapply remainder_done; [exact Hr|done|]. by rewrite app_nil_r, (reading_done _ _ _ Hr).
  - cbn [base64_of] in *. rewrite first_eq, second_alone in *. change (zlen [_; _; _; _] / 4) with 1.
    apply wp_bind. eapply padded_group_wp; [exact Hr|done|]. change (is_ch 0x3D (ch 0x3D)) with true. cbv iota.
    eapply remainder_two; [by apply reading_end_irrelevant|]. simpl.
    pose proof (reading_end _ _ _ Hr) as Hend. change (zlen [_; _; _; _]) with 4 in Hend. lia.
  - pose proof (b2z_range b) as Rb. pose proof (b2z_range a) as Ra.
    destruct (digits_range _ _ 0 Ra Rb ltac:(lia)) as (_ & _ & D3 & _).
    cbn [base64_of] in *. rewrite first_eq, second_eq, third_alone in * by done. change (zlen [_; _; _; _] / 4) with 1.
    apply wp_bind. eapply padded_group_wp; [exact Hr|done|]. rewrite kBase64_not_padding by done.
    eapply remainder_three; [by apply reading_end_irrelevant|]. simpl.
    pose proof (reading_end _ _ _ Hr) as Hend. change (zlen [_; _; _; _]) with 4 in Hend. lia.
  - cbn [base64_of] in *. assert (Z.to_nat (zlen (four (b2z a) (b2z b) (b2z c) ++ base64_of str) / 4) = S (Z.to_nat (zlen (base64_of str) / 4))) as ->.
    { rewrite zlen_app. change (zlen (four _ _ _)) with 4. pose proof (zlen_nonneg (base64_of str)). Z.div_mod_to_equations; lia. }
    apply wp_bind. eapply group_wp; [exact Hr|done|]. intros s' Hr' He'. apply wp_bind_inv. eapply wp_mono.
    + apply (IH str s' (done ++ [a; b; c])); [simpl in Hn; lia|done|done].
    + cbv beta. intros r s2 [-> Et]. by rewrite Et, <- app_assoc.
Qed.

(** Decoding what the writer prints gives the bytes. *)
Lemma decode_base64_of str : DecodeBase64InPlace (base64_of str) = Some (Some str).
Proof.
  unfold DecodeBase64InPlace. set (s := {| buffer := _ |}).
  assert (reading s [] (base64_of str)) as Hr.
  { unfold s. split; simpl; [by rewrite zdrop_0|by rewrite ztake_0|done|lia]. }
  destruct (wp_inv _ _ _ (base64_decode_wp _ str s [] (le_n _) Hr eq_refl)) as (r & s' & -> & -> & Et). by rewrite Et.
Qed.

(** ** What is written *)

Section written.
Context {S : Type} `{ZeroCopyOutputStreamOk S}.

Lemma WriteBase64_loop_wp n str (w : writer S) :
  (length str <= n)%nat -> ByteSink.wf (sink_ w) -> wp (WriteBase64_loop str) w (fun _ w' => wrote (base64_of str) w w').
Proof.
  revert str w. induction n as [|n IH]; intros str w Hn Hw.
  { destruct str; [|simpl in Hn; lia]. apply wp_ret. by apply json_wrote_nil. }
  destruct str as [|a [|b [|c str]]]; cbn [WriteBase64_loop base64_of].
  - apply wp_ret. by apply json_wrote_nil.
  - by apply Write_wp.
  - by apply Write_wp.
  - apply wrote_bind; [by apply Write_wp|]. intros w' Hw'. apply IH; [simpl in Hn; lia|done].
Qed.

Lemma WriteBase64_wp str (w : writer S) :
  ByteSink.wf (sink_ w) -> wp (WriteBase64 str) w (fun _ w' => wrote (ch 0x22 :: base64_of str ++ [ch 0x22]) w w').
Proof.
  intros Hw. apply (wrote_bind [ch 0x22]); [by apply Write_wp|]. intros w1 Hw1.
  apply wrote_bind; [by apply (WriteBase64_loop_wp (length str))|]. intros w2 Hw2. by apply Write_wp.
Qed.
End written.

(** C12: Bytes come back from base64. Over any output stream, in any state of the
    sink, [WriteBase64] appends, if nothing fails, a text between two quotes, and
    [DecodeBase64InPlace], which overwrites the text while it reads it, succeeds
    on that text and gives the bytes. *)
Theorem base64_roundtrip {S} `{ZeroCopyOutputStreamOk S} (w : writer S) (str : list byte) :
  ByteSink.wf (sink_ w) ->
  wp (WriteBase64 str) w (fun _ w' => exists text,
    ByteSink.appended ([ch 0x22] ++ text ++ [ch 0x22]) (sink_ w) (sink_ w') /\ DecodeBase64InPlace text = Some (Some str)).
Proof.
  intros Hw. eapply wp_mono; [by apply WriteBase64_wp|]. cbv beta. intros [] w' [Ha _]. eexists. split; [exact Ha|].
  apply decode_base64_of.
Qed.

Lemma base64_roundtrip_witness :
  ByteSink.wf (sink_ sample_writer) /\
  wp (WriteBase64 sample_string) sample_writer (fun _ w' => exists text,
    ByteSink.appended ([ch 0x22] ++ text ++ [ch 0x22]) (sink_ sample_writer) (sink_ w') /\
    DecodeBase64InPlace text = Some (Some sample_string)).
Proof.
  assert (ByteSink.wf (sink_ sample_writer)) as Hw.
  { apply ByteSink.make_wf, StringOutputStream.string_output_make_wf; [vm_compute; discriminate|intros; lia]. }
  split; [exact Hw|]. exact (base64_roundtrip sample_writer sample_string Hw).
Defined.

(** The same at work, and texts that are refused: one character, three padding
    characters, and padding that does not end the text. *)
Example base64_examples :
  map (fun l => DecodeBase64InPlace (map ch l))
    [[0x41; 0x51; 0x49; 0x44]; [0x41; 0x41; 0x41]; [0x41]; [0x41; 0x3D; 0x3D; 0x3D]; [0x41; 0x41; 0x3D; 0x3D; 0x41; 0x41; 0x41; 0x41]] =
  [Some (Some (map ch [1; 2; 3])); Some (Some (map ch [0; 0])); Some None; Some None; Some None].
Proof. vm_compute. reflexivity. Qed.
